(* ===== verification/_CoqProject ===== *)
-Q . S2P
Prelude.v
JsNumber.v
JsArith.v
JsString.v
JsDate.v
JsRegExp.v
Utf8.v
ThriftIO.v
ThriftProtocol.v
ThriftValue.v
ThriftCompact.v
ThriftBinary.v
Protobuf.v
ProtobufWire.v
ProtobufMessage.v
ParquetLevels.v
ParquetDelta.v
ParquetEncoding.v
ParquetNested.v
ParquetConvert.v
ParquetMetadata.v
ParquetFooter.v
ParquetSchema.v
ParquetTree.v
Scanner.v
ScannerText.v
Csv.v
Bytes.v
TextDecoder.v
TextLines.v
EventStream.v
Store.v
MemoryStore.v
SqliteStore.v
StoreHistories.v
Cache.v
Semver.v
Path.v
Glob.v
GlobPattern.v
GlobWalk.v
Cron.v
CronSyntax.v
Dns.v
DnsNames.v
DnsPunycode.v
DnsLabels.v
DnsMessages.v
ClusterFraming.v
ClusterRegistry.v
ClusterSeed.v
SerialExecutor.v
TaskChannel.v
Signals.v
SignalsConsistent.v
WebSocketFrames.v
WebSocketConnection.v
