(* ===== verification/Prelude.v ===== *)
(** * fino: a verified core

    fino is a JavaScript runtime whose standard library is TypeScript under
    src/js.  This development models the parts of that library that carry
    logic of their own and proves what makes them correct.

    ** Parts of the program and their files

    - src/js/internal/encoding.ts, the UTF-8 encoder and decoder behind
      TextEncoder, TextDecoder and every string on the wire: [Utf8].
    - src/js/internal/format/thrift, the Thrift codec that Parquet metadata is
      stored in.  io.ts ([ByteReader], [ByteWriter], varints) is [ThriftIO];
      types.ts and the [Protocol] interface of protocol.ts are
      [ThriftProtocol], where the interface is a type class and what its
      clients rely on a class of laws; value.ts, written against the
      interface, is [ThriftValue]; compact.ts and binary.ts are the instances
      [ThriftCompact] and [ThriftBinary].
    - src/js/format/protobuf.ts, schemas, the wire writer and reader and the
      message codec of protocol buffers: the definitions are [Protobuf], the
      lemmas on its writer and reader [ProtobufWire], those on messages
      [ProtobufMessage].
    - src/js/data/parquet: levels.ts, the RLE / bit-packed hybrid, is
      [ParquetLevels]; delta.ts is [ParquetDelta], its BYTE_STREAM_SPLIT part
      [ParquetEncoding] together with encoding.ts (PLAIN and dictionary
      pages).  They read and write through the cursors of [ThriftIO], as the
      source does.  nested.ts, shredding nested rows into levels and values and
      assembling them, is [ParquetNested]; schema.ts is [ParquetSchema] with the
      stored forms of values in [ParquetConvert], and the elements of nested
      schemas are [ParquetTree]; metadata.ts, the footer and the page headers,
      is [ParquetMetadata], its round trip [ParquetFooter].
    - src/js/parsing/scanner.ts in the mode src/js/semver.ts uses is
      [Scanner]; semver.ts itself (parsing, precedence, ranges, selection) is
      [Semver].  The byte side of the scanner is in [Scanner] too, its UTF-8
      mode is [ScannerText], and src/js/format/csv.ts, which uses that mode for
      whole texts and for streams of chunks, is [Csv].
    - src/js/internal/jobs/cron.ts, cron expressions and the next occurrence of
      a schedule: the definitions and the search are [Cron], the syntax
      [CronSyntax].
    - src/js/internal/net/dns-wire.ts, DNS names, queries and responses: the
      definitions are [Dns], the theorems [DnsNames] (decoding names),
      [DnsPunycode] (labels in normal form, against a decoder of RFC 3492 of its
      own), [DnsLabels] (encoding names) and [DnsMessages].
    - The language: [JsNumber] (doubles as bit patterns), [JsArith] (arithmetic
      with the rounding of doubles), [JsString] (string methods), [JsDate]
      (time values, ECMA-262's calendar).
    - src/js/file/path.ts, normalisation, joining, resolution and taking apart
      of path strings, on POSIX and on Windows: [Path].
    - src/js/internal/file/glob.ts, glob patterns and the directory walker: [Glob];
      what a pattern denotes and that its compiled expression decides that is
      [GlobPattern], the class and the walk [GlobWalk].  The regular expressions of
      the language, as far as it uses them, are [JsRegExp].
    - src/js/internal/cluster/webtransport-framing.ts, length-prefixed frames,
      their incremental reader, and the protocol-buffer metadata that opens a
      stream, is [ClusterFraming]; registry.ts, the
      ownership tree of realm ports, is [ClusterRegistry]; seed.ts, the router of
      the cluster, its message handlers and heartbeat sweep over that registry, is
      [ClusterSeed].
    - src/js/internal/serial-executor.ts, FIFO gates over a linked list and
      their keyed version, is [SerialExecutor] (modules [Serial] and [Keyed]).
    - src/js/internal/concurrent-task-channel.ts, bounded admission with
      ordered output, is [TaskChannel].
    - src/js/net/http/websocket.ts: the chunk buffer, masking and frames are
      [WebSocketFrames], the connection with its reader and the queue through which
      frames are written [WebSocketConnection].
    - src/js/store.ts, key-value stores: the interface as a type class with its
      laws, and what the operations promise, are [Store]; its two providers are
      the instances [MemoryStore] and [SqliteStore] (with the binding of parameters
      of src/js/database/sqlite.ts), and [StoreHistories] has the theorems on
      histories of operations.  src/js/cache.ts, a cache over any
      such store, is [Cache].
    - src/js/internal/bytes.ts (joining, bounded collection, comparison) with
      btoa and atob of src/js/globals/encoding.ts and base64url of
      src/js/internal/security/encoding.ts: [Bytes].
    - TextDecoder and encodeInto of src/js/globals/encoding.ts with decodeText of
      src/js/internal/stream/text.ts: [TextDecoder]; its splitLines and readLines:
      [TextLines]; src/js/net/http/eventstream.ts, which reads server-sent events
      through both: [EventStream].
    - src/js/signals.ts, reactive values, their batches, derived values, effects and
      lazy signals: [Signals], the theorem about them [SignalsConsistent].

    Each definition has the name of the function or method it models where
    that is free; a method of a mutable object is a function on its state.

    ** How JavaScript is modelled

    A function that can throw returns [res]; a method with state is in the
    monad [ST].  Numbers used as integers are [Z]; the 32-bit operators convert
    with ToInt32 and ToUint32 as ECMAScript says ([js_scope] has them as infix
    notations), bigint operators act on [Z].  A double that
    is stored is its IEEE-754 bit pattern, one that is computed with is a
    rational that is rounded after each operation.  Bytes are integers below 256, strings are lists of UTF-16 code
    units.  A [Map] whose order matters is an association list ([JMap]), one
    whose order does not is a [gmap].  Asynchronous code is a set of handlers:
    a step is one synchronous call, the microtasks, listeners and
    continuations that the event loop holds for an object are part of the
    state, and a history is a sequence of steps with the promises they settle
    as outputs.

    ** Fuel

    Loops that are not structural take fuel and return [Throw Diverges] when
    it runs out, so a theorem that concludes [Ok] also says that they end.  The
    fuel each caller passes is a bound on the rounds: the bytes left, since a
    round reads at least one (decoders, scanners, frames); the bits of a value
    (bit packing, digits); for reading Thrift values, whose fuel is shared by
    the nesting and the element loops, a linear function of the input length
    ([compact_read_terminates], [binary_read_terminates]);
    the number of ports (registry); the messages that wait (seed).  Protobuf messages are decoded with the
    bytes left as fuel for the fields, the groups and the nesting, each of
    which takes at least one byte ([protobuf_decode_typed]); its writer doubles
    its buffer at most 64 times.  The search for the next occurrence of a
    schedule moves to a later hour in every round, so the hours of five years
    are enough ([nextOccurrence_least]).  Decoding a DNS name visits each offset
    of the message once at most ([decodeName_exact]).  The footer of a Parquet
    file is read with the fuel of Thrift values, a schema of nested elements with
    one round per element ([schema_parse_terminates]); the WebSocket reader and
    the CSV loops take at least one byte per round.  Notifications of signals nest at
    most as deep as there are signals ([signals_consistent]), a walk as deep as the
    tree ([glob_walks]).  The two loops of [TaskChannel] stop when
    the fuel, the number of waiters, is used up, and [channel_progress] shows
    that nothing is left to do then.

    ** What the theorems show

    - Codecs: round trips for every well-formed value, that decoding ends on
      every input, that fatal UTF-8 decoding accepts canonical input only, and
      where a round trip fails, exactly what is returned instead
      ([rle_hybrid_decodes], [delta_extremes_lost]).
    - Refinement: the growing buffer of [ByteWriter] implements a byte
      sequence ([ByteWriter_refines]); the linked list of [SerialExecutor]
      implements a queue, output by output ([serial_refines]).
    - Protocol buffers: what one schema writes, any compatible schema reads
      ([protobuf_evolution]), and decoding arbitrary bytes gives a message of
      the schema's type or a [ProtobufError] ([protobuf_decode_typed]).
    - Paths: [normalize], [resolve], [relative], [dirname] and [basename] are
      related to walking a tree of directories; the paths that normalisation
      sends elsewhere are characterised ([normalize_escapes]).
    - Globs: the regular expression of a pattern matches what the pattern denotes
      ([glob_matches]); the walker emits exactly what matches, and pruning loses
      nothing ([glob_walks]).
    - Schedules: [parseField] accepts a grammar and returns the set that it
      denotes; [nextOccurrence] is the least time after the given one at which
      the schedule fires, and its error means that there is none in five years;
      near the end of the five years it may return a later time.
    - DNS: [_decodeName] implements the reading of compressed names of RFC 1035
      without false alarms of its loop test, and inverts [_encodeName], whose labels
      decode as punycode to the labels of the name; parsing any message ends.
    - Versions: parsing and printing invert each other, precedence is a strict
      total order, caret and tilde ranges select what they promise,
      [maxSatisfying] is a maximum.
    - Parquet: schemas, footers and nested rows are read back as they were
      written ([schema_roundtrip], [footer_roundtrip], [nested_roundtrip]), also
      through the emitted schema ([nested_schema_roundtrip]).
    - CSV: written rows are parsed back whatever they hold, from a whole text and,
      with line feeds, from any chunks ([csv_roundtrip], [csv_stream]).
    - WebSocket: a conforming peer's messages are delivered whole and in order
      ([websocket_delivery]); for every byte stream reading ends, independently of
      the chunks, with one close event and at most one close frame ([pump_total],
      [pump_closes_once]).  How far the queue of writes gets between two frames that
      are read is an arbitrary function ([ticks]).
    - Stores and caches: the two providers implement the specification and so agree
      on strings, values and times that SQLite keeps ([stores_agree]); a commit that checks a version succeeds only if nothing
      changed in between ([store_optimistic]); over every lawful store a cache is
      a list in the order of use ([cache_lru]) within its bound ([cache_bound]).
    - Text: bytes decode to the same text in any chunks ([decodeText_whole]), events
      arrive as they were written ([event_stream_roundtrip]), and base64url has one
      text per byte sequence ([base64url_canonical]).
    - Signals: after any history every derived value and effect has seen what the
      signals hold now and is subscribed to what it read ([signals_consistent]).
    - Cluster: frames are reassembled whatever the chunking; the registry
      stays a forest with an exact node index when ids are new and parents come
      first, and without cycles and with every port indexed when they are not
      ([registry_invariant]), and removals from the forest take exactly the
      subtrees, children first; the seed lets out the messages of a port in order
      and its exit after them, whatever the order in which they come
      ([seed_routes]).
    - Concurrency: executors run one operation at a time in acceptance order
      and lose none, per key too; the task channel keeps within its capacity,
      delivers every result once in the promised order, and a request that is ready
      waits only for slots or behind one for the whole channel.

    The hypotheses of a theorem say for which inputs it holds; where the program does
    something else for the others, an example next to it shows what
    ([negative_zero_lost], [dollar_quote_not_doubled], [split_crlf_adds_row],
    [byte_order_mark_lost], [pong_after_close], [huge_ttl_expires],
    [nul_names_share_recency], [late_occurrence] and others).

    ** What is not modelled

    Code that drives the host or native libraries (sockets, TLS, QUIC, HTTP
    sessions, databases, the event loop), the AI, UI, tooling and telemetry
    layers, and the native host.  Within the modelled files: Arrow vectors and
    file assembly of Parquet, the handshake and compression of WebSocket, the JSON
    form of Thrift values, error-message interpolation, and line and column tracking
    of the scanner.  Operations on a store follow
    one another and read the clock once; its default codec and the opening of
    databases are left out.  Callbacks of computed and effect that write signals, or
    that throw, are in the model of signals but not in its theorem: the examples in
    [SignalsConsistent] show what goes wrong after one throws.
    The timer of the seed, the environment it reads its intervals from, the transport
    under it and the client at its other end are left out; its theorem supposes that no
    acknowledged realm has its own parent port, which
    the seed does not check ([seed_self_parent_diverges] in [ClusterSeed]).

    This file holds what the others share: outcomes and state passing, 32-bit
    arithmetic, byte orders, insertion-ordered maps, and the tactics [zdm],
    [zcases] and [solve_ranges]. *)

From stdpp Require Export base option list list_numbers numbers strings gmap.
From Stdlib Require Export ZArith Lia.
#[export] Set Default Goal Selector "!".
Global Open Scope Z_scope.

(** * Outcomes of JavaScript code

    A function that can throw returns [res]; [Diverges] is the outcome of a
    loop whose fuel ran out, so that a theorem concluding [Ok] also says the
    loop ends.  Interpolated parts of error messages are left out. *)

Inductive exn :=
| TypeError (msg : string)
| RangeError (msg : string)
| JsError (msg : string)
| ThriftError (offset : Z) (msg : string)
| ParquetError (msg : string)
| ProtobufError (offset : option Z) (msg : string)
| AbortReason
| Diverges.

Inductive res (A : Type) :=
| Ok (a : A)
| Throw (e : exn).
Arguments Ok {A} a.
Arguments Throw {A} e.

Global Instance res_ret : MRet res := fun A a => Ok a.
Global Instance res_bind : MBind res :=
  fun A B f m => match m with Ok a => f a | Throw e => Throw e end.

(** State passing with exceptions: the methods of a mutable object. *)
Definition ST (S A : Type) : Type := S -> res (A * S).

Global Instance ST_ret {S} : MRet (ST S) := fun A a s => Ok (a, s).
Global Instance ST_bind {S} : MBind (ST S) :=
  fun A B f m s => match m s with Ok (a, s') => f a s' | Throw e => Throw e end.
Definition liftR {S A} (m : res A) : ST S A :=
  fun s => match m with Ok a => Ok (a, s) | Throw e => Throw e end.
Definition throw {S A} (e : exn) : ST S A := fun _ => Throw e.

(** [for (const x of l) f(x)] *)
Definition forEach {S A} (f : A -> ST S unit) : list A -> ST S unit :=
  fix go l := match l with [] => mret tt | x :: l => f x;; go l end.

Lemma ST_bind_ok {S A B} (m : ST S A) (f : A -> ST S B) s a s' :
  m s = Ok (a, s') -> (m ≫= f) s = f a s'.
Proof. unfold mbind, ST_bind. by intros ->. Qed.

Lemma ST_bind_assoc {S A B C} (m : ST S A) (f : A -> ST S B) (g : B -> ST S C) s :
  ((m ≫= f) ≫= g) s = (m ≫= (fun a => f a ≫= g)) s.
Proof. unfold mbind, ST_bind. by destruct (m s) as [[a s']|e]. Qed.

Lemma ST_bind_inv {S A B} (m : ST S A) (f : A -> ST S B) s b s'' :
  (m ≫= f) s = Ok (b, s'') ->
  exists a s', m s = Ok (a, s') /\ f a s' = Ok (b, s'').
Proof.
  unfold mbind, ST_bind. destruct (m s) as [[a s']|e]; [eauto|discriminate].
Qed.

Lemma res_bind_inv {A B} (m : res A) (f : A -> res B) b :
  (m ≫= f) = Ok b -> exists a, m = Ok a /\ f a = Ok b.
Proof. unfold mbind, res_bind. destruct m; [eauto|discriminate]. Qed.

(** * JavaScript numbers as integers

    Numbers that the modelled code only uses as integers are [Z]; the bitwise
    operators convert to 32 bits first, as ECMAScript's ToInt32/ToUint32 do,
    and bigint operators act on [Z] directly. *)

Definition toUint32 (x : Z) : Z := x mod 2 ^ 32.
Definition toInt32 (x : Z) : Z :=
  let u := x mod 2 ^ 32 in if u <? 2 ^ 31 then u else u - 2 ^ 32.

Definition js_and (a b : Z) : Z := Z.land (toInt32 a) (toInt32 b).
Definition js_or (a b : Z) : Z := Z.lor (toInt32 a) (toInt32 b).
Definition js_xor (a b : Z) : Z := Z.lxor (toInt32 a) (toInt32 b).
Definition js_shl (a n : Z) : Z := toInt32 (Z.shiftl (toInt32 a) (Z.land n 31)).
Definition js_shr (a n : Z) : Z := Z.shiftr (toInt32 a) (Z.land n 31).
Definition js_ushr (a n : Z) : Z := Z.shiftr (toUint32 a) (Z.land n 31).

(** The operators as infix notations. *)
Declare Scope js_scope.
Infix "&₃₂" := js_and (at level 40, left associativity) : js_scope.
Infix "|₃₂" := js_or (at level 40, left associativity) : js_scope.
Infix "^₃₂" := js_xor (at level 40, left associativity) : js_scope.
Infix "<<₃₂" := js_shl (at level 40, left associativity) : js_scope.
Infix ">>₃₂" := js_shr (at level 40, left associativity) : js_scope.
Infix ">>>₃₂" := js_ushr (at level 40, left associativity) : js_scope.
Global Open Scope js_scope.
Global Open Scope Z_scope.

(** [BigInt.asUintN] *)
Definition asUintN (bits x : Z) : Z := x mod 2 ^ bits.

(** [Number.isSafeInteger] on an integer. *)
Definition isSafeInteger (x : Z) : bool := Z.abs x <=? 2 ^ 53 - 1.

(** Two's-complement reading of the low [bits] bits. *)
Definition signedN (bits x : Z) : Z :=
  let u := x mod 2 ^ bits in if u <? 2 ^ (bits - 1) then u else u - 2 ^ bits.

Definition is_byte (b : Z) : Prop := 0 <= b < 256.
Definition is_int (bits x : Z) : Prop := - 2 ^ (bits - 1) <= x < 2 ^ (bits - 1).

Lemma toInt32_signedN x : toInt32 x = signedN 32 x.
Proof. reflexivity. Qed.

Lemma signedN_small bits x : 0 < bits -> is_int bits x -> signedN bits x = x.
Proof.
  unfold is_int, signedN. intros Hb H.
  assert (2 ^ bits = 2 * 2 ^ (bits - 1)) as E.
  { replace bits with (Z.succ (bits - 1)) at 1 by lia. rewrite Z.pow_succ_r; lia. }
  rewrite E. set (h := 2 ^ (bits - 1)) in *.
  destruct (decide (0 <= x)).
  - rewrite Z.mod_small by lia. destruct (Z.ltb_spec x h); lia.
  - replace (x mod (2 * h)) with (x + 2 * h).
    + destruct (Z.ltb_spec (x + 2 * h) h); lia.
    + apply Z.mod_unique with (q := -1); lia.
Qed.

Lemma toInt32_small x : is_int 32 x -> toInt32 x = x.
Proof. rewrite toInt32_signedN. by apply signedN_small. Qed.

Lemma signedN_mod bits x : 0 <= bits -> signedN bits (x mod 2 ^ bits) = signedN bits x.
Proof. intros H. unfold signedN. rewrite Zmod_mod. done. Qed.

Lemma signedN_range bits x : 0 < bits -> is_int bits (signedN bits x).
Proof.
  unfold is_int, signedN. intros Hb.
  assert (2 ^ bits = 2 * 2 ^ (bits - 1)) as E.
  { replace bits with (Z.succ (bits - 1)) at 1 by lia. rewrite Z.pow_succ_r; lia. }
  pose proof (Z.mod_pos_bound x (2 ^ bits)). rewrite E in *.
  assert (0 < 2 ^ (bits - 1)) by (apply Z.pow_pos_nonneg; lia).
  destruct (Z.ltb_spec (x mod (2 * 2 ^ (bits - 1))) (2 ^ (bits - 1))); lia.
Qed.

Lemma signedN_cong bits x : 0 < bits -> signedN bits x mod 2 ^ bits = x mod 2 ^ bits.
Proof.
  intros Hb. unfold signedN. destruct (_ <? _).
  - apply Zmod_mod.
  - rewrite <- Zminus_mod_idemp_r, Z_mod_same_full, Z.sub_0_r. apply Zmod_mod.
Qed.

Lemma signedN_mod_nonneg bits x :
  0 < bits -> 0 <= x < 2 ^ (bits - 1) -> signedN bits x = x.
Proof. intros. apply signedN_small; unfold is_int; lia. Qed.

Lemma toUint32_small x : 0 <= x < 2 ^ 32 -> toUint32 x = x.
Proof. intros. unfold toUint32. by rewrite Z.mod_small. Qed.

Lemma is_int32_nonneg x : 0 <= x < 2 ^ 31 -> is_int 32 x.
Proof. unfold is_int. change (2 ^ (32 - 1)) with (2 ^ 31). lia. Qed.

(** Masks, shifts and disjoint unions as arithmetic. *)
Lemma land_ones_mod x n m : 0 <= n -> m = 2 ^ n - 1 -> Z.land x m = x mod 2 ^ n.
Proof. intros Hn ->. rewrite <- Z.land_ones by lia. by rewrite Z.ones_equiv. Qed.

Lemma land_disjoint a b n : 0 <= n -> 0 <= a < 2 ^ n -> Z.land a (Z.shiftl b n) = 0.
Proof.
  intros Hn Ha. apply Z.bits_inj'. intros i Hi. rewrite Z.land_spec, Z.bits_0.
  destruct (decide (i < n)).
  - rewrite Z.shiftl_spec_low by lia. apply andb_false_r.
  - rewrite <- (Z.mod_small a (2 ^ n)) by lia. by rewrite Z.mod_pow2_bits_high by lia.
Qed.

Lemma lor_disjoint_add a b n :
  0 <= n -> 0 <= a < 2 ^ n -> Z.lor a (Z.shiftl b n) = a + b * 2 ^ n.
Proof.
  intros Hn Ha. pose proof (land_disjoint a b n Hn Ha).
  rewrite <- Z.shiftl_mul_pow2 by lia. rewrite <- Z.lxor_lor by done.
  symmetry. by apply Z.add_nocarry_lxor.
Qed.

Lemma js_and_ones x m n :
  0 <= n <= 31 -> m = 2 ^ n - 1 -> js_and x m = x mod 2 ^ n.
Proof.
  intros Hn ->. unfold js_and. rewrite (toInt32_small (2 ^ n - 1)).
  - rewrite (land_ones_mod _ n) by lia. rewrite toInt32_signedN.
    replace 32 with (n + (32 - n)) by lia.
    assert (forall y, y mod 2 ^ n = (y mod 2 ^ (n + (32 - n))) mod 2 ^ n) as E.
    { intros y. rewrite Z.pow_add_r by lia. symmetry.
      rewrite Z.rem_mul_r by (try apply Z.pow_nonzero; try apply Z.pow_pos_nonneg; lia).
      rewrite Z.mul_comm, Z.mod_add by (apply Z.pow_nonzero; lia). apply Zmod_mod. }
    rewrite E, signedN_cong by lia. by rewrite <- E.
  - unfold is_int. pose proof (Z.pow_le_mono_r 2 n 31). pose proof (Z.pow_pos_nonneg 2 n).
    change (2 ^ (32 - 1)) with (2 ^ 31). lia.
Qed.

Lemma js_and_byte b : is_byte b -> js_and b 255 = b.
Proof.
  intros Hb. rewrite (js_and_ones _ _ 8) by lia. unfold is_byte in Hb.
  apply Z.mod_small. lia.
Qed.

(** * Bytes: little- and big-endian integers (DataView accessors) *)

Fixpoint le_bytes (n : nat) (x : Z) : list Z :=
  match n with O => [] | S n => x mod 256 :: le_bytes n (x / 256) end.
Fixpoint le_val (l : list Z) : Z :=
  match l with [] => 0 | b :: l => b + 256 * le_val l end.
Definition be_bytes (n : nat) (x : Z) : list Z := reverse (le_bytes n x).
Definition be_val (l : list Z) : Z := le_val (reverse l).

Lemma length_le_bytes n x : length (le_bytes n x) = n.
Proof. revert x. induction n; intros x; simpl; by rewrite ?IHn. Qed.

Lemma length_be_bytes n x : length (be_bytes n x) = n.
Proof. unfold be_bytes. by rewrite length_reverse, length_le_bytes. Qed.

Lemma le_bytes_byte n x : Forall is_byte (le_bytes n x).
Proof.
  revert x. induction n; intros x; constructor; [|apply IHn].
  apply Z.mod_pos_bound. lia.
Qed.

Lemma be_bytes_byte n x : Forall is_byte (be_bytes n x).
Proof. unfold be_bytes. apply Forall_reverse, le_bytes_byte. Qed.

Lemma pow_8S n : 2 ^ (8 * Z.of_nat (S n)) = 256 * 2 ^ (8 * Z.of_nat n).
Proof.
  rewrite Nat2Z.inj_succ, Z.mul_succ_r, Z.add_comm, Z.pow_add_r by lia. done.
Qed.

Lemma le_val_bytes n x : le_val (le_bytes n x) = x mod 2 ^ (8 * Z.of_nat n).
Proof.
  revert x. induction n as [|n IH]; intros x; simpl le_bytes; simpl le_val.
  - change (2 ^ _) with 1. by rewrite Z.mod_1_r.
  - rewrite IH, pow_8S, Z.rem_mul_r; [lia|lia|].
    apply Z.pow_pos_nonneg; lia.
Qed.

Lemma be_val_bytes n x : be_val (be_bytes n x) = x mod 2 ^ (8 * Z.of_nat n).
Proof. unfold be_val, be_bytes. rewrite reverse_involutive. apply le_val_bytes. Qed.

Lemma le_val_range l : Forall is_byte l -> 0 <= le_val l < 2 ^ (8 * Z.of_nat (length l)).
Proof.
  induction 1 as [|b l Hb Hl IH]; [simpl; lia|].
  cbn [length]. rewrite pow_8S. simpl le_val. unfold is_byte in Hb. lia.
Qed.

Lemma le_bytes_val l : Forall is_byte l -> le_bytes (length l) (le_val l) = l.
Proof.
  induction 1 as [|b l Hb Hl IH]; [done|]. unfold is_byte in Hb. simpl.
  rewrite Z.mul_comm, Z.mod_add, Z.div_add by lia.
  rewrite Z.mod_small, Z.div_small, Z.add_0_l by lia. by rewrite IH.
Qed.

(** Signed read-back of a signed write. *)
Lemma be_signed_roundtrip n x :
  (0 < n)%nat -> is_int (8 * Z.of_nat n) x ->
  signedN (8 * Z.of_nat n) (be_val (be_bytes n x)) = x.
Proof.
  intros Hn Hx. rewrite be_val_bytes, signedN_mod by lia. apply signedN_small; [lia|done].
Qed.

Lemma le_signed_roundtrip n x :
  (0 < n)%nat -> is_int (8 * Z.of_nat n) x ->
  signedN (8 * Z.of_nat n) (le_val (le_bytes n x)) = x.
Proof.
  intros Hn Hx. rewrite le_val_bytes, signedN_mod by lia. apply signedN_small; [lia|done].
Qed.

(** * JavaScript strings: sequences of UTF-16 code units *)

Abbreviation jsstring := (list Z).
Fixpoint js (s : string) : jsstring :=
  match s with
  | EmptyString => []
  | String c s => Z.of_N (Ascii.N_of_ascii c) :: js s
  end.

(** [parts.join(sep)] *)
Fixpoint join (sep : jsstring) (parts : list jsstring) : jsstring :=
  match parts with
  | [] => []
  | [p] => p
  | p :: parts => p ++ sep ++ join sep parts
  end.

(** [s.slice(a, b)] for in-range non-negative [a], [b]; [subarray] likewise. *)
Definition slice {A} (a b : Z) (l : list A) : list A :=
  take (Z.to_nat (b - a)) (drop (Z.to_nat a) l).
Definition zlen {A} (l : list A) : Z := Z.of_nat (length l).

Lemma zlen_app {A} (l k : list A) : zlen (l ++ k) = zlen l + zlen k.
Proof. unfold zlen. rewrite length_app. lia. Qed.
Lemma zlen_nonneg {A} (l : list A) : 0 <= zlen l.
Proof. unfold zlen. lia. Qed.
Lemma zlen_to_nat {A} (l : list A) : Z.to_nat (zlen l) = length l.
Proof. apply Nat2Z.id. Qed.
Lemma zlen_cons {A} (x : A) l : zlen (x :: l) = 1 + zlen l.
Proof. unfold zlen. simpl length. lia. Qed.

(** * JavaScript [Map]: keys in insertion order

    [set] on a present key keeps its position, on a fresh key appends;
    iteration follows the list. *)

Module JMap.
Section jmap.
Context {K V : Type} `{EqDecision K}.
Implicit Types (m : list (K * V)) (k : K).

Fixpoint get k m : option V :=
  match m with
  | [] => None
  | (k', v) :: m => if decide (k = k') then Some v else get k m
  end.
Fixpoint set k (v : V) m : list (K * V) :=
  match m with
  | [] => [(k, v)]
  | (k', v') :: m => if decide (k = k') then (k', v) :: m else (k', v') :: set k v m
  end.
Definition delete k m : list (K * V) := base.filter (fun kv => kv.1 <> k) m.
Definition keys m : list K := m.*1.

Lemma get_set_eq k v m : get k (set k v m) = Some v.
Proof.
  induction m as [|[k' v'] m IH]; simpl.
  - by rewrite decide_True.
  - destruct (decide (k = k')) as [->|Hne]; simpl.
    + by rewrite decide_True.
    + by rewrite decide_False.
Qed.

Lemma get_set_ne k k' v m : k <> k' -> get k (set k' v m) = get k m.
Proof.
  intros Hne. induction m as [|[k'' v'] m IH]; simpl.
  - by rewrite decide_False.
  - destruct (decide (k' = k'')) as [->|]; simpl.
    + by rewrite !decide_False.
    + by rewrite IH.
Qed.

Lemma get_delete_eq k m : get k (delete k m) = None.
Proof.
  unfold delete. induction m as [|[k' v] m IH]; [done|].
  rewrite filter_cons. simpl. destruct (decide (k' <> k)) as [Hk|Hk].
  - simpl. rewrite decide_False by congruence. done.
  - done.
Qed.

Lemma get_delete_ne k k' m : k <> k' -> get k (delete k' m) = get k m.
Proof.
  intros Hne. unfold delete. induction m as [|[k'' v] m IH]; [done|].
  rewrite filter_cons. simpl. destruct (decide (k'' <> k')) as [Hk|Hk]; simpl.
  - by rewrite IH.
  - rewrite decide_False; [done|]. apply dec_stable in Hk. congruence.
Qed.

Lemma get_Some_elem k v m : get k m = Some v -> (k, v) ∈ m.
Proof.
  induction m as [|[k' v'] m IH]; simpl; [done|].
  destruct (decide (k = k')) as [->|]; intros H; simplify_eq; [left|right; auto].
Qed.

Lemma get_None_keys k m : get k m = None <-> k ∉ keys m.
Proof.
  induction m as [|[k' v'] m IH]; simpl; [split; [intros _ H; inversion H|done]|].
  destruct (decide (k = k')) as [->|Hne]; split; intros H.
  - done.
  - exfalso. apply H. left.
  - apply not_elem_of_cons. split; [done|]. by apply IH.
  - apply IH. intros Hin. apply H. by right.
Qed.

Lemma elem_get k v m : NoDup (keys m) -> (k, v) ∈ m -> get k m = Some v.
Proof.
  induction m as [|[k' v'] m IH]; simpl; intros Hnd Hin; [inversion Hin|].
  apply NoDup_cons in Hnd as [Hni Hnd]. apply elem_of_cons in Hin as [Heq|Hin].
  - simplify_eq. by rewrite decide_True.
  - rewrite decide_False; [auto|]. intros ->. apply Hni.
    apply list_elem_of_fmap. by exists (k', v).
Qed.

Lemma keys_set_present k v m : k ∈ keys m -> keys (set k v m) = keys m.
Proof.
  induction m as [|[k' v'] m IH]; simpl; intros Hin; [inversion Hin|].
  destruct (decide (k = k')) as [->|Hne]; [done|]. simpl. f_equal.
  apply IH. apply elem_of_cons in Hin as [?|?]; congruence.
Qed.

Lemma set_fresh k v m : k ∉ keys m -> set k v m = m ++ [(k, v)].
Proof.
  induction m as [|[k' v'] m IH]; simpl; intros Hin; [done|].
  apply not_elem_of_cons in Hin as [Hne Hin].
  rewrite decide_False by done. by rewrite IH.
Qed.

Lemma NoDup_keys_set k v m : NoDup (keys m) -> NoDup (keys (set k v m)).
Proof.
  intros Hnd. destruct (decide (k ∈ keys m)) as [Hin|Hni].
  - by rewrite keys_set_present.
  - rewrite set_fresh by done. unfold keys. rewrite fmap_app.
    apply NoDup_app. split; [done|]. split; [|apply NoDup_singleton].
    intros x Hx Hx'. apply list_elem_of_singleton in Hx'. by subst.
Qed.

Lemma keys_delete k m : keys (delete k m) = base.filter (fun k' => k' <> k) (keys m).
Proof.
  unfold delete, keys. induction m as [|[k' v] m IH]; [done|].
  rewrite filter_cons, fmap_cons, filter_cons. simpl.
  destruct (decide (k' <> k)); [rewrite fmap_cons; by f_equal|done].
Qed.

Lemma NoDup_keys_delete k m : NoDup (keys m) -> NoDup (keys (delete k m)).
Proof. intros H. rewrite keys_delete. by apply NoDup_filter. Qed.

Lemma elem_keys_delete k k' m : k ∈ keys (delete k' m) <-> k ∈ keys m /\ k <> k'.
Proof. rewrite keys_delete. rewrite list_elem_of_filter. tauto. Qed.

Lemma elem_delete kv k m : kv ∈ delete k m <-> kv ∈ m /\ kv.1 <> k.
Proof. unfold delete. rewrite list_elem_of_filter. tauto. Qed.
End jmap.
End JMap.

(** * A filter that keeps everything *)

Lemma filter_all {A} (P : A -> Prop) `{!forall x, Decision (P x)} (l : list A) : (forall x, x ∈ l -> P x) -> base.filter P l = l.
Proof.
  induction l as [|x l IH]; intros HP; [done|]. rewrite filter_cons, decide_True by (apply HP; by left). f_equal. apply IH. intros y Hy. apply HP. by right.
Qed.

(** * Finite checks: a property of every byte by evaluation *)

Lemma byte_forallb (P : Z -> bool) :
  forallb P (seqZ 0 256) = true -> forall b, is_byte b -> P b = true.
Proof.
  intros H b Hb. rewrite forallb_forall in H. apply H.
  apply list_elem_of_In, elem_of_seqZ. unfold is_byte in Hb. lia.
Qed.

(** ** Tactics of the development *)

(** Linear arithmetic with division and remainder by constants. *)
Ltac zdm := Z.to_euclidean_division_equations; lia.

(** Case analysis on the boolean integer tests of the goal. *)
Ltac zcases :=
  repeat match goal with
  | |- context [Z.ltb ?a ?b] => destruct (Z.ltb_spec a b)
  | |- context [Z.leb ?a ?b] => destruct (Z.leb_spec a b)
  | |- context [Z.eqb ?a ?b] => destruct (Z.eqb_spec a b)
  end.

Lemma lor_high c k x n :
  0 <= n -> c = k * 2 ^ n -> 0 <= x < 2 ^ n -> Z.lor c x = c + x.
Proof.
  intros Hn -> Hx. rewrite <- Z.shiftl_mul_pow2, Z.lor_comm by lia.
  rewrite lor_disjoint_add, Z.shiftl_mul_pow2 by lia. lia.
Qed.

(** [Forall] of a range predicate over a concrete list. *)
Ltac solve_ranges :=
  repeat first [apply Forall_nil_2 | apply Forall_cons_2; [hnf; lia|]].

(** ** 32-bit operators on small operands *)

Lemma toUint32_toInt32 x : toUint32 (toInt32 x) = toUint32 x.
Proof. unfold toUint32. rewrite toInt32_signedN. by apply signedN_cong. Qed.

Lemma shift_small n : 0 <= n < 32 -> Z.land n 31 = n.
Proof. intros. rewrite (land_ones_mod _ 5) by lia. apply Z.mod_small. lia. Qed.

Lemma js_shl_small x n :
  0 <= n < 32 -> 0 <= x -> x * 2 ^ n < 2 ^ 31 -> js_shl x n = x * 2 ^ n.
Proof.
  intros Hn Hx Hr. pose proof (Z.pow_pos_nonneg 2 n ltac:(lia) ltac:(lia)).
  unfold js_shl. rewrite shift_small, Z.shiftl_mul_pow2 by lia.
  rewrite (toInt32_small x) by (apply is_int32_nonneg; nia).
  apply toInt32_small, is_int32_nonneg. nia.
Qed.

Lemma js_ushr_div x n : 0 <= n < 32 -> 0 <= x < 2 ^ 32 -> js_ushr x n = x / 2 ^ n.
Proof.
  intros Hn Hx. unfold js_ushr. rewrite shift_small, toUint32_small by lia.
  apply Z.shiftr_div_pow2. lia.
Qed.

Lemma js_ushr_0 x : js_ushr x 0 = toUint32 x.
Proof. unfold js_ushr. change (Z.land 0 31) with 0. apply Z.shiftr_0_r. Qed.

Lemma toUint32_or a b : toUint32 (js_or a b) = Z.lor (toUint32 a) (toUint32 b).
Proof.
  unfold js_or. rewrite <- (toUint32_toInt32 a), <- (toUint32_toInt32 b).
  unfold toUint32. rewrite <- !(land_ones_mod _ 32 4294967295) by lia.
  apply Z.land_lor_distr_l.
Qed.

Lemma toUint32_shl x n :
  0 <= n < 32 -> 0 <= x -> x * 2 ^ n < 2 ^ 32 -> toUint32 (js_shl x n) = x * 2 ^ n.
Proof.
  intros Hn Hx Hr. pose proof (Z.pow_pos_nonneg 2 n ltac:(lia) ltac:(lia)).
  unfold js_shl. rewrite shift_small, toUint32_toInt32, Z.shiftl_mul_pow2 by lia.
  unfold toUint32. rewrite <- Zmult_mod_idemp_l.
  change (toInt32 x mod 2 ^ 32) with (toUint32 (toInt32 x)).
  rewrite toUint32_toInt32. rewrite (toUint32_small x) by nia. apply Z.mod_small. nia.
Qed.

(** Or-ing bits above the ones present is addition. *)
Lemma js_or_add a x n :
  0 <= n < 31 -> 0 <= a < 2 ^ n -> 0 <= x -> a + x * 2 ^ n < 2 ^ 31 ->
  js_or a (x * 2 ^ n) = a + x * 2 ^ n.
Proof.
  intros Hn Ha Hx Hr. pose proof (Z.pow_pos_nonneg 2 n ltac:(lia) ltac:(lia)).
  unfold js_or. rewrite !toInt32_small by (apply is_int32_nonneg; nia).
  rewrite <- Z.shiftl_mul_pow2 at 1 by lia. by apply lor_disjoint_add; [lia|].
Qed.

(** [(1 << take) - 1] masks the low [take] bits. *)
Lemma js_mask x n : 0 <= n <= 30 -> js_and x (js_shl 1 n - 1) = x mod 2 ^ n.
Proof.
  intros Hn. apply js_and_ones; [lia|]. rewrite js_shl_small; [lia|lia|lia|].
  pose proof (Z.pow_le_mono_r 2 n 30). lia.
Qed.

Lemma pow2_split a b : 0 <= a -> 0 <= b -> 2 ^ (a + b) = 2 ^ a * 2 ^ b.
Proof. intros. by apply Z.pow_add_r. Qed.

(** Splitting a number at a power of two and again above it. *)
Lemma div_div_pow2 x a b : 0 <= a -> 0 <= b -> x / 2 ^ a / 2 ^ b = x / 2 ^ (a + b).
Proof.
  intros. rewrite pow2_split, Z.div_div by (try apply Z.pow_nonzero; try apply Z.pow_pos_nonneg; lia).
  done.
Qed.

Lemma mod_pow2_split x a b :
  0 <= a -> 0 <= b -> x mod 2 ^ (a + b) = x mod 2 ^ a + 2 ^ a * (x / 2 ^ a mod 2 ^ b).
Proof.
  intros. rewrite pow2_split by lia. rewrite Z.rem_mul_r; [done| |].
  - apply Z.pow_nonzero; lia.
  - apply Z.pow_pos_nonneg; lia.
Qed.

(** * Automation

    [js] collects what is always true of lengths, bytes and fixed-width
    integers, for [auto with js] and [autorewrite with js]. *)

Create HintDb js.
Create Rewrite HintDb js.
#[export] Hint Resolve le_bytes_byte be_bytes_byte zlen_nonneg signedN_range : js.
#[export] Hint Rewrite @zlen_app @zlen_cons length_le_bytes length_be_bytes : js.
