(* ===== verification/JsNumber.v ===== *)
(** JavaScript numbers as IEEE-754 binary64 bit patterns.

    Codecs that store a number as a 32- or 64-bit float, or that ask whether a
    number is an integer, need more than [Z].  A number is its bit pattern, an
    integer below 2^64; [isInteger], the conversions to and from bigints and
    DataView's [setFloat32] and [getFloat32] are functions on bit patterns.
    There is one NaN, the quiet one. *)

From S2P Require Import Prelude.

Module JsNumber.

Definition is_number (b : Z) : Prop := 0 <= b < 2 ^ 64.

Definition sign_bit (b : Z) : Z := b / 2 ^ 63.
Definition exponent (b : Z) : Z := (b / 2 ^ 52) mod 2048.
Definition fraction (b : Z) : Z := b mod 2 ^ 52.
Definition double_bits (s e f : Z) : Z := s * 2 ^ 63 + e * 2 ^ 52 + f.
Definition NaN : Z := double_bits 0 2047 (2 ^ 51).

(** A finite number is [significand b * 2 ^ scale b], with its sign. *)
Definition significand (b : Z) : Z :=
  if exponent b =? 0 then fraction b else 2 ^ 52 + fraction b.
Definition scale (b : Z) : Z := Z.max (exponent b) 1 - 1075.
Definition signed (b m : Z) : Z := if sign_bit b =? 0 then m else - m.

(** [Number.isInteger(n)] and [BigInt(n)]: the integer a number is. *)
Definition integer_of (b : Z) : option Z :=
  if exponent b =? 2047 then None
  else if 0 <=? scale b then Some (signed b (significand b * 2 ^ scale b))
  else if significand b mod 2 ^ (- scale b) =? 0
       then Some (signed b (significand b / 2 ^ (- scale b)))
       else None.

(** [Number(z)] for an integer within 2^53, where it is exact. *)
Definition number_of (z : Z) : Z :=
  if z =? 0 then 0
  else
    let k := Z.log2 (Z.abs z) in
    double_bits (if z <? 0 then 1 else 0) (k + 1023) (Z.abs z * 2 ^ (52 - k) - 2 ^ 52).

(** [n === 0] holds for both zeros. *)
Definition is_zero (b : Z) : bool := (b =? 0) || (b =? 2 ^ 63).

(** Division rounded to the nearest, ties to even. *)
Definition round_div (m d : Z) : Z :=
  let q := m / d in
  let r := m mod d in
  if 2 * r <? d then q
  else if d <? 2 * r then q + 1
  else if Z.even q then q else q + 1.

(** [setFloat32]: the bits of the nearest binary32. *)
Definition to_float32 (b : Z) : Z :=
  sign_bit b * 2 ^ 31 +
  (if exponent b =? 2047 then (if fraction b =? 0 then 255 * 2 ^ 23 else 255 * 2 ^ 23 + 2 ^ 22)
   else
     let q := Z.max (scale b + 29) (-149) in
     Z.min (255 * 2 ^ 23)
       ((q + 149) * 2 ^ 23 + round_div (significand b) (2 ^ (q - scale b)))).

(** [getFloat32]: a binary32 is a binary64. *)
Definition of_float32 (w : Z) : Z :=
  let s := w / 2 ^ 31 in
  let e := (w / 2 ^ 23) mod 256 in
  let m := w mod 2 ^ 23 in
  if e =? 255 then (if m =? 0 then double_bits s 2047 0 else NaN)
  else if e =? 0 then
    (if m =? 0 then double_bits s 0 0
     else let k := Z.log2 m in double_bits s (k + 874) (m * 2 ^ (52 - k) - 2 ^ 52))
  else double_bits s (e + 896) (m * 2 ^ 29).

(** [getFloat64]: every NaN reads as the one NaN. *)
Definition of_float64 (w : Z) : Z :=
  if (exponent w =? 2047) && negb (fraction w =? 0) then NaN else w.

(** ** Fields of a bit pattern *)
Section fields.
Context (s e f : Z) (Hs : 0 <= s < 2) (He : 0 <= e < 2048) (Hf : 0 <= f < 2 ^ 52).

Lemma double_bits_range : is_number (double_bits s e f).
Proof. unfold is_number, double_bits. lia. Qed.
Lemma sign_double : sign_bit (double_bits s e f) = s.
Proof. unfold sign_bit, double_bits. symmetry. apply (Z.div_unique _ _ _ (e * 2 ^ 52 + f)); lia. Qed.
Lemma exponent_double : exponent (double_bits s e f) = e.
Proof.
  unfold exponent, double_bits.
  replace ((s * 2 ^ 63 + e * 2 ^ 52 + f) / 2 ^ 52) with (e + s * 2048).
  - rewrite Z.mod_add by lia. apply Z.mod_small. lia.
  - apply (Z.div_unique _ _ _ f); lia.
Qed.
Lemma fraction_double : fraction (double_bits s e f) = f.
Proof.
  unfold fraction, double_bits.
  replace (s * 2 ^ 63 + e * 2 ^ 52 + f) with (f + (s * 2048 + e) * 2 ^ 52) by lia.
  rewrite Z.mod_add by lia. apply Z.mod_small. lia.
Qed.
End fields.

(** The leading bit of [m] moved to bit 52. *)
Lemma normalised m : 0 < m < 2 ^ 53 ->
  let k := Z.log2 m in
  0 <= k <= 52 /\ 0 <= m * 2 ^ (52 - k) - 2 ^ 52 < 2 ^ 52.
Proof.
  intros Hm k. pose proof (Z.log2_spec m ltac:(lia)) as [H1 H2]. fold k in H1, H2.
  assert (0 <= k) by apply Z.log2_nonneg.
  assert (k < 53) by (apply Z.log2_lt_pow2; lia).
  split; [lia|]. rewrite Z.pow_succ_r in H2 by lia.
  assert (E : 2 ^ 52 = 2 ^ k * 2 ^ (52 - k)) by (rewrite <- Z.pow_add_r by lia; f_equal; lia).
  assert (0 < 2 ^ (52 - k)) by (apply Z.pow_pos_nonneg; lia). nia.
Qed.

Lemma number_of_range z : Z.abs z < 2 ^ 53 -> is_number (number_of z).
Proof.
  intros H. unfold number_of. destruct (Z.eqb_spec z 0); [unfold is_number; lia|].
  destruct (normalised (Z.abs z)) as [? ?]; [lia|].
  apply double_bits_range; [destruct (z <? 0); lia|lia|lia].
Qed.

Lemma integer_of_number_of z : Z.abs z < 2 ^ 53 -> integer_of (number_of z) = Some z.
Proof.
  intros H. unfold number_of. destruct (Z.eqb_spec z 0) as [->|Hz]; [reflexivity|].
  destruct (normalised (Z.abs z)) as [Hk Hf]; [lia|]. set (k := Z.log2 (Z.abs z)) in *.
  set (s := if z <? 0 then 1 else 0). assert (Hs : 0 <= s < 2) by (subst s; destruct (z <? 0); lia).
  unfold integer_of, significand, scale, signed.
  rewrite exponent_double, fraction_double, sign_double by lia.
  replace (k + 1023 =? 2047) with false by lia. replace (k + 1023 =? 0) with false by lia.
  rewrite Z.max_l by lia. replace (2 ^ 52 + (Z.abs z * 2 ^ (52 - k) - 2 ^ 52)) with (Z.abs z * 2 ^ (52 - k)) by lia.
  replace (k + 1023 - 1075) with (k - 52) by lia. replace (- (k - 52)) with (52 - k) by lia.
  assert (P : 0 < 2 ^ (52 - k)) by (apply Z.pow_pos_nonneg; lia).
  rewrite Z.mod_mul, Z.div_mul by lia. change (0 =? 0) with true.
  assert (E : (if s =? 0 then Z.abs z else - Z.abs z) = z) by (subst s; zcases; lia).
  destruct (Z.leb_spec 0 (k - 52)).
  - replace (k - 52) with 0 by lia. replace (52 - k) with 0 by lia. rewrite !Z.mul_1_r. by rewrite E.
  - by rewrite E.
Qed.

Lemma is_zero_integer b : is_zero b = true -> integer_of b = Some 0.
Proof.
  unfold is_zero. intros H. apply orb_true_iff in H as [H|H]; apply Z.eqb_eq in H as ->; reflexivity.
Qed.

Lemma round_div_exact q d : 0 < d -> round_div (q * d) d = q.
Proof.
  intros Hd. unfold round_div. rewrite Z.div_mul, Z.mod_mul by lia.
  by replace (2 * 0 <? d) with true by lia.
Qed.

(** ** Storing and loading a binary32 *)
Definition is_float32 (w : Z) : Prop :=
  0 <= w < 2 ^ 32 /\ ((w / 2 ^ 23) mod 256 = 255 -> w mod 2 ^ 23 = 0 \/ w = 255 * 2 ^ 23 + 2 ^ 22).

Lemma to_of_finite s e m q n :
  0 <= s < 2 -> 0 <= e < 2047 -> 0 <= m < 2 ^ 52 ->
  let b := double_bits s e m in
  q = Z.max (scale b + 29) (-149) -> significand b = n * 2 ^ (q - scale b) ->
  (q + 149) * 2 ^ 23 + n < 255 * 2 ^ 23 ->
  to_float32 b = s * 2 ^ 31 + ((q + 149) * 2 ^ 23 + n).
Proof.
  intros Hs He Hm b Hq Hsig Hn. unfold to_float32. rewrite <- Hq, Hsig. subst b.
  rewrite sign_double, exponent_double by lia. replace (e =? 2047) with false by lia.
  rewrite round_div_exact by (apply Z.pow_pos_nonneg; lia). rewrite Z.min_r by lia. done.
Qed.

Lemma to_of_float32 w : is_float32 w -> to_float32 (of_float32 w) = w.
Proof.
  intros [Hw Hnan]. unfold of_float32.
  set (s := w / 2 ^ 31). set (e := (w / 2 ^ 23) mod 256) in *. set (m := w mod 2 ^ 23) in *.
  assert (Hs : 0 <= s < 2) by (subst s; zdm). assert (He : 0 <= e < 256) by (subst e; zdm).
  assert (Hm : 0 <= m < 2 ^ 23) by (subst m; zdm).
  assert (E : w = s * 2 ^ 31 + e * 2 ^ 23 + m) by (subst s e m; zdm).
  destruct (Z.eqb_spec e 255) as [He'|He'].
  - destruct (Z.eqb_spec m 0) as [Hm'|Hm'].
    + unfold to_float32. rewrite sign_double, exponent_double, fraction_double by lia. cbn [Z.eqb Pos.eqb]. lia.
    + destruct (Hnan He') as [?| ->]; [done|reflexivity].
  - destruct (Z.eqb_spec e 0) as [He0|He0]; [destruct (Z.eqb_spec m 0) as [Hm0|Hm0]|].
    + unfold to_float32, significand, scale. rewrite sign_double, exponent_double, fraction_double by lia.
      cbn [Z.eqb Pos.eqb]. change (round_div 0 _) with 0. lia.
    + destruct (normalised m) as [Hk Hf]; [lia|]. set (k := Z.log2 m) in *.
      assert (Hk' : k < 23) by (apply Z.log2_lt_pow2; lia).
      rewrite (to_of_finite s (k + 874) _ (-149) m); [lia|lia|lia|lia|..].
      * unfold scale. rewrite exponent_double by lia. lia.
      * unfold significand, scale. rewrite exponent_double, fraction_double by lia.
        replace (k + 874 =? 0) with false by lia. rewrite Z.max_l by lia.
        replace (-149 - (k + 874 - 1075)) with (52 - k) by lia. lia.
      * lia.
    + rewrite (to_of_finite s (e + 896) _ (e - 150) (2 ^ 23 + m)); [lia|lia|lia|lia|..].
      * unfold scale. rewrite exponent_double by lia. lia.
      * unfold significand, scale. rewrite exponent_double, fraction_double by lia.
        replace (e + 896 =? 0) with false by lia. rewrite Z.max_l by lia.
        replace (e - 150 - (e + 896 - 1075)) with 29 by lia. lia.
      * lia.
Qed.

Lemma of_float32_range w : 0 <= w < 2 ^ 32 -> is_number (of_float32 w).
Proof.
  intros Hw. unfold of_float32.
  set (s := w / 2 ^ 31). set (e := (w / 2 ^ 23) mod 256) in *. set (m := w mod 2 ^ 23) in *.
  assert (Hs : 0 <= s < 2) by (subst s; zdm). assert (He : 0 <= e < 256) by (subst e; zdm).
  assert (Hm : 0 <= m < 2 ^ 23) by (subst m; zdm).
  zcases; try (apply double_bits_range; lia).
  destruct (normalised m) as [Hk Hf]; [lia|].
  assert (Hk' : Z.log2 m < 23) by (apply Z.log2_lt_pow2; lia).
  apply double_bits_range; lia.
Qed.

Lemma of_float64_range w : is_number w -> is_number (of_float64 w).
Proof.
  intros H. unfold of_float64. destruct (_ && _); [|done].
  unfold is_number. vm_compute. split; [discriminate|reflexivity].
Qed.

(** Numbers there are in JavaScript: one NaN. *)
Definition canonical (b : Z) : Prop := is_number b /\ of_float64 b = b.

Example float32_values :
  to_float32 (number_of 3) = 1077936128 /\ of_float32 1077936128 = number_of 3 /\
  (** 0.1 is rounded; 2^-149 is the least; 2^128 overflows *)
  to_float32 4591870180066957722 = 1036831949 /\
  to_float32 (double_bits 0 874 0) = 1 /\ of_float32 1 = double_bits 0 874 0 /\
  to_float32 (double_bits 0 1151 0) = 255 * 2 ^ 23 /\ to_float32 NaN = 2143289344 /\
  integer_of (number_of (-5)) = Some (-5) /\ integer_of 4591870180066957722 = None.
Proof. vm_compute. done. Qed.
End JsNumber.
