(* ===== verification/JsArith.v ===== *)
(** Arithmetic on JavaScript numbers.

    Where rounding can be observed a finite number is a rational, [round] takes
    a rational to the nearest double (ties to even, gradual underflow, overflow
    to infinity), and an operation is the rational one followed by [round].
    The sign of zero is not kept.  On integers within 2^53 the operations are
    those of [Z]; that the floor of a rounded quotient is the integer quotient
    is [floor_div_int]. *)

From Stdlib Require Import QArith Qround.
From S2P Require Import Prelude JsNumber.

Module JsArith.
Import JsNumber(round_div).
Local Open Scope Z_scope.

Inductive number := Finite (q : Q) | Infinite (negative : bool) | NaN.

(** The integer part of the binary logarithm of [p / d], both positive. *)
Definition exponent (p d : Z) : Z :=
  let x := Z.log2 p - Z.log2 d in
  if d * 2 ^ Z.max 0 x <=? p * 2 ^ Z.max 0 (- x) then x else x - 1.
(** The double nearest to [p / d], both positive. *)
Definition round_pos (p d : Z) : number :=
  let e := Z.max (exponent p d - 52) (-1074) in
  let m := round_div (p * 2 ^ Z.max 0 (- e)) (d * 2 ^ Z.max 0 e) in
  if 2 ^ 1024 <=? m * 2 ^ Z.max 0 e then Infinite false
  else Finite (Qred (Qmake (m * 2 ^ Z.max 0 e) (Z.to_pos (2 ^ Z.max 0 (- e))))).
Definition neg (x : number) : number :=
  match x with Finite q => Finite (Qopp q) | Infinite b => Infinite (negb b) | NaN => NaN end.
Definition round (q : Q) : number :=
  match Qnum q with
  | Z0 => Finite 0
  | Zpos p => round_pos (Zpos p) (Zpos (Qden q))
  | Zneg p => neg (round_pos (Zpos p) (Zpos (Qden q)))
  end.

Definition of_int (z : Z) : number := Finite (Qmake z 1).
(** [Number(s)] for digits and a fraction: [digits / 10 ^ places]. *)
Definition decimal (digits : Z) (places : nat) : number :=
  round (Qmake digits (Z.to_pos (10 ^ Z.of_nat places))).

Definition is_pos (x : number) : bool :=
  match x with Finite q => 0 <? Qnum q | Infinite b => negb b | NaN => false end.
Definition is_neg (x : number) : bool :=
  match x with Finite q => Qnum q <? 0 | Infinite b => b | NaN => false end.

Definition add (x y : number) : number :=
  match x, y with
  | NaN, _ | _, NaN => NaN
  | Infinite a, Infinite b => if eqb a b then Infinite a else NaN
  | Infinite a, Finite _ | Finite _, Infinite a => Infinite a
  | Finite p, Finite q => round (Qplus p q)
  end.
Definition sub (x y : number) : number := add x (neg y).
Definition mul (x y : number) : number :=
  match x, y with
  | NaN, _ | _, NaN => NaN
  | Finite p, Finite q => round (Qmult p q)
  | _, _ =>
      if (is_pos x && is_pos y) || (is_neg x && is_neg y) then Infinite false
      else if (is_pos x && is_neg y) || (is_neg x && is_pos y) then Infinite true
      else NaN
  end.
(** Division by a positive number. *)
Definition div_pos (x y : number) : number :=
  match x, y with
  | NaN, _ | _, NaN | Infinite _, Infinite _ => NaN
  | Finite p, Finite q => round (Qdiv p q)
  | Finite _, Infinite _ => Finite 0
  | Infinite a, Finite _ => Infinite a
  end.
Definition floor (x : number) : number :=
  match x with Finite q => of_int (Qfloor q) | _ => x end.

(** ** Rounding integers and quotients *)
Lemma round_div_bounds m d : 0 < d -> 2 * m - d <= 2 * d * round_div m d <= 2 * m + d.
Proof.
  intros Hd. unfold round_div. pose proof (Z.div_mod m d ltac:(lia)). pose proof (Z.mod_pos_bound m d Hd).
  zcases; [nia..|]. destruct (Z.even _); nia.
Qed.

(** Comparing [d * 2 ^ y] and [p] without fractions, and after scaling. *)
Lemma scale_le p d y M :
  Z.max 0 (- y) <= M -> d * 2 ^ Z.max 0 y <= p * 2 ^ Z.max 0 (- y) <-> d * 2 ^ (M + y) <= p * 2 ^ M.
Proof.
  intros HM.
  replace (M + y) with (Z.max 0 y + (M - Z.max 0 (- y))) by lia.
  replace (2 ^ M) with (2 ^ (Z.max 0 (- y) + (M - Z.max 0 (- y)))) by (f_equal; lia).
  rewrite !Z.pow_add_r, !Z.mul_assoc by lia. apply Z.mul_le_mono_pos_r, Z.pow_pos_nonneg; lia.
Qed.

Lemma exponent_spec p d (x := exponent p d) M :
  0 < p -> 0 < d -> Z.log2 d < M -> d * 2 ^ (M + x) <= p * 2 ^ M < d * 2 ^ (M + x + 1).
Proof.
  intros Hp Hd HM. subst x. unfold exponent. cbv zeta.
  pose proof (Z.log2_spec p Hp) as [P1 P2]. pose proof (Z.log2_spec d Hd) as [D1 D2].
  set (a := Z.log2 p) in *. set (b := Z.log2 d) in *.
  assert (0 <= a) by apply Z.log2_nonneg. assert (0 <= b) by apply Z.log2_nonneg.
  pose proof (scale_le p d (a - b) M ltac:(lia)) as S.
  assert (T : forall y, 0 <= y -> 0 < 2 ^ y) by (intros; by apply Z.pow_pos_nonneg).
  assert (U : p * 2 ^ M < d * 2 ^ (M + (a - b) + 1)).
  { apply Z.lt_le_trans with (2 ^ Z.succ a * 2 ^ M); [apply Z.mul_lt_mono_pos_r; [apply T|]; lia|].
    rewrite <- Z.pow_add_r by lia. replace (Z.succ a + M) with (b + (M + (a - b) + 1)) by lia.
    rewrite Z.pow_add_r by lia. apply Z.mul_le_mono_nonneg_r; [apply Z.lt_le_incl, T; lia|done]. }
  assert (L : d * 2 ^ (M + (a - b - 1)) <= p * 2 ^ M).
  { apply Z.le_trans with (2 ^ Z.succ b * 2 ^ (M + (a - b - 1))).
    - apply Z.mul_le_mono_nonneg_r; [apply Z.lt_le_incl, T|]; lia.
    - rewrite <- Z.pow_add_r by lia. replace (Z.succ b + (M + (a - b - 1))) with (a + M) by lia.
      rewrite Z.pow_add_r by lia. apply Z.mul_le_mono_nonneg_r; [apply Z.lt_le_incl, T; lia|done]. }
  destruct (Z.leb_spec (d * 2 ^ Z.max 0 (a - b)) (p * 2 ^ Z.max 0 (- (a - b)))).
  - split; [by apply S|done].
  - split; [done|]. replace (M + (a - b - 1) + 1) with (M + (a - b)) by lia.
    apply Z.nle_gt. intros C. apply S in C. lia.
Qed.

(** The rounded quotient of integers below 2^53: a number of [k] binary
    places, within half a place of the quotient, with 53 digits. *)
Lemma round_pos_spec p d :
  0 < p < 2 ^ 53 -> 0 < d < 2 ^ 53 ->
  exists k m, 0 <= k /\ 2 * (p * 2 ^ k) - d <= 2 * d * m <= 2 * (p * 2 ^ k) + d /\ d < 2 * 2 ^ k /\
    ((d | p * 2 ^ k) -> d * m = p * 2 ^ k) /\
    round_pos p d = Finite (Qred (Qmake m (Z.to_pos (2 ^ k)))).
Proof.
  intros Hp Hd. assert (Hb : 0 <= Z.log2 d < 53) by (split; [apply Z.log2_nonneg|apply Z.log2_lt_pow2; lia]).
  pose proof (exponent_spec p d 200 ltac:(lia) ltac:(lia) ltac:(lia)) as [E1 E2].
  remember (exponent p d) as x eqn:Ex.
  assert (Hx : -54 <= x <= 52).
  { split; apply Z.nlt_ge; intros C.
    - assert (d * 2 ^ (200 + x + 1) <= d * 2 ^ 146) by (apply Z.mul_le_mono_nonneg_l; [lia|apply Z.pow_le_mono_r; lia]). lia.
    - assert (d * 2 ^ 253 <= d * 2 ^ (200 + x)) by (apply Z.mul_le_mono_nonneg_l; [lia|apply Z.pow_le_mono_r; lia]). lia. }
  assert (K : exists k, 0 <= k /\ x = 52 - k) by (exists (52 - x); lia). destruct K as (k & Hk & ->).
  exists k, (round_div (p * 2 ^ k) d). pose proof (round_div_bounds (p * 2 ^ k) d ltac:(lia)) as B.
  assert (F : d * 2 ^ 52 <= p * 2 ^ k).
  { replace (200 + (52 - k)) with (52 + (200 - k)) in E1 by lia.
    replace 200 with (k + (200 - k)) in E1 at 2 by lia. rewrite !Z.pow_add_r, !Z.mul_assoc in E1 by lia.
    apply Z.mul_le_mono_pos_r in E1; [done|apply Z.pow_pos_nonneg; lia]. }
  assert (G : p * 2 ^ k < d * 2 ^ 53).
  { replace (200 + (52 - k) + 1) with (53 + (200 - k)) in E2 by lia.
    replace 200 with (k + (200 - k)) in E2 at 1 by lia. rewrite !Z.pow_add_r, !Z.mul_assoc in E2 by lia.
    apply Z.mul_lt_mono_pos_r in E2; [done|apply Z.pow_pos_nonneg; lia]. }
  assert (0 < 2 ^ k) by (apply Z.pow_pos_nonneg; lia).
  split_and!; [done|lia|lia|nia| |].
  - intros [q Hq]. rewrite Hq, JsNumber.round_div_exact by lia. lia.
  - unfold round_pos. cbv zeta. rewrite <- Ex.
    replace (Z.max (52 - k - 52) (-1074)) with (- k) by lia.
    replace (Z.max 0 (- k)) with 0 by lia. replace (Z.max 0 (- - k)) with k by lia.
    rewrite !Z.pow_0_r, !Z.mul_1_r. rewrite (proj2 (Z.leb_gt _ _)); [done|].
    apply Z.le_lt_trans with (2 ^ 54); [|lia]. nia.
Qed.
Lemma Qred_int (z m : Z) (d : positive) : m = z * Zpos d -> Qred (Qmake m d) = Qmake z 1.
Proof.
  intros ->. transitivity (Qred (Qmake z 1)).
  - apply Qred_complete. unfold Qeq. cbn. lia.
  - unfold Qred. pose proof (Z.ggcd_gcd z 1) as G. pose proof (Z.ggcd_correct_divisors z 1) as D.
    destruct (Z.ggcd z 1) as [g [a b]]. cbn in G |- *. rewrite Z.gcd_1_r in G. subst g.
    destruct D as [-> D]. rewrite !Z.mul_1_l in *. by rewrite <- D.
Qed.

(** ** The operations on integers *)
Lemma round_int z : Z.abs z < 2 ^ 53 -> round (Qmake z 1) = of_int z.
Proof.
  intros Hz. unfold round, of_int. destruct z as [|p|p]; cbn [Qnum Qden]; [done|..];
    destruct (round_pos_spec (Zpos p) 1) as (k & m & Hk & _ & _ & Hm & ->); try lia;
    rewrite Z.mul_1_l in Hm; rewrite Hm by apply Z.divide_1_l.
  all: rewrite (Qred_int (Zpos p)); [done|]; rewrite Z2Pos.id; [done|apply Z.pow_pos_nonneg; lia].
Qed.

Lemma add_int a b : Z.abs (a + b) < 2 ^ 53 -> add (of_int a) (of_int b) = of_int (a + b).
Proof. intros H. cbn. unfold Qplus. cbn. rewrite !Z.mul_1_r. by apply round_int. Qed.
Lemma sub_int a b : Z.abs (a - b) < 2 ^ 53 -> sub (of_int a) (of_int b) = of_int (a - b).
Proof. intros H. unfold sub. apply (add_int a (- b)). by rewrite Z.add_opp_r. Qed.
Lemma mul_int a b : Z.abs (a * b) < 2 ^ 53 -> mul (of_int a) (of_int b) = of_int (a * b).
Proof. intros H. cbn. unfold Qmult. cbn. by apply round_int. Qed.

Lemma Qfloor_make m n : 0 < n -> Qfloor (Qred (Qmake m (Z.to_pos n))) = m / n.
Proof.
  intros Hn. rewrite (Qfloor_comp _ (Qmake m (Z.to_pos n))) by apply Qred_correct.
  unfold Qfloor. by rewrite Z2Pos.id.
Qed.

Lemma floor_opp_quot m n p d :
  0 < n -> 0 < d -> (forall c, d * c < p -> n * c < m) -> (forall c, p <= d * c -> m <= n * c) ->
  (- m) / n = (- p) / d.
Proof.
  intros Hn Hd Hlt Hle. symmetry. set (q := (- p) / d).
  assert (E : - p = d * q + (- p) mod d) by (apply Z.div_mod; lia).
  pose proof (Z.mod_pos_bound (- p) d Hd).
  apply (Z.div_unique _ _ _ (- m - n * q)); [|lia]. left.
  pose proof (Hlt (- q - 1) ltac:(lia)). pose proof (Hle (- q) ltac:(lia)). lia.
Qed.

(** The floor of the rounded quotient is the integer quotient. *)
Lemma floor_div_int a b :
  Z.abs a < 2 ^ 53 -> 0 < b < 2 ^ 53 -> floor (div_pos (of_int a) (of_int b)) = of_int (a / b).
Proof.
  intros Ha Hb. destruct b as [|d|d]; [lia| |lia]. cbn [of_int div_pos]. unfold Qdiv, Qmult, Qinv, round.
  cbn [Qnum Qden]. rewrite Z.mul_1_r, Pos.mul_1_l. destruct a as [|p|p]; [done|..];
    destruct (round_pos_spec (Zpos p) (Zpos d)) as (k & m & Hk & [B1 B2] & Hd & _ & ->); try lia;
    pose proof (Z.pow_pos_nonneg 2 k ltac:(lia) Hk) as Hn; set (n := 2 ^ k) in *.
  - cbn [floor]. rewrite Qfloor_make by done.
    set (q := Zpos p / Zpos d). assert (E : Zpos p = Zpos d * q + Zpos p mod Zpos d) by (apply Z.div_mod; lia).
    pose proof (Z.mod_pos_bound (Zpos p) (Zpos d) ltac:(lia)). unfold of_int. do 2 f_equal.
    symmetry. apply (Z.div_unique _ _ _ (m - n * q)); [left|lia].
    clearbody q n. clear -E H B1 B2 Hd Hn. nia.
  - cbn [neg floor]. unfold of_int. do 2 f_equal.
    transitivity ((- m) / n).
    + rewrite (Qfloor_comp _ (Qred (Qmake (- m) (Z.to_pos n)))); [by apply Qfloor_make|].
      rewrite !Qred_correct. reflexivity.
    + change (Zneg p) with (- Zpos p). clearbody n.
      apply floor_opp_quot; [lia|lia|intros c Hc; nia|intros c Hc; nia].
Qed.
End JsArith.
