(* ===== verification/JsString.v ===== *)
(** String methods of JavaScript that several components use: [trim], [split],
    [indexOf], [startsWith] and the decimal value of digits. *)

From S2P Require Import Prelude.

Module JsString.

(** White space and line terminators: what [trim] removes and [\s] matches. *)
Definition is_space (u : Z) : bool :=
  ((9 <=? u) && (u <=? 13)) || (u =? 32) || (u =? 160) || (u =? 5760) ||
  ((8192 <=? u) && (u <=? 8202)) || (u =? 8232) || (u =? 8233) || (u =? 8239) ||
  (u =? 8287) || (u =? 12288) || (u =? 65279).
Fixpoint trimStart (s : jsstring) : jsstring :=
  match s with u :: s' => if is_space u then trimStart s' else s | [] => [] end.
(** [String.prototype.trim] *)
Definition trim (s : jsstring) : jsstring := reverse (trimStart (reverse (trimStart s))).

(** The number that decimal digits denote. *)
Definition dec_val (value : jsstring) : Z := foldl (fun n c => n * 10 + (c - 48)) 0 value.

(** [String(n)] of a non-negative integer. *)
Fixpoint dec_digits (fuel : nat) (n : Z) (acc : jsstring) : jsstring :=
  match fuel with
  | O => acc
  | S fuel =>
      let acc := (48 + n mod 10) :: acc in
      if n <? 10 then acc else dec_digits fuel (n / 10) acc
  end.
Definition dec_str (n : Z) : jsstring := dec_digits (S (Z.to_nat (Z.log2 n))) n [].

(** [/^\d+$/.test(s)] *)
Definition is_dec (c : Z) : bool := (48 <=? c) && (c <=? 57).
Definition numeral (s : jsstring) : bool := negb (bool_decide (s = [])) && forallb is_dec s.

(** [s.split(c)] for a separator of one character. *)
Fixpoint split_on (c : Z) (s : jsstring) : list jsstring :=
  match s with
  | [] => [[]]
  | u :: s =>
      if u =? c then [] :: split_on c s
      else match split_on c s with p :: ps => (u :: p) :: ps | [] => [[u]] end
  end.

(** [s.split(/x+/)] for a class of characters: a run of them is one separator.
    [in_run] says that the last character was one. *)
Fixpoint split_runs (sep : Z -> bool) (in_run : bool) (cur s : jsstring) : list jsstring :=
  match s with
  | [] => [cur]
  | c :: s =>
      if sep c then if in_run then split_runs sep true cur s else cur :: split_runs sep true [] s
      else split_runs sep false (cur ++ [c]) s
  end.

(** [s.indexOf(c)], [None] for -1. *)
Fixpoint indexOf (c : Z) (s : jsstring) : option nat :=
  match s with
  | [] => None
  | u :: s => if u =? c then Some O else S <$> indexOf c s
  end.

(** [s.startsWith(p)] *)
Definition startsWith (s p : jsstring) : bool := bool_decide (p `prefix_of` s).

(** ** Splitting and joining *)
Lemma split_on_ne c s : split_on c s <> [].
Proof. destruct s as [|u s]; [done|]. cbn. destruct (u =? c); [done|]. by destruct (split_on c s). Qed.

Lemma split_on_word c p : c ∉ p -> split_on c p = [p].
Proof.
  induction p as [|u p IH]; [done|]. rewrite not_elem_of_cons. intros [Hu Hp]. cbn.
  rewrite (proj2 (Z.eqb_neq u c)) by congruence. by rewrite IH.
Qed.

Lemma split_on_app c p s : c ∉ p -> split_on c (p ++ c :: s) = p :: split_on c s.
Proof.
  induction p as [|u p IH]; intros Hp; cbn; [by rewrite Z.eqb_refl|].
  apply not_elem_of_cons in Hp as [Hu Hp]. rewrite (proj2 (Z.eqb_neq u c)) by congruence. by rewrite IH.
Qed.

Lemma split_join c ps :
  ps <> [] -> Forall (fun p => c ∉ p) ps -> split_on c (join [c] ps) = ps.
Proof.
  intros Hne H. induction H as [|p ps Hp Hps IH]; [done|]. destruct ps as [|q ps].
  - by apply split_on_word.
  - change (join [c] (p :: q :: ps)) with (p ++ c :: join [c] (q :: ps)).
    by rewrite split_on_app, IH.
Qed.

Lemma join_split_on c s : join [c] (split_on c s) = s.
Proof.
  induction s as [|u s IH]; [done|]. cbn [split_on]. pose proof (split_on_ne c s) as Hne.
  destruct (split_on c s) as [|p ps] eqn:E; [done|]. destruct (Z.eqb_spec u c) as [->|Hu].
  - change (join [c] ([] :: p :: ps)) with (c :: join [c] (p :: ps)). by rewrite IH.
  - rewrite <- IH. by destruct ps.
Qed.

Lemma split_on_free c s : Forall (fun p => c ∉ p) (split_on c s).
Proof.
  induction s as [|u s IH]; cbn [split_on]; [repeat constructor; apply not_elem_of_nil|].
  destruct (Z.eqb_spec u c) as [->|Hu]; [constructor; [apply not_elem_of_nil|done]|].
  pose proof (split_on_ne c s). destruct (split_on c s) as [|p ps]; [done|].
  apply Forall_cons in IH as [Hp Hps]. constructor; [|done]. by apply not_elem_of_cons.
Qed.

Lemma indexOf_None c s : indexOf c s = None <-> c ∉ s.
Proof.
  induction s as [|u s IH]; cbn; [split; [intros _; apply not_elem_of_nil|done]|].
  rewrite not_elem_of_cons. destruct (Z.eqb_spec u c) as [->|Hu]; [naive_solver|].
  rewrite fmap_None, IH. naive_solver.
Qed.

Lemma indexOf_Some c s i :
  indexOf c s = Some i -> c ∉ take i s /\ s = take i s ++ c :: drop (S i) s.
Proof.
  revert i. induction s as [|u s IH]; intros i; cbn; [done|]. destruct (Z.eqb_spec u c) as [->|Hu].
  - intros [= <-]. split; [apply not_elem_of_nil|done].
  - rewrite fmap_Some. intros (j & Hj & ->). destruct (IH j Hj) as [H1 H2]. cbn.
    split; [by apply not_elem_of_cons|by f_equal].
Qed.

Lemma indexOf_app c p s : c ∉ p -> indexOf c (p ++ c :: s) = Some (length p).
Proof.
  induction p as [|u p IH]; intros Hp; cbn; [by rewrite Z.eqb_refl|].
  apply not_elem_of_cons in Hp as [Hu Hp]. rewrite (proj2 (Z.eqb_neq u c)) by congruence. by rewrite IH.
Qed.

(** ** Digits *)
Lemma digits_nonneg ds : forallb is_dec ds = true -> 0 <= dec_val ds.
Proof.
  unfold dec_val. rewrite forallb_forall. cut (forall n, 0 <= n -> (forall c, In c ds -> is_dec c = true) ->
    0 <= foldl (fun n c => n * 10 + (c - 48)) n ds); [intros H Hd; by apply H|].
  induction ds as [|d ds IH]; intros n Hn Hd; [done|]. cbn. apply IH; [|intros; apply Hd; by right].
  specialize (Hd d (or_introl eq_refl)). unfold is_dec in Hd. lia.
Qed.
(** ** Decimal numerals *)
Lemma dec_digits_spec fuel n acc :
  0 <= n < 10 ^ Z.of_nat fuel -> (0 < fuel)%nat ->
  exists ds, dec_digits fuel n acc = ds ++ acc /\ (ds <> [] /\ Forall (fun c => is_dec c = true) ds) /\
    (forall x, foldl (fun n c => n * 10 + (c - 48)) x ds = x * 10 ^ zlen ds + n) /\
    (0 < n -> head ds <> Some 48) /\ (n = 0 -> ds = [48]).
Proof.
  revert n acc. induction fuel as [|fuel IH]; intros n acc Hn Hf; [lia|]. cbn [dec_digits]. cbv zeta.
  assert (forall d, 0 <= d < 10 -> is_dec (48 + d) = true) as Hd by (intros; unfold is_dec; lia).
  destruct (Z.ltb_spec n 10) as [H10|H10].
  - rewrite Z.mod_small by lia. exists [48 + n]. split; [done|].
    split; [split; [done|constructor; [apply Hd; lia|constructor]]|].
    split; [intros x; change (zlen [48 + n]) with 1; cbn [foldl]; lia|].
    split; [intros ? [= ?]; lia|by intros ->].
  - rewrite Nat2Z.inj_succ, Z.pow_succ_r in Hn by lia.
    assert (0 < fuel)%nat as Hf' by (destruct fuel; [simpl in Hn; lia|lia]).
    destruct (IH (n / 10) ((48 + n mod 10) :: acc)) as (ds & E & [Hne Hds] & Hval & Hhd & _).
    { split; [apply Z.div_pos; lia|apply Z.div_lt_upper_bound; lia]. } { done. }
    exists (ds ++ [48 + n mod 10]). rewrite E, <- app_assoc. split; [done|].
    split; [split; [by destruct ds|apply Forall_app; split; [done|]; constructor;
      [apply Hd, Z.mod_pos_bound; lia|constructor]]|].
    split.
    { intros x. rewrite foldl_app, Hval. cbn [foldl]. rewrite zlen_app. change (zlen [48 + n mod 10]) with 1.
      pose proof (zlen_nonneg ds). rewrite Z.pow_add_r by lia. change (10 ^ 1) with 10.
      pose proof (Z_div_mod_eq_full n 10). lia. }
    split; [|lia]. intros _. specialize (Hhd ltac:(zdm)). by destruct ds.
Qed.
Lemma dec_str_facts n : 0 <= n ->
  (dec_str n <> [] /\ Forall (fun c => is_dec c = true) (dec_str n)) /\ dec_val (dec_str n) = n /\ (0 < n -> head (dec_str n) <> Some 48) /\ (n = 0 -> dec_str n = [48]).
Proof.
  intros Hn. unfold dec_str, dec_val. pose proof (Z.log2_nonneg n).
  destruct (dec_digits_spec (S (Z.to_nat (Z.log2 n))) n []) as (ds & -> & Hd & Hv & Hh & H0); [|lia|].
  { split; [done|]. rewrite Nat2Z.inj_succ, Z2Nat.id by lia.
    destruct (Z.eq_dec n 0) as [->|Hn0]; [done|].
    apply Z.lt_le_trans with (2 ^ Z.succ (Z.log2 n)); [apply Z.log2_spec; lia|].
    apply Z.pow_le_mono_l. lia. }
  rewrite app_nil_r. split_and!; [apply Hd|apply Hd|rewrite Hv; lia|done|done].
Qed.
Lemma dec_str_numeral n : 0 <= n -> numeral (dec_str n) = true.
Proof.
  intros Hn. destruct (dec_str_facts n Hn) as ([Hne Hd] & _). unfold numeral. rewrite bool_decide_eq_false_2 by done. apply forallb_forall.
  intros c Hc%list_elem_of_In. rewrite Forall_forall in Hd. by apply Hd.
Qed.
End JsString.
