(* ===== verification/JsDate.v ===== *)
(** ECMAScript time values in UTC.

    A [Date] is its time value, milliseconds since the epoch, [None] when it
    is NaN; a getter of an invalid date and an argument computed from one are
    [None] too.  The definitions are those of the Date objects section of
    ECMA-262 (Day, YearFromTime, MonthFromTime, MakeDay, TimeClip, Date.UTC).
    The lemmas relate them: [Date.UTC] of the fields of a time gives the time
    back, and the fields of a time are monotone in it. *)

From S2P Require Import Prelude.

Module JsDate.

Definition msPerDay : Z := 86400000.
Definition Day (t : Z) : Z := t / msPerDay.
Definition TimeWithinDay (t : Z) : Z := t mod msPerDay.
Definition DayFromYear (y : Z) : Z :=
  365 * (y - 1970) + (y - 1969) / 4 - (y - 1901) / 100 + (y - 1601) / 400.
(** The year of a day: an estimate from the mean length of a year, which is off
    by one at most. *)
Definition year_of_day (d : Z) : Z :=
  let y := 1970 + d * 400 / 146097 in
  if d <? DayFromYear y then y - 1
  else if DayFromYear (y + 1) <=? d then y + 1 else y.
Definition YearFromTime (t : Z) : Z := year_of_day (Day t).
Definition leap_year (y : Z) : bool := DayFromYear (y + 1) - DayFromYear y =? 366.
(** The days of a year before its month [m], counted from 0. *)
Definition month_start (leap : bool) (m : Z) : Z :=
  let l := Z.b2z leap in
  match m with
  | 0 => 0 | 1 => 31 | 2 => 59 + l | 3 => 90 + l | 4 => 120 + l | 5 => 151 + l
  | 6 => 181 + l | 7 => 212 + l | 8 => 243 + l | 9 => 273 + l | 10 => 304 + l | _ => 334 + l
  end.
(** The month of the day [n] of a year. *)
Definition month_of (leap : bool) (n : Z) : Z :=
  let l := Z.b2z leap in
  if n <? 31 then 0 else if n <? 59 + l then 1 else if n <? 90 + l then 2
  else if n <? 120 + l then 3 else if n <? 151 + l then 4 else if n <? 181 + l then 5
  else if n <? 212 + l then 6 else if n <? 243 + l then 7 else if n <? 273 + l then 8
  else if n <? 304 + l then 9 else if n <? 334 + l then 10 else 11.
Definition DayWithinYear (t : Z) : Z := Day t - DayFromYear (YearFromTime t).
Definition MonthFromTime (t : Z) : Z := month_of (leap_year (YearFromTime t)) (DayWithinYear t).
Definition DateFromTime (t : Z) : Z :=
  DayWithinYear t - month_start (leap_year (YearFromTime t)) (MonthFromTime t) + 1.
Definition WeekDay (t : Z) : Z := (Day t + 4) mod 7.
Definition HourFromTime (t : Z) : Z := t / 3600000 mod 24.
Definition MinFromTime (t : Z) : Z := t / 60000 mod 60.

Definition MakeDay (year month date : Z) : Z :=
  let ym := year + month / 12 in
  DayFromYear ym + month_start (leap_year ym) (month mod 12) + date - 1.
Definition MakeTime (hour min : Z) : Z := hour * 3600000 + min * 60000.
Definition MakeDate (day time : Z) : Z := day * msPerDay + time.
Definition TimeClip (t : Z) : option Z := if Z.abs t <=? 8640000000000000 then Some t else None.
(** Two-digit years are in the twentieth century. *)
Definition MakeFullYear (y : Z) : Z := if (0 <=? y) && (y <=? 99) then 1900 + y else y.

(** [Date.UTC(year, month, date, hour, minute)] of integers. *)
Definition UTC (year month date hour minute : Z) : option Z :=
  TimeClip (MakeDate (MakeDay (MakeFullYear year) month date) (MakeTime hour minute)).

(** ** Years *)
Lemma DayFromYear_step y : 365 <= DayFromYear (y + 1) - DayFromYear y <= 366.
Proof. unfold DayFromYear. zdm. Qed.

Lemma DayFromYear_lt y y' : y < y' -> DayFromYear y < DayFromYear y'.
Proof.
  intros H. replace y' with (y + Z.of_nat (Z.to_nat (y' - y))) by lia.
  assert (0 < Z.to_nat (y' - y))%nat as Hn by lia. revert Hn. generalize (Z.to_nat (y' - y)) as n.
  induction n as [|n IH]; [lia|]. intros _. pose proof (DayFromYear_step (y + Z.of_nat n)).
  replace (y + Z.of_nat (S n)) with (y + Z.of_nat n + 1) by lia.
  destruct n; [rewrite Z.add_0_r in *; lia|]. lia.
Qed.

Lemma DayFromYear_le y y' : y <= y' -> DayFromYear y <= DayFromYear y'.
Proof. intros H. destruct (decide (y = y')) as [->|]; [lia|]. apply Z.lt_le_incl, DayFromYear_lt. lia. Qed.

(** The estimate of [year_of_day] is off by one at most. *)
Lemma year_estimate d (y := 1970 + d * 400 / 146097) : DayFromYear (y - 1) <= d < DayFromYear (y + 2).
Proof. subst y. unfold DayFromYear. zdm. Qed.

Lemma year_of_day_spec d : DayFromYear (year_of_day d) <= d < DayFromYear (year_of_day d + 1).
Proof.
  pose proof (year_estimate d) as H. unfold year_of_day. cbv zeta in *.
  set (y := 1970 + d * 400 / 146097) in *. zcases.
  - replace (y - 1 + 1) with y by lia. lia.
  - replace (y + 1 + 1) with (y + 2) by lia. lia.
  - lia.
Qed.

Lemma year_of_day_unique d y : DayFromYear y <= d < DayFromYear (y + 1) -> year_of_day d = y.
Proof.
  intros H. pose proof (year_of_day_spec d) as H'.
  destruct (Z.lt_trichotomy (year_of_day d) y) as [L|[E|L]]; [|done|].
  - pose proof (DayFromYear_le (year_of_day d + 1) y ltac:(lia)). lia.
  - pose proof (DayFromYear_le (y + 1) (year_of_day d) ltac:(lia)). lia.
Qed.

Lemma year_of_day_ge d y : y <= year_of_day d <-> DayFromYear y <= d.
Proof.
  pose proof (year_of_day_spec d). split; intros H'.
  - pose proof (DayFromYear_le _ _ H'). lia.
  - apply Z.nlt_ge. intros C. pose proof (DayFromYear_le (year_of_day d + 1) y ltac:(lia)). lia.
Qed.
(** ** Months *)
Lemma month_of_range leap n : 0 <= month_of leap n <= 11.
Proof. unfold month_of. zcases; lia. Qed.

Lemma month_of_lt leap n M : 0 <= n -> 0 <= M <= 11 -> month_of leap n < M <-> n < month_start leap M.
Proof.
  intros Hn HM. assert (M ∈ seqZ 0 12) as H by (apply elem_of_seqZ; lia). clear HM.
  change (seqZ 0 12) with [0; 1; 2; 3; 4; 5; 6; 7; 8; 9; 10; 11] in H.
  unfold month_of. repeat (apply elem_of_cons in H as [->|H]; [destruct leap; cbn; zcases; lia|]).
  by apply not_elem_of_nil in H.
Qed.

Lemma month_start_le leap m : 0 <= month_start leap m <= 335.
Proof. unfold month_start. destruct leap; cbn; repeat case_match; lia. Qed.

(** ** Fields of a time *)
Lemma DayWithinYear_nonneg t : 0 <= DayWithinYear t.
Proof. unfold DayWithinYear, YearFromTime. pose proof (year_of_day_spec (Day t)). lia. Qed.

Lemma MonthFromTime_range t : 0 <= MonthFromTime t <= 11.
Proof. apply month_of_range. Qed.

Lemma MakeDay_first y M : 0 <= M <= 11 -> MakeDay y M 1 = DayFromYear y + month_start (leap_year y) M.
Proof.
  intros H. unfold MakeDay. rewrite Z.div_small, Z.mod_small by lia. rewrite Z.add_0_r. lia.
Qed.

(** The fields of a time determine its day. *)
Lemma MakeDay_fields t k : MakeDay (YearFromTime t) (MonthFromTime t) (DateFromTime t + k) = Day t + k.
Proof.
  pose proof (MonthFromTime_range t). unfold MakeDay. rewrite Z.div_small, Z.mod_small by lia.
  rewrite Z.add_0_r. unfold DateFromTime, DayWithinYear. lia.
Qed.

(** A time is before a month of its year exactly when its month is. *)
Lemma month_before u M : 0 <= M <= 11 -> MonthFromTime u < M <-> Day u < MakeDay (YearFromTime u) M 1.
Proof.
  intros H. rewrite MakeDay_first by done. unfold MonthFromTime.
  rewrite month_of_lt by (done || apply DayWithinYear_nonneg). unfold DayWithinYear. lia.
Qed.

Lemma MakeDay_next_year y M : 0 <= M <= 11 -> DayFromYear y <= MakeDay y M 1 < DayFromYear (y + 1).
Proof.
  intros H. rewrite MakeDay_first by done. pose proof (month_start_le (leap_year y) M).
  pose proof (DayFromYear_step y). lia.
Qed.

Lemma year_before u y : YearFromTime u < y <-> Day u < DayFromYear y.
Proof. unfold YearFromTime. pose proof (year_of_day_ge (Day u) y). lia. Qed.

Lemma year_mono t u : Day t <= Day u -> YearFromTime t <= YearFromTime u.
Proof. intros H. apply year_of_day_ge. pose proof (year_of_day_spec (Day t)). unfold YearFromTime. lia. Qed.

Lemma month_mono t u :
  Day t <= Day u -> YearFromTime u = YearFromTime t -> MonthFromTime t <= MonthFromTime u.
Proof.
  intros H E. apply Z.nlt_ge. intros C. apply month_before in C; [|apply MonthFromTime_range].
  rewrite E in C. assert (MonthFromTime t < MonthFromTime t); [|lia].
  apply month_before; [apply MonthFromTime_range|lia].
Qed.

(** The calendar fields depend on the day only. *)
Lemma same_day t u : Day u = Day t ->
  YearFromTime u = YearFromTime t /\ MonthFromTime u = MonthFromTime t /\
  DateFromTime u = DateFromTime t /\ WeekDay u = WeekDay t.
Proof.
  unfold DateFromTime, MonthFromTime, DayWithinYear, YearFromTime, WeekDay. by intros ->.
Qed.

(** [Date.UTC] of the year and month of a time with another day, hour and
    minute. *)
Lemma UTC_fields t k h m :
  100 <= YearFromTime t ->
  UTC (YearFromTime t) (MonthFromTime t) (DateFromTime t + k) h m =
  TimeClip ((Day t + k) * msPerDay + h * 3600000 + m * 60000).
Proof.
  intros Hy. unfold UTC, MakeFullYear, MakeDate, MakeTime.
  destruct (Z.leb_spec (YearFromTime t) 99); [lia|]. rewrite andb_false_r, MakeDay_fields. f_equal. lia.
Qed.

Lemma UTC_month y M : 100 <= y -> 0 <= M <= 11 -> UTC y M 1 0 0 = TimeClip (MakeDay y M 1 * msPerDay).
Proof.
  intros Hy HM. unfold UTC, MakeFullYear, MakeDate, MakeTime.
  destruct (Z.leb_spec y 99); [lia|]. rewrite andb_false_r. f_equal. lia.
Qed.

Lemma TimeClip_valid t : Z.abs t <= 8640000000000000 -> TimeClip t = Some t.
Proof. intros H. unfold TimeClip. by rewrite (proj2 (Z.leb_le _ _) H). Qed.

Lemma DayFromTime_lt t d : Day t < d <-> t < d * msPerDay.
Proof. unfold Day, msPerDay. zdm. Qed.
Lemma Day_mono t u : t <= u -> Day t <= Day u.
Proof. unfold Day, msPerDay. zdm. Qed.
End JsDate.
