(* ===== verification/JsRegExp.v ===== *)
(** Regular expressions of the language, without flags, as far as the modelled code
    builds them: characters, the dot, classes, groups that do not capture,
    alternatives, [*] and [+].  [pattern] reads the text, [matcher] is the matching of
    the specification of ECMAScript, and [lang] the language that it decides. *)

From S2P Require Import Prelude JsString.

Module JsRegExp.

Inductive regex :=
| Empty
| Char (c : Z)
| Dot
| Class (neg : bool) (ranges : list (Z * Z))
| Seq (a b : regex)
| Or (a b : regex)
| Star (r : regex)
| Plus (r : regex).

Definition is_line_terminator (u : Z) : bool := (u =? 10) || (u =? 13) || (u =? 8232) || (u =? 8233).
Definition in_class (neg : bool) (ranges : list (Z * Z)) (u : Z) : bool :=
  xorb neg (existsb (fun r => (r.1 <=? u) && (u <=? r.2)) ranges).

(** ** Matching

    A matcher takes what is to match after it.  A round of a repetition that takes
    nothing fails, so there are at most as many rounds as characters. *)

Definition one_char (p : Z -> bool) (k : jsstring -> bool) (s : jsstring) : bool :=
  match s with u :: s => p u && k s | [] => false end.
Fixpoint repeat_loop (m : (jsstring -> bool) -> jsstring -> bool) (k : jsstring -> bool) (rounds : nat) (s : jsstring) : bool :=
  match rounds with
  | O => k s
  | S n => m (fun s' => if (length s' =? length s)%nat then false else repeat_loop m k n s') s || k s
  end.
Definition repeat (m : (jsstring -> bool) -> jsstring -> bool) (k : jsstring -> bool) (s : jsstring) : bool := repeat_loop m k (length s) s.
Fixpoint matcher (r : regex) (k : jsstring -> bool) (s : jsstring) : bool :=
  match r with
  | Empty => k s
  | Char c => one_char (Z.eqb c) k s
  | Dot => one_char (fun u => negb (is_line_terminator u)) k s
  | Class neg ranges => one_char (in_class neg ranges) k s
  | Seq a b => matcher a (matcher b k) s
  | Or a b => matcher a k s || matcher b k s
  | Star r => repeat (matcher r) k s
  | Plus r => matcher r (repeat (matcher r) k) s
  end.
(** [new RegExp('^' + r + '$').test(s)] *)
Definition test_whole (r : regex) (s : jsstring) : bool := matcher r (fun s => bool_decide (s = [])) s.

(** ** The text of an expression *)

Definition is_syntax (c : Z) : bool := bool_decide (c ∈ js "^$\.*+?()[]{}|").
Definition is_alnum (c : Z) : bool := ((48 <=? c) && (c <=? 57)) || ((65 <=? c) && (c <=? 90)) || ((97 <=? c) && (c <=? 122)).
(** A character of a class, and the text after it. *)
Definition class_atom (s : jsstring) : option (Z * jsstring) :=
  match s with
  | 92 :: c :: s => if is_alnum c then None else Some (c, s)
  | 92 :: [] => None
  | c :: s => Some (c, s)
  | [] => None
  end.
(** The text after the hyphen of a range. *)
Definition hyphen (s : jsstring) : option jsstring := match s with 45 :: ((c :: _) as s) => if c =? 93 then None else Some s | _ => None end.
(** The inside of a class up to its bracket; [None] where the order of a range is
    wrong. *)
Fixpoint class_body (fuel : nat) (s : jsstring) : option (list (Z * Z) * jsstring) :=
  match fuel with
  | O => None
  | S fuel =>
      match s with
      | 93 :: s => Some ([], s)
      | _ =>
          '(a, s) ← class_atom s;
          match hyphen s with
          | Some s => '(b, s) ← class_atom s; if a <=? b then '(l, s) ← class_body fuel s; Some ((a, b) :: l, s) else None
          | None => '(l, s) ← class_body fuel s; Some ((a, a) :: l, s)
          end
      end
  end.
Definition class (fuel : nat) (s : jsstring) : option (regex * jsstring) :=
  match s with
  | 94 :: s => '(l, s) ← class_body fuel s; Some (Class true l, s)
  | _ => '(l, s) ← class_body fuel s; Some (Class false l, s)
  end.
Definition quantifier (r : regex) (s : jsstring) : regex * jsstring :=
  match s with 42 :: s => (Star r, s) | 43 :: s => (Plus r, s) | _ => (r, s) end.
(** Alternatives up to the end or a closing parenthesis; the first alternative; its
    first term.  [None] for text that is wrong or uses other syntax. *)
Section pattern.
Context (disjunction : jsstring -> option (regex * jsstring)).
Definition atom (fuel : nat) (s : jsstring) : option (regex * jsstring) :=
  match s with
  | 46 :: s => Some (Dot, s)
  | 92 :: c :: s => if is_alnum c then None else Some (Char c, s)
  | 91 :: s => class fuel s
  | 40 :: 63 :: 58 :: s => '(r, s) ← disjunction s; match s with 41 :: s => Some (r, s) | _ => None end
  | c :: s => if is_syntax c then None else Some (Char c, s)
  | [] => None
  end.
Fixpoint alternative (fuel : nat) (s : jsstring) : option (regex * jsstring) :=
  match fuel with
  | O => None
  | S fuel =>
      match s with
      | [] => Some (Empty, [])
      | c :: _ =>
          if (c =? 124) || (c =? 41) then Some (Empty, s)
          else
            '(r, s) ← atom fuel s;
            let '(r, s) := quantifier r s in
            '(rs, s) ← alternative fuel s; Some (Seq r rs, s)
      end
  end.
End pattern.
Fixpoint disjunction (fuel : nat) (s : jsstring) : option (regex * jsstring) :=
  match fuel with
  | O => None
  | S fuel =>
      '(r, s) ← alternative (disjunction fuel) fuel s;
      match s with
      | 124 :: s => '(rs, s) ← disjunction fuel s; Some (Or r rs, s)
      | _ => Some (r, s)
      end
  end.
(** The expression [r] for which [new RegExp('^' + s + '$')] matches as [test_whole r]
    does: there is no alternative outside a group. *)
Definition pattern (s : jsstring) : option regex :=
  '(r, rest) ← alternative (disjunction (length s)) (S (length s)) s; match rest with [] => Some r | _ => None end.

(** ** The language *)

Inductive lang : regex -> jsstring -> Prop :=
| lang_empty : lang Empty []
| lang_char c : lang (Char c) [c]
| lang_dot u : is_line_terminator u = false -> lang Dot [u]
| lang_class neg ranges u : in_class neg ranges u = true -> lang (Class neg ranges) [u]
| lang_seq a b p q : lang a p -> lang b q -> lang (Seq a b) (p ++ q)
| lang_or_l a b p : lang a p -> lang (Or a b) p
| lang_or_r a b p : lang b p -> lang (Or a b) p
| lang_star_nil r : lang (Star r) []
| lang_star_app r p q : lang r p -> lang (Star r) q -> lang (Star r) (p ++ q)
| lang_plus r p q : lang r p -> lang (Star r) q -> lang (Plus r) (p ++ q).
Lemma lang_seq_iff a b s : lang (Seq a b) s <-> exists p q, s = p ++ q /\ lang a p /\ lang b q.
Proof. split; [inversion 1; subst; eauto|]. intros (p & q & -> & ? & ?). by constructor. Qed.
Lemma lang_or_iff a b s : lang (Or a b) s <-> lang a s \/ lang b s.
Proof. split; [inversion 1; auto|]. intros [?|?]; [by apply lang_or_l|by apply lang_or_r]. Qed.
Lemma lang_empty_iff s : lang Empty s <-> s = [].
Proof. split; [by inversion 1|intros ->; constructor]. Qed.
Lemma lang_char_iff c s : lang (Char c) s <-> s = [c].
Proof. split; [by inversion 1|intros ->; constructor]. Qed.
Lemma lang_class_iff neg ranges s : lang (Class neg ranges) s <-> exists u, s = [u] /\ in_class neg ranges u = true.
Proof. split; [inversion 1; eauto|]. intros (u & -> & ?). by constructor. Qed.
(** A repetition of single characters. *)
Lemma lang_star_chars r (p : Z -> Prop) s :
  (forall t, lang r t <-> exists u, t = [u] /\ p u) -> lang (Star r) s <-> Forall p s.
Proof.
  intros Hr. split.
  - intros H. remember (Star r) as r' eqn:E. induction H; simplify_eq; [constructor|].
    apply Hr in H as (u & -> & Hu). constructor; auto.
  - induction 1 as [|u s Hu Hs IH]; [constructor|]. apply (lang_star_app r [u] s); [|done]. apply Hr. eauto.
Qed.

(** What a matcher decides, given what it is asked to match after. *)
Definition decides (m : (jsstring -> bool) -> jsstring -> bool) (l : jsstring -> Prop) : Prop :=
  forall k s, m k s = true <-> exists p q, s = p ++ q /\ l p /\ k q = true.
Lemma decides_one_char p : decides (one_char p) (fun s => exists u, s = [u] /\ p u = true).
Proof.
  intros k [|u s]; simpl.
  - split; [done|]. intros (? & q & E & (u & -> & _) & _). done.
  - rewrite andb_true_iff. split; [intros [? ?]; exists [u], s; eauto|]. intros (? & q & E & (v & -> & Hv) & Hq).
    by simplify_eq/=.
Qed.
Lemma decides_ext m (l l' : jsstring -> Prop) : (forall s, l s <-> l' s) -> decides m l -> decides m l'.
Proof. intros Hl Hm k s. rewrite (Hm k s). by setoid_rewrite Hl. Qed.
Lemma decides_seq m1 m2 l1 l2 : decides m1 l1 -> decides m2 l2 ->
  decides (fun k => m1 (m2 k)) (fun s => exists p q, s = p ++ q /\ l1 p /\ l2 q).
Proof.
  intros H1 H2 k s. rewrite (H1 (m2 k) s). setoid_rewrite (H2 k). split.
  - intros (p & ? & -> & Hp & q & t & -> & Hq & Ht). exists (p ++ q), t. rewrite <-app_assoc. naive_solver.
  - intros (? & t & -> & (p & q & -> & Hp & Hq) & Ht). exists p, (q ++ t). rewrite <-app_assoc. naive_solver.
Qed.
Lemma repeat_decides m r : decides m (lang r) -> decides (repeat m) (lang (Star r)).
Proof.
  intros Hm k. assert (Hsound : forall n s, repeat_loop m k n s = true -> exists p q, s = p ++ q /\ lang (Star r) p /\ k q = true).
  { induction n as [|n IH]; intros s; simpl; [intros Hk; exists [], s; by repeat constructor|].
    rewrite orb_true_iff, (Hm _ s). intros [(p & q & -> & Hp & Hq)|Hk]; [|exists [], s; by repeat constructor].
    destruct (Nat.eqb _ _); [done|]. destruct (IH q Hq) as (q1 & q2 & -> & ? & ?).
    exists (p ++ q1), q2. rewrite <-app_assoc. split_and!; [done|by constructor|done]. }
  assert (Hcomplete : forall p, lang (Star r) p -> forall n q, (length p <= n)%nat -> k q = true -> repeat_loop m k n (p ++ q) = true).
  { intros p Hp. remember (Star r) as r' eqn:E. induction Hp as [| | | | | | |r0|r0 p1 p2 H1 _ H2 IH|]; simplify_eq; intros n q Hn Hq.
    - destruct n; simpl; [done|]. by rewrite Hq, orb_true_r.
    - destruct p1 as [|u p1]; [by apply IH|]. rewrite length_app in Hn. destruct n as [|n]; [simpl in Hn; lia|].
      cbn [repeat_loop]. apply orb_true_iff. left. apply Hm. exists (u :: p1), (p2 ++ q).
      split_and!; [by rewrite app_assoc|done|]. destruct (Nat.eqb_spec (length (p2 ++ q)) (length (((u :: p1) ++ p2) ++ q))) as [E|_].
      + rewrite !length_app in E. simpl in E. lia.
      + simpl in Hn. apply IH; [done|exact Hsound|lia|done]. }
  intros s. split; [apply Hsound|]. intros (p & q & -> & Hp & Hq). apply Hcomplete; [done| |done]. rewrite length_app. lia.
Qed.
Lemma matcher_lang r : decides (matcher r) (lang r).
Proof.
  induction r as [|c| |neg l|a IHa b IHb|a IHa b IHb|r IH|r IH].
  - intros k s. split; [intros Hk; exists [], s; by repeat constructor|]. intros (p & q & -> & Hp & Hq). by inversion Hp.
  - eapply decides_ext, decides_one_char. intros s. rewrite lang_char_iff. split; [intros (u & -> & ->%Z.eqb_eq); done|].
    intros ->. exists c. split; [done|]. apply Z.eqb_refl.
  - eapply decides_ext, decides_one_char. intros s. split; [intros (u & -> & ?%negb_true_iff); by constructor|].
    inversion 1; subst. eexists. split; [done|]. by apply negb_true_iff.
  - eapply decides_ext, decides_one_char. intros s. by rewrite lang_class_iff.
  - eapply decides_ext, (decides_seq (matcher a) (matcher b)); [|done|done]. intros s. by rewrite lang_seq_iff.
  - intros k s. simpl. rewrite orb_true_iff, (IHa k s), (IHb k s). setoid_rewrite lang_or_iff. naive_solver.
  - by apply repeat_decides.
  - eapply decides_ext, (decides_seq (matcher r) (repeat (matcher r))); [|done|by apply repeat_decides].
    intros s. split; [intros (p & q & -> & ? & ?); by constructor|]. inversion 1; subst. eauto.
Qed.
Lemma test_whole_lang r s : test_whole r s = true <-> lang r s.
Proof.
  unfold test_whole. rewrite (matcher_lang r _ s). split.
  - intros (p & q & -> & Hp & ->%bool_decide_eq_true). by rewrite app_nil_r.
  - intros Hs. exists s, []. rewrite app_nil_r. split_and!; [done|done|]. by apply bool_decide_eq_true.
Qed.
End JsRegExp.
