(* ===== verification/Utf8.v ===== *)
(** UTF-8 primitives: [encodeUtf8] and [decodeUtf8] of
    src/js/internal/encoding.ts, the functions behind TextEncoder and
    TextDecoder and behind every string the wire formats carry.

    A JavaScript string is a list of UTF-16 code units.  The decoder's loop is
    modelled on the unread suffix of the input; [decode_step] is one iteration
    of it. *)

From S2P Require Import Prelude.

Module Utf8.

Definition is_hi (u : Z) : bool := (55296 <=? u) && (u <=? 56319).
Definition is_lo (u : Z) : bool := (56320 <=? u) && (u <=? 57343).

(** The bytes of one code point (the if/else chain of the loop body). *)
Definition encode_cp (cp : Z) : list Z :=
  if cp <? 128 then [cp]
  else if cp <? 2048 then
    [Z.lor 192 (Z.shiftr cp 6); Z.lor 128 (Z.land cp 63)]
  else if cp <? 65536 then
    [Z.lor 224 (Z.shiftr cp 12); Z.lor 128 (Z.land (Z.shiftr cp 6) 63);
     Z.lor 128 (Z.land cp 63)]
  else
    [Z.lor 240 (Z.shiftr cp 18); Z.lor 128 (Z.land (Z.shiftr cp 12) 63);
     Z.lor 128 (Z.land (Z.shiftr cp 6) 63); Z.lor 128 (Z.land cp 63)].

(** The code points the loop visits: a surrogate pair is joined, a lone
    surrogate becomes U+FFFD ([charCodeAt] past the end is NaN, which fails
    both comparisons). *)
Fixpoint code_points (str : jsstring) : list Z :=
  match str with
  | [] => []
  | cp :: rest =>
      if is_hi cp then
        match rest with
        | lo :: rest' =>
            if is_lo lo
            then (65536 + Z.shiftl (cp - 55296) 10 + (lo - 56320)) :: code_points rest'
            else 65533 :: code_points rest
        | [] => [65533]
        end
      else if is_lo cp then 65533 :: code_points rest
      else cp :: code_points rest
  end.

Definition encodeUtf8 (str : jsstring) : list Z :=
  if forallb (fun u => u <? 128) str then str
  else code_points str ≫= encode_cp.

(** The lead byte: initial bits and sequence length. *)
Definition lead (b0 : Z) : option (Z * Z) :=
  if b0 <? 128 then Some (b0, 1)
  else if Z.land b0 224 =? 192 then Some (Z.land b0 31, 2)
  else if Z.land b0 240 =? 224 then Some (Z.land b0 15, 3)
  else if Z.land b0 248 =? 240 then Some (Z.land b0 7, 4)
  else None.

Definition invalidSecond (b0 b1 : Z) : bool :=
  (Z.land b1 192 =? 128) &&
  (((b0 =? 224) && (b1 <? 160)) || ((b0 =? 237) && (159 <? b1)) ||
   ((b0 =? 240) && (b1 <? 144)) || ((b0 =? 244) && (143 <? b1))).

(** The continuation loop [for (j = 1; j < seqLen; j++)]. *)
Inductive cont_result :=
| Valid (cp : Z)
| MissingContinuation
| InvalidContinuation (offset : Z).

Fixpoint continuation (n : nat) (j cp : Z) (tail : list Z) : cont_result :=
  match n with
  | O => Valid cp
  | S n =>
      match tail with
      | [] => MissingContinuation
      | b :: tail =>
          if negb (Z.land b 192 =? 128) then InvalidContinuation j
          else continuation n (j + 1) (Z.lor (Z.shiftl cp 6) (Z.land b 63)) tail
      end
  end.

Definition bad_code_point (seqLen cp : Z) : bool :=
  ((seqLen =? 2) && (cp <? 128)) || ((seqLen =? 3) && (cp <? 2048)) ||
  ((seqLen =? 4) && (cp <? 65536)) || (1114111 <? cp) ||
  ((55296 <=? cp) && (cp <=? 57343)).

Definition from_code_point (cp : Z) : jsstring :=
  if cp <? 65536 then [cp]
  else let cp := cp - 65536 in [55296 + Z.shiftr cp 10; 56320 + Z.land cp 1023].

(** One iteration at a non-empty suffix [b0 :: tail]: the text appended, the
    bytes consumed and the new [first] flag. *)
Definition decode_step (fatal skipBom first : bool) (b0 : Z) (tail : list Z)
  : res (jsstring * Z * bool) :=
  let malformed (n : Z) : res (jsstring * Z * bool) :=
    if fatal then Throw (TypeError "TextDecoder: malformed sequence")
    else Ok ([65533], n, first) in
  match lead b0 with
  | None => malformed 1
  | Some (cp, seqLen) =>
      if (3 <=? seqLen) &&
         match tail with b1 :: _ => invalidSecond b0 b1 | [] => false end
      then malformed 1
      else
        match continuation (Z.to_nat (seqLen - 1)) 1 cp tail with
        | MissingContinuation => malformed (zlen (b0 :: tail))
        | InvalidContinuation j => malformed j
        | Valid cp =>
            if bad_code_point seqLen cp then malformed seqLen
            else if first && skipBom && (cp =? 65279) then Ok ([], seqLen, false)
            else Ok (from_code_point cp, seqLen, false)
        end
  end.

Fixpoint decode_loop (fuel : nat) (fatal skipBom first : bool) (bytes : list Z)
  : res jsstring :=
  match bytes with
  | [] => Ok []
  | b0 :: tail =>
      match fuel with
      | O => Throw Diverges
      | S fuel =>
          '(chunk, n, first') ← decode_step fatal skipBom first b0 tail;
          rest ← decode_loop fuel fatal skipBom first' (drop (Z.to_nat n) bytes);
          mret (chunk ++ rest)
      end
  end.

Definition decodeUtf8 (bytes : list Z) (fatal skipBom : bool) : res jsstring :=
  if negb fatal && skipBom && forallb (fun b => b <? 128) bytes then Ok bytes
  else decode_loop (length bytes) fatal skipBom true bytes.

(** [new TextDecoder().decode(bytes)] (utf-8, not fatal, BOM stripped, no
    streaming) and [new TextEncoder().encode(str)]. *)
Definition TextDecoder_decode (bytes : list Z) : res jsstring :=
  if zlen bytes =? 0 then Ok [] else decodeUtf8 bytes false true.
Definition TextEncoder_encode (str : jsstring) : list Z := encodeUtf8 str.

(** ** Reference notions *)

(** [String.prototype.toWellFormed]: lone surrogates become U+FFFD. *)
Fixpoint toWellFormed (str : jsstring) : jsstring :=
  match str with
  | [] => []
  | u :: rest =>
      if is_hi u then
        match rest with
        | lo :: rest' =>
            if is_lo lo then u :: lo :: toWellFormed rest'
            else 65533 :: toWellFormed rest
        | [] => [65533]
        end
      else if is_lo u then 65533 :: toWellFormed rest
      else u :: toWellFormed rest
  end.

Definition is_unit (u : Z) : Prop := 0 <= u < 65536.
Definition starts_with_bom (str : jsstring) : bool :=
  match str with u :: _ => u =? 65279 | [] => false end.
(** Unicode scalar values. *)
Definition is_scalar (cp : Z) : Prop :=
  0 <= cp <= 1114111 /\ ~ (55296 <= cp <= 57343).

(** ** Byte arithmetic *)

Lemma lead_spec b : is_byte b ->
  lead b = if b <? 128 then Some (b, 1) else if b <? 192 then None
           else if b <? 224 then Some (b - 192, 2)
           else if b <? 240 then Some (b - 224, 3)
           else if b <? 248 then Some (b - 240, 4) else None.
Proof.
  intros Hb. apply (bool_decide_eq_true_1 _).
  revert b Hb. apply byte_forallb. vm_compute. reflexivity.
Qed.

Lemma cont_byte b : is_byte b ->
  (Z.land b 192 =? 128) = ((128 <=? b) && (b <? 192)).
Proof.
  intros Hb. apply (bool_decide_eq_true_1 _).
  revert b Hb. apply byte_forallb. vm_compute. reflexivity.
Qed.

Lemma land63 b : Z.land b 63 = b mod 64.
Proof. apply (land_ones_mod b 6); lia. Qed.

Lemma shift6 cp b : Z.lor (Z.shiftl cp 6) (Z.land b 63) = cp * 64 + b mod 64.
Proof.
  rewrite land63, Z.lor_comm, lor_disjoint_add; [lia|lia|].
  apply Z.mod_pos_bound. lia.
Qed.

Lemma shiftr6 cp : Z.shiftr cp 6 = cp / 64.
Proof. by rewrite Z.shiftr_div_pow2. Qed.
Lemma shiftr12 cp : Z.shiftr cp 12 = cp / 4096.
Proof. by rewrite Z.shiftr_div_pow2. Qed.
Lemma shiftr18 cp : Z.shiftr cp 18 = cp / 262144.
Proof. by rewrite Z.shiftr_div_pow2. Qed.

Lemma encode_cp_arith cp : 0 <= cp <= 1114111 ->
  encode_cp cp =
    if cp <? 128 then [cp]
    else if cp <? 2048 then [192 + cp / 64; 128 + cp mod 64]
    else if cp <? 65536 then
      [224 + cp / 4096; 128 + cp / 64 mod 64; 128 + cp mod 64]
    else [240 + cp / 262144; 128 + cp / 4096 mod 64; 128 + cp / 64 mod 64;
          128 + cp mod 64].
Proof.
  intros H. unfold encode_cp. rewrite shiftr6, shiftr12, shiftr18, !land63.
  assert (forall x, Z.lor 128 (x mod 64) = 128 + x mod 64) as L.
  { intros x. apply (lor_high _ 2 _ 6); [lia|lia|]. apply Z.mod_pos_bound. lia. }
  rewrite !L. zcases; [done|..].
  - rewrite (lor_high _ 6 _ 5); [done|lia|lia|]. zdm.
  - rewrite (lor_high _ 14 _ 4); [done|lia|lia|]. zdm.
  - rewrite (lor_high _ 30 _ 3); [done|lia|lia|]. zdm.
Qed.

Lemma encode_cp_bytes cp : 0 <= cp <= 1114111 -> Forall is_byte (encode_cp cp).
Proof.
  intros H. rewrite encode_cp_arith by done. unfold is_byte.
  zcases; repeat constructor; zdm.
Qed.

Lemma encode_cp_length cp :
  zlen (encode_cp cp) =
    if cp <? 128 then 1 else if cp <? 2048 then 2 else if cp <? 65536 then 3 else 4.
Proof. unfold encode_cp. by zcases. Qed.

(** ** One decoding step inverts one encoded code point *)

Lemma continuation_byte n j cp b tail :
  is_byte b -> 128 <= b < 192 ->
  continuation (S n) j cp (b :: tail) = continuation n (j + 1) (cp * 64 + b mod 64) tail.
Proof.
  intros Hb Hr. cbn [continuation]. rewrite cont_byte by done.
  replace (128 <=? b) with true by lia. replace (b <? 192) with true by lia.
  simpl. by rewrite shift6.
Qed.

(** A step on a complete, valid sequence. *)
Lemma decode_step_valid fatal skipBom first cp c n b0 rest :
  is_scalar cp -> lead b0 = Some (c, n) ->
  (3 <= n -> forall b1, head rest = Some b1 -> invalidSecond b0 b1 = false) ->
  continuation (Z.to_nat (n - 1)) 1 c rest = Valid cp ->
  n = zlen (encode_cp cp) ->
  decode_step fatal skipBom first b0 rest =
    Ok (if first && skipBom && (cp =? 65279) then [] else from_code_point cp,
        zlen (encode_cp cp), false).
Proof.
  intros [Hcp Hs] Hl Hsec Hc Hn. unfold decode_step. rewrite Hl.
  replace ((3 <=? n) && _) with false.
  2: { destruct (Z.leb_spec 3 n); [|done]. destruct rest as [|b1 r]; [done|].
       simpl. by rewrite (Hsec H b1). }
  rewrite Hc. replace (bad_code_point n cp) with false.
  2: { rewrite Hn, encode_cp_length. unfold bad_code_point. zcases; simpl; lia. }
  rewrite Hn. by destruct (first && skipBom && (cp =? 65279)).
Qed.

(** A continuation byte of the encoder. *)
Lemma enc_cont x :
  is_byte (128 + x mod 64) /\ 128 <= 128 + x mod 64 < 192
  /\ (128 + x mod 64) mod 64 = x mod 64.
Proof. unfold is_byte. zdm. Qed.

Lemma continuation_enc n j c x tail :
  continuation (S n) j c (128 + x mod 64 :: tail) =
  continuation n (j + 1) (c * 64 + x mod 64) tail.
Proof.
  destruct (enc_cont x) as (? & ? & Hm). rewrite continuation_byte by done.
  by rewrite Hm.
Qed.

Lemma invalidSecond_enc b0 b1 :
  (b0 = 224 -> 160 <= b1) -> (b0 = 237 -> b1 <= 159) ->
  (b0 = 240 -> 144 <= b1) -> (b0 = 244 -> b1 <= 143) -> invalidSecond b0 b1 = false.
Proof.
  intros. unfold invalidSecond. apply andb_false_iff. right.
  zcases; simpl; try done; lia.
Qed.

Lemma decode_step_encode fatal skipBom first cp b0 rest tail :
  is_scalar cp -> encode_cp cp ++ tail = b0 :: rest ->
  decode_step fatal skipBom first b0 rest =
    Ok (if first && skipBom && (cp =? 65279) then [] else from_code_point cp,
        zlen (encode_cp cp), false).
Proof.
  intros Hsc Henc. pose proof Hsc as [Hcp Hs].
  pose proof (encode_cp_length cp) as Hlen.
  rewrite encode_cp_arith in Henc by done. revert Henc Hlen.
  destruct (Z.ltb_spec cp 128); [|destruct (Z.ltb_spec cp 2048);
    [|destruct (Z.ltb_spec cp 65536)]]; intros Henc Hlen; simplify_eq/=.
  - apply (decode_step_valid _ _ _ _ b0 1); [done| |lia|done|done].
    rewrite lead_spec by (unfold is_byte; lia). by replace (b0 <? 128) with true by lia.
  - apply (decode_step_valid _ _ _ _ (cp / 64) 2); [done| |lia| |done].
    + rewrite lead_spec by (unfold is_byte; zdm). zcases; try zdm. f_equal. f_equal. lia.
    + change (Z.to_nat (2 - 1)) with 1%nat. rewrite continuation_enc. cbn. f_equal. zdm.
  - apply (decode_step_valid _ _ _ _ (cp / 4096) 3); [done| | | |done].
    + rewrite lead_spec by (unfold is_byte; zdm). zcases; try zdm. f_equal. f_equal. lia.
    + intros _ b1 [= <-]. apply invalidSecond_enc; zdm.
    + change (Z.to_nat (3 - 1)) with 2%nat. rewrite !continuation_enc. cbn. f_equal. zdm.
  - apply (decode_step_valid _ _ _ _ (cp / 262144) 4); [done| | | |done].
    + rewrite lead_spec by (unfold is_byte; zdm). zcases; try zdm. f_equal. f_equal. lia.
    + intros _ b1 [= <-]. apply invalidSecond_enc; zdm.
    + change (Z.to_nat (4 - 1)) with 3%nat. rewrite !continuation_enc. cbn. f_equal. zdm.
Qed.

(** ** Whole strings *)

(** Induction two code units at a time, as the encoder scans. *)
Lemma unit_ind (P : jsstring -> Prop) :
  P [] ->
  (forall u s, (forall t, (length t <= length s)%nat -> P t) -> P (u :: s)) ->
  forall s, P s.
Proof.
  intros H0 H1 s. enough (forall n t, (length t <= n)%nat -> P t) as H by eauto.
  induction n as [|n IH]; intros [|u t] Hl; simpl in Hl; try done; [lia|].
  apply H1. intros t' Ht'. apply IH. lia.
Qed.

Lemma pair_cp_range u lo : is_hi u = true -> is_lo lo = true ->
  65536 <= 65536 + Z.shiftl (u - 55296) 10 + (lo - 56320) <= 1114111.
Proof.
  unfold is_hi, is_lo. rewrite !andb_true_iff, !Z.leb_le.
  rewrite Z.shiftl_mul_pow2 by lia. change (2 ^ 10) with 1024. lia.
Qed.

Lemma pair_from_code_point u lo : is_hi u = true -> is_lo lo = true ->
  from_code_point (65536 + Z.shiftl (u - 55296) 10 + (lo - 56320)) = [u; lo].
Proof.
  intros Hu Hlo. pose proof (pair_cp_range u lo Hu Hlo).
  unfold from_code_point. replace (_ <? 65536) with false by lia. cbv zeta.
  rewrite Z.shiftr_div_pow2 by lia. rewrite (land_ones_mod _ 10) by lia.
  revert H Hu Hlo. unfold is_hi, is_lo. rewrite !andb_true_iff, !Z.leb_le.
  rewrite Z.shiftl_mul_pow2 by lia. change (2 ^ 10) with 1024. intros.
  repeat f_equal; zdm.
Qed.

Lemma code_points_elem cp s : cp ∈ code_points s -> cp ∈ s \/ cp = 65533 \/ 65536 <= cp.
Proof.
  induction s as [|u s IH] using unit_ind; [by intros ?%elem_of_nil|]. cbn [code_points]. destruct (is_hi u) eqn:Eu.
  - destruct s as [|lo s]; [rewrite list_elem_of_singleton; auto|]. destruct (is_lo lo) eqn:El.
    + rewrite elem_of_cons. intros [->|H]; [pose proof (pair_cp_range u lo Eu El); lia|].
      destruct (IH s) as [?|?]; [cbn; lia|done| |auto]. left. by do 2 right.
    + rewrite elem_of_cons. intros [->|H]; [auto|]. destruct (IH (lo :: s)) as [?|?]; [done|done| |auto]. left. by right.
  - destruct (is_lo u); rewrite elem_of_cons; (intros [->|H]; [|destruct (IH s) as [?|?]; [done|done| |auto]; left; by right]); [auto|].
    left. by left.
Qed.
Lemma code_points_scalar s : Forall is_unit s -> Forall is_scalar (code_points s).
Proof.
  induction s as [|u s IH] using unit_ind; intros Hs; simpl; [constructor|].
  apply Forall_cons in Hs as [Hu Hs]. unfold is_unit in Hu.
  assert (is_scalar 65533) by (unfold is_scalar; lia).
  destruct (is_hi u) eqn:Ehi.
  - destruct s as [|lo s]; [by apply Forall_singleton|].
    apply Forall_cons in Hs as [Hlo Hs]. destruct (is_lo lo) eqn:Elo.
    + constructor; [|apply IH; [simpl; lia|done]].
      pose proof (pair_cp_range u lo Ehi Elo). unfold is_scalar. lia.
    + constructor; [done|]. apply (IH (lo :: s)); [done|by constructor].
  - destruct (is_lo u) eqn:Elo; constructor; try done; try (by apply IH).
    unfold is_scalar. revert Ehi Elo. unfold is_hi, is_lo. lia.
Qed.

Lemma code_points_roundtrip s :
  Forall is_unit s -> code_points s ≫= from_code_point = toWellFormed s.
Proof.
  induction s as [|u s IH] using unit_ind; intros Hs; simpl; [done|].
  apply Forall_cons in Hs as [Hu Hs]. unfold is_unit in Hu.
  destruct (is_hi u) eqn:Ehi.
  - destruct s as [|lo s]; [done|].
    apply Forall_cons in Hs as [Hlo Hs]. destruct (is_lo lo) eqn:Elo.
    + rewrite bind_cons, pair_from_code_point by done. simpl. do 2 f_equal.
      apply IH; [simpl; lia|done].
    + rewrite bind_cons. change (from_code_point 65533) with [65533].
      apply (f_equal (cons 65533)). apply (IH (lo :: s)); [done|by constructor].
  - destruct (is_lo u) eqn:Elo; rewrite bind_cons.
    + simpl. f_equal. by apply IH.
    + unfold from_code_point at 1. replace (u <? 65536) with true by lia.
      simpl. f_equal. by apply IH.
Qed.

Lemma code_points_well_formed_app p r : toWellFormed p = p -> code_points (p ++ r) = code_points p ++ code_points r.
Proof.
  assert (Hr : is_hi 65533 = false /\ is_lo 65533 = false) by done.
  induction p as [|u p IH] using unit_ind; [done|]. cbn [app code_points toWellFormed]. destruct (is_hi u) eqn:Eh.
  - destruct p as [|lo p]; [intros [= <-]; destruct Hr; congruence|]. cbn [app]. destruct (is_lo lo).
    + intros [= H]. apply (f_equal (cons _)). apply IH; [cbn; lia|done].
    + intros [= <- _]. destruct Hr. congruence.
  - destruct (is_lo u) eqn:El; [intros [= <- _]; destruct Hr; congruence|]. intros [= H]. by apply (f_equal (cons _)), IH.
Qed.
Lemma code_points_repaired s : code_points (toWellFormed s) = code_points s.
Proof.
  induction s as [|u s IH] using unit_ind; [done|]. cbn [code_points toWellFormed]. destruct (is_hi u) eqn:Eu.
  - destruct s as [|lo s]; [done|]. destruct (is_lo lo) eqn:El.
    + cbn [code_points]. rewrite Eu, El, IH; [done|cbn; lia].
    + cbn [code_points]. rewrite IH by done. done.
  - destruct (is_lo u) eqn:El; cbn [code_points]; [by rewrite IH|]. by rewrite Eu, El, IH.
Qed.
Lemma well_formed_app a b : Forall is_unit a -> Forall is_unit b -> toWellFormed a = a -> toWellFormed (a ++ b) = a ++ toWellFormed b.
Proof.
  intros Ha Hb Ea. rewrite <- code_points_roundtrip by (by apply Forall_app). rewrite code_points_well_formed_app, bind_app, !code_points_roundtrip by done. by rewrite Ea.
Qed.

Lemma code_points_ascii s :
  forallb (fun u => u <? 128) s = true -> code_points s = s /\ s ≫= encode_cp = s.
Proof.
  induction s as [|u s IH]; [done|]. cbn [forallb]. rewrite andb_true_iff.
  intros [Hu Hs]. destruct (IH Hs) as [IH1 IH2]. rewrite Z.ltb_lt in Hu. split.
  - simpl. unfold is_hi, is_lo. replace (55296 <=? u) with false by lia.
    replace (56320 <=? u) with false by lia. simpl. by rewrite IH1.
  - rewrite bind_cons, IH2. unfold encode_cp.
    by replace (u <? 128) with true by lia.
Qed.

(** The ASCII fast path computes what the general loop does. *)
Lemma encodeUtf8_spec s : encodeUtf8 s = code_points s ≫= encode_cp.
Proof.
  unfold encodeUtf8. destruct (forallb _ s) eqn:E; [|done].
  destruct (code_points_ascii s E) as [-> ->]. done.
Qed.

Lemma decode_loop_encode cps fuel fatal skipBom first :
  Forall is_scalar cps -> (length (cps ≫= encode_cp) <= fuel)%nat ->
  (first && skipBom = true -> head cps <> Some 65279) ->
  decode_loop fuel fatal skipBom first (cps ≫= encode_cp) =
    Ok (cps ≫= from_code_point).
Proof.
  intros Hs. revert fuel first. induction Hs as [|cp cps Hcp Hs IH];
    intros fuel first Hf Hb; [by destruct fuel|].
  rewrite bind_cons in *. pose proof (encode_cp_length cp) as Hlen.
  destruct (encode_cp cp ++ (cps ≫= encode_cp)) as [|b0 rest] eqn:E.
  { apply (f_equal zlen) in E. rewrite zlen_app, Hlen in E.
    pose proof (zlen_nonneg (cps ≫= encode_cp)).
    change (zlen (@nil Z)) with 0 in E. revert E. zcases; lia. }
  destruct fuel as [|fuel]; [simpl in Hf; lia|]. cbn [decode_loop].
  rewrite (decode_step_encode _ _ _ cp _ _ (cps ≫= encode_cp)) by done.
  cbn [mbind res_bind]. rewrite <- E.
  unfold zlen. rewrite Nat2Z.id, drop_app_length.
  assert (length (cps ≫= encode_cp) <= fuel)%nat as Hf'.
  { apply (f_equal length) in E. rewrite length_app in E. simpl in E, Hf.
    unfold zlen in Hlen. revert Hlen. zcases; lia. }
  rewrite IH; [|done|done]. cbn [mret res_ret].
  destruct (first && skipBom) eqn:Efb; [|done].
  destruct (Z.eqb_spec cp 65279) as [->|]; [|done]. by destruct (Hb eq_refl).
Qed.

Lemma head_code_points_bom s :
  Forall is_unit s -> starts_with_bom s = false -> head (code_points s) <> Some 65279.
Proof.
  destruct s as [|u s]; [done|]. simpl. rewrite Z.eqb_neq. intros Hs Hu.
  apply Forall_cons in Hs as [Hx Hs]. unfold is_unit in Hx.
  destruct (is_hi u) eqn:Ehi.
  - destruct s as [|lo s]; [done|]. destruct (is_lo lo) eqn:Elo; [|done].
    pose proof (pair_cp_range u lo Ehi Elo). simpl. intros [= Heq]. lia.
  - destruct (is_lo u); [done|]. simpl. congruence.
Qed.

Lemma decodeUtf8_encode s fatal skipBom :
  Forall is_unit s -> (skipBom = true -> starts_with_bom s = false) ->
  decodeUtf8 (encodeUtf8 s) fatal skipBom = Ok (toWellFormed s).
Proof.
  intros Hs Hb. rewrite encodeUtf8_spec. unfold decodeUtf8.
  assert (decode_loop (length (code_points s ≫= encode_cp)) fatal skipBom true
            (code_points s ≫= encode_cp) = Ok (toWellFormed s)) as Hloop.
  { rewrite decode_loop_encode; [by rewrite code_points_roundtrip|by apply code_points_scalar|done|].
    simpl. intros ->. apply head_code_points_bom; auto. }
  destruct (negb fatal && skipBom && _) eqn:E; [|done].
  rewrite !andb_true_iff in E. destruct E as [_ E].
  rewrite <- Hloop. destruct (code_points_ascii _ E) as [_ Ha].
  set (bs := code_points s ≫= encode_cp) in *. rewrite <- Ha at 3.
  assert (Forall is_byte bs) as Hby.
  { unfold bs. apply Forall_bind. eapply Forall_impl; [by apply code_points_scalar|].
    intros cp [? _]. by apply encode_cp_bytes. }
  assert (Forall (fun b => 0 <= b < 128) bs) as Hasc.
  { apply Forall_forall. intros b Hin. rewrite forallb_forall in E.
    specialize (E b). rewrite <- list_elem_of_In, Z.ltb_lt in E.
    rewrite Forall_forall in Hby. specialize (Hby b Hin). unfold is_byte in Hby.
    specialize (E Hin). lia. }
  rewrite decode_loop_encode.
  - f_equal. clear -Hasc. induction Hasc as [|b bs Hb _ IH]; [done|].
    rewrite bind_cons, <- IH. unfold from_code_point. by replace (b <? 65536) with true by lia.
  - eapply Forall_impl; [exact Hasc|]. intros b Hb'. simpl in Hb'. unfold is_scalar. lia.
  - by rewrite Ha.
  - intros _ Hh. destruct bs as [|b bs]; [done|]. apply Forall_cons in Hasc as [Hb' _].
    simpl in Hh. injection Hh as ->. lia.
Qed.

(** A byte order mark at the start is dropped when [skipBom] is set. *)
Definition strip_bom (str : jsstring) : jsstring := if starts_with_bom str then tail str else str.
Lemma decodeUtf8_encode_bom s fatal :
  Forall is_unit s -> decodeUtf8 (encodeUtf8 (65279 :: s)) fatal true = Ok (toWellFormed s).
Proof.
  intros Hs. rewrite encodeUtf8_spec. assert (code_points (65279 :: s) = 65279 :: code_points s) as -> by done.
  rewrite bind_cons. change (encode_cp 65279) with [239; 187; 191]. unfold decodeUtf8.
  cbn [app forallb]. change (239 <? 128) with false. rewrite !andb_false_r. cbn [andb].
  assert (H : forall fuel, (length (code_points s ≫= encode_cp) <= fuel)%nat ->
    decode_loop (S fuel) fatal true true (239 :: 187 :: 191 :: (code_points s ≫= encode_cp)) = Ok (toWellFormed s)); [|apply (H (2 + length (code_points s ≫= encode_cp))%nat); lia].
  intros fuel Hf. cbn [decode_loop].
  rewrite (decode_step_encode fatal true true 65279 239 _ (code_points s ≫= encode_cp)); [|unfold is_scalar; lia|reflexivity].
  cbn [mbind res_bind]. change (drop (Z.to_nat (zlen (encode_cp 65279))) ?l) with (drop 3 l). cbn [drop].
  rewrite drop_0, decode_loop_encode; [|by apply code_points_scalar|lia|done]. cbn. by rewrite code_points_roundtrip.
Qed.
Lemma decodeUtf8_encode_any s fatal skipBom :
  Forall is_unit s -> decodeUtf8 (encodeUtf8 s) fatal skipBom = Ok (toWellFormed (if skipBom then strip_bom s else s)).
Proof.
  intros Hs. destruct skipBom; [|by apply decodeUtf8_encode]. unfold strip_bom.
  destruct (starts_with_bom s) eqn:E; [|by apply decodeUtf8_encode]. destruct s as [|u s]; [done|].
  apply Z.eqb_eq in E as ->. apply Forall_cons in Hs as [_ Hs]. by apply decodeUtf8_encode_bom.
Qed.

(** ** Bounds of the encoder *)

Lemma code_points_length s :
  Forall is_unit s -> zlen (code_points s ≫= encode_cp) <= 3 * zlen s.
Proof.
  induction s as [|u s IH] using unit_ind; intros Hs; [done|].
  apply Forall_cons in Hs as [Hu Hs]. unfold is_unit in Hu.
  assert (zlen (encode_cp 65533) = 3) as Hr by done.
  assert (zlen (encode_cp u) <= 3) as Hu3.
  { rewrite encode_cp_length. zcases; lia. }
  cbn [code_points]. rewrite zlen_cons.
  destruct (is_hi u) eqn:Ehi; [destruct s as [|lo s]; [done|]|].
  - apply Forall_cons in Hs as [Hlo Hs]. destruct (is_lo lo) eqn:Elo.
    + pose proof (pair_cp_range u lo Ehi Elo).
      rewrite bind_cons, zlen_app, zlen_cons, encode_cp_length.
      specialize (IH s ltac:(simpl; lia) Hs). zcases; lia.
    + rewrite bind_cons, zlen_app, Hr.
      specialize (IH (lo :: s) ltac:(done) ltac:(by constructor)). lia.
  - specialize (IH s ltac:(done) Hs).
    destruct (is_lo u); rewrite bind_cons, zlen_app; lia.
Qed.

Lemma encodeUtf8_bytes s : Forall is_unit s -> Forall is_byte (encodeUtf8 s).
Proof.
  intros Hs. rewrite encodeUtf8_spec. apply Forall_bind.
  eapply Forall_impl; [by apply code_points_scalar|].
  intros cp [? _]. by apply encode_cp_bytes.
Qed.

(** ** The decoder's loop always advances *)

Lemma continuation_offset n j cp tail k :
  continuation n j cp tail = InvalidContinuation k -> j <= k.
Proof.
  revert j cp tail. induction n as [|n IH]; intros j cp [|b tail]; simpl; try done.
  destruct (negb _); [intros [= <-]; lia|]. intros H%IH. lia.
Qed.

Lemma lead_length b c n : lead b = Some (c, n) -> 1 <= n <= 4.
Proof.
  unfold lead. repeat match goal with |- context [if ?x then _ else _] => destruct x end;
    intros [= <- <-]; lia.
Qed.

Lemma decode_step_outcome fatal skipBom first b0 tail :
  (exists chunk n f, decode_step fatal skipBom first b0 tail = Ok (chunk, n, f) /\ 1 <= n)
  \/ (fatal = true /\ decode_step fatal skipBom first b0 tail =
       Throw (TypeError "TextDecoder: malformed sequence")).
Proof.
  unfold decode_step. destruct (lead b0) as [[c n]|] eqn:Hl.
  2: { destruct fatal; [by right|left]. eexists _, _, _. split; [done|lia]. }
  apply lead_length in Hl. destruct ((3 <=? n) && _).
  { destruct fatal; [by right|left]. eexists _, _, _. split; [done|lia]. }
  destruct (continuation _ _ _ _) as [cp| |j] eqn:Hc.
  - destruct (bad_code_point n cp).
    { destruct fatal; [by right|left]. eexists _, _, _. split; [done|lia]. }
    left. destruct (first && skipBom && (cp =? 65279)); eexists _, _, _; (split; [done|lia]).
  - destruct fatal; [by right|left]. eexists _, _, _. split; [done|].
    rewrite zlen_cons. pose proof (zlen_nonneg tail). lia.
  - apply continuation_offset in Hc. destruct fatal; [by right|left].
    eexists _, _, _. split; [done|lia].
Qed.

Lemma decode_loop_outcome fuel fatal skipBom first bytes :
  (length bytes <= fuel)%nat ->
  (exists s, decode_loop fuel fatal skipBom first bytes = Ok s)
  \/ (fatal = true /\ decode_loop fuel fatal skipBom first bytes =
       Throw (TypeError "TextDecoder: malformed sequence")).
Proof.
  revert first bytes. induction fuel as [|fuel IH]; intros first [|b0 tail] Hf;
    try (left; by exists []); [simpl in Hf; lia|]. cbn [decode_loop].
  destruct (decode_step_outcome fatal skipBom first b0 tail)
    as [(chunk & n & f & -> & Hn)|[Hfat ->]]; [|by right].
  cbn [mbind res_bind].
  destruct (IH f (drop (Z.to_nat n) (b0 :: tail))) as [[s ->]|[Hfat ->]].
  - rewrite length_drop. simpl in *. lia.
  - left. by eexists.
  - by right.
Qed.

Lemma decodeUtf8_outcome bytes fatal skipBom :
  (exists s, decodeUtf8 bytes fatal skipBom = Ok s)
  \/ (fatal = true /\ decodeUtf8 bytes fatal skipBom =
       Throw (TypeError "TextDecoder: malformed sequence")).
Proof.
  unfold decodeUtf8. destruct (negb fatal && skipBom && _); [left; eauto|].
  by apply decode_loop_outcome.
Qed.

(** ** Fatal decoding accepts only what the encoder produces *)

Lemma continuation_inv n j c tail cp :
  Forall is_byte tail -> continuation (S n) j c tail = Valid cp ->
  exists b tail', tail = b :: tail' /\ 128 <= b < 192 /\ Forall is_byte tail' /\
    continuation n (j + 1) (c * 64 + (b - 128)) tail' = Valid cp.
Proof.
  intros Hby. destruct tail as [|b tail']; cbn [continuation]; [done|].
  apply Forall_cons in Hby as [Hb Hby]. rewrite cont_byte by done.
  destruct ((128 <=? b) && (b <? 192)) eqn:E; cbn [negb]; [|done].
  rewrite andb_true_iff, Z.leb_le, Z.ltb_lt in E. rewrite shift6. intros H.
  exists b, tail'. repeat split; try done; try lia.
  replace (b - 128) with (b mod 64) by zdm. done.
Qed.

(** A sequence that passes the checks is the encoding of its code point. *)
Lemma accepted_sequence b0 tail k cp tl chunk n f :
  1 <= k <= 4 -> 0 <= cp -> tail = tl ++ drop (Z.to_nat (k - 1)) tail ->
  (bad_code_point k cp = false -> encode_cp cp = b0 :: tl) ->
  (if bad_code_point k cp then Throw (TypeError "TextDecoder: malformed sequence")
   else Ok (from_code_point cp, k, false)) = Ok (chunk, n, f) ->
  zlen (b0 :: tl) = k ->
  exists cp, is_scalar cp /\ chunk = from_code_point cp /\ n = zlen (encode_cp cp) /\
    encode_cp cp ++ drop (Z.to_nat n) (b0 :: tail) = b0 :: tail.
Proof.
  intros Hk Hcp Htl Henc Hres Hz. destruct (bad_code_point k cp) eqn:Eb; [done|].
  injection Hres as <- <- <-. specialize (Henc eq_refl). exists cp.
  split; [|split; [done|split; [by rewrite Henc|]]].
  - revert Eb. unfold is_scalar, bad_code_point. rewrite !orb_false_iff. lia.
  - rewrite Henc. replace (Z.to_nat k) with (S (Z.to_nat (k - 1))) by lia. simpl.
    f_equal. by rewrite <- Htl.
Qed.

Lemma decode_step_canonical first b0 tail chunk n f :
  is_byte b0 -> Forall is_byte tail ->
  decode_step true false first b0 tail = Ok (chunk, n, f) ->
  exists cp, is_scalar cp /\ chunk = from_code_point cp /\ n = zlen (encode_cp cp) /\
    encode_cp cp ++ drop (Z.to_nat n) (b0 :: tail) = b0 :: tail.
Proof.
  intros Hb Ht. unfold decode_step. rewrite lead_spec by done.
  rewrite andb_false_r. unfold is_byte in Hb.
  destruct (Z.ltb_spec b0 128); [|destruct (Z.ltb_spec b0 192); [done|
    destruct (Z.ltb_spec b0 224); [|destruct (Z.ltb_spec b0 240);
    [|destruct (Z.ltb_spec b0 248); [|done]]]]].
  - simpl. intros H1. apply (accepted_sequence _ _ 1 b0 [] _ _ f); try done; try lia.
    intros _. rewrite encode_cp_arith by lia. by replace (b0 <? 128) with true by lia.
  - change (3 <=? 2) with false. cbn [andb]. change (Z.to_nat (2 - 1)) with 1%nat.
    destruct (continuation 1 1 (b0 - 192) tail) as [cp| |] eqn:Ec; try done. intros Hres.
    pose proof Ec as Ec'.
    apply continuation_inv in Ec' as (b1 & t1 & -> & Hb1 & Ht1 & [= Hcp]); [|done].
    apply (accepted_sequence _ _ 2 cp [b1] _ _ f); try done; try lia.
    unfold bad_code_point. intros Hbad. rewrite encode_cp_arith by lia.
    zcases; try lia. f_equal; [|f_equal]; zdm.
  - change (3 <=? 3) with true. cbn [andb]. change (Z.to_nat (3 - 1)) with 2%nat.
    destruct tail as [|b1 tail']; [done|]. destruct (invalidSecond b0 b1); [done|].
    destruct (continuation 2 1 (b0 - 224) (b1 :: tail')) as [cp| |] eqn:Ec; try done.
    intros Hres. pose proof Ec as Ec'.
    apply continuation_inv in Ec' as (b1' & t1 & [= <- <-] & Hb1 & Ht1 & Ec'); [|done].
    apply continuation_inv in Ec' as (b2 & t2 & -> & Hb2 & Ht2 & [= Hcp]); [|done].
    apply (accepted_sequence _ _ 3 cp [b1; b2] _ _ f); try done; try lia.
    unfold bad_code_point. intros Hbad. rewrite encode_cp_arith by lia.
    zcases; try lia. f_equal; [|f_equal; [|f_equal]]; zdm.
  - change (3 <=? 4) with true. cbn [andb]. change (Z.to_nat (4 - 1)) with 3%nat.
    destruct tail as [|b1 tail']; [done|]. destruct (invalidSecond b0 b1); [done|].
    destruct (continuation 3 1 (b0 - 240) (b1 :: tail')) as [cp| |] eqn:Ec; try done.
    intros Hres. pose proof Ec as Ec'.
    apply continuation_inv in Ec' as (b1' & t1 & [= <- <-] & Hb1 & Ht1 & Ec'); [|done].
    apply continuation_inv in Ec' as (b2 & t2 & -> & Hb2 & Ht2 & Ec'); [|done].
    apply continuation_inv in Ec' as (b3 & t3 & -> & Hb3 & Ht3 & [= Hcp]); [|done].
    apply (accepted_sequence _ _ 4 cp [b1; b2; b3] _ _ f); try done; try lia.
    unfold bad_code_point. intros Hbad. rewrite encode_cp_arith by lia.
    zcases; try lia. f_equal; [|f_equal; [|f_equal; [|f_equal]]]; zdm.
Qed.

Lemma code_points_from cp rest :
  is_scalar cp -> code_points (from_code_point cp ++ rest) = cp :: code_points rest.
Proof.
  intros [Hcp Hs]. unfold from_code_point. destruct (Z.ltb_spec cp 65536).
  - simpl. unfold is_hi, is_lo. destruct (Z.leb_spec 55296 cp), (Z.leb_spec cp 56319),
      (Z.leb_spec 56320 cp), (Z.leb_spec cp 57343); simpl; try done; lia.
  - cbv zeta. rewrite Z.shiftr_div_pow2, (land_ones_mod _ 10) by lia.
    change (2 ^ 10) with 1024.
    set (h := (cp - 65536) / 1024). set (l := (cp - 65536) mod 1024).
    assert (0 <= h < 1024 /\ 0 <= l < 1024 /\ cp = 65536 + h * 1024 + l) as (Hh & Hl & E).
    { unfold h, l. zdm. }
    cbn [app code_points]. unfold is_hi, is_lo.
    replace (55296 <=? 55296 + h) with true by lia.
    replace (55296 + h <=? 56319) with true by lia.
    replace (56320 <=? 56320 + l) with true by lia.
    replace (56320 + l <=? 57343) with true by lia. cbn [andb].
    f_equal. rewrite Z.shiftl_mul_pow2 by lia. change (2 ^ 10) with 1024. lia.
Qed.

Lemma decode_loop_canonical fuel first bytes s :
  Forall is_byte bytes -> decode_loop fuel true false first bytes = Ok s ->
  code_points s ≫= encode_cp = bytes.
Proof.
  revert first bytes s. induction fuel as [|fuel IH]; intros first [|b0 tail] s Hby;
    cbn [decode_loop]; try (by intros [= <-]).
  pose proof Hby as [Hb Ht]%Forall_cons.
  destruct (decode_step true false first b0 tail) as [[[chunk n] f]|] eqn:Es; [|done].
  cbn [mbind res_bind].
  apply decode_step_canonical in Es as (cp & Hcp & -> & Hn & Henc); [|done|done].
  destruct (decode_loop fuel true false f (drop (Z.to_nat n) (b0 :: tail))) as [r|] eqn:Er;
    [|done]. intros [= <-]. apply IH in Er; [|by apply Forall_drop].
  rewrite code_points_from, bind_cons by done. by rewrite Er.
Qed.

(** ** Properties *)

(** C5: decoding an encoded string returns the string, with lone surrogates
    replaced by U+FFFD as the encoder replaces them, in either error mode.  With
    BOM stripping on, one U+FEFF at the start is dropped, and nothing else is. *)
Theorem decodeUtf8_encodeUtf8 (s : jsstring) (fatal skipBom : bool) :
  Forall is_unit s ->
  decodeUtf8 (encodeUtf8 s) fatal skipBom = Ok (toWellFormed (if skipBom then strip_bom s else s)).
Proof. apply decodeUtf8_encode_any. Qed.

Lemma decodeUtf8_encodeUtf8_witness :
  decodeUtf8 (encodeUtf8 [65279; 104; 233; 8364; 55357; 56832; 55357]) false true
    = Ok [104; 233; 8364; 55357; 56832; 65533].
Proof.
  apply (decodeUtf8_encodeUtf8 [65279; 104; 233; 8364; 55357; 56832; 55357] false true).
  solve_ranges.
Defined.

(** The fatal decoder without BOM stripping accepts a byte sequence only
    if it is exactly the encoding of the text returned: overlong forms,
    encoded surrogates, truncated sequences and code points above U+10FFFF are
    all refused. *)
Theorem decodeUtf8_fatal_canonical (bytes : list Z) (s : jsstring) :
  Forall is_byte bytes -> decodeUtf8 bytes true false = Ok s ->
  encodeUtf8 s = bytes.
Proof.
  intros Hb. unfold decodeUtf8. simpl. intros H. rewrite encodeUtf8_spec.
  by eapply decode_loop_canonical.
Qed.

Lemma decodeUtf8_fatal_canonical_witness :
  encodeUtf8 [8364; 65279; 55357; 56832] = [226; 130; 172; 239; 187; 191; 240; 159; 152; 128].
Proof.
  apply (decodeUtf8_fatal_canonical [226; 130; 172; 239; 187; 191; 240; 159; 152; 128]).
  - solve_ranges.
  - vm_compute. reflexivity.
Defined.

(** Decoding any bytes ends, and without fatal mode it returns a string;
    the only failure of fatal mode is the TypeError for a malformed sequence. *)
Theorem decodeUtf8_total (bytes : list Z) (fatal skipBom : bool) :
  (exists s, decodeUtf8 bytes fatal skipBom = Ok s)
  \/ (fatal = true /\ decodeUtf8 bytes fatal skipBom =
       Throw (TypeError "TextDecoder: malformed sequence")).
Proof. apply decodeUtf8_outcome. Qed.

(** The encoder writes at most three bytes per code unit, so every store
    of its general loop falls inside the [str.length * 4] buffer (a typed
    array drops stores past its end), and every byte it writes is a byte. *)
Theorem encodeUtf8_fits (s : jsstring) :
  Forall is_unit s ->
  zlen (encodeUtf8 s) <= 3 * zlen s /\ Forall is_byte (encodeUtf8 s).
Proof.
  intros Hs. split; [|by apply encodeUtf8_bytes].
  rewrite encodeUtf8_spec. by apply code_points_length.
Qed.

(** A malformed prefix leaves [first] set, so a U+FEFF after it is dropped
    although it is not initial. *)
Example decodeUtf8_bom_after_malformed :
  decodeUtf8 [255; 239; 187; 191; 65] false true = Ok [65533; 65].
Proof. reflexivity. Qed.
End Utf8.
