(* ===== verification/ThriftIO.v ===== *)
(** Byte cursors of the Thrift codec (src/js/internal/format/thrift/io.ts):
    [ByteReader], [ByteWriter] and the varint and zig-zag integer codings.

    The writer is modelled twice: [ByteWriter.*] is the class as written, a
    buffer of some capacity with a length and the doubling loop; the plain
    [write*] operations act on the list of bytes written so far, the view that
    [bytes()] exposes.  [Section refinement] shows that the first implements
    the second.  A double is represented by its IEEE-754 bit pattern. *)

From S2P Require Import Prelude Utf8.

Module ThriftIO.
Import Utf8.

(** ** ByteReader *)

Record ByteReader := { rd_bytes : list Z; rd_pos : nat }.

Definition new_reader (bytes : list Z) : ByteReader := {| rd_bytes := bytes; rd_pos := 0 |}.
(** The unread bytes. *)
Definition rest (r : ByteReader) : list Z := drop (rd_pos r) (rd_bytes r).
Definition advance (n : Z) (r : ByteReader) : ByteReader :=
  {| rd_bytes := rd_bytes r; rd_pos := rd_pos r + Z.to_nat n |}.

Definition remaining (r : ByteReader) : Z := zlen (rd_bytes r) - Z.of_nat (rd_pos r).
Definition done (r : ByteReader) : bool := zlen (rd_bytes r) <=? Z.of_nat (rd_pos r).

Definition _fail {A} (msg : string) : ST ByteReader A :=
  fun r => Throw (ThriftError (Z.of_nat (rd_pos r)) msg).

Definition ensure (n : Z) : ST ByteReader unit := fun r =>
  if zlen (rd_bytes r) <? Z.of_nat (rd_pos r) + n
  then _fail "unexpected end of input" r
  else Ok (tt, r).

(** The [n] bytes at the cursor, then the cursor past them. *)
Definition view_get (n : Z) : ST ByteReader (list Z) := fun r =>
  Ok (take (Z.to_nat n) (rest r), advance n r).

Definition readU8 : ST ByteReader Z :=
  ensure 1;; l ← view_get 1; mret (le_val l).
Definition readI8 : ST ByteReader Z :=
  ensure 1;; l ← view_get 1; mret (signedN 8 (le_val l)).
Definition readBytes (n : Z) : ST ByteReader (list Z) :=
  if n <? 0 then _fail "negative length"
  else ensure n;; view_get n.
Definition readString (n : Z) : ST ByteReader jsstring :=
  l ← readBytes n; liftR (TextDecoder_decode l).
Definition readI16BE : ST ByteReader Z :=
  ensure 2;; l ← view_get 2; mret (signedN 16 (be_val l)).
Definition readI32BE : ST ByteReader Z :=
  ensure 4;; l ← view_get 4; mret (signedN 32 (be_val l)).
Definition readI64BE : ST ByteReader Z :=
  ensure 8;; l ← view_get 8; mret (signedN 64 (be_val l)).
Definition readF64BE : ST ByteReader Z :=
  ensure 8;; l ← view_get 8; mret (be_val l).
Definition readF64LE : ST ByteReader Z :=
  ensure 8;; l ← view_get 8; mret (le_val l).

(** The [for (;;)] of [readVarint]; ten bytes are enough, since the shift
    exceeds 63 after the tenth. *)
Fixpoint readVarint_loop (fuel : nat) (result shift : Z) : ST ByteReader Z :=
  match fuel with
  | O => throw Diverges
  | S fuel =>
      byte ← readU8;
      let result := Z.lor result (Z.shiftl (Z.land byte 127) shift) in
      if Z.land byte 128 =? 0 then mret (Z.land result 18446744073709551615)
      else
        let shift := shift + 7 in
        if 63 <? shift then _fail "varint overflows 64 bits"
        else readVarint_loop fuel result shift
  end.
Definition readVarint : ST ByteReader Z := readVarint_loop 10 0 0.
Definition readVarint32 : ST ByteReader Z :=
  v ← readVarint; mret (asUintN 32 v).
Definition readZigzag32 : ST ByteReader Z :=
  v ← readVarint32; mret ((v >>>₃₂ 1) ^₃₂ (- (v &₃₂ 1))).
Definition readZigzag64 : ST ByteReader Z :=
  v ← readVarint; mret (Z.lxor (Z.shiftr v 1) (- Z.land v 1)).

(** ** ByteWriter, as the list of bytes written *)

Definition writer := list Z.

Definition append (bs : list Z) : ST writer unit := fun out => Ok (tt, out ++ bs).
Definition writeU8 (value : Z) : ST writer unit := append [(value &₃₂ 255)].
Definition writeBytes (bytes : list Z) : ST writer unit := append bytes.
Definition writeString (value : jsstring) : ST writer (list Z) :=
  let bytes := TextEncoder_encode value in writeBytes bytes;; mret bytes.
Definition writeI16BE (value : Z) : ST writer unit := append (be_bytes 2 value).
Definition writeI32BE (value : Z) : ST writer unit := append (be_bytes 4 value).
Definition writeI64BE (value : Z) : ST writer unit := append (be_bytes 8 value).
Definition writeF64BE (bits : Z) : ST writer unit := append (be_bytes 8 bits).
Definition writeF64LE (bits : Z) : ST writer unit := append (le_bytes 8 bits).

Fixpoint writeVarint_loop (fuel : nat) (v : Z) : ST writer unit :=
  match fuel with
  | O => throw Diverges
  | S fuel =>
      if 128 <=? v then
        writeU8 (Z.lor (Z.land v 127) 128);; writeVarint_loop fuel (Z.shiftr v 7)
      else writeU8 v
  end.
Definition writeVarint (value : Z) : ST writer unit :=
  if value <? 0 then throw (TypeError "thrift: varint value must be non-negative")
  else writeVarint_loop 10 (Z.land value 18446744073709551615).
Definition writeZigzag32 (value : Z) : ST writer unit :=
  writeVarint (asUintN 32 ((value <<₃₂ 1) ^₃₂ (value >>₃₂ 31))).
Definition writeZigzag64 (value : Z) : ST writer unit :=
  writeVarint (asUintN 64 (Z.lxor (Z.shiftl value 1) (Z.shiftr value 63))).

(** ** ByteWriter, as the growing buffer *)

Module ByteWriter.
Record bw_state := { buf : list Z; len : Z }.

Definition bw_make (initialSize : Z) : bw_state :=
  {| buf := replicate (Z.to_nat (Z.max 16 initialSize)) 0; len := 0 |}.

(** [while (size < need) size <<= 1] on a 32-bit shift. *)
Fixpoint grow (fuel : nat) (size need : Z) : res Z :=
  if size <? need then
    match fuel with O => Throw Diverges | S fuel => grow fuel (size <<₃₂ 1) need end
  else Ok size.

Definition bw_ensure (n : Z) (w : bw_state) : res bw_state :=
  if len w + n <=? zlen (buf w) then Ok w
  else
    size ← grow 32 (zlen (buf w)) (len w + n);
    Ok {| buf := take (Z.to_nat (len w)) (buf w)
                 ++ replicate (Z.to_nat (size - len w)) 0;
          len := len w |}.

(** [set] of a typed array at the cursor, then the cursor past it. *)
Definition put (bs : list Z) (w : bw_state) : bw_state :=
  {| buf := take (Z.to_nat (len w)) (buf w) ++ bs
            ++ drop (Z.to_nat (len w) + length bs) (buf w);
     len := len w + zlen bs |}.

Definition bw_writeBytes (bs : list Z) (w : bw_state) : res bw_state :=
  w ← bw_ensure (zlen bs) w; Ok (put bs w).
Definition bw_writeU8 (v : Z) (w : bw_state) : res bw_state :=
  w ← bw_ensure 1 w; Ok (put [(v &₃₂ 255)] w).
Definition bw_writeI16BE (v : Z) (w : bw_state) : res bw_state :=
  w ← bw_ensure 2 w; Ok (put (be_bytes 2 v) w).
Definition bw_writeI32BE (v : Z) (w : bw_state) : res bw_state :=
  w ← bw_ensure 4 w; Ok (put (be_bytes 4 v) w).
Definition bw_writeI64BE (v : Z) (w : bw_state) : res bw_state :=
  w ← bw_ensure 8 w; Ok (put (be_bytes 8 v) w).
Definition bw_writeF64BE (v : Z) (w : bw_state) : res bw_state :=
  w ← bw_ensure 8 w; Ok (put (be_bytes 8 v) w).
Definition bw_writeF64LE (v : Z) (w : bw_state) : res bw_state :=
  w ← bw_ensure 8 w; Ok (put (le_bytes 8 v) w).

Definition bw_bytes (w : bw_state) : list Z := take (Z.to_nat (len w)) (buf w).
End ByteWriter.

(** ** Reading back what was written

    [reads rd bs a]: at an input that starts with [bs], [rd] returns [a] and
    leaves the cursor right after [bs].  [writes wr bs]: [wr] appends [bs]. *)

Definition reader_ok (r : ByteReader) : Prop := (rd_pos r <= length (rd_bytes r))%nat.
Definition reads {A} (rd : ST ByteReader A) (bs : list Z) (a : A) : Prop :=
  forall r tail, reader_ok r -> rest r = bs ++ tail ->
  rd r = Ok (a, advance (zlen bs) r).
Definition writes {A} (wr : ST writer A) (bs : list Z) (a : A) : Prop :=
  forall out, wr out = Ok (a, out ++ bs).

Lemma new_reader_ok bs : reader_ok (new_reader bs).
Proof. unfold reader_ok. simpl. lia. Qed.

Lemma rest_advance r bs tail :
  rest r = bs ++ tail -> rest (advance (zlen bs) r) = tail.
Proof.
  unfold rest, advance. simpl. intros E. unfold zlen.
  rewrite Nat2Z.id, <- drop_drop, E. apply drop_app_length.
Qed.

Lemma ok_advance r bs tail :
  reader_ok r -> rest r = bs ++ tail -> reader_ok (advance (zlen bs) r).
Proof.
  unfold reader_ok, rest, advance, zlen. simpl. intros H E.
  apply (f_equal length) in E. rewrite length_drop, length_app in E. lia.
Qed.

Lemma advance_advance r n m :
  0 <= n -> 0 <= m -> advance m (advance n r) = advance (n + m) r.
Proof. intros. unfold advance. simpl. f_equal. lia. Qed.

Lemma advance_0 r : advance 0 r = r.
Proof. unfold advance. destruct r as [b p]. simpl. f_equal. lia. Qed.

Lemma reads_ret {A} (a : A) : reads (mret a) [] a.
Proof. intros r tail _ _. change (zlen []) with 0. by rewrite advance_0. Qed.

Lemma reads_bind {A B} (m : ST ByteReader A) (f : A -> ST ByteReader B) bs1 bs2 a b :
  reads m bs1 a -> reads (f a) bs2 b -> reads (m ≫= f) (bs1 ++ bs2) b.
Proof.
  intros H1 H2 r tail Hok E. rewrite <- app_assoc in E.
  rewrite (ST_bind_ok _ _ _ _ _ (H1 _ _ Hok E)), (H2 _ tail)
    by eauto using rest_advance, ok_advance.
  by rewrite advance_advance, zlen_app by apply zlen_nonneg.
Qed.

(** The last step of a reader that only computes. *)
Lemma reads_map {A B} (m : ST ByteReader A) (f : A -> ST ByteReader B) bs a b :
  reads m bs a -> f a = mret b -> reads (m ≫= f) bs b.
Proof.
  intros H1 H2. rewrite <- (app_nil_r bs). eapply reads_bind; [done|].
  rewrite H2. apply reads_ret.
Qed.

Lemma writes_bind {A B} (m : ST writer A) (f : A -> ST writer B) bs1 bs2 a b :
  writes m bs1 a -> writes (f a) bs2 b -> writes (m ≫= f) (bs1 ++ bs2) b.
Proof.
  intros H1 H2 out. rewrite (ST_bind_ok _ _ _ _ _ (H1 out)), H2. by rewrite app_assoc.
Qed.

Lemma writes_append bs : writes (append bs) bs tt.
Proof. by intros out. Qed.

Lemma zlen_rest r : Z.of_nat (rd_pos r) + zlen (rest r) =
  Z.max (Z.of_nat (rd_pos r)) (zlen (rd_bytes r)).
Proof. unfold rest, zlen. rewrite length_drop. lia. Qed.

Lemma ensure_ok n r bs tail :
  reader_ok r -> rest r = bs ++ tail -> n <= zlen bs -> ensure n r = Ok (tt, r).
Proof.
  intros Hok E Hn. unfold ensure. pose proof (zlen_rest r) as Hz.
  rewrite E, zlen_app in Hz. pose proof (zlen_nonneg tail).
  unfold reader_ok in Hok. unfold zlen in *.
  by destruct (Z.ltb_spec (Z.of_nat (length (rd_bytes r))) (Z.of_nat (rd_pos r) + n)); [lia|].
Qed.

(** Every fixed-width read is [ensure n], the bytes, and a conversion. *)
Lemma reads_fixed {A} (n : Z) (f : list Z -> A) bs a :
  0 < n -> zlen bs = n -> f bs = a ->
  reads (ensure n;; l ← view_get n; mret (f l)) bs a.
Proof.
  intros Hn Hl Hf r tail Hok E.
  rewrite (ST_bind_ok _ _ _ _ _ (ensure_ok n r bs tail Hok E ltac:(lia))).
  unfold mbind, ST_bind, view_get, mret, ST_ret. rewrite E, <- Hl. unfold zlen.
  rewrite Nat2Z.id, take_app_length. by rewrite Hf.
Qed.

Lemma reads_U8 b : reads readU8 [b] b.
Proof. apply (reads_fixed 1 le_val); simpl; lia || done. Qed.

Lemma reads_I8 b : is_int 8 b -> reads readI8 [b mod 256] b.
Proof.
  intros Hb. apply (reads_fixed 1 (fun l => signedN 8 (le_val l))); [lia|done|].
  simpl. rewrite Z.mul_0_r, Z.add_0_r. change 256 with (2 ^ 8).
  rewrite signedN_mod by lia. by apply signedN_small.
Qed.

Lemma reads_I16BE x : is_int 16 x -> reads readI16BE (be_bytes 2 x) x.
Proof.
  intros Hx. apply (reads_fixed 2 (fun l => signedN 16 (be_val l))); [lia| |].
  - unfold zlen. by rewrite length_be_bytes.
  - by apply (be_signed_roundtrip 2); [lia|].
Qed.

Lemma reads_I32BE x : is_int 32 x -> reads readI32BE (be_bytes 4 x) x.
Proof.
  intros Hx. apply (reads_fixed 4 (fun l => signedN 32 (be_val l))); [lia| |].
  - unfold zlen. by rewrite length_be_bytes.
  - by apply (be_signed_roundtrip 4); [lia|].
Qed.

Lemma reads_I64BE x : is_int 64 x -> reads readI64BE (be_bytes 8 x) x.
Proof.
  intros Hx. apply (reads_fixed 8 (fun l => signedN 64 (be_val l))); [lia| |].
  - unfold zlen. by rewrite length_be_bytes.
  - by apply (be_signed_roundtrip 8); [lia|].
Qed.

Lemma reads_F64BE x : 0 <= x < 2 ^ 64 -> reads readF64BE (be_bytes 8 x) x.
Proof.
  intros Hx. apply (reads_fixed 8 be_val); [lia| |].
  - unfold zlen. by rewrite length_be_bytes.
  - rewrite be_val_bytes. by apply Z.mod_small.
Qed.

Lemma reads_F64LE x : 0 <= x < 2 ^ 64 -> reads readF64LE (le_bytes 8 x) x.
Proof.
  intros Hx. apply (reads_fixed 8 le_val); [lia| |].
  - unfold zlen. by rewrite length_le_bytes.
  - rewrite le_val_bytes. by apply Z.mod_small.
Qed.

Lemma reads_Bytes bs : reads (readBytes (zlen bs)) bs bs.
Proof.
  intros r tail Hok E. unfold readBytes. pose proof (zlen_nonneg bs).
  replace (zlen bs <? 0) with false by lia.
  rewrite (ST_bind_ok _ _ _ _ _ (ensure_ok (zlen bs) r bs tail Hok E ltac:(lia))).
  unfold view_get. rewrite E. unfold zlen. by rewrite Nat2Z.id, take_app_length.
Qed.

(** Strings whose text survives the decoder: well-formed UTF-16 that does not
    start with the byte order mark the decoder strips. *)
Definition plain_string (s : jsstring) : Prop :=
  Forall is_unit s /\ toWellFormed s = s /\ starts_with_bom s = false.

Lemma encode_nonempty s : s <> [] -> encodeUtf8 s <> [].
Proof.
  intros Hs E. rewrite encodeUtf8_spec in E.
  assert (code_points s <> []) as Hc.
  { destruct s as [|u s]; [done|]. simpl. destruct (is_hi u).
    - destruct s as [|lo s]; [done|]. by destruct (is_lo lo).
    - by destruct (is_lo u). }
  destruct (code_points s) as [|cp cps]; [done|]. rewrite bind_cons in E.
  apply app_eq_nil in E as [E _]. apply (f_equal zlen) in E.
  rewrite encode_cp_length in E. change (zlen (@nil Z)) with 0 in E. revert E. zcases; lia.
Qed.

Lemma TextDecoder_encode s : plain_string s -> TextDecoder_decode (encodeUtf8 s) = Ok s.
Proof.
  intros (Hu & Hw & Hb). unfold TextDecoder_decode.
  destruct (Z.eqb_spec (zlen (encodeUtf8 s)) 0) as [E|E].
  - destruct (decide (s = [])) as [->|Hs]; [done|].
    apply encode_nonempty in Hs. destruct (encodeUtf8 s); [done|].
    rewrite zlen_cons in E. pose proof (zlen_nonneg l). lia.
  - rewrite decodeUtf8_encode; [by rewrite Hw|done|done].
Qed.

Lemma reads_String s :
  plain_string s -> reads (readString (zlen (encodeUtf8 s))) (encodeUtf8 s) s.
Proof.
  intros Hs. unfold readString. rewrite <- (app_nil_r (encodeUtf8 s)) at 2.
  eapply reads_bind; [apply reads_Bytes|].
  intros r tail _ _. change (zlen (@nil Z)) with 0. rewrite advance_0.
  unfold liftR. by rewrite TextDecoder_encode.
Qed.

(** ** Varints *)

(** The LEB128 bytes of [v], low group first. *)
Fixpoint varint_bytes (fuel : nat) (v : Z) : list Z :=
  match fuel with
  | O => []
  | S fuel => if 128 <=? v then v mod 128 + 128 :: varint_bytes fuel (v / 128) else [v]
  end.

Lemma byte_high b : is_byte b -> 128 <= b -> Z.land b 127 = b - 128 /\ Z.land b 128 = 128.
Proof.
  intros Hb Hh. unfold is_byte in Hb. split.
  - rewrite (land_ones_mod b 7) by lia. change (2 ^ 7) with 128. zdm.
  - assert ((if 128 <=? b then Z.land b 128 =? 128 else true) = true) as H.
    { apply (byte_forallb (fun b => if 128 <=? b then Z.land b 128 =? 128 else true));
        [vm_compute; reflexivity|done]. }
    revert H. replace (128 <=? b) with true by lia. apply Z.eqb_eq.
Qed.

Lemma byte_low b : 0 <= b < 128 -> Z.land b 127 = b /\ Z.land b 128 = 0.
Proof.
  intros Hb. split.
  - rewrite (land_ones_mod b 7) by lia. change (2 ^ 7) with 128. by apply Z.mod_small.
  - assert ((if b <? 128 then Z.land b 128 =? 0 else true) = true) as H.
    { apply (byte_forallb (fun b => if b <? 128 then Z.land b 128 =? 0 else true));
        [vm_compute; reflexivity|unfold is_byte; lia]. }
    revert H. replace (b <? 128) with true by lia. apply Z.eqb_eq.
Qed.

Lemma pow_7S fuel : 2 ^ (7 * Z.of_nat (S fuel)) = 128 * 2 ^ (7 * Z.of_nat fuel).
Proof.
  rewrite Nat2Z.inj_succ, Z.mul_succ_r, Z.add_comm, Z.pow_add_r by lia. done.
Qed.

Lemma varint_group v :
  0 <= v -> js_and (Z.lor (Z.land v 127) 128) 255 = v mod 128 + 128 /\ Z.shiftr v 7 = v / 128.
Proof.
  intros Hv. split; [|by rewrite Z.shiftr_div_pow2].
  rewrite (land_ones_mod v 7) by lia. change (2 ^ 7) with 128.
  pose proof (Z.mod_pos_bound v 128 ltac:(lia)).
  rewrite Z.lor_comm, (lor_high 128 1 _ 7) by lia.
  rewrite js_and_byte by (unfold is_byte; lia). lia.
Qed.

Lemma writes_varint_loop fuel v :
  (0 < fuel)%nat -> 0 <= v < 2 ^ (7 * Z.of_nat fuel) ->
  writes (writeVarint_loop fuel v) (varint_bytes fuel v) tt.
Proof.
  revert v. induction fuel as [|fuel IH]; intros v H0 Hv; [lia|].
  rewrite pow_7S in Hv. cbn [writeVarint_loop varint_bytes].
  destruct (varint_group v ltac:(lia)) as [E1 E2].
  destruct (Z.leb_spec 128 v).
  - change (?x :: ?l) with ([x] ++ l). eapply writes_bind.
    + unfold writeU8. rewrite E1. apply writes_append.
    + rewrite E2. apply IH; [|zdm]. destruct fuel; [simpl in Hv; lia|lia].
  - unfold writeU8. rewrite js_and_byte by (unfold is_byte; lia). apply writes_append.
Qed.

Lemma writes_Varint v : 0 <= v < 2 ^ 64 -> writes (writeVarint v) (varint_bytes 10 v) tt.
Proof.
  intros Hv. unfold writeVarint. replace (v <? 0) with false by lia.
  rewrite (land_ones_mod v 64) by lia. rewrite Z.mod_small by lia.
  apply writes_varint_loop; [lia|]. change (2 ^ (7 * Z.of_nat 10)) with (2 ^ 70). lia.
Qed.

Lemma reads_varint_loop fuel result shift v :
  (0 < fuel)%nat -> 0 <= shift <= 63 -> 0 <= result < 2 ^ shift ->
  0 <= v < 2 ^ (64 - shift) -> v < 2 ^ (7 * Z.of_nat fuel) ->
  reads (readVarint_loop fuel result shift) (varint_bytes fuel v) (result + v * 2 ^ shift).
Proof.
  revert result shift v. induction fuel as [|fuel IH]; intros result shift v H0 Hs Hr Hv Hf;
    [lia|].
  rewrite pow_7S in Hf. cbn [readVarint_loop varint_bytes].
  assert (2 ^ 64 = 2 ^ (64 - shift) * 2 ^ shift) as E64.
  { rewrite <- Z.pow_add_r by lia. f_equal. lia. }
  assert (0 < 2 ^ shift) by (apply Z.pow_pos_nonneg; lia).
  assert (forall x, Z.lor result (Z.shiftl x shift) = result + x * 2 ^ shift) as Hlor.
  { intros x. apply lor_disjoint_add; lia. }
  destruct (Z.leb_spec 128 v).
  - change (?x :: ?l) with ([x] ++ l). eapply reads_bind; [apply reads_U8|].
    pose proof (Z.mod_pos_bound v 128 ltac:(lia)). cbv beta.
    destruct (byte_high (v mod 128 + 128)) as [-> ->]; [unfold is_byte; lia|lia|].
    change (128 =? 0) with false. cbv iota zeta. rewrite Hlor.
    assert (shift < 57) as Hs'.
    { destruct (decide (shift < 57)); [done|]. exfalso.
      pose proof (Z.pow_le_mono_r 2 (64 - shift) 7). lia. }
    replace (63 <? shift + 7) with false by lia.
    assert (2 ^ (shift + 7) = 128 * 2 ^ shift) as E7
      by (rewrite Z.pow_add_r by lia; lia).
    replace (result + v * 2 ^ shift)
      with (result + (v mod 128 + 128 - 128) * 2 ^ shift + v / 128 * 2 ^ (shift + 7)).
    2: { rewrite E7. rewrite (Z.div_mod v 128) at 3 by lia. lia. }
    apply IH; [destruct fuel; [simpl in Hf; lia|lia]|lia| | |zdm].
    + rewrite E7. nia.
    + assert (2 ^ (64 - shift) = 128 * 2 ^ (64 - (shift + 7))) as E.
      { change 128 with (2 ^ 7). rewrite <- Z.pow_add_r by lia. f_equal. lia. }
      rewrite E in Hv. zdm.
  - eapply reads_map; [apply reads_U8|]. cbv beta. destruct (byte_low v) as [-> ->]; [lia|].
    change (0 =? 0) with true. cbv iota zeta. rewrite Hlor.
    rewrite (land_ones_mod _ 64) by lia. f_equal. apply Z.mod_small. nia.
Qed.

Lemma reads_Varint v : 0 <= v < 2 ^ 64 -> reads readVarint (varint_bytes 10 v) v.
Proof.
  intros Hv. replace v with (0 + v * 2 ^ 0) at 2 by lia.
  apply reads_varint_loop; lia.
Qed.

Lemma reads_Varint32 v : 0 <= v < 2 ^ 32 -> reads readVarint32 (varint_bytes 10 v) v.
Proof.
  intros Hv. eapply reads_map; [apply reads_Varint; lia|].
  unfold asUintN. by rewrite Z.mod_small.
Qed.

(** ** Zig-zag *)

Definition zigzag (x : Z) : Z := if 0 <=? x then 2 * x else - 2 * x - 1.

Lemma lxor_m1 x : Z.lxor x (-1) = - x - 1.
Proof. rewrite Z.lxor_m1_r. unfold Z.lnot. lia. Qed.

Lemma shiftr_sign x n : 0 < n -> is_int (n + 1) x -> Z.shiftr x n = if 0 <=? x then 0 else -1.
Proof.
  unfold is_int. replace (n + 1 - 1) with n by lia. intros Hn Hx.
  rewrite Z.shiftr_div_pow2 by lia. destruct (Z.leb_spec 0 x).
  - apply Z.div_small. lia.
  - symmetry. apply Z.div_unique with (r := x + 2 ^ n); lia.
Qed.

Lemma zigzag32_enc x : is_int 32 x ->
  asUintN 32 (js_xor (js_shl x 1) (js_shr x 31)) = zigzag x.
Proof.
  intros Hx. unfold js_xor, js_shl, js_shr, asUintN. rewrite (toInt32_small x) by done.
  change (Z.land 1 31) with 1. change (Z.land 31 31) with 31.
  rewrite (shiftr_sign x 31) by (done || lia). rewrite Z.shiftl_mul_pow2 by lia.
  rewrite toInt32_signedN. rewrite (toInt32_small (signedN 32 _)) by (apply signedN_range; lia).
  pose proof (signedN_cong 32 (x * 2 ^ 1) ltac:(lia)) as Hc.
  unfold is_int in Hx. change (2 ^ (32 - 1)) with 2147483648 in Hx.
  unfold zigzag. destruct (Z.leb_spec 0 x).
  - change (toInt32 0) with 0. rewrite Z.lxor_0_r, Hc. change (2 ^ 32) with 4294967296.
    rewrite Z.mod_small; lia.
  - change (toInt32 (-1)) with (-1). rewrite lxor_m1.
    replace (- signedN 32 (x * 2 ^ 1) - 1) with (-1 - signedN 32 (x * 2 ^ 1)) by lia.
    rewrite <- Zminus_mod_idemp_r, Hc, Zminus_mod_idemp_r.
    change (2 ^ 32) with 4294967296. rewrite Z.mod_small; lia.
Qed.

Lemma zigzag32_dec x : is_int 32 x ->
  js_xor (js_ushr (zigzag x) 1) (- js_and (zigzag x) 1) = x.
Proof.
  unfold is_int. change (2 ^ (32 - 1)) with 2147483648. intros Hx.
  rewrite (js_and_ones _ 1 1) by lia. change (2 ^ 1) with 2.
  unfold js_ushr, js_xor. change (Z.land 1 31) with 1.
  assert (0 <= zigzag x < 4294967296) as Hz by (unfold zigzag; zcases; lia).
  rewrite toUint32_small by (change (2 ^ 32) with 4294967296; lia).
  rewrite Z.shiftr_div_pow2 by lia. change (2 ^ 1) with 2.
  rewrite (toInt32_small (zigzag x / 2)).
  2: { unfold is_int. change (2 ^ (32 - 1)) with 2147483648. zdm. }
  unfold zigzag in *. destruct (Z.leb_spec 0 x).
  - replace (2 * x mod 2) with 0 by zdm. change (toInt32 (-0)) with 0.
    rewrite Z.lxor_0_r. zdm.
  - replace ((-2 * x - 1) mod 2) with 1 by zdm. change (toInt32 (-(1))) with (-1).
    rewrite lxor_m1. zdm.
Qed.

Lemma zigzag64_enc x : is_int 64 x ->
  asUintN 64 (Z.lxor (Z.shiftl x 1) (Z.shiftr x 63)) = zigzag x.
Proof.
  intros Hx. unfold asUintN. rewrite (shiftr_sign x 63) by (done || lia).
  rewrite Z.shiftl_mul_pow2 by lia. unfold is_int in Hx.
  change (2 ^ (64 - 1)) with 9223372036854775808 in Hx.
  change (2 ^ 64) with 18446744073709551616. unfold zigzag. destruct (Z.leb_spec 0 x).
  - rewrite Z.lxor_0_r. rewrite Z.mod_small; lia.
  - rewrite lxor_m1, Z.mod_small; lia.
Qed.

Lemma zigzag64_dec x : Z.lxor (Z.shiftr (zigzag x) 1) (- Z.land (zigzag x) 1) = x.
Proof.
  rewrite (land_ones_mod _ 1), Z.shiftr_div_pow2 by lia. change (2 ^ 1) with 2.
  unfold zigzag. destruct (Z.leb_spec 0 x).
  - replace (2 * x mod 2) with 0 by zdm. rewrite Z.lxor_0_r. zdm.
  - replace ((-2 * x - 1) mod 2) with 1 by zdm. rewrite lxor_m1. zdm.
Qed.

Definition zigzag_bytes (x : Z) : list Z := varint_bytes 10 (zigzag x).

Lemma zigzag_range bits x : 0 < bits -> is_int bits x -> 0 <= zigzag x < 2 ^ bits.
Proof.
  unfold is_int, zigzag. intros Hb H.
  assert (2 ^ bits = 2 * 2 ^ (bits - 1)) as E.
  { replace bits with (Z.succ (bits - 1)) at 1 by lia. rewrite Z.pow_succ_r; lia. }
  rewrite E. zcases; lia.
Qed.

Lemma writes_Zigzag32 x : is_int 32 x -> writes (writeZigzag32 x) (zigzag_bytes x) tt.
Proof.
  intros Hx. unfold writeZigzag32. rewrite zigzag32_enc by done.
  apply writes_Varint. pose proof (zigzag_range 32 x ltac:(lia) Hx). lia.
Qed.

Lemma reads_Zigzag32 x : is_int 32 x -> reads readZigzag32 (zigzag_bytes x) x.
Proof.
  intros Hx. eapply reads_map.
  - apply reads_Varint32. by apply zigzag_range.
  - cbv beta. by rewrite zigzag32_dec.
Qed.

Lemma writes_Zigzag64 x : is_int 64 x -> writes (writeZigzag64 x) (zigzag_bytes x) tt.
Proof.
  intros Hx. unfold writeZigzag64. rewrite zigzag64_enc by done.
  apply writes_Varint. by apply zigzag_range.
Qed.

Lemma reads_Zigzag64 x : is_int 64 x -> reads readZigzag64 (zigzag_bytes x) x.
Proof.
  intros Hx. eapply reads_map.
  - apply reads_Varint. by apply zigzag_range.
  - cbv beta. by rewrite zigzag64_dec.
Qed.

(** ** Progress

    [progress k rd]: on every input [rd] either returns having consumed at
    least [k] bytes of the same input, or throws an error of the code (never
    the fuel outcome). *)

Definition progress {A} (k : nat) (rd : ST ByteReader A) : Prop :=
  forall r, reader_ok r ->
  match rd r with
  | Ok (_, r') => reader_ok r' /\ rd_bytes r' = rd_bytes r
                  /\ (rd_pos r + k <= rd_pos r')%nat
  | Throw e => e <> Diverges
  end.

Lemma progress_weaken {A} k k' (rd : ST ByteReader A) :
  (k' <= k)%nat -> progress k rd -> progress k' rd.
Proof.
  intros Hk H r Hr. specialize (H r Hr). destruct (rd r) as [[a r']|e]; [|done].
  destruct H as (? & ? & ?). split; [done|split; [done|lia]].
Qed.

Lemma progress_ret {A} (a : A) : progress 0 (mret a).
Proof. intros r Hr. simpl. split; [done|split; [done|lia]]. Qed.

Lemma progress_throw {A} k e : e <> Diverges -> progress (A := A) k (throw e).
Proof. by intros He r Hr. Qed.

Lemma progress_fail {A} k msg : progress (A := A) k (_fail msg).
Proof. by intros r Hr. Qed.

Lemma progress_bind {A B} k1 k2 (m : ST ByteReader A) (f : A -> ST ByteReader B) :
  progress k1 m -> (forall a, progress k2 (f a)) -> progress (k1 + k2) (m ≫= f).
Proof.
  intros Hm Hf r Hr. unfold mbind, ST_bind. specialize (Hm r Hr).
  destruct (m r) as [[a r1]|e]; [|done]. destruct Hm as (Hr1 & Hb1 & Hp1).
  specialize (Hf a r1 Hr1). destruct (f a r1) as [[b r2]|e]; [|done].
  destruct Hf as (Hr2 & Hb2 & Hp2). split; [done|split; [congruence|lia]].
Qed.

Lemma progress_bind0 {A B} k (m : ST ByteReader A) (f : A -> ST ByteReader B) :
  progress k m -> (forall a, progress 0 (f a)) -> progress k (m ≫= f).
Proof. intros. replace k with (k + 0)%nat by lia. by apply progress_bind. Qed.

Lemma progress_fixed {A} (n : Z) (f : list Z -> A) :
  0 <= n -> progress (Z.to_nat n) (ensure n;; l ← view_get n; mret (f l)).
Proof.
  intros Hn r Hr. unfold mbind, ST_bind, ensure, view_get, mret, ST_ret.
  destruct (Z.ltb_spec (zlen (rd_bytes r)) (Z.of_nat (rd_pos r) + n)); [done|].
  unfold reader_ok, zlen in *. simpl. split; [lia|split; [done|lia]].
Qed.

Lemma progress_Bytes n : progress 0 (readBytes n).
Proof.
  unfold readBytes. destruct (Z.ltb_spec n 0); [apply progress_fail|].
  intros r Hr. unfold mbind, ST_bind, ensure, view_get.
  destruct (Z.ltb_spec (zlen (rd_bytes r)) (Z.of_nat (rd_pos r) + n)); [done|].
  unfold reader_ok, zlen in *. simpl. split; [lia|split; [done|lia]].
Qed.

Lemma progress_String n : progress 0 (readString n).
Proof.
  apply progress_bind0; [apply progress_Bytes|]. intros l r Hr. unfold liftR.
  unfold TextDecoder_decode. destruct (zlen l =? 0); [split; [done|split; [done|lia]]|].
  destruct (decodeUtf8_outcome l false true) as [[s ->]|[? _]]; [|done].
  split; [done|split; [done|lia]].
Qed.

Lemma progress_U8 : progress 1 readU8.
Proof. by apply (progress_fixed 1 le_val). Qed.
Lemma progress_I8 : progress 1 readI8.
Proof. by apply (progress_fixed 1 (fun l => signedN 8 (le_val l))). Qed.
Lemma progress_I16BE : progress 2 readI16BE.
Proof. by apply (progress_fixed 2 (fun l => signedN 16 (be_val l))). Qed.
Lemma progress_I32BE : progress 4 readI32BE.
Proof. by apply (progress_fixed 4 (fun l => signedN 32 (be_val l))). Qed.
Lemma progress_I64BE : progress 8 readI64BE.
Proof. by apply (progress_fixed 8 (fun l => signedN 64 (be_val l))). Qed.
Lemma progress_F64BE : progress 8 readF64BE.
Proof. by apply (progress_fixed 8 be_val). Qed.
Lemma progress_F64LE : progress 8 readF64LE.
Proof. by apply (progress_fixed 8 le_val). Qed.

Lemma progress_varint_loop fuel result shift :
  (0 < fuel)%nat -> 70 <= shift + 7 * Z.of_nat fuel ->
  progress 1 (readVarint_loop fuel result shift).
Proof.
  revert result shift. induction fuel as [|fuel IH]; intros result shift H0 Hs; [lia|].
  cbn [readVarint_loop]. apply progress_bind0; [apply progress_U8|]. intros b.
  cbv zeta. destruct (Z.land b 128 =? 0); [apply progress_ret|].
  destruct (Z.ltb_spec 63 (shift + 7)); [apply progress_fail|].
  eapply progress_weaken; [|apply IH; lia]. lia.
Qed.

Lemma progress_Varint : progress 1 readVarint.
Proof. apply progress_varint_loop; lia. Qed.
Lemma progress_Varint32 : progress 1 readVarint32.
Proof. apply progress_bind0; [apply progress_Varint|]. intros. apply progress_ret. Qed.
Lemma progress_Zigzag32 : progress 1 readZigzag32.
Proof. apply progress_bind0; [apply progress_Varint32|]. intros. apply progress_ret. Qed.
Lemma progress_Zigzag64 : progress 1 readZigzag64.
Proof. apply progress_bind0; [apply progress_Varint|]. intros. apply progress_ret. Qed.

(** ** The growing buffer implements the list of bytes *)

Section refinement.
Import ByteWriter.

Definition bw_ok (w : bw_state) : Prop := 0 <= len w <= zlen (buf w) /\ 0 < zlen (buf w).

Lemma make_ok n : bw_ok (bw_make n).
Proof. unfold bw_ok, bw_make, zlen. simpl. rewrite length_replicate. lia. Qed.

Lemma shl1_small x : 0 <= x < 2 ^ 30 -> js_shl x 1 = 2 * x.
Proof.
  intros Hx. unfold js_shl. rewrite (toInt32_small x) by (apply is_int32_nonneg; lia).
  change (Z.land 1 31) with 1. rewrite Z.shiftl_mul_pow2 by lia.
  rewrite toInt32_small by (apply is_int32_nonneg; lia). lia.
Qed.

Lemma grow_ok fuel size need :
  0 < size -> need <= 2 ^ 30 -> need <= size * 2 ^ Z.of_nat fuel ->
  exists size', grow fuel size need = Ok size' /\ need <= size' /\ size <= size'.
Proof.
  revert size. induction fuel as [|fuel IH]; intros size Hs Hn Hf; cbn [grow];
    destruct (Z.ltb_spec size need); try (by exists size).
  - simpl in Hf. lia.
  - rewrite shl1_small by lia. destruct (IH (2 * size)) as (s' & -> & ? & ?); try lia.
    + rewrite Nat2Z.inj_succ, Z.pow_succ_r in Hf by lia. lia.
    + exists s'. split; [done|lia].
Qed.

(** Past 2^30 the shift overflows: from a capacity of 2^30 the loop of
    [ByteWriter.bw_ensure] reaches 0 and never ends. *)
Theorem grow_diverges fuel need :
  2 ^ 30 < need -> grow fuel (2 ^ 30) need = Throw Diverges.
Proof.
  intros Hn. assert (forall f, grow f 0 need = Throw Diverges) as H0.
  { induction f as [|f IH]; cbn [grow]; replace (0 <? need) with true by lia; [done|].
    change (js_shl 0 1) with 0. done. }
  destruct fuel as [|[|fuel]]; cbn [grow]; replace (2 ^ 30 <? need) with true by lia;
    [done|..]; change (js_shl (2 ^ 30) 1) with (- 2 ^ 31);
    replace (- 2 ^ 31 <? need) with true by lia; [done|].
  change (js_shl (- 2 ^ 31) 1) with 0. apply H0.
Qed.

Lemma ensure_put n bs w :
  bw_ok w -> zlen bs = n -> len w + n <= 2 ^ 30 ->
  exists w', (w1 ← bw_ensure n w; Ok (put bs w1)) = Ok w' /\ bw_ok w'
             /\ bw_bytes w' = bw_bytes w ++ bs /\ len w' = len w + n.
Proof.
  intros [Hl Hb] Hn Hbound. pose proof (zlen_nonneg bs) as Hbs.
  assert (exists w1, bw_ensure n w = Ok w1 /\ len w1 = len w /\ bw_bytes w1 = bw_bytes w /\
            len w + n <= zlen (buf w1) /\ 0 < zlen (buf w1)) as (w1 & -> & Hl1 & Hb1 & Hc1 & Hp1).
  { unfold bw_ensure. destruct (Z.leb_spec (len w + n) (zlen (buf w))); [by exists w|].
    destruct (grow_ok 32 (zlen (buf w)) (len w + n)) as (sz & -> & Hs & Hs');
      [lia|lia|change (2 ^ Z.of_nat 32) with 4294967296; lia|].
    eexists. split; [done|]. simpl. split; [done|]. unfold bw_bytes, zlen in *. simpl.
    split.
    - rewrite take_app_le by (rewrite length_take; lia). rewrite take_take.
      f_equal. lia.
    - rewrite length_app, length_take, length_replicate. lia. }
  cbn [mbind res_bind]. eexists. split; [done|]. unfold bw_ok, put, bw_bytes, zlen in *. simpl.
  rewrite Hl1 in *. rewrite !length_app, length_take, length_drop. split; [lia|].
  split; [|lia]. rewrite <- Hb1, app_assoc.
  rewrite take_app_le by (rewrite length_app, length_take; lia).
  apply take_ge. rewrite length_app, length_take. lia.
Qed.

Inductive write_op :=
| WU8 (v : Z) | WBytes (bs : list Z) | WI16BE (v : Z) | WI32BE (v : Z)
| WI64BE (v : Z) | WF64BE (v : Z) | WF64LE (v : Z).

Definition run_buffer (o : write_op) : bw_state -> res bw_state :=
  match o with
  | WU8 v => bw_writeU8 v | WBytes bs => bw_writeBytes bs
  | WI16BE v => bw_writeI16BE v | WI32BE v => bw_writeI32BE v
  | WI64BE v => bw_writeI64BE v | WF64BE v => bw_writeF64BE v
  | WF64LE v => bw_writeF64LE v
  end.
Definition run_list (o : write_op) : ST writer unit :=
  match o with
  | WU8 v => ThriftIO.writeU8 v | WBytes bs => ThriftIO.writeBytes bs
  | WI16BE v => ThriftIO.writeI16BE v | WI32BE v => ThriftIO.writeI32BE v
  | WI64BE v => ThriftIO.writeI64BE v | WF64BE v => ThriftIO.writeF64BE v
  | WF64LE v => ThriftIO.writeF64LE v
  end.
Definition op_size (o : write_op) : Z :=
  match o with
  | WU8 _ => 1 | WBytes bs => zlen bs | WI16BE _ => 2 | WI32BE _ => 4
  | WI64BE _ => 8 | WF64BE _ => 8 | WF64LE _ => 8
  end.

Lemma write_op_refines o w :
  bw_ok w -> len w + op_size o <= 2 ^ 30 ->
  exists w', run_buffer o w = Ok w' /\ bw_ok w' /\ len w' = len w + op_size o
             /\ run_list o (bw_bytes w) = Ok (tt, bw_bytes w').
Proof.
  intros Hw Hb.
  assert (forall bs, zlen bs = op_size o -> exists w',
    (w1 ← bw_ensure (op_size o) w; Ok (put bs w1)) = Ok w' /\ bw_ok w' /\
    len w' = len w + op_size o /\ append bs (bw_bytes w) = Ok (tt, bw_bytes w')) as H.
  { intros bs Hbs. destruct (ensure_put (op_size o) bs w Hw Hbs Hb) as (w' & ? & ? & E & ?).
    exists w'. unfold append. by rewrite E. }
  destruct o; simpl in *; apply H; try done; unfold zlen;
    by rewrite ?length_be_bytes, ?length_le_bytes.
Qed.

Fixpoint run_buffers (os : list write_op) (w : bw_state) : res bw_state :=
  match os with [] => Ok w | o :: os => w' ← run_buffer o w; run_buffers os w' end.
Fixpoint run_lists (os : list write_op) : ST writer unit :=
  match os with [] => mret tt | o :: os => run_list o;; run_lists os end.
Definition ops_size (os : list write_op) : Z := foldr (fun o n => op_size o + n) 0 os.

Lemma op_size_nonneg o : 0 <= op_size o.
Proof. destruct o; simpl; try lia. apply zlen_nonneg. Qed.

Lemma ops_size_nonneg os : 0 <= ops_size os.
Proof. induction os as [|o os IH]; simpl; [lia|]. pose proof (op_size_nonneg o). lia. Qed.

(** C11: the growing buffer of [ByteWriter] implements an append-only byte
    sequence: from any writer, any sequence of writes whose total stays
    within 2^30 bytes succeeds (the doubling loop ends) and [bytes()] is
    exactly what appending to a list gives. *)
Theorem ByteWriter_refines os w :
  bw_ok w -> len w + ops_size os <= 2 ^ 30 ->
  exists w', run_buffers os w = Ok w' /\ bw_ok w'
             /\ run_lists os (bw_bytes w) = Ok (tt, bw_bytes w').
Proof.
  revert w. induction os as [|o os IH]; intros w Hw Hb; [by exists w|].
  cbn [ops_size foldr] in Hb. fold (ops_size os) in Hb.
  pose proof (ops_size_nonneg os).
  destruct (write_op_refines o w Hw ltac:(lia)) as (w1 & E1 & Hw1 & Hl1 & Ea1).
  destruct (IH w1 Hw1 ltac:(lia)) as (w' & E' & Hw' & Ea').
  exists w'. cbn [run_buffers run_lists]. rewrite E1. cbn [mbind res_bind].
  split; [done|]. split; [done|]. by rewrite (ST_bind_ok _ _ _ _ _ Ea1).
Qed.
End refinement.

Lemma ByteWriter_refines_witness :
  exists w', run_buffers [WU8 300; WBytes (replicate 20 7); WI32BE (-2)] (ByteWriter.bw_make 4) = Ok w'
    /\ bw_ok w' /\ run_lists [WU8 300; WBytes (replicate 20 7); WI32BE (-2)] [] =
                    Ok (tt, ByteWriter.bw_bytes w').
Proof.
  apply (ByteWriter_refines [WU8 300; WBytes (replicate 20 7); WI32BE (-2)] (ByteWriter.bw_make 4)).
  - apply make_ok.
  - vm_compute. discriminate.
Defined.

(** Varints round-trip: for every value below 2^64 the writer appends
    between one and ten bytes that the reader turns back into the value,
    stopping right after them. *)
Theorem varint_roundtrip (v : Z) (out : writer) :
  0 <= v < 2 ^ 64 ->
  exists bs, writeVarint v out = Ok (tt, out ++ bs) /\ 1 <= zlen bs <= 10 /\
    forall r tail, reader_ok r -> rest r = bs ++ tail ->
    readVarint r = Ok (v, advance (zlen bs) r).
Proof.
  intros Hv. exists (varint_bytes 10 v). split; [by apply writes_Varint|].
  split; [|by apply reads_Varint].
  enough (forall fuel x, (0 < fuel)%nat -> 1 <= zlen (varint_bytes fuel x) <= Z.of_nat fuel)
    as H by (by apply (H 10%nat); lia).
  induction fuel as [|fuel IH]; intros x Hf; [lia|]. cbn [varint_bytes].
  destruct (128 <=? x); [|unfold zlen; simpl; lia].
  rewrite zlen_cons. destruct fuel as [|fuel]; [simpl; unfold zlen; simpl; lia|].
  specialize (IH (x / 128) ltac:(lia)). lia.
Qed.

Lemma varint_roundtrip_witness :
  exists bs, writeVarint 624485 [9] = Ok (tt, [9] ++ bs) /\ 1 <= zlen bs <= 10 /\
    forall r tail, reader_ok r -> rest r = bs ++ tail ->
    readVarint r = Ok (624485, advance (zlen bs) r).
Proof. apply (varint_roundtrip 624485 [9]). lia. Defined.

(** Zig-zag coding round-trips on the whole signed 32-bit and 64-bit
    ranges. *)
Theorem zigzag_roundtrip (x : Z) (out : writer) :
  (is_int 32 x -> exists bs, writeZigzag32 x out = Ok (tt, out ++ bs) /\
     forall r tail, reader_ok r -> rest r = bs ++ tail ->
     readZigzag32 r = Ok (x, advance (zlen bs) r)) /\
  (is_int 64 x -> exists bs, writeZigzag64 x out = Ok (tt, out ++ bs) /\
     forall r tail, reader_ok r -> rest r = bs ++ tail ->
     readZigzag64 r = Ok (x, advance (zlen bs) r)).
Proof.
  split; intros Hx; exists (zigzag_bytes x); split.
  - by apply writes_Zigzag32.
  - by apply reads_Zigzag32.
  - by apply writes_Zigzag64.
  - by apply reads_Zigzag64.
Qed.
End ThriftIO.
