(* ===== verification/ThriftProtocol.v ===== *)
(** Thrift wire types (src/js/internal/format/thrift/types.ts) and the
    [Protocol] interface (protocol.ts) that the compact and binary protocols
    implement and that value.ts is written against.

    [Class Protocol] is the interface; a protocol object is split into its
    writer side and its reader side, since an object built without input has
    only a writer and one built with input only a reader.  [Class
    ProtocolLaws] is what value.ts relies on: every read method inverts the
    write method of the same name, up to the protocol's own context (the
    field-id stack of the compact protocol), and consumes input. *)

From S2P Require Import Prelude Utf8 ThriftIO.

Module TType.
Definition STOP := 0.
Definition VOID := 1.
Definition BOOL := 2.
Definition BYTE := 3.
Definition I8 := 3.
Definition DOUBLE := 4.
Definition I16 := 6.
Definition I32 := 8.
Definition I64 := 10.
Definition STRING := 11.
Definition STRUCT := 12.
Definition MAP := 13.
Definition SET := 14.
Definition LIST := 15.
End TType.

Module CType.
Definition STOP := 0.
Definition BOOLEAN_TRUE := 1.
Definition BOOLEAN_FALSE := 2.
Definition BYTE := 3.
Definition I16 := 4.
Definition I32 := 5.
Definition I64 := 6.
Definition DOUBLE := 7.
Definition BINARY := 8.
Definition LIST := 9.
Definition SET := 10.
Definition MAP := 11.
Definition STRUCT := 12.
End CType.

Module ThriftProtocol.
Import Utf8 ThriftIO.

Definition ttypeToCompact (type : Z) : res Z :=
  if type =? TType.BOOL then Ok CType.BOOLEAN_TRUE
  else if type =? TType.BYTE then Ok CType.BYTE
  else if type =? TType.I16 then Ok CType.I16
  else if type =? TType.I32 then Ok CType.I32
  else if type =? TType.I64 then Ok CType.I64
  else if type =? TType.DOUBLE then Ok CType.DOUBLE
  else if type =? TType.STRING then Ok CType.BINARY
  else if type =? TType.LIST then Ok CType.LIST
  else if type =? TType.SET then Ok CType.SET
  else if type =? TType.MAP then Ok CType.MAP
  else if type =? TType.STRUCT then Ok CType.STRUCT
  else Throw (TypeError "thrift: type has no compact encoding").

Definition compactToTtype (nibble : Z) : res Z :=
  let n := js_and nibble 15 in
  if n =? CType.STOP then Ok TType.STOP
  else if n =? CType.BOOLEAN_TRUE then Ok TType.BOOL
  else if n =? CType.BOOLEAN_FALSE then Ok TType.BOOL
  else if n =? CType.BYTE then Ok TType.BYTE
  else if n =? CType.I16 then Ok TType.I16
  else if n =? CType.I32 then Ok TType.I32
  else if n =? CType.I64 then Ok TType.I64
  else if n =? CType.DOUBLE then Ok TType.DOUBLE
  else if n =? CType.BINARY then Ok TType.STRING
  else if n =? CType.LIST then Ok TType.LIST
  else if n =? CType.SET then Ok TType.SET
  else if n =? CType.MAP then Ok TType.MAP
  else if n =? CType.STRUCT then Ok TType.STRUCT
  else Throw (TypeError "thrift: unknown compact type nibble").

Record MessageHeader := { mh_name : jsstring; mh_type : Z; mh_seqid : Z }.
Record FieldHeader := { fh_name : jsstring; fh_type : Z; fh_id : Z }.
Record MapHeader := { map_keyType : Z; map_valueType : Z; map_size : Z }.
Record ListHeader := { list_elemType : Z; list_size : Z }.

Class Protocol := {
  PW : Type;
  PR : Type;
  writeMessageBegin : jsstring -> Z -> Z -> ST PW unit;
  writeMessageEnd : ST PW unit;
  writeStructBegin : ST PW unit;
  writeStructEnd : ST PW unit;
  writeFieldBegin : jsstring -> Z -> Z -> ST PW unit;
  writeFieldEnd : ST PW unit;
  writeFieldStop : ST PW unit;
  writeMapBegin : Z -> Z -> Z -> ST PW unit;
  writeMapEnd : ST PW unit;
  writeListBegin : Z -> Z -> ST PW unit;
  writeListEnd : ST PW unit;
  writeSetBegin : Z -> Z -> ST PW unit;
  writeSetEnd : ST PW unit;
  writeBool : bool -> ST PW unit;
  writeByte : Z -> ST PW unit;
  writeI16 : Z -> ST PW unit;
  writeI32 : Z -> ST PW unit;
  writeI64 : Z -> ST PW unit;
  writeDouble : Z -> ST PW unit;
  writeString : jsstring -> ST PW unit;
  writeBinary : list Z -> ST PW unit;
  readMessageBegin : ST PR MessageHeader;
  readMessageEnd : ST PR unit;
  readStructBegin : ST PR (option jsstring);
  readStructEnd : ST PR unit;
  readFieldBegin : ST PR FieldHeader;
  readFieldEnd : ST PR unit;
  readMapBegin : ST PR MapHeader;
  readMapEnd : ST PR unit;
  readListBegin : ST PR ListHeader;
  readListEnd : ST PR unit;
  readSetBegin : ST PR ListHeader;
  readSetEnd : ST PR unit;
  readBool : ST PR bool;
  readByte : ST PR Z;
  readI16 : ST PR Z;
  readI32 : ST PR Z;
  readI64 : ST PR Z;
  readDouble : ST PR Z;
  readString : ST PR jsstring;
  readBinary : ST PR (list Z);
  bytes : PW -> list Z;
  position : PR -> Z;
}.

(** The types a value can have on the wire. *)
Definition value_type (ty : Z) : Prop :=
  ty = TType.BOOL \/ ty = TType.BYTE \/ ty = TType.DOUBLE \/ ty = TType.I16 \/
  ty = TType.I32 \/ ty = TType.I64 \/ ty = TType.STRING \/ ty = TType.STRUCT \/
  ty = TType.MAP \/ ty = TType.SET \/ ty = TType.LIST.

(** ** What the interface promises

    [emits c wr bs a c'] and [accepts c rd bs a c']: from context [c] the
    writer appends [bs], the reader consumes [bs], and both end in [c']. *)

Class Framing (P : Protocol) := {
  ctx : Type;
  w_ok : PW -> Prop;
  w_ctx : PW -> ctx;
  r_ok : PR -> Prop;
  r_ctx : PR -> ctx;
  r_rest : PR -> list Z;
}.

Section codec.
Context {P : Protocol} {F : Framing P}.

Definition emits {A} (c : ctx) (wr : ST PW A) (bs : list Z) (a : A) (c' : ctx) : Prop :=
  forall w, w_ok w -> w_ctx w = c ->
  exists w', wr w = Ok (a, w') /\ w_ok w' /\ w_ctx w' = c' /\ bytes w' = bytes w ++ bs.
Definition accepts {A} (c : ctx) (rd : ST PR A) (bs : list Z) (a : A) (c' : ctx) : Prop :=
  forall r tail, r_ok r -> r_ctx r = c -> r_rest r = bs ++ tail ->
  exists r', rd r = Ok (a, r') /\ r_ok r' /\ r_ctx r' = c' /\ r_rest r' = tail.

(** One write and two ways to read its bytes. *)
Definition codec {A B} (c : ctx) (wr : ST PW unit) (rd : ST PR A) (a : A)
  (sk : ST PR B) (b : B) (c' : ctx) : Prop :=
  exists bs, emits c wr bs tt c' /\ accepts c rd bs a c' /\ accepts c sk bs b c'.

Lemma emits_bind {A B} c c1 c2 (m : ST PW A) (f : A -> ST PW B) bs1 bs2 a b :
  emits c m bs1 a c1 -> emits c1 (f a) bs2 b c2 -> emits c (m ≫= f) (bs1 ++ bs2) b c2.
Proof.
  intros H1 H2 w Hw Hc. destruct (H1 w Hw Hc) as (w1 & E1 & Hw1 & Hc1 & Ho1).
  destruct (H2 w1 Hw1 Hc1) as (w2 & E2 & Hw2 & Hc2 & Ho2). exists w2.
  rewrite (ST_bind_ok _ _ _ _ _ E1). rewrite Ho2, Ho1, app_assoc. done.
Qed.

Lemma accepts_bind {A B} c c1 c2 (m : ST PR A) (f : A -> ST PR B) bs1 bs2 a b :
  accepts c m bs1 a c1 -> accepts c1 (f a) bs2 b c2 ->
  accepts c (m ≫= f) (bs1 ++ bs2) b c2.
Proof.
  intros H1 H2 r tail Hr Hc E. rewrite <- app_assoc in E.
  destruct (H1 r _ Hr Hc E) as (r1 & E1 & Hr1 & Hc1 & Ho1).
  destruct (H2 r1 _ Hr1 Hc1 Ho1) as (r2 & E2 & ?). exists r2.
  by rewrite (ST_bind_ok _ _ _ _ _ E1).
Qed.

Lemma accepts_ret {A} c (a : A) : accepts c (mret a) [] a c.
Proof. intros r tail Hr Hc E. by exists r. Qed.

Lemma codec_seq {A1 A2 B1 B2} c c1 c2 wr1 wr2 (rd1 : ST PR A1) (f : A1 -> ST PR A2)
  (sk1 : ST PR B1) (g : B1 -> ST PR B2) a1 a2 b1 b2 :
  codec c wr1 rd1 a1 sk1 b1 c1 -> codec c1 wr2 (f a1) a2 (g b1) b2 c2 ->
  codec c (wr1;; wr2) (rd1 ≫= f) a2 (sk1 ≫= g) b2 c2.
Proof.
  intros (bs1 & He1 & Ha1 & Hs1) (bs2 & He2 & Ha2 & Hs2). exists (bs1 ++ bs2).
  split; [|split].
  - eapply emits_bind; [exact He1|exact He2].
  - eapply accepts_bind; [exact Ha1|exact Ha2].
  - eapply accepts_bind; [exact Hs1|exact Hs2].
Qed.

(** The readers finish with a computation. *)
Lemma codec_map {A1 A2 B1 B2} c c' wr (rd : ST PR A1) (f : A1 -> ST PR A2)
  (sk : ST PR B1) (g : B1 -> ST PR B2) a1 a2 b1 b2 :
  codec c wr rd a1 sk b1 c' -> f a1 = mret a2 -> g b1 = mret b2 ->
  codec c wr (rd ≫= f) a2 (sk ≫= g) b2 c'.
Proof.
  intros (bs & He & Ha & Hs) Ef Eg. exists bs. split; [done|].
  rewrite <- (app_nil_r bs). split.
  - eapply accepts_bind; [exact Ha|]. rewrite Ef. apply accepts_ret.
  - eapply accepts_bind; [exact Hs|]. rewrite Eg. apply accepts_ret.
Qed.

(** Only the first reader finishes with a computation. *)
Lemma codec_mapl {A1 A2 B} c c' wr (rd : ST PR A1) (f : A1 -> ST PR A2)
  (sk : ST PR B) a1 a2 b :
  codec c wr rd a1 sk b c' -> f a1 = mret a2 -> codec c wr (rd ≫= f) a2 sk b c'.
Proof.
  intros (bs & He & Ha & Hs) Ef. exists bs. split; [done|]. split; [|done].
  rewrite <- (app_nil_r bs). eapply accepts_bind; [exact Ha|]. rewrite Ef. apply accepts_ret.
Qed.

(** Writes may be re-associated. *)
Lemma codec_assoc {A B} c c' (w1 w2 w3 : ST PW unit) (rd : ST PR A) (sk : ST PR B) a b :
  codec c (w1;; (w2;; w3)) rd a sk b c' -> codec c ((w1;; w2);; w3) rd a sk b c'.
Proof.
  intros (bs & He & Ha & Hs). exists bs. split; [|done].
  intros w. rewrite ST_bind_assoc. apply He.
Qed.

Lemma codec_ret {A B} c (a : A) (b : B) : codec c (mret tt) (mret a) a (mret b) b c.
Proof.
  exists []. split; [|split; apply accepts_ret].
  intros w Hw Hc. exists w. by rewrite app_nil_r.
Qed.
End codec.

Class ProtocolLaws (P : Protocol) (F : Framing P) := {
  enter : ctx -> ctx;
  leave : ctx -> ctx;
  after_field : Z -> ctx -> ctx;
  empty_map_types : Z -> Z -> Z * Z;
  leave_enter c : leave (enter c) = c;
  leave_after_field id c : leave (after_field id c) = leave c;
  law_struct_begin c :
    codec c writeStructBegin readStructBegin None readStructBegin None (enter c);
  law_struct_end c : codec c writeStructEnd readStructEnd tt readStructEnd tt (leave c);
  law_field_stop c :
    let h := {| fh_name := []; fh_type := TType.STOP; fh_id := 0 |} in
    codec c writeFieldStop readFieldBegin h readFieldBegin h c;
  law_field_begin c ty id :
    value_type ty -> ty <> TType.BOOL -> is_int 16 id ->
    let h := {| fh_name := []; fh_type := ty; fh_id := id |} in
    codec c (writeFieldBegin [] ty id) readFieldBegin h readFieldBegin h (after_field id c);
  law_field_bool c id b :
    is_int 16 id ->
    let h := {| fh_name := []; fh_type := TType.BOOL; fh_id := id |} in
    let rd := h ← readFieldBegin; v ← readBool; mret (h, v) in
    codec c (writeFieldBegin [] TType.BOOL id;; writeBool b) rd (h, b) rd (h, b)
      (after_field id c);
  law_field_end c : codec c writeFieldEnd readFieldEnd tt readFieldEnd tt c;
  law_list_begin c ty n :
    value_type ty -> 0 <= n < 2 ^ 31 ->
    let h := {| list_elemType := ty; list_size := n |} in
    codec c (writeListBegin ty n) readListBegin h readListBegin h c;
  law_list_end c : codec c writeListEnd readListEnd tt readListEnd tt c;
  law_set_begin c ty n :
    value_type ty -> 0 <= n < 2 ^ 31 ->
    let h := {| list_elemType := ty; list_size := n |} in
    codec c (writeSetBegin ty n) readSetBegin h readSetBegin h c;
  law_set_end c : codec c writeSetEnd readSetEnd tt readSetEnd tt c;
  law_map_begin c kt vt n :
    value_type kt -> value_type vt -> 0 <= n < 2 ^ 31 ->
    let tys := if n =? 0 then empty_map_types kt vt else (kt, vt) in
    let h := {| map_keyType := tys.1; map_valueType := tys.2; map_size := n |} in
    codec c (writeMapBegin kt vt n) readMapBegin h readMapBegin h c;
  law_map_end c : codec c writeMapEnd readMapEnd tt readMapEnd tt c;
  law_bool c b : codec c (writeBool b) readBool b readBool b c;
  law_byte c x : is_int 8 x -> codec c (writeByte x) readByte x readByte x c;
  law_i16 c x : is_int 16 x -> codec c (writeI16 x) readI16 x readI16 x c;
  law_i32 c x : is_int 32 x -> codec c (writeI32 x) readI32 x readI32 x c;
  law_i64 c x : is_int 64 x -> codec c (writeI64 x) readI64 x readI64 x c;
  law_double c x : 0 <= x < 2 ^ 64 -> codec c (writeDouble x) readDouble x readDouble x c;
  law_string c s :
    plain_string s -> zlen (encodeUtf8 s) < 2 ^ 31 ->
    codec c (writeString s) readString s readBinary (encodeUtf8 s) c;
}.

(** ** Consumption

    [weight] measures the unread input; every read lowers it by the stated
    amount or throws, whatever the input. *)

Class Consuming (P : Protocol) := {
  r_wf : PR -> Prop;
  weight : PR -> nat;
}.

Definition consumes {P : Protocol} {C : Consuming P} {A} (k : nat) (rd : ST PR A) : Prop :=
  forall r, r_wf r ->
  match rd r with
  | Ok (_, r') => r_wf r' /\ (weight r' + k <= weight r)%nat
  | Throw e => e <> Diverges
  end.

Lemma consumes_bind {P : Protocol} {C : Consuming P} {A B} k1 k2
  (m : ST PR A) (f : A -> ST PR B) :
  consumes k1 m -> (forall a, consumes k2 (f a)) -> consumes (k1 + k2) (m ≫= f).
Proof.
  intros Hm Hf r Hr. unfold mbind, ST_bind. specialize (Hm r Hr).
  destruct (m r) as [[a r1]|e]; [|done]. destruct Hm as [Hr1 Hw1].
  specialize (Hf a r1 Hr1). destruct (f a r1) as [[b r2]|e]; [|done].
  destruct Hf as [Hr2 Hw2]. split; [done|lia].
Qed.

Lemma consumes_weaken {P : Protocol} {C : Consuming P} {A} k k' (rd : ST PR A) :
  (k' <= k)%nat -> consumes k rd -> consumes k' rd.
Proof.
  intros Hk H r Hr. specialize (H r Hr). destruct (rd r) as [[a r']|e]; [|done].
  destruct H. split; [done|lia].
Qed.

Class ConsumingLaws (P : Protocol) (C : Consuming P) := {
  c_struct_begin : consumes 0 readStructBegin;
  c_struct_end : consumes 0 readStructEnd;
  c_field_begin : consumes 1 readFieldBegin;
  c_field_end : consumes 0 readFieldEnd;
  c_list_begin : consumes 1 readListBegin;
  c_list_end : consumes 0 readListEnd;
  c_set_begin : consumes 1 readSetBegin;
  c_set_end : consumes 0 readSetEnd;
  c_map_begin : consumes 1 readMapBegin;
  c_map_end : consumes 0 readMapEnd;
  c_bool : consumes 1 readBool;
  c_byte : consumes 1 readByte;
  c_i16 : consumes 1 readI16;
  c_i32 : consumes 1 readI32;
  c_i64 : consumes 1 readI64;
  c_double : consumes 1 readDouble;
  c_string : consumes 1 readString;
  c_binary : consumes 1 readBinary;
}.
End ThriftProtocol.
