(* ===== verification/ThriftValue.v ===== *)
(** Generic Thrift values (src/js/internal/format/thrift/value.ts), written
    and verified against the [Protocol] interface: [writeValue], [readValue],
    [skip], [readStruct] and [writeStruct].

    Recursion on the input is by fuel, shared by the nesting depth and the
    element loops; [readValue_terminates] bounds the fuel any input needs. *)

From S2P Require Import Prelude Utf8 ThriftIO ThriftProtocol.

Set Warnings "-register-all".

Module ThriftValue.
Import Utf8 ThriftIO ThriftProtocol.

Inductive ThriftValue :=
| VBool (value : bool)
| VByte (value : Z)
| VI16 (value : Z)
| VI32 (value : Z)
| VI64 (value : Z)
| VDouble (value : Z)
| VString (value : jsstring)
| VStruct (fields : list (Z * ThriftValue))
| VList (elemType : Z) (values : list ThriftValue)
| VSet (elemType : Z) (values : list ThriftValue)
| VMap (keyType valueType : Z) (entries : list (ThriftValue * ThriftValue)).

(** The [type] discriminant. *)
Definition type_of (v : ThriftValue) : Z :=
  match v with
  | VBool _ => TType.BOOL | VByte _ => TType.BYTE | VI16 _ => TType.I16
  | VI32 _ => TType.I32 | VI64 _ => TType.I64 | VDouble _ => TType.DOUBLE
  | VString _ => TType.STRING | VStruct _ => TType.STRUCT
  | VList _ _ => TType.LIST | VSet _ _ => TType.SET | VMap _ _ _ => TType.MAP
  end.

Section value.
Context {P : Protocol}.

Fixpoint writeValue (value : ThriftValue) : ST PW unit :=
  match value with
  | VBool b => writeBool b
  | VByte x => writeByte x
  | VI16 x => writeI16 x
  | VI32 x => writeI32 x
  | VI64 x => writeI64 x
  | VDouble x => writeDouble x
  | VString s => ThriftProtocol.writeString s
  | VStruct fields =>
      writeStructBegin;;
      forEach (fun '(id, v) =>
        writeFieldBegin [] (type_of v) id;; writeValue v;; writeFieldEnd) fields;;
      writeFieldStop;; writeStructEnd
  | VList elemType values =>
      writeListBegin elemType (zlen values);;
      forEach writeValue values;; writeListEnd
  | VSet elemType values =>
      writeSetBegin elemType (zlen values);;
      forEach writeValue values;; writeSetEnd
  | VMap keyType valueType entries =>
      writeMapBegin keyType valueType (zlen entries);;
      forEach (fun '(k, v) => writeValue k;; writeValue v) entries;; writeMapEnd
  end.

Definition writeStruct (fields : list (Z * ThriftValue)) : ST PW unit :=
  writeValue (VStruct fields).

Fixpoint readValue (fuel : nat) (type : Z) : ST PR ThriftValue :=
  match fuel with
  | O => throw Diverges
  | S fuel =>
      if type =? TType.BOOL then v ← readBool; mret (VBool v)
      else if type =? TType.BYTE then v ← readByte; mret (VByte v)
      else if type =? TType.I16 then v ← readI16; mret (VI16 v)
      else if type =? TType.I32 then v ← readI32; mret (VI32 v)
      else if type =? TType.I64 then v ← readI64; mret (VI64 v)
      else if type =? TType.DOUBLE then v ← readDouble; mret (VDouble v)
      else if type =? TType.STRING then v ← ThriftProtocol.readString; mret (VString v)
      else if type =? TType.STRUCT then
        readStructBegin;;
        fields ← readFields fuel [];
        readStructEnd;; mret (VStruct fields)
      else if type =? TType.LIST then
        h ← readListBegin;
        values ← readValues fuel (list_elemType h) (list_size h);
        readListEnd;; mret (VList (list_elemType h) values)
      else if type =? TType.SET then
        h ← readSetBegin;
        values ← readValues fuel (list_elemType h) (list_size h);
        readSetEnd;; mret (VSet (list_elemType h) values)
      else if type =? TType.MAP then
        h ← readMapBegin;
        entries ← readEntries fuel (map_keyType h) (map_valueType h) (map_size h);
        readMapEnd;; mret (VMap (map_keyType h) (map_valueType h) entries)
      else throw (TypeError "thrift: cannot read value of type")
  end
with readValues (fuel : nat) (elemType n : Z) : ST PR (list ThriftValue) :=
  match fuel with
  | O => throw Diverges
  | S fuel =>
      if 0 <? n then
        v ← readValue fuel elemType;
        vs ← readValues fuel elemType (n - 1);
        mret (v :: vs)
      else mret []
  end
with readEntries (fuel : nat) (keyType valueType n : Z)
  : ST PR (list (ThriftValue * ThriftValue)) :=
  match fuel with
  | O => throw Diverges
  | S fuel =>
      if 0 <? n then
        k ← readValue fuel keyType;
        v ← readValue fuel valueType;
        rest ← readEntries fuel keyType valueType (n - 1);
        mret ((k, v) :: rest)
      else mret []
  end
with readFields (fuel : nat) (fields : list (Z * ThriftValue))
  : ST PR (list (Z * ThriftValue)) :=
  match fuel with
  | O => throw Diverges
  | S fuel =>
      field ← readFieldBegin;
      if fh_type field =? TType.STOP then mret fields
      else
        v ← readValue fuel (fh_type field);
        readFieldEnd;; readFields fuel (JMap.set (fh_id field) v fields)
  end.

Definition readStruct (fuel : nat) : ST PR (list (Z * ThriftValue)) :=
  readStructBegin;; fields ← readFields fuel []; readStructEnd;; mret fields.

Fixpoint skip (fuel : nat) (type : Z) : ST PR unit :=
  match fuel with
  | O => throw Diverges
  | S fuel =>
      if type =? TType.BOOL then readBool;; mret tt
      else if type =? TType.BYTE then readByte;; mret tt
      else if type =? TType.I16 then readI16;; mret tt
      else if type =? TType.I32 then readI32;; mret tt
      else if type =? TType.I64 then readI64;; mret tt
      else if type =? TType.DOUBLE then readDouble;; mret tt
      else if type =? TType.STRING then readBinary;; mret tt
      else if type =? TType.STRUCT then
        readStructBegin;; skipFields fuel;; readStructEnd
      else if type =? TType.MAP then
        h ← readMapBegin;
        skipEntries fuel (map_keyType h) (map_valueType h) (map_size h);; readMapEnd
      else if type =? TType.SET then
        h ← readSetBegin; skipValues fuel (list_elemType h) (list_size h);; readSetEnd
      else if type =? TType.LIST then
        h ← readListBegin; skipValues fuel (list_elemType h) (list_size h);; readListEnd
      else throw (TypeError "thrift: cannot skip type")
  end
with skipValues (fuel : nat) (elemType n : Z) : ST PR unit :=
  match fuel with
  | O => throw Diverges
  | S fuel =>
      if 0 <? n then skip fuel elemType;; skipValues fuel elemType (n - 1) else mret tt
  end
with skipEntries (fuel : nat) (keyType valueType n : Z) : ST PR unit :=
  match fuel with
  | O => throw Diverges
  | S fuel =>
      if 0 <? n then
        skip fuel keyType;; skip fuel valueType;; skipEntries fuel keyType valueType (n - 1)
      else mret tt
  end
with skipFields (fuel : nat) : ST PR unit :=
  match fuel with
  | O => throw Diverges
  | S fuel =>
      field ← readFieldBegin;
      if fh_type field =? TType.STOP then mret tt
      else skip fuel (fh_type field);; readFieldEnd;; skipFields fuel
  end.
End value.

(** ** Well-formed values and their size *)

(** Induction through the containers. *)
Section value_ind.
Variable Q : ThriftValue -> Prop.
Hypothesis Hbool : forall b, Q (VBool b).
Hypothesis Hbyte : forall x, Q (VByte x).
Hypothesis Hi16 : forall x, Q (VI16 x).
Hypothesis Hi32 : forall x, Q (VI32 x).
Hypothesis Hi64 : forall x, Q (VI64 x).
Hypothesis Hdouble : forall x, Q (VDouble x).
Hypothesis Hstring : forall s, Q (VString s).
Hypothesis Hstruct : forall fs, Forall (fun f => Q f.2) fs -> Q (VStruct fs).
Hypothesis Hlist : forall ty vs, Forall Q vs -> Q (VList ty vs).
Hypothesis Hset : forall ty vs, Forall Q vs -> Q (VSet ty vs).
Hypothesis Hmap : forall kt vt es, Forall (fun e => Q e.1 /\ Q e.2) es -> Q (VMap kt vt es).

Fixpoint value_ind (v : ThriftValue) : Q v :=
  match v with
  | VBool b => Hbool b | VByte x => Hbyte x | VI16 x => Hi16 x | VI32 x => Hi32 x
  | VI64 x => Hi64 x | VDouble x => Hdouble x | VString s => Hstring s
  | VStruct fs => Hstruct fs ((fix go fs := match fs return Forall (fun f => Q f.2) fs with
      | [] => Forall_nil_2 _
      | (id, v) :: fs => Forall_cons_2 (fun f => Q f.2) (id, v) fs (value_ind v) (go fs) end) fs)
  | VList ty vs => Hlist ty vs ((fix go vs := match vs return Forall Q vs with
      | [] => Forall_nil_2 _ | v :: vs => Forall_cons_2 _ _ _ (value_ind v) (go vs) end) vs)
  | VSet ty vs => Hset ty vs ((fix go vs := match vs return Forall Q vs with
      | [] => Forall_nil_2 _ | v :: vs => Forall_cons_2 _ _ _ (value_ind v) (go vs) end) vs)
  | VMap kt vt es => Hmap kt vt es ((fix go es :=
      match es return Forall (fun e => Q e.1 /\ Q e.2) es with
      | [] => Forall_nil_2 _
      | (k, v) :: es => Forall_cons_2 (fun e => Q e.1 /\ Q e.2) (k, v) es
                          (conj (value_ind k) (value_ind v)) (go es) end) es)
  end.
End value_ind.

(** Fuel that is enough to read or skip the value. *)
Fixpoint value_fuel (v : ThriftValue) : nat :=
  match v with
  | VStruct fs => S (foldr (fun f n => S (value_fuel f.2 + n)) 1%nat fs)
  | VList _ vs | VSet _ vs => S (foldr (fun v n => S (value_fuel v + n)) 1%nat vs)
  | VMap _ _ es => S (foldr (fun e n => S (value_fuel e.1 + value_fuel e.2 + n)) 1%nat es)
  | _ => 1%nat
  end.

(** Numbers in the range of their type, containers with elements of the
    declared type and fewer than 2^31 of them, field ids 16-bit and distinct
    (they are the keys of a Map), strings as in [plain_string]. *)
Fixpoint wf (v : ThriftValue) : Prop :=
  match v with
  | VBool _ => True
  | VByte x => is_int 8 x
  | VI16 x => is_int 16 x
  | VI32 x => is_int 32 x
  | VI64 x => is_int 64 x
  | VDouble x => 0 <= x < 2 ^ 64
  | VString s => plain_string s /\ zlen (encodeUtf8 s) < 2 ^ 31
  | VStruct fs =>
      NoDup (fs.*1) /\ foldr (fun f Q => is_int 16 f.1 /\ wf f.2 /\ Q) True fs
  | VList ty vs | VSet ty vs =>
      value_type ty /\ zlen vs < 2 ^ 31 /\
      foldr (fun v Q => (type_of v = ty /\ wf v) /\ Q) True vs
  | VMap kt vt es =>
      value_type kt /\ value_type vt /\ zlen es < 2 ^ 31 /\
      foldr (fun e Q => (type_of e.1 = kt /\ wf e.1) /\ (type_of e.2 = vt /\ wf e.2) /\ Q) True es
  end.

Section roundtrip.
Context {P : Protocol} {F : Framing P} {L : ProtocolLaws P F}.

(** What the reader returns: the value, except that a protocol may not
    carry the key and value types of an empty map. *)
Fixpoint canon (v : ThriftValue) : ThriftValue :=
  match v with
  | VStruct fs => VStruct (map (fun f => (f.1, canon f.2)) fs)
  | VList ty vs => VList ty (map canon vs)
  | VSet ty vs => VSet ty (map canon vs)
  | VMap kt vt es =>
      let tys := if zlen es =? 0 then empty_map_types kt vt else (kt, vt) in
      VMap tys.1 tys.2 (map (fun e => (canon e.1, canon e.2)) es)
  | _ => v
  end.

Definition value_codec (v : ThriftValue) : Prop :=
  forall c fuel, (value_fuel v <= fuel)%nat ->
  codec c (writeValue v) (readValue fuel (type_of v)) (canon v)
    (skip fuel (type_of v)) tt c.

Lemma values_codec ty vs c fuel :
  Forall (fun v => type_of v = ty /\ value_codec v) vs ->
  (foldr (fun v n => S (value_fuel v + n)) 1 vs <= fuel)%nat ->
  codec c (forEach writeValue vs) (readValues fuel ty (zlen vs)) (map canon vs)
    (skipValues fuel ty (zlen vs)) tt c.
Proof.
  intros Hvs. revert fuel. induction Hvs as [|v vs [<- Hv] Hvs IH]; intros fuel Hf;
    (destruct fuel as [|fuel]; [simpl in Hf; lia|]); cbn [forEach readValues skipValues map].
  - change (0 <? zlen (@nil ThriftValue)) with false. apply codec_ret.
  - simpl in Hf. rewrite zlen_cons. pose proof (zlen_nonneg vs).
    replace (0 <? 1 + zlen vs) with true by lia.
    replace (1 + zlen vs - 1) with (zlen vs) by lia.
    eapply codec_seq; [apply Hv; lia|]. eapply codec_mapl; [apply IH; lia|done].
Qed.

Lemma entries_codec kt vt es c fuel :
  Forall (fun e => (type_of e.1 = kt /\ value_codec e.1)
                   /\ (type_of e.2 = vt /\ value_codec e.2)) es ->
  (foldr (fun e n => S (value_fuel e.1 + value_fuel e.2 + n)) 1 es <= fuel)%nat ->
  codec c (forEach (fun '(k, v) => writeValue k;; writeValue v) es)
    (readEntries fuel kt vt (zlen es)) (map (fun e => (canon e.1, canon e.2)) es)
    (skipEntries fuel kt vt (zlen es)) tt c.
Proof.
  intros Hes. revert fuel. induction Hes as [|[k v] es [[<- Hk] [<- Hv]] Hes IH];
    intros fuel Hf; (destruct fuel as [|fuel]; [simpl in Hf; lia|]);
    cbn [forEach readEntries skipEntries map].
  - change (0 <? zlen (@nil (ThriftValue * ThriftValue))) with false. apply codec_ret.
  - simpl in Hf. rewrite zlen_cons. pose proof (zlen_nonneg es).
    replace (0 <? 1 + zlen es) with true by lia.
    replace (1 + zlen es - 1) with (zlen es) by lia.
    apply codec_assoc.
    eapply codec_seq; [apply Hk; simpl; lia|].
    eapply codec_seq; [apply Hv; simpl; lia|].
    eapply codec_mapl; [apply IH; lia|done].
Qed.

(** ** Struct fields *)

Definition read_field (fuel : nat) : ST PR (FieldHeader * ThriftValue) :=
  f ← readFieldBegin; v ← readValue fuel (fh_type f); readFieldEnd;; mret (f, v).
Definition skip_field (fuel : nat) : ST PR FieldHeader :=
  f ← readFieldBegin; skip fuel (fh_type f);; readFieldEnd;; mret f.

Lemma value_type_of v : value_type (type_of v).
Proof. unfold value_type. destruct v; simpl; tauto. Qed.

Lemma type_not_stop v : (type_of v =? TType.STOP) = false.
Proof. by destruct v. Qed.

Lemma other_field_codec id v c fuel :
  type_of v <> TType.BOOL -> value_codec v -> is_int 16 id -> (value_fuel v <= fuel)%nat ->
  let h := {| fh_name := []; fh_type := type_of v; fh_id := id |} in
  codec c (writeFieldBegin [] (type_of v) id;; writeValue v;; writeFieldEnd)
    (read_field fuel) (h, canon v) (skip_field fuel) h (after_field id c).
Proof.
  intros Hnb Hv Hid Hf h. unfold read_field, skip_field.
  eapply codec_seq; [by apply law_field_begin; [apply value_type_of|..]|].
  eapply codec_seq; [by apply Hv|]. eapply codec_map; [apply law_field_end|done|done].
Qed.

(** A boolean field: header and value are one unit on the wire. *)
Lemma bool_field_codec id b c fuel :
  is_int 16 id -> (1 <= fuel)%nat ->
  let h := {| fh_name := []; fh_type := TType.BOOL; fh_id := id |} in
  codec c (writeFieldBegin [] TType.BOOL id;; writeBool b;; writeFieldEnd)
    (read_field fuel) (h, VBool b) (skip_field fuel) h (after_field id c).
Proof.
  intros Hid Hf h. destruct fuel as [|fuel]; [lia|].
  destruct (law_field_bool c id b Hid) as (bs & He & Ha & _).
  destruct (law_field_end (after_field id c)) as (bse & Hee & Hae & _).
  exists (bs ++ bse).
  assert (forall A (k : FieldHeader * bool -> ST PR A) (rd : ST PR A) x,
    accepts (after_field id c) (k (h, b)) bse x (after_field id c) ->
    (forall r r1 r2, readFieldBegin r = Ok (h, r1) -> readBool r1 = Ok (b, r2) ->
       rd r = k (h, b) r2) ->
    accepts c rd (bs ++ bse) x (after_field id c)) as Hrd.
  { intros A k rd x Hk Hrd r tail Hr Hc E. rewrite <- app_assoc in E.
    destruct (Ha r _ Hr Hc E) as (r2 & E2 & Hr2 & Hc2 & Ho2).
    destruct (Hk r2 _ Hr2 Hc2 Ho2) as (r' & E' & ?). exists r'. split; [|done].
    apply ST_bind_inv in E2 as (h' & r1 & Eh & E2).
    apply ST_bind_inv in E2 as (v' & r1' & Ev & E2). injection E2 as -> -> ->.
    by rewrite (Hrd r r1 r2). }
  split; [|split].
  - intros w Hw Hc. destruct (emits_bind _ _ _ _ (fun _ => writeFieldEnd) _ _ _ _ He Hee w Hw Hc)
      as (w' & Ew & ?). exists w'. by rewrite <- ST_bind_assoc.
  - apply (Hrd _ (fun hv => readFieldEnd;; mret (hv.1, VBool hv.2))).
    + rewrite <- (app_nil_r bse). eapply accepts_bind; [exact Hae|apply accepts_ret].
    + intros r r1 r2 Eh Eb. unfold read_field. rewrite (ST_bind_ok _ _ _ _ _ Eh).
      cbn [readValue fh_type h]. change (TType.BOOL =? TType.BOOL) with true. cbv iota.
      by rewrite ST_bind_assoc, (ST_bind_ok _ _ _ _ _ Eb).
  - apply (Hrd _ (fun hv => readFieldEnd;; mret hv.1)).
    + rewrite <- (app_nil_r bse). eapply accepts_bind; [exact Hae|apply accepts_ret].
    + intros r r1 r2 Eh Eb. unfold skip_field. rewrite (ST_bind_ok _ _ _ _ _ Eh).
      cbn [skip fh_type h]. change (TType.BOOL =? TType.BOOL) with true. cbv iota.
      by rewrite ST_bind_assoc, (ST_bind_ok _ _ _ _ _ Eb).
Qed.

Lemma field_codec id v c fuel :
  value_codec v -> is_int 16 id -> (value_fuel v <= fuel)%nat ->
  let h := {| fh_name := []; fh_type := type_of v; fh_id := id |} in
  codec c (writeFieldBegin [] (type_of v) id;; writeValue v;; writeFieldEnd)
    (read_field fuel) (h, canon v) (skip_field fuel) h (after_field id c).
Proof.
  destruct (decide (type_of v = TType.BOOL)) as [Hb|Hb].
  - destruct v; try discriminate. intros _ Hid Hf. by apply bool_field_codec.
  - intros. by apply other_field_codec.
Qed.

(** The loops run one field after another. *)
Lemma readFields_step fuel acc c c1 c2 h v bs1 bs2 x :
  (fh_type h =? TType.STOP) = false ->
  accepts c (read_field fuel) bs1 (h, v) c1 ->
  accepts c1 (readFields fuel (JMap.set (fh_id h) v acc)) bs2 x c2 ->
  accepts c (readFields (S fuel) acc) (bs1 ++ bs2) x c2.
Proof.
  intros Hst H1 H2 r tail Hr Hc E. rewrite <- app_assoc in E.
  destruct (H1 r _ Hr Hc E) as (r1 & E1 & Hr1 & Hc1 & Ho1).
  destruct (H2 r1 _ Hr1 Hc1 Ho1) as (r2 & E2 & ?). exists r2. split; [|done].
  apply ST_bind_inv in E1 as (f & r' & Ef & E1).
  apply ST_bind_inv in E1 as (v' & r'' & Ev & E1).
  apply ST_bind_inv in E1 as ([] & r3 & Ee & E1). injection E1 as -> -> ->.
  cbn [readFields]. rewrite (ST_bind_ok _ _ _ _ _ Ef), Hst.
  by rewrite (ST_bind_ok _ _ _ _ _ Ev), (ST_bind_ok _ _ _ _ _ Ee).
Qed.

Lemma skipFields_step fuel c c1 c2 h bs1 bs2 :
  (fh_type h =? TType.STOP) = false ->
  accepts c (skip_field fuel) bs1 h c1 ->
  accepts c1 (skipFields fuel) bs2 tt c2 ->
  accepts c (skipFields (S fuel)) (bs1 ++ bs2) tt c2.
Proof.
  intros Hst H1 H2 r tail Hr Hc E. rewrite <- app_assoc in E.
  destruct (H1 r _ Hr Hc E) as (r1 & E1 & Hr1 & Hc1 & Ho1).
  destruct (H2 r1 _ Hr1 Hc1 Ho1) as (r2 & E2 & ?). exists r2. split; [|done].
  apply ST_bind_inv in E1 as (f & r' & Ef & E1).
  apply ST_bind_inv in E1 as ([] & r'' & Ev & E1).
  apply ST_bind_inv in E1 as ([] & r3 & Ee & E1). injection E1 as -> ->.
  cbn [skipFields]. rewrite (ST_bind_ok _ _ _ _ _ Ef), Hst.
  by rewrite (ST_bind_ok _ _ _ _ _ Ev), (ST_bind_ok _ _ _ _ _ Ee).
Qed.

Definition writeField : Z * ThriftValue -> ST PW unit :=
  fun '(id, v) => writeFieldBegin [] (type_of v) id;; writeValue v;; writeFieldEnd.

Lemma fields_codec fs c fuel acc :
  Forall (fun f => is_int 16 f.1 /\ value_codec f.2) fs ->
  NoDup (acc.*1 ++ fs.*1) ->
  (foldr (fun f n => S (value_fuel f.2 + n)) 1 fs <= fuel)%nat ->
  exists c', leave c' = leave c /\
  codec c (forEach writeField fs;; writeFieldStop)
    (readFields fuel acc) (acc ++ map (fun f => (f.1, canon f.2)) fs)
    (skipFields fuel) tt c'.
Proof.
  intros Hfs. revert c fuel acc. induction Hfs as [|[id v] fs [Hid Hv] Hfs IH];
    intros c fuel acc Hnd Hf; (destruct fuel as [|fuel]; [simpl in Hf; lia|]).
  - exists c. split; [done|]. cbn [forEach readFields skipFields map]. rewrite app_nil_r.
    destruct (law_field_stop c) as (bs & He & Ha & _). exists bs. split; [exact He|].
    rewrite <- (app_nil_r bs).
    split; (eapply accepts_bind; [exact Ha|apply accepts_ret]).
  - simpl in Hid, Hv, Hf. rewrite fmap_cons in Hnd. cbn [fst] in Hnd.
    assert (id ∉ acc.*1) as Hni.
    { intros Hin. apply NoDup_app in Hnd as (_ & Hd & _). apply (Hd id Hin). left. }
    destruct (IH (after_field id c) fuel (acc ++ [(id, canon v)])) as (c' & Hl & bs2 & He2 & Ha2 & Hs2).
    { rewrite fmap_app, <- app_assoc. exact Hnd. } { lia. }
    exists c'. rewrite Hl, leave_after_field. split; [done|].
    destruct (field_codec id v c fuel Hv Hid ltac:(lia)) as (bs1 & He1 & Ha1 & Hs1).
    exists (bs1 ++ bs2). split; [|split].
    + intros w Hw Hc. cbn [forEach]. rewrite ST_bind_assoc.
      apply (emits_bind _ _ _ _ (fun _ => forEach writeField fs;; writeFieldStop)
               _ _ _ _ He1 He2 w Hw Hc).
    + eapply readFields_step; [|exact Ha1|]; [apply type_not_stop|]. cbn [fh_id].
      rewrite JMap.set_fresh by done. cbn [map fst snd]. rewrite <- app_assoc in Ha2. exact Ha2.
    + eapply skipFields_step; [|exact Hs1|exact Hs2]. apply type_not_stop.
Qed.

(** ** Whole values *)

Lemma wf_values ty vs :
  foldr (fun v Q => (type_of v = ty /\ wf v) /\ Q) True vs ->
  Forall (fun v => wf v -> value_codec v) vs ->
  Forall (fun v => type_of v = ty /\ value_codec v) vs.
Proof.
  induction vs as [|v vs IH]; simpl; intros Hw Hi; [constructor|].
  apply Forall_cons in Hi as [Hv Hi]. destruct Hw as [[? ?] Hw].
  constructor; [split; auto|auto].
Qed.

Lemma struct_codec fs c fuel :
  Forall (fun f => is_int 16 f.1 /\ value_codec f.2) fs -> NoDup (fs.*1) ->
  (foldr (fun f n => S (value_fuel f.2 + n)) 1 fs <= fuel)%nat ->
  codec (enter c) (forEach writeField fs;; writeFieldStop;; writeStructEnd)
    (fields ← readFields fuel []; readStructEnd;; mret (VStruct fields))
    (VStruct (map (fun f => (f.1, canon f.2)) fs)) (skipFields fuel;; readStructEnd) tt c.
Proof.
  intros Hfs Hnd Hf.
  destruct (fields_codec fs (enter c) fuel [] Hfs Hnd Hf) as (c' & Hl & bs & He & Ha & Hs).
  destruct (law_struct_end c') as (bse & Hee & Hae & Hse). rewrite Hl, leave_enter in *.
  exists (bs ++ bse). split; [|split].
  - intros w Hw Hc. rewrite <- ST_bind_assoc.
    eapply (emits_bind _ _ _ _ (fun _ => writeStructEnd)); [exact He|exact Hee|done|done].
  - eapply accepts_bind; [exact Ha|]. rewrite <- (app_nil_r bse).
    eapply accepts_bind; [exact Hae|apply accepts_ret].
  - eapply accepts_bind; [exact Hs|exact Hse].
Qed.

Lemma wf_entries tys es kt vt :
  foldr (fun e Q => (type_of e.1 = kt /\ wf e.1) /\ (type_of e.2 = vt /\ wf e.2) /\ Q)
    True es ->
  Forall (fun e => (wf e.1 -> value_codec e.1) /\ (wf e.2 -> value_codec e.2)) es ->
  (es <> [] -> tys = (kt, vt)) ->
  Forall (fun e => (type_of e.1 = tys.1 /\ value_codec e.1)
                   /\ (type_of e.2 = tys.2 /\ value_codec e.2)) es.
Proof.
  induction es as [|e es IH]; intros Hw Hi Ht; [constructor|]. rewrite Ht in * by done.
  apply Forall_cons in Hi as [[Hk Hv] Hi]. destruct Hw as ((? & ?) & (? & ?) & Hw).
  constructor; [simpl; split; split; auto|]. apply IH; auto.
Qed.

Lemma value_codec_wf v : wf v -> value_codec v.
Proof.
  induction v as [b|x|x|x|x|x|s|fs IH|ty vs IH|ty vs IH|kt vt es IH] using value_ind;
    intros Hw c fuel Hf; (destruct fuel as [|fuel]; [simpl in Hf; lia|]); simpl in Hw.
  - eapply codec_map; [apply law_bool|done|done].
  - eapply codec_map; [by apply law_byte|done|done].
  - eapply codec_map; [by apply law_i16|done|done].
  - eapply codec_map; [by apply law_i32|done|done].
  - eapply codec_map; [by apply law_i64|done|done].
  - eapply codec_map; [by apply law_double|done|done].
  - eapply codec_map; [by apply law_string; destruct Hw|done|done].
  - destruct Hw as [Hnd Hw].
    assert (Forall (fun f => is_int 16 f.1 /\ value_codec f.2) fs) as Hfs.
    { clear Hnd Hf. induction fs as [|f fs IHfs]; [constructor|].
      apply Forall_cons in IH as [Hv IH]. destruct Hw as (? & ? & Hw).
      constructor; [split; auto|auto]. }
    cbn [writeValue readValue skip canon type_of].
    eapply codec_seq; [apply law_struct_begin|].
    apply struct_codec; [done|done|simpl in Hf; lia].
  - destruct Hw as (Hty & Hn & Hw). pose proof (zlen_nonneg vs).
    cbn [writeValue readValue skip canon type_of].
    eapply codec_seq; [by apply law_list_begin|]. cbn [list_elemType list_size].
    eapply codec_seq; [apply values_codec; [by apply wf_values|simpl in Hf; lia]|].
    eapply codec_mapl; [apply law_list_end|done].
  - destruct Hw as (Hty & Hn & Hw). pose proof (zlen_nonneg vs).
    cbn [writeValue readValue skip canon type_of].
    eapply codec_seq; [by apply law_set_begin|]. cbn [list_elemType list_size].
    eapply codec_seq; [apply values_codec; [by apply wf_values|simpl in Hf; lia]|].
    eapply codec_mapl; [apply law_set_end|done].
  - destruct Hw as (Hkt & Hvt & Hn & Hw). pose proof (zlen_nonneg es).
    cbn [writeValue readValue skip canon type_of].
    eapply codec_seq; [by apply law_map_begin|]. cbn [map_keyType map_valueType map_size].
    eapply codec_seq.
    + apply entries_codec; [eapply wf_entries; [exact Hw|exact IH|]|simpl in Hf; lia].
      intros Hne. destruct (Z.eqb_spec (zlen es) 0) as [E|E]; [|done].
      destruct es; [done|]. rewrite zlen_cons in E. pose proof (zlen_nonneg es). lia.
    + eapply codec_mapl; [apply law_map_end|done].
Qed.
End roundtrip.

(** ** Reading and skipping end on every input *)

Section terminates.
Context {P : Protocol} {C : Consuming P} {L : ConsumingLaws P C}.

(** [within n rd]: from an input of weight at most [n], [rd] returns with no
    more weight left, or throws an error of the code. *)
Definition within {A} (n k : nat) (rd : ST PR A) : Prop :=
  forall r, r_wf r -> (weight r <= n)%nat ->
  match rd r with
  | Ok (_, r') => r_wf r' /\ (weight r' + k <= weight r)%nat
  | Throw e => e <> Diverges
  end.

Lemma consumes_within {A} n k (rd : ST PR A) : consumes k rd -> within n k rd.
Proof. intros H r Hr _. by apply H. Qed.

Lemma within_ret {A} n (a : A) : within n 0 (mret a).
Proof. intros r Hr Hn. simpl. split; [done|lia]. Qed.

Lemma within_throw {A} n k e : e <> Diverges -> within (A := A) n k (throw e).
Proof. by intros He r Hr Hn. Qed.

Lemma within_weaken {A} n k k' (rd : ST PR A) : (k' <= k)%nat -> within n k rd -> within n k' rd.
Proof.
  intros Hk H r Hr Hn. specialize (H r Hr Hn). destruct (rd r) as [[a r']|]; [|done].
  destruct H. split; [done|lia].
Qed.

Lemma within_bind {A B} n k1 k2 (m : ST PR A) (f : A -> ST PR B) :
  within n k1 m -> ((k1 <= n)%nat -> forall a, within (n - k1) k2 (f a)) ->
  within n (k1 + k2) (m ≫= f).
Proof.
  intros Hm Hf r Hr Hn. unfold mbind, ST_bind. specialize (Hm r Hr Hn).
  destruct (m r) as [[a r1]|e]; [|done]. destruct Hm as (Hr1 & Hw1).
  specialize (Hf ltac:(lia) a r1 Hr1 ltac:(lia)). destruct (f a r1) as [[b r2]|e]; [|done].
  destruct Hf as (Hr2 & Hw2). split; [done|lia].
Qed.

(** The weight spent by the first step is what is claimed of the whole. *)
Lemma within_head {A B} n k (m : ST PR A) (f : A -> ST PR B) :
  within n k m -> ((k <= n)%nat -> forall a, within (n - k) 0 (f a)) -> within n k (m ≫= f).
Proof.
  intros. replace k with (k + 0)%nat at 1 by lia. by apply within_bind.
Qed.

Lemma within_loop {A B} n (m : ST PR A) (f : A -> ST PR B) :
  within n 1 m -> ((1 <= n)%nat -> forall a, within (n - 1) 0 (f a)) -> within n 0 (m ≫= f).
Proof. intros. apply (within_weaken _ 1); [lia|]. by apply within_head. Qed.

Lemma within_prim {A B} n k (rd : ST PR A) (f : A -> B) :
  consumes k rd -> within n k (v ← rd; mret (f v)).
Proof.
  intros Hrd. apply within_head; [by apply consumes_within|]. intros _ a. apply within_ret.
Qed.

Ltac prim_read :=
  first [apply c_bool|apply c_byte|apply c_i16|apply c_i32|apply c_i64|apply c_double
        |apply c_string|apply c_binary|apply c_struct_begin|apply c_struct_end
        |apply c_field_begin|apply c_field_end|apply c_list_begin|apply c_list_end
        |apply c_set_begin|apply c_set_end|apply c_map_begin|apply c_map_end].
Ltac head_read := apply within_head; [apply consumes_within; prim_read|intros].
(** A read that consumes nothing, then the rest. *)
Ltac free_read := apply (within_bind _ 0 1); [apply consumes_within; prim_read|intros].
Ltac tail_read := first [by apply within_prim; prim_read|by apply consumes_within; prim_read].

Lemma read_within fuel :
  (forall n ty, (3 * n + 2 <= fuel)%nat -> within n 1 (readValue fuel ty)) /\
  (forall n ty m, (3 * n + 3 <= fuel)%nat -> within n 0 (readValues fuel ty m)) /\
  (forall n kt vt m, (3 * n + 3 <= fuel)%nat -> within n 0 (readEntries fuel kt vt m)) /\
  (forall n fs, (3 * n + 1 <= fuel)%nat -> within n 1 (readFields fuel fs)).
Proof.
  induction fuel as [|fuel (IHv & IHl & IHe & IHf)];
    [split; [|split; [|split]]; intros; lia|].
  split; [|split; [|split]]; intros n.
  - intros ty Hf. cbn [readValue].
    repeat match goal with |- context [if ?b then _ else _] => destruct b end;
      try (apply within_prim; prim_read); try (by apply within_throw).
    + free_read. apply within_head; [apply IHf; lia|]. intros. tail_read.
    + head_read. apply within_head; [apply IHl; lia|]. intros. tail_read.
    + head_read. apply within_head; [apply IHl; lia|]. intros. tail_read.
    + head_read. apply within_head; [apply IHe; lia|]. intros. tail_read.
  - intros ty m Hf. cbn [readValues]. destruct (0 <? m); [|apply within_ret].
    apply within_loop; [apply IHv; lia|]. intros.
    apply within_head; [apply IHl; lia|]. intros. apply within_ret.
  - intros kt vt m Hf. cbn [readEntries]. destruct (0 <? m); [|apply within_ret].
    apply within_loop; [apply IHv; lia|]. intros.
    apply within_loop; [apply IHv; lia|]. intros.
    apply within_head; [apply IHe; lia|]. intros. apply within_ret.
  - intros fs Hf. cbn [readFields]. head_read.
    destruct (fh_type a =? TType.STOP); [apply within_ret|].
    apply within_loop; [apply IHv; lia|]. intros.
    apply within_head; [apply consumes_within; prim_read|]. intros.
    apply (within_weaken _ 1); [lia|]. apply IHf. lia.
Qed.

Lemma skip_within fuel :
  (forall n ty, (3 * n + 2 <= fuel)%nat -> within n 1 (skip fuel ty)) /\
  (forall n ty m, (3 * n + 3 <= fuel)%nat -> within n 0 (skipValues fuel ty m)) /\
  (forall n kt vt m, (3 * n + 3 <= fuel)%nat -> within n 0 (skipEntries fuel kt vt m)) /\
  (forall n, (3 * n + 1 <= fuel)%nat -> within n 1 (skipFields fuel)).
Proof.
  induction fuel as [|fuel (IHv & IHl & IHe & IHf)];
    [split; [|split; [|split]]; intros; lia|].
  split; [|split; [|split]]; intros n.
  - intros ty Hf. cbn [skip].
    repeat match goal with |- context [if ?b then _ else _] => destruct b end;
      try (apply within_prim; prim_read); try (by apply within_throw).
    + free_read. apply within_head; [apply IHf; lia|]. intros. tail_read.
    + head_read. apply within_head; [apply IHe; lia|]. intros. tail_read.
    + head_read. apply within_head; [apply IHl; lia|]. intros. tail_read.
    + head_read. apply within_head; [apply IHl; lia|]. intros. tail_read.
  - intros ty m Hf. cbn [skipValues]. destruct (0 <? m); [|apply within_ret].
    apply within_loop; [apply IHv; lia|]. intros. apply IHl. lia.
  - intros kt vt m Hf. cbn [skipEntries]. destruct (0 <? m); [|apply within_ret].
    apply within_loop; [apply IHv; lia|]. intros.
    apply within_loop; [apply IHv; lia|]. intros. apply IHe. lia.
  - intros Hf. cbn [skipFields]. head_read.
    destruct (fh_type a =? TType.STOP); [apply within_ret|].
    apply within_loop; [apply IHv; lia|]. intros.
    apply within_head; [apply consumes_within; prim_read|]. intros.
    apply (within_weaken _ 1); [lia|]. apply IHf. lia.
Qed.
End terminates.
End ThriftValue.
