(* ===== verification/ThriftCompact.v ===== *)
(** The Thrift compact protocol (src/js/internal/format/thrift/compact.ts) as
    an instance of the [Protocol] interface, with the laws it owes to its
    clients and the round trip of whole values through it. *)

From S2P Require Import Prelude Utf8 ThriftIO ThriftProtocol ThriftValue.

Module ThriftCompact.
Import Utf8 ThriftIO ThriftProtocol ThriftValue.

Definition PROTOCOL_ID := 130.
Definition VERSION := 1.
Definition VERSION_MASK := 31.
Definition TYPE_SHIFT := 5.
Definition TYPE_BITS := 7.

(** ** Writer side *)

Record CompactWriter := {
  cw_out : writer;
  cw_lastFieldId : Z;
  cw_fieldIdStack : list Z;
  cw_pendingBoolId : option Z;
}.
Definition new_writer : CompactWriter :=
  {| cw_out := []; cw_lastFieldId := 0; cw_fieldIdStack := []; cw_pendingBoolId := None |}.

Definition on_writer {A} (m : ST writer A) : ST CompactWriter A := fun w =>
  '(a, out) ← m (cw_out w);
  Ok (a, {| cw_out := out; cw_lastFieldId := cw_lastFieldId w;
            cw_fieldIdStack := cw_fieldIdStack w; cw_pendingBoolId := cw_pendingBoolId w |}).
Definition set_last (id : Z) : ST CompactWriter unit := fun w =>
  Ok (tt, {| cw_out := cw_out w; cw_lastFieldId := id;
             cw_fieldIdStack := cw_fieldIdStack w; cw_pendingBoolId := cw_pendingBoolId w |}).
Definition set_pending (p : option Z) : ST CompactWriter unit := fun w =>
  Ok (tt, {| cw_out := cw_out w; cw_lastFieldId := cw_lastFieldId w;
             cw_fieldIdStack := cw_fieldIdStack w; cw_pendingBoolId := p |}).

Definition writeStringValue (value : jsstring) : ST CompactWriter unit :=
  let bytes := TextEncoder_encode value in
  on_writer (writeVarint (zlen bytes));; on_writer (writeBytes bytes).
Definition c_writeMessageBegin (name : jsstring) (type seqid : Z) : ST CompactWriter unit :=
  on_writer (writeU8 PROTOCOL_ID);;
  on_writer (writeU8 ((VERSION &₃₂ VERSION_MASK) |₃₂ ((type <<₃₂ TYPE_SHIFT) &₃₂ 224)));;
  on_writer (writeVarint (seqid >>>₃₂ 0));;
  writeStringValue name.
Definition c_writeStructBegin : ST CompactWriter unit := fun w =>
  Ok (tt, {| cw_out := cw_out w; cw_lastFieldId := 0;
             cw_fieldIdStack := cw_lastFieldId w :: cw_fieldIdStack w;
             cw_pendingBoolId := cw_pendingBoolId w |}).
Definition c_writeStructEnd : ST CompactWriter unit := fun w =>
  Ok (tt, {| cw_out := cw_out w;
             cw_lastFieldId := match cw_fieldIdStack w with id :: _ => id | [] => 0 end;
             cw_fieldIdStack := tail (cw_fieldIdStack w);
             cw_pendingBoolId := cw_pendingBoolId w |}).
Definition writeFieldHeader (id compactType : Z) : ST CompactWriter unit := fun w =>
  let delta := id - cw_lastFieldId w in
  ((if (0 <? delta) && (delta <=? 15)
    then on_writer (writeU8 ((delta <<₃₂ 4) |₃₂ compactType))
    else on_writer (writeU8 compactType);; on_writer (writeZigzag32 id));;
   set_last id) w.
Definition c_writeFieldBegin (name : jsstring) (type id : Z) : ST CompactWriter unit :=
  if type =? TType.BOOL then set_pending (Some id)
  else ct ← liftR (ttypeToCompact type); writeFieldHeader id ct.
Definition c_writeFieldStop : ST CompactWriter unit := on_writer (writeU8 CType.STOP).
Definition c_writeMapBegin (keyType valueType size : Z) : ST CompactWriter unit :=
  if size =? 0 then on_writer (writeU8 0)
  else
    on_writer (writeVarint size);;
    kt ← liftR (ttypeToCompact keyType);
    vt ← liftR (ttypeToCompact valueType);
    on_writer (writeU8 ((kt <<₃₂ 4) |₃₂ vt)).
Definition c_writeListBegin (elemType size : Z) : ST CompactWriter unit :=
  ct ← liftR (ttypeToCompact elemType);
  if size <=? 14 then on_writer (writeU8 ((size <<₃₂ 4) |₃₂ ct))
  else on_writer (writeU8 (240 |₃₂ ct));; on_writer (writeVarint size).
Definition c_writeBool (value : bool) : ST CompactWriter unit := fun w =>
  let ct := if value then CType.BOOLEAN_TRUE else CType.BOOLEAN_FALSE in
  match cw_pendingBoolId w with
  | Some id => (writeFieldHeader id ct;; set_pending None) w
  | None => on_writer (writeU8 ct) w
  end.
Definition c_writeByte (value : Z) : ST CompactWriter unit := on_writer (writeU8 value).
Definition c_writeI16 (value : Z) : ST CompactWriter unit := on_writer (writeZigzag32 value).
Definition c_writeI32 (value : Z) : ST CompactWriter unit := on_writer (writeZigzag32 value).
Definition c_writeI64 (value : Z) : ST CompactWriter unit := on_writer (writeZigzag64 value).
Definition c_writeDouble (value : Z) : ST CompactWriter unit := on_writer (writeF64LE value).
Definition c_writeBinary (value : list Z) : ST CompactWriter unit :=
  on_writer (writeVarint (zlen value));; on_writer (writeBytes value).

(** ** Reader side *)

Record CompactReader := {
  cr_reader : ByteReader;
  cr_lastFieldIdRead : Z;
  cr_fieldIdStackRead : list Z;
  cr_pendingBoolValue : option bool;
}.
Definition new_compact_reader (input : list Z) : CompactReader :=
  {| cr_reader := new_reader input; cr_lastFieldIdRead := 0;
     cr_fieldIdStackRead := []; cr_pendingBoolValue := None |}.

Definition on_reader {A} (m : ST ByteReader A) : ST CompactReader A := fun r =>
  '(a, rd) ← m (cr_reader r);
  Ok (a, {| cr_reader := rd; cr_lastFieldIdRead := cr_lastFieldIdRead r;
            cr_fieldIdStackRead := cr_fieldIdStackRead r;
            cr_pendingBoolValue := cr_pendingBoolValue r |}).
Definition set_last_read (id : Z) : ST CompactReader unit := fun r =>
  Ok (tt, {| cr_reader := cr_reader r; cr_lastFieldIdRead := id;
             cr_fieldIdStackRead := cr_fieldIdStackRead r;
             cr_pendingBoolValue := cr_pendingBoolValue r |}).
Definition set_pending_value (p : option bool) : ST CompactReader unit := fun r =>
  Ok (tt, {| cr_reader := cr_reader r; cr_lastFieldIdRead := cr_lastFieldIdRead r;
             cr_fieldIdStackRead := cr_fieldIdStackRead r; cr_pendingBoolValue := p |}).

Definition readStringValue : ST CompactReader jsstring :=
  size ← on_reader readVarint32; on_reader (ThriftIO.readString size).
Definition c_readMessageBegin : ST CompactReader MessageHeader :=
  protocolId ← on_reader readU8;
  if negb (protocolId =? PROTOCOL_ID) then on_reader (_fail "bad compact protocol id")
  else
    versionAndType ← on_reader readU8;
    let version := versionAndType &₃₂ VERSION_MASK in
    if negb (version =? VERSION) then on_reader (_fail "unsupported compact protocol version")
    else
      let type := (versionAndType >>₃₂ TYPE_SHIFT) &₃₂ TYPE_BITS in
      v ← on_reader readVarint32;
      let seqid := v |₃₂ 0 in
      name ← readStringValue;
      mret {| mh_name := name; mh_type := type; mh_seqid := seqid |}.
Definition c_readStructBegin : ST CompactReader (option jsstring) := fun r =>
  Ok (None, {| cr_reader := cr_reader r; cr_lastFieldIdRead := 0;
               cr_fieldIdStackRead := cr_lastFieldIdRead r :: cr_fieldIdStackRead r;
               cr_pendingBoolValue := cr_pendingBoolValue r |}).
Definition c_readStructEnd : ST CompactReader unit := fun r =>
  Ok (tt, {| cr_reader := cr_reader r;
             cr_lastFieldIdRead := match cr_fieldIdStackRead r with id :: _ => id | [] => 0 end;
             cr_fieldIdStackRead := tail (cr_fieldIdStackRead r);
             cr_pendingBoolValue := cr_pendingBoolValue r |}).
(** The end of [readFieldBegin]: the type, and the value of a boolean. *)
Definition field_header (nibble id : Z) : ST CompactReader FieldHeader :=
  type ← liftR (compactToTtype nibble);
  if nibble =? CType.BOOLEAN_TRUE then
    set_pending_value (Some true);; mret {| fh_name := []; fh_type := TType.BOOL; fh_id := id |}
  else if nibble =? CType.BOOLEAN_FALSE then
    set_pending_value (Some false);; mret {| fh_name := []; fh_type := TType.BOOL; fh_id := id |}
  else mret {| fh_name := []; fh_type := type; fh_id := id |}.
Definition c_readFieldBegin : ST CompactReader FieldHeader :=
  byte ← on_reader readU8;
  let nibble := byte &₃₂ 15 in
  if nibble =? CType.STOP then mret {| fh_name := []; fh_type := TType.STOP; fh_id := 0 |}
  else
    let modifier := (byte &₃₂ 240) >>₃₂ 4 in
    id ← (if modifier =? 0 then on_reader readZigzag32
          else fun r => Ok (cr_lastFieldIdRead r + modifier, r));
    set_last_read id;; field_header nibble id.
Definition c_readMapBegin : ST CompactReader MapHeader :=
  size ← on_reader readVarint32;
  if size =? 0 then
    mret {| map_keyType := TType.STOP; map_valueType := TType.STOP; map_size := 0 |}
  else
    kv ← on_reader readU8;
    kt ← liftR (compactToTtype ((kv >>₃₂ 4) &₃₂ 15));
    vt ← liftR (compactToTtype (kv &₃₂ 15));
    mret {| map_keyType := kt; map_valueType := vt; map_size := size |}.
Definition c_readListBegin : ST CompactReader ListHeader :=
  sizeAndType ← on_reader readU8;
  let size := (sizeAndType >>₃₂ 4) &₃₂ 15 in
  size ← (if size =? 15 then on_reader readVarint32 else mret size);
  ty ← liftR (compactToTtype (sizeAndType &₃₂ 15));
  mret {| list_elemType := ty; list_size := size |}.
Definition c_readBool : ST CompactReader bool := fun r =>
  match cr_pendingBoolValue r with
  | Some v => (set_pending_value None;; mret v) r
  | None => (b ← on_reader readU8; mret (b =? CType.BOOLEAN_TRUE)) r
  end.
Definition c_readByte : ST CompactReader Z := on_reader readI8.
Definition c_readI16 : ST CompactReader Z := on_reader readZigzag32.
Definition c_readI32 : ST CompactReader Z := on_reader readZigzag32.
Definition c_readI64 : ST CompactReader Z := on_reader readZigzag64.
Definition c_readDouble : ST CompactReader Z := on_reader readF64LE.
Definition c_readBinary : ST CompactReader (list Z) :=
  size ← on_reader readVarint32; on_reader (readBytes size).

#[export] Instance CompactProtocol : Protocol := {
  PW := CompactWriter;
  PR := CompactReader;
  writeMessageBegin := c_writeMessageBegin;
  writeMessageEnd := mret tt;
  writeStructBegin := c_writeStructBegin;
  writeStructEnd := c_writeStructEnd;
  writeFieldBegin := c_writeFieldBegin;
  writeFieldEnd := mret tt;
  writeFieldStop := c_writeFieldStop;
  writeMapBegin := c_writeMapBegin;
  writeMapEnd := mret tt;
  writeListBegin := c_writeListBegin;
  writeListEnd := mret tt;
  writeSetBegin := c_writeListBegin;
  writeSetEnd := mret tt;
  writeBool := c_writeBool;
  writeByte := c_writeByte;
  writeI16 := c_writeI16;
  writeI32 := c_writeI32;
  writeI64 := c_writeI64;
  writeDouble := c_writeDouble;
  ThriftProtocol.writeString := writeStringValue;
  writeBinary := c_writeBinary;
  readMessageBegin := c_readMessageBegin;
  readMessageEnd := mret tt;
  readStructBegin := c_readStructBegin;
  readStructEnd := c_readStructEnd;
  readFieldBegin := c_readFieldBegin;
  readFieldEnd := mret tt;
  readMapBegin := c_readMapBegin;
  readMapEnd := mret tt;
  readListBegin := c_readListBegin;
  readListEnd := mret tt;
  readSetBegin := c_readListBegin;
  readSetEnd := mret tt;
  readBool := c_readBool;
  readByte := c_readByte;
  readI16 := c_readI16;
  readI32 := c_readI32;
  readI64 := c_readI64;
  readDouble := c_readDouble;
  ThriftProtocol.readString := readStringValue;
  readBinary := c_readBinary;
  bytes := cw_out;
  position := fun r => Z.of_nat (rd_pos (cr_reader r));
}.

(** ** The context a reader and a writer share: the field-id stack *)

#[export] Instance CompactFraming : Framing CompactProtocol := {
  ctx := Z * list Z;
  w_ok := fun w : CompactWriter => cw_pendingBoolId w = None;
  w_ctx := fun w : CompactWriter => (cw_lastFieldId w, cw_fieldIdStack w);
  r_ok := fun r : CompactReader => cr_pendingBoolValue r = None /\ reader_ok (cr_reader r);
  r_ctx := fun r : CompactReader => (cr_lastFieldIdRead r, cr_fieldIdStackRead r);
  r_rest := fun r : CompactReader => rest (cr_reader r);
}.

(** Sequencing at the types of this protocol. *)
Lemma emits_seq {A B} c c1 c2 (m : ST CompactWriter A) (f : A -> ST CompactWriter B)
  bs1 bs2 a b :
  emits c m bs1 a c1 -> emits c1 (f a) bs2 b c2 -> emits c (m ≫= f) (bs1 ++ bs2) b c2.
Proof. apply (@emits_bind CompactProtocol CompactFraming). Qed.

Lemma accepts_seq {A B} c c1 c2 (m : ST CompactReader A) (f : A -> ST CompactReader B)
  bs1 bs2 a b :
  accepts c m bs1 a c1 -> accepts c1 (f a) bs2 b c2 ->
  accepts c (m ≫= f) (bs1 ++ bs2) b c2.
Proof. apply (@accepts_bind CompactProtocol CompactFraming). Qed.

Lemma accepts_assoc {A B C} c c' (m : ST CompactReader A) (f : A -> ST CompactReader B)
  (g : B -> ST CompactReader C) bs a :
  accepts c (m ≫= (fun x => f x ≫= g)) bs a c' -> accepts c ((m ≫= f) ≫= g) bs a c'.
Proof. intros H r. rewrite ST_bind_assoc. apply H. Qed.

Lemma accepts_pure {A} c (a : A) : accepts c (mret a : ST CompactReader A) [] a c.
Proof. apply (@accepts_ret CompactProtocol CompactFraming). Qed.

Lemma emits_writer c (wr : ST writer unit) bs :
  writes wr bs tt -> emits c (on_writer wr) bs tt c.
Proof.
  intros H w Hw Hc. unfold on_writer. rewrite (H (cw_out w)). cbn [mbind res_bind].
  eexists. split; [done|]. done.
Qed.

Lemma accepts_reader {A} c (rd : ST ByteReader A) bs a :
  reads rd bs a -> accepts c (on_reader rd) bs a c.
Proof.
  intros H r tail [Hp Hr] Hc E. simpl in E. unfold on_reader.
  rewrite (H _ _ Hr E). cbn [mbind res_bind]. eexists. split; [done|]. simpl.
  split; [split; [done|by eapply ok_advance]|]. split; [done|by apply rest_advance].
Qed.

(** A method that is one primitive on each side. *)
Lemma codec_prim {A} c (wr : ST writer unit) (rd : ST ByteReader A) bs a :
  writes wr bs tt -> reads rd bs a ->
  codec c (on_writer wr) (on_reader rd) a (on_reader rd) a c.
Proof.
  intros Hw Hr. exists bs. split; [by apply emits_writer|].
  split; by apply accepts_reader.
Qed.

Lemma emits_lift {A B} c c' (m : res A) (f : A -> ST CompactWriter B) a b bs :
  m = Ok a -> emits c (f a) bs b c' -> emits c (liftR m ≫= f) bs b c'.
Proof. intros -> H w Hw Hc. by apply H. Qed.

Lemma accepts_lift {A B} c c' (m : res A) (f : A -> ST CompactReader B) a b bs :
  m = Ok a -> accepts c (f a) bs b c' -> accepts c (liftR m ≫= f) bs b c'.
Proof. intros -> H r tail Hr Hc E. by apply (H r tail). Qed.

Lemma writes_byte b : is_byte b -> writes (writeU8 b) [b] tt.
Proof. intros Hb. unfold writeU8. rewrite js_and_byte by done. apply writes_append. Qed.

(** ** Nibbles *)

Definition nibbles_ok (b : Z) : bool :=
  bool_decide (js_or (js_shl (b / 16) 4) (b mod 16) = b /\ js_and b 15 = b mod 16 /\
               js_shr (js_and b 240) 4 = b / 16 /\ js_and (js_shr b 4) 15 = b / 16).

Lemma nibbles h l : 0 <= h < 16 -> 0 <= l < 16 ->
  let b := h * 16 + l in
  is_byte b /\ js_or (js_shl h 4) l = b /\ js_and b 15 = l /\
  js_shr (js_and b 240) 4 = h /\ js_and (js_shr b 4) 15 = h.
Proof.
  intros Hh Hl b. assert (is_byte b) as Hb by (unfold is_byte, b; lia).
  split; [done|]. assert (nibbles_ok b = true) as H.
  { apply byte_forallb; [vm_compute; reflexivity|done]. }
  apply bool_decide_eq_true_1 in H.
  replace (b / 16) with h in H by (unfold b; zdm).
  replace (b mod 16) with l in H by (unfold b; zdm). exact H.
Qed.

Lemma compact_type ty : value_type ty ->
  exists ct, ttypeToCompact ty = Ok ct /\ 1 <= ct <= 12 /\ compactToTtype ct = Ok ty /\
    (ty <> TType.BOOL -> 3 <= ct).
Proof.
  unfold value_type. intros [->|[->|[->|[->|[->|[->|[->|[->|[->|[->| ->]]]]]]]]]];
    eexists; (split; [reflexivity|]); (split; [split; discriminate|]);
    (split; [reflexivity|]); intros H; try discriminate; by destruct H.
Qed.

(** ** Field headers *)

Definition header_bytes (last id ct : Z) : list Z :=
  let delta := id - last in
  if (0 <? delta) && (delta <=? 15) then [delta * 16 + ct] else ct :: zigzag_bytes id.

Lemma is_int_16_32 x : is_int 16 x -> is_int 32 x.
Proof. unfold is_int. simpl. lia. Qed.

Lemma emits_set_last c id : emits c (set_last id) [] tt (id, c.2).
Proof.
  intros w Hw Hc. eexists. split; [done|]. split; [done|]. simpl in *.
  rewrite app_nil_r. by rewrite <- Hc.
Qed.

(** Writers and readers that look at the object first. *)
Lemma emits_state {A} c c' (wr : ST CompactWriter A) bs a :
  (forall w, w_ok w -> w_ctx w = c -> exists wr', wr w = wr' w /\ emits c wr' bs a c') ->
  emits c wr bs a c'.
Proof.
  intros H w Hw Hc. destruct (H w Hw Hc) as (wr' & -> & He). by apply He.
Qed.

Lemma accepts_state {A} c c' (rd : ST CompactReader A) bs a :
  (forall r, r_ok r -> r_ctx r = c -> exists rd', rd r = rd' r /\ accepts c rd' bs a c') ->
  accepts c rd bs a c'.
Proof.
  intros H r tail Hr Hc E. destruct (H r Hr Hc) as (rd' & -> & Ha). by apply (Ha r tail).
Qed.

Lemma emits_header c id ct :
  is_int 16 id -> 1 <= ct <= 12 ->
  emits c (writeFieldHeader id ct) (header_bytes c.1 id ct) tt (id, c.2).
Proof.
  intros Hid Hct. apply emits_state. intros w Hw Hc. simpl in Hc.
  eexists (_;; set_last id). split; [reflexivity|]. rewrite <- (app_nil_r (header_bytes _ _ _)).
  eapply emits_seq; [|apply emits_set_last]. unfold header_bytes.
  replace (cw_lastFieldId w) with c.1 by (by rewrite <- Hc).
  destruct ((0 <? id - c.1) && (id - c.1 <=? 15)) eqn:E.
  - rewrite andb_true_iff, Z.ltb_lt, Z.leb_le in E.
    destruct (nibbles (id - c.1) ct) as (Hb & -> & _); [lia|lia|].
    by apply emits_writer, writes_byte.
  - change (ct :: zigzag_bytes id) with ([ct] ++ zigzag_bytes id).
    eapply emits_seq; apply emits_writer.
    + apply writes_byte. unfold is_byte. lia.
    + by apply writes_Zigzag32, is_int_16_32.
Qed.

(** After the header bytes the reader is at [field_header]. *)
Lemma accepts_header {A} c id ct (k : FieldHeader -> ST CompactReader A) bs a c' :
  is_int 16 id -> 1 <= ct <= 12 ->
  accepts (id, c.2) (field_header ct id ≫= k) bs a c' ->
  accepts c (c_readFieldBegin ≫= k) (header_bytes c.1 id ct ++ bs) a c'.
Proof.
  intros Hid Hct Hk.
  assert (accepts c (set_last_read id;; field_header ct id ≫= k) bs a c') as Hset.
  { change bs with ([] ++ bs). eapply accepts_seq; [|exact Hk].
    intros r tail Hr Hc E. eexists. split; [done|]. simpl in *. by rewrite <- Hc. }
  assert (forall b m tl, js_and b 15 = ct -> js_shr (js_and b 240) 4 = m ->
    accepts c (if m =? 0 then on_reader readZigzag32
               else fun r : CompactReader => Ok (cr_lastFieldIdRead r + m, r)) tl id c ->
    accepts c (c_readFieldBegin ≫= k) ([b] ++ tl ++ bs) a c') as H.
  { intros b m tl H15 Hm Hrd. unfold c_readFieldBegin. apply accepts_assoc.
    eapply accepts_seq; [apply accepts_reader, reads_U8|]. cbv zeta beta. rewrite H15, Hm.
    replace (ct =? CType.STOP) with false by (unfold CType.STOP; lia).
    apply accepts_assoc. eapply accepts_seq; [exact Hrd|]. by apply accepts_assoc. }
  unfold header_bytes. destruct ((0 <? id - c.1) && (id - c.1 <=? 15)) eqn:E.
  - rewrite andb_true_iff, Z.ltb_lt, Z.leb_le in E.
    destruct (nibbles (id - c.1) ct) as (Hb & _ & H15 & Hm & _); [lia|lia|].
    apply (H _ (id - c.1) []); [done|done|].
    replace (id - c.1 =? 0) with false by lia.
    intros r tail Hr Hc Er. exists r. split; [|done]. do 2 f_equal.
    simpl in Hc. rewrite <- Hc. simpl. lia.
  - destruct (nibbles 0 ct) as (Hb & _ & H15 & Hm & _); [lia|lia|].
    rewrite Z.add_0_l in *.
    apply (H ct 0 (zigzag_bytes id)); [done|done|].
    apply accepts_reader. by apply reads_Zigzag32, is_int_16_32.
Qed.

(** ** The laws *)

Definition enter (c : Z * list Z) : Z * list Z := (0, c.1 :: c.2).
Definition leave (c : Z * list Z) : Z * list Z :=
  (match c.2 with id :: _ => id | [] => 0 end, tail c.2).
Definition after_field (id : Z) (c : Z * list Z) : Z * list Z := (id, c.2).

Lemma compact_struct_begin c :
  codec c c_writeStructBegin c_readStructBegin None c_readStructBegin None (enter c).
Proof.
  exists []. split; [|split].
  - intros w Hw Hc. eexists. split; [done|]. simpl in *. rewrite app_nil_r. by rewrite <- Hc.
  - intros r tl Hr Hc E. eexists. split; [done|]. simpl in *. by rewrite <- Hc.
  - intros r tl Hr Hc E. eexists. split; [done|]. simpl in *. by rewrite <- Hc.
Qed.

Lemma compact_struct_end c :
  codec c c_writeStructEnd c_readStructEnd tt c_readStructEnd tt (leave c).
Proof.
  exists []. split; [|split].
  - intros w Hw Hc. eexists. split; [done|]. simpl in *. rewrite app_nil_r. by rewrite <- Hc.
  - intros r tl Hr Hc E. eexists. split; [done|]. simpl in *. by rewrite <- Hc.
  - intros r tl Hr Hc E. eexists. split; [done|]. simpl in *. by rewrite <- Hc.
Qed.

Lemma compact_field_stop c :
  let h := {| fh_name := []; fh_type := TType.STOP; fh_id := 0 |} in
  codec c c_writeFieldStop c_readFieldBegin h c_readFieldBegin h c.
Proof.
  intros h. exists [0]. split; [apply emits_writer, writes_byte; unfold is_byte, CType.STOP; lia|].
  assert (accepts c c_readFieldBegin [0] h c).
  { change [0] with ([0] ++ []). eapply accepts_seq; [apply accepts_reader, reads_U8|].
    apply accepts_pure. }
  done.
Qed.

Lemma compact_field_begin c ty id :
  value_type ty -> ty <> TType.BOOL -> is_int 16 id ->
  let h := {| fh_name := []; fh_type := ty; fh_id := id |} in
  codec c (c_writeFieldBegin [] ty id) c_readFieldBegin h c_readFieldBegin h (after_field id c).
Proof.
  intros Hty Hnb Hid h. destruct (compact_type ty Hty) as (ct & Et & Hct & Ec & H3).
  specialize (H3 Hnb). exists (header_bytes c.1 id ct). split.
  - unfold c_writeFieldBegin. replace (ty =? TType.BOOL) with false by lia.
    eapply emits_lift; [exact Et|]. by apply emits_header.
  - assert (accepts c c_readFieldBegin (header_bytes c.1 id ct) h (after_field id c)).
    { intros r tl Hr Hc E.
      destruct (accepts_header c id ct mret [] h (after_field id c) Hid Hct) with (r := r)
        (tail := tl) as (r' & Er & ?); [|done|done|by rewrite app_nil_r|].
      - unfold field_header. apply accepts_assoc. eapply accepts_lift; [exact Ec|].
        replace (ct =? CType.BOOLEAN_TRUE) with false by (unfold CType.BOOLEAN_TRUE; lia).
        replace (ct =? CType.BOOLEAN_FALSE) with false by (unfold CType.BOOLEAN_FALSE; lia).
        apply accepts_pure.
      - exists r'. split; [|done]. rewrite <- Er. unfold mbind, ST_bind.
        by destruct (c_readFieldBegin r) as [[h' r'']|]. }
    done.
Qed.

Lemma compact_field_bool c id b :
  is_int 16 id ->
  let h := {| fh_name := []; fh_type := TType.BOOL; fh_id := id |} in
  let rd := h ← c_readFieldBegin; v ← c_readBool; mret (h, v) in
  codec c (c_writeFieldBegin [] TType.BOOL id;; c_writeBool b) rd (h, b) rd (h, b)
    (after_field id c).
Proof.
  intros Hid h rd. set (ct := if b then CType.BOOLEAN_TRUE else CType.BOOLEAN_FALSE).
  assert (1 <= ct <= 12) as Hct by (unfold ct; destruct b; split; discriminate).
  exists (header_bytes c.1 id ct). split.
  - intros w Hw Hc. unfold c_writeFieldBegin. change (TType.BOOL =? TType.BOOL) with true.
    destruct (emits_header c id ct Hid Hct w Hw Hc) as (w' & Ew & Hw' & Hc' & Ho).
    simpl in Hw, Hc', Hw', Ho. exists {| cw_out := cw_out w'; cw_lastFieldId := cw_lastFieldId w';
      cw_fieldIdStack := cw_fieldIdStack w'; cw_pendingBoolId := None |}.
    split; [|by simpl].
    change ((writeFieldHeader id ct;; set_pending None)
      {| cw_out := cw_out w; cw_lastFieldId := cw_lastFieldId w;
         cw_fieldIdStack := cw_fieldIdStack w; cw_pendingBoolId := Some id |} = Ok (tt,
      {| cw_out := cw_out w'; cw_lastFieldId := cw_lastFieldId w';
      cw_fieldIdStack := cw_fieldIdStack w'; cw_pendingBoolId := None |})).
    revert Ew. unfold mbind, ST_bind, writeFieldHeader, set_last, on_writer, set_pending,
      mbind, ST_bind, res_bind. simpl.
    destruct ((0 <? id - cw_lastFieldId w) && (id - cw_lastFieldId w <=? 15)).
    + by intros [= <-].
    + rewrite !(writes_Zigzag32 id (is_int_16_32 _ Hid)). simpl. by intros [= <-].
  - assert (accepts c rd (header_bytes c.1 id ct) (h, b) (after_field id c)).
    { unfold rd. rewrite <- (app_nil_r (header_bytes _ _ _)). apply accepts_header; [done|done|].
      intros r tl [Hp Hr] Hc E. simpl in Hp, Hc, E.
      exists r. unfold field_header, ct, h. destruct r as [rr l st p]. simpl in Hp. subst p.
      destruct b; simpl; (split; [done|split; [done|split; [done|done]]]). }
    done.
Qed.

Lemma size_header c ty n :
  value_type ty -> 0 <= n < 2 ^ 31 ->
  let h := {| list_elemType := ty; list_size := n |} in
  codec c (c_writeListBegin ty n) c_readListBegin h c_readListBegin h c.
Proof.
  intros Hty Hn h. destruct (compact_type ty Hty) as (ct & Et & Hct & Ec & _).
  assert (forall b m k tl, is_byte b -> js_and (js_shr b 4) 15 = k -> js_and b 15 = ct ->
    (if k =? 15 then tl = varint_bytes 10 n else tl = [] /\ k = n) -> m = b ->
    accepts c c_readListBegin (m :: tl) h c) as Hrd.
  { intros b m k tl Hb Hs Hl Htl ->. change (b :: tl) with ([b] ++ tl).
    eapply accepts_seq; [apply accepts_reader, reads_U8|]. cbv zeta beta. rewrite Hs, Hl.
    rewrite <- (app_nil_r tl). eapply (accepts_seq _ c _ _ _ tl [] n).
    - destruct (k =? 15).
      + subst tl. apply accepts_reader, reads_Varint32. lia.
      + destruct Htl as [-> ->]. apply accepts_pure.
    - eapply accepts_lift; [exact Ec|]. apply accepts_pure. }
  unfold c_writeListBegin. destruct (Z.leb_spec n 14) as [H14|H14].
  - destruct (nibbles n ct) as (Hb & Hor & Hl & _ & Hs); [lia|lia|].
    exists [n * 16 + ct]. split.
    + eapply emits_lift; [exact Et|]. replace (n <=? 14) with true by lia. rewrite Hor.
      by apply emits_writer, writes_byte.
    + assert (accepts c c_readListBegin [n * 16 + ct] h c); [|done].
      apply (Hrd (n * 16 + ct) _ n []); try done. by replace (n =? 15) with false by lia.
  - destruct (nibbles 15 ct) as (Hb & Hor & Hl & _ & Hs); [lia|lia|].
    change (js_shl 15 4) with 240 in Hor.
    exists ((15 * 16 + ct) :: varint_bytes 10 n). split.
    + eapply emits_lift; [exact Et|]. replace (n <=? 14) with false by lia. rewrite Hor.
      change (?x :: ?l) with ([x] ++ l). eapply emits_seq; apply emits_writer.
      * by apply writes_byte.
      * apply writes_Varint. lia.
    + assert (accepts c c_readListBegin (15 * 16 + ct :: varint_bytes 10 n) h c); [|done].
      by apply (Hrd (15 * 16 + ct) _ 15).
Qed.

Lemma compact_map_begin c kt vt n :
  value_type kt -> value_type vt -> 0 <= n < 2 ^ 31 ->
  let tys := if n =? 0 then (TType.STOP, TType.STOP) else (kt, vt) in
  let h := {| map_keyType := tys.1; map_valueType := tys.2; map_size := n |} in
  codec c (c_writeMapBegin kt vt n) c_readMapBegin h c_readMapBegin h c.
Proof.
  intros Hk Hv Hn. unfold c_writeMapBegin. destruct (Z.eqb_spec n 0) as [->|Hn0]; cbv zeta.
  - exists [0]. split; [apply emits_writer, writes_byte; unfold is_byte; lia|].
    assert (accepts c c_readMapBegin [0]
      {| map_keyType := TType.STOP; map_valueType := TType.STOP; map_size := 0 |} c); [|done].
    change [0] with (varint_bytes 10 0 ++ []).
    eapply accepts_seq; [apply accepts_reader, reads_Varint32; lia|]. apply accepts_pure.
  - destruct (compact_type kt Hk) as (ck & Ek & Hck & Eck & _).
    destruct (compact_type vt Hv) as (cv & Ev & Hcv & Ecv & _).
    destruct (nibbles ck cv) as (Hb & Hor & Hl & _ & Hs); [lia|lia|].
    exists (varint_bytes 10 n ++ [ck * 16 + cv]). split.
    + eapply emits_seq; [apply emits_writer, writes_Varint; lia|].
      eapply emits_lift; [exact Ek|]. eapply emits_lift; [exact Ev|]. rewrite Hor.
      by apply emits_writer, writes_byte.
    + assert (accepts c c_readMapBegin (varint_bytes 10 n ++ [ck * 16 + cv])
        {| map_keyType := kt; map_valueType := vt; map_size := n |} c); [|done].
      eapply accepts_seq; [apply accepts_reader, reads_Varint32; lia|].
      cbv beta. replace (n =? 0) with false by lia. rewrite <- (app_nil_r [_]).
      eapply accepts_seq; [apply accepts_reader, reads_U8|]. cbv beta. rewrite Hs, Hl.
      eapply accepts_lift; [exact Eck|]. eapply accepts_lift; [exact Ecv|]. apply accepts_pure.
Qed.

Lemma compact_bool c b : codec c (c_writeBool b) c_readBool b c_readBool b c.
Proof.
  set (ct := if b then CType.BOOLEAN_TRUE else CType.BOOLEAN_FALSE). exists [ct]. split.
  - apply emits_state. intros w Hw Hc. simpl in Hw. unfold c_writeBool. rewrite Hw.
    eexists. split; [reflexivity|]. apply emits_writer, writes_byte.
    unfold is_byte. by destruct b.
  - assert (accepts c c_readBool [ct] b c); [|done].
    apply accepts_state. intros r [Hp Hr] Hc. unfold c_readBool. rewrite Hp.
    eexists. split; [reflexivity|]. rewrite <- (app_nil_r [ct]).
    eapply accepts_seq; [apply accepts_reader, reads_U8|]. destruct b; apply accepts_pure.
Qed.

Lemma compact_string c s :
  plain_string s -> zlen (encodeUtf8 s) < 2 ^ 31 ->
  codec c (writeStringValue s) readStringValue s c_readBinary (encodeUtf8 s) c.
Proof.
  intros Hs Hl. pose proof (zlen_nonneg (encodeUtf8 s)).
  exists (varint_bytes 10 (zlen (encodeUtf8 s)) ++ encodeUtf8 s). split; [|split].
  - eapply emits_seq; [apply emits_writer, writes_Varint; lia|].
    apply emits_writer, writes_append.
  - eapply accepts_seq; [apply accepts_reader, reads_Varint32; lia|].
    by apply accepts_reader, reads_String.
  - eapply accepts_seq; [apply accepts_reader, reads_Varint32; lia|].
    apply accepts_reader, reads_Bytes.
Qed.

Lemma compact_nop c : codec c (mret tt : ST CompactWriter unit)
  (mret tt : ST CompactReader unit) tt (mret tt : ST CompactReader unit) tt c.
Proof. apply (@codec_ret CompactProtocol CompactFraming). Qed.

#[export] Program Instance CompactLaws : ProtocolLaws CompactProtocol CompactFraming := {
  enter := ThriftCompact.enter;
  leave := ThriftCompact.leave;
  after_field := ThriftCompact.after_field;
  empty_map_types := fun _ _ => (TType.STOP, TType.STOP);
}.
Next Obligation. intros [l st]. done. Qed.
Next Obligation. done. Qed.
Next Obligation. apply compact_struct_begin. Qed.
Next Obligation. apply compact_struct_end. Qed.
Next Obligation. apply compact_field_stop. Qed.
Next Obligation. intros. by apply compact_field_begin. Qed.
Next Obligation. intros. by apply compact_field_bool. Qed.
Next Obligation. apply compact_nop. Qed.
Next Obligation. intros. by apply size_header. Qed.
Next Obligation. apply compact_nop. Qed.
Next Obligation. intros. by apply size_header. Qed.
Next Obligation. apply compact_nop. Qed.
Next Obligation. intros. by apply compact_map_begin. Qed.
Next Obligation. apply compact_nop. Qed.
Next Obligation. apply compact_bool. Qed.
Next Obligation.
  intros c x Hx. eapply codec_prim; [|by apply reads_I8].
  unfold writeU8. rewrite (js_and_ones _ _ 8) by lia. apply writes_append.
Qed.
Next Obligation.
  intros c x Hx%is_int_16_32.
  eapply codec_prim; [by apply writes_Zigzag32|by apply reads_Zigzag32].
Qed.
Next Obligation.
  intros c x Hx. eapply codec_prim; [by apply writes_Zigzag32|by apply reads_Zigzag32].
Qed.
Next Obligation.
  intros c x Hx. eapply codec_prim; [by apply writes_Zigzag64|by apply reads_Zigzag64].
Qed.
Next Obligation. intros c x Hx. eapply codec_prim; [apply writes_append|by apply reads_F64LE]. Qed.
Next Obligation. intros. by apply compact_string. Qed.

(** ** Consumption

    Each unread byte weighs two and a boolean still pending from a field
    header weighs one, so that reading the header of a boolean field and then
    its value both make progress. *)

Definition cr_weight (r : CompactReader) : nat :=
  2 * (length (rd_bytes (cr_reader r)) - rd_pos (cr_reader r))
  + match cr_pendingBoolValue r with Some _ => 1 | None => 0 end.

#[export] Instance CompactConsuming : Consuming CompactProtocol := {
  r_wf := fun r : CompactReader => reader_ok (cr_reader r);
  weight := cr_weight;
}.

Lemma consumes_seq {A B} k1 k2 (m : ST CompactReader A) (f : A -> ST CompactReader B) :
  consumes k1 m -> (forall a, consumes k2 (f a)) -> consumes (k1 + k2) (m ≫= f).
Proof. apply (@consumes_bind CompactProtocol CompactConsuming). Qed.

(** The first step already consumes what is claimed. *)
Lemma consumes_head {A B} k (m : ST CompactReader A) (f : A -> ST CompactReader B) :
  consumes k m -> (forall a, consumes 0 (f a)) -> consumes k (m ≫= f).
Proof. intros. replace k with (k + 0)%nat by lia. by apply consumes_seq. Qed.

Lemma consumes_pure {A} (a : A) : consumes 0 (mret a : ST CompactReader A).
Proof. intros r Hr. simpl. split; [done|lia]. Qed.

Lemma consumes_lift {A} (m : res A) : m <> Throw Diverges -> consumes 0 (liftR m : ST CompactReader A).
Proof. intros Hm r Hr. unfold liftR. destruct m; simpl; [split; [done|lia]|congruence]. Qed.

Lemma consumes_reader {A} k (rd : ST ByteReader A) : progress k rd -> consumes (2 * k) (on_reader rd).
Proof.
  intros H r Hr. unfold on_reader. specialize (H (cr_reader r) Hr).
  destruct (rd (cr_reader r)) as [[a r1]|e]; [|done]. destruct H as (Hr1 & Hb & Hp).
  cbn [mbind res_bind]. split; [done|]. simpl. unfold cr_weight, reader_ok in *. simpl.
  rewrite Hb in *. lia.
Qed.

Lemma consumes_some {A} k (rd : ST ByteReader A) :
  progress (S k) rd -> consumes 1 (on_reader rd).
Proof.
  intros H. apply (consumes_weaken (2 * S k)); [lia|]. by apply consumes_reader.
Qed.

Lemma consumes_any {A} (rd : ST ByteReader A) : progress 0 rd -> consumes 0 (on_reader rd).
Proof. apply (consumes_reader 0). Qed.

Lemma compactToTtype_outcome n : compactToTtype n <> Throw Diverges.
Proof.
  unfold compactToTtype. cbv zeta.
  repeat match goal with |- context [if ?b then _ else _] => destruct b end; discriminate.
Qed.

Lemma consumes_type n : consumes 0 (liftR (compactToTtype n) : ST CompactReader Z).
Proof. apply consumes_lift, compactToTtype_outcome. Qed.

(** The header may leave a pending boolean: a byte for its weight. *)
Lemma consumes_field_header n id (r : CompactReader) :
  reader_ok (cr_reader r) ->
  match (set_last_read id;; field_header n id) r with
  | Ok (_, r') => reader_ok (cr_reader r') /\ (cr_weight r' <= cr_weight r + 1)%nat
  | Throw e => e <> Diverges
  end.
Proof.
  intros Hr. pose proof (compactToTtype_outcome n) as Hc.
  unfold field_header, mbind, ST_bind, set_last_read, liftR, set_pending_value, mret, ST_ret.
  destruct (compactToTtype n); [|congruence].
  repeat match goal with |- context [if ?b then _ else _] => destruct b end;
    (split; [done|unfold cr_weight; simpl; destruct (cr_pendingBoolValue r); lia]).
Qed.

Lemma compact_consumes_field : consumes 1 c_readFieldBegin.
Proof.
  intros r Hr. pose proof (consumes_reader 1 _ progress_U8 r Hr) as H.
  unfold c_readFieldBegin, mbind at 1, ST_bind at 1.
  destruct (on_reader readU8 r) as [[b r1]|e]; [|done]. destruct H as [Hr1 Hw1].
  simpl in Hr1, Hw1. destruct (js_and b 15 =? CType.STOP).
  { simpl. split; [done|lia]. }
  cbv zeta. unfold mbind at 1, ST_bind at 1. destruct (js_shr (js_and b 240) 4 =? 0).
  - pose proof (consumes_reader 1 _ progress_Zigzag32 r1 Hr1) as H2.
    destruct (on_reader readZigzag32 r1) as [[id r2]|e]; [|done]. destruct H2 as [Hr2 Hw2].
    pose proof (consumes_field_header (js_and b 15) id r2 Hr2) as H3.
    destruct ((set_last_read id;; field_header (js_and b 15) id) r2) as [[f r3]|e]; [|done].
    destruct H3. split; [done|]. simpl in *. lia.
  - match goal with |- context [set_last_read ?i] =>
      pose proof (consumes_field_header (js_and b 15) i r1 Hr1) as H3;
      destruct ((set_last_read i;; field_header (js_and b 15) i) r1) as [[f r3]|e] end; [|done].
    destruct H3. split; [done|]. simpl in *. lia.
Qed.

Lemma compact_consumes_list : consumes 1 c_readListBegin.
Proof.
  apply consumes_head; [by apply (consumes_some 0), progress_U8|]. intros b. cbv zeta.
  apply consumes_head.
  - destruct (_ =? 15); [|apply consumes_pure].
    apply consumes_any. by apply (progress_weaken 1), progress_Varint32; lia.
  - intros n. apply consumes_head; [apply consumes_type|]. intros. apply consumes_pure.
Qed.

Lemma compact_consumes_map : consumes 1 c_readMapBegin.
Proof.
  apply consumes_head; [by apply (consumes_some 0), progress_Varint32|]. intros n.
  destruct (n =? 0); [apply consumes_pure|].
  apply consumes_head; [apply consumes_any; by apply (progress_weaken 1), progress_U8; lia|].
  intros kv. do 2 (apply consumes_head; [apply consumes_type|]; intros). apply consumes_pure.
Qed.

Lemma compact_consumes_bool : consumes 1 c_readBool.
Proof.
  intros r Hr. unfold c_readBool. destruct (cr_pendingBoolValue r) as [v|] eqn:E.
  - simpl. split; [done|]. unfold cr_weight. simpl. rewrite E. lia.
  - pose proof (consumes_head 1 _ (fun b => mret (b =? CType.BOOLEAN_TRUE))
      (consumes_some 0 _ progress_U8) (fun _ => consumes_pure _)) as H.
    exact (H r Hr).
Qed.

Lemma compact_consumes_sized {A} (rd : Z -> ST ByteReader A) :
  (forall n, progress 0 (rd n)) ->
  consumes 1 (n ← on_reader readVarint32; on_reader (rd n)).
Proof.
  intros H. apply consumes_head; [by apply (consumes_some 0), progress_Varint32|].
  intros n. by apply consumes_any.
Qed.

Lemma compact_consumes_begin : consumes 0 c_readStructBegin.
Proof. intros r Hr. simpl. split; [done|]. unfold cr_weight. simpl. lia. Qed.
Lemma compact_consumes_end : consumes 0 c_readStructEnd.
Proof. intros r Hr. simpl. split; [done|]. unfold cr_weight. simpl. lia. Qed.

#[export] Instance CompactConsumingLaws : ConsumingLaws CompactProtocol CompactConsuming := {
  c_struct_begin := compact_consumes_begin;
  c_struct_end := compact_consumes_end;
  c_field_begin := compact_consumes_field;
  c_field_end := consumes_pure tt;
  c_list_begin := compact_consumes_list;
  c_list_end := consumes_pure tt;
  c_set_begin := compact_consumes_list;
  c_set_end := consumes_pure tt;
  c_map_begin := compact_consumes_map;
  c_map_end := consumes_pure tt;
  c_bool := compact_consumes_bool;
  c_byte := consumes_some 0 _ progress_I8;
  c_i16 := consumes_some 0 _ progress_Zigzag32;
  c_i32 := consumes_some 0 _ progress_Zigzag32;
  c_i64 := consumes_some 0 _ progress_Zigzag64;
  c_double := consumes_some 7 _ progress_F64LE;
  c_string := compact_consumes_sized _ progress_String;
  c_binary := compact_consumes_sized _ progress_Bytes;
}.

(** ** Whole values and messages *)

(** C1: every well-formed Thrift value survives the compact protocol:
    [writeValue] on a fresh writer succeeds, and reading back its bytes,
    whatever follows them, gives the value (up to the types of empty maps,
    which this protocol does not carry) and stops right after it; [skip]
    stops at the same place. *)
Theorem compact_roundtrip (v : ThriftValue) :
  wf v ->
  exists w, writeValue v new_writer = Ok (tt, w) /\
  forall tail fuel, (value_fuel v <= fuel)%nat ->
    (exists r, readValue fuel (type_of v) (new_compact_reader (cw_out w ++ tail)) = Ok (canon v, r)
               /\ rest (cr_reader r) = tail) /\
    (exists r, skip fuel (type_of v) (new_compact_reader (cw_out w ++ tail)) = Ok (tt, r)
               /\ rest (cr_reader r) = tail).
Proof.
  intros Hv. destruct (@value_codec_wf _ _ CompactLaws v Hv (0, []) (value_fuel v)) as (bs & He & _ & _); [lia|].
  destruct (He new_writer) as (w & Ew & _ & _ & Eo); [done|done|].
  exists w. split; [done|]. intros tail fuel Hf.
  destruct (@value_codec_wf _ _ CompactLaws v Hv (0, []) fuel Hf) as (bs' & He' & Ha & Hs).
  destruct (He' new_writer) as (w' & Ew' & _ & _ & Eo'); [done|done|].
  rewrite Ew in Ew'. injection Ew' as <-. simpl in Eo, Eo'. rewrite Eo'.
  destruct (Ha (new_compact_reader (bs' ++ tail)) tail) as (r1 & E1 & _ & _ & R1);
    [split; [done|apply new_reader_ok]|done|done|].
  destruct (Hs (new_compact_reader (bs' ++ tail)) tail) as (r2 & E2 & _ & _ & R2);
    [split; [done|apply new_reader_ok]|done|done|].
  split; [by exists r1|by exists r2].
Qed.

Definition sample_value : ThriftValue :=
  VStruct [(1, VBool true); (2, VList TType.I32 [VI32 7; VI32 (-1)]);
           (40, VMap TType.STRING TType.I64 [(VString (js "k"), VI64 (- 2 ^ 63))]);
           (41, VStruct [(-3, VDouble 0)])].

Lemma sample_wf : wf sample_value.
Proof.
  unfold sample_value. simpl.
  repeat match goal with
  | |- _ /\ _ => split
  | |- is_int _ _ => unfold is_int; lia
  | |- value_type _ => unfold value_type; tauto
  | |- plain_string _ => split; [by repeat (constructor; [unfold is_unit; lia|])|done]
  | |- NoDup _ => by apply (bool_decide_eq_true_1 _); vm_compute
  | |- _ < _ => by vm_compute
  end; try done; lia.
Qed.

Lemma compact_roundtrip_witness :
  exists w, writeValue sample_value new_writer = Ok (tt, w) /\
  forall tail fuel, (value_fuel sample_value <= fuel)%nat ->
    (exists r, readValue fuel (type_of sample_value) (new_compact_reader (cw_out w ++ tail))
                 = Ok (canon sample_value, r) /\ rest (cr_reader r) = tail) /\
    (exists r, skip fuel (type_of sample_value) (new_compact_reader (cw_out w ++ tail)) = Ok (tt, r)
               /\ rest (cr_reader r) = tail).
Proof. apply (compact_roundtrip sample_value). exact sample_wf. Defined.

(** Reading and skipping end on every input of the compact protocol,
    malformed ones included: on any bytes, with fuel linear in their number,
    [readValue] and [skip] return or throw an error of the code, and never
    leave the cursor outside the input. *)
Theorem compact_read_terminates (input : list Z) (type : Z) :
  let fuel := (6 * length input + 2)%nat in
  match readValue fuel type (new_compact_reader input) with
  | Ok (_, r) => reader_ok (cr_reader r)
  | Throw e => e <> Diverges
  end /\
  match skip fuel type (new_compact_reader input) with
  | Ok (_, r) => reader_ok (cr_reader r)
  | Throw e => e <> Diverges
  end.
Proof.
  intros fuel. set (r0 := new_compact_reader input).
  assert (reader_ok (cr_reader r0)) as Hr by apply new_reader_ok.
  assert (cr_weight r0 <= 2 * length input)%nat as Hw by (unfold cr_weight; simpl; lia).
  assert (3 * (2 * length input) + 2 <= fuel)%nat as Hf by (unfold fuel; lia).
  split.
  - pose proof (proj1 (@read_within _ _ CompactConsumingLaws fuel) _ type Hf r0 Hr Hw) as H.
    destruct (readValue (P := CompactProtocol) fuel type r0) as [[v r]|e]; [|done]. apply H.
  - pose proof (proj1 (@skip_within _ _ CompactConsumingLaws fuel) _ type Hf r0 Hr Hw) as H.
    destruct (skip (P := CompactProtocol) fuel type r0) as [[v r]|e]; [|done]. apply H.
Qed.

Lemma message_byte type : 0 <= type < 8 ->
  let b := js_or (js_and VERSION VERSION_MASK) (js_and (js_shl type TYPE_SHIFT) 224) in
  is_byte b /\ js_and b VERSION_MASK = VERSION /\
  js_and (js_shr b TYPE_SHIFT) TYPE_BITS = type.
Proof.
  intros H. assert (In type (seqZ 0 8)) as Hin by (apply list_elem_of_In, elem_of_seqZ; lia).
  cbv [seqZ fmap list_fmap seq Z.to_nat Pos.to_nat Pos.iter_op Nat.add] in Hin. simpl in Hin.
  repeat (destruct Hin as [<-|Hin]; [by vm_compute|]). done.
Qed.

Lemma seqid_wraps x : is_int 32 x ->
  0 <= js_ushr x 0 < 2 ^ 32 /\ js_or (js_ushr x 0) 0 = x.
Proof.
  intros Hx. unfold js_ushr, js_or. change (Z.land 0 31) with 0. rewrite Z.shiftr_0_r.
  change (toInt32 0) with 0. rewrite Z.lor_0_r. split; [by apply Z.mod_pos_bound|].
  rewrite toInt32_signedN. unfold toUint32. rewrite signedN_mod by lia. by apply signedN_small.
Qed.

Lemma compact_message c name type seqid :
  plain_string name -> zlen (encodeUtf8 name) < 2 ^ 31 -> 0 <= type < 8 -> is_int 32 seqid ->
  let h := {| mh_name := name; mh_type := type; mh_seqid := seqid |} in
  codec c (c_writeMessageBegin name type seqid) c_readMessageBegin h c_readMessageBegin h c.
Proof.
  intros Hn Hl Ht Hs h. destruct (message_byte type Ht) as (Hb & Hver & Hty).
  destruct (compact_string c name Hn Hl) as (nb & Hne & Hna & _).
  destruct (seqid_wraps seqid Hs) as [Hq Hq'].
  set (bs := [PROTOCOL_ID] ++ [js_or (js_and VERSION VERSION_MASK)
    (js_and (js_shl type TYPE_SHIFT) 224)] ++ varint_bytes 10 (js_ushr seqid 0) ++ nb).
  exists bs. assert (accepts c c_readMessageBegin bs h c).
  { eapply accepts_seq; [apply accepts_reader, reads_U8|].
    change (negb (PROTOCOL_ID =? PROTOCOL_ID)) with false. cbv iota.
    eapply accepts_seq; [apply accepts_reader, reads_U8|]. cbv zeta.
    rewrite Hver, Hty. change (negb (VERSION =? VERSION)) with false. cbv iota.
    eapply accepts_seq; [by apply accepts_reader, reads_Varint32|]. cbv beta. rewrite Hq'.
    rewrite <- (app_nil_r nb). eapply accepts_seq; [exact Hna|]. apply accepts_pure. }
  split; [|split; eassumption].
  eapply emits_seq; [apply emits_writer, writes_byte; unfold is_byte, PROTOCOL_ID; lia|].
  eapply emits_seq; [by apply emits_writer, writes_byte|].
  eapply emits_seq; [apply emits_writer, writes_Varint; lia|]. exact Hne.
Qed.

(** Message headers survive the compact protocol: name, message type
    (three bits) and signed 32-bit sequence number are read back, and the
    reader stops right after the header. *)
Theorem compact_message_roundtrip (name : jsstring) (type seqid : Z) (tail : list Z) :
  plain_string name -> zlen (encodeUtf8 name) < 2 ^ 31 -> 0 <= type < 8 -> is_int 32 seqid ->
  exists w r, c_writeMessageBegin name type seqid new_writer = Ok (tt, w) /\
    c_readMessageBegin (new_compact_reader (cw_out w ++ tail)) =
      Ok ({| mh_name := name; mh_type := type; mh_seqid := seqid |}, r) /\
    rest (cr_reader r) = tail.
Proof.
  intros Hn Hl Ht Hs.
  destruct (compact_message (0, []) name type seqid Hn Hl Ht Hs) as (bs & He & Ha & _).
  destruct (He new_writer) as (w & Ew & _ & _ & Eo); [done|done|]. simpl in Eo.
  destruct (Ha (new_compact_reader (bs ++ tail)) tail) as (r & Er & _ & _ & Et);
    [split; [done|apply new_reader_ok]|done|done|].
  exists w, r. by rewrite Eo.
Qed.

Lemma compact_message_roundtrip_witness :
  exists w r, c_writeMessageBegin (js "ping") 1 (-5) new_writer = Ok (tt, w) /\
    c_readMessageBegin (new_compact_reader (cw_out w ++ [1; 2])) =
      Ok ({| mh_name := js "ping"; mh_type := 1; mh_seqid := -5 |}, r) /\
    rest (cr_reader r) = [1; 2].
Proof.
  apply (compact_message_roundtrip (js "ping") 1 (-5) [1; 2]).
  - split; [by repeat (constructor; [unfold is_unit; vm_compute; intuition discriminate|])|done].
  - by vm_compute.
  - lia.
  - unfold is_int. lia.
Defined.
End ThriftCompact.
