(* ===== verification/ThriftBinary.v ===== *)
(** The Thrift binary protocol (src/js/internal/format/thrift/binary.ts) as an
    instance of the [Protocol] interface.  The protocol keeps no state between
    calls, so its writer is the byte writer and its reader the byte reader. *)

From S2P Require Import Prelude Utf8 ThriftIO ThriftProtocol ThriftValue.

Module ThriftBinary.
Import Utf8 ThriftIO ThriftProtocol ThriftValue.

Definition VERSION_1 := 2147549184.
Definition VERSION_MASK := 4294901760.
Definition TYPE_MASK := 255.

(** ** Writer side *)

Definition b_writeStringValue (value : jsstring) : ST writer unit :=
  let bytes := TextEncoder_encode value in
  writeI32BE (zlen bytes);; writeBytes bytes.
Definition b_writeMessageBegin (name : jsstring) (type seqid : Z) : ST writer unit :=
  writeI32BE (js_or VERSION_1 (js_and type TYPE_MASK));;
  b_writeStringValue name;;
  writeI32BE seqid.
Definition b_writeFieldBegin (name : jsstring) (type id : Z) : ST writer unit :=
  writeU8 type;; writeI16BE id.
Definition b_writeFieldStop : ST writer unit := writeU8 TType.STOP.
Definition b_writeMapBegin (keyType valueType size : Z) : ST writer unit :=
  writeU8 keyType;; writeU8 valueType;; writeI32BE size.
Definition b_writeListBegin (elemType size : Z) : ST writer unit :=
  writeU8 elemType;; writeI32BE size.
Definition b_writeBool (value : bool) : ST writer unit := writeU8 (if value then 1 else 0).
Definition b_writeBinary (value : list Z) : ST writer unit :=
  writeI32BE (zlen value);; writeBytes value.

(** ** Reader side *)

Definition b_readStringValue : ST ByteReader jsstring :=
  size ← readI32BE; ThriftIO.readString size.
Definition b_readMessageBegin : ST ByteReader MessageHeader :=
  size ← readI32BE;
  if size <? 0 then
    let version := js_ushr (js_and size VERSION_MASK) 0 in
    if negb (version =? VERSION_1) then _fail "bad binary protocol version"
    else
      let type := js_and size TYPE_MASK in
      name ← b_readStringValue;
      seqid ← readI32BE;
      mret {| mh_name := name; mh_type := type; mh_seqid := seqid |}
  else
    name ← ThriftIO.readString size;
    type ← readU8;
    seqid ← readI32BE;
    mret {| mh_name := name; mh_type := type; mh_seqid := seqid |}.
Definition b_readFieldBegin : ST ByteReader FieldHeader :=
  type ← readU8;
  if type =? TType.STOP then mret {| fh_name := []; fh_type := type; fh_id := 0 |}
  else id ← readI16BE; mret {| fh_name := []; fh_type := type; fh_id := id |}.
Definition b_readMapBegin : ST ByteReader MapHeader :=
  keyType ← readU8; valueType ← readU8; size ← readI32BE;
  mret {| map_keyType := keyType; map_valueType := valueType; map_size := size |}.
Definition b_readListBegin : ST ByteReader ListHeader :=
  elemType ← readU8; size ← readI32BE;
  mret {| list_elemType := elemType; list_size := size |}.
Definition b_readBool : ST ByteReader bool := v ← readU8; mret (negb (v =? 0)).
Definition b_readBinary : ST ByteReader (list Z) := size ← readI32BE; readBytes size.

#[export] Instance BinaryProtocol : Protocol := {
  PW := writer;
  PR := ByteReader;
  writeMessageBegin := b_writeMessageBegin;
  writeMessageEnd := mret tt;
  writeStructBegin := mret tt;
  writeStructEnd := mret tt;
  writeFieldBegin := b_writeFieldBegin;
  writeFieldEnd := mret tt;
  writeFieldStop := b_writeFieldStop;
  writeMapBegin := b_writeMapBegin;
  writeMapEnd := mret tt;
  writeListBegin := b_writeListBegin;
  writeListEnd := mret tt;
  writeSetBegin := b_writeListBegin;
  writeSetEnd := mret tt;
  writeBool := b_writeBool;
  writeByte := writeU8;
  writeI16 := writeI16BE;
  writeI32 := writeI32BE;
  writeI64 := writeI64BE;
  writeDouble := writeF64BE;
  ThriftProtocol.writeString := b_writeStringValue;
  writeBinary := b_writeBinary;
  readMessageBegin := b_readMessageBegin;
  readMessageEnd := mret tt;
  readStructBegin := mret None;
  readStructEnd := mret tt;
  readFieldBegin := b_readFieldBegin;
  readFieldEnd := mret tt;
  readMapBegin := b_readMapBegin;
  readMapEnd := mret tt;
  readListBegin := b_readListBegin;
  readListEnd := mret tt;
  readSetBegin := b_readListBegin;
  readSetEnd := mret tt;
  readBool := b_readBool;
  readByte := readI8;
  readI16 := readI16BE;
  readI32 := readI32BE;
  readI64 := readI64BE;
  readDouble := readF64BE;
  ThriftProtocol.readString := b_readStringValue;
  readBinary := b_readBinary;
  bytes := fun w => w;
  position := fun r => Z.of_nat (rd_pos r);
}.

#[export] Instance BinaryFraming : Framing BinaryProtocol := {
  ctx := unit;
  w_ok := fun _ => True;
  w_ctx := fun _ => tt;
  r_ok := fun r : ByteReader => reader_ok r;
  r_ctx := fun _ => tt;
  r_rest := fun r : ByteReader => rest r;
}.

(** ** The laws *)

(** A byte-level codec is a codec of the protocol. *)
Lemma codec_bytes {A B} (c : unit) (wr : ST writer unit) (rd : ST ByteReader A)
  (sk : ST ByteReader B) bs a b :
  writes wr bs tt -> reads rd bs a -> reads sk bs b ->
  codec (P := BinaryProtocol) c wr rd a sk b c.
Proof.
  intros Hw Hr Hs. destruct c. exists bs.
  assert (forall C (x : C) m, reads m bs x -> accepts (P := BinaryProtocol) tt m bs x tt) as H.
  { intros C x m Hm r tail Hok _ E. eexists. split; [by eapply Hm|].
    split; [by eapply ok_advance|]. split; [done|by apply rest_advance]. }
  split; [|split; by apply H]. intros w _ _. eexists. split; [apply Hw|]. done.
Qed.

Lemma codec_same {A} (c : unit) (wr : ST writer unit) (rd : ST ByteReader A) bs a :
  writes wr bs tt -> reads rd bs a -> codec (P := BinaryProtocol) c wr rd a rd a c.
Proof. intros. by eapply codec_bytes. Qed.

Lemma writes_U8 b : is_byte b -> writes (writeU8 b) [b] tt.
Proof. intros Hb. unfold writeU8. rewrite js_and_byte by done. apply writes_append. Qed.

Lemma value_type_byte ty : value_type ty -> is_byte ty /\ ty <> TType.STOP.
Proof.
  unfold value_type, is_byte.
  intros [->|[->|[->|[->|[->|[->|[->|[->|[->|[->| ->]]]]]]]]]]; split; by vm_compute.
Qed.

Lemma size_int n : 0 <= n < 2 ^ 31 -> is_int 32 n.
Proof. apply is_int32_nonneg. Qed.

Lemma binary_field_begin c ty id :
  value_type ty -> is_int 16 id ->
  let h := {| fh_name := []; fh_type := ty; fh_id := id |} in
  codec (P := BinaryProtocol) c (b_writeFieldBegin [] ty id) b_readFieldBegin h b_readFieldBegin h c.
Proof.
  intros Hty Hid h. destruct (value_type_byte ty Hty) as [Hb Hs]. eapply codec_same.
  - eapply writes_bind; [by apply writes_U8|apply writes_append].
  - eapply reads_bind; [apply reads_U8|]. cbv beta.
    replace (ty =? TType.STOP) with false by lia.
    eapply reads_map; [by apply reads_I16BE|done].
Qed.

Lemma binary_bool c b : codec (P := BinaryProtocol) c (b_writeBool b) b_readBool b b_readBool b c.
Proof.
  apply (codec_same _ _ _ [if b then 1 else 0]).
  - apply writes_U8. unfold is_byte. destruct b; lia.
  - eapply reads_map; [apply reads_U8|]. by destruct b.
Qed.

(** Header and value of a boolean field, read in sequence. *)
Lemma binary_field_bool c id b :
  is_int 16 id ->
  let h := {| fh_name := []; fh_type := TType.BOOL; fh_id := id |} in
  let rd := h ← b_readFieldBegin; v ← b_readBool; mret (h, v) in
  codec (P := BinaryProtocol) c (b_writeFieldBegin [] TType.BOOL id;; b_writeBool b)
    rd (h, b) rd (h, b) c.
Proof.
  intros Hid h rd.
  apply (@codec_seq BinaryProtocol BinaryFraming) with (c1 := c) (a1 := h) (b1 := h);
    [by apply binary_field_begin; [unfold value_type; tauto|]|].
  eapply (@codec_map BinaryProtocol BinaryFraming); [apply binary_bool|done|done].
Qed.

Lemma binary_list_begin c ty n :
  value_type ty -> 0 <= n < 2 ^ 31 ->
  let h := {| list_elemType := ty; list_size := n |} in
  codec (P := BinaryProtocol) c (b_writeListBegin ty n) b_readListBegin h b_readListBegin h c.
Proof.
  intros Hty Hn%size_int h. destruct (value_type_byte ty Hty) as [Hb _]. eapply codec_same.
  - eapply writes_bind; [by apply writes_U8|apply writes_append].
  - eapply reads_bind; [apply reads_U8|]. eapply reads_map; [by apply reads_I32BE|done].
Qed.

Lemma binary_map_begin c kt vt n :
  value_type kt -> value_type vt -> 0 <= n < 2 ^ 31 ->
  let h := {| map_keyType := kt; map_valueType := vt; map_size := n |} in
  codec (P := BinaryProtocol) c (b_writeMapBegin kt vt n) b_readMapBegin h b_readMapBegin h c.
Proof.
  intros Hk Hv Hn%size_int h. destruct (value_type_byte kt Hk) as [Hkb _].
  destruct (value_type_byte vt Hv) as [Hvb _]. eapply codec_same.
  - eapply writes_bind; [by apply writes_U8|].
    eapply writes_bind; [by apply writes_U8|apply writes_append].
  - eapply reads_bind; [apply reads_U8|]. eapply reads_bind; [apply reads_U8|].
    eapply reads_map; [by apply reads_I32BE|done].
Qed.

Lemma binary_map_header c kt vt n :
  value_type kt -> value_type vt -> 0 <= n < 2 ^ 31 ->
  let tys := if n =? 0 then (kt, vt) else (kt, vt) in
  let h := {| map_keyType := tys.1; map_valueType := tys.2; map_size := n |} in
  codec (P := BinaryProtocol) c (b_writeMapBegin kt vt n) b_readMapBegin h b_readMapBegin h c.
Proof. intros ? ? ? tys h. unfold h, tys. destruct (n =? 0); by apply binary_map_begin. Qed.

Lemma writes_String s :
  writes (b_writeStringValue s) (be_bytes 4 (zlen (encodeUtf8 s)) ++ encodeUtf8 s) tt.
Proof. eapply writes_bind; apply writes_append. Qed.

Lemma reads_StringValue s :
  plain_string s -> zlen (encodeUtf8 s) < 2 ^ 31 ->
  reads b_readStringValue (be_bytes 4 (zlen (encodeUtf8 s)) ++ encodeUtf8 s) s.
Proof.
  intros Hs Hl. pose proof (zlen_nonneg (encodeUtf8 s)).
  eapply reads_bind; [by apply reads_I32BE, size_int|]. by apply reads_String.
Qed.

Lemma binary_string c s :
  plain_string s -> zlen (encodeUtf8 s) < 2 ^ 31 ->
  codec (P := BinaryProtocol) c (b_writeStringValue s) b_readStringValue s
    b_readBinary (encodeUtf8 s) c.
Proof.
  intros Hs Hl. pose proof (zlen_nonneg (encodeUtf8 s)).
  eapply codec_bytes; [apply writes_String|by apply reads_StringValue|].
  eapply reads_bind; [by apply reads_I32BE, size_int|]. apply reads_Bytes.
Qed.

Lemma binary_nop {A} c (a : A) : codec (P := BinaryProtocol) c (mret tt : ST writer unit)
  (mret a : ST ByteReader A) a (mret a : ST ByteReader A) a c.
Proof. apply (@codec_ret BinaryProtocol BinaryFraming). Qed.

Lemma binary_field_stop c :
  let h := {| fh_name := []; fh_type := TType.STOP; fh_id := 0 |} in
  codec (P := BinaryProtocol) c b_writeFieldStop b_readFieldBegin h b_readFieldBegin h c.
Proof.
  intros h. eapply codec_same; [by apply writes_U8|]. eapply reads_map; [apply reads_U8|done].
Qed.

Lemma binary_byte c x :
  is_int 8 x -> codec (P := BinaryProtocol) c (writeU8 x) readI8 x readI8 x c.
Proof.
  intros Hx. eapply codec_same; [|by apply reads_I8].
  unfold writeU8. rewrite (js_and_ones _ _ 8) by lia. apply writes_append.
Qed.

(** A big-endian number of [n] bytes. *)
Lemma binary_fixed {A} c n (f : A -> Z) (rd : ST ByteReader A) x :
  reads rd (be_bytes n (f x)) x ->
  codec (P := BinaryProtocol) c (append (be_bytes n (f x))) rd x rd x c.
Proof. intros H. eapply codec_same; [apply writes_append|exact H]. Qed.

#[export] Instance BinaryLaws : ProtocolLaws BinaryProtocol BinaryFraming := {
  enter := fun c => c;
  leave := fun c => c;
  after_field := fun _ c => c;
  empty_map_types := fun kt vt => (kt, vt);
  leave_enter := fun c => eq_refl;
  leave_after_field := fun _ c => eq_refl;
  law_struct_begin := fun c => binary_nop c None;
  law_struct_end := fun c => binary_nop c tt;
  law_field_stop := binary_field_stop;
  law_field_begin := fun c ty id Hty _ Hid => binary_field_begin c ty id Hty Hid;
  law_field_bool := binary_field_bool;
  law_field_end := fun c => binary_nop c tt;
  law_list_begin := binary_list_begin;
  law_list_end := fun c => binary_nop c tt;
  law_set_begin := binary_list_begin;
  law_set_end := fun c => binary_nop c tt;
  law_map_begin := binary_map_header;
  law_map_end := fun c => binary_nop c tt;
  law_bool := binary_bool;
  law_byte := binary_byte;
  law_i16 := fun c x H => binary_fixed c 2 id readI16BE x (reads_I16BE x H);
  law_i32 := fun c x H => binary_fixed c 4 id readI32BE x (reads_I32BE x H);
  law_i64 := fun c x H => binary_fixed c 8 id readI64BE x (reads_I64BE x H);
  law_double := fun c x H => binary_fixed c 8 id readF64BE x (reads_F64BE x H);
  law_string := binary_string;
}.

(** ** Consumption *)

#[export] Instance BinaryConsuming : Consuming BinaryProtocol := {
  r_wf := fun r : ByteReader => reader_ok r;
  weight := fun r : ByteReader => (length (rd_bytes r) - rd_pos r)%nat;
}.

Lemma consumes_progress {A} k (rd : ST ByteReader A) :
  progress k rd -> consumes (P := BinaryProtocol) k rd.
Proof.
  intros H r Hr. specialize (H r Hr). destruct (rd r) as [[a r1]|e]; [|done].
  destruct H as (Hr1 & Hb & Hp). simpl. unfold reader_ok in *. rewrite Hb in *.
  split; [done|lia].
Qed.

Lemma consumes_at_least {A} k (rd : ST ByteReader A) :
  progress (S k) rd -> consumes (P := BinaryProtocol) 1 rd.
Proof. intros H. apply consumes_progress. by apply (progress_weaken (S k)); [lia|]. Qed.

Lemma progress_field : progress 1 b_readFieldBegin.
Proof.
  apply progress_bind0; [apply progress_U8|]. intros ty.
  destruct (ty =? TType.STOP); [apply progress_ret|].
  apply (progress_bind0 0); [|intros; apply progress_ret].
  apply (progress_weaken 2); [lia|apply progress_I16BE].
Qed.

Lemma progress_size : progress 0 readI32BE.
Proof. apply (progress_weaken 4); [lia|apply progress_I32BE]. Qed.

Lemma progress_list : progress 1 b_readListBegin.
Proof.
  apply progress_bind0; [apply progress_U8|]. intros ty.
  apply (progress_bind0 0); [apply progress_size|]. intros. apply progress_ret.
Qed.

Lemma progress_map : progress 1 b_readMapBegin.
Proof.
  apply progress_bind0; [apply progress_U8|]. intros kt. apply (progress_bind0 0).
  { apply (progress_weaken 1); [lia|apply progress_U8]. }
  intros vt. apply (progress_bind0 0); [apply progress_size|]. intros. apply progress_ret.
Qed.

Lemma progress_bool : progress 1 b_readBool.
Proof. apply progress_bind0; [apply progress_U8|]. intros. apply progress_ret. Qed.
Lemma progress_text : progress 4 b_readStringValue.
Proof. apply progress_bind0; [apply progress_I32BE|]. intros. apply progress_String. Qed.
Lemma progress_binary : progress 4 b_readBinary.
Proof. apply progress_bind0; [apply progress_I32BE|]. intros. apply progress_Bytes. Qed.

#[export] Instance BinaryConsumingLaws : ConsumingLaws BinaryProtocol BinaryConsuming := {
  c_struct_begin := consumes_progress 0 _ (progress_ret None);
  c_struct_end := consumes_progress 0 _ (progress_ret tt);
  c_field_begin := consumes_progress 1 _ progress_field;
  c_field_end := consumes_progress 0 _ (progress_ret tt);
  c_list_begin := consumes_progress 1 _ progress_list;
  c_list_end := consumes_progress 0 _ (progress_ret tt);
  c_set_begin := consumes_progress 1 _ progress_list;
  c_set_end := consumes_progress 0 _ (progress_ret tt);
  c_map_begin := consumes_progress 1 _ progress_map;
  c_map_end := consumes_progress 0 _ (progress_ret tt);
  c_bool := consumes_progress 1 _ progress_bool;
  c_byte := consumes_progress 1 _ progress_I8;
  c_i16 := consumes_at_least 1 _ progress_I16BE;
  c_i32 := consumes_at_least 3 _ progress_I32BE;
  c_i64 := consumes_at_least 7 _ progress_I64BE;
  c_double := consumes_at_least 7 _ progress_F64BE;
  c_string := consumes_at_least 3 _ progress_text;
  c_binary := consumes_at_least 3 _ progress_binary;
}.

(** ** Whole values and messages *)

(** This protocol carries the types of empty maps. *)
Lemma canon_binary v : canon (L := BinaryLaws) v = v.
Proof.
  assert (forall (vs : list ThriftValue),
    Forall (fun v => canon (L := BinaryLaws) v = v) vs -> map (canon (L := BinaryLaws)) vs = vs) as Hvs.
  { induction 1; simpl; by f_equal. }
  induction v as [b|x|x|x|x|x|s|fs IH|ty vs IH|ty vs IH|kt vt es IH] using value_ind;
    cbn [canon]; try done.
  - f_equal. induction IH as [|[id v] fs Hv _ IHl]; [done|]. simpl in *. by rewrite Hv, IHl.
  - by rewrite Hvs.
  - by rewrite Hvs.
  - cbn [empty_map_types BinaryLaws]. destruct (zlen es =? 0); cbn [fst snd]; f_equal;
      (induction IH as [|[k v] es [Hk Hv] _ IHl]; [done|]; simpl in *; by rewrite Hk, Hv, IHl).
Qed.

(** C2: every well-formed Thrift value survives the binary protocol
    unchanged: [writeValue] on an empty writer succeeds, reading back its
    bytes, whatever follows them, gives the same value and stops right after
    it, and [skip] stops at the same place. *)
Theorem binary_roundtrip (v : ThriftValue) :
  wf v ->
  exists out, writeValue (P := BinaryProtocol) v [] = Ok (tt, out) /\
  forall tail fuel, (value_fuel v <= fuel)%nat ->
    (exists r, readValue (P := BinaryProtocol) fuel (type_of v) (new_reader (out ++ tail)) = Ok (v, r)
               /\ rest r = tail) /\
    (exists r, skip (P := BinaryProtocol) fuel (type_of v) (new_reader (out ++ tail)) = Ok (tt, r)
               /\ rest r = tail).
Proof.
  intros Hv. pose proof (@value_codec_wf _ _ BinaryLaws v Hv tt) as Hc.
  destruct (Hc (value_fuel v)) as (bs & He & _ & _); [lia|].
  destruct (He []) as (w & Ew & _ & _ & _); [done|done|].
  exists w. split; [done|]. intros tail fuel Hf.
  destruct (Hc fuel Hf) as (bs' & He' & Ha & Hs). rewrite canon_binary in Ha.
  destruct (He' []) as (w' & Ew' & _ & _ & Eo'); [done|done|].
  rewrite Ew in Ew'. injection Ew' as <-. simpl in Eo'. subst bs'.
  destruct (Ha (new_reader (w ++ tail)) tail) as (r1 & E1 & _ & _ & R1);
    [apply new_reader_ok|done|done|].
  destruct (Hs (new_reader (w ++ tail)) tail) as (r2 & E2 & _ & _ & R2);
    [apply new_reader_ok|done|done|].
  split; [by exists r1|by exists r2].
Qed.

Lemma binary_roundtrip_witness :
  let v := VStruct [(1, VBool false); (-2, VMap TType.I16 TType.DOUBLE [(VI16 (-9), VDouble 5)])] in
  exists out, writeValue (P := BinaryProtocol) v [] = Ok (tt, out) /\
  forall tail fuel, (value_fuel v <= fuel)%nat ->
    (exists r, readValue (P := BinaryProtocol) fuel (type_of v) (new_reader (out ++ tail)) = Ok (v, r)
               /\ rest r = tail) /\
    (exists r, skip (P := BinaryProtocol) fuel (type_of v) (new_reader (out ++ tail)) = Ok (tt, r)
               /\ rest r = tail).
Proof.
  intros v. apply (binary_roundtrip v). unfold v. simpl. unfold is_int, value_type.
  split; [apply (bool_decide_eq_true_1 _); reflexivity|].
  repeat split; (tauto || lia || (vm_compute; reflexivity) || (vm_compute; discriminate)).
Defined.

(** Reading and skipping end on every input of the binary protocol: with
    fuel linear in the number of bytes, [readValue] and [skip] return or
    throw an error of the code, whatever sizes the input declares. *)
Theorem binary_read_terminates (input : list Z) (type : Z) :
  let fuel := (3 * length input + 2)%nat in
  match readValue (P := BinaryProtocol) fuel type (new_reader input) with
  | Ok (_, r) => reader_ok r
  | Throw e => e <> Diverges
  end /\
  match skip (P := BinaryProtocol) fuel type (new_reader input) with
  | Ok (_, r) => reader_ok r
  | Throw e => e <> Diverges
  end.
Proof.
  intros fuel. set (r0 := new_reader input).
  assert (reader_ok r0) as Hr by apply new_reader_ok.
  assert (weight (Consuming := BinaryConsuming) r0 <= length input)%nat as Hw by (simpl; lia).
  assert (3 * length input + 2 <= fuel)%nat as Hf by (unfold fuel; lia).
  split.
  - pose proof (proj1 (@read_within _ _ BinaryConsumingLaws fuel) _ type Hf r0 Hr Hw) as H.
    destruct (readValue (P := BinaryProtocol) fuel type r0) as [[v r]|e]; [|done]. apply H.
  - pose proof (proj1 (@skip_within _ _ BinaryConsumingLaws fuel) _ type Hf r0 Hr Hw) as H.
    destruct (skip (P := BinaryProtocol) fuel type r0) as [[v r]|e]; [|done]. apply H.
Qed.

(** The version word carries the message type in its low byte. *)
Definition version_ok (type : Z) : bool :=
  let w := signedN 32 (be_val (be_bytes 4 (js_or VERSION_1 (js_and type TYPE_MASK)))) in
  (w <? 0) && (js_ushr (js_and w VERSION_MASK) 0 =? VERSION_1) && (js_and w TYPE_MASK =? type).

Lemma version_word type : is_byte type ->
  let w := js_or VERSION_1 (js_and type TYPE_MASK) in
  is_int 32 w /\ (w <? 0) = true /\ js_ushr (js_and w VERSION_MASK) 0 = VERSION_1 /\
  js_and w TYPE_MASK = type.
Proof.
  intros H w. assert (version_ok type = true) as Hv.
  { apply byte_forallb; [vm_compute; reflexivity|done]. }
  assert (is_int 32 w) as Hw.
  { unfold w, TYPE_MASK. rewrite js_and_byte by done. unfold is_byte in H. unfold is_int.
    unfold js_or. change (toInt32 VERSION_1) with (-32767 * 2 ^ 16).
    rewrite toInt32_small by (apply is_int32_nonneg; lia).
    rewrite (lor_high _ (-32767) _ 16) by lia. lia. }
  split; [done|]. unfold version_ok in Hv. fold w in Hv.
  rewrite (be_signed_roundtrip 4) in Hv by (done || lia).
  apply andb_true_iff in Hv as [[? ?%Z.eqb_eq]%andb_true_iff ?%Z.eqb_eq]. done.
Qed.

(** Message headers survive the binary protocol: name, message type (one
    byte) and signed 32-bit sequence number are read back through the
    versioned header, and the reader stops right after it. *)
Theorem binary_message_roundtrip (name : jsstring) (type seqid : Z) (tail : list Z) :
  plain_string name -> zlen (encodeUtf8 name) < 2 ^ 31 -> is_byte type -> is_int 32 seqid ->
  exists out r, b_writeMessageBegin name type seqid [] = Ok (tt, out) /\
    b_readMessageBegin (new_reader (out ++ tail)) =
      Ok ({| mh_name := name; mh_type := type; mh_seqid := seqid |}, r) /\
    rest r = tail.
Proof.
  intros Hn Hl Ht Hs. destruct (version_word type Ht) as (Hw & Hneg & Hver & Hty).
  set (w := js_or VERSION_1 (js_and type TYPE_MASK)) in *.
  set (str := be_bytes 4 (zlen (encodeUtf8 name)) ++ encodeUtf8 name).
  set (bs := be_bytes 4 w ++ str ++ be_bytes 4 seqid).
  assert (writes (b_writeMessageBegin name type seqid) bs tt) as Hwr.
  { eapply writes_bind; [apply writes_append|].
    eapply writes_bind; [apply writes_String|apply writes_append]. }
  assert (reads b_readMessageBegin bs
    {| mh_name := name; mh_type := type; mh_seqid := seqid |}) as Hrd.
  { eapply reads_bind; [by apply reads_I32BE|]. cbv beta. rewrite Hneg. cbv zeta.
    rewrite Hver, Hty. change (negb (VERSION_1 =? VERSION_1)) with false. cbv iota.
    eapply reads_bind; [by apply reads_StringValue|].
    eapply reads_map; [by apply reads_I32BE|done]. }
  exists bs, (advance (zlen bs) (new_reader (bs ++ tail))).
  split; [apply (Hwr [])|]. split.
  - apply (Hrd _ tail); [apply new_reader_ok|done].
  - by apply rest_advance.
Qed.

Lemma binary_message_roundtrip_witness :
  exists out r, b_writeMessageBegin (js "add") 2 77 [] = Ok (tt, out) /\
    b_readMessageBegin (new_reader (out ++ [])) =
      Ok ({| mh_name := js "add"; mh_type := 2; mh_seqid := 77 |}, r) /\
    rest r = [].
Proof.
  apply (binary_message_roundtrip (js "add") 2 77 []).
  - split; [by repeat (constructor; [unfold is_unit; vm_compute; intuition discriminate|])|done].
  - by vm_compute.
  - unfold is_byte. lia.
  - unfold is_int. lia.
Defined.
End ThriftBinary.
