(* ===== verification/Protobuf.v ===== *)
(** The protobuf codec (src/js/format/protobuf.ts): the growing [Writer], the
    [Reader], schemas, and messages.

    A [FieldType] is a scalar type or the codec of a nested message, which
    holds its compiled schema.  A JavaScript value is a [value]; a number is a
    binary64 bit pattern ([JsNumber]), an object the list of its own
    properties (schemas name no property of Object.prototype). *)

From stdpp Require Import sorting.
From S2P Require Import Prelude JsNumber Utf8 ThriftIO.

Module Protobuf.
Import JsNumber Utf8.

Definition _maxFieldNumber : Z := 536870911.

Inductive ScalarType :=
| int32 | uint32 | sint32 | fixed32 | sfixed32 | float | double | enum
| int64 | uint64 | sint64 | fixed64 | sfixed64
| bool_ | string_ | bytes_.

Record RuntimeField (T : Type) := Field {
  name : jsstring; number : Z; type : T; repeated : bool; packed : bool; optional : bool
}.
Arguments Field {T} _ _ _ _ _ _.
Arguments name {T} _.
Arguments number {T} _.
Arguments type {T} _.
Arguments repeated {T} _.
Arguments packed {T} _.
Arguments optional {T} _.

Inductive FieldType :=
| Scalar (t : ScalarType)
| Codec (fields : list (RuntimeField FieldType)) (byNumber : list (Z * RuntimeField FieldType)).

Inductive value :=
| VUndefined
| VNull
| VBool (b : bool)
| VNumber (bits : Z)
| VBigInt (z : Z)
| VString (s : jsstring)
| VBytes (bs : list Z)
| VArray (l : list value)
| VObject (m : list (jsstring * value)).

Definition fail {S A} (msg : string) : ST S A := throw (ProtobufError None msg).

(** ** Writer *)

Record Writer := { buffer : list Z; len : Z }.
Definition new_Writer : Writer := {| buffer := replicate 64 0; len := 0 |}.

(** [while (capacity < required) capacity *= 2] *)
Fixpoint reserve_loop (fuel : nat) (capacity required : Z) : res Z :=
  if capacity <? required then
    match fuel with O => Throw Diverges | S fuel => reserve_loop fuel (capacity * 2) required end
  else Ok capacity.
Definition reserve (additional : Z) : ST Writer unit := fun w =>
  let required := len w + additional in
  if required <=? zlen (buffer w) then Ok (tt, w)
  else
    capacity ← reserve_loop 64 (zlen (buffer w)) required;
    Ok (tt, {| buffer := buffer w ++ replicate (Z.to_nat capacity - length (buffer w)) 0; len := len w |}).
Definition put (bs : list Z) : ST Writer unit := fun w =>
  Ok (tt, {| buffer := take (Z.to_nat (len w)) (buffer w) ++ bs ++ drop (Z.to_nat (len w) + length bs) (buffer w);
             len := len w + zlen bs |}).
Definition w_byte (v : Z) : ST Writer unit := reserve 1;; put [v mod 256].
Definition w_bytes (v : list Z) : ST Writer unit := reserve (zlen v);; put v.

Fixpoint w_varint_loop (fuel : nat) (v : Z) : ST Writer unit :=
  match fuel with
  | O => throw Diverges
  | S fuel =>
      if 128 <=? v then
        w_byte (Z.land v 127 |₃₂ 128);; w_varint_loop fuel (Z.shiftr v 7)
      else w_byte v
  end.
Definition w_varint (v : Z) : ST Writer unit :=
  if (v <? 0) || (18446744073709551615 <? v) then fail "varint is outside the unsigned 64-bit range"
  else w_varint_loop 10 v.
Definition w_tag (fieldNumber wireType : Z) : ST Writer unit := w_varint (fieldNumber * 8 + wireType).
Definition w_lengthDelimited (v : list Z) : ST Writer unit := w_varint (zlen v);; w_bytes v.
(** [setInt32] and [setUint32] store the same low 32 bits, [setBigInt64] and
    [setBigUint64] the same low 64. *)
Definition w_fixed32 (v : Z) : ST Writer unit := w_bytes (le_bytes 4 v).
Definition w_float (v : Z) : ST Writer unit := w_bytes (le_bytes 4 (to_float32 v)).
Definition w_fixed64 (v : Z) : ST Writer unit := w_bytes (le_bytes 8 v).
Definition w_double (v : Z) : ST Writer unit := w_bytes (le_bytes 8 v).
Definition finish (w : Writer) : list Z := take (Z.to_nat (len w)) (buffer w).

(** ** Reader *)

Record Reader := { bytes : list Z; offset : Z; end_ : Z }.
Definition new_Reader (bs : list Z) : Reader := {| bytes := bs; offset := 0; end_ := zlen bs |}.
Definition move (n : Z) (r : Reader) : Reader := {| bytes := bytes r; offset := offset r + n; end_ := end_ r |}.
Definition done (r : Reader) : bool := end_ r <=? offset r.
Definition fail_at {A} (at_ : Z) (msg : string) : ST Reader A := throw (ProtobufError (Some at_) msg).
Definition require (size : Z) : ST Reader unit := fun r =>
  if (size <? 0) || (end_ r <? offset r + size) then fail_at (offset r) "truncated protobuf message" r
  else Ok (tt, r).
(** The [n] bytes at the cursor, which then moves past them. *)
Definition view (n : Z) : ST Reader (list Z) := fun r =>
  Ok (slice (offset r) (offset r + n) (bytes r), move n r).

Fixpoint r_varint_loop (fuel : nat) (start shift value : Z) : ST Reader Z :=
  match fuel with
  | O => fail_at start "varint exceeds 10 bytes"
  | S fuel =>
      require 1;;
      l ← view 1;
      let byte := le_val l in
      if (shift =? 63) && (1 <? byte) then fail_at start "varint exceeds 64 bits"
      else
        let value := Z.lor value (Z.shiftl (byte &₃₂ 127) shift) in
        if (byte &₃₂ 128) =? 0 then mret value
        else r_varint_loop fuel start (shift + 7) value
  end.
Definition r_varint : ST Reader Z := fun r => r_varint_loop 10 (offset r) 0 0 r.
Definition r_tag : ST Reader (Z * Z) := fun r =>
  (tag ← r_varint;
   let wireType := Z.land tag 7 in
   let number := Z.shiftr tag 3 in
   if (number <? 1) || (_maxFieldNumber <? number) then fail_at (offset r) "invalid field number"
   else if 5 <? wireType then fail_at (offset r) "invalid wire type"
   else mret (number, wireType)) r.
Definition r_length : ST Reader Z := fun r =>
  (value ← r_varint;
   if 9007199254740991 <? value then fail_at (offset r) "length exceeds JavaScript safe integer range"
   else require value;; mret value) r.
Definition r_slice (n : Z) : ST Reader (list Z) := require n;; view n.
Definition r_fixed32 (signed : bool) : ST Reader Z :=
  require 4;; l ← view 4; mret (if signed then signedN 32 (le_val l) else le_val l).
Definition r_float : ST Reader Z := require 4;; l ← view 4; mret (of_float32 (le_val l)).
Definition r_fixed64 (signed : bool) : ST Reader Z :=
  require 8;; l ← view 8; mret (if signed then signedN 64 (le_val l) else le_val l).
Definition r_double : ST Reader Z := require 8;; l ← view 8; mret (of_float64 (le_val l)).

(** The loop of [skip] over the fields of a group. *)
Fixpoint skip_group (skip : Z -> Z -> ST Reader unit) (fuel : nat) (fieldNumber : Z) (r : Reader) : res (unit * Reader) :=
  if done r then fail_at (offset r) "unterminated group" r
  else
    match fuel with
    | O => Throw Diverges
    | S fuel =>
        '((tagNumber, tagType), r) ← r_tag r;
        if tagType =? 4 then
          if negb (tagNumber =? fieldNumber) then fail_at (offset r) "mismatched end-group field number" r
          else Ok (tt, r)
        else '(_, r) ← skip tagType tagNumber r; skip_group skip fuel fieldNumber r
    end.
(** The fuel bounds the groups inside each other and the fields of one. *)
Fixpoint skip (fuel : nat) (wireType fieldNumber : Z) : ST Reader unit :=
  match fuel with
  | O => throw Diverges
  | S fuel =>
      if wireType =? 0 then r_varint;; mret tt
      else if wireType =? 1 then r_slice 8;; mret tt
      else if wireType =? 2 then n ← r_length; r_slice n;; mret tt
      else if wireType =? 3 then skip_group (skip fuel) fuel fieldNumber
      else if wireType =? 4 then fun r => fail_at (offset r) "unexpected end-group tag" r
      else if wireType =? 5 then r_slice 4;; mret tt
      else fun r => fail_at (offset r) "invalid wire type" r
  end.
Definition skip_field (wireType fieldNumber : Z) : ST Reader unit := fun r =>
  skip (S (length (bytes r))) wireType fieldNumber r.

(** ** Types and checks *)

Definition _isCodec (t : FieldType) : bool := match t with Codec _ _ => true | Scalar _ => false end.
Definition _wireType (t : FieldType) : Z :=
  match t with
  | Codec _ _ | Scalar (string_ | bytes_) => 2
  | Scalar (fixed64 | sfixed64 | double) => 1
  | Scalar (fixed32 | sfixed32 | float) => 5
  | Scalar _ => 0
  end.
Definition _isPackable (t : FieldType) : bool :=
  match t with Codec _ _ | Scalar (string_ | bytes_) => false | Scalar _ => true end.

Definition _number (v : value) : res Z :=
  match v with VNumber b => Ok b | _ => Throw (ProtobufError None "field requires a number") end.
Definition _integer (v : value) (min max : Z) : res Z :=
  b ← _number v;
  match integer_of b with
  | Some z => if (z <? min) || (max <? z) then Throw (ProtobufError None "field is outside its integer range") else Ok z
  | None => Throw (ProtobufError None "field is outside its integer range")
  end.
Definition _bigint (v : value) (signed : bool) : res Z :=
  match v with
  | VBigInt z =>
      let min := if signed then - Z.shiftl 1 63 else 0 in
      let max := if signed then Z.shiftl 1 63 - 1 else Z.shiftl 1 64 - 1 in
      if (z <? min) || (max <? z) then Throw (ProtobufError None "field is outside its 64-bit range") else Ok z
  | _ => Throw (ProtobufError None "field requires a bigint")
  end.
Definition min32 : Z := -2147483648.
Definition max32 : Z := 2147483647.
Definition umax32 : Z := 4294967295.

(** ** Encoding *)

Definition _encodeScalar (t : ScalarType) (v : value) : ST Writer unit :=
  match t with
  | bool_ => match v with
             | VBool b => w_varint (if b then 1 else 0)
             | _ => fail "bool field requires a boolean"
             end
  | int32 | enum => n ← liftR (_integer v min32 max32); w_varint (asUintN 64 n)
  | uint32 => n ← liftR (_integer v 0 umax32); w_varint n
  | sint32 =>
      n ← liftR (_integer v min32 max32);
      w_varint (asUintN 32 (Z.lxor (Z.shiftl n 1) (Z.shiftr n 31)))
  | int64 => n ← liftR (_bigint v true); w_varint (asUintN 64 n)
  | uint64 => n ← liftR (_bigint v false); w_varint n
  | sint64 =>
      n ← liftR (_bigint v true);
      w_varint (asUintN 64 (Z.lxor (Z.shiftl n 1) (Z.shiftr n 63)))
  | fixed32 => n ← liftR (_integer v 0 umax32); w_fixed32 n
  | sfixed32 => n ← liftR (_integer v min32 max32); w_fixed32 n
  | float => n ← liftR (_number v); w_float n
  | fixed64 => n ← liftR (_bigint v false); w_fixed64 n
  | sfixed64 => n ← liftR (_bigint v true); w_fixed64 n
  | double => n ← liftR (_number v); w_double n
  | string_ | bytes_ => fail "not a scalar wire value"
  end.

(** [record[field.name]] *)
Definition prop (m : list (jsstring * value)) (k : jsstring) : value :=
  match JMap.get k m with Some v => v | None => VUndefined end.

Definition _defaultValue (t : FieldType) : value :=
  match t with
  | Codec _ _ => VUndefined
  | Scalar bool_ => VBool false
  | Scalar string_ => VString []
  | Scalar bytes_ => VBytes []
  | Scalar (int64 | uint64 | sint64 | fixed64 | sfixed64) => VBigInt 0
  | Scalar _ => VNumber (number_of 0)
  end.
Definition _isDefault (t : FieldType) (v : value) : bool :=
  match t with
  | Codec _ _ => match v with VUndefined => true | _ => false end
  | Scalar bool_ => match v with VBool b => negb b | _ => false end
  | Scalar string_ => match v with VString s => zlen s =? 0 | _ => false end
  | Scalar bytes_ => match v with VBytes bs => zlen bs =? 0 | _ => false end
  | Scalar _ => match v with VBigInt z => z =? 0 | VNumber b => is_zero b | _ => false end
  end.

(** The bytes that code running on a fresh [Writer] leaves. *)
Definition with_writer (m : ST Writer unit) : res (list Z) :=
  match m new_Writer with Ok (_, w) => Ok (finish w) | Throw e => Throw e end.

(** One round of the loop of [_encodeMessage]; [encodeValue] is [_encodeValue]. *)
Definition encodeField (encodeValue : FieldType -> value -> ST Writer unit)
    (m : list (jsstring * value)) (field : RuntimeField FieldType) : ST Writer unit :=
  let current := prop m (name field) in
  if repeated field then
    match current with
    | VArray items =>
        if zlen items =? 0 then mret tt
        else if packed field then
          bs ← liftR (with_writer (forEach (fun item =>
                 match type field with
                 | Scalar t => _encodeScalar t item
                 | Codec _ _ => fail "not a scalar wire value"
                 end) items));
          w_tag (number field) 2;;
          w_lengthDelimited bs
        else
          forEach (fun item => w_tag (number field) (_wireType (type field));; encodeValue (type field) item) items
    | _ => fail "repeated field requires an array"
    end
  else
    match current with
    | VUndefined =>
        if optional field || _isCodec (type field) then mret tt else fail "field is undefined"
    | _ =>
        if negb (optional field) && _isDefault (type field) current then mret tt
        else w_tag (number field) (_wireType (type field));; encodeValue (type field) current
    end.

Fixpoint _encodeValue (t : FieldType) (v : value) : ST Writer unit :=
  match t with
  | Codec fields _ =>
      match v with
      | VObject m =>
          bs ← liftR (with_writer (forEach (encodeField _encodeValue m) fields));
          w_lengthDelimited bs
      | VArray _ | VBytes _ =>
          bs ← liftR (with_writer (forEach (encodeField _encodeValue []) fields));
          w_lengthDelimited bs
      | _ => fail "message field requires an object"
      end
  | Scalar string_ => match v with
                      | VString s => w_lengthDelimited (TextEncoder_encode s)
                      | _ => fail "string field requires a string"
                      end
  | Scalar bytes_ => match v with
                     | VBytes bs => w_lengthDelimited bs
                     | _ => fail "bytes field requires a Uint8Array"
                     end
  | Scalar t => _encodeScalar t v
  end.
Definition _encodeMessage (fields : list (RuntimeField FieldType)) (v : value) : res (list Z) :=
  match v with
  | VObject m => with_writer (forEach (encodeField _encodeValue m) fields)
  | VArray _ | VBytes _ => with_writer (forEach (encodeField _encodeValue []) fields)
  | _ => Throw (ProtobufError None "message value must be an object")
  end.

(** ** Decoding *)

Definition zigzag_decode (bits v : Z) : Z :=
  signedN bits (Z.lxor (Z.shiftr v 1) (- Z.land v 1)).
Definition _decodeScalar (t : ScalarType) : ST Reader value :=
  match t with
  | bool_ => v ← r_varint; mret (VBool (negb (v =? 0)))
  | int32 | enum => v ← r_varint; mret (VNumber (number_of (signedN 32 v)))
  | uint32 => v ← r_varint; mret (VNumber (number_of (asUintN 32 v)))
  | sint32 => v ← r_varint; mret (VNumber (number_of (zigzag_decode 32 (asUintN 32 v))))
  | int64 => v ← r_varint; mret (VBigInt (signedN 64 v))
  | uint64 => v ← r_varint; mret (VBigInt (asUintN 64 v))
  | sint64 => v ← r_varint; mret (VBigInt (zigzag_decode 64 (asUintN 64 v)))
  | fixed32 => v ← r_fixed32 false; mret (VNumber (number_of v))
  | sfixed32 => v ← r_fixed32 true; mret (VNumber (number_of v))
  | float => v ← r_float; mret (VNumber v)
  | fixed64 => v ← r_fixed64 false; mret (VBigInt v)
  | sfixed64 => v ← r_fixed64 true; mret (VBigInt v)
  | double => v ← r_double; mret (VNumber v)
  | string_ | bytes_ => fun r => fail_at (offset r) "not a scalar wire value" r
  end.

(** [_textDecoder.decode]: fatal, with the byte order mark stripped. *)
Definition text_decode (bs : list Z) : res jsstring :=
  if zlen bs =? 0 then Ok [] else decodeUtf8 bs true true.
Definition _decodeValue (decode : list (RuntimeField FieldType) -> list (Z * RuntimeField FieldType) -> list Z -> res value)
    (t : FieldType) : ST Reader value :=
  match t with
  | Codec fields byNumber => n ← r_length; bs ← r_slice n; liftR (decode fields byNumber bs)
  | Scalar string_ => fun r =>
      match (n ← r_length; bs ← r_slice n; liftR (text_decode bs)) r with
      | Ok (s, r') => Ok (VString s, r')
      | Throw _ => fail_at (offset r) "string field is not valid UTF-8" r
      end
  | Scalar bytes_ => n ← r_length; bs ← r_slice n; mret (VBytes bs)
  | Scalar t => _decodeScalar t
  end.

(** [while (!packed.done) list.push(_decodeScalar(packed, type))] *)
Fixpoint packed_loop (fuel : nat) (t : ScalarType) (acc : list value) (r : Reader) : res (list value) :=
  if done r then Ok acc
  else
    match fuel with
    | O => Throw Diverges
    | S fuel => '(v, r) ← _decodeScalar t r; packed_loop fuel t (acc ++ [v]) r
    end.

(** [(value[name] as unknown[]).push(...items)] *)
Definition push (k : jsstring) (items : list value) (m : list (jsstring * value)) : res (list (jsstring * value)) :=
  match prop m k with
  | VArray l => Ok (JMap.set k (VArray (l ++ items)) m)
  | _ => Throw (TypeError "value is not an array")
  end.
(** [{ ...a, ...b }]: the properties of [a] with the values of [b] where it
    has them, then the other properties of [b]. *)
Definition merge (a b : list (jsstring * value)) : list (jsstring * value) :=
  map (fun '(k, v) => (k, match JMap.get k b with Some v' => v' | None => v end)) a ++
  base.filter (fun kv => JMap.get kv.1 a = None) b.

Section decode.
Context (decode : list (RuntimeField FieldType) -> list (Z * RuntimeField FieldType) -> list Z -> res value).
Context (byNumber : list (Z * RuntimeField FieldType)).

Definition store (field : RuntimeField FieldType) (decoded : value) (m : list (jsstring * value))
  : res (list (jsstring * value)) :=
  if repeated field then push (name field) [decoded] m
  else
    match _isCodec (type field), prop m (name field), decoded with
    | true, VObject old, VObject new => Ok (JMap.set (name field) (VObject (merge old new)) m)
    | _, _, _ => Ok (JMap.set (name field) decoded m)
    end.

(** One round of the loop of [_decodeMessage]. *)
Definition decodeField (m : list (jsstring * value)) : ST Reader (list (jsstring * value)) :=
  '(tagNumber, tagType) ← r_tag;
  match JMap.get tagNumber byNumber with
  | None => skip_field tagType tagNumber;; mret m
  | Some field =>
      if repeated field && _isPackable (type field) && (tagType =? 2) then
        n ← r_length;
        bs ← r_slice n;
        items ← liftR (match type field with
                       | Scalar t => packed_loop (length bs) t [] (new_Reader bs)
                       | Codec _ _ => Throw (ProtobufError None "not a scalar wire value")
                       end);
        liftR (push (name field) items m)
      else if negb (tagType =? _wireType (type field)) then skip_field tagType tagNumber;; mret m
      else decoded ← _decodeValue decode (type field); liftR (store field decoded m)
  end.

Fixpoint decode_loop (fuel : nat) (m : list (jsstring * value)) (r : Reader) : res (list (jsstring * value)) :=
  if done r then Ok m
  else
    match fuel with
    | O => Throw Diverges
    | S fuel => '(m, r) ← decodeField m r; decode_loop fuel m r
    end.
End decode.

Definition initial (fields : list (RuntimeField FieldType)) : list (jsstring * value) :=
  foldl (fun m field =>
    if repeated field then JMap.set (name field) (VArray []) m
    else if negb (optional field) && negb (_isCodec (type field))
         then JMap.set (name field) (_defaultValue (type field)) m
         else m) [] fields.

(** The fuel bounds the nesting of messages. *)
Fixpoint decode_nested (fuel : nat) (fields : list (RuntimeField FieldType))
    (byNumber : list (Z * RuntimeField FieldType)) (bs : list Z) : res value :=
  match fuel with
  | O => Throw Diverges
  | S fuel =>
      m ← decode_loop (decode_nested fuel) byNumber (length bs) (initial fields) (new_Reader bs);
      Ok (VObject m)
  end.
Definition _decodeMessage (fields : list (RuntimeField FieldType))
    (byNumber : list (Z * RuntimeField FieldType)) (bs : list Z) : res value :=
  decode_nested (S (length bs)) fields byNumber bs.

(** ** Schemas *)

Record FieldSchema := {
  fs_number : Z; fs_type : FieldType; fs_repeated : bool; fs_packed : option bool; fs_optional : bool
}.
(** One round of the loop of [_compileSchema]. *)
Definition compileField (st : list (RuntimeField FieldType) * list (Z * RuntimeField FieldType))
    (entry : jsstring * FieldSchema) : res (list (RuntimeField FieldType) * list (Z * RuntimeField FieldType)) :=
  let '(fields, byNumber) := st in
  let '(fname, descriptor) := entry in
  match integer_of (fs_number descriptor) with
  | None => Throw (ProtobufError None "invalid field number")
  | Some n =>
      if (n <? 1) || (_maxFieldNumber <? n) then Throw (ProtobufError None "invalid field number")
      else if (19000 <=? n) && (n <=? 19999) then Throw (ProtobufError None "field number is reserved")
      else match JMap.get n byNumber with
      | Some _ => Throw (ProtobufError None "duplicate field number")
      | None =>
          let packable := _isPackable (fs_type descriptor) in
          if bool_decide (fs_packed descriptor <> None) && (negb (fs_repeated descriptor) || negb packable)
          then Throw (ProtobufError None "packed is only valid for repeated scalar field")
          else
            let field := Field fname n (fs_type descriptor) (fs_repeated descriptor)
              (fs_repeated descriptor && packable && negb (bool_decide (fs_packed descriptor = Some false)))
              (fs_optional descriptor) in
            Ok (fields ++ [field], JMap.set n field byNumber)
      end
  end.
Fixpoint compile_loop (st : list (RuntimeField FieldType) * list (Z * RuntimeField FieldType))
    (entries : list (jsstring * FieldSchema)) : res (list (RuntimeField FieldType) * list (Z * RuntimeField FieldType)) :=
  match entries with
  | [] => Ok st
  | entry :: entries => st ← compileField st entry; compile_loop st entries
  end.
(** [(a, b) => a.number - b.number] *)
Definition number_le (a b : RuntimeField FieldType) : Prop := number a <= number b.
Global Instance number_le_dec : RelDecision number_le.
Proof. intros a b. unfold number_le. apply _. Defined.
Definition _compileSchema (schema : list (jsstring * FieldSchema))
  : res (list (RuntimeField FieldType) * list (Z * RuntimeField FieldType)) :=
  '(fields, byNumber) ← compile_loop ([], []) schema;
  Ok (merge_sort number_le fields, byNumber).
Definition defineMessage (schema : list (jsstring * FieldSchema)) : res FieldType :=
  '(fields, byNumber) ← _compileSchema schema; Ok (Codec fields byNumber).
Definition encode (codec : FieldType) (v : value) : res (list Z) :=
  match codec with Codec fields _ => _encodeMessage fields v | Scalar _ => Throw (TypeError "not a codec") end.
Definition decode (codec : FieldType) (bs : list Z) : res value :=
  match codec with Codec fields byNumber => _decodeMessage fields byNumber bs | Scalar _ => Throw (TypeError "not a codec") end.
End Protobuf.
