(* ===== verification/ProtobufWire.v ===== *)
(** The wire level of the protobuf codec: what the [Writer] writes and the
    [Reader] reads back, scalar by scalar, and that unknown fields are skipped.

    [writes m bs]: [m] appends [bs] to the buffer, growing it as needed.
    [reads rd bs a]: at an input that starts with [bs], [rd] returns [a] and
    leaves the cursor right after [bs].  [wire] is a value as the wire has it. *)

From S2P Require Import Prelude JsNumber Utf8 ThriftIO Protobuf.

Module ProtobufWire.
Import JsNumber Utf8 Protobuf.
Abbreviation varint_bytes := (ThriftIO.varint_bytes 10).

(** ** Writing *)

Definition writer_ok (w : Writer) : Prop := 0 <= len w <= zlen (buffer w) /\ 64 <= zlen (buffer w).
Definition limit : Z := 2 ^ 60.
Definition writes (m : ST Writer unit) (bs : list Z) : Prop :=
  forall w, writer_ok w -> len w + zlen bs < limit ->
  exists w', m w = Ok (tt, w') /\ writer_ok w' /\ len w' = len w + zlen bs /\ finish w' = finish w ++ bs.

Lemma reserve_loop_ok fuel capacity required :
  0 < capacity -> required <= capacity * 2 ^ Z.of_nat fuel ->
  exists c, reserve_loop fuel capacity required = Ok c /\ capacity <= c /\ required <= c.
Proof.
  revert capacity. induction fuel as [|fuel IH]; intros capacity Hc Hr; cbn [reserve_loop];
    destruct (Z.ltb_spec capacity required) as [H|H]; try (exists capacity; split; [done|lia]).
  - cbn in Hr. lia.
  - destruct (IH (capacity * 2)) as (c & E & H1 & H2); [lia| |exists c; split; [done|lia]].
    rewrite Nat2Z.inj_succ, Z.pow_succ_r in Hr by lia. lia.
Qed.

Lemma reserve_ok n w :
  writer_ok w -> 0 <= n -> len w + n < limit ->
  exists w', reserve n w = Ok (tt, w') /\ writer_ok w' /\ len w' = len w /\ finish w' = finish w /\
    len w + n <= zlen (buffer w').
Proof.
  unfold writer_ok, limit. intros [H1 H2] Hn Hl. unfold reserve.
  destruct (Z.leb_spec (len w + n) (zlen (buffer w))); [by exists w|].
  destruct (reserve_loop_ok 64 (zlen (buffer w)) (len w + n)) as (c & -> & Hc1 & Hc2); [lia|lia|].
  eexists. split; [reflexivity|]. unfold zlen, finish in *. cbn [buffer len].
  rewrite length_app, length_replicate. split; [lia|]. split; [done|].
  split; [|lia]. apply take_app_le. lia.
Qed.

Lemma put_ok bs w :
  writer_ok w -> len w + zlen bs <= zlen (buffer w) ->
  exists w', put bs w = Ok (tt, w') /\ writer_ok w' /\ len w' = len w + zlen bs /\ finish w' = finish w ++ bs.
Proof.
  unfold writer_ok. intros [H1 H2] H. eexists. split; [reflexivity|].
  unfold finish, zlen in *. cbn [buffer len]. rewrite !length_app, length_take, length_drop.
  split; [lia|]. split; [done|].
  rewrite app_assoc. rewrite take_app_le by (rewrite length_app, length_take; lia).
  apply take_ge. rewrite length_app, length_take. lia.
Qed.

Lemma writes_nil : writes (mret tt) [].
Proof. intros w Hw _. exists w. rewrite app_nil_r. split_and!; [done|done| |done]. unfold zlen. cbn. lia. Qed.

Lemma writes_app m1 m2 bs1 bs2 : writes m1 bs1 -> writes m2 bs2 -> writes (m1;; m2) (bs1 ++ bs2).
Proof.
  intros H1 H2 w Hw Hl. rewrite zlen_app in Hl. pose proof (zlen_nonneg bs2).
  destruct (H1 w) as (w1 & E1 & Hw1 & L1 & F1); [done|lia|].
  destruct (H2 w1) as (w2 & E2 & Hw2 & L2 & F2); [done|lia|].
  exists w2. rewrite (ST_bind_ok _ _ _ _ _ E1). split; [done|]. split; [done|].
  rewrite zlen_app, F2, F1, app_assoc. split; [lia|done].
Qed.

Lemma writes_raw bs : writes (reserve (zlen bs);; put bs) bs.
Proof.
  intros w Hw Hl. destruct (reserve_ok (zlen bs) w) as (w1 & E1 & Hw1 & L1 & F1 & Hc); [done|apply zlen_nonneg|done|].
  destruct (put_ok bs w1) as (w2 & E2 & Hw2 & L2 & F2); [done|lia|].
  exists w2. rewrite (ST_bind_ok _ _ _ _ _ E1). rewrite F2, F1. split; [done|]. split; [done|]. split; [lia|done].
Qed.

Lemma writes_bytes bs : writes (w_bytes bs) bs.
Proof. apply writes_raw. Qed.

Lemma pb_writes_byte b : is_byte b -> writes (w_byte b) [b].
Proof. intros H. unfold w_byte. rewrite Z.mod_small by (unfold is_byte in H; lia). apply (writes_raw [b]). Qed.

Lemma group_byte v : 0 <= v -> js_or (Z.land v 127) 128 = v mod 128 + 128.
Proof.
  intros Hv. rewrite (land_ones_mod v 7) by lia. change (2 ^ 7) with 128.
  pose proof (Z.mod_pos_bound v 128 ltac:(lia)).
  change 128 with (1 * 2 ^ 7) at 2 4. apply js_or_add; lia.
Qed.

Lemma pb_writes_varint_loop fuel v :
  (0 < fuel)%nat -> 0 <= v < 2 ^ (7 * Z.of_nat fuel) ->
  writes (w_varint_loop fuel v) (ThriftIO.varint_bytes fuel v).
Proof.
  revert v. induction fuel as [|fuel IH]; intros v H0 Hv; [lia|].
  rewrite ThriftIO.pow_7S in Hv. cbn [w_varint_loop ThriftIO.varint_bytes].
  destruct (Z.leb_spec 128 v).
  - change (?x :: ?l) with ([x] ++ l). rewrite group_byte, Z.shiftr_div_pow2 by lia. change (2 ^ 7) with 128.
    pose proof (Z.mod_pos_bound v 128 ltac:(lia)).
    apply writes_app; [apply pb_writes_byte; unfold is_byte; lia|].
    apply IH; [destruct fuel; [simpl in Hv; lia|lia]|zdm].
  - apply pb_writes_byte. unfold is_byte. lia.
Qed.

Lemma writes_varint v : 0 <= v < 2 ^ 64 -> writes (w_varint v) (varint_bytes v).
Proof.
  intros Hv. unfold w_varint. replace (v <? 0) with false by lia.
  replace (18446744073709551615 <? v) with false by lia. cbn [orb].
  apply pb_writes_varint_loop; [lia|]. change (2 ^ (7 * Z.of_nat 10)) with (2 ^ 70). lia.
Qed.

Definition delimited (bs : list Z) : list Z := varint_bytes (zlen bs) ++ bs.
Lemma writes_delimited bs : writes (w_lengthDelimited bs) (delimited bs).
Proof.
  intros w Hw Hl. unfold delimited in *. refine (writes_app _ _ _ _ _ (writes_bytes bs) w Hw Hl).
  apply writes_varint. unfold writer_ok, limit in *. rewrite zlen_app in Hl.
  pose proof (zlen_nonneg bs). pose proof (zlen_nonneg (varint_bytes (zlen bs))). lia.
Qed.

Lemma with_writer_ok m bs : writes m bs -> zlen bs < limit -> with_writer m = Ok bs.
Proof.
  intros H Hl. unfold with_writer. destruct (H new_Writer) as (w & -> & _ & _ & ->); [|done|done].
  unfold writer_ok, new_Writer, zlen. cbn [buffer len]. rewrite length_replicate. lia.
Qed.

Lemma writes_liftR {A} (m : res A) (f : A -> ST Writer unit) a bs :
  m = Ok a -> writes (f a) bs -> writes (a ← liftR m; f a) bs.
Proof. intros -> H w. exact (H w). Qed.

(** A nested writer: its bytes are within the limit if those around are. *)
Lemma writes_nested m bs f bs' :
  writes m bs -> zlen bs <= zlen bs' -> writes (f bs) bs' -> writes (b ← liftR (with_writer m); f b) bs'.
Proof.
  intros Hm Hl Hf w Hw H. refine (writes_liftR _ _ bs bs' _ Hf w Hw H).
  apply with_writer_ok; [done|]. unfold writer_ok in Hw. lia.
Qed.

Lemma writes_forEach {A} (f : A -> ST Writer unit) (g : A -> list Z) l :
  Forall (fun x => writes (f x) (g x)) l -> writes (forEach f l) (concat (map g l)).
Proof. induction 1 as [|x l Hx Hl IH]; cbn; [apply writes_nil|by apply writes_app]. Qed.

(** ** Reading *)

Definition reader_ok (r : Reader) : Prop := 0 <= offset r <= end_ r /\ end_ r = zlen (bytes r).
Definition rest (r : Reader) : list Z := drop (Z.to_nat (offset r)) (bytes r).
Definition reads {A} (rd : ST Reader A) (bs : list Z) (a : A) : Prop :=
  forall r tail, reader_ok r -> rest r = bs ++ tail -> rd r = Ok (a, move (zlen bs) r).

Lemma pb_new_reader_ok bs : reader_ok (new_Reader bs).
Proof. split; [cbn [new_Reader offset end_]; pose proof (zlen_nonneg bs); lia|done]. Qed.

Lemma pb_zlen_rest r : reader_ok r -> zlen (rest r) = end_ r - offset r.
Proof. intros [H E]. rewrite E in *. unfold rest, zlen in *. rewrite length_drop. lia. Qed.

Lemma move_ok r bs tail :
  reader_ok r -> rest r = bs ++ tail -> reader_ok (move (zlen bs) r) /\ rest (move (zlen bs) r) = tail.
Proof.
  intros Hr E. pose proof (pb_zlen_rest r Hr) as Hz. rewrite E, zlen_app in Hz.
  pose proof (zlen_nonneg tail). pose proof (zlen_nonneg bs).
  destruct Hr as [H1 H2]. split; [split; cbn [move offset end_ bytes]; [lia|done]|].
  unfold rest in *. cbn [move offset bytes]. rewrite Z2Nat.inj_add, <- drop_drop, E by lia. unfold zlen.
  rewrite Nat2Z.id. apply drop_app_length.
Qed.

Lemma pb_move_move r n m : move m (move n r) = move (n + m) r.
Proof. unfold move. cbn. f_equal. lia. Qed.
Lemma pb_move_0 r : move 0 r = r.
Proof. destruct r. unfold move. cbn. f_equal. lia. Qed.

Lemma pb_reads_ret {A} (a : A) : reads (mret a) [] a.
Proof. intros r tail _ _. by rewrite pb_move_0. Qed.

Lemma pb_reads_bind {A B} (m : ST Reader A) (f : A -> ST Reader B) bs1 bs2 a b :
  reads m bs1 a -> reads (f a) bs2 b -> reads (m ≫= f) (bs1 ++ bs2) b.
Proof.
  intros H1 H2 r tail Hr E. rewrite <- app_assoc in E. destruct (move_ok _ _ _ Hr E) as [Hr' E'].
  rewrite (ST_bind_ok _ _ _ _ _ (H1 _ _ Hr E)), (H2 _ _ Hr' E'). by rewrite pb_move_move, zlen_app.
Qed.

Lemma pb_reads_map {A B} (m : ST Reader A) (f : A -> ST Reader B) bs a b :
  reads m bs a -> f a = mret b -> reads (m ≫= f) bs b.
Proof. intros H1 H2. rewrite <- (app_nil_r bs). eapply pb_reads_bind; [done|]. rewrite H2. apply pb_reads_ret. Qed.

Lemma reads_liftR {A B} (m : res A) (f : A -> ST Reader B) a bs b :
  m = Ok a -> reads (f a) bs b -> reads (a ← liftR m; f a) bs b.
Proof. intros -> H r. exact (H r). Qed.

Lemma require_ok n r bs tail :
  reader_ok r -> rest r = bs ++ tail -> 0 <= n <= zlen bs -> require n r = Ok (tt, r).
Proof.
  intros Hr E Hn. pose proof (pb_zlen_rest r Hr) as Hz. rewrite E, zlen_app in Hz. pose proof (zlen_nonneg tail).
  unfold require. replace (n <? 0) with false by lia. by replace (end_ r <? offset r + n) with false by lia.
Qed.

Lemma view_ok r bs tail : reader_ok r -> rest r = bs ++ tail -> view (zlen bs) r = Ok (bs, move (zlen bs) r).
Proof.
  intros Hr E. unfold view, slice. repeat f_equal. unfold rest in E. rewrite E.
  replace (Z.to_nat (offset r + zlen bs - offset r)) with (length bs) by (unfold zlen; lia). apply take_app_length.
Qed.

Lemma reads_view {A} bs n (f : list Z -> ST Reader A) a :
  zlen bs = n -> f bs = mret a -> reads (require n;; l ← view n; f l) bs a.
Proof.
  intros <- Hf r tail Hr E. rewrite (ST_bind_ok _ _ _ _ _ (require_ok (zlen bs) _ _ _ Hr E ltac:(pose proof (zlen_nonneg bs); lia))).
  rewrite (ST_bind_ok _ _ _ _ _ (view_ok _ _ _ Hr E)), Hf. done.
Qed.

Lemma reads_slice bs : reads (r_slice (zlen bs)) bs bs.
Proof. intros r tail Hr E. unfold r_slice. rewrite (ST_bind_ok _ _ _ _ _ (require_ok (zlen bs) _ _ _ Hr E ltac:(pose proof (zlen_nonneg bs); lia))). by apply (view_ok _ _ tail). Qed.

Lemma js_and_127 b : is_byte b -> js_and b 127 = b mod 128.
Proof. intros. by rewrite (js_and_ones _ _ 7) by lia. Qed.
Lemma js_and_128 b : is_byte b -> js_and b 128 = if 128 <=? b then 128 else 0.
Proof.
  intros H. apply Z.eqb_eq. revert b H.
  apply (byte_forallb (fun b => js_and b 128 =? if 128 <=? b then 128 else 0)). vm_compute. reflexivity.
Qed.

Lemma reads_varint_byte fuel start shift result b bs a :
  is_byte b -> (shift = 63 -> b <= 1) -> 0 <= shift -> 0 <= result < 2 ^ shift ->
  (if 128 <=? b then reads (r_varint_loop fuel start (shift + 7) (result + b mod 128 * 2 ^ shift)) bs a
   else bs = [] /\ a = result + b * 2 ^ shift) ->
  reads (r_varint_loop (S fuel) start shift result) ([b] ++ bs) a.
Proof.
  intros Hb H63 Hs Hr HB r tail Hok E. rewrite <- app_assoc in E.
  destruct (move_ok _ _ _ Hok E) as [Hok' E']. cbn [r_varint_loop].
  rewrite (ST_bind_ok _ _ _ _ _ (require_ok 1 _ _ _ Hok E ltac:(done))).
  rewrite (ST_bind_ok _ _ _ _ _ (view_ok _ [b] _ Hok E)). cbn [le_val]. cbv zeta.
  replace (b + 256 * 0) with b by lia. replace ((shift =? 63) && (1 <? b)) with false by lia.
  rewrite js_and_127, js_and_128, lor_disjoint_add by (done || lia).
  destruct (Z.leb_spec 128 b).
  - change (128 =? 0) with false. cbv iota. rewrite (HB _ _ Hok' E'). by rewrite pb_move_move, zlen_app.
  - destruct HB as [-> ->]. unfold is_byte in Hb. by rewrite Z.mod_small by lia.
Qed.

Lemma pb_reads_varint_loop fuel start shift result v :
  (0 < fuel)%nat -> shift = 70 - 7 * Z.of_nat fuel -> 0 <= shift -> 0 <= result < 2 ^ shift ->
  0 <= v < 2 ^ (64 - shift) ->
  reads (r_varint_loop fuel start shift result) (ThriftIO.varint_bytes fuel v) (result + v * 2 ^ shift).
Proof.
  revert result shift v. induction fuel as [|fuel IH]; intros result shift v H0 Hs Hs0 Hr Hv; [lia|].
  cbn [ThriftIO.varint_bytes]. assert (0 < 2 ^ shift) by (apply Z.pow_pos_nonneg; lia).
  destruct (Z.leb_spec 128 v).
  - change (?x :: ?l) with ([x] ++ l). pose proof (Z.mod_pos_bound v 128 ltac:(lia)).
    assert (Hs' : shift < 57).
    { destruct (decide (shift < 57)); [done|]. exfalso. pose proof (Z.pow_le_mono_r 2 (64 - shift) 7). lia. }
    assert (E7 : 2 ^ (shift + 7) = 128 * 2 ^ shift) by (rewrite Z.pow_add_r by lia; lia).
    apply reads_varint_byte; [unfold is_byte; lia|lia|lia|lia|].
    replace (128 <=? v mod 128 + 128) with true by lia.
    replace ((v mod 128 + 128) mod 128) with (v mod 128) by zdm.
    replace (result + v * 2 ^ shift) with (result + v mod 128 * 2 ^ shift + v / 128 * 2 ^ (shift + 7)).
    2: { rewrite E7. rewrite (Z.div_mod v 128) at 3 by lia. lia. }
    apply IH; [lia|lia|lia|rewrite E7; nia|].
    assert (E : 2 ^ (64 - shift) = 128 * 2 ^ (64 - (shift + 7))).
    { change 128 with (2 ^ 7). rewrite <- Z.pow_add_r by lia. f_equal. lia. }
    rewrite E in Hv. zdm.
  - apply (reads_varint_byte _ _ _ _ v []); [unfold is_byte; lia| |lia|lia|by replace (128 <=? v) with false by lia].
    intros ->. change (2 ^ (64 - 63)) with 2 in Hv. lia.
Qed.

Lemma reads_varint v : 0 <= v < 2 ^ 64 -> reads r_varint (varint_bytes v) v.
Proof.
  intros Hv r tail Hr E. unfold r_varint. rewrite (pb_reads_varint_loop 10 _ _ _ v) with (tail := tail); try lia; try done.
  by rewrite Z.mul_1_r.
Qed.

Lemma reads_delimited {A} bs bs2 (f : list Z -> ST Reader A) a :
  zlen bs <= 9007199254740991 -> reads (f bs) bs2 a ->
  reads (n ← r_length; l ← r_slice n; f l) (delimited bs ++ bs2) a.
Proof.
  intros Hl Hf r tail Hr E. pose proof (zlen_nonneg bs) as Hn. unfold delimited in *. rewrite <- !app_assoc in E.
  destruct (move_ok _ _ _ Hr E) as [Hr1 E1]. destruct (move_ok _ _ _ Hr1 E1) as [Hr2 E2].
  assert (EL : r_length r = Ok (zlen bs, move (zlen (varint_bytes (zlen bs))) r)).
  { unfold r_length. rewrite (ST_bind_ok _ _ _ _ _ (reads_varint (zlen bs) ltac:(lia) _ _ Hr E)).
    replace (9007199254740991 <? zlen bs) with false by lia.
    by rewrite (ST_bind_ok _ _ _ _ _ (require_ok (zlen bs) _ _ _ Hr1 E1 ltac:(lia))). }
  rewrite (ST_bind_ok _ _ _ _ _ EL), (ST_bind_ok _ _ _ _ _ (reads_slice bs _ _ Hr1 E1)), (Hf _ _ Hr2 E2).
  rewrite !pb_move_move, !zlen_app. do 3 f_equal. lia.
Qed.

(** ** Scalars on the wire *)

Inductive wire := WVarint (n : Z) | WFixed32 (n : Z) | WFixed64 (n : Z) | WBytes (bs : list Z).
Definition wire_bytes (w : wire) : list Z :=
  match w with
  | WVarint n => varint_bytes n
  | WFixed32 n => le_bytes 4 n
  | WFixed64 n => le_bytes 8 n
  | WBytes bs => delimited bs
  end.
Definition wire_code (w : wire) : Z :=
  match w with WVarint _ => 0 | WFixed64 _ => 1 | WBytes _ => 2 | WFixed32 _ => 5 end.
Definition wire_ok (w : wire) : Prop :=
  match w with
  | WVarint n => 0 <= n < 2 ^ 64
  | WBytes bs => zlen bs <= 9007199254740991
  | _ => True
  end.

Lemma varint_nonempty n : (0 < length (varint_bytes n))%nat.
Proof. unfold ThriftIO.varint_bytes. case_match; cbn [length]; lia. Qed.

Lemma wire_bytes_nonempty w : (0 < length (wire_bytes w))%nat.
Proof.
  destruct w; cbn [wire_bytes]; rewrite ?length_le_bytes; [apply varint_nonempty|lia|lia|].
  unfold delimited. rewrite length_app. pose proof (varint_nonempty (zlen bs)). lia.
Qed.

Lemma reads_skip w fieldNumber : wire_ok w -> reads (skip_field (wire_code w) fieldNumber) (wire_bytes w) tt.
Proof.
  intros Hw r tail Hr E. unfold skip_field. revert r tail Hr E.
  enough (forall fuel, reads (skip (S fuel) (wire_code w) fieldNumber) (wire_bytes w) tt) as G by (intros; by apply (G _ _ tail)).
  intros fuel. destruct w as [n|n|n|bs]; cbn [skip wire_code wire_bytes Z.eqb Pos.eqb wire_ok] in *.
  - eapply pb_reads_map; [by apply reads_varint|done].
  - eapply pb_reads_map; [|done]. apply (reads_slice (le_bytes 4 n)).
  - eapply pb_reads_map; [|done]. apply (reads_slice (le_bytes 8 n)).
  - rewrite <- (app_nil_r (delimited bs)). apply (reads_delimited bs [] (fun _ => mret tt)); [done|apply pb_reads_ret].
Qed.

Lemma reads_tag n k : 1 <= n <= _maxFieldNumber -> 0 <= k <= 5 -> reads r_tag (varint_bytes (n * 8 + k)) (n, k).
Proof.
  unfold _maxFieldNumber. intros Hn Hk r tail Hr E. unfold r_tag.
  refine (pb_reads_map _ _ _ _ _ (reads_varint (n * 8 + k) ltac:(lia)) _ r tail Hr E). cbv beta zeta.
  rewrite (land_ones_mod _ 3), Z.shiftr_div_pow2 by lia. change (2 ^ 3) with 8.
  replace ((n * 8 + k) / 8) with n by zdm. replace ((n * 8 + k) mod 8) with k by zdm.
  unfold _maxFieldNumber. replace (n <? 1) with false by lia. replace (536870911 <? n) with false by lia.
  by replace (5 <? k) with false by lia.
Qed.

Lemma writes_tag n k : 1 <= n <= _maxFieldNumber -> 0 <= k <= 5 -> writes (w_tag n k) (varint_bytes (n * 8 + k)).
Proof. unfold _maxFieldNumber. intros. apply writes_varint. lia. Qed.

(** What a scalar of type [t] is on the wire. *)
Definition int_val (b : Z) : Z := default 0 (integer_of b).
Definition scalar_wire (t : ScalarType) (v : value) : wire :=
  match t, v with
  | bool_, VBool b => WVarint (if b then 1 else 0)
  | (int32 | enum), VNumber b => WVarint (asUintN 64 (int_val b))
  | uint32, VNumber b => WVarint (int_val b)
  | sint32, VNumber b => WVarint (ThriftIO.zigzag (int_val b))
  | (fixed32 | sfixed32), VNumber b => WFixed32 (int_val b)
  | float, VNumber b => WFixed32 (to_float32 b)
  | double, VNumber b => WFixed64 b
  | int64, VBigInt z => WVarint (asUintN 64 z)
  | uint64, VBigInt z => WVarint z
  | sint64, VBigInt z => WVarint (ThriftIO.zigzag z)
  | (fixed64 | sfixed64), VBigInt z => WFixed64 z
  | string_, VString s => WBytes (encodeUtf8 s)
  | bytes_, VBytes bs => WBytes bs
  | _, _ => WBytes []
  end.
Definition number_in (lo hi b : Z) : Prop := is_number b /\ exists z, integer_of b = Some z /\ lo <= z <= hi.
(** The values that [_encodeValue] accepts for a scalar type. *)
Definition scalar_typed (t : ScalarType) (v : value) : Prop :=
  match t, v with
  | bool_, VBool _ => True
  | (int32 | enum | sint32 | sfixed32), VNumber b => number_in min32 max32 b
  | (uint32 | fixed32), VNumber b => number_in 0 umax32 b
  | (float | double), VNumber b => is_number b
  | (int64 | sint64 | sfixed64), VBigInt z => is_int 64 z
  | (uint64 | fixed64), VBigInt z => 0 <= z < 2 ^ 64
  | string_, VString _ => True
  | bytes_, VBytes bs => Forall is_byte bs
  | _, _ => False
  end.

Lemma integer_ok lo hi b : number_in lo hi b -> _integer (VNumber b) lo hi = Ok (int_val b) /\ lo <= int_val b <= hi.
Proof.
  intros (_ & z & E & Hz). unfold _integer, int_val, mbind, res_bind. cbn [_number]. rewrite E. cbn [default].
  replace (z <? lo) with false by lia. by replace (hi <? z) with false by lia.
Qed.

Lemma bigint_signed z : is_int 64 z -> _bigint (VBigInt z) true = Ok z.
Proof.
  unfold is_int. change (2 ^ (64 - 1)) with 9223372036854775808. intros H. unfold _bigint.
  change (Z.shiftl 1 63) with 9223372036854775808.
  replace (z <? _) with false by lia. by replace (_ <? z) with false by lia.
Qed.
Lemma bigint_unsigned z : 0 <= z < 2 ^ 64 -> _bigint (VBigInt z) false = Ok z.
Proof.
  intros H. unfold _bigint. change (Z.shiftl 1 64) with 18446744073709551616.
  replace (z <? 0) with false by lia. by replace (_ <? z) with false by lia.
Qed.

Lemma pb_zigzag32_enc x : is_int 32 x -> asUintN 32 (Z.lxor (Z.shiftl x 1) (Z.shiftr x 31)) = ThriftIO.zigzag x.
Proof.
  intros Hx. unfold asUintN. rewrite (ThriftIO.shiftr_sign x 31) by (done || lia).
  rewrite Z.shiftl_mul_pow2 by lia. unfold is_int in Hx. change (2 ^ (32 - 1)) with 2147483648 in Hx.
  change (2 ^ 32) with 4294967296. unfold ThriftIO.zigzag. destruct (Z.leb_spec 0 x).
  - rewrite Z.lxor_0_r, Z.mod_small; lia.
  - rewrite ThriftIO.lxor_m1, Z.mod_small; lia.
Qed.

Lemma int32_range z : min32 <= z <= max32 -> is_int 32 z.
Proof. unfold min32, max32, is_int. change (2 ^ (32 - 1)) with 2147483648. lia. Qed.
Lemma asUintN_range n z : 0 <= n -> 0 <= asUintN n z < 2 ^ n.
Proof. intros. apply Z.mod_pos_bound. apply Z.pow_pos_nonneg; lia. Qed.

Lemma writes_wire w (m : ST Writer unit) :
  match w with
  | WVarint n => 0 <= n < 2 ^ 64 /\ m = w_varint n
  | WFixed32 n => m = w_bytes (le_bytes 4 n)
  | WFixed64 n => m = w_bytes (le_bytes 8 n)
  | WBytes bs => m = w_lengthDelimited bs
  end -> writes m (wire_bytes w).
Proof.
  destruct w; [intros [? ->]; by apply writes_varint|intros ->; apply writes_bytes..|intros ->; apply writes_delimited].
Qed.

Lemma writes_scalar t v : scalar_typed t v -> writes (_encodeValue (Scalar t) v) (wire_bytes (scalar_wire t v)).
Proof.
  assert (L : forall (m : res Z) n (f : Z -> ST Writer unit) w, m = Ok n -> writes (f n) (wire_bytes w) ->
    writes (n ← liftR m; f n) (wire_bytes w)) by (intros; by apply (writes_liftR m f n)).
  destruct t; cbn [_encodeValue _encodeScalar scalar_typed]; destruct v; cbn [scalar_wire]; try done; intros H;
    try (apply integer_ok in H as [E R]; eapply L; [exact E|]);
    try (eapply L; [first [by apply bigint_signed|by apply bigint_unsigned|reflexivity]|]);
    apply writes_wire; try done; (split; [|try done]);
    try (apply asUintN_range; lia); try (unfold umax32 in *; lia);
    try (rewrite pb_zigzag32_enc; [done|by apply int32_range]); try (by rewrite ThriftIO.zigzag64_enc);
    try (pose proof (ThriftIO.zigzag_range 32 _ ltac:(lia) (int32_range _ R)); lia);
    try (by apply ThriftIO.zigzag_range).
  destruct b; lia.
Qed.

Lemma scalar_wire_ok t v :
  scalar_typed t v -> zlen (wire_bytes (scalar_wire t v)) <= 9007199254740991 ->
  wire_code (scalar_wire t v) = _wireType (Scalar t) /\ wire_ok (scalar_wire t v).
Proof.
  assert (D : forall bs, zlen (delimited bs) <= 9007199254740991 -> zlen bs <= 9007199254740991).
  { intros bs. unfold delimited. rewrite zlen_app. pose proof (zlen_nonneg (varint_bytes (zlen bs))). lia. }
  destruct t; cbn [scalar_typed]; destruct v; try done; cbn [scalar_wire wire_code wire_ok wire_bytes _wireType];
    intros H Hl; (split; [done|]); try done; try (by apply D); try (apply asUintN_range; lia);
    try (apply integer_ok in H as [_ R]; first [unfold umax32 in *; lia|
      pose proof (ThriftIO.zigzag_range 32 _ ltac:(lia) (int32_range _ R)); lia]);
    try (by apply ThriftIO.zigzag_range).
  destruct b; lia.
Qed.

(** The values that survive a scalar type unchanged: integers are not the
    negative zero, floats are binary32 values, strings are plain.  Without
    presence on the wire a negative zero is taken for the default. *)
Definition exact_int (lo hi b : Z) : Prop := exists z, b = number_of z /\ lo <= z <= hi.
Definition scalar_exact (presence : bool) (t : ScalarType) (v : value) : Prop :=
  match t, v with
  | (int32 | enum | sint32 | sfixed32), VNumber b => exact_int min32 max32 b
  | (uint32 | fixed32), VNumber b => exact_int 0 umax32 b
  | float, VNumber b => (exists w, is_float32 w /\ b = of_float32 w) /\ (presence = true \/ b <> 2 ^ 63)
  | double, VNumber b => canonical b /\ (presence = true \/ b <> 2 ^ 63)
  | string_, VString s => ThriftIO.plain_string s
  | _, _ => scalar_typed t v
  end.

Lemma exact_number_in lo hi b : - 2 ^ 52 <= lo -> hi <= 2 ^ 52 -> exact_int lo hi b -> number_in lo hi b /\ b = number_of (int_val b).
Proof.
  intros Hl Hh (z & -> & Hz). unfold number_in, int_val.
  rewrite integer_of_number_of by lia. split; [|done]. split; [apply number_of_range; lia|eauto].
Qed.

Lemma exact_typed presence t v : scalar_exact presence t v -> scalar_typed t v.
Proof.
  destruct t; cbn [scalar_exact]; try done; destruct v; cbn [scalar_typed]; try done;
    try (intros H; apply exact_number_in in H as [H _]; unfold min32, max32, umax32 in *; [exact H|lia|lia]).
  - intros [(w & Hw & ->) _]. apply of_float32_range, Hw.
  - intros [Hc _]. apply Hc.
Qed.

Lemma text_decode_encode s : ThriftIO.plain_string s -> text_decode (encodeUtf8 s) = Ok s.
Proof.
  intros (Hu & Hw & Hb). unfold text_decode. destruct (Z.eqb_spec (zlen (encodeUtf8 s)) 0) as [E|E].
  - destruct (decide (s = [])) as [->|Hs]; [done|]. apply ThriftIO.encode_nonempty in Hs.
    destruct (encodeUtf8 s); [done|]. rewrite zlen_cons in E. pose proof (zlen_nonneg l). lia.
  - rewrite decodeUtf8_encode; [by rewrite Hw|done|done].
Qed.

Lemma signedN_asUintN z : is_int 64 z -> signedN 64 (asUintN 64 z) = z.
Proof. intros. unfold asUintN. rewrite signedN_mod by lia. by apply signedN_small. Qed.

Lemma signed32_of_u64 z : is_int 32 z -> signedN 32 (asUintN 64 z) = z.
Proof.
  intros H. unfold signedN, asUintN. replace ((z mod 2 ^ 64) mod 2 ^ 32) with (z mod 2 ^ 32).
  - fold (signedN 32 z). by apply signedN_small.
  - symmetry. change (2 ^ 64) with (2 ^ 32 * 2 ^ 32). rewrite Z.rem_mul_r by lia.
    rewrite Z.mul_comm, Z.mod_add by lia. by rewrite Zmod_mod.
Qed.

Lemma zigzag_inv bits x : 0 < bits -> is_int bits x -> zigzag_decode bits (asUintN bits (ThriftIO.zigzag x)) = x.
Proof.
  intros Hb Hx. unfold zigzag_decode, asUintN. rewrite (Z.mod_small (ThriftIO.zigzag x)) by (by apply ThriftIO.zigzag_range).
  rewrite ThriftIO.zigzag64_dec. by apply signedN_small.
Qed.

Lemma pb_reads_fixed n (f : list Z -> Z) bs a : zlen bs = n -> f bs = a -> reads (require n;; l ← view n; mret (f l)) bs a.
Proof. intros Hn <-. by apply reads_view. Qed.

Lemma float32_number w : is_float32 w -> 0 <= to_float32 (of_float32 w) < 2 ^ 32.
Proof. intros H. rewrite to_of_float32 by done. apply H. Qed.

Lemma int_val_number_of lo hi z : - 2 ^ 52 <= lo -> hi <= 2 ^ 52 -> lo <= z <= hi -> int_val (number_of z) = z.
Proof. intros. unfold int_val. by rewrite integer_of_number_of by lia. Qed.

(** Replaces an exact integer number by its value. *)
Ltac exact_ints :=
  match goal with
  | H : exact_int _ _ _ |- _ =>
      let z := fresh "z" in let Hz := fresh "Hz" in let E := fresh "E" in
      destruct H as (z & -> & Hz);
      assert (E : int_val (number_of z) = z)
        by (eapply int_val_number_of; [| |exact Hz]; unfold min32, max32, umax32; lia);
      rewrite E in *; clear E
  end.

Section reads_scalar.
Context (dec : list (RuntimeField FieldType) -> list (Z * RuntimeField FieldType) -> list Z -> res value).

Lemma reads_wire_varint n (f : Z -> value) v : 0 <= n < 2 ^ 64 -> f n = v -> reads (x ← r_varint; mret (f x)) (varint_bytes n) v.
Proof. intros Hn <-. eapply pb_reads_map; [by apply reads_varint|done]. Qed.

Lemma reads_wire_fixed m n k (f : Z -> value) v :
  reads m (le_bytes n k) k -> f k = v -> reads (x ← m; mret (f x)) (le_bytes n k) v.
Proof. intros Hm <-. eapply pb_reads_map; [exact Hm|done]. Qed.

Lemma reads_fixed32 (sg : bool) z : (if sg then is_int 32 z else 0 <= z < 2 ^ 32) -> reads (r_fixed32 sg) (le_bytes 4 z) z.
Proof.
  intros H. destruct sg; apply (pb_reads_fixed 4); try done.
  - apply (le_signed_roundtrip 4); [lia|exact H].
  - rewrite le_val_bytes. by apply Z.mod_small.
Qed.
Lemma reads_fixed64 (sg : bool) z : (if sg then is_int 64 z else 0 <= z < 2 ^ 64) -> reads (r_fixed64 sg) (le_bytes 8 z) z.
Proof.
  intros H. destruct sg; apply (pb_reads_fixed 8); try done.
  - apply (le_signed_roundtrip 8); [lia|exact H].
  - rewrite le_val_bytes. by apply Z.mod_small.
Qed.
Lemma reads_float w : is_float32 w -> reads r_float (le_bytes 4 (to_float32 (of_float32 w))) (of_float32 w).
Proof.
  intros H. apply (pb_reads_fixed 4 (fun l => of_float32 (le_val l))); [done|].
  rewrite le_val_bytes, to_of_float32 by done. f_equal. apply Z.mod_small, H.
Qed.
Lemma reads_double b : canonical b -> reads r_double (le_bytes 8 b) b.
Proof.
  intros [H E]. apply (pb_reads_fixed 8 (fun l => of_float64 (le_val l))); [done|].
  rewrite le_val_bytes. rewrite Z.mod_small by apply H. exact E.
Qed.
Lemma reads_string s :
  ThriftIO.plain_string s -> zlen (encodeUtf8 s) <= 9007199254740991 ->
  reads (_decodeValue dec (Scalar string_)) (delimited (encodeUtf8 s)) (VString s).
Proof.
  intros Hs Hl r tail Hr E. cbn [_decodeValue].
  assert (R : reads (n ← r_length; bs ← r_slice n; liftR (text_decode bs)) (delimited (encodeUtf8 s)) s).
  { rewrite <- (app_nil_r (delimited _)). apply (reads_delimited _ [] (fun bs => liftR (text_decode bs))); [done|].
    rewrite text_decode_encode by done. apply pb_reads_ret. }
  by rewrite (R _ _ Hr E).
Qed.

Lemma reads_scalar presence t v :
  scalar_exact presence t v -> wire_ok (scalar_wire t v) ->
  reads (_decodeValue dec (Scalar t)) (wire_bytes (scalar_wire t v)) v.
Proof.
  destruct t; cbn [scalar_exact]; destruct v; try done; intros He Hw; cbn [scalar_wire wire_bytes wire_ok] in *;
    try exact_ints.
  - apply reads_wire_varint; [done|]. by rewrite signed32_of_u64 by (by apply int32_range).
  - apply reads_wire_varint; [done|]. unfold umax32, asUintN in *. by rewrite Z.mod_small by lia.
  - apply reads_wire_varint; [done|]. by rewrite zigzag_inv by (lia || by apply int32_range).
  - apply (reads_wire_fixed _ 4); [|done]. apply reads_fixed32. unfold umax32 in *. lia.
  - apply (reads_wire_fixed _ 4); [|done]. apply reads_fixed32. by apply int32_range.
  - destruct He as [(w & Hf & ->) _]. eapply pb_reads_map; [by apply reads_float|done].
  - destruct He as [Hc _]. eapply pb_reads_map; [by apply reads_double|done].
  - apply reads_wire_varint; [done|]. by rewrite signed32_of_u64 by (by apply int32_range).
  - apply reads_wire_varint; [done|]. by rewrite signedN_asUintN.
  - apply reads_wire_varint; [done|]. unfold asUintN. by rewrite Z.mod_small.
  - apply reads_wire_varint; [done|]. by rewrite zigzag_inv by (lia || done).
  - apply (reads_wire_fixed _ 8); [|done]. by apply reads_fixed64.
  - apply (reads_wire_fixed _ 8); [|done]. by apply reads_fixed64.
  - apply reads_wire_varint; [done|]. by destruct b.
  - by apply reads_string.
  - rewrite <- (app_nil_r (delimited bs)). apply (reads_delimited bs [] (fun l => mret (VBytes l))); [done|apply pb_reads_ret].
Qed.
End reads_scalar.

(** ** Arbitrary input

    [safe N k Q rd]: with at most [N] bytes left, [rd] returns a result with
    property [Q] after at least [k] bytes, or it throws a [ProtobufError]. *)
Definition safe {A} (N k : nat) (Q : A -> Prop) (rd : ST Reader A) : Prop :=
  forall r, reader_ok r -> Forall is_byte (bytes r) -> (length (rest r) <= N)%nat ->
  match rd r with
  | Ok (a, r') => reader_ok r' /\ bytes r' = bytes r /\ (length (rest r') + k <= length (rest r))%nat /\ Q a
  | Throw (ProtobufError _ _) => True
  | Throw _ => False
  end.

Lemma safe_ret {A} N (Q : A -> Prop) a : Q a -> safe N 0 Q (mret a).
Proof. intros HQ r Hr Hb HN. cbn. split_and!; [done|done|lia|done]. Qed.

Lemma safe_fail {A} N k (Q : A -> Prop) at_ msg : safe N k Q (fail_at at_ msg).
Proof. by intros r. Qed.
Lemma safe_fail_here {A} N k (Q : A -> Prop) msg : safe N k Q (fun r => fail_at (offset r) msg r).
Proof. by intros r. Qed.

Lemma safe_bind {A B} N k1 k2 (Q1 : A -> Prop) (Q2 : B -> Prop) m (f : A -> ST Reader B) :
  safe N k1 Q1 m -> (forall a, Q1 a -> safe (N - k1) k2 Q2 (f a)) -> safe N (k1 + k2) Q2 (m ≫= f).
Proof.
  intros Hm Hf r Hr Hb HN. specialize (Hm r Hr Hb HN). unfold mbind, ST_bind.
  destruct (m r) as [[a r1]|e]; [|done]. destruct Hm as (Hr1 & Hb1 & Hk & Ha).
  specialize (Hf a Ha r1 Hr1). rewrite Hb1 in Hf. specialize (Hf Hb ltac:(lia)).
  destruct (f a r1) as [[b r2]|e]; [|done]. destruct Hf as (? & ? & ? & ?). split_and!; [done|congruence|lia|done].
Qed.

Lemma safe_weaken {A} N N' k k' (Q Q' : A -> Prop) rd :
  (N' <= N)%nat -> (k' <= k)%nat -> (forall a, Q a -> Q' a) -> safe N k Q rd -> safe N' k' Q' rd.
Proof.
  intros HN Hk HQ H r Hr Hb HN'. specialize (H r Hr Hb ltac:(lia)). destruct (rd r) as [[a r']|e]; [|done].
  destruct H as (? & ? & ? & ?). split_and!; [done|done|lia|auto].
Qed.

(** [n] bytes checked for and taken. *)
Lemma safe_view N n : safe N (Z.to_nat n) (fun l => zlen l = n /\ Forall is_byte l) (r_slice n).
Proof.
  intros r Hr Hb HN. unfold r_slice, mbind, ST_bind, require.
  destruct ((n <? 0) || (end_ r <? offset r + n)) eqn:E; [done|]. unfold view.
  apply orb_false_iff in E as [E1 E2]. pose proof Hr as [H1 H2]. pose proof (pb_zlen_rest r Hr) as Hz.
  assert (Hs : slice (offset r) (offset r + n) (bytes r) = take (Z.to_nat n) (rest r)).
  { unfold slice, rest. f_equal. lia. }
  assert (Hl : zlen (take (Z.to_nat n) (rest r)) = n) by (unfold zlen in *; rewrite length_take; lia).
  rewrite Hs. destruct (move_ok r (take (Z.to_nat n) (rest r)) (drop (Z.to_nat n) (rest r))) as [Hm1 Hm2];
    [done|by rewrite take_drop|]. rewrite Hl in *. split_and!; [done|done| |done|].
  - rewrite Hm2, length_drop. unfold zlen in Hz. lia.
  - apply Forall_take. unfold rest. by apply Forall_drop.
Qed.

Lemma safe_take {A} N n k (Q : A -> Prop) (f : list Z -> ST Reader A) :
  (forall l, zlen l = n -> Forall is_byte l -> safe (N - Z.to_nat n) k Q (f l)) ->
  safe N (Z.to_nat n + k) Q (require n;; l ← view n; f l).
Proof.
  intros Hf r Hr Hb HN. pose proof (safe_bind N _ _ _ Q _ f (safe_view N n) ltac:(intros l []; by apply Hf) r Hr Hb HN) as H.
  unfold r_slice in H. by rewrite ST_bind_assoc in H.
Qed.

Lemma safe_varint_loop fuel N start shift result :
  shift = 70 - 7 * Z.of_nat fuel -> 0 <= shift -> 0 <= result < 2 ^ Z.min shift 64 ->
  safe N 1 (fun v => 0 <= v < 2 ^ 64) (r_varint_loop fuel start shift result).
Proof.
  revert N shift result. induction fuel as [|fuel IH]; intros N shift result Hs H0 Hr; [apply safe_fail|].
  cbn [r_varint_loop]. rewrite Z.min_l in Hr by lia. assert (0 < 2 ^ shift) by (apply Z.pow_pos_nonneg; lia).
  apply (safe_weaken N N (Z.to_nat 1 + 0) 1 (fun v => 0 <= v < 2 ^ 64)); [done|lia|done|].
  apply safe_take. intros l Hl Hb. destruct l as [|b [|? ?]]; unfold zlen in Hl; cbn [length] in Hl; [lia| |lia].
  rewrite Forall_singleton in Hb. cbn [le_val]. replace (b + 256 * 0) with b by lia. cbv zeta.
  destruct ((shift =? 63) && (1 <? b)) eqn:E; [apply safe_fail|].
  rewrite js_and_127, js_and_128, lor_disjoint_add by (done || lia).
  pose proof (Z.mod_pos_bound b 128 ltac:(lia)). unfold is_byte in Hb.
  assert (E7 : 2 ^ (shift + 7) = 128 * 2 ^ shift) by (rewrite Z.pow_add_r by lia; lia).
  assert (Hlt : result + b mod 128 * 2 ^ shift < 2 ^ Z.min (shift + 7) 64).
  { destruct (Z.eqb_spec shift 63) as [->|].
    - change (Z.min (63 + 7) 64) with 64. rewrite Z.mod_small by lia. nia.
    - rewrite Z.min_l by lia. rewrite E7. nia. }
  destruct (Z.leb_spec 128 b).
  - change (128 =? 0) with false. cbv iota. eapply (safe_weaken _ _ 1 0); [done|lia| |apply IH; nia || lia]. done.
  - change (0 =? 0) with true. cbv iota. apply safe_ret. pose proof (Z.pow_le_mono_r 2 (Z.min (shift + 7) 64) 64). nia.
Qed.

Lemma safe_varint N : safe N 1 (fun v => 0 <= v < 2 ^ 64) r_varint.
Proof. intros r. unfold r_varint. apply (safe_varint_loop 10 N); cbn; lia. Qed.

(** The last step of a reader that only computes. *)
Lemma safe_map {A B} N k (Q1 : A -> Prop) (Q2 : B -> Prop) m (f : A -> B) :
  safe N k Q1 m -> (forall a, Q1 a -> Q2 (f a)) -> safe N k Q2 (a ← m; mret (f a)).
Proof.
  intros Hm Hf. rewrite <- (Nat.add_0_r k). eapply safe_bind; [exact Hm|]. intros a Ha. by apply safe_ret, Hf.
Qed.

Lemma safe_tag N : safe N 1 (fun nk => 1 <= nk.1 <= _maxFieldNumber /\ 0 <= nk.2 <= 5) r_tag.
Proof.
  intros r. unfold r_tag. revert r. rewrite <- (Nat.add_0_r 1).
  intros r. refine (safe_bind N 1 0 _ _ _ _ (safe_varint N) _ r). intros tag Htag.
  destruct ((_ <? 1) || _) eqn:E1; [apply safe_fail|]. destruct (5 <? _) eqn:E2; [apply safe_fail|].
  apply safe_ret. cbn [fst snd]. rewrite (land_ones_mod _ 3) in * by lia.
  pose proof (Z.mod_pos_bound tag (2 ^ 3)). lia.
Qed.

Lemma safe_delimited {A} N k (Q : A -> Prop) (f : list Z -> ST Reader A) :
  (forall l, (length l <= N - 1)%nat -> Forall is_byte l -> safe (N - 1) k Q (f l)) ->
  safe N (1 + k) Q (n ← r_length; l ← r_slice n; f l).
Proof.
  intros Hf. apply safe_bind with (fun n => 0 <= n /\ True).
  - intros r. unfold r_length. refine (safe_bind N 1 0 _ _ _ _ (safe_varint N) _ r). intros v Hv.
    destruct (_ <? v); [apply safe_fail|].
    intros r' Hr Hb HN. unfold mbind, ST_bind, require. destruct (_ || _); [done|]. split_and!; [done|done|lia|lia|done].
  - intros n [Hn _]. eapply (safe_weaken (N - 1) _ (Z.to_nat n + k)); [done|lia|intros a Ha; exact Ha|].
    intros r Hr Hb HN. destruct (decide (Z.to_nat n <= N - 1)%nat) as [Hle|Hle].
    + refine (safe_bind (N - 1) _ _ _ _ _ _ (safe_view (N - 1) n) _ r Hr Hb HN). intros l [Hl Hlb].
      eapply safe_weaken; [| |intros a Ha; exact Ha|apply (Hf l); [unfold zlen in Hl; lia|done]]; lia.
    + unfold r_slice, mbind, ST_bind, require. pose proof (pb_zlen_rest r Hr) as Hz. unfold zlen in Hz.
      replace ((n <? 0) || (end_ r <? offset r + n)) with true by lia. done.
Qed.

Lemma safe_slice N n : safe N 0 (fun _ => True) (r_slice n;; mret tt).
Proof.
  eapply (safe_weaken N N (Z.to_nat n)); [lia|lia|intros a Ha; exact Ha|].
  eapply (safe_map N _ _ _ (r_slice n) (fun _ => tt)); [apply safe_view|done].
Qed.

Lemma safe_group (sk : Z -> Z -> ST Reader unit) fuel N n :
  ((0 < N)%nat -> forall wt k, 0 <= wt <= 5 -> safe (N - 1) 0 (fun _ => True) (sk wt k)) -> (N <= fuel)%nat ->
  safe N 0 (fun _ => True) (skip_group sk fuel n).
Proof.
  intros Hsk. revert N Hsk. induction fuel as [|fuel IH]; intros N Hsk HN r Hr Hb Hl; cbn [skip_group];
    (destruct (done r) eqn:Hd; [done|]).
  - pose proof (pb_zlen_rest r Hr) as Hz. unfold done, zlen in *. lia.
  - assert (HN0 : (0 < N)%nat) by (pose proof (pb_zlen_rest r Hr) as Hz; unfold done, zlen in *; lia).
    specialize (Hsk HN0). pose proof (safe_tag N r Hr Hb Hl) as Ht. unfold mbind, res_bind.
    destruct (r_tag r) as [[[tn tt_] r1]|e]; [|done]. destruct Ht as (Hr1 & Hb1 & Hk1 & Hn & Hw).
    destruct (tt_ =? 4); [destruct (negb _); [done|]; split_and!; [done|done|lia|done]|].
    pose proof (Hsk tt_ tn Hw r1 Hr1) as Hs. rewrite Hb1 in Hs. specialize (Hs Hb ltac:(lia)).
    destruct (sk tt_ tn r1) as [[u r2]|e]; [|done]. destruct Hs as (Hr2 & Hb2 & Hk2 & _).
    assert (Hg : safe (N - 1) 0 (fun _ => True) (skip_group sk fuel n)).
    { apply IH; [|lia]. intros _ wt k Hwk. eapply safe_weaken; [| |intros a Ha; exact Ha|by apply Hsk]; lia. }
    specialize (Hg r2 Hr2). rewrite Hb2 in Hg. specialize (Hg Hb ltac:(lia)).
    destruct (skip_group sk fuel n r2) as [[u' r3]|e]; [|done]. destruct Hg as (? & ? & ? & _).
    split_and!; [done|congruence|lia|done].
Qed.

Lemma safe_skip fuel N wt n : 0 <= wt <= 5 -> (N < fuel)%nat -> safe N 0 (fun _ => True) (skip fuel wt n).
Proof.
  revert N wt n. induction fuel as [|fuel IH]; intros N wt n Hw HN; [lia|]. cbn [skip].
  assert (W : forall (rd : ST Reader unit), safe N 1 (fun _ => True) rd -> safe N 0 (fun _ => True) rd).
  { intros rd H. eapply safe_weaken; [| |intros a Ha; exact Ha|exact H]; lia. }
  destruct (wt =? 0). { apply W. apply (safe_map N 1 _ _ r_varint (fun _ => tt) (safe_varint N)). done. }
  destruct (wt =? 1); [apply safe_slice|]. destruct (wt =? 2).
  { apply W. apply (safe_delimited N 0). intros. by apply safe_ret. }
  destruct (wt =? 3). { apply safe_group; [|lia]. intros HN0 wt' k Hw'. apply IH; [done|lia]. }
  destruct (wt =? 4); [apply safe_fail_here|]. destruct (wt =? 5); [apply safe_slice|apply safe_fail_here].
Qed.

Lemma number_in_of lo hi z : - 2 ^ 52 <= lo -> hi <= 2 ^ 52 -> lo <= z <= hi -> number_in lo hi (number_of z).
Proof. intros. apply exact_number_in; [done|done|by exists z]. Qed.

Lemma int32_number z : is_int 32 z -> number_in min32 max32 (number_of z).
Proof.
  unfold is_int, min32, max32. change (2 ^ (32 - 1)) with 2147483648. intros. apply number_in_of; lia.
Qed.
Lemma uint32_number z : 0 <= z < 2 ^ 32 -> number_in 0 umax32 (number_of z).
Proof. unfold umax32. intros. apply number_in_of; lia. Qed.

Lemma safe_fixed {A} N n (f : list Z -> A) (Q : A -> Prop) :
  0 < n -> (forall l, zlen l = n -> Forall is_byte l -> Q (f l)) -> safe N 1 Q (require n;; l ← view n; mret (f l)).
Proof.
  intros Hn Hf. eapply (safe_weaken N N (Z.to_nat n + 0)); [done|lia|intros a Ha; exact Ha|].
  apply safe_take. intros l Hl Hb. by apply safe_ret, Hf.
Qed.

Lemma le_val_bound l n : zlen l = n -> Forall is_byte l -> 0 <= le_val l < 2 ^ (8 * n).
Proof. intros <-. apply le_val_range. Qed.

Lemma safe_decodeScalar N t : _isPackable (Scalar t) = true -> safe N 1 (scalar_typed t) (_decodeScalar t).
Proof.
  assert (V : forall f, (forall v, 0 <= v < 2 ^ 64 -> scalar_typed t (f v)) -> safe N 1 (scalar_typed t) (v ← r_varint; mret (f v))).
  { intros f Hf. eapply safe_map; [apply safe_varint|exact Hf]. }
  assert (F : forall n (g : list Z -> Z) f, 0 < n -> (forall l, zlen l = n -> Forall is_byte l -> scalar_typed t (f (g l))) ->
    safe N 1 (scalar_typed t) (v ← (require n;; l ← view n; mret (g l)); mret (f v))).
  { intros n g f Hn Hf. eapply safe_map with (Q1 := fun z => scalar_typed t (f z)); [|done]. by apply safe_fixed. }
  destruct t; intros Hp; try done; cbn [_decodeScalar scalar_typed] in *.
  1-3, 8-11, 14: apply V; intros v Hv; cbn [scalar_typed]; first
    [by apply int32_number, signedN_range|by apply uint32_number, asUintN_range|by apply signedN_range|by apply asUintN_range|done].
  - apply (F 4 le_val). { done. } intros l Hl Hb. apply uint32_number. by apply (le_val_bound _ 4).
  - apply (F 4 (fun l => signedN 32 (le_val l))). { done. } intros l Hl Hb. by apply int32_number, signedN_range.
  - apply (F 4 (fun l => of_float32 (le_val l))). { done. } intros l Hl Hb. apply of_float32_range. by apply (le_val_bound _ 4).
  - apply (F 8 (fun l => of_float64 (le_val l))). { done. } intros l Hl Hb. apply of_float64_range. by apply (le_val_bound _ 8).
  - apply (F 8 le_val). { done. } intros l Hl Hb. by apply (le_val_bound _ 8).
  - apply (F 8 (fun l => signedN 64 (le_val l))). { done. } intros l Hl Hb. by apply signedN_range.
Qed.
End ProtobufWire.
