(* ===== verification/ProtobufMessage.v ===== *)
(** Messages of the protobuf codec: schemas, round trips, schema evolution.

    [value_bytes] is what a value of a type is on the wire, [conforms] when a
    value fits a type ([typed]: the encoder takes it; [exact]: it also comes
    back unchanged), [same] equality of values up to the order of properties
    and the properties that the schema does not name.  The last section is
    about arbitrary input: decoding ends, and what it returns is well typed. *)

From stdpp Require Import sorting.
From S2P Require Import Prelude JsNumber Utf8 ThriftIO Protobuf ProtobufWire.

Module ProtobufMessage.
Import JsNumber Utf8 Protobuf ProtobufWire.
Abbreviation field := (RuntimeField FieldType).
Abbreviation object := (list (jsstring * value)).

(** ** Specification *)

Definition tag_bytes (f : field) (k : Z) : list Z := varint_bytes (number f * 8 + k).
Definition field_bytes (vb : FieldType -> value -> list Z) (f : field) (cur : value) : list Z :=
  if repeated f then
    match cur with
    | VArray items =>
        if zlen items =? 0 then []
        else if packed f then tag_bytes f 2 ++ delimited (concat (map (vb (type f)) items))
        else concat (map (fun x => tag_bytes f (_wireType (type f)) ++ vb (type f) x) items)
    | _ => []
    end
  else
    match cur with
    | VUndefined => []
    | _ => if negb (optional f) && _isDefault (type f) cur then []
           else tag_bytes f (_wireType (type f)) ++ vb (type f) cur
    end.
Fixpoint value_bytes (t : FieldType) (v : value) : list Z :=
  match t with
  | Scalar t => wire_bytes (scalar_wire t v)
  | Codec fs _ =>
      match v with
      | VObject m => delimited (concat (map (fun f => field_bytes value_bytes f (prop m (name f))) fs))
      | _ => []
      end
  end.
Definition message_bytes (fs : list field) (m : object) : list Z :=
  concat (map (fun f => field_bytes value_bytes f (prop m (name f))) fs).

(** All of a list, in a form that recursion on types can use. *)
Definition all {A} (P : A -> Prop) (l : list A) : Prop := foldr (fun x H => P x /\ H) True l.
Lemma all_Forall {A} (P : A -> Prop) l : all P l <-> Forall P l.
Proof.
  induction l as [|x l IH]; cbn; [split; [constructor|done]|].
  rewrite IH. split; [intros []; by constructor|by intros [? ?]%Forall_cons_1].
Qed.

Definition field_conforms (conf : bool -> FieldType -> value -> Prop) (f : field) (cur : value) : Prop :=
  if repeated f then match cur with VArray items => Forall (conf true (type f)) items | _ => False end
  else match cur with
       | VUndefined => optional f || _isCodec (type f) = true
       | _ => conf (optional f) (type f) cur
       end.
Fixpoint conforms (P : bool -> ScalarType -> value -> Prop) (presence : bool) (t : FieldType) (v : value) : Prop :=
  match t with
  | Scalar t => P presence t v
  | Codec fs _ =>
      match v with
      | VObject m => all (fun f => field_conforms (conforms P) f (prop m (name f))) fs
      | _ => False
      end
  end.
Abbreviation typed := (conforms (fun _ => scalar_typed)).
Abbreviation exact := (conforms scalar_exact).

Definition same_field (sm : FieldType -> value -> value -> Prop) (f : field) (cur cur' : value) : Prop :=
  if repeated f then
    match cur, cur' with VArray l, VArray l' => Forall2 (sm (type f)) l l' | _, _ => False end
  else match cur with VUndefined => cur' = VUndefined | _ => sm (type f) cur cur' end.
Fixpoint same (t : FieldType) (v v' : value) : Prop :=
  match t with
  | Scalar _ => v = v'
  | Codec fs _ =>
      match v, v' with
      | VObject m, VObject m' => all (fun f => same_field same f (prop m (name f)) (prop m' (name f))) fs
      | _, _ => False
      end
  end.

(** Compiled schemas. *)
Definition field_ok (f : field) : Prop :=
  1 <= number f <= _maxFieldNumber /\ (packed f = true -> repeated f = true /\ _isPackable (type f) = true).
Record codec_ok (fs : list field) (bn : list (Z * field)) : Prop := {
  ok_fields : Forall field_ok fs;
  ok_names : NoDup (map name fs);
  ok_byNumber n f : JMap.get n bn = Some f <-> f ∈ fs /\ number f = n
}.
Fixpoint wf (t : FieldType) : Prop :=
  match t with
  | Scalar _ => True
  | Codec fs bn => codec_ok fs bn /\ all (fun f => wf (type f)) fs
  end.

(** What decoding puts into an object for a field that holds [cur]. *)
Definition stored (nm : FieldType -> value -> value) (f : field) (cur : value) : option value :=
  if repeated f then
    match cur with
    | VArray items => if zlen items =? 0 then None else Some (VArray (map (nm (type f)) items))
    | _ => None
    end
  else
    match cur with
    | VUndefined => None
    | _ => if negb (optional f) && _isDefault (type f) cur then None else Some (nm (type f) cur)
    end.
Definition fill (nm : FieldType -> value -> value) (bn : list (Z * field)) (m acc : object) (f : field) : object :=
  match JMap.get (number f) bn, stored nm f (prop m (name f)) with
  | Some _, Some x => JMap.set (name f) x acc
  | _, _ => acc
  end.
Fixpoint norm (t : FieldType) (v : value) : value :=
  match t with
  | Scalar _ => v
  | Codec fs bn =>
      match v with
      | VObject m => VObject (foldl (fill norm bn m) (initial fs) fs)
      | _ => v
      end
  end.

(** ** Induction over types *)
Section induction.
Context (P : FieldType -> Prop) (HS : forall t, P (Scalar t))
        (HC : forall fs bn, Forall (fun f => P (type f)) fs -> P (Codec fs bn)).
Fixpoint FieldType_nested (t : FieldType) : P t :=
  match t with
  | Scalar t => HS t
  | Codec fs bn =>
      HC fs bn ((fix go l : Forall (fun f => P (type f)) l :=
                   match l with
                   | [] => Forall_nil_2 _
                   | f :: l => Forall_cons_2 _ f l (FieldType_nested (type f)) (go l)
                   end) fs)
  end.
End induction.

(** ** Encoding *)

Lemma value_bytes_codec fs bn m : value_bytes (Codec fs bn) (VObject m) = delimited (message_bytes fs m).
Proof. reflexivity. Qed.

Lemma wireType_range t : 0 <= _wireType t <= 5.
Proof. destruct t as [[]|]; cbn; lia. Qed.

Lemma zlen_delimited bs : zlen bs < zlen (delimited bs).
Proof.
  unfold delimited. rewrite zlen_app. pose proof (varint_nonempty (zlen bs)). unfold zlen in *. lia.
Qed.

Lemma encode_packable t v : _isPackable (Scalar t) = true -> _encodeValue (Scalar t) v = _encodeScalar t v.
Proof. by destruct t. Qed.

Lemma writes_field m f :
  field_ok f ->
  (forall p v, typed p (type f) v -> writes (_encodeValue (type f) v) (value_bytes (type f) v)) ->
  field_conforms typed f (prop m (name f)) ->
  writes (encodeField _encodeValue m f) (field_bytes value_bytes f (prop m (name f))).
Proof.
  intros [Hn Hp] IH. unfold encodeField, field_bytes, field_conforms. generalize (prop m (name f)) as cur.
  intros cur Hc. pose proof (wireType_range (type f)).
  destruct (repeated f).
  - destruct cur as [| | | | | | |items|]; try done. destruct (zlen items =? 0); [apply writes_nil|].
    destruct (packed f).
    + destruct Hp as [_ Hp]; [done|]. destruct (type f) as [t|]; [|done].
      eapply writes_nested.
      * apply writes_forEach with (g := value_bytes (Scalar t)). eapply Forall_impl; [exact Hc|].
        intros v Hv. rewrite <- encode_packable by done. by apply (IH true).
      * rewrite zlen_app. pose proof (zlen_delimited (concat (map (value_bytes (Scalar t)) items))).
        pose proof (zlen_nonneg (tag_bytes f 2)). lia.
      * apply writes_app; [by apply writes_tag|apply writes_delimited].
    + apply writes_forEach with (g := fun x => tag_bytes f (_wireType (type f)) ++ value_bytes (type f) x).
      eapply Forall_impl; [exact Hc|]. intros v Hv. apply writes_app; [by apply writes_tag|by apply (IH true)].
  - assert (G : typed (optional f) (type f) cur ->
      writes (if negb (optional f) && _isDefault (type f) cur then mret tt
              else w_tag (number f) (_wireType (type f));; _encodeValue (type f) cur)
             (if negb (optional f) && _isDefault (type f) cur then []
              else tag_bytes f (_wireType (type f)) ++ value_bytes (type f) cur)).
    { intros Ht. destruct (_ && _); [apply writes_nil|].
      apply writes_app; [by apply writes_tag|by apply (IH (optional f))]. }
    destruct cur; try (by apply G). rewrite Hc. apply writes_nil.
Qed.

Lemma writes_message fs m :
  Forall field_ok fs -> all (fun f => field_conforms typed f (prop m (name f))) fs ->
  Forall (fun f => forall p v, typed p (type f) v -> writes (_encodeValue (type f) v) (value_bytes (type f) v)) fs ->
  writes (forEach (encodeField _encodeValue m) fs) (message_bytes fs m).
Proof.
  rewrite all_Forall. intros Hk Hc Hi. apply writes_forEach.
  apply Forall_forall. intros f Hf. rewrite Forall_forall in Hk, Hc, Hi.
  apply writes_field; [by apply Hk|by apply Hi|by apply Hc].
Qed.

Lemma writes_value t : wf t -> forall p v, typed p t v -> writes (_encodeValue t v) (value_bytes t v).
Proof.
  induction t as [t|fs bn IH] using FieldType_nested; intros Hw p v Hv; [by apply writes_scalar|].
  destruct Hw as [[Hk _ _] Hw]. rewrite all_Forall in Hw. destruct v as [| | | | | | | |m]; try done.
  rewrite value_bytes_codec. cbn [_encodeValue]. eapply writes_nested.
  - apply writes_message; [done|exact Hv|]. eapply Forall_impl; [apply Forall_and; split; [exact IH|exact Hw]|].
    intros f [Hi Hf]. by apply Hi.
  - pose proof (zlen_delimited (message_bytes fs m)). lia.
  - apply writes_delimited.
Qed.

(** A well-typed message is encoded, as its specification says. *)
Lemma encode_typed fs bn p m :
  wf (Codec fs bn) -> typed p (Codec fs bn) (VObject m) -> zlen (message_bytes fs m) < limit ->
  encode (Codec fs bn) (VObject m) = Ok (message_bytes fs m).
Proof.
  intros [[Hk _ _] Hw] Hv Hl. apply with_writer_ok; [|done]. apply writes_message; [done|exact Hv|].
  rewrite all_Forall in Hw. eapply Forall_impl; [exact Hw|]. intros f Hf. by apply writes_value.
Qed.

(** ** Decoding what was encoded *)

Definition max_safe : Z := 9007199254740991.

Lemma exact_typed_value t : forall p v, exact p t v -> typed p t v.
Proof.
  induction t as [t|fs bn IH] using FieldType_nested; intros p v H; [by apply (exact_typed p)|].
  destruct v as [| | | | | | | |m]; try done. cbn [conforms] in *. rewrite all_Forall in *.
  rewrite Forall_forall in *. intros f Hf. specialize (H f Hf). specialize (IH f Hf).
  unfold field_conforms in *. destruct (repeated f); destruct (prop m (name f)); try done; try (by apply IH).
  eapply Forall_impl; [exact H|]. apply IH.
Qed.

Lemma value_wire p t v :
  typed p t v -> zlen (value_bytes t v) <= max_safe ->
  exists w, value_bytes t v = wire_bytes w /\ wire_code w = _wireType t /\ wire_ok w.
Proof.
  intros Ht Hl. destruct t as [t|fs bn].
  - exists (scalar_wire t v). split; [done|]. by apply scalar_wire_ok.
  - destruct v as [| | | | | | | |m]; try done. exists (WBytes (message_bytes fs m)).
    split; [done|]. split; [done|]. rewrite value_bytes_codec in Hl. cbn.
    pose proof (zlen_delimited (message_bytes fs m)). unfold max_safe in Hl. lia.
Qed.

Lemma set_set k (x y : value) (m : object) : JMap.set k x (JMap.set k y m) = JMap.set k x m.
Proof.
  induction m as [|[k' z] m IH]; cbn [JMap.set]; [by rewrite decide_True|].
  destruct (decide (k = k')) as [->|]; cbn [JMap.set]; [by rewrite decide_True|].
  by rewrite decide_False, IH.
Qed.
Lemma prop_set k x (m : object) : prop (JMap.set k x m) k = x.
Proof. unfold prop. by rewrite JMap.get_set_eq. Qed.
Lemma prop_set_ne k k' x (m : object) : k <> k' -> prop (JMap.set k' x m) k = prop m k.
Proof. intros. unfold prop. by rewrite JMap.get_set_ne. Qed.

Section loops.
Context (dec : list field -> list (Z * field) -> list Z -> res value) (bn : list (Z * field)).

(** Reading [bs] turns the object [m] into [m']. *)
Definition loops (m : object) (bs : list Z) (m' : object) : Prop :=
  forall r tail fuel, reader_ok r -> rest r = bs ++ tail -> (length (rest r) <= fuel)%nat ->
  exists fuel', (length tail <= fuel')%nat /\
    decode_loop dec bn fuel m r = decode_loop dec bn fuel' m' (move (zlen bs) r).

Lemma loops_nil m : loops m [] m.
Proof. intros r tail fuel Hr E Hf. exists fuel. rewrite E in Hf. by rewrite pb_move_0. Qed.

Lemma loops_app m1 m2 m3 bs1 bs2 : loops m1 bs1 m2 -> loops m2 bs2 m3 -> loops m1 (bs1 ++ bs2) m3.
Proof.
  intros H1 H2 r tail fuel Hr E Hf. rewrite <- app_assoc in E.
  destruct (move_ok _ _ _ Hr E) as [Hr' E']. destruct (H1 _ _ _ Hr E Hf) as (f1 & Hf1 & E1).
  destruct (H2 _ _ f1 Hr' E') as (f2 & Hf2 & E2); [by rewrite E'|].
  exists f2. split; [done|]. by rewrite E1, E2, pb_move_move, zlen_app.
Qed.

Lemma loops_step m m' bs : reads (decodeField dec bn m) bs m' -> (0 < length bs)%nat -> loops m bs m'.
Proof.
  intros H Hl r tail fuel Hr E Hf. pose proof (pb_zlen_rest r Hr) as Hz. rewrite E in Hf, Hz.
  rewrite length_app in Hf. rewrite zlen_app in Hz. destruct fuel as [|fuel]; [lia|].
  exists fuel. split; [lia|]. cbn [decode_loop]. unfold done, zlen in *.
  replace (end_ r <=? offset r) with false by lia. by rewrite (H _ _ Hr E).
Qed.

(** A field of the schema that decoding knows. *)
Definition agrees (f f' : field) : Prop :=
  name f' = name f /\ type f' = type f /\ repeated f' = repeated f /\ optional f' = optional f.

Lemma reads_unknown f m w :
  field_ok f -> JMap.get (number f) bn = None -> wire_ok w ->
  reads (decodeField dec bn m) (tag_bytes f (wire_code w) ++ wire_bytes w) m.
Proof.
  intros [Hn _] Hg Hw. unfold decodeField. eapply pb_reads_bind; [apply reads_tag; [done|destruct w; cbn; lia]|].
  cbn. rewrite Hg. eapply pb_reads_map; [by apply reads_skip|done].
Qed.

Lemma unpackable_code t : _isPackable t = true -> _wireType t =? 2 = false.
Proof. by destruct t as [[]|]. Qed.

Lemma reads_known f f' m bs x m' :
  field_ok f -> JMap.get (number f) bn = Some f' -> agrees f f' ->
  reads (_decodeValue dec (type f)) bs x -> store f' x m = Ok m' ->
  reads (decodeField dec bn m) (tag_bytes f (_wireType (type f)) ++ bs) m'.
Proof.
  intros [Hn _] Hg (_ & Et & _ & _) Hr Hs. unfold decodeField.
  eapply pb_reads_bind; [apply reads_tag; [done|apply wireType_range]|]. cbv beta iota. rewrite Hg, Et.
  assert (repeated f' && _isPackable (type f) && (_wireType (type f) =? 2) = false) as ->.
  { destruct (_isPackable (type f)) eqn:Ep; [|by rewrite andb_false_r]. by rewrite unpackable_code, andb_false_r. }
  rewrite Z.eqb_refl. cbn [negb]. eapply pb_reads_map; [exact Hr|]. by rewrite Hs.
Qed.

Lemma packed_loop_reads t items acc fuel r :
  _isPackable (Scalar t) = true -> Forall (scalar_exact true t) items ->
  zlen (concat (map (value_bytes (Scalar t)) items)) <= max_safe ->
  reader_ok r -> rest r = concat (map (value_bytes (Scalar t)) items) -> (length (rest r) <= fuel)%nat ->
  packed_loop fuel t acc r = Ok (acc ++ items).
Proof.
  intros Hp Hs. revert acc fuel r. induction Hs as [|v items Hv _ IH]; intros acc fuel r Hm Hr E Hf.
  - cbn in E. pose proof (pb_zlen_rest r Hr) as Hz. rewrite E in Hz. change (zlen []) with 0 in Hz.
    assert (D : done r = true) by (unfold done; lia). destruct fuel; cbn [packed_loop]; rewrite D, app_nil_r; done.
  - cbn [map concat] in *. rewrite zlen_app in Hm. pose proof (zlen_nonneg (concat (map (value_bytes (Scalar t)) items))).
    destruct (scalar_wire_ok t v) as [_ Hw]; [by apply (exact_typed true)|
      change (wire_bytes (scalar_wire t v)) with (value_bytes (Scalar t) v); unfold max_safe in Hm; lia|].
    pose proof (zlen_nonneg (value_bytes (Scalar t) v)).
    pose proof (pb_zlen_rest r Hr) as Hz. rewrite E in Hf, Hz. rewrite zlen_app in Hz. rewrite length_app in Hf.
    assert (L : (0 < length (value_bytes (Scalar t) v))%nat) by (apply wire_bytes_nonempty).
    destruct fuel as [|fuel]; [lia|]. cbn [packed_loop]. unfold zlen in Hz.
    replace (done r) with false by (unfold done; lia).
    destruct (move_ok _ _ _ Hr E) as [Hr' E'].
    assert (Rd : _decodeScalar t r = Ok (v, move (zlen (value_bytes (Scalar t) v)) r)).
    { pose proof (reads_scalar dec true t v Hv Hw _ _ Hr E) as R. by destruct t. }
    rewrite Rd. cbn [mbind res_bind]. rewrite (IH (acc ++ [v])); [by rewrite <- app_assoc|lia|done|done|].
    rewrite E'. unfold zlen in *. lia.
Qed.

Lemma loops_items f f' m items acc (nm : value -> value) :
  field_ok f -> JMap.get (number f) bn = Some f' -> agrees f f' -> repeated f = true ->
  Forall (fun v => reads (_decodeValue dec (type f)) (value_bytes (type f) v) (nm v)) items ->
  prop m (name f) = VArray acc ->
  loops m (concat (map (fun v => tag_bytes f (_wireType (type f)) ++ value_bytes (type f) v) items))
    (if zlen items =? 0 then m else JMap.set (name f) (VArray (acc ++ map nm items)) m).
Proof.
  intros Hk Hg Ha Hrep Hs. pose proof Ha as (En & _ & Er & _). revert m acc.
  induction Hs as [|v items Hv _ IH]; intros m acc Hp; [apply loops_nil|]. cbn [map concat].
  replace (zlen (v :: items) =? 0) with false by (rewrite zlen_cons; pose proof (zlen_nonneg items); lia).
  eapply loops_app.
  - apply loops_step; [|rewrite length_app; pose proof (varint_nonempty (number f * 8 + _wireType (type f))); unfold tag_bytes; lia].
    eapply reads_known; [done|done|done|exact Hv|]. unfold store, push. rewrite Er, Hrep, En, Hp. reflexivity.
  - specialize (IH (JMap.set (name f) (VArray (acc ++ [nm v])) m) (acc ++ [nm v])).
    rewrite prop_set in IH. specialize (IH eq_refl). rewrite set_set, <- app_assoc in IH.
    destruct items; [exact IH|]. by replace (zlen (_ :: items) =? 0) with false in IH
      by (rewrite zlen_cons; pose proof (zlen_nonneg items); lia).
Qed.

Lemma loops_packed f f' m items :
  field_ok f -> JMap.get (number f) bn = Some f' -> agrees f f' -> repeated f = true -> packed f = true ->
  Forall (exact true (type f)) items -> zlen (concat (map (value_bytes (type f)) items)) <= max_safe ->
  prop m (name f) = VArray [] ->
  loops m (tag_bytes f 2 ++ delimited (concat (map (value_bytes (type f)) items)))
    (JMap.set (name f) (VArray (map (norm (type f)) items)) m).
Proof.
  intros [Hn Hpk] Hg (En & Et & Er & _) Hrep Hp He Hl Hm. destruct (Hpk Hp) as [_ Hk].
  apply loops_step; [|rewrite length_app; pose proof (varint_nonempty (number f * 8 + 2)); unfold tag_bytes; lia].
  destruct (type f) as [t|] eqn:Ef; [|done]. unfold decodeField.
  eapply pb_reads_bind; [apply reads_tag; [done|lia]|]. cbv beta iota. rewrite Hg, Et, Er, Hrep, Hk.
  change (true && true && (2 =? 2)) with true. cbv iota. rewrite <- (app_nil_r (delimited _)).
  apply reads_delimited; [done|]. intros r tail Hr E.
  assert (P : forall l, map (norm (Scalar t)) l = l) by (intros l; induction l as [|x l IH]; [done|change (x :: map (norm (Scalar t)) l = x :: l); by rewrite IH]).
  rewrite (packed_loop_reads t items) by (done || apply pb_new_reader_ok).
  unfold liftR, mbind, ST_bind, push. rewrite En, Hm, P. change (zlen []) with 0. by rewrite pb_move_0.
Qed.

Lemma length_concat_elem {A} (g : A -> list Z) l x : x ∈ l -> (length (g x) <= length (concat (map g l)))%nat.
Proof.
  induction 1 as [x l|x y l _ IH]; cbn [map concat]; rewrite length_app; lia.
Qed.
Lemma zlen_le_app (a b : list Z) n : zlen (a ++ b) <= n -> zlen b <= n.
Proof. rewrite zlen_app. pose proof (zlen_nonneg a). lia. Qed.

(** The present value of a field is written as one record. *)
Lemma field_present f cur (Q : list Z -> Prop) :
  repeated f = false -> (cur = VUndefined -> Q []) ->
  (cur <> VUndefined -> negb (optional f) && _isDefault (type f) cur = true -> Q []) ->
  (cur <> VUndefined -> negb (optional f) && _isDefault (type f) cur = false ->
    Q (tag_bytes f (_wireType (type f)) ++ value_bytes (type f) cur)) ->
  Q (field_bytes value_bytes f cur).
Proof.
  intros Hr H1 H2 H3. unfold field_bytes. rewrite Hr.
  destruct cur; try (by apply H1); (destruct (_ && _); [by apply H2|by apply H3]).
Qed.

Lemma conforms_present P f cur :
  repeated f = false -> cur <> VUndefined -> field_conforms (conforms P) f cur -> conforms P (optional f) (type f) cur.
Proof. intros Hr Hc. unfold field_conforms. rewrite Hr. by destruct cur. Qed.

Lemma loops_unknown f m cur :
  field_ok f -> JMap.get (number f) bn = None -> field_conforms typed f cur ->
  zlen (field_bytes value_bytes f cur) <= max_safe -> loops m (field_bytes value_bytes f cur) m.
Proof.
  intros Hk Hg Hc.
  assert (R : forall w, wire_ok w -> loops m (tag_bytes f (wire_code w) ++ wire_bytes w) m).
  { intros w Hw. apply loops_step; [by apply reads_unknown|].
    rewrite length_app. pose proof (wire_bytes_nonempty w). lia. }
  assert (V : forall p v, typed p (type f) v -> zlen (value_bytes (type f) v) <= max_safe ->
    loops m (tag_bytes f (_wireType (type f)) ++ value_bytes (type f) v) m).
  { intros p v Ht Hl. destruct (value_wire p _ _ Ht Hl) as (w & -> & <- & Hw). auto. }
  destruct (repeated f) eqn:Hr.
  - unfold field_bytes, field_conforms in *. rewrite Hr in *. destruct cur as [| | | | | | |items|]; try done.
    destruct (zlen items =? 0); [intros _; apply loops_nil|]. destruct (packed f).
    + intros Hl. apply (R (WBytes (concat (map (value_bytes (type f)) items)))). cbn.
      apply zlen_le_app in Hl. pose proof (zlen_delimited (concat (map (value_bytes (type f)) items))).
      unfold max_safe in Hl. lia.
    + induction Hc as [|v items Hv _ IH]; cbn [map concat]; intros Hl; [apply loops_nil|].
      pose proof (zlen_le_app _ _ _ Hl). eapply loops_app; [|by apply IH]. apply (V true); [done|].
      rewrite !zlen_app in Hl. pose proof (zlen_nonneg (tag_bytes f (_wireType (type f)))).
      match goal with H : zlen (concat ?l) <= _ |- _ => pose proof (zlen_nonneg (concat l)) end. lia.
  - apply field_present; [done|intros _ _; apply loops_nil|intros _ _ _; apply loops_nil|].
    intros Hu _ Hl. apply zlen_le_app in Hl. apply (V (optional f)); [by apply conforms_present|done].
Qed.

Definition fresh (f : field) (m : object) : Prop :=
  if repeated f then prop m (name f) = VArray []
  else _isCodec (type f) = true -> prop m (name f) = VUndefined.

Lemma loops_known f f' m cur K :
  field_ok f -> JMap.get (number f) bn = Some f' -> agrees f f' -> fresh f m ->
  (forall p v, exact p (type f) v -> (length (value_bytes (type f) v) <= K)%nat -> zlen (value_bytes (type f) v) <= max_safe ->
    reads (_decodeValue dec (type f)) (value_bytes (type f) v) (norm (type f) v)) ->
  field_conforms exact f cur -> (length (field_bytes value_bytes f cur) <= K)%nat ->
  zlen (field_bytes value_bytes f cur) <= max_safe ->
  loops m (field_bytes value_bytes f cur)
    (match stored norm f cur with Some x => JMap.set (name f) x m | None => m end).
Proof.
  intros Hk Hg Ha Hfr IH Hc. destruct (repeated f) eqn:Hr; unfold fresh in Hfr; rewrite Hr in Hfr.
  - unfold field_bytes, field_conforms, stored in *. rewrite Hr in *. destruct cur as [| | | | | | |items|]; try done.
    intros HK Hl. destruct (zlen items =? 0) eqn:Hz; [apply loops_nil|]. destruct (packed f) eqn:Hp.
    + eapply loops_packed; try done. apply zlen_le_app in Hl.
      pose proof (zlen_delimited (concat (map (value_bytes (type f)) items))). unfold max_safe in *. lia.
    + set (g := fun x => tag_bytes f (_wireType (type f)) ++ value_bytes (type f) x) in *.
      pose proof (loops_items f f' m items [] (norm (type f)) Hk Hg Ha Hr) as L. rewrite Hz in L. apply L; [|done].
      rewrite Forall_forall in Hc |- *. intros v Hv. pose proof (length_concat_elem g items v Hv) as Hle.
      subst g. cbv beta in Hle. rewrite length_app in Hle. unfold zlen in Hl |- *.
      apply (IH true); [by apply Hc|lia|unfold zlen; lia].
  - unfold stored. rewrite Hr. revert Hc. apply field_present; [done|..].
    + intros -> _ _ _. apply loops_nil.
    + intros Hu Hd _ _ _. rewrite Hd. destruct cur; try done; apply loops_nil.
    + intros Hu Hd Hc HK Hl. rewrite Hd. apply conforms_present in Hc; [|done..].
      apply zlen_le_app in Hl. rewrite length_app in HK.
      assert (L : loops m (tag_bytes f (_wireType (type f)) ++ value_bytes (type f) cur) (JMap.set (name f) (norm (type f) cur) m)).
      { apply loops_step; [|rewrite length_app; pose proof (varint_nonempty (number f * 8 + _wireType (type f))); unfold tag_bytes; lia].
        eapply reads_known; [done|done|done|apply (IH (optional f)); [done|lia|done]|].
        destruct Ha as (En & Et & Er & _). unfold store. rewrite Er, Hr, En, Et.
        destruct (_isCodec (type f)) eqn:Ec; [|done]. by rewrite Hfr. }
      by destruct cur.
Qed.

Definition known (f : field) : Prop := is_Some (JMap.get (number f) bn).
Global Instance known_dec f : Decision (known f).
Proof. unfold known. apply _. Defined.

Lemma fill_other (nm : FieldType -> value -> value) m acc f k : k <> name f -> prop (fill nm bn m acc f) k = prop acc k.
Proof.
  intros H. unfold fill. destruct (JMap.get (number f) bn); [|done].
  destruct (stored nm f (prop m (name f))); [|done]. by apply prop_set_ne.
Qed.
Lemma fill_unknown (nm : FieldType -> value -> value) m acc f : ~ known f -> fill nm bn m acc f = acc.
Proof. unfold known, fill. intros H. destruct (JMap.get (number f) bn); [|done]. destruct H. eauto. Qed.

Lemma loops_message fs m acc K :
  Forall field_ok fs ->
  Forall (fun f => forall f', JMap.get (number f) bn = Some f' -> agrees f f') fs ->
  NoDup (map name (base.filter known fs)) -> Forall (fun f => known f -> fresh f acc) fs ->
  Forall (fun f => forall p v, exact p (type f) v -> (length (value_bytes (type f) v) <= K)%nat ->
    zlen (value_bytes (type f) v) <= max_safe ->
    reads (_decodeValue dec (type f)) (value_bytes (type f) v) (norm (type f) v)) fs ->
  Forall (fun f => field_conforms exact f (prop m (name f))) fs ->
  (length (message_bytes fs m) <= K)%nat -> zlen (message_bytes fs m) <= max_safe ->
  loops acc (message_bytes fs m) (foldl (fill norm bn m) acc fs).
Proof.
  intros Hk Ha Hnd Hfr Hi Hc HK Hl. revert acc Hfr.
  induction fs as [|f fs IH]; intros acc Hfr; [apply loops_nil|].
  repeat match goal with H : Forall _ (_ :: _) |- _ => apply Forall_cons_1 in H as [? ?] end.
  change (message_bytes (f :: fs) m) with (field_bytes value_bytes f (prop m (name f)) ++ message_bytes fs m) in *.
  rewrite length_app in HK. rewrite zlen_app in Hl. cbn [foldl].
  pose proof (zlen_nonneg (message_bytes fs m)). pose proof (zlen_nonneg (field_bytes value_bytes f (prop m (name f)))).
  rewrite filter_cons in Hnd. destruct (decide (known f)) as [Hkn|Hkn].
  - cbn [map] in Hnd. apply NoDup_cons in Hnd as [Hni Hnd]. pose proof Hkn as [f' Hg].
    apply loops_app with (fill norm bn m acc f).
    + unfold fill. rewrite Hg. eapply (loops_known f f' acc); eauto; lia.
    + apply IH; try done; [lia|lia|]. rewrite Forall_forall in *. intros g Hgf Hkg.
      assert (name g <> name f).
      { intros E. apply Hni. rewrite <- E. apply list_elem_of_fmap_2. by apply list_elem_of_filter. }
      match goal with H : forall x, _ -> known x -> fresh x acc |- _ => specialize (H g Hgf Hkg); unfold fresh in * end.
      by rewrite !fill_other.
  - rewrite fill_unknown by done. eapply loops_app; [apply loops_unknown; [done| | |lia]|apply IH; done || lia].
    + unfold known in Hkn. destruct (JMap.get (number f) bn) eqn:E; [|done]. destruct Hkn. eauto.
    + unfold field_conforms in *. destruct (repeated f); destruct (prop m (name f)); try done;
        try (by apply exact_typed_value). eapply Forall_impl; [eassumption|]. apply exact_typed_value.
Qed.
End loops.

(** What decoding starts from. *)
Definition start_value (f : field) : value :=
  if repeated f then VArray [] else if negb (optional f) && negb (_isCodec (type f)) then _defaultValue (type f) else VUndefined.

Lemma prop_initial fs f : NoDup (map name fs) -> f ∈ fs -> prop (initial fs) (name f) = start_value f.
Proof.
  unfold initial. assert (G : forall fs acc, NoDup (map name fs) -> f ∈ fs -> prop acc (name f) = VUndefined ->
    prop (foldl (fun m field =>
      if repeated field then JMap.set (name field) (VArray []) m
      else if negb (optional field) && negb (_isCodec (type field))
           then JMap.set (name field) (_defaultValue (type field)) m else m) acc fs) (name f) = start_value f).
  2: { intros. by apply G. }
  clear fs. induction fs as [|g fs IH]; intros acc Hnd Hin Hp; [by apply not_elem_of_nil in Hin|].
  cbn [foldl map] in *. apply NoDup_cons in Hnd as [Hni Hnd].
  set (acc' := if repeated g then _ else _).
  assert (O : forall k, k <> name g -> prop acc' k = prop acc k).
  { intros k Hk. subst acc'. destruct (repeated g); [by apply prop_set_ne|].
    destruct (_ && _); [by apply prop_set_ne|done]. }
  apply elem_of_cons in Hin as [<-|Hin].
  - assert (S : prop acc' (name f) = start_value f).
    { subst acc'. unfold start_value. destruct (repeated f); [apply prop_set|].
      destruct (_ && _); [apply prop_set|done]. }
    clearbody acc'. clear IH O Hp. revert acc' S. induction fs as [|h fs IH]; intros acc' S; [done|].
    cbn [foldl map] in *. apply not_elem_of_cons in Hni as [Hne Hni]. apply NoDup_cons in Hnd as [_ Hnd].
    apply IH; [done|done|]. destruct (repeated h); [by rewrite prop_set_ne|].
    destruct (_ && _); [by rewrite prop_set_ne|done].
  - apply IH; [done|done|]. rewrite O; [done|]. intros E. apply Hni. rewrite <- E. by apply list_elem_of_fmap_2.
Qed.

Lemma codec_known fs bn f : codec_ok fs bn -> f ∈ fs -> JMap.get (number f) bn = Some f.
Proof. intros Hk Hf. by apply (ok_byNumber _ _ Hk). Qed.

Lemma filter_known fs bn : codec_ok fs bn -> base.filter (known bn) fs = fs.
Proof.
  intros Hk. assert (G : Forall (known bn) fs).
  { apply Forall_forall. intros f Hf. exists f. by apply (codec_known fs). }
  clear Hk. induction G as [|f fs Hf _ IH]; [done|]. by rewrite filter_cons, decide_True, IH.
Qed.

Lemma agrees_refl f : agrees f f.
Proof. done. Qed.

Lemma start_fresh fs f : NoDup (map name fs) -> f ∈ fs -> fresh f (initial fs).
Proof.
  intros Hnd Hf. unfold fresh. rewrite prop_initial by done. unfold start_value.
  destruct (repeated f); [done|]. intros ->. by rewrite andb_false_r.
Qed.

(** A schema that may read what another wrote: the fields both have agree. *)
Definition compatible (fs : list field) (bnR : list (Z * field)) : Prop :=
  forall f f', f ∈ fs -> JMap.get (number f) bnR = Some f' -> agrees f f'.

Section nested.
Context (fs : list field) (bn : list (Z * field)) (fsR : list field) (bnR : list (Z * field)).
Context (Hw : codec_ok fs bn) (HR : codec_ok fsR bnR) (Hcomp : compatible fs bnR).

Lemma known_names : NoDup (map name (base.filter (known bnR) fs)).
Proof.
  pose proof (ok_names _ _ Hw) as Hnd. clear -Hnd. induction fs as [|f l IH]; [constructor|].
  cbn [map] in Hnd. apply NoDup_cons in Hnd as [Hni Hnd]. rewrite filter_cons. case_decide; [|auto].
  cbn [map]. apply NoDup_cons. split; [|auto]. intros Hin. apply Hni.
  apply list_elem_of_fmap in Hin as (g & -> & Hg). apply list_elem_of_filter in Hg as [_ Hg].
  by apply list_elem_of_fmap_2.
Qed.

Lemma known_fresh f : f ∈ fs -> known bnR f -> fresh f (initial fsR).
Proof.
  intros Hf [f' Hg]. destruct (Hcomp f f' Hf Hg) as (En & Et & Er & _).
  apply (ok_byNumber _ _ HR) in Hg as [Hin _].
  pose proof (start_fresh fsR f' (ok_names _ _ HR) Hin) as Hs. unfold fresh in *. by rewrite <- En, <- Er, <- Et.
Qed.

Lemma decode_message fuel m :
  Forall (fun f => forall p v, exact p (type f) v -> (length (value_bytes (type f) v) <= fuel)%nat ->
    zlen (value_bytes (type f) v) <= max_safe ->
    reads (_decodeValue (decode_nested fuel) (type f)) (value_bytes (type f) v) (norm (type f) v)) fs ->
  all (fun f => field_conforms exact f (prop m (name f))) fs ->
  (length (message_bytes fs m) <= fuel)%nat -> zlen (message_bytes fs m) <= max_safe ->
  decode_nested (S fuel) fsR bnR (message_bytes fs m) = Ok (VObject (foldl (fill norm bnR m) (initial fsR) fs)).
Proof.
  rewrite all_Forall. intros Hi Hc HK Hl. cbn [decode_nested]. set (bs := message_bytes fs m) in *.
  destruct (loops_message (decode_nested fuel) bnR fs m (initial fsR) fuel) with
    (r := new_Reader bs) (tail := @nil Z) (fuel := length bs) as (fuel' & _ & ->); try done.
  - apply (ok_fields _ _ Hw).
  - apply Forall_forall. intros f Hf f'. by apply Hcomp.
  - apply known_names.
  - apply Forall_forall. apply known_fresh.
  - apply pb_new_reader_ok.
  - by rewrite app_nil_r.
  - assert (D : done (move (zlen bs) (new_Reader bs)) = true) by (unfold done; cbn [move new_Reader end_ offset]; lia).
    change (message_bytes fs m) with bs. destruct fuel'; cbn [decode_loop]; rewrite D; done.
Qed.

(** The value of a field after all have been filled in. *)
Lemma prop_filled m f :
  f ∈ fs -> known bnR f ->
  prop (foldl (fill norm bnR m) (initial fsR) fs) (name f) =
  match stored norm f (prop m (name f)) with Some x => x | None => start_value f end.
Proof.
  intros Hf Hkn. assert (Hs : prop (initial fsR) (name f) = start_value f).
  { destruct Hkn as [f' Hg]. destruct (Hcomp f f' Hf Hg) as (En & Et & Er & Eo).
    apply (ok_byNumber _ _ HR) in Hg as [Hin _].
    rewrite <- En, prop_initial by (done || apply (ok_names _ _ HR)). unfold start_value. by rewrite Er, Eo, Et. }
  pose proof (ok_names _ _ Hw) as Hnd. revert Hs. generalize (initial fsR) as acc.
  clear Hcomp Hw HR bn. induction fs as [|g l IH]; intros acc Hs; [by apply not_elem_of_nil in Hf|].
  cbn [foldl map] in *. apply NoDup_cons in Hnd as [Hni Hnd]. apply elem_of_cons in Hf as [<-|Hf].
  - assert (E : prop (fill norm bnR m acc f) (name f) =
      match stored norm f (prop m (name f)) with Some x => x | None => start_value f end).
    { unfold fill. destruct Hkn as [f' ->]. destruct (stored norm f (prop m (name f))); [apply prop_set|done]. }
    rewrite <- E. generalize (fill norm bnR m acc f) as a. clear -Hni. intros a.
    revert a. induction l as [|h l IH]; intros a; [done|]. cbn [foldl map] in *.
    apply not_elem_of_cons in Hni as [Hne Hni]. rewrite IH by done. by rewrite fill_other.
  - apply IH; [done|done|]. rewrite fill_other; [done|]. intros E. apply Hni. rewrite <- E. by apply list_elem_of_fmap_2.
Qed.
End nested.

Lemma reads_value t : wf t -> forall fuel p v, exact p t v -> (length (value_bytes t v) <= fuel)%nat ->
  zlen (value_bytes t v) <= max_safe -> reads (_decodeValue (decode_nested fuel) t) (value_bytes t v) (norm t v).
Proof.
  induction t as [t|fs bn IH] using FieldType_nested; intros Hw fuel p v He HK Hl.
  - apply (reads_scalar _ p); [done|]. apply scalar_wire_ok; [by apply (exact_typed p)|done].
  - destruct Hw as [Hok Hw]. rewrite all_Forall in Hw. destruct v as [| | | | | | | |m]; try done.
    rewrite value_bytes_codec in *. pose proof (zlen_delimited (message_bytes fs m)) as Hd.
    cbn [_decodeValue]. rewrite <- (app_nil_r (delimited _)). unfold max_safe in Hl.
    apply reads_delimited; [lia|]. intros r tail Hr E.
    destruct fuel as [|fuel]; [unfold zlen in Hd; lia|].
    rewrite (decode_message fs bn fs bn Hok Hok); [| | | |unfold zlen in Hd; lia|unfold max_safe; lia].
    + change (zlen []) with 0. by rewrite pb_move_0.
    + intros f f' Hf Hg. rewrite (codec_known fs bn f) in Hg by done. by injection Hg as ->.
    + rewrite Forall_forall in *. intros f Hf p' v' He'. by apply (IH f Hf (Hw f Hf) fuel p').
    + exact He.
Qed.

(** ** What comes back is the same *)

Lemma is_zero_number_of z : Z.abs z < 2 ^ 53 -> is_zero (number_of z) = true -> z = 0.
Proof. intros Hz H. apply is_zero_integer in H. rewrite integer_of_number_of in H by done. by injection H. Qed.

Lemma exact_default t v :
  scalar_exact false t v -> _isDefault (Scalar t) v = true -> v = _defaultValue (Scalar t).
Proof.
  assert (I : forall lo hi b, - 2 ^ 52 <= lo -> hi <= 2 ^ 52 -> exact_int lo hi b -> is_zero b = true -> VNumber b = VNumber (number_of 0)).
  { intros lo hi b Hl Hh (z & -> & Hz) H. by rewrite (is_zero_number_of z) by (done || lia). }
  assert (F : forall b, false = true \/ b <> 2 ^ 63 -> is_zero b = true -> VNumber b = VNumber (number_of 0)).
  { intros b [Hx|Hb] H; [done|]. unfold is_zero in H. f_equal. change (number_of 0) with 0. lia. }
  destruct t; cbn [scalar_exact]; destruct v; try done; cbn [_isDefault _defaultValue];
    try (intros H; eapply I; [| |exact H]; unfold min32, max32, umax32; lia); try (intros [_ H]; by apply F);
    try (intros _ H; f_equal; lia).
  - intros _. by destruct b.
  - intros _ H. destruct s; [done|]. rewrite zlen_cons in H. pose proof (zlen_nonneg s). lia.
  - intros _ H. destruct bs; [done|]. rewrite zlen_cons in H. pose proof (zlen_nonneg bs). lia.
Qed.

Lemma same_stored f cur :
  (forall p v, exact p (type f) v -> same (type f) v (norm (type f) v)) -> field_conforms exact f cur ->
  same_field same f cur (match stored norm f cur with Some x => x | None => start_value f end).
Proof.
  intros IH Hc. unfold same_field, stored, start_value, field_conforms in *. destruct (repeated f).
  - destruct cur as [| | | | | | |items|]; try done. destruct (zlen items =? 0) eqn:E.
    + destruct items; [constructor|]. rewrite zlen_cons in E. pose proof (zlen_nonneg items). lia.
    + clear E. induction Hc; cbn [map]; constructor; eauto.
  - assert (G : cur <> VUndefined -> exact (optional f) (type f) cur ->
      same (type f) cur (match (if negb (optional f) && _isDefault (type f) cur then None else Some (norm (type f) cur)) with
        | Some x => x
        | None => if negb (optional f) && negb (_isCodec (type f)) then _defaultValue (type f) else VUndefined end)).
    { intros Hu He. destruct (optional f) eqn:Ho; [by apply (IH true)|]. cbn [negb andb].
      destruct (_isDefault (type f) cur) eqn:Ed; [|by apply (IH false)].
      destruct (type f) as [t|]; [|by destruct cur]. cbn. by apply exact_default. }
    destruct cur; try (by apply G). destruct (optional f); [done|]. cbn in Hc. by rewrite Hc.
Qed.

Lemma norm_same t : wf t -> forall p v, exact p t v -> same t v (norm t v).
Proof.
  induction t as [t|fs bn IH] using FieldType_nested; intros Hw p v He; [done|].
  destruct Hw as [Hok Hw]. destruct v as [| | | | | | | |m]; try done. cbn [same norm conforms] in *.
  rewrite all_Forall in *. rewrite Forall_forall in *. intros f Hf.
  assert (Hkn : JMap.get (number f) bn = Some f) by (by apply (codec_known fs)).
  rewrite (prop_filled fs bn fs bn); [|done|done| |done|by exists f].
  - apply same_stored; [|by apply He]. intros p' v' He'. by apply (IH f Hf (Hw f Hf) p').
  - intros g g' Hg E. rewrite (codec_known fs bn g) in E by done. by injection E as ->.
Qed.

Lemma wf_fields fs bn fuel :
  wf (Codec fs bn) ->
  Forall (fun f => forall p v, exact p (type f) v -> (length (value_bytes (type f) v) <= fuel)%nat ->
    zlen (value_bytes (type f) v) <= max_safe ->
    reads (_decodeValue (decode_nested fuel) (type f)) (value_bytes (type f) v) (norm (type f) v)) fs.
Proof.
  intros [_ Hw]. rewrite all_Forall in Hw. eapply Forall_impl; [exact Hw|].
  intros f Hf p v He. by apply (reads_value _ Hf _ p).
Qed.

Lemma roundtrip_norm fs bn m :
  wf (Codec fs bn) -> exact true (Codec fs bn) (VObject m) -> zlen (message_bytes fs m) <= max_safe ->
  encode (Codec fs bn) (VObject m) = Ok (message_bytes fs m) /\
  decode (Codec fs bn) (message_bytes fs m) = Ok (norm (Codec fs bn) (VObject m)).
Proof.
  intros Hw He Hl. pose proof Hw as [Hok _]. split.
  - apply (encode_typed fs bn true m Hw); [by apply exact_typed_value|]. unfold max_safe, limit in *. lia.
  - cbn [decode]. unfold _decodeMessage.
    rewrite (decode_message fs bn fs bn); [done|done|done| |by apply (wf_fields fs bn)|done|done|done].
    intros f f' Hf Hg. rewrite (codec_known fs bn f) in Hg by done. by injection Hg as ->.
Qed.

(** ** Schemas *)

Record compiled (st : list field * list (Z * field)) (names : list jsstring) : Prop := {
  c_fields : Forall field_ok st.1;
  c_types : Forall (fun f => wf (type f)) st.1;
  c_names : map name st.1 = names;
  c_byNumber n f : JMap.get n st.2 = Some f <-> f ∈ st.1 /\ number f = n
}.

Lemma compileField_ok st names k d st' :
  compiled st names -> wf (fs_type d) -> compileField st (k, d) = Ok st' -> compiled st' (names ++ [k]).
Proof.
  destruct st as [fields bn]. intros [Hf Ht Hn Hb] Hw. cbn in *. unfold compileField.
  destruct (integer_of (fs_number d)) as [n|]; [|done].
  destruct ((n <? 1) || (_maxFieldNumber <? n)) eqn:Hr; [done|]. destruct ((19000 <=? n) && (n <=? 19999)); [done|].
  destruct (JMap.get n bn) eqn:Hg; [done|]. destruct (bool_decide (fs_packed d <> None) && _); [done|].
  intros [= <-]. split; cbn [fst snd].
  - apply Forall_app. split; [done|]. apply Forall_singleton. split; cbn [number packed repeated type]; [lia|].
    intros Hp. apply andb_true_iff in Hp as [Hp _]. by apply andb_true_iff in Hp.
  - apply Forall_app. split; [done|]. by apply Forall_singleton.
  - by rewrite map_app, Hn.
  - intros k' f. rewrite elem_of_app, list_elem_of_singleton. destruct (decide (k' = n)) as [->|Hne].
    + rewrite JMap.get_set_eq. split; [intros [= <-]; auto|]. intros [[Hin| ->] En]; [|done].
      assert (JMap.get n bn = Some f) by (by apply Hb). congruence.
    + rewrite JMap.get_set_ne, Hb by done. split; [naive_solver|]. intros [[?| ->] En]; [done|].
      by cbn in En.
Qed.

Lemma compile_loop_ok schema st names st' :
  compiled st names -> Forall (fun kd => wf (fs_type kd.2)) schema -> compile_loop st schema = Ok st' ->
  compiled st' (names ++ map fst schema).
Proof.
  intros Hc Hw. revert st names Hc. induction Hw as [|[k d] schema Hd _ IH]; intros st names Hc E; cbn in E.
  - injection E as ->. by rewrite app_nil_r.
  - apply res_bind_inv in E as (st1 & E1 & E2). cbn [map fst]. rewrite cons_middle, app_assoc.
    eapply IH; [|exact E2]. by eapply compileField_ok.
Qed.

Global Instance number_le_trans : Transitive number_le.
Proof. unfold number_le. intros a b c. lia. Qed.
Global Instance number_le_total : Total number_le.
Proof. unfold number_le. intros a b. lia. Qed.

Lemma define_wf schema codec :
  defineMessage schema = Ok codec -> NoDup (map fst schema) -> Forall (fun kd => wf (fs_type kd.2)) schema ->
  wf codec /\ exists fs bn, codec = Codec fs bn /\ StronglySorted number_le fs /\ map name fs ≡ₚ map fst schema.
Proof.
  unfold defineMessage, _compileSchema. intros E Hnd Hw.
  apply res_bind_inv in E as ([fs' bn'] & E & Ec). apply res_bind_inv in E as ([fields bn] & E & Es).
  injection Es as <- <-. injection Ec as <-.
  apply (compile_loop_ok schema _ []) in E; [|split; cbn; [constructor..|done|]|done].
  2: { intros n f. split; [done|]. intros [H _]. by apply not_elem_of_nil in H. }
  destruct E as [Hf Ht Hn Hb]. cbn in *. pose proof (merge_sort_Permutation number_le fields) as Hp.
  split; [split; [split|]|].
  - by rewrite Hp.
  - rewrite Hp. by rewrite Hn.
  - intros n f. by rewrite Hb, Hp.
  - apply all_Forall. by rewrite Hp.
  - exists (merge_sort number_le fields), bn. split; [done|]. split; [|by rewrite Hp, Hn].
    apply (StronglySorted_merge_sort number_le).
Qed.

(** ** Arbitrary input *)

Definition outcome {A} (Q : A -> Prop) (x : res A) : Prop :=
  match x with Ok a => Q a | Throw (ProtobufError _ _) => True | Throw _ => False end.

Lemma safe_outcome {A} N (Q : A -> Prop) x : outcome Q x -> safe N 0 Q (liftR x).
Proof. intros H r Hr Hb HN. unfold liftR. destruct x as [a|e]; [|done]. split_and!; [done|done|lia|done]. Qed.

Lemma safe_skip_field N wt n : 0 <= wt <= 5 -> safe N 0 (fun _ => True) (skip_field wt n).
Proof.
  intros Hw r Hr Hb HN. unfold skip_field. apply (safe_skip _ (length (bytes r))); [done|lia|done|done|].
  unfold rest. rewrite length_drop. lia.
Qed.

Lemma typed_presence p q t v : typed p t v -> typed q t v.
Proof. by destruct t. Qed.

Lemma safe_decodeValue dec N t p :
  (forall fs bn l, t = Codec fs bn -> (length l <= N - 1)%nat -> Forall is_byte l -> outcome (typed p t) (dec fs bn l)) ->
  safe N 1 (typed p t) (_decodeValue dec t).
Proof.
  intros Hd. destruct t as [t|fs bn].
  - destruct t; try (by apply safe_decodeScalar).
    + intros r Hr Hb HN. cbn [_decodeValue].
      assert (S : forall g : list Z -> res jsstring, (forall l, outcome (fun _ => True) (g l)) ->
        safe N 1 (fun _ => True) (n ← r_length; bs ← r_slice n; liftR (g bs))).
      { intros g Hg. apply (safe_delimited N 0). intros. apply safe_outcome, Hg. }
      set (g := fun l => match text_decode l with Ok s => Ok s | Throw _ => Throw (ProtobufError None "") end).
      specialize (S g ltac:(intros l; unfold g; by destruct (text_decode l)) r Hr Hb HN). revert S.
      unfold mbind, ST_bind. destruct (r_length r) as [[n r1]|]; [|done]. destruct (r_slice n r1) as [[l r2]|]; [|done].
      unfold liftR, g. destruct (text_decode l); [|done]. intros (? & ? & ? & _). by split_and!.
    + apply (safe_delimited N 0). intros l Hl Hb. by apply safe_ret.
  - apply (safe_delimited N 0). intros l Hl Hb. apply safe_outcome. by apply Hd.
Qed.

Lemma packed_outcome t fuel acc r :
  _isPackable (Scalar t) = true -> Forall (scalar_typed t) acc ->
  reader_ok r -> Forall is_byte (bytes r) -> (length (rest r) <= fuel)%nat ->
  outcome (Forall (scalar_typed t)) (packed_loop fuel t acc r).
Proof.
  intros Hp. revert acc r. induction fuel as [|fuel IH]; intros acc r Ha Hr Hb Hl; cbn [packed_loop];
    (destruct (done r) eqn:Hd; [done|]); pose proof (pb_zlen_rest r Hr) as Hz; unfold done, zlen in *; [lia|].
  pose proof (safe_decodeScalar (S fuel) t Hp r Hr Hb Hl) as Hs. cbn [mbind res_bind].
  destruct (_decodeScalar t r) as [[v r1]|e]; [|done]. destruct Hs as (Hr1 & Hb1 & Hk & Hv).
  apply IH; [|done|by rewrite Hb1|lia]. apply Forall_app. by repeat constructor.
Qed.

Definition obj_typed (fs : list field) (m : object) : Prop :=
  forall f, f ∈ fs -> field_conforms typed f (prop m (name f)).

Lemma typed_object p fs bn m : typed p (Codec fs bn) (VObject m) <-> obj_typed fs m.
Proof. cbn [conforms]. rewrite all_Forall, Forall_forall. done. Qed.

Lemma obj_typed_set fs f x m :
  NoDup (map name fs) -> f ∈ fs -> obj_typed fs m -> field_conforms typed f x -> obj_typed fs (JMap.set (name f) x m).
Proof.
  intros Hnd Hf Hm Hx g Hg. destruct (decide (name g = name f)) as [E|E]; [|rewrite prop_set_ne by done; by apply Hm].
  rewrite E, prop_set. apply list_elem_of_lookup in Hf as [i Hi]. apply list_elem_of_lookup in Hg as [j Hj].
  assert (i = j); [|by simplify_eq].
  eapply (NoDup_lookup (map name fs)); [done|rewrite list_lookup_fmap, Hi; done|rewrite list_lookup_fmap, Hj; cbn; by rewrite E].
Qed.

Lemma get_merge a b k :
  JMap.get k (merge a b) = match JMap.get k b with Some v => Some v | None => JMap.get k a end.
Proof.
  unfold merge. assert (F : forall l, JMap.get k a = None -> JMap.get k (base.filter (fun kv : jsstring * value => JMap.get kv.1 a = None) l) = JMap.get k l).
  { intros l Ha. induction l as [|[k' v] l IH]; [done|]. rewrite filter_cons. cbn [fst].
    destruct (decide (k = k')) as [<-|Hne]; case_decide; cbn [JMap.get]; rewrite ?decide_True, ?decide_False by done; done. }
  assert (G : forall l r, JMap.get k (map (fun '(k, v) => (k, match JMap.get k b with Some v' => v' | None => v end)) l ++ r) =
    match JMap.get k l with Some v => Some (match JMap.get k b with Some v' => v' | None => v end) | None => JMap.get k r end).
  { intros l r. induction l as [|[k' v] l IH]; [done|]. cbn [map app JMap.get].
    destruct (decide (k = k')) as [<-|Hne]; [done|exact IH]. }
  rewrite G. destruct (JMap.get k a) eqn:Ea; [by destruct (JMap.get k b)|].
  rewrite F by done. by destruct (JMap.get k b).
Qed.

Lemma obj_typed_merge fs a b : obj_typed fs a -> obj_typed fs b -> obj_typed fs (merge a b).
Proof.
  intros Ha Hb f Hf. specialize (Ha f Hf). specialize (Hb f Hf). unfold prop in *. rewrite get_merge.
  by destruct (JMap.get (name f) b).
Qed.

Lemma default_typed t p : _isCodec t = false -> typed p t (_defaultValue t).
Proof.
  assert (N : forall lo hi, lo <= 0 <= hi -> number_in lo hi (number_of 0)).
  { intros lo hi H. split; [by apply number_of_range|]. by exists 0. }
  destruct t as [t|]; [intros _|done]. destruct t; cbn; try done; try (apply N; unfold min32, max32, umax32; lia);
    unfold is_number, is_int; lia.
Qed.

Lemma start_typed f : field_conforms typed f (start_value f).
Proof.
  unfold field_conforms, start_value. destruct (repeated f); [constructor|].
  destruct (optional f) eqn:Ho; [done|]. destruct (_isCodec (type f)) eqn:Ec; [done|]. cbn [negb andb].
  pose proof (default_typed (type f) false Ec) as Hd. by destruct (_defaultValue (type f)) eqn:E; destruct (type f) as [[]|].
Qed.

Section arbitrary.
Context (fs : list field) (bn : list (Z * field)) (Hok : codec_ok fs bn).

Lemma typed_field f x : repeated f = false -> typed (optional f) (type f) x -> field_conforms typed f x.
Proof. intros Hr Hx. unfold field_conforms. rewrite Hr. destruct x; try done. by destruct (type f) as [[]|]. Qed.

Lemma push_outcome f items m :
  f ∈ fs -> repeated f = true -> obj_typed fs m -> Forall (typed true (type f)) items ->
  outcome (obj_typed fs) (push (name f) items m).
Proof.
  intros Hf Hr Hm Hi. unfold push. pose proof (Hm f Hf) as Hc. unfold field_conforms in Hc. rewrite Hr in Hc.
  destruct (prop m (name f)) as [| | | | | | |l|]; try done. cbn.
  apply obj_typed_set; [apply (ok_names _ _ Hok)|done|done|]. unfold field_conforms. rewrite Hr. by apply Forall_app.
Qed.

Lemma store_outcome f x m :
  f ∈ fs -> obj_typed fs m -> typed (repeated f || optional f) (type f) x -> outcome (obj_typed fs) (store f x m).
Proof.
  intros Hf Hm Hx. unfold store. destruct (repeated f) eqn:Hr; [apply push_outcome; auto|].
  assert (S : forall y, typed (optional f) (type f) y -> obj_typed fs (JMap.set (name f) y m)).
  { intros y Hy. apply obj_typed_set; [apply (ok_names _ _ Hok)|done|done|by apply typed_field]. }
  cbn [orb] in Hx. destruct (_isCodec (type f)) eqn:Ec; [|by apply S].
  destruct (prop m (name f)) as [| | | | | | | |old] eqn:Ep; try (by apply S).
  destruct x as [| | | | | | | |new]; try (by apply S). apply S.
  pose proof (Hm f Hf) as Ho. unfold field_conforms in Ho. rewrite Hr, Ep in Ho.
  destruct (type f) as [|nfs nbn]; [done|]. apply typed_object. apply typed_object in Ho, Hx. by apply obj_typed_merge.
Qed.

Lemma safe_decodeField dec N m :
  (forall f nfs nbn l, f ∈ fs -> type f = Codec nfs nbn -> (length l <= N - 2)%nat -> Forall is_byte l ->
    outcome (typed true (type f)) (dec nfs nbn l)) ->
  obj_typed fs m -> (1 <= N)%nat -> safe N 1 (obj_typed fs) (decodeField dec bn m).
Proof.
  intros Hd Hm HN. apply (safe_bind N 1 0 _ _ _ _ (safe_tag N)). intros [n k] [Hn Hk]. cbn [fst snd] in *.
  assert (SK : safe (N - 1) 0 (obj_typed fs) (skip_field k n;; mret m)).
  { apply (safe_map (N - 1) 0 _ _ (skip_field k n) (fun _ => m) (safe_skip_field (N - 1) k n Hk)). done. }
  destruct (JMap.get n bn) as [f|] eqn:Hg; [|exact SK].
  apply (ok_byNumber _ _ Hok) in Hg as [Hf _].
  destruct (repeated f && _isPackable (type f) && (k =? 2)) eqn:Ep.
  - apply andb_true_iff in Ep as [Ep _]. apply andb_true_iff in Ep as [Er Epk].
    destruct (type f) as [t|] eqn:Et; [|done].
    eapply (safe_weaken (N - 1) _ 1); [done|lia|intros a Ha; exact Ha|]. apply (safe_delimited (N - 1) 0).
    intros l Hl Hb. apply (safe_bind _ 0 0 (Forall (scalar_typed t))).
    + apply safe_outcome. apply packed_outcome; [done|constructor|apply pb_new_reader_ok|done|done].
    + intros items Hi. apply safe_outcome, push_outcome; [done|done|done|by rewrite Et].
  - destruct (negb (k =? _wireType (type f))); [exact SK|].
    eapply (safe_weaken (N - 1) _ (1 + 0)); [done|lia|intros a Ha; exact Ha|].
    apply safe_bind with (typed (repeated f || optional f) (type f)).
    + apply safe_decodeValue. intros nfs nbn l Et Hl Hb. specialize (Hd f nfs nbn l Hf Et ltac:(lia) Hb).
      rewrite Et in *. by destruct (dec nfs nbn l).
    + intros x Hx. apply safe_outcome, store_outcome; done.
Qed.

Lemma loop_outcome dec N m r fuel :
  ((1 <= N)%nat -> forall f nfs nbn l, f ∈ fs -> type f = Codec nfs nbn -> (length l <= N - 2)%nat -> Forall is_byte l ->
    outcome (typed true (type f)) (dec nfs nbn l)) ->
  obj_typed fs m -> reader_ok r -> Forall is_byte (bytes r) -> (length (rest r) <= fuel)%nat -> (length (rest r) <= N)%nat ->
  outcome (obj_typed fs) (decode_loop dec bn fuel m r).
Proof.
  intros Hd. revert m r. induction fuel as [|fuel IH]; intros m r Hm Hr Hb Hl HN; cbn [decode_loop];
    (destruct (done r) eqn:Hdn; [done|]); pose proof (pb_zlen_rest r Hr) as Hz; unfold done, zlen in *; [lia|].
  pose proof (safe_decodeField dec N m (Hd ltac:(lia)) Hm ltac:(lia) r Hr Hb HN) as Hs. cbn [mbind res_bind].
  destruct (decodeField dec bn m r) as [[m1 r1]|e]; [|done]. destruct Hs as (Hr1 & Hb1 & Hk & Hm1).
  apply IH; [done|done|by rewrite Hb1|lia|lia].
Qed.
End arbitrary.

Lemma decode_outcome fuel t fs bn bs :
  t = Codec fs bn -> wf t -> Forall is_byte bs -> (length bs < fuel)%nat ->
  outcome (typed true (Codec fs bn)) (decode_nested fuel fs bn bs).
Proof.
  revert t fs bn bs. induction fuel as [|fuel IH]; intros t fs bn bs -> [Hok Hw] Hb Hl; [lia|]. cbn [decode_nested].
  rewrite all_Forall, Forall_forall in Hw.
  assert (O : outcome (obj_typed fs) (decode_loop (decode_nested fuel) bn (length bs) (initial fs) (new_Reader bs))).
  { apply (loop_outcome fs bn Hok _ (length bs)); [| |apply pb_new_reader_ok|done..].
    - intros HN f nfs nbn l Hf Et Hlen Hlb. pose proof (Hw f Hf) as Hwf. rewrite Et in *.
      apply (IH (Codec nfs nbn)); [done|done|done|lia].
    - intros f Hf. rewrite prop_initial; [apply start_typed|apply (ok_names _ _ Hok)|done]. }
  destruct (decode_loop _ _ _ _ _) as [m|e]; [|done]. by apply typed_object.
Qed.

(** ** Properties *)

(** Every message that [defineMessage] accepts is well formed: numbers in
    range and distinct, the table of numbers in step with the fields, packing
    only where it applies; and its fields are in the order of their numbers. *)
Theorem defineMessage_wf schema codec :
  defineMessage schema = Ok codec -> NoDup (map fst schema) -> Forall (fun kd => wf (fs_type kd.2)) schema ->
  wf codec /\ exists fs bn, codec = Codec fs bn /\ StronglySorted number_le fs /\ map name fs ≡ₚ map fst schema.
Proof. apply define_wf. Qed.

(** A message that fits its schema exactly is encoded, and decoding the
    bytes gives the same message, up to the order of its properties and the
    properties that the schema does not name. *)
Theorem protobuf_roundtrip fs bn m :
  wf (Codec fs bn) -> exact true (Codec fs bn) (VObject m) -> zlen (message_bytes fs m) <= max_safe ->
  exists bytes v, encode (Codec fs bn) (VObject m) = Ok bytes /\ decode (Codec fs bn) bytes = Ok v /\
    same (Codec fs bn) (VObject m) v.
Proof.
  intros Hw He Hl. destruct (roundtrip_norm fs bn m Hw He Hl) as [H1 H2]. do 2 eexists. split_and!; [exact H1|exact H2|].
  by apply (norm_same _ Hw true).
Qed.

(** C3: what a schema encodes, any schema that agrees with it on the fields they
    share (their names, types and multiplicity) decodes: shared fields hold the same
    values, fields that only the writer knows are skipped, fields that only the
    reader knows have their starting values. With one schema for both this is the
    round trip. It is about messages of up to 2^53 - 1 bytes whose values their
    encoding keeps ([exact]): integers of the range of their type, floats that have
    single precision, strings without lone surrogates or a byte order mark at the
    start, and no negative zero in a field without presence, which is left out
    ([negative_zero_lost]). *)
Theorem protobuf_evolution fs bn fsR bnR m :
  wf (Codec fs bn) -> wf (Codec fsR bnR) -> compatible fs bnR ->
  exact true (Codec fs bn) (VObject m) -> zlen (message_bytes fs m) <= max_safe ->
  exists bytes m', encode (Codec fs bn) (VObject m) = Ok bytes /\ decode (Codec fsR bnR) bytes = Ok (VObject m') /\
    (forall f, f ∈ fs -> known bnR f -> same_field same f (prop m (name f)) (prop m' (name f))) /\
    (forall f, f ∈ fsR -> (forall g, g ∈ fs -> number g <> number f) -> prop m' (name f) = start_value f).
Proof.
  intros Hw HR Hc He Hl. pose proof Hw as [Hok Hwf]. pose proof HR as [HokR _].
  exists (message_bytes fs m). eexists. split_and!.
  - apply (encode_typed fs bn true m Hw); [by apply exact_typed_value|]. unfold max_safe, limit in *. lia.
  - cbn [decode]. unfold _decodeMessage. eapply decode_message; try done. by apply (wf_fields fs bn).
  - intros f Hf Hkn. rewrite (prop_filled fs bn fsR bnR) by done. apply same_stored.
    + intros p v Hv. rewrite all_Forall, Forall_forall in Hwf. by apply (norm_same _ (Hwf f Hf) p).
    + cbn [conforms] in He. rewrite all_Forall, Forall_forall in He. by apply He.
  - intros f Hf Hn. rewrite <- (prop_initial fsR f) by (done || apply (ok_names _ _ HokR)).
    assert (N : forall g, g ∈ fs -> known bnR g -> name f <> name g).
    { intros g Hg [g' E] Enm. destruct (Hc g g' Hg E) as (En & _). apply (ok_byNumber _ _ HokR) in E as [Hg' Eg].
      apply (Hn g Hg). rewrite <- Eg. f_equal. rewrite <- En in Enm.
      pose proof (ok_names _ _ HokR) as Hnd. apply list_elem_of_lookup in Hf as [i Hi]. apply list_elem_of_lookup in Hg' as [j Hj].
      assert (i = j); [|by simplify_eq].
      eapply (NoDup_lookup (map name fsR)); [done|rewrite list_lookup_fmap, Hi; done|rewrite list_lookup_fmap, Hj; cbn; by rewrite Enm]. }
    generalize (initial fsR) as acc. clear -N. induction fs as [|g l IH]; intros acc; [done|]. cbn [foldl].
    rewrite IH by (intros g' Hg'; apply N; by right).
    destruct (decide (known bnR g)); [apply fill_other, N; [by left|done]|by rewrite fill_unknown].
Qed.

(** C4: decoding ends on every input.  It returns a message in which every
    field of the schema has a value of its type and range, so that it can be
    encoded again, or it throws a [ProtobufError]; it throws nothing else. *)
Theorem protobuf_decode_typed fs bn bs :
  wf (Codec fs bn) -> Forall is_byte bs ->
  (exists m, decode (Codec fs bn) bs = Ok (VObject m) /\ typed true (Codec fs bn) (VObject m) /\
    (zlen (message_bytes fs m) < limit -> encode (Codec fs bn) (VObject m) = Ok (message_bytes fs m))) \/
  (exists offset msg, decode (Codec fs bn) bs = Throw (ProtobufError offset msg)).
Proof.
  intros Hw Hb. cbn [decode]. unfold _decodeMessage.
  pose proof (decode_outcome (S (length bs)) _ fs bn bs eq_refl Hw Hb ltac:(lia)) as O.
  destruct (decode_nested _ _ _ _) as [v|[]]; try done; [left|right; eauto].
  destruct v as [| | | | | | | |m]; try done. exists m. split_and!; [done|done|]. by apply (encode_typed fs bn true).
Qed.

(** ** Instances *)

(** A field descriptor. *)
Definition describe (n : Z) (t : FieldType) (rep : bool) (pk : option bool) (opt : bool) : FieldSchema :=
  {| fs_number := number_of n; fs_type := t; fs_repeated := rep; fs_packed := pk; fs_optional := opt |}.
Definition point_schema : list (jsstring * FieldSchema) :=
  [(js "x", describe 1 (Scalar sint32) false None false); (js "y", describe 2 (Scalar string_) false None true)].
Definition point : FieldType :=
  Eval vm_compute in match defineMessage point_schema with Ok c => c | Throw _ => Scalar bool_ end.
Definition shape_schema : list (jsstring * FieldSchema) :=
  [(js "at", describe 7 point false None false); (js "ids", describe 1 (Scalar int32) true None false);
   (js "parts", describe 3 point true None false); (js "size", describe 2 (Scalar double) false None false)].
Definition shape : FieldType :=
  Eval vm_compute in match defineMessage shape_schema with Ok c => c | Throw _ => Scalar bool_ end.
(** A later version: [parts] is gone, [ids] is not packed, [tag] is new. *)
Definition shape2_schema : list (jsstring * FieldSchema) :=
  [(js "ids", describe 1 (Scalar int32) true (Some false) false); (js "at", describe 7 point false None false);
   (js "size", describe 2 (Scalar double) false None false); (js "tag", describe 9 (Scalar uint64) false None false)].
Definition shape2 : FieldType :=
  Eval vm_compute in match defineMessage shape2_schema with Ok c => c | Throw _ => Scalar bool_ end.
Definition a_shape : object :=
  [(js "size", VNumber (number_of 7)); (js "ids", VArray [VNumber (number_of (-1)); VNumber (number_of 300)]);
   (js "at", VObject [(js "x", VNumber (number_of (-3)))]);
   (js "parts", VArray [VObject [(js "y", VString (js "p")); (js "x", VNumber (number_of 0))]])].

Ltac distinct := apply (bool_decide_unpack _); vm_compute; exact I.

Lemma point_wf : wf point.
Proof.
  destruct (define_wf point_schema point) as [H _]; [vm_compute; reflexivity|distinct|repeat constructor|exact H].
Qed.
Lemma shape_wf : wf shape.
Proof.
  destruct (define_wf shape_schema shape) as [H _]; [vm_compute; reflexivity|distinct| |exact H].
  repeat apply Forall_cons_2; [exact point_wf|exact I|exact point_wf|exact I|apply Forall_nil_2].
Qed.
Lemma shape2_wf : wf shape2.
Proof.
  destruct (define_wf shape2_schema shape2) as [H _]; [vm_compute; reflexivity|distinct| |exact H].
  repeat apply Forall_cons_2; [exact I|exact point_wf|exact I|exact I|apply Forall_nil_2].
Qed.

Lemma exact_int_of lo hi z : lo <= z <= hi -> exact_int lo hi (number_of z).
Proof. intros H. by exists z. Qed.

(** Evaluates a conformance statement down to the scalars. *)
Ltac conformance :=
  lazy -[number_of exact_int canonical ThriftIO.plain_string number_in is_number Z.pow not];
  repeat first [exact I|assumption|apply Forall_nil_2|apply Forall_cons_2|split|reflexivity];
  first [apply exact_int_of; lia|right; vm_compute; discriminate|vm_compute; discriminate].

Lemma a_shape_exact : exact true shape (VObject a_shape).
Proof. conformance. Qed.

Definition fields_of (t : FieldType) : list field := match t with Codec fs _ => fs | Scalar _ => [] end.
Definition byNumber_of (t : FieldType) : list (Z * field) := match t with Codec _ bn => bn | Scalar _ => [] end.

Lemma defineMessage_wf_witness :
  wf shape /\ exists fs bn, shape = Codec fs bn /\ StronglySorted number_le fs /\ map name fs ≡ₚ map fst shape_schema.
Proof.
  apply (defineMessage_wf shape_schema shape); [vm_compute; reflexivity|distinct|].
  repeat apply Forall_cons_2; [exact point_wf|exact I|exact point_wf|exact I|apply Forall_nil_2].
Defined.

Lemma protobuf_roundtrip_witness :
  exists bytes v, encode shape (VObject a_shape) = Ok bytes /\ decode shape bytes = Ok v /\ same shape (VObject a_shape) v.
Proof.
  apply (protobuf_roundtrip (fields_of shape) (byNumber_of shape) a_shape);
    [exact shape_wf|exact a_shape_exact|vm_compute; discriminate].
Defined.

Lemma protobuf_evolution_witness :
  exists bytes m', encode shape (VObject a_shape) = Ok bytes /\ decode shape2 bytes = Ok (VObject m') /\
    (forall f, f ∈ fields_of shape -> known (byNumber_of shape2) f ->
       same_field same f (prop a_shape (name f)) (prop m' (name f))) /\
    (forall f, f ∈ fields_of shape2 -> (forall g, g ∈ fields_of shape -> number g <> number f) -> prop m' (name f) = start_value f).
Proof.
  apply (protobuf_evolution (fields_of shape) (byNumber_of shape) (fields_of shape2) (byNumber_of shape2) a_shape);
    [exact shape_wf|exact shape2_wf| |exact a_shape_exact|vm_compute; discriminate].
  intros f f' Hf. cbn [fields_of shape] in Hf. rewrite !elem_of_cons in Hf.
  destruct Hf as [->|[->|[->|[->|Hf]]]]; [vm_compute; intros [= <-]; done..|by apply not_elem_of_nil in Hf].
Defined.

Lemma protobuf_decode_typed_witness :
  (exists m, decode shape [8; 255; 255; 255; 255; 31; 16; 0] = Ok (VObject m) /\ typed true shape (VObject m) /\
    (zlen (message_bytes (fields_of shape) m) < limit -> encode shape (VObject m) = Ok (message_bytes (fields_of shape) m))) \/
  (exists offset msg, decode shape [8; 255; 255; 255; 255; 31; 16; 0] = Throw (ProtobufError offset msg)).
Proof.
  apply (protobuf_decode_typed (fields_of shape) (byNumber_of shape)); [exact shape_wf|solve_ranges].
Defined.

(** A message field that occurs twice: the second occurrence overwrites the
    fields of the first with defaults it does not carry. *)
Example merge_overwrites_with_defaults :
  decode shape ([58; 2; 8; 5] ++ [58; 3; 18; 1; 112]) =
  Ok (VObject [(js "ids", VArray []); (js "size", VNumber 0); (js "parts", VArray []);
               (js "at", VObject [(js "x", VNumber 0); (js "y", VString (js "p"))])]).
Proof. vm_compute. reflexivity. Qed.

(** A negative zero without presence is taken for the default. *)
Example negative_zero_lost :
  encode shape (VObject [(js "ids", VArray []); (js "parts", VArray []); (js "size", VNumber (2 ^ 63))]) = Ok [].
Proof. vm_compute. reflexivity. Qed.
End ProtobufMessage.
