(* ===== verification/ParquetLevels.v ===== *)
(** The RLE / bit-packed hybrid of Parquet levels and dictionary indices
    (src/js/data/parquet/levels.ts).

    A stream is a sequence of runs.  [segments] is the run structure that the
    encoder chooses and [flatten] the values a decoder sees in it; the
    theorems relate the byte streams to these. *)

From S2P Require Import Prelude Utf8 ThriftIO.

Module ParquetLevels.
Import ThriftIO.

(** [Math.clz32] *)
Definition clz32 (x : Z) : Z :=
  let u := toUint32 x in if u =? 0 then 32 else 31 - Z.log2 u.

Definition bitWidthForMax (maxValue : Z) : Z :=
  if maxValue =? 0 then 0 else 32 - clz32 maxValue.

Fixpoint writeIntLE_loop (n : nat) (i value : Z) : ST writer unit :=
  match n with
  | O => mret tt
  | S n => writeU8 ((value >>>₃₂ (i * 8)) &₃₂ 255);; writeIntLE_loop n (i + 1) value
  end.
Definition writeIntLE (value byteLength : Z) : ST writer unit :=
  writeIntLE_loop (Z.to_nat byteLength) 0 value.

Fixpoint readIntLE_loop (n : nat) (i value : Z) : ST ByteReader Z :=
  match n with
  | O => mret (value >>>₃₂ 0)
  | S n => b ← readU8; readIntLE_loop n (i + 1) (value |₃₂ (b <<₃₂ (i * 8)))
  end.
Definition readIntLE (byteLength : Z) : ST ByteReader Z :=
  readIntLE_loop (Z.to_nat byteLength) 0 0.

(** ** Bit packing *)

(** [while (valBits > 0)]: the bits of one value. *)
Fixpoint pack_value (fuel : nat) (val valBits cur curBits : Z) : ST writer (Z * Z) :=
  if 0 <? valBits then
    match fuel with
    | O => throw Diverges
    | S fuel =>
        let take := Z.min (8 - curBits) valBits in
        let cur := cur |₃₂ ((val &₃₂ ((1 <<₃₂ take) - 1)) <<₃₂ curBits) in
        let val := val >>>₃₂ take in
        let curBits := curBits + take in
        let valBits := valBits - take in
        if curBits =? 8 then writeU8 cur;; pack_value fuel val valBits 0 0
        else pack_value fuel val valBits cur curBits
    end
  else mret (cur, curBits).

Fixpoint packBits_loop (values : list Z) (bitWidth cur curBits : Z) : ST writer unit :=
  match values with
  | [] => if 0 <? curBits then writeU8 cur else mret tt
  | value :: values =>
      '(cur, curBits) ← pack_value (Z.to_nat bitWidth) (value >>>₃₂ 0) bitWidth cur curBits;
      packBits_loop values bitWidth cur curBits
  end.
Definition packBits (values : list Z) (bitWidth : Z) : ST writer unit :=
  packBits_loop values bitWidth 0 0.

Fixpoint unpack_value (fuel : nat) (bitWidth val gotBits cur curBits : Z)
  : ST ByteReader (Z * Z * Z) :=
  if gotBits <? bitWidth then
    match fuel with
    | O => throw Diverges
    | S fuel =>
        '(cur, curBits) ← (if curBits =? 0 then b ← readU8; mret (b, 8) else mret (cur, curBits));
        let take := Z.min curBits (bitWidth - gotBits) in
        unpack_value fuel bitWidth
          (val |₃₂ ((cur &₃₂ ((1 <<₃₂ take) - 1)) <<₃₂ gotBits))
          (gotBits + take) (cur >>>₃₂ take) (curBits - take)
    end
  else mret (val, cur, curBits).

Fixpoint unpackBits_loop (n : nat) (bitWidth cur curBits : Z) (out : list Z) (count : Z)
  : ST ByteReader (list Z) :=
  match n with
  | O => mret out
  | S n =>
      '(val, cur, curBits) ← unpack_value (Z.to_nat bitWidth) bitWidth 0 0 cur curBits;
      unpackBits_loop n bitWidth cur curBits
        (if zlen out <? count then out ++ [(val >>>₃₂ 0)] else out) count
  end.
Definition unpackBits (bitWidth numValues : Z) (out : list Z) (count : Z)
  : ST ByteReader (list Z) :=
  unpackBits_loop (Z.to_nat numValues) bitWidth 0 0 out count.

(** ** The hybrid stream *)

(** How many of the next values equal [v]. *)
Fixpoint run_len (v : Z) (l : list Z) : Z :=
  match l with x :: l => if x =? v then 1 + run_len v l else 0 | [] => 0 end.

(** The inner [while]: values up to the next long run, and what is left. *)
Fixpoint collect_group (values : list Z) : list Z * list Z :=
  match values with
  | [] => ([], [])
  | v :: l =>
      if 8 <=? 1 + run_len v l then ([], values)
      else let '(group, later) := collect_group l in (v :: group, later)
  end.
(** [Math.ceil(n / 8)] *)
Definition ceil8 (n : Z) : Z := (n + 7) / 8.
Definition pad8 (group : list Z) : list Z :=
  group ++ replicate (Z.to_nat (ceil8 (zlen group) * 8 - zlen group)) 0.

Fixpoint encode_loop (fuel : nat) (bitWidth : Z) (values : list Z) : ST writer unit :=
  match values with
  | [] => mret tt
  | v :: l =>
      match fuel with
      | O => throw Diverges
      | S fuel =>
          let runLen := 1 + run_len v l in
          if 8 <=? runLen then
            writeVarint (runLen <<₃₂ 1);; writeIntLE v (ceil8 bitWidth);;
            encode_loop fuel bitWidth (drop (Z.to_nat runLen) values)
          else
            let '(group, later) := collect_group values in
            let numGroups := ceil8 (zlen group) in
            writeVarint ((numGroups <<₃₂ 1) |₃₂ 1);; packBits (pad8 group) bitWidth;;
            encode_loop fuel bitWidth later
      end
  end.
Definition encodeRleHybrid (values : list Z) (bitWidth : Z) : res (list Z) :=
  if bitWidth =? 0 then
    '(_, out) ← (if 0 <? zlen values then writeVarint ((zlen values) <<₃₂ 1) else mret tt) [];
    Ok out
  else '(_, out) ← encode_loop (length values) bitWidth values []; Ok out.

Fixpoint decode_loop (fuel : nat) (bitWidth count : Z) (out : list Z) : ST ByteReader (list Z) :=
  if zlen out <? count then
    match fuel with
    | O => throw Diverges
    | S fuel =>
        header ← readVarint32;
        if (header &₃₂ 1) =? 0 then
          let runLen := header >>>₃₂ 1 in
          value ← readIntLE (ceil8 bitWidth);
          decode_loop fuel bitWidth count
            (out ++ replicate (Z.to_nat (Z.min runLen (count - zlen out))) value)
        else
          let numValues := (header >>>₃₂ 1) * 8 in
          out ← unpackBits bitWidth numValues out count;
          decode_loop fuel bitWidth count out
    end
  else mret out.
(** Every round of the loop reads a byte, so the unread bytes bound it. *)
Definition decodeRleHybrid (bitWidth count : Z) : ST ByteReader (list Z) := fun r =>
  if bitWidth =? 0 then Ok (replicate (Z.to_nat count) 0, r)
  else decode_loop (S (length (rest r))) bitWidth count [] r.

Definition encodeDefinitionLevels (levels : list Z) (maxLevel : Z) : res (list Z) :=
  if maxLevel =? 0 then Ok []
  else
    body ← encodeRleHybrid levels (bitWidthForMax maxLevel);
    Ok (le_bytes 4 (zlen body) ++ body).

(** ** Packing: the bytes are the values as digits in base [2 ^ bitWidth] *)

Fixpoint digits_val (bw : Z) (vs : list Z) : Z :=
  match vs with [] => 0 | v :: vs => v + 2 ^ bw * digits_val bw vs end.

Definition fits (bw v : Z) : Prop := 0 <= v < 2 ^ bw.

Lemma pow2_pos n : 0 <= n -> 0 < 2 ^ n.
Proof. intros. apply Z.pow_pos_nonneg; lia. Qed.

Lemma digits_range bw vs : 0 <= bw -> Forall (fits bw) vs ->
  0 <= digits_val bw vs < 2 ^ (bw * zlen vs).
Proof.
  intros Hb. induction 1 as [|v vs Hv _ IH]; cbn [digits_val].
  - change (zlen []) with 0. rewrite Z.mul_0_r. simpl. lia.
  - rewrite zlen_cons, Z.mul_add_distr_l, Z.mul_1_r. pose proof (zlen_nonneg vs).
    rewrite pow2_split by nia. unfold fits in Hv. nia.
Qed.

Lemma fits_le a b v : 0 <= a <= b -> fits a v -> fits b v.
Proof. intros H Hv. unfold fits in *. pose proof (Z.pow_le_mono_r 2 a b). lia. Qed.

(** One step of packing: the low [take] bits move from [val] to [cur]. *)
Lemma pack_step val valBits cur curBits :
  let take := Z.min (8 - curBits) valBits in
  0 < valBits <= 32 -> 0 <= curBits < 8 -> fits valBits val -> fits curBits cur ->
  let cur' := js_or cur (js_shl (js_and val (js_shl 1 take - 1)) curBits) in
  cur' = cur + 2 ^ curBits * (val mod 2 ^ take) /\ fits (curBits + take) cur' /\
  js_ushr val take = val / 2 ^ take /\ fits (valBits - take) (val / 2 ^ take).
Proof.
  intros take Hvb Hcb Hv Hc cur'. unfold cur'. assert (0 < take <= 8) as Ht by lia.
  assert (curBits + take <= 8) as Hs by lia. assert (take <= valBits) as Htv by lia.
  clearbody take. pose proof (pow2_pos curBits ltac:(lia)) as Pc.
  pose proof (pow2_pos take ltac:(lia)) as Pt.
  pose proof (Z.mod_pos_bound val (2 ^ take) Pt) as Hm.
  assert (2 ^ curBits * 2 ^ take <= 256) as H256.
  { rewrite <- pow2_split by lia. by apply (Z.pow_le_mono_r 2 _ 8). }
  unfold fits in *. rewrite js_mask by lia. rewrite js_shl_small by nia.
  rewrite js_or_add by nia. split; [lia|].
  rewrite pow2_split by lia. split; [nia|].
  assert (val < 2 ^ 32) by (pose proof (Z.pow_le_mono_r 2 valBits 32); lia).
  split; [apply js_ushr_div; lia|]. split; [apply Z.div_pos; lia|].
  apply Z.div_lt_upper_bound; [lia|]. rewrite <- pow2_split by lia.
  replace (take + (valBits - take)) with valBits by lia. lia.
Qed.

(** What a packing state [out, cur, curBits] stands for. *)
Definition packed (out : list Z) (cur : Z) : Z := le_val out + 2 ^ (8 * zlen out) * cur.

Lemma packed_cons b out cur : packed (b :: out) cur = b + 256 * packed out cur.
Proof.
  unfold packed. rewrite zlen_cons, Z.mul_add_distr_l. pose proof (zlen_nonneg out).
  rewrite pow2_split by lia. simpl le_val. change (2 ^ (8 * 1)) with 256. ring.
Qed.

Lemma packed_app out out' cur :
  packed (out ++ out') cur = le_val out + 2 ^ (8 * zlen out) * packed out' cur.
Proof.
  induction out as [|b out IH]; cbn [app le_val].
  - change (zlen []) with 0. simpl (2 ^ _). lia.
  - rewrite packed_cons, IH, zlen_cons. pose proof (zlen_nonneg out).
    replace (8 * (1 + zlen out)) with (8 + 8 * zlen out) by lia.
    rewrite pow2_split by lia. change (2 ^ 8) with 256. ring.
Qed.

(** [cur] and [val] side by side, before and after a step. *)
Lemma pack_total cur curBits val take :
  0 <= curBits -> 0 <= take ->
  cur + 2 ^ curBits * val =
  cur + 2 ^ curBits * (val mod 2 ^ take) + 2 ^ (curBits + take) * (val / 2 ^ take).
Proof.
  intros. rewrite pow2_split by lia. pose proof (pow2_pos take ltac:(lia)).
  pose proof (Z_div_mod_eq_full val (2 ^ take)). nia.
Qed.

Lemma pack_value_spec fuel val valBits cur curBits :
  0 <= valBits <= 32 -> valBits <= Z.of_nat fuel -> 0 <= curBits < 8 ->
  fits valBits val -> fits curBits cur ->
  exists bs cur' curBits', writes (pack_value fuel val valBits cur curBits) bs (cur', curBits') /\
    0 <= curBits' < 8 /\ fits curBits' cur' /\ Forall is_byte bs /\
    8 * zlen bs + curBits' = curBits + valBits /\
    packed bs cur' = cur + 2 ^ curBits * val.
Proof.
  revert val valBits cur curBits. induction fuel as [|fuel IH];
    intros val valBits cur curBits Hvb Hf Hcb Hv Hc;
    (destruct (Z.ltb_spec 0 valBits) as [Hpos|Hpos]; [|
      exists [], cur, curBits; assert (valBits = 0) as -> by lia;
      assert (val = 0) as -> by (unfold fits in Hv; simpl in Hv; lia);
      split; [intros out; cbn [pack_value]; by rewrite app_nil_r|];
      do 2 (split; [done|]); split; [constructor|];
      unfold packed; change (zlen []) with 0; simpl; lia]); [lia|].
  destruct (pack_step val valBits cur curBits) as (Ecur & Hcur & Eval & Hval); [lia..|done|done|].
  cbn [pack_value]. replace (0 <? valBits) with true by lia. cbv zeta.
  set (take := Z.min (8 - curBits) valBits) in *. assert (0 < take) as Ht by lia.
  rewrite Eval, Ecur in *. rewrite (pack_total cur curBits val take) by lia.
  set (cur' := cur + 2 ^ curBits * (val mod 2 ^ take)) in *.
  destruct (Z.eqb_spec (curBits + take) 8) as [E8|N8].
  - destruct (IH (val / 2 ^ take) (valBits - take) 0 0) as (bs & c & cb & Hw & Hcb' & Hc' & Hbs & Hlen & Hpk);
      [lia|lia|lia|done|unfold fits; simpl; lia|].
    rewrite E8 in *. assert (is_byte cur') as Hb by (unfold fits, is_byte in *; simpl in Hcur; lia).
    exists (cur' :: bs), c, cb. split; [|split; [done|split; [done|split; [by constructor|]]]].
    + change (cur' :: bs) with ([cur'] ++ bs). eapply writes_bind; [|exact Hw].
      unfold writeU8. rewrite js_and_byte by done. apply writes_append.
    + rewrite zlen_cons, packed_cons, Hpk. simpl (2 ^ 0). simpl (2 ^ 8). lia.
  - destruct (IH (val / 2 ^ take) (valBits - take) cur' (curBits + take))
      as (bs & c & cb & Hw & Hcb' & Hc' & Hbs & Hlen & Hpk); [lia|lia|lia|done|done|].
    exists bs, c, cb. do 4 (split; [done|]). split; [lia|done].
Qed.

Lemma packBits_spec values bw cur curBits :
  1 <= bw <= 32 -> Forall (fits bw) values -> 0 <= curBits < 8 -> fits curBits cur ->
  (curBits + bw * zlen values) mod 8 = 0 ->
  exists bs, writes (packBits_loop values bw cur curBits) bs tt /\ Forall is_byte bs /\
    8 * zlen bs = curBits + bw * zlen values /\
    le_val bs = cur + 2 ^ curBits * digits_val bw values.
Proof.
  intros Hbw Hvs. revert cur curBits. induction Hvs as [|v vs Hv Hvs IH];
    intros cur curBits Hcb Hc Hm; cbn [packBits_loop digits_val].
  - change (zlen []) with 0 in *. assert (curBits = 0) as -> by (revert Hm; zdm).
    assert (cur = 0) as -> by (unfold fits in Hc; simpl in Hc; lia).
    exists []. split; [intros out; by rewrite app_nil_r|]. split; [constructor|].
    change (zlen []) with 0. simpl. lia.
  - rewrite zlen_cons in Hm |- *. pose proof (zlen_nonneg vs).
    assert (js_ushr v 0 = v) as ->.
    { rewrite js_ushr_0. apply toUint32_small. by apply (fits_le bw 32 v); [lia|]. }
    destruct (pack_value_spec (Z.to_nat bw) v bw cur curBits)
      as (bs & c & cb & Hw & Hcb' & Hc' & Hbs & Hlen & Hpk); [lia|lia|lia|done|done|].
    destruct (IH c cb) as (bs' & Hw' & Hbs' & Hlen' & Hv'); [lia|done| |].
    { replace (cb + bw * zlen vs) with (curBits + bw * (1 + zlen vs) + (- zlen bs) * 8) by lia.
      by rewrite Z.mod_add. }
    exists (bs ++ bs'). split; [by eapply writes_bind|]. split; [by apply Forall_app|].
    rewrite zlen_app. split; [lia|].
    assert (le_val (bs ++ bs') = packed (bs ++ bs') 0) as -> by (unfold packed; lia).
    rewrite packed_app. unfold packed at 1. rewrite Hv', Z.mul_0_r, Z.add_0_r.
    assert (cur + 2 ^ curBits * (v + 2 ^ bw * digits_val bw vs)
            = packed bs c + 2 ^ (curBits + bw) * digits_val bw vs) as ->
      by (rewrite Hpk, pow2_split by lia; ring).
    replace (curBits + bw) with (8 * zlen bs + cb) by lia. pose proof (zlen_nonneg bs).
    rewrite pow2_split by lia. unfold packed. ring.
Qed.

(** ** Unpacking inverts it *)

Lemma unpack_step bw val gotBits cur curBits :
  let take := Z.min curBits (bw - gotBits) in
  bw <= 32 -> 0 <= gotBits < bw -> 0 < curBits <= 8 -> fits curBits cur ->
  fits gotBits (toUint32 val) ->
  let val' := js_or val (js_shl (js_and cur (js_shl 1 take - 1)) gotBits) in
  toUint32 val' = toUint32 val + 2 ^ gotBits * (cur mod 2 ^ take) /\
  fits (gotBits + take) (toUint32 val') /\
  js_ushr cur take = cur / 2 ^ take /\ fits (curBits - take) (cur / 2 ^ take).
Proof.
  intros take Hbw Hg Hcb Hc Hv val'. unfold val'. assert (0 < take <= 8) as Ht by lia.
  assert (gotBits + take <= 32) as Hs by lia. assert (take <= curBits) as Htc by lia.
  clearbody take. pose proof (pow2_pos gotBits ltac:(lia)) as Pg.
  pose proof (pow2_pos take ltac:(lia)) as Pt.
  pose proof (Z.mod_pos_bound cur (2 ^ take) Pt) as Hm.
  assert (2 ^ gotBits * 2 ^ take <= 2 ^ 32) as H32.
  { rewrite <- pow2_split by lia. by apply (Z.pow_le_mono_r 2 _ 32). }
  unfold fits in *. rewrite js_mask by lia.
  rewrite toUint32_or, toUint32_shl by nia.
  rewrite <- (Z.shiftl_mul_pow2 (cur mod 2 ^ take)) by lia.
  rewrite lor_disjoint_add by (done || lia). split; [lia|].
  rewrite pow2_split by lia. split; [nia|].
  assert (cur < 2 ^ 32) by (pose proof (Z.pow_le_mono_r 2 curBits 32); lia).
  split; [apply js_ushr_div; lia|]. split; [apply Z.div_pos; lia|].
  apply Z.div_lt_upper_bound; [lia|]. rewrite <- pow2_split by lia.
  replace (take + (curBits - take)) with curBits by lia. lia.
Qed.

(** The unread bits [cur], then the bytes [L], shifted by [take]. *)
Lemma unread_shift cur curBits L take :
  0 <= take <= curBits -> 0 <= cur ->
  (cur + 2 ^ curBits * L) mod 2 ^ take = cur mod 2 ^ take /\
  (cur + 2 ^ curBits * L) / 2 ^ take = cur / 2 ^ take + 2 ^ (curBits - take) * L.
Proof.
  intros Ht Hc. pose proof (pow2_pos take ltac:(lia)).
  replace (2 ^ curBits * L) with (2 ^ (curBits - take) * L * 2 ^ take).
  - split; [by rewrite Z.mod_add by lia|by rewrite Z.div_add by lia].
  - replace curBits with (take + (curBits - take)) at 2 by lia.
    rewrite (pow2_split take) by lia. ring.
Qed.

Definition unread (cur curBits : Z) (bs : list Z) : Z := cur + 2 ^ curBits * le_val bs.

(** The refill at an empty [cur]. *)
Lemma refill_reads cur curBits bs :
  0 <= curBits <= 8 -> fits curBits cur -> Forall is_byte bs -> 0 < curBits + 8 * zlen bs ->
  exists bs0 bs1 cur' curBits', bs = bs0 ++ bs1 /\
    reads (if curBits =? 0 then b ← readU8; mret (b, 8) else mret (cur, curBits)) bs0 (cur', curBits')
    /\ 0 < curBits' <= 8 /\ fits curBits' cur' /\ Forall is_byte bs1 /\
    curBits' + 8 * zlen bs1 = curBits + 8 * zlen bs /\ unread cur' curBits' bs1 = unread cur curBits bs.
Proof.
  intros Hcb Hc Hbs Hlen. destruct (Z.eqb_spec curBits 0) as [->|Hn].
  - destruct bs as [|b bs]; [change (zlen []) with 0 in Hlen; lia|].
    apply Forall_cons in Hbs as [Hb Hbs]. exists [b], bs, b, 8. split; [done|].
    split; [eapply reads_map; [apply reads_U8|done]|]. split; [lia|]. split; [done|].
    split; [done|]. rewrite zlen_cons. split; [lia|]. unfold unread, fits in *. simpl in *. lia.
  - exists [], bs, cur, curBits. split; [done|]. split; [apply reads_ret|].
    split; [lia|]. done.
Qed.

Lemma unpack_value_spec fuel bw val gotBits cur curBits bs :
  bw <= 32 -> 0 <= gotBits <= bw -> bw - gotBits <= Z.of_nat fuel ->
  0 <= curBits <= 8 -> fits curBits cur -> fits gotBits (toUint32 val) -> Forall is_byte bs ->
  bw - gotBits <= curBits + 8 * zlen bs ->
  exists bs1 bs2 val' cur' curBits', bs = bs1 ++ bs2 /\
    reads (unpack_value fuel bw val gotBits cur curBits) bs1 (val', cur', curBits') /\
    0 <= curBits' <= 8 /\ fits curBits' cur' /\ Forall is_byte bs2 /\
    curBits' + 8 * zlen bs2 = curBits + 8 * zlen bs - (bw - gotBits) /\
    toUint32 val' = toUint32 val + 2 ^ gotBits * (unread cur curBits bs mod 2 ^ (bw - gotBits)) /\
    unread cur' curBits' bs2 = unread cur curBits bs / 2 ^ (bw - gotBits).
Proof.
  intros Hbw. revert val gotBits cur curBits bs. induction fuel as [|fuel IH];
    intros val gotBits cur curBits bs Hg Hf Hcb Hc Hv Hbs Hlen;
    (destruct (Z.ltb_spec gotBits bw) as [Hlt|Hge]; [|
      exists [], bs, val, cur, curBits; assert (bw - gotBits = 0) as -> by lia;
      split; [done|]; split; [cbn [unpack_value];
        replace (gotBits <? bw) with false by lia; apply reads_ret|];
      change (2 ^ 0) with 1; rewrite Z.mod_1_r, Z.div_1_r;
      split; [lia|]; split; [done|]; split; [done|]; split; [lia|]; split; [lia|done]]);
    [lia|].
  destruct (refill_reads cur curBits bs) as (bs0 & bs1 & c & cb & -> & Hr0 & Hcb0 & Hc0 & Hbs1 & Hl1 & Hu1);
    [done|done|done|lia|].
  destruct (unpack_step bw val gotBits c cb) as (Eval & Hval & Ecur & Hcur); [lia..|done|done|].
  set (take := Z.min cb (bw - gotBits)) in *. set (val' := js_or val _) in *.
  assert (0 < take <= cb) as Ht by lia. assert (take <= bw - gotBits) as Htb by lia.
  destruct (IH val' (gotBits + take) (c / 2 ^ take) (cb - take) bs1)
    as (bs2 & bs3 & v & c' & cb' & -> & Hr & Hcb' & Hc' & Hbs3 & Hl & Hvv & Hu); [lia..|done|done|done|lia|].
  exists (bs0 ++ bs2), bs3, v, c', cb'. split; [by rewrite app_assoc|]. split.
  { cbn [unpack_value]. replace (gotBits <? bw) with true by lia.
    eapply reads_bind; [exact Hr0|]. cbv beta iota zeta. fold take. fold val'. rewrite Ecur. exact Hr. }
  do 3 (split; [done|]). split; [rewrite !zlen_app in *; lia|].
  assert (0 <= c) by (unfold fits in Hc0; lia).
  destruct (unread_shift c cb (le_val (bs2 ++ bs3)) take) as [Hm Hd]; [lia|done|].
  rewrite <- Hu1, Hvv, Hu, Eval. unfold unread in *.
  replace (bw - (gotBits + take)) with (bw - gotBits - take) by lia. rewrite <- Hd, <- Hm.
  replace (bw - gotBits) with (take + (bw - gotBits - take)) at 2 4 by lia.
  rewrite mod_pow2_split, <- div_div_pow2, (pow2_split gotBits) by lia. split; [ring|done].
Qed.

Lemma unpackBits_spec vs bw cur curBits bs out count :
  1 <= bw <= 32 -> Forall (fits bw) vs -> 0 <= curBits <= 8 -> fits curBits cur ->
  Forall is_byte bs -> curBits + 8 * zlen bs = bw * zlen vs ->
  unread cur curBits bs = digits_val bw vs ->
  reads (unpackBits_loop (length vs) bw cur curBits out count) bs
    (out ++ take (Z.to_nat (count - zlen out)) vs).
Proof.
  intros Hbw Hvs. revert cur curBits bs out. induction Hvs as [|v vs Hv Hvs IH];
    intros cur curBits bs out Hcb Hc Hbs Hlen Hu; cbn [length unpackBits_loop].
  - change (zlen (@nil Z)) with 0 in Hlen. rewrite take_nil, app_nil_r.
    destruct bs as [|b bs]; [apply reads_ret|].
    rewrite zlen_cons in Hlen. pose proof (zlen_nonneg bs). lia.
  - rewrite zlen_cons in Hlen. pose proof (zlen_nonneg vs).
    destruct (unpack_value_spec (Z.to_nat bw) bw 0 0 cur curBits bs)
      as (bs1 & bs2 & val' & c' & cb' & -> & Hr & Hcb' & Hc' & Hbs2 & Hl & Hvv & Hu');
      [lia..|done|done|done|nia|].
    eapply reads_bind; [exact Hr|]. cbv beta iota.
    rewrite Z.sub_0_r in *. change (toUint32 0) with 0 in Hvv. change (2 ^ 0) with 1 in Hvv.
    rewrite Hu in Hvv, Hu'. cbn [digits_val] in Hvv, Hu'. unfold fits in Hv.
    rewrite (Z.mul_comm (2 ^ bw)), Z.mod_add, Z.mod_small in Hvv by lia.
    rewrite (Z.mul_comm (2 ^ bw)), Z.div_add, Z.div_small in Hu' by lia.
    rewrite js_ushr_0, Hvv, Z.add_0_l, Z.mul_1_l.
    specialize (IH c' cb' bs2 (if zlen out <? count then out ++ [v] else out)).
    replace (out ++ take (Z.to_nat (count - zlen out)) (v :: vs)) with
      ((if zlen out <? count then out ++ [v] else out) ++
       take (Z.to_nat (count - zlen (if zlen out <? count then out ++ [v] else out))) vs).
    { apply IH; try done. lia. }
    destruct (Z.ltb_spec (zlen out) count).
    + replace (Z.to_nat (count - zlen out)) with (S (Z.to_nat (count - zlen (out ++ [v])))).
      * by rewrite <- app_assoc.
      * rewrite zlen_app. change (zlen [v]) with 1. lia.
    + by replace (Z.to_nat (count - zlen out)) with 0%nat by lia.
Qed.

(** ** The run structure of a stream *)

Inductive segment :=
| Run (n v : Z)
| Pack (vs : list Z).

(** The runs the encoder chooses. *)
Fixpoint segments (fuel : nat) (values : list Z) : list segment :=
  match fuel, values with
  | S fuel, v :: l =>
      let runLen := 1 + run_len v l in
      if 8 <=? runLen then Run runLen v :: segments fuel (drop (Z.to_nat runLen) values)
      else let '(group, later) := collect_group values in Pack group :: segments fuel later
  | _, _ => []
  end.

Definition write_segment (bw : Z) (s : segment) : ST writer unit :=
  match s with
  | Run n v => writeVarint (js_shl n 1);; writeIntLE v (ceil8 bw)
  | Pack vs => writeVarint (js_or (js_shl (ceil8 (zlen vs)) 1) 1);; packBits (pad8 vs) bw
  end.
(** The values a decoder sees in a segment, and those that were meant. *)
Definition seen (s : segment) : list Z :=
  match s with Run n v => replicate (Z.to_nat n) v | Pack vs => pad8 vs end.
Definition meant (s : segment) : list Z :=
  match s with Run n v => replicate (Z.to_nat n) v | Pack vs => vs end.
Definition flatten (ss : list segment) : list Z := concat (map seen ss).

Definition segment_ok (bw : Z) (s : segment) : Prop :=
  match s with
  | Run n v => 8 <= n < 2 ^ 30 /\ fits bw v
  | Pack vs => vs <> [] /\ zlen vs < 2 ^ 30 /\ Forall (fits bw) vs
  end.

Lemma run_len_bounds v l : 0 <= run_len v l <= zlen l.
Proof.
  induction l as [|x l IH]; cbn [run_len]; [done|]. rewrite zlen_cons.
  destruct (x =? v); lia.
Qed.

Lemma run_len_split v l :
  l = replicate (Z.to_nat (run_len v l)) v ++ drop (Z.to_nat (run_len v l)) l.
Proof.
  induction l as [|x l IH]; [done|]. cbn [run_len]. destruct (Z.eqb_spec x v) as [->|]; [|done].
  pose proof (run_len_bounds v l). rewrite Z2Nat.inj_add by lia. simpl. by rewrite <- IH.
Qed.

Lemma collect_group_split l : l = (collect_group l).1 ++ (collect_group l).2.
Proof.
  induction l as [|v l IH]; [done|]. cbn [collect_group].
  destruct (8 <=? 1 + run_len v l); [done|].
  destruct (collect_group l) as [g later]. simpl in *. by rewrite <- IH.
Qed.

Lemma collect_group_progress v l :
  (8 <=? 1 + run_len v l) = false -> (collect_group (v :: l)).1 <> [].
Proof. intros E. cbn [collect_group]. rewrite E. by destruct (collect_group l). Qed.

Lemma segments_meant fuel values :
  (length values <= fuel)%nat -> concat (map meant (segments fuel values)) = values.
Proof.
  revert values. induction fuel as [|fuel IH]; intros [|v l] Hf; try done; [simpl in Hf; lia|].
  cbn [segments]. pose proof (run_len_bounds v l) as Hb. destruct (8 <=? 1 + run_len v l) eqn:E.
  - cbn [map concat meant]. rewrite IH.
    + rewrite Z2Nat.inj_add by lia. change (Z.to_nat 1) with 1%nat. simpl. f_equal.
      symmetry. apply run_len_split.
    + rewrite length_drop. simpl in *. lia.
  - pose proof (collect_group_split (v :: l)) as Hs.
    pose proof (collect_group_progress v l E) as Hp.
    destruct (collect_group (v :: l)) as [g later]. cbn [map concat meant fst snd] in *.
    rewrite IH; [done|]. rewrite Hs, length_app in Hf. destruct g; [done|]. simpl in Hf. lia.
Qed.

Lemma segments_ok fuel bw values :
  Forall (fits bw) values -> zlen values < 2 ^ 30 ->
  Forall (segment_ok bw) (segments fuel values).
Proof.
  revert values. induction fuel as [|fuel IH]; intros [|v l] Hv Hn; try constructor.
  cbn [segments]. pose proof (run_len_bounds v l) as Hb. rewrite zlen_cons in Hn.
  destruct (8 <=? 1 + run_len v l) eqn:E.
  - constructor.
    + split; [lia|]. by apply Forall_cons in Hv as [Hv _].
    + apply IH; [by apply Forall_drop|]. unfold zlen in *. rewrite length_drop. simpl. lia.
  - pose proof (collect_group_split (v :: l)) as Hs.
    pose proof (collect_group_progress v l E) as Hp.
    destruct (collect_group (v :: l)) as [g later]. cbn [fst snd] in *.
    rewrite Hs in Hv. apply Forall_app in Hv as [Hg Hl].
    assert (zlen g + zlen later = 1 + zlen l) as Hlen.
    { rewrite <- zlen_app, <- Hs. apply zlen_cons. }
    pose proof (zlen_nonneg g). pose proof (zlen_nonneg later).
    constructor; [split; [done|split; [lia|done]]|apply IH; [done|lia]].
Qed.

Lemma encode_segments fuel bw values out :
  (length values <= fuel)%nat ->
  encode_loop fuel bw values out = forEach (write_segment bw) (segments fuel values) out.
Proof.
  revert values out. induction fuel as [|fuel IH]; intros [|v l] out Hf; try done; [simpl in Hf; lia|].
  cbn [encode_loop segments]. pose proof (run_len_bounds v l) as Hb.
  destruct (8 <=? 1 + run_len v l) eqn:E.
  - cbn [forEach write_segment]. rewrite ST_bind_assoc. unfold mbind, ST_bind.
    destruct (writeVarint _ out) as [[[] o]|]; [|done].
    destruct (writeIntLE v _ o) as [[[] o']|]; [|done].
    apply IH. rewrite length_drop. simpl in *. lia.
  - pose proof (collect_group_split (v :: l)) as Hs.
    pose proof (collect_group_progress v l E) as Hp.
    destruct (collect_group (v :: l)) as [g later]. cbn [forEach write_segment fst snd] in *.
    rewrite ST_bind_assoc. unfold mbind, ST_bind.
    destruct (writeVarint _ out) as [[[] o]|]; [|done].
    destruct (packBits (pad8 g) bw o) as [[[] o']|]; [|done]. apply IH.
    rewrite Hs, length_app in Hf. destruct g; [done|]. simpl in Hf. lia.
Qed.

(** ** Segments on the wire *)

Lemma writes_IntLE_loop n i value :
  0 <= i -> i + Z.of_nat n <= 4 -> 0 <= value < 2 ^ 32 ->
  writes (writeIntLE_loop n i value) (le_bytes n (value / 2 ^ (i * 8))) tt.
Proof.
  revert i. induction n as [|n IH]; intros i Hi Hn Hv; cbn [writeIntLE_loop le_bytes].
  - intros out. by rewrite app_nil_r.
  - change (?b :: ?l) with ([b] ++ l). eapply writes_bind.
    + unfold writeU8. rewrite js_ushr_div, !(js_and_ones _ 255 8) by lia.
      rewrite (Z.mod_small (_ mod _)) by (apply Z.mod_pos_bound; lia). apply writes_append.
    + change 256 with (2 ^ 8). rewrite div_div_pow2 by lia.
      replace (i * 8 + 8) with ((i + 1) * 8) by lia. apply IH; lia.
Qed.

Lemma reads_IntLE_loop n i value x :
  0 <= i -> i + Z.of_nat n <= 4 -> fits (i * 8) (toUint32 value) ->
  0 <= x < 2 ^ (8 * Z.of_nat n) ->
  reads (readIntLE_loop n i value) (le_bytes n x) (toUint32 value + 2 ^ (i * 8) * x).
Proof.
  revert i value x. induction n as [|n IH]; intros i value x Hi Hn Hv Hx;
    cbn [readIntLE_loop le_bytes].
  - simpl in Hx. assert (x = 0) as -> by lia. rewrite Z.mul_0_r, Z.add_0_r, js_ushr_0. apply reads_ret.
  - change (?b :: ?l) with ([b] ++ l). eapply reads_bind; [apply reads_U8|]. cbv beta.
    pose proof (Z.mod_pos_bound x 256 ltac:(lia)) as Hm. rewrite pow_8S in Hx.
    pose proof (pow2_pos (i * 8) ltac:(lia)) as Pi.
    assert (2 ^ (i * 8) * 256 <= 2 ^ 32) as H32.
    { change 256 with (2 ^ 8). rewrite <- pow2_split by lia. apply Z.pow_le_mono_r; lia. }
    assert (toUint32 (js_or value (js_shl (x mod 256) (i * 8)))
            = toUint32 value + 2 ^ (i * 8) * (x mod 256)) as E.
    { rewrite toUint32_or, toUint32_shl by nia. rewrite <- Z.shiftl_mul_pow2 by lia.
      rewrite lor_disjoint_add by (done || lia). lia. }
    replace (toUint32 value + 2 ^ (i * 8) * x) with
      (toUint32 (js_or value (js_shl (x mod 256) (i * 8))) + 2 ^ ((i + 1) * 8) * (x / 256)).
    + apply IH; [lia|lia| |split; [apply Z.div_pos; lia|apply Z.div_lt_upper_bound; lia]].
      unfold fits in *. rewrite E. replace ((i + 1) * 8) with (i * 8 + 8) by lia.
      rewrite pow2_split by lia. change (2 ^ 8) with 256. nia.
    + rewrite E. replace ((i + 1) * 8) with (i * 8 + 8) by lia. rewrite pow2_split by lia.
      change (2 ^ 8) with 256. pose proof (Z_div_mod_eq_full x 256). nia.
Qed.

Lemma ceil8_bounds bw : 1 <= bw <= 32 -> 1 <= ceil8 bw <= 4 /\ bw <= 8 * ceil8 bw.
Proof. intros. unfold ceil8. zdm. Qed.

Lemma intLE_codec bw v : 1 <= bw <= 32 -> fits bw v ->
  let bs := le_bytes (Z.to_nat (ceil8 bw)) v in
  writes (writeIntLE v (ceil8 bw)) bs tt /\ reads (readIntLE (ceil8 bw)) bs v.
Proof.
  intros Hbw Hv bs. destruct (ceil8_bounds bw Hbw) as [Hc Hw].
  pose proof (fits_le bw 32 v ltac:(lia) Hv) as H32. unfold fits in H32. split.
  - replace bs with (le_bytes (Z.to_nat (ceil8 bw)) (v / 2 ^ (0 * 8)))
      by (change (2 ^ (0 * 8)) with 1; by rewrite Z.div_1_r).
    apply writes_IntLE_loop; lia.
  - replace v with (toUint32 0 + 2 ^ (0 * 8) * v) by (change (2 ^ (0 * 8)) with 1; rewrite Z.mul_1_l; done).
    apply reads_IntLE_loop; [lia|lia|done|].
    by apply (fits_le bw); [lia|].
Qed.

Lemma pad8_length vs : zlen (pad8 vs) = ceil8 (zlen vs) * 8.
Proof.
  unfold pad8. rewrite zlen_app. unfold zlen at 2. rewrite length_replicate.
  unfold ceil8. pose proof (zlen_nonneg vs). zdm.
Qed.

Lemma pad8_fits bw vs : 0 <= bw -> Forall (fits bw) vs -> Forall (fits bw) (pad8 vs).
Proof.
  intros Hb Hv. apply Forall_app. split; [done|]. apply Forall_replicate.
  unfold fits. pose proof (pow2_pos bw Hb). lia.
Qed.

Lemma packBits_codec bw vs : 1 <= bw <= 32 -> Forall (fits bw) vs ->
  exists bs, writes (packBits (pad8 vs) bw) bs tt /\
    forall out count, reads (unpackBits bw (ceil8 (zlen vs) * 8) out count) bs
      (out ++ take (Z.to_nat (count - zlen out)) (pad8 vs)).
Proof.
  intros Hbw Hv. pose proof (pad8_fits bw vs ltac:(lia) Hv) as Hp.
  pose proof (pad8_length vs) as Hl.
  destruct (packBits_spec (pad8 vs) bw 0 0) as (bs & Hw & Hbs & Hlen & Hval);
    [done|done|lia|unfold fits; simpl; lia| |].
  { rewrite Hl. replace (0 + bw * (ceil8 (zlen vs) * 8)) with (bw * ceil8 (zlen vs) * 8) by lia.
    by apply Z.mod_mul. }
  exists bs. split; [done|]. intros out count. unfold unpackBits. rewrite <- Hl.
  unfold zlen at 1. rewrite Nat2Z.id. apply unpackBits_spec; [done|done|lia|unfold fits; simpl; lia|done|lia|].
  unfold unread. rewrite Hval. change (2 ^ 0) with 1. lia.
Qed.

(** The headers of the two kinds of run. *)
Lemma run_header n : 0 <= n < 2 ^ 30 ->
  let h := js_shl n 1 in 0 <= h < 2 ^ 32 /\ js_and h 1 = 0 /\ js_ushr h 1 = n.
Proof.
  intros Hn h. unfold h. rewrite js_shl_small by lia. change (2 ^ 1) with 2.
  split; [lia|]. rewrite (js_and_ones _ 1 1), js_ushr_div by lia. change (2 ^ 1) with 2. zdm.
Qed.

Lemma pack_header n : 0 <= n < 2 ^ 30 ->
  let h := js_or (js_shl n 1) 1 in 0 <= h < 2 ^ 32 /\ js_and h 1 = 1 /\ js_ushr h 1 = n.
Proof.
  intros Hn h. assert (h = n * 2 + 1) as ->.
  { unfold h. rewrite js_shl_small by lia. change (2 ^ 1) with 2. unfold js_or.
    rewrite !toInt32_small by (apply is_int32_nonneg; lia).
    rewrite (lor_high _ n _ 1) by lia. done. }
  split; [lia|]. rewrite (js_and_ones _ 1 1), js_ushr_div by lia. change (2 ^ 1) with 2. zdm.
Qed.

(** The number of bytes a segment takes is positive, and reading it runs one
    round of the decoder's loop. *)
Lemma segment_codec bw s : 1 <= bw <= 32 -> segment_ok bw s ->
  exists bs, writes (write_segment bw s) bs tt /\ (0 < length bs)%nat /\
  forall fuel count out r tail, zlen out < count -> reader_ok r -> rest r = bs ++ tail ->
    decode_loop (S fuel) bw count out r =
    decode_loop fuel bw count (out ++ take (Z.to_nat (count - zlen out)) (seen s))
      (advance (zlen bs) r).
Proof.
  intros Hbw Hs. assert (forall v, (0 < length (varint_bytes 10 v))%nat) as Hpos.
  { intros v. simpl. destruct (128 <=? v); simpl; lia. }
  destruct s as [n v|vs]; simpl in Hs; cbn [write_segment seen].
  - destruct Hs as [Hn Hv]. destruct (run_header n ltac:(lia)) as (Hh & Ha & Hu).
    destruct (intLE_codec bw v Hbw Hv) as [Hw Hr].
    set (h := js_shl n 1) in *. set (vb := le_bytes _ v) in *.
    exists (varint_bytes 10 h ++ vb). split; [eapply writes_bind; [apply writes_Varint; lia|exact Hw]|].
    split; [rewrite length_app; specialize (Hpos h); lia|]. intros fuel count out r tail Hc Hok E.
    cbn [decode_loop]. replace (zlen out <? count) with true by lia. rewrite <- app_assoc in E.
    rewrite (ST_bind_ok _ _ _ _ _ (reads_Varint32 h ltac:(lia) r _ Hok E)). rewrite Ha. cbv zeta.
    change (0 =? 0) with true. cbv iota. rewrite Hu.
    rewrite (ST_bind_ok _ _ _ _ _ (Hr _ _ (ok_advance _ _ _ Hok E) (rest_advance _ _ _ E))).
    rewrite advance_advance, zlen_app by apply zlen_nonneg. f_equal. f_equal.
    rewrite take_replicate. f_equal. lia.
  - destruct Hs as (Hne & Hn & Hv). pose proof (zlen_nonneg vs).
    destruct (pack_header (ceil8 (zlen vs))) as (Hh & Ha & Hu); [unfold ceil8; zdm|].
    destruct (packBits_codec bw vs Hbw Hv) as (pb & Hw & Hr).
    set (h := js_or _ 1) in *.
    exists (varint_bytes 10 h ++ pb). split; [eapply writes_bind; [apply writes_Varint; lia|exact Hw]|].
    split; [rewrite length_app; specialize (Hpos h); lia|]. intros fuel count out r tail Hc Hok E.
    cbn [decode_loop]. replace (zlen out <? count) with true by lia. rewrite <- app_assoc in E.
    rewrite (ST_bind_ok _ _ _ _ _ (reads_Varint32 h ltac:(lia) r _ Hok E)). rewrite Ha. cbv zeta.
    change (1 =? 0) with false. cbv iota. rewrite Hu.
    rewrite (ST_bind_ok _ _ _ _ _ (Hr out count _ _ (ok_advance _ _ _ Hok E) (rest_advance _ _ _ E))).
    by rewrite advance_advance, zlen_app by apply zlen_nonneg.
Qed.

(** [needed n count ss]: after [n] values the decoder still asks for every
    segment of [ss]. *)
Fixpoint needed (n count : Z) (ss : list segment) : Prop :=
  match ss with
  | [] => count <= n
  | s :: ss => n < count /\ needed (n + zlen (seen s)) count ss
  end.

Lemma zlen_take_le {A} (n : Z) (l : list A) : zlen (take (Z.to_nat n) l) = Z.min (Z.max 0 n) (zlen l).
Proof. unfold zlen. rewrite length_take. lia. Qed.

Lemma take_take_app {A} (c n : Z) (l k : list A) :
  n <= c ->
  take (Z.to_nat (c - n)) (l ++ k) =
  take (Z.to_nat (c - n)) l ++ take (Z.to_nat (c - (n + zlen (take (Z.to_nat (c - n)) l)))) k.
Proof.
  intros H. rewrite take_app. f_equal. f_equal. rewrite zlen_take_le. unfold zlen. lia.
Qed.

Lemma stream_codec bw ss : 1 <= bw <= 32 -> Forall (segment_ok bw) ss ->
  exists bs, writes (forEach (write_segment bw) ss) bs tt /\ (length ss <= length bs)%nat /\
  forall fuel count out r tail, (length ss <= fuel)%nat ->
    zlen out <= count <= zlen out + zlen (flatten ss) ->
    reader_ok r -> rest r = bs ++ tail ->
    exists r', decode_loop fuel bw count out r =
      Ok (out ++ take (Z.to_nat (count - zlen out)) (flatten ss), r') /\
      (needed (zlen out) count ss -> rest r' = tail).
Proof.
  intros Hbw. induction 1 as [|s ss Hs _ (bs2 & Hw2 & Hl2 & IH)].
  - exists []. split; [intros out; by rewrite app_nil_r|]. split; [done|].
    intros fuel count out r tail _ Hc Hok E. exists r. change (zlen (flatten [])) with 0 in Hc.
    split; [|done]. change (flatten []) with (@nil Z). rewrite take_nil, app_nil_r.
    destruct fuel; cbn [decode_loop]; by replace (zlen out <? count) with false by lia.
  - destruct (segment_codec bw s Hbw Hs) as (bs1 & Hw1 & Hp1 & Hd1).
    exists (bs1 ++ bs2). split; [by eapply writes_bind|]. split; [rewrite length_app; simpl; lia|].
    intros [|fuel] count out r tail Hf Hc Hok E; [simpl in Hf; lia|]. rewrite <- app_assoc in E.
    assert (flatten (s :: ss) = seen s ++ flatten ss) as Ef by done. rewrite Ef in *.
    rewrite zlen_app in Hc. destruct (Z.lt_ge_cases (zlen out) count) as [Hlt|Hge].
    + rewrite (Hd1 fuel count out r _ Hlt Hok E).
      destruct (IH fuel count (out ++ take (Z.to_nat (count - zlen out)) (seen s))
        (advance (zlen bs1) r) tail) as (r' & -> & Hn'); [simpl in Hf; lia| | |by apply rest_advance|].
      { rewrite zlen_app, zlen_take_le. pose proof (zlen_nonneg (seen s)).
        pose proof (zlen_nonneg (flatten ss)). lia. }
      { by eapply ok_advance. }
      exists r'. rewrite zlen_app, <- app_assoc, <- take_take_app by lia. split; [done|].
      intros [_ Hn]. apply Hn'. rewrite zlen_app, zlen_take_le.
      destruct (Z.le_gt_cases (zlen (seen s)) (count - zlen out)).
      * by rewrite Z.min_r by lia.
      * destruct ss as [|s2 ss]; cbn [needed] in *; [lia|]. lia.
    + exists r. assert (count = zlen out) as -> by lia. rewrite Z.sub_diag. change (Z.to_nat 0) with 0%nat.
      rewrite take_0, app_nil_r. cbn [decode_loop]. rewrite Z.ltb_irrefl. split; [done|].
      intros [? _]. lia.
Qed.

(** ** The round trip *)

(** A bit-packed segment in the middle of a stream carries a multiple of eight
    values, so that its padding is empty. *)
Definition full (s : segment) : bool :=
  match s with Run _ _ => true | Pack vs => zlen vs mod 8 =? 0 end.
Fixpoint aligned_segments (ss : list segment) : bool :=
  match ss with
  | [] | [_] => true
  | s :: ss => full s && aligned_segments ss
  end.
Definition aligned (values : list Z) : bool :=
  aligned_segments (segments (length values) values).

Lemma seen_meant s : exists pad, seen s = meant s ++ pad /\ (full s = true -> pad = []).
Proof.
  destruct s as [n v|vs]; cbn [seen meant full].
  - exists []. by rewrite app_nil_r.
  - unfold pad8. eexists. split; [done|]. intros E%Z.eqb_eq.
    replace (ceil8 (zlen vs) * 8 - zlen vs) with 0; [done|].
    unfold ceil8. revert E. zdm.
Qed.

Lemma meant_nonempty bw s : segment_ok bw s -> 0 < zlen (meant s).
Proof.
  destruct s as [n v|vs]; simpl.
  - intros [Hn _]. unfold zlen. rewrite length_replicate. lia.
  - intros [Hne _]. destruct vs; [done|]. rewrite zlen_cons. pose proof (zlen_nonneg vs). lia.
Qed.

Lemma aligned_flatten bw ss n :
  Forall (segment_ok bw) ss -> aligned_segments ss = true ->
  (exists pad, flatten ss = concat (map meant ss) ++ pad) /\
  needed n (n + zlen (concat (map meant ss))) ss.
Proof.
  intros Hok. revert n. induction Hok as [|s ss Hs Hss IH]; intros n Ha.
  - split; [by exists []|]. simpl. change (zlen []) with 0. lia.
  - destruct (seen_meant s) as (pad & Es & Hf). pose proof (meant_nonempty bw s Hs) as Hp.
    cbn [map concat needed]. rewrite zlen_app. destruct ss as [|s2 ss].
    + simpl concat. rewrite app_nil_r. change (zlen []) with 0. split.
      * exists pad. unfold flatten. simpl. by rewrite app_nil_r.
      * rewrite Es, zlen_app. pose proof (zlen_nonneg pad). split; [lia|]. simpl. lia.
    + apply andb_true_iff in Ha as [Hfull Ha]. rewrite (Hf Hfull), app_nil_r in Es.
      destruct (IH (n + zlen (seen s)) Ha) as [[pad' Ef] Hn]. split.
      * exists pad'. change (flatten (s :: s2 :: ss)) with (seen s ++ flatten (s2 :: ss)).
        by rewrite Ef, Es, app_assoc.
      * pose proof (zlen_nonneg (concat (map meant (s2 :: ss)))). split; [lia|].
        rewrite Es in *. by rewrite Z.add_assoc.
Qed.

Lemma flatten_length ss : zlen (concat (map meant ss)) <= zlen (flatten ss).
Proof.
  induction ss as [|s ss IH]; [done|]. unfold flatten in *. cbn [map concat].
  destruct (seen_meant s) as (pad & -> & _). rewrite !zlen_app. pose proof (zlen_nonneg pad). lia.
Qed.

Lemma hybrid_stream values bw :
  1 <= bw <= 32 -> Forall (fits bw) values -> zlen values < 2 ^ 30 ->
  exists bs, encodeRleHybrid values bw = Ok bs /\
  forall r tail, reader_ok r -> rest r = bs ++ tail ->
  exists r', decodeRleHybrid bw (zlen values) r =
    Ok (take (length values) (flatten (segments (length values) values)), r') /\
    (aligned values = true -> rest r' = tail).
Proof.
  intros Hbw Hv Hn. set (ss := segments (length values) values).
  pose proof (segments_ok (length values) bw values Hv Hn) as Hok.
  pose proof (segments_meant (length values) values ltac:(lia)) as Hm. fold ss in Hok, Hm.
  destruct (stream_codec bw ss Hbw Hok) as (bs & Hw & Hl & Hd). exists bs. split.
  { unfold encodeRleHybrid. replace (bw =? 0) with false by lia.
    rewrite encode_segments by lia. fold ss. by rewrite (Hw []). }
  intros r tail Hr E. pose proof (flatten_length ss) as Hfl. rewrite Hm in Hfl.
  destruct (Hd (S (length (rest r))) (zlen values) [] r tail) as (r' & Er & Hn').
  { rewrite E, length_app. lia. }
  { change (zlen []) with 0. pose proof (zlen_nonneg values). lia. }
  { done. } { done. }
  exists r'. unfold decodeRleHybrid. replace (bw =? 0) with false by lia. split.
  - rewrite Er. change (zlen (@nil Z)) with 0. rewrite Z.sub_0_r. unfold zlen. by rewrite Nat2Z.id.
  - intros Ha. apply Hn'. destruct (aligned_flatten bw ss 0 Hok Ha) as [_ H]. by rewrite Hm in H.
Qed.



(** Levels and dictionary indices survive the hybrid encoding whenever no
    bit-packed segment that is followed by a long run needs padding; the
    reader then stops right after the stream. *)
Theorem rle_hybrid_roundtrip (values : list Z) (bw : Z) (tail : list Z) :
  1 <= bw <= 32 -> Forall (fits bw) values -> zlen values < 2 ^ 30 -> aligned values = true ->
  exists bs r, encodeRleHybrid values bw = Ok bs /\
  decodeRleHybrid bw (zlen values) (new_reader (bs ++ tail)) = Ok (values, r) /\ rest r = tail.
Proof.
  intros Hbw Hv Hn Ha. destruct (hybrid_stream values bw Hbw Hv Hn) as (bs & He & Hd).
  destruct (Hd (new_reader (bs ++ tail)) tail) as (r & Hr & Ht); [apply new_reader_ok|done|].
  exists bs, r. split; [done|]. split; [|by apply Ht]. rewrite Hr. do 2 f_equal.
  pose proof (segments_ok (length values) bw values Hv Hn) as Hok.
  destruct (aligned_flatten bw _ 0 Hok Ha) as [[pad ->] _].
  rewrite segments_meant by lia. by rewrite take_app_length.
Qed.

Lemma rle_hybrid_roundtrip_witness :
  exists bs r, encodeRleHybrid ([1; 0; 1; 0; 1; 0; 1; 0] ++ replicate 9 1 ++ [0; 1]) 1 = Ok bs /\
  decodeRleHybrid 1 19 (new_reader (bs ++ [7])) = Ok ([1; 0; 1; 0; 1; 0; 1; 0] ++ replicate 9 1 ++ [0; 1], r)
  /\ rest r = [7].
Proof.
  apply (rle_hybrid_roundtrip ([1; 0; 1; 0; 1; 0; 1; 0] ++ replicate 9 1 ++ [0; 1]) 1 [7]).
  - lia.
  - simpl. solve_ranges.
  - by vm_compute.
  - vm_compute. reflexivity.
Defined.

Lemma run_len_replicate v n l : run_len v (replicate n v ++ l) = Z.of_nat n + run_len v l.
Proof.
  induction n as [|n IH]; [done|]. cbn [replicate app run_len]. rewrite Z.eqb_refl, IH. lia.
Qed.

Lemma segments_null_first n : (8 <= n)%nat ->
  segments (S n) (0 :: replicate n 1) = [Pack [0]; Run (Z.of_nat n) 1].
Proof.
  intros Hn. destruct n as [|n]; [lia|].
  pose proof (run_len_replicate 1 n []) as Hr. rewrite app_nil_r in Hr. simpl (run_len 1 []) in Hr.
  cbn [segments replicate run_len]. change (1 =? 0) with false. cbv iota.
  change (8 <=? 1 + 0) with false. cbv iota. cbn [collect_group run_len].
  change (1 =? 0) with false. cbv iota. change (8 <=? 1 + 0) with false. cbv iota.
  rewrite Hr. replace (8 <=? 1 + (Z.of_nat n + 0)) with true by lia. cbv iota zeta.
  cbn [segments]. rewrite Hr. replace (8 <=? 1 + (Z.of_nat n + 0)) with true by lia.
  rewrite drop_ge by (cbn [length]; rewrite length_replicate; lia).
  f_equal. f_equal; [f_equal; lia|]. by destruct n.
Qed.

(** The padding of a bit-packed segment that is followed by a run is not
    discarded.  The definition levels of a column whose first row is null and
    whose next [n >= 8] rows are present come back with eight nulls, and as
    many present rows are lost. *)
Theorem rle_hybrid_padding_shifts (n : nat) :
  (8 <= n)%nat -> Z.of_nat n < 2 ^ 29 ->
  exists bs r, encodeRleHybrid (0 :: replicate n 1) 1 = Ok bs /\
  decodeRleHybrid 1 (1 + Z.of_nat n) (new_reader bs) = Ok (replicate 8 0 ++ replicate (n - 7) 1, r).
Proof.
  intros Hn Hm. assert (length (0 :: replicate n 1) = S n) as Hlen
    by (cbn [length]; by rewrite length_replicate).
  destruct (hybrid_stream (0 :: replicate n 1) 1) as (bs & He & Hd).
  { lia. }
  { constructor; [unfold fits; lia|]. apply Forall_replicate. unfold fits. lia. }
  { unfold zlen. rewrite Hlen. lia. }
  destruct (Hd (new_reader bs) []) as (r & Hr & _); [apply new_reader_ok|by rewrite app_nil_r|].
  exists bs, r. split; [done|]. rewrite Hlen, segments_null_first in Hr by done.
  unfold zlen in Hr. rewrite Hlen in Hr. replace (1 + Z.of_nat n) with (Z.of_nat (S n)) by lia.
  rewrite Hr. do 2 f_equal. unfold flatten. cbn [map concat seen]. rewrite app_nil_r, Nat2Z.id.
  change (pad8 [0]) with (replicate 8 0). rewrite take_app, length_replicate, take_replicate.
  rewrite take_replicate. f_equal; f_equal; lia.
Qed.

Lemma rle_hybrid_padding_shifts_witness :
  exists bs r, encodeRleHybrid (0 :: replicate 8 1) 1 = Ok bs /\
  decodeRleHybrid 1 9 (new_reader bs) = Ok (replicate 8 0 ++ replicate 1 1, r).
Proof. apply (rle_hybrid_padding_shifts 8); lia. Defined.

(** [bitWidthForMax] is the smallest width that holds every value up to
    the maximum. *)
Theorem bitWidthForMax_tight (maxValue : Z) :
  0 <= maxValue < 2 ^ 32 ->
  0 <= bitWidthForMax maxValue <= 32 /\
  forall w, 0 <= w -> (maxValue < 2 ^ w <-> bitWidthForMax maxValue <= w).
Proof.
  intros Hm. unfold bitWidthForMax, clz32. rewrite toUint32_small by done.
  destruct (Z.eqb_spec maxValue 0) as [->|Hn].
  - split; [lia|]. intros w Hw. pose proof (pow2_pos w Hw). lia.
  - pose proof (Z.log2_nonneg maxValue). pose proof (Z.log2_lt_pow2 maxValue 32 ltac:(lia)).
    split; [lia|]. intros w Hw. rewrite Z.log2_lt_pow2 by lia. lia.
Qed.

(** ** Decoding ends on every input *)

Lemma progress_unpack_value fuel bw val got cur cb :
  bw - got <= Z.of_nat fuel -> 0 <= cb -> progress 0 (unpack_value fuel bw val got cur cb).
Proof.
  revert val got cur cb. induction fuel as [|fuel IH]; intros val got cur cb Hf Hcb;
    cbn [unpack_value]; (destruct (Z.ltb_spec got bw); [|apply progress_ret]); [lia|].
  destruct (Z.eqb_spec cb 0) as [->|Hn].
  - intros r. rewrite ST_bind_assoc. revert r.
    apply (progress_bind0 0); [by apply (progress_weaken 1), progress_U8; lia|].
    intros b r. apply IH; lia.
  - intros r. apply IH; lia.
Qed.

Lemma unpack_value_bits fuel bw val got cur cb r val' cur' cb' r' :
  0 <= cb <= 8 -> unpack_value fuel bw val got cur cb r = Ok (val', cur', cb', r') -> 0 <= cb' <= 8.
Proof.
  revert val got cur cb r. induction fuel as [|fuel IH]; intros val got cur cb r Hcb;
    cbn [unpack_value]; (destruct (Z.ltb_spec got bw); [|intros [= <- <- <- <-]; done]); [done|].
  intros ([c k] & r1 & E1 & E2)%ST_bind_inv. eapply IH; [|exact E2].
  destruct (Z.eqb_spec cb 0) as [->|].
  - apply ST_bind_inv in E1 as (b & r2 & _ & [= <- <- <-]). lia.
  - injection E1 as <- <- <-. lia.
Qed.

Lemma progress_unpackBits n bw cur cb out count :
  0 <= cb <= 8 -> progress 0 (unpackBits_loop n bw cur cb out count).
Proof.
  revert cur cb out. induction n as [|n IH]; intros cur cb out Hcb; [apply progress_ret|].
  intros r Hr. cbn [unpackBits_loop]. unfold mbind, ST_bind.
  pose proof (progress_unpack_value (Z.to_nat bw) bw 0 0 cur cb ltac:(lia) ltac:(lia) r Hr) as H.
  destruct (unpack_value (Z.to_nat bw) bw 0 0 cur cb r) as [[[[v c] k] r1]|e] eqn:E; [|done].
  apply unpack_value_bits in E; [|done]. destruct H as (Hr1 & Hb1 & Hp1).
  specialize (IH c k (if zlen out <? count then out ++ [js_ushr v 0] else out) E r1 Hr1).
  destruct (unpackBits_loop n bw c k _ count r1) as [[o r2]|e2]; [|done].
  destruct IH as (Hr2 & Hb2 & Hp2). split; [done|]. split; [congruence|lia].
Qed.

Lemma progress_readIntLE n i v : progress 0 (readIntLE_loop n i v).
Proof.
  revert i v. induction n as [|n IH]; intros i v; [apply progress_ret|].
  apply (progress_bind0 0); [by apply (progress_weaken 1), progress_U8; lia|]. intros. apply IH.
Qed.

Lemma decode_loop_ends fuel bw count out r :
  reader_ok r -> (length (rest r) < fuel)%nat -> decode_loop fuel bw count out r <> Throw Diverges.
Proof.
  revert out r. induction fuel as [|fuel IH]; intros out r Hr Hf; [lia|]. cbn [decode_loop].
  destruct (zlen out <? count); [|done]. unfold mbind, ST_bind.
  pose proof (progress_Varint32 r Hr) as H1.
  destruct (readVarint32 r) as [[h r1]|e]; [|congruence]. destruct H1 as (Hr1 & Hb1 & Hp1).
  assert (forall A (rd : ST ByteReader A) (k : A -> list Z), progress 0 rd ->
    match rd r1 with Ok (a, r2) => decode_loop fuel bw count (k a) r2 | Throw e => Throw e end
    <> Throw Diverges) as Hgo.
  { intros A rd k Hrd. specialize (Hrd r1 Hr1). destruct (rd r1) as [[a r2]|e]; [|congruence].
    destruct Hrd as (Hr2 & Hb2 & Hp2). apply IH; [done|]. unfold rest in *.
    rewrite length_drop in *. rewrite Hb2, Hb1. unfold reader_ok in *. rewrite Hb2, Hb1 in *. lia. }
  destruct (js_and h 1 =? 0).
  - apply (Hgo _ (readIntLE (ceil8 bw)) (fun v => out ++ replicate _ v)), progress_readIntLE.
  - apply (Hgo _ (unpackBits bw (js_ushr h 1 * 8) out count) id), progress_unpackBits. lia.
Qed.

(** Hybrid decoding ends on every input, whatever the bytes, the width and
    the count asked for: it returns or throws an error of the code. *)
Theorem decodeRleHybrid_terminates (bw count : Z) (bytes : list Z) :
  decodeRleHybrid bw count (new_reader bytes) <> Throw Diverges.
Proof.
  unfold decodeRleHybrid. destruct (bw =? 0); [done|].
  apply decode_loop_ends; [apply new_reader_ok|lia].
Qed.

(** A level block of a flat optional column is a 32-bit length followed by
    a hybrid stream of that length that decodes to the levels (when aligned
    as above). *)
Theorem definition_levels_roundtrip (levels : list Z) (maxLevel : Z) :
  1 <= maxLevel < 2 ^ 32 -> Forall (fun l => 0 <= l <= maxLevel) levels ->
  zlen levels < 2 ^ 30 -> aligned levels = true ->
  exists body r, encodeDefinitionLevels levels maxLevel = Ok (le_bytes 4 (zlen body) ++ body) /\
    decodeRleHybrid (bitWidthForMax maxLevel) (zlen levels) (new_reader body) = Ok (levels, r) /\
    rest r = [].
Proof.
  intros Hm Hl Hn Ha.
  assert (1 <= bitWidthForMax maxLevel <= 32 /\ maxLevel < 2 ^ bitWidthForMax maxLevel) as [Hbw Hlt].
  { unfold bitWidthForMax, clz32. rewrite toUint32_small by lia.
    replace (maxLevel =? 0) with false by lia. pose proof (Z.log2_nonneg maxLevel).
    pose proof (Z.log2_lt_pow2 maxLevel 32 ltac:(lia)).
    replace (32 - (31 - Z.log2 maxLevel)) with (Z.succ (Z.log2 maxLevel)) by lia.
    pose proof (Z.log2_spec maxLevel ltac:(lia)). lia. }
  assert (Forall (fits (bitWidthForMax maxLevel)) levels) as Hfit.
  { eapply Forall_impl; [exact Hl|]. intros l Hl'. simpl in Hl'. unfold fits. lia. }
  destruct (hybrid_stream levels _ Hbw Hfit Hn) as (bs & He & Hd).
  destruct (Hd (new_reader bs) []) as (r & Hr & Ht); [apply new_reader_ok|by rewrite app_nil_r|].
  exists bs, r. unfold encodeDefinitionLevels. replace (maxLevel =? 0) with false by lia.
  rewrite He. split; [done|]. split; [|by apply Ht]. rewrite Hr. do 2 f_equal.
  pose proof (segments_ok (length levels) _ levels Hfit Hn) as Hok.
  destruct (aligned_flatten _ _ 0 Hok Ha) as [[pad ->] _].
  rewrite segments_meant by lia. by rewrite take_app_length.
Qed.

Lemma definition_levels_roundtrip_witness :
  exists body r, encodeDefinitionLevels [1; 1; 0; 1; 1; 1; 1; 1; 1; 0] 1
      = Ok (le_bytes 4 (zlen body) ++ body) /\
    decodeRleHybrid (bitWidthForMax 1) 10 (new_reader body) = Ok ([1; 1; 0; 1; 1; 1; 1; 1; 1; 0], r) /\
    rest r = [].
Proof.
  apply (definition_levels_roundtrip [1; 1; 0; 1; 1; 1; 1; 1; 1; 0] 1).
  - lia.
  - solve_ranges.
  - by vm_compute.
  - vm_compute. reflexivity.
Defined.
End ParquetLevels.
