(* ===== verification/ParquetDelta.v ===== *)
(** The Parquet DELTA encodings and BYTE_STREAM_SPLIT
    (src/js/data/parquet/delta.ts).

    Numbers read from a stream header ([Number(r.readVarint())]) are exact
    integers here, as they are in JavaScript below 2^53. *)

From S2P Require Import Prelude Utf8 ThriftIO ParquetLevels.

Module ParquetDelta.
Import ThriftIO ParquetLevels.

Definition BLOCK_SIZE := 128.
Definition MINIBLOCKS := 4.
Definition VALUES_PER_MINIBLOCK := 32.

(** ** BitReader and BitWriter: [#cur] and [#bits] are passed along *)

Fixpoint bit_fill (fuel : nat) (bitWidth cur bits : Z) : ST ByteReader (Z * Z) :=
  if bits <? bitWidth then
    match fuel with
    | O => throw Diverges
    | S fuel =>
        b ← readU8;
        bit_fill fuel bitWidth (Z.lor cur (Z.shiftl b bits)) (bits + 8)
    end
  else mret (cur, bits).
Definition bit_read (bitWidth cur bits : Z) : ST ByteReader (Z * Z * Z) :=
  '(cur, bits) ← bit_fill (Z.to_nat bitWidth) bitWidth cur bits;
  let mask := Z.shiftl 1 bitWidth - 1 in
  mret (Z.land cur mask, Z.shiftr cur bitWidth, bits - bitWidth).

Fixpoint bit_drain (fuel : nat) (cur bits : Z) : ST writer (Z * Z) :=
  if 8 <=? bits then
    match fuel with
    | O => throw Diverges
    | S fuel => writeU8 (Z.land cur 255);; bit_drain fuel (Z.shiftr cur 8) (bits - 8)
    end
  else mret (cur, bits).
Definition bit_write (value bitWidth cur bits : Z) : ST writer (Z * Z) :=
  let mask := Z.shiftl 1 bitWidth - 1 in
  let cur := Z.lor cur (Z.shiftl (Z.land value mask) bits) in
  let bits := bits + bitWidth in
  bit_drain (Z.to_nat bits) cur bits.
Definition bit_flush (cur bits : Z) : ST writer (Z * Z) :=
  if 0 <? bits then writeU8 (Z.land cur 255);; mret (0, 0) else mret (cur, bits).

Fixpoint bits_loop (fuel : nat) (n bits : Z) : Z :=
  match fuel with
  | O => bits
  | S fuel => if 0 <? n then bits_loop fuel (Z.shiftr n 1) (bits + 1) else bits
  end.
(** One round per bit of the magnitude. *)
Definition bitsFor (value : Z) : Z :=
  let n := if value <? 0 then - value else value in
  bits_loop (S (Z.to_nat (Z.log2 n))) n 0.

(** ** Decoding *)

Fixpoint read_widths (n : nat) : ST ByteReader (list Z) :=
  match n with
  | O => mret []
  | S n => w ← readU8; ws ← read_widths n; mret (w :: ws)
  end.

(** [for (i < valuesPerMiniblock)] *)
Fixpoint read_miniblock (n : nat) (width minDelta totalCount value : Z) (out : list Z) (cur bits : Z)
  : ST ByteReader (Z * list Z * Z * Z) :=
  match n with
  | O => mret (value, out, cur, bits)
  | S n =>
      '(rel, cur, bits) ← (if width =? 0 then mret (0, cur, bits) else bit_read width cur bits);
      let value := value + (minDelta + rel) in
      read_miniblock n width minDelta totalCount value
        (if zlen out <? totalCount then out ++ [value] else out) cur bits
  end.
(** [for (m < miniblocks && out.length < totalCount)] *)
Fixpoint read_miniblocks (widths : list Z) (perMini minDelta totalCount value : Z) (out : list Z)
  (cur bits : Z) : ST ByteReader (Z * list Z) :=
  match widths with
  | [] => mret (value, out)
  | width :: widths =>
      if zlen out <? totalCount then
        '(value, out, cur, bits) ←
          read_miniblock (Z.to_nat perMini) width minDelta totalCount value out cur bits;
        read_miniblocks widths perMini minDelta totalCount value out cur bits
      else mret (value, out)
  end.
(** The outer [while]; [limit] is [totalCount], or its minimum with [count]. *)
Fixpoint read_blocks (fuel : nat) (perMini miniblocks totalCount limit value : Z) (out : list Z)
  : ST ByteReader (list Z) :=
  if zlen out <? limit then
    match fuel with
    | O => throw Diverges
    | S fuel =>
        minDelta ← readZigzag64;
        widths ← read_widths (Z.to_nat miniblocks);
        '(value, out) ← read_miniblocks widths perMini minDelta totalCount value out 0 0;
        read_blocks fuel perMini miniblocks totalCount limit value out
    end
  else mret out.

(** Every round reads a byte, so the unread bytes bound it. *)
Definition read_all_blocks (perMini miniblocks totalCount limit value : Z) : ST ByteReader (list Z) :=
  fun r => read_blocks (S (length (rest r))) perMini miniblocks totalCount limit value [value] r.

(** The part the two decoders share.  [blockSize / miniblocks] bounds a
    counting loop, so it is rounded up; without miniblocks it is unused. *)
Definition delta_body (perMini miniblocks totalCount limit : Z) : ST ByteReader (list Z * Z) :=
  if totalCount =? 0 then mret ([], totalCount)
  else
    value ← readZigzag64;
    out ← read_all_blocks perMini miniblocks totalCount limit value;
    mret (out, totalCount).
Definition delta_stream (limit : Z -> Z) : ST ByteReader (list Z * Z) :=
  blockSize ← readVarint;
  miniblocks ← readVarint;
  totalCount ← readVarint;
  delta_body ((blockSize + miniblocks - 1) / miniblocks) miniblocks totalCount (limit totalCount).

Definition decodeDeltaBinaryPacked (bytes : list Z) (count : Z) : res (list Z) :=
  '((out, totalCount), _) ← delta_stream (fun totalCount => Z.min totalCount count) (new_reader bytes);
  Ok (take (Z.to_nat (Z.min count totalCount)) out).
Definition decodeDeltaHeaderInline : ST ByteReader (list Z) :=
  '(out, _) ← delta_stream (fun totalCount => totalCount); mret out.

(** ** Encoding *)

Fixpoint diffs (prev : Z) (vals : list Z) : list Z :=
  match vals with [] => [] | v :: vals => (v - prev) :: diffs v vals end.
Definition minimum (block : list Z) : Z :=
  match block with [] => 0 | d :: _ => foldl (fun m d => if d <? m then d else m) d block end.
(** The values of miniblock [m] that exist. *)
Definition miniblock (m : Z) (rels : list Z) : list Z :=
  slice (m * VALUES_PER_MINIBLOCK) (m * VALUES_PER_MINIBLOCK + VALUES_PER_MINIBLOCK) rels.
Definition max_bits (rels : list Z) : Z := foldl (fun b r => Z.max b (bitsFor r)) 0 rels.

Fixpoint write_values (vs : list Z) (width cur bits : Z) : ST writer (Z * Z) :=
  match vs with
  | [] => mret (cur, bits)
  | v :: vs => '(cur, bits) ← bit_write v width cur bits; write_values vs width cur bits
  end.
Definition pad32 (vs : list Z) : list Z :=
  vs ++ replicate (Z.to_nat (VALUES_PER_MINIBLOCK - zlen vs)) 0.
Fixpoint write_miniblocks (ms : list (list Z * Z)) (cur bits : Z) : ST writer unit :=
  match ms with
  | [] => mret tt
  | (vs, width) :: ms =>
      if width =? 0 then write_miniblocks ms cur bits
      else
        '(cur, bits) ← write_values (pad32 vs) width cur bits;
        '(cur, bits) ← bit_flush cur bits;
        write_miniblocks ms cur bits
  end.

Definition write_block (block : list Z) : ST writer unit :=
  let minDelta := minimum block in
  writeZigzag64 minDelta;;
  let rels := map (fun d => d - minDelta) block in
  let minis := map (fun m => miniblock m rels) [0; 1; 2; 3] in
  let widths := map max_bits minis in
  forEach writeU8 widths;;
  write_miniblocks (zip minis widths) 0 0.
Fixpoint write_blocks (fuel : nat) (deltas : list Z) : ST writer unit :=
  match deltas with
  | [] => mret tt
  | _ =>
      match fuel with
      | O => throw Diverges
      | S fuel =>
          write_block (take (Z.to_nat BLOCK_SIZE) deltas);;
          write_blocks fuel (drop (Z.to_nat BLOCK_SIZE) deltas)
      end
  end.
Definition write_body (values : list Z) : ST writer unit :=
  match values with
  | [] => mret tt
  | v :: vals => writeZigzag64 v;; write_blocks (length vals) (diffs v vals)
  end.
Definition write_delta (values : list Z) : ST writer unit :=
  writeVarint BLOCK_SIZE;; writeVarint MINIBLOCKS;; writeVarint (zlen values);; write_body values.
Definition encodeDeltaBinaryPacked (values : list Z) : res (list Z) :=
  '(_, out) ← write_delta values []; Ok out.

(** ** Byte arrays *)

(** Each value in turn; past the end of [lengths] the length is NaN, and an
    empty value results. *)
Fixpoint read_lengths (n : nat) (lengths : list Z) : ST ByteReader (list (list Z)) :=
  match n with
  | O => mret []
  | S n =>
      v ← match lengths with [] => mret [] | len :: _ => readBytes len end;
      vs ← read_lengths n (tail lengths);
      mret (v :: vs)
  end.
Definition decodeDeltaLengthByteArray (bytes : list Z) (count : Z) : res (list (list Z)) :=
  '(out, _) ← (lengths ← decodeDeltaHeaderInline; read_lengths (Z.to_nat count) lengths)
                (new_reader bytes);
  Ok out.
Definition encodeDeltaLengthByteArray (values : list (list Z)) : res (list Z) :=
  lengthBytes ← encodeDeltaBinaryPacked (map zlen values);
  '(_, out) ← (writeBytes lengthBytes;; forEach writeBytes values) [];
  Ok out.

(** [new Uint8Array(n)] and [value.set(src, offset)]. *)
Definition new_Uint8Array (n : Z) : res (list Z) :=
  if (n <? 0) || negb (isSafeInteger n) then Throw (RangeError "Invalid typed array length")
  else Ok (replicate (Z.to_nat n) 0).
Definition set_at (dst src : list Z) (offset : Z) : res (list Z) :=
  if (offset <? 0) || (zlen dst <? offset + zlen src) then Throw (RangeError "Offset is out of bounds")
  else Ok (take (Z.to_nat offset) dst ++ src ++ drop (Z.to_nat offset + length src) dst).
(** [a.subarray(0, end)], counting from the end when negative. *)
Definition subarray_to (a : list Z) (end_ : Z) : list Z :=
  take (Z.to_nat (if end_ <? 0 then zlen a + end_ else end_)) a.

(** One value of DELTA_BYTE_ARRAY; a missing length is NaN, which counts as 0
    where an index or a size is expected and makes the sum NaN. *)
Definition join_value (prev : list Z) (prefixLen suffixLen : option Z) (suffix : list Z) : res (list Z) :=
  let size := match prefixLen, suffixLen with Some p, Some s => p + s | _, _ => 0 end in
  value ← new_Uint8Array size;
  let p := default 0 prefixLen in
  value ← set_at value (subarray_to prev p) 0;
  set_at value suffix p.
Fixpoint read_suffixes (n : nat) (prefixLengths suffixLengths : list Z) (prev : list Z)
  : ST ByteReader (list (list Z)) :=
  match n with
  | O => mret []
  | S n =>
      suffix ← match suffixLengths with [] => mret [] | len :: _ => readBytes len end;
      value ← liftR (join_value prev (head prefixLengths) (head suffixLengths) suffix);
      vs ← read_suffixes n (tail prefixLengths) (tail suffixLengths) value;
      mret (value :: vs)
  end.
Definition decodeDeltaByteArray (bytes : list Z) (count : Z) : res (list (list Z)) :=
  '(out, _) ← (prefixLengths ← decodeDeltaHeaderInline;
               suffixLengths ← decodeDeltaHeaderInline;
               read_suffixes (Z.to_nat count) prefixLengths suffixLengths []) (new_reader bytes);
  Ok out.

Fixpoint common_prefix (a b : list Z) : nat :=
  match a, b with
  | x :: a, y :: b => if x =? y then S (common_prefix a b) else O
  | _, _ => O
  end.
(** The prefix length and the suffix of each value against the previous one. *)
Fixpoint split_values (prev : list Z) (values : list (list Z)) : list (Z * list Z) :=
  match values with
  | [] => []
  | v :: values =>
      let prefix := common_prefix prev v in
      (Z.of_nat prefix, drop prefix v) :: split_values v values
  end.
Definition encodeDeltaByteArray (values : list (list Z)) : res (list Z) :=
  let parts := split_values [] values in
  prefixBytes ← encodeDeltaBinaryPacked (map fst parts);
  suffixBytes ← encodeDeltaBinaryPacked (map (fun p => zlen p.2) parts);
  '(_, out) ← (writeBytes prefixBytes;; writeBytes suffixBytes;; forEach writeBytes (map snd parts)) [];
  Ok out.

(** ** The bit streams carry digits in base [2 ^ width] *)

Lemma mask_mod x w : 0 <= w -> Z.land x (Z.shiftl 1 w - 1) = x mod 2 ^ w.
Proof. intros Hw. rewrite Z.shiftl_1_l. by apply land_ones_mod. Qed.

Lemma bit_drain_spec fuel cur bits :
  0 <= bits <= 8 * Z.of_nat fuel + 7 -> fits bits cur ->
  exists bs cur' bits', writes (bit_drain fuel cur bits) bs (cur', bits') /\
    0 <= bits' < 8 /\ fits bits' cur' /\ Forall is_byte bs /\
    8 * zlen bs + bits' = bits /\ packed bs cur' = cur.
Proof.
  revert cur bits. induction fuel as [|fuel IH]; intros cur bits Hb Hc; cbn [bit_drain];
    (destruct (Z.leb_spec 8 bits) as [H8|H8]; [|
      exists [], cur, bits; split; [intros out; by rewrite app_nil_r|];
      split; [lia|]; split; [done|]; split; [constructor|]; split; [done|];
      unfold packed; change (zlen []) with 0; simpl; lia]); [lia|].
  rewrite (land_ones_mod cur 8), Z.shiftr_div_pow2 by lia. unfold fits in Hc.
  destruct (IH (cur / 2 ^ 8) (bits - 8)) as (bs & c & b & Hw & Hb' & Hc' & Hbs & Hl & Hp); [lia| |].
  { split; [apply Z.div_pos; lia|]. apply Z.div_lt_upper_bound; [lia|].
    rewrite <- pow2_split by lia. replace (8 + (bits - 8)) with bits by lia. lia. }
  pose proof (Z.mod_pos_bound cur (2 ^ 8) ltac:(lia)) as Hm.
  exists (cur mod 2 ^ 8 :: bs), c, b. split.
  { change (?x :: ?l) with ([x] ++ l). eapply writes_bind; [|exact Hw].
    unfold writeU8. rewrite js_and_byte by done. apply writes_append. }
  do 2 (split; [done|]). split; [by constructor|]. rewrite zlen_cons, packed_cons, Hp.
  split; [lia|]. change (2 ^ 8) with 256. pose proof (Z_div_mod_eq_full cur 256). lia.
Qed.

Lemma bit_write_spec v w cur bits :
  0 <= w -> 0 <= bits < 8 -> fits w v -> fits bits cur ->
  exists bs cur' bits', writes (bit_write v w cur bits) bs (cur', bits') /\
    0 <= bits' < 8 /\ fits bits' cur' /\ Forall is_byte bs /\
    8 * zlen bs + bits' = bits + w /\ packed bs cur' = cur + 2 ^ bits * v.
Proof.
  intros Hw Hb Hv Hc. unfold bit_write. cbv zeta. rewrite mask_mod by lia.
  unfold fits in *. rewrite Z.mod_small by lia. rewrite lor_disjoint_add by (done || lia).
  rewrite (Z.mul_comm v). apply bit_drain_spec; [lia|]. unfold fits.
  pose proof (pow2_pos bits ltac:(lia)). rewrite pow2_split by lia. nia.
Qed.

Lemma write_values_spec vs w cur bits :
  1 <= w -> Forall (fits w) vs -> 0 <= bits < 8 -> fits bits cur ->
  exists bs cur' bits', writes (write_values vs w cur bits) bs (cur', bits') /\
    0 <= bits' < 8 /\ fits bits' cur' /\ Forall is_byte bs /\
    8 * zlen bs + bits' = bits + w * zlen vs /\
    packed bs cur' = cur + 2 ^ bits * digits_val w vs.
Proof.
  intros Hw Hvs. revert cur bits. induction Hvs as [|v vs Hv Hvs IH]; intros cur bits Hb Hc;
    cbn [write_values digits_val].
  - exists [], cur, bits. change (zlen (@nil Z)) with 0.
    split; [intros out; by rewrite app_nil_r|]. do 2 (split; [done|]). split; [constructor|].
    split; [lia|]. unfold packed. change (zlen []) with 0. simpl. lia.
  - destruct (bit_write_spec v w cur bits) as (bs & c & b & Hw1 & Hb1 & Hc1 & Hbs1 & Hl1 & Hp1);
      [lia|done|done|done|].
    destruct (IH c b Hb1 Hc1) as (bs2 & c2 & b2 & Hw2 & Hb2 & Hc2 & Hbs2 & Hl2 & Hp2).
    exists (bs ++ bs2), c2, b2. split; [by eapply writes_bind|]. do 2 (split; [done|]).
    split; [by apply Forall_app|]. rewrite zlen_app, zlen_cons. split; [lia|].
    rewrite packed_app, Hp2.
    replace (cur + 2 ^ bits * (v + 2 ^ w * digits_val w vs)) with
      (packed bs c + 2 ^ (bits + w) * digits_val w vs) by (rewrite Hp1, pow2_split by lia; ring).
    pose proof (zlen_nonneg bs). replace (bits + w) with (8 * zlen bs + b) by lia.
    rewrite pow2_split by lia. unfold packed. ring.
Qed.

Lemma bit_fill_spec fuel w cur bits bs :
  w - bits <= 8 * Z.of_nat fuel -> 0 <= bits -> fits bits cur -> Forall is_byte bs ->
  w <= bits + 8 * zlen bs ->
  exists bs1 bs2 cur' bits', bs = bs1 ++ bs2 /\ reads (bit_fill fuel w cur bits) bs1 (cur', bits') /\
    w <= bits' /\ 0 <= bits' /\ fits bits' cur' /\ Forall is_byte bs2 /\
    bits' + 8 * zlen bs2 = bits + 8 * zlen bs /\ unread cur' bits' bs2 = unread cur bits bs.
Proof.
  revert cur bits bs. induction fuel as [|fuel IH]; intros cur bits bs Hf Hb Hc Hbs Hlen;
    cbn [bit_fill]; (destruct (Z.ltb_spec bits w) as [Hlt|Hge]; [|
      exists [], bs, cur, bits; split; [done|]; split; [apply reads_ret|];
      split; [lia|]; split; [done|]; split; [done|]; split; [done|]; done]); [lia|].
  destruct bs as [|b bs]; [change (zlen []) with 0 in Hlen; lia|].
  apply Forall_cons in Hbs as [Hbb Hbs]. rewrite zlen_cons in Hlen.
  unfold fits, is_byte in *. pose proof (pow2_pos bits Hb).
  destruct (IH (cur + b * 2 ^ bits) (bits + 8) bs) as (bs1 & bs2 & c & k & -> & Hr & H1 & H2 & H3 & H4 & H5 & H6);
    [lia|lia| |done|lia|].
  { rewrite pow2_split by lia. change (2 ^ 8) with 256. nia. }
  exists (b :: bs1), bs2, c, k. split; [done|]. split.
  { change (b :: bs1) with ([b] ++ bs1). eapply reads_bind; [apply reads_U8|].
    rewrite lor_disjoint_add by (done || lia). exact Hr. }
  do 4 (split; [done|]). rewrite zlen_cons in *. split; [lia|]. rewrite H6. unfold unread.
  rewrite pow2_split by lia. simpl le_val. change (2 ^ 8) with 256. ring.
Qed.

Lemma bit_read_spec w cur bits bs :
  0 <= w -> 0 <= bits -> fits bits cur -> Forall is_byte bs -> w <= bits + 8 * zlen bs ->
  exists bs1 bs2 cur' bits', bs = bs1 ++ bs2 /\
    reads (bit_read w cur bits) bs1 (unread cur bits bs mod 2 ^ w, cur', bits') /\
    0 <= bits' /\ fits bits' cur' /\ Forall is_byte bs2 /\
    bits' + 8 * zlen bs2 = bits + 8 * zlen bs - w /\
    unread cur' bits' bs2 = unread cur bits bs / 2 ^ w.
Proof.
  intros Hw Hb Hc Hbs Hlen.
  destruct (bit_fill_spec (Z.to_nat w) w cur bits bs)
    as (bs1 & bs2 & c & k & -> & Hr & H1 & H2 & H3 & H4 & H5 & H6); [lia|done|done|done|done|].
  exists bs1, bs2, (c / 2 ^ w), (k - w). split; [done|].
  assert (0 <= c) by (unfold fits in H3; lia).
  destruct (unread_shift c k (le_val bs2) w) as [Hm Hd]; [lia|done|].
  split.
  { eapply reads_map; [exact Hr|]. cbv beta iota zeta.
    rewrite mask_mod, Z.shiftr_div_pow2 by lia. do 3 f_equal. rewrite <- H6. unfold unread. by rewrite Hm. }
  split; [lia|]. split.
  { unfold fits in *. split; [apply Z.div_pos; [lia|by apply pow2_pos]|].
    apply Z.div_lt_upper_bound; [by apply pow2_pos|]. rewrite <- pow2_split by lia.
    replace (w + (k - w)) with k by lia. lia. }
  split; [done|]. split; [lia|]. rewrite <- H6. unfold unread. by rewrite Hd.
Qed.

(** ** Widths *)

Lemma bits_loop_spec fuel n b :
  0 <= n < 2 ^ Z.of_nat fuel ->
  let r := bits_loop fuel n b in
  b <= r /\ n < 2 ^ (r - b) /\ forall k, 0 <= k -> n < 2 ^ k -> r - b <= k.
Proof.
  revert n b. induction fuel as [|fuel IH]; intros n b Hn; cbn [bits_loop].
  - simpl in Hn. rewrite Z.sub_diag. split; [lia|]. split; [simpl; lia|lia].
  - destruct (Z.ltb_spec 0 n).
    2: { rewrite Z.sub_diag. split; [lia|]. split; [simpl; lia|lia]. }
    rewrite Z.shiftr_div_pow2 by lia. change (2 ^ 1) with 2.
    rewrite Nat2Z.inj_succ, Z.pow_succ_r in Hn by lia.
    destruct (IH (n / 2) (b + 1)) as (H1 & H2 & H3); [zdm|].
    set (r := bits_loop fuel (n / 2) (b + 1)) in *. cbv zeta.
    split; [lia|]. split.
    + replace (r - b) with (Z.succ (r - (b + 1))) by lia. rewrite Z.pow_succ_r by lia.
      revert H2. zdm.
    + intros k Hk Hlt. destruct (Z.eq_dec k 0) as [->|Hk0]; [simpl in Hlt; lia|].
      specialize (H3 (k - 1) ltac:(lia)).
      replace k with (Z.succ (k - 1)) in Hlt by lia. rewrite Z.pow_succ_r in Hlt by lia.
      assert (n / 2 < 2 ^ (k - 1)) by zdm. lia.
Qed.

Lemma bitsFor_spec v :
  0 <= v -> 0 <= bitsFor v /\ fits (bitsFor v) v /\ forall k, 0 <= k -> v < 2 ^ k -> bitsFor v <= k.
Proof.
  intros Hv. unfold bitsFor. replace (v <? 0) with false by lia. cbv zeta.
  pose proof (Z.log2_nonneg v). destruct (bits_loop_spec (S (Z.to_nat (Z.log2 v))) v 0) as (H1 & H2 & H3).
  { split; [done|]. rewrite Nat2Z.inj_succ, Z2Nat.id by lia.
    destruct (Z.eq_dec v 0) as [->|]; [done|]. by apply Z.log2_spec; lia. }
  rewrite Z.sub_0_r in *. split; [lia|]. split; [done|]. intros k Hk Hlt.
  specialize (H3 k Hk Hlt). lia.
Qed.

Lemma max_bits_acc vs b :
  Forall (Z.le 0) vs -> 0 <= b ->
  let w := foldl (fun b r => Z.max b (bitsFor r)) b vs in
  b <= w /\ Forall (fits w) vs /\ forall k, b <= k -> Forall (fun v => v < 2 ^ k) vs -> w <= k.
Proof.
  intros Hvs. revert b. induction Hvs as [|v vs Hv Hvs IH]; intros b Hb; cbn [foldl]; cbv zeta.
  - split; [lia|]. split; [constructor|lia].
  - destruct (bitsFor_spec v Hv) as (Hb1 & Hf & Hmin).
    destruct (IH (Z.max b (bitsFor v))) as (H1 & H2 & H3); [lia|].
    split; [lia|]. split; [constructor; [|done]; eapply fits_le; [|exact Hf]; lia|].
    intros k Hk Hall. apply Forall_cons in Hall as [Hvk Hall]. apply H3; [|done].
    specialize (Hmin k ltac:(lia) Hvk). lia.
Qed.

Lemma max_bits_spec vs :
  Forall (Z.le 0) vs -> 0 <= max_bits vs /\ Forall (fits (max_bits vs)) vs /\
  forall k, 0 <= k -> Forall (fun v => v < 2 ^ k) vs -> max_bits vs <= k.
Proof. intros H. by apply max_bits_acc. Qed.

(** ** Miniblocks *)

(** The decoder's running value. *)
Fixpoint scan (value minDelta : Z) (rels : list Z) : list Z :=
  match rels with
  | [] => []
  | r :: rels => let v := value + (minDelta + r) in v :: scan v minDelta rels
  end.
Definition final (value minDelta : Z) (rels : list Z) : Z :=
  foldl (fun v r => v + (minDelta + r)) value rels.

Lemma scan_app v md a b : scan v md (a ++ b) = scan v md a ++ scan (final v md a) md b.
Proof. revert v. induction a as [|r a IH]; intros v; [done|]. simpl. by rewrite IH. Qed.

Lemma scan_length v md rs : length (scan v md rs) = length rs.
Proof. revert v. induction rs as [|r rs IH]; intros v; [done|]. simpl. by rewrite IH. Qed.

Lemma push_take (out : list Z) v l tot :
  (if zlen out <? tot then out ++ [v] else out) ++
    take (Z.to_nat (tot - zlen (if zlen out <? tot then out ++ [v] else out))) l =
  out ++ take (Z.to_nat (tot - zlen out)) (v :: l).
Proof.
  destruct (Z.ltb_spec (zlen out) tot).
  - replace (Z.to_nat (tot - zlen out)) with (S (Z.to_nat (tot - zlen (out ++ [v])))).
    + by rewrite <- app_assoc.
    + rewrite zlen_app. change (zlen [v]) with 1. lia.
  - by replace (Z.to_nat (tot - zlen out)) with 0%nat by lia.
Qed.

Lemma read_miniblock_spec rs w md tot value out cur bits bs :
  1 <= w -> Forall (fits w) rs -> 0 <= bits -> fits bits cur -> Forall is_byte bs ->
  bits + 8 * zlen bs = w * zlen rs -> unread cur bits bs = digits_val w rs ->
  reads (read_miniblock (length rs) w md tot value out cur bits) bs
    (final value md rs, out ++ take (Z.to_nat (tot - zlen out)) (scan value md rs), 0, 0).
Proof.
  intros Hw Hrs. revert value out cur bits bs. induction Hrs as [|r rs Hr Hrs IH];
    intros value out cur bits bs Hb Hc Hbs Hlen Hu; cbn [length read_miniblock scan].
  - change (zlen (@nil Z)) with 0 in Hlen. pose proof (zlen_nonneg bs).
    assert (bits = 0) as -> by lia. assert (cur = 0) as -> by (unfold fits in Hc; simpl in Hc; lia).
    destruct bs as [|b bs]; [|rewrite zlen_cons in Hlen; pose proof (zlen_nonneg bs); lia].
    rewrite take_nil, app_nil_r. apply reads_ret.
  - rewrite zlen_cons in Hlen. pose proof (zlen_nonneg rs).
    destruct (bit_read_spec w cur bits bs) as (bs1 & bs2 & c & k & -> & Hrd & Hk & Hc' & Hbs2 & Hl & Hu');
      [lia|done|done|done|nia|].
    replace (w =? 0) with false by lia. eapply reads_bind; [exact Hrd|]. cbv beta iota zeta.
    rewrite Hu in *. cbn [digits_val] in *. unfold fits in Hr.
    rewrite (Z.mul_comm (2 ^ w)), Z.mod_add, Z.mod_small by lia.
    rewrite (Z.mul_comm (2 ^ w)), Z.div_add, Z.div_small, Z.add_0_l in Hu' by lia.
    rewrite <- push_take. apply IH; [done|done|done|lia|done].
Qed.

Lemma read_miniblock_zero n md tot value out :
  reads (read_miniblock n 0 md tot value out 0 0) []
    (final value md (replicate n 0),
     out ++ take (Z.to_nat (tot - zlen out)) (scan value md (replicate n 0)), 0, 0).
Proof.
  revert value out. induction n as [|n IH]; intros value out; cbn [read_miniblock replicate scan].
  - rewrite take_nil, app_nil_r. apply reads_ret.
  - change (0 =? 0) with true. cbv iota. intros r tl Hr E.
    rewrite <- push_take. exact (IH _ _ r tl Hr E).
Qed.

(** A miniblock of 32 values on both sides. *)
Lemma miniblock_codec rs w :
  length rs = 32%nat -> 0 <= w -> Forall (fits w) rs ->
  exists bs, (w = 0 -> bs = []) /\
    (w <> 0 -> writes ('(cur, bits) ← write_values rs w 0 0; bit_flush cur bits) bs (0, 0)) /\
    forall md tot value out, reads (read_miniblock 32 w md tot value out 0 0) bs
      (final value md rs, out ++ take (Z.to_nat (tot - zlen out)) (scan value md rs), 0, 0).
Proof.
  intros Hl Hw Hrs. destruct (Z.eq_dec w 0) as [->|Hn].
  - exists []. split; [done|]. split; [done|]. intros.
    assert (rs = replicate 32 0) as ->.
    { rewrite <- Hl. clear Hl. induction Hrs as [|r rs Hr Hrs IH]; [done|].
      simpl. rewrite <- IH. f_equal. unfold fits in Hr. simpl in Hr. lia. }
    apply read_miniblock_zero.
  - destruct (write_values_spec rs w 0 0) as (bs & c & b & Hwr & Hb & Hc & Hbs & Hlen & Hp);
      [lia|done|lia|unfold fits; simpl; lia|].
    assert (zlen rs = 32) as Hz by (unfold zlen; lia). rewrite Hz in Hlen.
    assert (b = 0) as -> by lia. assert (c = 0) as -> by (unfold fits in Hc; simpl in Hc; lia).
    exists bs. split; [lia|]. split.
    + intros _. rewrite <- (app_nil_r bs). eapply writes_bind; [exact Hwr|].
      intros out. by rewrite app_nil_r.
    + intros md tot value out. rewrite <- Hl. apply read_miniblock_spec; try done; try lia.
      unfold unread. unfold packed in Hp. change (2 ^ 0) with 1 in *. lia.
Qed.

Fixpoint chunks (n : nat) (rels : list Z) : list (list Z) :=
  match n with O => [] | S n => take 32 rels :: chunks n (drop 32 rels) end.

Lemma miniblocks_chunks rels : map (fun m => miniblock m rels) [0; 1; 2; 3] = chunks 4 rels.
Proof. cbn [map chunks]. unfold miniblock, slice. rewrite !drop_drop. done. Qed.

Definition mini_plan (n : nat) (rels : list Z) : list (list Z * Z) :=
  zip (chunks n rels) (map max_bits (chunks n rels)).

Lemma mini_plan_nil n out : write_miniblocks (mini_plan n []) 0 0 out = Ok (tt, out).
Proof. induction n as [|n IH]; [done|]. unfold mini_plan in *. cbn. exact IH. Qed.

Lemma pad32_spec c : (length c <= 32)%nat ->
  length (pad32 c) = 32%nat /\ (length c = 32%nat -> pad32 c = c).
Proof.
  intros H. unfold pad32, zlen, VALUES_PER_MINIBLOCK. rewrite length_app, length_replicate.
  split; [lia|]. intros ->. by rewrite app_nil_r.
Qed.

(** One miniblock of the plan: what is written, and that reading it appends
    the values it carries. *)
Lemma mini_step n rels :
  Forall (Z.le 0) rels ->
  exists bs, (forall bs2, writes (write_miniblocks (mini_plan n (drop 32 rels)) 0 0) bs2 tt ->
                writes (write_miniblocks (mini_plan (S n) rels) 0 0) (bs ++ bs2) tt) /\
  forall md tot value out, reads (read_miniblock 32 (max_bits (take 32 rels)) md tot value out 0 0) bs
    (final value md (pad32 (take 32 rels)),
     out ++ take (Z.to_nat (tot - zlen out)) (scan value md (pad32 (take 32 rels))), 0, 0).
Proof.
  intros Hr. set (c := take 32 rels). set (w := max_bits c).
  assert (Forall (Z.le 0) c) as Hc by (by apply Forall_take).
  destruct (max_bits_spec c Hc) as (Hw & Hf & _). fold w in Hw, Hf.
  assert (length c <= 32)%nat as Hl by (unfold c; rewrite length_take; lia).
  destruct (miniblock_codec (pad32 c) w) as (bs & H0 & Hwr & Hrd).
  { by apply pad32_spec. } { done. }
  { apply Forall_app. split; [done|]. apply Forall_replicate. unfold fits.
    pose proof (pow2_pos w Hw). lia. }
  exists bs. split; [|exact Hrd]. intros bs2 H2 out. unfold mini_plan. cbn [chunks map zip zip_with].
  fold c. fold w. cbn [write_miniblocks]. destruct (Z.eqb_spec w 0) as [E|E].
  - rewrite (H0 E). apply H2.
  - specialize (Hwr E out). apply ST_bind_inv in Hwr as ([c1 b1] & o1 & E1 & E2).
    rewrite (ST_bind_ok _ _ _ _ _ E1). cbv beta iota. rewrite (ST_bind_ok _ _ _ _ _ E2). cbv beta iota.
    rewrite app_assoc. apply H2.
Qed.

Lemma minis_codec n rels :
  Forall (Z.le 0) rels -> zlen rels <= 32 * Z.of_nat n ->
  exists bs, writes (write_miniblocks (mini_plan n rels) 0 0) bs tt /\
  forall md tot value out,
    (tot = zlen out + zlen rels \/ (zlen rels = 32 * Z.of_nat n /\ zlen out + zlen rels <= tot)) ->
    exists value', reads (read_miniblocks (map max_bits (chunks n rels)) 32 md tot value out 0 0) bs
      (value', out ++ scan value md rels) /\ (zlen rels = 32 * Z.of_nat n -> value' = final value md rels).
Proof.
  revert rels. induction n as [|n IH]; intros rels Hr Hn.
  { assert (rels = []) as -> by (destruct rels; [done|]; rewrite zlen_cons in Hn; pose proof (zlen_nonneg rels); lia).
    exists []. split; [intros out; by rewrite app_nil_r|]. intros md tot value out _. exists value.
    simpl. rewrite app_nil_r. split; [apply reads_ret|done]. }
  destruct (decide (rels = [])) as [->|Hne].
  { exists []. split; [intros out; rewrite app_nil_r; apply (mini_plan_nil (S n))|].
    intros md tot value out Ht. change (zlen []) with 0 in *. exists value.
    cbn [chunks map read_miniblocks]. replace (zlen out <? tot) with false by lia.
    simpl scan. rewrite app_nil_r. split; [apply reads_ret|lia]. }
  assert (0 < zlen rels) as Hpos.
  { destruct rels; [done|]. rewrite zlen_cons. pose proof (zlen_nonneg rels). lia. }
  destruct (mini_step n rels Hr) as (bs1 & Hw1 & Hr1).
  destruct (IH (drop 32 rels)) as (bs2 & Hw2 & Hr2).
  { by apply Forall_drop. } { unfold zlen in *. rewrite length_drop. lia. }
  exists (bs1 ++ bs2). split; [by apply Hw1|]. intros md tot value out Ht.
  cbn [chunks map read_miniblocks]. replace (zlen out <? tot) with true by lia.
  set (c := take 32 rels) in *.
  assert (length c <= 32)%nat as Hl by (unfold c; rewrite length_take; lia).
  destruct (pad32_spec c Hl) as [Hp32 Hpc].
  assert (take (Z.to_nat (tot - zlen out)) (scan value md (pad32 c)) = scan value md c) as Hscan.
  { destruct (decide (length c = 32%nat)) as [E|E].
    - rewrite (Hpc E). apply take_ge. rewrite scan_length. unfold zlen, c in *. rewrite length_take in *. lia.
    - unfold pad32. rewrite scan_app. apply take_app_length'. rewrite scan_length.
      unfold zlen, c in *. rewrite length_take in *. lia. }
  specialize (Hr1 md tot value out). rewrite Hscan in Hr1.
  destruct (Hr2 md tot (final value md (pad32 c)) (out ++ scan value md c)) as (v' & Hrd & Hv').
  { rewrite zlen_app. unfold zlen, c in *. rewrite scan_length, length_take, length_drop. lia. }
  exists v'. split.
  - eapply reads_bind; [exact Hr1|]. cbv beta iota.
    replace (out ++ scan value md rels) with
      ((out ++ scan value md c) ++ scan (final value md (pad32 c)) md (drop 32 rels)); [exact Hrd|].
    rewrite <- app_assoc. f_equal. rewrite <- (take_drop 32 rels) at 2. rewrite scan_app. fold c.
    destruct (decide (length c = 32%nat)) as [E|E]; [by rewrite (Hpc E)|].
    rewrite drop_ge; [done|]. unfold c in *. rewrite length_take in *. lia.
  - intros Hz. assert (length c = 32%nat) as E by (unfold zlen, c in *; rewrite length_take; lia).
    rewrite Hv', (Hpc E) by (unfold zlen in *; rewrite length_drop; lia).
    rewrite <- (take_drop 32 rels) at 2. unfold final. by rewrite foldl_app.
Qed.

(** ** Blocks *)

Lemma minimum_acc l m :
  let r := foldl (fun m d => if d <? m then d else m) m l in
  r <= m /\ Forall (Z.le r) l /\ (r = m \/ r ∈ l).
Proof.
  revert m. induction l as [|d l IH]; intros m; cbn [foldl]; cbv zeta.
  - split; [lia|]. split; [constructor|by left].
  - destruct (IH (if d <? m then d else m)) as (H1 & H2 & H3). destruct (Z.ltb_spec d m).
    + split; [lia|]. split; [by constructor|]. right. destruct H3 as [->|H3]; [left|by right].
    + split; [lia|]. split; [constructor; [lia|done]|]. destruct H3 as [->|H3]; [by left|right; by right].
Qed.

Lemma minimum_spec l : l <> [] -> Forall (Z.le (minimum l)) l /\ minimum l ∈ l.
Proof.
  destruct l as [|d l]; [done|]. intros _. unfold minimum.
  destruct (minimum_acc (d :: l) d) as (_ & H2 & H3). split; [done|].
  destruct H3 as [->|H3]; [left|done].
Qed.

Lemma scan_rels v md ds : scan v md (map (fun d => d - md) ds) = scan v 0 ds.
Proof.
  revert v. induction ds as [|d ds IH]; intros v; [done|]. cbn [map scan]. cbv zeta.
  replace (v + (md + (d - md))) with (v + (0 + d)) by lia. by rewrite IH.
Qed.

Lemma final_rels v md ds : final v md (map (fun d => d - md) ds) = final v 0 ds.
Proof.
  unfold final. revert v. induction ds as [|d ds IH]; intros v; [done|]. cbn [map foldl].
  replace (v + (md + (d - md))) with (v + (0 + d)) by lia. by rewrite IH.
Qed.

Lemma widths_codec ws : Forall is_byte ws ->
  writes (forEach writeU8 ws) ws tt /\ reads (read_widths (length ws)) ws ws.
Proof.
  induction 1 as [|w ws Hw Hws [IHw IHr]]; cbn [forEach read_widths length].
  - split; [intros out; by rewrite app_nil_r|apply reads_ret].
  - split.
    + apply (writes_bind _ _ [w] ws tt tt); [|exact IHw]. unfold writeU8. rewrite js_and_byte by done. apply writes_append.
    + apply (reads_bind _ _ [w] ws w); [apply reads_U8|]. eapply reads_map; [exact IHr|done].
Qed.

(** One round of the outer loop of the decoder. *)
Definition read_block (tot value : Z) (out : list Z) : ST ByteReader (Z * list Z) :=
  minDelta ← readZigzag64;
  widths ← read_widths 4;
  read_miniblocks widths 32 minDelta tot value out 0 0.

Lemma chunks_length n l : length (chunks n l) = n.
Proof. revert l. induction n as [|n IH]; intros l; [done|]. cbn [chunks length]. by rewrite IH. Qed.

Lemma widths_byte n rels :
  Forall (Z.le 0) rels -> Forall (fun v => v < 2 ^ 64) rels ->
  Forall is_byte (map max_bits (chunks n rels)).
Proof.
  revert rels. induction n as [|n IH]; intros rels H0 H64; [constructor|].
  cbn [chunks map]. constructor; [|by apply IH; apply Forall_drop].
  destruct (max_bits_spec (take 32 rels)) as (Hp & _ & Hk); [by apply Forall_take|].
  specialize (Hk 64 ltac:(lia)). unfold is_byte.
  assert (Forall (fun v => v < 2 ^ 64) (take 32 rels)) by (by apply Forall_take).
  specialize (Hk ltac:(done)). lia.
Qed.

Lemma block_codec ds :
  ds <> [] -> zlen ds <= 128 -> Forall (is_int 64) ds ->
  exists bs, writes (write_block ds) bs tt /\ (0 < length bs)%nat /\
  forall tot value out,
    (tot = zlen out + zlen ds \/ (zlen ds = 128 /\ zlen out + zlen ds <= tot)) ->
    exists value', reads (read_block tot value out) bs (value', out ++ scan value 0 ds) /\
      (zlen ds = 128 -> value' = final value 0 ds).
Proof.
  intros Hne Hlen Hint. destruct (minimum_spec ds Hne) as [Hmin Hin].
  set (md := minimum ds) in *. set (rels := map (fun d => d - md) ds).
  assert (is_int 64 md) as Hmd by (by eapply Forall_forall in Hin).
  assert (Forall (Z.le 0) rels) as Hr.
  { apply Forall_fmap. eapply Forall_impl; [exact Hmin|]. intros d Hd. simpl. lia. }
  assert (Forall (fun v => v < 2 ^ 64) rels) as Hr64.
  { apply Forall_fmap. eapply Forall_impl; [exact Hint|]. intros d Hd. simpl. unfold is_int in *.
    change (2 ^ (64 - 1)) with (2 ^ 63) in *. lia. }
  assert (zlen rels = zlen ds) as Hzl by (unfold zlen, rels; by rewrite length_map).
  destruct (minis_codec 4 rels Hr) as (bs & Hw & Hrd); [lia|].
  set (ws := map max_bits (chunks 4 rels)) in *.
  assert (Forall is_byte ws) as Hws by (by apply widths_byte).
  destruct (widths_codec ws Hws) as [Hww Hwr].
  assert (length ws = 4%nat) as Hl4 by (unfold ws; by rewrite length_map, chunks_length).
  exists (zigzag_bytes md ++ ws ++ bs). split; [|split].
  - unfold write_block. fold md. fold rels. rewrite miniblocks_chunks. cbv zeta. fold ws.
    eapply writes_bind; [by apply writes_Zigzag64|]. eapply writes_bind; [exact Hww|exact Hw].
  - rewrite !length_app. lia.
  - intros tot value out Ht. destruct (Hrd md tot value out) as (v' & Hrd' & Hv'); [lia|].
    exists v'. unfold rels in Hrd', Hv'. rewrite scan_rels in Hrd'. rewrite final_rels in Hv'.
    split; [|intros; apply Hv'; unfold rels in Hzl; lia].
    eapply reads_bind; [by apply reads_Zigzag64|]. rewrite <- Hl4. eapply reads_bind; [exact Hwr|exact Hrd'].
Qed.

Lemma blocks_codec n ds :
  (length ds <= n)%nat -> Forall (is_int 64) ds ->
  exists bs, writes (write_blocks n ds) bs tt /\
  forall fuel value out tot, (length bs <= fuel)%nat -> tot = zlen out + zlen ds ->
    reads (read_blocks fuel 32 4 tot tot value out) bs (out ++ scan value 0 ds).
Proof.
  revert ds. induction n as [|n IH]; intros ds Hn Hint;
    (destruct (decide (ds = [])) as [->|Hne]; [exists []; split; [intros out; by rewrite app_nil_r|];
      intros fuel value out tot Hf ->; change (zlen []) with 0; rewrite Z.add_0_r; simpl scan; rewrite app_nil_r;
      destruct fuel; cbn [read_blocks]; rewrite Z.ltb_irrefl; apply reads_ret|]).
  { destruct ds; [done|simpl in Hn; lia]. }
  destruct (block_codec (take 128 ds)) as (bs1 & Hw1 & Hp1 & Hr1).
  { by destruct ds. } { unfold zlen. rewrite length_take. lia. } { by apply Forall_take. }
  destruct (IH (drop 128 ds)) as (bs2 & Hw2 & Hr2).
  { rewrite length_drop. destruct ds; [done|]. simpl in *. lia. } { by apply Forall_drop. }
  exists (bs1 ++ bs2). split.
  { destruct ds as [|d ds]; [done|]. cbn [write_blocks]. eapply writes_bind; [exact Hw1|exact Hw2]. }
  intros [|fuel] value out tot Hf Ht; [rewrite length_app in Hf; lia|]. cbn [read_blocks].
  assert (0 < zlen ds) by (destruct ds; [done|]; rewrite zlen_cons; pose proof (zlen_nonneg ds); lia).
  replace (zlen out <? tot) with true by lia.
  destruct (Hr1 tot value out) as (v' & Hrd & Hv').
  { subst tot. unfold zlen. rewrite length_take. lia. }
  assert (out ++ scan value 0 ds = (out ++ scan value 0 (take 128 ds)) ++ scan v' 0 (drop 128 ds)) as ->.
  { rewrite <- app_assoc. f_equal. rewrite <- (take_drop 128 ds) at 1. rewrite scan_app. f_equal.
    destruct (decide (128 <= length ds)%nat).
    - rewrite Hv'; [done|]. unfold zlen. rewrite length_take. lia.
    - by rewrite drop_ge by lia. }
  assert (reads ('(v, o) ← read_block tot value out; read_blocks fuel 32 4 tot tot v o) (bs1 ++ bs2)
    ((out ++ scan value 0 (take 128 ds)) ++ scan v' 0 (drop 128 ds))) as Hall.
  { eapply reads_bind; [exact Hrd|]. apply Hr2; [rewrite length_app in Hf; lia|].
    subst tot. unfold zlen. rewrite length_app, scan_length, length_take, length_drop. lia. }
  intros r tl Hr E. rewrite <- (Hall r tl Hr E). unfold read_block.
  rewrite ST_bind_assoc. unfold mbind, ST_bind. destruct (readZigzag64 r) as [[m r1]|]; [|done].
  change (Z.to_nat 4) with 4%nat. by destruct (read_widths 4 r1) as [[ws r2]|].
Qed.

(** ** Streams *)

Definition steps (values : list Z) : list Z :=
  match values with [] => [] | v :: vals => diffs v vals end.

(** The values a stream can carry: the first one and every difference of
    neighbours are 64-bit. *)
Definition encodable (values : list Z) : Prop :=
  zlen values < 2 ^ 53 /\ Forall (is_int 64) (take 1 values) /\ Forall (is_int 64) (steps values).

Lemma scan_diffs v vals : scan v 0 (diffs v vals) = vals.
Proof.
  revert v. induction vals as [|x vals IH]; intros v; [done|]. cbn [diffs scan]. cbv zeta.
  replace (v + (0 + (x - v))) with x by lia. by rewrite IH.
Qed.

Lemma diffs_length v vals : length (diffs v vals) = length vals.
Proof. revert v. induction vals as [|x vals IH]; intros v; [done|]. simpl. by rewrite IH. Qed.

Lemma body_codec values : encodable values ->
  exists bs, writes (write_body values) bs tt /\
  reads (delta_body 32 4 (zlen values) (zlen values)) bs (values, zlen values).
Proof.
  intros (Hn & Hfst & Hst). destruct values as [|v vals].
  { exists []. split; [intros out; by rewrite app_nil_r|apply reads_ret]. }
  apply Forall_cons in Hfst as [Hv _]. cbn [steps] in Hst.
  destruct (blocks_codec (length vals) (diffs v vals)) as (bs & Hw & Hr); [by rewrite diffs_length|done|].
  exists (zigzag_bytes v ++ bs). split; [eapply writes_bind; [by apply writes_Zigzag64|exact Hw]|].
  set (tot := zlen (v :: vals)). assert (tot = 1 + zlen (diffs v vals)) as Ht.
  { unfold tot. rewrite zlen_cons. unfold zlen. by rewrite diffs_length. }
  unfold delta_body. pose proof (zlen_nonneg (diffs v vals)). replace (tot =? 0) with false by lia.
  eapply reads_bind; [by apply reads_Zigzag64|]. eapply reads_map; [|reflexivity].
  intros r tl Hok E. specialize (Hr (S (length (rest r))) v [v] tot). rewrite scan_diffs in Hr.
  apply (Hr ltac:(rewrite E, length_app; lia) Ht r tl Hok E).
Qed.

Lemma delta_codec values : encodable values ->
  exists bs, writes (write_delta values) bs tt /\
  forall limit, limit (zlen values) = zlen values ->
  reads (delta_stream limit) bs (values, zlen values).
Proof.
  intros He. pose proof (zlen_nonneg values). pose proof (proj1 He) as Hn.
  destruct (body_codec values He) as (bs & Hw & Hr).
  exists (varint_bytes 10 BLOCK_SIZE ++ varint_bytes 10 MINIBLOCKS
          ++ varint_bytes 10 (zlen values) ++ bs). split.
  - eapply writes_bind; [by apply writes_Varint|]. eapply writes_bind; [by apply writes_Varint|].
    eapply writes_bind; [apply writes_Varint; lia|exact Hw].
  - intros limit Hl. eapply reads_bind; [by apply reads_Varint|].
    eapply reads_bind; [by apply reads_Varint|]. eapply reads_bind; [apply reads_Varint; lia|].
    rewrite Hl. exact Hr.
Qed.

(** C9: DELTA_BINARY_PACKED round-trips: when the first value and the
    differences of neighbours are 64-bit, decoding the encoder's bytes with
    the right count gives the values back, whatever follows the stream. *)
Theorem delta_binary_roundtrip (values tail : list Z) :
  encodable values ->
  exists bs, encodeDeltaBinaryPacked values = Ok bs /\
    decodeDeltaBinaryPacked (bs ++ tail) (zlen values) = Ok values.
Proof.
  intros He. destruct (delta_codec values He) as (bs & Hw & Hr). exists bs.
  unfold encodeDeltaBinaryPacked. rewrite (Hw []). split; [done|].
  unfold decodeDeltaBinaryPacked.
  rewrite (Hr (fun t => Z.min t (zlen values)) (Z.min_id _) _ tail); [|apply new_reader_ok|done].
  cbn [mbind res_bind]. rewrite Z.min_id. unfold zlen. by rewrite Nat2Z.id, take_ge.
Qed.

Lemma delta_binary_roundtrip_witness :
  exists bs, encodeDeltaBinaryPacked [7; -5; 2 ^ 62; 2 ^ 62; 0] = Ok bs /\
    decodeDeltaBinaryPacked (bs ++ [1]) 5 = Ok [7; -5; 2 ^ 62; 2 ^ 62; 0].
Proof.
  apply (delta_binary_roundtrip [7; -5; 2 ^ 62; 2 ^ 62; 0] [1]).
  split; [by vm_compute|]. split; simpl; solve_ranges.
Defined.

(** 64-bit columns whose neighbours are more than 2^63 apart are not
    preserved: the smallest followed by the largest INT64 decodes to a second
    value outside the 64-bit range. *)
Theorem delta_extremes_lost :
  exists bs, encodeDeltaBinaryPacked [- 2 ^ 63; 2 ^ 63 - 1] = Ok bs /\
    decodeDeltaBinaryPacked bs 2 = Ok [- 2 ^ 63; - 2 ^ 64].
Proof. eexists. split; [vm_compute; reflexivity|vm_compute; reflexivity]. Qed.

(** ** Byte arrays *)

Lemma sizes_encodable sizes :
  zlen sizes < 2 ^ 53 -> Forall (fun n => 0 <= n < 2 ^ 53) sizes -> encodable sizes.
Proof.
  intros Hn Hs. split; [done|].
  assert (forall v vals, 0 <= v < 2 ^ 53 -> Forall (fun n => 0 <= n < 2 ^ 53) vals ->
            Forall (is_int 64) (diffs v vals)) as Hd.
  { intros v vals Hv Hvals. revert v Hv. induction Hvals as [|x vals Hx Hvals IH];
      intros v Hv; constructor; [|by apply IH]. unfold is_int. simpl in Hx. lia. }
  destruct Hs as [|v vals Hv Hvals]; [by split|]. split; [|by apply Hd].
  simpl. constructor; [|constructor]. unfold is_int. lia.
Qed.

Lemma inline_codec sizes : encodable sizes ->
  exists bs, encodeDeltaBinaryPacked sizes = Ok bs /\ reads decodeDeltaHeaderInline bs sizes.
Proof.
  intros He. destruct (delta_codec sizes He) as (bs & Hw & Hr). exists bs.
  unfold encodeDeltaBinaryPacked. rewrite (Hw []). split; [done|].
  eapply reads_map; [by apply (Hr (fun t => t))|done].
Qed.

Lemma writes_all (vs : list (list Z)) : writes (forEach writeBytes vs) (concat vs) tt.
Proof.
  induction vs as [|v vs IH]; [intros out; by rewrite app_nil_r|].
  cbn [forEach concat]. eapply writes_bind; [apply writes_append|exact IH].
Qed.

Lemma reads_lengths vs : reads (read_lengths (length vs) (map zlen vs)) (concat vs) vs.
Proof.
  induction vs as [|v vs IH]; [apply reads_ret|]. cbn [length map read_lengths concat tail].
  eapply reads_bind; [apply reads_Bytes|]. eapply reads_map; [exact IH|done].
Qed.

(** Values of a byte-array column: fewer than 2^53 of them, none longer. *)
Definition byte_arrays (values : list (list Z)) : Prop :=
  zlen values < 2 ^ 53 /\ Forall (fun v => zlen v < 2 ^ 53) values.

(** DELTA_LENGTH_BYTE_ARRAY round-trips: lengths and concatenated bytes
    give the values back. *)
Theorem delta_length_roundtrip (values : list (list Z)) (tail : list Z) :
  byte_arrays values ->
  exists bs, encodeDeltaLengthByteArray values = Ok bs /\
    decodeDeltaLengthByteArray (bs ++ tail) (zlen values) = Ok values.
Proof.
  intros [Hn Hv]. destruct (inline_codec (map zlen values)) as (bs & He & Hr).
  { apply sizes_encodable; [unfold zlen in *; by rewrite length_map|].
    apply Forall_fmap. eapply Forall_impl; [exact Hv|]. intros v Hl.
    unfold compose. pose proof (zlen_nonneg v). cbv beta in *. lia. }
  exists (bs ++ concat values). unfold encodeDeltaLengthByteArray. rewrite He. cbn [mbind res_bind].
  rewrite (writes_bind _ _ bs (concat values) tt tt (writes_append bs) (writes_all values) []).
  split; [done|]. unfold decodeDeltaLengthByteArray.
  rewrite (reads_bind _ _ bs (concat values) _ values Hr) with (tail := tail);
    [done| |apply new_reader_ok|done].
  unfold zlen. rewrite Nat2Z.id. apply reads_lengths.
Qed.

Lemma delta_length_roundtrip_witness :
  exists bs, encodeDeltaLengthByteArray [[1; 2]; []; [3]] = Ok bs /\
    decodeDeltaLengthByteArray (bs ++ []) 3 = Ok [[1; 2]; []; [3]].
Proof.
  apply (delta_length_roundtrip [[1; 2]; []; [3]] []). split; [by vm_compute|].
  repeat (constructor; [by vm_compute|]). constructor.
Defined.

Lemma common_prefix_spec a b :
  (common_prefix a b <= length a)%nat /\ (common_prefix a b <= length b)%nat /\
  take (common_prefix a b) a = take (common_prefix a b) b.
Proof.
  revert b. induction a as [|x a IH]; intros [|y b]; cbn [common_prefix length];
    try (split; [lia|split; [lia|done]]).
  destruct (Z.eqb_spec x y) as [->|]; cbv iota; [|split; [lia|split; [lia|done]]].
  destruct (IH b) as (H1 & H2 & H3). simpl. rewrite H3. split; [lia|split; [lia|done]].
Qed.

Lemma set_at_start dst src : zlen src <= zlen dst ->
  set_at dst src 0 = Ok (src ++ drop (length src) dst).
Proof.
  intros H. unfold set_at. replace (zlen dst <? 0 + zlen src) with false by lia. done.
Qed.

Lemma set_at_end a b src : zlen src = zlen b -> set_at (a ++ b) src (zlen a) = Ok (a ++ src).
Proof.
  intros H. unfold set_at. rewrite zlen_app. pose proof (zlen_nonneg a).
  replace (zlen a <? 0) with false by lia.
  replace (zlen a + zlen b <? zlen a + zlen src) with false by lia. cbn [orb]. f_equal.
  unfold zlen in *. rewrite Nat2Z.id, take_app_length. f_equal.
  rewrite drop_ge; [by rewrite app_nil_r|]. rewrite length_app. lia.
Qed.

Lemma join_split prev v :
  zlen v < 2 ^ 53 ->
  let p := common_prefix prev v in
  join_value prev (Some (Z.of_nat p)) (Some (zlen (drop p v))) (drop p v) = Ok v.
Proof.
  intros Hv p. destruct (common_prefix_spec prev v) as (H1 & H2 & H3). fold p in H1, H2, H3.
  assert (zlen (drop p v) = zlen v - Z.of_nat p) as Hd by (unfold zlen; rewrite length_drop; lia).
  unfold join_value. change (default 0 (Some (Z.of_nat p))) with (Z.of_nat p). rewrite Hd.
  replace (Z.of_nat p + (zlen v - Z.of_nat p)) with (zlen v) by lia.
  unfold new_Uint8Array, isSafeInteger. pose proof (zlen_nonneg v).
  replace (zlen v <? 0) with false by lia.
  replace (Z.abs (zlen v) <=? 2 ^ 53 - 1) with true by lia. cbn [orb negb mbind res_bind].
  unfold subarray_to. replace (Z.of_nat p <? 0) with false by lia. cbv iota. rewrite Nat2Z.id, H3.
  assert (length (take p v) = p) as Hl by (rewrite length_take; lia).
  rewrite set_at_start by (unfold zlen; rewrite length_replicate, Hl; lia).
  cbn [mbind res_bind]. replace (Z.of_nat p) with (zlen (take p v)) by (unfold zlen; by rewrite Hl).
  rewrite set_at_end; [by rewrite take_drop|].
  rewrite Hd. unfold zlen. rewrite length_drop, length_replicate, Hl. lia.
Qed.

Lemma reads_suffixes values prev :
  Forall (fun v => zlen v < 2 ^ 53) values ->
  let parts := split_values prev values in
  reads (read_suffixes (length values) (map fst parts) (map (fun p => zlen p.2) parts) prev)
    (concat (map snd parts)) values.
Proof.
  intros Hv. revert prev. induction Hv as [|v values Hv Hvs IH]; intros prev parts; [apply reads_ret|].
  unfold parts. cbn [split_values length map read_suffixes concat tail head fst snd].
  eapply reads_bind; [apply reads_Bytes|]. intros r tl Hr E.
  unfold mbind at 1, ST_bind at 1, liftR. rewrite join_split by done.
  eapply (reads_map (read_suffixes _ _ _ v)); [apply IH|done|done|exact E].
Qed.

Lemma parts_encodable values prev :
  byte_arrays values ->
  encodable (map fst (split_values prev values)) /\
  encodable (map (fun p => zlen p.2) (split_values prev values)).
Proof.
  intros [Hn Hv].
  assert (length (split_values prev values) = length values) as Hl.
  { clear. revert prev. induction values as [|v values IH]; intros prev; [done|]. simpl. by rewrite IH. }
  assert (Forall (fun p => 0 <= p.1 < 2 ^ 53 /\ 0 <= zlen p.2 < 2 ^ 53) (split_values prev values)) as Hp.
  { clear Hn Hl. revert prev. induction Hv as [|v values Hv Hvs IH]; intros prev; constructor; [|apply IH].
    destruct (common_prefix_spec prev v) as (H1 & H2 & _). unfold zlen in *. cbn [fst snd].
    rewrite length_drop. lia. }
  split; (apply sizes_encodable; [unfold zlen in *; by rewrite length_map, Hl|];
    apply Forall_fmap; eapply Forall_impl; [exact Hp|]; simpl; tauto).
Qed.

(** DELTA_BYTE_ARRAY round-trips: shared prefixes and suffixes give the
    values back. *)
Theorem delta_byte_array_roundtrip (values : list (list Z)) (tail : list Z) :
  byte_arrays values ->
  exists bs, encodeDeltaByteArray values = Ok bs /\
    decodeDeltaByteArray (bs ++ tail) (zlen values) = Ok values.
Proof.
  intros Hb. destruct (parts_encodable values [] Hb) as [Hp Hs]. destruct Hb as [_ Hv].
  pose proof (reads_suffixes values [] Hv) as Hrs. cbv zeta in Hrs.
  set (parts := split_values [] values) in *.
  destruct (inline_codec _ Hp) as (b1 & E1 & R1). destruct (inline_codec _ Hs) as (b2 & E2 & R2).
  exists (b1 ++ b2 ++ concat (map snd parts)).
  unfold encodeDeltaByteArray. fold parts. cbv zeta. rewrite E1. cbn [mbind res_bind].
  rewrite E2. cbn [mbind res_bind]. split.
  - assert (writes (writeBytes b1;; writeBytes b2;; forEach writeBytes (map snd parts))
      (b1 ++ b2 ++ concat (map snd parts)) tt) as Hw.
    { eapply writes_bind; [apply writes_append|]. eapply writes_bind; [apply writes_append|apply writes_all]. }
    by rewrite (Hw []).
  - unfold decodeDeltaByteArray. rewrite (reads_bind _ _ b1 (b2 ++ concat (map snd parts)) _ values R1)
      with (tail := tail); [done| |apply new_reader_ok|done].
    eapply reads_bind; [exact R2|]. unfold zlen. rewrite Nat2Z.id. exact Hrs.
Qed.

Lemma delta_byte_array_roundtrip_witness :
  exists bs, encodeDeltaByteArray [[1; 2; 3]; [1; 2; 4; 5]; []; [9]] = Ok bs /\
    decodeDeltaByteArray (bs ++ []) 4 = Ok [[1; 2; 3]; [1; 2; 4; 5]; []; [9]].
Proof.
  apply (delta_byte_array_roundtrip [[1; 2; 3]; [1; 2; 4; 5]; []; [9]] []). split; [by vm_compute|].
  repeat (constructor; [by vm_compute|]). constructor.
Defined.
End ParquetDelta.
