(* ===== verification/ParquetEncoding.v ===== *)
(** Parquet PLAIN encoding and dictionary indices
    (src/js/data/parquet/encoding.ts) and BYTE_STREAM_SPLIT
    (src/js/data/parquet/delta.ts).

    A column holds values of its physical type.  FLOAT and DOUBLE values are
    IEEE-754 bit patterns. *)

From S2P Require Import Prelude Utf8 ThriftIO ParquetLevels.

Module PType.
Definition BOOLEAN := 0.
Definition INT32 := 1.
Definition INT64 := 2.
Definition INT96 := 3.
Definition FLOAT := 4.
Definition DOUBLE := 5.
Definition BYTE_ARRAY := 6.
Definition FIXED_LEN_BYTE_ARRAY := 7.
End PType.

Module ParquetEncoding.
Import Utf8 ThriftIO ParquetLevels.

(** What a binary column may hold before encoding. *)
Inductive BinValue :=
| BBytes (value : list Z)
| BString (value : jsstring)
| BOther.

Inductive Column :=
| BooleanCol (values : list bool)
| Int32Col (values : list Z)
| Int64Col (values : list Z)
| Int96Col (values : list (list Z))
| FloatCol (values : list Z)
| DoubleCol (values : list Z)
| ByteArrayCol (values : list BinValue)
| FixedCol (typeLength : option Z) (values : list BinValue).

Definition physicalType (c : Column) : Z :=
  match c with
  | BooleanCol _ => PType.BOOLEAN | Int32Col _ => PType.INT32 | Int64Col _ => PType.INT64
  | Int96Col _ => PType.INT96 | FloatCol _ => PType.FLOAT | DoubleCol _ => PType.DOUBLE
  | ByteArrayCol _ => PType.BYTE_ARRAY | FixedCol _ _ => PType.FIXED_LEN_BYTE_ARRAY
  end.

Definition toBytes (value : BinValue) : res (list Z) :=
  match value with
  | BBytes b => Ok b
  | BString s => Ok (TextEncoder_encode s)
  | BOther => Throw (ParquetError "BYTE_ARRAY value must be a string or Uint8Array")
  end.

(** ** Encoding *)

(** [if (values[i]) out[i >> 3] |= 1 << (i & 7)] *)
Fixpoint pack_bools (i : nat) (values : list bool) (out : list Z) : list Z :=
  match values with
  | [] => out
  | v :: values =>
      pack_bools (S i) values
        (if v then alter (fun b => js_or b (js_shl 1 (Z.of_nat i mod 8))) (i / 8)%nat out else out)
  end.
Fixpoint all_bytes (values : list BinValue) : res (list (list Z)) :=
  match values with
  | [] => Ok []
  | v :: values => b ← toBytes v; bs ← all_bytes values; Ok (b :: bs)
  end.
(** [out.set(bytes.subarray(0, width), i * width)] into zeros. *)
Definition fixed_bytes (width : Z) (b : list Z) : list Z :=
  let b := take (Z.to_nat width) b in b ++ replicate (Z.to_nat (width - zlen b)) 0.

Definition encodePlain (c : Column) : res (list Z) :=
  match c with
  | BooleanCol values => Ok (pack_bools 0 values (replicate ((length values + 7) / 8)%nat 0))
  | Int32Col values | FloatCol values => Ok (values ≫= le_bytes 4)
  | Int64Col values | DoubleCol values => Ok (values ≫= le_bytes 8)
  | ByteArrayCol values =>
      encoded ← all_bytes values;
      Ok (encoded ≫= (fun b => le_bytes 4 (zlen b) ++ b))
  | FixedCol typeLength values =>
      let width := default 0 typeLength in
      encoded ← all_bytes values;
      Ok (encoded ≫= fixed_bytes width)
  | Int96Col _ => Throw (ParquetError "PLAIN encode: unsupported physical type")
  end.

(** ** Decoding *)

Definition unpack_bool (bytes : list Z) (i : nat) : bool :=
  match bytes !! (i / 8)%nat with
  | Some b => negb (js_and b (js_shl 1 (Z.of_nat i mod 8)) =? 0)
  | None => false
  end.
(** [dv.get*(i * width)], which throws past the end. *)
Fixpoint read_fixed (n : nat) (width : nat) (get : list Z -> Z) (bytes : list Z) : res (list Z) :=
  match n with
  | O => Ok []
  | S n =>
      if (length bytes <? width)%nat then Throw (RangeError "Offset is outside the bounds of the DataView")
      else vs ← read_fixed n width get (drop width bytes); Ok (get (take width bytes) :: vs)
  end.
Fixpoint read_slices (n width : nat) (bytes : list Z) : list (list Z) :=
  match n with
  | O => []
  | S n => take width bytes :: read_slices n width (drop width bytes)
  end.
Fixpoint read_byte_arrays (n : nat) (bytes : list Z) : res (list (list Z)) :=
  match n with
  | O => Ok []
  | S n =>
      if (length bytes <? 4)%nat then Throw (RangeError "Offset is outside the bounds of the DataView")
      else
        let len := le_val (take 4 bytes) in
        let bytes := drop 4 bytes in
        vs ← read_byte_arrays n (drop (Z.to_nat len) bytes);
        Ok (take (Z.to_nat len) bytes :: vs)
  end.

Definition decodePlain (physicalType : Z) (bytes : list Z) (count : Z) (typeLength : option Z)
  : res Column :=
  let n := Z.to_nat count in
  if physicalType =? PType.BOOLEAN then Ok (BooleanCol (map (unpack_bool bytes) (seq 0 n)))
  else if physicalType =? PType.INT32 then
    vs ← read_fixed n 4 (fun l => signedN 32 (le_val l)) bytes; Ok (Int32Col vs)
  else if physicalType =? PType.INT64 then
    vs ← read_fixed n 8 (fun l => signedN 64 (le_val l)) bytes; Ok (Int64Col vs)
  else if physicalType =? PType.FLOAT then vs ← read_fixed n 4 le_val bytes; Ok (FloatCol vs)
  else if physicalType =? PType.DOUBLE then vs ← read_fixed n 8 le_val bytes; Ok (DoubleCol vs)
  else if physicalType =? PType.BYTE_ARRAY then
    vs ← read_byte_arrays n bytes; Ok (ByteArrayCol (map BBytes vs))
  else if physicalType =? PType.FIXED_LEN_BYTE_ARRAY then
    let width := default 0 typeLength in
    Ok (FixedCol typeLength (map BBytes (read_slices n (Z.to_nat width) bytes)))
  else if physicalType =? PType.INT96 then Ok (Int96Col (read_slices n 12 bytes))
  else Throw (ParquetError "PLAIN decode: unsupported physical type").

Definition decodeDictionaryIndices (bytes : list Z) (count : Z) : res (list Z) :=
  if zlen bytes =? 0 then Ok (if count =? 0 then [] else replicate (Z.to_nat count) 0)
  else
    '(out, _) ← (bitWidth ← readU8; decodeRleHybrid bitWidth count) (new_reader bytes);
    Ok out.

(** ** BYTE_STREAM_SPLIT *)

Definition elementWidth (physicalType : Z) (typeLength : option Z) : Z :=
  if physicalType =? PType.FLOAT then 4
  else if physicalType =? PType.DOUBLE then 8
  else if physicalType =? PType.INT32 then 4
  else if physicalType =? PType.INT64 then 8
  else if physicalType =? PType.FIXED_LEN_BYTE_ARRAY then default 0 typeLength
  else 0.

(** The columns this encoding is used for. *)
Inductive SplitColumn :=
| SFloat (values : list Z)
| SDouble (values : list Z)
| SInt32 (values : list Z)
| SInt64 (values : list Z)
| SFixed (typeLength : option Z) (values : list (list Z)).
Definition split_type (c : SplitColumn) : Z :=
  match c with
  | SFloat _ => PType.FLOAT | SDouble _ => PType.DOUBLE | SInt32 _ => PType.INT32
  | SInt64 _ => PType.INT64 | SFixed _ _ => PType.FIXED_LEN_BYTE_ARRAY
  end.
Definition split_typeLength (c : SplitColumn) : option Z :=
  match c with SFixed t _ => t | _ => None end.
Definition split_count (c : SplitColumn) : nat :=
  match c with
  | SFloat v | SDouble v | SInt32 v | SInt64 v => length v
  | SFixed _ v => length v
  end.

Definition encodeFixedWidth (c : SplitColumn) (width : Z) : list Z :=
  match c with
  | SFloat values | SInt32 values => values ≫= le_bytes 4
  | SDouble values | SInt64 values => values ≫= le_bytes 8
  | SFixed _ values => values ≫= fixed_bytes width
  end.
Definition decodeFixedWidth (bytes : list Z) (count : Z) (physicalType : Z) (typeLength : option Z)
  (width : Z) : res SplitColumn :=
  let n := Z.to_nat count in
  if physicalType =? PType.FLOAT then vs ← read_fixed n 4 le_val bytes; Ok (SFloat vs)
  else if physicalType =? PType.DOUBLE then vs ← read_fixed n 8 le_val bytes; Ok (SDouble vs)
  else if physicalType =? PType.INT32 then
    vs ← read_fixed n 4 (fun l => signedN 32 (le_val l)) bytes; Ok (SInt32 vs)
  else if physicalType =? PType.INT64 then
    vs ← read_fixed n 8 (fun l => signedN 64 (le_val l)) bytes; Ok (SInt64 vs)
  else Ok (SFixed typeLength (read_slices n (Z.to_nat width) bytes)).

(** The nested index loops: [rows] outer rounds of [cols], element [(r, c)]
    taken from position [c * rows + r].  A missing byte reads as 0. *)
Definition transpose (rows cols : nat) (bytes : list Z) : list Z :=
  seq 0 rows ≫= (fun r => map (fun c => default 0 (bytes !! (c * rows + r)%nat)) (seq 0 cols)).

Definition encodeByteStreamSplit (c : SplitColumn) : list Z :=
  let width := elementWidth (split_type c) (split_typeLength c) in
  let interleaved := encodeFixedWidth c width in
  transpose (Z.to_nat width) (split_count c) interleaved.
Definition decodeByteStreamSplit (bytes : list Z) (count physicalType : Z) (typeLength : option Z)
  : res SplitColumn :=
  let width := elementWidth physicalType typeLength in
  let reassembled := transpose (Z.to_nat count) (Z.to_nat width) bytes in
  decodeFixedWidth reassembled count physicalType typeLength width.
(** ** Fixed-width values *)

Lemma read_fixed_bind n get vs :
  (forall v, v ∈ vs -> get (le_bytes n v) = v) ->
  read_fixed (length vs) n get (vs ≫= le_bytes n) = Ok vs.
Proof.
  induction vs as [|v vs IH]; intros Hget; [done|]. rewrite bind_cons.
  cbn [length read_fixed].
  assert ((length (le_bytes n v ++ (vs ≫= le_bytes n)) <? n)%nat = false) as ->.
  { apply Nat.ltb_ge. rewrite length_app, length_le_bytes. lia. }
  rewrite drop_app_length', take_app_length' by (by rewrite length_le_bytes).
  rewrite IH by (intros; apply Hget; by right). cbn [mbind res_bind].
  by rewrite Hget by left.
Qed.

Lemma le_signed n v : (0 < n)%nat -> is_int (8 * Z.of_nat n) v ->
  signedN (8 * Z.of_nat n) (le_val (le_bytes n v)) = v.
Proof. apply le_signed_roundtrip. Qed.

Lemma read_slices_bind (w : nat) (f : list Z -> list Z) vs :
  (forall v, v ∈ vs -> length (f v) = w) -> read_slices (length vs) w (vs ≫= f) = map f vs.
Proof.
  induction vs as [|v vs IH]; intros Hf; [done|]. rewrite bind_cons. cbn [length read_slices map].
  rewrite take_app_length', drop_app_length' by (symmetry; apply Hf; left).
  by rewrite IH by (intros; apply Hf; by right).
Qed.

Lemma fixed_bytes_exact w b : zlen b = w -> fixed_bytes w b = b.
Proof.
  intros <-. unfold fixed_bytes. cbv zeta.
  rewrite take_ge by (unfold zlen; lia). by rewrite Z.sub_diag, app_nil_r.
Qed.

Lemma fixed_bytes_id w vs :
  Forall (fun v => zlen v = w) vs -> map (fixed_bytes w) vs = vs.
Proof.
  induction 1 as [|v vs Hv Hvs IH]; [done|]. cbn [map]. by rewrite IH, fixed_bytes_exact.
Qed.

(** ** Booleans *)

Definition bit_ops_ok (b : Z) : bool :=
  forallb (fun k =>
    let b' := js_or b (js_shl 1 k) in
    (0 <=? b') && (b' <? 256) && bool_decide (negb (js_and b (js_shl 1 k) =? 0) = Z.testbit b k) &&
    forallb (fun j => Bool.eqb (Z.testbit b' j) ((j =? k) || Z.testbit b j)) (seqZ 0 8))
  (seqZ 0 8).

Lemma bit_ops b k : is_byte b -> 0 <= k < 8 ->
  let b' := js_or b (js_shl 1 k) in
  is_byte b' /\ negb (js_and b (js_shl 1 k) =? 0) = Z.testbit b k /\
  forall j, 0 <= j < 8 -> Z.testbit b' j = (j =? k) || Z.testbit b j.
Proof.
  intros Hb Hk b'. assert (bit_ops_ok b = true) as H.
  { apply byte_forallb; [vm_compute; reflexivity|done]. }
  unfold bit_ops_ok in H. rewrite forallb_forall in H.
  specialize (H k ltac:(apply list_elem_of_In, elem_of_seqZ; lia)). fold b' in H.
  rewrite !andb_true_iff in H. destruct H as (((H1 & H2) & H3) & H4).
  rewrite bool_decide_eq_true in H3. rewrite forallb_forall in H4.
  split; [unfold is_byte; lia|]. split; [done|]. intros j Hj.
  specialize (H4 j ltac:(apply list_elem_of_In, elem_of_seqZ; lia)). by apply Bool.eqb_prop in H4.
Qed.

(** Bit [j] of the packed bytes. *)
Definition bit_at (out : list Z) (j : nat) : bool :=
  Z.testbit (default 0 (out !! (j / 8)%nat)) (Z.of_nat j mod 8).

Lemma set_bit out i j :
  Forall is_byte out -> (i / 8 < length out)%nat ->
  let out' := alter (fun b => js_or b (js_shl 1 (Z.of_nat i mod 8))) (i / 8)%nat out in
  Forall is_byte out' /\ length out' = length out /\
  bit_at out' j = (j =? i)%nat || bit_at out j.
Proof.
  intros Hb Hi out'. destruct (lookup_lt_is_Some_2 _ _ Hi) as [b E].
  pose proof (proj1 (Forall_lookup _ _) Hb _ _ E) as Hbb.
  pose proof (Z.mod_pos_bound (Z.of_nat i) 8 ltac:(lia)) as Hk.
  destruct (bit_ops b (Z.of_nat i mod 8) Hbb Hk) as (Hb' & _ & Hbits).
  split; [|split; [apply length_alter|]].
  { apply Forall_lookup. intros k x Hx. unfold out' in Hx. destruct (decide (k = i / 8)%nat) as [->|Hne].
    - rewrite list_lookup_alter_eq, E in Hx. injection Hx as <-. done.
    - rewrite list_lookup_alter_ne in Hx by done. by apply (proj1 (Forall_lookup _ _) Hb _ _ Hx). }
  unfold bit_at, out'. destruct (decide (j / 8 = i / 8)%nat) as [Ej|Ej].
  - rewrite Ej, list_lookup_alter_eq, E. cbn [fmap option_fmap option_map default].
    change (default 0 (Some ?x)) with x. rewrite Hbits by (apply Z.mod_pos_bound; lia). f_equal.
    destruct (Nat.eqb_spec j i) as [->|Hne]; [apply Z.eqb_refl|]. apply Z.eqb_neq.
    intros Hm. apply Hne. apply (f_equal Z.of_nat) in Ej. rewrite !Nat2Z.inj_div in Ej.
    change (Z.of_nat 8) with 8 in Ej. revert Hm Ej. zdm.
  - rewrite list_lookup_alter_ne by congruence. by replace (j =? i)%nat with false by (symmetry; apply Nat.eqb_neq; congruence).
Qed.

Lemma pack_bools_bits i values out j :
  Forall is_byte out -> (i + length values <= 8 * length out)%nat ->
  let out' := pack_bools i values out in
  Forall is_byte out' /\ length out' = length out /\
  bit_at out' j = (if ((i <=? j) && (j <? i + length values))%nat
                   then default false (values !! (j - i)%nat) || bit_at out j else bit_at out j).
Proof.
  revert i out. induction values as [|v values IH]; intros i out Hb Hl; cbn [pack_bools length].
  - split; [done|]. split; [done|]. rewrite Nat.add_0_r. by destruct ((i <=? j) && (j <? i))%nat eqn:E.
  - cbn [length] in Hl. assert (i / 8 < length out)%nat as Hi by (apply Nat.Div0.div_lt_upper_bound; lia).
    destruct (set_bit out i j Hb Hi) as (Hb1 & Hl1 & Hbit).
    set (out1 := if v then _ else out).
    assert (Forall is_byte out1 /\ length out1 = length out /\
            bit_at out1 j = ((j =? i)%nat && v) || bit_at out j) as (Hb2 & Hl2 & Hbit2).
    { unfold out1. destruct v; [by rewrite andb_true_r|by rewrite andb_false_r]. }
    destruct (IH (S i) out1 Hb2 ltac:(lia)) as (Hb3 & Hl3 & Hbit3).
    split; [done|]. split; [congruence|]. rewrite Hbit3, Hbit2.
    destruct (Nat.eqb_spec j i) as [->|Hne].
    + replace (S i <=? i)%nat with false by (symmetry; apply Nat.leb_gt; lia).
      replace (i <=? i)%nat with true by (symmetry; apply Nat.leb_le; lia).
      replace (i <? i + S (length values))%nat with true by (symmetry; apply Nat.ltb_lt; lia).
      by rewrite Nat.sub_diag.
    + replace (S i <=? j)%nat with (i <=? j)%nat.
      2: { destruct (Nat.leb_spec i j), (Nat.leb_spec (S i) j); lia || done. }
      replace (S i + length values)%nat with (i + S (length values))%nat by lia.
      destruct ((i <=? j) && (j <? i + S (length values)))%nat eqn:E; [|done].
      rewrite andb_true_iff, Nat.leb_le, Nat.ltb_lt in E.
      replace (j - i)%nat with (S (j - S i))%nat by lia. done.
Qed.

Lemma bools_roundtrip values :
  map (unpack_bool (pack_bools 0 values (replicate ((length values + 7) / 8)%nat 0)))
    (seq 0 (length values)) = values.
Proof.
  set (z := replicate ((length values + 7) / 8)%nat 0).
  assert (Forall is_byte z) as Hz by (apply Forall_replicate; by vm_compute).
  assert (length values <= 8 * length z)%nat as Hl.
  { unfold z. rewrite length_replicate. pose proof (Nat.div_mod (length values + 7) 8 ltac:(lia)).
    pose proof (Nat.mod_upper_bound (length values + 7) 8 ltac:(lia)). lia. }
  apply list_eq. intros j. rewrite list_lookup_fmap. destruct (decide (j < length values)%nat) as [Hj|Hj].
  - rewrite lookup_seq_lt by done. cbn [fmap option_fmap option_map]. rewrite Nat.add_0_l.
    destruct (pack_bools_bits 0 values z j Hz Hl) as (Hb & Hlen & Hbit).
    set (out := pack_bools 0 values z) in *.
    assert (bit_at z j = false) as Hz0.
    { unfold bit_at, z. destruct (replicate _ 0 !! _) eqn:Ez; [|apply Z.testbit_0_l].
      apply lookup_replicate in Ez as [-> _]. apply Z.testbit_0_l. }
    rewrite Hz0 in Hbit.
    assert (j / 8 < length out)%nat as Hi by (rewrite Hlen; apply Nat.Div0.div_lt_upper_bound; lia).
    destruct (lookup_lt_is_Some_2 _ _ Hi) as [b E]. destruct (lookup_lt_is_Some_2 _ _ Hj) as [v Ev].
    rewrite Ev. f_equal. unfold unpack_bool. unfold bit_at in Hbit. rewrite E in Hbit |- *.
    destruct (bit_ops b (Z.of_nat j mod 8)) as (_ & -> & _).
    { by apply (proj1 (Forall_lookup _ _) Hb _ _ E). } { apply Z.mod_pos_bound. lia. }
    change (default 0 (Some b)) with b in Hbit. rewrite Hbit. rewrite Nat.sub_0_r, Ev.
    replace (j <? 0 + length values)%nat with true by (symmetry; apply Nat.ltb_lt; lia). simpl.
    apply orb_false_r.
  - rewrite !lookup_ge_None_2; [done|lia|rewrite length_seq; lia].
Qed.

(** ** PLAIN *)

Definition bytes_of (v : BinValue) : list Z :=
  match v with BBytes b => b | BString s => TextEncoder_encode s | BOther => [] end.
Definition binary_ok (P : Z -> Prop) (v : BinValue) : Prop := v <> BOther /\ P (zlen (bytes_of v)).

Definition column_ok (c : Column) : Prop :=
  match c with
  | BooleanCol _ => True
  | Int32Col vs => Forall (is_int 32) vs
  | Int64Col vs => Forall (is_int 64) vs
  | FloatCol vs => Forall (fun v => 0 <= v < 2 ^ 32) vs
  | DoubleCol vs => Forall (fun v => 0 <= v < 2 ^ 64) vs
  | ByteArrayCol vs => Forall (binary_ok (fun n => n < 2 ^ 32)) vs
  | FixedCol t vs => Forall (binary_ok (fun n => n = default 0 t)) vs
  | Int96Col _ => False
  end.
Definition column_count (c : Column) : Z :=
  match c with
  | BooleanCol vs => zlen vs
  | Int32Col vs | Int64Col vs | FloatCol vs | DoubleCol vs => zlen vs
  | Int96Col vs => zlen vs
  | ByteArrayCol vs | FixedCol _ vs => zlen vs
  end.
Definition column_typeLength (c : Column) : option Z :=
  match c with FixedCol t _ => t | _ => None end.
(** Strings come back as their UTF-8 bytes. *)
Definition as_bytes (c : Column) : Column :=
  match c with
  | ByteArrayCol vs => ByteArrayCol (map (fun v => BBytes (bytes_of v)) vs)
  | FixedCol t vs => FixedCol t (map (fun v => BBytes (bytes_of v)) vs)
  | _ => c
  end.

Lemma all_bytes_ok P vs : Forall (binary_ok P) vs -> all_bytes vs = Ok (map bytes_of vs).
Proof.
  induction 1 as [|v vs [Hv _] Hvs IH]; [done|]. cbn [all_bytes map]. rewrite IH.
  by destruct v.
Qed.

Lemma read_byte_arrays_bind vs :
  Forall (fun b => zlen b < 2 ^ 32) vs ->
  read_byte_arrays (length vs) (vs ≫= (fun b => le_bytes 4 (zlen b) ++ b)) = Ok vs.
Proof.
  induction 1 as [|v vs Hv Hvs IH]; [done|]. rewrite bind_cons. cbn [length read_byte_arrays].
  rewrite <- app_assoc. pose proof (zlen_nonneg v).
  match goal with |- context [(?a <? 4)%nat] => assert ((a <? 4)%nat = false) as -> end.
  { apply Nat.ltb_ge. rewrite length_app, length_le_bytes. lia. }
  rewrite (take_app_length' (le_bytes 4 (zlen v)) _ 4), (drop_app_length' (le_bytes 4 (zlen v)) _ 4)
    by (by rewrite length_le_bytes).
  rewrite le_val_bytes. change (8 * Z.of_nat 4) with 32. rewrite Z.mod_small by lia.
  by rewrite zlen_to_nat, drop_app_length, take_app_length, IH.
Qed.

Lemma unsigned_bytes n v : 0 <= v < 2 ^ (8 * Z.of_nat n) -> le_val (le_bytes n v) = v.
Proof. intros. rewrite le_val_bytes. by apply Z.mod_small. Qed.

(** PLAIN encoding round-trips for every supported physical type: BOOLEAN
    bits, INT32, INT64, FLOAT and DOUBLE bit patterns, and both byte-array
    types (strings come back as their UTF-8 bytes). *)
Theorem plain_roundtrip (c : Column) :
  column_ok c ->
  exists bs, encodePlain c = Ok bs /\
    decodePlain (physicalType c) bs (column_count c) (column_typeLength c) = Ok (as_bytes c).
Proof.
  destruct c as [vs|vs|vs|vs|vs|vs|vs|t vs]; simpl column_ok; intros Hc;
    cbn [encodePlain]; try done;
    try (eexists; split; [reflexivity|]; unfold decodePlain, column_count;
         cbn [physicalType as_bytes]; rewrite zlen_to_nat; simpl (_ =? _); cbv iota).
  - by rewrite bools_roundtrip.
  - rewrite read_fixed_bind; [done|]. intros v Hv. apply (le_signed 4); [lia|].
    exact (proj1 (Forall_forall _ _) Hc v Hv).
  - rewrite read_fixed_bind; [done|]. intros v Hv. apply (le_signed 8); [lia|].
    exact (proj1 (Forall_forall _ _) Hc v Hv).
  - rewrite read_fixed_bind; [done|]. intros v Hv. apply unsigned_bytes.
    exact (proj1 (Forall_forall _ _) Hc v Hv).
  - rewrite read_fixed_bind; [done|]. intros v Hv. apply unsigned_bytes.
    exact (proj1 (Forall_forall _ _) Hc v Hv).
  - rewrite (all_bytes_ok _ _ Hc). eexists. split; [reflexivity|].
    unfold decodePlain, column_count. cbn [physicalType as_bytes]. rewrite zlen_to_nat.
    simpl (_ =? _); cbv iota. rewrite <- (length_map bytes_of), read_byte_arrays_bind.
    + cbn [mbind res_bind]. by rewrite map_map.
    + apply Forall_fmap. eapply Forall_impl; [exact Hc|]. by intros v [_ Hv].
  - rewrite (all_bytes_ok _ _ Hc). eexists. split; [reflexivity|].
    unfold decodePlain, column_count. cbn [physicalType as_bytes column_typeLength].
    rewrite zlen_to_nat. simpl (_ =? _); cbv iota zeta.
    assert (Forall (fun b => zlen b = default 0 t) (map bytes_of vs)) as Hl.
    { apply Forall_fmap. eapply Forall_impl; [exact Hc|]. by intros v [_ Hv]. }
    rewrite <- (length_map bytes_of), read_slices_bind.
    + rewrite fixed_bytes_id by done. by rewrite map_map.
    + intros b Hb. eapply Forall_forall in Hb; [|exact Hl]. rewrite fixed_bytes_exact by done.
      rewrite <- Hb. by rewrite zlen_to_nat.
Qed.

Lemma plain_roundtrip_witness :
  exists bs, encodePlain (ByteArrayCol [BBytes [1; 2]; BString (js "ab")]) = Ok bs /\
    decodePlain PType.BYTE_ARRAY bs 2 None = Ok (ByteArrayCol [BBytes [1; 2]; BBytes [97; 98]]).
Proof.
  apply (plain_roundtrip (ByteArrayCol [BBytes [1; 2]; BString (js "ab")])).
  repeat (constructor; [split; [done|by vm_compute]|]). constructor.
Defined.

(** ** BYTE_STREAM_SPLIT *)

Lemma bind_lookup (f : nat -> list Z) cols start rows r c :
  (forall r, length (f r) = cols) -> (c < cols)%nat -> (r < rows)%nat ->
  (seq start rows ≫= f) !! (r * cols + c)%nat = f (start + r)%nat !! c.
Proof.
  intros Hf Hc. revert start r. induction rows as [|rows IH]; intros start r Hr; [lia|].
  cbn [seq]. rewrite bind_cons. destruct r as [|r].
  - rewrite lookup_app_l by (rewrite Hf; lia). by rewrite Nat.add_0_r.
  - rewrite lookup_app_r by (rewrite Hf; lia). rewrite Hf.
    replace (S r * cols + c - cols)%nat with (r * cols + c)%nat by lia.
    rewrite IH by lia. f_equal. f_equal. lia.
Qed.

Lemma bind_const_length {A} (f : A -> list Z) w vs :
  (forall v, v ∈ vs -> length (f v) = w) -> length (vs ≫= f) = (length vs * w)%nat.
Proof.
  induction vs as [|v vs IH]; intros Hf; [done|].
  rewrite bind_cons, length_app, (Hf v) by left. rewrite IH by (intros; apply Hf; by right). simpl. lia.
Qed.

Lemma transpose_length rows cols l : length (transpose rows cols l) = (rows * cols)%nat.
Proof.
  unfold transpose. rewrite (bind_const_length _ cols); [by rewrite length_seq|].
  intros r _. by rewrite length_map, length_seq.
Qed.

Lemma transpose_lookup rows cols l r c :
  (r < rows)%nat -> (c < cols)%nat ->
  transpose rows cols l !! (r * cols + c)%nat = Some (default 0 (l !! (c * rows + r)%nat)).
Proof.
  intros Hr Hc. unfold transpose. rewrite bind_lookup; [|intros; by rewrite length_map, length_seq|done|done].
  rewrite list_lookup_fmap, lookup_seq_lt by done. done.
Qed.

Lemma transpose_transpose n w l :
  length l = (n * w)%nat -> transpose n w (transpose w n l) = l.
Proof.
  intros Hl. apply list_eq. intros k. destruct (decide (k < n * w)%nat) as [Hk|Hk].
  - assert (w <> 0)%nat as Hw by lia. set (r := (k / w)%nat). set (c := (k mod w)%nat).
    assert (k = (r * w + c)%nat) as E by (unfold r, c; pose proof (Nat.div_mod k w Hw); lia).
    assert (c < w)%nat as Hc by (by apply Nat.mod_upper_bound). clearbody r c. subst k.
    assert (r < n)%nat as Hr by nia.
    rewrite transpose_lookup, transpose_lookup by done.
    change (default 0 (Some ?x)) with x.
    destruct (lookup_lt_is_Some_2 l (r * w + c)) as [x Ex]; [lia|]. by rewrite Ex.
  - rewrite !lookup_ge_None_2; [done|lia|rewrite transpose_length; lia].
Qed.

Definition split_ok (c : SplitColumn) : Prop :=
  match c with
  | SFloat vs => Forall (fun v => 0 <= v < 2 ^ 32) vs
  | SDouble vs => Forall (fun v => 0 <= v < 2 ^ 64) vs
  | SInt32 vs => Forall (is_int 32) vs
  | SInt64 vs => Forall (is_int 64) vs
  | SFixed t vs => Forall (fun v => zlen v = default 0 t) vs
  end.

Lemma encodeFixedWidth_length c :
  split_ok c ->
  let w := elementWidth (split_type c) (split_typeLength c) in
  length (encodeFixedWidth c w) = (split_count c * Z.to_nat w)%nat.
Proof.
  intros Hc. destruct c as [vs|vs|vs|vs|t vs]; cbn [encodeFixedWidth split_count];
    try (apply bind_const_length; intros; apply length_le_bytes).
  apply bind_const_length. intros v Hv. simpl in Hc. eapply Forall_forall in Hv; [|exact Hc].
  simpl in Hv. unfold elementWidth. simpl. rewrite fixed_bytes_exact by done.
  rewrite <- Hv. by rewrite zlen_to_nat.
Qed.

(** BYTE_STREAM_SPLIT round-trips: scattering fixed-width values into byte
    planes and gathering them again gives the column back. *)
Theorem byte_stream_split_roundtrip (c : SplitColumn) :
  split_ok c ->
  decodeByteStreamSplit (encodeByteStreamSplit c) (Z.of_nat (split_count c)) (split_type c)
    (split_typeLength c) = Ok c.
Proof.
  intros Hc. unfold decodeByteStreamSplit, encodeByteStreamSplit. rewrite Nat2Z.id.
  rewrite transpose_transpose by (by apply encodeFixedWidth_length).
  unfold decodeFixedWidth. rewrite Nat2Z.id.
  destruct c as [vs|vs|vs|vs|t vs]; cbn [encodeFixedWidth split_count split_type split_typeLength];
    simpl (_ =? _); cbv iota; simpl in Hc.
  - rewrite read_fixed_bind; [done|]. intros v Hv. apply unsigned_bytes. exact (proj1 (Forall_forall _ _) Hc v Hv).
  - rewrite read_fixed_bind; [done|]. intros v Hv. apply unsigned_bytes. exact (proj1 (Forall_forall _ _) Hc v Hv).
  - rewrite read_fixed_bind; [done|]. intros v Hv. apply (le_signed 4); [lia|]. exact (proj1 (Forall_forall _ _) Hc v Hv).
  - rewrite read_fixed_bind; [done|]. intros v Hv. apply (le_signed 8); [lia|]. exact (proj1 (Forall_forall _ _) Hc v Hv).
  - unfold elementWidth. simpl (_ =? _); cbv iota. rewrite read_slices_bind.
    + by rewrite fixed_bytes_id.
    + intros v Hv. eapply Forall_forall in Hv; [|exact Hc]. simpl in Hv.
      rewrite fixed_bytes_exact by done. rewrite <- Hv. by rewrite zlen_to_nat.
Qed.

Lemma byte_stream_split_roundtrip_witness :
  decodeByteStreamSplit (encodeByteStreamSplit (SInt32 [1; -2; 70000])) 3 PType.INT32 None
  = Ok (SInt32 [1; -2; 70000]).
Proof. apply (byte_stream_split_roundtrip (SInt32 [1; -2; 70000])). simpl. solve_ranges. Defined.
End ParquetEncoding.
