(* ===== verification/ParquetNested.v ===== *)
(** Nested Parquet columns (src/js/data/parquet/nested.ts): the tree of a
    schema with its definition and repetition levels, shredding of nested
    values into one stream of levels and values per leaf, and assembly of the
    streams into values.

    A column descriptor is an object that is used as the key of a [Map]; its
    identity is a number, fresh for every leaf.  [prim] stands for the Arrow
    types of leaves and [encode] for the conversion of a leaf value that
    schema.ts chooses for a type.  The Arrow vectors that rows are read from
    and built into are not modelled; the schema elements are in [ParquetTree]. *)

From S2P Require Import Prelude.

Module ParquetNested.

(** ** Values, types and nodes *)

Inductive value :=
| VUndefined
| VNull
| VPrim (z : Z)
| VObject (props : list (jsstring * value))
| VArray (items : list value).

Section nested.
Context (prim : Type) (encode : prim -> value -> value).

Inductive Field := mkField (name : jsstring) (type : DataType) (nullable : bool)
with DataType :=
| Primitive (p : prim)
| Struct (children : list Field)
| ListOf (child : Field)
| MapOf (child : Field).

Inductive Node :=
| Leaf (name : jsstring) (nullable : bool) (defLevel repLevel : Z) (type : prim) (descriptor : nat)
| StructNode (name : jsstring) (nullable : bool) (defLevel repLevel : Z) (children : list Node)
| ListNode (name : jsstring) (nullable : bool) (defLevel repLevel : Z) (child : Node)
| MapNode (name : jsstring) (nullable : bool) (defLevel repLevel : Z) (entries : Node).

Definition node_name (n : Node) : jsstring :=
  match n with Leaf nm _ _ _ _ _ | StructNode nm _ _ _ _ | ListNode nm _ _ _ _ | MapNode nm _ _ _ _ => nm end.
Definition node_nullable (n : Node) : bool :=
  match n with Leaf _ b _ _ _ _ | StructNode _ b _ _ _ | ListNode _ b _ _ _ | MapNode _ b _ _ _ => b end.
Definition node_def (n : Node) : Z :=
  match n with Leaf _ _ d _ _ _ | StructNode _ _ d _ _ | ListNode _ _ d _ _ | MapNode _ _ d _ _ => d end.

(** [next] is the identity of the next descriptor. *)
Fixpoint buildNode (field : Field) (parentDef parentRep : Z) (next : nat) : Node * nat :=
  match field with
  | mkField name type nullable =>
      let defLevel := parentDef + Z.b2z nullable in
      match type with
      | Struct children =>
          let '(nodes, next) :=
            (fix go fs next :=
               match fs with
               | [] => ([], next)
               | f :: fs =>
                   let '(n, next) := buildNode f defLevel parentRep next in
                   let '(ns, next) := go fs next in
                   (n :: ns, next)
               end) children next in
          (StructNode name nullable defLevel parentRep nodes, next)
      | ListOf child =>
          let '(n, next) := buildNode child (defLevel + 1) (parentRep + 1) next in
          (ListNode name nullable defLevel (parentRep + 1) n, next)
      | MapOf child =>
          let '(n, next) := buildNode child (defLevel + 1) (parentRep + 1) next in
          (MapNode name nullable defLevel (parentRep + 1) n, next)
      | Primitive p => (Leaf name nullable defLevel parentRep p next, S next)
      end
  end.

Definition isNested (type : DataType) : bool :=
  match type with Struct _ | ListOf _ | MapOf _ => true | Primitive _ => false end.
(** One node per top-level field. *)
Fixpoint buildNodes (fields : list Field) (next : nat) : list Node * nat :=
  match fields with
  | [] => ([], next)
  | f :: fields =>
      let '(n, next) := buildNode f 0 0 next in
      let '(ns, next) := buildNodes fields next in
      (n :: ns, next)
  end.

Fixpoint collectLeaves (node : Node) : list nat :=
  match node with
  | Leaf _ _ _ _ _ descriptor => [descriptor]
  | StructNode _ _ _ _ children => concat (map collectLeaves children)
  | ListNode _ _ _ _ child | MapNode _ _ _ _ child => collectLeaves child
  end.

(** ** Shredding *)

Record LeafStream := { values : list value; defLevels : list Z; repLevels : list Z }.
Abbreviation streams := (gmap nat LeafStream).

Definition nullish (v : value) : bool := match v with VUndefined | VNull => true | _ => false end.
(** [streams.get(d)!] and the pushes on it. *)
Definition push_levels (descriptor : nat) (repLevel defLevel : Z) (v : option value) (st : streams) : res streams :=
  match st !! descriptor with
  | None => Throw (TypeError "cannot read properties of undefined")
  | Some s =>
      Ok (<[descriptor := {| values := values s ++ match v with Some v => [v] | None => [] end;
                             defLevels := defLevels s ++ [defLevel];
                             repLevels := repLevels s ++ [repLevel] |}]> st)
  end.
(** A loop over children or elements that threads the streams. *)
Fixpoint each {A} (f : A -> streams -> res streams) (l : list A) (st : streams) : res streams :=
  match l with
  | [] => Ok st
  | x :: l => st ← f x st; each f l st
  end.

Fixpoint emitAbsent (node : Node) (repLevel defLevel : Z) (st : streams) : res streams :=
  match node with
  | Leaf _ _ _ _ _ descriptor => push_levels descriptor repLevel defLevel None st
  | StructNode _ _ _ _ children => each (fun child => emitAbsent child repLevel defLevel) children st
  | ListNode _ _ _ _ child | MapNode _ _ _ _ child => emitAbsent child repLevel defLevel st
  end.

(** [obj[name] ?? null]: a value that is not an object has no such property. *)
Definition prop_or_null (v : value) (name : jsstring) : value :=
  match v with
  | VObject props => match JMap.get name props with Some VUndefined | None => VNull | Some x => x end
  | _ => VNull
  end.
(** [const [k, v] = entry], as the object that is shredded. *)
Definition entry_object (entry : value) : res value :=
  match entry with
  | VArray items =>
      Ok (VObject [(js "key", default VUndefined (items !! 0%nat)); (js "value", default VUndefined (items !! 1%nat))])
  | _ => Throw (TypeError "entry is not iterable")
  end.
(** [arr.length] and the elements; only arrays have a length. *)
Definition elements (v : value) : list value := match v with VArray items => items | _ => [] end.
Definition is_empty_array (v : value) : bool := match v with VArray [] => true | _ => false end.
(** The loop over the elements: the first has the repetition level of the
    list's own start, the others that of the list. *)
Definition each_element (f : value -> Z -> streams -> res streams) (repLevel listRep : Z) (items : list value)
  (st : streams) : res streams :=
  match items with
  | [] => Ok st
  | x :: items => st ← f x repLevel st; each (fun x => f x listRep) items st
  end.

Fixpoint shredValue (node : Node) (v : value) (repLevel defLevel : Z) (st : streams) : res streams :=
  match node with
  | Leaf _ _ nodeDef _ type descriptor =>
      if nullish v then push_levels descriptor repLevel defLevel None st
      else push_levels descriptor repLevel nodeDef (Some (encode type v)) st
  | StructNode _ _ nodeDef _ children =>
      if nullish v then emitAbsent node repLevel defLevel st
      else each (fun child => shredValue child (prop_or_null v (node_name child)) repLevel nodeDef) children st
  | ListNode _ _ nodeDef nodeRep child =>
      if nullish v then emitAbsent node repLevel defLevel st
      else if is_empty_array v then emitAbsent child repLevel nodeDef st
      else each_element (fun x rep => shredValue child x rep (nodeDef + 1)) repLevel nodeRep (elements v) st
  | MapNode _ _ nodeDef nodeRep entries =>
      if nullish v then emitAbsent node repLevel defLevel st
      else if is_empty_array v then emitAbsent entries repLevel nodeDef st
      else
        each_element (fun x rep st => e ← entry_object x; shredValue entries e rep (nodeDef + 1) st)
          repLevel nodeRep (elements v) st
  end.
Definition empty_stream : LeafStream := {| values := []; defLevels := []; repLevels := [] |}.
(** [rows] are the values of the column's vector; a descriptor without a stream
    would give [undefined]. *)
Definition shredColumn (node : Node) (rows : list value) : res (list (option LeafStream)) :=
  st ← each (fun row => shredValue node row 0 0) rows
         (list_to_map (map (fun d => (d, empty_stream)) (collectLeaves node)));
  Ok (map (fun d => st !! d) (collectLeaves node)).

(** ** Assembly *)

Record LeafCursor := { stream : LeafStream; vi : nat; li : nat }.
Abbreviation cursors := (gmap nat LeafCursor).

Fixpoint firstLeaf (node : Node) : res nat :=
  match node with
  | Leaf _ _ _ _ _ descriptor => Ok descriptor
  | StructNode _ _ _ _ (child :: _) => firstLeaf child
  | StructNode _ _ _ _ [] => Throw (TypeError "cannot read properties of undefined")
  | ListNode _ _ _ _ child | MapNode _ _ _ _ child => firstLeaf child
  end.
Definition cursor (descriptor : nat) (cs : cursors) : res LeafCursor :=
  match cs !! descriptor with Some c => Ok c | None => Throw (TypeError "cannot read properties of undefined") end.
(** The levels under the cursor; past the end they count as 0. *)
Definition peekDef (node : Node) (cs : cursors) : res Z :=
  d ← firstLeaf node; c ← cursor d cs; Ok (default 0 (defLevels (stream c) !! li c)).
Definition peekRep (node : Node) (cs : cursors) : res Z :=
  d ← firstLeaf node; c ← cursor d cs; Ok (default 0 (repLevels (stream c) !! li c)).

Fixpoint each_cursor {A} (f : A -> cursors -> res cursors) (l : list A) (cs : cursors) : res cursors :=
  match l with
  | [] => Ok cs
  | x :: l => cs ← f x cs; each_cursor f l cs
  end.
Definition advance (c : LeafCursor) : LeafCursor := {| stream := stream c; vi := vi c; li := S (li c) |}.
Fixpoint consumeAbsent (node : Node) (cs : cursors) : res cursors :=
  match node with
  | Leaf _ _ _ _ _ descriptor => c ← cursor descriptor cs; Ok (<[descriptor := advance c]> cs)
  | StructNode _ _ _ _ children => each_cursor consumeAbsent children cs
  | ListNode _ _ _ _ child | MapNode _ _ _ _ child => consumeAbsent child cs
  end.

(** The lines for a leaf. *)
Definition assembleLeaf (nodeDef : Z) (descriptor : nat) (cs : cursors) : res (value * cursors) :=
  c ← cursor descriptor cs;
  let c' := advance c in
  match defLevels (stream c) !! li c with
  | Some def =>
      if nodeDef <=? def then
        Ok (default VUndefined (values (stream c) !! vi c),
            <[descriptor := {| stream := stream c; vi := S (vi c); li := S (li c) |}]> cs)
      else Ok (VNull, <[descriptor := c']> cs)
  | None => Ok (VNull, <[descriptor := c']> cs)
  end.
(** The properties of a struct, child by child. *)
Fixpoint assemble_props (f : Node -> cursors -> res (value * cursors)) (children : list Node)
  (props : list (jsstring * value)) (cs : cursors) : res (value * cursors) :=
  match children with
  | [] => Ok (VObject props, cs)
  | child :: children =>
      '(v, cs) ← f child cs; assemble_props f children (JMap.set (node_name child) v props) cs
  end.
(** The elements of a list after the first: as long as the next entry of the
    first leaf repeats at the list's level. *)
Fixpoint assemble_more (f : cursors -> res (value * cursors)) (peek : cursors -> res Z) (nodeRep : Z) (fuel : nat)
  (arr : list value) (cs : cursors) : res (list value * cursors) :=
  rep ← peek cs;
  if nodeRep <=? rep then
    match fuel with
    | O => Throw Diverges
    | S fuel => '(v, cs) ← f cs; assemble_more f peek nodeRep fuel (arr ++ [v]) cs
    end
  else Ok (arr, cs).
(** The entries left in a stream bound the elements. *)
Definition entries_left (node : Node) (cs : cursors) : res nat :=
  d ← firstLeaf node; c ← cursor d cs; Ok (length (repLevels (stream c))).
(** [[e.key, e.value]] *)
Definition entry_pair (e : value) : res value :=
  match e with
  | VObject props =>
      Ok (VArray [default VUndefined (JMap.get (js "key") props); default VUndefined (JMap.get (js "value") props)])
  | VArray _ | VPrim _ => Ok (VArray [VUndefined; VUndefined])
  | VNull | VUndefined => Throw (TypeError "cannot read properties of null")
  end.

Fixpoint assembleValue (node : Node) (cs : cursors) : res (value * cursors) :=
  match node with
  | Leaf _ _ nodeDef _ _ descriptor => assembleLeaf nodeDef descriptor cs
  | StructNode _ _ nodeDef _ children =>
      def ← peekDef node cs;
      if def <? nodeDef then cs ← consumeAbsent node cs; Ok (VNull, cs)
      else assemble_props assembleValue children [] cs
  | ListNode _ _ nodeDef nodeRep child =>
      def ← peekDef node cs;
      if def <? nodeDef then cs ← consumeAbsent node cs; Ok (VNull, cs)
      else if def =? nodeDef then cs ← consumeAbsent child cs; Ok (VArray [], cs)
      else
        fuel ← entries_left child cs;
        '(first, cs) ← assembleValue child cs;
        '(arr, cs) ← assemble_more (assembleValue child) (peekRep child) nodeRep fuel [first] cs;
        Ok (VArray arr, cs)
  | MapNode _ _ nodeDef nodeRep entries =>
      def ← peekDef node cs;
      if def <? nodeDef then cs ← consumeAbsent node cs; Ok (VNull, cs)
      else if def =? nodeDef then cs ← consumeAbsent entries cs; Ok (VArray [], cs)
      else
        fuel ← entries_left entries cs;
        let entry cs := '(e, cs) ← assembleValue entries cs; p ← entry_pair e; Ok (p, cs) in
        '(first, cs) ← entry cs;
        '(arr, cs) ← assemble_more entry (peekRep entries) nodeRep fuel [first] cs;
        Ok (VArray arr, cs)
  end.
Fixpoint assemble_rows (node : Node) (numRows : nat) (rows : list value) (cs : cursors) : res (list value) :=
  match numRows with
  | O => Ok rows
  | S n => '(v, cs) ← assembleValue node cs; assemble_rows node n (rows ++ [v]) cs
  end.
(** The streams come in the order of the leaves. *)
Fixpoint new_cursors (leaves : list nat) (ss : list (option LeafStream)) (cs : cursors) : res cursors :=
  match leaves with
  | [] => Ok cs
  | d :: leaves =>
      match ss with
      | Some s :: ss => new_cursors leaves ss (<[d := {| stream := s; vi := 0; li := 0 |}]> cs)
      | _ => Throw (TypeError "cannot read properties of undefined")
      end
  end.
(** The rows that [assembleTree] builds its vector from. *)
Definition assembleTree (node : Node) (ss : list (option LeafStream)) (numRows : nat) : res (list value) :=
  cs ← new_cursors (collectLeaves node) ss ∅; assemble_rows node numRows [] cs.
(** ** Induction on nodes *)
Fixpoint Node_nested_ind (P : Node -> Prop)
  (Hleaf : forall nm b d r ty desc, P (Leaf nm b d r ty desc))
  (Hstruct : forall nm b d r children, Forall P children -> P (StructNode nm b d r children))
  (Hlist : forall nm b d r child, P child -> P (ListNode nm b d r child))
  (Hmap : forall nm b d r child, P child -> P (MapNode nm b d r child)) (n : Node) : P n :=
  let rec := Node_nested_ind P Hleaf Hstruct Hlist Hmap in
  match n with
  | Leaf nm b d r ty desc => Hleaf nm b d r ty desc
  | StructNode nm b d r children =>
      Hstruct nm b d r children
        ((fix go l : Forall P l := match l with [] => Forall_nil_2 P | x :: l => Forall_cons_2 P x l (rec x) (go l) end) children)
  | ListNode nm b d r child => Hlist nm b d r child (rec child)
  | MapNode nm b d r child => Hmap nm b d r child (rec child)
  end.

(** ** Specification *)

(** The levels that a node has below a parent, as [buildNode] assigns them. *)
Fixpoint node_ok (pd pr : Z) (n : Node) : Prop :=
  match n with
  | Leaf _ b d r _ _ => d = pd + Z.b2z b /\ r = pr
  | StructNode _ b d r children =>
      d = pd + Z.b2z b /\ r = pr /\ children <> [] /\ NoDup (map node_name children) /\
      (fix all l := match l with [] => True | c :: l => node_ok d pr c /\ all l end) children
  | ListNode _ b d r child => d = pd + Z.b2z b /\ r = pr + 1 /\ node_ok (d + 1) r child
  | MapNode _ b d r entries =>
      d = pd + Z.b2z b /\ r = pr + 1 /\ node_ok (d + 1) r entries /\
      match entries with
      | StructNode _ false _ _ children => map node_name children = [js "key"; js "value"]
      | _ => False
      end
  end.

(** The entry of a map as a value of its struct, and back. *)
Definition entry_of (x : value) : value := match entry_object x with Ok e => e | Throw _ => VNull end.
Definition pair_of (e : value) : value := match entry_pair e with Ok p => p | Throw _ => VNull end.

(** The values of a node's type: [null] where the node is nullable, objects
    with the properties of a struct, arrays, arrays of pairs. *)
Fixpoint fits (n : Node) (v : value) : Prop :=
  (v = VNull /\ node_nullable n = true) \/
  match n, v with
  | Leaf _ _ _ _ _ _, _ => nullish v = false
  | StructNode _ _ _ _ children, VObject props =>
      (fix all cs ps :=
         match cs, ps with
         | [], [] => True
         | c :: cs, (k, x) :: ps => k = node_name c /\ fits c x /\ all cs ps
         | _, _ => False
         end) children props
  | ListNode _ _ _ _ child, VArray items => (fix all l := match l with [] => True | x :: l => fits child x /\ all l end) items
  | MapNode _ _ _ _ entries, VArray items =>
      (fix all l :=
         match l with
         | [] => True
         | x :: l => (exists a b, x = VArray [a; b]) /\ fits entries (entry_of x) /\ all l
         end) items
  | _, _ => False
  end.

(** What comes back: the values with their leaves in encoded form. *)
Fixpoint encoded (n : Node) (v : value) : value :=
  if nullish v then VNull
  else
    match n, v with
    | Leaf _ _ _ _ ty _, _ => encode ty v
    | StructNode _ _ _ _ children, VObject props =>
        VObject ((fix all cs ps :=
           match cs, ps with c :: cs, (k, x) :: ps => (k, encoded c x) :: all cs ps | _, _ => [] end) children props)
    | ListNode _ _ _ _ child, VArray items => VArray (map (encoded child) items)
    | MapNode _ _ _ _ entries, VArray items => VArray (map (fun x => pair_of (encoded entries (entry_of x))) items)
    | _, _ => v
    end.

(** The entries of a leaf: repetition level, definition level, value. *)
Record entry := { e_rep : Z; e_def : Z; e_val : option value }.
Fixpoint absent (n : Node) (rep def : Z) (id : nat) : list entry :=
  match n with
  | Leaf _ _ _ _ _ desc => if decide (id = desc) then [{| e_rep := rep; e_def := def; e_val := None |}] else []
  | StructNode _ _ _ _ children => concat (map (fun c => absent c rep def id) children)
  | ListNode _ _ _ _ child | MapNode _ _ _ _ child => absent child rep def id
  end.
(** The entries of consecutive elements: the first at the repetition level
    [rep], the others at the list's. *)
Definition repeated (f : value -> Z -> list entry) (rep listRep : Z) (xs : list value) : list entry :=
  match xs with [] => [] | x :: xs => f x rep ++ concat (map (fun x => f x listRep) xs) end.
Fixpoint out (n : Node) (v : value) (rep def : Z) (id : nat) : list entry :=
  match n with
  | Leaf _ _ d _ ty desc =>
      if decide (id = desc) then
        [if nullish v then {| e_rep := rep; e_def := def; e_val := None |}
         else {| e_rep := rep; e_def := d; e_val := Some (encode ty v) |}]
      else []
  | StructNode _ _ d _ children =>
      if nullish v then absent n rep def id
      else concat (map (fun c => out c (prop_or_null v (node_name c)) rep d id) children)
  | ListNode _ _ d r child =>
      if nullish v then absent n rep def id
      else if is_empty_array v then absent child rep d id
      else repeated (fun x rep => out child x rep (d + 1) id) rep r (elements v)
  | MapNode _ _ d r entries =>
      if nullish v then absent n rep def id
      else if is_empty_array v then absent entries rep d id
      else repeated (fun x rep => out entries x rep (d + 1) id) rep r (map entry_of (elements v))
  end.

(** ** Shredding writes the entries *)
Definition append (es : list entry) (s : LeafStream) : LeafStream :=
  {| values := values s ++ omap e_val es; defLevels := defLevels s ++ map e_def es;
     repLevels := repLevels s ++ map e_rep es |}.
(** [st'] is [st] with entries appended to the streams of [ids]. *)
Definition appended (st st' : streams) (es : nat -> list entry) : Prop := forall id, st' !! id = append (es id) <$> st !! id.
Definition has_leaves (n : Node) (st : streams) : Prop := Forall (fun id => is_Some (st !! id)) (collectLeaves n).

Lemma append_nil s : append [] s = s.
Proof. destruct s. unfold append. cbn. by rewrite !app_nil_r. Qed.
Lemma append_app a b s : append (a ++ b) s = append b (append a s).
Proof. unfold append. cbn. by rewrite omap_app, !map_app, !app_assoc. Qed.

Lemma appended_refl st : appended st st (fun _ => []).
Proof. intros id. destruct (st !! id); cbn; by rewrite ?append_nil. Qed.
Lemma appended_trans st st' st'' es es' :
  appended st st' es -> appended st' st'' es' -> appended st st'' (fun id => es id ++ es' id).
Proof. intros H H' id. rewrite H', H. destruct (st !! id); cbn; [by rewrite append_app|done]. Qed.
Lemma appended_some st st' es id : appended st st' es -> is_Some (st !! id) -> is_Some (st' !! id).
Proof. intros H [s E]. rewrite H, E. by eexists. Qed.
Lemma has_leaves_appended n st st' es : appended st st' es -> has_leaves n st -> has_leaves n st'.
Proof. intros H Hs. eapply Forall_impl; [exact Hs|]. intros id. by eapply appended_some. Qed.

Lemma push_appended desc rep def v st :
  is_Some (st !! desc) ->
  exists st', push_levels desc rep def v st = Ok st' /\
    appended st st' (fun id => if decide (id = desc) then [{| e_rep := rep; e_def := def; e_val := v |}] else []).
Proof.
  intros [s E]. unfold push_levels. rewrite E. eexists. split; [done|]. intros id.
  destruct (decide (id = desc)) as [->|Hne].
  - rewrite lookup_insert_eq, E. done.
  - rewrite lookup_insert_ne by congruence. destruct (st !! id); cbn; by rewrite ?append_nil.
Qed.

(** A loop appends what its rounds append, one after the other. *)
Lemma each_appended {A} (ok : streams -> Prop) (f : A -> streams -> res streams) (es : A -> nat -> list entry) l :
  (forall st st' e, appended st st' e -> ok st -> ok st') ->
  Forall (fun x => forall st, ok st -> exists st', f x st = Ok st' /\ appended st st' (es x)) l ->
  forall st, ok st -> exists st', each f l st = Ok st' /\ appended st st' (fun id => concat (map (fun x => es x id) l)).
Proof.
  intros Hok. induction 1 as [|x l Hx Hl IH]; intros st Hst; cbn [each].
  - exists st. split; [done|apply appended_refl].
  - destruct (Hx st Hst) as (st1 & -> & A1). cbn [mbind res_bind].
    destruct (IH st1) as (st2 & E & A2); [by eapply Hok|]. exists st2. split; [done|]. by eapply appended_trans.
Qed.

Lemma has_leaves_child nm b d r children c st :
  has_leaves (StructNode nm b d r children) st -> c ∈ children -> has_leaves c st.
Proof.
  unfold has_leaves. cbn. rewrite !Forall_forall. intros H Hc id Hid. apply H.
  apply list_elem_of_In, in_concat. exists (collectLeaves c). split; [apply in_map|]; by apply list_elem_of_In.
Qed.

Lemma absent_appended n rep def : forall st, has_leaves n st ->
  exists st', emitAbsent n rep def st = Ok st' /\ appended st st' (absent n rep def).
Proof.
  induction n as [nm b d r ty desc|nm b d r children IH|nm b d r child IH|nm b d r child IH] using Node_nested_ind;
    intros st Hst; cbn [emitAbsent].
  - apply push_appended. unfold has_leaves in Hst. cbn in Hst. by rewrite Forall_singleton in Hst.
  - apply (each_appended (has_leaves (StructNode nm b d r children))); [intros; by eapply has_leaves_appended| |done].
    rewrite Forall_forall in IH |- *. intros c Hc st' Hst'. apply IH; [done|]. by eapply has_leaves_child.
  - apply IH. done.
  - apply IH. done.
Qed.
Lemma entry_of_pair a b : entry_of (VArray [a; b]) = VObject [(js "key", a); (js "value", b)].
Proof. reflexivity. Qed.

Lemma fits_list nm b d r child items :
  fits (ListNode nm b d r child) (VArray items) <-> Forall (fits child) items.
Proof.
  cbn. split.
  - intros [[? _]|H]; [done|]. induction items as [|x items IH]; [constructor|]. destruct H. constructor; auto.
  - intros H. right. induction H; auto.
Qed.
Lemma fits_map nm b d r entries items :
  fits (MapNode nm b d r entries) (VArray items) <->
  Forall (fun x => (exists a b, x = VArray [a; b]) /\ fits entries (entry_of x)) items.
Proof.
  cbn. split.
  - intros [[? _]|H]; [done|]. induction items as [|x items IH]; [constructor|]. destruct H as (? & ? & ?). constructor; auto.
  - intros H. right. induction H as [|x items [? ?] _ IH]; auto.
Qed.
Lemma fits_struct nm b d r children props :
  fits (StructNode nm b d r children) (VObject props) <->
  Forall2 (fun c p => p.1 = node_name c /\ fits c p.2) children props.
Proof.
  cbn. split.
  - intros [[? _]|H]; [done|]. revert props H. induction children as [|c cs IH]; intros [|[k x] ps] H; try done.
    destruct H as (-> & ? & ?). constructor; auto.
  - intros H. right. induction H as [|c [k x] cs ps [? ?] _ IH]; auto.
Qed.

Lemma get_prop (children : list Node) props :
  NoDup (map node_name children) -> Forall2 (fun c p => p.1 = node_name c /\ fits c p.2) children props ->
  Forall2 (fun c p => JMap.get (node_name c) props = Some p.2) children props.
Proof.
  intros Hnd H. assert (Hk : JMap.keys props = map node_name children).
  { induction H as [|c p cs ps [E _] _ IH]; [done|]. cbn in *. rewrite E. f_equal. apply IH. by apply NoDup_cons in Hnd as [_ ?]. }
  apply Forall2_same_length_lookup_2; [by eapply Forall2_length|]. intros i c [k x] Hc Hp.
  pose proof (Forall2_lookup_lr _ _ _ _ _ _ H Hc Hp) as [E _]. cbn in E |- *. subst k.
  apply JMap.elem_get; [by rewrite Hk|]. by eapply list_elem_of_lookup_2.
Qed.

Lemma fits_defined n v : fits n v -> v <> VUndefined.
Proof. destruct n, v; cbn; intros [[? ?]|?]; done. Qed.

(** The properties of a struct value are those of its children, in order. *)
Lemma struct_props nm b d r children props (prop := fun c => prop_or_null (VObject props) (node_name c)) :
  NoDup (map node_name children) -> fits (StructNode nm b d r children) (VObject props) ->
  props = map (fun c => (node_name c, prop c)) children /\ Forall (fun c => fits c (prop c)) children.
Proof.
  intros Hnd Hf. apply fits_struct in Hf. pose proof (get_prop _ _ Hnd Hf) as G.
  assert (P : Forall2 (fun c p => p = (node_name c, prop c) /\ fits c (prop c)) children props).
  { apply Forall2_same_length_lookup_2; [by eapply Forall2_length|]. intros i c [k x] Hc Hp.
    destruct (Forall2_lookup_lr _ _ _ _ _ _ Hf Hc Hp) as [E F]. pose proof (Forall2_lookup_lr _ _ _ _ _ _ G Hc Hp) as Ex.
    cbn in E, F, Ex. assert (prop c = x) as ->; [|by subst]. subst prop. cbn. rewrite Ex.
    pose proof (fits_defined _ _ F). by destruct x. }
  clearbody prop. clear Hf G Hnd. split.
  - induction P as [|c p cs ps [-> _] _ IH]; [done|]. cbn. f_equal. done.
  - by induction P as [|c p cs ps [_ F] _ IH]; constructor.
Qed.
Lemma node_ok_struct pd pr nm b d r children :
  node_ok pd pr (StructNode nm b d r children) <->
  d = pd + Z.b2z b /\ r = pr /\ children <> [] /\ NoDup (map node_name children) /\ Forall (node_ok d pr) children.
Proof.
  cbn. split; intros (? & ? & ? & ? & H); split_and!; try done.
  - clear -H. induction children as [|c cs IH]; [constructor|]. destruct H. constructor; auto.
  - clear -H. by induction H.
Qed.

(** The loop over the elements of a list. *)
Lemma elements_appended (ok : streams -> Prop) (f : value -> Z -> streams -> res streams)
  (es : value -> Z -> nat -> list entry) (g : value -> value) rep listRep items :
  (forall st st' e, appended st st' e -> ok st -> ok st') ->
  Forall (fun x => forall rep st, ok st -> exists st', f x rep st = Ok st' /\ appended st st' (es (g x) rep)) items ->
  forall st, ok st -> exists st', each_element f rep listRep items st = Ok st' /\
    appended st st' (fun id => repeated (fun x rep => es x rep id) rep listRep (map g items)).
Proof.
  intros Hok Hall st Hst. destruct items as [|x items]; cbn [each_element].
  - exists st. split; [done|apply appended_refl].
  - apply Forall_cons in Hall as [Hx Hall]. destruct (Hx rep st Hst) as (st1 & -> & A1). cbn [mbind res_bind].
    destruct (each_appended ok (fun x => f x listRep) (fun x => es (g x) listRep) items Hok) with (st := st1) as (st2 & E & A2).
    + eapply Forall_impl; [exact Hall|]. intros y Hy st' Hst'. by apply Hy.
    + by eapply Hok.
    + exists st2. split; [done|]. pose proof (appended_trans _ _ _ _ _ A1 A2) as A. intros id. rewrite (A id).
      cbn [map repeated]. by rewrite map_map.
Qed.

Lemma nullish_fits n v : fits n v -> nullish v = true -> v = VNull /\ node_nullable n = true.
Proof. intros F N. destruct v; try done; [by apply fits_defined in F|]. destruct n; cbn in *; destruct F as [?|?]; done. Qed.

Lemma shred_appended n : forall pd pr v rep def st,
  node_ok pd pr n -> fits n v -> has_leaves n st ->
  exists st', shredValue n v rep def st = Ok st' /\ appended st st' (out n v rep def).
Proof.
  induction n as [nm b d r ty desc|nm b d r children IH|nm b d r child IH|nm b d r child IH] using Node_nested_ind;
    intros pd pr v rep def st Hok Hf Hst; cbn [shredValue out]; destruct (nullish v) eqn:Nv.
  - apply (absent_appended (Leaf nm b d r ty desc)). done.
  - apply push_appended. unfold has_leaves in Hst. cbn in Hst. by rewrite Forall_singleton in Hst.
  - by apply (absent_appended (StructNode nm b d r children)).
  - apply node_ok_struct in Hok as (_ & _ & _ & Hnd & Hch). destruct v as [| | |props|]; try (destruct Hf as [[? ?]|?]; done).
    destruct (struct_props _ _ _ _ _ _ Hnd Hf) as [_ Hfs].
    apply (each_appended (has_leaves (StructNode nm b d r children))
      (fun child => shredValue child (prop_or_null (VObject props) (node_name child)) rep d)
      (fun child => out child (prop_or_null (VObject props) (node_name child)) rep d));
      [intros; by eapply has_leaves_appended| |done].
    rewrite Forall_forall in IH, Hch, Hfs |- *. intros c Hc st' Hst'.
    eapply IH; [done|by apply Hch|by apply Hfs|by eapply has_leaves_child].
  - by apply (absent_appended (ListNode nm b d r child)).
  - destruct v as [| | | |items]; try (destruct Hf as [[? ?]|?]; done). destruct Hok as (_ & _ & Hok).
    apply fits_list in Hf. destruct (is_empty_array (VArray items)); [by apply absent_appended|]. cbn [elements].
    destruct (elements_appended (has_leaves child) (fun x rep => shredValue child x rep (d + 1))
      (fun x rep => out child x rep (d + 1)) (fun x => x) rep r items) with (st := st) as (st' & E & A);
      [intros; by eapply has_leaves_appended| |done|].
    + eapply Forall_impl; [exact Hf|]. intros x Hx rep' st' Hst'. by eapply IH.
    + exists st'. rewrite map_id in A. done.
  - by apply (absent_appended (MapNode nm b d r child)).
  - destruct v as [| | | |items]; try (destruct Hf as [[? ?]|?]; done). destruct Hok as (_ & _ & Hok & _).
    apply fits_map in Hf. destruct (is_empty_array (VArray items)); [by apply absent_appended|]. cbn [elements].
    apply (elements_appended (has_leaves child) _ (fun x rep => out child x rep (d + 1)) entry_of);
      [intros; by eapply has_leaves_appended| |done].
    eapply Forall_impl; [exact Hf|]. intros x [(a & b' & ->) Hx] rep' st' Hst'. cbn [entry_object mbind res_bind].
    by eapply IH.
Qed.
(** ** The entries of a leaf *)
Fixpoint leaf_defs (n : Node) : list (nat * Z) :=
  match n with
  | Leaf _ _ d _ _ desc => [(desc, d)]
  | StructNode _ _ _ _ children => concat (map leaf_defs children)
  | ListNode _ _ _ _ child | MapNode _ _ _ _ child => leaf_defs child
  end.

Lemma leaf_defs_ids n : map fst (leaf_defs n) = collectLeaves n.
Proof.
  induction n as [| nm b d r children IH| |] using Node_nested_ind; cbn; try done.
  induction IH as [|c cs E _ IH']; [done|]. cbn. by rewrite map_app, E, IH'.
Qed.
Lemma leaf_defs_elem n id m : (id, m) ∈ leaf_defs n -> id ∈ collectLeaves n.
Proof. intros H. rewrite <- leaf_defs_ids. apply list_elem_of_In, in_map_iff. exists (id, m). split; [done|by apply list_elem_of_In]. Qed.

Lemma elem_of_children (f : Node -> list nat) children id : id ∈ concat (map f children) <-> exists c, c ∈ children /\ id ∈ f c.
Proof.
  rewrite list_elem_of_In, in_concat. split.
  - intros (l & Hl & Hi). apply in_map_iff in Hl as (c & <- & Hc). exists c. by rewrite !list_elem_of_In.
  - intros (c & Hc & Hi). exists (f c). rewrite <- !list_elem_of_In in *. split; [|done].
    apply list_elem_of_In, in_map. by apply list_elem_of_In.
Qed.

(** The entries that the children of a struct contribute to a leaf are those
    of the child that has the leaf. *)
Lemma concat_child {B} (f : Node -> list B) children c id :
  NoDup (concat (map collectLeaves children)) -> c ∈ children -> id ∈ collectLeaves c ->
  (forall c', c' ∈ children -> id ∉ collectLeaves c' -> f c' = []) -> concat (map f children) = f c.
Proof.
  induction children as [|x cs IH]; intros Hnd Hc Hid Hf; [by apply not_elem_of_nil in Hc|]. cbn in *.
  apply NoDup_app in Hnd as (_ & Hd & Hnd). apply elem_of_cons in Hc as [->|Hc].
  - replace (concat (map f cs)) with (@nil B); [by rewrite app_nil_r|]. symmetry. apply concat_nil_Forall.
    apply List.Forall_forall. intros l Hl. apply in_map_iff in Hl as (c' & <- & Hc'). apply list_elem_of_In in Hc'.
    apply Hf; [by right|]. intros Hi. apply (Hd id Hid). apply elem_of_children. by exists c'.
  - rewrite (Hf x); [|left|intros Hx; apply (Hd id Hx), elem_of_children; by exists c].
    apply IH; [done..|]. intros c' Hc' Hi. apply Hf; [by right|done].
Qed.
Lemma concat_none {B} (f : Node -> list B) children id :
  id ∉ concat (map collectLeaves children) -> (forall c', c' ∈ children -> id ∉ collectLeaves c' -> f c' = []) ->
  concat (map f children) = [].
Proof.
  intros Hid Hf. apply concat_nil_Forall, List.Forall_forall. intros l Hl. apply in_map_iff in Hl as (c' & <- & Hc').
  apply list_elem_of_In in Hc'. apply Hf; [done|]. intros Hi. apply Hid, elem_of_children. by exists c'.
Qed.

Lemma absent_notin n rep def id : id ∉ collectLeaves n -> absent n rep def id = [].
Proof.
  induction n as [nm b d r ty desc|nm b d r children IH|nm b d r child IH|nm b d r child IH] using Node_nested_ind; cbn; intros Hid; auto.
  - rewrite list_elem_of_singleton in Hid. by rewrite decide_False.
  - rewrite Forall_forall in IH. apply (concat_none _ _ id Hid). intros c Hc Hi. by apply IH.
Qed.
Lemma repeated_nil f rep r xs : (forall x rep, x ∈ xs -> f x rep = []) -> repeated f rep r xs = [].
Proof.
  intros H. destruct xs as [|x xs]; [done|]. cbn. rewrite H by left. apply concat_nil_Forall, List.Forall_forall.
  intros l Hl. apply in_map_iff in Hl as (y & <- & Hy). apply H. right. by apply list_elem_of_In.
Qed.
Lemma out_notin n : forall v rep def id, id ∉ collectLeaves n -> out n v rep def id = [].
Proof.
  induction n as [nm b d r ty desc|nm b d r children IH|nm b d r child IH|nm b d r child IH] using Node_nested_ind;
    intros v rep def id Hid; cbn [out]; try destruct (nullish v);
    try (by apply (absent_notin (StructNode nm b d r children))); try (by apply (absent_notin (ListNode nm b d r child))).
  1,2: cbn in Hid; rewrite list_elem_of_singleton in Hid; by rewrite decide_False.
  - rewrite Forall_forall in IH. apply (concat_none _ _ id Hid). intros c Hc Hi. by apply IH.
  - destruct (is_empty_array v); [by apply absent_notin|]. apply repeated_nil. intros. by apply IH.
  - destruct (is_empty_array v); [by apply absent_notin|]. apply repeated_nil. intros. by apply IH.
Qed.

Lemma NoDup_child children c : NoDup (concat (map collectLeaves children)) -> c ∈ children -> NoDup (collectLeaves c).
Proof.
  induction children as [|x cs IH]; intros Hnd Hc; [by apply not_elem_of_nil in Hc|]. cbn in Hnd.
  apply NoDup_app in Hnd as (Hx & _ & Hnd). apply elem_of_cons in Hc as [->|Hc]; [done|auto].
Qed.

Lemma absent_in n rep def id :
  NoDup (collectLeaves n) -> id ∈ collectLeaves n -> absent n rep def id = [{| e_rep := rep; e_def := def; e_val := None |}].
Proof.
  induction n as [nm b d r ty desc|nm b d r children IH|nm b d r child IH|nm b d r child IH] using Node_nested_ind;
    cbn; intros Hnd Hid; auto.
  - apply list_elem_of_singleton in Hid. by rewrite decide_True.
  - pose proof Hid as Hc. apply elem_of_children in Hc as (c & Hc & Hi). rewrite Forall_forall in IH.
    rewrite (concat_child _ children c id) by (done || intros; by apply absent_notin).
    apply IH; [done|by eapply NoDup_child|done].
Qed.
Lemma node_ok_def pd pr n : node_ok pd pr n -> node_def n = pd + Z.b2z (node_nullable n).
Proof. destruct n; cbn; tauto. Qed.

(** The first entry of every leaf: its repetition level is the one given, and
    its definition level tells a null, an empty list and a value apart. *)
Lemma out_head n : forall pd pr v rep id,
  node_ok pd pr n -> NoDup (collectLeaves n) -> fits n v -> id ∈ collectLeaves n ->
  exists e es, out n v rep pd id = e :: es /\ e_rep e = rep /\ (if nullish v then e_def e = pd else node_def n <= e_def e).
Proof.
  induction n as [nm b d r ty desc|nm b d r children IH|nm b d r child IH|nm b d r child IH] using Node_nested_ind;
    intros pd pr v rep id Hok Hnd Hf Hid; cbn [out].
  1: { cbn in Hid. apply list_elem_of_singleton in Hid. rewrite decide_True by done.
       do 2 eexists. split; [done|]. destruct (nullish v); cbn; split; try done; lia. }
  all: destruct (nullish v) eqn:Nv; [rewrite absent_in by done; by do 2 eexists|].
  - apply node_ok_struct in Hok as (Ed & _ & _ & Hn & Hch). destruct v as [| | |props|]; try (destruct Hf as [[? ?]|?]; done).
    destruct (struct_props _ _ _ _ _ _ Hn Hf) as [_ Hfs]. apply elem_of_children in Hid as (c & Hc & Hid).
    rewrite Forall_forall in IH, Hch, Hfs.
    rewrite (concat_child (fun c => out c (prop_or_null (VObject props) (node_name c)) rep d id) children c id)
      by (done || intros; by apply out_notin).
    destruct (IH c Hc d pr _ rep id (Hch c Hc) (NoDup_child _ _ Hnd Hc) (Hfs c Hc) Hid) as (e & es & -> & Er & Edf).
    exists e, es. split_and!; [done|done|]. cbn. pose proof (node_ok_def _ _ _ (Hch c Hc)).
    cbn in Ed. destruct (nullish (prop_or_null _ _)), (node_nullable c); cbn in *; lia.
  - destruct v as [| | | |items]; try (destruct Hf as [[? ?]|?]; done). destruct Hok as (Ed & Er' & Hok).
    apply fits_list in Hf. destruct items as [|x items]; cbn [is_empty_array elements].
    + rewrite absent_in by done. do 2 eexists. split_and!; [done|done|]. cbn. lia.
    + apply Forall_cons in Hf as [Hx _]. destruct (IH (d + 1) r x rep id Hok Hnd Hx Hid) as (e & es & E & Er & Edf).
      cbn [repeated]. rewrite E. do 2 eexists. split_and!; [done|done|]. cbn. pose proof (node_ok_def _ _ _ Hok).
      destruct (nullish x), (node_nullable child); cbn in *; lia.
  - destruct v as [| | | |items]; try (destruct Hf as [[? ?]|?]; done). destruct Hok as (Ed & Er' & Hok & _).
    apply fits_map in Hf. destruct items as [|x items]; cbn [is_empty_array elements map].
    + rewrite absent_in by done. do 2 eexists. split_and!; [done|done|]. cbn. lia.
    + apply Forall_cons in Hf as [[_ Hx] _]. destruct (IH (d + 1) r _ rep id Hok Hnd Hx Hid) as (e & es & E & Er & Edf).
      cbn [repeated]. rewrite E. do 2 eexists. split_and!; [done|done|]. cbn. pose proof (node_ok_def _ _ _ Hok).
      destruct (nullish (entry_of x)), (node_nullable child); cbn in *; lia.
Qed.

(** A leaf has a value exactly at its own definition level. *)
Definition flagged (m : Z) (e : entry) : Prop := is_Some (e_val e) <-> m <= e_def e.

Lemma leaf_defs_child children id m :
  (id, m) ∈ concat (map leaf_defs children) -> exists c, c ∈ children /\ (id, m) ∈ leaf_defs c.
Proof.
  rewrite list_elem_of_In, in_concat. intros (l & Hl & Hin). apply in_map_iff in Hl as (c & <- & Hc).
  exists c. by rewrite !list_elem_of_In.
Qed.

Lemma leaf_defs_ge n : forall pd pr id m, node_ok pd pr n -> (id, m) ∈ leaf_defs n -> node_def n <= m.
Proof.
  induction n as [nm b d r ty desc|nm b d r children IH|nm b d r child IH|nm b d r child IH] using Node_nested_ind;
    intros pd pr id m Hok Hin; cbn [node_def].
  - cbn in Hin. apply list_elem_of_singleton in Hin. injection Hin as -> ->. lia.
  - apply node_ok_struct in Hok as (Ed & _ & _ & _ & Hch). cbn in Hin.
    apply leaf_defs_child in Hin as (c & Hc & Hin). rewrite Forall_forall in IH, Hch. specialize (IH c Hc d pr id m (Hch c Hc) Hin).
    pose proof (node_ok_def _ _ _ (Hch c Hc)). destruct (node_nullable c); cbn in *; lia.
  - destruct Hok as (_ & _ & Hok). specialize (IH _ _ id m Hok Hin). pose proof (node_ok_def _ _ _ Hok).
    destruct (node_nullable child); cbn in *; lia.
  - destruct Hok as (_ & _ & Hok & _). specialize (IH _ _ id m Hok Hin). pose proof (node_ok_def _ _ _ Hok).
    destruct (node_nullable child); cbn in *; lia.
Qed.

Lemma absent_flagged n rep def id m : def < m -> Forall (flagged m) (absent n rep def id).
Proof.
  intros H. induction n as [nm b d r ty desc|nm b d r children IH|nm b d r child IH|nm b d r child IH] using Node_nested_ind; cbn; auto.
  - destruct (decide _); repeat constructor; cbn; [by intros [? ?]|lia].
  - apply Forall_concat. rewrite Forall_map. done.
Qed.

Lemma repeated_Forall (P : entry -> Prop) f rep r xs :
  Forall (fun x => forall rep, Forall P (f x rep)) xs -> Forall P (repeated f rep r xs).
Proof.
  destruct xs as [|x xs]; cbn; [constructor|]. intros H. apply Forall_cons in H as [Hx H]. apply Forall_app. split; [done|].
  apply Forall_concat. rewrite Forall_map. eapply Forall_impl; [exact H|]. auto.
Qed.

Lemma out_flagged n : forall pd pr v rep id m,
  node_ok pd pr n -> fits n v -> (id, m) ∈ leaf_defs n -> NoDup (collectLeaves n) -> Forall (flagged m) (out n v rep pd id).
Proof.
  induction n as [nm b d r ty desc|nm b d r children IH|nm b d r child IH|nm b d r child IH] using Node_nested_ind;
    intros pd pr v rep id m Hok Hf Hin Hnd; cbn [out].
  1: { cbn in Hin. apply list_elem_of_singleton in Hin. injection Hin as -> ->. rewrite decide_True by done. destruct Hok as [-> _].
       destruct (nullish v) eqn:Nv; repeat constructor; cbn; try (by intros [? ?]); try by eexists.
       destruct (nullish_fits _ _ Hf Nv) as [_ Hb]. cbn in Hb. subst b. cbn. lia. }
  all: destruct (nullish v) eqn:Nv;
    [apply absent_flagged; destruct (nullish_fits _ _ Hf Nv) as [_ Hb]; pose proof (leaf_defs_ge _ _ _ _ _ Hok Hin);
     pose proof (node_ok_def _ _ _ Hok) as Hd; rewrite Hb in Hd; cbn in *; lia|].
  - apply node_ok_struct in Hok as (Ed & _ & _ & Hn & Hch). destruct v as [| | |props|]; try (destruct Hf as [[? ?]|?]; done).
    destruct (struct_props _ _ _ _ _ _ Hn Hf) as [_ Hfs]. apply leaf_defs_child in Hin as (c & Hc & Hin).
    rewrite Forall_forall in IH, Hch, Hfs. pose proof (leaf_defs_elem _ _ _ Hin).
    rewrite (concat_child (fun c => out c (prop_or_null (VObject props) (node_name c)) rep d id) children c id)
      by (done || intros; by apply out_notin).
    eapply IH; [done|by apply Hch|by apply Hfs|done|by eapply NoDup_child].
  - destruct v as [| | | |items]; try (destruct Hf as [[? ?]|?]; done). destruct Hok as (Ed & Er' & Hok).
    apply fits_list in Hf. pose proof (leaf_defs_ge _ _ _ _ _ Hok Hin). pose proof (node_ok_def _ _ _ Hok).
    destruct (is_empty_array _); [apply absent_flagged; destruct (node_nullable child); cbn in *; lia|].
    apply repeated_Forall. eapply Forall_impl; [exact Hf|]. intros x Hx rep'. by eapply IH.
  - destruct v as [| | | |items]; try (destruct Hf as [[? ?]|?]; done). destruct Hok as (Ed & Er' & Hok & _).
    apply fits_map in Hf. pose proof (leaf_defs_ge _ _ _ _ _ Hok Hin). pose proof (node_ok_def _ _ _ Hok).
    destruct (is_empty_array _); [apply absent_flagged; destruct (node_nullable child); cbn in *; lia|].
    apply repeated_Forall. rewrite Forall_map. eapply Forall_impl; [exact Hf|]. intros x [_ Hx] rep'. by eapply IH.
Qed.
(** ** Cursors *)

(** The entries that are left under a cursor. *)
Record at_cursor (m : Z) (c : LeafCursor) (es : list entry) : Prop := {
  at_defs : drop (li c) (defLevels (stream c)) = map e_def es;
  at_reps : drop (li c) (repLevels (stream c)) = map e_rep es;
  at_values : drop (vi c) (values (stream c)) = omap e_val es;
  at_flags : Forall (flagged m) es;
}.
Definition tracks (n : Node) (cs : cursors) (E : nat -> list entry) : Prop :=
  Forall (fun '(id, m) => exists c, cs !! id = Some c /\ at_cursor m c (E id)) (leaf_defs n).
Definition frame (ids : list nat) (cs cs' : cursors) : Prop := forall id, id ∉ ids -> cs' !! id = cs !! id.

Lemma frame_trans a b cs cs' cs'' : frame a cs cs' -> frame b cs' cs'' -> frame (a ++ b) cs cs''.
Proof. intros H H' id Hid. rewrite elem_of_app in Hid. rewrite H', H by tauto. done. Qed.

Lemma tracks_frame n ids cs cs' E :
  (forall id, id ∈ collectLeaves n -> id ∉ ids) -> frame ids cs cs' -> tracks n cs E -> tracks n cs' E.
Proof.
  intros Hd Hf. unfold tracks. rewrite !Forall_forall. intros H [id m] Hin. destruct (H _ Hin) as (c & Ec & A).
  exists c. split; [|done]. rewrite Hf; [done|]. apply Hd. by eapply leaf_defs_elem.
Qed.
Lemma tracks_ext n cs E E' : (forall id, id ∈ collectLeaves n -> E id = E' id) -> tracks n cs E -> tracks n cs E'.
Proof.
  intros HE. unfold tracks. rewrite !Forall_forall. intros H [id m] Hin. destruct (H _ Hin) as (c & Ec & A).
  exists c. rewrite <- HE; [done|]. by eapply leaf_defs_elem.
Qed.
Lemma tracks_struct nm b d r children cs E :
  tracks (StructNode nm b d r children) cs E <-> Forall (fun c => tracks c cs E) children.
Proof.
  unfold tracks. cbn. induction children as [|c cs' IH]; cbn; [by split; constructor|].
  rewrite Forall_app, Forall_cons, IH. done.
Qed.

Lemma drop_cons_tail {A} k (l : list A) x t : drop k l = x :: t -> l !! k = Some x /\ drop (S k) l = t.
Proof.
  intros H. split; [|by rewrite <- Nat.add_1_r, <- drop_drop, H].
  rewrite <- (Nat.add_0_r k), <- lookup_drop, H. done.
Qed.
Lemma at_cursor_next m c e es :
  at_cursor m c (e :: es) -> at_cursor m {| stream := stream c; vi := vi c + length (omap e_val [e]); li := S (li c) |} es.
Proof.
  intros [H1 H2 H3 H4]. apply Forall_cons in H4 as [_ H4]. split; cbn [stream vi li]; [..|done].
  - by apply drop_cons_tail in H1 as [_ ?].
  - by apply drop_cons_tail in H2 as [_ ?].
  - rewrite <- drop_drop, H3. cbn. destruct (e_val e); done.
Qed.

(** The levels under the cursor of a node. *)
Definition head_rep (es : list entry) : Z := match es with [] => 0 | e :: _ => e_rep e end.
Definition head_def (es : list entry) : Z := match es with [] => 0 | e :: _ => e_def e end.

Lemma head_lookup {A} (f : entry -> A) (l : list A) k es z :
  drop k l = map f es -> default z (l !! k) = match es with [] => z | e :: _ => f e end.
Proof.
  intros H. destruct es as [|e es]; cbn in H.
  - rewrite lookup_ge_None_2; [done|]. pose proof (f_equal length H) as L. rewrite length_drop in L. cbn in L. lia.
  - by apply drop_cons_tail in H as [-> _].
Qed.
Lemma firstLeaf_elem n : forall pd pr, node_ok pd pr n -> exists id m, firstLeaf n = Ok id /\ (id, m) ∈ leaf_defs n.
Proof.
  induction n as [nm b d r ty desc|nm b d r children IH|nm b d r child IH|nm b d r child IH] using Node_nested_ind;
    intros pd pr Hok; cbn [firstLeaf leaf_defs].
  - exists desc, d. split; [done|by apply list_elem_of_singleton].
  - apply node_ok_struct in Hok as (_ & _ & Hne & _ & Hch). destruct children as [|c cs]; [done|].
    apply Forall_cons in IH as [IH _]. apply Forall_cons in Hch as [Hc _]. destruct (IH _ _ Hc) as (id & m & E & Hin).
    exists id, m. split; [done|]. cbn. apply elem_of_app. by left.
  - destruct Hok as (_ & _ & Hok). eapply IH, Hok.
  - destruct Hok as (_ & _ & Hok & _). eapply IH, Hok.
Qed.
Lemma peek_tracks n pd pr cs E :
  node_ok pd pr n -> tracks n cs E ->
  exists id c m, id ∈ collectLeaves n /\ firstLeaf n = Ok id /\ cs !! id = Some c /\ at_cursor m c (E id) /\
    peekDef n cs = Ok (head_def (E id)) /\ peekRep n cs = Ok (head_rep (E id)).
Proof.
  intros Hok Ht. destruct (firstLeaf_elem n pd pr Hok) as (id & m & Ef & Hin).
  unfold tracks in Ht. rewrite Forall_forall in Ht. destruct (Ht _ Hin) as (c & Ec & A).
  exists id, c, m. split_and!; [by eapply leaf_defs_elem|done|done|done| |];
    unfold peekDef, peekRep, cursor; rewrite Ef; cbn [mbind res_bind]; rewrite Ec; cbn [mbind res_bind]; f_equal.
  - apply (head_lookup e_def), A.
  - apply (head_lookup e_rep), A.
Qed.

(** ** Assembly reads the entries *)

(** [f] reads the entries [es] of the leaves of [n] where [R] follows, and
    returns [a]; it leaves the other cursors alone. *)
Definition reads {A} (n : Node) (f : cursors -> res (A * cursors)) (a : A) (es R : nat -> list entry) : Prop :=
  forall cs, tracks n cs (fun id => es id ++ R id) ->
  exists cs', f cs = Ok (a, cs') /\ tracks n cs' R /\ frame (collectLeaves n) cs cs'.
Definition reads_absent (n : Node) (def : Z) (R : nat -> list entry) : Prop :=
  forall rep cs, tracks n cs (fun id => absent n rep def id ++ R id) ->
  exists cs', consumeAbsent n cs = Ok cs' /\ tracks n cs' R /\ frame (collectLeaves n) cs cs'.

Lemma tracks_disjoint c children cs cs' (E : Node -> nat -> list entry) :
  NoDup (collectLeaves c ++ concat (map collectLeaves children)) -> frame (collectLeaves c) cs cs' ->
  Forall (fun c => tracks c cs (E c)) children -> Forall (fun c => tracks c cs' (E c)) children.
Proof.
  intros Hnd Hf. apply NoDup_app in Hnd as (_ & Hd & _). rewrite !Forall_forall. intros H x Hx.
  eapply tracks_frame; [|exact Hf|by apply H]. intros id Hid Hc. apply (Hd id Hc), elem_of_children. by exists x.
Qed.

(** The children of a struct: each reads its own leaves. *)
Lemma tracks_back c children cs cs' (E : nat -> list entry) :
  NoDup (collectLeaves c ++ concat (map collectLeaves children)) -> frame (concat (map collectLeaves children)) cs cs' ->
  tracks c cs E -> tracks c cs' E.
Proof.
  intros Hnd Hf. apply NoDup_app in Hnd as (_ & Hd & _). apply tracks_frame with (concat (map collectLeaves children)); done.
Qed.
Lemma struct_children nm b d r children cs (f : Node -> nat -> list entry) R :
  NoDup (concat (map collectLeaves children)) -> (forall c id, id ∉ collectLeaves c -> f c id = []) ->
  tracks (StructNode nm b d r children) cs (fun id => concat (map (fun c => f c id) children) ++ R id) ->
  Forall (fun c => tracks c cs (fun id => f c id ++ R id)) children.
Proof.
  intros Hnd Hn. rewrite tracks_struct, !Forall_forall. intros H c Hc. eapply tracks_ext; [|by apply H].
  intros id Hid. cbn. by rewrite (concat_child (fun c => f c id) children c id) by (done || intros; by apply Hn).
Qed.

Lemma absent_children children def R :
  Forall (fun c => NoDup (collectLeaves c) -> reads_absent c def R) children -> NoDup (concat (map collectLeaves children)) ->
  forall rep cs, Forall (fun c => tracks c cs (fun id => absent c rep def id ++ R id)) children ->
  exists cs', each_cursor consumeAbsent children cs = Ok cs' /\ Forall (fun c => tracks c cs' R) children /\
    frame (concat (map collectLeaves children)) cs cs'.
Proof.
  induction 1 as [|c l Hc Hl IH]; intros Hnd rep cs Ht; cbn [each_cursor]; [by exists cs|].
  apply Forall_cons in Ht as [Htc Ht]. cbn in Hnd. pose proof Hnd as Hnd'. apply NoDup_app in Hnd' as (Hndc & _ & Hndl).
  destruct (Hc Hndc rep cs Htc) as (cs1 & -> & T1 & F1). cbn [mbind res_bind].
  destruct (IH Hndl rep cs1) as (cs2 & -> & T2 & F2).
  { by eapply (tracks_disjoint _ _ _ _ (fun c id => absent c rep def id ++ R id)). }
  exists cs2. split_and!; [done| |by eapply frame_trans]. constructor; [|done]. by eapply tracks_back.
Qed.
Lemma absent_reads n def R : NoDup (collectLeaves n) -> reads_absent n def R.
Proof.
  induction n as [nm b d r ty desc|nm b d r children IH|nm b d r child IH|nm b d r child IH] using Node_nested_ind;
    intros Hnd rep cs Ht; cbn [consumeAbsent]; [|..|by eapply IH|by eapply IH].
  - unfold tracks in Ht. cbn [leaf_defs absent] in Ht. rewrite Forall_singleton, decide_True in Ht by done.
    destruct Ht as (c & Ec & A). unfold cursor. rewrite Ec. cbn [mbind res_bind]. eexists. split_and!; [done| |].
    + unfold tracks. cbn [leaf_defs]. rewrite Forall_singleton. exists (advance c). rewrite lookup_insert_eq. split; [done|].
      apply at_cursor_next in A. cbn in A. by rewrite Nat.add_0_r in A.
    + intros id Hid. cbn in Hid. rewrite list_elem_of_singleton in Hid. by rewrite lookup_insert_ne by congruence.
  - destruct (absent_children children def R IH Hnd rep cs) as (cs' & E & T & F).
    + apply (struct_children nm b d r _ _ (fun c => absent c rep def)); [done|intros; by apply absent_notin|done].
    + exists cs'. split_and!; [done|by apply tracks_struct|done].
Qed.

Lemma leaf_reads nm b d r ty desc pd pr v rep R :
  node_ok pd pr (Leaf nm b d r ty desc) -> fits (Leaf nm b d r ty desc) v ->
  reads (Leaf nm b d r ty desc) (assembleLeaf d desc) (encoded (Leaf nm b d r ty desc) v)
    (out (Leaf nm b d r ty desc) v rep pd) R.
Proof.
  intros [Ed _] Hf cs Ht. unfold tracks in Ht. cbn [leaf_defs out] in Ht. rewrite Forall_singleton, decide_True in Ht by done.
  destruct Ht as (c & Ec & A). unfold assembleLeaf, cursor. rewrite Ec. cbn [mbind res_bind].
  pose proof A as [A1 _ A3 _]. apply drop_cons_tail in A1 as [-> _]. apply at_cursor_next in A.
  pose proof (nullish_fits _ _ Hf) as Hn. cbn [node_nullable encoded] in *. destruct (nullish v); cbn [e_def] in *.
  - destruct (Hn eq_refl) as [_ ->]. cbn in Ed. rewrite (proj2 (Z.leb_gt _ _)) by lia. eexists. split_and!; [done| |].
    + unfold tracks. cbn [leaf_defs]. rewrite Forall_singleton. exists (advance c). rewrite lookup_insert_eq. split; [done|].
      cbn in A. by rewrite Nat.add_0_r in A.
    + intros id Hid. cbn in Hid. rewrite list_elem_of_singleton in Hid. by rewrite lookup_insert_ne by congruence.
  - rewrite Z.leb_refl. cbn in A3. apply drop_cons_tail in A3 as [-> _]. eexists. split_and!; [done| |].
    + unfold tracks. cbn [leaf_defs]. rewrite Forall_singleton. eexists. rewrite lookup_insert_eq. split; [done|].
      cbn in A. by rewrite Nat.add_1_r in A.
    + intros id Hid. cbn in Hid. rewrite list_elem_of_singleton in Hid. by rewrite lookup_insert_ne by congruence.
Qed.

Lemma props_read (f : Node -> cursors -> res (value * cursors)) (x : Node -> value) (es : Node -> nat -> list entry) R children :
  Forall (fun c => reads c (f c) (x c) (es c) R) children -> NoDup (concat (map collectLeaves children)) ->
  NoDup (map node_name children) ->
  forall props cs, (forall c, c ∈ children -> node_name c ∉ JMap.keys props) ->
  Forall (fun c => tracks c cs (fun id => es c id ++ R id)) children ->
  exists cs', assemble_props f children props cs = Ok (VObject (props ++ map (fun c => (node_name c, x c)) children), cs') /\
    Forall (fun c => tracks c cs' R) children /\ frame (concat (map collectLeaves children)) cs cs'.
Proof.
  induction 1 as [|c l Hc Hl IH]; intros Hnd Hnn props cs Hfresh Ht; cbn [assemble_props].
  - exists cs. rewrite app_nil_r. done.
  - apply Forall_cons in Ht as [Htc Ht]. cbn in Hnd, Hnn. pose proof Hnd as Hnd'. apply NoDup_app in Hnd' as (_ & _ & Hndl).
    apply NoDup_cons in Hnn as [Hc' Hnn]. destruct (Hc cs Htc) as (cs1 & -> & T1 & F1). cbn [mbind res_bind].
    rewrite JMap.set_fresh by (apply Hfresh; left).
    destruct (IH Hndl Hnn (props ++ [(node_name c, x c)]) cs1) as (cs2 & -> & T2 & F2).
    + intros y Hy. unfold JMap.keys. rewrite map_app, elem_of_app. cbn. rewrite list_elem_of_singleton.
      intros [H|H]; [by apply (Hfresh y); [right|]|]. apply Hc'. rewrite <- H. apply list_elem_of_fmap_2. done.
    + by eapply (tracks_disjoint _ _ _ _ (fun c id => es c id ++ R id)).
    + exists cs2. rewrite <- app_assoc. split_and!; [done| |by eapply frame_trans]. constructor; [|done]. by eapply tracks_back.
Qed.

(** The elements of a list: each starts with an entry that repeats at the
    list's level, and what follows the list does not. *)
Definition starts (n : Node) (r : Z) (es : nat -> list entry) : Prop :=
  forall id, id ∈ collectLeaves n -> exists e t, es id = e :: t /\ e_rep e = r.
Definition bounded (n : Node) (r : Z) (R : nat -> list entry) : Prop := forall id, id ∈ collectLeaves n -> head_rep (R id) <= r.

Lemma bounded_elements n (es : value -> nat -> list entry) r xs R :
  Forall (fun x => starts n r (es x)) xs -> bounded n (r - 1) R ->
  bounded n r (fun id => concat (map (fun x => es x id) xs) ++ R id).
Proof.
  intros Hs HR id Hid. destruct Hs as [|x xs Hx _]; cbn; [pose proof (HR id Hid); lia|].
  destruct (Hx id Hid) as (e & t & -> & Er). cbn. lia.
Qed.
Lemma elements_count n (es : value -> nat -> list entry) r xs id :
  Forall (fun x => starts n r (es x)) xs -> id ∈ collectLeaves n -> (length xs <= length (concat (map (fun x => es x id) xs)))%nat.
Proof.
  intros H Hid. induction H as [|x xs Hx _ IH]; [done|]. cbn. rewrite length_app.
  destruct (Hx id Hid) as (e & t & -> & _). cbn. lia.
Qed.

Lemma more_reads child pd pr f (g : value -> value) (es : value -> nat -> list entry) r xs R :
  node_ok pd pr child -> bounded child (r - 1) R ->
  Forall (fun x => starts child r (es x) /\ forall R, bounded child r R -> reads child f (g x) (es x) R) xs ->
  forall fuel arr cs, (length xs <= fuel)%nat -> tracks child cs (fun id => concat (map (fun x => es x id) xs) ++ R id) ->
  exists cs', assemble_more f (peekRep child) r fuel arr cs = Ok (arr ++ map g xs, cs') /\
    tracks child cs' R /\ frame (collectLeaves child) cs cs'.
Proof.
  intros Hok HR. induction 1 as [|x xs [Hs Hx] Hxs IH]; intros fuel arr cs Hfuel Ht;
    destruct (peek_tracks _ _ _ _ _ Hok Ht) as (id & c & m & Hid & _ & _ & _ & _ & Ep); cbn in Hfuel.
  - specialize (HR id Hid). exists cs. cbn in Ep. destruct fuel; cbn [assemble_more]; rewrite Ep; cbn [mbind res_bind];
      rewrite (proj2 (Z.leb_gt _ _)) by lia; by rewrite app_nil_r.
  - destruct fuel as [|fuel]; [lia|]. cbn [assemble_more]. rewrite Ep. cbn [mbind res_bind map concat].
    destruct (Hs id Hid) as (e & t & Ee & Er). rewrite Ee. cbn [app head_rep]. rewrite Er, Z.leb_refl.
    destruct (Hx (fun id => concat (map (fun x => es x id) xs) ++ R id)) with (cs := cs) as (cs1 & -> & T1 & F1).
    + apply bounded_elements; [|done]. eapply Forall_impl; [exact Hxs|]. by intros y [? _].
    + eapply tracks_ext; [|exact Ht]. intros i _. cbn. by rewrite app_assoc.
    + cbn [mbind res_bind]. destruct (IH fuel (arr ++ [g x]) cs1) as (cs2 & -> & T2 & F2); [lia|done|].
      exists cs2. rewrite <- app_assoc. split_and!; [done..|]. intros i Hi. rewrite F2, F1 by done. done.
Qed.

(** A whole non-empty list. *)
Lemma elements_read child pd pr f (g : value -> value) (es : value -> Z -> nat -> list entry) rep r x xs R cs :
  node_ok pd pr child -> bounded child (r - 1) R ->
  Forall (fun x => forall rep, starts child rep (es x rep) /\ forall R, bounded child r R -> reads child f (g x) (es x rep) R) (x :: xs) ->
  tracks child cs (fun id => repeated (fun x rep => es x rep id) rep r (x :: xs) ++ R id) ->
  exists fuel cs1 cs', entries_left child cs = Ok fuel /\ f cs = Ok (g x, cs1) /\
    assemble_more f (peekRep child) r fuel [g x] cs1 = Ok (map g (x :: xs), cs') /\
    tracks child cs' R /\ frame (collectLeaves child) cs cs'.
Proof.
  intros Hok HR Hall Ht. apply Forall_cons in Hall as [Hx Hxs]. destruct (Hx rep) as [Hs Hr].
  destruct (peek_tracks _ _ _ _ _ Hok Ht) as (id & c & m & Hid & Ef & Ec & A & _).
  assert (Hst : Forall (fun x => starts child r (es x r)) xs) by (eapply Forall_impl; [exact Hxs|]; intros y Hy; apply Hy).
  destruct (Hr (fun id => concat (map (fun x => es x r id) xs) ++ R id)) with (cs := cs) as (cs1 & E1 & T1 & F1).
  { by apply (bounded_elements _ (fun x => es x r)). }
  { eapply tracks_ext; [|exact Ht]. intros i _. cbn. by rewrite app_assoc. }
  destruct (more_reads child pd pr f g (fun x => es x r) r xs R Hok HR) with (fuel := length (repLevels (stream c))) (arr := [g x]) (cs := cs1)
    as (cs2 & E2 & T2 & F2); [| |done|].
  - eapply Forall_impl; [exact Hxs|]. intros y Hy. apply Hy.
  - pose proof (elements_count child (fun x => es x r) r xs id Hst Hid) as Hl. destruct A as [_ A _ _].
    apply (f_equal length) in A. rewrite length_drop in A. cbn [repeated] in A. rewrite length_map, !length_app in A. lia.
  - exists (length (repLevels (stream c))), cs1, cs2. split_and!; [|done..|].
    + unfold entries_left, cursor. rewrite Ef. cbn [mbind res_bind]. by rewrite Ec.
    + intros i Hi. rewrite F2, F1 by done. done.
Qed.

(** The definition level under the cursor tells a null from a value. *)
Lemma peek_out n pd pr v rep R cs :
  node_ok pd pr n -> NoDup (collectLeaves n) -> fits n v -> tracks n cs (fun id => out n v rep pd id ++ R id) ->
  exists def, peekDef n cs = Ok def /\ if nullish v then v = VNull /\ def = pd /\ def < node_def n else node_def n <= def.
Proof.
  intros Hok Hnd Hf Ht. destruct (peek_tracks _ _ _ _ _ Hok Ht) as (id & c & m & Hid & _ & _ & _ & Ep & _).
  destruct (out_head n pd pr v rep id Hok Hnd Hf Hid) as (e & t & E & _ & Hd). rewrite E in Ep. exists (e_def e). split; [done|].
  destruct (nullish v) eqn:Nv; [|done]. destruct (nullish_fits _ _ Hf Nv) as [Ev Hb].
  rewrite (node_ok_def _ _ _ Hok), Hb. cbn. split_and!; [done|done|lia].
Qed.
Lemma null_reads n pd R rep cs :
  NoDup (collectLeaves n) -> tracks n cs (fun id => absent n rep pd id ++ R id) ->
  exists cs', (cs ← consumeAbsent n cs; Ok (VNull, cs)) = Ok (VNull, cs') /\ tracks n cs' R /\ frame (collectLeaves n) cs cs'.
Proof. intros Hnd Ht. destruct (absent_reads n pd R Hnd rep cs Ht) as (cs' & -> & T & F). by exists cs'. Qed.

Lemma encoded_struct nm b d r children props (prop := fun c => prop_or_null (VObject props) (node_name c)) :
  props = map (fun c => (node_name c, prop c)) children ->
  encoded (StructNode nm b d r children) (VObject props) = VObject (map (fun c => (node_name c, encoded c (prop c))) children).
Proof.
  clearbody prop. intros ->. cbn. f_equal. induction children as [|c cs IH]; cbn; [done|]. by rewrite IH.
Qed.
(** The level of a list's first entry: the list's own if it is empty, more if
    it has elements. *)
Lemma out_element n pd pr v rep id :
  node_ok pd pr n -> NoDup (collectLeaves n) -> fits n v -> id ∈ collectLeaves n ->
  exists e t, out n v rep pd id = e :: t /\ e_rep e = rep /\ pd <= e_def e.
Proof.
  intros Hok Hnd Hf Hid. destruct (out_head n pd pr v rep id Hok Hnd Hf Hid) as (e & t & E & Er & Hd). exists e, t.
  split_and!; [done..|]. rewrite (node_ok_def _ _ _ Hok) in Hd. destruct (nullish v), (node_nullable n); cbn in Hd; lia.
Qed.

(** What [assembleValue] does for lists and maps once the list is present. *)
Definition assemble_list (child : Node) (f : cursors -> res (value * cursors)) (nodeDef nodeRep def : Z) (cs : cursors) : res (value * cursors) :=
  if def =? nodeDef then cs ← consumeAbsent child cs; Ok (VArray [], cs)
  else
    fuel ← entries_left child cs;
    '(first, cs) ← f cs;
    '(arr, cs) ← assemble_more f (peekRep child) nodeRep fuel [first] cs;
    Ok (VArray arr, cs).

Lemma list_reads child f (g : value -> value) d r rep xs R cs :
  node_ok (d + 1) r child -> NoDup (collectLeaves child) -> bounded child (r - 1) R ->
  Forall (fun x => fits child x /\ forall rep R, bounded child r R -> reads child f (g x) (out child x rep (d + 1)) R) xs ->
  tracks child cs (fun id => match xs with [] => absent child rep d id | _ => repeated (fun x rep => out child x rep (d + 1) id) rep r xs end ++ R id) ->
  exists def cs', peekDef child cs = Ok def /\ d <= def /\ assemble_list child f d r def cs = Ok (VArray (map g xs), cs') /\
    tracks child cs' R /\ frame (collectLeaves child) cs cs'.
Proof.
  intros Hok Hnd HR Hall Ht. destruct (peek_tracks _ _ _ _ _ Hok Ht) as (id & c & m & Hid & _ & _ & _ & Ep & _).
  destruct xs as [|x xs].
  - rewrite absent_in in Ep by done. destruct (absent_reads child d R Hnd rep cs Ht) as (cs' & E & T & F).
    exists d, cs'. split_and!; [done|lia| |done..]. unfold assemble_list. by rewrite Z.eqb_refl, E.
  - assert (Hx : fits child x) by (apply Forall_cons in Hall as [[? _] _]; done).
    destruct (out_element child (d + 1) r x rep id Hok Hnd Hx Hid) as (e & t & E & _ & Hd). cbn [repeated] in Ep.
    rewrite E in Ep.
    destruct (elements_read child (d + 1) r f g (fun x rep => out child x rep (d + 1)) rep r x xs R cs Hok HR)
      as (fuel & cs1 & cs' & E1 & E2 & E3 & T & F); [|done|].
    { eapply Forall_impl; [exact Hall|]. intros y [Hy Hr] rep'. split; [|by intros; apply Hr].
      intros i Hi. destruct (out_element child (d + 1) r y rep' i Hok Hnd Hy Hi) as (e' & t' & ? & ? & _). by exists e', t'. }
    exists (e_def e), cs'. split_and!; [done|lia| |done..]. unfold assemble_list. rewrite (proj2 (Z.eqb_neq _ _)) by lia.
    rewrite E1. cbn [mbind res_bind]. rewrite E2. cbn [mbind res_bind]. by rewrite E3.
Qed.

Lemma struct_reads nm b d r children pd pr v rep R :
  node_ok pd pr (StructNode nm b d r children) -> NoDup (concat (map collectLeaves children)) ->
  fits (StructNode nm b d r children) v ->
  Forall (fun c => forall v, fits c v -> reads c (assembleValue c) (encoded c v) (out c v rep d) R) children ->
  reads (StructNode nm b d r children) (assembleValue (StructNode nm b d r children)) (encoded (StructNode nm b d r children) v)
    (out (StructNode nm b d r children) v rep pd) R.
Proof.
  intros Hok Hnd Hf IH cs Ht. destruct (peek_out _ _ _ _ _ _ _ Hok Hnd Hf Ht) as (def & Ep & Hd).
  cbn [assembleValue]. rewrite Ep. cbn [mbind res_bind]. cbn [out] in Ht. destruct (nullish v) eqn:Nv.
  - destruct Hd as (-> & -> & Hlt). cbn in Hlt. rewrite (proj2 (Z.ltb_lt _ _)) by lia. by apply (null_reads _ pd R rep).
  - cbn in Hd. rewrite (proj2 (Z.ltb_ge _ _)) by lia. destruct v as [| | |props|]; try (destruct Hf as [[? ?]|?]; done).
    apply node_ok_struct in Hok as (_ & _ & _ & Hn & _). destruct (struct_props _ _ _ _ _ _ Hn Hf) as [Hp Hfs].
    rewrite (encoded_struct _ _ _ _ _ _ Hp). set (prop := fun c => prop_or_null (VObject props) (node_name c)) in *.
    destruct (props_read assembleValue (fun c => encoded c (prop c)) (fun c => out c (prop c) rep d) R children) with (props := @nil (jsstring * value)) (cs := cs)
      as (cs' & E & T & F); [|done|done|..].
    + rewrite Forall_forall in IH, Hfs |- *. auto.
    + intros c _. apply not_elem_of_nil.
    + apply (struct_children nm b d r _ _ (fun c => out c (prop c) rep d)); [done|intros; by apply out_notin|done].
    + exists cs'. split_and!; [done|by apply tracks_struct|done].
Qed.

Lemma pair_encoded entries e :
  match entries with StructNode _ false _ _ _ => True | _ => False end -> fits entries e ->
  entry_pair (encoded entries e) = Ok (pair_of (encoded entries e)).
Proof. destruct entries as [|nm [] ? ? ?| |]; try done. intros _. destruct e; cbn; intros [[? ?]|?]; done. Qed.

(** [assembleValue] reads back what shredding wrote. *)
Lemma assemble_reads n : forall pd pr v rep R,
  node_ok pd pr n -> NoDup (collectLeaves n) -> fits n v -> bounded n pr R ->
  reads n (assembleValue n) (encoded n v) (out n v rep pd) R.
Proof.
  induction n as [nm b d r ty desc|nm b d r children IH|nm b d r child IH|nm b d r child IH] using Node_nested_ind;
    intros pd pr v rep R Hok Hnd Hf HR; [by eapply leaf_reads|..].
  - eapply struct_reads; [done..|]. apply node_ok_struct in Hok as (_ & _ & _ & _ & Hch). rewrite Forall_forall in IH, Hch |- *.
    intros c Hc v' Hv'. eapply IH; [done|by apply Hch|by eapply NoDup_child|done|].
    intros id Hid. apply HR. apply elem_of_children. by exists c.
  - intros cs Ht. destruct (peek_out _ _ _ _ _ _ _ Hok Hnd Hf Ht) as (def & Ep & Hd). destruct Hok as (Ed & Er & Hok).
    cbn [assembleValue]. rewrite Ep. cbn [mbind res_bind]. cbn [out] in Ht. destruct (nullish v) eqn:Nv.
    { destruct Hd as (-> & -> & Hlt). cbn in Hlt. rewrite (proj2 (Z.ltb_lt _ _)) by lia. by apply (null_reads _ pd R rep). }
    cbn in Hd. rewrite (proj2 (Z.ltb_ge _ _)) by lia. destruct v as [| | | |items]; try (destruct Hf as [[? ?]|?]; done).
    apply fits_list in Hf.
    destruct (list_reads child (assembleValue child) (encoded child) d r rep items R cs Hok Hnd) as (def' & cs' & Ep' & _ & E & T & F).
    + replace (r - 1) with pr by lia. done.
    + eapply Forall_impl; [exact Hf|]. intros x Hx. split; [done|]. intros. by eapply IH.
    + by destruct items.
    + assert (def' = def) as -> by (cbn in Ep; unfold peekDef in *; cbn in Ep; congruence). exists cs'. done.
  - intros cs Ht. destruct (peek_out _ _ _ _ _ _ _ Hok Hnd Hf Ht) as (def & Ep & Hd). destruct Hok as (Ed & Er & Hok & Hent).
    cbn [assembleValue]. rewrite Ep. cbn [mbind res_bind]. cbn [out] in Ht. destruct (nullish v) eqn:Nv.
    { destruct Hd as (-> & -> & Hlt). cbn in Hlt. rewrite (proj2 (Z.ltb_lt _ _)) by lia. by apply (null_reads _ pd R rep). }
    cbn in Hd. rewrite (proj2 (Z.ltb_ge _ _)) by lia. destruct v as [| | | |items]; try (destruct Hf as [[? ?]|?]; done).
    apply fits_map in Hf.
    destruct (list_reads child (fun cs => '(e, cs) ← assembleValue child cs; p ← entry_pair e; Ok (p, cs))
                (fun e => pair_of (encoded child e)) d r rep (map entry_of items) R cs Hok Hnd) as (def' & cs' & Ep' & _ & E & T & F).
    + replace (r - 1) with pr by lia. done.
    + rewrite Forall_map. eapply Forall_impl; [exact Hf|]. intros x [_ Hx]. split; [done|]. intros rep' R' HR' cs' Ht'.
      destruct (IH (d + 1) r (entry_of x) rep' R' Hok Hnd Hx HR' cs' Ht') as (cs2 & -> & T & F). exists cs2. cbn [mbind res_bind].
      rewrite pair_encoded; [done| |done]. by destruct child as [|? [] ? ? ?| |].
    + by destruct items.
    + assert (def' = def) as -> by (cbn in Ep; unfold peekDef in *; cbn in Ep; congruence). exists cs'.
      rewrite map_map in E. done.
Qed.

(** ** The tree of a schema *)
Fixpoint Field_nested_ind (P : Field -> Prop)
  (Hprim : forall nm b p, P (mkField nm (Primitive p) b))
  (Hstruct : forall nm b children, Forall P children -> P (mkField nm (Struct children) b))
  (Hlist : forall nm b child, P child -> P (mkField nm (ListOf child) b))
  (Hmap : forall nm b child, P child -> P (mkField nm (MapOf child) b)) (f : Field) : P f :=
  let rec := Field_nested_ind P Hprim Hstruct Hlist Hmap in
  match f with
  | mkField nm (Primitive p) b => Hprim nm b p
  | mkField nm (Struct children) b =>
      Hstruct nm b children
        ((fix go l : Forall P l := match l with [] => Forall_nil_2 P | x :: l => Forall_cons_2 P x l (rec x) (go l) end) children)
  | mkField nm (ListOf child) b => Hlist nm b child (rec child)
  | mkField nm (MapOf child) b => Hmap nm b child (rec child)
  end.
Definition field_name (f : Field) : jsstring := match f with mkField nm _ _ => nm end.
Definition field_nullable (f : Field) : bool := match f with mkField _ _ b => b end.

(** Schemas: a struct has fields, with distinct names; the entries of a map
    are structs of a key and a value. *)
Fixpoint field_ok (f : Field) : Prop :=
  match f with
  | mkField _ (Primitive _) _ => True
  | mkField _ (Struct children) _ =>
      children <> [] /\ NoDup (map field_name children) /\
      (fix all l := match l with [] => True | c :: l => field_ok c /\ all l end) children
  | mkField _ (ListOf child) _ => field_ok child
  | mkField _ (MapOf child) _ =>
      field_ok child /\
      match child with
      | mkField _ (Struct children) false => map field_name children = [js "key"; js "value"]
      | _ => False
      end
  end.

(** The loop over the fields of a struct. *)
Definition build_children (d pr : Z) : list Field -> nat -> list Node * nat :=
  fix go fs next :=
    match fs with
    | [] => ([], next)
    | f :: fs =>
        let '(n, next) := buildNode f d pr next in
        let '(ns, next) := go fs next in
        (n :: ns, next)
    end.
(** What a field's node has: the levels, the field's name, and leaves numbered
    from [next]. *)
Record built (pd pr : Z) (next : nat) (f : Field) (n : Node) (next' : nat) : Prop := {
  built_ok : node_ok pd pr n;
  built_name : node_name n = field_name f;
  built_next : (next <= next')%nat;
  built_leaves : collectLeaves n = seq next (next' - next);
}.

Lemma buildNode_name f d pr next : node_name (buildNode f d pr next).1 = field_name f.
Proof.
  destruct f as [nm [] b]; cbn [buildNode]; try destruct (buildNode _ _ _ _); try done. fold (build_children (d + Z.b2z b) pr).
  by destruct (build_children _ _ _ _).
Qed.
Lemma build_children_names d pr fs next : map node_name (build_children d pr fs next).1 = map field_name fs.
Proof.
  revert next. induction fs as [|f fs IH]; intros next; [done|]. cbn [build_children]. pose proof (buildNode_name f d pr next) as N.
  destruct (buildNode f d pr next) as [n next1]. specialize (IH next1). destruct (build_children d pr fs next1). cbn in *. by f_equal.
Qed.
Lemma build_children_built d pr fs :
  Forall (fun f => forall next, built d pr next f (buildNode f d pr next).1 (buildNode f d pr next).2) fs ->
  forall next, let '(ns, next') := build_children d pr fs next in
    Forall (node_ok d pr) ns /\ map node_name ns = map field_name fs /\ (next <= next')%nat /\
    concat (map collectLeaves ns) = seq next (next' - next).
Proof.
  induction 1 as [|f fs Hf _ IH]; intros next; cbn [build_children].
  - by rewrite Nat.sub_diag.
  - destruct (Hf next) as [O N L S]. destruct (buildNode f d pr next) as [n next1]. cbn [fst snd] in *.
    specialize (IH next1). destruct (build_children d pr fs next1) as [ns next2]. destruct IH as (O' & N' & L' & S').
    cbn. rewrite N, N', S, S'. split_and!; [by constructor|done|lia|].
    replace (next2 - next)%nat with ((next1 - next) + (next2 - next1))%nat by lia. rewrite seq_app. do 2 f_equal. lia.
Qed.
Lemma buildNode_struct nm b children pd pr next :
  buildNode (mkField nm (Struct children) b) pd pr next =
  let '(ns, next') := build_children (pd + Z.b2z b) pr children next in (StructNode nm b (pd + Z.b2z b) pr ns, next').
Proof. reflexivity. Qed.
Lemma buildNode_built f : field_ok f -> forall pd pr next, built pd pr next f (buildNode f pd pr next).1 (buildNode f pd pr next).2.
Proof.
  induction f as [nm b p|nm b children IH|nm b child IH|nm b child IH] using Field_nested_ind; intros Hok pd pr next.
  - cbn. split; [done|done|cbn; lia|]. cbn [collectLeaves snd]. by replace (S next - next)%nat with 1%nat by lia.
  - destruct Hok as (Hne & Hnd & Hch). rewrite buildNode_struct.
    assert (Hall : Forall field_ok children).
    { clear -Hch. induction children as [|c l IHl]; [constructor|]. destruct Hch. constructor; auto. }
    assert (H := build_children_built (pd + Z.b2z b) pr children
      ltac:(rewrite Forall_forall in *; intros c Hc nx; by apply IH; [|apply Hall]) next).
    destruct (build_children _ _ children next) as [ns next'].
    destruct H as (O & N & L & S). split; [|done|done|done].
    apply node_ok_struct. rewrite N. split_and!; try done. by intros ->; destruct children.
  - cbn [buildNode]. destruct (IH Hok (pd + Z.b2z b + 1) (pr + 1) next) as [O N L S].
    destruct (buildNode child _ _ next) as [n next']. split; done.
  - destruct Hok as [Hok Hch]. pose proof (IH Hok (pd + Z.b2z b + 1) (pr + 1) next) as [O N L S]. cbn [buildNode].
    assert (Hn : match (buildNode child (pd + Z.b2z b + 1) (pr + 1) next).1 with
                 | StructNode _ false _ _ ns => map node_name ns = [js "key"; js "value"] | _ => False end).
    { destruct child as [nm' [|fs| |] []]; try done. rewrite buildNode_struct, <- Hch.
      pose proof (build_children_names (pd + Z.b2z b + 1 + Z.b2z false) (pr + 1) fs next) as H. by destruct (build_children _ _ fs next). }
    destruct (buildNode child _ _ next) as [n next']. split; done.
Qed.

(** ** Columns *)
Definition column (node : Node) (rows : list value) (id : nat) : list entry := concat (map (fun row => out node row 0 0 id) rows).

Lemma rows_read node : node_ok 0 0 node -> NoDup (collectLeaves node) -> forall rows acc cs,
  Forall (fits node) rows -> tracks node cs (column node rows) ->
  assemble_rows node (length rows) acc cs = Ok (acc ++ map (encoded node) rows).
Proof.
  intros Hok Hnd. induction rows as [|row rows IH]; intros acc cs Hf Ht; cbn [assemble_rows length].
  - by rewrite app_nil_r.
  - apply Forall_cons in Hf as [Hrow Hf].
    destruct (assemble_reads node 0 0 row 0 (column node rows) Hok Hnd Hrow) with (cs := cs) as (cs' & -> & T & _); [|done|].
    + intros id Hid. destruct Hf as [|x xs Hx _]; [done|]. unfold column. cbn.
      destruct (out_head node 0 0 x 0 id Hok Hnd Hx Hid) as (e & t & -> & Er & _). cbn. lia.
    + cbn [mbind res_bind]. rewrite IH by done. by rewrite <- app_assoc.
Qed.
Lemma new_streams node id :
  id ∈ collectLeaves node ->
  (list_to_map (map (fun d => (d, empty_stream)) (collectLeaves node)) : streams) !! id = Some empty_stream.
Proof.
  intros Hid. induction (collectLeaves node) as [|x l IH]; [by apply not_elem_of_nil in Hid|]. cbn.
  destruct (decide (id = x)) as [->|Hne]; [by rewrite lookup_insert_eq|]. rewrite lookup_insert_ne by congruence.
  apply IH. by apply elem_of_cons in Hid as [?|?].
Qed.
Lemma new_cursors_of (st : streams) leaves : Forall (fun id => is_Some (st !! id)) leaves -> forall cs, exists cs',
  new_cursors leaves (map (fun d => st !! d) leaves) cs = Ok cs' /\
  forall id s, st !! id = Some s -> (id ∈ leaves \/ cs !! id = Some {| stream := s; vi := 0; li := 0 |}) ->
    cs' !! id = Some {| stream := s; vi := 0; li := 0 |}.
Proof.
  induction 1 as [|d leaves [s Hs] _ IH]; intros cs; cbn [new_cursors map].
  - exists cs. split; [done|]. intros id s _ [Hid|?]; [by apply not_elem_of_nil in Hid|done].
  - rewrite Hs. destruct (IH (<[d := {| stream := s; vi := 0; li := 0 |}]> cs)) as (cs' & -> & H). exists cs'. split; [done|].
    intros id s' Hs' Hid. apply H; [done|]. destruct (decide (id = d)) as [->|Hne].
    + right. rewrite lookup_insert_eq. congruence.
    + rewrite lookup_insert_ne by done. rewrite elem_of_cons in Hid. naive_solver.
Qed.
(** The cursors that assembly starts with have the entries of the column. *)
Lemma shredded_tracks node rows :
  node_ok 0 0 node -> NoDup (collectLeaves node) -> Forall (fits node) rows ->
  exists ss cs, shredColumn node rows = Ok ss /\ new_cursors (collectLeaves node) ss ∅ = Ok cs /\
    tracks node cs (column node rows).
Proof.
  intros Hok Hnd Hf. unfold shredColumn. set (st0 := list_to_map _).
  destruct (each_appended (has_leaves node) (fun row => shredValue node row 0 0) (fun row => out node row 0 0) rows) with (st := st0)
    as (st & -> & A).
  - intros. by eapply has_leaves_appended.
  - eapply Forall_impl; [exact Hf|]. intros row Hrow st Hst. by eapply shred_appended.
  - unfold has_leaves. apply Forall_forall. intros id Hid. subst st0. rewrite new_streams by done. by eexists.
  - cbn [mbind res_bind]. assert (Hs : forall id, id ∈ collectLeaves node -> st !! id = Some (append (column node rows id) empty_stream)).
    { intros id Hid. rewrite (A id). subst st0. by rewrite new_streams. }
    destruct (new_cursors_of st (collectLeaves node)) with (cs := ∅ : cursors) as (cs & E & Hc).
    { apply Forall_forall. intros id Hid. rewrite Hs by done. by eexists. }
    eexists _, cs. split_and!; [done|done|]. unfold tracks. apply Forall_forall. intros [id m] Hin.
    pose proof (leaf_defs_elem _ _ _ Hin) as Hid. rewrite (Hc _ _ (Hs id Hid)) by (by left). eexists. split; [done|]. split; cbn; try done.
    apply Forall_concat. rewrite Forall_map. eapply Forall_impl; [exact Hf|]. intros row Hrow. by eapply out_flagged.
Qed.

Lemma buildNodes_children fields next : buildNodes fields next = build_children 0 0 fields next.
Proof. reflexivity. Qed.

(** The nodes of a schema have their levels, and leaves of their own. *)
Lemma buildNodes_ok (fields : list Field) (node : Node) :
  Forall field_ok fields -> node ∈ (buildNodes fields 0).1 -> node_ok 0 0 node /\ NoDup (collectLeaves node).
Proof.
  intros Hok Hin. rewrite buildNodes_children in Hin.
  pose proof (build_children_built 0 0 fields ltac:(rewrite Forall_forall in *; intros; by apply buildNode_built, Hok) 0) as H.
  destruct (build_children 0 0 fields 0) as [ns next']. destruct H as (O & _ & _ & L). cbn in Hin. rewrite Forall_forall in O.
  split; [auto|]. eapply NoDup_child; [rewrite L; apply NoDup_seq|done].
Qed.
Lemma column_roundtrip (node : Node) (rows : list value) :
  node_ok 0 0 node -> NoDup (collectLeaves node) -> Forall (fits node) rows ->
  exists st, shredColumn node rows = Ok st /\ assembleTree node st (length rows) = Ok (map (encoded node) rows).
Proof.
  intros Ho Hnd Hf. destruct (shredded_tracks node rows Ho Hnd Hf) as (st & cs & E & E' & T). exists st. split; [done|].
  unfold assembleTree. rewrite E'. cbn [mbind res_bind]. by rewrite (rows_read node Ho Hnd) by done.
Qed.

(** C7: shredding a column of nested values (structs, lists and maps to any
    depth, with nulls and empty lists at every level that allows them) into the
    leaf streams succeeds, and assembling the streams gives the rows back, in
    order, with their leaves in encoded form. *)
Theorem nested_roundtrip (fields : list Field) (node : Node) (rows : list value) :
  Forall field_ok fields -> node ∈ (buildNodes fields 0).1 -> Forall (fits node) rows ->
  exists st, shredColumn node rows = Ok st /\ assembleTree node st (length rows) = Ok (map (encoded node) rows).
Proof. intros Hok Hin Hf. destruct (buildNodes_ok fields node Hok Hin). by apply column_roundtrip. Qed.
End nested.

(** A list of structs with a nullable list of numbers and a map. *)
Definition sample_field : Field Z :=
  mkField Z (js "rows") (ListOf Z (mkField Z (js "item") (Struct Z [
    mkField Z (js "xs") (ListOf Z (mkField Z (js "x") (Primitive Z 0) true)) true;
    mkField Z (js "m") (MapOf Z (mkField Z (js "entries") (Struct Z [
      mkField Z (js "key") (Primitive Z 1) false; mkField Z (js "value") (Primitive Z 2) true]) false)) true]) true)) true.
Definition sample_rows : list value :=
  [VNull; VArray [];
   VArray [VNull;
           VObject [(js "xs", VArray [VPrim 1; VNull; VPrim 2]); (js "m", VNull)];
           VObject [(js "xs", VArray []); (js "m", VArray [VArray [VPrim 3; VNull]; VArray [VPrim 4; VPrim 5]])]]].
Ltac fit :=
  cbn;
  lazymatch goal with
  | |- True => exact I
  | |- (VNull = VNull /\ _) \/ _ => left; split; reflexivity
  | |- _ \/ _ => right; fit
  | |- _ /\ _ => split; fit
  | |- exists a b, VArray [?x; ?y] = _ => exists x, y; reflexivity
  | |- _ => reflexivity
  end.
Lemma nested_roundtrip_witness :
  exists st, shredColumn Z (fun _ v => v) (buildNode Z sample_field 0 0 0).1 sample_rows = Ok st /\
    assembleTree Z (buildNode Z sample_field 0 0 0).1 st 3 = Ok sample_rows.
Proof.
  apply (nested_roundtrip Z (fun _ v => v) [sample_field] (buildNode Z sample_field 0 0 0).1 sample_rows); [apply Forall_singleton|by apply list_elem_of_singleton|].
  - cbn. split_and!; try done; by apply (bool_decide_unpack _).
  - repeat (apply Forall_cons; split); [fit..|constructor].
Defined.
End ParquetNested.
