(* ===== verification/ParquetConvert.v ===== *)
(** Value conversions of Parquet columns (src/js/data/parquet/convert.ts):
    decimals as big-endian two's complement bytes, INT96 timestamps, and
    half-precision numbers.  bigints are [Z]; a JavaScript number is its bit
    pattern, as in [JsNumber]. *)

From S2P Require Import Prelude JsNumber.

Module ParquetConvert.
Import JsNumber.

(** ** Decimals *)
Definition decimalBytesToBigInt (bytes : list Z) : Z :=
  let value := fold_left (fun value b => Z.lor (Z.shiftl value 8) b) bytes 0 in
  let bits := zlen bytes * 8 in
  match bytes with
  | b :: _ => if negb (Z.land b 128 =? 0) then value - Z.shiftl 1 bits else value
  | [] => value
  end.
(** The loop fills [out] from its end. *)
Fixpoint fill (i : nat) (v : Z) (out : list Z) : list Z :=
  match i with O => out | S i => fill i (Z.shiftr v 8) (Z.land v 255 :: out) end.
Definition bigIntToDecimalBytes (value : Z) (byteLength : nat) : list Z :=
  let v := if value <? 0 then value + Z.shiftl 1 (Z.of_nat byteLength * 8) else value in
  fill byteLength v [].

(** ** INT96 timestamps *)
Definition JULIAN_UNIX_EPOCH := 2440588.
Definition NANOS_PER_DAY := 86400 * 1000000000.
Definition int96ToEpochNanos (bytes : list Z) : res Z :=
  if zlen bytes <? 12 then Throw (RangeError "offset is outside the bounds of the DataView")
  else
    let nanosOfDay := le_val (take 8 bytes) in
    let julianDay := le_val (take 4 (drop 8 bytes)) in
    Ok ((julianDay - JULIAN_UNIX_EPOCH) * NANOS_PER_DAY + nanosOfDay).
(** bigint division truncates. *)
Definition epochNanosToInt96 (nanos : Z) : list Z :=
  let days := Z.quot nanos NANOS_PER_DAY in
  let nanosOfDay := Z.rem nanos NANOS_PER_DAY in
  let '(nanosOfDay, days) := if nanosOfDay <? 0 then (nanosOfDay + NANOS_PER_DAY, days - 1) else (nanosOfDay, days) in
  le_bytes 8 nanosOfDay ++ le_bytes 4 (days + JULIAN_UNIX_EPOCH).

(** ** Half precision: [getFloat16] and [setFloat16] *)
Definition of_float16 (w : Z) : Z :=
  let s := w / 2 ^ 15 in
  let e := (w / 2 ^ 10) mod 32 in
  let m := w mod 2 ^ 10 in
  if e =? 31 then (if m =? 0 then double_bits s 2047 0 else NaN)
  else if e =? 0 then
    (if m =? 0 then double_bits s 0 0
     else let k := Z.log2 m in double_bits s (k + 999) (m * 2 ^ (52 - k) - 2 ^ 52))
  else double_bits s (e + 1008) (m * 2 ^ 42).
Definition to_float16 (b : Z) : Z :=
  sign_bit b * 2 ^ 15 +
  (if exponent b =? 2047 then (if fraction b =? 0 then 31 * 2 ^ 10 else 31 * 2 ^ 10 + 2 ^ 9)
   else
     let q := Z.max (scale b + 42) (-24) in
     Z.min (31 * 2 ^ 10) ((q + 24) * 2 ^ 10 + round_div (significand b) (2 ^ (q - scale b)))).
Definition float16BytesToNumber (bytes : list Z) : Z :=
  of_float16 (default 0 (bytes !! 0%nat) + 256 * default 0 (bytes !! 1%nat)).
Definition numberToFloat16Bytes (value : Z) : list Z := le_bytes 2 (to_float16 value).

(** ** Decimals survive *)
Lemma lor_shift v b : is_byte b -> Z.lor (Z.shiftl v 8) b = v * 256 + b.
Proof.
  intros Hb. unfold is_byte in Hb. rewrite Z.lor_comm, lor_disjoint_add by lia. change (2 ^ 8) with 256. lia.
Qed.
Lemma bytes_value bs : Forall is_byte bs -> fold_left (fun v b => Z.lor (Z.shiftl v 8) b) bs 0 = be_val bs.
Proof.
  intros H. induction bs as [|b bs IH] using rev_ind; [done|]. apply Forall_app in H as [H Hb]. rewrite Forall_singleton in Hb.
  rewrite fold_left_app. cbn. rewrite IH, lor_shift by done. unfold be_val. rewrite reverse_app. cbn. lia.
Qed.
Lemma fill_bytes n : forall v out, fill n v out = reverse (le_bytes n v) ++ out.
Proof.
  induction n as [|n IH]; intros v out; [done|]. cbn [fill le_bytes]. rewrite IH, reverse_cons, <- app_assoc. cbn.
  rewrite Z.shiftr_div_pow2 by lia. change 255 with (Z.ones 8). rewrite Z.land_ones by lia. done.
Qed.

Lemma le_val_app a b : le_val (a ++ b) = le_val a + 2 ^ (8 * Z.of_nat (length a)) * le_val b.
Proof.
  induction a as [|x a IH]; cbn [app length le_val]; [change (2 ^ _) with 1; lia|]. rewrite IH, pow_8S. lia.
Qed.
Lemma be_val_cons b bs : be_val (b :: bs) = b * 2 ^ (8 * zlen bs) + be_val bs.
Proof. unfold be_val, zlen. rewrite reverse_cons, le_val_app, length_reverse. cbn. lia. Qed.
Lemma be_val_range bs : Forall is_byte bs -> 0 <= be_val bs < 2 ^ (8 * zlen bs).
Proof. intros H. unfold be_val, zlen. rewrite <- length_reverse. apply le_val_range. by apply Forall_reverse. Qed.
Lemma high_bit b : is_byte b -> negb (Z.land b 128 =? 0) = (128 <=? b).
Proof.
  intros Hb. apply Bool.eqb_prop. revert b Hb. apply (byte_forallb (fun b => Bool.eqb (negb (Z.land b 128 =? 0)) (128 <=? b))).
  vm_compute. reflexivity.
Qed.

(** Decoding is the two's complement reading of the bytes. *)
Lemma decimal_value bs : bs <> [] -> Forall is_byte bs -> decimalBytesToBigInt bs = signedN (8 * zlen bs) (be_val bs).
Proof.
  intros Hne H. unfold decimalBytesToBigInt. cbv zeta. rewrite bytes_value by done.
  destruct bs as [|b bs]; [done|]. apply Forall_cons in H as [Hb H]. rewrite high_bit by done.
  pose proof (be_val_range bs H) as Hr. rewrite be_val_cons, !zlen_cons. pose proof (zlen_nonneg bs).
  assert (E : 2 ^ (8 * (1 + zlen bs)) = 256 * 2 ^ (8 * zlen bs)).
  { replace (8 * (1 + zlen bs)) with (8 + 8 * zlen bs) by lia. rewrite Z.pow_add_r by lia. done. }
  assert (E' : 2 ^ (8 * (1 + zlen bs) - 1) = 128 * 2 ^ (8 * zlen bs)).
  { replace (8 * (1 + zlen bs) - 1) with (7 + 8 * zlen bs) by lia. rewrite Z.pow_add_r by lia. done. }
  unfold is_byte in Hb. unfold signedN. rewrite E, E', Z.shiftl_1_l. replace ((1 + zlen bs) * 8) with (8 * (1 + zlen bs)) by lia.
  rewrite E. set (h := 2 ^ (8 * zlen bs)) in *. rewrite Z.mod_small by nia. destruct (Z.leb_spec 128 b).
  - rewrite (proj2 (Z.ltb_ge _ _)) by nia. done.
  - rewrite (proj2 (Z.ltb_lt _ _)) by nia. done.
Qed.
Lemma decimal_bytes v n : bigIntToDecimalBytes v n = be_bytes n v.
Proof.
  unfold bigIntToDecimalBytes. rewrite fill_bytes, app_nil_r. unfold be_bytes. f_equal. case_match; [|done].
  rewrite Z.shiftl_1_l, Z.mul_comm. clear. revert v. induction n as [|n IH]; intros v; [done|]. rewrite pow_8S. cbn [le_bytes].
  f_equal.
  - rewrite Z.mul_comm. apply Z_mod_plus_full.
  - rewrite (Z.mul_comm 256), Z_div_plus_full by lia. apply IH.
Qed.

Lemma le_bytes_mod n x : le_bytes n (x mod 2 ^ (8 * Z.of_nat n)) = le_bytes n x.
Proof. rewrite <- le_val_bytes. rewrite <- (length_le_bytes n x) at 1. apply le_bytes_val, le_bytes_byte. Qed.

(** A decimal written in [n] bytes is read back as its value modulo 2^(8n) in
    the signed range of the width; bytes that are read are written back. *)
Lemma decimal_roundtrip (v : Z) (n : nat) (bs : list Z) :
  (0 < n)%nat -> Forall is_byte bs ->
  decimalBytesToBigInt (bigIntToDecimalBytes v n) = signedN (8 * Z.of_nat n) v /\
  bigIntToDecimalBytes (decimalBytesToBigInt bs) (length bs) = bs.
Proof.
  intros Hn Hbs. split.
  - rewrite decimal_bytes, decimal_value; [|intros E; apply (f_equal length) in E; rewrite length_be_bytes in E; cbn in E; lia|apply be_bytes_byte].
    unfold zlen. rewrite length_be_bytes, be_val_bytes.
    by rewrite signedN_mod by lia.
  - destruct bs as [|b bs]; [done|]. set (l := b :: bs) in *. rewrite decimal_bytes, decimal_value by done.
    assert (Hl : 0 < 8 * zlen l) by (subst l; rewrite zlen_cons; pose proof (zlen_nonneg bs); lia).
    unfold be_bytes. rewrite <- (le_bytes_mod (length l)), (signedN_cong _ _ Hl), Z.mod_small by (by apply be_val_range).
    unfold be_val. rewrite <- (length_reverse l), le_bytes_val by (by apply Forall_reverse). apply reverse_involutive.
Qed.

(** ** Timestamps survive *)
Lemma floor_split n : let '(r, d) := if Z.rem n NANOS_PER_DAY <? 0 then (Z.rem n NANOS_PER_DAY + NANOS_PER_DAY, Z.quot n NANOS_PER_DAY - 1)
    else (Z.rem n NANOS_PER_DAY, Z.quot n NANOS_PER_DAY) in r = n mod NANOS_PER_DAY /\ d = n / NANOS_PER_DAY.
Proof.
  pose proof (Z.quot_rem' n NANOS_PER_DAY) as E. pose proof (Z.rem_bound_abs n NANOS_PER_DAY ltac:(done)) as B.
  set (r := Z.rem n NANOS_PER_DAY) in *. set (q := Z.quot n NANOS_PER_DAY) in *. clearbody r q. unfold NANOS_PER_DAY in *.
  destruct (Z.ltb_spec r 0) as [H|H].
  - split; [apply Z.mod_unique_pos with (q := q - 1)|apply Z.div_unique_pos with (r := r + 86400 * 1000000000)]; lia.
  - split; [apply Z.mod_unique_pos with (q := q)|apply Z.div_unique_pos with (r := r)]; lia.
Qed.
Lemma int96_roundtrip n :
  0 <= n / NANOS_PER_DAY + JULIAN_UNIX_EPOCH < 2 ^ 32 -> int96ToEpochNanos (epochNanosToInt96 n) = Ok n.
Proof.
  intros Hd. unfold epochNanosToInt96. cbv zeta. pose proof (floor_split n) as H.
  destruct (if Z.rem n NANOS_PER_DAY <? 0 then _ else _) as [r d]. destruct H as [-> ->]. unfold int96ToEpochNanos.
  rewrite zlen_app. unfold zlen. rewrite !length_le_bytes. change (Z.of_nat 8 + Z.of_nat 4 <? 12) with false. cbv iota zeta.
  rewrite take_app_length', drop_app_length' by (by rewrite length_le_bytes). rewrite take_ge by (rewrite length_le_bytes; lia).
  rewrite !le_val_bytes. assert (Hm : 0 <= n mod NANOS_PER_DAY < NANOS_PER_DAY) by (apply Z.mod_pos_bound; done).
  pose proof (Z.div_mod n NANOS_PER_DAY ltac:(done)) as E. set (m := n mod NANOS_PER_DAY) in *. clearbody m.
  rewrite (Z.mod_small m), (Z.mod_small (n / NANOS_PER_DAY + JULIAN_UNIX_EPOCH)); [f_equal; lia|exact Hd|].
  unfold NANOS_PER_DAY in Hm. cbn. lia.
Qed.

(** ** Half-precision numbers survive *)
Definition is_nan16 (w : Z) : bool := ((w / 2 ^ 10) mod 32 =? 31) && negb (w mod 2 ^ 10 =? 0).
Lemma to_float16_finite s e m q n :
  0 <= s < 2 -> 0 <= e < 2047 -> 0 <= m < 2 ^ 52 ->
  let b := double_bits s e m in
  q = Z.max (scale b + 42) (-24) -> significand b = n * 2 ^ (q - scale b) ->
  (q + 24) * 2 ^ 10 + n < 31 * 2 ^ 10 ->
  to_float16 b = s * 2 ^ 15 + ((q + 24) * 2 ^ 10 + n).
Proof.
  intros Hs He Hm b Hq Hsig Hn. unfold to_float16. rewrite <- Hq, Hsig. subst b.
  rewrite sign_double, exponent_double by lia. replace (e =? 2047) with false by lia.
  rewrite round_div_exact by (apply Z.pow_pos_nonneg; lia). by rewrite Z.min_r by lia.
Qed.
(** The halves by sign, exponent and fraction. *)
Lemma float16_parts s e m :
  0 <= s < 2 -> 0 <= e < 32 -> 0 <= m < 2 ^ 10 -> (e = 31 -> m = 0) ->
  to_float16 (if e =? 31 then (if m =? 0 then double_bits s 2047 0 else NaN)
    else if e =? 0 then
      (if m =? 0 then double_bits s 0 0
       else let k := Z.log2 m in double_bits s (k + 999) (m * 2 ^ (52 - k) - 2 ^ 52))
    else double_bits s (e + 1008) (m * 2 ^ 42)) = s * 2 ^ 15 + e * 2 ^ 10 + m.
Proof.
  intros Hs He Hm Hn. destruct (Z.eqb_spec e 31) as [->|He31].
  - rewrite Hn by done. unfold to_float16. cbn [Z.eqb]. rewrite sign_double, exponent_double, fraction_double by lia.
    cbn [Z.eqb Pos.eqb]. lia.
  - destruct (Z.eqb_spec e 0) as [->|He0]; [destruct (Z.eqb_spec m 0) as [->|Hm0]|].
    + unfold to_float16, significand, scale. rewrite sign_double, exponent_double, fraction_double by lia.
      cbn [Z.eqb Pos.eqb]. change (round_div 0 _) with 0. lia.
    + destruct (normalised m) as [Hk Hf]; [lia|]. set (k := Z.log2 m) in *.
      assert (Hk' : k < 10) by (apply Z.log2_lt_pow2; lia). cbv zeta.
      rewrite (to_float16_finite s (k + 999) _ (-24) m); [lia|lia|lia|lia|..].
      * unfold scale. rewrite exponent_double by lia. lia.
      * unfold significand, scale. rewrite exponent_double, fraction_double by lia.
        replace (k + 999 =? 0) with false by lia. rewrite Z.max_l by lia.
        replace (-24 - (k + 999 - 1075)) with (52 - k) by lia. lia.
      * lia.
    + rewrite (to_float16_finite s (e + 1008) _ (e - 25) (2 ^ 10 + m)); [lia|lia|lia|lia|..].
      * unfold scale. rewrite exponent_double by lia. lia.
      * unfold significand, scale. rewrite exponent_double, fraction_double by lia.
        replace (e + 1008 =? 0) with false by lia. rewrite Z.max_l by lia.
        replace (e - 25 - (e + 1008 - 1075)) with 42 by lia. lia.
      * lia.
Qed.
Lemma to_of_float16 w : 0 <= w < 65536 -> is_nan16 w = false -> to_float16 (of_float16 w) = w.
Proof.
  intros Hw Hn. unfold of_float16. cbv zeta. rewrite float16_parts; [zdm|zdm|zdm|zdm|].
  unfold is_nan16 in Hn. intros He. rewrite He in Hn. cbn [Z.eqb Pos.eqb andb] in Hn.
  by apply negb_false_iff, Z.eqb_eq in Hn.
Qed.
Lemma float16_roundtrip lo hi :
  is_byte lo -> is_byte hi -> is_nan16 (lo + 256 * hi) = false ->
  numberToFloat16Bytes (float16BytesToNumber [lo; hi]) = [lo; hi].
Proof.
  intros Hl Hh Hn. unfold is_byte in *. change (float16BytesToNumber [lo; hi]) with (of_float16 (lo + 256 * hi)). unfold numberToFloat16Bytes.
  rewrite to_of_float16 by (done || lia). cbn [le_bytes].
  assert (E : (lo + 256 * hi) / 256 = hi) by (zdm). rewrite E. f_equal; [zdm|]. f_equal. zdm.
Qed.

(** The conversions of Parquet values are exact: a decimal in [n] bytes is
    read back as its value modulo 2^(8n) in the signed range, so that what fits
    is unchanged; an INT96 timestamp on a day the format has is read back to
    the nanosecond, also before 1970; a half-precision number that is not a NaN
    is written as the two bytes it was read from. *)
Theorem conversions_roundtrip (v : Z) (n : nat) (nanos lo hi : Z) :
  (0 < n)%nat -> 0 <= nanos / NANOS_PER_DAY + JULIAN_UNIX_EPOCH < 2 ^ 32 ->
  is_byte lo -> is_byte hi -> is_nan16 (lo + 256 * hi) = false ->
  decimalBytesToBigInt (bigIntToDecimalBytes v n) = signedN (8 * Z.of_nat n) v /\
  int96ToEpochNanos (epochNanosToInt96 nanos) = Ok nanos /\
  numberToFloat16Bytes (float16BytesToNumber [lo; hi]) = [lo; hi].
Proof.
  intros. split_and!; [by apply (decimal_roundtrip v n [])|by apply int96_roundtrip|by apply float16_roundtrip].
Qed.
Lemma conversions_roundtrip_witness :
  decimalBytesToBigInt (bigIntToDecimalBytes (-123) 2) = signedN (8 * Z.of_nat 2) (-123) /\
  int96ToEpochNanos (epochNanosToInt96 (-1)) = Ok (-1) /\
  numberToFloat16Bytes (float16BytesToNumber [1; 132]) = [1; 132].
Proof.
  apply (conversions_roundtrip (-123) 2 (-1) 1 132); [lia|by vm_compute|unfold is_byte; lia|unfold is_byte; lia|reflexivity].
Defined.
End ParquetConvert.
