(* ===== verification/ParquetMetadata.v ===== *)
(** Parquet metadata (src/js/data/parquet/metadata.ts): the structs of the
    file footer and the page headers, and their readers and writers over the
    Thrift [Protocol] interface; the codes of types.ts.

    The callback that [readFields] calls for a field id is a function from the
    object under construction to the computation that updates it, or nothing
    where the callback returns [false].  Loops over the input take fuel. *)

From coqutil Require Import Datatypes.RecordSetters.
From S2P Require Import Prelude Utf8 ThriftIO ThriftProtocol ThriftValue ThriftCompact.

Module ParquetMetadata.
Import TriangleBracketNotations ThriftIO ThriftProtocol.
Import ThriftValue.

(** ** types.ts *)
Module LogicalTypeId.
Definition STRING := 1.
Definition MAP := 2.
Definition LIST := 3.
Definition ENUM := 4.
Definition DECIMAL := 5.
Definition DATE := 6.
Definition TIME := 7.
Definition TIMESTAMP := 8.
Definition INTEGER := 10.
Definition UNKNOWN := 11.
Definition JSON := 12.
Definition BSON := 13.
Definition UUID := 14.
Definition FLOAT16 := 15.
End LogicalTypeId.
Module TimeUnitId.
Definition MILLIS := 1.
Definition MICROS := 2.
Definition NANOS := 3.
End TimeUnitId.

(** ** The structs *)
Record Statistics := {
  st_max : option (list Z); st_min : option (list Z); st_nullCount : option Z; st_distinctCount : option Z;
  st_maxValue : option (list Z); st_minValue : option (list Z);
}.
Record DecimalType := { dt_scale : Z; dt_precision : Z }.
Record TimeUnit := { tu_unit : Z }.
Record TimeType := { tt_isAdjustedToUTC : bool; tt_unit : TimeUnit }.
Record TimestampType := { ts_isAdjustedToUTC : bool; ts_unit : TimeUnit }.
Record IntType := { it_bitWidth : Z; it_isSigned : bool }.
(** The names a logical type's [kind] can have. *)
Inductive LogicalKind :=
| KString | KMap | KList | KEnum | KDecimal | KDate | KTime | KTimestamp | KInteger | KUnknown | KJson | KBson | KUuid | KFloat16.
Record LogicalType := {
  lt_kind : LogicalKind; lt_decimal : option DecimalType; lt_time : option TimeType;
  lt_timestamp : option TimestampType; lt_integer : option IntType;
}.
Record SchemaElement := {
  se_type : option Z; se_typeLength : option Z; se_repetitionType : option Z; se_name : jsstring; se_numChildren : option Z;
  se_convertedType : option Z; se_scale : option Z; se_precision : option Z; se_fieldId : option Z;
  se_logicalType : option LogicalType;
}.
Record KeyValue := { kv_key : jsstring; kv_value : option jsstring }.
Record ColumnMetaData := {
  cm_type : Z; cm_encodings : list Z; cm_pathInSchema : list jsstring; cm_codec : Z; cm_numValues : Z;
  cm_totalUncompressedSize : Z; cm_totalCompressedSize : Z; cm_keyValueMetadata : option (list KeyValue);
  cm_dataPageOffset : Z; cm_indexPageOffset : option Z; cm_dictionaryPageOffset : option Z;
  cm_statistics : option Statistics;
}.
Record ColumnChunk := { cc_filePath : option jsstring; cc_fileOffset : Z; cc_metaData : option ColumnMetaData }.
Record RowGroup := {
  rg_columns : list ColumnChunk; rg_totalByteSize : Z; rg_numRows : Z; rg_fileOffset : option Z;
  rg_totalCompressedSize : option Z; rg_ordinal : option Z;
}.
Record FileMetaData := {
  fm_version : Z; fm_schema : list SchemaElement; fm_numRows : Z; fm_rowGroups : list RowGroup;
  fm_keyValueMetadata : option (list KeyValue); fm_createdBy : option jsstring;
}.
Record DataPageHeader := {
  dh_numValues : Z; dh_encoding : Z; dh_definitionLevelEncoding : Z; dh_repetitionLevelEncoding : Z;
  dh_statistics : option Statistics;
}.
Record DictionaryPageHeader := { ih_numValues : Z; ih_encoding : Z; ih_isSorted : option bool }.
Record DataPageHeaderV2 := {
  d2_numValues : Z; d2_numNulls : Z; d2_numRows : Z; d2_encoding : Z; d2_definitionLevelsByteLength : Z;
  d2_repetitionLevelsByteLength : Z; d2_isCompressed : bool; d2_statistics : option Statistics;
}.
Record PageHeader := {
  ph_type : Z; ph_uncompressedPageSize : Z; ph_compressedPageSize : Z; ph_crc : option Z;
  ph_dataPageHeader : option DataPageHeader; ph_dictionaryPageHeader : option DictionaryPageHeader;
  ph_dataPageHeaderV2 : option DataPageHeaderV2;
}.

(** ** Reading *)
Section read.
Context {P : Protocol} (fuel : nat).

(** The callback of [readFields]. *)
Definition handler (T : Type) : Type := T -> Z -> option (ST PR T).
(** [x.f = p.readF(); return true]. *)
Definition on {A T} (rd : ST PR A) (set : A -> T) : option (ST PR T) := Some (v ← rd; mret (set v)).

Fixpoint fields_loop {T} (n : nat) (h : handler T) (x : T) : ST PR T :=
  match n with
  | O => throw Diverges
  | S n =>
      field ← readFieldBegin;
      if fh_type field =? TType.STOP then mret x
      else
        x ← match h x (fh_id field) with Some m => m | None => ThriftValue.skip fuel (fh_type field);; mret x end;
        readFieldEnd;; fields_loop n h x
  end.
Definition readFields {T} (h : handler T) (x : T) : ST PR T :=
  readStructBegin;; x ← fields_loop fuel h x; readStructEnd;; mret x.

(** [for (let i = 0; i < size; i++) out.push(readOne(p))] *)
Fixpoint list_loop {T} (n : nat) (readOne : ST PR T) (size : Z) : ST PR (list T) :=
  match n with
  | O => throw Diverges
  | S n =>
      if 0 <? size then x ← readOne; out ← list_loop n readOne (size - 1); mret (x :: out)
      else mret []
  end.
Definition readStructList {T} (readOne : ST PR T) : ST PR (list T) :=
  header ← readListBegin; out ← list_loop fuel readOne (list_size header); readListEnd;; mret out.
Definition readI32List : ST PR (list Z) :=
  header ← readListBegin; out ← list_loop fuel readI32 (list_size header); readListEnd;; mret out.
Definition readStringList : ST PR (list jsstring) :=
  header ← readListBegin; out ← list_loop fuel ThriftProtocol.readString (list_size header); readListEnd;; mret out.

Definition readStatistics : ST PR Statistics :=
  readFields (fun s id =>
    match id with
    | 1 => on readBinary (fun v => s <| st_max := Some v |>)
    | 2 => on readBinary (fun v => s <| st_min := Some v |>)
    | 3 => on readI64 (fun v => s <| st_nullCount := Some v |>)
    | 4 => on readI64 (fun v => s <| st_distinctCount := Some v |>)
    | 5 => on readBinary (fun v => s <| st_maxValue := Some v |>)
    | 6 => on readBinary (fun v => s <| st_minValue := Some v |>)
    | _ => None
    end)
    {| st_max := None; st_min := None; st_nullCount := None; st_distinctCount := None; st_maxValue := None; st_minValue := None |}.

Definition readTimeUnit : ST PR TimeUnit :=
  unit ← readFields (fun unit id =>
    if (id =? TimeUnitId.MILLIS) || (id =? TimeUnitId.MICROS) || (id =? TimeUnitId.NANOS)
    then on (ThriftValue.skip fuel TType.STRUCT) (fun _ => id)
    else None) TimeUnitId.MILLIS;
  mret {| tu_unit := unit |}.
(** The structs of the variants of a logical type. *)
Definition read_decimal : ST PR DecimalType :=
  readFields (fun d fid =>
    if fid =? 1 then on readI32 (fun v => d <| dt_scale := v |>)
    else if fid =? 2 then on readI32 (fun v => d <| dt_precision := v |>)
    else None) {| dt_scale := 0; dt_precision := 0 |}.
Definition read_time : ST PR (bool * TimeUnit) :=
  readFields (fun t fid =>
    if fid =? 1 then on readBool (fun v => (v, t.2))
    else if fid =? 2 then on readTimeUnit (fun u => (t.1, u))
    else None) (false, {| tu_unit := TimeUnitId.MILLIS |}).
Definition read_integer : ST PR IntType :=
  readFields (fun i fid =>
    if fid =? 1 then on readByte (fun v => i <| it_bitWidth := v |>)
    else if fid =? 2 then on readBool (fun v => i <| it_isSigned := v |>)
    else None) {| it_bitWidth := 0; it_isSigned := true |}.
(** [lt.kind = kind; skip(p, TType.STRUCT)] *)
Definition empty_variant (lt : LogicalType) (kind : LogicalKind) : option (ST PR LogicalType) :=
  on (ThriftValue.skip fuel TType.STRUCT) (fun _ => lt <| lt_kind := kind |>).
Definition readLogicalType : ST PR LogicalType :=
  readFields (fun lt id =>
    if id =? LogicalTypeId.STRING then empty_variant lt KString
    else if id =? LogicalTypeId.MAP then empty_variant lt KMap
    else if id =? LogicalTypeId.LIST then empty_variant lt KList
    else if id =? LogicalTypeId.ENUM then empty_variant lt KEnum
    else if id =? LogicalTypeId.DECIMAL then
      on read_decimal (fun d => lt <| lt_kind := KDecimal |> <| lt_decimal := Some d |>)
    else if id =? LogicalTypeId.DATE then empty_variant lt KDate
    else if id =? LogicalTypeId.TIME then
      on read_time (fun t => lt <| lt_kind := KTime |>
                                <| lt_time := Some {| tt_isAdjustedToUTC := t.1; tt_unit := t.2 |} |>)
    else if id =? LogicalTypeId.TIMESTAMP then
      on read_time (fun t => lt <| lt_kind := KTimestamp |>
                                <| lt_timestamp := Some {| ts_isAdjustedToUTC := t.1; ts_unit := t.2 |} |>)
    else if id =? LogicalTypeId.INTEGER then
      on read_integer (fun i => lt <| lt_kind := KInteger |> <| lt_integer := Some i |>)
    else if id =? LogicalTypeId.JSON then empty_variant lt KJson
    else if id =? LogicalTypeId.BSON then empty_variant lt KBson
    else if id =? LogicalTypeId.UUID then empty_variant lt KUuid
    else if id =? LogicalTypeId.FLOAT16 then empty_variant lt KFloat16
    else None)
    {| lt_kind := KUnknown; lt_decimal := None; lt_time := None; lt_timestamp := None; lt_integer := None |}.

Definition readSchemaElement : ST PR SchemaElement :=
  readFields (fun el id =>
    match id with
    | 1 => on readI32 (fun v => el <| se_type := Some v |>)
    | 2 => on readI32 (fun v => el <| se_typeLength := Some v |>)
    | 3 => on readI32 (fun v => el <| se_repetitionType := Some v |>)
    | 4 => on ThriftProtocol.readString (fun v => el <| se_name := v |>)
    | 5 => on readI32 (fun v => el <| se_numChildren := Some v |>)
    | 6 => on readI32 (fun v => el <| se_convertedType := Some v |>)
    | 7 => on readI32 (fun v => el <| se_scale := Some v |>)
    | 8 => on readI32 (fun v => el <| se_precision := Some v |>)
    | 9 => on readI32 (fun v => el <| se_fieldId := Some v |>)
    | 10 => on readLogicalType (fun v => el <| se_logicalType := Some v |>)
    | _ => None
    end)
    {| se_type := None; se_typeLength := None; se_repetitionType := None; se_name := []; se_numChildren := None;
       se_convertedType := None; se_scale := None; se_precision := None; se_fieldId := None; se_logicalType := None |}.

Definition readKeyValue : ST PR KeyValue :=
  readFields (fun kv id =>
    if id =? 1 then on ThriftProtocol.readString (fun v => kv <| kv_key := v |>)
    else if id =? 2 then on ThriftProtocol.readString (fun v => kv <| kv_value := Some v |>)
    else None) {| kv_key := []; kv_value := None |}.

Definition readColumnMetaData : ST PR ColumnMetaData :=
  readFields (fun cm id =>
    match id with
    | 1 => on readI32 (fun v => cm <| cm_type := v |>)
    | 2 => on readI32List (fun v => cm <| cm_encodings := v |>)
    | 3 => on readStringList (fun v => cm <| cm_pathInSchema := v |>)
    | 4 => on readI32 (fun v => cm <| cm_codec := v |>)
    | 5 => on readI64 (fun v => cm <| cm_numValues := v |>)
    | 6 => on readI64 (fun v => cm <| cm_totalUncompressedSize := v |>)
    | 7 => on readI64 (fun v => cm <| cm_totalCompressedSize := v |>)
    | 8 => on (readStructList readKeyValue) (fun v => cm <| cm_keyValueMetadata := Some v |>)
    | 9 => on readI64 (fun v => cm <| cm_dataPageOffset := v |>)
    | 10 => on readI64 (fun v => cm <| cm_indexPageOffset := Some v |>)
    | 11 => on readI64 (fun v => cm <| cm_dictionaryPageOffset := Some v |>)
    | 12 => on readStatistics (fun v => cm <| cm_statistics := Some v |>)
    | _ => None
    end)
    {| cm_type := 0; cm_encodings := []; cm_pathInSchema := []; cm_codec := 0; cm_numValues := 0;
       cm_totalUncompressedSize := 0; cm_totalCompressedSize := 0; cm_keyValueMetadata := None; cm_dataPageOffset := 0;
       cm_indexPageOffset := None; cm_dictionaryPageOffset := None; cm_statistics := None |}.

Definition readColumnChunk : ST PR ColumnChunk :=
  readFields (fun cc id =>
    match id with
    | 1 => on ThriftProtocol.readString (fun v => cc <| cc_filePath := Some v |>)
    | 2 => on readI64 (fun v => cc <| cc_fileOffset := v |>)
    | 3 => on readColumnMetaData (fun v => cc <| cc_metaData := Some v |>)
    | _ => None
    end) {| cc_filePath := None; cc_fileOffset := 0; cc_metaData := None |}.

Definition readRowGroup : ST PR RowGroup :=
  readFields (fun rg id =>
    match id with
    | 1 => on (readStructList readColumnChunk) (fun v => rg <| rg_columns := v |>)
    | 2 => on readI64 (fun v => rg <| rg_totalByteSize := v |>)
    | 3 => on readI64 (fun v => rg <| rg_numRows := v |>)
    | 5 => on readI64 (fun v => rg <| rg_fileOffset := Some v |>)
    | 6 => on readI64 (fun v => rg <| rg_totalCompressedSize := Some v |>)
    | 7 => on readI16 (fun v => rg <| rg_ordinal := Some v |>)
    | _ => None
    end)
    {| rg_columns := []; rg_totalByteSize := 0; rg_numRows := 0; rg_fileOffset := None; rg_totalCompressedSize := None;
       rg_ordinal := None |}.

Definition readFileMetaDataStruct : ST PR FileMetaData :=
  readFields (fun fm id =>
    match id with
    | 1 => on readI32 (fun v => fm <| fm_version := v |>)
    | 2 => on (readStructList readSchemaElement) (fun v => fm <| fm_schema := v |>)
    | 3 => on readI64 (fun v => fm <| fm_numRows := v |>)
    | 4 => on (readStructList readRowGroup) (fun v => fm <| fm_rowGroups := v |>)
    | 5 => on (readStructList readKeyValue) (fun v => fm <| fm_keyValueMetadata := Some v |>)
    | 6 => on ThriftProtocol.readString (fun v => fm <| fm_createdBy := Some v |>)
    | _ => None
    end)
    {| fm_version := 0; fm_schema := []; fm_numRows := 0; fm_rowGroups := []; fm_keyValueMetadata := None; fm_createdBy := None |}.

Definition readDataPageHeader : ST PR DataPageHeader :=
  readFields (fun h id =>
    match id with
    | 1 => on readI32 (fun v => h <| dh_numValues := v |>)
    | 2 => on readI32 (fun v => h <| dh_encoding := v |>)
    | 3 => on readI32 (fun v => h <| dh_definitionLevelEncoding := v |>)
    | 4 => on readI32 (fun v => h <| dh_repetitionLevelEncoding := v |>)
    | 5 => on readStatistics (fun v => h <| dh_statistics := Some v |>)
    | _ => None
    end)
    {| dh_numValues := 0; dh_encoding := 0; dh_definitionLevelEncoding := 0; dh_repetitionLevelEncoding := 0;
       dh_statistics := None |}.
Definition readDictionaryPageHeader : ST PR DictionaryPageHeader :=
  readFields (fun h id =>
    match id with
    | 1 => on readI32 (fun v => h <| ih_numValues := v |>)
    | 2 => on readI32 (fun v => h <| ih_encoding := v |>)
    | 3 => on readBool (fun v => h <| ih_isSorted := Some v |>)
    | _ => None
    end) {| ih_numValues := 0; ih_encoding := 0; ih_isSorted := None |}.
Definition readDataPageHeaderV2 : ST PR DataPageHeaderV2 :=
  readFields (fun h id =>
    match id with
    | 1 => on readI32 (fun v => h <| d2_numValues := v |>)
    | 2 => on readI32 (fun v => h <| d2_numNulls := v |>)
    | 3 => on readI32 (fun v => h <| d2_numRows := v |>)
    | 4 => on readI32 (fun v => h <| d2_encoding := v |>)
    | 5 => on readI32 (fun v => h <| d2_definitionLevelsByteLength := v |>)
    | 6 => on readI32 (fun v => h <| d2_repetitionLevelsByteLength := v |>)
    | 7 => on readBool (fun v => h <| d2_isCompressed := v |>)
    | 8 => on readStatistics (fun v => h <| d2_statistics := Some v |>)
    | _ => None
    end)
    {| d2_numValues := 0; d2_numNulls := 0; d2_numRows := 0; d2_encoding := 0; d2_definitionLevelsByteLength := 0;
       d2_repetitionLevelsByteLength := 0; d2_isCompressed := true; d2_statistics := None |}.
(** The fields of a page header. *)
Definition read_page_header : ST PR PageHeader :=
  readFields (fun h id =>
    match id with
    | 1 => on readI32 (fun v => h <| ph_type := v |>)
    | 2 => on readI32 (fun v => h <| ph_uncompressedPageSize := v |>)
    | 3 => on readI32 (fun v => h <| ph_compressedPageSize := v |>)
    | 4 => on readI32 (fun v => h <| ph_crc := Some v |>)
    | 5 => on readDataPageHeader (fun v => h <| ph_dataPageHeader := Some v |>)
    | 7 => on readDictionaryPageHeader (fun v => h <| ph_dictionaryPageHeader := Some v |>)
    | 8 => on readDataPageHeaderV2 (fun v => h <| ph_dataPageHeaderV2 := Some v |>)
    | _ => None
    end)
    {| ph_type := 0; ph_uncompressedPageSize := 0; ph_compressedPageSize := 0; ph_crc := None; ph_dataPageHeader := None;
       ph_dictionaryPageHeader := None; ph_dataPageHeaderV2 := None |}.
End read.

(** ** Writing *)
Section write.
Context {P : Protocol}.

(** [p.writeFieldBegin('', type, id); ...; p.writeFieldEnd()], and the same
    under [if (x !== undefined)]. *)
Definition field (type id : Z) (w : ST PW unit) : ST PW unit := writeFieldBegin [] type id;; w;; writeFieldEnd.
Definition opt_field {A} (x : option A) (type id : Z) (w : A -> ST PW unit) : ST PW unit :=
  match x with Some v => field type id (w v) | None => mret tt end.
(** [p.writeListBegin(type, xs.length); for (const x of xs) write(p, x); p.writeListEnd()] *)
Definition write_list {A} (type : Z) (write : A -> ST PW unit) (xs : list A) : ST PW unit :=
  writeListBegin type (zlen xs);; forEach write xs;; writeListEnd.
Definition write_end : ST PW unit := writeFieldStop;; writeStructEnd.

Definition writeStatistics (s : Statistics) : ST PW unit :=
  writeStructBegin;;
  opt_field (st_max s) TType.STRING 1 writeBinary;;
  opt_field (st_min s) TType.STRING 2 writeBinary;;
  opt_field (st_nullCount s) TType.I64 3 writeI64;;
  opt_field (st_distinctCount s) TType.I64 4 writeI64;;
  opt_field (st_maxValue s) TType.STRING 5 writeBinary;;
  opt_field (st_minValue s) TType.STRING 6 writeBinary;;
  write_end.

Definition write_empty : ST PW unit := writeStructBegin;; write_end.
Definition writeTimeUnit (u : TimeUnit) : ST PW unit :=
  writeStructBegin;; field TType.STRUCT (tu_unit u) write_empty;; write_end.
Definition writeEmptyVariant (id : Z) : ST PW unit := field TType.STRUCT id write_empty.
(** [lt.decimal!.scale] and the like on a missing payload. *)
Definition payload {A} (x : option A) (w : A -> ST PW unit) : ST PW unit :=
  match x with Some v => w v | None => throw (TypeError "cannot read properties of undefined") end.
Definition write_time (utc : bool) (u : TimeUnit) : ST PW unit :=
  writeStructBegin;; field TType.BOOL 1 (writeBool utc);; field TType.STRUCT 2 (writeTimeUnit u);; write_end.
Definition write_variant (lt : LogicalType) : ST PW unit :=
  match lt_kind lt with
  | KString => writeEmptyVariant LogicalTypeId.STRING
  | KMap => writeEmptyVariant LogicalTypeId.MAP
  | KList => writeEmptyVariant LogicalTypeId.LIST
  | KEnum => writeEmptyVariant LogicalTypeId.ENUM
  | KDate => writeEmptyVariant LogicalTypeId.DATE
  | KJson => writeEmptyVariant LogicalTypeId.JSON
  | KBson => writeEmptyVariant LogicalTypeId.BSON
  | KUuid => writeEmptyVariant LogicalTypeId.UUID
  | KFloat16 => writeEmptyVariant LogicalTypeId.FLOAT16
  | KUnknown => writeEmptyVariant LogicalTypeId.UNKNOWN
  | KDecimal =>
      field TType.STRUCT LogicalTypeId.DECIMAL (
        writeStructBegin;;
        field TType.I32 1 (payload (lt_decimal lt) (fun d => writeI32 (dt_scale d)));;
        field TType.I32 2 (payload (lt_decimal lt) (fun d => writeI32 (dt_precision d)));;
        write_end)
  | KTime =>
      field TType.STRUCT LogicalTypeId.TIME
        (payload (lt_time lt) (fun t => write_time (tt_isAdjustedToUTC t) (tt_unit t)))
  | KTimestamp =>
      field TType.STRUCT LogicalTypeId.TIMESTAMP
        (payload (lt_timestamp lt) (fun t => write_time (ts_isAdjustedToUTC t) (ts_unit t)))
  | KInteger =>
      field TType.STRUCT LogicalTypeId.INTEGER (
        writeStructBegin;;
        field TType.BYTE 1 (payload (lt_integer lt) (fun i => writeByte (it_bitWidth i)));;
        field TType.BOOL 2 (payload (lt_integer lt) (fun i => writeBool (it_isSigned i)));;
        write_end)
  end.
Definition writeLogicalType (lt : LogicalType) : ST PW unit := writeStructBegin;; write_variant lt;; write_end.

Definition writeSchemaElement (el : SchemaElement) : ST PW unit :=
  writeStructBegin;;
  opt_field (se_type el) TType.I32 1 writeI32;;
  opt_field (se_typeLength el) TType.I32 2 writeI32;;
  opt_field (se_repetitionType el) TType.I32 3 writeI32;;
  field TType.STRING 4 (ThriftProtocol.writeString (se_name el));;
  opt_field (se_numChildren el) TType.I32 5 writeI32;;
  opt_field (se_convertedType el) TType.I32 6 writeI32;;
  opt_field (se_scale el) TType.I32 7 writeI32;;
  opt_field (se_precision el) TType.I32 8 writeI32;;
  opt_field (se_fieldId el) TType.I32 9 writeI32;;
  opt_field (se_logicalType el) TType.STRUCT 10 writeLogicalType;;
  write_end.
Definition writeKeyValue (kv : KeyValue) : ST PW unit :=
  writeStructBegin;;
  field TType.STRING 1 (ThriftProtocol.writeString (kv_key kv));;
  opt_field (kv_value kv) TType.STRING 2 ThriftProtocol.writeString;;
  write_end.
Definition writeColumnMetaData (cm : ColumnMetaData) : ST PW unit :=
  writeStructBegin;;
  field TType.I32 1 (writeI32 (cm_type cm));;
  field TType.LIST 2 (write_list TType.I32 writeI32 (cm_encodings cm));;
  field TType.LIST 3 (write_list TType.STRING ThriftProtocol.writeString (cm_pathInSchema cm));;
  field TType.I32 4 (writeI32 (cm_codec cm));;
  field TType.I64 5 (writeI64 (cm_numValues cm));;
  field TType.I64 6 (writeI64 (cm_totalUncompressedSize cm));;
  field TType.I64 7 (writeI64 (cm_totalCompressedSize cm));;
  opt_field (cm_keyValueMetadata cm) TType.LIST 8 (write_list TType.STRUCT writeKeyValue);;
  field TType.I64 9 (writeI64 (cm_dataPageOffset cm));;
  opt_field (cm_indexPageOffset cm) TType.I64 10 writeI64;;
  opt_field (cm_dictionaryPageOffset cm) TType.I64 11 writeI64;;
  opt_field (cm_statistics cm) TType.STRUCT 12 writeStatistics;;
  write_end.
Definition writeColumnChunk (cc : ColumnChunk) : ST PW unit :=
  writeStructBegin;;
  opt_field (cc_filePath cc) TType.STRING 1 ThriftProtocol.writeString;;
  field TType.I64 2 (writeI64 (cc_fileOffset cc));;
  opt_field (cc_metaData cc) TType.STRUCT 3 writeColumnMetaData;;
  write_end.
Definition writeRowGroup (rg : RowGroup) : ST PW unit :=
  writeStructBegin;;
  field TType.LIST 1 (write_list TType.STRUCT writeColumnChunk (rg_columns rg));;
  field TType.I64 2 (writeI64 (rg_totalByteSize rg));;
  field TType.I64 3 (writeI64 (rg_numRows rg));;
  opt_field (rg_fileOffset rg) TType.I64 5 writeI64;;
  opt_field (rg_totalCompressedSize rg) TType.I64 6 writeI64;;
  opt_field (rg_ordinal rg) TType.I16 7 writeI16;;
  write_end.
Definition writeFileMetaDataStruct (fm : FileMetaData) : ST PW unit :=
  writeStructBegin;;
  field TType.I32 1 (writeI32 (fm_version fm));;
  field TType.LIST 2 (write_list TType.STRUCT writeSchemaElement (fm_schema fm));;
  field TType.I64 3 (writeI64 (fm_numRows fm));;
  field TType.LIST 4 (write_list TType.STRUCT writeRowGroup (fm_rowGroups fm));;
  opt_field (fm_keyValueMetadata fm) TType.LIST 5 (write_list TType.STRUCT writeKeyValue);;
  opt_field (fm_createdBy fm) TType.STRING 6 ThriftProtocol.writeString;;
  write_end.
Definition writeDataPageHeader (h : DataPageHeader) : ST PW unit :=
  writeStructBegin;;
  field TType.I32 1 (writeI32 (dh_numValues h));;
  field TType.I32 2 (writeI32 (dh_encoding h));;
  field TType.I32 3 (writeI32 (dh_definitionLevelEncoding h));;
  field TType.I32 4 (writeI32 (dh_repetitionLevelEncoding h));;
  opt_field (dh_statistics h) TType.STRUCT 5 writeStatistics;;
  write_end.
Definition writeDictionaryPageHeader (h : DictionaryPageHeader) : ST PW unit :=
  writeStructBegin;;
  field TType.I32 1 (writeI32 (ih_numValues h));;
  field TType.I32 2 (writeI32 (ih_encoding h));;
  opt_field (ih_isSorted h) TType.BOOL 3 writeBool;;
  write_end.
Definition writeDataPageHeaderV2 (h : DataPageHeaderV2) : ST PW unit :=
  writeStructBegin;;
  field TType.I32 1 (writeI32 (d2_numValues h));;
  field TType.I32 2 (writeI32 (d2_numNulls h));;
  field TType.I32 3 (writeI32 (d2_numRows h));;
  field TType.I32 4 (writeI32 (d2_encoding h));;
  field TType.I32 5 (writeI32 (d2_definitionLevelsByteLength h));;
  field TType.I32 6 (writeI32 (d2_repetitionLevelsByteLength h));;
  field TType.BOOL 7 (writeBool (d2_isCompressed h));;
  opt_field (d2_statistics h) TType.STRUCT 8 writeStatistics;;
  write_end.
Definition write_page_header (h : PageHeader) : ST PW unit :=
  writeStructBegin;;
  field TType.I32 1 (writeI32 (ph_type h));;
  field TType.I32 2 (writeI32 (ph_uncompressedPageSize h));;
  field TType.I32 3 (writeI32 (ph_compressedPageSize h));;
  opt_field (ph_crc h) TType.I32 4 writeI32;;
  opt_field (ph_dataPageHeader h) TType.STRUCT 5 writeDataPageHeader;;
  opt_field (ph_dictionaryPageHeader h) TType.STRUCT 7 writeDictionaryPageHeader;;
  opt_field (ph_dataPageHeaderV2 h) TType.STRUCT 8 writeDataPageHeaderV2;;
  write_end.
End write.

(** ** The exported functions, on the compact protocol *)
Import ThriftCompact.

(** Fuel for any input: see [read_footer_total]. *)
Definition input_fuel (input : list Z) : nat := 6 * length input + 2.
Definition run_writer (w : ST CompactWriter unit) : res (list Z) := '(_, w) ← w new_writer; Ok (cw_out w).
(** [offset] is not negative. *)
Definition readPageHeader (bytes : list Z) (offset : nat) : res (PageHeader * Z) :=
  let input := drop offset bytes in
  '(h, r) ← read_page_header (P := CompactProtocol) (input_fuel input) (new_compact_reader input);
  Ok (h, Z.of_nat offset + ThriftProtocol.position (Protocol := CompactProtocol) r).
Definition writePageHeader (h : PageHeader) : res (list Z) := run_writer (write_page_header (P := CompactProtocol) h).
Definition readFileMetaData (bytes : list Z) : res FileMetaData :=
  '(fm, _) ← readFileMetaDataStruct (P := CompactProtocol) (input_fuel bytes) (new_compact_reader bytes); Ok fm.
Definition writeFileMetaData (fm : FileMetaData) : res (list Z) :=
  run_writer (writeFileMetaDataStruct (P := CompactProtocol) fm).

(** ** Reading ends on every input *)
Create HintDb within_db.
Section total.
Context {P : Protocol} {C : Consuming P} {L : ConsumingLaws P C} (fuel n : nat).
Hypothesis Hfuel : (3 * n + 2 <= fuel)%nat.

(** The callbacks read within the input that is left. *)
Definition handler_within {T} (h : handler T) : Prop := forall x id m, h x id = Some m -> within n 0 m.

Lemma within_le {A} n' k (rd : ST PR A) : (n' <= n)%nat -> within n k rd -> within n' k rd.
Proof. intros Hn H r Hr Hw. apply H; [done|lia]. Qed.
Lemma on_within k {A T} (rd : ST PR A) (set : A -> T) m : within n k rd -> on rd set = Some m -> within n 0 m.
Proof.
  intros H [= <-]. apply (within_weaken _ k); [lia|]. apply within_head; [done|]. intros _ a. apply within_ret.
Qed.

Lemma fields_loop_within {T} (h : handler T) : handler_within h ->
  forall cnt m x, (m <= n)%nat -> (m + 1 <= cnt)%nat -> within m 1 (fields_loop fuel cnt h x).
Proof.
  intros Hh. induction cnt as [|cnt IH]; intros m x Hm Hc; [lia|]. cbn [fields_loop].
  apply within_head; [apply consumes_within, c_field_begin|]. intros Hm1 f. destruct (fh_type f =? TType.STOP); [apply within_ret|].
  apply (within_head _ 0).
  - destruct (h x (fh_id f)) as [rd|] eqn:E.
    + apply within_le; [lia|]. by eapply Hh.
    + apply (within_weaken _ 1); [lia|]. apply within_head; [|intros _ _; apply within_ret].
      apply (proj1 (skip_within fuel)). lia.
  - intros _ y. apply (within_head _ 0); [apply consumes_within, c_field_end|]. intros _ _.
    apply (within_weaken _ 1); [lia|]. apply IH; lia.
Qed.
Lemma readFields_within {T} (h : handler T) x : handler_within h -> within n 1 (readFields fuel h x).
Proof.
  intros Hh. unfold readFields. apply (within_bind _ 0 1); [apply consumes_within, c_struct_begin|]. intros _ _.
  rewrite Nat.sub_0_r. apply within_head; [apply fields_loop_within; [done|lia|lia]|]. intros _ y.
  apply (within_head _ 0); [apply consumes_within, c_struct_end|]. intros _ _. apply within_ret.
Qed.
Lemma list_loop_within {T} (rd : ST PR T) : within n 1 rd ->
  forall cnt m size, (m <= n)%nat -> (m + 1 <= cnt)%nat -> within m 0 (list_loop cnt rd size).
Proof.
  intros Hrd. induction cnt as [|cnt IH]; intros m size Hm Hc; [lia|]. cbn [list_loop].
  destruct (0 <? size); [|apply within_ret]. apply within_loop; [by apply within_le|]. intros Hm1 x.
  apply (within_head _ 0); [apply IH; lia|]. intros. apply within_ret.
Qed.
Lemma readStructList_within {T} (rd : ST PR T) : within n 1 rd -> within n 1 (readStructList fuel rd).
Proof.
  intros Hrd. apply within_head; [apply consumes_within, c_list_begin|]. intros Hn h.
  apply (within_head _ 0); [apply list_loop_within; [done|lia|lia]|]. intros _ l.
  apply (within_head _ 0); [apply consumes_within, c_list_end|]. intros. apply within_ret.
Qed.

Lemma skip_struct_within : within n 1 (ThriftValue.skip fuel TType.STRUCT).
Proof. by apply (proj1 (skip_within fuel)). Qed.

Ltac within_base :=
  first [apply consumes_within; first [apply c_i32|apply c_i64|apply c_i16|apply c_bool|apply c_byte|apply c_string|apply c_binary]
        |apply skip_struct_within|apply readStructList_within; within_base|solve [auto with within_db]].
Ltac within_struct :=
  apply readFields_within;
  let E := fresh "E" in
  intros ? ? ? E; repeat case_match; try discriminate E; (eapply (on_within 1); [|exact E]; within_base).

Lemma readI32List_within : within n 1 (readI32List fuel).
Proof. apply (readStructList_within readI32). within_base. Qed.
Lemma readStringList_within : within n 1 (readStringList fuel).
Proof. apply (readStructList_within ThriftProtocol.readString). within_base. Qed.
#[local] Hint Resolve readI32List_within readStringList_within : within_db.
Lemma readStatistics_within : within n 1 (readStatistics fuel).
Proof. within_struct. Qed.
Lemma readTimeUnit_within : within n 1 (readTimeUnit fuel).
Proof. apply within_head; [within_struct|]. intros. apply within_ret. Qed.
#[local] Hint Resolve readStatistics_within readTimeUnit_within : within_db.
Lemma variants_within : within n 1 (read_decimal fuel) /\ within n 1 (read_time fuel) /\ within n 1 (read_integer fuel).
Proof. split_and!; within_struct. Qed.
Lemma readLogicalType_within : within n 1 (readLogicalType fuel).
Proof. destruct variants_within as (? & ? & ?). unfold readLogicalType, empty_variant. within_struct. Qed.
Lemma readKeyValue_within : within n 1 (readKeyValue fuel).
Proof. within_struct. Qed.
#[local] Hint Resolve readLogicalType_within readKeyValue_within : within_db.
Lemma readSchemaElement_within : within n 1 (readSchemaElement fuel).
Proof. within_struct. Qed.
Lemma readColumnMetaData_within : within n 1 (readColumnMetaData fuel).
Proof. within_struct. Qed.
#[local] Hint Resolve readSchemaElement_within readColumnMetaData_within : within_db.
Lemma readColumnChunk_within : within n 1 (readColumnChunk fuel).
Proof. within_struct. Qed.
#[local] Hint Resolve readColumnChunk_within : within_db.
Lemma readRowGroup_within : within n 1 (readRowGroup fuel).
Proof. within_struct. Qed.
#[local] Hint Resolve readRowGroup_within : within_db.
Lemma readFileMetaDataStruct_within : within n 1 (readFileMetaDataStruct fuel).
Proof. within_struct. Qed.
Lemma page_headers_within :
  within n 1 (readDataPageHeader fuel) /\ within n 1 (readDictionaryPageHeader fuel) /\ within n 1 (readDataPageHeaderV2 fuel).
Proof. split_and!; within_struct. Qed.
Lemma read_page_header_within : within n 1 (read_page_header fuel).
Proof. destruct page_headers_within as (? & ? & ?). within_struct. Qed.
End total.

(** Reads of the compact protocol leave the input alone: the same laws with
    the input fixed. *)
Definition keeps {A} (rd : ST CompactReader A) : Prop :=
  forall r a r', reader_ok (cr_reader r) -> rd r = Ok (a, r') ->
  reader_ok (cr_reader r') /\ rd_bytes (cr_reader r') = rd_bytes (cr_reader r).
Definition Kept (input : list Z) : Consuming CompactProtocol :=
  @Build_Consuming CompactProtocol (fun r => reader_ok (cr_reader r) /\ rd_bytes (cr_reader r) = input) cr_weight.

Lemma keeps_consumes {A} input k (rd : ST CompactReader A) :
  keeps rd -> @consumes _ CompactConsuming _ k rd -> @consumes _ (Kept input) _ k rd.
Proof.
  intros Hk Hc r [Hr Hi]. specialize (Hc r Hr). destruct (rd r) as [[a r']|e] eqn:E; [|done].
  destruct Hc as [Hr' Hw]. split; [|done]. destruct (Hk _ _ _ Hr E) as [? Hb]. split; [done|]. by rewrite Hb.
Qed.
Lemma keeps_bind {A B} (m : ST CompactReader A) (f : A -> ST CompactReader B) : keeps m -> (forall a, keeps (f a)) -> keeps (m ≫= f).
Proof.
  intros Hm Hf r b r' Hr E. apply ST_bind_inv in E as (a & r1 & E1 & E2). destruct (Hm _ _ _ Hr E1) as [Hr1 <-]. by eapply Hf.
Qed.
Lemma keeps_reader {A} k (rd : ST ByteReader A) : progress k rd -> keeps (on_reader rd).
Proof.
  intros H r a r' Hr E. specialize (H (cr_reader r) Hr). unfold on_reader in E.
  destruct (rd (cr_reader r)) as [[x r1]|]; [|done]. injection E as _ <-. by destruct H as (? & ? & _).
Qed.
(** Steps that do not touch the cursor. *)
Lemma keeps_pure {A} (m : res A) : keeps (liftR m).
Proof. intros r a r' Hr E. unfold liftR in E. destruct m; [|done]. by injection E as _ <-. Qed.
Lemma keeps_set {A} (g : CompactReader -> A) (f : CompactReader -> CompactReader) :
  (forall r, cr_reader (f r) = cr_reader r) -> keeps (fun r => Ok (g r, f r)).
Proof. intros H r b r' Hr [= <- <-]. by rewrite H. Qed.

Ltac keep :=
  repeat first
    [ apply keeps_bind; [|intros] | apply keeps_pure | apply (keeps_pure (Ok _)) | case_match
    | eapply keeps_reader; first [apply progress_U8|apply progress_I8|apply progress_Zigzag32|apply progress_Zigzag64
        |apply progress_F64LE|apply progress_Varint32|apply progress_String|apply progress_Bytes]
    | apply keeps_set; done ].
Lemma keeps_field : keeps c_readFieldBegin.
Proof. unfold c_readFieldBegin, field_header, set_last_read, set_pending_value. cbv zeta. keep. Qed.
Lemma keeps_map : keeps c_readMapBegin.
Proof. unfold c_readMapBegin. keep. Qed.
Lemma keeps_list : keeps c_readListBegin.
Proof. unfold c_readListBegin. cbv zeta. keep. Qed.
Lemma keeps_bool : keeps c_readBool.
Proof.
  intros r a r' Hr E. unfold c_readBool in E. destruct (cr_pendingBoolValue r).
  - revert r a r' Hr E. change (keeps (set_pending_value None;; mret b)). unfold set_pending_value. keep.
  - revert r a r' Hr E. change (keeps (b ← on_reader readU8; mret (b =? CType.BOOLEAN_TRUE))). keep.
Qed.
Lemma KeptLaws input : ConsumingLaws CompactProtocol (Kept input).
Proof.
  split.
  - apply keeps_consumes, c_struct_begin. by apply (keeps_set (fun _ => None)).
  - apply keeps_consumes, c_struct_end. by apply (keeps_set (fun _ => tt)).
  - apply keeps_consumes, c_field_begin. apply keeps_field.
  - apply keeps_consumes, c_field_end. apply (keeps_pure (Ok tt)).
  - apply keeps_consumes, c_list_begin. apply keeps_list.
  - apply keeps_consumes, c_list_end. apply (keeps_pure (Ok tt)).
  - apply keeps_consumes, c_set_begin. apply keeps_list.
  - apply keeps_consumes, c_set_end. apply (keeps_pure (Ok tt)).
  - apply keeps_consumes, c_map_begin. apply keeps_map.
  - apply keeps_consumes, c_map_end. apply (keeps_pure (Ok tt)).
  - apply keeps_consumes, c_bool. apply keeps_bool.
  - apply keeps_consumes, c_byte. apply (keeps_reader _ _ progress_I8).
  - apply keeps_consumes, c_i16. apply (keeps_reader _ _ progress_Zigzag32).
  - apply keeps_consumes, c_i32. apply (keeps_reader _ _ progress_Zigzag32).
  - apply keeps_consumes, c_i64. apply (keeps_reader _ _ progress_Zigzag64).
  - apply keeps_consumes, c_double. apply (keeps_reader _ _ progress_F64LE).
  - apply keeps_consumes, c_string. change (keeps readStringValue). unfold readStringValue. keep.
  - apply keeps_consumes, c_binary. change (keeps c_readBinary). unfold c_readBinary. keep.
Qed.

(** Reading a footer or a page header ends on every input, truncated and
    hostile ones included: [readFileMetaData] and [readPageHeader] return or
    throw an error of the code, with fuel linear in the input; a page header
    that is returned took at least one byte and ends inside the input. *)
Theorem metadata_read_total (input : list Z) (offset : nat) :
  match readFileMetaData input with Ok _ => True | Throw e => e <> Diverges end /\
  match readPageHeader input offset with
  | Ok (_, stop) => Z.of_nat offset < stop <= zlen input
  | Throw e => e <> Diverges
  end.
Proof.
  assert (W : forall i, (cr_weight (new_compact_reader i) <= 2 * length i)%nat) by (intros; unfold cr_weight; simpl; lia).
  assert (F : forall i, (3 * (2 * length i) + 2 <= input_fuel i)%nat) by (intros; unfold input_fuel; lia). split.
  - unfold readFileMetaData.
    pose proof (@readFileMetaDataStruct_within _ _ (KeptLaws input) _ _ (F input) (new_compact_reader input)
      (conj (new_reader_ok _) eq_refl) (W input)) as H.
    by destruct (readFileMetaDataStruct (P := CompactProtocol) _ _) as [[fm r]|e].
  - unfold readPageHeader. set (i := drop offset input).
    pose proof (@read_page_header_within _ _ (KeptLaws i) _ _ (F i) (new_compact_reader i)
      (conj (new_reader_ok _) eq_refl) (W i)) as H.
    destruct (read_page_header (P := CompactProtocol) _ _) as [[h r]|e]; [|done]. cbn [mbind res_bind].
    destruct H as [[Hr Hb] Hw]. cbn in Hw. unfold cr_weight in Hw. cbn in Hw. unfold reader_ok in Hr. rewrite Hb in *.
    subst i. rewrite length_drop in *. cbn. unfold zlen. lia.
Qed.
End ParquetMetadata.
