(* ===== verification/ParquetFooter.v ===== *)
(** Parquet footers and page headers survive their Thrift encoding: every
    struct of [ParquetMetadata] is read back as it was written, through the
    compact protocol of [ThriftCompact].

    [val w rd a] says that [w] writes bytes that [rd] reads as [a]; a struct is
    handled field by field with [tail_ok], which follows a writer and the loop
    of [readFields] side by side. *)

From coqutil Require Import Datatypes.RecordSetters.
From S2P Require Import Prelude Utf8 ThriftIO ThriftProtocol ThriftValue ThriftCompact ParquetMetadata.

Module ParquetFooter.
Import Utf8 ThriftIO ThriftCompact ThriftProtocol ThriftValue ParquetMetadata.

Abbreviation W := (ST CompactWriter unit).
Abbreviation R := (ST CompactReader).

(** ** Values *)

(** [w] writes at least one byte, and [rd] reads what it wrote as [a]. *)
Definition val {A} (w : W) (rd : nat -> R A) (a : A) : Prop :=
  forall c, exists bs, (1 <= length bs)%nat /\ emits c w bs tt c /\
  forall fuel, (length bs + 2 <= fuel)%nat -> accepts c (rd fuel) bs a c.

Lemma accepts_nonempty {A} c c' (rd : R A) bs a : consumes 1 rd -> accepts c rd bs a c' -> (1 <= length bs)%nat.
Proof.
  intros Hc Ha.
  set (r := {| cr_reader := new_reader bs; cr_lastFieldIdRead := c.1; cr_fieldIdStackRead := c.2; cr_pendingBoolValue := None |}).
  destruct (Ha r []) as (r' & E & _); [split; [done|apply new_reader_ok]|by destruct c|by rewrite app_nil_r|].
  specialize (Hc r (new_reader_ok _)). rewrite E in Hc. destruct Hc as [_ Hw]. cbn in Hw. unfold cr_weight in Hw. cbn in Hw. lia.
Qed.
Lemma val_prim {A} (w : W) (rd : R A) a : consumes 1 rd -> (forall c, codec c w rd a rd a c) -> val w (fun _ => rd) a.
Proof.
  intros Hc H c. destruct (H c) as (bs & He & Ha & _). exists bs. split_and!; [by eapply accepts_nonempty|done|done].
Qed.

Definition str_ok (s : jsstring) : Prop := plain_string s /\ zlen (encodeUtf8 s) < 2 ^ 31.
Definition bin_ok (b : list Z) : Prop := zlen b < 2 ^ 31.
Lemma val_i16 x : is_int 16 x -> val (writeI16 x) (fun _ => readI16) x.
Proof. intros H. apply val_prim; [apply c_i16|]. intros. by apply law_i16. Qed.
Lemma val_i32 x : is_int 32 x -> val (writeI32 x) (fun _ => readI32) x.
Proof. intros H. apply val_prim; [apply c_i32|]. intros. by apply law_i32. Qed.
Lemma val_i64 x : is_int 64 x -> val (writeI64 x) (fun _ => readI64) x.
Proof. intros H. apply val_prim; [apply c_i64|]. intros. by apply law_i64. Qed.
Lemma val_byte x : is_int 8 x -> val (writeByte x) (fun _ => readByte) x.
Proof. intros H. apply val_prim; [apply c_byte|]. intros. by apply law_byte. Qed.
Lemma val_string s : str_ok s -> val (ThriftProtocol.writeString s) (fun _ => ThriftProtocol.readString) s.
Proof.
  intros [Hs Hl] c. destruct (law_string c s Hs Hl) as (bs & He & Ha & _). exists bs.
  split_and!; [eapply accepts_nonempty, Ha; apply c_string|done|done].
Qed.
Lemma val_binary b : bin_ok b -> val (writeBinary b) (fun _ => readBinary) b.
Proof.
  intros Hb. apply val_prim; [apply c_binary|]. intros c. pose proof (zlen_nonneg b).
  exists (varint_bytes 10 (zlen b) ++ b). assert (accepts c c_readBinary (varint_bytes 10 (zlen b) ++ b) b c).
  { eapply accepts_seq; [apply accepts_reader, reads_Varint32; unfold bin_ok in Hb; lia|]. apply accepts_reader, reads_Bytes. }
  split; [|done]. eapply emits_seq; [apply emits_writer, writes_Varint; unfold bin_ok in Hb; lia|].
  apply emits_writer, writes_append.
Qed.

(** ** Structs *)

(** From the object [x], the loop over the fields that [k] writes, up to the
    end of the struct, gives [y]. *)
Definition tail_ok {T} (h : nat -> handler T) (x : T) (k : W) (y : T) : Prop :=
  forall c, exists bs, (1 <= length bs)%nat /\ emits c k bs tt (leave c) /\
  forall fuel cnt, (length bs + 2 <= fuel)%nat -> (length bs <= cnt)%nat ->
    accepts c (x ← fields_loop fuel cnt (h fuel) x; readStructEnd;; mret x : R T) bs y (leave c).

Lemma tail_end {T} (h : nat -> handler T) x : tail_ok h x write_end x.
Proof.
  intros c. destruct (law_field_stop c) as (b1 & He1 & Ha1 & _). destruct (law_struct_end c) as (b2 & He2 & Ha2 & _).
  assert (1 <= length b1)%nat by (eapply accepts_nonempty, Ha1; apply c_field_begin).
  exists (b1 ++ b2). rewrite length_app. split_and!; [lia|by eapply emits_seq|]. intros fuel cnt Hf Hc.
  destruct cnt as [|cnt]; [lia|]. cbn [fields_loop]. apply accepts_assoc. eapply accepts_seq; [exact Ha1|].
  intros r tail Hr Hc' E. cbn [fh_type]. change (TType.STOP =? TType.STOP) with true. cbv iota.
  destruct (Ha2 r tail Hr Hc' E) as (r' & Er & Hr'). exists r'. split; [|done].
  change ((mret x ≫= fun x => readStructEnd;; mret x) r) with ((readStructEnd;; mret x : R T) r).
  by rewrite (ST_bind_ok _ _ _ _ _ Er).
Qed.

(** One round of the loop. *)
Lemma loop_step {T} fuel cnt (h : handler T) (hd : FieldHeader) x x' y c c1 c2 c3 b1 b2 b3 :
  (fh_type hd =? TType.STOP) = false ->
  accepts c (f ← readFieldBegin; x ← match h x (fh_id f) with Some m => m | None => ThriftValue.skip fuel (fh_type f);; mret x end;
             mret (f, x) : R _) b1 (hd, x') c1 ->
  accepts c1 readFieldEnd b2 tt c2 ->
  accepts c2 (x ← fields_loop fuel cnt h x'; readStructEnd;; mret x : R T) b3 y c3 ->
  accepts c (x ← fields_loop fuel (S cnt) h x; readStructEnd;; mret x : R T) (b1 ++ b2 ++ b3) y c3.
Proof.
  intros Hst H1 H2 H3 r tail Hr Hc E. rewrite <- !app_assoc in E.
  destruct (H1 r _ Hr Hc E) as (r1 & E1 & Hr1 & Hc1 & Ho1). destruct (H2 r1 _ Hr1 Hc1 Ho1) as (r2 & E2 & Hr2 & Hc2 & Ho2).
  destruct (H3 r2 _ Hr2 Hc2 Ho2) as (r3 & E3 & ?). exists r3. split; [|done].
  apply ST_bind_inv in E1 as (f & r' & Ef & E1). apply ST_bind_inv in E1 as (x1 & r'' & Ex & E1). injection E1 as -> -> ->.
  cbn [fields_loop]. rewrite ST_bind_assoc, (ST_bind_ok _ _ _ _ _ Ef), Hst, ST_bind_assoc, (ST_bind_ok _ _ _ _ _ Ex).
  by rewrite ST_bind_assoc, (ST_bind_ok _ _ _ _ _ E2).
Qed.

(** A field that [h] reads with [rd], or skips, and whose header and value are
    [b1] on the wire. *)
Lemma tail_step {T} (h : nat -> handler T) ty id (w k : W) x x' y :
  (forall c, exists b1, (1 <= length b1)%nat /\ emits c (writeFieldBegin [] ty id;; w) b1 tt (after_field id c) /\
     forall fuel, (length b1 + 2 <= fuel)%nat ->
     accepts c (f ← readFieldBegin;
                x ← match h fuel x (fh_id f) with Some m => m | None => ThriftValue.skip fuel (fh_type f);; mret x end;
                mret (f, x) : R _) b1 ({| fh_name := []; fh_type := ty; fh_id := id |}, x') (after_field id c)) ->
  (ty =? TType.STOP) = false -> tail_ok h x' k y -> tail_ok h x (field ty id w;; k) y.
Proof.
  intros H1 Hst H3 c. destruct (H1 c) as (b1 & L1 & He1 & Ha1). destruct (law_field_end (after_field id c)) as (b2 & He2 & Ha2 & _).
  destruct (H3 (after_field id c)) as (b3 & L3 & He3 & Ha3). rewrite leave_after_field in He3, Ha3.
  exists (b1 ++ b2 ++ b3). rewrite !length_app. split_and!; [lia| |].
  - intros wr Hw Hc. destruct (He1 wr Hw Hc) as (w1 & E1 & Hw1 & Hc1 & O1). destruct (He2 w1 Hw1 Hc1) as (w2 & E2 & Hw2 & Hc2 & O2).
    destruct (He3 w2 Hw2 Hc2) as (w3 & E3 & Hw3 & Hc3 & O3). exists w3. split; [|by rewrite O3, O2, O1, <- !app_assoc].
    unfold field. apply ST_bind_inv in E1 as ([] & w0 & E0 & E1).
    by rewrite ST_bind_assoc, (ST_bind_ok _ _ _ _ _ E0), ST_bind_assoc, (ST_bind_ok _ _ _ _ _ E1), (ST_bind_ok _ _ _ _ _ E2).
  - intros fuel cnt Hf Hc. destruct cnt as [|cnt]; [lia|].
    eapply (loop_step _ _ _ {| fh_name := []; fh_type := ty; fh_id := id |}); [exact Hst|apply Ha1; lia|exact Ha2|apply Ha3; lia].
Qed.

Lemma field_val {A} ty id (w : W) (rd : nat -> R A) a :
  value_type ty -> ty <> TType.BOOL -> is_int 16 id -> val w rd a ->
  forall c, exists b1, (1 <= length b1)%nat /\ emits c (writeFieldBegin [] ty id;; w) b1 tt (after_field id c) /\
     forall fuel, (length b1 + 2 <= fuel)%nat -> forall B (g : FieldHeader -> A -> B),
     accepts c (f ← readFieldBegin; v ← rd fuel; mret (g f v) : R _) b1
       (g {| fh_name := []; fh_type := ty; fh_id := id |} a) (after_field id c).
Proof.
  intros Hty Hb Hid Hv c. destruct (law_field_begin c ty id Hty Hb Hid) as (b1 & He1 & Ha1 & _).
  destruct (Hv (after_field id c)) as (b2 & L2 & He2 & Ha2). exists (b1 ++ b2). rewrite length_app.
  split_and!; [lia|by eapply emits_seq|]. intros fuel Hf B g. eapply accepts_seq; [exact Ha1|].
  rewrite <- (app_nil_r b2). eapply accepts_seq; [apply Ha2; lia|]. apply accepts_pure.
Qed.

(** A field that the callback reads. *)
Lemma tail_field {T A} (h : nat -> handler T) ty id (w k : W) (rd : nat -> R A) (set : A -> T) a x y :
  (forall fuel, h fuel x id = on (rd fuel) set) -> value_type ty -> ty <> TType.BOOL -> is_int 16 id -> val w rd a ->
  tail_ok h (set a) k y -> tail_ok h x (field ty id w;; k) y.
Proof.
  intros Hh Hty Hb Hid Hv. apply tail_step; [|unfold value_type in Hty; lia || (destruct Hty as [->|Hty]; [done|]; intuition (subst; done))].
  intros c. destruct (field_val ty id w rd a Hty Hb Hid Hv c) as (b1 & L1 & He & Ha). exists b1. split_and!; [done..|].
  intros fuel Hf r tail Hr Hc E. destruct (Ha fuel Hf _ (fun f v => (f, set v)) r tail Hr Hc E) as (r' & Er & ?). exists r'. split; [|done].
  apply ST_bind_inv in Er as (f & r1 & Ef & Er). apply ST_bind_inv in Er as (v & r2 & Ev & Er). injection Er as -> <- ->.
  rewrite (ST_bind_ok _ _ _ _ _ Ef). cbn [fh_id]. rewrite Hh. unfold on. by rewrite ST_bind_assoc, (ST_bind_ok _ _ _ _ _ Ev).
Qed.
(** A field that the callback leaves to [skip]. *)
Lemma tail_skip {T} (h : nat -> handler T) ty id (w k : W) x y :
  (forall fuel, h fuel x id = None) -> value_type ty -> ty <> TType.BOOL -> is_int 16 id ->
  val w (fun fuel => ThriftValue.skip fuel ty) tt -> tail_ok h x k y -> tail_ok h x (field ty id w;; k) y.
Proof.
  intros Hh Hty Hb Hid Hv. apply tail_step; [|unfold value_type in Hty; intuition (subst; done)].
  intros c. destruct (field_val ty id w _ tt Hty Hb Hid Hv c) as (b1 & L1 & He & Ha). exists b1. split_and!; [done..|].
  intros fuel Hf r tail Hr Hc E. destruct (Ha fuel Hf _ (fun f v => (f, x)) r tail Hr Hc E) as (r' & Er & ?). exists r'. split; [|done].
  apply ST_bind_inv in Er as (f & r1 & Ef & Er). apply ST_bind_inv in Er as (v & r2 & Ev & Er). injection Er as -> ->.
  rewrite (ST_bind_ok _ _ _ _ _ Ef). cbn [fh_id fh_type]. rewrite Hh. by rewrite ST_bind_assoc, (ST_bind_ok _ _ _ _ _ Ev).
Qed.
(** A boolean field. *)
Lemma tail_bool {T} (h : nat -> handler T) id (k : W) (set : bool -> T) b x y :
  (forall fuel, h fuel x id = on readBool set) -> is_int 16 id ->
  tail_ok h (set b) k y -> tail_ok h x (field TType.BOOL id (writeBool b);; k) y.
Proof.
  intros Hh Hid. apply tail_step; [|done]. intros c. destruct (law_field_bool c id b Hid) as (b1 & He & Ha & _).
  exists b1. split_and!; [|done|].
  - eapply accepts_nonempty, Ha. apply consumes_head; [apply c_field_begin|]. intros f.
    apply (consumes_weaken 1); [lia|]. apply consumes_head; [apply c_bool|]. intros. apply consumes_pure.
  - intros fuel Hf r tail Hr Hc E. destruct (Ha r tail Hr Hc E) as (r' & Er & ?). exists r'. split; [|done].
    apply ST_bind_inv in Er as (f & r1 & Ef & Er). apply ST_bind_inv in Er as (v & r2 & Ev & Er). injection Er as -> -> ->.
    rewrite (ST_bind_ok _ _ _ _ _ Ef). cbn [fh_id]. rewrite Hh. unfold on. by rewrite ST_bind_assoc, (ST_bind_ok _ _ _ _ _ Ev).
Qed.
Definition opt_ok {A} (Q : A -> Prop) (o : option A) : Prop := match o with Some a => Q a | None => True end.
(** An optional field of an object that does not have it yet. *)
Lemma tail_opt {T A} (set : option A -> T) (h : nat -> handler T) (Q : A -> Prop) ty id (w : A -> W) (k : W) (rd : nat -> R A) o x y :
  x = set None -> (forall fuel, h fuel x id = on (rd fuel) (fun v => set (Some v))) -> opt_ok Q o ->
  (forall a, Q a -> val (w a) rd a) -> value_type ty -> ty <> TType.BOOL -> is_int 16 id ->
  tail_ok h (set o) k y -> tail_ok h x (opt_field o ty id w;; k) y.
Proof.
  intros -> Hh Hq Hv Hty Hb Hid Hk. destruct o as [a|]; [|exact Hk].
  by eapply (tail_field h ty id (w a) k rd (fun v => set (Some v)) a); [..|apply Hv|].
Qed.

Lemma val_struct {T} (h : nat -> handler T) x (k : W) y :
  tail_ok h x k y -> val (writeStructBegin;; k) (fun fuel => readFields fuel (h fuel) x) y.
Proof.
  intros H c. destruct (law_struct_begin c) as (b1 & He1 & Ha1 & _). destruct (H (enter c)) as (b2 & L2 & He2 & Ha2).
  rewrite leave_enter in He2, Ha2. exists (b1 ++ b2). rewrite length_app. split_and!; [lia|by eapply emits_seq|].
  intros fuel Hf. eapply accepts_seq; [exact Ha1|]. apply Ha2; lia.
Qed.
Lemma val_map {A B} (w : W) (rd : nat -> R A) a (g : A -> B) : val w rd a -> val w (fun fuel => v ← rd fuel; mret (g v)) (g a).
Proof.
  intros H c. destruct (H c) as (bs & L & He & Ha). exists bs. split_and!; [done..|]. intros fuel Hf.
  rewrite <- (app_nil_r bs). eapply accepts_seq; [by apply Ha|]. apply accepts_pure.
Qed.

Lemma list_loop_val {A} (w : A -> W) (rd : nat -> R A) xs :
  Forall (fun x => val (w x) rd x) xs -> forall c, exists bs, (length xs <= length bs)%nat /\ emits c (forEach w xs) bs tt c /\
  forall fuel cnt, (length bs + 2 <= fuel)%nat -> (length xs < cnt)%nat -> accepts c (list_loop cnt (rd fuel) (zlen xs)) bs xs c.
Proof.
  induction 1 as [|x xs Hx _ IH]; intros c; cbn [forEach].
  - exists []. split_and!; [done| |].
    + intros wr Hw Hc. exists wr. by rewrite app_nil_r.
    + intros fuel [|cnt] Hf Hc; [lia|]. cbn [list_loop]. change (0 <? zlen (@nil A)) with false. apply accepts_pure.
  - destruct (Hx c) as (b1 & L1 & He1 & Ha1). destruct (IH c) as (b2 & L2 & He2 & Ha2). exists (b1 ++ b2).
    rewrite length_app. cbn [length]. split_and!; [lia|by eapply emits_seq|]. intros fuel [|cnt] Hf Hc; [lia|]. cbn [list_loop].
    rewrite zlen_cons. pose proof (zlen_nonneg xs). replace (0 <? 1 + zlen xs) with true by lia.
    replace (1 + zlen xs - 1) with (zlen xs) by lia. eapply accepts_seq; [apply Ha1; lia|].
    rewrite <- (app_nil_r b2). eapply accepts_seq; [apply Ha2; lia|]. apply accepts_pure.
Qed.
Lemma val_list {A} ty (w : A -> W) (rd : nat -> R A) (Q : A -> Prop) xs :
  value_type ty -> zlen xs < 2 ^ 31 -> Forall Q xs -> (forall x, Q x -> val (w x) rd x) ->
  val (write_list ty w xs) (fun fuel => readStructList fuel (rd fuel)) xs.
Proof.
  intros Hty Hl HQ Hv c. pose proof (zlen_nonneg xs). destruct (law_list_begin c ty (zlen xs) Hty) as (b1 & He1 & Ha1 & _); [lia|].
  destruct (list_loop_val w rd xs) with (c := c) as (b2 & L2 & He2 & Ha2); [by eapply Forall_impl|].
  destruct (law_list_end c) as (b3 & He3 & Ha3 & _).
  assert (1 <= length b1)%nat by (eapply accepts_nonempty, Ha1; apply c_list_begin).
  exists (b1 ++ b2 ++ b3). rewrite !length_app. split_and!; [lia|by eapply emits_seq; [|eapply emits_seq]|].
  intros fuel Hf. eapply accepts_seq; [exact Ha1|]. cbn [list_size]. eapply accepts_seq; [apply Ha2; lia|].
  rewrite <- (app_nil_r b3). eapply accepts_seq; [exact Ha3|]. apply accepts_pure.
Qed.
(** An empty struct, skipped. *)
Lemma val_empty : val write_empty (fun fuel => ThriftValue.skip fuel TType.STRUCT) tt.
Proof.
  intros c. destruct (law_struct_begin c) as (b1 & He1 & Ha1 & _). destruct (law_field_stop (enter c)) as (b2 & He2 & Ha2 & _).
  destruct (law_struct_end (enter c)) as (b3 & He3 & Ha3 & _). rewrite leave_enter in He3, Ha3.
  assert (1 <= length b2)%nat by (eapply accepts_nonempty, Ha2; apply c_field_begin).
  exists (b1 ++ b2 ++ b3). rewrite !length_app. split_and!; [lia|by eapply emits_seq; [|eapply emits_seq]|].
  intros [|[|fuel]] Hf; [lia|lia|]. change (ThriftValue.skip (S (S fuel)) TType.STRUCT) with
    (readStructBegin;; ThriftValue.skipFields (S fuel);; readStructEnd : R unit). eapply accepts_seq; [exact Ha1|].
  eapply accepts_seq; [|exact Ha3]. cbn [skipFields]. rewrite <- (app_nil_r b2). eapply accepts_seq; [exact Ha2|]. apply accepts_pure.
Qed.

(** ** The structs of a footer *)
Ltac type_ok := solve [unfold value_type; tauto | discriminate | unfold is_int; vm_compute; split; [discriminate|reflexivity]].
(** A field [f] that is always written, and one that may be missing. *)
Ltac must f :=
  lazymatch goal with
  | |- tail_ok _ ?x _ _ =>
      eapply (tail_field _ _ _ _ _ _ (fun v => apply_update (mk_update f (constant v)) x));
      [intros; reflexivity|type_ok|type_ok|type_ok| |]
  end.
Ltac may f :=
  lazymatch goal with
  | |- tail_ok _ ?x _ _ =>
      eapply (tail_opt (fun o => apply_update (mk_update f (constant o)) x));
      [reflexivity|intros; reflexivity|eassumption| |type_ok|type_ok|type_ok|]
  end.

Record stats_ok (s : Statistics) : Prop := {
  ok_max : opt_ok bin_ok (st_max s); ok_min : opt_ok bin_ok (st_min s);
  ok_nullCount : opt_ok (is_int 64) (st_nullCount s); ok_distinctCount : opt_ok (is_int 64) (st_distinctCount s);
  ok_maxValue : opt_ok bin_ok (st_maxValue s); ok_minValue : opt_ok bin_ok (st_minValue s);
}.
Lemma val_statistics s : stats_ok s -> val (writeStatistics s) (fun fuel => readStatistics fuel) s.
Proof.
  intros []. unfold writeStatistics, readStatistics. apply val_struct.
  may st_max; [apply val_binary|]. may st_min; [apply val_binary|]. may st_nullCount; [apply val_i64|].
  may st_distinctCount; [apply val_i64|]. may st_maxValue; [apply val_binary|]. may st_minValue; [apply val_binary|].
  destruct s. apply tail_end.
Qed.

Definition unit_ok (u : TimeUnit) : Prop := tu_unit u = TimeUnitId.MILLIS \/ tu_unit u = TimeUnitId.MICROS \/ tu_unit u = TimeUnitId.NANOS.
Lemma val_timeUnit u : unit_ok u -> val (writeTimeUnit u) (fun fuel => readTimeUnit fuel) u.
Proof.
  intros Hu. unfold writeTimeUnit, readTimeUnit. destruct u as [u]. unfold unit_ok in Hu. cbn [tu_unit] in *.
  apply (val_map _ _ u (fun unit => {| tu_unit := unit |})), val_struct.
  eapply (tail_field _ _ _ _ _ (fun fuel => ThriftValue.skip (P := CompactProtocol) fuel TType.STRUCT) (fun _ => u)); [|type_ok|type_ok| |apply val_empty|].
  - intros fuel. by destruct Hu as [->|[->| ->]].
  - destruct Hu as [->|[->| ->]]; type_ok.
  - apply tail_end.
Qed.
Lemma val_time utc u : unit_ok u -> val (write_time utc u) (fun fuel => read_time fuel) (utc, u).
Proof.
  intros Hu. apply val_struct. eapply tail_bool; [intros; reflexivity|type_ok|].
  eapply tail_field; [intros; reflexivity|type_ok..| |]; [by apply val_timeUnit|]. apply tail_end.
Qed.

(** A logical type has the payload of its kind and no other. *)
Definition logical_ok (lt : LogicalType) : Prop :=
  match lt_kind lt with
  | KDecimal =>
      exists d, lt = {| lt_kind := KDecimal; lt_decimal := Some d; lt_time := None; lt_timestamp := None; lt_integer := None |} /\
        is_int 32 (dt_scale d) /\ is_int 32 (dt_precision d)
  | KTime =>
      exists t, lt = {| lt_kind := KTime; lt_decimal := None; lt_time := Some t; lt_timestamp := None; lt_integer := None |} /\
        unit_ok (tt_unit t)
  | KTimestamp =>
      exists t, lt = {| lt_kind := KTimestamp; lt_decimal := None; lt_time := None; lt_timestamp := Some t; lt_integer := None |} /\
        unit_ok (ts_unit t)
  | KInteger =>
      exists i, lt = {| lt_kind := KInteger; lt_decimal := None; lt_time := None; lt_timestamp := None; lt_integer := Some i |} /\
        is_int 8 (it_bitWidth i)
  | k => lt = {| lt_kind := k; lt_decimal := None; lt_time := None; lt_timestamp := None; lt_integer := None |}
  end.
Lemma val_logicalType lt : logical_ok lt -> val (writeLogicalType lt) (fun fuel => readLogicalType fuel) lt.
Proof.
  intros H. unfold writeLogicalType, readLogicalType. apply val_struct. unfold logical_ok in H.
  destruct (lt_kind lt); try destruct H as (p & -> & H); try subst lt; unfold write_variant; cbn [lt_kind];
    try (eapply tail_field; [intros; reflexivity|type_ok..|apply val_empty|apply tail_end]).
  - eapply tail_field; [intros; reflexivity|type_ok..| |]; [|apply tail_end]. destruct p as [sc pr], H as [Hs Hp].
    apply val_struct. must dt_scale; [by apply val_i32|]. must dt_precision; [by apply val_i32|]. apply tail_end.
  - eapply tail_field; [intros; reflexivity|type_ok..| |]; [by apply val_time|]. destruct p. apply tail_end.
  - eapply tail_field; [intros; reflexivity|type_ok..| |]; [by apply val_time|]. destruct p. apply tail_end.
  - eapply tail_field; [intros; reflexivity|type_ok..| |]; [|apply tail_end]. destruct p as [bw sg].
    apply val_struct. must it_bitWidth; [by apply val_byte|]. eapply tail_bool; [intros; reflexivity|type_ok|]. apply tail_end.
  - eapply tail_skip; [intros; reflexivity|type_ok..|apply val_empty|apply tail_end].
Qed.

Record element_ok (el : SchemaElement) : Prop := {
  ok_type : opt_ok (is_int 32) (se_type el); ok_typeLength : opt_ok (is_int 32) (se_typeLength el);
  ok_repetitionType : opt_ok (is_int 32) (se_repetitionType el); ok_name : str_ok (se_name el);
  ok_numChildren : opt_ok (is_int 32) (se_numChildren el); ok_convertedType : opt_ok (is_int 32) (se_convertedType el);
  ok_scale : opt_ok (is_int 32) (se_scale el); ok_precision : opt_ok (is_int 32) (se_precision el);
  ok_fieldId : opt_ok (is_int 32) (se_fieldId el); ok_logicalType : opt_ok logical_ok (se_logicalType el);
}.
Lemma val_schemaElement el : element_ok el -> val (writeSchemaElement el) (fun fuel => readSchemaElement fuel) el.
Proof.
  intros []. unfold writeSchemaElement, readSchemaElement. apply val_struct.
  may se_type; [apply val_i32|]. may se_typeLength; [apply val_i32|]. may se_repetitionType; [apply val_i32|].
  must se_name; [by apply val_string|]. may se_numChildren; [apply val_i32|]. may se_convertedType; [apply val_i32|].
  may se_scale; [apply val_i32|]. may se_precision; [apply val_i32|]. may se_fieldId; [apply val_i32|].
  may se_logicalType; [apply val_logicalType|]. destruct el. apply tail_end.
Qed.

Record keyValue_ok (kv : KeyValue) : Prop := { ok_key : str_ok (kv_key kv); ok_value : opt_ok str_ok (kv_value kv) }.
Lemma val_keyValue kv : keyValue_ok kv -> val (writeKeyValue kv) (fun fuel => readKeyValue fuel) kv.
Proof.
  intros []. unfold writeKeyValue, readKeyValue. apply val_struct. must kv_key; [by apply val_string|].
  may kv_value; [apply val_string|]. destruct kv. apply tail_end.
Qed.

(** A list that fits the size of a list header. *)
Definition list_ok {A} (Q : A -> Prop) (xs : list A) : Prop := zlen xs < 2 ^ 31 /\ Forall Q xs.
Lemma val_structs {A} ty (w : A -> W) (rd : nat -> R A) (Q : A -> Prop) :
  value_type ty -> (forall x, Q x -> val (w x) rd x) ->
  forall xs, list_ok Q xs -> val (write_list ty w xs) (fun fuel => readStructList fuel (rd fuel)) xs.
Proof. intros Hty Hv xs [Hl HQ]. by eapply val_list. Qed.
Ltac list_val l := eapply val_structs; [type_ok|apply l|..].

Record column_ok (cm : ColumnMetaData) : Prop := {
  ok_ctype : is_int 32 (cm_type cm); ok_encodings : list_ok (is_int 32) (cm_encodings cm);
  ok_path : list_ok str_ok (cm_pathInSchema cm); ok_codec : is_int 32 (cm_codec cm); ok_numValues : is_int 64 (cm_numValues cm);
  ok_uncompressed : is_int 64 (cm_totalUncompressedSize cm); ok_compressed : is_int 64 (cm_totalCompressedSize cm);
  ok_kvs : opt_ok (list_ok keyValue_ok) (cm_keyValueMetadata cm); ok_dataPage : is_int 64 (cm_dataPageOffset cm);
  ok_indexPage : opt_ok (is_int 64) (cm_indexPageOffset cm); ok_dictPage : opt_ok (is_int 64) (cm_dictionaryPageOffset cm);
  ok_stats : opt_ok stats_ok (cm_statistics cm);
}.
Lemma val_columnMetaData cm : column_ok cm -> val (writeColumnMetaData cm) (fun fuel => readColumnMetaData fuel) cm.
Proof.
  intros []. unfold writeColumnMetaData, readColumnMetaData. apply val_struct.
  must cm_type; [by apply val_i32|]. must cm_encodings; [by list_val val_i32|]. must cm_pathInSchema; [by list_val val_string|].
  must cm_codec; [by apply val_i32|]. must cm_numValues; [by apply val_i64|]. must cm_totalUncompressedSize; [by apply val_i64|].
  must cm_totalCompressedSize; [by apply val_i64|]. may cm_keyValueMetadata; [list_val val_keyValue|].
  must cm_dataPageOffset; [by apply val_i64|]. may cm_indexPageOffset; [apply val_i64|].
  may cm_dictionaryPageOffset; [apply val_i64|]. may cm_statistics; [apply val_statistics|]. destruct cm. apply tail_end.
Qed.

Record chunk_ok (cc : ColumnChunk) : Prop := {
  ok_filePath : opt_ok str_ok (cc_filePath cc); ok_fileOffset : is_int 64 (cc_fileOffset cc);
  ok_metaData : opt_ok column_ok (cc_metaData cc);
}.
Lemma val_columnChunk cc : chunk_ok cc -> val (writeColumnChunk cc) (fun fuel => readColumnChunk fuel) cc.
Proof.
  intros []. unfold writeColumnChunk, readColumnChunk. apply val_struct. may cc_filePath; [apply val_string|].
  must cc_fileOffset; [by apply val_i64|]. may cc_metaData; [apply val_columnMetaData|]. destruct cc. apply tail_end.
Qed.

Record group_ok (rg : RowGroup) : Prop := {
  ok_columns : list_ok chunk_ok (rg_columns rg); ok_byteSize : is_int 64 (rg_totalByteSize rg); ok_rows : is_int 64 (rg_numRows rg);
  ok_groupOffset : opt_ok (is_int 64) (rg_fileOffset rg); ok_groupSize : opt_ok (is_int 64) (rg_totalCompressedSize rg);
  ok_ordinal : opt_ok (is_int 16) (rg_ordinal rg);
}.
Lemma val_rowGroup rg : group_ok rg -> val (writeRowGroup rg) (fun fuel => readRowGroup fuel) rg.
Proof.
  intros []. unfold writeRowGroup, readRowGroup. apply val_struct. must rg_columns; [by list_val val_columnChunk|].
  must rg_totalByteSize; [by apply val_i64|]. must rg_numRows; [by apply val_i64|]. may rg_fileOffset; [apply val_i64|].
  may rg_totalCompressedSize; [apply val_i64|]. may rg_ordinal; [apply val_i16|]. destruct rg. apply tail_end.
Qed.

(** Footers: numbers in the range of their Thrift type, strings of whole code
    points, lists and strings of fewer than 2^31 items. *)
Record footer_ok (fm : FileMetaData) : Prop := {
  ok_version : is_int 32 (fm_version fm); ok_schema : list_ok element_ok (fm_schema fm); ok_fileRows : is_int 64 (fm_numRows fm);
  ok_groups : list_ok group_ok (fm_rowGroups fm); ok_fileKvs : opt_ok (list_ok keyValue_ok) (fm_keyValueMetadata fm);
  ok_createdBy : opt_ok str_ok (fm_createdBy fm);
}.
Lemma val_fileMetaData fm : footer_ok fm -> val (writeFileMetaDataStruct fm) (fun fuel => readFileMetaDataStruct fuel) fm.
Proof.
  intros []. unfold writeFileMetaDataStruct, readFileMetaDataStruct. apply val_struct. must fm_version; [by apply val_i32|].
  must fm_schema; [by list_val val_schemaElement|]. must fm_numRows; [by apply val_i64|].
  must fm_rowGroups; [by list_val val_rowGroup|]. may fm_keyValueMetadata; [list_val val_keyValue|].
  may fm_createdBy; [apply val_string|]. destruct fm. apply tail_end.
Qed.

(** ** Page headers *)
Record dataPage_ok (h : DataPageHeader) : Prop := {
  ok_dhValues : is_int 32 (dh_numValues h); ok_dhEncoding : is_int 32 (dh_encoding h);
  ok_dhDef : is_int 32 (dh_definitionLevelEncoding h); ok_dhRep : is_int 32 (dh_repetitionLevelEncoding h);
  ok_dhStats : opt_ok stats_ok (dh_statistics h);
}.
Lemma val_dataPage h : dataPage_ok h -> val (writeDataPageHeader h) (fun fuel => readDataPageHeader fuel) h.
Proof.
  intros []. unfold writeDataPageHeader, readDataPageHeader. apply val_struct. must dh_numValues; [by apply val_i32|].
  must dh_encoding; [by apply val_i32|]. must dh_definitionLevelEncoding; [by apply val_i32|].
  must dh_repetitionLevelEncoding; [by apply val_i32|]. may dh_statistics; [apply val_statistics|]. destruct h. apply tail_end.
Qed.
Record dictPage_ok (h : DictionaryPageHeader) : Prop := {
  ok_ihValues : is_int 32 (ih_numValues h); ok_ihEncoding : is_int 32 (ih_encoding h);
}.
Lemma val_dictPage h : dictPage_ok h -> val (writeDictionaryPageHeader h) (fun fuel => readDictionaryPageHeader fuel) h.
Proof.
  intros []. unfold writeDictionaryPageHeader, readDictionaryPageHeader. apply val_struct. must ih_numValues; [by apply val_i32|].
  must ih_encoding; [by apply val_i32|]. destruct h as [nv en [sorted|]].
  - eapply (tail_bool _ _ _ (fun b => {| ih_numValues := nv; ih_encoding := en; ih_isSorted := Some b |})); [done|type_ok|apply tail_end].
  - apply (tail_end (T := DictionaryPageHeader)).
Qed.
Record dataPageV2_ok (h : DataPageHeaderV2) : Prop := {
  ok_d2Values : is_int 32 (d2_numValues h); ok_d2Nulls : is_int 32 (d2_numNulls h); ok_d2Rows : is_int 32 (d2_numRows h);
  ok_d2Encoding : is_int 32 (d2_encoding h); ok_d2Def : is_int 32 (d2_definitionLevelsByteLength h);
  ok_d2Rep : is_int 32 (d2_repetitionLevelsByteLength h); ok_d2Stats : opt_ok stats_ok (d2_statistics h);
}.
Lemma val_dataPageV2 h : dataPageV2_ok h -> val (writeDataPageHeaderV2 h) (fun fuel => readDataPageHeaderV2 fuel) h.
Proof.
  intros []. unfold writeDataPageHeaderV2, readDataPageHeaderV2. apply val_struct. must d2_numValues; [by apply val_i32|].
  must d2_numNulls; [by apply val_i32|]. must d2_numRows; [by apply val_i32|]. must d2_encoding; [by apply val_i32|].
  must d2_definitionLevelsByteLength; [by apply val_i32|]. must d2_repetitionLevelsByteLength; [by apply val_i32|].
  eapply tail_bool; [intros; reflexivity|type_ok|]. may d2_statistics; [apply val_statistics|]. destruct h. apply tail_end.
Qed.
Record page_ok (h : PageHeader) : Prop := {
  ok_phType : is_int 32 (ph_type h); ok_phUncompressed : is_int 32 (ph_uncompressedPageSize h);
  ok_phCompressed : is_int 32 (ph_compressedPageSize h); ok_phCrc : opt_ok (is_int 32) (ph_crc h);
  ok_phData : opt_ok dataPage_ok (ph_dataPageHeader h); ok_phDict : opt_ok dictPage_ok (ph_dictionaryPageHeader h);
  ok_phV2 : opt_ok dataPageV2_ok (ph_dataPageHeaderV2 h);
}.
Lemma val_pageHeader h : page_ok h -> val (write_page_header h) (fun fuel => read_page_header fuel) h.
Proof.
  intros []. unfold write_page_header, read_page_header. apply val_struct. must ph_type; [by apply val_i32|].
  must ph_uncompressedPageSize; [by apply val_i32|]. must ph_compressedPageSize; [by apply val_i32|]. may ph_crc; [apply val_i32|].
  may ph_dataPageHeader; [apply val_dataPage|]. may ph_dictionaryPageHeader; [apply val_dictPage|].
  may ph_dataPageHeaderV2; [apply val_dataPageV2|]. destruct h. apply tail_end.
Qed.

(** ** Whole footers and headers *)
Lemma val_run {A} (w : W) (rd : nat -> R A) a :
  val w rd a -> exists bs, run_writer w = Ok bs /\ forall tail fuel, (length bs + 2 <= fuel)%nat ->
    exists r, rd fuel (new_compact_reader (bs ++ tail)) = Ok (a, r) /\ reader_ok (cr_reader r) /\ rest (cr_reader r) = tail.
Proof.
  intros H. destruct (H (0, [])) as (bs & _ & He & Ha). destruct (He new_writer) as (w' & Ew & _ & _ & Eo); [done|done|].
  exists bs. unfold run_writer. rewrite Ew. cbn [mbind res_bind]. split; [by f_equal|]. intros tail fuel Hf.
  destruct (Ha fuel Hf (new_compact_reader (bs ++ tail)) tail) as (r & Er & [_ Hr] & _ & R); [split; [done|apply new_reader_ok]|done|done|].
  by exists r.
Qed.

(** C8: a file footer survives its Thrift encoding: writing it succeeds, and
    reading the bytes back gives the footer with its schema, row groups,
    column chunks, statistics and key-value metadata, whatever follows. *)
Theorem footer_roundtrip (fm : FileMetaData) (tail : list Z) :
  footer_ok fm -> exists bs, writeFileMetaData fm = Ok bs /\ readFileMetaData (bs ++ tail) = Ok fm.
Proof.
  intros H. destruct (val_run _ _ _ (val_fileMetaData fm H)) as (bs & Ew & Hr). exists bs. split; [exact Ew|].
  destruct (Hr tail (input_fuel (bs ++ tail))) as (r & Er & _).
  - unfold input_fuel. rewrite length_app. lia.
  - unfold readFileMetaData. by rewrite Er.
Qed.

(** A page header is read back from inside a file as it was written, and
    the position that [readPageHeader] returns is the first byte of the page
    that follows it. *)
Theorem page_header_roundtrip (h : PageHeader) (before after : list Z) :
  page_ok h -> exists bs, writePageHeader h = Ok bs /\
    readPageHeader (before ++ bs ++ after) (length before) = Ok (h, zlen (before ++ bs)).
Proof.
  intros H. destruct (val_run _ _ _ (val_pageHeader h H)) as (bs & Ew & Hr). exists bs. split; [exact Ew|].
  unfold readPageHeader. rewrite drop_app_length. set (i := bs ++ after).
  destruct (Hr after (input_fuel i)) as (r & Er & Hok & Hrest); [unfold input_fuel, i; rewrite length_app; lia|].
  assert (W : (cr_weight (new_compact_reader i) <= 2 * length i)%nat) by (unfold cr_weight; simpl; lia).
  pose proof (@read_page_header_within _ _ (KeptLaws i) (input_fuel i) (2 * length i) ltac:(unfold input_fuel; lia) (new_compact_reader i)
    (conj (new_reader_ok _) eq_refl) W) as Hk.
  cbv beta in Er. fold i in Er. rewrite Er in Hk |- *. destruct Hk as [[_ Hb] _]. cbn [mbind res_bind]. do 2 f_equal.
  unfold rest in Hrest. rewrite Hb in Hrest. unfold reader_ok in Hok. rewrite Hb in Hok. apply (f_equal length) in Hrest.
  rewrite length_drop in Hrest. subst i. rewrite length_app in *. cbn. unfold zlen. rewrite length_app. lia.
Qed.

(** ** Samples *)
Definition sample_footer : FileMetaData := {|
  fm_version := 2;
  fm_schema :=
    [{| se_type := None; se_typeLength := None; se_repetitionType := None; se_name := js "schema"; se_numChildren := Some 1;
        se_convertedType := None; se_scale := None; se_precision := None; se_fieldId := None; se_logicalType := None |};
     {| se_type := Some 2; se_typeLength := None; se_repetitionType := Some 1; se_name := js "t"; se_numChildren := None;
        se_convertedType := Some 10; se_scale := None; se_precision := None; se_fieldId := Some 7;
        se_logicalType := Some {| lt_kind := KTimestamp; lt_decimal := None; lt_time := None;
          lt_timestamp := Some {| ts_isAdjustedToUTC := true; ts_unit := {| tu_unit := 2 |} |}; lt_integer := None |} |}];
  fm_numRows := 3;
  fm_rowGroups :=
    [{| rg_columns := [{| cc_filePath := None; cc_fileOffset := 4; cc_metaData := Some
          {| cm_type := 2; cm_encodings := [0; 3]; cm_pathInSchema := [js "t"]; cm_codec := 0; cm_numValues := 3;
             cm_totalUncompressedSize := 40; cm_totalCompressedSize := 40; cm_keyValueMetadata := None; cm_dataPageOffset := 4;
             cm_indexPageOffset := None; cm_dictionaryPageOffset := None;
             cm_statistics := Some {| st_max := Some [255; 0]; st_min := None; st_nullCount := Some 1; st_distinctCount := None;
               st_maxValue := Some []; st_minValue := None |} |} |}];
        rg_totalByteSize := 40; rg_numRows := 3; rg_fileOffset := Some 4; rg_totalCompressedSize := Some 40; rg_ordinal := Some 0 |}];
  fm_keyValueMetadata := Some [{| kv_key := js "k"; kv_value := Some (js "v") |}];
  fm_createdBy := Some (js "fino");
|}.
Ltac sample_ok :=
  repeat lazymatch goal with
  | |- opt_ok ?Q ?o =>
      let o' := eval hnf in o in
      change (opt_ok Q o'); lazymatch o' with None => exact I | Some ?v => change (Q v) end
  | |- list_ok ?Q ?l => let l' := eval hnf in l in change (list_ok Q l'); split; [by vm_compute|]
  | |- Forall _ [] => constructor
  | |- Forall ?Q (?x :: ?l) => let l' := eval hnf in l in change (Forall Q (x :: l')); constructor
  | |- is_int _ _ => unfold is_int; vm_compute; split; [discriminate|reflexivity]
  | |- str_ok ?s =>
      let s' := eval vm_compute in s in
      change (str_ok s'); split; [split; [by repeat (constructor; [unfold is_unit; lia|])|done]|by vm_compute]
  | |- bin_ok _ => by vm_compute
  | |- logical_ok _ => eexists; split; [reflexivity|]
  | |- unit_ok _ => vm_compute; tauto
  | |- _ => split
  end.
Lemma footer_roundtrip_witness :
  exists bs, writeFileMetaData sample_footer = Ok bs /\ readFileMetaData (bs ++ [1; 2; 3]) = Ok sample_footer.
Proof. apply (footer_roundtrip sample_footer [1; 2; 3]). sample_ok. Defined.

Definition sample_page : PageHeader := {|
  ph_type := 3; ph_uncompressedPageSize := 10; ph_compressedPageSize := 8; ph_crc := Some (-1); ph_dataPageHeader := None;
  ph_dictionaryPageHeader := None;
  ph_dataPageHeaderV2 := Some {| d2_numValues := 2; d2_numNulls := 0; d2_numRows := 2; d2_encoding := 0;
    d2_definitionLevelsByteLength := 1; d2_repetitionLevelsByteLength := 0; d2_isCompressed := false; d2_statistics := None |};
|}.
Lemma page_header_roundtrip_witness :
  exists bs, writePageHeader sample_page = Ok bs /\
    readPageHeader ([80; 65; 82; 49] ++ bs ++ [9; 9]) 4 = Ok (sample_page, zlen ([80; 65; 82; 49] ++ bs)).
Proof. apply (page_header_roundtrip sample_page [80; 65; 82; 49] [9; 9]). sample_ok. Defined.
End ParquetFooter.
