(* ===== verification/ParquetSchema.v ===== *)
(** Arrow and Parquet types (src/js/data/parquet/schema.ts): the mapping of
    Arrow leaf types to Parquet physical and logical types with their value
    converters, the mapping back from a schema element, and flat schemas.

    A converter is a function on values that can throw; [PNumber] holds the bit
    pattern of a JavaScript number.  A converter is only called on values of its
    column, so the other kinds of value are one error. *)

From S2P Require Import Prelude JsNumber Utf8 ThriftIO ParquetEncoding ParquetConvert ParquetMetadata.

Module ConvertedType.
Definition UTF8 := 0.
Definition MAP := 1.
Definition MAP_KEY_VALUE := 2.
Definition LIST := 3.
Definition ENUM := 4.
Definition DECIMAL := 5.
Definition DATE := 6.
Definition TIME_MILLIS := 7.
Definition TIME_MICROS := 8.
Definition TIMESTAMP_MILLIS := 9.
Definition TIMESTAMP_MICROS := 10.
Definition UINT_8 := 11.
Definition UINT_16 := 12.
Definition UINT_32 := 13.
Definition UINT_64 := 14.
Definition INT_8 := 15.
Definition INT_16 := 16.
Definition INT_32 := 17.
Definition INT_64 := 18.
Definition JSON := 19.
Definition BSON := 20.
Definition INTERVAL := 21.
End ConvertedType.
Module Repetition.
Definition REQUIRED := 0.
Definition OPTIONAL := 1.
Definition REPEATED := 2.
End Repetition.
(** [TimeUnit] of src/js/data/arrow/type.ts. *)
Module ArrowTimeUnit.
Definition SECOND := 0.
Definition MILLISECOND := 1.
Definition MICROSECOND := 2.
Definition NANOSECOND := 3.
End ArrowTimeUnit.

Module ParquetSchema.
Import ThriftIO ParquetMetadata ParquetConvert.

(** ** Arrow leaf types and values *)
Inductive ArrowType :=
| ABool
| AInt (bitWidth : Z) (signed : bool)
| AFloat (precision : Z)
| ADecimal (precision scale bitWidth : Z)
| AUtf8
| ABinary
| AFixedSizeBinary (byteWidth : Z)
| ADate (unit : Z)
| ATime (unit bitWidth : Z)
| ATimestamp (unit : Z) (timezone : option jsstring)
| AOther (kind : jsstring).

Inductive pvalue :=
| PBool (b : bool)
| PNumber (bits : Z)
| PBigInt (z : Z)
| PBytes (bs : list Z)
| PString (s : jsstring).
Definition ValueConverter := pvalue -> res pvalue.
Definition bad_value : res pvalue := Throw (TypeError "unexpected value").

(** ** Converters *)
Definition identity : ValueConverter := Ok.
Definition float16_decode : ValueConverter := fun v =>
  match v with PBytes bs => Ok (PNumber (float16BytesToNumber bs)) | _ => bad_value end.
Definition float16_encode : ValueConverter := fun v =>
  match v with PNumber x => Ok (PBytes (numberToFloat16Bytes x)) | _ => bad_value end.
(** [BigInt(v)] throws unless the number is an integer. *)
Definition big_of_number (x : Z) : res pvalue :=
  match JsNumber.integer_of x with Some z => Ok (PBigInt z) | None => Throw (RangeError "not an integer") end.
Definition bytesToBig : ValueConverter := fun v =>
  match v with
  | PBigInt z => Ok (PBigInt z)
  | PNumber x => big_of_number x
  | PBytes bs => Ok (PBigInt (decimalBytesToBigInt bs))
  | _ => bad_value
  end.
Definition number_to_big : ValueConverter := fun v => match v with PNumber x => big_of_number x | _ => bad_value end.
(** [Number(v)] of a 32-bit decimal. *)
Definition big_to_number : ValueConverter := fun v =>
  match v with PBigInt z => Ok (PNumber (JsNumber.number_of z)) | _ => bad_value end.
Definition decimal_decode : ValueConverter := fun v =>
  match v with PBytes bs => Ok (PBigInt (decimalBytesToBigInt bs)) | _ => bad_value end.
Definition decimal_encode (len : nat) : ValueConverter := fun v =>
  match v with PBigInt z => Ok (PBytes (bigIntToDecimalBytes z len)) | _ => bad_value end.
Definition utf8_decode : ValueConverter := fun v =>
  match v with PBytes bs => s ← Utf8.TextDecoder_decode bs; Ok (PString s) | _ => bad_value end.
Definition int96_decode : ValueConverter := fun v =>
  match v with PBytes bs => z ← int96ToEpochNanos bs; Ok (PBigInt z) | _ => bad_value end.

(** ** From Arrow to Parquet *)
Record ParquetTypeInfo := {
  pi_physicalType : Z; pi_convertedType : option Z; pi_logicalType : option LogicalType; pi_typeLength : option Z;
  pi_scale : option Z; pi_precision : option Z; pi_decode : ValueConverter; pi_encode : ValueConverter;
}.
Definition logical (kind : LogicalKind) : LogicalType :=
  {| lt_kind := kind; lt_decimal := None; lt_time := None; lt_timestamp := None; lt_integer := None |}.
Definition plain_info (physicalType : Z) (convertedType : option Z) (logicalType : option LogicalType) : ParquetTypeInfo :=
  {| pi_physicalType := physicalType; pi_convertedType := convertedType; pi_logicalType := logicalType; pi_typeLength := None;
     pi_scale := None; pi_precision := None; pi_decode := identity; pi_encode := identity |}.

Definition intConverted (bitWidth : Z) (signed : bool) : Z :=
  if signed then
    if bitWidth =? 8 then ConvertedType.INT_8
    else if bitWidth =? 16 then ConvertedType.INT_16
    else if bitWidth =? 32 then ConvertedType.INT_32
    else ConvertedType.INT_64
  else
    if bitWidth =? 8 then ConvertedType.UINT_8
    else if bitWidth =? 16 then ConvertedType.UINT_16
    else if bitWidth =? 32 then ConvertedType.UINT_32
    else ConvertedType.UINT_64.
Definition decimal_logical (scale precision : Z) : option LogicalType :=
  Some {| lt_kind := KDecimal; lt_decimal := Some {| dt_scale := scale; dt_precision := precision |}; lt_time := None;
          lt_timestamp := None; lt_integer := None |}.
Definition time_unit_id (unit : Z) : Z :=
  if unit =? ArrowTimeUnit.MILLISECOND then TimeUnitId.MILLIS
  else if unit =? ArrowTimeUnit.NANOSECOND then TimeUnitId.NANOS
  else if unit =? ArrowTimeUnit.SECOND then -1
  else TimeUnitId.MICROS.
Definition timestamp_unit_id (unit : Z) : Z :=
  if unit =? ArrowTimeUnit.MILLISECOND then TimeUnitId.MILLIS
  else if unit =? ArrowTimeUnit.NANOSECOND then TimeUnitId.NANOS
  else TimeUnitId.MICROS.
Definition no_mapping : res ParquetTypeInfo := Throw (ParquetError "cannot map Arrow type to Parquet").

Definition arrowTypeToParquet (type : ArrowType) : res ParquetTypeInfo :=
  match type with
  | ABool => Ok (plain_info PType.BOOLEAN None None)
  | AInt bitWidth signed =>
      Ok (plain_info (if bitWidth <=? 32 then PType.INT32 else PType.INT64) (Some (intConverted bitWidth signed))
            (Some {| lt_kind := KInteger; lt_decimal := None; lt_time := None; lt_timestamp := None;
                     lt_integer := Some {| it_bitWidth := bitWidth; it_isSigned := signed |} |}))
  | AFloat precision =>
      if precision =? 0 then
        Ok {| pi_physicalType := PType.FIXED_LEN_BYTE_ARRAY; pi_convertedType := None; pi_logicalType := Some (logical KFloat16);
              pi_typeLength := Some 2; pi_scale := None; pi_precision := None; pi_decode := float16_decode;
              pi_encode := float16_encode |}
      else if precision =? 1 then Ok (plain_info PType.FLOAT None None)
      else Ok (plain_info PType.DOUBLE None None)
  | ADecimal precision scale bitWidth =>
      if bitWidth =? 32 then
        Ok {| pi_physicalType := PType.INT32; pi_convertedType := Some ConvertedType.DECIMAL;
              pi_logicalType := decimal_logical scale precision; pi_typeLength := None; pi_scale := Some scale;
              pi_precision := Some precision; pi_decode := bytesToBig; pi_encode := big_to_number |}
      else if bitWidth =? 64 then
        Ok {| pi_physicalType := PType.INT64; pi_convertedType := Some ConvertedType.DECIMAL;
              pi_logicalType := decimal_logical scale precision; pi_typeLength := None; pi_scale := None; pi_precision := None;
              pi_decode := bytesToBig; pi_encode := identity |}
      else
        let len := if bitWidth =? 256 then 32 else 16 in
        Ok {| pi_physicalType := PType.FIXED_LEN_BYTE_ARRAY; pi_convertedType := Some ConvertedType.DECIMAL;
              pi_logicalType := decimal_logical scale precision; pi_typeLength := Some len; pi_scale := None; pi_precision := None;
              pi_decode := decimal_decode; pi_encode := decimal_encode (Z.to_nat len) |}
  | AUtf8 =>
      Ok {| pi_physicalType := PType.BYTE_ARRAY; pi_convertedType := Some ConvertedType.UTF8;
            pi_logicalType := Some (logical KString); pi_typeLength := None; pi_scale := None; pi_precision := None;
            pi_decode := utf8_decode; pi_encode := identity |}
  | ABinary => Ok (plain_info PType.BYTE_ARRAY None None)
  | AFixedSizeBinary byteWidth =>
      Ok {| pi_physicalType := PType.FIXED_LEN_BYTE_ARRAY; pi_convertedType := None; pi_logicalType := None;
            pi_typeLength := Some byteWidth; pi_scale := None; pi_precision := None; pi_decode := identity; pi_encode := identity |}
  | ADate unit =>
      if unit =? 0 then Ok (plain_info PType.INT32 (Some ConvertedType.DATE) (Some (logical KDate))) else no_mapping
  | ATime unit bitWidth =>
      let unitId := time_unit_id unit in
      let logicalType :=
        Some {| lt_kind := KTime; lt_decimal := None;
                lt_time := Some {| tt_isAdjustedToUTC := false; tt_unit := {| tu_unit := unitId |} |};
                lt_timestamp := None; lt_integer := None |} in
      if unitId =? -1 then no_mapping
      else if bitWidth =? 32 then Ok (plain_info PType.INT32 (Some ConvertedType.TIME_MILLIS) logicalType)
      else
        Ok (plain_info PType.INT64 (if unitId =? TimeUnitId.MICROS then Some ConvertedType.TIME_MICROS else None) logicalType)
  | ATimestamp unit timezone =>
      let isUtc := match timezone with Some _ => true | None => false end in
      let converted :=
        if unit =? ArrowTimeUnit.MILLISECOND then Some ConvertedType.TIMESTAMP_MILLIS
        else if unit =? ArrowTimeUnit.MICROSECOND then Some ConvertedType.TIMESTAMP_MICROS
        else None in
      Ok (plain_info PType.INT64 converted
            (Some {| lt_kind := KTimestamp; lt_decimal := None; lt_time := None;
                     lt_timestamp := Some {| ts_isAdjustedToUTC := isUtc; ts_unit := {| tu_unit := timestamp_unit_id unit |} |};
                     lt_integer := None |}))
  | AOther _ => no_mapping
  end.

(** Fields with a leaf type. *)
Record LeafField := { lf_name : jsstring; lf_type : ArrowType; lf_nullable : bool }.
Definition leaf_element (name : jsstring) (nullable : bool) (info : ParquetTypeInfo) : SchemaElement :=
  {| se_type := Some (pi_physicalType info); se_typeLength := pi_typeLength info;
     se_repetitionType := Some (if nullable then Repetition.OPTIONAL else Repetition.REQUIRED); se_name := name;
     se_numChildren := None; se_convertedType := pi_convertedType info; se_scale := pi_scale info;
     se_precision := pi_precision info; se_fieldId := None; se_logicalType := pi_logicalType info |}.
Definition arrowFieldToElement (field : LeafField) : res (SchemaElement * ParquetTypeInfo) :=
  info ← arrowTypeToParquet (lf_type field); Ok (leaf_element (lf_name field) (lf_nullable field) info, info).

Record ColumnDescriptor := {
  cd_name : jsstring; cd_path : list jsstring; cd_physicalType : Z; cd_typeLength : option Z; cd_maxDefinitionLevel : Z;
  cd_maxRepetitionLevel : Z; cd_arrowField : LeafField; cd_decode : ValueConverter; cd_encode : ValueConverter;
}.
Definition root_element (numChildren : Z) : SchemaElement :=
  {| se_type := None; se_typeLength := None; se_repetitionType := None; se_name := js "schema"; se_numChildren := Some numChildren;
     se_convertedType := None; se_scale := None; se_precision := None; se_fieldId := None; se_logicalType := None |}.
Fixpoint schema_columns (fields : list LeafField) : res (list SchemaElement * list ColumnDescriptor) :=
  match fields with
  | [] => Ok ([], [])
  | field :: fields =>
      '(element, info) ← arrowFieldToElement field;
      '(elements, columns) ← schema_columns fields;
      Ok (element :: elements,
          {| cd_name := lf_name field; cd_path := [lf_name field]; cd_physicalType := pi_physicalType info;
             cd_typeLength := pi_typeLength info; cd_maxDefinitionLevel := if lf_nullable field then 1 else 0;
             cd_maxRepetitionLevel := 0; cd_arrowField := field; cd_decode := pi_decode info; cd_encode := pi_encode info |}
          :: columns)
  end.
Definition arrowSchemaToParquet (fields : list LeafField) : res (list SchemaElement * list ColumnDescriptor) :=
  '(elements, columns) ← schema_columns fields; Ok (root_element (zlen fields) :: elements, columns).

(** ** From Parquet to Arrow *)
Definition intFromWidth (bitWidth : Z) (signed : bool) : ArrowType :=
  let w := if bitWidth =? 8 then 8 else if bitWidth =? 16 then 16 else if bitWidth =? 32 then 32 else 64 in AInt w signed.
Definition intFromConverted (converted : Z) : ArrowType :=
  if converted =? ConvertedType.INT_8 then AInt 8 true
  else if converted =? ConvertedType.INT_16 then AInt 16 true
  else if converted =? ConvertedType.INT_32 then AInt 32 true
  else if converted =? ConvertedType.UINT_8 then AInt 8 false
  else if converted =? ConvertedType.UINT_16 then AInt 16 false
  else if converted =? ConvertedType.UINT_32 then AInt 32 false
  else AInt 32 true.
Definition timestampFromUnit (unitId : Z) (isUtc : bool) : ArrowType :=
  let unit :=
    if unitId =? TimeUnitId.MILLIS then ArrowTimeUnit.MILLISECOND
    else if unitId =? TimeUnitId.NANOS then ArrowTimeUnit.NANOSECOND
    else ArrowTimeUnit.MICROSECOND in
  ATimestamp unit (if isUtc then Some (js "UTC") else None).

Definition kind_code (k : LogicalKind) : Z :=
  match k with
  | KString => 0 | KMap => 1 | KList => 2 | KEnum => 3 | KDecimal => 4 | KDate => 5 | KTime => 6 | KTimestamp => 7
  | KInteger => 8 | KUnknown => 9 | KJson => 10 | KBson => 11 | KUuid => 12 | KFloat16 => 13
  end.
(** [logical?.kind === kind] and [converted === code]. *)
Definition has_kind (lt : option LogicalType) (kind : LogicalKind) : bool :=
  match lt with Some lt => kind_code (lt_kind lt) =? kind_code kind | None => false end.
Definition is_code (converted : option Z) (code : Z) : bool := match converted with Some c => c =? code | None => false end.
(** [el.precision ?? logical?.decimal?.precision ?? n], and the scale. *)
Definition precision_or (el : SchemaElement) (n : Z) : Z :=
  match se_precision el with
  | Some p => p
  | None => match se_logicalType el ≫= lt_decimal with Some d => dt_precision d | None => n end
  end.
Definition scale_or (el : SchemaElement) : Z :=
  match se_scale el with
  | Some s => s
  | None => match se_logicalType el ≫= lt_decimal with Some d => dt_scale d | None => 0 end
  end.
(** [logical.integer!] and the like on a missing payload. *)
Definition need {A B} (x : option A) (f : A -> res B) : res B :=
  match x with Some a => f a | None => Throw (TypeError "cannot read properties of undefined") end.
Definition leaf := (ArrowType * ValueConverter * ValueConverter)%type.
Definition same (type : ArrowType) : res leaf := Ok (type, identity, identity).

Definition int32_leaf (el : SchemaElement) (isDecimal : bool) : res leaf :=
  let converted := se_convertedType el in
  let lt := se_logicalType el in
  if isDecimal then Ok (ADecimal (precision_or el 9) (scale_or el) 32, number_to_big, big_to_number)
  else if has_kind lt KDate || is_code converted ConvertedType.DATE then same (ADate 0)
  else if has_kind lt KTime || is_code converted ConvertedType.TIME_MILLIS then same (ATime ArrowTimeUnit.MILLISECOND 32)
  else if has_kind lt KInteger then
    need (lt ≫= lt_integer) (fun i => same (intFromWidth (it_bitWidth i) (it_isSigned i)))
  else match converted with Some c => same (intFromConverted c) | None => same (AInt 32 true) end.
Definition int64_leaf (el : SchemaElement) (isDecimal : bool) : res leaf :=
  let converted := se_convertedType el in
  let lt := se_logicalType el in
  if isDecimal then Ok (ADecimal (precision_or el 18) (scale_or el) 64, identity, identity)
  else if has_kind lt KTimestamp then
    need (lt ≫= lt_timestamp) (fun t => same (timestampFromUnit (tu_unit (ts_unit t)) (ts_isAdjustedToUTC t)))
  else if is_code converted ConvertedType.TIMESTAMP_MILLIS then same (ATimestamp ArrowTimeUnit.MILLISECOND (Some (js "UTC")))
  else if is_code converted ConvertedType.TIMESTAMP_MICROS then same (ATimestamp ArrowTimeUnit.MICROSECOND (Some (js "UTC")))
  else if has_kind lt KTime then
    need (lt ≫= lt_time) (fun t =>
      same (ATime (if tu_unit (tt_unit t) =? TimeUnitId.NANOS then ArrowTimeUnit.NANOSECOND else ArrowTimeUnit.MICROSECOND) 64))
  else if is_code converted ConvertedType.TIME_MICROS then same (ATime ArrowTimeUnit.MICROSECOND 64)
  else if has_kind lt KInteger then
    need (lt ≫= lt_integer) (fun i => same (intFromWidth (it_bitWidth i) (it_isSigned i)))
  else if is_code converted ConvertedType.UINT_64 then same (AInt 64 false)
  else same (AInt 64 true).
Definition byte_array_leaf (el : SchemaElement) (isDecimal : bool) : res leaf :=
  let converted := se_convertedType el in
  if isDecimal then
    Ok (ADecimal (default 38 (se_precision el)) (default 0 (se_scale el)) 128, decimal_decode, decimal_encode 16)
  else if has_kind (se_logicalType el) KString || is_code converted ConvertedType.UTF8
          || is_code converted ConvertedType.ENUM || is_code converted ConvertedType.JSON
  then Ok (AUtf8, utf8_decode, identity)
  else same ABinary.
Definition fixed_leaf (el : SchemaElement) (isDecimal : bool) : res leaf :=
  let len := default 0 (se_typeLength el) in
  if has_kind (se_logicalType el) KFloat16 then Ok (AFloat 0, float16_decode, float16_encode)
  else if isDecimal then
    Ok (ADecimal (precision_or el 38) (scale_or el) (if 16 <? len then 256 else 128), decimal_decode, decimal_encode (Z.to_nat len))
  else same (AFixedSizeBinary len).
Definition parquetLeafToArrow (el : SchemaElement) : res leaf :=
  let isDecimal := has_kind (se_logicalType el) KDecimal || is_code (se_convertedType el) ConvertedType.DECIMAL in
  match se_type el with
  | Some t =>
      if t =? PType.BOOLEAN then same ABool
      else if t =? PType.INT32 then int32_leaf el isDecimal
      else if t =? PType.INT64 then int64_leaf el isDecimal
      else if t =? PType.INT96 then Ok (ATimestamp ArrowTimeUnit.NANOSECOND None, int96_decode, identity)
      else if t =? PType.FLOAT then same (AFloat 1)
      else if t =? PType.DOUBLE then same (AFloat 2)
      else if t =? PType.BYTE_ARRAY then byte_array_leaf el isDecimal
      else if t =? PType.FIXED_LEN_BYTE_ARRAY then fixed_leaf el isDecimal
      else Throw (ParquetError "physical type is not supported")
  | None => Throw (ParquetError "physical type is not supported")
  end.

Definition is_nullable (el : SchemaElement) : bool :=
  match se_repetitionType el with Some r => negb (r =? Repetition.REQUIRED) | None => true end.
(** The columns that follow the root: [numChildren] of them. *)
Fixpoint flat_columns (n : nat) (elements : list SchemaElement) : res (list LeafField * list ColumnDescriptor) :=
  match n with
  | O => Ok ([], [])
  | S n =>
      match elements with
      | [] => Throw (ParquetError "truncated Parquet schema")
      | el :: elements =>
          if 0 <? default 0 (se_numChildren el) then Throw (ParquetError "nested column requires the nested reader")
          else
            '(type, decode, encode) ← parquetLeafToArrow el;
            let nullable := is_nullable el in
            let field := {| lf_name := se_name el; lf_type := type; lf_nullable := nullable |} in
            '(fields, columns) ← flat_columns n elements;
            Ok (field :: fields,
                {| cd_name := se_name el; cd_path := [se_name el]; cd_physicalType := default PType.BYTE_ARRAY (se_type el);
                   cd_typeLength := se_typeLength el; cd_maxDefinitionLevel := if nullable then 1 else 0;
                   cd_maxRepetitionLevel := 0; cd_arrowField := field; cd_decode := decode; cd_encode := encode |} :: columns)
      end
  end.
Definition parquetSchemaToArrow (elements : list SchemaElement) : res (list LeafField * list ColumnDescriptor) :=
  match elements with
  | [] => Throw (ParquetError "empty Parquet schema")
  | root :: elements => flat_columns (Z.to_nat (default 0 (se_numChildren root))) elements
  end.

(** ** Types and values survive a file *)

(** The widths and units that the Arrow types allow. *)
Definition type_ok (type : ArrowType) : Prop :=
  match type with
  | AInt w _ => w = 8 \/ w = 16 \/ w = 32 \/ w = 64
  | AFloat p => p = 0 \/ p = 1 \/ p = 2
  | ADecimal _ _ w => w = 32 \/ w = 64 \/ w = 128 \/ w = 256
  | ATime u w => w = 32 /\ (u = 0 \/ u = 1) \/ w = 64 /\ (u = 2 \/ u = 3)
  | ATimestamp u _ => 0 <= u <= 3
  | _ => True
  end.
(** The type a reader sees. *)
Definition stored_type (type : ArrowType) : ArrowType :=
  match type with
  | ATimestamp u tz =>
      ATimestamp (if u =? ArrowTimeUnit.SECOND then ArrowTimeUnit.MICROSECOND else u)
        (match tz with Some _ => Some (js "UTC") | None => None end)
  | _ => type
  end.
(** The values of a column. *)
Definition inhabits (type : ArrowType) (v : pvalue) : Prop :=
  match type, v with
  | ABool, PBool _ | ABinary, PBytes _ | AFixedSizeBinary _, PBytes _ | ADate _, PNumber _ | ATimestamp _ _, PBigInt _ => True
  | AInt w _, PNumber _ | ATime _ w, PNumber _ => w <= 32
  | AInt w _, PBigInt _ | ATime _ w, PBigInt _ => w = 64
  | AFloat p, PNumber x => p = 0 -> exists w, 0 <= w < 65536 /\ is_nan16 w = false /\ x = of_float16 w
  | ADecimal _ _ w, PBigInt z => is_int w z
  | AUtf8, PString s => plain_string s
  | _, _ => False
  end.
(** What the pages keep of a value: strings as their bytes. *)
Definition paged (v : pvalue) : pvalue := match v with PString s => PBytes (Utf8.TextEncoder_encode s) | v => v end.

Lemma identity_values type v : inhabits type v -> type <> AUtf8 -> exists p, identity v = Ok p /\ identity (paged p) = Ok v.
Proof. intros H Hu. exists v. split; [done|]. by destruct type, v. Qed.
Lemma float16_values v : inhabits (AFloat 0) v -> exists p, float16_encode v = Ok p /\ float16_decode (paged p) = Ok v.
Proof.
  destruct v; try done. intros H. destruct (H eq_refl) as (w & Hw & Hn & ->). eexists. split; [done|]. cbn [paged float16_decode].
  do 2 f_equal. unfold float16BytesToNumber, numberToFloat16Bytes. rewrite to_of_float16 by done. f_equal. cbn. zdm.
Qed.
Lemma decimal_values p s n v :
  (0 < n)%nat -> inhabits (ADecimal p s (8 * Z.of_nat n)) v ->
  exists x, decimal_encode n v = Ok x /\ decimal_decode (paged x) = Ok v.
Proof.
  intros Hn. destruct v; try done. intros H. eexists. split; [done|]. cbn [paged decimal_decode].
  rewrite (proj1 (decimal_roundtrip z n [] Hn (Forall_nil_2 _))). by rewrite signedN_small by (done || lia).
Qed.
Lemma utf8_values v : inhabits AUtf8 v -> exists p, identity v = Ok p /\ utf8_decode (paged p) = Ok v.
Proof. destruct v; try done. intros H. eexists. split; [done|]. cbn [paged utf8_decode]. by rewrite TextDecoder_encode. Qed.
Lemma decimal32_values p s v : inhabits (ADecimal p s 32) v -> exists x, big_to_number v = Ok x /\ number_to_big (paged x) = Ok v.
Proof.
  destruct v; try done. intros H. eexists. split; [done|]. cbn [paged number_to_big]. unfold big_of_number.
  rewrite JsNumber.integer_of_number_of; [done|]. change (- 2147483648 <= z < 2147483648) in H. lia.
Qed.

Lemma leaf_survives type name nullable info :
  type_ok type -> arrowTypeToParquet type = Ok info ->
  exists decode encode, parquetLeafToArrow (leaf_element name nullable info) = Ok (stored_type type, decode, encode) /\
    forall v, inhabits type v -> exists p, pi_encode info v = Ok p /\ decode (paged p) = Ok v.
Proof.
  destruct type as [|w sg|p|p sc w| | |n|u|u w|u tz|k]; cbn [type_ok arrowTypeToParquet]; intros Hok E; try done.
  - injection E as <-. do 2 eexists. split; [done|]. intros. by apply (identity_values ABool).
  - injection E as <-. destruct Hok as [->|[->|[->| ->]]], sg; (do 2 eexists; split; [reflexivity|]; intros v Hv; by eapply identity_values).
  - destruct Hok as [->|[->| ->]]; injection E as <-; (do 2 eexists; split; [reflexivity|]; intros v Hv);
      [by apply float16_values|by eapply identity_values|by eapply identity_values].
  - destruct Hok as [->|[->|[->| ->]]]; injection E as <-; (do 2 eexists; split; [reflexivity|]; intros v Hv);
      [by eapply decimal32_values|by eapply identity_values|by apply (decimal_values p sc 16); [lia|]|by apply (decimal_values p sc 32); [lia|]].
  - injection E as <-. do 2 eexists. split; [reflexivity|]. intros. by apply utf8_values.
  - injection E as <-. do 2 eexists. split; [reflexivity|]. intros. by apply (identity_values ABinary).
  - injection E as <-. do 2 eexists. split; [reflexivity|]. intros. by apply (identity_values (AFixedSizeBinary n)).
  - destruct (Z.eqb_spec u 0) as [->|]; [|done]. injection E as <-. do 2 eexists. split; [reflexivity|]. intros. by apply (identity_values (ADate 0)).
  - destruct Hok as [[-> [->| ->]]|[-> [->| ->]]]; [done|..];
      (injection E as <-; do 2 eexists; split; [reflexivity|]; intros v Hv; by eapply identity_values).
  - injection E as <-. assert (u = 0 \/ u = 1 \/ u = 2 \/ u = 3) as Hu by lia.
    destruct tz; do 2 eexists; (split; [by destruct Hu as [->|[->|[->| ->]]]|]); intros v Hv; by eapply identity_values.
Qed.

(** A type with a Parquet form. *)
Definition mappable (type : ArrowType) : bool :=
  match type with
  | ADate u => u =? 0
  | ATime u _ => negb (u =? ArrowTimeUnit.SECOND)
  | AOther _ => false
  | _ => true
  end.
Lemma mappable_spec type :
  type_ok type ->
  match arrowTypeToParquet type with
  | Ok _ => mappable type = true
  | Throw e => mappable type = false /\ e = ParquetError "cannot map Arrow type to Parquet"
  end.
Proof.
  destruct type as [|w sg|p|p sc w| | |n|u|u w|u tz|k]; cbn [type_ok]; intros Hok; try done.
  - destruct Hok as [->|[->| ->]]; done.
  - destruct Hok as [->|[->|[->| ->]]]; done.
  - cbn. destruct (u =? 0) eqn:E; done.
  - destruct Hok as [[-> [->| ->]]|[-> [->| ->]]]; done.
Qed.
(** Every type but second-resolution timestamps and named zones is read back as it was. *)
Lemma stored_type_exact type :
  stored_type type = type <-> match type with ATimestamp u tz => u <> ArrowTimeUnit.SECOND /\ (tz = None \/ tz = Some (js "UTC")) | _ => True end.
Proof.
  destruct type as [|w sg|p|p sc w| | |n|u|u w|u tz|k]; try done. cbn [stored_type].
  destruct (Z.eqb_spec u ArrowTimeUnit.SECOND) as [->|Hu]; [split; [by intros [=]|by intros [[] _]]|].
  destruct tz as [z|]; [|naive_solver]. split; [intros E; injection E as E; rewrite <- E; auto|].
  intros [_ [[=]|E]]. injection E as E. by rewrite E.
Qed.

Definition stored_field (field : LeafField) : LeafField :=
  {| lf_name := lf_name field; lf_type := stored_type (lf_type field); lf_nullable := lf_nullable field |}.
(** The writer's column and the reader's: the same page layout, and values that survive. *)
Record same_layout (w r : ColumnDescriptor) : Prop := {
  sl_physical : cd_physicalType r = cd_physicalType w;
  sl_length : cd_typeLength r = cd_typeLength w;
  sl_definition : cd_maxDefinitionLevel r = cd_maxDefinitionLevel w;
  sl_repetition : cd_maxRepetitionLevel r = cd_maxRepetitionLevel w;
  sl_type : lf_type (cd_arrowField r) = stored_type (lf_type (cd_arrowField w));
  sl_values : forall v, inhabits (lf_type (cd_arrowField w)) v ->
    exists p, cd_encode w v = Ok p /\ cd_decode r (paged p) = Ok v;
}.
Record reads_back (w r : ColumnDescriptor) : Prop := {
  rb_name : cd_name r = cd_name w;
  rb_path : cd_path r = cd_path w;
  rb_field : cd_arrowField r = stored_field (cd_arrowField w);
  rb_layout : same_layout w r;
}.

Lemma leaf_nullable name nullable info : is_nullable (leaf_element name nullable info) = nullable.
Proof. by destruct nullable. Qed.
Lemma flat_columns_back fields elements columns :
  Forall (fun f => type_ok (lf_type f)) fields -> schema_columns fields = Ok (elements, columns) ->
  exists columns', flat_columns (length fields) elements = Ok (stored_field <$> fields, columns') /\ Forall2 reads_back columns columns'.
Proof.
  revert elements columns. induction fields as [|f fields IH]; intros elements columns Hok E.
  { injection E as <- <-. exists []. split; [done|constructor]. }
  apply Forall_cons in Hok as [Hf Hok]. cbn [schema_columns] in E. unfold arrowFieldToElement in E.
  destruct (arrowTypeToParquet (lf_type f)) as [info|] eqn:Ei; [|done]. cbn in E.
  destruct (schema_columns fields) as [[els cols]|] eqn:Es; [|done]. injection E as <- <-.
  destruct (IH _ _ Hok eq_refl) as (cols' & E & Hc).
  destruct (leaf_survives _ (lf_name f) (lf_nullable f) _ Hf Ei) as (d & e & El & Hv).
  eexists. split.
  - cbn [length flat_columns]. rewrite leaf_nullable, El. cbn -[is_nullable]. rewrite E. reflexivity.
  - constructor; [|done]. by split.
Qed.
Lemma schema_columns_spec fields :
  Forall (fun f => type_ok (lf_type f)) fields ->
  match schema_columns fields with
  | Ok _ => forallb (fun f => mappable (lf_type f)) fields = true
  | Throw e => forallb (fun f => mappable (lf_type f)) fields = false /\ e = ParquetError "cannot map Arrow type to Parquet"
  end.
Proof.
  induction 1 as [|f fields Hf Hok IH]; [done|]. cbn [schema_columns forallb]. unfold arrowFieldToElement.
  apply mappable_spec in Hf. destruct (arrowTypeToParquet (lf_type f)) as [info|x]; cbn.
  - rewrite Hf. by destruct (schema_columns fields) as [[]|].
  - by destruct Hf as [-> ->].
Qed.

(** A flat Arrow schema is written exactly when each of its types has a
    Parquet form, and a reader of the written elements gets the same fields back
    (types up to [stored_type]), with columns of the same names, paths, physical
    layout and levels, through which every value of the column's type survives
    the writer's [encode] and the reader's [decode]. *)
Theorem schema_roundtrip (fields : list LeafField) :
  Forall (fun f => type_ok (lf_type f)) fields ->
  match arrowSchemaToParquet fields with
  | Ok (elements, columns) =>
      forallb (fun f => mappable (lf_type f)) fields = true /\
      exists columns', parquetSchemaToArrow elements = Ok (stored_field <$> fields, columns') /\ Forall2 reads_back columns columns'
  | Throw e =>
      forallb (fun f => mappable (lf_type f)) fields = false /\ e = ParquetError "cannot map Arrow type to Parquet"
  end.
Proof.
  intros Hok. unfold arrowSchemaToParquet. pose proof (schema_columns_spec _ Hok) as Hs.
  destruct (schema_columns fields) as [[els cols]|] eqn:E; [|done]. cbn. split; [done|].
  unfold zlen. rewrite Nat2Z.id. by apply flat_columns_back.
Qed.
Lemma schema_roundtrip_witness :
  exists elements columns columns',
    arrowSchemaToParquet [{| lf_name := js "id"; lf_type := AInt 64 true; lf_nullable := false |};
                          {| lf_name := js "at"; lf_type := ATimestamp ArrowTimeUnit.SECOND None; lf_nullable := true |}]
      = Ok (elements, columns) /\
    parquetSchemaToArrow elements
      = Ok ([{| lf_name := js "id"; lf_type := AInt 64 true; lf_nullable := false |};
             {| lf_name := js "at"; lf_type := ATimestamp ArrowTimeUnit.MICROSECOND None; lf_nullable := true |}], columns') /\
    Forall2 reads_back columns columns'.
Proof.
  epose proof (schema_roundtrip
    [{| lf_name := js "id"; lf_type := AInt 64 true; lf_nullable := false |};
     {| lf_name := js "at"; lf_type := ATimestamp ArrowTimeUnit.SECOND None; lf_nullable := true |}] _) as H.
  destruct H as (_ & columns' & E & Hc). do 2 eexists. exists columns'. split; [reflexivity|]. split; [exact E|exact Hc].
  Unshelve. repeat constructor; cbn; auto 10; discriminate.
Defined.

(** Second-resolution timestamps are stored as they are under a microsecond
    annotation, so a reader sees instants a million times closer to the epoch. *)
Lemma second_timestamps_read_as_micros name nullable z tz :
  exists info, arrowTypeToParquet (ATimestamp ArrowTimeUnit.SECOND tz) = Ok info /\ pi_encode info (PBigInt z) = Ok (PBigInt z) /\
  exists tz', parquetLeafToArrow (leaf_element name nullable info) = Ok (ATimestamp ArrowTimeUnit.MICROSECOND tz', identity, identity).
Proof. destruct tz; (eexists; split; [done|]; split; [done|]; eexists; reflexivity). Qed.
End ParquetSchema.
