(* ===== verification/ParquetTree.v ===== *)
(** Nested Parquet schemas (src/js/data/parquet/nested.ts): the elements that a
    tree of nodes is written as in a file's footer, and the tree that a reader
    builds from the elements.

    The nodes are those of [ParquetNested] with Arrow types at the leaves.
    Reading threads the elements that are left and the column descriptors made
    so far; a descriptor's identity is its position among them.  [fuel] bounds
    the nesting: every level reads an element, so one more than their number is
    enough. *)

From S2P Require Import Prelude ParquetEncoding ParquetMetadata ParquetSchema ParquetNested.

Module ParquetTree.
Import ParquetMetadata ParquetSchema ParquetNested.
Abbreviation Node := (ParquetNested.Node ArrowType).
Abbreviation Field := (ParquetNested.Field ArrowType).
Arguments node_name {prim}.
Arguments node_nullable {prim}.
Arguments Leaf {prim}.
Arguments StructNode {prim}.
Arguments ListNode {prim}.
Arguments MapNode {prim}.
Arguments mkField {prim}.
Arguments Primitive {prim}.
Arguments Struct {prim}.
Arguments ListOf {prim}.
Arguments MapOf {prim}.
Arguments field_name {prim}.
Arguments field_nullable {prim}.
Arguments buildNode {prim}.
Arguments build_children {prim}.
Arguments buildNodes {prim}.

(** ** Writing *)
Definition repetition (nullable : bool) : Z := if nullable then Repetition.OPTIONAL else Repetition.REQUIRED.
Definition group_element (name : jsstring) (rep numChildren : Z) (converted : option Z) (lt : option LogicalType) : SchemaElement :=
  {| se_type := None; se_typeLength := None; se_repetitionType := Some rep; se_name := name; se_numChildren := Some numChildren;
     se_convertedType := converted; se_scale := None; se_precision := None; se_fieldId := None; se_logicalType := lt |}.

(** [emitElement({ ...node, name, nullable })]. *)
Fixpoint emit_as (name : jsstring) (nullable : bool) (node : Node) : res (list SchemaElement) :=
  let rep := repetition nullable in
  match node with
  | Leaf _ _ _ _ type _ => info ← arrowTypeToParquet type; Ok [leaf_element name nullable info]
  | StructNode _ _ _ _ children =>
      els ← (fix go l :=
               match l with
               | [] => Ok []
               | c :: l => e ← emit_as (node_name c) (node_nullable c) c; es ← go l; Ok (e ++ es)
               end) children;
      Ok (group_element name rep (zlen children) None None :: els)
  | ListNode _ _ _ _ child =>
      els ← emit_as (js "element") (node_nullable child) child;
      Ok (group_element name rep 1 (Some ConvertedType.LIST) (Some (logical KList))
          :: group_element (js "list") Repetition.REPEATED 1 None None :: els)
  | MapNode _ _ _ _ entries =>
      match entries with
      | StructNode _ _ _ _ (keyNode :: valueNode :: _) =>
          key ← emit_as (js "key") false keyNode;
          value ← emit_as (js "value") (node_nullable valueNode) valueNode;
          Ok (group_element name rep 1 (Some ConvertedType.MAP) (Some (logical KMap))
              :: group_element (js "key_value") Repetition.REPEATED 2 None None :: key ++ value)
      | _ => Throw (TypeError "cannot read properties of undefined")
      end
  end.
Definition emitElement (node : Node) : res (list SchemaElement) := emit_as (node_name node) (node_nullable node) node.
Definition emit_all : list Node -> res (list SchemaElement) :=
  fix go l :=
    match l with
    | [] => Ok []
    | c :: l => e ← emitElement c; es ← go l; Ok (e ++ es)
    end.
Definition nodesToSchemaElements (nodes : list Node) : res (list SchemaElement) :=
  els ← emit_all nodes; Ok (root_element (zlen nodes) :: els).

(** The column descriptors that [buildNode] gives its leaves. *)
Definition leaf_column (name : jsstring) (type : ArrowType) (nullable : bool) (path : list jsstring) (info : ParquetTypeInfo)
  (defLevel repLevel : Z) : ColumnDescriptor :=
  {| cd_name := name; cd_path := path ++ [name]; cd_physicalType := pi_physicalType info; cd_typeLength := pi_typeLength info;
     cd_maxDefinitionLevel := defLevel; cd_maxRepetitionLevel := repLevel;
     cd_arrowField := {| lf_name := name; lf_type := type; lf_nullable := nullable |};
     cd_decode := pi_decode info; cd_encode := pi_encode info |}.
Fixpoint build_columns (field : Field) (parentDef parentRep : Z) (path : list jsstring) : res (list ColumnDescriptor) :=
  match field with
  | mkField name type nullable =>
      let defLevel := parentDef + Z.b2z nullable in
      match type with
      | Struct children =>
          (fix go fs :=
             match fs with
             | [] => Ok []
             | f :: fs => c ← build_columns f defLevel parentRep (path ++ [name]); cs ← go fs; Ok (c ++ cs)
             end) children
      | ListOf child => build_columns child (defLevel + 1) (parentRep + 1) (path ++ [name; js "list"])
      | MapOf child => build_columns child (defLevel + 1) (parentRep + 1) (path ++ [name; js "key_value"])
      | Primitive type => info ← arrowTypeToParquet type; Ok [leaf_column name type nullable path info defLevel parentRep]
      end
  end.
Definition columns_below (d r : Z) (path : list jsstring) : list Field -> res (list ColumnDescriptor) :=
  fix go fs :=
    match fs with
    | [] => Ok []
    | f :: fs => c ← build_columns f d r path; cs ← go fs; Ok (c ++ cs)
    end.

(** ** Reading *)
Record parsing := { p_elements : list SchemaElement; p_columns : list ColumnDescriptor }.
(** [elements[cursor.i++]] *)
Definition next_element : ST parsing (option SchemaElement) := fun s =>
  match p_elements s with
  | [] => Ok (None, s)
  | el :: els => Ok (Some el, {| p_elements := els; p_columns := p_columns s |})
  end.
Definition new_column (c : ColumnDescriptor) : ST parsing nat := fun s =>
  Ok (length (p_columns s), {| p_elements := p_elements s; p_columns := p_columns s ++ [c] |}).
(** The loops over the children of a group. *)
Fixpoint times {A} (n : nat) (m : ST parsing A) : ST parsing (list A) :=
  match n with
  | O => mret []
  | S n => x ← m; xs ← times n m; mret (x :: xs)
  end.
Definition is_list (el : SchemaElement) : bool :=
  is_code (se_convertedType el) ConvertedType.LIST || has_kind (se_logicalType el) KList.
Definition is_map (el : SchemaElement) : bool :=
  is_code (se_convertedType el) ConvertedType.MAP || is_code (se_convertedType el) ConvertedType.MAP_KEY_VALUE
  || has_kind (se_logicalType el) KMap.
Definition parsed_column (el : SchemaElement) (path : list jsstring) (type : ArrowType) (decode encode : ValueConverter)
  (defLevel repLevel : Z) : ColumnDescriptor :=
  {| cd_name := se_name el; cd_path := path ++ [se_name el]; cd_physicalType := default PType.BYTE_ARRAY (se_type el);
     cd_typeLength := se_typeLength el; cd_maxDefinitionLevel := defLevel; cd_maxRepetitionLevel := repLevel;
     cd_arrowField := {| lf_name := se_name el; lf_type := type; lf_nullable := is_nullable el |};
     cd_decode := decode; cd_encode := encode |}.

Fixpoint parseNode (fuel : nat) (parentDef parentRep : Z) (path : list jsstring) : ST parsing Node :=
  match fuel with
  | O => throw Diverges
  | S fuel =>
      el ← next_element;
      match el with
      | None => throw (ParquetError "truncated Parquet schema")
      | Some el =>
          let name := se_name el in
          let nullable := is_nullable el in
          let numChildren := default 0 (se_numChildren el) in
          let defLevel := parentDef + Z.b2z nullable in
          if numChildren =? 0 then
            '(type, decode, encode) ← liftR (parquetLeafToArrow el);
            descriptor ← new_column (parsed_column el path type decode encode defLevel parentRep);
            mret (Leaf name nullable defLevel parentRep type descriptor)
          else if is_list el then
            next_element;;
            child ← parseNode fuel (defLevel + 1) (parentRep + 1) (path ++ [name; js "list"]);
            mret (ListNode name nullable defLevel (parentRep + 1) child)
          else if is_map el then
            keyValue ← next_element;
            match keyValue with
            | None => throw (TypeError "cannot read properties of undefined")
            | Some keyValue =>
                entries ← times (Z.to_nat (default 2 (se_numChildren keyValue)))
                  (parseNode fuel (defLevel + 1) (parentRep + 1) (path ++ [name; js "key_value"]));
                mret (MapNode name nullable defLevel (parentRep + 1)
                        (StructNode (js "entries") false (defLevel + 1) (parentRep + 1) entries))
            end
          else
            children ← times (Z.to_nat numChildren) (parseNode fuel defLevel parentRep (path ++ [name]));
            mret (StructNode name nullable defLevel parentRep children)
      end
  end.
(** The Arrow field of a parsed node. *)
Fixpoint node_field (node : Node) : Field :=
  match node with
  | Leaf name nullable _ _ type _ => mkField name (Primitive type) nullable
  | StructNode name nullable _ _ children => mkField name (Struct (map node_field children)) nullable
  | ListNode name nullable _ _ child => mkField name (ListOf (node_field child)) nullable
  | MapNode name nullable _ _ entries => mkField name (MapOf (node_field entries)) nullable
  end.
(** The schema, the nodes and the descriptors of their leaves. *)
Definition schemaElementsToNodes (elements : list SchemaElement) : res (list Field * list Node * list ColumnDescriptor) :=
  match elements with
  | [] => Throw (TypeError "cannot read properties of undefined")
  | root :: els =>
      '(nodes, s) ← times (Z.to_nat (default 0 (se_numChildren root))) (parseNode (S (length els)) 0 0 [])
                     {| p_elements := els; p_columns := [] |};
      Ok (map node_field nodes, nodes, p_columns s)
  end.

(** ** What a reader sees *)

(** The tree of the emitted elements: the writer's with the names that lists and
    maps are given, and the types as they are stored. *)
Fixpoint stored_as (name : jsstring) (node : Node) : Node :=
  match node with
  | Leaf _ b d r type id => Leaf name b d r (stored_type type) id
  | StructNode _ b d r children => StructNode name b d r (map (fun c => stored_as (node_name c) c) children)
  | ListNode _ b d r child => ListNode name b d r (stored_as (js "element") child)
  | MapNode _ b d r entries => MapNode name b d r (stored_as (js "entries") entries)
  end.
Definition stored_node (node : Node) : Node := stored_as (node_name node) node.

(** Schemas that a file can hold: structs have children, leaves have a Parquet
    form, and maps have entries that are structs of a key and a value, where
    the entries and the keys are not nullable. *)
Fixpoint storable (f : Field) : Prop :=
  match f with
  | mkField _ (Primitive t) _ => type_ok t /\ mappable t = true
  | mkField _ (Struct children) _ =>
      children <> [] /\ (fix all l := match l with [] => True | c :: l => storable c /\ all l end) children
  | mkField _ (ListOf child) _ => storable child
  | mkField _ (MapOf child) _ =>
      storable child /\
      match child with
      | mkField _ (Struct [mkField kn _ false; mkField vn _ _]) false => kn = js "key" /\ vn = js "value"
      | _ => False
      end
  end.
Lemma storable_struct nm b children :
  storable (mkField nm (Struct children) b) <-> children <> [] /\ Forall storable children.
Proof.
  cbn. apply and_iff_compat_l. induction children as [|c l IH]; [done|]. by rewrite Forall_cons, IH.
Qed.

Lemma buildNode_nullable (f : Field) d r next : node_nullable (buildNode f d r next).1 = field_nullable f.
Proof.
  destruct f as [nm [] b]; cbn [buildNode]; try destruct (buildNode _ _ _ _); try done. fold (@build_children ArrowType (d + Z.b2z b) r).
  by destruct (build_children _ _ _ _).
Qed.

(** A node and the elements it is emitted as, read back at its place. *)
Definition reparsed (f : Field) : Prop :=
  forall name pd pr next wpath, exists els wcols,
    emit_as name (field_nullable f) (buildNode f pd pr next).1 = Ok els /\ els <> [] /\
    build_columns f pd pr wpath = Ok wcols /\
    (buildNode f pd pr next).2 = (next + length wcols)%nat /\
    forall fuel path els' cs, (length els <= fuel)%nat -> length cs = next -> exists cols,
      parseNode fuel pd pr path {| p_elements := els ++ els'; p_columns := cs |} =
        Ok (stored_as name (buildNode f pd pr next).1, {| p_elements := els'; p_columns := cs ++ cols |}) /\
      Forall2 same_layout wcols cols.
Definition reparsed_all (fs : list Field) : Prop :=
  forall pd pr next wpath, exists els wcols,
    emit_all (build_children pd pr fs next).1 = Ok els /\ (fs <> [] -> els <> []) /\
    columns_below pd pr wpath fs = Ok wcols /\
    (build_children pd pr fs next).2 = (next + length wcols)%nat /\
    forall fuel path els' cs, (length els <= fuel)%nat -> length cs = next -> exists cols,
      times (length fs) (parseNode fuel pd pr path) {| p_elements := els ++ els'; p_columns := cs |} =
        Ok (map stored_node (build_children pd pr fs next).1, {| p_elements := els'; p_columns := cs ++ cols |}) /\
      Forall2 same_layout wcols cols.

Lemma reparsed_children fs : Forall reparsed fs -> reparsed_all fs.
Proof.
  induction 1 as [|f fs Hf _ IH]; intros pd pr next wpath.
  { exists [], []. cbn. split_and!; try done; try lia. intros _ _ els' cs _ _. exists []. by rewrite app_nil_r. }
  destruct (Hf (field_name f) pd pr next wpath) as (els1 & wc1 & E1 & N1 & W1 & X1 & P1).
  destruct (IH pd pr (next + length wc1)%nat wpath) as (els2 & wc2 & E2 & N2 & W2 & X2 & P2).
  exists (els1 ++ els2), (wc1 ++ wc2).
  pose proof (buildNode_name _ f pd pr next) as Hn. pose proof (buildNode_nullable f pd pr next) as Hb.
  cbn [build_children columns_below]. rewrite W1. cbn [mbind res_bind]. rewrite W2.
  destruct (buildNode f pd pr next) as [n next1]. cbn [fst snd] in *. subst next1.
  destruct (build_children pd pr fs _) as [ns next2]. cbn [fst snd emit_all] in *. subst next2. unfold emitElement. rewrite Hn, Hb, E1.
  cbn [mbind res_bind]. rewrite E2. split_and!; [done| |done|rewrite length_app; lia|].
  { intros _ E%app_nil. by destruct E. }
  intros fuel path els' cs Hl Hc. rewrite length_app in Hl.
  destruct (P1 fuel path (els2 ++ els') cs ltac:(lia) Hc) as (c1 & R1 & L1).
  destruct (P2 fuel path els' (cs ++ c1) ltac:(lia)) as (c2 & R2 & L2).
  { rewrite length_app, Hc. f_equal. symmetry. by eapply Forall2_length. }
  exists (c1 ++ c2). split; [|by apply Forall2_app]. cbn [length times]. rewrite <- app_assoc, (ST_bind_ok _ _ _ _ _ R1).
  rewrite (ST_bind_ok _ _ _ _ _ R2). cbn [map]. change (stored_node n) with (stored_as (node_name n) n). by rewrite Hn, <- app_assoc.
Qed.

(** One element, then what is left. *)
Lemma next_element_ok el els cs :
  next_element {| p_elements := el :: els; p_columns := cs |} = Ok (Some el, {| p_elements := els; p_columns := cs |}).
Proof. done. Qed.
Lemma group_nullable name nullable n conv lt : is_nullable (group_element name (repetition nullable) n conv lt) = nullable.
Proof. by destruct nullable. Qed.

Lemma leaf_reparsed nm b t : type_ok t -> mappable t = true -> reparsed (mkField nm (Primitive t) b).
Proof.
  intros Hok Hm name pd pr next wpath. pose proof (mappable_spec t Hok) as Hs. cbn [emit_as buildNode build_columns fst snd].
  destruct (arrowTypeToParquet t) as [info|] eqn:E; [|by rewrite Hm in Hs; destruct Hs].
  do 2 eexists. split_and!; [done|done|done|cbn; lia|]. intros [|fuel] path els' cs Hl <-; [by cbn in Hl; lia|].
  destruct (leaf_survives t name b info Hok E) as (d & e & El & Hv). eexists. split.
  - cbn [parseNode app field_nullable]. rewrite (ST_bind_ok _ _ _ _ _ (next_element_ok _ _ _)). cbn [se_numChildren leaf_element]. change (default 0 None =? 0) with true. cbn match.
    rewrite leaf_nullable, El. reflexivity.
  - constructor; [|done]. by split.
Qed.

Lemma struct_reparsed nm b fs : fs <> [] -> reparsed_all fs -> reparsed (mkField nm (Struct fs) b).
Proof.
  intros Hne H name pd pr next wpath. rewrite buildNode_struct.
  destruct (H (pd + Z.b2z b) pr next (wpath ++ [nm])) as (els & wc & E & N & W & X & P).
  pose proof (build_children_names _ (pd + Z.b2z b) pr fs next) as Hlen.
  destruct (build_children _ _ fs next) as [ns next']. cbn [fst snd] in *. apply (f_equal length) in Hlen. rewrite !length_map in Hlen.
  cbn [emit_as field_nullable]. unfold emit_all, emitElement in E. rewrite E. cbn [mbind res_bind].
  do 2 eexists. split_and!; [done|done|exact W|done|]. intros [|fuel] path els' cs Hl Hc; [cbn in Hl; lia|]. cbn [length] in Hl.
  destruct (P fuel (path ++ [name]) els' cs ltac:(lia) Hc) as (cols & R & L). exists cols. split; [|done].
  cbn [parseNode app]. rewrite (ST_bind_ok _ _ _ _ _ (next_element_ok _ _ _)). rewrite group_nullable.
  cbn [se_numChildren group_element]. change (default 0 (Some (zlen ns))) with (zlen ns).
  destruct (Z.eqb_spec (zlen ns) 0) as [E0|_]; [exfalso; unfold zlen in E0; destruct fs; cbn in *; [done|lia]|].
  change (is_list _) with false. change (is_map _) with false. cbn match. unfold zlen. rewrite Nat2Z.id, Hlen.
  rewrite (ST_bind_ok _ _ _ _ _ R). reflexivity.
Qed.

Lemma list_reparsed nm b f : reparsed f -> reparsed (mkField nm (ListOf f) b).
Proof.
  intros H name pd pr next wpath.
  destruct (H (js "element") (pd + Z.b2z b + 1) (pr + 1) next (wpath ++ [nm; js "list"])) as (els & wc & E & N & W & X & P).
  pose proof (buildNode_nullable f (pd + Z.b2z b + 1) (pr + 1) next) as Hb. cbn [buildNode build_columns].
  destruct (buildNode f _ _ next) as [n next']. cbn [fst snd] in *. cbn [emit_as field_nullable]. rewrite Hb, E. cbn [mbind res_bind].
  do 2 eexists. split_and!; [done|done|exact W|done|]. intros [|fuel] path els' cs Hl Hc; [cbn in Hl; lia|]. cbn [length] in Hl.
  destruct (P fuel (path ++ [name; js "list"]) els' cs ltac:(lia) Hc) as (cols & R & L). exists cols. split; [|done].
  cbn [parseNode app]. rewrite (ST_bind_ok _ _ _ _ _ (next_element_ok _ _ _)). rewrite group_nullable.
  cbn [se_numChildren group_element]. change (default 0 (Some 1) =? 0) with false.
  change (is_list _) with true. cbn match. rewrite (ST_bind_ok _ _ _ _ _ (next_element_ok _ _ _)).
  rewrite (ST_bind_ok _ _ _ _ _ R). reflexivity.
Qed.
(** The entries of a map, with the levels of the repeated group. *)
Lemma buildNode_map nm b en (fs : list Field) pd pr next :
  buildNode (mkField nm (MapOf (mkField en (Struct fs) false)) b) pd pr next =
  let '(ns, next') := build_children (pd + Z.b2z b + 1) (pr + 1) fs next in
  (MapNode nm b (pd + Z.b2z b) (pr + 1) (StructNode en false (pd + Z.b2z b + 1) (pr + 1) ns), next').
Proof.
  change (buildNode (mkField nm _ b) pd pr next) with
    (let '(n, next') := buildNode (mkField en (Struct fs) false) (pd + Z.b2z b + 1) (pr + 1) next in
     (MapNode nm b (pd + Z.b2z b) (pr + 1) n, next')).
  rewrite buildNode_struct. change (Z.b2z false) with 0. rewrite Z.add_0_r. by destruct (build_children _ _ fs next).
Qed.
Lemma build_columns_map nm b en (fs : list Field) pd pr path :
  build_columns (mkField nm (MapOf (mkField en (Struct fs) false)) b) pd pr path =
  columns_below (pd + Z.b2z b + 1) (pr + 1) ((path ++ [nm; js "key_value"]) ++ [en]) fs.
Proof. rewrite <- (Z.add_0_r (pd + Z.b2z b + 1)). reflexivity. Qed.
Lemma build_pair kn (tk : DataType ArrowType) vn (tv : DataType ArrowType) bv d r next : exists k v next',
  build_children d r [mkField kn tk false; mkField vn tv bv] next = ([k; v], next') /\
  node_name k = kn /\ node_nullable k = false /\ node_name v = vn.
Proof.
  cbn [build_children]. pose proof (buildNode_name _ (mkField kn tk false) d r next) as Hkn.
  pose proof (buildNode_nullable (mkField kn tk false) d r next) as Hkb. destruct (buildNode (mkField kn _ _) _ _ _) as [k next1].
  pose proof (buildNode_name _ (mkField vn tv bv) d r next1) as Hvn. destruct (buildNode (mkField vn _ _) _ _ _) as [v next2].
  by do 3 eexists.
Qed.

(** The entries of a map are two elements after the group's. *)
Lemma map_reparsed nm b en tk tv bv (fs := [mkField (js "key") tk false; mkField (js "value") tv bv]) :
  reparsed_all fs -> reparsed (mkField nm (MapOf (mkField en (Struct fs) false)) b).
Proof.
  intros H name pd pr next wpath. rewrite buildNode_map, build_columns_map.
  destruct (H (pd + Z.b2z b + 1) (pr + 1) next ((wpath ++ [nm; js "key_value"]) ++ [en])) as (els & wc & E & _ & W & X & P).
  destruct (build_pair (js "key") tk (js "value") tv bv (pd + Z.b2z b + 1) (pr + 1) next) as (k & v & next' & Eb & Hkn & Hkb & Hvn).
  fold fs in Eb. rewrite Eb in *. cbn [fst snd emit_all emit_as field_nullable] in *. unfold emitElement in E. rewrite Hkn, Hkb, Hvn in E.
  destruct (emit_as (js "key") false k) as [kels|]; [|done]. cbn [mbind res_bind] in E |- *.
  destruct (emit_as (js "value") _ v) as [vels|]; [|done]. cbn [mbind res_bind] in E |- *. rewrite app_nil_r in E. injection E as <-.
  do 2 eexists. split_and!; [done|done|exact W|done|]. intros [|fuel] path els' cs Hl Hc; [cbn in Hl; lia|]. cbn [length] in Hl.
  destruct (P fuel (path ++ [name; js "key_value"]) els' cs ltac:(lia) Hc) as (cols & R & L). exists cols. split; [|done].
  cbn [parseNode app]. rewrite (ST_bind_ok _ _ _ _ _ (next_element_ok _ _ _)). rewrite group_nullable.
  cbn [se_numChildren group_element]. change (default 0 (Some 1) =? 0) with false.
  change (is_list _) with false. change (is_map _) with true. cbn match.
  rewrite (ST_bind_ok _ _ _ _ _ (next_element_ok _ _ _)). change (Z.to_nat (default 2 (se_numChildren _))) with 2%nat.
  rewrite (ST_bind_ok _ _ _ _ _ R). cbn [map]. unfold stored_node. cbn [stored_as map]. rewrite Hkn, Hvn. reflexivity.
Qed.

Definition struct_fields (f : Field) : list Field := match f with mkField _ (Struct fs) _ => fs | _ => [] end.
Lemma storable_reparsed_all f : Forall (fun g => storable g -> reparsed g) (f :: struct_fields f).
Proof.
  induction f as [nm b p|nm b children IH|nm b child IH|nm b child IH] using Field_nested_ind;
    apply Forall_cons; (split; [intros Hok|try by apply Forall_nil]).
  - by apply leaf_reparsed; apply Hok.
  - apply storable_struct in Hok as [Hne Hall]. apply struct_reparsed; [done|]. apply reparsed_children.
    rewrite !Forall_forall in *. intros c Hc. specialize (IH c Hc). apply Forall_cons in IH as [IH _]. auto.
  - eapply Forall_impl; [exact IH|]. cbn. intros c Hc. by apply Forall_cons in Hc as [Hc _].
  - apply Forall_cons in IH as [IH _]. by apply list_reparsed, IH.
  - destruct Hok as [Hok Hch]. destruct child as [en [|[|[kn tk []] [|[vn tv bv] []]]| |] []]; try done. destruct Hch as [-> ->].
    apply storable_struct in Hok as [_ Hok]. apply Forall_cons in IH as [_ IH]. cbn in IH.
    rewrite !Forall_cons in Hok, IH. apply map_reparsed, reparsed_children. constructor; [tauto|constructor; [tauto|done]].
Qed.
Lemma storable_reparsed f : storable f -> reparsed f.
Proof. intros H. pose proof (storable_reparsed_all f) as A. apply Forall_cons in A as [A _]. auto. Qed.
(** ** Assembly with the tree of the file *)
Arguments firstLeaf {prim}.
Arguments consumeAbsent {prim}.
Arguments assembleValue {prim}.
Arguments collectLeaves {prim}.
Arguments peekDef {prim}.
Arguments peekRep {prim}.
Arguments entries_left {prim}.
Arguments assemble_props {prim}.

Lemma stored_leaves n name : collectLeaves (stored_as name n) = collectLeaves n.
Proof.
  revert name. induction n as [| nm b d r children IH |nm b d r child IH|nm b d r child IH] using Node_nested_ind; intros name; try done.
  - cbn. rewrite map_map. f_equal. induction IH as [|c l Hc _ IH]; [done|]. cbn. by rewrite Hc, IH.
  - apply IH.
  - apply IH.
Qed.
Lemma stored_first n name : firstLeaf (stored_as name n) = firstLeaf n.
Proof.
  revert name. induction n as [| nm b d r children IH |nm b d r child IH|nm b d r child IH] using Node_nested_ind; intros name; try done.
  - destruct IH as [|c l Hc _]; [done|]. apply Hc.
  - apply IH.
  - apply IH.
Qed.
Lemma stored_absent n name cs : consumeAbsent (stored_as name n) cs = consumeAbsent n cs.
Proof.
  revert name cs. induction n as [| nm b d r children IH |nm b d r child IH|nm b d r child IH] using Node_nested_ind; intros name cs; try done.
  - cbn. revert cs. induction IH as [|c l Hc _ IH]; intros cs; [done|]. cbn. rewrite Hc.
    destruct (consumeAbsent c cs); [apply IH|done].
  - apply IH.
  - apply IH.
Qed.
Lemma stored_peeks n name cs :
  peekDef (stored_as name n) cs = peekDef n cs /\ peekRep (stored_as name n) cs = peekRep n cs /\
  entries_left (stored_as name n) cs = entries_left n cs.
Proof. unfold peekDef, peekRep, entries_left. by rewrite stored_first. Qed.
Lemma assemble_more_ext f f' peek peek' r fuel arr cs :
  (forall cs, f cs = f' cs) -> (forall cs, peek cs = peek' cs) ->
  assemble_more f peek r fuel arr cs = assemble_more f' peek' r fuel arr cs.
Proof.
  intros Hf Hp. revert arr cs. induction fuel as [|fuel IH]; intros arr cs; cbn [assemble_more]; rewrite Hp; [done|].
  destruct (peek' cs) as [rep|]; [|done]. cbn [mbind res_bind]. destruct (r <=? rep); [|done]. rewrite Hf.
  destruct (f' cs) as [[v cs']|]; [apply IH|done].
Qed.
Lemma stored_name n name : node_name (stored_as name n) = name.
Proof. by destruct n. Qed.
Lemma stored_props children :
  Forall (fun c => forall name cs, assembleValue (stored_as name c) cs = assembleValue c cs) children ->
  forall props cs, assemble_props assembleValue (map (fun c => stored_as (node_name c) c) children) props cs =
    assemble_props assembleValue children props cs.
Proof.
  induction 1 as [|c l Hc _ IH]; intros props cs; [done|]. cbn [map assemble_props]. rewrite Hc, stored_name.
  destruct (assembleValue c cs) as [[v cs']|]; [apply IH|done].
Qed.
Lemma stored_assemble n name cs : assembleValue (stored_as name n) cs = assembleValue n cs.
Proof.
  revert name cs. induction n as [| nm b d r children IH |nm b d r child IH|nm b d r child IH] using Node_nested_ind; intros name cs; [done|..].
  - cbn [stored_as assembleValue]. change (StructNode name b d r _) with (stored_as name (StructNode nm b d r children)).
    rewrite (proj1 (stored_peeks _ _ _)), stored_absent.
    destruct (peekDef _ cs); [|done]. cbn [mbind res_bind]. by rewrite stored_props.
  - cbn [stored_as assembleValue]. change (ListNode name b d r _) with (stored_as name (ListNode nm b d r child)).
    rewrite (proj1 (stored_peeks _ _ _)), !stored_absent, (proj2 (proj2 (stored_peeks _ _ _))), IH.
    destruct (peekDef _ cs) as [def|]; [|done]. cbn [mbind res_bind]. destruct (def <? d), (def =? d); try done.
    destruct (entries_left child cs) as [fuel|]; [|done]. cbn [mbind res_bind].
    destruct (assembleValue child cs) as [[x cs']|]; [|done]. cbn [mbind res_bind].
    erewrite assemble_more_ext; [done|auto|]. intros. apply stored_peeks.
  - cbn [stored_as assembleValue]. change (MapNode name b d r _) with (stored_as name (MapNode nm b d r child)).
    rewrite (proj1 (stored_peeks _ _ _)), !stored_absent, (proj2 (proj2 (stored_peeks _ _ _))), IH.
    destruct (peekDef _ cs) as [def|]; [|done]. cbn [mbind res_bind]. destruct (def <? d), (def =? d); try done.
    destruct (entries_left child cs) as [fuel|]; [|done]. cbn [mbind res_bind].
    destruct (assembleValue child cs) as [[x cs']|]; [|done]. cbn [mbind res_bind]. destruct (entry_pair x) as [p|]; [|done]. cbn [mbind res_bind].
    erewrite assemble_more_ext; [done|intros cs''; by rewrite IH|]. intros. apply stored_peeks.
Qed.
Lemma stored_tree n ss rows : assembleTree ArrowType (stored_node n) ss rows = assembleTree ArrowType n ss rows.
Proof.
  unfold assembleTree, stored_node. rewrite stored_leaves. destruct (new_cursors _ ss ∅) as [cs|]; [|done]. cbn [mbind res_bind].
  generalize (@nil value) as acc. revert cs. induction rows as [|k IH]; intros cs acc; [done|]. cbn [assemble_rows].
  rewrite stored_assemble. destruct (assembleValue n cs) as [[v cs']|]; [apply IH|done].
Qed.

(** C6: a nested schema (structs, lists and maps to any depth) is written as
    elements from which a reader rebuilds the writer's tree, with the same
    levels, leaves and column layouts, so rows that are shredded with the
    writer's tree are assembled with the reader's. *)
Theorem nested_schema_roundtrip (encode : ArrowType -> value -> value) (fields : list Field) :
  Forall storable fields -> Forall (field_ok _) fields ->
  let '(nodes, leaves) := buildNodes fields 0 in
  exists elements columns columns',
    nodesToSchemaElements nodes = Ok elements /\ columns_below 0 0 [] fields = Ok columns /\ length columns = leaves /\
    schemaElementsToNodes elements = Ok (map node_field (map stored_node nodes), map stored_node nodes, columns') /\
    Forall2 same_layout columns columns' /\
    forall node rows, node ∈ nodes -> Forall (fits _ node) rows -> exists st,
      shredColumn _ encode node rows = Ok st /\
      assembleTree _ (stored_node node) st (length rows) = Ok (map (encoded _ encode node) rows).
Proof.
  intros Hs Hf. pose proof (buildNodes_ok _ fields) as Hn.
  assert (Hr : reparsed_all fields) by (apply reparsed_children; eapply Forall_impl; [exact Hs|apply storable_reparsed]).
  destruct (Hr 0 0 0%nat []) as (els & wc & E & _ & W & X & P). rewrite <- (buildNodes_children _ fields) in *.
  pose proof (build_children_names _ 0 0 fields 0) as Hlen. rewrite <- (buildNodes_children _ fields) in Hlen.
  destruct (buildNodes fields 0) as [nodes leaves]. cbn [fst snd] in *. apply (f_equal length) in Hlen. rewrite !length_map in Hlen.
  destruct (P (S (length els)) [] [] [] ltac:(lia) eq_refl) as (cols & R & L). rewrite app_nil_r in R. cbn [app] in R.
  unfold nodesToSchemaElements. rewrite E. do 3 eexists. split_and!; [done|exact W|lia| |exact L|].
  - unfold schemaElementsToNodes, root_element. cbn [se_numChildren]. change (default 0 (Some (zlen nodes))) with (zlen nodes).
    unfold zlen. rewrite Nat2Z.id, Hlen, R. done.
  - intros node rows Hin Hfit. destruct (Hn node Hf Hin) as [Ho Hnd].
    destruct (column_roundtrip _ encode node rows Ho Hnd Hfit) as (st & Es & Ea). exists st. by rewrite stored_tree.
Qed.
Definition tags_schema : list Field :=
  [mkField (js "tags") (ListOf (mkField (js "item") (Primitive (AInt 64 true)) true)) true;
   mkField (js "m") (MapOf (mkField (js "entries") (Struct [
     mkField (js "key") (Primitive AUtf8) false; mkField (js "value") (Primitive ABool) true]) false)) true].
Definition tags_node : Node := (buildNode (hd (mkField [] (Primitive ABool) true) tags_schema) 0 0 0).1.
Lemma nested_schema_roundtrip_witness :
  exists elements columns columns',
    nodesToSchemaElements (buildNodes tags_schema 0).1 = Ok elements /\ columns_below 0 0 [] tags_schema = Ok columns /\
    length columns = 3%nat /\
    schemaElementsToNodes elements =
      Ok (map node_field (map stored_node (buildNodes tags_schema 0).1), map stored_node (buildNodes tags_schema 0).1, columns') /\
    Forall2 same_layout columns columns' /\
    exists st, shredColumn _ (fun _ v => v) tags_node
                 [VNull; VArray []; VArray [VPrim 1; VNull]] = Ok st /\
      assembleTree _ (stored_node tags_node) st 3 =
        Ok [VNull; VArray []; VArray [VPrim 1; VNull]].
Proof.
  pose proof (nested_schema_roundtrip (fun _ v => v) tags_schema) as H.
  destruct H as (els & c & c' & E1 & E2 & E3 & E4 & E5 & H).
  - repeat (apply Forall_cons; split); [cbn; split_and!; auto 10; done..|constructor].
  - repeat (apply Forall_cons; split); [cbn..|constructor]; [done|]. split_and!; try done. by apply (bool_decide_unpack _).
  - exists els, c, c'. split_and!; [exact E1|exact E2|exact E3|exact E4|exact E5|]. apply (H tags_node [VNull; VArray []; VArray [VPrim 1; VNull]]).
    + by left.
    + repeat (apply Forall_cons; split); [fit..|constructor].
Defined.

(** ** Reading any footer ends *)
Definition shrinks {A} (m : ST parsing A) (s : parsing) : Prop :=
  match m s with
  | Ok (_, s') => (length (p_elements s') <= length (p_elements s))%nat
  | Throw e => e <> Diverges
  end.
Lemma shrinks_bind {A B} (m : ST parsing A) (f : A -> ST parsing B) s :
  shrinks m s -> (forall a s', m s = Ok (a, s') -> (length (p_elements s') <= length (p_elements s))%nat -> shrinks (f a) s') ->
  shrinks (m ≫= f) s.
Proof.
  unfold shrinks, mbind, ST_bind. destruct (m s) as [[a s']|]; [|done]. intros H1 H2. specialize (H2 a s' eq_refl H1).
  destruct (f a s') as [[b s'']|]; [lia|done].
Qed.
Lemma shrinks_ret {A} (a : A) s : shrinks (mret a) s.
Proof. unfold shrinks. cbn. lia. Qed.
Lemma shrinks_next s : shrinks next_element s.
Proof. unfold shrinks, next_element. destruct (p_elements s) eqn:E; cbn; rewrite ?E; cbn; lia. Qed.
Lemma shrinks_times {A} (m : ST parsing A) k n s :
  (length (p_elements s) < k)%nat -> (forall s, (length (p_elements s) < k)%nat -> shrinks m s) -> shrinks (times n m) s.
Proof.
  intros Hs Hm. revert s Hs. induction n as [|n IH]; intros s Hs; [apply shrinks_ret|]. apply shrinks_bind; [auto|]. intros a s' _ H1.
  apply shrinks_bind; [apply IH; lia|]. intros. apply shrinks_ret.
Qed.
Lemma leaf_terminates el : parquetLeafToArrow el <> Throw Diverges.
Proof.
  unfold parquetLeafToArrow, int32_leaf, int64_leaf, byte_array_leaf, fixed_leaf, need, same.
  repeat case_match; discriminate.
Qed.
Lemma parseNode_shrinks fuel : forall pd pr path s, (length (p_elements s) < fuel)%nat -> shrinks (parseNode fuel pd pr path) s.
Proof.
  induction fuel as [|fuel IH]; intros pd pr path s Hs; [lia|]. cbn [parseNode]. apply shrinks_bind; [apply shrinks_next|].
  intros el s1 E H1. destruct el as [el|]; [|done].
  assert (H2 : (length (p_elements s1) < fuel)%nat).
  { unfold next_element in E. destruct (p_elements s) eqn:Es; [done|]. injection E as _ <-. cbn in *. lia. }
  destruct (_ =? 0).
  { apply shrinks_bind.
    - unfold shrinks, liftR. pose proof (leaf_terminates el). destruct (parquetLeafToArrow el); [lia|congruence].
    - intros [[t d] e] s2 _ _. apply shrinks_bind; [unfold shrinks; cbn; lia|]. intros. apply shrinks_ret. }
  destruct (is_list el); [|destruct (is_map el)].
  - apply shrinks_bind; [apply shrinks_next|]. intros x s2 _ H3. apply shrinks_bind; [apply IH; lia|]. intros. apply shrinks_ret.
  - apply shrinks_bind; [apply shrinks_next|]. intros [x|] s2 _ H3; [|done].
    apply shrinks_bind; [apply (shrinks_times _ fuel); [lia|auto]|]. intros. apply shrinks_ret.
  - apply shrinks_bind; [apply (shrinks_times _ fuel); [lia|auto]|]. intros. apply shrinks_ret.
Qed.
(** Whatever the elements of a footer are, reading them ends. *)
Lemma schema_parse_terminates elements : schemaElementsToNodes elements <> Throw Diverges.
Proof.
  unfold schemaElementsToNodes. destruct elements as [|root els]; [done|].
  pose proof (shrinks_times (parseNode (S (length els)) 0 0 []) (S (length els)) (Z.to_nat (default 0 (se_numChildren root)))
                {| p_elements := els; p_columns := [] |} ltac:(cbn; lia) ltac:(intros; by apply parseNode_shrinks)) as H.
  unfold shrinks in H. destruct (times _ _ _) as [[ns s]|]; [done|]. intros [= ->]. done.
Qed.

(** The path that the writer stores for a list's leaf names the Arrow child,
    the schema element is named [element]. *)
Lemma written_path_differs : exists elements w r fs ns,
  nodesToSchemaElements (buildNodes [hd (mkField [] (Primitive ABool) true) tags_schema] 0).1 = Ok elements /\
  columns_below 0 0 [] [hd (mkField [] (Primitive ABool) true) tags_schema] = Ok [w] /\
  schemaElementsToNodes elements = Ok (fs, ns, [r]) /\
  cd_path w = [js "tags"; js "list"; js "item"] /\ cd_path r = [js "tags"; js "list"; js "element"].
Proof. do 5 eexists. split_and!; reflexivity. Qed.
End ParquetTree.
