(* ===== verification/Scanner.v ===== *)
(** The cursor of src/js/parsing/scanner.ts: over text in its 'ascii' mode, the
    part that semver.ts uses, where the buffer holds the UTF-8 bytes of the
    source and every byte is one code; and over bytes, with the readers of
    binary numbers that the DNS code uses.  Line and column numbers only appear
    in [ParseError] messages and are not modelled. *)

From S2P Require Import Prelude JsNumber Utf8.

Module Scanner.
Import Utf8.

Record t := { buf : list Z; offset : nat }.

Definition make (source : jsstring) : t := {| buf := encodeUtf8 source; offset := 0 |}.
Definition remaining_text (sc : t) : list Z := drop (offset sc) (buf sc).
Definition is_done (sc : t) : bool := (length (buf sc) <=? offset sc)%nat.
Definition move (n : nat) (sc : t) : t := {| buf := buf sc; offset := (offset sc + n)%nat |}.

Definition peekCode (sc : t) : Z :=
  match remaining_text sc with b :: _ => b | [] => -1 end.
Definition peek (n : nat) (sc : t) : jsstring := take n (remaining_text sc).
Definition eat : ST t jsstring := fun sc => Ok (take 1 (remaining_text sc), move (length (take 1 (remaining_text sc))) sc).

(** [#matchAndAdvance], the body of [eatChar] and [match]. *)
Definition matchAndAdvance (s : jsstring) : ST t bool := fun sc =>
  let encoded := encodeUtf8 s in
  if bool_decide (take (length encoded) (remaining_text sc) = encoded)
  then Ok (true, move (length encoded) sc)
  else Ok (false, sc).
Definition eatChar := matchAndAdvance.
Definition expect (s : jsstring) : ST t unit :=
  ok ← matchAndAdvance s;
  if ok : bool then mret tt else throw (JsError "expected").

(** The longest prefix whose codes satisfy the predicate. *)
Fixpoint span (pred : Z -> bool) (l : list Z) : list Z :=
  match l with
  | b :: l => if pred b then b :: span pred l else []
  | [] => []
  end.
Definition eatWhile (pred : Z -> bool) : ST t jsstring := fun sc =>
  let value := span pred (remaining_text sc) in Ok (value, move (length value) sc).
Definition is_blank (c : Z) : bool := (c =? 32) || (c =? 9) || (c =? 10) || (c =? 13).
Definition skipWhitespace : ST t unit := eatWhile is_blank;; mret tt.

(** [text(from)]: from a mark to the cursor. *)
Definition text (from : nat) (sc : t) : jsstring :=
  take (offset sc - from) (drop from (buf sc)).

(** ** Bytes *)

Definition of_bytes (source : list Z) : t := {| buf := source; offset := 0 |}.
Definition remainingBytes (sc : t) : nat := (length (buf sc) - offset sc)%nat.
Definition peekByte (at_ : nat) (sc : t) : Z :=
  match buf sc !! (offset sc + at_)%nat with Some b => b | None => -1 end.
Definition eatBytes (n : nat) : ST t (list Z) := fun sc =>
  if (length (buf sc) <? offset sc + n)%nat then Throw (JsError "expected bytes")
  else Ok (take n (remaining_text sc), move n sc).
Definition eatByte : ST t Z := fun sc =>
  match remaining_text sc with
  | b :: _ => Ok (b, move 1 sc)
  | [] => Throw (JsError "unexpected end of input")
  end.
Definition matchBytes (b : list Z) : ST t bool := fun sc =>
  if bool_decide (take (length b) (remaining_text sc) = b) then Ok (true, move (length b) sc) else Ok (false, sc).
Definition eatUntilByte (c : Z) (max : option nat) : ST t (list Z) := fun sc =>
  let limit := match max with Some max => take max (remaining_text sc) | None => remaining_text sc end in
  let value := span (fun b => negb (b =? c)) limit in
  Ok (value, move (length value) sc).
Definition jump (offset : nat) : ST t unit := fun sc =>
  if (length (buf sc) <? offset)%nat then Throw (JsError "invalid jump offset")
  else Ok (tt, {| buf := buf sc; offset := offset |}).
Definition eatText (byteLength : nat) : ST t jsstring :=
  bytes ← eatBytes byteLength; liftR (decodeUtf8 bytes false false).

(** [#readNum], which moves the cursor past the bytes of a number. *)
Definition readNum (byteLen : nat) (le : bool) : ST t Z := fun sc =>
  if (length (buf sc) <? offset sc + byteLen)%nat then Throw (JsError "unexpected end of input")
  else
    let bytes := take byteLen (remaining_text sc) in
    Ok (if le then le_val bytes else be_val bytes, move byteLen sc).
Definition readSigned (byteLen : nat) (le : bool) : ST t Z :=
  v ← readNum byteLen le; mret (signedN (8 * Z.of_nat byteLen) v).
Definition readU8 : ST t Z := readNum 1 false.
Definition readI8 : ST t Z := readSigned 1 false.
Definition readU16BE : ST t Z := readNum 2 false.
Definition readU16LE : ST t Z := readNum 2 true.
Definition readI16BE : ST t Z := readSigned 2 false.
Definition readI16LE : ST t Z := readSigned 2 true.
Definition readU32BE : ST t Z := readNum 4 false.
Definition readU32LE : ST t Z := readNum 4 true.
Definition readI32BE : ST t Z := readSigned 4 false.
Definition readI32LE : ST t Z := readSigned 4 true.
Definition readU64BE : ST t Z := readNum 8 false.
Definition readU64LE : ST t Z := readNum 8 true.
Definition readI64BE : ST t Z := readSigned 8 false.
Definition readI64LE : ST t Z := readSigned 8 true.
Definition readF32BE : ST t Z := w ← readNum 4 false; mret (JsNumber.of_float32 w).
Definition readF32LE : ST t Z := w ← readNum 4 true; mret (JsNumber.of_float32 w).
Definition readF64BE : ST t Z := w ← readNum 8 false; mret (JsNumber.of_float64 w).
Definition readF64LE : ST t Z := w ← readNum 8 true; mret (JsNumber.of_float64 w).
(** [#readField] only names the field in its error. *)
Definition readU16BEField : ST t Z := readU16BE.
Definition readU32BEField : ST t Z := readU32BE.

(** ** Reading known text *)

(** [scans m s a]: at a cursor whose text starts with [s], followed by a text
    that [follow] accepts, [m] returns [a] and moves past [s]. *)
Definition scans {A} (follow : list Z -> Prop) (m : ST t A) (s : list Z) (a : A) : Prop :=
  forall sc tl, remaining_text sc = s ++ tl -> follow tl -> m sc = Ok (a, move (length s) sc).

Lemma remaining_move sc s tl : remaining_text sc = s ++ tl -> remaining_text (move (length s) sc) = tl.
Proof.
  unfold remaining_text, move. simpl. intros E. rewrite <- drop_drop, E. apply drop_app_length.
Qed.

Lemma move_move n m sc : move m (move n sc) = move (n + m) sc.
Proof. unfold move. simpl. f_equal. lia. Qed.

Lemma move_0 sc : move 0 sc = sc.
Proof. unfold move. destruct sc as [b o]. simpl. by rewrite Nat.add_0_r. Qed.

Lemma scans_bind {A B} (f1 f2 : list Z -> Prop) (m : ST t A) (k : A -> ST t B) s1 s2 a b :
  scans f1 m s1 a -> (forall tl, f2 tl -> f1 (s2 ++ tl)) -> scans f2 (k a) s2 b ->
  scans f2 (m ≫= k) (s1 ++ s2) b.
Proof.
  intros H1 Hf H2 sc tl E Htl. rewrite <- app_assoc in E.
  rewrite (ST_bind_ok _ _ _ _ _ (H1 sc _ E (Hf tl Htl))).
  rewrite (H2 _ tl); [|by apply remaining_move|done]. by rewrite move_move, length_app.
Qed.

Lemma scans_ret {A} f (a : A) : scans f (mret a) [] a.
Proof. intros sc tl _ _. by rewrite move_0. Qed.

Lemma scans_map {A B} f (m : ST t A) (k : A -> ST t B) s a b :
  scans f m s a -> k a = mret b -> scans f (m ≫= k) s b.
Proof.
  intros H Hk. rewrite <- (app_nil_r s). eapply scans_bind; [exact H|done|].
  rewrite Hk. apply scans_ret.
Qed.

Definition starts_with (pred : Z -> bool) (l : list Z) : bool :=
  match l with b :: _ => pred b | [] => false end.

Lemma span_app pred s tl :
  Forall (fun b => pred b = true) s -> starts_with pred tl = false -> span pred (s ++ tl) = s.
Proof.
  intros Hs Htl. induction Hs as [|b s Hb Hs IH]; simpl.
  - destruct tl as [|b tl]; [done|]. simpl in *. by rewrite Htl.
  - by rewrite Hb, IH.
Qed.

Lemma scans_eatWhile pred s :
  Forall (fun b => pred b = true) s ->
  scans (fun tl => starts_with pred tl = false) (eatWhile pred) s s.
Proof. intros Hs sc tl E Htl. unfold eatWhile. by rewrite E, span_app. Qed.

Definition ascii (s : jsstring) : bool := forallb (fun u => u <? 128) s.

Lemma encode_ascii s : ascii s = true -> encodeUtf8 s = s.
Proof. unfold encodeUtf8, ascii. by intros ->. Qed.

Lemma ascii_app s1 s2 : ascii (s1 ++ s2) = ascii s1 && ascii s2.
Proof. apply forallb_app. Qed.

Lemma scans_char c : ascii [c] = true -> scans (fun _ => True) (eatChar [c]) [c] true.
Proof.
  intros Hc sc tl E _. unfold eatChar, matchAndAdvance. rewrite encode_ascii, E by done.
  cbn [length app take]. by rewrite bool_decide_eq_true_2.
Qed.

Lemma scans_no_char c :
  ascii [c] = true -> scans (fun tl => starts_with (Z.eqb c) tl = false) (eatChar [c]) [] false.
Proof.
  intros Hc sc tl E Htl. unfold eatChar, matchAndAdvance. rewrite encode_ascii, E by done.
  rewrite move_0. cbn [length app]. rewrite bool_decide_eq_false_2; [done|].
  destruct tl as [|b tl]; [done|]. simpl in *. intros [= ->]. by rewrite Z.eqb_refl in Htl.
Qed.

Lemma scans_expect c : ascii [c] = true -> scans (fun _ => True) (expect [c]) [c] tt.
Proof. intros Hc. eapply scans_map; [by apply scans_char|done]. Qed.

Lemma done_at_end sc : remaining_text sc = [] -> is_done sc = true.
Proof.
  intros E. apply (f_equal length) in E. unfold remaining_text in E. rewrite length_drop in E.
  apply Nat.leb_le. simpl in E. lia.
Qed.

Lemma is_done_false sc : remaining_text sc <> [] -> is_done sc = false.
Proof.
  intros E. apply Nat.leb_gt. destruct (decide (offset sc < length (buf sc))%nat); [done|].
  exfalso. apply E. apply drop_ge. lia.
Qed.
End Scanner.
