(* ===== verification/ScannerText.v ===== *)
(** The 'utf-8' mode of src/js/parsing/scanner.ts: reading code points from the
    bytes of a text.  [decodes sc cps]: what is left to read are the encoded code
    points [cps]. *)

From S2P Require Import Prelude Utf8 Scanner.

Module ScannerText.
Import Utf8 Scanner.

Definition peekCpAt (l : list Z) : Z * nat :=
  match l with
  | [] => (-1, 0%nat)
  | b :: tl =>
      let byte i := nth i tl 0 in
      if b <? 128 then (b, 1%nat)
      else if (Z.land b 224 =? 192) && (1 <? length l)%nat then
        (Z.lor (Z.shiftl (Z.land b 31) 6) (Z.land (byte 0%nat) 63), 2%nat)
      else if (Z.land b 240 =? 224) && (2 <? length l)%nat then
        (Z.lor (Z.lor (Z.shiftl (Z.land b 15) 12) (Z.shiftl (Z.land (byte 0%nat) 63) 6)) (Z.land (byte 1%nat) 63), 3%nat)
      else if (Z.land b 248 =? 240) && (3 <? length l)%nat then
        (Z.lor (Z.lor (Z.lor (Z.shiftl (Z.land b 7) 18) (Z.shiftl (Z.land (byte 0%nat) 63) 12))
                 (Z.shiftl (Z.land (byte 1%nat) 63) 6)) (Z.land (byte 2%nat) 63), 4%nat)
      else (65533, 1%nat)
  end.
Definition peekCode (sc : t) : Z := fst (peekCpAt (remaining_text sc)).
Definition fromCodePoint (cp : Z) : res jsstring :=
  if 1114111 <? cp then Throw (RangeError "invalid code point") else Ok (from_code_point cp).
(** [eat()]; nothing at the end. *)
Definition eat : ST t jsstring := fun sc =>
  if is_done sc then Ok ([], sc)
  else
    let '(cp, bw) := peekCpAt (remaining_text sc) in
    s ← fromCodePoint cp; Ok (s, move bw sc).
(** [text(from)]. *)
Definition text (from : nat) (sc : t) : res jsstring := decodeUtf8 (take (offset sc - from) (drop from (buf sc))) false false.
(** Every round moves the cursor, so the bytes left bound the rounds. *)
Fixpoint eat_loop (fuel : nat) (pred : Z -> bool) (sc : t) : t :=
  match fuel with
  | O => sc
  | S fuel =>
      let '(cp, bw) := peekCpAt (remaining_text sc) in
      if (cp =? -1) || negb (pred cp) then sc else eat_loop fuel pred (move bw sc)
  end.
Definition eatWhile (pred : Z -> bool) : ST t jsstring := fun sc =>
  let sc' := eat_loop (length (remaining_text sc)) pred sc in
  s ← text (offset sc) sc'; Ok (s, sc').
Definition eatUntil (pred : Z -> bool) : ST t jsstring := eatWhile (fun code => negb (pred code)).

(** ** Encoded text *)
Definition decodes (sc : t) (cps : list Z) : Prop := remaining_text sc = cps ≫= encode_cp /\ Forall is_scalar cps.

Lemma lor_parts a b n : 0 <= n -> 0 <= b < 2 ^ n -> Z.lor (Z.shiftl a n) b = a * 2 ^ n + b.
Proof. intros Hn Hb. rewrite Z.lor_comm, lor_disjoint_add by lia. lia. Qed.
Lemma lead_tests b : is_byte b ->
  (Z.land b 224 =? 192) = ((192 <=? b) && (b <? 224)) /\ (Z.land b 240 =? 224) = ((224 <=? b) && (b <? 240)) /\
  (Z.land b 248 =? 240) = ((240 <=? b) && (b <? 248)).
Proof.
  intros Hb. apply (bool_decide_eq_true_1 _). revert b Hb. apply byte_forallb. vm_compute. reflexivity.
Qed.
Lemma land_low b n m : 0 <= n -> m = 2 ^ n - 1 -> Z.land b m = b mod 2 ^ n.
Proof. apply land_ones_mod. Qed.
Lemma lor_horner3 a b c : 0 <= b < 64 -> 0 <= c < 64 -> Z.lor (Z.lor (Z.shiftl a 12) (Z.shiftl b 6)) c = (a * 64 + b) * 64 + c.
Proof.
  intros Hb Hc. replace (Z.shiftl a 12) with (Z.shiftl (Z.shiftl a 6) 6) by (by rewrite Z.shiftl_shiftl).
  rewrite <- Z.shiftl_lor, !lor_parts by lia. lia.
Qed.
Lemma lor_horner4 a b c d : 0 <= b < 64 -> 0 <= c < 64 -> 0 <= d < 64 ->
  Z.lor (Z.lor (Z.lor (Z.shiftl a 18) (Z.shiftl b 12)) (Z.shiftl c 6)) d = ((a * 64 + b) * 64 + c) * 64 + d.
Proof.
  intros Hb Hc Hd. replace (Z.shiftl a 18) with (Z.shiftl (Z.shiftl a 12) 6) by (by rewrite Z.shiftl_shiftl).
  replace (Z.shiftl b 12) with (Z.shiftl (Z.shiftl b 6) 6) by (by rewrite Z.shiftl_shiftl).
  rewrite <- !Z.shiftl_lor, lor_horner3, lor_parts by lia. lia.
Qed.
Lemma peek_encoded cp tl : is_scalar cp -> peekCpAt (encode_cp cp ++ tl) = (cp, length (encode_cp cp)).
Proof.
  intros [Hr _]. rewrite encode_cp_arith by done.
  destruct (Z.ltb_spec cp 128) as [H1|H1]; [cbn; by replace (cp <? 128) with true by lia|].
  destruct (Z.ltb_spec cp 2048) as [H2|H2]; [|destruct (Z.ltb_spec cp 65536) as [H3|H3]]; cbn [app peekCpAt nth length].
  - assert (Hb : 192 <= 192 + cp / 64 < 224) by zdm. destruct (lead_tests (192 + cp / 64)) as (-> & _); [unfold is_byte; lia|].
    rewrite (proj2 (Z.ltb_ge _ _)), (proj2 (Z.leb_le _ _)), (proj2 (Z.ltb_lt _ _)) by lia. cbn [andb Nat.ltb Nat.leb].
    rewrite (land_low _ 5), (land_low _ 6) by lia. rewrite lor_parts by zdm. f_equal. zdm.
  - assert (Hb : 224 <= 224 + cp / 4096 < 240) by zdm. destruct (lead_tests (224 + cp / 4096)) as (-> & -> & _); [unfold is_byte; lia|].
    rewrite (proj2 (Z.ltb_ge _ 128)), (proj2 (Z.ltb_ge _ 224)), (proj2 (Z.leb_le 224 _)), (proj2 (Z.ltb_lt _ 240)) by lia.
    rewrite andb_false_r. cbn [andb Nat.ltb Nat.leb].
    rewrite (land_low _ 4), !(land_low _ 6) by lia.
    rewrite lor_horner3 by zdm. f_equal. zdm.
  - assert (Hb : 240 <= 240 + cp / 262144 < 248) by zdm. destruct (lead_tests (240 + cp / 262144)) as (-> & -> & ->); [unfold is_byte; lia|].
    rewrite (proj2 (Z.ltb_ge _ 128)), (proj2 (Z.ltb_ge _ 224)), (proj2 (Z.ltb_ge _ 240)), (proj2 (Z.leb_le 240 _)), (proj2 (Z.ltb_lt _ 248)) by lia.
    rewrite !andb_false_r. cbn [andb Nat.ltb Nat.leb].
    rewrite (land_low _ 3), !(land_low _ 6) by lia. rewrite lor_horner4 by zdm. f_equal. zdm.
Qed.

Lemma encode_cp_nonempty cp : encode_cp cp <> [].
Proof. unfold encode_cp. by zcases. Qed.
Lemma decodes_nil sc : decodes sc [] -> peekCode sc = -1 /\ is_done sc = true.
Proof. intros [E _]. cbn in E. unfold peekCode. rewrite E. split; [done|by apply done_at_end]. Qed.
Lemma decodes_cons sc cp cps : decodes sc (cp :: cps) ->
  peekCode sc = cp /\ is_done sc = false /\ exists sc', eat sc = Ok (from_code_point cp, sc') /\ decodes sc' cps.
Proof.
  intros [E H]. apply Forall_cons in H as [Hcp H]. rewrite bind_cons in E.
  assert (Hd : is_done sc = false).
  { apply is_done_false. rewrite E. destruct (encode_cp cp) eqn:Ee; [by apply encode_cp_nonempty in Ee|done]. }
  unfold peekCode, eat. rewrite E, Hd, peek_encoded by done. split; [done|]. split; [done|].
  exists (move (length (encode_cp cp)) sc). unfold fromCodePoint.
  replace (1114111 <? cp) with false by (destruct Hcp; lia). split; [done|]. split; [by apply remaining_move|done].
Qed.
(** The text of the code points between two cursors. *)
Lemma text_encoded sc sc' pre : Forall is_scalar pre -> buf sc' = buf sc ->
  remaining_text sc = (pre ≫= encode_cp) ++ remaining_text sc' -> offset sc' = (offset sc + length (pre ≫= encode_cp))%nat ->
  text (offset sc) sc' = Ok (pre ≫= from_code_point).
Proof.
  intros Hp Hb Hr Ho. unfold text. rewrite Ho, Hb. replace (offset sc + _ - offset sc)%nat with (length (pre ≫= encode_cp)) by lia.
  unfold remaining_text in Hr at 1. rewrite Hr, take_app_length. unfold decodeUtf8. cbn [negb andb].
  apply decode_loop_encode; [done|done|done].
Qed.
Lemma eat_loop_encoded pred pre : forall fuel sc rest,
  decodes sc (pre ++ rest) -> (length (remaining_text sc) <= fuel)%nat -> Forall (fun cp => pred cp = true) pre ->
  match rest with cp :: _ => pred cp = false | [] => True end ->
  eat_loop fuel pred sc = move (length (pre ≫= encode_cp)) sc.
Proof.
  induction pre as [|cp pre IH]; intros fuel sc rest [E H] Hf Hp Hr.
  - cbn. rewrite move_0. destruct fuel as [|fuel]; [done|]. cbn [eat_loop]. cbn [app] in E. rewrite E.
    destruct rest as [|cp rest]; [done|]. apply Forall_cons in H as [Hcp _]. rewrite bind_cons, peek_encoded, Hr by done.
    by rewrite orb_true_r.
  - apply Forall_cons in Hp as [Hcp Hp]. cbn [app] in *. pose proof H as H0. apply Forall_cons in H0 as [Hs Hs'].
    rewrite bind_cons in E. rewrite bind_cons, length_app, <- move_move. rewrite E, length_app in Hf.
    pose proof (encode_cp_nonempty cp). destruct fuel as [|fuel]; [destruct (encode_cp cp); [done|cbn in Hf; lia]|].
    cbn [eat_loop]. rewrite E, peek_encoded, Hcp by done.
    replace (cp =? -1) with false by (destruct Hs; lia). cbn [orb negb].
    assert (Hrem : remaining_text (move (length (encode_cp cp)) sc) = (pre ++ rest) ≫= encode_cp) by (by apply remaining_move).
    apply (IH fuel _ rest); [by split| |done|done].
    rewrite Hrem. destruct (encode_cp cp); [done|cbn in Hf; lia].
Qed.
Lemma eatWhile_encoded pred pre rest sc :
  decodes sc (pre ++ rest) -> Forall (fun cp => pred cp = true) pre -> match rest with cp :: _ => pred cp = false | [] => True end ->
  exists sc', eatWhile pred sc = Ok (pre ≫= from_code_point, sc') /\ decodes sc' rest /\ buf sc' = buf sc /\
    text (offset sc) sc' = Ok (pre ≫= from_code_point).
Proof.
  intros [E H] Hp Hr. pose proof H as Ha. apply Forall_app in Ha as [H1 H2]. unfold eatWhile.
  rewrite (eat_loop_encoded pred pre _ sc rest) by done. set (sc' := move _ sc).
  rewrite bind_app in E. assert (Hrem : remaining_text sc' = rest ≫= encode_cp) by (by apply remaining_move).
  exists sc'. assert (Ht : text (offset sc) sc' = Ok (pre ≫= from_code_point)).
  { apply text_encoded; [done|done|by rewrite Hrem|done]. }
  rewrite Ht. by split_and!.
Qed.
End ScannerText.
