(* ===== verification/Csv.v ===== *)
(** CSV (src/js/format/csv.ts): parsing a whole text, parsing a stream of chunks,
    and writing.

    A record is the list of its properties in insertion order (the order of names
    that are not array indexes).  [cast] stands for
    the option of that name: what becomes of a field in a column, by default the
    field itself.  A [ParseError] is a [JsError] with the start of its message;
    the loops are bounded by the bytes left, as every round reads one. *)

From S2P Require Import Prelude JsString Utf8 Scanner ScannerText.

Module Csv.
Import Scanner ScannerText.

Record CsvParseOptions := {
  delimiter : jsstring; quote : jsstring; comment : option jsstring; header : bool; columns : option (list jsstring);
  skipEmptyLines : bool; trim : bool; relaxColumnCount : bool;
}.
Definition charCode (s : jsstring) : Z := hd (-1) s.
(** [comment ? comment.charCodeAt(0) : -1] *)
Definition commentCode (o : CsvParseOptions) : Z := match comment o with Some (c :: _) => c | _ => -1 end.
Definition _isPostQuoteBoundary (code delimCode : Z) : bool := (code =? -1) || (code =? delimCode) || (code =? 10) || (code =? 13).
Definition check_options (delim quote : jsstring) : res unit :=
  if negb (length delim =? 1)%nat then Throw (TypeError "csv: delimiter must be a single character")
  else if negb (length quote =? 1)%nat then Throw (TypeError "csv: quote must be a single character")
  else Ok tt.

(** A step that looks at the cursor first. *)
Definition looking {A} (f : t -> ST t A) : ST t A := fun sc => f sc sc.

(** ** Fields and rows *)
Section fields.
Context (delimCode quoteCode : Z).
Fixpoint quoted (fuel : nat) (fieldBuf : jsstring) : ST t jsstring :=
  match fuel with
  | O => throw Diverges
  | S fuel =>
      looking (fun sc =>
        if is_done sc then throw (JsError "unterminated quoted field")
        else if peekCode sc =? quoteCode then
          eat;;
          looking (fun sc =>
            if peekCode sc =? quoteCode then c ← eat; quoted fuel (fieldBuf ++ c)
            else if negb (_isPostQuoteBoundary (peekCode sc) delimCode) then
              throw (JsError "unexpected text after closing quoted field")
            else mret fieldBuf)
        else c ← eat; quoted fuel (fieldBuf ++ c))
  end.
Definition unquoted : ST t jsstring :=
  looking (fun start =>
    eatUntil (fun c => (c =? delimCode) || (c =? 10) || (c =? 13));;
    looking (fun sc => liftR (text (offset start) sc))).
Definition field : ST t jsstring :=
  looking (fun sc =>
    if peekCode sc =? quoteCode then eat;; looking (fun sc => quoted (S (length (remaining_text sc))) []) else unquoted).
Fixpoint fields (fuel : nat) (trim : bool) (row : list jsstring) : ST t (list jsstring) :=
  match fuel with
  | O => throw Diverges
  | S fuel =>
      f ← field;
      let row := row ++ [if trim then JsString.trim f else f] in
      looking (fun sc => if peekCode sc =? delimCode then eat;; fields fuel trim row else mret row)
  end.
End fields.
(** The row terminator, if there is one. *)
Definition skip_terminator : ST t unit :=
  looking (fun sc =>
    if peekCode sc =? 13 then eat;; looking (fun sc => if peekCode sc =? 10 then eat;; mret tt else mret tt)
    else if peekCode sc =? 10 then eat;; mret tt
    else mret tt).
Definition empty_row (row : list jsstring) : bool := bool_decide (row = [[]]).

Fixpoint parse_loop (fuel : nat) (o : CsvParseOptions) (raw : list (list jsstring)) (sc : t) : res (list (list jsstring)) :=
  if is_done sc then Ok raw
  else
    match fuel with
    | O => Throw Diverges
    | S fuel =>
        if negb (commentCode o =? -1) && (peekCode sc =? commentCode o) then
          '(_, sc) ← eatUntil (fun c => c =? 10) sc;
          '(_, sc) ← (if is_done sc then Ok ([], sc) else eat sc);
          parse_loop fuel o raw sc
        else
          '(row, sc) ← fields (charCode (delimiter o)) (charCode (quote o)) (S (length (remaining_text sc))) (trim o) [] sc;
          '(_, sc) ← skip_terminator sc;
          parse_loop fuel o (if skipEmptyLines o && empty_row row then raw else raw ++ [row]) sc
    end.

(** ** Rows and records *)
Section cast.
Context {V : Type} (cast : jsstring -> nat -> option jsstring -> V).
Inductive output := Row (cells : list V) | Record_ (props : list (jsstring * V)).

Definition mismatch : exn := JsError "column count mismatch".
Definition row_out (row : list jsstring) : output := Row (imap (fun ci v => cast v ci None) row).
(** [obj[headers[i]] = cast(row[i] ?? '')], header by header. *)
Definition record_out (headers row : list jsstring) : output :=
  Record_ (foldl (fun obj i => let h := nth i headers [] in JMap.set h (cast (nth i row []) i (Some h)) obj) [] (seq 0 (length headers))).
Definition shape (o : CsvParseOptions) (raw : list (list jsstring)) : res (list output) :=
  let '(headers, dataRows) :=
    match columns o with
    | Some cs => (Some cs, raw)
    | None => if header o then (Some (hd [] raw), tl raw) else (None, raw)
    end in
  match headers with
  | None => Ok (map row_out dataRows)
  | Some headers =>
      if negb (relaxColumnCount o) && existsb (fun row => negb (length row =? length headers)%nat) dataRows then Throw mismatch
      else Ok (map (record_out headers) dataRows)
  end.
Definition parse (input : jsstring) (o : CsvParseOptions) : res (list output) :=
  _ ← check_options (delimiter o) (quote o);
  let sc := make input in
  raw ← parse_loop (S (length (remaining_text sc))) o [] sc;
  shape o raw.

(** ** Streams *)
(** How many bytes the next row takes with its terminator. *)
Fixpoint findRowEnd (quoteCode : Z) (inQuote : bool) (bytes : list Z) : option nat :=
  match bytes with
  | [] => None
  | b :: tl =>
      if inQuote then
        if b =? quoteCode then
          match tl with
          | b' :: tl' => if b' =? quoteCode then Nat.add 2 <$> findRowEnd quoteCode true tl' else S <$> findRowEnd quoteCode false tl
          | [] => None
          end
        else S <$> findRowEnd quoteCode true tl
      else if b =? quoteCode then S <$> findRowEnd quoteCode true tl
      else if b =? 13 then Some (match tl with 10 :: _ => 2%nat | _ => 1%nat end)
      else if b =? 10 then Some 1%nat
      else S <$> findRowEnd quoteCode false tl
  end.
Definition parseRow (o : CsvParseOptions) (bytes : list Z) : res (option (list jsstring)) :=
  let sc := of_bytes bytes in
  if negb (commentCode o =? -1) && (peekCode sc =? commentCode o) then Ok None
  else
    '(row, _) ← fields (charCode (delimiter o)) (charCode (quote o)) (S (length bytes)) (trim o) [] sc;
    Ok (if skipEmptyLines o && empty_row row then None else Some row).
Definition _emitStreamRow (relax : bool) (headers : option (list jsstring)) (raw : list jsstring) : res output :=
  match headers with
  | None => Ok (row_out raw)
  | Some headers => if negb relax && negb (length raw =? length headers)%nat then Throw mismatch else Ok (record_out headers raw)
  end.

(** What was yielded so far, and the state between chunks. *)
Record streaming := { tail : list Z; headers : option (list jsstring); headerConsumed : bool; yielded : list output }.
Definition with_tail (tl : list Z) (st : streaming) : streaming :=
  {| tail := tl; headers := headers st; headerConsumed := headerConsumed st; yielded := yielded st |}.
(** One row; an error ends the stream behind the rows that were yielded. *)
Definition stream_row (o : CsvParseOptions) (bytes : list Z) (st : streaming) : streaming * option exn :=
  match parseRow o bytes with
  | Throw e => (st, Some e)
  | Ok None => (st, None)
  | Ok (Some raw) =>
      if negb (headerConsumed st) then
        ({| tail := tail st; headers := Some raw; headerConsumed := true; yielded := yielded st |}, None)
      else
        match _emitStreamRow (relaxColumnCount o) (headers st) raw with
        | Throw e => (st, Some e)
        | Ok out => ({| tail := tail st; headers := headers st; headerConsumed := headerConsumed st; yielded := yielded st ++ [out] |}, None)
        end
  end.
Fixpoint stream_rows (fuel : nat) (o : CsvParseOptions) (st : streaming) : streaming * option exn :=
  match fuel with
  | O => (st, Some Diverges)
  | S fuel =>
      match findRowEnd (charCode (quote o)) false (tail st) with
      | None => (st, None)
      | Some n =>
          let '(st', err) := stream_row o (take n (tail st)) st in
          match err with
          | Some e => (st', Some e)
          | None => stream_rows fuel o (with_tail (drop n (tail st)) st')
          end
      end
  end.
Definition stream_chunk (o : CsvParseOptions) (chunk : list Z) (st : streaming) : streaming * option exn :=
  let merged := tail st ++ chunk in stream_rows (S (length merged)) o (with_tail merged st).
Fixpoint stream_chunks (o : CsvParseOptions) (chunks : list (list Z)) (st : streaming) : streaming * option exn :=
  match chunks with
  | [] => (st, None)
  | chunk :: chunks =>
      let '(st, err) := stream_chunk o chunk st in
      match err with Some e => (st, Some e) | None => stream_chunks o chunks st end
  end.
(** A last row that is a header row is dropped. *)
Definition stream_end (o : CsvParseOptions) (st : streaming) : streaming * option exn :=
  match tail st with
  | [] => (st, None)
  | bytes =>
      if headerConsumed st then stream_row o bytes st
      else match parseRow o bytes with Throw e => (st, Some e) | Ok _ => (st, None) end
  end.
Definition parseStream (o : CsvParseOptions) (chunks : list (list Z)) : list output * option exn :=
  match check_options (delimiter o) (quote o) with
  | Throw e => ([], Some e)
  | Ok _ =>
      let st := {| tail := []; headers := columns o;
                   headerConsumed := negb (header o) || match columns o with Some _ => true | None => false end; yielded := [] |} in
      let '(st, err) := stream_chunks o chunks st in
      match err with
      | Some e => (yielded st, Some e)
      | None => let '(st, err) := stream_end o st in (yielded st, err)
      end
  end.
End cast.

(** ** Writing *)
(** [includes]. *)
Fixpoint includes (s pat : jsstring) : bool :=
  bool_decide (pat `prefix_of` s) || match s with [] => false | _ :: s => includes s pat end.
(** The patterns of a replacement text. *)
Fixpoint expand (matched before after template : jsstring) : jsstring :=
  match template with
  | 36 :: 36 :: r => 36 :: expand matched before after r
  | 36 :: 38 :: r => matched ++ expand matched before after r
  | 36 :: 96 :: r => before ++ expand matched before after r
  | 36 :: 39 :: r => after ++ expand matched before after r
  | u :: r => u :: expand matched before after r
  | [] => []
  end.
(** [replaceAll] of a text that is not empty; [skip] units belong to a match. *)
Fixpoint replace_all (pat rep before : jsstring) (skip : nat) (s : jsstring) : jsstring :=
  match s with
  | [] => []
  | u :: s' =>
      match skip with
      | S skip => replace_all pat rep (before ++ [u]) skip s'
      | O =>
          if bool_decide (pat `prefix_of` s) then
            expand pat before (drop (length pat) s) rep ++ replace_all pat rep (before ++ [u]) (length pat - 1) s'
          else u :: replace_all pat rep (before ++ [u]) 0 s'
      end
  end.
Definition replaceAll (s pat rep : jsstring) : jsstring := match pat with [] => s | _ => replace_all pat rep [] 0 s end.
Definition _quoteField (f delim quote : jsstring) : jsstring :=
  if includes f delim || includes f quote || includes f [13] || includes f [10] then
    quote ++ replaceAll f quote (quote ++ quote) ++ quote
  else f.
Definition _row (fields : list jsstring) (delim quote : jsstring) : jsstring :=
  join delim (map (fun f => _quoteField f delim quote) fields).

Inductive input_rows :=
| Arrays (rows : list (list jsstring))
| Objects (rows : list (list (jsstring * option jsstring))).
Inductive header_option := HeaderUnset | HeaderOff | HeaderOn | HeaderNames (names : list jsstring).
Record CsvStringifyOptions := { s_delimiter : jsstring; s_quote : jsstring; s_lineEnding : jsstring; s_header : header_option }.
(** The keys of the objects, in order of their first appearance. *)
Definition seen_keys (rows : list (list (jsstring * option jsstring))) : list jsstring :=
  foldl (fun seen k => if bool_decide (k ∈ seen) then seen else seen ++ [k]) [] (concat (map JMap.keys rows)).
Definition cell (row : list (jsstring * option jsstring)) (h : jsstring) : jsstring :=
  match JMap.get h row with Some (Some v) => v | _ => [] end.
Definition stringify (rows : input_rows) (o : CsvStringifyOptions) : res jsstring :=
  let line fs := _row fs (s_delimiter o) (s_quote o) ++ s_lineEnding o in
  if negb (length (s_delimiter o) =? 1)%nat then Throw (TypeError "csv: delimiter must be a single character")
  else
    match rows with
    | Arrays [] | Objects [] => Ok []
    | Arrays rows =>
        Ok (concat (match s_header o with HeaderNames hs => [line hs] | _ => [] end ++ map line rows))
    | Objects rows =>
        let headers := match s_header o with HeaderNames hs => hs | _ => seen_keys rows end in
        Ok (concat (line headers :: map (fun row => line (map (cell row) headers)) rows))
    end.

(** ** Code points of a quoted field *)
Definition plain_char (c : Z) : Prop := 0 <= c < 65536 /\ c <> 65533 /\ c <> 10 /\ c <> 13 /\ Utf8.is_hi c = false /\ Utf8.is_lo c = false.
Lemma plain_not_hi c : plain_char c -> Utf8.is_hi c = false.
Proof. by intros (_ & _ & _ & _ & H & _). Qed.

Lemma code_points_cons c s : Utf8.is_hi c = false -> Utf8.is_lo c = false -> Utf8.code_points (c :: s) = c :: Utf8.code_points s.
Proof. intros H1 H2. cbn. by rewrite H1, H2. Qed.
Lemma code_points_app a c b : Utf8.is_hi c = false -> Utf8.is_lo c = false ->
  Utf8.code_points (a ++ c :: b) = Utf8.code_points a ++ c :: Utf8.code_points b.
Proof.
  intros H1 H2. induction a as [|u a IH] using Utf8.unit_ind; [by apply code_points_cons|].
  cbn [app Utf8.code_points]. destruct (Utf8.is_hi u).
  - destruct a as [|lo a]; cbn [app].
    + by rewrite H2, code_points_cons.
    + destruct (Utf8.is_lo lo); [apply (f_equal (cons _)), IH; cbn; lia|].
      apply (f_equal (cons 65533)), (IH (lo :: a)). done.
  - destruct (Utf8.is_lo u); apply (f_equal (cons _)), IH; done.
Qed.
(** The quotes of a field, doubled. *)
Definition doubled (q : Z) (s : list Z) : list Z := s ≫= fun c => if c =? q then [c; c] else [c].
Lemma doubled_nil q : doubled q [] = [].
Proof. done. Qed.
Lemma doubled_cons q c s : doubled q (c :: s) = (if c =? q then [c; c] else [c]) ++ doubled q s.
Proof. done. Qed.
Lemma doubled_length q s : (length s <= length (doubled q s))%nat.
Proof. induction s as [|c s IH]; [done|]. rewrite doubled_cons, length_app. destruct (c =? q); cbn [length]; lia. Qed.
Lemma code_points_doubled q s : plain_char q -> Utf8.code_points (doubled q s) = doubled q (Utf8.code_points s).
Proof.
  intros (Hr & Hf & _ & _ & Hh & Hl). induction s as [|u s IH] using Utf8.unit_ind; [done|].
  assert (Hbig : forall x, 65536 <= x -> (x =? q) = false) by (intros; lia).
  rewrite doubled_cons. cbn [Utf8.code_points]. destruct (Utf8.is_hi u) eqn:Eu.
  - replace (u =? q) with false by (destruct (Z.eqb_spec u q); [congruence|done]). cbn [app Utf8.code_points]. rewrite Eu.
    destruct s as [|lo s]; [rewrite doubled_cons, doubled_nil; by replace (65533 =? q) with false by lia|]. rewrite doubled_cons. destruct (Utf8.is_lo lo) eqn:El.
    + replace (lo =? q) with false by (destruct (Z.eqb_spec lo q); [congruence|done]). cbn [app]. rewrite El, doubled_cons.
      rewrite Hbig by (pose proof (Utf8.pair_cp_range u lo Eu El); lia). cbn [app]. rewrite IH by (cbn; lia). done.
    + rewrite <- doubled_cons. pose proof (IH (lo :: s) ltac:(done)) as E.
      rewrite (doubled_cons q 65533). replace (65533 =? q) with false by lia. cbn [app]. rewrite <- E.
      rewrite doubled_cons. destruct (lo =? q); cbn [app]; by rewrite ?El.
  - destruct (Z.eqb_spec u q) as [->|Hne].
    + rewrite Hl. cbn [app Utf8.code_points]. rewrite Eu, Hl, doubled_cons, Z.eqb_refl, IH by done. done.
    + cbn [app Utf8.code_points]. rewrite Eu. destruct (Utf8.is_lo u); rewrite doubled_cons, IH by done.
      * by replace (65533 =? q) with false by lia.
      * by replace (u =? q) with false by lia.
Qed.
Lemma replace_doubles q s : q <> 36 -> forall before, replace_all [q] [q; q] before 0 s = doubled q s.
Proof.
  intros Hq. induction s as [|u s IH]; intros before; [done|]. rewrite doubled_cons. cbn [replace_all length Nat.sub].
  assert (E : forall a b, expand [q] a b [q; q] = [q; q]).
  { intros a b. cbn. repeat case_match; subst; try done; lia. }
  destruct (Z.eqb_spec u q) as [->|Hne].
  - rewrite bool_decide_eq_true_2 by (by exists s). by rewrite E, IH.
  - rewrite bool_decide_eq_false_2; [by rewrite IH|]. intros [k [= ->]]. done.
Qed.

(** ** Reading fields back *)
Definition text_of (cps : list Z) : jsstring := cps ≫= Utf8.from_code_point.
Section reading.
Context (d q : Z) (Hd : plain_char d) (Hq : plain_char q) (Hdq : d <> q).
(** What follows a field. *)
Definition boundary (rest : list Z) : Prop := match rest with [] => True | c :: _ => c = d \/ c = 10 \/ c = 13 end.
Lemma boundary_peek sc rest : decodes sc rest -> boundary rest ->
  peekCode sc <> q /\ _isPostQuoteBoundary (peekCode sc) d = true.
Proof.
  intros Hs Hb. destruct Hq as (Hr & _ & H10 & H13 & _). unfold _isPostQuoteBoundary. destruct rest as [|c rest].
  - destruct (decodes_nil _ Hs) as [-> _]. split; [lia|done].
  - destruct (decodes_cons _ _ _ Hs) as [-> _]. split; [destruct Hb as [->|[->| ->]]; congruence|].
    destruct Hb as [->|[->| ->]]; rewrite ?Z.eqb_refl, ?orb_true_r; done.
Qed.
Lemma quoted_reads cps : forall fuel acc sc rest,
  decodes sc (doubled q cps ++ q :: rest) -> boundary rest -> (length cps < fuel)%nat ->
  exists sc', quoted d q fuel acc sc = Ok (acc ++ text_of cps, sc') /\ decodes sc' rest.
Proof.
  induction cps as [|c cps IH]; intros fuel acc sc rest Hs Hb Hf; (destruct fuel as [|fuel]; [cbn in Hf; lia|]); cbn [quoted]; unfold looking at 1.
  - cbn [doubled mbind list_bind app] in Hs. destruct (decodes_cons _ _ _ Hs) as (Hp & -> & sc1 & E1 & H1).
    rewrite Hp, Z.eqb_refl, (ST_bind_ok _ _ _ _ _ E1). unfold looking. destruct (boundary_peek _ _ H1 Hb) as [Hne ->].
    apply Z.eqb_neq in Hne as ->. exists sc1. cbn. by rewrite app_nil_r.
  - rewrite doubled_cons in Hs. unfold text_of. rewrite bind_cons. rewrite app_assoc. destruct (Z.eqb_spec c q) as [->|Hne]; cbn [app] in Hs.
    + destruct (decodes_cons _ _ _ Hs) as (Hp & -> & sc1 & E1 & H1). rewrite Hp, Z.eqb_refl, (ST_bind_ok _ _ _ _ _ E1). unfold looking.
      destruct (decodes_cons _ _ _ H1) as (Hp1 & _ & sc2 & E2 & H2). rewrite Hp1, Z.eqb_refl, (ST_bind_ok _ _ _ _ _ E2).
      apply IH; [done|done|cbn in Hf; lia].
    + destruct (decodes_cons _ _ _ Hs) as (Hp & -> & sc1 & E1 & H1). rewrite Hp. apply Z.eqb_neq in Hne as ->.
      rewrite (ST_bind_ok _ _ _ _ _ E1). apply IH; [done|done|cbn in Hf; lia].
Qed.
Lemma decodes_length sc cps : decodes sc cps -> (length cps <= length (remaining_text sc))%nat.
Proof.
  intros [-> _]. induction cps as [|c cps IH]; [done|]. rewrite bind_cons, length_app. pose proof (encode_cp_nonempty c).
  destruct (Utf8.encode_cp c); [done|]. cbn in *. lia.
Qed.

(** A field as it is written. *)
Definition needs_quotes (f : jsstring) : bool := includes f [d] || includes f [q] || includes f [13] || includes f [10].
Definition field_points (f : jsstring) : list Z :=
  if needs_quotes f then q :: doubled q (Utf8.code_points f) ++ [q] else Utf8.code_points f.
Lemma includes_char f c : includes f [c] = bool_decide (c ∈ f).
Proof.
  induction f as [|u f IH].
  - cbn. rewrite !bool_decide_eq_false_2; [done|by intros ?%elem_of_nil|]. intros [k [=]].
  - cbn [includes]. rewrite IH. destruct (decide (u = c)) as [->|Hne].
    + rewrite (bool_decide_eq_true_2 ([c] `prefix_of` c :: f)) by (by exists f). symmetry. apply bool_decide_eq_true_2. by left.
    + rewrite bool_decide_eq_false_2 by (intros [k [= ->]]; done). cbn [orb]. apply bool_decide_ext. rewrite elem_of_cons. naive_solver.
Qed.
Lemma needs_quotes_false f c : needs_quotes f = false -> c ∈ f -> c <> d /\ c <> q /\ c <> 13 /\ c <> 10.
Proof.
  unfold needs_quotes. rewrite !includes_char, !orb_false_iff, !bool_decide_eq_false. intros (((H1 & H2) & H3) & H4) Hc.
  split_and!; by intros ->.
Qed.
Lemma unquoted_reads f sc rest :
  needs_quotes f = false -> decodes sc (Utf8.code_points f ++ rest) -> boundary rest ->
  exists sc', unquoted d sc = Ok (text_of (Utf8.code_points f), sc') /\ decodes sc' rest.
Proof.
  intros Hn Hs Hb. unfold unquoted, looking. unfold eatUntil.
  destruct (eatWhile_encoded (fun c => negb ((c =? d) || (c =? 10) || (c =? 13))) (Utf8.code_points f) rest sc Hs) as (sc' & E & H' & _ & Ht).
  - apply Forall_forall. intros c Hc%Utf8.code_points_elem. destruct Hd as (Hr & Hf & _).
    assert (c <> d /\ c <> 10 /\ c <> 13) as (H1 & H2 & H3).
    { destruct Hc as [Hc|[->|Hc]]; [|lia|lia]. destruct (needs_quotes_false f c Hn Hc) as (? & _ & ? & ?). done. }
    apply Z.eqb_neq in H1 as ->. apply Z.eqb_neq in H2 as ->. by apply Z.eqb_neq in H3 as ->.
  - destruct rest as [|c rest]; [done|]. destruct Hb as [->|[->| ->]]; by rewrite Z.eqb_refl, ?orb_true_r.
  - exists sc'. rewrite (ST_bind_ok _ _ _ _ _ E). unfold liftR. by rewrite Ht.
Qed.
Lemma field_reads f sc rest :
  decodes sc (field_points f ++ rest) -> boundary rest ->
  exists sc', field d q sc = Ok (text_of (Utf8.code_points f), sc') /\ decodes sc' rest.
Proof.
  unfold field_points. intros Hs Hb. unfold field, looking. destruct (needs_quotes f) eqn:Hn.
  - cbn [app] in Hs. rewrite <- app_assoc in Hs. destruct (decodes_cons _ _ _ Hs) as (Hp & _ & sc1 & E1 & H1).
    rewrite Hp, Z.eqb_refl, (ST_bind_ok _ _ _ _ _ E1).
    destruct (quoted_reads (Utf8.code_points f) (S (length (remaining_text sc1))) [] sc1 rest) as (sc2 & E2 & H2); [done|done| |by exists sc2].
    apply decodes_length in H1. rewrite length_app in H1.
    pose proof (doubled_length q (Utf8.code_points f)). lia.
  - assert (Hp : peekCode sc <> q).
    { destruct (Utf8.code_points f) as [|c cps] eqn:Ec; [by destruct (boundary_peek sc rest Hs Hb)|].
      cbn [app] in Hs. destruct (decodes_cons _ _ _ Hs) as [-> _]. assert (Hc : c ∈ Utf8.code_points f) by (rewrite Ec; by left).
      apply Utf8.code_points_elem in Hc. destruct Hq as (Hr & Hf & _). destruct Hc as [Hc|[->|Hc]]; [|lia|lia].
      by destruct (needs_quotes_false f c Hn Hc) as (_ & ? & _). }
    apply Z.eqb_neq in Hp as ->. by apply unquoted_reads.
Qed.

(** ** Reading rows back *)
Fixpoint row_points (fs : list jsstring) : list Z :=
  match fs with
  | [] => []
  | [f] => field_points f
  | f :: fs => field_points f ++ d :: row_points fs
  end.
Definition row_ends (rest : list Z) : Prop := match rest with [] => True | c :: _ => c = 10 \/ c = 13 end.
Definition read_fields (fs : list jsstring) : list jsstring := map (fun f => text_of (Utf8.code_points f)) fs.
Lemma fields_read fs : fs <> [] -> forall fuel acc sc rest,
  decodes sc (row_points fs ++ rest) -> row_ends rest -> (length fs <= fuel)%nat ->
  exists sc', fields d q fuel false acc sc = Ok (acc ++ read_fields fs, sc') /\ decodes sc' rest.
Proof.
  induction fs as [|f fs IH]; [done|]. intros _ fuel acc sc rest Hs Hr Hf. destruct fuel as [|fuel]; [cbn in Hf; lia|].
  cbn [fields]. destruct fs as [|f' fs].
  - cbn [row_points] in Hs. destruct (field_reads f sc rest Hs) as (sc1 & E1 & H1).
    { destruct rest; [done|]. destruct Hr; cbn; auto. }
    rewrite (ST_bind_ok _ _ _ _ _ E1). unfold looking.
    assert (Hp : peekCode sc1 <> d).
    { destruct Hd as (Hr' & _ & H10 & H13 & _). destruct rest as [|c rest]; [destruct (decodes_nil _ H1) as [-> _]; lia|].
      destruct (decodes_cons _ _ _ H1) as [-> _]. destruct Hr as [->| ->]; congruence. }
    apply Z.eqb_neq in Hp as ->. by exists sc1.
  - change (row_points (f :: f' :: fs)) with (field_points f ++ d :: row_points (f' :: fs)) in Hs. rewrite <- app_assoc in Hs.
    destruct (field_reads f sc _ Hs) as (sc1 & E1 & H1); [by left|]. rewrite (ST_bind_ok _ _ _ _ _ E1). unfold looking.
    cbn [app] in H1. destruct (decodes_cons _ _ _ H1) as (Hp & _ & sc2 & E2 & H2). rewrite Hp, Z.eqb_refl, (ST_bind_ok _ _ _ _ _ E2).
    destruct (IH ltac:(done) fuel (acc ++ [text_of (Utf8.code_points f)]) sc2 rest H2 Hr) as (sc3 & E3 & H3); [cbn in *; lia|].
    exists sc3. split; [|done]. rewrite E3. unfold read_fields. cbn [map]. by rewrite <- app_assoc.
Qed.
Lemma row_points_length fs : fs <> [] -> (length fs <= S (length (row_points fs)))%nat.
Proof.
  induction fs as [|f fs IH]; [done|]. intros _. destruct fs as [|f' fs]; [cbn; lia|].
  change (row_points (f :: f' :: fs)) with (field_points f ++ d :: row_points (f' :: fs)). rewrite length_app. cbn [length].
  specialize (IH ltac:(done)). cbn [length] in IH. lia.
Qed.

Definition terminator (le : jsstring) : Prop := le = [13; 10] \/ le = [10] \/ le = [13].
Lemma terminator_skipped le sc rest : terminator le -> decodes sc (le ++ rest) -> (le = [13] -> hd 0 rest <> 10) ->
  exists sc', skip_terminator sc = Ok (tt, sc') /\ decodes sc' rest.
Proof.
  intros Hle Hs Hr. unfold skip_terminator, looking at 1. destruct Hle as [->|[->| ->]]; cbn [app] in Hs;
    destruct (decodes_cons _ _ _ Hs) as (-> & _ & sc1 & E1 & H1); cbn [Z.eqb Pos.eqb]; rewrite (ST_bind_ok _ _ _ _ _ E1).
  - unfold looking. destruct (decodes_cons _ _ _ H1) as (-> & _ & sc2 & E2 & H2). cbn [Z.eqb Pos.eqb].
    rewrite (ST_bind_ok _ _ _ _ _ E2). by exists sc2.
  - by exists sc1.
  - unfold looking. exists sc1. split; [|done]. destruct rest as [|c rest]; [by destruct (decodes_nil _ H1) as [-> _]|].
    destruct (decodes_cons _ _ _ H1) as [-> _]. specialize (Hr eq_refl). cbn in Hr. by apply Z.eqb_neq in Hr as ->.
Qed.
Definition document (le : jsstring) (rows : list (list jsstring)) : list Z := concat (map (fun r => row_points r ++ le) rows).
Lemma field_points_start f rest : hd 0 rest <> 10 -> hd 0 (field_points f ++ rest) <> 10.
Proof.
  intros Hr. destruct Hq as (_ & _ & Hq10 & _). unfold field_points. destruct (needs_quotes f) eqn:Hn; [done|].
  destruct (Utf8.code_points f) as [|c cps] eqn:E; [done|]. cbn. assert (Hc : c ∈ Utf8.code_points f) by (rewrite E; by left).
  apply Utf8.code_points_elem in Hc as [Hc|[->|Hc]]; [|lia|lia]. by destruct (needs_quotes_false f c Hn Hc) as (_ & _ & _ & ?).
Qed.
Lemma row_points_start fs rest : hd 0 rest <> 10 -> hd 0 (row_points fs ++ rest) <> 10.
Proof.
  intros Hr. destruct fs as [|f [|f' fs]]; [done|by apply field_points_start|].
  change (row_points (f :: f' :: fs)) with (field_points f ++ d :: row_points (f' :: fs)). rewrite <- app_assoc.
  apply field_points_start. by destruct Hd as (_ & _ & ? & _).
Qed.
Lemma document_start rows : hd 0 (document [13] rows) <> 10.
Proof. destruct rows as [|r rows]; [done|]. unfold document. cbn [map concat]. rewrite <- app_assoc. by apply row_points_start. Qed.

Context (o : CsvParseOptions) (Ho : charCode (delimiter o) = d /\ charCode (quote o) = q /\ trim o = false /\ skipEmptyLines o = false /\ commentCode o = -1).
Lemma loop_reads le rows : terminator le -> Forall (fun r => r <> []) rows -> forall fuel raw sc,
  decodes sc (document le rows) -> (length rows <= fuel)%nat ->
  parse_loop fuel o raw sc = Ok (raw ++ map read_fields rows).
Proof.
  destruct Ho as (E1 & E2 & E3 & E4 & E5). intros Hle. induction 1 as [|r rows Hne _ IH]; intros fuel raw sc Hs Hf.
  { destruct (decodes_nil _ Hs) as [_ Hdn]. destruct fuel; cbn [parse_loop]; rewrite Hdn; by rewrite app_nil_r. }
  destruct fuel as [|fuel]; [cbn in Hf; lia|]. unfold document in Hs. cbn [map concat] in Hs. fold (document le rows) in Hs. rewrite <- app_assoc in Hs.
  assert (Hnd : is_done sc = false).
  { destruct (row_points r ++ le ++ document le rows) as [|c cps] eqn:E; [|by destruct (decodes_cons _ _ _ Hs) as (_ & ? & _)].
    apply app_eq_nil in E as [_ E]. apply app_eq_nil in E as [E _]. by destruct Hle as [->|[->| ->]]. }
  cbn [parse_loop]. rewrite Hnd, E1, E2, E3, E4, E5. cbn [Z.eqb Pos.eqb negb andb].
  destruct (fields_read r Hne (S (length (remaining_text sc))) [] sc _ Hs) as (sc1 & F1 & H1).
  - destruct Hle as [->|[->| ->]]; cbn; auto.
  - apply decodes_length in Hs. rewrite length_app in Hs. pose proof (row_points_length r Hne). lia.
  - rewrite F1. cbn [mbind res_bind]. destruct (terminator_skipped le sc1 (document le rows) Hle H1) as (sc2 & F2 & H2).
    { intros ->. apply document_start. }
    rewrite F2. cbn [mbind res_bind app]. rewrite IH; [|done|cbn in Hf; lia]. cbn [map]. by rewrite <- app_assoc.
Qed.
Lemma document_length le rows : terminator le -> (length rows <= length (document le rows))%nat.
Proof.
  intros Hle. induction rows as [|r rows IH]; [cbn; lia|]. unfold document in *. cbn [map concat]. rewrite !length_app. cbn [length].
  assert (1 <= length le)%nat by (destruct Hle as [->|[->| ->]]; cbn; lia). lia.
Qed.
End reading.

(** ** Written text *)
Section writing.
Context (d q : Z) (Hd : plain_char d) (Hq : plain_char q) (Hdq : d <> q) (Hdollar : q <> 36).
Lemma quoteField_text f : _quoteField f [d] [q] = if needs_quotes d q f then q :: doubled q f ++ [q] else f.
Proof. unfold _quoteField, replaceAll. rewrite replace_doubles by done. done. Qed.
Lemma quoteField_points f : Utf8.code_points (_quoteField f [d] [q]) = field_points d q f.
Proof.
  destruct Hq as (_ & _ & _ & _ & Hh & Hl). rewrite quoteField_text. unfold field_points. destruct (needs_quotes d q f); [|done].
  rewrite code_points_cons, code_points_app, code_points_doubled by done. done.
Qed.
Lemma row_text_points fs le rest : terminator le ->
  Utf8.code_points (_row fs [d] [q] ++ le ++ rest) = row_points d q fs ++ Utf8.code_points (le ++ rest).
Proof.
  intros Hle. assert (exists c tl, le ++ rest = c :: tl /\ Utf8.is_hi c = false /\ Utf8.is_lo c = false) as (c & tl & -> & H1 & H2).
  { destruct Hle as [->|[->| ->]]; by do 2 eexists. }
  unfold _row. destruct Hd as (_ & _ & _ & _ & Hh & Hl). induction fs as [|f fs IH]; [done|]. destruct fs as [|f' fs].
  - cbn [map join row_points]. by rewrite code_points_app, quoteField_points, code_points_cons by done.
  - cbn [map] in *. change (join [d] (?a :: ?b :: ?l)) with (a ++ d :: join [d] (b :: l)).
    rewrite <- app_assoc. cbn [app]. rewrite code_points_app by done. rewrite IH by done. rewrite quoteField_points.
    change (row_points d q (f :: f' :: fs)) with (field_points d q f ++ d :: row_points d q (f' :: fs)). by rewrite <- app_assoc.
Qed.
Lemma document_text le rows : terminator le ->
  Utf8.code_points (concat (map (fun r => _row r [d] [q] ++ le) rows)) = document d q le rows.
Proof.
  intros Hle. induction rows as [|r rows IH]; [done|]. unfold document in *. cbn [map concat]. rewrite <- !app_assoc.
  destruct Hle as [->|[->| ->]]; (rewrite row_text_points by (unfold terminator; auto)); f_equal; cbn [app].
  - rewrite !code_points_cons by done. by rewrite IH.
  - rewrite code_points_cons by done. by rewrite IH.
  - rewrite code_points_cons by done. by rewrite IH.
Qed.
Lemma quoteField_units f : Forall Utf8.is_unit f -> Forall Utf8.is_unit (_quoteField f [d] [q]).
Proof.
  intros Hf. rewrite quoteField_text. destruct (needs_quotes d q f); [|done]. destruct Hq as (Hr & _).
  apply Forall_cons; split; [done|]. apply Forall_app; split; [|by constructor]. unfold doubled. apply Forall_bind.
  eapply Forall_impl; [exact Hf|]. intros c Hc. unfold compose. cbv beta. destruct (c =? q); [apply Forall_cons_2; [done|]|]; by apply Forall_singleton.
Qed.
Lemma join_units parts : Forall (Forall Utf8.is_unit) parts -> Forall Utf8.is_unit (join [d] parts).
Proof.
  destruct Hd as (Hr & _). induction 1 as [|p parts Hp H IH]; [constructor|]. destruct parts as [|p' parts]; [done|].
  change (join [d] (p :: p' :: parts)) with (p ++ d :: join [d] (p' :: parts)). apply Forall_app; split; [done|]. by apply Forall_cons.
Qed.
Lemma document_units le rows : terminator le -> Forall (Forall (Forall Utf8.is_unit)) rows ->
  Forall Utf8.is_unit (concat (map (fun r => _row r [d] [q] ++ le) rows)).
Proof.
  intros Hle Hu. apply Forall_concat, Forall_map. eapply Forall_impl; [exact Hu|]. intros r Hr. apply Forall_app; split.
  - apply join_units, Forall_map. eapply Forall_impl; [exact Hr|]. apply quoteField_units.
  - destruct Hle as [->|[->| ->]]; repeat constructor; unfold Utf8.is_unit; lia.
Qed.
End writing.

(** Options under which nothing is dropped or changed. *)
Definition plain_options (d q : Z) (o : CsvParseOptions) : Prop :=
  delimiter o = [d] /\ quote o = [q] /\ trim o = false /\ skipEmptyLines o = false /\ comment o = None /\ header o = false /\ columns o = None.
Lemma plain_options_codes d q o : plain_options d q o ->
  charCode (delimiter o) = d /\ charCode (quote o) = q /\ trim o = false /\ skipEmptyLines o = false /\ commentCode o = -1.
Proof. unfold plain_options, commentCode. by intros (-> & -> & ? & ? & -> & _). Qed.
Lemma text_well_formed s : Forall Utf8.is_unit s -> text_of (Utf8.code_points s) = Utf8.toWellFormed s.
Proof. apply Utf8.code_points_roundtrip. Qed.
Lemma read_fields_well_formed fs : Forall (Forall Utf8.is_unit) fs -> read_fields fs = map Utf8.toWellFormed fs.
Proof. induction 1 as [|f fs Hf _ IH]; [done|]. unfold read_fields in *. cbn [map]. by rewrite text_well_formed, IH. Qed.
Lemma read_rows_well_formed rows : Forall (Forall (Forall Utf8.is_unit)) rows -> map read_fields rows = map (map Utf8.toWellFormed) rows.
Proof. induction 1 as [|r rows Hr _ IH]; [done|]. cbn [map]. by rewrite read_fields_well_formed, IH. Qed.

Lemma row_out_kept r : row_out (fun f _ _ => f) r = Row r.
Proof. unfold row_out. f_equal. induction r as [|f r IH] using rev_ind; [done|]. by rewrite imap_app, IH. Qed.

(** C15: rows of fields that are written with a delimiter and a quote that are
    single characters and with one of the line endings LF, CR LF and CR are parsed
    back, whatever the fields hold, delimiters, quotes and line breaks included;
    only lone surrogates become U+FFFD. The delimiter and the quote are different
    and no line breaks, surrogates or U+FFFD, and the quote is not a dollar sign,
    which is not doubled ([dollar_quote_not_doubled]). The parser has the same
    delimiter and quote and its other options off. *)
Theorem csv_roundtrip (d q : Z) (le : jsstring) (rows : list (list jsstring)) (o : CsvParseOptions) (so : CsvStringifyOptions) :
  plain_char d -> plain_char q -> d <> q -> q <> 36 -> terminator le -> plain_options d q o ->
  s_delimiter so = [d] -> s_quote so = [q] -> s_lineEnding so = le -> s_header so = HeaderUnset ->
  Forall (fun r => r <> []) rows -> Forall (Forall (Forall Utf8.is_unit)) rows ->
  exists s, stringify (Arrays rows) so = Ok s /\
    parse (fun f _ _ => f) s o = Ok (map Row (map (map Utf8.toWellFormed) rows)).
Proof.
  intros Hd Hq Hdq Hdl Hle Ho E1 E2 E3 E4 Hne Hu. unfold stringify. rewrite E1, E2, E3, E4. cbn [length Nat.eqb negb app].
  exists (concat (map (fun r => _row r [d] [q] ++ le) rows)). split; [by destruct rows|].
  pose proof (plain_options_codes d q o Ho) as Hc. destruct Ho as (O1 & O2 & _ & _ & _ & O6 & O7). unfold parse. rewrite O1, O2. cbn [check_options length Nat.eqb negb mbind res_bind].
  set (s := concat _). assert (Hs : decodes (make s) (document d q le rows)).
  { unfold decodes, make, remaining_text. cbn [offset buf drop]. rewrite Utf8.encodeUtf8_spec. unfold s. rewrite document_text by done.
    split; [done|]. rewrite <- (document_text d q) by done. apply Utf8.code_points_scalar. by apply document_units. }
  rewrite (loop_reads d q Hd Hq Hdq o Hc le rows Hle Hne _ [] _ Hs).
  - cbn [app mbind res_bind]. unfold shape. rewrite O6, O7. f_equal. rewrite read_rows_well_formed by done. apply map_ext, row_out_kept.
  - apply decodes_length in Hs. pose proof (document_length d q le rows Hle). lia.
Qed.

(** ** Streams *)
Section stream.
Context (d q : Z) (Hd : plain_char d) (Hq : plain_char q) (Hdq : d <> q) (Hascii : q < 128).
Lemma encode_byte cp b : Utf8.is_scalar cp -> b ∈ Utf8.encode_cp cp -> b = cp /\ cp < 128 \/ 128 <= b.
Proof.
  intros [Hr _] Hb. rewrite Utf8.encode_cp_arith in Hb by done. revert Hb. zcases; rewrite ?elem_of_cons, elem_of_nil; zdm.
Qed.
(** Bytes of text without quotes and line breaks are passed over. *)
Lemma skip_bytes iq bs x :
  Forall (fun b => b <> q /\ (iq = false -> b <> 13 /\ b <> 10)) bs ->
  findRowEnd q iq (bs ++ x) = Nat.add (length bs) <$> findRowEnd q iq x.
Proof.
  assert (Hid : forall (m : option nat), m = Nat.add 0 <$> m) by (by intros []).
  induction 1 as [|b bs [Hb Hn] _ IH]; [apply Hid|]. cbn [app findRowEnd length]. apply Z.eqb_neq in Hb as ->.
  destruct iq.
  - rewrite IH. by destruct (findRowEnd q true x).
  - destruct (Hn eq_refl) as [H13 H10]. apply Z.eqb_neq in H13 as ->. apply Z.eqb_neq in H10 as ->. rewrite IH. by destruct (findRowEnd q false x).
Qed.
Lemma quoted_bytes cps x : Forall Utf8.is_scalar cps -> hd (-1) x <> q ->
  findRowEnd q true ((doubled q cps ≫= Utf8.encode_cp) ++ q :: x) =
  Nat.add (S (length (doubled q cps ≫= Utf8.encode_cp))) <$> findRowEnd q false x.
Proof.
  intros Hs Hx. induction Hs as [|c cps Hc _ IH].
  - cbn [doubled mbind list_bind app findRowEnd length]. rewrite Z.eqb_refl. destruct x as [|b x]; [done|]. cbn in Hx. by apply Z.eqb_neq in Hx as ->.
  - rewrite doubled_cons. destruct (Z.eqb_spec c q) as [->|Hne].
    + assert (E : Utf8.encode_cp q = [q]) by (unfold Utf8.encode_cp; by replace (q <? 128) with true by lia).
      rewrite bind_app, !bind_cons, E. cbn [mbind list_bind app]. fold (doubled q cps ≫= Utf8.encode_cp).
      cbn [findRowEnd length]. rewrite !Z.eqb_refl. change (list_bind _ _ Utf8.encode_cp (doubled q cps)) with (doubled q cps ≫= Utf8.encode_cp) in *.
      rewrite IH. by destruct (findRowEnd q false x).
    + cbn [app]. rewrite bind_cons, <- app_assoc, skip_bytes, IH.
      * rewrite length_app. destruct (findRowEnd q false x); [|done]. cbn. f_equal. lia.
      * apply Forall_forall. intros b Hb. split; [|done]. apply encode_byte in Hb; [|done]. lia.
Qed.
Definition bytes_of (cps : list Z) : list Z := cps ≫= Utf8.encode_cp.
Lemma ascii_quote : Utf8.encode_cp q = [q].
Proof. unfold Utf8.encode_cp. by replace (q <? 128) with true by lia. Qed.
Lemma field_scan f x : Forall Utf8.is_unit f -> hd (-1) x <> q ->
  findRowEnd q false (bytes_of (field_points d q f) ++ x) = Nat.add (length (bytes_of (field_points d q f))) <$> findRowEnd q false x.
Proof.
  intros Hu Hx. unfold field_points, bytes_of. destruct (needs_quotes d q f) eqn:Hn.
  - rewrite bind_cons, bind_app, bind_singleton, ascii_quote, <- app_assoc. cbn [app findRowEnd]. destruct Hq as (Hr & _ & H10 & H13 & _).
    rewrite Z.eqb_refl, <- app_assoc. cbn [app].
    rewrite quoted_bytes by (done || by apply Utf8.code_points_scalar). cbn [length]. rewrite length_app.
    destruct (findRowEnd q false x); [|done]. cbn. f_equal. lia.
  - apply skip_bytes, Forall_forall. intros b (cp & Hb & Hc)%list_elem_of_bind. pose proof (Utf8.code_points_scalar f Hu) as Hs.
    rewrite Forall_forall in Hs. apply encode_byte in Hb; [|by apply Hs]. apply Utf8.code_points_elem in Hc.
    destruct Hb as [[-> Hlt]|Hb]; [|lia]. destruct Hc as [Hc|Hc]; [|lia].
    destruct (needs_quotes_false d q f cp Hn Hc) as (_ & ? & ? & ?). done.
Qed.
Lemma delimiter_bytes : Forall (fun b => b <> q /\ (false = false -> b <> 13 /\ b <> 10)) (Utf8.encode_cp d) /\
  forall x, hd (-1) (Utf8.encode_cp d ++ x) <> q.
Proof.
  destruct Hd as (Hr & Hf & H10 & H13 & Hhi & Hlo).
  assert (Hsc : Utf8.is_scalar d) by (split; [lia|]; revert Hhi Hlo; unfold Utf8.is_hi, Utf8.is_lo; lia).
  assert (H : Forall (fun b => b <> q /\ (false = false -> b <> 13 /\ b <> 10)) (Utf8.encode_cp d)).
  { apply Forall_forall. intros b Hb. apply encode_byte in Hb; [|done]. destruct Hb as [[-> _]|Hb]; [done|lia]. }
  split; [done|]. intros x. pose proof (encode_cp_nonempty d). destruct (Utf8.encode_cp d); [done|]. apply Forall_cons in H as [[? _] _]. done.
Qed.
Lemma row_scan fs x : fs <> [] -> Forall (Forall Utf8.is_unit) fs -> hd (-1) x <> q ->
  findRowEnd q false (bytes_of (row_points d q fs) ++ x) = Nat.add (length (bytes_of (row_points d q fs))) <$> findRowEnd q false x.
Proof.
  intros Hne Hu Hx. induction Hu as [|f fs Hf Hu IH]; [done|]. destruct fs as [|f' fs]; [by apply field_scan|].
  change (row_points d q (f :: f' :: fs)) with (field_points d q f ++ d :: row_points d q (f' :: fs)).
  unfold bytes_of in *. rewrite bind_app, bind_cons, <- !app_assoc. destruct delimiter_bytes as [Hb Hh]. fold (bytes_of (field_points d q f)).
  rewrite field_scan by done. rewrite skip_bytes by done. rewrite IH by done. rewrite !length_app.
  destruct (findRowEnd q false x); [|done]. cbn. f_equal. lia.
Qed.
(** More bytes do not take a row's end away. *)
Lemma more_bytes n : forall iq p x, (length p <= n)%nat -> is_Some (findRowEnd q iq p) -> is_Some (findRowEnd q iq (p ++ x)).
Proof.
  induction n as [|n IH]; intros iq p x Hl Hs; (destruct p as [|b p]; [by destruct Hs|]); [cbn in Hl; lia|].
  cbn [findRowEnd app length] in *.
  assert (Hmap : forall k iq p, (length p <= n)%nat -> is_Some (Nat.add k <$> findRowEnd q iq p) -> is_Some (Nat.add k <$> findRowEnd q iq (p ++ x))).
  { intros k iq' p' Hl' H. apply fmap_is_Some. apply fmap_is_Some in H. by apply IH. }
  destruct iq.
  - destruct (b =? q); [|apply (Hmap 1%nat); [lia|done]]. destruct p as [|b' p]; [by destruct Hs|]. cbn [app].
    destruct (b' =? q); [apply (Hmap 2%nat)|apply (Hmap 1%nat false (b' :: p))]; cbn [length] in *; done || lia.
  - destruct (b =? q); [apply (Hmap 1%nat); [lia|done]|]. destruct (b =? 13); [done|]. destruct (b =? 10); [done|]. apply (Hmap 1%nat); [lia|done].
Qed.

Context (Hdollar : q <> 36) (o : CsvParseOptions) (Ho : plain_options d q o).
Definition row_bytes (r : list jsstring) : list Z := bytes_of (row_points d q r) ++ [10].
Definition units (r : list jsstring) : Prop := r <> [] /\ Forall (Forall Utf8.is_unit) r.
Lemma row_decodes r : units r -> decodes (of_bytes (row_bytes r)) (row_points d q r ++ [10]).
Proof.
  intros [_ Hu]. assert (Hle : terminator [10]) by (unfold terminator; auto).
  split; [unfold of_bytes, remaining_text, row_bytes, bytes_of; cbn [offset buf drop]; by rewrite bind_app|].
  rewrite <- (row_text_points d q Hd Hq Hdollar r [10] [] Hle : _ = row_points d q r ++ [10]).
  apply Utf8.code_points_scalar, Forall_app; split; [|repeat constructor; unfold Utf8.is_unit; lia].
  apply join_units, Forall_map; [done|]. eapply Forall_impl; [exact Hu|]. by apply quoteField_units.
Qed.
Lemma parse_row_bytes r : units r -> parseRow o (row_bytes r) = Ok (Some (read_fields r)).
Proof.
  intros Hr. destruct (plain_options_codes _ _ _ Ho) as (E1 & E2 & E3 & E4 & E5). unfold parseRow.
  rewrite E1, E2, E3, E4, E5. cbn [Z.eqb Pos.eqb negb andb].
  pose proof (row_decodes r Hr) as Hs. destruct Hr as [Hne _].
  destruct (fields_read d q Hd Hq Hdq r Hne (S (length (row_bytes r))) [] _ [10] Hs) as (sc' & E & _); [by left| |by rewrite E].
  apply decodes_length in Hs. rewrite length_app in Hs. pose proof (row_points_length d q r Hne).
  change (remaining_text (of_bytes (row_bytes r))) with (row_bytes r) in Hs. lia.
Qed.
Lemma row_end r x : units r -> findRowEnd q false (row_bytes r ++ x) = Some (length (row_bytes r)).
Proof.
  intros [Hne Hu]. destruct Hq as (Hr & _ & H10 & _). unfold row_bytes. rewrite <- app_assoc, row_scan by done. cbn [app findRowEnd].
  replace (10 =? q) with false by lia. cbn. rewrite length_app. done.
Qed.
(** A row end is only found when the whole row is there. *)
Lemma row_arrived r p x y : units r -> is_Some (findRowEnd q false p) -> p ++ x = row_bytes r ++ y -> exists z, p = row_bytes r ++ z.
Proof.
  intros [Hne Hu] Hs E. unfold row_bytes in *. rewrite <- app_assoc in E. apply app_eq_inv in E as [(k & E1 & E2)|(k & E1 & E2)].
  - destruct k as [|b k].
    + rewrite app_nil_r in E1. subst p. exfalso. destruct Hs as [n Hs]. pose proof (row_scan r [] Hne Hu) as H. rewrite app_nil_r, Hs in H.
      destruct Hq as (Hr & _). specialize (H ltac:(cbn; lia)). done.
    + cbn [app] in E2. injection E2 as <- ->. exists k. by rewrite E1, <- app_assoc.
  - exfalso. apply (more_bytes (length p) false p k) in Hs; [|done]. rewrite <- E1 in Hs. destruct Hs as [n Hs].
    destruct Hq as (Hr & _). pose proof (row_scan r [] Hne Hu ltac:(cbn; lia)) as H. rewrite app_nil_r, Hs in H. done.
Qed.
Notation keep := (fun (f : jsstring) (_ : nat) (_ : option jsstring) => f).
Definition doc_bytes (rows : list (list jsstring)) : list Z := concat (map row_bytes rows).
Lemma stream_rows_read rest rows : Forall units rows -> forall fuel st,
  headerConsumed st = true -> headers st = None -> tail st ++ rest = doc_bytes rows -> (length (tail st) < fuel)%nat ->
  exists rows1 rows2 st', rows = rows1 ++ rows2 /\ stream_rows keep fuel o st = (st', None) /\
    headerConsumed st' = true /\ headers st' = None /\ tail st' ++ rest = doc_bytes rows2 /\
    findRowEnd q false (tail st') = None /\ yielded st' = yielded st ++ map (fun r => Row (read_fields r)) rows1.
Proof.
  destruct (plain_options_codes _ _ _ Ho) as (_ & E2 & _).
  assert (Hstop : forall rows st, headerConsumed st = true -> headers st = None -> tail st ++ rest = doc_bytes rows ->
    findRowEnd q false (tail st) = None -> exists rows1 rows2 st', rows = rows1 ++ rows2 /\ (st, None (A := exn)) = (st', None) /\
    headerConsumed st' = true /\ headers st' = None /\ tail st' ++ rest = doc_bytes rows2 /\
    findRowEnd q false (tail st') = None /\ yielded st' = yielded st ++ map (fun r => Row (read_fields r)) rows1).
  { intros rows' st H1 H2 H3 H4. exists [], rows', st. rewrite app_nil_r. by split_and!. }
  induction 1 as [|r rows Hr Hrows IH]; intros fuel st H1 H2 H3 Hf; (destruct fuel as [|fuel]; [lia|]); cbn [stream_rows]; rewrite E2.
  { apply app_eq_nil in H3 as [H3 H3']. rewrite H3. cbn [findRowEnd]. apply (Hstop []); [done|done|by rewrite H3, H3'|by rewrite H3]. }
  destruct (findRowEnd q false (tail st)) as [n|] eqn:En; [|by apply (Hstop (r :: rows))].
  assert (exists z, tail st = row_bytes r ++ z) as [z Ez] by (by apply (row_arrived r _ rest (doc_bytes rows) Hr)).
  rewrite Ez, row_end in En by done. injection En as <-. assert (Et : take (length (row_bytes r)) (tail st) = row_bytes r) by (by rewrite Ez, take_app_length).
  assert (Ed : drop (length (row_bytes r)) (tail st) = z) by (by rewrite Ez, drop_app_length). rewrite Et, Ed.
  unfold stream_row. rewrite parse_row_bytes, H1, H2 by done. cbn [negb _emitStreamRow].
  rewrite Ez in H3. unfold doc_bytes in H3. cbn [map concat] in H3. rewrite <- app_assoc in H3. apply app_inv_head in H3.
  destruct (IH fuel (with_tail z {| tail := tail st; headers := None; headerConsumed := true; yielded := yielded st ++ [row_out keep (read_fields r)] |}))
    as (rows1 & rows2 & st' & -> & E & I1 & I2 & I3 & I4 & I5); [done|done|done| |].
  { cbn. rewrite Ez, length_app in Hf. unfold row_bytes in Hf. rewrite length_app in Hf. cbn in Hf. lia. }
  exists (r :: rows1), rows2, st'. split_and!; try done. rewrite I5. cbn [with_tail yielded map]. by rewrite <- app_assoc, row_out_kept.
Qed.
Lemma stream_chunks_read chunks : forall rows st, Forall units rows ->
  headerConsumed st = true -> headers st = None -> tail st ++ concat chunks = doc_bytes rows ->
  findRowEnd q false (tail st) = None ->
  exists rows1 rows2 st', rows = rows1 ++ rows2 /\ stream_chunks keep o chunks st = (st', None) /\
    headerConsumed st' = true /\ headers st' = None /\ tail st' = doc_bytes rows2 /\ findRowEnd q false (tail st') = None /\
    yielded st' = yielded st ++ map (fun r => Row (read_fields r)) rows1.
Proof.
  induction chunks as [|c chunks IH]; intros rows st Hr H1 H2 H3 H4; cbn [stream_chunks concat] in *.
  { rewrite app_nil_r in H3. exists [], rows, st. rewrite app_nil_r. by split_and!. }
  rewrite app_assoc in H3. unfold stream_chunk.
  destruct (stream_rows_read (concat chunks) rows Hr (S (length (tail st ++ c))) (with_tail (tail st ++ c) st))
    as (r1 & r2 & st1 & -> & E & I1 & I2 & I3 & I4 & I5); [done|done|done|cbn; lia|].
  rewrite E. apply Forall_app in Hr as [Hr1 Hr2].
  destruct (IH r2 st1) as (r3 & r4 & st2 & -> & F & J1 & J2 & J3 & J4 & J5); [done|done|done|done|done|].
  exists (r1 ++ r3), r4, st2. rewrite app_assoc. split_and!; try done. rewrite J5, I5. cbn [with_tail yielded]. by rewrite map_app, app_assoc.
Qed.
Lemma doc_bytes_points rows : bytes_of (document d q [10] rows) = doc_bytes rows.
Proof.
  induction rows as [|r rows IH]; [done|]. unfold document, doc_bytes, bytes_of in *. cbn [map concat]. rewrite bind_app, IH.
  unfold row_bytes, bytes_of. by rewrite bind_app.
Qed.
Lemma stream_reads chunks rows : Forall units rows -> concat chunks = doc_bytes rows ->
  parseStream keep o chunks = (map (fun r => Row (read_fields r)) rows, None).
Proof.
  intros Hr Hc. destruct Ho as (O1 & O2 & _ & _ & _ & O6 & O7). unfold parseStream. rewrite O1, O2, O6, O7. cbn [check_options length Nat.eqb negb orb].
  destruct (stream_chunks_read chunks rows {| tail := []; headers := None; headerConsumed := true; yielded := [] |})
    as (r1 & r2 & st & -> & E & _ & _ & H3 & H4 & H5); [done|done|done|done|done|].
  rewrite E. apply Forall_app in Hr as [_ Hr]. destruct r2 as [|r r2].
  - unfold stream_end. rewrite H3. cbn [doc_bytes map concat]. rewrite H5, app_nil_r. done.
  - exfalso. apply Forall_cons in Hr as [Hr _]. rewrite H3 in H4. change (doc_bytes (r :: r2)) with (row_bytes r ++ doc_bytes r2) in H4.
    by rewrite row_end in H4.
Qed.
End stream.

(** C16: rows of fields that are written with line feeds and arrive in any chunks,
    also ones that cut a character or a quoted field, are yielded by the stream
    parser one by one, as the parser of the whole text returns them, without an
    error. The delimiter and the quote are as for [csv_roundtrip], the quote is
    ASCII. With CR LF, the default of the writer, it does not hold: a chunk that
    ends between the two adds a row ([split_crlf_adds_row]). *)
Theorem csv_stream (d q : Z) (rows : list (list jsstring)) (s : jsstring) (chunks : list (list Z)) (o : CsvParseOptions) (so : CsvStringifyOptions) :
  plain_char d -> plain_char q -> d <> q -> q <> 36 -> q < 128 -> plain_options d q o ->
  s_delimiter so = [d] -> s_quote so = [q] -> s_lineEnding so = [10] -> s_header so = HeaderUnset ->
  Forall (fun r => r <> []) rows -> Forall (Forall (Forall Utf8.is_unit)) rows ->
  stringify (Arrays rows) so = Ok s -> concat chunks = Utf8.encodeUtf8 s ->
  parseStream (fun f _ _ => f) o chunks = (map Row (map (map Utf8.toWellFormed) rows), None).
Proof.
  intros Hd Hq Hdq Hdl Has Ho E1 E2 E3 E4 Hne Hu Hs Hc. assert (Hle : terminator [10]) by (unfold terminator; auto).
  rewrite (stream_reads d q Hd Hq Hdq Has Hdl o Ho chunks rows).
  - f_equal. rewrite <- (read_rows_well_formed rows Hu). by rewrite map_map.
  - apply Forall_and. by split.
  - revert Hs. unfold stringify. rewrite E1, E2, E3, E4. cbn [length Nat.eqb negb app]. intros Hs.
    assert (s = concat (map (fun r => _row r [d] [q] ++ [10]) rows)) as -> by (destruct rows; by injection Hs).
    rewrite Hc, Utf8.encodeUtf8_spec, document_text by done. apply doc_bytes_points.
Qed.

(** ** Examples *)
Definition sample_rows : list (list jsstring) := [[js "a,b"; js "say 'hi'"]; [[]; [39; 10; 55357; 56832]]].
Definition sample_options : CsvParseOptions :=
  {| delimiter := js ","; quote := js "'"; comment := None; header := false; columns := None;
     skipEmptyLines := false; trim := false; relaxColumnCount := false |}.
Definition sample_writer : CsvStringifyOptions := {| s_delimiter := js ","; s_quote := js "'"; s_lineEnding := [10]; s_header := HeaderUnset |}.
Lemma sample_units : Forall (Forall (Forall Utf8.is_unit)) sample_rows.
Proof. unfold sample_rows. repeat (apply Forall_cons_2 || apply Forall_nil_2); (split; vm_compute; congruence). Qed.
Lemma csv_roundtrip_witness : exists s, stringify (Arrays sample_rows) sample_writer = Ok s /\
  parse (fun f _ _ => f) s sample_options = Ok (map Row sample_rows).
Proof.
  apply (csv_roundtrip 44 39 [10] sample_rows sample_options sample_writer);
    try done; try (unfold plain_char, terminator; auto with lia); [repeat constructor; done|apply sample_units].
Defined.
Definition sample_text : jsstring := match stringify (Arrays sample_rows) sample_writer with Ok s => s | Throw _ => [] end.
(** One byte per chunk. *)
Definition sample_chunks : list (list Z) := map (fun b => [b]) (Utf8.encodeUtf8 sample_text).
Lemma csv_stream_witness : parseStream (fun f _ _ => f) sample_options sample_chunks = (map Row sample_rows, None).
Proof.
  apply (csv_stream 44 39 sample_rows sample_text sample_chunks sample_options sample_writer);
    try done; try (unfold plain_char; auto with lia); [repeat constructor; done|apply sample_units].
Defined.

(** With [$] for the quote a quote in a field is not doubled: the text that
    replaces it is a replacement pattern, in which [$$] means [$]. *)
Lemma dollar_quote_not_doubled : _quoteField (js "a$b") (js ",") (js "$") = js "$a$b$".
Proof. by vm_compute. Qed.
(** [header: false] does not suppress the header row of records. *)
Lemma header_false_written : stringify (Objects [[(js "a", Some (js "1"))]])
  {| s_delimiter := js ","; s_quote := js "'"; s_lineEnding := js ";"; s_header := HeaderOff |} = Ok (js "a;1;").
Proof. by vm_compute. Qed.
Definition lines (chunks : list (list Z)) : list output * option exn :=
  parseStream (fun f _ _ => f) {| delimiter := js ","; quote := js "'"; comment := Some (js "#"); header := false; columns := None;
    skipEmptyLines := false; trim := false; relaxColumnCount := false |} chunks.
(** A chunk that ends between a carriage return and its line feed adds a row. *)
Lemma split_crlf_adds_row :
  lines [js "a" ++ [13; 10] ++ js "b"] = ([Row [js "a"]; Row [js "b"]], None) /\
  lines [js "a" ++ [13]; [10] ++ js "b"] = ([Row [js "a"]; Row [[]]; Row [js "b"]], None).
Proof. by vm_compute. Qed.
(** A quote in a comment line hides the rows that follow it from the stream parser. *)
Lemma comment_quote_hides_rows : lines [js "#it's" ++ [10] ++ js "a"] = ([], None).
Proof. by vm_compute. Qed.
End Csv.
