(* ===== verification/Bytes.v ===== *)
(** Byte helpers: src/js/internal/bytes.ts (joining, bounded collection,
    comparison), [btoa] and [atob] of src/js/globals/encoding.ts, and the base64url
    helpers of src/js/internal/security/encoding.ts.

    A byte view is the list of its bytes.  A source of chunks is the list of what
    its pulls answer, with the state of the abort signal at each check. *)

From S2P Require Import Prelude Utf8.

Module Bytes.

(** ** Joining *)

Definition byteLimit (value : option Z) : res Z :=
  let maxBytes := default (2 ^ 53 - 1) value in
  if negb (isSafeInteger maxBytes) || (maxBytes <? 0) then Throw (RangeError "maxBytes must be a non-negative safe integer") else Ok maxBytes.
Definition expectedByteLength (expectedBytes : option Z) : res (option Z) :=
  match expectedBytes with
  | None => Ok None
  | Some n => if negb (isSafeInteger n) || (n <? 0) then Throw (RangeError "expectedBytes must be a non-negative safe integer") else Ok (Some n)
  end.
(** The loop that adds up the lengths. *)
Fixpoint total_length (maxBytes total : Z) (parts : list (list Z)) : res Z :=
  match parts with
  | [] => Ok total
  | part :: parts =>
      if maxBytes - total <? zlen part then Throw (RangeError "Concatenated bytes exceed maxBytes")
      else total_length maxBytes (total + zlen part) parts
  end.
(** [target.set(source, offset)] for a source that fits. *)
Definition set_bytes (target source : list Z) (offset : nat) : list Z := take offset target ++ source ++ drop (offset + length source) target.
Fixpoint set_parts (result : list Z) (offset : nat) (parts : list (list Z)) : list Z :=
  match parts with [] => result | part :: parts => set_parts (set_bytes result part offset) (offset + length part) parts end.
Definition concatBytes (parts : list (list Z)) (max : option Z) : res (list Z) :=
  maxBytes ← byteLimit max;
  total ← total_length maxBytes 0 parts;
  match parts with [part] => Ok part | _ => Ok (set_parts (replicate (Z.to_nat total) 0) 0 parts) end.

(** ** Collecting *)

Record CollectBytesConfig := { maxBytes : Z; expectedBytes : option Z }.
Definition collectBytesConfig (max expected : option Z) : res CollectBytesConfig :=
  m ← byteLimit max;
  e ← expectedByteLength expected;
  match e with
  | Some n => if m <? n then Throw (RangeError "expectedBytes must be less than or equal to maxBytes") else Ok {| maxBytes := m; expectedBytes := e |}
  | None => Ok {| maxBytes := m; expectedBytes := e |}
  end.
Record ByteCollection := { config : CollectBytesConfig; output : option (list Z); parts : list (list Z); total : Z }.
Definition startCollection (c : CollectBytesConfig) : ByteCollection :=
  {| config := c; output := (fun n => replicate (Z.to_nat n) 0) <$> expectedBytes c; parts := []; total := 0 |}.
Definition appendChunk (c : ByteCollection) (chunk : list Z) : res ByteCollection :=
  let limit := default (maxBytes (config c)) (expectedBytes (config c)) in
  if limit - total c <? zlen chunk then Throw (RangeError "Collected bytes exceed the limit")
  else Ok match output c with
  | None => {| config := config c; output := None; parts := parts c ++ [chunk]; total := total c + zlen chunk |}
  | Some o => {| config := config c; output := Some (set_bytes o chunk (Z.to_nat (total c))); parts := parts c; total := total c + zlen chunk |}
  end.
Definition finishCollection (c : ByteCollection) : res (list Z) :=
  if match expectedBytes (config c) with Some n => negb (total c =? n) | None => false end then Throw (RangeError "Collected bytes; expected other")
  else match output c with
  | Some o => Ok o
  | None =>
      match parts c with
      | [] => Ok []
      | [part] => Ok part
      | ps => concatBytes ps (Some (maxBytes (config c)))
      end
  end.

(** What one pull of the source answers. *)
Inductive pull :=
| Chunk (bytes : list Z)
| Failure (e : exn)
| Done.
(** One round: the signal when the pull starts, while it is pending and when the
    chunk has come, and the answer. *)
Record round := { aborted_before : bool; aborted_during : bool; aborted_after : bool; answer : pull }.
Definition throwIfAborted (aborted : bool) : res unit := if aborted then Throw AbortReason else Ok tt.
Definition pullWithSignal (r : round) : res (option (list Z)) :=
  throwIfAborted (aborted_before r);;
  if aborted_during r then Throw AbortReason
  else match answer r with Chunk b => Ok (Some b) | Failure e => Throw e | Done => Ok None end.
Fixpoint collect_loop (rounds : list round) (c : ByteCollection) : res ByteCollection :=
  match rounds with
  | [] => Throw Diverges
  | r :: rounds =>
      next ← pullWithSignal r;
      match next with
      | None => Ok c
      | Some chunk => throwIfAborted (aborted_after r);; c ← appendChunk c chunk; collect_loop rounds c
      end
  end.
(** The outcome and whether the iterator was closed. *)
Definition collectBytes (rounds : list round) (max expected : option Z) (aborted : bool) : res (list Z) * bool :=
  match (c ← collectBytesConfig max expected; throwIfAborted aborted;; Ok (startCollection c)) with
  | Throw e => (Throw e, false)
  | Ok c =>
      match collect_loop rounds c with
      | Throw e => (Throw e, true)
      | Ok c => (finishCollection c, false)
      end
  end.

(** ** Comparison *)

Fixpoint equal_loop (a b : list Z) : bool :=
  match a, b with
  | x :: a, y :: b => if negb (x =? y) then false else equal_loop a b
  | _, _ => true
  end.
Definition equalBytes (a b : list Z) : bool := if negb (zlen a =? zlen b) then false else equal_loop a b.
Definition timingSafeEqualBytes (a b : list Z) : bool :=
  let length_ := Nat.max (length a) (length b) in
  let different := if zlen a =? zlen b then 0 else 1 in
  foldl (fun d i => js_or d (js_xor (default 0 (a !! i)) (default 0 (b !! i)))) different (seq 0 length_) =? 0.

(** ** Base64 *)

Definition BASE64_CHARS : jsstring := js "ABCDEFGHIJKLMNOPQRSTUVWXYZabcdefghijklmnopqrstuvwxyz0123456789+/".
Definition base64_char (i : Z) : Z := default 0 (BASE64_CHARS !! Z.to_nat i).
Definition BASE64_DECODE : list Z :=
  <[61%nat := -2]> (foldl (fun t i => <[Z.to_nat (base64_char (Z.of_nat i)) := Z.of_nat i]> t) (replicate 256 (-1)) (seq 0 64)).

(** The four characters of a group of which [rem] bytes are there. *)
Definition group (b0 b1 b2 rem : Z) : jsstring :=
  [ base64_char (Z.shiftr b0 2);
    base64_char (Z.lor (Z.shiftl (Z.land b0 3) 4) (Z.shiftr b1 4));
    if 1 <? rem then base64_char (Z.lor (Z.shiftl (Z.land b1 15) 2) (Z.shiftr b2 6)) else 61;
    if 2 <? rem then base64_char (Z.land b2 63) else 61 ].
Fixpoint btoa_loop (str : jsstring) : jsstring :=
  match str with
  | [] => []
  | [b0] => group b0 0 0 1
  | [b0; b1] => group b0 b1 0 2
  | b0 :: b1 :: b2 :: rest => group b0 b1 b2 (zlen str) ++ btoa_loop rest
  end.
Definition btoa (data : jsstring) : res jsstring :=
  if existsb (fun u => 255 <? u) data then Throw (TypeError "btoa: The string to be encoded contains characters outside of the Latin1 range.")
  else Ok (btoa_loop data).

Definition is_ascii_space (u : Z) : bool := bool_decide (u ∈ [9; 10; 12; 13; 32]).
(** An entry of the table; [undefined] for characters past it fails every
    comparison and counts as zero. *)
Definition entry (c : Z) : option Z := BASE64_DECODE !! Z.to_nat c.
Definition below (v : option Z) : bool := match v with Some v => v <? 0 | None => false end.
Definition is_val (v : option Z) (k : Z) : bool := match v with Some v => v =? k | None => false end.
Definition bits (v : option Z) : Z := default 0 v.
(** The groups of four; the length is a multiple of four. *)
Fixpoint atob_loop (str : jsstring) : res jsstring :=
  match str with
  | c0 :: c1 :: c2 :: c3 :: rest =>
      let v0 := entry c0 in let v1 := entry c1 in let v2 := entry c2 in let v3 := entry c3 in
      if below v0 || below v1 || is_val v2 (-1) || is_val v3 (-1) || (is_val v2 (-2) && negb (is_val v3 (-2)))
      then Throw (TypeError "atob: The string to be decoded is not correctly encoded.")
      else
        out ← atob_loop rest;
        Ok (Z.lor (Z.shiftl (bits v0) 2) (Z.shiftr (bits v1) 4) ::
            (if is_val v2 (-2) then [] else [Z.lor (Z.shiftl (Z.land (bits v1) 15) 4) (Z.shiftr (bits v2) 2)]) ++
            (if is_val v3 (-2) then [] else [Z.lor (Z.shiftl (Z.land (bits v2) 3) 6) (bits v3)]) ++ out)
  | _ => Ok []
  end.
Definition atob (encodedData : jsstring) : res jsstring :=
  let str := base.filter (fun u => is_ascii_space u = false) encodedData in
  let rem := zlen str mod 4 in
  if rem =? 1 then Throw (TypeError "atob: The string to be decoded is not correctly encoded.")
  else atob_loop (if rem =? 2 then str ++ [61; 61] else if rem =? 3 then str ++ [61] else str).

(** ** Base64url *)

Definition replace_char (a b : Z) (s : jsstring) : jsstring := map (fun u => if u =? a then b else u) s.
(** [.replace(/=+$/g, '')] *)
Fixpoint drop_padding (r : jsstring) : jsstring := match r with u :: r' => if u =? 61 then drop_padding r' else r | [] => [] end.
Definition base64urlEncode (bytes : list Z) : res jsstring :=
  s ← btoa bytes;
  Ok (reverse (drop_padding (reverse (replace_char 47 95 (replace_char 43 45 s))))).
Definition is_base64url (u : Z) : bool :=
  ((65 <=? u) && (u <=? 90)) || ((97 <=? u) && (u <=? 122)) || ((48 <=? u) && (u <=? 57)) || (u =? 95) || (u =? 45).
Definition binaryToBytes (binary : jsstring) : list Z := map (fun u => u mod 256) binary.
Definition base64urlDecode (value : jsstring) : res (list Z) :=
  let invalid {A} : res A := Throw (JsError "Invalid base64url string") in
  if negb (forallb is_base64url value) then invalid
  else if zlen value mod 4 =? 1 then invalid
  else
    let padded := replace_char 95 47 (replace_char 45 43 value) ++ replicate (Z.to_nat ((4 - zlen value mod 4) mod 4)) 61 in
    match atob padded with
    | Throw _ => invalid
    | Ok binary =>
        let decoded := binaryToBytes binary in
        s ← base64urlEncode decoded;
        if bool_decide (s = value) then Ok decoded else invalid
    end.

(** [timingSafeEqualString], over [toBytes]. *)
Definition timingSafeEqualString (left right : jsstring) : bool :=
  timingSafeEqualBytes (Utf8.TextEncoder_encode left) (Utf8.TextEncoder_encode right).

(** ** Joining and collecting *)

Lemma set_parts_spec ps : forall (done : list Z) rest, length rest = length (concat ps) -> set_parts (done ++ rest) (length done) ps = done ++ concat ps.
Proof.
  induction ps as [|p ps IH]; intros done rest Hl; cbn [set_parts concat] in *.
  - destruct rest; [done|discriminate].
  - unfold set_bytes. rewrite take_app_length, drop_app_ge by lia. rewrite app_assoc, (app_assoc done p (concat ps)), <- length_app.
    apply IH. rewrite length_app in Hl. rewrite length_drop, ?length_app. lia.
Qed.
Lemma total_length_spec m ps : forall t, 0 <= t <= m -> total_length m t ps =
  if t + zlen (concat ps) <=? m then Ok (t + zlen (concat ps)) else Throw (RangeError "Concatenated bytes exceed maxBytes").
Proof.
  induction ps as [|p ps IH]; intros t Ht; cbn [total_length concat].
  - change (zlen []) with 0. rewrite Z.add_0_r. by replace (t <=? m) with true by lia.
  - rewrite zlen_app. pose proof (zlen_nonneg p). pose proof (zlen_nonneg (concat ps)). destruct (Z.ltb_spec (m - t) (zlen p)).
    + by replace (t + (zlen p + zlen (concat ps)) <=? m) with false by lia.
    + rewrite IH by lia. by rewrite Z.add_assoc.
Qed.
Lemma byteLimit_Some m : 0 <= m <= 2 ^ 53 - 1 -> byteLimit (Some m) = Ok m.
Proof.
  intros Hm. unfold byteLimit, isSafeInteger. change (default (2 ^ 53 - 1) (Some m)) with m.
  destruct (Z.leb_spec (Z.abs m) (2 ^ 53 - 1)); [|lia]. by destruct (Z.ltb_spec m 0); [lia|].
Qed.
Lemma concatBytes_spec ps m : 0 <= m <= 2 ^ 53 - 1 ->
  concatBytes ps (Some m) = if zlen (concat ps) <=? m then Ok (concat ps) else Throw (RangeError "Concatenated bytes exceed maxBytes").
Proof.
  intros Hm. unfold concatBytes. rewrite byteLimit_Some by done. cbn [mbind res_bind]. rewrite total_length_spec, !Z.add_0_l by lia.
  destruct (Z.leb_spec (zlen (concat ps)) m); cbn [mbind res_bind]; [|done].
  assert (Hs : set_parts (replicate (Z.to_nat (zlen (concat ps))) 0) 0 ps = concat ps).
  { apply (set_parts_spec ps []). by rewrite length_replicate, zlen_to_nat. }
  destruct ps as [|p [|q ps]]; [done|cbn [concat]; by rewrite app_nil_r|by rewrite Hs].
Qed.

Definition quiet (p : pull) : round := {| aborted_before := false; aborted_during := false; aborted_after := false; answer := p |}.
Definition limit (c : CollectBytesConfig) : Z := default (maxBytes c) (expectedBytes c).
(** What a collection holds after some chunks. *)
Definition collected (c : CollectBytesConfig) (cs : list (list Z)) : ByteCollection :=
  {| config := c; output := (fun n => concat cs ++ replicate (Z.to_nat n - length (concat cs)) 0) <$> expectedBytes c;
     parts := match expectedBytes c with None => cs | Some _ => [] end; total := zlen (concat cs) |}.
Lemma append_collected c cs chunk :
  appendChunk (collected c cs) chunk =
  if limit c <? zlen (concat (cs ++ [chunk])) then Throw (RangeError "Collected bytes exceed the limit") else Ok (collected c (cs ++ [chunk])).
Proof.
  unfold appendChunk. cbn [config collected total]. fold (limit c). rewrite concat_app, zlen_app. cbn [concat]. rewrite app_nil_r.
  replace (limit c - zlen (concat cs) <? zlen chunk) with (limit c <? zlen (concat cs) + zlen chunk) by (apply eq_true_iff_eq; rewrite !Z.ltb_lt; lia).
  destruct (Z.ltb_spec (limit c) (zlen (concat cs) + zlen chunk)) as [|Hl]; [done|]. unfold collected, limit in *. rewrite !concat_app. cbn [concat]. rewrite app_nil_r, zlen_app.
  destruct (expectedBytes c) as [n|]; cbn; [|done]. do 2 f_equal. f_equal. unfold set_bytes. rewrite zlen_to_nat, take_app_length, drop_app_ge by lia.
  rewrite drop_replicate. rewrite <- app_assoc. do 3 f_equal. rewrite length_app. lia.
Qed.
Lemma collect_loop_spec c cs : forall ds, zlen (concat ds) <= limit c -> collect_loop (map (fun b => quiet (Chunk b)) cs ++ [quiet Done]) (collected c ds) =
  if limit c <? zlen (concat (ds ++ cs)) then Throw (RangeError "Collected bytes exceed the limit") else Ok (collected c (ds ++ cs)).
Proof.
  induction cs as [|b cs IH]; intros ds Hd; cbn [map app].
  - rewrite app_nil_r. by replace (limit c <? zlen (concat ds)) with false by lia.
  - cbn [collect_loop]. change (pullWithSignal _) with (Ok (Some b) : res (option (list Z))). cbn [mbind res_bind]. change (throwIfAborted _) with (Ok tt : res unit).
    cbn [mbind res_bind]. rewrite append_collected. replace (ds ++ b :: cs) with ((ds ++ [b]) ++ cs) by (by rewrite <- app_assoc).
    destruct (Z.ltb_spec (limit c) (zlen (concat (ds ++ [b])))) as [Hlt|Hle]; cbn [mbind res_bind]; [|by apply IH].
    rewrite (concat_app (ds ++ [b])), zlen_app. pose proof (zlen_nonneg (concat cs)). by replace (limit c <? zlen (concat (ds ++ [b])) + zlen (concat cs)) with true by lia.
Qed.
Lemma config_limits max expected c : collectBytesConfig max expected = Ok c -> 0 <= maxBytes c <= 2 ^ 53 - 1 /\ (forall n, expectedBytes c = Some n -> 0 <= n <= maxBytes c).
Proof.
  unfold collectBytesConfig, byteLimit. intros (m & Hm & H)%res_bind_inv. apply res_bind_inv in H as (e & He & H).
  destruct (negb (isSafeInteger _) || _) eqn:Em in Hm; [done|]. injection Hm as <-. apply orb_false_iff in Em as [Em1 Em2]. unfold isSafeInteger in Em1.
  apply negb_false_iff, Z.leb_le in Em1. apply Z.ltb_ge in Em2. set (m := default _ max) in *.
  destruct e as [n|]; [|injection H as <-; cbn; split; [lia|done]]. destruct (Z.ltb_spec m n); [done|]. injection H as <-. cbn. split; [lia|]. intros n' [= <-].
  unfold expectedByteLength in He. destruct expected as [k|]; [|done]. destruct (negb (isSafeInteger k) || (k <? 0)) eqn:Ek; [done|]. injection He as <-.
  apply orb_false_iff in Ek as [_ Ek%Z.ltb_ge]. lia.
Qed.
(** A source that ends is collected whole when it keeps to the limits, and closed
    as soon as it exceeds them. *)
Theorem collectBytes_exact cs max expected c : collectBytesConfig max expected = Ok c ->
  collectBytes (map (fun b => quiet (Chunk b)) cs ++ [quiet Done]) max expected false =
  if limit c <? zlen (concat cs) then (Throw (RangeError "Collected bytes exceed the limit"), true)
  else if bool_decide (default (zlen (concat cs)) (expectedBytes c) = zlen (concat cs)) then (Ok (concat cs), false)
  else (Throw (RangeError "Collected bytes; expected other"), false).
Proof.
  intros Hc. destruct (config_limits _ _ _ Hc) as [Hm Hx]. unfold collectBytes. rewrite Hc. cbn [mbind res_bind throwIfAborted].
  assert (Hs : startCollection c = collected c []).
  { unfold startCollection, collected. destruct (expectedBytes c); cbn; [|done]. by rewrite Nat.sub_0_r. }
  assert (Hl : 0 <= limit c). { unfold limit. destruct (expectedBytes c) as [n|] eqn:E; cbn; [|lia]. specialize (Hx n). naive_solver lia. }
  rewrite Hs, (collect_loop_spec c cs []) by done. cbn [app]. destruct (Z.ltb_spec (limit c) (zlen (concat cs))) as [|Hle]; [done|].
  unfold finishCollection, limit, collected in *. cbn [config total output parts]. destruct (expectedBytes c) as [n|]; cbn [default fmap option_fmap option_map from_option id] in *.
  - case_bool_decide as E; [subst n|by replace (zlen (concat cs) =? n) with false by lia]. rewrite Z.eqb_refl. cbn [negb].
    rewrite zlen_to_nat, Nat.sub_diag. cbn. by rewrite app_nil_r.
  - rewrite bool_decide_eq_true_2 by done. destruct cs as [|b [|b' cs]]; [done|cbn; by rewrite app_nil_r|].
    rewrite concatBytes_spec by done. by replace (zlen (concat (b :: b' :: cs)) <=? maxBytes c) with true by lia.
Qed.

(** ** Comparison *)

Lemma js_or_zero a b : is_int 32 a -> is_int 32 b -> js_or a b = 0 <-> a = 0 /\ b = 0.
Proof. intros Ha Hb. unfold js_or. rewrite !toInt32_small by done. apply Z.lor_eq_0_iff. Qed.
Lemma int32_lor a b : is_int 32 a -> is_int 32 b -> is_int 32 (js_or a b).
Proof.
  intros Ha Hb. unfold js_or. rewrite !toInt32_small by done. unfold is_int in *. change (32 - 1) with 31 in *.
  split.
  - destruct (Z.leb_spec 0 (Z.lor a b)) as [|Hn]; [lia|].
    assert (H : forall x, - 2 ^ 31 <= x < 2 ^ 31 -> Z.shiftr x 31 = 0 \/ Z.shiftr x 31 = -1).
    { intros x Hx. rewrite Z.shiftr_div_pow2 by lia. destruct (Z.leb_spec 0 x); [left|right]; zdm. }
    assert (Hs : -1 <= Z.shiftr (Z.lor a b) 31). { rewrite Z.shiftr_lor. destruct (H a Ha) as [-> | ->], (H b Hb) as [-> | ->]; by vm_compute. }
    rewrite Z.shiftr_div_pow2 in Hs by lia. zdm.
  - destruct (Z.leb_spec 0 (Z.lor a b)) as [Hn|]; [|lia]. apply Z.lor_nonneg in Hn as [Ha' Hb'].
    destruct (Z.eq_dec (Z.lor a b) 0) as [->|]; [lia|]. apply Z.log2_lt_pow2; [pose proof (proj2 (Z.lor_nonneg a b) (conj Ha' Hb')); lia|].
    rewrite Z.log2_lor by done. apply Z.max_lub_lt; (destruct (Z.eq_dec a 0), (Z.eq_dec b 0); subst; cbn [Z.log2]; try lia; apply Z.log2_lt_pow2; lia).
Qed.
Lemma js_xor_bytes a b : is_byte a -> is_byte b -> is_int 32 (js_xor a b) /\ (js_xor a b = 0 <-> a = b).
Proof.
  intros Ha Hb. assert (H : forall x, is_byte x -> is_int 32 x) by (unfold is_byte, is_int; intros; lia). unfold js_xor. rewrite !toInt32_small by auto.
  split; [|apply Z.lxor_eq_0_iff]. unfold is_byte in *. assert (Hn : 0 <= Z.lxor a b) by (apply Z.lxor_nonneg; lia).
  assert (Hlt : Z.lxor a b < 2 ^ 8); [|unfold is_int; lia]. destruct (Z.eq_dec (Z.lxor a b) 0) as [->|]; [done|]. apply Z.log2_lt_pow2; [lia|].
  eapply Z.le_lt_trans; [apply Z.log2_lxor; lia|]. apply Z.max_lub_lt; (destruct (Z.eq_dec a 0), (Z.eq_dec b 0); subst; cbn [Z.log2]; try lia; apply Z.log2_lt_pow2; lia).
Qed.
Lemma difference_zero a b : Forall is_byte a -> Forall is_byte b -> forall l d, is_int 32 d ->
  foldl (fun d i => js_or d (js_xor (default 0 (a !! i)) (default 0 (b !! i)))) d l = 0 <-> d = 0 /\ Forall (fun i => default 0 (a !! i) = default 0 (b !! i)) l.
Proof.
  intros Ha Hb. assert (H : forall x i, Forall is_byte x -> is_byte (default 0 (x !! i))).
  { intros x i Hx. destruct (x !! i) eqn:E; [by eapply Forall_lookup_1|done]. }
  induction l as [|i l IH]; intros d Hd; cbn [foldl]; [rewrite Forall_nil; tauto|].
  destruct (js_xor_bytes _ _ (H a i Ha) (H b i Hb)) as [Hi Hz]. rewrite IH by (by apply int32_lor). rewrite js_or_zero, Forall_cons, Hz by done. tauto.
Qed.
Theorem timingSafeEqualBytes_spec a b : Forall is_byte a -> Forall is_byte b -> timingSafeEqualBytes a b = true <-> a = b.
Proof.
  intros Ha Hb. unfold timingSafeEqualBytes. rewrite Z.eqb_eq, difference_zero; [|done|done|by destruct (zlen a =? zlen b)].
  rewrite Forall_seq. split.
  - intros [Hl H]. destruct (Z.eqb_spec (zlen a) (zlen b)) as [El|]; [|done]. unfold zlen in El. apply list_eq_same_length with (length a); [lia|done|].
    intros i x y Hi Hx Hy. specialize (H i). rewrite Hx, Hy in H. apply H. lia.
  - intros ->. by rewrite Z.eqb_refl.
Qed.

(** ** Base64 *)

Definition is_base64 (u : Z) : Prop := u ∈ BASE64_CHARS.
Lemma base64_table i : 0 <= i < 64 -> entry (base64_char i) = Some i /\ is_base64 (base64_char i).
Proof.
  intros Hi. assert (H : forallb (fun n => bool_decide (entry (base64_char (Z.of_nat n)) = Some (Z.of_nat n) /\ is_base64 (base64_char (Z.of_nat n)))) (seq 0 64) = true) by by vm_compute.
  rewrite forallb_forall in H. specialize (H (Z.to_nat i)). rewrite bool_decide_eq_true, Z2Nat.id in H by lia. apply H, in_seq. lia.
Qed.
Lemma is_base64_facts u : is_base64 u -> u <> 61 /\ u <> 45 /\ u <> 95 /\ is_ascii_space u = false /\ is_base64url (if u =? 43 then 45 else if u =? 47 then 95 else u) = true.
Proof.
  intros Hu. assert (H : forallb (fun u => bool_decide (u <> 61 /\ u <> 45 /\ u <> 95 /\ is_ascii_space u = false /\ is_base64url (if u =? 43 then 45 else if u =? 47 then 95 else u) = true)) BASE64_CHARS = true) by by vm_compute.
  rewrite forallb_forall in H. apply list_elem_of_In, H in Hu. by apply bool_decide_eq_true in Hu.
Qed.
(** The digits of three bytes. *)
Lemma base64_digits b0 b1 b2 : is_byte b0 -> is_byte b1 -> is_byte b2 ->
  Z.shiftr b0 2 = b0 / 4 /\ Z.lor (Z.shiftl (Z.land b0 3) 4) (Z.shiftr b1 4) = b0 mod 4 * 16 + b1 / 16 /\
  Z.lor (Z.shiftl (Z.land b1 15) 2) (Z.shiftr b2 6) = b1 mod 16 * 4 + b2 / 64 /\ Z.land b2 63 = b2 mod 64.
Proof.
  unfold is_byte. intros H0 H1 H2. rewrite !Z.shiftr_div_pow2 by lia. change (2 ^ 2) with 4. change (2 ^ 4) with 16. change (2 ^ 6) with 64.
  rewrite (land_ones_mod _ 2 3), (land_ones_mod _ 4 15), (land_ones_mod _ 6 63) by done. change (2 ^ 2) with 4. change (2 ^ 4) with 16. change (2 ^ 6) with 64.
  split_and!; [done| | |done].
  - rewrite Z.lor_comm, (lor_disjoint_add _ _ 4) by zdm. lia.
  - rewrite Z.lor_comm, (lor_disjoint_add _ _ 2) by zdm. lia.
Qed.
Lemma base64_undigits b0 b1 b2 : is_byte b0 -> is_byte b1 -> is_byte b2 ->
  let v1 := b0 mod 4 * 16 + b1 / 16 in let v2 := b1 mod 16 * 4 + b2 / 64 in
  Z.lor (Z.shiftl (b0 / 4) 2) (Z.shiftr v1 4) = b0 /\ Z.lor (Z.shiftl (Z.land v1 15) 4) (Z.shiftr v2 2) = b1 /\ Z.lor (Z.shiftl (Z.land v2 3) 6) (b2 mod 64) = b2.
Proof.
  intros H0 H1 H2 v1 v2. unfold is_byte in *. rewrite !Z.shiftr_div_pow2 by lia. change (2 ^ 2) with 4. change (2 ^ 4) with 16.
  rewrite (land_ones_mod _ 2 3), (land_ones_mod _ 4 15) by done. change (2 ^ 2) with 4. change (2 ^ 4) with 16. subst v1 v2.
  replace ((b0 mod 4 * 16 + b1 / 16) / 16) with (b0 mod 4) by zdm. replace ((b0 mod 4 * 16 + b1 / 16) mod 16) with (b1 / 16) by zdm.
  replace ((b1 mod 16 * 4 + b2 / 64) / 4) with (b1 mod 16) by zdm. replace ((b1 mod 16 * 4 + b2 / 64) mod 4) with (b2 / 64) by zdm.
  split_and!; rewrite Z.lor_comm.
  - rewrite (lor_disjoint_add _ _ 2) by zdm. zdm.
  - rewrite (lor_disjoint_add _ _ 4) by zdm. zdm.
  - rewrite (lor_disjoint_add _ _ 6) by zdm. zdm.
Qed.
Lemma base64_digits_range b0 b1 b2 : is_byte b0 -> is_byte b1 -> is_byte b2 ->
  0 <= b0 / 4 < 64 /\ 0 <= b0 mod 4 * 16 + b1 / 16 < 64 /\ 0 <= b1 mod 16 * 4 + b2 / 64 < 64 /\ 0 <= b2 mod 64 < 64.
Proof. unfold is_byte. intros. zdm. Qed.
(** Groups of three. *)
Lemma triple_ind (P : list Z -> Prop) : P [] -> (forall a, P [a]) -> (forall a b, P [a; b]) -> (forall a b c l, P l -> P (a :: b :: c :: l)) -> forall l, P l.
Proof.
  intros H0 H1 H2 H3. fix IH 1. intros [|a [|b [|c l]]]; [done|done|done|]. apply H3, IH.
Qed.
Lemma btoa_shape s : Forall is_byte s -> exists p, btoa_loop s = p ++ replicate (Z.to_nat ((4 - zlen p mod 4) mod 4)) 61 /\ Forall is_base64 p /\ zlen p mod 4 <> 1.
Proof.
  induction s as [|a|a b|a b c s IH] using triple_ind; intros Hs.
  - exists []. split; [done|]. by split; [constructor|].
  - rewrite Forall_singleton in Hs. assert (H0 : is_byte 0) by done. cbn [btoa_loop]. unfold group.
    destruct (base64_digits a 0 0 Hs H0 H0) as (-> & -> & _). destruct (base64_digits_range a 0 0 Hs H0 H0) as (R0 & R1 & _).
    exists [base64_char (a / 4); base64_char (a mod 4 * 16 + 0 / 16)]. split; [done|]. split; [|done].
    repeat (apply Forall_cons_2; [by apply base64_table|]). apply Forall_nil_2.
  - rewrite !Forall_cons in Hs. destruct Hs as (Ha & Hb & _). assert (H0 : is_byte 0) by done. cbn [btoa_loop]. unfold group.
    destruct (base64_digits a b 0 Ha Hb H0) as (-> & -> & -> & _). destruct (base64_digits_range a b 0 Ha Hb H0) as (R0 & R1 & R2 & _).
    eexists [_; _; _]. split; [done|]. split; [|done]. repeat (apply Forall_cons_2; [by apply base64_table|]). apply Forall_nil_2.
  - rewrite !Forall_cons in Hs. destruct Hs as (Ha & Hb & Hc & Hs). destruct (IH Hs) as (p & E & Hp & Hn). cbn [btoa_loop]. unfold group.
    destruct (base64_digits a b c Ha Hb Hc) as (-> & -> & -> & ->). destruct (base64_digits_range a b c Ha Hb Hc) as (R0 & R1 & R2 & R3).
    assert (Hz : 2 < zlen (a :: b :: c :: s)) by (rewrite !zlen_cons; pose proof (zlen_nonneg s); lia).
    replace (1 <? _) with true by lia. replace (2 <? _) with true by lia. rewrite E. eexists (_ :: _ :: _ :: _ :: p).
    assert (Hm : forall w x y z, zlen (w :: x :: y :: z :: p) mod 4 = zlen p mod 4) by (intros; rewrite !zlen_cons; zdm).
    rewrite !Hm. split; [done|]. split; [|done]. repeat (constructor; [by apply base64_table|]). done.
Qed.
(** What the table has for the characters of a group, and what it decodes to. *)
Lemma group_entries a b c : is_byte a -> is_byte b -> is_byte c -> exists v0 v1 v2 v3, (0 <= v0 /\ 0 <= v1 /\ 0 <= v2 /\ 0 <= v3) /\
  (entry (base64_char (Z.shiftr a 2)) = Some v0 /\ entry (base64_char (Z.lor (Z.shiftl (Z.land a 3) 4) (Z.shiftr b 4))) = Some v1 /\
   entry (base64_char (Z.lor (Z.shiftl (Z.land b 15) 2) (Z.shiftr c 6))) = Some v2 /\ entry (base64_char (Z.land c 63)) = Some v3) /\
  Z.lor (Z.shiftl v0 2) (Z.shiftr v1 4) = a /\ Z.lor (Z.shiftl (Z.land v1 15) 4) (Z.shiftr v2 2) = b /\ Z.lor (Z.shiftl (Z.land v2 3) 6) v3 = c.
Proof.
  intros Ha Hb Hc. destruct (base64_digits a b c Ha Hb Hc) as (-> & -> & -> & ->). destruct (base64_digits_range a b c Ha Hb Hc) as (R0 & R1 & R2 & R3).
  do 4 eexists. split; [|split; [|exact (base64_undigits a b c Ha Hb Hc)]]; [lia|]. split_and!; by apply base64_table.
Qed.
Lemma entry_flags v : 0 <= v -> below (Some v) = false /\ is_val (Some v) (-1) = false /\ is_val (Some v) (-2) = false.
Proof. intros Hv. cbn. split_and!; lia. Qed.
Lemma atob_loop_btoa s : Forall is_byte s -> atob_loop (btoa_loop s) = Ok s.
Proof.
  assert (H0 : is_byte 0) by done. assert (Hpad : entry 61 = Some (-2)) by done.
  induction s as [|a|a b|a b c s IH] using triple_ind; rewrite ?Forall_cons; intros Hs; [done| | |].
  - destruct Hs as [Ha _]. destruct (group_entries a 0 0 Ha H0 H0) as (v0 & v1 & v2 & v3 & (P0 & P1 & _) & (E0 & E1 & _) & D0 & _).
    cbn [btoa_loop group Z.ltb Z.compare Pos.compare Pos.compare_cont atob_loop]. rewrite E0, E1, Hpad. destruct (entry_flags v0 P0) as (-> & _), (entry_flags v1 P1) as (-> & _).
    cbn -[Z.lor Z.shiftl Z.shiftr Z.land]. by rewrite D0.
  - destruct Hs as (Ha & Hb & _). destruct (group_entries a b 0 Ha Hb H0) as (v0 & v1 & v2 & v3 & (P0 & P1 & P2 & _) & (E0 & E1 & E2 & _) & D0 & D1 & _).
    cbn [btoa_loop group Z.ltb Z.compare Pos.compare Pos.compare_cont atob_loop]. rewrite E0, E1, E2, Hpad.
    destruct (entry_flags v0 P0) as (-> & _), (entry_flags v1 P1) as (-> & _), (entry_flags v2 P2) as (_ & -> & ->).
    cbn -[Z.lor Z.shiftl Z.shiftr Z.land]. by rewrite D0, D1.
  - destruct Hs as (Ha & Hb & Hc & Hs). destruct (group_entries a b c Ha Hb Hc) as (v0 & v1 & v2 & v3 & (P0 & P1 & P2 & P3) & (E0 & E1 & E2 & E3) & D0 & D1 & D2).
    cbn [btoa_loop]. unfold group. assert (Hz : 2 < zlen (a :: b :: c :: s)) by (rewrite !zlen_cons; pose proof (zlen_nonneg s); lia).
    replace (1 <? _) with true by lia. replace (2 <? _) with true by lia. cbn [app atob_loop]. rewrite E0, E1, E2, E3, (IH Hs).
    destruct (entry_flags v0 P0) as (-> & _), (entry_flags v1 P1) as (-> & _), (entry_flags v2 P2) as (_ & -> & ->), (entry_flags v3 P3) as (_ & -> & ->).
    cbn -[Z.lor Z.shiftl Z.shiftr Z.land]. by rewrite D0, D1, D2.
Qed.
Lemma base64_atob p k s : p ++ replicate k 61 = s -> Forall is_base64 p -> zlen s mod 4 = 0 -> atob s = atob_loop s.
Proof.
  intros <- Hp Hm. unfold atob. assert (Hf : base.filter (fun u => is_ascii_space u = false) (p ++ replicate k 61) = p ++ replicate k 61).
  { apply filter_all. intros u. rewrite elem_of_app. intros [Hu|Hu%elem_of_replicate_inv]; [|by subst]. rewrite Forall_forall in Hp. by apply is_base64_facts, Hp. }
  by rewrite Hf, Hm.
Qed.
Theorem atob_btoa s : Forall is_byte s -> btoa s = Ok (btoa_loop s) /\ atob (btoa_loop s) = Ok s.
Proof.
  intros Hs. split.
  - unfold btoa. destruct (existsb _ s) eqn:E; [|done]. apply existsb_exists in E as (u & Hu & Hlt). apply list_elem_of_In in Hu.
    rewrite Forall_forall in Hs. specialize (Hs u Hu). unfold is_byte in Hs. lia.
  - destruct (btoa_shape s Hs) as (p & E & Hp & Hn). rewrite (base64_atob p _ _ (eq_sym E) Hp); [by apply atob_loop_btoa|].
    rewrite E. rewrite zlen_app. unfold zlen at 2. rewrite length_replicate. pose proof (zlen_nonneg p). zdm.
Qed.

(** ** Base64url *)

Lemma drop_padding_app r k : drop_padding (replicate k 61 ++ r) = drop_padding r.
Proof. by induction k. Qed.
Lemma replace_back p : Forall is_base64 p -> replace_char 95 47 (replace_char 45 43 (replace_char 47 95 (replace_char 43 45 p))) = p.
Proof.
  intros Hp. unfold replace_char. rewrite !map_map. rewrite <- (map_id p) at 2. apply map_ext_in. intros u Hu%list_elem_of_In. rewrite Forall_forall in Hp.
  destruct (is_base64_facts u (Hp u Hu)) as (_ & N1 & N2 & _). repeat (case_match; rewrite ?Z.eqb_eq, ?Z.eqb_neq in *; try lia).
Qed.
Definition url_of (p : jsstring) : jsstring := replace_char 47 95 (replace_char 43 45 p).
Lemma replace_padding a b k p : a <> 61 -> replace_char a b (p ++ replicate k 61) = replace_char a b p ++ replicate k 61.
Proof. intros Ha. unfold replace_char. rewrite map_app. f_equal. induction k; [done|]. cbn [replicate map]. rewrite IHk. destruct (Z.eqb_spec 61 a); [lia|done]. Qed.
Lemma encode_shape b : Forall is_byte b -> exists p, Forall is_base64 p /\ zlen p mod 4 <> 1 /\
  base64urlEncode b = Ok (url_of p) /\ btoa_loop b = p ++ replicate (Z.to_nat ((4 - zlen p mod 4) mod 4)) 61.
Proof.
  intros Hb. destruct (btoa_shape b Hb) as (p & E & Hp & Hn). exists p. split; [done|]. split; [done|]. split; [|done].
  unfold base64urlEncode. rewrite (proj1 (atob_btoa b Hb)). cbn [mbind res_bind]. rewrite E, !replace_padding by done. fold (url_of p).
  rewrite reverse_app, reverse_replicate, drop_padding_app. f_equal.
  assert (Hd : forall r, Forall (fun u => u <> 61) r -> drop_padding r = r) by (intros [|u r]; [done|]; intros [Hu _]%Forall_cons; cbn in *; destruct (Z.eqb_spec u 61); [lia|done]).
  rewrite Hd; [by rewrite reverse_involutive|]. apply Forall_reverse. unfold url_of, replace_char. rewrite map_map. apply Forall_forall. intros v Hv.
  apply list_elem_of_In, in_map_iff in Hv as (u & <- & Hu%list_elem_of_In). rewrite Forall_forall in Hp. destruct (is_base64_facts u (Hp u Hu)) as (N & _).
  repeat case_match; lia.
Qed.
(** C23: unpadded base64url is a bijection between byte strings and the texts that
    [base64urlDecode] accepts: it decodes what [base64urlEncode] gives, and accepts
    nothing else. *)
Theorem base64url_canonical (value : jsstring) (bytes : list Z) :
  base64urlDecode value = Ok bytes <-> Forall is_byte bytes /\ base64urlEncode bytes = Ok value.
Proof.
  split.
  - unfold base64urlDecode. destruct (negb _); [done|]. destruct (_ =? 1); [done|]. destruct (atob _) as [binary|]; [|done].
    destruct (base64urlEncode (binaryToBytes binary)) as [s|e] eqn:E; cbn [mbind res_bind]; [|done]. case_bool_decide; [|done]. intros [= <-]. subst s. split; [|done].
    unfold binaryToBytes. apply Forall_map, Forall_forall. intros u _. unfold is_byte. cbn. zdm.
  - intros [Hb E]. destruct (encode_shape bytes Hb) as (p & Hp & Hn & E' & Hbt). rewrite E' in E. injection E as <-. unfold base64urlDecode.
    assert (Hu : forallb is_base64url (url_of p) = true).
    { apply forallb_forall. unfold url_of, replace_char. rewrite map_map. intros v (u & <- & Hu%list_elem_of_In)%in_map_iff. rewrite Forall_forall in Hp.
      destruct (is_base64_facts u (Hp u Hu)) as (_ & _ & _ & _ & H). revert H. by repeat case_match; rewrite ?Z.eqb_eq, ?Z.eqb_neq in *; subst. }
    rewrite Hu. assert (Hl : zlen (url_of p) = zlen p) by (unfold url_of, replace_char, zlen; by rewrite !length_map). rewrite Hl. cbn [negb].
    destruct (Z.eqb_spec (zlen p mod 4) 1) as [|_]; [done|]. unfold url_of at 1. rewrite replace_back by done. rewrite <- Hbt, (proj2 (atob_btoa bytes Hb)).
    assert (Hm : binaryToBytes bytes = bytes).
    { unfold binaryToBytes. rewrite <- (map_id bytes) at 2. apply map_ext_in. intros u Hu'%list_elem_of_In. rewrite Forall_forall in Hb. specialize (Hb u Hu').
      unfold is_byte in Hb. by rewrite Z.mod_small. }
    rewrite Hm, E'. cbn [mbind res_bind]. by rewrite bool_decide_eq_true_2.
Qed.
(** [timingSafeEqualString] tells strings apart up to lone surrogates. *)
Theorem timingSafeEqualString_spec (left right : jsstring) : Forall Utf8.is_unit left -> Forall Utf8.is_unit right ->
  timingSafeEqualString left right = true <-> Utf8.toWellFormed left = Utf8.toWellFormed right.
Proof.
  intros Hl Hr. unfold timingSafeEqualString, Utf8.TextEncoder_encode. rewrite timingSafeEqualBytes_spec by (by apply Utf8.encodeUtf8_bytes). split; intros H.
  - apply (f_equal (fun b => Utf8.decodeUtf8 b false false)) in H. rewrite !Utf8.decodeUtf8_encode in H by done. congruence.
  - rewrite !Utf8.encodeUtf8_spec. by rewrite <- (Utf8.code_points_repaired left), H, Utf8.code_points_repaired.
Qed.

(** ** Where [atob] departs from its description *)

(** Characters past the table count as zeros, and padding may stand inside. *)
Lemma atob_accepts_other_characters : atob [256; 256; 256; 256] = Ok [0; 0; 0].
Proof. done. Qed.
Lemma atob_accepts_inner_padding : atob (js "AA==AA==") = Ok [0; 0].
Proof. done. Qed.
End Bytes.
