(* ===== verification/TextDecoder.v ===== *)
(** Streaming text decoding: [TextDecoder] and [encodeInto] of
    src/js/globals/encoding.ts, and [decodeText] of src/js/internal/stream/text.ts.

    The errors of malformed UTF-16, whose messages tell positions, are one.
    A decoder is a record of its fields; [decode] gives the text or the error, and
    the decoder after it.  UTF-8 is decoded by [Utf8.decodeUtf8], as in the source. *)

From S2P Require Import Prelude Utf8.

Module TextDecoder.

Inductive TextDecoderEncoding := utf_8 | utf_16le | utf_16be.
#[global] Instance TextDecoderEncoding_eq_dec : EqDecision TextDecoderEncoding.
Proof. solve_decision. Defined.

(** ** UTF-16 *)

Definition readUnit (littleEndian : bool) (a b : Z) : Z :=
  if littleEndian then Z.lor a (Z.shiftl b 8) else Z.lor (Z.shiftl a 8) b.
Definition malformed16 : exn := TypeError "TextDecoder: malformed UTF-16".
(** The loop at an unread suffix: the text and the lead surrogate held back. *)
Fixpoint utf16_loop (littleEndian fatal skipBom streaming first : bool) (bytes : list Z) : res (jsstring * option Z) :=
  match bytes with
  | [] => Ok ([], None)
  | [_] => if fatal then Throw malformed16 else Ok ([65533], None)
  | a :: b :: rest =>
      let unit := readUnit littleEndian a b in
      if first && skipBom && (unit =? 65279) then utf16_loop littleEndian fatal skipBom streaming false rest
      else if Utf8.is_hi unit then
        match rest with
        | c :: d :: rest' =>
            let trail := readUnit littleEndian c d in
            if Utf8.is_lo trail then
              '(out, p) ← utf16_loop littleEndian fatal skipBom streaming false rest'; Ok (unit :: trail :: out, p)
            else if fatal then Throw malformed16
            else '(out, p) ← utf16_loop littleEndian fatal skipBom streaming false rest; Ok (65533 :: out, p)
        | _ =>
            if streaming then Ok ([], Some unit)
            else if fatal then Throw malformed16 else Ok ([65533], None)
        end
      else if Utf8.is_lo unit then
        if fatal then Throw malformed16
        else '(out, p) ← utf16_loop littleEndian fatal skipBom streaming false rest; Ok (65533 :: out, p)
      else '(out, p) ← utf16_loop littleEndian fatal skipBom streaming false rest; Ok (unit :: out, p)
  end.
Definition decodeUtf16 (bytes : list Z) (littleEndian fatal skipBom streaming : bool) (pendingLead : option Z) : res (jsstring * option Z) :=
  match pendingLead with
  | None => utf16_loop littleEndian fatal skipBom streaming true bytes
  | Some lead =>
      match bytes with
      | a :: b :: rest =>
          let trail := readUnit littleEndian a b in
          if Utf8.is_lo trail then
            '(out, p) ← utf16_loop littleEndian fatal skipBom streaming true rest; Ok (lead :: trail :: out, p)
          else if fatal then Throw malformed16
          else '(out, p) ← utf16_loop littleEndian fatal skipBom streaming true bytes; Ok (65533 :: out, p)
      | _ =>
          if streaming then Ok ([], pendingLead)
          else if fatal then Throw malformed16 else Ok ([65533], None)
      end
  end.

(** ** The incomplete end of a UTF-8 chunk *)

Definition sequence_length (b : Z) : option nat :=
  if (194 <=? b) && (b <=? 223) then Some 2%nat
  else if (224 <=? b) && (b <=? 239) then Some 3%nat
  else if (240 <=? b) && (b <=? 244) then Some 4%nat
  else None.
(** The loop over the continuation bytes that are there. *)
Definition valid_prefix (b : Z) (conts : list Z) : bool :=
  forallb (fun c => Z.land c 192 =? 128) conts &&
  match conts with
  | c :: _ => negb (((b =? 224) && (c <? 160)) || ((b =? 237) && (159 <? c)) || ((b =? 240) && (c <? 144)) || ((b =? 244) && (143 <? c)))
  | [] => true
  end.
Fixpoint find_incomplete (start : nat) (suffix : list Z) : nat :=
  match suffix with
  | [] => start
  | b :: conts =>
      match sequence_length b with
      | None => find_incomplete (S start) conts
      | Some seqLen =>
          if (seqLen <=? length suffix)%nat then find_incomplete (S start) conts
          else if valid_prefix b conts then start
          else find_incomplete (S start) conts
      end
  end.
Definition _findIncompleteEnd (bytes : list Z) : nat :=
  let start := (length bytes - 3)%nat in find_incomplete start (drop start bytes).

(** ** The decoder *)

Record t := {
  encoding : TextDecoderEncoding;
  fatal : bool;
  ignoreBOM : bool;
  pending : option (list Z);
  pendingUtf16Lead : option Z;
  bomHandled : bool;
}.
Definition set_state (p : option (list Z)) (l : option Z) (h : bool) (d : t) : t :=
  {| encoding := encoding d; fatal := fatal d; ignoreBOM := ignoreBOM d; pending := p; pendingUtf16Lead := l; bomHandled := h |}.

Definition is_ascii_white (c : Z) : bool := bool_decide (c ∈ [9; 10; 12; 13; 32]).
Fixpoint trim_left (label : jsstring) : jsstring := match label with c :: rest => if is_ascii_white c then trim_left rest else label | [] => [] end.
Definition _trimAsciiWhitespace (label : jsstring) : jsstring := reverse (trim_left (reverse (trim_left label))).
(** [toLowerCase], as far as the labels can tell. *)
Definition toLowerCase (s : jsstring) : jsstring := map (fun c => if (65 <=? c) && (c <=? 90) then c + 32 else c) s.
Definition UTF8_LABELS : list jsstring := map js ["unicode-1-1-utf-8"; "unicode11utf8"; "unicode20utf8"; "utf-8"; "utf8"; "x-unicode20utf8"]%string.
Definition UTF16LE_LABELS : list jsstring := map js ["utf-16"; "utf-16le"]%string.
Definition UTF16BE_LABELS : list jsstring := map js ["utf-16be"]%string.
Definition _normaliseDecoderLabel (label : jsstring) : option TextDecoderEncoding :=
  let normalised := toLowerCase (_trimAsciiWhitespace label) in
  if bool_decide (normalised ∈ UTF8_LABELS) then Some utf_8
  else if bool_decide (normalised ∈ UTF16LE_LABELS) then Some utf_16le
  else if bool_decide (normalised ∈ UTF16BE_LABELS) then Some utf_16be
  else None.
Definition make (e : TextDecoderEncoding) (fatal ignoreBOM : bool) : t :=
  {| encoding := e; fatal := fatal; ignoreBOM := ignoreBOM; pending := None; pendingUtf16Lead := None; bomHandled := false |}.
Definition constructor (label : jsstring) (fatal ignoreBOM : bool) : res t :=
  match _normaliseDecoderLabel label with
  | None => Throw (RangeError "TextDecoder: unsupported encoding")
  | Some e => Ok (make e fatal ignoreBOM)
  end.

(** Where the incomplete end that is held back starts. *)
Definition completeEnd (e : TextDecoderEncoding) (bytes : list Z) : nat :=
  match e with
  | utf_8 => _findIncompleteEnd bytes
  | _ => if zlen bytes mod 2 =? 1 then (length bytes - 1)%nat else length bytes
  end.
Definition decode (chunk : list Z) (streaming : bool) (d : t) : res jsstring * t :=
  let bytes := default [] (pending d) ++ chunk in
  let e := if streaming then completeEnd (encoding d) bytes else length bytes in
  let pending := if (e <? length bytes)%nat then Some (drop e bytes) else None in
  let bytes := take e bytes in
  if bool_decide (bytes = []) then
    if streaming then (Ok [], set_state pending (pendingUtf16Lead d) (bomHandled d) d)
    else match pendingUtf16Lead d with
    | Some lead =>
        if fatal d then (Throw malformed16, set_state pending (Some lead) (bomHandled d) d)
        else (Ok [65533], set_state pending None false d)
    | None => (Ok [], set_state pending None false d)
    end
  else
    let shouldStripBom := negb (ignoreBOM d) && negb (bomHandled d) in
    match encoding d with
    | utf_8 =>
        match Utf8.decodeUtf8 bytes (fatal d) shouldStripBom with
        | Ok text => (Ok text, set_state pending (pendingUtf16Lead d) streaming d)
        | Throw err => (Throw err, set_state None (pendingUtf16Lead d) streaming d)
        end
    | _ =>
        match decodeUtf16 bytes (bool_decide (encoding d = utf_16le)) (fatal d) shouldStripBom streaming (pendingUtf16Lead d) with
        | Ok (text, lead) => (Ok text, set_state pending lead streaming d)
        | Throw err => (Throw err, set_state None None streaming d)
        end
    end.

(** [decodeText]: the chunks of text that are yielded, and the error that ends them. *)
Fixpoint decodeText_loop (chunks : list (list Z)) (d : t) : list jsstring * option exn :=
  match chunks with
  | [] =>
      match decode [] false d with
      | (Ok tail, _) => (if bool_decide (tail = []) then [] else [tail], None)
      | (Throw e, _) => ([], Some e)
      end
  | chunk :: chunks =>
      match decode chunk true d with
      | (Ok text, d) => let '(rest, e) := decodeText_loop chunks d in ((if bool_decide (text = []) then [] else [text]) ++ rest, e)
      | (Throw e, _) => ([], Some e)
      end
  end.
Definition decodeText (chunks : list (list Z)) (label : jsstring) (fatal ignoreBOM : bool) : list jsstring * option exn :=
  match constructor label fatal ignoreBOM with
  | Throw e => ([], Some e)
  | Ok d => decodeText_loop chunks d
  end.

(** ** [TextEncoder.encodeInto] *)

(** The code units read and the bytes written so far. *)
Fixpoint encodeInto_loop (room read : nat) (written : list Z) (input : jsstring) : nat * list Z :=
  match input with
  | [] => (read, written)
  | u :: rest =>
      if Utf8.is_hi u then
        match rest with
        | lo :: rest' =>
            if Utf8.is_lo lo then
              let cp := 65536 + Z.shiftl (u - 55296) 10 + (lo - 56320) in
              if (room <? length written + length (Utf8.encode_cp cp))%nat then (read, written)
              else encodeInto_loop room (read + 2) (written ++ Utf8.encode_cp cp) rest'
            else if (room <? length written + length (Utf8.encode_cp 65533))%nat then (read, written)
            else encodeInto_loop room (read + 1) (written ++ Utf8.encode_cp 65533) rest
        | [] =>
            if (room <? length written + length (Utf8.encode_cp 65533))%nat then (read, written)
            else encodeInto_loop room (read + 1) (written ++ Utf8.encode_cp 65533) rest
        end
      else
        let cp := if Utf8.is_lo u then 65533 else u in
        if (room <? length written + length (Utf8.encode_cp cp))%nat then (read, written)
        else encodeInto_loop room (read + 1) (written ++ Utf8.encode_cp cp) rest
  end.
Definition encodeInto (input : jsstring) (room : nat) : nat * list Z := encodeInto_loop room 0 [] input.

(** ** UTF-8: where a text can be split *)

Lemma decode_loop_fuel f sk bytes : forall fuel fuel' first, (length bytes <= fuel)%nat -> (length bytes <= fuel')%nat ->
  Utf8.decode_loop fuel f sk first bytes = Utf8.decode_loop fuel' f sk first bytes.
Proof.
  remember (length bytes) as n eqn:En. revert bytes En. induction n as [n IH] using lt_wf_ind. intros [|b0 tail] -> fuel fuel' first H1 H2; [by destruct fuel, fuel'|].
  destruct fuel as [|fuel]; [cbn in H1; lia|]. destruct fuel' as [|fuel']; [cbn in H2; lia|]. cbn [Utf8.decode_loop].
  destruct (Utf8.decode_step_outcome f sk first b0 tail) as [(chunk & k & g & -> & Hk)|[_ ->]]; [|done]. cbn [mbind res_bind].
  erewrite (IH (length (drop (Z.to_nat k) (b0 :: tail)))); [done|rewrite length_drop; cbn; lia|done| |]; rewrite length_drop; cbn in *; lia.
Qed.
Definition loop8 (f sk first : bool) (bytes : list Z) : res jsstring := Utf8.decode_loop (length bytes) f sk first bytes.
Lemma loop8_cons f sk first b0 tail :
  loop8 f sk first (b0 :: tail) = ('(chunk, n, first') ← Utf8.decode_step f sk first b0 tail; rest ← loop8 f sk first' (drop (Z.to_nat n) (b0 :: tail)); mret (chunk ++ rest)).
Proof.
  unfold loop8 at 1. cbn [length Utf8.decode_loop]. destruct (Utf8.decode_step_outcome f sk first b0 tail) as [(chunk & k & g & -> & Hk)|[_ ->]]; [|done]. cbn [mbind res_bind].
  unfold loop8. erewrite decode_loop_fuel; [done| |done]. rewrite length_drop. cbn. lia.
Qed.
Lemma decodeUtf8_loop bytes f sk : Utf8.decodeUtf8 bytes f sk = loop8 f sk true bytes.
Proof.
  unfold Utf8.decodeUtf8. destruct (negb f && sk && _) eqn:E; [|done]. rewrite !andb_true_iff in E. destruct E as [[Hf ->] E]. apply negb_true_iff in Hf as ->.
  generalize true at 2 as first. induction bytes as [|b bytes IH]; intros first; [done|]. cbn in E. apply andb_true_iff in E as [Eb E]. rewrite loop8_cons.
  unfold Utf8.decode_step, Utf8.lead. rewrite Eb. cbn [Z.leb Z.compare Pos.compare Pos.compare_cont andb]. change (Z.to_nat (1 - 1)) with 0%nat. cbn [Utf8.continuation].
  assert (Hb : Utf8.bad_code_point 1 b = false) by (unfold Utf8.bad_code_point; lia). rewrite Hb.
  assert (Hc : Utf8.from_code_point b = [b]) by (unfold Utf8.from_code_point; by replace (b <? 65536) with true by lia).
  destruct (first && true && (b =? 65279)) eqn:Ef; [rewrite !andb_true_iff in Ef; lia|]. rewrite Hc. cbn [mbind res_bind]. change (drop (Z.to_nat 1) (b :: bytes)) with bytes.
  by rewrite <- (IH E false).
Qed.

(** A sequence whose bytes all are there up to the end, but not all that it needs. *)
Definition incomplete (s : list Z) : bool :=
  match s with
  | [] => false
  | b :: conts => match sequence_length b with Some n => negb (n <=? length s)%nat && valid_prefix b conts | None => false end
  end.
Definition split_ok (a b : list Z) : Prop :=
  (exists l b', b = l :: b' /\ Z.land l 192 <> 128) \/ forall s1 s2, a = s1 ++ s2 -> incomplete s2 = false.
(** Lead bytes that no well-formed text has; [Utf8.decodeUtf8] reads the bytes that
    follow them as their continuation. *)
Definition stray_lead (b : Z) : Prop := b ∈ [192; 193; 245; 246; 247].
#[global] Instance stray_lead_dec b : Decision (stray_lead b).
Proof. unfold stray_lead. apply _. Defined.
Lemma lead_sequence b c n : is_byte b -> Utf8.lead b = Some (c, n) -> n = 1 \/ stray_lead b \/ sequence_length b = Some (Z.to_nat n).
Proof.
  intros Hb. assert (H : forallb (fun b => match Utf8.lead b with Some (c, n) => bool_decide (n = 1 \/ stray_lead b \/ sequence_length b = Some (Z.to_nat n)) | None => true end) (seqZ 0 256) = true) by by vm_compute.
  pose proof (byte_forallb _ H b Hb) as Hl. cbn beta in Hl. intros E. rewrite E in Hl. by apply bool_decide_eq_true in Hl.
Qed.
(** Reading continuation bytes from a prefix of the rest. *)
Lemma continuation_app n j c tail b :
  Utf8.continuation n j c (tail ++ b) = match Utf8.continuation n j c tail with
  | Utf8.MissingContinuation => Utf8.continuation n j c (tail ++ b) | r => r end.
Proof.
  revert j c tail. induction n as [|n IH]; intros j c [|x tail]; [done|done|done|]. cbn [app Utf8.continuation]. destruct (negb _); [done|]. apply IH.
Qed.
Lemma continuation_missing n : forall j c tail, Utf8.continuation n j c tail = Utf8.MissingContinuation -> (length tail < n)%nat /\ forallb (fun c => Z.land c 192 =? 128) tail = true /\
  (forall l b', Z.land l 192 <> 128 -> Utf8.continuation n j c (tail ++ l :: b') = Utf8.InvalidContinuation (j + zlen tail)).
Proof.
  induction n as [|n IH]; intros j c [|x tail]; cbn [Utf8.continuation app]; [done|done| |].
  - intros _. split; [cbn; lia|]. split; [done|]. intros l b' Hl. replace (Z.land l 192 =? 128) with false by lia. cbn. f_equal. unfold zlen. cbn. lia.
  - destruct (Z.land x 192 =? 128) eqn:Ex; cbn [negb]; [|done]. intros (Hl & Hf & Hi)%IH. split; [cbn; lia|]. split; [cbn; by rewrite Ex|].
    intros l b' Hlb. rewrite Hi by done. f_equal. rewrite zlen_cons. lia.
Qed.
Lemma continuation_valid n j c tail cp : Utf8.continuation (S n) j c tail = Utf8.Valid cp ->
  exists x tail', tail = x :: tail' /\ Utf8.continuation n (j + 1) (c * 64 + x mod 64) tail' = Utf8.Valid cp.
Proof.
  destruct tail as [|x tail]; cbn [Utf8.continuation]; [done|]. destruct (negb _); [done|]. rewrite Utf8.shift6. eauto.
Qed.
Lemma stray_bad b c n tail cp : is_byte b -> stray_lead b -> Utf8.lead b = Some (c, n) -> Utf8.continuation (Z.to_nat (n - 1)) 1 c tail = Utf8.Valid cp -> Utf8.bad_code_point n cp = true.
Proof.
  intros Hb Hs Hl Hc. assert (H : n = 2 /\ 0 <= c <= 1 \/ n = 4 /\ 5 <= c <= 7).
  { unfold stray_lead in Hs. rewrite !elem_of_cons in Hs. destruct Hs as [->|[->|[->|[->|[->|[]%elem_of_nil]]]]]; vm_compute in Hl; injection Hl as <- <-; lia. }
  destruct H as [[-> H]|[-> H]].
  - apply (continuation_valid 0) in Hc as (x & t1 & _ & Hc). injection Hc as <-. unfold Utf8.bad_code_point. zdm.
  - apply (continuation_valid 2) in Hc as (x & t1 & _ & Hc). apply continuation_valid in Hc as (y & t2 & _ & Hc). apply continuation_valid in Hc as (z & t3 & _ & Hc).
    injection Hc as <-. unfold Utf8.bad_code_point. zdm.
Qed.
Lemma second_prefix b0 x tail n : (Z.land x 192 =? 128) = true -> 3 <= n -> (3 <=? n) && Utf8.invalidSecond b0 x = false ->
  forallb (fun c => Z.land c 192 =? 128) (x :: tail) = true -> valid_prefix b0 (x :: tail) = true.
Proof.
  intros Hx Hn Hi Hf. unfold valid_prefix. rewrite Hf. cbn [andb]. replace (3 <=? n) with true in Hi by lia. cbn [andb] in Hi. unfold Utf8.invalidSecond in Hi.
  rewrite Hx in Hi. cbn [andb] in Hi. by rewrite Hi.
Qed.
(** A step does not look past the end of a part that may be split off. *)
Lemma step_agrees f sk first b0 tail b : is_byte b0 -> (f = true \/ ~ stray_lead b0) ->
  ((exists l b', b = l :: b' /\ Z.land l 192 <> 128) \/ incomplete (b0 :: tail) = false) ->
  Utf8.decode_step f sk first b0 (tail ++ b) = Utf8.decode_step f sk first b0 tail.
Proof.
  intros Hb Hst Hs. destruct b as [|l b']; [by rewrite app_nil_r|].
  unfold Utf8.decode_step. destruct (Utf8.lead b0) as [[c n]|] eqn:El; [|done].
  pose proof (lead_sequence _ _ _ Hb El) as Hn. pose proof (Utf8.lead_length _ _ _ El) as Hn4.
  assert (Hlong : Utf8.continuation (Z.to_nat (n - 1)) 1 c tail <> Utf8.MissingContinuation -> Utf8.continuation (Z.to_nat (n - 1)) 1 c (tail ++ l :: b') = Utf8.continuation (Z.to_nat (n - 1)) 1 c tail).
  { intros Hm. rewrite continuation_app. by destruct (Utf8.continuation _ _ _ tail). }
  assert (Hmiss : (3 <=? n) && match tail with b1 :: _ => Utf8.invalidSecond b0 b1 | [] => false end = false ->
    Utf8.continuation (Z.to_nat (n - 1)) 1 c tail = Utf8.MissingContinuation -> Z.land l 192 <> 128 \/ f = true /\ stray_lead b0).
  { intros Hi Hm. destruct (continuation_missing _ _ _ _ Hm) as (Hlen & Hf & _). destruct Hs as [(l' & b2 & [= <- <-] & Hl)|Hinc]; [by left|right].
    destruct Hn as [->|[Hst'|Hseq]]; [cbn in Hlen; lia|by destruct Hst|exfalso]. unfold incomplete in Hinc. rewrite Hseq in Hinc.
    replace (Z.to_nat n <=? length (b0 :: tail))%nat with false in Hinc by (symmetry; apply Nat.leb_gt; cbn [length]; lia). cbn [negb andb] in Hinc.
    destruct tail as [|x tail]; [done|]. rewrite (second_prefix b0 x tail n) in Hinc; [done| |cbn in Hlen; lia|done|done]. cbn in Hf. by apply andb_true_iff in Hf as [? _]. }
  destruct ((3 <=? n) && match tail with b1 :: _ => _ | [] => _ end) eqn:Ei.
  { destruct tail as [|x tail]; [by rewrite andb_false_r in Ei|]. cbn [app]. by rewrite Ei. }
  destruct (Utf8.continuation (Z.to_nat (n - 1)) 1 c tail) as [cp| |j] eqn:Ec.
  1,3: assert (Ei' : (3 <=? n) && match tail ++ l :: b' with b1 :: _ => Utf8.invalidSecond b0 b1 | [] => false end = false);
    [destruct tail as [|x tail]; [|done]; destruct (Z.to_nat (n - 1)) eqn:En; [|done]; by replace (3 <=? n) with false by lia|]; by rewrite Ei', Hlong by done.
  destruct (Hmiss eq_refl eq_refl) as [Hl|[-> Hst']].
  - assert (Ei' : (3 <=? n) && match tail ++ l :: b' with b1 :: _ => Utf8.invalidSecond b0 b1 | [] => false end = false).
    { destruct tail as [|x tail]; [|done]. cbn. unfold Utf8.invalidSecond. replace (Z.land l 192 =? 128) with false by lia. by rewrite andb_false_r. }
    rewrite Ei'. destruct (continuation_missing _ _ _ _ Ec) as (_ & _ & Hi). rewrite Hi by done. by rewrite zlen_cons.
  - match goal with |- (if ?x then _ else _) = _ => destruct x end; [done|]. pose proof (stray_bad b0 c n (tail ++ l :: b')) as Hbad.
    destruct (Utf8.continuation _ _ _ (tail ++ _)) as [cp| |]; [|done|done]. by rewrite (Hbad cp).
Qed.
Lemma continuation_bound n : forall j c tail, match Utf8.continuation n j c tail with
  | Utf8.Valid _ => (n <= length tail)%nat | Utf8.MissingContinuation => True | Utf8.InvalidContinuation k => k < j + zlen tail end.
Proof.
  induction n as [|n IH]; intros j c [|x tail]; cbn [Utf8.continuation]; [cbn; lia|cbn; lia|done|]. pose proof (zlen_nonneg tail).
  destruct (negb _); [rewrite zlen_cons; lia|]. specialize (IH (j + 1) (Z.lor (Z.shiftl c 6) (Z.land x 63)) tail).
  destruct (Utf8.continuation _ _ _ _); [cbn; lia|done|rewrite zlen_cons; lia].
Qed.
Lemma step_consumes f sk first b0 tail chunk n g : Utf8.decode_step f sk first b0 tail = Ok (chunk, n, g) -> 1 <= n <= zlen (b0 :: tail).
Proof.
  intros H. split; [destruct (Utf8.decode_step_outcome f sk first b0 tail) as [(? & ? & ? & E & ?)|[_ E]]; rewrite E in H; [injection H as <- <- <-; lia|done]|].
  revert H. unfold Utf8.decode_step. rewrite zlen_cons. pose proof (zlen_nonneg tail). destruct (Utf8.lead b0) as [[c m]|] eqn:El; [|destruct f; [done|]; intros [= <- <- <-]; lia].
  pose proof (Utf8.lead_length _ _ _ El). match goal with |- (if ?x then _ else _) = _ -> _ => destruct x end; [destruct f; [done|]; intros [= <- <- <-]; lia|].
  pose proof (continuation_bound (Z.to_nat (m - 1)) 1 c tail) as Hb. destruct (Utf8.continuation _ _ _ _) as [cp| |k].
  - assert (m <= 1 + zlen tail) by (unfold zlen; lia). destruct (Utf8.bad_code_point m cp); [destruct f; [done|]; intros [= <- <- <-]; lia|].
    destruct (first && sk && _); intros [= <- <- <-]; lia.
  - destruct f; [done|]. intros [= <- <- <-]. lia.
  - destruct f; [done|]. intros [= <- <- <-]. lia.
Qed.
Lemma loop8_any f x g g' : loop8 f false g x = loop8 f false g' x.
Proof.
  remember (length x) as n eqn:En. revert x En g g'. induction n as [n IH] using lt_wf_ind. intros [|b0 tail] -> g g'; [done|]. rewrite !loop8_cons.
  assert (E : forall g, (Utf8.decode_step f false g b0 tail ≫= fun '(c, m, _) => Ok (c, m)) = (Utf8.decode_step f false true b0 tail ≫= fun '(c, m, _) => Ok (c, m))).
  { intros h. unfold Utf8.decode_step. rewrite !andb_false_r. cbn [andb]. by repeat (case_match; try done). }
  pose proof (eq_trans (E g) (eq_sym (E g'))) as E'. destruct (Utf8.decode_step f false g b0 tail) as [[[c m] h]|e] eqn:E1, (Utf8.decode_step f false g' b0 tail) as [[[c' m'] h']|e'];
    cbn [mbind res_bind] in *; try congruence. injection E' as <- <-. apply step_consumes in E1. erewrite (IH (length (drop (Z.to_nat m) (b0 :: tail)))); [done| |done].
  rewrite length_drop. cbn. lia.
Qed.
(** Without removal of the mark, parts decode one by one. *)
Lemma loop8_split f a b : Forall is_byte a -> (f = true \/ Forall (fun x => ~ stray_lead x) a) -> split_ok a b ->
  forall first first', loop8 f false first (a ++ b) = (t1 ← loop8 f false first a; t2 ← loop8 f false first' b; Ok (t1 ++ t2)).
Proof.
  remember (length a) as n eqn:En. revert a En. induction n as [n IH] using lt_wf_ind. intros [|b0 tail] -> Hb Hst Hs first first'.
  - cbn [app]. change (loop8 f false first []) with (Ok [] : res jsstring). cbn [mbind res_bind]. rewrite (loop8_any f b first first'). by destruct (loop8 f false first' b).
  - change ((b0 :: tail) ++ b) with (b0 :: (tail ++ b)). rewrite !loop8_cons. apply Forall_cons in Hb as [Hb0 Hb]. rewrite (step_agrees f false first b0 tail b); [|done| |].
    + destruct (Utf8.decode_step f false first b0 tail) as [[[c m] h]|e] eqn:E1; cbn [mbind res_bind]; [|done]. apply step_consumes in E1.
      assert (Hd : (Z.to_nat m <= length (b0 :: tail))%nat) by (unfold zlen in E1; lia).
      change (b0 :: (tail ++ b)) with ((b0 :: tail) ++ b). rewrite drop_app_le by done.
      rewrite (IH (length (drop (Z.to_nat m) (b0 :: tail))) ltac:(rewrite length_drop; cbn in *; lia) _ eq_refl) with (first' := first').
      * destruct (loop8 f false h _) as [t1|]; cbn [mbind res_bind]; [|done]. destruct (loop8 f false first' b); cbn [mbind res_bind]; [|done]. by rewrite app_assoc.
      * by apply Forall_drop, Forall_cons.
      * destruct Hst as [|Hst]; [by left|right]. by apply Forall_drop.
      * destruct Hs as [Hs|Hs]; [by left|right]. intros s1 s2 Hss. apply (Hs (take (Z.to_nat m) (b0 :: tail) ++ s1)). by rewrite <- app_assoc, <- Hss, take_drop.
    + destruct Hst as [|Hst]; [by left|right]. by apply Forall_cons in Hst as [? _].
    + destruct Hs as [Hs|Hs]; [by left|right]. by apply (Hs []).
Qed.
(** Once something was decoded, the mark is no longer looked for. *)
Lemma loop8_started f sk x : loop8 f sk false x = loop8 f false false x.
Proof.
  remember (length x) as n eqn:En. revert x En. induction n as [n IH] using lt_wf_ind. intros [|b0 tail] ->; [done|]. rewrite !loop8_cons.
  assert (E : Utf8.decode_step f sk false b0 tail = Utf8.decode_step f false false b0 tail) by done.
  assert (Hg : forall c m h, Utf8.decode_step f false false b0 tail = Ok (c, m, h) -> h = false).
  { intros c m h. unfold Utf8.decode_step. repeat (case_match; try done); congruence. }
  rewrite E. destruct (Utf8.decode_step f false false b0 tail) as [[[c m] h]|e] eqn:E1; cbn [mbind res_bind]; [|done]. rewrite (Hg _ _ _ eq_refl).
  apply step_consumes in E1. rewrite (IH (length (drop (Z.to_nat m) (b0 :: tail)))); [done| |done]. rewrite length_drop. cbn. lia.
Qed.
Definition strip_bom (s : jsstring) : jsstring := match s with u :: s' => if u =? 65279 then s' else s | [] => [] end.
Lemma from_code_point_head cp : cp <= 1114111 -> cp <> 65279 -> exists u r, Utf8.from_code_point cp = u :: r /\ u <> 65279.
Proof.
  intros H1 H2. unfold Utf8.from_code_point. destruct (Z.ltb_spec cp 65536); [by eexists _, _|]. eexists _, _. split; [done|].
  rewrite Z.shiftr_div_pow2 by lia. change (2 ^ 10) with 1024. zdm.
Qed.
Lemma step_bom f b0 tail :
  (exists m, f = false /\ Utf8.decode_step f false true b0 tail = Ok ([65533], m, true)) \/
  (f = true /\ Utf8.decode_step f true true b0 tail = Utf8.decode_step f false true b0 tail /\ exists e, Utf8.decode_step f false true b0 tail = Throw e) \/
  (exists m, Utf8.decode_step f false true b0 tail = Ok ([65279], m, false) /\ Utf8.decode_step f true true b0 tail = Ok ([], m, false)) \/
  (exists u r m, Utf8.decode_step f false true b0 tail = Ok (u :: r, m, false) /\ Utf8.decode_step f true true b0 tail = Ok (u :: r, m, false) /\ u <> 65279).
Proof.
  assert (Hm : forall g (n : Z), (if f then Throw (TypeError "TextDecoder: malformed sequence") else Ok ([65533], n, g)) = Throw (TypeError "TextDecoder: malformed sequence") /\ f = true \/
    (if f then Throw (TypeError "TextDecoder: malformed sequence") else Ok ([65533], n, g)) = Ok (([65533] : jsstring), n, g : bool) /\ f = false) by (intros; destruct f; auto).
  unfold Utf8.decode_step. destruct (Utf8.lead b0) as [[c n]|]; [|destruct (Hm true 1) as [[-> ->]|[-> ->]]; [right; left|left]; eauto].
  match goal with |- context [if ?x then _ else match Utf8.continuation _ _ _ _ with _ => _ end] => destruct x end; [destruct (Hm true 1) as [[-> ->]|[-> ->]]; [right; left|left]; eauto|].
  destruct (Utf8.continuation _ _ _ _) as [cp| |k]; [|destruct (Hm true (zlen (b0 :: tail))) as [[-> ->]|[-> ->]]; [right; left|left]; eauto|destruct (Hm true k) as [[-> ->]|[-> ->]]; [right; left|left]; eauto].
  destruct (Utf8.bad_code_point n cp) eqn:Eb; [destruct (Hm true n) as [[-> ->]|[-> ->]]; [right; left|left]; eauto|]. cbn [andb]. right. right.
  destruct (Z.eqb_spec cp 65279) as [->|Hne]; [left; by eexists|right]. destruct (from_code_point_head cp) as (u & r & -> & Hu); [unfold Utf8.bad_code_point in Eb; lia|done|]. eauto 10.
Qed.
Lemma loop8_bom f x : x <> [] -> (f = false -> forall t, loop8 f false true x = Ok t -> head t <> Some 65533) ->
  loop8 f true true x = (t ← loop8 f false true x; Ok (strip_bom t)) /\ (forall t, loop8 f false true x = Ok t -> t <> []).
Proof.
  destruct x as [|b0 tail]; [done|]. intros _. rewrite !loop8_cons.
  destruct (step_bom f b0 tail) as [(m & -> & E)|[(-> & E & e & E')|[(m & E & E')|(u & r & m & E & E' & Hu)]]].
  - rewrite E. cbn [mbind res_bind]. intros H. exfalso. destruct (Utf8.decode_loop_outcome (length (drop (Z.to_nat m) (b0 :: tail))) false false true (drop (Z.to_nat m) (b0 :: tail)) (le_n _)) as [[t Et]|[? _]]; [|done].
    unfold loop8 in H. rewrite Et in H. by apply (H eq_refl (65533 :: t)).
  - rewrite E, E'. intros _. by split.
  - rewrite E, E'. cbn [mbind res_bind]. intros _. rewrite (loop8_started f true). destruct (loop8 f false false _) as [t|]; [|done]. cbn. split; [done|]. by intros ? [= <-].
  - rewrite E, E'. cbn [mbind res_bind]. intros _. rewrite (loop8_started f true). destruct (loop8 f false false _) as [t|]; [|done]. cbn. split; [|by intros ? [= <-]].
    by destruct (Z.eqb_spec u 65279).
Qed.
Lemma decodeUtf8_split f sk a b : a <> [] -> Forall is_byte a -> (f = true \/ Forall (fun x => ~ stray_lead x) a) -> split_ok a b ->
  (sk = true -> f = false -> forall t, Utf8.decodeUtf8 (a ++ b) false false = Ok t -> head t <> Some 65533) ->
  Utf8.decodeUtf8 (a ++ b) f sk = (t1 ← Utf8.decodeUtf8 a f sk; t2 ← Utf8.decodeUtf8 b f false; Ok (t1 ++ t2)).
Proof.
  intros Ha Hb Hst Hs Hh. pose proof (loop8_split f a b Hb Hst Hs true true) as E. rewrite !decodeUtf8_loop in *.
  destruct sk; [|done]. assert (Hab : f = false -> forall t, loop8 f false true (a ++ b) = Ok t -> head t <> Some 65533).
  { intros -> t Ht. by apply (Hh eq_refl eq_refl t). }
  destruct (loop8_bom f (a ++ b)) as [-> _]; [by destruct a|done|].
  assert (Hab' : f = false -> forall t, loop8 f false true a = Ok t -> head t <> Some 65533).
  { intros Hf t Ht Hhd. rewrite E, Ht in Hab. cbn [mbind res_bind] in Hab.
    destruct (Utf8.decode_loop_outcome (length b) f false true b (le_n _)) as [[t2 Et]|[? _]]; [|congruence]. unfold loop8 in Hab. rewrite Et in Hab. cbn in Hab.
    specialize (Hab Hf _ eq_refl). destruct t; [done|]. by cbn in *. }
  destruct (loop8_bom f a Ha Hab') as [-> Hne]. rewrite E. destruct (loop8 f false true a) as [t1|]; cbn [mbind res_bind]; [|done].
  destruct (loop8 f false true b) as [t2|]; cbn [mbind res_bind]; [|done]. specialize (Hne t1 eq_refl). destruct t1 as [|u t1]; [done|]. cbn. by destruct (u =? 65279).
Qed.

Lemma find_incomplete_spec suffix : Forall is_byte suffix -> forall start, let e := find_incomplete start suffix in
  (start <= e <= start + length suffix)%nat /\
  ((exists l b', drop (e - start) suffix = l :: b' /\ Z.land l 192 <> 128) \/ e = (start + length suffix)%nat /\ forall s1 s2, suffix = s1 ++ s2 -> incomplete s2 = false).
Proof.
  assert (Hl : forall l n, is_byte l -> sequence_length l = Some n -> Z.land l 192 <> 128).
  { intros l n Hb. assert (H : forallb (fun l => match sequence_length l with Some _ => negb (Z.land l 192 =? 128) | None => true end) (seqZ 0 256) = true) by by vm_compute.
    pose proof (byte_forallb _ H l Hb) as Hl. cbn beta in Hl. intros E. rewrite E in Hl. lia. }
  induction suffix as [|b conts IH]; intros Hb start; cbn [find_incomplete].
  - split; [cbn; lia|right]. split; [cbn; lia|]. intros s1 s2 Hs. destruct s1; [|done]. by destruct s2.
  - apply Forall_cons in Hb as [Hb Hbs]. specialize (IH Hbs (S start)). cbv zeta in IH. destruct IH as [Hle IH].
    assert (Hnext : incomplete (b :: conts) = false -> let e := find_incomplete (S start) conts in (start <= e <= start + length (b :: conts))%nat /\
      ((exists l b', drop (e - start) (b :: conts) = l :: b' /\ Z.land l 192 <> 128) \/ e = (start + length (b :: conts))%nat /\ forall s1 s2, b :: conts = s1 ++ s2 -> incomplete s2 = false)).
    { intros Hi e. subst e. cbn [length]. split; [lia|]. destruct IH as [(l & b' & E & Hn)|[E Hall]]; [left|right].
      - exists l, b'. split; [|done]. replace (find_incomplete (S start) conts - start)%nat with (S (find_incomplete (S start) conts - S start)) by lia. done.
      - split; [lia|]. intros [|x s1] s2 [= Hs]; [by subst|]. by eapply Hall. }
    unfold incomplete in Hnext. destruct (sequence_length b) as [n|] eqn:En; [|by apply Hnext]. destruct (n <=? length (b :: conts))%nat; [by apply Hnext|].
    destruct (valid_prefix b conts) eqn:Ev; [|by apply Hnext]. split; [cbn; lia|left]. exists b, conts. rewrite Nat.sub_diag. split; [done|by eapply Hl].
Qed.
Lemma incomplete_short s : incomplete s = true -> (length s <= 3)%nat.
Proof.
  unfold incomplete. destruct s as [|b conts]; [done|]. destruct (sequence_length b) as [n|] eqn:En; [|done]. rewrite andb_true_iff, negb_true_iff. intros [H _].
  apply Nat.leb_gt in H. unfold sequence_length in En. repeat case_match; simplify_eq; lia.
Qed.
Lemma complete_end bytes r : Forall is_byte bytes -> let e := _findIncompleteEnd bytes in
  (e <= length bytes)%nat /\ split_ok (take e bytes) (drop e bytes ++ r).
Proof.
  intros Hb e. subst e. unfold _findIncompleteEnd. set (s := (length bytes - 3)%nat).
  destruct (find_incomplete_spec (drop s bytes) (Forall_drop _ _ _ Hb) s) as [Hle Hsp]. set (e := find_incomplete s (drop s bytes)) in *. rewrite length_drop in *.
  split; [lia|]. destruct Hsp as [(l & b' & E & Hn)|[E Hall]].
  - left. rewrite drop_drop in E. replace (s + (e - s))%nat with e in E by lia. rewrite E. by eexists _, _.
  - right. intros s1 s2 Hs. rewrite take_ge in Hs by lia. destruct (incomplete s2) eqn:Ei; [|done]. pose proof (incomplete_short _ Ei) as Hl.
    rewrite <- Ei. apply (Hall (drop s s1)). rewrite Hs. rewrite drop_app_le; [done|]. subst s. rewrite Hs, length_app. lia.
Qed.

(** ** UTF-16: where a text can be split *)

Section utf16.
Context (le : bool).
Lemma pair_ind (P : list Z -> Prop) : P [] -> (forall x, P [x]) -> (forall x y l, (forall k, (length k <= length l)%nat -> P k) -> P (x :: y :: l)) -> forall l, P l.
Proof.
  intros H0 H1 H2 l. remember (length l) as n eqn:En. revert l En. induction n as [n IH] using lt_wf_ind. intros [|x [|y l]] ->; [done|done|]. apply H2.
  intros k Hk. eapply IH; [|done]. cbn. lia.
Qed.
Lemma utf16_any f sk sk' st g g' x : g && sk = false -> g' && sk' = false -> utf16_loop le f sk st g x = utf16_loop le f sk' st g' x.
Proof.
  revert g g'. induction x as [|x|x y l IH] using pair_ind; intros g g' Hg Hg'; [done|done|]. cbn [utf16_loop]. rewrite Hg, Hg'. cbn [andb].
  assert (E : utf16_loop le f sk st false l = utf16_loop le f sk' st false l) by (by apply IH). rewrite E.
  destruct l as [|c [|d l]]; [done|done|]. rewrite (IH l) with (g' := false); [done|cbn; lia|done|done].
Qed.
Lemma utf16_split f sk st a b : Nat.even (length a) = true -> forall g, a <> [] \/ g && sk = false ->
  utf16_loop le f sk st g (a ++ b) = ('(o1, p) ← utf16_loop le f sk true g a; '(o2, q) ← decodeUtf16 b le f false st p; Ok (o1 ++ o2, q)).
Proof.
  induction a as [|x|x y l IH] using pair_ind; intros Hev g Hg; [|done|].
  - destruct Hg as [?|Hg]; [done|]. cbn [app utf16_loop mbind res_bind]. unfold decodeUtf16. rewrite (utf16_any _ sk false st g true) by done.
    by destruct (utf16_loop le f false st true b) as [[o q]|].
  - cbn [length Nat.even] in Hev. cbn [app utf16_loop]. assert (IHl := IH l (le_n _) Hev false (or_intror eq_refl)). destruct (g && sk && _); [done|].
    assert (Hrec : forall u : Z, ('(out, p) ← utf16_loop le f sk st false (l ++ b); Ok (u :: out, p)) =
      ('(o1, p) ← ('(out, p) ← utf16_loop le f sk true false l; Ok (u :: out, p)); '(o2, q) ← decodeUtf16 b le f false st p; Ok (o1 ++ o2, q))).
    { intros u. rewrite IHl. destruct (utf16_loop le f sk true false l) as [[o1 p]|]; [|done]. cbn [mbind res_bind]. by destruct (decodeUtf16 b le f false st p) as [[o2 q]|]. }
    destruct (Utf8.is_hi (readUnit le x y)); [|destruct (Utf8.is_lo _); [destruct f; [done|]|]; apply Hrec].
    destruct l as [|c [|d l]]; [|done|].
    + cbn [app mbind res_bind]. unfold decodeUtf16. destruct b as [|c [|d b]]; [by destruct st, f|by destruct st, f|].
      destruct (Utf8.is_lo _).
      * rewrite (utf16_any _ sk false st false true) by done. by destruct (utf16_loop le f false st true b) as [[o q]|].
      * destruct f; [done|]. rewrite (utf16_any _ sk false st false true) by done. by destruct (utf16_loop le _ false st true _) as [[o q]|].
    + cbn [app]. destruct (Utf8.is_lo (readUnit le c d)).
      * rewrite (IH l) by (done || (cbn; lia) || by right). destruct (utf16_loop le f sk true false l) as [[o1 p]|]; [|done]. cbn [mbind res_bind].
        by destruct (decodeUtf16 b le f false st p) as [[o2 q]|].
      * destruct f; [done|]. apply Hrec.
Qed.
Lemma decodeUtf16_split f sk st p a b : a <> [] -> Nat.even (length a) = true -> (p <> None -> sk = false) ->
  decodeUtf16 (a ++ b) le f sk st p = ('(o1, q) ← decodeUtf16 a le f sk true p; '(o2, r) ← decodeUtf16 b le f false st q; Ok (o1 ++ o2, r)).
Proof.
  intros Ha Hev Hp. unfold decodeUtf16 at 1 3. destruct p as [lead|]; [|by apply utf16_split; [|left]]. specialize (Hp ltac:(done)) as ->.
  destruct a as [|x [|y a]]; [done|done|]. cbn [app]. cbn [length Nat.even] in Hev. destruct (Utf8.is_lo _).
  - rewrite utf16_split by (done || by right). destruct (utf16_loop le f false true true a) as [[o1 q]|]; [|done]. cbn [mbind res_bind].
    by destruct (decodeUtf16 b le f false st q) as [[o2 r]|].
  - destruct f; [done|]. change (x :: y :: a ++ b) with ((x :: y :: a) ++ b). rewrite utf16_split by (done || by right).
    destruct (utf16_loop le false false true true _) as [[o1 q]|]; [|done]. cbn [mbind res_bind]. by destruct (decodeUtf16 b le false false st q) as [[o2 r]|].
Qed.
End utf16.

(** ** Streams *)

Definition held (d : t) : list Z := default [] (pending d).
Definition strips (d : t) : bool := negb (ignoreBOM d) && negb (bomHandled d).
(** The decoding of bytes none of which is held back. *)
Definition piece (d : t) (bytes : list Z) (skipBom streaming : bool) (lead : option Z) : res (jsstring * option Z) :=
  match encoding d with
  | utf_8 => text ← Utf8.decodeUtf8 bytes (fatal d) skipBom; Ok (text, lead)
  | e => decodeUtf16 bytes (bool_decide (e = utf_16le)) (fatal d) skipBom streaming lead
  end.
(** The text of what is left, were it all there. *)
Definition rest_text (d : t) (r : list Z) : res jsstring :=
  '(text, _) ← piece d (held d ++ r) (strips d) false (pendingUtf16Lead d); Ok text.
Definition well_kept (d : t) : Prop := (encoding d = utf_8 -> pendingUtf16Lead d = None) /\ (pendingUtf16Lead d <> None -> bomHandled d = true).
(** The bytes for which the parts of a stream decode like the whole: for UTF-8 no
    stray lead bytes and no malformed start, unless errors are fatal. *)
Definition splittable (d : t) (bytes : list Z) : Prop :=
  Forall is_byte bytes /\ (encoding d = utf_8 -> fatal d = false ->
    Forall (fun x => ~ stray_lead x) bytes /\ (strips d = true -> forall t, Utf8.decodeUtf8 bytes false false = Ok t -> head t <> Some 65533)).

Lemma decode_piece d (c : list Z) (st : bool) : let B := held d ++ c in let e := if st then completeEnd (encoding d) B else length B in
  take e B <> ([] : list Z) -> exists d', decode c st d =
  match piece d (take e B) (strips d) st (pendingUtf16Lead d) with
  | Ok (text, lead) => (Ok text, set_state (if (e <? length B)%nat then Some (drop e B) else None) lead st d)
  | Throw err => (Throw err, d')
  end.
Proof.
  intros B e E. unfold decode. fold (held d) B e (strips d). rewrite bool_decide_eq_false_2 by done. unfold piece.
  destruct (encoding d); [destruct (Utf8.decodeUtf8 _ _ _); ((by exists d) || by eexists)| |]; destruct (decodeUtf16 _ _ _ _ _ _) as [[text lead]|]; ((by exists d) || by eexists).
Qed.
Lemma decode_final d r : well_kept d -> (decode r false d).1 = rest_text d r.
Proof.
  intros [H8 Hb]. destruct (decide (held d ++ r = [])) as [E|E].
  - unfold decode, rest_text, piece. fold (held d). rewrite E. rewrite bool_decide_eq_true_2 by (by rewrite take_nil).
    destruct (encoding d) eqn:Ee; [by rewrite (H8 eq_refl), decodeUtf8_loop| |]; cbn [decodeUtf16]; (destruct (pendingUtf16Lead d); [|done]); by destruct (fatal d).
  - destruct (decode_piece d r false) as [d' ->]; [by rewrite take_ge|]. rewrite take_ge by done. unfold rest_text. by destruct (piece _ _ _ _ _) as [[text lead]|].
Qed.
Lemma odd_mod n : (Z.of_nat n mod 2 =? 1) = negb (Nat.even n).
Proof.
  induction n as [n IH] using lt_wf_ind. destruct n as [|[|n]]; [done|done|]. cbn [Nat.even]. rewrite <- IH by lia. f_equal. rewrite !Nat2Z.inj_succ. zdm.
Qed.
Lemma complete16 e bytes : e <> utf_8 -> let k := completeEnd e bytes in (k <= length bytes)%nat /\ Nat.even (length (take k bytes)) = true.
Proof.
  intros He k. assert (Hk : k = if Nat.even (length bytes) then length bytes else (length bytes - 1)%nat).
  { subst k. unfold completeEnd, zlen. rewrite odd_mod. by destruct e, (Nat.even (length bytes)). }
  rewrite Hk. clear k Hk. destruct (Nat.even (length bytes)) eqn:Ee; rewrite length_take, Nat.min_l by lia; (split; [lia|done || idtac]).
  destruct (length bytes) as [|n]; [done|]. cbn [Nat.sub]. rewrite Nat.sub_0_r. rewrite Nat.even_succ, <- Nat.negb_even in Ee. by apply negb_false_iff.
Qed.
Lemma piece_split d B r : well_kept d -> splittable d (B ++ r) -> let a := take (completeEnd (encoding d) B) B in let b := drop (completeEnd (encoding d) B) B ++ r in
  (completeEnd (encoding d) B <= length B)%nat /\
  (a <> [] -> piece d (B ++ r) (strips d) false (pendingUtf16Lead d) =
    ('(t1, q) ← piece d a (strips d) true (pendingUtf16Lead d); '(t2, q') ← piece d b false false q; Ok (t1 ++ t2, q'))).
Proof.
  intros [H8 Hl] [Hby Hs] a b. assert (Hab : a ++ b = B ++ r) by (subst a b; by rewrite app_assoc, take_drop).
  assert (H16 : encoding d <> utf_8 -> (completeEnd (encoding d) B <= length B)%nat /\ forall le, a <> [] -> decodeUtf16 (B ++ r) le (fatal d) (strips d) false (pendingUtf16Lead d) =
    ('(t1, q) ← decodeUtf16 a le (fatal d) (strips d) true (pendingUtf16Lead d); '(t2, q') ← decodeUtf16 b le (fatal d) false false q; Ok (t1 ++ t2, q'))).
  { intros He. destruct (complete16 (encoding d) B He) as [Hle Hev]. split; [done|]. intros le Ha. rewrite <- Hab. apply decodeUtf16_split; [done|done|].
    intros Hd%Hl. unfold strips. rewrite Hd. apply andb_false_r. }
  unfold piece. destruct (encoding d) eqn:Ee; [|destruct H16 as [? H16]; [done|]; split; [done|apply H16]..]. specialize (Hs eq_refl).
  pose proof (Forall_app_1 _ _ _ Hby) as HbB || (assert (HbB : Forall is_byte B) by (by apply Forall_app in Hby as [? _])).
  destruct (complete_end B r HbB) as [Hle Hsp]. split; [done|]. intros Ha. rewrite <- Hab. rewrite decodeUtf8_split with (a := a) (b := b); [|done|by apply Forall_take| |done|].
  - destruct (Utf8.decodeUtf8 a (fatal d) (strips d)) as [t1|]; [|done]. cbn [mbind res_bind]. by destruct (Utf8.decodeUtf8 b (fatal d) false).
  - destruct (fatal d); [by left|right]. destruct (Hs eq_refl) as [Hstray _]. apply Forall_app in Hstray as [? _]. by apply Forall_take.
  - intros H1 H2. rewrite Hab. by apply Hs.
Qed.
(** A chunk of a stream decodes like the beginning of what is left. *)
Lemma decode_chunk d c r : well_kept d -> splittable d (held d ++ c ++ r) ->
  match decode c true d with
  | (Throw e, _) => rest_text d (c ++ r) = Throw e
  | (Ok t1, d') => well_kept d' /\ splittable d' (held d' ++ r) /\ rest_text d (c ++ r) = (t2 ← rest_text d' r; Ok (t1 ++ t2))
  end.
Proof.
  intros Hk Hs. rewrite app_assoc in Hs. destruct (piece_split d (held d ++ c) r Hk Hs) as [Hle Hsplit]. unfold rest_text at 1 3. rewrite app_assoc.
  set (B := held d ++ c) in *. set (e := completeEnd (encoding d) B) in *.
  assert (Hp : default [] (if (e <? length B)%nat then Some (drop e B) else None) = drop e B).
  { destruct (Nat.ltb_spec e (length B)); [done|]. by rewrite drop_ge. }
  assert (HB : take e B ++ drop e B ++ r = B ++ r) by (by rewrite app_assoc, take_drop).
  assert (Hsuf : forall l h, (h = bomHandled d /\ take e B = [] \/ h = true) -> let d' := set_state (if (e <? length B)%nat then Some (drop e B) else None) l h d in splittable d' (held d' ++ r)).
  { intros l h Hh d'. subst d'. unfold splittable, held. cbn [set_state pending encoding fatal]. rewrite Hp. destruct Hs as [Hby Hs].
    rewrite <- HB in Hby, Hs. apply Forall_app in Hby as [_ Hby]. split; [done|]. intros H1 H2. destruct (Hs H1 H2) as [Hst Hhd]. apply Forall_app in Hst as [_ Hst]. split; [done|].
    destruct Hh as [[-> He]| ->]; [by rewrite He in Hhd|]. unfold strips. cbn. by rewrite andb_false_r. }
  destruct (decide (take e B = [])) as [E|E].
  - assert (Hd : decode c true d = (Ok [], set_state (if (e <? length B)%nat then Some (drop e B) else None) (pendingUtf16Lead d) (bomHandled d) d)).
    { unfold decode. fold (held d) B e. by rewrite bool_decide_eq_true_2 by done. }
    rewrite Hd. destruct Hk as [H8 Hl]. split; [by split|]. split; [apply Hsuf; auto|]. unfold rest_text, held, strips, piece. cbn [set_state pending encoding fatal ignoreBOM bomHandled pendingUtf16Lead].
    rewrite Hp, <- HB, E. cbn [app]. match goal with |- context [?x ≫= (fun '(t, _) => Ok t)] => by destruct x as [[? ?]|] end.
  - specialize (Hsplit E). destruct (decode_piece d c true E) as [d' ->]. fold B e. rewrite Hsplit. destruct (piece d (take e B) (strips d) true _) as [[t1 l]|err] eqn:Ep; [|done].
    split; [|split; [apply Hsuf; auto|]].
    + split; [|done]. cbn. intros H8'. unfold piece in Ep. rewrite H8' in Ep. destruct (Utf8.decodeUtf8 _ _ _); [|done]. injection Ep as _ <-. by apply Hk.
    + unfold rest_text, held, strips, piece. cbn [set_state pending encoding fatal ignoreBOM bomHandled pendingUtf16Lead mbind res_bind]. rewrite Hp, andb_false_r.
      match goal with |- context [?x ≫= (fun '(t2, q) => _)] => by destruct x as [[? ?]|] end.
Qed.

(** What is yielded until the end or the error. *)
Definition joined (out : list jsstring * option exn) : res jsstring :=
  match out with (texts, None) => Ok (concat texts) | (_, Some e) => Throw e end.
Lemma concat_nonempty (t : jsstring) (ts : list jsstring) : concat ((if bool_decide (t = []) then [] else [t]) ++ ts) = t ++ concat ts.
Proof. case_bool_decide; [by subst|done]. Qed.
Lemma decodeText_rest chunks : forall d, well_kept d -> splittable d (held d ++ concat chunks) -> joined (decodeText_loop chunks d) = rest_text d (concat chunks).
Proof.
  induction chunks as [|c chunks IH]; intros d Hk Hs; cbn [decodeText_loop concat] in *.
  - rewrite <- decode_final by done. destruct (decode [] false d) as [[text|err] d']; [|done].
    cbn [joined fst]. pose proof (concat_nonempty text []) as H. cbn [concat] in H. rewrite !app_nil_r in H. by rewrite H.
  - pose proof (decode_chunk d c (concat chunks) Hk Hs) as H. destruct (decode c true d) as [[t1|err] d']; [|done]. destruct H as (Hk' & Hs' & ->). rewrite <- IH by done.
    destruct (decodeText_loop chunks d') as [rest [err|]]; [done|]. cbn [joined mbind res_bind]. by rewrite concat_nonempty.
Qed.
(** C21: bytes decode to the same text, or the same error, whatever the chunks they
    arrive in: in UTF-16 always, in UTF-8 when errors are fatal, and otherwise for
    bytes without the lead bytes that no text has and that do not start with
    a malformed sequence of which a byte order mark could be removed. *)
Theorem decodeText_whole (chunks : list (list Z)) (e : TextDecoderEncoding) (f i : bool) : splittable (make e f i) (concat chunks) ->
  joined (decodeText_loop chunks (make e f i)) = (decode (concat chunks) false (make e f i)).1.
Proof. intros Hs. assert (Hk : well_kept (make e f i)) by done. by rewrite decodeText_rest, decode_final. Qed.
Lemma decodeText_whole_witness : let d := make utf_8 false false in splittable d (concat [[239; 187]; [191; 226; 130]; []; [172]]) /\
  joined (decodeText_loop [[239; 187]; [191; 226; 130]; []; [172]] d) = Ok [8364].
Proof.
  cbv zeta. assert (Hs : splittable (make utf_8 false false) (concat [[239; 187]; [191; 226; 130]; []; [172]])).
  { split; [by apply (bool_decide_unpack (Forall is_byte _)); vm_compute|]. intros _ _. split; [by apply (bool_decide_unpack (Forall (fun x => ~ stray_lead x) _)); vm_compute|].
    intros _ t Ht. vm_compute in Ht. injection Ht as <-. done. }
  split; [done|]. rewrite (decodeText_whole _ utf_8 false false Hs). by vm_compute.
Defined.

(** Encoded text is read back from any chunks. *)
Lemma encode_cp_stray cp : Utf8.is_scalar cp -> Forall (fun b => ~ stray_lead b) (Utf8.encode_cp cp).
Proof.
  intros [Hr Hs]. rewrite Utf8.encode_cp_arith by done. assert (Hn : forall b, b < 192 \/ 194 <= b < 245 -> ~ stray_lead b).
  { intros b Hb. unfold stray_lead. rewrite !elem_of_cons, elem_of_nil. lia. }
  repeat case_match; rewrite ?Z.ltb_lt, ?Z.ltb_ge in *; repeat (apply Forall_cons_2; [apply Hn; zdm|]); apply Forall_nil_2.
Qed.
Lemma decodeText_encoded (text : jsstring) (chunks : list (list Z)) : Forall Utf8.is_unit text -> Utf8.toWellFormed text = text ->
  (forall u, head text = Some u -> u < 128) -> concat chunks = Utf8.encodeUtf8 text ->
  exists texts, decodeText chunks (js "utf-8") false false = (texts, None) /\ concat texts = text.
Proof.
  intros Hu Hw Hh Hc. assert (Hd : forall sk, Utf8.decodeUtf8 (concat chunks) false sk = Ok text).
  { intros sk. rewrite Hc, Utf8.decodeUtf8_encode; [by rewrite Hw|done|].
    intros _. destruct text as [|u text]; [done|]. specialize (Hh u eq_refl). cbn. lia. }
  assert (Hs : splittable (make utf_8 false false) (concat chunks)).
  { split; [rewrite Hc; by apply Utf8.encodeUtf8_bytes|]. intros _ _. split.
    - rewrite Hc, Utf8.encodeUtf8_spec. apply Forall_bind. eapply Forall_impl; [by apply Utf8.code_points_scalar|]. apply encode_cp_stray.
    - intros _ t Ht. rewrite Hd in Ht. injection Ht as <-. intros Hhd. specialize (Hh _ Hhd). lia. }
  assert (Hk : well_kept (make utf_8 false false)) by done.
  pose proof (decodeText_rest chunks _ Hk Hs) as H.
  assert (Hr : rest_text (make utf_8 false false) (concat chunks) = Ok text).
  { change (rest_text (make utf_8 false false) (concat chunks)) with ('(text, _) ← (text ← Utf8.decodeUtf8 (concat chunks) false true; Ok (text, @None Z)); Ok text).
    by rewrite Hd. }
  rewrite Hr in H. unfold decodeText. change (constructor (js "utf-8") false false) with (Ok (make utf_8 false false) : res t).
  cbv iota. destruct (decodeText_loop chunks (make utf_8 false false)) as [texts [e|]]; [done|]. exists texts. cbn in H. by injection H.
Qed.

(** Where parts and whole differ: a stray lead byte at the end of a chunk, and a
    mark after a malformed start. *)
Lemma stray_lead_split : (decode [192; 128] false (make utf_8 false false)).1 = Ok [65533] /\ joined (decodeText_loop [[192]; [128]] (make utf_8 false false)) = Ok [65533; 65533].
Proof. by vm_compute. Qed.
Lemma mark_after_error_split : (decode [255; 239; 187; 191] false (make utf_8 false false)).1 = Ok [65533] /\
  joined (decodeText_loop [[255]; [239; 187; 191]] (make utf_8 false false)) = Ok [65533; 65279].
Proof. by vm_compute. Qed.
(** A surrogate held back survives the error that it causes. *)
Lemma lead_survives_error : let d := (decode [216; 0] true (make utf_16be true false)).2 in
  (decode [] false d).1 = Throw malformed16 /\ (decode [220; 0] false (decode [] false d).2).1 = Ok [55296; 56320].
Proof. by vm_compute. Qed.

(** ** [encodeInto] *)

(** What was written is the encoding of what was read, no character is split, and
    the next one would not have fitted. *)
Lemma encodeInto_loop_spec room input : forall read written, (length written <= room)%nat ->
  exists n, encodeInto_loop room read written input = ((read + n)%nat, written ++ (Utf8.code_points (take n input) ≫= Utf8.encode_cp)) /\ (n <= length input)%nat /\
    (length (written ++ (Utf8.code_points (take n input) ≫= Utf8.encode_cp)) <= room)%nat /\
    Utf8.code_points input = Utf8.code_points (take n input) ++ Utf8.code_points (drop n input) /\
    (forall cp, head (Utf8.code_points (drop n input)) = Some cp -> (room < length (written ++ (Utf8.code_points (take n input) ≫= Utf8.encode_cp)) + length (Utf8.encode_cp cp))%nat).
Proof.
  induction input as [|u s IH] using Utf8.unit_ind; intros read written Hw.
  { exists 0%nat. cbn. rewrite Nat.add_0_r, app_nil_r. by split_and!. }
  assert (Hstop : forall cp, head (Utf8.code_points (u :: s)) = Some cp -> (room < length written + length (Utf8.encode_cp cp))%nat ->
    exists n, (read, written) = ((read + n)%nat, written ++ (Utf8.code_points (take n (u :: s)) ≫= Utf8.encode_cp)) /\ (n <= length (u :: s))%nat /\
    (length (written ++ (Utf8.code_points (take n (u :: s)) ≫= Utf8.encode_cp)) <= room)%nat /\
    Utf8.code_points (u :: s) = Utf8.code_points (take n (u :: s)) ++ Utf8.code_points (drop n (u :: s)) /\
    (forall cp, head (Utf8.code_points (drop n (u :: s))) = Some cp -> (room < length (written ++ (Utf8.code_points (take n (u :: s)) ≫= Utf8.encode_cp)) + length (Utf8.encode_cp cp))%nat)).
  { intros cp Hcp Hlt. exists 0%nat. cbn [take drop]. rewrite Nat.add_0_r. change (Utf8.code_points [] ≫= Utf8.encode_cp) with ([] : list Z). rewrite app_nil_r. split_and!; [done|lia|done|done|].
    intros cp' Hcp'. rewrite Hcp in Hcp'. by injection Hcp' as <-. }
  (* one character [cp] of [k] code units *)
  assert (Hgo : forall (k : nat) cp rest, (1 <= k)%nat -> drop k (u :: s) = rest -> (k <= length (u :: s))%nat ->
    (forall m, (m <= length rest)%nat -> Utf8.code_points (take (k + m) (u :: s)) = cp :: Utf8.code_points (take m rest)) ->
    Utf8.code_points (u :: s) = cp :: Utf8.code_points rest -> ~ (room < length written + length (Utf8.encode_cp cp))%nat ->
    exists n, encodeInto_loop room (read + k) (written ++ Utf8.encode_cp cp) rest = ((read + n)%nat, written ++ (Utf8.code_points (take n (u :: s)) ≫= Utf8.encode_cp)) /\ (n <= length (u :: s))%nat /\
    (length (written ++ (Utf8.code_points (take n (u :: s)) ≫= Utf8.encode_cp)) <= room)%nat /\
    Utf8.code_points (u :: s) = Utf8.code_points (take n (u :: s)) ++ Utf8.code_points (drop n (u :: s)) /\
    (forall cp, head (Utf8.code_points (drop n (u :: s))) = Some cp -> (room < length (written ++ (Utf8.code_points (take n (u :: s)) ≫= Utf8.encode_cp)) + length (Utf8.encode_cp cp))%nat)).
  { intros k cp rest Hk Hd Hkl Htk Hcp Hfit. assert (Hlr : length rest = (length (u :: s) - k)%nat) by (by rewrite <- Hd, length_drop).
    destruct (IH rest ltac:(cbn in *; lia) (read + k)%nat (written ++ Utf8.encode_cp cp)) as (n & E & Hn & Hroom & Hsp & Hmax); [rewrite length_app; lia|].
    exists (k + n)%nat. rewrite E, Nat.add_assoc, Htk by done. rewrite bind_cons, !app_assoc in *. rewrite <- drop_drop, Hd. split_and!; [done|lia|done| |done].
    by rewrite Hcp, Hsp. }
  cbn [encodeInto_loop]. destruct (Utf8.is_hi u) eqn:Eu; [destruct s as [|lo s]; [|destruct (Utf8.is_lo lo) eqn:El]|].
  - destruct (Nat.ltb_spec room (length written + length (Utf8.encode_cp 65533))) as [Hlt|Hge]; [apply (Hstop 65533); [cbn; by rewrite Eu|done]|].
    apply (Hgo 1%nat 65533 []); try done; try (cbn; lia); [|cbn; by rewrite Eu|lia]. intros m Hm. cbn. rewrite Eu. by rewrite !take_nil.
  - match goal with |- context [(room <? length written + length (Utf8.encode_cp ?cp))%nat] => set (cp0 := cp) end.
    destruct (Nat.ltb_spec room (length written + length (Utf8.encode_cp cp0))) as [Hlt|Hge]; [apply (Hstop cp0); [cbn; by rewrite Eu, El|done]|].
    apply (Hgo 2%nat cp0 s); try done; try (cbn; lia); [|cbn; by rewrite Eu, El]. intros m Hm. cbn. by rewrite Eu, El.
  - destruct (Nat.ltb_spec room (length written + length (Utf8.encode_cp 65533))) as [Hlt|Hge]; [apply (Hstop 65533); [cbn; by rewrite Eu, El|done]|].
    apply (Hgo 1%nat 65533 (lo :: s)); try done; try (cbn; lia); [|cbn; by rewrite Eu, El|lia]. intros m Hm. cbn [Nat.add take Utf8.code_points]. rewrite Eu.
    destruct m as [|m]; [done|]. cbn [take]. by rewrite El.
  - set (cp0 := if Utf8.is_lo u then 65533 else u). assert (Hc : forall t, Utf8.code_points (u :: t) = cp0 :: Utf8.code_points t) by (intros t; subst cp0; cbn [Utf8.code_points]; rewrite Eu; by destruct (Utf8.is_lo u)).
    destruct (Nat.ltb_spec room (length written + length (Utf8.encode_cp cp0))) as [Hlt|Hge]; [apply (Hstop cp0); [by rewrite Hc|done]|].
    apply (Hgo 1%nat cp0 s); try done; try (cbn; lia). intros m Hm. cbn [Nat.add take]. by rewrite Hc.
Qed.
Theorem encodeInto_spec (input : jsstring) (room : nat) : let '(read, written) := encodeInto input room in
  written = Utf8.encodeUtf8 (take read input) /\ (read <= length input)%nat /\ (length written <= room)%nat /\
  Utf8.code_points input = Utf8.code_points (take read input) ++ Utf8.code_points (drop read input) /\
  (forall cp, head (Utf8.code_points (drop read input)) = Some cp -> (room < length written + length (Utf8.encode_cp cp))%nat).
Proof.
  unfold encodeInto. destruct (encodeInto_loop_spec room input 0 [] ltac:(cbn; lia)) as (n & E & Hn & Hr & Hsp & Hmax). rewrite E. cbn [Nat.add app] in *.
  rewrite Utf8.encodeUtf8_spec. by split_and!.
Qed.
End TextDecoder.
