(* ===== verification/TextLines.v ===== *)
(** Line framing: [splitLines] and [readLines] of src/js/internal/stream/text.ts.

    A generator is modelled by what it yields until it ends, and the error that ends
    it.  [maxLineLength] is [None] for Infinity. *)

From S2P Require Import Prelude TextDecoder.

Module TextLines.

Record SplitLinesOptions := { universal : bool; emit_final : bool; maxLineLength : option Z }.
(** The variables of the loop. *)
Record t := { parts : list jsstring; len : Z; skipLF : bool }.
Definition line_error : exn := RangeError "Line exceeds maxLineLength".

Definition exceeds (o : SplitLinesOptions) (n allowance : Z) : bool :=
  match maxLineLength o with Some m => m + allowance <? n | None => false end.
Definition append (o : SplitLinesOptions) (part : jsstring) (st : t) : res t :=
  match last part with
  | None => Ok st
  | Some nextLast =>
      let nextLength := len st + zlen part in
      let allowance := if negb (universal o) && (nextLast =? 13) then 1 else 0 in
      if exceeds o nextLength allowance then Throw line_error
      else Ok {| parts := parts st ++ [part]; len := nextLength; skipLF := skipLF st |}
  end.
(** The line with the carriage return before its line feed removed. *)
Definition strip_cr (line : jsstring) : jsstring := match last line with Some 13 => removelast line | _ => line end.
Definition takeLine (stripCR : bool) (st : t) : jsstring * t :=
  let line := concat (parts st) in
  (if stripCR then strip_cr line else line, {| parts := []; len := 0; skipLF := skipLF st |}).

(** The loop over the characters of a chunk; [seg] is the text since [start]. *)
Fixpoint chunk_loop (o : SplitLinesOptions) (seg chunk : jsstring) (st : t) : list jsstring * res t :=
  match chunk with
  | [] => ([], append o seg st)
  | char :: chunk =>
      let st' := {| parts := parts st; len := len st; skipLF := false |} in
      if skipLF st && (char =? 10) then chunk_loop o [] chunk st'
      else if negb (char =? 10) && negb (universal o && (char =? 13)) then chunk_loop o (seg ++ [char]) chunk st'
      else
        match append o seg st' with
        | Throw e => ([], Throw e)
        | Ok st =>
            let '(line, st) := takeLine (negb (universal o)) st in
            let '(lines, r) := chunk_loop o [] chunk {| parts := parts st; len := len st; skipLF := universal o && (char =? 13) |} in
            (line :: lines, r)
        end
  end.
Fixpoint chunks_loop (o : SplitLinesOptions) (chunks : list jsstring) (st : t) : list jsstring * res t :=
  match chunks with
  | [] => ([], Ok st)
  | chunk :: chunks =>
      match chunk_loop o [] chunk st with
      | (lines, Throw e) => (lines, Throw e)
      | (lines, Ok st) => let '(rest, r) := chunks_loop o chunks st in (lines ++ rest, r)
      end
  end.
Definition finish (o : SplitLinesOptions) (st : t) : list jsstring * option exn :=
  if exceeds o (len st) 0 then ([], Some line_error)
  else (if (0 <? len st) && emit_final o then [(takeLine false st).1] else [], None).
(** The generator over a source that yields [chunks] and then ends, with an error if
    [failure] is one. *)
Definition splitLines (o : SplitLinesOptions) (chunks : list jsstring) (failure : option exn) : list jsstring * option exn :=
  if match maxLineLength o with Some m => negb (isSafeInteger m) || (m <? 0) | None => false end
  then ([], Some (RangeError "maxLineLength must be a non-negative safe integer or Infinity"))
  else match chunks_loop o chunks {| parts := []; len := 0; skipLF := false |} with
  | (lines, Throw e) => (lines, Some e)
  | (lines, Ok st) =>
      match failure with
      | Some e => (lines, Some e)
      | None => let '(rest, e) := finish o st in (lines ++ rest, e)
      end
  end.
Definition readLines (o : SplitLinesOptions) (label : jsstring) (fatal ignoreBOM : bool) (chunks : list (list Z)) : list jsstring * option exn :=
  let '(texts, e) := TextDecoder.decodeText chunks label fatal ignoreBOM in splitLines o texts e.

(** ** What the lines of a text are *)

(** The terminated lines, and the text after the last terminator. *)
Fixpoint raw_lines (universal : bool) (cur s : jsstring) : list jsstring * jsstring :=
  match s with
  | [] => ([], cur)
  | u :: s' =>
      if u =? 10 then let '(ls, tail) := raw_lines universal [] s' in (cur :: ls, tail)
      else if universal && (u =? 13) then
        match s' with
        | v :: s'' =>
            if v =? 10 then let '(ls, tail) := raw_lines universal [] s'' in (cur :: ls, tail)
            else let '(ls, tail) := raw_lines universal [] s' in (cur :: ls, tail)
        | [] => ([cur], [])
        end
      else raw_lines universal (cur ++ [u]) s'
  end.
(** A line is too long when what is left of it without its terminator is. *)
Definition allowed (o : SplitLinesOptions) (line : jsstring) : Z := if negb (universal o) && bool_decide (last line = Some 13) then 1 else 0.
Definition too_long (o : SplitLinesOptions) (line : jsstring) : bool := negb (bool_decide (line = [])) && exceeds o (zlen line) (allowed o line).
Fixpoint bounded_lines (o : SplitLinesOptions) (raw : list jsstring) (tail : jsstring) : list jsstring * option exn :=
  match raw with
  | [] =>
      if negb (bool_decide (tail = [])) && exceeds o (zlen tail) 0 then ([], Some line_error)
      else (if bool_decide (tail = []) || negb (emit_final o) then [] else [tail], None)
  | line :: raw =>
      if too_long o line then ([], Some line_error)
      else let '(lines, e) := bounded_lines o raw tail in ((if universal o then line else strip_cr line) :: lines, e)
  end.
Definition lines_of (o : SplitLinesOptions) (s : jsstring) : list jsstring * option exn :=
  let '(raw, tail) := raw_lines (universal o) [] s in bounded_lines o raw tail.

(** ** Chunks do not matter *)

Definition cur (st : t) : jsstring := concat (parts st).
Definition ok (o : SplitLinesOptions) (st : t) : Prop := len st = zlen (cur st) /\ too_long o (cur st) = false /\ (skipLF st = true -> universal o = true /\ cur st = []).
(** The lines of a text of which a line feed is skipped when [skip]. *)
Definition raw_after (universal skip : bool) (cur s : jsstring) : list jsstring * jsstring :=
  match s with u :: s' => if skip && (u =? 10) then raw_lines universal cur s' else raw_lines universal cur s | [] => ([], cur) end.
Lemma raw_return cur s : raw_lines true cur (13 :: s) = let '(ls, tail) := raw_after true true [] s in (cur :: ls, tail).
Proof.
  change (raw_lines true cur (13 :: s)) with (match s with v :: s'' => if v =? 10 then let '(ls, tail) := raw_lines true [] s'' in (cur :: ls, tail)
    else let '(ls, tail) := raw_lines true [] s in (cur :: ls, tail) | [] => ([cur], []) end).
  destruct s as [|v s]; [done|]. unfold raw_after. by destruct (v =? 10).
Qed.
(** What is there only grows. *)
Lemma raw_grows u s : forall cur, let '(ls, tail) := raw_lines u cur s in exists more, match ls with l :: _ => l | [] => tail end = cur ++ more.
Proof.
  induction s as [s IH] using (induction_ltof1 _ (@length Z)). unfold ltof in IH. intros cur. destruct s as [|c s]; [exists []; cbn; by rewrite app_nil_r|]. cbn [raw_lines].
  destruct (c =? 10); [destruct (raw_lines u [] s); exists []; by rewrite app_nil_r|].
  destruct (u && (c =? 13)).
  - destruct s as [|v s]; [exists []; by rewrite app_nil_r|]. destruct (v =? 10); [destruct (raw_lines u [] s)|destruct (raw_lines u [] (v :: s))]; exists []; by rewrite app_nil_r.
  - specialize (IH s ltac:(cbn; lia) (cur ++ [c])). destruct (raw_lines u (cur ++ [c]) s) as [ls tail]. destruct IH as [more E]. exists (c :: more). by rewrite E, <- app_assoc.
Qed.
Lemma allowed_range o l : 0 <= allowed o l <= 1.
Proof. unfold allowed. destruct (_ && _); lia. Qed.
Lemma too_long_grows o l more : too_long o l = true -> too_long o (l ++ more) = true /\ exceeds o (zlen (l ++ more)) 0 = true /\ l ++ more <> [].
Proof.
  unfold too_long, exceeds. rewrite andb_true_iff, negb_true_iff, bool_decide_eq_false. intros [Hl He]. destruct (maxLineLength o) as [m|]; [|done]. apply Z.ltb_lt in He.
  pose proof (allowed_range o l). pose proof (allowed_range o (l ++ more)). pose proof (zlen_nonneg more). assert (Hne : l ++ more <> []) by (by destruct l).
  rewrite bool_decide_eq_false_2 by done. cbn [negb andb]. split; [|split; [rewrite zlen_app; apply Z.ltb_lt; lia|done]]. apply Z.ltb_lt.
  destruct more as [|c more]; [by rewrite app_nil_r|]. rewrite zlen_app, zlen_cons. pose proof (zlen_nonneg more). unfold allowed in *. repeat case_match; lia.
Qed.
Lemma bounded_too_long o u cur s : too_long o cur = true -> let '(ls, tail) := raw_lines u cur s in bounded_lines o ls tail = ([], Some line_error).
Proof.
  intros Ht. pose proof (raw_grows u s cur) as H. destruct (raw_lines u cur s) as [ls tail]. destruct H as [more E]. destruct (too_long_grows o cur more Ht) as (T1 & T2 & T3).
  destruct ls as [|l ls]; cbn [bounded_lines]; rewrite E.
  - rewrite T2, bool_decide_eq_false_2 by done. done.
  - by rewrite T1.
Qed.

Definition outcome (o : SplitLinesOptions) (skip : bool) (cur s : jsstring) : list jsstring * option exn :=
  let '(raw, tail) := raw_after (universal o) skip cur s in bounded_lines o raw tail.
Lemma raw_after_false u c s : raw_after u false c s = raw_lines u c s.
Proof. by destruct s. Qed.
Lemma append_spec o seg st : ok o st -> if too_long o (cur st ++ seg) then append o seg st = Throw line_error
  else exists st', append o seg st = Ok st' /\ cur st' = cur st ++ seg /\ len st' = zlen (cur st') /\ skipLF st' = skipLF st.
Proof.
  intros (Hl & Ht & _). unfold append. destruct (last seg) as [c|] eqn:Ec.
  - assert (Hne : cur st ++ seg <> []) by (intros [_ ->]%app_nil; done). unfold too_long, allowed. rewrite bool_decide_eq_false_2, zlen_app by done.
    assert (Ea : last (cur st ++ seg) = Some c) by (by rewrite last_app, Ec). rewrite Ea, Hl. cbn [negb andb].
    replace (bool_decide (Some c = Some 13)) with (c =? 13) by (destruct (Z.eqb_spec c 13) as [->|]; [done|symmetry; apply bool_decide_eq_false; congruence]).
    destruct (exceeds _ _ _); cbn [andb]; [done|]. eexists. split; [done|]. unfold cur. cbn [parts len skipLF]. rewrite concat_app. cbn [concat]. rewrite app_nil_r, zlen_app. by split_and!.
  - apply last_None in Ec as ->. rewrite app_nil_r, Ht. by exists st.
Qed.
Lemma outcome_too_long o c s : too_long o c = true -> outcome o false c s = ([], Some line_error).
Proof.
  intros Ht. unfold outcome. rewrite raw_after_false. pose proof (bounded_too_long o (universal o) c s Ht) as H. by destruct (raw_lines _ c s).
Qed.
(** A terminator ends the line. *)
Lemma outcome_terminator o c char s : (char =? 10) || universal o && (char =? 13) = true -> too_long o c = false ->
  outcome o false c (char :: s) = let '(lines, e) := outcome o (universal o && (char =? 13)) [] s in ((if universal o then c else strip_cr c) :: lines, e).
Proof.
  intros Hc Ht. unfold outcome. rewrite raw_after_false. destruct (Z.eqb_spec char 10) as [->|H10].
  - cbn [raw_lines Z.eqb Pos.eqb]. change (10 =? 13) with false. rewrite andb_false_r, raw_after_false. destruct (raw_lines (universal o) [] s) as [ls tail]. cbn [bounded_lines]. by rewrite Ht.
  - cbn [orb] in Hc. apply andb_true_iff in Hc as [Hu Hc%Z.eqb_eq]. subst char. rewrite Hu, raw_return. cbn [andb Z.eqb Pos.eqb]. destruct (raw_after true true [] s) as [ls tail].
    cbn [bounded_lines]. by rewrite Ht, Hu.
Qed.
Lemma chunk_loop_spec o chunk rest : forall seg st, ok o st -> (skipLF st = true -> seg = []) ->
  match chunk_loop o seg chunk st with
  | (lines, Throw e) => outcome o (skipLF st) (cur st ++ seg) (chunk ++ rest) = (lines, Some e)
  | (lines, Ok st') => ok o st' /\ outcome o (skipLF st) (cur st ++ seg) (chunk ++ rest) = let '(l, e) := outcome o (skipLF st') (cur st') rest in (lines ++ l, e)
  end.
Proof.
  induction chunk as [|c chunk IH]; intros seg st Hok Hseg; cbn [chunk_loop app].
  - pose proof (append_spec o seg st Hok) as Ha. destruct (too_long o (cur st ++ seg)) eqn:Et.
    + rewrite Ha. destruct (skipLF st) eqn:Es; [|by apply outcome_too_long]. destruct Hok as (_ & Ht & _). rewrite Hseg, app_nil_r in Et by done. congruence.
    + destruct Ha as (st' & -> & Ec & Hl & Hs). split; [split; [done|split; [by rewrite Ec|]]|].
      * rewrite Hs. intros Hsk. destruct Hok as (_ & _ & Hk). destruct (Hk Hsk) as [? E]. by rewrite Ec, E, Hseg.
      * rewrite Ec, Hs. by destruct (outcome _ _ _ _).
  - set (st' := {| parts := parts st; len := len st; skipLF := false |}). assert (Hok' : ok o st') by (destruct Hok as (? & ? & ?); by split_and!).
    destruct (skipLF st && (c =? 10)) eqn:Esk.
    + apply andb_true_iff in Esk as [Es Ec]. specialize (IH [] st' Hok' ltac:(done)). destruct Hok as (_ & _ & Hk). destruct (Hk Es) as [Hu Hc]. rewrite Hseg, app_nil_r by done.
      assert (E : outcome o (skipLF st) (cur st) (c :: chunk ++ rest) = outcome o (skipLF st') (cur st' ++ []) (chunk ++ rest)).
      { unfold outcome, raw_after at 1. rewrite Es, Ec. cbn [andb]. rewrite raw_after_false, app_nil_r. done. }
      rewrite E. exact IH.
    + assert (E : outcome o (skipLF st) (cur st ++ seg) (c :: chunk ++ rest) = outcome o false (cur st' ++ seg) (c :: chunk ++ rest)).
      { unfold outcome, raw_after at 1. by rewrite Esk, raw_after_false. }
      rewrite E. destruct (negb (c =? 10) && negb (universal o && (c =? 13))) eqn:Ech.
      * specialize (IH (seg ++ [c]) st' Hok' ltac:(done)). assert (E' : outcome o false (cur st' ++ seg) (c :: chunk ++ rest) = outcome o (skipLF st') (cur st' ++ seg ++ [c]) (chunk ++ rest)).
        { unfold outcome. rewrite !raw_after_false. cbn [raw_lines]. apply andb_true_iff in Ech as [->%negb_true_iff ->%negb_true_iff]. by rewrite app_assoc. }
        rewrite E'. exact IH.
      * pose proof (append_spec o seg st' Hok') as Ha. destruct (too_long o (cur st' ++ seg)) eqn:Et; [rewrite Ha; by apply outcome_too_long|].
        destruct Ha as (st2 & -> & Ec & Hl & Hs). cbn [takeLine]. change (concat (parts st2)) with (cur st2). rewrite Ec.
        rewrite outcome_terminator; [|by destruct (c =? 10), (universal o && (c =? 13))|done].
        set (st3 := {| parts := []; len := 0; skipLF := universal o && (c =? 13) |}).
        assert (Hok3 : ok o st3). { split_and!; [done|done|]. cbn. intros [? _]%andb_true_iff. done. }
        specialize (IH [] st3 Hok3 ltac:(done)). change (cur st3 ++ []) with ([] : jsstring) in IH. change (skipLF st3) with (universal o && (c =? 13)) in IH.
        cbn [parts len skipLF]. fold st3. destruct (chunk_loop o [] chunk st3) as [lines [st4|e]].
        -- destruct IH as [Hok4 ->]. split; [done|]. by destruct (outcome o (skipLF st4) _ _), (universal o).
        -- rewrite IH. by destruct (universal o).
Qed.
Lemma chunks_loop_spec o chunks : forall st, ok o st ->
  match chunks_loop o chunks st with
  | (lines, Throw e) => outcome o (skipLF st) (cur st) (concat chunks) = (lines, Some e)
  | (lines, Ok st') => ok o st' /\ outcome o (skipLF st) (cur st) (concat chunks) = let '(l, e) := outcome o (skipLF st') (cur st') [] in (lines ++ l, e)
  end.
Proof.
  induction chunks as [|c chunks IH]; intros st Hok; cbn [chunks_loop concat]; [split; [done|]; by destruct (outcome _ _ _ _)|].
  pose proof (chunk_loop_spec o c (concat chunks) [] st Hok ltac:(done)) as H. rewrite app_nil_r in H. destruct (chunk_loop o [] c st) as [lines [st'|e]]; [|done].
  destruct H as [Hok' E]. specialize (IH st' Hok'). rewrite E. destruct (chunks_loop o chunks st') as [rest [st2|e]]; [|by rewrite IH].
  destruct IH as [Hok2 ->]. split; [done|]. destruct (outcome o (skipLF st2) _ _). by rewrite app_assoc.
Qed.
Definition options_valid (o : SplitLinesOptions) : Prop := forall m, maxLineLength o = Some m -> 0 <= m <= 2 ^ 53 - 1.
(** The lines that are yielded are those of the whole text, up to the first that is
    too long, whatever the chunks. *)
Theorem splitLines_exact o chunks : options_valid o -> splitLines o chunks None = lines_of o (concat chunks).
Proof.
  intros Hv. unfold splitLines. assert (Hm : match maxLineLength o with Some m => negb (isSafeInteger m) || (m <? 0) | None => false end = false).
  { destruct (maxLineLength o) as [m|] eqn:E; [|done]. specialize (Hv m E). unfold isSafeInteger. destruct (Z.leb_spec (Z.abs m) (2 ^ 53 - 1)); [|lia]. cbn. lia. }
  rewrite Hm. set (st0 := {| parts := []; len := 0; skipLF := false |}). assert (H0 : ok o st0) by done.
  pose proof (chunks_loop_spec o chunks st0 H0) as H. change (skipLF st0) with false in H.
  assert (El : lines_of o (concat chunks) = outcome o false [] (concat chunks)) by (unfold lines_of, outcome; by rewrite raw_after_false). rewrite El.
  change (cur st0) with ([] : jsstring) in H. destruct (chunks_loop o chunks st0) as [lines [st'|e]]; [|by rewrite H]. destruct H as [(Hl & Ht & Hs) ->].
  unfold finish, outcome, raw_after. cbn [bounded_lines takeLine fst]. fold (cur st'). rewrite Hl. destruct (cur st') as [|u c] eqn:Ec.
  - unfold exceeds. change (zlen []) with 0. destruct (maxLineLength o) as [m|] eqn:Em; [|done]. specialize (Hv m Em). destruct (Z.ltb_spec (m + 0) 0); [lia|done].
  - rewrite bool_decide_eq_false_2 by done. cbn [negb andb orb]. destruct (exceeds o _ _); [done|]. rewrite zlen_cons. pose proof (zlen_nonneg c). replace (0 <? 1 + zlen c) with true by lia.
    cbn [andb]. by destruct (emit_final o).
Qed.
End TextLines.
