(* ===== verification/EventStream.v ===== *)
(** Server-sent events: the reader and the writer of
    src/js/net/http/eventstream.ts, over the lines of [TextLines].

    A reader is modelled by the events that it yields until its source ends; the
    source is a list of chunks.  [retry] of the writer is given by its floor. *)

From S2P Require Import Prelude JsArith JsString Utf8 TextDecoder TextLines.

Module EventStream.
Import JsArith(number).

Record SseEvent := { type : jsstring; data : jsstring; id : option jsstring; retry : option number }.
Record SseEventOptions := { o_data : jsstring; o_event : option jsstring; o_id : option jsstring; o_retry : option Z }.

(** ** Reading *)

(** The variables of [#parse], with [#lastEventId]. *)
Record state := { eventType : jsstring; datas : list jsstring; eventId : option jsstring; hasData : bool; s_retry : option number; lastEventId : jsstring }.
Definition cleared (lastEventId : jsstring) : state :=
  {| eventType := []; datas := []; eventId := None; hasData := false; s_retry := None; lastEventId := lastEventId |}.
(** A line that is not blank, cut at its first colon. *)
Definition field_value (line : jsstring) : jsstring * jsstring :=
  match JsString.indexOf 58 line with
  | None => (line, [])
  | Some colonIdx =>
      let rest := drop (S colonIdx) line in
      (take colonIdx line, match rest with u :: value => if u =? 32 then value else rest | [] => rest end)
  end.
Definition on_field (field value : jsstring) (s : state) : state :=
  if bool_decide (field = js "data") then
    {| eventType := eventType s; datas := datas s ++ [value]; eventId := eventId s; hasData := true; s_retry := s_retry s; lastEventId := lastEventId s |}
  else if bool_decide (field = js "event") then
    {| eventType := value; datas := datas s; eventId := eventId s; hasData := hasData s; s_retry := s_retry s; lastEventId := lastEventId s |}
  else if bool_decide (field = js "id") then
    if bool_decide (0 ∈ value) then s
    else {| eventType := eventType s; datas := datas s; eventId := Some value; hasData := hasData s; s_retry := s_retry s; lastEventId := lastEventId s |}
  else if bool_decide (field = js "retry") then
    if JsString.numeral value
    then {| eventType := eventType s; datas := datas s; eventId := eventId s; hasData := hasData s; s_retry := Some (JsArith.decimal (JsString.dec_val value) 0); lastEventId := lastEventId s |}
    else s
  else s.
(** One round of the loop: the event that is yielded, if any. *)
Definition on_line (line : jsstring) (s : state) : option SseEvent * state :=
  match line with
  | [] =>
      let last := if hasData s then default (lastEventId s) (eventId s) else lastEventId s in
      (if hasData s then
         Some {| type := if bool_decide (eventType s = []) then js "message" else eventType s; data := join [10] (datas s); id := eventId s; retry := s_retry s |}
       else None, cleared last)
  | u :: _ => if u =? 58 then (None, s) else let '(field, value) := field_value line in (None, on_field field value s)
  end.
Fixpoint parse_lines (lines : list jsstring) (s : state) : list SseEvent * state :=
  match lines with
  | [] => ([], s)
  | line :: lines =>
      let '(e, s) := on_line line s in
      let '(es, s) := parse_lines lines s in
      (match e with Some e => e :: es | None => es end, s)
  end.
Definition sse_lines : TextLines.SplitLinesOptions := {| TextLines.universal := true; TextLines.emit_final := false; TextLines.maxLineLength := None |}.
(** Reading a source to its end: the events, the last id, and the error. *)
Definition parseEventStream (chunks : list (list Z)) : list SseEvent * jsstring * option exn :=
  let '(lines, e) := TextLines.readLines sse_lines (js "utf-8") false false chunks in
  let '(es, s) := parse_lines lines (cleared []) in
  (es, lastEventId s, e).

(** ** Writing *)

Definition field_line (name value : jsstring) : jsstring := name ++ js ": " ++ value ++ [10].
Definition opt_field (name : jsstring) (value : option jsstring) : jsstring := match value with Some v => field_line name v | None => [] end.
(** [String(n)] of an integer below 10^21. *)
Definition int_str (n : Z) : jsstring := if n <? 0 then 45 :: JsString.dec_str (- n) else JsString.dec_str n.
Definition write_frame (o : SseEventOptions) : jsstring :=
  opt_field (js "event") (o_event o) ++
  concat (map (field_line (js "data")) (JsString.split_on 10 (o_data o))) ++
  opt_field (js "id") (o_id o) ++
  opt_field (js "retry") (int_str <$> o_retry o) ++ [10].
Definition comment_frame (text : jsstring) : jsstring := concat (map (field_line []) (JsString.split_on 10 text)) ++ [10].
Definition retry_frame (ms : Z) : jsstring := field_line (js "retry") (int_str ms) ++ [10].

(** The calls on a writer and the bytes that they write. *)
Inductive call := Write (o : SseEventOptions) | Comment (text : jsstring) | Retry (ms : Z).
Definition frame (c : call) : jsstring :=
  match c with Write o => write_frame o | Comment text => comment_frame text | Retry ms => retry_frame ms end.
Definition written (cs : list call) : list Z := concat (map (fun c => Utf8.encodeUtf8 (frame c)) cs).

(** ** What is written is read *)

(** Text that a field can hold: no lone surrogates and no carriage return. *)
Definition plain (s : jsstring) : Prop := Forall Utf8.is_unit s /\ Utf8.toWellFormed s = s /\ 13 ∉ s.
Definition one_line (s : jsstring) : Prop := plain s /\ 10 ∉ s.
Definition call_ok (c : call) : Prop :=
  match c with
  | Write o =>
      plain (o_data o) /\ (forall e, o_event o = Some e -> one_line e) /\ (forall i, o_id o = Some i -> one_line i /\ 0 ∉ i) /\
      (forall n, o_retry o = Some n -> Z.abs n < 2 ^ 53)
  | Comment text => plain text
  | Retry ms => Z.abs ms < 2 ^ 53
  end.
(** The event that a reader makes of a call. *)
Definition event_of (c : call) : option SseEvent :=
  match c with
  | Write o => Some {|
      type := match o_event o with Some e => if bool_decide (e = []) then js "message" else e | None => js "message" end;
      data := o_data o; id := o_id o;
      retry := n ← o_retry o; if 0 <=? n then Some (JsArith.of_int n) else None |}
  | _ => None
  end.
Definition last_id (last : jsstring) (cs : list call) : jsstring :=
  foldl (fun last c => match c with Write o => default last (o_id o) | _ => last end) last cs.

(** *** Lines *)
Definition unlines (ls : list jsstring) : jsstring := concat (map (fun l => l ++ [10]) ls).
Definition field_text (name value : jsstring) : jsstring := name ++ js ": " ++ value.
Definition opt_text (name : jsstring) (value : option jsstring) : list jsstring := match value with Some v => [field_text name v] | None => [] end.
Definition lines_of_call (c : call) : list jsstring :=
  match c with
  | Write o => opt_text (js "event") (o_event o) ++ map (field_text (js "data")) (JsString.split_on 10 (o_data o)) ++
      opt_text (js "id") (o_id o) ++ opt_text (js "retry") (int_str <$> o_retry o) ++ [[]]
  | Comment text => map (field_text []) (JsString.split_on 10 text) ++ [[]]
  | Retry ms => [field_text (js "retry") (int_str ms); []]
  end.
Lemma unlines_app a b : unlines (a ++ b) = unlines a ++ unlines b.
Proof. unfold unlines. by rewrite map_app, concat_app. Qed.
Lemma unlines_fields name vs : unlines (map (field_text name) vs) = concat (map (field_line name) vs).
Proof.
  unfold unlines. rewrite map_map. f_equal. apply map_ext. intros v. unfold field_text, field_line. by rewrite <- !app_assoc.
Qed.
Lemma unlines_opt name v : unlines (opt_text name v) = opt_field name v.
Proof. destruct v as [v|]; [|done]. cbn. unfold field_text, field_line. by rewrite app_nil_r, <- !app_assoc. Qed.
Lemma frame_lines c : frame c = unlines (lines_of_call c).
Proof.
  destruct c as [o|text|ms]; cbn [frame lines_of_call].
  - unfold write_frame. by rewrite !unlines_app, unlines_fields, !unlines_opt.
  - unfold comment_frame. by rewrite unlines_app, unlines_fields.
  - unfold retry_frame, unlines, field_text, field_line. cbn [map concat]. by rewrite <- !app_assoc.
Qed.
Lemma raw_unlines ls : Forall (fun l => 10 ∉ l /\ 13 ∉ l) ls -> TextLines.raw_lines true [] (unlines ls) = (ls, []).
Proof.
  assert (H : forall l cur s, 10 ∉ l -> 13 ∉ l -> TextLines.raw_lines true cur (l ++ 10 :: s) = let '(ls, tail) := TextLines.raw_lines true [] s in ((cur ++ l) :: ls, tail)).
  { induction l as [|u l IH]; intros cur s H1 H2; cbn [app TextLines.raw_lines]; [by rewrite app_nil_r|]. apply not_elem_of_cons in H1 as [N1 H1], H2 as [N2 H2].
    replace (u =? 10) with false by lia. replace (u =? 13) with false by lia. cbn [andb]. rewrite IH by done. by rewrite <- app_assoc. }
  induction 1 as [|l ls [H1 H2] _ IH]; [done|]. unfold unlines in *. cbn [map concat]. rewrite <- app_assoc. cbn [app]. rewrite H, IH by done. done.
Qed.
Lemma bounded_all ls : TextLines.bounded_lines sse_lines ls [] = (ls, None).
Proof.
  induction ls as [|l ls IH]; [done|]. cbn [TextLines.bounded_lines]. rewrite IH. unfold TextLines.too_long, TextLines.exceeds. cbn. by rewrite andb_false_r.
Qed.

(** *** Characters of frames *)
Definition clean (s : jsstring) : Prop := Forall Utf8.is_unit s /\ Utf8.toWellFormed s = s.
Lemma clean_app a b : clean a -> clean b -> clean (a ++ b).
Proof. intros [Ha Wa] [Hb Wb]. split; [by apply Forall_app|]. by rewrite Utf8.well_formed_app, Wb. Qed.
Lemma clean_concat ss : Forall clean ss -> clean (concat ss).
Proof. induction 1 as [|s ss Hs _ IH]; [by split; [constructor|]|]. by apply clean_app. Qed.
Lemma ascii_clean s : Forall (fun u => 0 <= u < 128) s -> clean s.
Proof.
  induction 1 as [|u s Hu _ [IH1 IH2]]; [by split; [constructor|]|]. split; [constructor; [unfold Utf8.is_unit; lia|done]|]. cbn [Utf8.toWellFormed].
  assert (E : Utf8.is_hi u = false /\ Utf8.is_lo u = false) by (unfold Utf8.is_hi, Utf8.is_lo; lia). destruct E as [-> ->]. by rewrite IH2.
Qed.
Lemma int_str_ascii n : Forall (fun u => 0 <= u < 128 /\ u <> 10 /\ u <> 13 /\ u <> 58) (int_str n).
Proof.
  assert (H : forall m, 0 <= m -> Forall (fun u => 0 <= u < 128 /\ u <> 10 /\ u <> 13 /\ u <> 58) (JsString.dec_str m)).
  { intros m Hm. destruct (JsString.dec_str_facts m Hm) as ([_ Hd] & _). eapply Forall_impl; [exact Hd|]. intros u Hu. unfold JsString.is_dec in Hu. cbn. lia. }
  unfold int_str. destruct (Z.ltb_spec n 0); [constructor; [lia|]|]; apply H; lia.
Qed.
(** Parts of a text without lone surrogates that a line feed separates have none. *)
Lemma clean_split a b : clean (a ++ 10 :: b) -> clean a /\ clean b.
Proof.
  intros [Hu Hw]. apply Forall_app in Hu as [Ha Hb]. apply Forall_cons in Hb as [_ Hb].
  enough (H : Utf8.toWellFormed a = a /\ Utf8.toWellFormed b = b) by (by destruct H).
  clear Ha Hb. revert Hw. induction a as [|u a IH] using Utf8.unit_ind; cbn [app Utf8.toWellFormed].
  - change (Utf8.is_hi 10) with false. change (Utf8.is_lo 10) with false. cbn. intros [= E]. done.
  - assert (Hf : Utf8.is_hi 65533 = false /\ Utf8.is_lo 65533 = false) by done. destruct (Utf8.is_hi u) eqn:Eu.
    + destruct a as [|lo a]; cbn [app].
      * change (Utf8.is_lo 10) with false. cbv iota. intros [= <- _]. destruct Hf. congruence.
      * destruct (Utf8.is_lo lo); [|intros [= <- _]; destruct Hf; congruence]. intros [= E]. destruct (IH a) as [-> ->]; [cbn; lia|done|done].
    + destruct (Utf8.is_lo u) eqn:El; [intros [= <- _]; destruct Hf; congruence|]. intros [= E]. by destruct (IH a) as [-> ->].
Qed.
Lemma split_clean s : clean s -> Forall clean (JsString.split_on 10 s).
Proof.
  intros Hs. rewrite <- (JsString.join_split_on 10 s) in Hs. induction (JsString.split_on 10 s) as [|p ps IH]; [done|].
  destruct ps as [|q ps]; [apply Forall_cons_2; [exact Hs|apply Forall_nil_2]|]. change (join [10] (p :: q :: ps)) with (p ++ 10 :: join [10] (q :: ps)) in Hs.
  destruct (clean_split _ _ Hs) as [Hp Hq]. constructor; auto.
Qed.
Lemma split_elem c d s p : p ∈ JsString.split_on c s -> d ∈ p -> d ∈ s.
Proof.
  intros Hp Hd. rewrite <- (JsString.join_split_on c s). revert Hp. induction (JsString.split_on c s) as [|q qs IH]; intros Hp; [by apply elem_of_nil in Hp|].
  apply elem_of_cons in Hp as [->|Hp]; destruct qs as [|r rs].
  - done.
  - change (join [c] (q :: r :: rs)) with (q ++ c :: join [c] (r :: rs)). apply elem_of_app. by left.
  - by apply elem_of_nil in Hp.
  - change (join [c] (q :: r :: rs)) with (q ++ c :: join [c] (r :: rs)). apply elem_of_app. right. right. by apply IH.
Qed.

(** A line of a frame. *)
Definition frame_line (l : jsstring) : Prop := clean l /\ 10 ∉ l /\ 13 ∉ l.
Lemma field_text_line name v : Forall (fun u => 0 <= u < 128 /\ u <> 10 /\ u <> 13) name -> frame_line v -> frame_line (field_text name v).
Proof.
  intros Hn (Hc & H1 & H2). assert (Hsep : 10 ∉ js ": " /\ 13 ∉ js ": ") by (split; by apply (bool_decide_unpack _); vm_compute). unfold field_text. split_and!.
  - apply clean_app; [apply ascii_clean; eapply Forall_impl; [exact Hn|]; cbn; tauto|]. apply clean_app; [by apply ascii_clean; repeat constructor|done].
  - rewrite !elem_of_app. intros [H|[H|H]]; [rewrite Forall_forall in Hn; by destruct (Hn _ H) as (_ & ? & _)|tauto|done].
  - rewrite !elem_of_app. intros [H|[H|H]]; [rewrite Forall_forall in Hn; by destruct (Hn _ H) as (_ & _ & ?)|tauto|done].
Qed.
Lemma empty_line : frame_line [].
Proof. split; [by split; [constructor|]|]. split; apply not_elem_of_nil. Qed.
Lemma int_line n : frame_line (int_str n).
Proof.
  pose proof (int_str_ascii n) as H. split; [apply ascii_clean; eapply Forall_impl; [exact H|]; cbn; tauto|].
  rewrite Forall_forall in H. split; intros Hx; apply H in Hx; lia.
Qed.
Lemma split_lines s : plain s -> Forall frame_line (JsString.split_on 10 s).
Proof.
  intros (Hu & Hw & Hr). pose proof (split_clean s (conj Hu Hw)) as Hc. pose proof (JsString.split_on_free 10 s) as Hf. apply Forall_forall. intros p Hp.
  rewrite Forall_forall in Hc, Hf. split; [by apply Hc|]. split; [by apply Hf|]. intros H13. apply Hr. by eapply split_elem.
Qed.
Lemma one_line_frame v : one_line v -> frame_line v.
Proof. intros [(Hu & Hw & Hr) Hn]. by split. Qed.
Lemma name_ok (name : jsstring) : bool_decide (Forall (fun u => 0 <= u < 128 /\ u <> 10 /\ u <> 13) name) = true -> Forall (fun u => 0 <= u < 128 /\ u <> 10 /\ u <> 13) name.
Proof. apply bool_decide_eq_true. Qed.
Lemma call_lines c : call_ok c -> Forall frame_line (lines_of_call c).
Proof.
  assert (Ho : forall name v, bool_decide (Forall (fun u => 0 <= u < 128 /\ u <> 10 /\ u <> 13) name) = true -> (forall x, v = Some x -> frame_line x) -> Forall frame_line (opt_text name v)).
  { intros name [v|] Hn Hv; [|apply Forall_nil_2]. apply Forall_cons_2; [|apply Forall_nil_2]. apply field_text_line; [by apply name_ok|by apply Hv]. }
  assert (Hm : forall name s, bool_decide (Forall (fun u => 0 <= u < 128 /\ u <> 10 /\ u <> 13) name) = true -> plain s -> Forall frame_line (map (field_text name) (JsString.split_on 10 s))).
  { intros name s Hn Hs. apply Forall_map. eapply Forall_impl; [by apply split_lines|]. intros v Hv. apply field_text_line; [by apply name_ok|done]. }
  assert (He : Forall frame_line [[]]) by (apply Forall_cons_2; [apply empty_line|apply Forall_nil_2]).
  destruct c as [o|text|ms]; cbn [call_ok lines_of_call].
  - intros (Hd & Hev & Hi & _). repeat (apply Forall_app; split); [apply Ho; [done|]|by apply Hm|apply Ho; [done|]|apply Ho; [done|]|done].
    + intros e He'. by apply one_line_frame, Hev.
    + intros i Hi'. by apply one_line_frame, Hi.
    + intros x (n & _ & ->)%fmap_Some. apply int_line.
  - intros Ht. apply Forall_app. split; [by apply Hm|done].
  - intros _. apply Forall_cons_2; [|done]. apply field_text_line; [by apply name_ok|apply int_line].
Qed.
Lemma unlines_clean ls : Forall frame_line ls -> clean (unlines ls).
Proof.
  intros H. apply clean_concat, Forall_map. eapply Forall_impl; [exact H|]. intros l (Hc & _). apply clean_app; [done|]. by apply ascii_clean; repeat constructor.
Qed.

(** *** Lines are parsed *)
Lemma parse_app a b : forall s, parse_lines (a ++ b) s = let '(es, s1) := parse_lines a s in let '(es', s2) := parse_lines b s1 in (es ++ es', s2).
Proof.
  induction a as [|l a IH]; intros s; cbn [app parse_lines]; [by destruct (parse_lines b s)|]. destruct (on_line l s) as [e s0]. rewrite IH.
  destruct (parse_lines a s0) as [es s1], (parse_lines b s1) as [es' s2]. by destruct e.
Qed.
Lemma on_field_text name v s : name <> [] -> 58 ∉ name -> on_line (field_text name v) s = (None, on_field name v s).
Proof.
  intros Hne Hc. unfold field_text. assert (Hf : field_value (name ++ js ": " ++ v) = (name, v)).
  { unfold field_value. change (js ": " ++ v) with (58 :: 32 :: v). rewrite JsString.indexOf_app by done. rewrite take_app_length.
    replace (drop (S (length name)) (name ++ 58 :: 32 :: v)) with (32 :: v); [done|]. rewrite drop_app_ge by lia. replace (S (length name) - length name)%nat with 1%nat by lia. done. }
  destruct name as [|u name]; [done|]. apply not_elem_of_cons in Hc as [Hu _]. unfold on_line. cbn [app] in *. rewrite Hf. by replace (u =? 58) with false by lia.
Qed.
Lemma parse_data vs : forall s, hasData s = true \/ vs <> [] -> parse_lines (map (field_text (js "data")) vs) s =
  ([], {| eventType := eventType s; datas := datas s ++ vs; eventId := eventId s; hasData := true; s_retry := s_retry s; lastEventId := lastEventId s |}).
Proof.
  induction vs as [|v vs IH]; intros s Hs; cbn [map parse_lines].
  - rewrite app_nil_r. destruct Hs as [Hs|?]; [|done]. destruct s. cbn in *. by subst.
  - rewrite on_field_text by (done || (by apply (bool_decide_unpack _); vm_compute)). unfold on_field. rewrite bool_decide_eq_true_2 by done. rewrite IH by (by left). cbn. by rewrite <- app_assoc.
Qed.
Lemma parse_opt name v s : name <> [] -> 58 ∉ name ->
  parse_lines (opt_text name v) s = ([], match v with Some x => on_field name x s | None => s end).
Proof. intros Hn Hc. destruct v as [x|]; [|done]. cbn [opt_text parse_lines]. by rewrite on_field_text. Qed.
Lemma numeral_int n : JsString.numeral (int_str n) = (0 <=? n).
Proof.
  unfold int_str. destruct (Z.ltb_spec n 0); [|rewrite JsString.dec_str_numeral by done; symmetry; apply Z.leb_le; done].
  replace (0 <=? n) with false by lia. done.
Qed.
Lemma retry_value n : Z.abs n < 2 ^ 53 -> 0 <= n -> JsArith.decimal (JsString.dec_val (int_str n)) 0 = JsArith.of_int n.
Proof.
  intros Hn Hp. unfold int_str. replace (n <? 0) with false by lia. destruct (JsString.dec_str_facts n Hp) as (_ & -> & _). by apply JsArith.round_int.
Qed.
Lemma parse_comments vs s : parse_lines (map (field_text []) vs) s = ([], s).
Proof. induction vs as [|v vs IH]; [done|]. 
  change (parse_lines (map (field_text []) (v :: vs)) s) with (let '(es, s') := parse_lines (map (field_text []) vs) s in (es, s')). by rewrite IH.
Qed.
(** The fields of a frame. *)
Lemma parse_write o last : call_ok (Write o) -> parse_lines (lines_of_call (Write o)) (cleared last) =
  (option_list (event_of (Write o)), cleared (default last (o_id o))).
Proof.
  intros (_ & _ & Hi & Hr). cbn [lines_of_call]. assert (Hns : forall name, bool_decide (name <> [] /\ 58 ∉ name) = true -> name <> [] /\ 58 ∉ name) by (intros name Hname; by apply bool_decide_eq_true in Hname).
  rewrite parse_app, parse_opt by (by apply Hns). rewrite parse_app, parse_data by (right; apply JsString.split_on_ne). rewrite parse_app, parse_opt by (by apply Hns).
  rewrite parse_app, parse_opt by (by apply Hns). cbn [app parse_lines on_line].
  set (s1 := match o_event o with Some x => on_field (js "event") x (cleared last) | None => cleared last end).
  assert (H1 : s1 = {| eventType := default [] (o_event o); datas := []; eventId := None; hasData := false; s_retry := None; lastEventId := last |}) by (subst s1; by destruct (o_event o)).
  rewrite H1. cbn [eventType datas eventId hasData s_retry lastEventId app]. clear s1 H1.
  set (s2 := match o_id o with Some x => _ | None => _ end).
  assert (H2 : s2 = {| eventType := default [] (o_event o); datas := JsString.split_on 10 (o_data o); eventId := o_id o; hasData := true; s_retry := None; lastEventId := last |}).
  { subst s2. destruct (o_id o) as [i|]; [|done]. unfold on_field. do 2 rewrite bool_decide_eq_false_2 by done. rewrite bool_decide_eq_true_2 by done.
    rewrite bool_decide_eq_false_2; [done|]. by apply Hi. }
  rewrite H2. clear s2 H2. set (s3 := match int_str <$> o_retry o with Some x => _ | None => _ end).
  assert (H3 : s3 = {| eventType := default [] (o_event o); datas := JsString.split_on 10 (o_data o); eventId := o_id o; hasData := true;
    s_retry := n ← o_retry o; if 0 <=? n then Some (JsArith.of_int n) else None; lastEventId := last |}).
  { subst s3. destruct (o_retry o) as [n|]; [|done]. cbn [fmap option_fmap option_map]. unfold on_field. do 3 rewrite bool_decide_eq_false_2 by done. rewrite bool_decide_eq_true_2 by done.
    rewrite numeral_int. cbn [mbind option_bind]. destruct (Z.leb_spec 0 n); [|done]. by rewrite retry_value by auto. }
  rewrite H3. clear s3 H3. cbn [eventType datas eventId hasData s_retry lastEventId event_of option_list]. rewrite JsString.join_split_on. do 4 f_equal.
  destruct (o_event o) as [e|]; done.
Qed.
Lemma parse_call c last : call_ok c -> parse_lines (lines_of_call c) (cleared last) = (option_list (event_of c), cleared (last_id last [c])).
Proof.
  destruct c as [o|text|ms]; [by apply parse_write| |]; intros Hc; cbn [lines_of_call].
  - rewrite parse_app, parse_comments. done.
  - cbn [parse_lines]. rewrite on_field_text by (done || (by apply (bool_decide_unpack _); vm_compute)). unfold on_field. do 3 rewrite bool_decide_eq_false_2 by done. rewrite bool_decide_eq_true_2 by done.
    destruct (JsString.numeral _); done.
Qed.
Lemma parse_calls cs : Forall call_ok cs -> forall last, parse_lines (concat (map lines_of_call cs)) (cleared last) = (omap event_of cs, cleared (last_id last cs)).
Proof.
  induction 1 as [|c cs Hc _ IH]; intros last; [done|]. cbn [map concat]. rewrite parse_app, parse_call, IH by done. cbn. by destruct (event_of c).
Qed.
Lemma written_text cs : Forall call_ok cs -> let text := unlines (concat (map lines_of_call cs)) in
  clean text /\ written cs = Utf8.encodeUtf8 text /\ (forall u, head text = Some u -> u < 128).
Proof.
  intros H. cbv zeta. split_and!.
  - apply unlines_clean, Forall_concat, Forall_map. eapply Forall_impl; [exact H|]. apply call_lines.
  - induction H as [|c cs Hc Hcs IH]; [done|]. unfold written in *. cbn [map concat]. rewrite unlines_app, <- frame_lines, IH, !Utf8.encodeUtf8_spec.
    assert (Hf : clean (frame c)) by (rewrite frame_lines; by apply unlines_clean, call_lines). destruct Hf as [_ Hw]. by rewrite Utf8.code_points_well_formed_app, bind_app.
  - destruct cs as [|c cs]; [done|]. cbn [map concat]. rewrite unlines_app, <- frame_lines. destruct c as [o|t|ms].
    + intros u. cbn [frame]. unfold write_frame, opt_field. destruct (o_event o); [intros [= <-]; lia|]. pose proof (JsString.split_on_ne 10 (o_data o)).
      destruct (JsString.split_on 10 (o_data o)); [done|]. intros [= <-]. lia.
    + intros u. cbn [frame]. unfold comment_frame. pose proof (JsString.split_on_ne 10 t). destruct (JsString.split_on 10 t); [done|]. intros [= <-]. lia.
    + intros u [= <-]. lia.
Qed.
(** C22: what a writer sends arrives as it was written, in whatever chunks: the
    reader yields one event for each [write], with its type, its data, its id and
    its retry interval, none for comments and for retry frames without data
    ([retry_frame_lost]), and ends without error. The texts can be written in fields
    ([call_ok]): data and comments without CR, types and ids in one line, ids
    without NUL, nothing with lone surrogates. *)
Theorem event_stream_roundtrip (cs : list call) (chunks : list (list Z)) : Forall call_ok cs -> concat chunks = written cs ->
  parseEventStream chunks = (omap event_of cs, last_id [] cs, None).
Proof.
  intros Hok Hc. destruct (written_text cs Hok) as ([Hu Hw] & E & Hh). set (ls := concat (map lines_of_call cs)) in *.
  destruct (TextDecoder.decodeText_encoded (unlines ls) chunks Hu Hw Hh) as (texts & Ed & Et); [by rewrite Hc|].
  unfold parseEventStream, TextLines.readLines. rewrite Ed, TextLines.splitLines_exact by done. rewrite Et. unfold TextLines.lines_of.
  change (TextLines.universal sse_lines) with true. rewrite raw_unlines.
  - rewrite bounded_all. subst ls. by rewrite parse_calls.
  - assert (Hl : Forall frame_line ls) by (apply Forall_concat, Forall_map; eapply Forall_impl; [exact Hok|]; apply call_lines).
    eapply Forall_impl; [exact Hl|]. by intros l (_ & ? & ?).
Qed.

(** ** Examples *)
Definition sample_calls : list call :=
  [ Comment (js "hello"); Write {| o_data := js "one" ++ 10 :: js "two"; o_event := Some (js "update"); o_id := Some (js "42"); o_retry := Some 250 |};
    Retry 5000; Write {| o_data := [8364]; o_event := None; o_id := None; o_retry := None |} ].
Lemma sample_calls_ok : Forall call_ok sample_calls.
Proof.
  assert (Hp : forall s, bool_decide (Forall (fun u => 0 <= u < 65536) s /\ Utf8.toWellFormed s = s /\ 13 ∉ s) = true -> plain s) by (intros s Hs; by apply bool_decide_eq_true in Hs).
  assert (Hn : forall c s, bool_decide (c ∉ s) = true -> c ∉ (s : jsstring)) by (intros c s Hs; by apply bool_decide_eq_true in Hs).
  repeat apply Forall_cons_2; [| | | |apply Forall_nil_2]; cbn [call_ok o_data o_event o_id o_retry].
  - by apply Hp; vm_compute.
  - split_and!; [by apply Hp; vm_compute| | |by intros n [= <-]].
    + intros e [= <-]. split; [by apply Hp; vm_compute|by apply Hn; vm_compute].
    + intros i [= <-]. split; [split; [by apply Hp; vm_compute|by apply Hn; vm_compute]|by apply Hn; vm_compute].
  - done.
  - split_and!; [by apply Hp; vm_compute|done|done|done].
Qed.
Lemma event_stream_roundtrip_witness : parseEventStream (map (fun b => [b]) (written sample_calls)) =
  ([ {| type := js "update"; data := js "one" ++ 10 :: js "two"; id := Some (js "42"); retry := Some (JsArith.of_int 250) |};
     {| type := js "message"; data := [8364]; id := None; retry := None |} ], js "42", None).
Proof. rewrite (event_stream_roundtrip sample_calls); [done|apply sample_calls_ok|by vm_compute]. Defined.
(** A retry frame of its own never reaches the client of the reader. *)
Lemma retry_frame_lost : parseEventStream [written [Retry 5000; Write {| o_data := js "x"; o_event := None; o_id := None; o_retry := None |}]] =
  ([ {| type := js "message"; data := js "x"; id := None; retry := None |} ], [], None).
Proof. by vm_compute. Qed.
End EventStream.
