(* ===== verification/Store.v ===== *)
(** Key-value stores (src/js/store.ts): the data of commits, their validation, and
    the interface that providers implement.

    [Class Store] is the interface with its optional capabilities; a provider keeps
    one state for all namespaces, a store object is the name of its namespace.
    [spec_step] says what an operation does to a map from namespaces and keys to
    records, and [Class StoreLaws] that a provider does the same.  An operation is
    called with a reading of the clock and a supply of UUIDs ([call]); operations
    on one provider follow each other, and the clock stands still during one.
    [None] is the value [null]. *)

From Stdlib Require Import QArith.
From S2P Require Import Prelude JsArith.

Module Store.
Import JsArith(number, Finite, Infinite, NaN).
Local Open Scope Z_scope.

(** [x <= y] on numbers. *)
Definition leb (x y : number) : bool :=
  match x, y with
  | NaN, _ | _, NaN => false
  | Infinite true, _ | _, Infinite false => true
  | Finite p, Finite q => Qle_bool p q
  | _, _ => false
  end.

Record call := { now : number; uuid : nat -> jsstring }.

Definition childNamespace (parent child : jsstring) : res jsstring :=
  if (length child =? 0)%nat then Throw (TypeError "Store namespace must not be empty") else Ok (parent ++ 0 :: child).
Definition normalizedTtl (ttlMs : number) : res number :=
  match ttlMs with
  | Finite q => Ok (Finite (if Qle_bool q 0 then 0 else q)%Q)
  | _ => Throw (TypeError "Store ttlMs must be finite")
  end.
(** [ttlMs === undefined ? null : clock.now() + normalizedTtl(ttlMs)] *)
Definition expiry (now : number) (ttlMs : option number) : res (option number) :=
  match ttlMs with None => Ok None | Some t => n ← normalizedTtl t; Ok (Some (JsArith.add now n)) end.

Section values.
Context {V : Type}.
Definition value : Type := option V.
Record MemoryRecord := { r_value : value; r_version : jsstring; r_expiresAt : option number }.
Record StoreCheck := { check_key : jsstring; ifVersion : option jsstring }.
Record StoreWrite := { write_key : jsstring; write_value : value; write_ttlMs : option number }.
(** Lists that are left out are empty. *)
Record StoreCommit := { checks : list StoreCheck; writes : list StoreWrite; deletes : list jsstring }.
Record VersionedStoreEntry := { e_key : jsstring; e_value : value; e_version : jsstring }.

Fixpoint validate_writes (supportsExpiration : bool) (writeKeys : list jsstring) (ws : list StoreWrite) : res (list jsstring) :=
  match ws with
  | [] => Ok writeKeys
  | w :: ws =>
      if bool_decide (write_key w ∈ writeKeys) then Throw (TypeError "Store commit writes twice")
      else
        _ ← match write_ttlMs w with
            | None => Ok tt
            | Some t =>
                if supportsExpiration then _ ← normalizedTtl t; Ok tt
                else Throw (TypeError "Store commit TTL requires the expiration capability")
            end;
        validate_writes supportsExpiration (write_key w :: writeKeys) ws
  end.
Fixpoint validate_deletes (writeKeys deleteKeys : list jsstring) (ks : list jsstring) : res unit :=
  match ks with
  | [] => Ok tt
  | k :: ks =>
      if bool_decide (k ∈ deleteKeys) then Throw (TypeError "Store commit deletes twice")
      else if bool_decide (k ∈ writeKeys) then Throw (TypeError "Store commit writes and deletes")
      else validate_deletes writeKeys (k :: deleteKeys) ks
  end.
Fixpoint validate_checks (checkKeys : list jsstring) (cs : list StoreCheck) : res unit :=
  match cs with
  | [] => Ok tt
  | ch :: cs =>
      if bool_decide (check_key ch ∈ checkKeys) then Throw (TypeError "Store commit checks twice")
      else validate_checks (check_key ch :: checkKeys) cs
  end.
Definition validateMutation (mu : StoreCommit) (supportsExpiration : bool) : res unit :=
  writeKeys ← validate_writes supportsExpiration [] (writes mu);
  _ ← validate_deletes writeKeys [] (deletes mu);
  validate_checks [] (checks mu).

(** ** The interface *)
Record AtomicStoreCapability (provider : Type) := {
  getEntry : call -> jsstring -> jsstring -> ST provider (option VersionedStoreEntry);
  commit : call -> jsstring -> StoreCommit -> ST provider (option (list VersionedStoreEntry));
}.
Class Store := {
  provider : Type;
  get : call -> jsstring -> jsstring -> ST provider value;
  set : call -> jsstring -> jsstring -> value -> ST provider unit;
  delete : call -> jsstring -> jsstring -> ST provider bool;
  list_ : call -> jsstring -> jsstring -> ST provider (list (jsstring * value));
  atomic : option (AtomicStoreCapability provider);
  expiration : option (call -> jsstring -> jsstring -> value -> number -> ST provider unit);
}.

(** Operations in a namespace, as steps. *)
Inductive op :=
| Get (ns key : jsstring)
| Set_ (ns key : jsstring) (v : value)
| SetTtl (ns key : jsstring) (v : value) (ttlMs : number)
| Delete (ns key : jsstring)
| List_ (ns prefix : jsstring)
| GetEntry (ns key : jsstring)
| Commit (ns : jsstring) (mu : StoreCommit).
Inductive output :=
| OValue (v : value)
| OUnit
| OBool (b : bool)
| OList (l : list (jsstring * value))
| OEntry (e : option VersionedStoreEntry)
| OCommit (r : option (list VersionedStoreEntry)).
Definition missing {S A} : ST S A := throw (TypeError "undefined is not a function").
Definition call_op `{S : Store} (c : call) (o : op) : ST provider output :=
  match o with
  | Get ns k => v ← get c ns k; mret (OValue v)
  | Set_ ns k v => set c ns k v;; mret OUnit
  | SetTtl ns k v t => match expiration with Some f => f c ns k v t;; mret OUnit | None => missing end
  | Delete ns k => b ← delete c ns k; mret (OBool b)
  | List_ ns prefix => l ← list_ c ns prefix; mret (OList l)
  | GetEntry ns k => match atomic with Some a => e ← getEntry _ a c ns k; mret (OEntry e) | None => missing end
  | Commit ns mu => match atomic with Some a => r ← commit _ a c ns mu; mret (OCommit r) | None => missing end
  end.
(** A call that throws leaves the provider as it was. *)
Definition step `{S : Store} (c : call) (o : op) (p : provider) : res output * provider :=
  match call_op c o p with Ok (out, p) => (Ok out, p) | Throw e => (Throw e, p) end.
Fixpoint exec `{S : Store} (h : list (call * op)) (p : provider) : list (res output) * provider :=
  match h with
  | [] => ([], p)
  | (c, o) :: h => let '(out, p) := step c o p in let '(outs, p) := exec h p in (out :: outs, p)
  end.

(** ** What the operations promise *)
Local Notation contents := (gmap (jsstring * jsstring) MemoryRecord).
Definition expired (now : number) (r : MemoryRecord) : bool := match r_expiresAt r with Some e => leb e now | None => false end.
Definition live (now : number) (r : option MemoryRecord) : option MemoryRecord :=
  match r with Some r => if expired now r then None else Some r | None => None end.
Definition record_of (c : call) (i : nat) (w : StoreWrite) : MemoryRecord :=
  {| r_value := write_value w; r_version := uuid c i;
     r_expiresAt := match expiry (now c) (write_ttlMs w) with Ok e => e | Throw _ => None end |}.
Fixpoint put_all (c : call) (ns : jsstring) (i : nat) (ws : list StoreWrite) (m : contents) : contents :=
  match ws with [] => m | w :: ws => put_all c ns (S i) ws (<[(ns, write_key w) := record_of c i w]> m) end.
Definition delete_all (ns : jsstring) (ks : list jsstring) (m : contents) : contents :=
  foldl (fun m k => base.delete (ns, k) m) m ks.
Definition written (c : call) (ws : list StoreWrite) : list VersionedStoreEntry :=
  imap (fun i w => {| e_key := write_key w; e_value := write_value w; e_version := uuid c i |}) ws.
Definition check_holds (t : number) (ns : jsstring) (m : contents) (ch : StoreCheck) : bool :=
  bool_decide (r_version <$> live t (m !! (ns, check_key ch)) = ifVersion ch).
Definition spec_commit (c : call) (ns : jsstring) (mu : StoreCommit) (m : contents) : res (option (list VersionedStoreEntry)) * contents :=
  match validateMutation mu true with
  | Throw e => (Throw e, m)
  | Ok _ =>
      if forallb (check_holds (now c) ns m) (checks mu) then
        (Ok (Some (written c (writes mu))), put_all c ns 0 (writes mu) (delete_all ns (deletes mu) m))
      else (Ok None, m)
  end.
Definition single (k : jsstring) (v : value) (t : option number) : StoreCommit :=
  {| checks := []; writes := [{| write_key := k; write_value := v; write_ttlMs := t |}]; deletes := [] |}.
Definition starts_with (prefix s : jsstring) : bool := bool_decide (prefix `prefix_of` s).
Definition listed (t : number) (ns prefix : jsstring) (m : contents) : list (jsstring * value) :=
  omap (fun '((ns', k), r) => if bool_decide (ns' = ns) && starts_with prefix k && negb (expired t r) then Some (k, r_value r) else None)
    (map_to_list m).
Definition spec_step (c : call) (o : op) (m : contents) : res output * contents :=
  let alive ns k := live (now c) (m !! (ns, k)) in
  let wrote x := match x with (Ok _, m) => (Ok OUnit, m) | (Throw e, m) => (Throw e, m) end in
  match o with
  | Get ns k => (Ok (OValue (alive ns k ≫= r_value)), m)
  | Set_ ns k v => wrote (spec_commit c ns (single k v None) m)
  | SetTtl ns k v t => wrote (spec_commit c ns (single k v (Some t)) m)
  | Delete ns k => (Ok (OBool (bool_decide (is_Some (alive ns k)))), base.delete (ns, k) m)
  | List_ ns prefix => (Ok (OList (listed (now c) ns prefix m)), m)
  | GetEntry ns k => (Ok (OEntry ((fun r => {| e_key := k; e_value := r_value r; e_version := r_version r |}) <$> alive ns k)), m)
  | Commit ns mu => match spec_commit c ns mu m with (Ok r, m) => (Ok (OCommit r), m) | (Throw e, m) => (Throw e, m) end
  end.
Fixpoint spec_exec (h : list (call * op)) (m : contents) : list (res output) * contents :=
  match h with
  | [] => ([], m)
  | (c, o) :: h => let '(out, m) := spec_step c o m in let '(outs, m) := spec_exec h m in (out :: outs, m)
  end.
(** The order of a listing is the provider's. *)
Definition agrees (a b : res output) : Prop :=
  match a, b with Ok (OList l), Ok (OList l') => l ≡ₚ l' | _, _ => a = b end.
(** Readings that never go back. *)
Fixpoint clock_runs (t : number) (h : list (call * op)) : Prop :=
  match h with [] => True | (c, _) :: h => leb t (now c) = true /\ clock_runs (now c) h end.

(** The strings, times and values that an operation works with. *)
Definition ttl_ok (time_ok : number -> Prop) (c : call) (ttlMs : option number) : Prop :=
  forall e, expiry (now c) ttlMs = Ok (Some e) -> time_ok e.
Definition op_ok (name_ok key_ok : jsstring -> Prop) (time_ok : number -> Prop) (value_ok : value -> Prop) (c : call) (o : op) : Prop :=
  ((forall i, key_ok (uuid c i)) /\ time_ok (now c)) /\
  match o with
  | Get ns k | Delete ns k | GetEntry ns k => name_ok ns /\ key_ok k
  | Set_ ns k v => name_ok ns /\ key_ok k /\ value_ok v
  | SetTtl ns k v ttlMs => name_ok ns /\ key_ok k /\ value_ok v /\ ttl_ok time_ok c (Some ttlMs)
  | List_ ns prefix => name_ok ns /\ key_ok prefix
  | Commit ns mu => name_ok ns /\ Forall key_ok (deletes mu) /\
      Forall (fun ch => key_ok (check_key ch) /\ forall v, ifVersion ch = Some v -> key_ok v) (checks mu) /\
      Forall (fun w => key_ok (write_key w) /\ value_ok (write_value w) /\ ttl_ok time_ok c (write_ttlMs w)) (writes mu)
  end.
Definition supported `{S : Store} (o : op) : Prop :=
  match o with SetTtl _ _ _ _ => is_Some expiration | GetEntry _ _ | Commit _ _ => is_Some atomic | _ => True end.

Class StoreLaws (S : Store) := {
  (** The strings, times and values that the provider keeps apart and gives back. *)
  name_ok : jsstring -> Prop;
  key_ok : jsstring -> Prop;
  time_ok : number -> Prop;
  value_ok : value -> Prop;
  (** What a provider holds from a time on. *)
  holds : number -> provider -> contents -> Prop;
  holds_same t p m m' :
    (forall k t', leb t t' = true -> live t' (m !! k) = live t' (m' !! k)) -> holds t p m -> holds t p m';
  holds_later t t' p m : holds t p m -> leb t t' = true -> holds t' p m;
  step_law t p m c o :
    holds t p m -> leb t (now c) = true -> op_ok name_ok key_ok time_ok value_ok c o -> supported o ->
    exists out p', step c o p = (out, p') /\ agrees out (spec_step c o m).1 /\ holds (now c) p' (spec_step c o m).2;
}.

(** ** Time *)
Lemma leb_trans x y z : leb x y = true -> leb y z = true -> leb x z = true.
Proof.
  destruct x as [p|[]|], y as [q|[]|], z as [r|[]|]; try done. cbn. rewrite !Qle_bool_iff. apply Qle_trans.
Qed.
Lemma leb_self x y : leb x y = true -> leb y y = true.
Proof. destruct x as [p|[]|], y as [q|[]|]; try done; intros _; apply Qle_bool_iff, Qle_refl. Qed.
Lemma expired_later t t' r : leb t t' = true -> expired t r = true -> expired t' r = true.
Proof. unfold expired. destruct (r_expiresAt r); [|done]. intros H1 H2. by eapply leb_trans. Qed.
Lemma live_later t t' r : leb t t' = true -> live t' (live t r) = live t' r.
Proof.
  intros Ht. destruct r as [r|]; [|done]. cbn. destruct (expired t r) eqn:E; [|done]. by rewrite (expired_later _ _ _ Ht E).
Qed.
Lemma live_Some t r x : live t r = Some x <-> r = Some x /\ expired t x = false.
Proof.
  destruct r as [r|]; cbn; [|by split; [|intros [? _]]]. destruct (expired t r) eqn:E; split; try done.
  - intros [[= ->] H]. congruence.
  - by intros [= ->].
  - by intros [[= ->] _].
Qed.

(** ** Listings *)
Lemma NoDup_omap {A B} (f : A -> option B) l : NoDup l ->
  (forall x y b, x ∈ l -> y ∈ l -> f x = Some b -> f y = Some b -> x = y) -> NoDup (omap f l).
Proof.
  induction 1 as [|x l Hx Hl IH]; intros Hf; [constructor|]. cbn.
  assert (Hn : NoDup (omap f l)) by (apply IH; intros ???? ?; apply Hf; by right).
  destruct (f x) as [b|] eqn:E; [|done]. constructor; [|done]. intros (y & Hy & Ey)%list_elem_of_omap.
  apply Hx. by rewrite (Hf x y b) by (done || by left || by right).
Qed.
Definition list_entry (t : number) (ns prefix : jsstring) (m : contents) (k : jsstring) : option (jsstring * value) :=
  if starts_with prefix k then (fun r => (k, r_value r)) <$> live t (m !! (ns, k)) else None.
Lemma list_entry_Some t ns prefix m k kv : list_entry t ns prefix m k = Some kv <->
  kv.1 = k /\ starts_with prefix k = true /\ exists r, live t (m !! (ns, k)) = Some r /\ kv.2 = r_value r.
Proof.
  unfold list_entry. destruct (starts_with prefix k); [|by split; [|intros (_ & ? & _)]]. rewrite fmap_Some. split.
  - intros (r & E & ->). eauto.
  - destruct kv as [k' v]. cbn. intros (-> & _ & r & E & ->). eauto.
Qed.
Lemma listed_elem t ns prefix m kv : kv ∈ listed t ns prefix m <-> list_entry t ns prefix m kv.1 = Some kv.
Proof.
  unfold listed. rewrite list_elem_of_omap, list_entry_Some. split.
  - intros ([[ns' k] r] & Hr%elem_of_map_to_list & E). case_bool_decide; [subst|done]. destruct (starts_with prefix k) eqn:Es; [|done].
    destruct (expired t r) eqn:Ex; [done|]. injection E as <-. split_and!; [done|done|]. exists r. by rewrite live_Some.
  - destruct kv as [k v]. cbn. intros (_ & Hs & r & [E Ex]%live_Some & ->). exists ((ns, k), r). rewrite elem_of_map_to_list.
    by rewrite bool_decide_eq_true_2, Hs, Ex.
Qed.
(** Any duplicate-free list of keys with the live ones among them gives the listing. *)
Lemma listed_Permutation t ns prefix m ks : NoDup ks -> (forall k, is_Some (live t (m !! (ns, k))) -> k ∈ ks) ->
  omap (list_entry t ns prefix m) ks ≡ₚ listed t ns prefix m.
Proof.
  intros Hn Hk. apply NoDup_Permutation.
  - apply NoDup_omap; [done|]. intros x y b _ _ (<- & _)%list_entry_Some (<- & _)%list_entry_Some. done.
  - apply NoDup_omap; [apply NoDup_map_to_list|]. intros [[ns1 k1] r1] [[ns2 k2] r2] b H1%elem_of_map_to_list H2%elem_of_map_to_list.
    do 2 (case_bool_decide; [subst|done]). destruct (starts_with prefix k1), (starts_with prefix k2), (expired t r1), (expired t r2); try done.
    cbn. intros [= <-] [= -> _]. by simplify_eq.
  - intros [k v]. rewrite listed_elem, list_elem_of_omap. cbn [fst]. split.
    + intros (k' & _ & E). by destruct (proj1 (list_entry_Some _ _ _ _ _ _) E) as (<- & _).
    + intros E. exists k. split; [|done]. apply Hk. destruct (proj1 (list_entry_Some _ _ _ _ _ _) E) as (_ & _ & r & -> & _). eauto.
Qed.

Lemma validated_expiry c (ws : list StoreWrite) ks keys : validate_writes true keys ws = Ok ks ->
  Forall (fun w => exists e, expiry (now c) (write_ttlMs w) = Ok e) ws.
Proof.
  revert keys. induction ws as [|w ws IH]; intros keys H; [constructor|]. cbn [validate_writes] in H. case_bool_decide; [done|].
  apply res_bind_inv in H as (u & Hu & H). constructor; [|by eapply IH]. unfold expiry. destruct (write_ttlMs w) as [t|]; [|by eexists].
  apply res_bind_inv in Hu as (n & -> & _). by eexists.
Qed.
Lemma validated_checks cs keys : validate_checks keys cs = Ok tt -> NoDup (map check_key cs) /\ forall k, k ∈ keys -> k ∉ map check_key cs.
Proof.
  revert keys. induction cs as [|ch cs IH]; intros keys H; [by split; [constructor|intros k _ ?%elem_of_nil]|].
  cbn [validate_checks] in H. case_bool_decide as Hk; [done|]. destruct (IH _ H) as [Hn Hd]. split.
  - constructor; [|done]. apply Hd. by left.
  - intros k Hin. cbn. rewrite not_elem_of_cons. split; [by intros ->|]. apply Hd. by right.
Qed.
Lemma forallb_Permutation {A} (f : A -> bool) l l' : l ≡ₚ l' -> forallb f l = forallb f l'.
Proof. induction 1; cbn; [done|by f_equal|by rewrite !andb_assoc, (andb_comm (f y))|congruence]. Qed.
Lemma spec_commit_throws c ns mu m e m' : spec_commit c ns mu m = (Throw e, m') -> m' = m.
Proof. unfold spec_commit. destruct (validateMutation mu true); [by destruct (forallb _ _)|by intros [= _ <-]]. Qed.
Lemma spec_step_throws c o m e m' : spec_step c o m = (Throw e, m') -> m' = m.
Proof.
  assert (H : forall ns mu, match spec_commit c ns mu m with (Throw e, m') => m' = m | _ => True end).
  { intros ns mu. destruct (spec_commit c ns mu m) as [[?|?] ?] eqn:E; [done|by eapply spec_commit_throws]. }
  destruct o as [| ns k v|ns k v ttl| | | |ns mu]; cbn [spec_step]; try by intros [=].
  - specialize (H ns (single k v (Some ttl))). destruct (spec_commit _ _ _ _) as [[r|e'] m0]; intros E; [discriminate E|]. injection E as _ <-. exact H.
  - specialize (H ns mu). destruct (spec_commit _ _ _ _) as [[r|e'] m0]; intros E; [discriminate E|]. injection E as _ <-. exact H.
Qed.
(** Laws from what the call of each operation does. *)
Definition call_law `{S : Store} (holds : number -> provider -> contents -> Prop) (c : call) (o : op) (p : provider) (m : contents) : Prop :=
  match spec_step c o m with
  | (Ok out, m') => exists out' p', call_op c o p = Ok (out', p') /\ agrees (Ok out') (Ok out) /\ holds (now c) p' m'
  | (Throw e, _) => call_op c o p = Throw e
  end.
Lemma law_of_call `{S : Store} (holds : number -> provider -> contents -> Prop) c o p m :
  call_law holds c o p m -> holds (now c) p m ->
  exists out p', step c o p = (out, p') /\ agrees out (spec_step c o m).1 /\ holds (now c) p' (spec_step c o m).2.
Proof.
  unfold call_law, step. intros H Hh. destruct (spec_step c o m) as [[out|e] m'] eqn:E.
  - destruct H as (out' & p' & -> & Ha & H'). by do 2 eexists.
  - rewrite H. apply spec_step_throws in E as ->. by do 2 eexists.
Qed.

(** ** Histories *)
Section laws.
Context `{S : Store} `{L : !StoreLaws S}.
Definition history_ok (h : list (call * op)) : Prop := Forall (fun co => op_ok name_ok key_ok time_ok value_ok co.1 co.2 /\ supported co.2) h.
Definition end_time (t : number) (h : list (call * op)) : number := foldl (fun _ co => now co.1) t h.
Lemma exec_law h : forall t p m, holds t p m -> clock_runs t h -> history_ok h ->
  Forall2 agrees (exec h p).1 (spec_exec h m).1 /\ holds (end_time t h) (exec h p).2 (spec_exec h m).2.
Proof.
  induction h as [|[c o] h IH]; intros t p m Hh Hc Hok; [by split; [constructor|]|].
  destruct Hc as [Ht Hc]. apply Forall_cons in Hok as [[Ho Hs] Hok]. cbn [exec spec_exec].
  destruct (step_law t p m c o Hh Ht Ho Hs) as (out & p' & -> & Ha & Hh'). destruct (spec_step c o m) as [out' m'] eqn:E. cbn in Ha, Hh'.
  destruct (IH _ _ _ Hh' Hc Hok) as [IHa IHh]. destruct (exec h p'), (spec_exec h m'). cbn in *. split; [by constructor|done].
Qed.
(** The laws of the single operations. *)
Lemma step_law_ok t p m c o out m' : holds t p m -> leb t (now c) = true -> op_ok name_ok key_ok time_ok value_ok c o -> supported o ->
  spec_step c o m = (Ok out, m') -> exists out' p', call_op c o p = Ok (out', p') /\ agrees (Ok out') (Ok out) /\ holds (now c) p' m'.
Proof.
  intros Hh Ht Ho Hs E. destruct (step_law t p m c o Hh Ht Ho Hs) as (r & p' & Es & Ha & Hh'). rewrite E in Ha, Hh'. cbn in Ha, Hh'.
  unfold step in Es. destruct (call_op c o p) as [[out' p1]|e]; injection Es as <- <-; [by do 2 eexists|done].
Qed.
Lemma bind_ok_inv {St A B} (m : ST St A) (f : A -> B) s b s' : (a ← m; mret (f a)) s = Ok (b, s') -> exists a, m s = Ok (a, s') /\ b = f a.
Proof. unfold mbind, ST_bind. destruct (m s) as [[a s1]|]; [|done]. intros [= <- <-]. eauto. Qed.
Lemma get_law t p m c ns k : holds t p m -> leb t (now c) = true -> op_ok name_ok key_ok time_ok value_ok c (Get ns k) ->
  exists p', get c ns k p = Ok (live (now c) (m !! (ns, k)) ≫= r_value, p') /\ holds (now c) p' m.
Proof.
  intros Hh Ht Ho. destruct (step_law_ok t p m c (Get ns k) _ m Hh Ht Ho I eq_refl) as (out & p' & E & Ha & Hh').
  apply bind_ok_inv in E as (v & E & ->). injection Ha as ->. eauto.
Qed.
Lemma set_law t p m c ns k v : holds t p m -> leb t (now c) = true -> op_ok name_ok key_ok time_ok value_ok c (Set_ ns k v) ->
  exists p', set c ns k v p = Ok (tt, p') /\ holds (now c) p' (<[(ns, k) := {| r_value := v; r_version := uuid c 0; r_expiresAt := None |}]> m).
Proof.
  intros Hh Ht Ho. destruct (step_law_ok t p m c (Set_ ns k v) _ _ Hh Ht Ho I eq_refl) as (out & p' & E & _ & Hh').
  apply bind_ok_inv in E as ([] & E & _). eauto.
Qed.
Lemma expire_law t p m c ns k v ms n f : holds t p m -> leb t (now c) = true -> op_ok name_ok key_ok time_ok value_ok c (SetTtl ns k v ms) ->
  expiration = Some f -> normalizedTtl ms = Ok n ->
  exists p', f c ns k v ms p = Ok (tt, p') /\
    holds (now c) p' (<[(ns, k) := {| r_value := v; r_version := uuid c 0; r_expiresAt := Some (JsArith.add (now c) n) |}]> m).
Proof.
  intros Hh Ht Ho Hf Hn.
  assert (E : spec_step c (SetTtl ns k v ms) m = (Ok OUnit, <[(ns, k) := {| r_value := v; r_version := uuid c 0; r_expiresAt := Some (JsArith.add (now c) n) |}]> m)).
  { cbn [spec_step]. unfold spec_commit, validateMutation. cbn. rewrite Hn. cbn. unfold record_of. cbn. by rewrite Hn. }
  destruct (step_law_ok t p m c _ _ _ Hh Ht Ho ltac:(cbn; rewrite Hf; eauto) E) as (out & p' & E' & _ & Hh'). cbn [call_op] in E'. rewrite Hf in E'.
  apply bind_ok_inv in E' as ([] & E' & _). eauto.
Qed.
Lemma delete_law t p m c ns k : holds t p m -> leb t (now c) = true -> op_ok name_ok key_ok time_ok value_ok c (Delete ns k) ->
  exists b p', delete c ns k p = Ok (b, p') /\ holds (now c) p' (base.delete (ns, k) m).
Proof.
  intros Hh Ht Ho. destruct (step_law_ok t p m c (Delete ns k) _ _ Hh Ht Ho I eq_refl) as (out & p' & E & _ & Hh').
  apply bind_ok_inv in E as (b & E & _). eauto.
Qed.
Lemma list_law t p m c ns prefix : holds t p m -> leb t (now c) = true -> op_ok name_ok key_ok time_ok value_ok c (List_ ns prefix) ->
  exists l p', list_ c ns prefix p = Ok (l, p') /\ l ≡ₚ listed (now c) ns prefix m /\ holds (now c) p' m.
Proof.
  intros Hh Ht Ho. destruct (step_law_ok t p m c (List_ ns prefix) _ _ Hh Ht Ho I eq_refl) as (out & p' & E & Ha & Hh').
  apply bind_ok_inv in E as (l & E & ->). eauto.
Qed.
End laws.
End values.
Arguments MemoryRecord : clear implicits.
Arguments StoreWrite : clear implicits.
Arguments StoreCommit : clear implicits.
Arguments VersionedStoreEntry : clear implicits.
Arguments Store : clear implicits.
Arguments op : clear implicits.
Arguments output : clear implicits.
Arguments AtomicStoreCapability : clear implicits.
Notation contents V := (gmap (jsstring * jsstring) (MemoryRecord V)).
End Store.
