(* ===== verification/MemoryStore.v ===== *)
(** The in-memory store (src/js/store.ts, [MemoryStore]): maps of records by
    namespace, from which expired records are dropped when they are read.

    [localeCompare] orders the keys of a listing; it is the host's. *)

From stdpp Require Import sorting.
From S2P Require Import Prelude JsArith Store.

Module MemoryStore.
Import Store.
Import JsArith(number).

Section memory.
Context {V : Type} (localeCompare : jsstring -> jsstring -> Z).
Local Notation namespaces := (gmap jsstring (list (jsstring * MemoryRecord V))).

(** [#entries()], which makes the map of a namespace when it is first asked for. *)
Definition entries (ns : jsstring) : ST namespaces (list (jsstring * MemoryRecord V)) := fun p =>
  match p !! ns with Some es => Ok (es, p) | None => Ok ([], <[ns := []]> p) end.
(** A change to the map of a namespace, which is shared. *)
Definition update (ns : jsstring) (f : list (jsstring * MemoryRecord V) -> list (jsstring * MemoryRecord V)) : ST namespaces unit :=
  fun p => Ok (tt, alter f ns p).
Definition record (c : call) (ns key : jsstring) : ST namespaces (option (MemoryRecord V)) :=
  es ← entries ns;
  match JMap.get key es with
  | None => mret None
  | Some r => if expired (now c) r then update ns (JMap.delete key);; mret None else mret (Some r)
  end.
Definition get (c : call) (ns key : jsstring) : ST namespaces value := r ← record c ns key; mret (r ≫= r_value).
Definition getEntry (c : call) (ns key : jsstring) : ST namespaces (option (VersionedStoreEntry V)) :=
  r ← record c ns key; mret ((fun r => {| e_key := key; e_value := r_value r; e_version := r_version r |}) <$> r).

Fixpoint check_all (c : call) (ns : jsstring) (cs : list StoreCheck) : ST namespaces bool :=
  match cs with
  | [] => mret true
  | ch :: cs =>
      r ← record c ns (check_key ch);
      if bool_decide (r_version <$> r = ifVersion ch) then check_all c ns cs else mret false
  end.
Fixpoint write_all (c : call) (ns : jsstring) (i : nat) (ws : list (StoreWrite V)) : ST namespaces (list (VersionedStoreEntry V)) :=
  match ws with
  | [] => mret []
  | w :: ws =>
      let version := uuid c i in
      e ← liftR (expiry (now c) (write_ttlMs w));
      update ns (JMap.set (write_key w) {| r_value := write_value w; r_version := version; r_expiresAt := e |});;
      rest ← write_all c ns (S i) ws;
      mret ({| e_key := write_key w; e_value := write_value w; e_version := version |} :: rest)
  end.
Definition commit (c : call) (ns : jsstring) (mu : StoreCommit V) : ST namespaces (option (list (VersionedStoreEntry V))) :=
  liftR (validateMutation mu true);;
  entries ns;;
  ok ← check_all c ns (checks mu);
  if ok : bool then
    forEach (fun k => update ns (JMap.delete k)) (deletes mu);;
    ws ← write_all c ns 0 (writes mu);
    mret (Some ws)
  else mret None.
Definition write (c : call) (ns key : jsstring) (v : value) (ttlMs : option number) : ST namespaces unit :=
  r ← commit c ns (single key v ttlMs);
  match r with Some _ => mret tt | None => throw (JsError "unconditional memory-store write failed") end.
Definition set (c : call) (ns key : jsstring) (v : value) : ST namespaces unit := write c ns key v None.
Definition expiration_set (c : call) (ns key : jsstring) (v : value) (ttlMs : number) : ST namespaces unit := write c ns key v (Some ttlMs).
Definition delete (c : call) (ns key : jsstring) : ST namespaces bool :=
  r ← record c ns key;
  match r with Some _ => entries ns;; update ns (JMap.delete key);; mret true | None => mret false end.

Definition before (a b : jsstring) : Prop := localeCompare a b <= 0.
#[local] Instance before_dec : RelDecision before.
Proof. intros a b. apply Z_le_dec. Defined.
Fixpoint list_keys (c : call) (ns prefix : jsstring) (ks : list jsstring) : ST namespaces (list (jsstring * value)) :=
  match ks with
  | [] => mret []
  | k :: ks =>
      if starts_with prefix k then
        r ← record c ns k;
        rest ← list_keys c ns prefix ks;
        mret (match r with Some r => (k, r_value r) :: rest | None => rest end)
      else list_keys c ns prefix ks
  end.
Definition list_ (c : call) (ns prefix : jsstring) : ST namespaces (list (jsstring * value)) :=
  es ← entries ns; list_keys c ns prefix (merge_sort before (JMap.keys es)).
#[global] Instance MemoryStore : Store V := {
  provider := namespaces;
  Store.get := get; Store.set := set; Store.delete := delete; Store.list_ := list_;
  atomic := Some {| Store.getEntry := getEntry; Store.commit := commit |};
  expiration := Some expiration_set;
}.

(** ** What the maps hold *)
Definition raw (p : namespaces) (ns k : jsstring) : option (MemoryRecord V) := p !! ns ≫= JMap.get k.
Definition wf (p : namespaces) : Prop := forall ns es, p !! ns = Some es -> NoDup (JMap.keys es).
Definition holds (t : number) (p : namespaces) (m : contents V) : Prop :=
  wf p /\ forall ns k t', leb t t' = true -> live t' (raw p ns k) = live t' (m !! (ns, k)).
Definition ready (ns : jsstring) (t : number) (p : namespaces) (m : contents V) : Prop := holds t p m /\ is_Some (p !! ns).
Lemma memory_holds_later t t' p m : holds t p m -> leb t t' = true -> holds t' p m.
Proof. intros [Hw H] Ht. split; [done|]. intros ns k t2 Ht2. apply H. by eapply leb_trans. Qed.
Lemma ready_later ns t t' p m : ready ns t p m -> leb t t' = true -> ready ns t' p m.
Proof. intros [H Hs] Ht. split; [by eapply memory_holds_later|done]. Qed.

Lemma raw_alter f ns p ns' k : raw (alter f ns p) ns' k = if decide (ns = ns') then p !! ns ≫= (fun es => JMap.get k (f es)) else raw p ns' k.
Proof.
  unfold raw. case_decide as E; [subst|by rewrite lookup_alter_ne]. rewrite lookup_alter_eq. by destruct (p !! ns').
Qed.
Lemma raw_insert_empty ns p ns' k : p !! ns = None -> raw (<[ns := []]> p) ns' k = raw p ns' k.
Proof.
  intros E. unfold raw. destruct (decide (ns = ns')) as [<-|Hne]; [by rewrite lookup_insert_eq, E|by rewrite lookup_insert_ne].
Qed.
Lemma wf_alter f ns p : (forall es, NoDup (JMap.keys es) -> NoDup (JMap.keys (f es))) -> wf p -> wf (alter f ns p).
Proof.
  intros Hf Hw ns' es. rewrite lookup_alter. case_decide; [subst|apply Hw]. destruct (p !! ns') as [es'|] eqn:E; [|done].
  intros [= <-]. by apply Hf, (Hw ns').
Qed.
Lemma entries_spec ns t p m : holds t p m -> exists es p', entries ns p = Ok (es, p') /\ p' !! ns = Some es /\ ready ns t p' m.
Proof.
  intros [Hw H]. unfold entries. destruct (p !! ns) as [es|] eqn:E.
  - exists es, p. split_and!; [done|done|]. split; [by split|by rewrite E].
  - exists [], (<[ns := []]> p). rewrite lookup_insert_eq. split_and!; [done|done|]. split; [|by rewrite lookup_insert_eq]. split.
    + intros ns' es. rewrite lookup_insert. case_decide; [|apply Hw]. intros [= <-]. constructor.
    + intros ns' k t' Ht'. rewrite raw_insert_empty by done. by apply H.
Qed.
(** A change of one record. *)
Lemma update_spec ns k f (r : option (MemoryRecord V)) t p m m' :
  (forall es, NoDup (JMap.keys es) -> NoDup (JMap.keys (f es)) /\ JMap.get k (f es) = r /\ forall k', k' <> k -> JMap.get k' (f es) = JMap.get k' es) ->
  m' = partial_alter (fun _ => r) (ns, k) m -> ready ns t p m -> exists p', update ns f p = Ok (tt, p') /\ ready ns t p' m'.
Proof.
  intros Hf -> [[Hw H] [es E]]. exists (alter f ns p). split; [done|]. destruct (Hf es (Hw _ _ E)) as (_ & H2 & H3).
  split; [|rewrite lookup_alter_eq, E; eauto]. split; [apply wf_alter; [|done]; intros es' He'; by apply (Hf es')|].
  intros ns' k' t' Ht'. rewrite raw_alter. case_decide as En.
  - subst ns'. rewrite E. cbn. destruct (decide (k' = k)) as [->|Hk]; [by rewrite lookup_partial_alter_eq, H2|].
    rewrite lookup_partial_alter_ne by congruence. rewrite H3 by done. specialize (H ns k' t' Ht'). unfold raw in H. by rewrite E in H.
  - rewrite lookup_partial_alter_ne by congruence. by apply H.
Qed.
Lemma update_delete ns k t p m : ready ns t p m -> exists p', update ns (JMap.delete k) p = Ok (tt, p') /\ ready ns t p' (base.delete (ns, k) m).
Proof.
  apply (update_spec ns k _ None); [|done]. intros es He. split_and!; [by apply JMap.NoDup_keys_delete|apply JMap.get_delete_eq|].
  intros k' Hk. by apply JMap.get_delete_ne.
Qed.
Lemma update_set ns k r t p m : ready ns t p m -> exists p', update ns (JMap.set k r) p = Ok (tt, p') /\ ready ns t p' (<[(ns, k) := r]> m).
Proof.
  apply (update_spec ns k _ (Some r)); [|done]. intros es He. split_and!; [by apply JMap.NoDup_keys_set|apply JMap.get_set_eq|].
  intros k' Hk. by apply JMap.get_set_ne.
Qed.

(** ** The operations *)
Lemma delete_dead ns k t p m :
  live t (m !! (ns, k)) = None -> ready ns t p (base.delete (ns, k) m) -> ready ns t p m.
Proof.
  intros Hd [[Hw H] Hs]. split; [|done]. split; [done|]. intros ns' k' t' Ht'. rewrite H by done.
  destruct (decide ((ns, k) = (ns', k'))) as [[= <- <-]|Hne]; [|by rewrite lookup_delete_ne].
  rewrite lookup_delete_eq. rewrite <- (live_later t t' (m !! (ns, k))) by done. by rewrite Hd.
Qed.
Lemma record_spec c ns k t p m : holds t p m -> leb t (now c) = true ->
  exists p', record c ns k p = Ok (live (now c) (m !! (ns, k)), p') /\ ready ns (now c) p' m.
Proof.
  intros Hh Ht. pose proof (leb_self _ _ Ht) as Hn. unfold record.
  destruct (entries_spec ns t p m Hh) as (es & p1 & E1 & Ep & H1). rewrite (ST_bind_ok _ _ _ _ _ E1).
  apply (ready_later _ _ (now c)) in H1; [|done]. pose proof H1 as [[_ H] _]. specialize (H ns k _ Hn). unfold raw in H. rewrite Ep in H. cbn in H.
  rewrite <- H. destruct (JMap.get k es) as [r|] eqn:Er; [|by exists p1]. cbn [live] in *. destruct (expired (now c) r) eqn:Ex; [|by exists p1].
  destruct (update_delete ns k _ _ _ H1) as (p2 & E2 & H2). exists p2. rewrite (ST_bind_ok _ _ _ _ _ E2). split; [done|].
  by apply (delete_dead ns k).
Qed.
Lemma check_all_spec c ns cs : forall t p m, ready ns t p m -> leb t (now c) = true ->
  exists p', check_all c ns cs p = Ok (forallb (check_holds (now c) ns m) cs, p') /\ ready ns (now c) p' m.
Proof.
  induction cs as [|ch cs IH]; intros t p m Hh Ht; cbn [check_all forallb]; [exists p; split; [done|by eapply ready_later]|].
  destruct Hh as [Hh _]. destruct (record_spec c ns (check_key ch) t p m Hh Ht) as (p1 & E1 & H1). rewrite (ST_bind_ok _ _ _ _ _ E1).
  unfold check_holds at 1. case_bool_decide; [|by exists p1]. apply (IH (now c)); [done|by eapply leb_self].
Qed.
Lemma deletes_spec ns ks t : forall p m, ready ns t p m ->
  exists p', forEach (fun k => update ns (JMap.delete k)) ks p = Ok (tt, p') /\ ready ns t p' (delete_all ns ks m).
Proof.
  induction ks as [|k ks IH]; intros p m Hh; [by exists p|]. cbn [forEach].
  destruct (update_delete ns k _ _ _ Hh) as (p1 & E1 & H1). rewrite (ST_bind_ok _ _ _ _ _ E1). by apply IH.
Qed.
Lemma write_all_spec c ns t ws : Forall (fun w => exists e, expiry (now c) (write_ttlMs w) = Ok e) ws -> forall i p m, ready ns t p m ->
  exists p', write_all c ns i ws p = Ok (imap (fun j w => {| e_key := write_key w; e_value := write_value w; e_version := uuid c (i + j) |}) ws, p') /\
    ready ns t p' (put_all c ns i ws m).
Proof.
  induction 1 as [|w ws [e He] _ IH]; intros i p m Hh; cbn [write_all put_all imap]; [by exists p|].
  unfold record_of. rewrite He, (ST_bind_ok (liftR (Ok e)) _ p e p eq_refl).
  destruct (update_set ns (write_key w) {| r_value := write_value w; r_version := uuid c i; r_expiresAt := e |} _ _ _ Hh) as (p1 & E1 & H1).
  rewrite (ST_bind_ok _ _ _ _ _ E1). destruct (IH (S i) p1 _ H1) as (p2 & E2 & H2). rewrite (ST_bind_ok _ _ _ _ _ E2).
  exists p2. split; [|done]. unfold mret, ST_ret. rewrite Nat.add_0_r. do 3 f_equal.
  apply imap_ext. intros j x _. cbn. by rewrite Nat.add_succ_r.
Qed.
Lemma memory_commit_spec c ns mu t p m : holds t p m -> leb t (now c) = true ->
  match spec_commit c ns mu m with
  | (Ok r, m') => exists p', commit c ns mu p = Ok (r, p') /\ holds (now c) p' m'
  | (Throw e, _) => commit c ns mu p = Throw e
  end.
Proof.
  intros Hh Ht. unfold spec_commit, commit. destruct (validateMutation mu true) as [[]|e] eqn:Ev; [|done].
  destruct (entries_spec ns t p m Hh) as (es & p1 & E1 & _ & H1).
  destruct (check_all_spec c ns (checks mu) t p1 m H1 Ht) as (p2 & E2 & H2).
  assert (Hpre : forall (f : bool -> ST namespaces (option (list (VersionedStoreEntry V)))),
    (liftR (Ok tt);; entries ns;; ok ← check_all c ns (checks mu); f ok) p = f (forallb (check_holds (now c) ns m) (checks mu)) p2).
  { intros f. rewrite (ST_bind_ok (liftR (Ok tt)) _ p tt p eq_refl). rewrite (ST_bind_ok _ _ _ _ _ E1). by rewrite (ST_bind_ok _ _ _ _ _ E2). }
  rewrite Hpre. destruct (forallb _ _); [|exists p2; split; [done|apply H2]].
  destruct (deletes_spec ns (deletes mu) _ _ _ H2) as (p3 & E3 & H3). rewrite (ST_bind_ok _ _ _ _ _ E3).
  apply res_bind_inv in Ev as (ks & Ev & _).
  destruct (write_all_spec c ns (now c) (writes mu) (validated_expiry c _ _ _ Ev) 0 p3 _ H3) as (p4 & E4 & H4).
  rewrite (ST_bind_ok _ _ _ _ _ E4). exists p4. split; [done|apply H4].
Qed.
Lemma memory_write_spec c ns k v ttl t p m : holds t p m -> leb t (now c) = true ->
  match spec_commit c ns (single k v ttl) m with
  | (Ok _, m') => exists p', write c ns k v ttl p = Ok (tt, p') /\ holds (now c) p' m'
  | (Throw e, _) => write c ns k v ttl p = Throw e
  end.
Proof.
  intros Hh Ht. pose proof (memory_commit_spec c ns (single k v ttl) t p m Hh Ht) as H. unfold write.
  assert (Hr : forall m', (spec_commit c ns (single k v ttl) m) <> (Ok None, m')).
  { unfold spec_commit. destruct (validateMutation _ _); by intros m'. }
  destruct (spec_commit c ns (single k v ttl) m) as [[[ws|]|e] m']; [|by destruct (Hr m')|].
  - destruct H as (p' & E & H'). exists p'. by rewrite (ST_bind_ok _ _ _ _ _ E).
  - unfold mbind, ST_bind. by rewrite H.
Qed.
Lemma list_keys_spec c ns prefix ks : forall t p m, ready ns t p m -> leb t (now c) = true ->
  exists p', list_keys c ns prefix ks p = Ok (omap (list_entry (now c) ns prefix m) ks, p') /\ holds (now c) p' m.
Proof.
  induction ks as [|k ks IH]; intros t p m Hh Ht; cbn [list_keys]; [exists p; split; [done|apply (ready_later _ _ _ _ _ Hh Ht)]|].
  cbn [omap list_omap]. unfold list_entry at 1. destruct (starts_with prefix k); [|by apply (IH t)].
  destruct Hh as [Hh _]. destruct (record_spec c ns k t p m Hh Ht) as (p1 & E1 & H1). rewrite (ST_bind_ok _ _ _ _ _ E1).
  destruct (IH _ _ _ H1 (leb_self _ _ Ht)) as (p2 & E2 & H2). rewrite (ST_bind_ok _ _ _ _ _ E2). exists p2. split; [|done].
  by destruct (live (now c) (m !! (ns, k))).
Qed.
Lemma memory_list_spec c ns prefix t p m : holds t p m -> leb t (now c) = true ->
  exists l p', list_ c ns prefix p = Ok (l, p') /\ l ≡ₚ listed (now c) ns prefix m /\ holds (now c) p' m.
Proof.
  intros Hh Ht. unfold list_. destruct (entries_spec ns t p m Hh) as (es & p1 & E1 & Ep & H1). rewrite (ST_bind_ok _ _ _ _ _ E1).
  destruct (list_keys_spec c ns prefix (merge_sort before (JMap.keys es)) t p1 m H1 Ht) as (p2 & -> & H2). do 2 eexists. split; [done|]. split; [|done].
  destruct H1 as [[Hw H] _]. apply listed_Permutation; [rewrite merge_sort_Permutation; by apply (Hw ns)|].
  intros k [r Hr]. rewrite merge_sort_Permutation. specialize (H ns k (now c) Ht). unfold raw in H. rewrite Ep, Hr in H.
  apply live_Some in H as [H _]. destruct (decide (k ∈ JMap.keys es)) as [|Hk]; [done|]. cbn in H.
  apply JMap.get_None_keys in Hk. congruence.
Qed.
Lemma memory_delete_spec c ns k t p m : holds t p m -> leb t (now c) = true ->
  exists p', delete c ns k p = Ok (bool_decide (is_Some (live (now c) (m !! (ns, k)))), p') /\ holds (now c) p' (base.delete (ns, k) m).
Proof.
  intros Hh Ht. unfold delete. destruct (record_spec c ns k t p m Hh Ht) as (p1 & E1 & H1). rewrite (ST_bind_ok _ _ _ _ _ E1).
  destruct (live (now c) (m !! (ns, k))) as [r|] eqn:El.
  - destruct H1 as [H1 _]. destruct (entries_spec ns _ p1 m H1) as (es & p2 & E2 & _ & H2). rewrite (ST_bind_ok _ _ _ _ _ E2).
    destruct (update_delete ns k _ _ _ H2) as (p3 & E3 & H3). rewrite (ST_bind_ok _ _ _ _ _ E3). exists p3.
    rewrite bool_decide_eq_true_2 by eauto. split; [done|apply H3].
  - exists p1. rewrite bool_decide_eq_false_2 by (by intros []). split; [done|]. destruct H1 as [[Hw H] _]. split; [done|].
    intros ns' k' t' Ht'. rewrite H by done. destruct (decide ((ns, k) = (ns', k'))) as [[= <- <-]|Hne]; [|by rewrite lookup_delete_ne].
    rewrite lookup_delete_eq. rewrite <- (live_later (now c) t' (m !! (ns, k))) by done. by rewrite El.
Qed.
Lemma memory_call c o t p m : holds t p m -> leb t (now c) = true -> call_law holds c o p m.
Proof.
  intros Hh Ht. unfold call_law. destruct o as [ns k|ns k v|ns k v ttl|ns k|ns prefix|ns k|ns mu];
    cbn [spec_step call_op Store.get Store.set Store.delete Store.list_ atomic expiration MemoryStore].
  - destruct (record_spec c ns k t p m Hh Ht) as (p1 & E1 & H1).
    assert (E : get c ns k p = Ok (live (now c) (m !! (ns, k)) ≫= r_value, p1)) by (unfold get; by rewrite (ST_bind_ok _ _ _ _ _ E1)).
    rewrite (ST_bind_ok _ _ _ _ _ E). do 2 eexists. split_and!; [done|done|apply H1].
  - pose proof (memory_write_spec c ns k v None t p m Hh Ht) as H. destruct (spec_commit c ns _ m) as [[r|e] m'].
    + destruct H as (p' & E & H'). rewrite (ST_bind_ok (set c ns k v) _ _ _ _ E). by do 2 eexists.
    + unfold mbind, ST_bind, set. by rewrite H.
  - pose proof (memory_write_spec c ns k v (Some ttl) t p m Hh Ht) as H. destruct (spec_commit c ns _ m) as [[r|e] m'].
    + destruct H as (p' & E & H'). rewrite (ST_bind_ok (expiration_set c ns k v ttl) _ _ _ _ E). by do 2 eexists.
    + unfold mbind, ST_bind, expiration_set. by rewrite H.
  - destruct (memory_delete_spec c ns k t p m Hh Ht) as (p1 & E1 & H1). rewrite (ST_bind_ok _ _ _ _ _ E1). by do 2 eexists.
  - destruct (memory_list_spec c ns prefix t p m Hh Ht) as (l & p1 & E1 & Hl & H1). rewrite (ST_bind_ok _ _ _ _ _ E1). by do 2 eexists.
  - destruct (record_spec c ns k t p m Hh Ht) as (p1 & E1 & H1). cbn [Store.getEntry].
    assert (E : exists e, getEntry c ns k p = Ok (e, p1) /\ e = (fun r => {| e_key := k; e_value := r_value r; e_version := r_version r |}) <$> live (now c) (m !! (ns, k)))
      by (unfold getEntry; eexists; by rewrite (ST_bind_ok _ _ _ _ _ E1)).
    destruct E as (e & E & ->). rewrite (ST_bind_ok _ _ _ _ _ E). do 2 eexists. split_and!; [done|done|apply H1].
  - pose proof (memory_commit_spec c ns mu t p m Hh Ht) as H. cbn [Store.commit]. destruct (spec_commit c ns mu m) as [[r|e] m'].
    + destruct H as (p' & E & H'). rewrite (ST_bind_ok _ _ _ _ _ E). by do 2 eexists.
    + unfold mbind, ST_bind. by rewrite H.
Qed.
#[global, refine] Instance MemoryLaws : StoreLaws MemoryStore := {
  name_ok _ := True; key_ok _ := True; time_ok _ := True; value_ok _ := True; Store.holds := holds;
}.
Proof.
  - intros t p m m' Hs [Hw H]. split; [done|]. intros ns k t' Ht'. rewrite H by done. by apply Hs.
  - apply memory_holds_later.
  - intros t p m c o Hh Ht _ _. apply law_of_call; [by eapply memory_call|by eapply memory_holds_later].
Defined.
Lemma memory_empty_holds t : holds t ∅ ∅.
Proof. split; [intros ns es; by rewrite lookup_empty|]. intros ns k t' _. unfold raw. by rewrite !lookup_empty. Qed.
End memory.
End MemoryStore.
