(* ===== verification/SqliteStore.v ===== *)
(** The SQLite store (src/js/store.ts, [SqliteStoreImpl]).

    The table is a map from namespace and key to a row, and each SQL statement of
    the source is a function on it; a statement that writes gives the number of
    changed rows.  Text is bound as UTF-8 ([bind]) and read up to its first NUL
    ([read_text]); [length] and [substr] of SQLite stop there too.  A number that is
    an integer is bound as a 64-bit one ([bind_number]), so that times outside that
    range wrap; [fits] are those that are kept.  [encode] and [decode] are the codec,
    [localeCompare] is the host's.  The connection serves one operation at a time. *)

From Stdlib Require Import QArith.
From stdpp Require Import sorting.
From S2P Require Import Prelude JsArith Utf8 Store.

Module SqliteStore.
Import Store.
Local Open Scope Z_scope.
Import JsArith(number).

(** ** Text in SQLite *)
Definition bind (s : jsstring) : jsstring := Utf8.toWellFormed s.
Fixpoint before_nul (s : list Z) : list Z := match s with [] => [] | u :: s => if u =? 0 then [] else u :: before_nul s end.
Definition read_text (s : jsstring) : jsstring := before_nul s.
Definition sql_length (s : jsstring) : nat := length (before_nul (Utf8.code_points s)).
Definition sql_substr (s : jsstring) (n : nat) : list Z := take n (before_nul (Utf8.code_points s)).
(** ** Numbers in SQLite *)
(** An integer is bound as one of 64 bits, any other number as a double, and NaN
    as NULL. *)
Definition bind_number (n : number) : option number :=
  match n with
  | JsArith.Finite q =>
      if (Qden (Qred q) =? 1)%positive then Some (JsArith.of_int (signedN 64 (Qnum (Qred q)))) else Some n
  | JsArith.Infinite _ => Some n
  | JsArith.NaN => None
  end.
(** The numbers that are read as they were written. *)
Definition fits (n : number) : Prop := bind_number n = Some n.
Lemma fits_int z : is_int 64 z -> fits (JsArith.of_int z).
Proof.
  intros Hz. unfold fits, bind_number, JsArith.of_int. rewrite (JsArith.Qred_int z) by lia. cbn [Qnum Qden]. by rewrite signedN_small by (done || lia).
Qed.

(** The order of the default collation. *)
Fixpoint bytes_leb (a b : list Z) : bool :=
  match a, b with
  | [], _ => true
  | _, [] => false
  | x :: a, y :: b => if x <? y then true else if y <? x then false else bytes_leb a b
  end.

(** Strings without lone surrogates, and those without NUL. *)
Definition well_formed (s : jsstring) : Prop := Forall Utf8.is_unit s /\ Utf8.toWellFormed s = s.
Definition plain (s : jsstring) : Prop := well_formed s /\ 0 ∉ s.
Lemma bind_well_formed s : well_formed s -> bind s = s.
Proof. by intros [_ ?]. Qed.
Lemma before_nul_free s : 0 ∉ s -> before_nul s = s.
Proof.
  induction s as [|u s IH]; [done|]. rewrite not_elem_of_cons. intros [Hu Hs]. cbn. replace (u =? 0) with false by lia. by rewrite IH.
Qed.
Lemma read_plain s : plain s -> read_text s = s.
Proof. intros [_ ?]. by apply before_nul_free. Qed.
Lemma code_points_nul_free s : 0 ∉ s -> 0 ∉ Utf8.code_points s.
Proof. intros H [?|?]%Utf8.code_points_elem; [done|lia]. Qed.
Lemma has_prefix_plain (prefix key : jsstring) (has_prefix := bool_decide (sql_substr key (sql_length (bind prefix)) = Utf8.code_points (bind prefix))) :
  plain prefix -> plain key -> has_prefix = starts_with prefix key.
Proof.
  intros [[Hp Wp] Np] [[Hk Wk] Nk]. subst has_prefix. unfold starts_with, sql_substr, sql_length, bind. rewrite Wp.
  rewrite !before_nul_free by (by apply code_points_nul_free). apply bool_decide_ext. split.
  - intros E. rewrite <- Wp, <- Wk, <- !Utf8.code_points_roundtrip by done. rewrite <- E at 1.
    rewrite <- (take_drop (length (Utf8.code_points prefix)) (Utf8.code_points key)) at 2. rewrite bind_app. by eexists.
  - intros [r ->]. rewrite Utf8.code_points_well_formed_app by done. apply take_app_length.
Qed.

Section sqlite.
Context {V : Type} (encode : option V -> res (list Z)) (decode : list Z -> res (option V)) (localeCompare : jsstring -> jsstring -> Z).
Record row := { value_ : list Z; version : jsstring; expires_at : option number }.
Local Notation table := (gmap (jsstring * jsstring) row).

Definition bind_row (r : row) : row := {| value_ := value_ r; version := bind (version r); expires_at := expires_at r ≫= bind_number |}.

(** ** Statements *)
Definition row_expired (now : number) (r : row) : Prop :=
  match expires_at r, bind_number now with Some e, Some now => leb e now = true | _, _ => False end.
#[global] Instance row_expired_dec now r : Decision (row_expired now r).
Proof. unfold row_expired. destruct (expires_at r), (bind_number now); apply _. Defined.
(** [DELETE ... WHERE namespace = ? AND key = ? AND expires_at IS NOT NULL AND expires_at <= ?] *)
Definition delete_expired_key (ns key : jsstring) (now : number) (tbl : table) : table :=
  match tbl !! (bind ns, bind key) with
  | Some r => if decide (row_expired now r) then base.delete (bind ns, bind key) tbl else tbl
  | None => tbl
  end.
Definition delete_expired_all (ns : jsstring) (now : number) (tbl : table) : table :=
  base.filter (fun kr : (jsstring * jsstring) * row => ~ (kr.1.1 = bind ns /\ row_expired now kr.2)) tbl.
(** [DELETE ... WHERE namespace = ? AND key = ?] *)
Definition remove (ns key : jsstring) (tbl : table) : nat * table :=
  match tbl !! (bind ns, bind key) with Some _ => (1%nat, base.delete (bind ns, bind key) tbl) | None => (0%nat, tbl) end.
(** [INSERT OR IGNORE], [UPDATE ... SET version = version], and the upsert. *)
Definition claimMissing (ns key : jsstring) (r : row) (tbl : table) : nat * table :=
  match tbl !! (bind ns, bind key) with Some _ => (0%nat, tbl) | None => (1%nat, <[(bind ns, bind key) := bind_row r]> tbl) end.
Definition claimVersion (ns key v : jsstring) (tbl : table) : nat * table :=
  match tbl !! (bind ns, bind key) with
  | Some r => if decide (version r = bind v) then (1%nat, tbl) else (0%nat, tbl)
  | None => (0%nat, tbl)
  end.
Definition put (ns key : jsstring) (r : row) (tbl : table) : table := <[(bind ns, bind key) := bind_row r]> tbl.

(** ** Operations *)
Definition getEntry (c : call) (ns key : jsstring) : ST table (option (VersionedStoreEntry V)) := fun tbl =>
  let tbl := delete_expired_key ns key (now c) tbl in
  match tbl !! (bind ns, bind key) with
  | Some r => v ← decode (value_ r); Ok (Some {| e_key := key; e_value := v; e_version := read_text (version r) |}, tbl)
  | None => Ok (None, tbl)
  end.
Definition get (c : call) (ns key : jsstring) : ST table value := e ← getEntry c ns key; mret (e ≫= e_value).
Definition delete (c : call) (ns key : jsstring) : ST table bool := fun tbl =>
  let '(changes, tbl) := remove ns key (delete_expired_key ns key (now c) tbl) in Ok ((0 <? changes)%nat, tbl).

Definition key_order (a b : jsstring) : Prop := bytes_leb (Utf8.encodeUtf8 a) (Utf8.encodeUtf8 b) = true.
#[local] Instance key_order_dec : RelDecision key_order.
Proof. intros a b. unfold key_order. apply _. Defined.
(** [SELECT key, value ... AND substr(key, 1, length(?)) = ? ORDER BY key ASC] *)
Definition has_prefix (prefix key : jsstring) : bool := bool_decide (sql_substr key (sql_length (bind prefix)) = Utf8.code_points (bind prefix)).
Definition keys_of (ns : jsstring) (tbl : table) : list jsstring :=
  omap (fun kr : (jsstring * jsstring) * row => if bool_decide (kr.1.1 = bind ns) then Some kr.1.2 else None) (map_to_list tbl).
Fixpoint select (ns prefix : jsstring) (ks : list jsstring) (tbl : table) : res (list (jsstring * value)) :=
  match ks with
  | [] => Ok []
  | k :: ks =>
      match tbl !! (bind ns, k) with
      | Some r =>
          if has_prefix prefix k then
            v ← decode (value_ r); rest ← select ns prefix ks tbl; Ok ((read_text k, v) :: rest)
          else select ns prefix ks tbl
      | None => select ns prefix ks tbl
      end
  end.
Definition list_ (c : call) (ns prefix : jsstring) : ST table (list (jsstring * value)) := fun tbl =>
  let tbl := delete_expired_all ns (now c) tbl in
  l ← select ns prefix (merge_sort key_order (keys_of ns tbl)) tbl; Ok (l, tbl).

(** The rows of the writes, encoded before the transaction starts. *)
Fixpoint encode_all (c : call) (i : nat) (ws : list (StoreWrite V)) : res (list (jsstring * row)) :=
  match ws with
  | [] => Ok []
  | w :: ws =>
      bytes ← encode (write_value w);
      e ← expiry (now c) (write_ttlMs w);
      rest ← encode_all c (S i) ws;
      Ok ((write_key w, {| value_ := bytes; version := uuid c i; expires_at := e |}) :: rest)
  end.
Definition check_order (a b : StoreCheck) : Prop := localeCompare (check_key a) (check_key b) <= 0.
#[local] Instance check_order_dec : RelDecision check_order.
Proof. intros a b. apply Z_le_dec. Defined.
(** The loop over the checks: [None] is the conflict, [next] counts the UUIDs drawn. *)
Fixpoint claim_all (c : call) (ns : jsstring) (next : nat) (cs : list StoreCheck) (claimed : list jsstring) (tbl : table) : option (list jsstring * table) :=
  match cs with
  | [] => Some (claimed, tbl)
  | ch :: cs =>
      let tbl := delete_expired_key ns (check_key ch) (now c) tbl in
      match ifVersion ch with
      | None =>
          let '(changes, tbl) := claimMissing ns (check_key ch) {| value_ := [0]; version := uuid c next; expires_at := None |} tbl in
          if (changes =? 1)%nat then claim_all c ns (S next) cs (claimed ++ [check_key ch]) tbl else None
      | Some v =>
          let '(changes, tbl) := claimVersion ns (check_key ch) v tbl in
          if (changes =? 1)%nat then claim_all c ns next cs claimed tbl else None
      end
  end.
Definition remove_all (ns : jsstring) (ks : list jsstring) (tbl : table) : table := foldl (fun tbl k => (remove ns k tbl).2) tbl ks.
Definition put_rows (ns : jsstring) (rows : list (jsstring * row)) (tbl : table) : table := foldl (fun tbl kr => put ns kr.1 kr.2 tbl) tbl rows.
(** The transaction; a conflict rolls it back. *)
Definition apply_mutation (c : call) (ns : jsstring) (mu : StoreCommit V) (rows : list (jsstring * row)) (tbl : table) : option table :=
  match claim_all c ns (length (writes mu)) (merge_sort check_order (checks mu)) [] tbl with
  | None => None
  | Some (claimedMissing, tbl) =>
      let tbl := put_rows ns rows (remove_all ns (deletes mu) tbl) in
      let mutated := deletes mu ++ map fst rows in
      Some (remove_all ns (base.filter (fun k => k ∉ mutated) claimedMissing) tbl)
  end.
Definition commit (c : call) (ns : jsstring) (mu : StoreCommit V) : ST table (option (list (VersionedStoreEntry V))) := fun tbl =>
  _ ← validateMutation mu true;
  rows ← encode_all c 0 (writes mu);
  match apply_mutation c ns mu rows tbl with
  | None => Ok (None, tbl)
  | Some tbl => Ok (Some (written c (writes mu)), tbl)
  end.
Definition write (c : call) (ns key : jsstring) (v : value) (ttlMs : option number) : ST table unit :=
  r ← commit c ns (single key v ttlMs);
  match r with Some _ => mret tt | None => throw (JsError "unconditional SQLite-store write failed") end.
Definition set (c : call) (ns key : jsstring) (v : value) : ST table unit := write c ns key v None.
Definition expiration_set (c : call) (ns key : jsstring) (v : value) (ttlMs : number) : ST table unit := write c ns key v (Some ttlMs).
#[global] Instance SqliteStore : Store V := {
  provider := table;
  Store.get := get; Store.set := set; Store.delete := delete; Store.list_ := list_;
  atomic := Some {| Store.getEntry := getEntry; Store.commit := commit |};
  expiration := Some expiration_set;
}.

(** ** What the table holds *)
Definition codec_ok (v : option V) : Prop := exists bytes, encode v = Ok bytes /\ decode bytes = Ok v.
Definition rec_of (r : row) : option (MemoryRecord V) :=
  match decode (value_ r) with
  | Ok v => Some {| r_value := v; r_version := read_text (version r); r_expiresAt := expires_at r |}
  | Throw _ => None
  end.
Definition view (tbl : table) : contents V := omap rec_of tbl.
Definition row_ok (ns k : jsstring) (r : row) : Prop := well_formed ns /\ plain k /\ is_Some (rec_of r) /\ plain (version r).
Definition wf (tbl : table) : Prop := map_Forall (fun nk r => row_ok nk.1 nk.2 r) tbl.
Definition holds (t : number) (tbl : table) (m : contents V) : Prop :=
  wf tbl /\ forall x t', leb t t' = true -> live t' (view tbl !! x) = live t' (m !! x).
Lemma sqlite_holds_later t t' tbl m : holds t tbl m -> leb t t' = true -> holds t' tbl m.
Proof. intros [Hw H] Ht. split; [done|]. intros x t2 Ht2. apply H. by eapply leb_trans. Qed.
Lemma view_lookup tbl x : view tbl !! x = tbl !! x ≫= rec_of.
Proof. apply lookup_omap. Qed.
Lemma rec_expired now r rc : fits now -> rec_of r = Some rc -> expired now rc = bool_decide (row_expired now r).
Proof.
  intros Hf. unfold rec_of. destruct (decode (value_ r)); [|done]. intros [= <-]. unfold expired. cbn.
  case_bool_decide as Hx; unfold row_expired in Hx; rewrite Hf in Hx; destruct (expires_at r); try done. by apply not_true_is_false.
Qed.
(** A change of one row. *)
Lemma holds_alter t tbl m x r r' : wf tbl -> (forall x', x' <> x -> forall t', leb t t' = true -> live t' (view tbl !! x') = live t' (m !! x')) ->
  match r with Some r => row_ok x.1 x.2 r | None => True end ->
  (forall t', leb t t' = true -> live t' (r ≫= rec_of) = live t' r') ->
  holds t (partial_alter (fun _ => r) x tbl) (partial_alter (fun _ => r') x m).
Proof.
  intros Hw H Hr Hl. split.
  - intros x' r1. destruct (decide (x = x')) as [<-|Hne]; [rewrite lookup_partial_alter_eq; by intros ->|].
    rewrite lookup_partial_alter_ne by done. apply Hw.
  - intros x' t' Ht'. rewrite view_lookup. destruct (decide (x = x')) as [<-|Hne]; [rewrite !lookup_partial_alter_eq; by apply Hl|].
    rewrite !lookup_partial_alter_ne by done. rewrite <- view_lookup. by apply H.
Qed.
Lemma holds_put ns k r rc t tbl m : holds t tbl m -> row_ok ns k (bind_row r) -> rec_of (bind_row r) = Some rc ->
  holds t (put ns k r tbl) (<[(ns, k) := rc]> m).
Proof.
  intros [Hw H] Hr Hrc. unfold put. destruct Hr as (Hn & Hk & Hr). rewrite !bind_well_formed by (done || apply Hk).
  apply (holds_alter t tbl m (ns, k) (Some (bind_row r)) (Some rc)); [done| |done|]; [intros; by apply H|]. intros t' _. cbn. by rewrite Hrc.
Qed.
Lemma holds_remove ns k t tbl m : holds t tbl m -> well_formed ns -> plain k -> holds t (remove ns k tbl).2 (base.delete (ns, k) m).
Proof.
  intros [Hw H] Hn Hk. unfold remove. rewrite !bind_well_formed by (done || apply Hk). destruct (tbl !! (ns, k)) as [r|] eqn:E; cbn.
  - apply (holds_alter t tbl m (ns, k) None None); [done| |done|done]. intros; by apply H.
  - replace tbl with (base.delete (ns, k) tbl) by (by apply delete_id).
    apply (holds_alter t tbl m (ns, k) None None); [done| |done|done]. intros; by apply H.
Qed.
Lemma delete_expired_spec ns k now t tbl m : holds t tbl m -> leb t now = true -> fits now -> well_formed ns -> plain k ->
  let tbl' := delete_expired_key ns k now tbl in
  holds now tbl' m /\ view tbl' !! (ns, k) = live now (m !! (ns, k)) /\ forall x, x <> (ns, k) -> tbl' !! x = tbl !! x.
Proof.
  intros Hh Ht Hf Hn Hk. apply (sqlite_holds_later _ now) in Hh; [|done]. pose proof (leb_self _ _ Ht) as Hnow. cbn. unfold delete_expired_key.
  rewrite !bind_well_formed by (done || apply Hk). pose proof Hh as [Hw H]. specialize (H (ns, k) now Hnow). rewrite view_lookup in H.
  destruct (tbl !! (ns, k)) as [r|] eqn:E; cbn in H.
  - destruct (Hw _ _ E) as (_ & _ & [rc Hrc] & _). rewrite Hrc in H. cbn in H. rewrite (rec_expired now r rc Hf Hrc) in H.
    case_decide as Hx.
    + rewrite bool_decide_eq_true_2 in H by done. split_and!.
      * destruct Hh as [_ Hh]. pose proof (holds_alter now tbl m (ns, k) None (m !! (ns, k)) Hw) as Ha.
        rewrite partial_alter_self in Ha. apply Ha; [intros; by apply Hh|done|].
        intros t' Ht'. cbn. rewrite <- (live_later now t' (m !! _)) by done. by rewrite <- H.
      * rewrite view_lookup, lookup_delete_eq. by rewrite <- H.
      * intros x Hx'. by rewrite lookup_delete_ne.
    + rewrite bool_decide_eq_false_2 in H by done. split_and!; [done| |done]. by rewrite view_lookup, E, <- H.
  - split_and!; [done| |done]. by rewrite view_lookup, E.
Qed.

(** ** Commits *)
(** A table with placeholders for claimed keys over one without. *)
Definition over (ns : jsstring) (claimed : list jsstring) (tbl base : table) : Prop :=
  forall k, if decide (k.1 = ns /\ k.2 ∈ claimed) then base !! k = None else tbl !! k = base !! k.
Lemma over_same ns claimed tbl base k : over ns claimed tbl base -> k ∉ claimed -> tbl !! (ns, k) = base !! (ns, k).
Proof. intros H Hk. specialize (H (ns, k)). rewrite decide_False in H by (by intros [_ ?]). done. Qed.
Lemma over_delete_expired ns claimed tbl base k now : well_formed ns -> plain k -> k ∉ claimed -> over ns claimed tbl base ->
  over ns claimed (delete_expired_key ns k now tbl) (delete_expired_key ns k now base).
Proof.
  intros Hn Hk Hc H. unfold delete_expired_key. rewrite !bind_well_formed by (done || apply Hk). rewrite (over_same _ _ _ _ _ H Hc).
  destruct (base !! (ns, k)) as [r|]; [|done]. case_decide; [|done]. intros x. specialize (H x).
  destruct (decide ((ns, k) = x)) as [<-|Hne]; [|by rewrite !lookup_delete_ne by done]. rewrite decide_False by (by intros [_ ?]).
  by rewrite !lookup_delete_eq.
Qed.
Lemma over_claim ns claimed tbl base k r : over ns claimed tbl base -> base !! (ns, k) = None ->
  over ns (claimed ++ [k]) (<[(ns, k) := r]> tbl) base.
Proof.
  intros H Hk x. specialize (H x). destruct (decide ((ns, k) = x)) as [<-|Hne].
  - rewrite decide_True; [done|]. split; [done|]. cbn. rewrite elem_of_app, list_elem_of_singleton. auto.
  - rewrite lookup_insert_ne by done. destruct x as [ns' k']. cbn in *. destruct (decide (ns' = ns /\ k' ∈ claimed ++ [k])) as [[-> Hx]|Hx].
    + apply elem_of_app in Hx as [Hx| ->%list_elem_of_singleton]; [by rewrite decide_True in H|done].
    + rewrite decide_False in H; [done|]. intros [-> ?]. apply Hx. split; [done|]. rewrite elem_of_app. auto.
Qed.
Definition check_ok (ch : StoreCheck) : Prop := plain (check_key ch) /\ forall v, ifVersion ch = Some v -> plain v.
Lemma claim_all_spec c ns m cs : well_formed ns -> Forall check_ok cs -> NoDup (map check_key cs) -> leb (now c) (now c) = true -> fits (now c) ->
  forall next claimed tbl base, holds (now c) base m -> over ns claimed tbl base -> Forall plain claimed -> (forall ch, ch ∈ cs -> check_key ch ∉ claimed) ->
  if forallb (check_holds (now c) ns m) cs then
    exists claimed' tbl' base', claim_all c ns next cs claimed tbl = Some (claimed', tbl') /\ holds (now c) base' m /\ over ns claimed' tbl' base' /\ Forall plain claimed'
  else claim_all c ns next cs claimed tbl = None.
Proof.
  intros Hn Hcs. induction Hcs as [|ch cs [Hk Hv] _ IH]; intros Hnd Hnow Hf next claimed tbl base Hh Ho Hpl Hfresh; cbn [forallb claim_all]; [by do 3 eexists|].
  apply NoDup_cons in Hnd as [Hnk Hnd]. assert (Hkc : check_key ch ∉ claimed) by (apply Hfresh; by left).
  destruct (delete_expired_spec ns (check_key ch) (now c) _ _ _ Hh Hnow Hf Hn Hk) as (Hh1 & Hl1 & _).
  pose proof (over_delete_expired ns claimed tbl base (check_key ch) (now c) Hn Hk Hkc Ho) as Ho1.
  set (tbl1 := delete_expired_key ns (check_key ch) (now c) tbl) in *. set (base1 := delete_expired_key ns (check_key ch) (now c) base) in *.
  pose proof (over_same _ _ _ _ _ Ho1 Hkc) as Hsame. rewrite view_lookup in Hl1. unfold check_holds at 1. rewrite <- Hl1.
  assert (Hrest : forall ch', ch' ∈ cs -> check_key ch' ∉ claimed ++ [check_key ch]).
  { intros ch' Hch'. rewrite elem_of_app, list_elem_of_singleton. intros [Hx|Hx]; [by apply (Hfresh ch'); [right|]|].
    apply Hnk. rewrite <- Hx. apply list_elem_of_fmap. eauto. }
  unfold claimMissing, claimVersion. rewrite !bind_well_formed by (done || apply Hk). rewrite Hsame.
  destruct (base1 !! (ns, check_key ch)) as [r|] eqn:Er.
  - destruct Hh1 as [Hw1 H1]. destruct (Hw1 _ _ Er) as (_ & _ & [rc Hrc] & Hver). cbn [mbind option_bind] in *. rewrite Hrc. cbn [fmap option_fmap option_map].
    destruct (ifVersion ch) as [v|] eqn:Ev; [|by rewrite bool_decide_eq_false_2].
    assert (Hrv : r_version rc = version r).
    { unfold rec_of in Hrc. destruct (decode (value_ r)); [|done]. injection Hrc as <-. cbn. by apply read_plain. }
    rewrite Hrv, (bind_well_formed v) by (by apply Hv). case_decide as Hd.
    + rewrite Hd, bool_decide_eq_true_2 by done. cbn [andb Nat.eqb]. apply IH with base1; try done. intros ch' Hch'. apply Hfresh. by right.
    + by rewrite bool_decide_eq_false_2 by congruence.
  - cbn [mbind option_bind fmap option_fmap option_map]. destruct (ifVersion ch) as [v|] eqn:Ev; [by rewrite bool_decide_eq_false_2|].
    rewrite bool_decide_eq_true_2 by done. cbn [andb Nat.eqb]. apply IH with base1; try done; [by apply over_claim|apply Forall_app; by split; [|constructor]].
Qed.
Lemma lookup_remove_all ns ks x : well_formed ns -> Forall plain ks -> forall tbl,
  remove_all ns ks tbl !! x = if decide (x.1 = ns /\ x.2 ∈ ks) then None else tbl !! x.
Proof.
  intros Hn Hks. induction Hks as [|k ks Hk _ IH]; intros tbl.
  { rewrite decide_False; [done|]. by intros [_ ?%elem_of_nil]. }
  change (remove_all ns (k :: ks) tbl) with (remove_all ns ks (remove ns k tbl).2). rewrite IH.
  assert (E : (remove ns k tbl).2 !! x = if decide (x = (ns, k)) then None else tbl !! x).
  { unfold remove. rewrite !bind_well_formed by (done || apply Hk). destruct (decide (x = (ns, k))) as [->|Hx].
    - destruct (tbl !! (ns, k)) eqn:E; cbn; [apply lookup_delete_eq|done].
    - destruct (tbl !! (ns, k)); cbn; [by apply lookup_delete_ne|done]. }
  rewrite E. destruct x as [ns' k']. cbn [fst snd].
  destruct (decide (ns' = ns /\ k' ∈ k :: ks)) as [H2|H2]; rewrite elem_of_cons in H2; repeat case_decide; naive_solver.
Qed.
Lemma put_rows_same ns rows x : well_formed ns -> Forall (fun kr => plain kr.1) rows -> forall tbl tbl' : table,
  tbl !! x = tbl' !! x \/ x.1 = ns /\ x.2 ∈ map fst rows -> put_rows ns rows tbl !! x = put_rows ns rows tbl' !! x.
Proof.
  intros Hn Hks. induction Hks as [|[k r] rows Hk _ IH]; intros tbl tbl' H.
  { destruct H as [H|[_ H]]; [done|by apply elem_of_nil in H]. }
  change (put_rows ns ((k, r) :: rows) ?y) with (put_rows ns rows (put ns k r y)). apply IH. unfold put.
  rewrite !bind_well_formed by (done || apply Hk). destruct (decide ((ns, k) = x)) as [<-|Hne]; [left; by rewrite !lookup_insert_eq|].
  rewrite !lookup_insert_ne by done. destruct H as [H|[Hx [Hx'|Hx']%elem_of_cons]]; auto. exfalso. apply Hne. destruct x. cbn in *. by subst.
Qed.
Lemma put_rows_other ns rows x : well_formed ns -> Forall (fun kr => plain kr.1) rows -> forall tbl : table,
  ~ (x.1 = ns /\ x.2 ∈ map fst rows) -> put_rows ns rows tbl !! x = tbl !! x.
Proof.
  intros Hn Hks. induction Hks as [|[k r] rows Hk _ IH]; intros tbl H; [done|].
  change (put_rows ns ((k, r) :: rows) ?y) with (put_rows ns rows (put ns k r y)). rewrite IH.
  - unfold put. rewrite !bind_well_formed by (done || apply Hk). apply lookup_insert_ne. intros <-. apply H. split; [done|by left].
  - intros [? ?]. apply H. split; [done|by right].
Qed.
Lemma placeholders_removed ns claimed dels rows tbl base :
  well_formed ns -> Forall plain claimed -> Forall plain dels -> Forall (fun kr => plain kr.1) rows -> over ns claimed tbl base ->
  remove_all ns (base.filter (fun k => k ∉ dels ++ map fst rows) claimed) (put_rows ns rows (remove_all ns dels tbl)) =
  put_rows ns rows (remove_all ns dels base).
Proof.
  intros Hn Hc Hd Hr Ho. apply map_eq. intros x. rewrite lookup_remove_all; [|done|apply Forall_forall; intros k' [_ Hk']%list_elem_of_filter; by rewrite Forall_forall in Hc; apply Hc]. case_decide as Hx; specialize (Ho x).
  - destruct Hx as [Hx1 [Hx2 Hx3]%list_elem_of_filter]. rewrite not_elem_of_app in Hx2. destruct Hx2 as [H1 H2].
    rewrite put_rows_other by (done || by intros [_ ?]). rewrite lookup_remove_all, decide_False by (done || by intros [_ ?]).
    rewrite decide_True in Ho by done. done.
  - destruct (decide (x.1 = ns /\ x.2 ∈ map fst rows)) as [Hin|Hin]; [apply put_rows_same; auto|]. apply put_rows_same; [done|done|]. left.
    rewrite !lookup_remove_all by done. destruct (decide (x.1 = ns /\ x.2 ∈ dels)) as [|Hdel]; [done|].
    case_decide as Hcl; [|done]. exfalso. destruct Hcl as [H1 H2]. apply Hx. split; [done|].
    apply list_elem_of_filter. split; [|done]. rewrite not_elem_of_app. split; intros ?; auto.
Qed.
Lemma removes_hold ns t ks : well_formed ns -> Forall plain ks -> forall tbl m, holds t tbl m -> holds t (remove_all ns ks tbl) (delete_all ns ks m).
Proof.
  intros Hn. induction 1 as [|k ks Hk _ IH]; intros tbl m Hh; [done|]. apply IH. by apply holds_remove.
Qed.
Definition write_ok (c : call) (w : StoreWrite V) : Prop := plain (write_key w) /\ codec_ok (write_value w) /\ ttl_ok fits c (write_ttlMs w).
Lemma writes_encoded c ns t ws : well_formed ns -> (forall i, plain (uuid c i)) -> Forall (write_ok c) ws ->
  Forall (fun w => exists e, expiry (now c) (write_ttlMs w) = Ok e) ws -> forall i, exists rows,
  encode_all c i ws = Ok rows /\ map fst rows = map write_key ws /\
  forall tbl m, holds t tbl m -> holds t (put_rows ns rows tbl) (put_all c ns i ws m).
Proof.
  intros Hn Hu. induction 1 as [|w ws (Hk & (bytes & Hen & Hde) & Hfit) _ IH]; intros He i; [by exists []|].
  apply Forall_cons in He as [[e He] Hes]. destruct (IH Hes (S i)) as (rows & E & Hm & Hh). cbn [encode_all]. rewrite Hen, He. cbn [mbind res_bind]. rewrite E.
  eexists. split; [done|]. split; [by cbn; rewrite Hm|]. intros tbl m H. cbn [put_rows foldl put_all fst snd]. apply Hh.
  assert (Hv : read_text (bind (uuid c i)) = uuid c i) by (rewrite bind_well_formed by apply Hu; by apply read_plain).
  assert (Hb : e ≫= bind_number = e) by (destruct e as [e|]; [by apply Hfit|done]).
  apply holds_put; [done| |unfold rec_of, record_of; cbn [bind_row value_ version expires_at]; by rewrite Hde, Hv, He, Hb].
  split_and!; [done|done|unfold rec_of; cbn; rewrite Hde; eauto|cbn; rewrite bind_well_formed by apply Hu; apply Hu].
Qed.
Lemma sqlite_commit_spec c ns mu t tbl m : holds t tbl m -> leb t (now c) = true -> op_ok well_formed plain fits codec_ok c (Commit ns mu) ->
  match spec_commit c ns mu m with
  | (Ok r, m') => exists tbl', commit c ns mu tbl = Ok (r, tbl') /\ holds (now c) tbl' m'
  | (Throw e, _) => commit c ns mu tbl = Throw e
  end.
Proof.
  intros Hh Ht ([Hu Hfit] & Hn & Hd & Hc & Hw). pose proof (leb_self _ _ Ht) as Hnow. apply (sqlite_holds_later _ (now c)) in Hh; [|done].
  unfold spec_commit, commit. destruct (validateMutation mu true) as [[]|e] eqn:Ev; [|done]. cbn [mbind res_bind].
  apply res_bind_inv in Ev as (ks & Ew & Ev). apply res_bind_inv in Ev as ([] & _ & Ec).
  destruct (writes_encoded c ns (now c) (writes mu) Hn Hu Hw (validated_expiry c _ _ _ Ew) 0) as (rows & -> & Hrows & Hput).
  cbn [mbind res_bind]. unfold apply_mutation. pose proof (merge_sort_Permutation check_order (checks mu)) as Hp.
  assert (Ho : over ns [] tbl tbl) by (intros x; rewrite decide_False; [done|]; by intros [_ ?%elem_of_nil]).
  pose proof (claim_all_spec c ns m (merge_sort check_order (checks mu)) Hn) as Hcl.
  rewrite (forallb_Permutation _ _ _ Hp) in Hcl. specialize (Hcl ltac:(by rewrite Hp)).
  specialize (Hcl ltac:(rewrite Hp; by apply (validated_checks _ []))).
  specialize (Hcl Hnow Hfit (length (writes mu)) [] tbl tbl Hh Ho ltac:(constructor) ltac:(intros ? _ ?%elem_of_nil; done)).
  destruct (forallb _ _); [|rewrite Hcl; by exists tbl].
  destruct Hcl as (claimed & tbl' & base' & -> & Hh' & Ho' & Hpl).
  assert (Hpr : Forall (fun kr : jsstring * row => plain kr.1) rows).
  { apply (Forall_map fst plain rows). rewrite Hrows. apply Forall_map. eapply Forall_impl; [exact Hw|]. by intros w [? _]. }
  rewrite (placeholders_removed ns claimed (deletes mu) rows tbl' base' Hn Hpl Hd Hpr Ho').
  eexists. split; [done|]. apply Hput. by apply removes_hold.
Qed.
Lemma sqlite_write_spec c ns k v ttl t tbl m : holds t tbl m -> leb t (now c) = true ->
  op_ok well_formed plain fits codec_ok c (Set_ ns k v) -> ttl_ok fits c ttl ->
  match spec_commit c ns (single k v ttl) m with
  | (Ok _, m') => exists tbl', write c ns k v ttl tbl = Ok (tt, tbl') /\ holds (now c) tbl' m'
  | (Throw e, _) => write c ns k v ttl tbl = Throw e
  end.
Proof.
  intros Hh Ht (Hu & Hn & Hk & Hv) Httl. pose proof (sqlite_commit_spec c ns (single k v ttl) t tbl m Hh Ht) as H. unfold write.
  specialize (H ltac:(split; [done|]; cbn; split_and!; [done|constructor|constructor|]; apply Forall_cons_2; [done|constructor])).
  assert (Hr : forall m', (spec_commit c ns (single k v ttl) m) <> (Ok None, m')).
  { unfold spec_commit. destruct (validateMutation _ _); by intros m'. }
  destruct (spec_commit c ns (single k v ttl) m) as [[[ws|]|e] m']; [|by destruct (Hr m')|].
  - destruct H as (p' & E & H'). exists p'. by rewrite (ST_bind_ok _ _ _ _ _ E).
  - unfold mbind, ST_bind. by rewrite H.
Qed.

(** ** Listings *)
Lemma lookup_delete_expired_all ns now tbl x : well_formed ns ->
  delete_expired_all ns now tbl !! x = match tbl !! x with Some r => if decide (x.1 = ns /\ row_expired now r) then None else Some r | None => None end.
Proof.
  intros Hn. unfold delete_expired_all. rewrite map_lookup_filter, bind_well_formed by done. destruct (tbl !! x) as [r|]; [|done]. cbn.
  destruct (decide (x.1 = ns /\ row_expired now r)) as [Hx|Hx].
  - rewrite option_guard_False; [done|]. cbn. tauto.
  - rewrite option_guard_True; [done|]. done.
Qed.
Lemma delete_expired_all_spec ns now t tbl m : holds t tbl m -> leb t now = true -> fits now -> well_formed ns ->
  let tbl' := delete_expired_all ns now tbl in
  holds now tbl' m /\ forall k r, tbl' !! (ns, k) = Some r -> ~ row_expired now r.
Proof.
  intros [Hw H] Ht Hf Hn. cbn. split; [split|].
  - intros x r. rewrite lookup_delete_expired_all by done. destruct (tbl !! x) as [r'|] eqn:E; [|done]. case_decide; [done|]. intros [= <-]. by apply Hw.
  - intros x t' Ht'. assert (Htt : leb t t' = true) by (by eapply leb_trans). rewrite <- H by done. rewrite !view_lookup, lookup_delete_expired_all by done.
    destruct (tbl !! x) as [r|] eqn:E; [|done]. case_decide as Hx; [|done]. destruct Hx as [_ Hx]. cbn.
    destruct (Hw _ _ E) as (_ & _ & [rc Hrc] & _). rewrite Hrc. cbn. rewrite (expired_later now t' rc Ht'); [done|].
    by rewrite (rec_expired _ _ _ Hf Hrc), bool_decide_eq_true_2.
  - intros k r. rewrite lookup_delete_expired_all by done. destruct (tbl !! (ns, k)) as [r'|]; [|done]. case_decide as Hx; [done|].
    intros [= <-] Hr. by apply Hx.
Qed.
Lemma keys_of_spec ns tbl k : well_formed ns -> k ∈ keys_of ns tbl <-> is_Some (tbl !! (ns, k)).
Proof.
  intros Hn. unfold keys_of. rewrite bind_well_formed, list_elem_of_omap by done. split.
  - intros ([[ns' k'] r] & Hx%elem_of_map_to_list & E). cbn in E. case_bool_decide; [|done]. injection E as <-. subst. eauto.
  - intros [r Hr]. exists ((ns, k), r). rewrite elem_of_map_to_list. cbn. by rewrite bool_decide_eq_true_2.
Qed.
Lemma keys_of_NoDup ns tbl : NoDup (keys_of ns tbl).
Proof.
  apply NoDup_omap; [apply NoDup_map_to_list|]. intros [[ns1 k1] r1] [[ns2 k2] r2] b H1%elem_of_map_to_list H2%elem_of_map_to_list. cbn.
  do 2 (case_bool_decide; [subst|done]). intros [= <-] [= ->]. by simplify_eq.
Qed.
Lemma select_spec c ns prefix tbl m ks : holds (now c) tbl m -> leb (now c) (now c) = true -> fits (now c) -> well_formed ns -> plain prefix ->
  (forall k r, tbl !! (ns, k) = Some r -> ~ row_expired (now c) r) ->
  select ns prefix ks tbl = Ok (omap (list_entry (now c) ns prefix m) ks).
Proof.
  intros [Hw H] Hnow Hf Hn Hp Hx. induction ks as [|k ks IH]; [done|]. cbn [select]. rewrite IH, bind_well_formed by done.
  change (omap ?f (k :: ks)) with (match f k with Some y => y :: omap f ks | None => omap f ks end).
  generalize (omap (list_entry (now c) ns prefix m) ks) as l. intros l. unfold list_entry.
  specialize (H (ns, k) (now c) Hnow). rewrite <- H, view_lookup. destruct (tbl !! (ns, k)) as [r|] eqn:E.
  - destruct (Hw _ _ E) as (_ & Hk & [rc Hrc] & _). cbn in Hk. unfold has_prefix. rewrite has_prefix_plain by done.
    destruct (starts_with prefix k); [|done]. cbn. rewrite Hrc. cbn. rewrite (rec_expired _ _ _ Hf Hrc), bool_decide_eq_false_2 by (by eapply Hx).
    unfold rec_of in Hrc. destruct (decode (value_ r)) as [v|]; [|done]. injection Hrc as <-. cbn. by rewrite read_plain.
  - cbn. by destruct (starts_with prefix k).
Qed.
Lemma sqlite_list_spec c ns prefix t tbl m : holds t tbl m -> leb t (now c) = true -> fits (now c) -> well_formed ns -> plain prefix ->
  exists l tbl', list_ c ns prefix tbl = Ok (l, tbl') /\ l ≡ₚ listed (now c) ns prefix m /\ holds (now c) tbl' m.
Proof.
  intros Hh Ht Hf Hn Hp. pose proof (leb_self _ _ Ht) as Hnow. unfold list_. destruct (delete_expired_all_spec ns (now c) t tbl m Hh Ht Hf Hn) as [Hh' Hx].
  rewrite (select_spec c ns prefix _ m _ Hh' Hnow Hf Hn Hp Hx). do 2 eexists. split; [done|]. split; [|done].
  apply listed_Permutation; [rewrite merge_sort_Permutation; apply keys_of_NoDup|]. intros k [rc Hrc]. rewrite merge_sort_Permutation, keys_of_spec by done.
  destruct Hh' as [_ H]. rewrite <- (H (ns, k) (now c) Hnow), view_lookup in Hrc. destruct (delete_expired_all _ _ _ !! (ns, k)); [eauto|done].
Qed.

(** ** The laws *)
Lemma getEntry_spec c ns k t tbl m : holds t tbl m -> leb t (now c) = true -> fits (now c) -> well_formed ns -> plain k ->
  exists e tbl', getEntry c ns k tbl = Ok (e, tbl') /\ holds (now c) tbl' m /\
    e = (fun r => {| e_key := k; e_value := r_value r; e_version := r_version r |}) <$> live (now c) (m !! (ns, k)).
Proof.
  intros Hh Ht Hf Hn Hk. destruct (delete_expired_spec ns k (now c) t tbl m Hh Ht Hf Hn Hk) as (Hh' & Hl & _). unfold getEntry.
  rewrite !bind_well_formed by (done || apply Hk). rewrite <- Hl, view_lookup. destruct (delete_expired_key _ _ _ _ !! (ns, k)) as [r|] eqn:E.
  - destruct Hh' as [Hw Hh']. destruct (Hw _ _ E) as (_ & _ & [rc Hrc] & _). cbn. unfold rec_of. unfold rec_of in Hrc.
    destruct (decode (value_ r)) as [v|]; [|done]. do 2 eexists. split; [done|]. by split.
  - do 2 eexists. split; [done|]. by split.
Qed.
Lemma sqlite_delete_spec c ns k t tbl m : holds t tbl m -> leb t (now c) = true -> fits (now c) -> well_formed ns -> plain k ->
  exists tbl', delete c ns k tbl = Ok (bool_decide (is_Some (live (now c) (m !! (ns, k)))), tbl') /\ holds (now c) tbl' (base.delete (ns, k) m).
Proof.
  intros Hh Ht Hf Hn Hk. destruct (delete_expired_spec ns k (now c) t tbl m Hh Ht Hf Hn Hk) as (Hh' & Hl & _). unfold delete.
  pose proof (holds_remove ns k _ _ _ Hh' Hn Hk) as Hr. revert Hr. unfold remove. rewrite !bind_well_formed by (done || apply Hk).
  rewrite <- Hl, view_lookup. destruct (delete_expired_key _ _ _ _ !! (ns, k)) as [r|] eqn:E; cbn [mbind option_bind snd]; intros Hr.
  - destruct Hh' as [Hw _]. destruct (Hw _ _ E) as (_ & _ & Hrc & _). eexists. split; [|exact Hr]. by rewrite bool_decide_eq_true_2.
  - eexists. split; [|exact Hr]. rewrite bool_decide_eq_false_2; [done|]. by intros [].
Qed.
Lemma sqlite_call c o t tbl m : holds t tbl m -> leb t (now c) = true -> op_ok well_formed plain fits codec_ok c o -> call_law holds c o tbl m.
Proof.
  intros Hh Ht Ho. unfold call_law. pose proof Ho as [[Hu Hf] Hok]. destruct o as [ns k|ns k v|ns k v ttl|ns k|ns prefix|ns k|ns mu];
    cbn [spec_step call_op Store.get Store.set Store.delete Store.list_ atomic expiration SqliteStore].
  - destruct Hok as [Hn Hk]. destruct (getEntry_spec c ns k t tbl m Hh Ht Hf Hn Hk) as (e & tbl1 & E1 & H1 & ->).
    assert (E : get c ns k tbl = Ok (live (now c) (m !! (ns, k)) ≫= r_value, tbl1)).
    { unfold get. rewrite (ST_bind_ok _ _ _ _ _ E1). by destruct (live (now c) (m !! (ns, k))). }
    rewrite (ST_bind_ok _ _ _ _ _ E). do 2 eexists. by split_and!.
  - pose proof (sqlite_write_spec c ns k v None t tbl m Hh Ht (conj (conj Hu Hf) Hok) ltac:(by intros e)) as H. destruct (spec_commit c ns _ m) as [[r|e] m'].
    + destruct H as (p' & E & H'). rewrite (ST_bind_ok (set c ns k v) _ _ _ _ E). by do 2 eexists.
    + unfold mbind, ST_bind, set. by rewrite H.
  - destruct Hok as (Hn & Hk & Hv & Httl).
    pose proof (sqlite_write_spec c ns k v (Some ttl) t tbl m Hh Ht (conj (conj Hu Hf) (conj Hn (conj Hk Hv))) Httl) as H. destruct (spec_commit c ns _ m) as [[r|e] m'].
    + destruct H as (p' & E & H'). rewrite (ST_bind_ok (expiration_set c ns k v ttl) _ _ _ _ E). by do 2 eexists.
    + unfold mbind, ST_bind, expiration_set. by rewrite H.
  - destruct Hok as [Hn Hk]. destruct (sqlite_delete_spec c ns k t tbl m Hh Ht Hf Hn Hk) as (p1 & E1 & H1). rewrite (ST_bind_ok _ _ _ _ _ E1). by do 2 eexists.
  - destruct Hok as [Hn Hk]. destruct (sqlite_list_spec c ns prefix t tbl m Hh Ht Hf Hn Hk) as (l & p1 & E1 & Hl & H1). rewrite (ST_bind_ok _ _ _ _ _ E1). by do 2 eexists.
  - destruct Hok as [Hn Hk]. destruct (getEntry_spec c ns k t tbl m Hh Ht Hf Hn Hk) as (e & tbl1 & E1 & H1 & ->).
    cbn [Store.getEntry]. rewrite (ST_bind_ok _ _ _ _ _ E1). do 2 eexists. by split_and!.
  - pose proof (sqlite_commit_spec c ns mu t tbl m Hh Ht Ho) as H. cbn [Store.commit]. destruct (spec_commit c ns mu m) as [[r|e] m'].
    + destruct H as (p' & E & H'). rewrite (ST_bind_ok _ _ _ _ _ E). by do 2 eexists.
    + unfold mbind, ST_bind. by rewrite H.
Qed.
#[global, refine] Instance SqliteLaws : StoreLaws SqliteStore := {
  name_ok := well_formed; key_ok := plain; time_ok := fits; value_ok := codec_ok; Store.holds := holds;
}.
Proof.
  - intros t p m m' Hs [Hw H]. split; [done|]. intros x t' Ht'. rewrite H by done. by apply Hs.
  - apply sqlite_holds_later.
  - intros t p m c o Hh Ht Ho _. apply law_of_call; [by eapply sqlite_call|by eapply sqlite_holds_later].
Defined.
Lemma sqlite_empty_holds t : holds t ∅ ∅.
Proof. split; [apply map_Forall_empty|]. intros x t' _. by rewrite view_lookup, !lookup_empty. Qed.
End sqlite.
End SqliteStore.
