(* ===== verification/StoreHistories.v ===== *)
(** Histories of stores: that the providers of src/js/store.ts behave alike, and
    what a version check of a commit guarantees.

    Both are proved against [StoreLaws], which [MemoryStore] and [SqliteStore]
    satisfy. *)

From S2P Require Import Prelude JsArith Utf8 Store MemoryStore SqliteStore.

Module StoreHistories.
Import Store.
Import JsArith(number).

Section histories.
Context {V : Type}.



(** ** Versions *)
(** The versions that an operation assigns. *)
Definition write_count (o : op V) : nat :=
  match o with Set_ _ _ _ | SetTtl _ _ _ _ => 1 | Commit _ mu => length (writes mu) | _ => 0 end.
Definition drawn (co : call * op V) : list jsstring := map (uuid co.1) (seq 0 (write_count co.2)).
Definition all_drawn (h : list (call * op V)) : list jsstring := concat (map drawn h).
(** The operation changed the key, as its result shows. *)
Definition changed (ns k : jsstring) (o : op V) (out : res (output V)) : Prop :=
  match o, out with
  | Set_ ns' k' _, Ok _ | SetTtl ns' k' _ _, Ok _ | Delete ns' k', Ok (OBool true) => ns' = ns /\ k' = k
  | Commit ns' mu, Ok (OCommit (Some _)) => ns' = ns /\ (k ∈ deletes mu \/ k ∈ map write_key (writes mu))
  | _, _ => False
  end.
Lemma changed_agrees ns k o (a b : res (output V)) : agrees a b -> changed ns k o a -> changed ns k o b.
Proof. unfold agrees. destruct a as [[]|], b as [[]|]; intros; simplify_eq; try done; by destruct o. Qed.
Lemma put_all_lookup c ns x ws : forall i (m : contents V) r, put_all c ns i ws m !! x = Some r ->
  r_version r ∈ map (uuid c) (seq i (length ws)) \/ m !! x = Some r /\ ~ (x.1 = ns /\ x.2 ∈ map write_key ws).
Proof.
  induction ws as [|w ws IH]; intros i m r H.
  - right. split; [done|]. by intros [_ ?%elem_of_nil].
  - cbn [put_all] in H. destruct (IH _ _ _ H) as [Hd|[Hm Hn]]; [left; by right|]. destruct (decide ((ns, write_key w) = x)) as [<-|Hne].
    + rewrite lookup_insert_eq in Hm. injection Hm as <-. left. by left.
    + rewrite lookup_insert_ne in Hm by done. right. split; [done|]. cbn. intros [H1 [H2|H2]%elem_of_cons]; [|by apply Hn].
      apply Hne. destruct x. cbn in *. by subst.
Qed.
Lemma delete_all_lookup ns x ks : forall (m : contents V) r, delete_all ns ks m !! x = Some r -> m !! x = Some r /\ ~ (x.1 = ns /\ x.2 ∈ ks).
Proof.
  induction ks as [|k ks IH]; intros m r H; [split; [done|]; by intros [_ ?%elem_of_nil]|].
  change (delete_all ns (k :: ks) m) with (delete_all ns ks (base.delete (ns, k) m)) in H. destruct (IH _ _ H) as [Hm Hn].
  apply lookup_delete_Some in Hm as [Hne Hm]. split; [done|]. intros [H1 [H2|H2]%elem_of_cons]; [|by apply Hn].
  apply Hne. destruct x. cbn in *. by subst.
Qed.
Lemma commit_lookup (c : call) (ns : jsstring) (mu : StoreCommit V) (m : contents V) (x : jsstring * jsstring) (r : MemoryRecord V) : (spec_commit c ns mu m).2 !! x = Some r ->
  r_version r ∈ map (uuid c) (seq 0 (length (writes mu))) \/
  m !! x = Some r /\ (forall ws, (spec_commit c ns mu m).1 = Ok (Some ws) -> ~ (x.1 = ns /\ (x.2 ∈ deletes mu \/ x.2 ∈ map write_key (writes mu)))).
Proof.
  unfold spec_commit. destruct (validateMutation mu true) as [[]|e]; [|by right]. destruct (forallb _ _); [|by right]. cbn. intros H.
  destruct (put_all_lookup _ _ _ _ _ _ _ H) as [Hd|[Hm Hn]]; [by left|]. right.
  destruct (delete_all_lookup _ _ _ _ _ Hm) as [Hm' Hn']. split; [done|]. intros _ _ [H1 [H2|H2]]; tauto.
Qed.
(** What a step leaves under a key is new, or it was there and the key is unchanged. *)
Lemma step_keeps (c : call) (o : op V) (m : contents V) (ns k : jsstring) (r : MemoryRecord V) : (spec_step c o m).2 !! (ns, k) = Some r ->
  r_version r ∈ drawn (c, o) \/ m !! (ns, k) = Some r /\ ~ changed ns k o (spec_step c o m).1.
Proof.
  assert (Hw : forall ns' k' v ttl, let s := spec_commit c ns' (single k' v ttl) m in s.2 !! (ns, k) = Some r ->
    r_version r ∈ drawn (c, Set_ ns' k' v) \/ m !! (ns, k) = Some r /\ ~ (ns' = ns /\ k' = k /\ exists x, s.1 = Ok x)).
  { intros ns' k' v ttl s H. destruct (commit_lookup _ _ _ _ _ _ H) as [Hd|[Hm Hn]]; [by left|]. right. split; [done|].
    intros (-> & -> & x & Hx). subst s. revert Hx Hn. unfold spec_commit. destruct (validateMutation _ _) as [[]|]; [|done]. cbn. intros _ Hn.
    eapply Hn; [done|]. split; [done|]. right. by left. }
  destruct o as [ns' k'|ns' k' v|ns' k' v ttl|ns' k'|ns' prefix|ns' k'|ns' mu]; cbn [spec_step fst snd]; try (intros H; right; split; [exact H|by intros []]).
  - specialize (Hw ns' k' v None). destruct (spec_commit c ns' (single k' v None) m) as [[x|e] m']; cbn in *; intros H; (destruct (Hw H) as [?|[? Hn]]; [by left|right; split; [done|]]); [|by intros []].
    intros [? ?]. apply Hn. eauto.
  - specialize (Hw ns' k' v (Some ttl)). destruct (spec_commit c ns' (single k' v (Some ttl)) m) as [[x|e] m']; cbn in *; intros H; (destruct (Hw H) as [?|[? Hn]]; [by left|right; split; [done|]]); [|by intros []].
    intros [? ?]. apply Hn. eauto.
  - intros [Hne Hm]%lookup_delete_Some. right. split; [done|]. cbn. case_bool_decide; [|by intros []]. intros [-> ->]. done.
  - intros H. pose proof (commit_lookup c ns' mu m (ns, k) r) as Hc. destruct (spec_commit c ns' mu m) as [[x|e] m']; cbn in *;
      (destruct (Hc H) as [?|[? Hn]]; [by left|right; split; [done|]]); [|by intros []].
    destruct x as [ws|]; [|by intros []]. intros [<- Hx]. by apply (Hn ws).
Qed.
Lemma exec_keeps (h : list (call * op V)) : forall (m : contents V) (ns k : jsstring) (r : MemoryRecord V), (spec_exec h m).2 !! (ns, k) = Some r -> r_version r ∉ all_drawn h ->
  m !! (ns, k) = Some r /\ Forall2 (fun co out => ~ changed ns k co.2 out) h (spec_exec h m).1.
Proof.
  induction h as [|[c o] h IH]; intros m ns k r H Hn; [by split; [|constructor]|]. cbn [spec_exec] in *. unfold all_drawn in Hn. cbn [map concat] in Hn.
  rewrite not_elem_of_app in Hn. destruct Hn as [Hn1 Hn2]. pose proof (step_keeps c o m ns k r) as Hs. destruct (spec_step c o m) as [out m'].
  specialize (IH m' ns k r). destruct (spec_exec h m') as [outs m'']. cbn in *. destruct (IH H Hn2) as [Hm' Hf]. destruct (Hs Hm') as [?|[? ?]]; [done|].
  split; [done|by constructor].
Qed.
(** Versions in the store were drawn. *)
Lemma exec_versions (h : list (call * op V)) : forall (m : contents V) used, map_Forall (fun _ r => r_version r ∈ used) m ->
  map_Forall (fun _ r => r_version r ∈ used ++ all_drawn h) (spec_exec h m).2.
Proof.
  induction h as [|[c o] h IH]; intros m used Hm; cbn [spec_exec].
  - intros x r Hr. unfold all_drawn. cbn. rewrite app_nil_r. by eapply Hm.
  - pose proof (fun ns k r => step_keeps c o m ns k r) as Hs. destruct (spec_step c o m) as [out m']. specialize (IH m' (used ++ drawn (c, o))).
    destruct (spec_exec h m') as [outs m'']. cbn in *. unfold all_drawn. cbn [map concat]. rewrite app_assoc. apply IH.
    intros [ns k] r Hr. rewrite elem_of_app. destruct (Hs ns k r Hr) as [?|[? _]]; [by right|left; by eapply Hm].
Qed.

Section laws.
Context `{S : Store V} `{L : !StoreLaws S}.
Lemma exec_app (h h' : list (call * op V)) : forall p, (exec (h ++ h') p).2 = (exec h' (exec h p).2).2.
Proof.
  induction h as [|[c o] h IH]; intros p; [done|]. cbn [exec app]. destruct (step c o p) as [out p']. specialize (IH p').
  destruct (exec (h ++ h') p'), (exec h p'). done.
Qed.
Lemma clock_app (h h' : list (call * op V)) : forall t, clock_runs t (h ++ h') <-> clock_runs t h /\ clock_runs (end_time t h) h'.
Proof.
  induction h as [|[c o] h IH]; intros t; cbn; [tauto|]. rewrite IH. unfold end_time. cbn. tauto.
Qed.
Lemma all_drawn_app (h h' : list (call * op V)) : all_drawn (h ++ h') = all_drawn h ++ all_drawn h'.
Proof. unfold all_drawn. by rewrite map_app, concat_app. Qed.
Definition read (ns k : jsstring) (r : MemoryRecord V) : VersionedStoreEntry V := {| e_key := k; e_value := r_value r; e_version := r_version r |}.
Lemma get_entry_law t p m c ns k : holds t p m -> leb t (now c) = true -> op_ok name_ok key_ok time_ok value_ok c (GetEntry ns k) -> is_Some atomic ->
  exists p', step c (GetEntry ns k) p = (Ok (OEntry (read ns k <$> live (now c) (m !! (ns, k)))), p') /\ holds (now c) p' m.
Proof.
  intros Hh Ht Ho Ha. destruct (step_law t p m c (GetEntry ns k) Hh Ht Ho Ha) as (out & p' & E & Hag & Hh'). cbn in Hag, Hh'. exists p'.
  split; [|done]. rewrite E. f_equal. by destruct out as [[]|].
Qed.

End laws.
End histories.

(** C17: if a commit that checks the version of a key succeeds, no operation has
    changed the key since that version was read, and the key still holds the entry
    that was read: for every provider that keeps the laws of stores, every
    history, and UUIDs that do not repeat. *)
Theorem store_optimistic {V} `{S : Store V} `{L : !StoreLaws S} (t : number) (p : provider) (h1 h2 : list (call * op V)) (c1 c2 : call)
  (ns k : jsstring) (mu : StoreCommit V) (e : VersionedStoreEntry V) (ws : list (VersionedStoreEntry V)) :
  let h := h1 ++ (c1, GetEntry ns k) :: h2 ++ [(c2, Commit ns mu)] in
  holds t p ∅ -> clock_runs t h -> history_ok h -> NoDup (all_drawn h) ->
  let p1 := (exec h1 p).2 in
  let p2 := (step c1 (GetEntry ns k) p1).2 in
  let p3 := (exec h2 p2).2 in
  (step c1 (GetEntry ns k) p1).1 = Ok (OEntry (Some e)) ->
  {| check_key := k; ifVersion := Some (e_version e) |} ∈ checks mu ->
  (step c2 (Commit ns mu) p3).1 = Ok (OCommit (Some ws)) ->
  Forall2 (fun co out => ~ changed ns k co.2 out) h2 (exec h2 p2).1 /\ (step c2 (GetEntry ns k) p3).1 = Ok (OEntry (Some e)).
Proof.
  intros h Hh Hc Hok Hnd p1 p2 p3 He Hch Hcm. subst h.
  rewrite clock_app in Hc. destruct Hc as [Hc1 Hc]. cbn in Hc. destruct Hc as [Ht1 Hc]. rewrite clock_app in Hc. destruct Hc as [Hc2 [Ht2 _]].
  apply Forall_app in Hok as [Hok1 Hok]. apply Forall_cons in Hok as [[Hog Hsg] Hok]. apply Forall_app in Hok as [Hok2 Hok].
  apply Forall_cons in Hok as [[Hoc Hsc] _]. cbn [fst snd] in *.
  destruct (exec_law h1 t p ∅ Hh Hc1 Hok1) as [_ Hh1]. fold p1 in Hh1. set (m1 := (spec_exec h1 ∅).2) in *.
  destruct (get_entry_law _ _ _ c1 ns k Hh1 Ht1 Hog Hsg) as (p2' & E2 & Hh2). subst p2. rewrite E2 in He. injection He as He.
  apply fmap_Some in He as (r & [Hr _]%live_Some & ->). subst p3. rewrite E2 in *. cbn [snd] in *.
  destruct (exec_law h2 _ _ _ Hh2 Hc2 Hok2) as [Hag Hh3]. set (p3 := (exec h2 p2').2) in *. set (m3 := (spec_exec h2 m1).2) in *.
  destruct (step_law _ _ _ c2 (Commit ns mu) Hh3 Ht2 Hoc Hsc) as (out & p4 & E4 & Ha4 & _). rewrite E4 in Hcm. cbn [fst] in Hcm. subst out.
  assert (Hl : r_version <$> live (now c2) (m3 !! (ns, k)) = Some (r_version r)).
  { cbn [spec_step] in Ha4. unfold spec_commit in Ha4. destruct (validateMutation mu true); [|done]. destruct (forallb _ _) eqn:Ef; [|done].
    rewrite forallb_forall in Ef. by apply list_elem_of_In, Ef, bool_decide_eq_true in Hch. }
  apply fmap_Some in Hl as (r' & Hl & Hv). pose proof Hl as [Hr' _]%live_Some.
  pose proof (exec_versions h1 ∅ [] (map_Forall_empty _)) as Hver. fold m1 in Hver. pose proof (Hver _ _ Hr) as Hin. cbn in Hin.
  rewrite all_drawn_app in Hnd. apply NoDup_app in Hnd as (_ & Hdis & _). pose proof (Hdis _ Hin) as Hdr. unfold all_drawn in Hdr. cbn [map concat] in Hdr.
  rewrite map_app, concat_app, !not_elem_of_app in Hdr. destruct Hdr as (_ & Hdr & _).
  destruct (exec_keeps h2 m1 ns k r' Hr' ltac:(by rewrite <- Hv)) as [Hm1 Hf]. rewrite Hr in Hm1. injection Hm1 as <-. split.
  - clear -Hag Hf. revert Hag Hf. generalize (exec h2 p2').1 as outs, (spec_exec h2 m1).1 as outs'. intros outs outs' Hag. revert outs Hag.
    induction 1 as [|out out' outs outs' Ha _ IH] in h2 |- *; intros Hf; inversion Hf; subst; constructor; [|by apply IH].
    intros Hx. by apply (changed_agrees _ _ _ _ _ Ha) in Hx.
  - destruct (get_entry_law _ _ _ c2 ns k Hh3 Ht2) as (p5 & E5 & _); [|done|by rewrite E5, Hl].
    destruct Hoc as (Hu & Hn & _ & Hck & _). split; [done|]. split; [done|]. rewrite Forall_forall in Hck. by destruct (Hck _ Hch).
Qed.


(** ** Examples *)
Definition at_time (n : Z) : call := {| now := JsArith.of_int n; uuid i := [65 + n; 48 + Z.of_nat i mod 10] |}.
Definition users : jsstring := js "users".
Definition checked (v : jsstring) : StoreCommit Z :=
  {| checks := [{| check_key := js "ada"; ifVersion := Some v |}; {| check_key := js "bob"; ifVersion := None |}];
     writes := [{| write_key := js "ada"; write_value := Some 2; write_ttlMs := None |}]; deletes := [js "tmp"] |}.
Definition first_write : list (call * op Z) := [(at_time 0, Set_ users (js "ada") (Some 1))].
Definition others : list (call * op Z) :=
  [(at_time 2, SetTtl users (js "tmp") (Some 7) (JsArith.of_int 3)); (at_time 3, List_ users []); (at_time 6, Get users (js "tmp"))].
Definition sample : list (call * op Z) := first_write ++ (at_time 1, GetEntry users (js "ada")) :: others ++ [(at_time 7, Commit users (checked (js "A0")))].
Lemma sample_clock : clock_runs (JsArith.of_int 0) sample.
Proof. repeat split. Qed.
Lemma store_optimistic_witness :
  let memory := MemoryStore.MemoryStore (V := Z) (fun _ _ => 0) in
  let p2 := (step (S := memory) (at_time 1) (GetEntry users (js "ada")) (exec (S := memory) first_write ∅).2).2 in
  Forall2 (fun co out => ~ changed users (js "ada") co.2 out) others (exec (S := memory) others p2).1 /\
  (step (S := memory) (at_time 7) (GetEntry users (js "ada")) (exec (S := memory) others p2).2).1 =
    Ok (OEntry (Some {| e_key := js "ada"; e_value := Some 1; e_version := js "A0" |})).
Proof.
  apply (store_optimistic (S := MemoryStore.MemoryStore (V := Z) (fun _ _ => 0)) (JsArith.of_int 0) ∅ first_write others (at_time 1) (at_time 7)
    users (js "ada") (checked (js "A0")) {| e_key := js "ada"; e_value := Some 1; e_version := js "A0" |}
    [{| e_key := js "ada"; e_value := Some 2; e_version := js "H0" |}]).
  - apply MemoryStore.memory_empty_holds.
  - apply sample_clock.
  - repeat (apply Forall_cons_2 || apply Forall_nil_2); (split; [split; [done|]|]; cbn; eauto);
      split_and!; try done; repeat (apply Forall_cons_2 || apply Forall_nil_2); done.
  - apply (bool_decide_unpack _). by vm_compute.
  - by vm_compute.
  - left.
  - by vm_compute.
Defined.
Definition sample_encode (v : option Z) : res (list Z) := match v with Some n => Ok [1; n] | None => Ok [0] end.
Definition sample_decode (bytes : list Z) : res (option Z) := match bytes with [1; n] => Ok (Some n) | [0] => Ok None | _ => Throw (TypeError "codec") end.
(** A time of expiry from 2^63 on wraps to a negative one when it is bound, so that
    the entry is expired at once in SQLite only. *)
Lemma huge_ttl_expires : let h := [(at_time 0, SetTtl users (js "k") (Some 1) (JsArith.of_int (2 ^ 63))); (at_time 1, Get users (js "k"))] in
  (exec (S := MemoryStore.MemoryStore (V := Z) (fun _ _ => 0)) h ∅).1 = [Ok OUnit; Ok (OValue (Some 1))] /\
  (exec (S := SqliteStore.SqliteStore sample_encode sample_decode (fun _ _ => 0)) h ∅).1 = [Ok OUnit; Ok (OValue None)].
Proof. split; by vm_compute. Qed.
End StoreHistories.
