(* ===== verification/Cache.v ===== *)
(** Caches (src/js/cache.ts): expiry, tags and eviction of the least recently used
    entry over any store.

    The file is written against [Store.Store]; a cache object is the namespace of
    its store and its scope ([view]), and all views of a cache share the map of
    recency.  The operations of a cache follow each other.  [lru_step] is what they
    promise: a list of entries, the least recently used first. *)

From S2P Require Import Prelude JsArith JsString Utf8 Store MemoryStore SqliteStore.

Module Cache.
Import JsArith(number).

(** [size > maxEntries] *)
Definition exceeds (size : nat) (maxEntries : number) : bool :=
  match maxEntries with JsArith.NaN => false | m => negb (Store.leb (JsArith.of_int (Z.of_nat size)) m) end.
Definition ttl (ttlMs : number) : res number :=
  match Store.normalizedTtl ttlMs with Ok n => Ok n | Throw _ => Throw (TypeError "Cache ttlMs must be finite") end.

Section cache.
Context {W : Type}.
Record CacheRecord := { cr_value : option W; cr_tags : list jsstring; cr_expiresAt : option number }.
Record CacheSetOptions := { ttlMs : option number; tags : list jsstring }.
Record view := { v_store : jsstring; v_scope : jsstring }.

Section operations.
Context `{S : !Store.Store CacheRecord} (maxEntries : number).
Record state := { backing : Store.provider; recency : list (jsstring * (jsstring * jsstring)) }.
Definition on_store {A} (f : ST Store.provider A) : ST state A := fun st =>
  match f (backing st) with Ok (a, p) => Ok (a, {| backing := p; recency := recency st |}) | Throw e => Throw e end.
Definition on_recency (f : list (jsstring * (jsstring * jsstring)) -> list (jsstring * (jsstring * jsstring))) : ST state unit := fun st =>
  Ok (tt, {| backing := backing st; recency := f (recency st) |}).
Definition recencyKey (v : view) (key : jsstring) : jsstring := v_scope v ++ 0 :: key.
Definition forget (v : view) (key : jsstring) : ST state unit := on_recency (JMap.delete (recencyKey v key)).
(** The loop that drops the oldest entries. *)
Fixpoint evict (c : Store.call) (r : list (jsstring * (jsstring * jsstring))) : ST Store.provider (list (jsstring * (jsstring * jsstring))) :=
  match r with
  | [] => mret []
  | (id, (ns, key)) :: r' =>
      if exceeds (length r) maxEntries then Store.delete c ns key;; evict c r' else mret r
  end.
Definition evict_all (c : Store.call) : ST state unit := fun st =>
  match evict c (recency st) (backing st) with Ok (r, p) => Ok (tt, {| backing := p; recency := r |}) | Throw e => Throw e end.
Definition touch (c : Store.call) (v : view) (key : jsstring) : ST state unit :=
  let id := recencyKey v key in
  on_recency (JMap.delete id);;
  on_recency (JMap.set id (v_store v, key));;
  evict_all c.
Definition get (c : Store.call) (v : view) (key : jsstring) : ST state (option W) :=
  record ← on_store (Store.get c (v_store v) key);
  match record with
  | None => forget v key;; mret None
  | Some r =>
      if match cr_expiresAt r with Some e => Store.leb e (Store.now c) | None => false end then
        on_store (Store.delete c (v_store v) key);; forget v key;; mret None
      else touch c v key;; mret (cr_value r)
  end.
Definition set (c : Store.call) (v : view) (key : jsstring) (value : option W) (o : CacheSetOptions) : ST state unit :=
  lifetime ← liftR (match ttlMs o with None => Ok None | Some t => n ← ttl t; Ok (Some n) end);
  let record e := Some {| cr_value := value; cr_tags := tags o; cr_expiresAt := e |} in
  match lifetime, Store.expiration with
  | Some n, Some expire => on_store (expire c (v_store v) key (record None) n)
  | Some n, None => on_store (Store.set c (v_store v) key (record (Some (JsArith.add (Store.now c) n))))
  | None, _ => on_store (Store.set c (v_store v) key (record None))
  end;;
  touch c v key.
Definition delete (c : Store.call) (v : view) (key : jsstring) : ST state unit :=
  forget v key;; on_store (Store.delete c (v_store v) key);; mret tt.
Definition carries (wanted : list jsstring) (ts : list jsstring) : bool := existsb (fun tag => bool_decide (tag ∈ wanted)) ts.
Fixpoint invalidate (c : Store.call) (v : view) (wanted : list jsstring) (l : list (jsstring * option CacheRecord)) : ST state unit :=
  match l with
  | [] => mret tt
  | (key, r) :: l =>
      match r with
      | None => throw (TypeError "cannot read properties of null")
      | Some r =>
          if carries wanted (cr_tags r) then on_store (Store.delete c (v_store v) key);; forget v key;; invalidate c v wanted l
          else invalidate c v wanted l
      end
  end.
Definition invalidateTags (c : Store.call) (v : view) (tags : list jsstring) : ST state unit :=
  if (length tags =? 0)%nat then mret tt
  else l ← on_store (Store.list_ c (v_store v) []); invalidate c v tags l.
Definition namespace (v : view) (name : jsstring) : res view :=
  if (length name =? 0)%nat then Throw (TypeError "Cache namespace must not be empty")
  else ns ← Store.childNamespace (v_store v) name; Ok {| v_store := ns; v_scope := v_scope v ++ 0 :: name |}.
(** [cache(store)] over the store of a namespace. *)
Definition cache (base : jsstring) : res view :=
  ns ← Store.childNamespace base (js "fino:cache:v1"); Ok {| v_store := ns; v_scope := js "root" |}.
Fixpoint open (v : view) (path : list jsstring) : res view :=
  match path with [] => Ok v | name :: path => v ← namespace v name; open v path end.
Definition root (base : jsstring) (path : list jsstring) : res view := v ← cache base; open v path.

(** Operations on the view that a path of names leads to. *)
Inductive op :=
| CGet (key : jsstring)
| CSet (key : jsstring) (value : option W) (o : CacheSetOptions)
| CDelete (key : jsstring)
| CInvalidate (tags : list jsstring).
Record request := { r_call : Store.call; r_path : list jsstring; r_op : op }.
Definition call_op (c : Store.call) (v : view) (o : op) : ST state (option W) :=
  match o with
  | CGet key => get c v key
  | CSet key value o => set c v key value o;; mret None
  | CDelete key => delete c v key;; mret None
  | CInvalidate ts => invalidateTags c v ts;; mret None
  end.
Definition step (base : jsstring) (q : request) (st : state) : res (option W) * state :=
  match root base (r_path q) with
  | Throw e => (Throw e, st)
  | Ok v => match call_op (r_call q) v (r_op q) st with Ok (out, st) => (Ok out, st) | Throw e => (Throw e, st) end
  end.
Fixpoint exec (base : jsstring) (h : list request) (st : state) : list (res (option W)) * state :=
  match h with
  | [] => ([], st)
  | q :: h => let '(out, st) := step base q st in let '(outs, st) := exec base h st in (out :: outs, st)
  end.
End operations.

(** ** What a cache promises *)
Record entry := { en_path : list jsstring; en_key : jsstring; en_value : option W; en_tags : list jsstring; en_until : option number }.
Definition en_at (e : entry) : list jsstring * jsstring := (en_path e, en_key e).
Definition over_at (t : number) (e : entry) : bool := match en_until e with Some u => Store.leb u t | None => false end.
Fixpoint find (x : list jsstring * jsstring) (L : list entry) : option entry :=
  match L with [] => None | e :: L => if decide (en_at e = x) then Some e else find x L end.
Definition drop_at (x : list jsstring * jsstring) (L : list entry) : list entry := base.filter (fun e => en_at e <> x) L.
Fixpoint trim (maxEntries : number) (L : list entry) : list entry :=
  match L with [] => [] | e :: L' => if exceeds (length L) maxEntries then trim maxEntries L' else L end.
(** Entries are moved to the end when they are used.  [native] says that the store
    expires entries itself; then an expired entry is not listed any more. *)
Definition lru_step (maxEntries : number) (native : bool) (q : request) (L : list entry) : res (option W) * list entry :=
  let t := Store.now (r_call q) in
  match r_op q with
  | CGet key =>
      let x := (r_path q, key) in
      match find x L with
      | Some e => if over_at t e then (Ok None, drop_at x L) else (Ok (en_value e), trim maxEntries (drop_at x L ++ [e]))
      | None => (Ok None, L)
      end
  | CSet key value o =>
      match (match ttlMs o with None => Ok None | Some ms => n ← ttl ms; Ok (Some (JsArith.add t n)) end) with
      | Throw e => (Throw e, L)
      | Ok until =>
          let e := {| en_path := r_path q; en_key := key; en_value := value; en_tags := tags o; en_until := until |} in
          (Ok None, trim maxEntries (drop_at (en_at e) L ++ [e]))
      end
  | CDelete key => (Ok None, drop_at (r_path q, key) L)
  | CInvalidate ts =>
      (Ok None, base.filter (fun e => ~ (en_path e = r_path q /\ carries ts (en_tags e) = true /\ (native && over_at t e) = false)) L)
  end.
Fixpoint lru_exec (maxEntries : number) (native : bool) (h : list request) (L : list entry) : list (res (option W)) * list entry :=
  match h with
  | [] => ([], L)
  | q :: h => let '(out, L) := lru_step maxEntries native q L in let '(outs, L) := lru_exec maxEntries native h L in (out :: outs, L)
  end.

(** ** Entries of a list *)
Lemma find_Some x L e : find x L = Some e -> e ∈ L /\ en_at e = x.
Proof.
  induction L as [|e' L IH]; [done|]. cbn. case_decide; [intros [= <-]; split; [by left|done]|]. intros Hf%IH. split; [right|]; apply Hf.
Qed.
Lemma find_None x L : x ∉ map en_at L <-> find x L = None.
Proof.
  induction L as [|e L IH]; cbn; [split; [done|by intros _ ?%elem_of_nil]|]. rewrite not_elem_of_cons.
  destruct (decide (en_at e = x)) as [<-|Hx]; [split; [by intros [? _]|done]|]. rewrite <- IH. split; [by intros [_ ?]|]. intros ?. split; [congruence|done].
Qed.
Lemma find_elem L e : NoDup (map en_at L) -> e ∈ L -> find (en_at e) L = Some e.
Proof.
  induction L as [|e' L IH]; [by intros _ ?%elem_of_nil|]. cbn. intros [Hn Hd]%NoDup_cons. rewrite elem_of_cons. intros [->|He]; [by rewrite decide_True|].
  rewrite decide_False; [by apply IH|]. intros E. apply Hn. rewrite E. apply list_elem_of_fmap. eauto.
Qed.
Lemma find_app x L L' : find x (L ++ L') = match find x L with Some e => Some e | None => find x L' end.
Proof. induction L as [|e L IH]; [done|]. cbn. by case_decide. Qed.
(** A part of the list. *)
Lemma find_filter (P : entry -> Prop) `{!forall e, Decision (P e)} x L : NoDup (map en_at L) ->
  find x (base.filter P L) = match find x L with Some e => if decide (P e) then Some e else None | None => None end.
Proof.
  induction L as [|e L IH]; [done|]. cbn [map]. intros [Hn Hd]%NoDup_cons. rewrite filter_cons. cbn [find].
  destruct (decide (en_at e = x)) as [<-|Hne].
  - assert (Hf : find (en_at e) L = None) by (by apply find_None). destruct (decide (P e)); cbn [find]; [by rewrite decide_True|]. by rewrite IH, Hf.
  - destruct (decide (P e)); cbn [find]; [rewrite decide_False by done|]; by apply IH.
Qed.
Lemma NoDup_filter_at (P : entry -> Prop) `{!forall e, Decision (P e)} L : NoDup (map en_at L) -> NoDup (map en_at (base.filter P L)).
Proof.
  induction L as [|e L IH]; [done|]. cbn [map]. intros [Hn Hd]%NoDup_cons. rewrite filter_cons. case_decide; [|by apply IH]. cbn [map]. constructor; [|by apply IH].
  intros (e' & E & [_ He']%list_elem_of_filter)%list_elem_of_fmap. apply Hn. rewrite E. apply list_elem_of_fmap. eauto.
Qed.
Lemma find_drop x y L : NoDup (map en_at L) -> find x (drop_at y L) = if decide (x = y) then None else find x L.
Proof.
  intros Hn. unfold drop_at. rewrite find_filter by done. destruct (find x L) as [e|] eqn:E; [|by case_decide]. apply find_Some in E as [_ <-].
  destruct (decide (en_at e = y)); [rewrite decide_False by tauto|rewrite decide_True by done]; done.
Qed.

(** ** Names *)
Definition tail_of (path : list jsstring) : jsstring := concat (map (cons 0) path).
Definition store_ns (base : jsstring) (path : list jsstring) : jsstring := (base ++ 0 :: js "fino:cache:v1") ++ tail_of path.
Definition scope_of (path : list jsstring) : jsstring := js "root" ++ tail_of path.
Definition rid (x : list jsstring * jsstring) : jsstring := scope_of x.1 ++ 0 :: x.2.
Lemma join_tail p ps : join [0] (p :: ps) = p ++ tail_of ps.
Proof.
  revert p. induction ps as [|q ps IH]; intros p; [cbn; by rewrite app_nil_r|].
  change (join [0] (p :: q :: ps)) with (p ++ 0 :: join [0] (q :: ps)). by rewrite IH.
Qed.
Lemma tail_snoc ps p : tail_of (ps ++ [p]) = tail_of ps ++ 0 :: p.
Proof. unfold tail_of. rewrite map_app, concat_app. cbn. by rewrite app_nil_r. Qed.
Lemma tail_inj p ps p' ps' : Forall (fun n => 0 ∉ n) (p :: ps) -> Forall (fun n => 0 ∉ n) (p' :: ps') ->
  p ++ tail_of ps = p' ++ tail_of ps' -> ps = ps'.
Proof.
  intros H H' E. rewrite <- !join_tail in E. apply (f_equal (JsString.split_on 0)) in E. rewrite !JsString.split_join in E by done. by injection E.
Qed.
Definition free (x : list jsstring * jsstring) : Prop := Forall (fun n => 0 ∉ n) x.1 /\ 0 ∉ x.2.
Lemma rid_inj x y : free x -> free y -> rid x = rid y -> x = y.
Proof.
  destruct x as [p k], y as [p' k']. intros [Hp Hk] [Hp' Hk'] E. unfold rid, scope_of in E. cbn [fst snd] in *. rewrite <- !app_assoc, <- !tail_snoc in E.
  apply tail_inj in E; [apply app_inj_tail in E as [-> ->]; done| |];
    (constructor; [by apply (bool_decide_unpack _); vm_compute|]; apply Forall_app; split; [done|by constructor]).
Qed.
Lemma store_ns_inj base p p' : Forall (fun n => 0 ∉ n) p -> Forall (fun n => 0 ∉ n) p' -> store_ns base p = store_ns base p' -> p = p'.
Proof.
  intros Hp Hp' E. unfold store_ns in E. apply app_inv_head in E. apply (tail_inj [] p [] p'); [| |done]; constructor; (done || by intros ?%elem_of_nil).
Qed.
Lemma open_ok path : Forall (fun n => n <> []) path -> forall v,
  open v path = Ok {| v_store := v_store v ++ tail_of path; v_scope := v_scope v ++ tail_of path |}.
Proof.
  induction 1 as [|n path Hn _ IH]; intros v; [cbn; rewrite !app_nil_r; by destruct v|]. cbn [open]. unfold namespace, Store.childNamespace.
  destruct n as [|u n]; [done|]. cbn [length Nat.eqb mbind res_bind]. rewrite IH. cbn [v_store v_scope]. unfold tail_of. cbn [map concat]. by rewrite <- !app_assoc.
Qed.
Lemma root_ok base path : Forall (fun n => n <> []) path -> root base path = Ok {| v_store := store_ns base path; v_scope := scope_of path |}.
Proof.
  intros H. unfold root. assert (E : cache base = Ok {| v_store := base ++ 0 :: js "fino:cache:v1"; v_scope := js "root" |}) by done.
  rewrite E. cbn [mbind res_bind]. by rewrite open_ok.
Qed.

(** ** The cache as a list *)
Section refinement.
Context `{S : !Store.Store CacheRecord} `{L : !Store.StoreLaws S} (maxEntries : number) (base : jsstring).
Definition native : bool := match Store.expiration with Some _ => true | None => false end.
Definition cr_of (e : entry) : CacheRecord :=
  {| cr_value := en_value e; cr_tags := en_tags e; cr_expiresAt := if native then None else en_until e |}.
Definition matches (r : Store.MemoryRecord CacheRecord) (e : entry) : Prop :=
  Store.r_value r = Some (cr_of e) /\ Store.r_expiresAt r = if native then en_until e else None.
Definition at_ok (x : list jsstring * jsstring) : Prop := free x /\ Store.name_ok (store_ns base x.1) /\ Store.key_ok x.2.
Record rel (t : number) (p : Store.provider) (E : list entry) : Prop := {
  rel_nodup : NoDup (map en_at E);
  rel_ok : Forall (fun e => at_ok (en_at e)) E;
  rel_store : exists m, Store.holds t p m /\
    forall path k, Forall (fun n => 0 ∉ n) path -> option_Forall2 matches (m !! (store_ns base path, k)) (find (path, k) E);
}.
(** The UUIDs and the clock that a store works with. *)
Definition call_ok (c : Store.call) : Prop := (forall i, Store.key_ok (Store.uuid c i)) /\ Store.time_ok (Store.now c).

Lemma drop_ok x E : Forall (fun e => at_ok (en_at e)) E -> Forall (fun e => at_ok (en_at e)) (drop_at x E).
Proof. rewrite !Forall_forall. intros H e [_ He]%list_elem_of_filter. by apply H. Qed.
Lemma drop_fresh x E : NoDup (map en_at E) -> x ∉ map en_at (drop_at x E).
Proof. intros Hn. apply find_None. by rewrite find_drop, decide_True. Qed.
(** What the store holds under one key is changed. *)
Lemma rel_change t p' E E' m path0 k0 r :
  Store.holds t p' (partial_alter (fun _ => r) (store_ns base path0, k0) m) -> Forall (fun n => 0 ∉ n) path0 ->
  (forall path k, Forall (fun n => 0 ∉ n) path -> option_Forall2 matches (m !! (store_ns base path, k)) (find (path, k) E)) ->
  NoDup (map en_at E') -> Forall (fun e => at_ok (en_at e)) E' ->
  option_Forall2 matches r (find (path0, k0) E') -> (forall x, x <> (path0, k0) -> find x E' = find x E) -> rel t p' E'.
Proof.
  intros Hh Hp Hm Hn Hok Hr Hx. split; [done|done|]. eexists. split; [exact Hh|]. intros path k Hpath.
  destruct (decide ((path0, k0) = (path, k))) as [[= <- <-]|Hne]; [by rewrite lookup_partial_alter_eq|].
  rewrite lookup_partial_alter_ne; [rewrite Hx by congruence; by apply Hm|]. intros [= Ens <-]. apply store_ns_inj in Ens; [|done|done]. by subst.
Qed.
Lemma rel_delete t p p' E m x : at_ok x -> rel t p E ->
  (forall path k, Forall (fun n => 0 ∉ n) path -> option_Forall2 matches (m !! (store_ns base path, k)) (find (path, k) E)) ->
  Store.holds t p' (base.delete (store_ns base x.1, x.2) m) -> rel t p' (drop_at x E).
Proof.
  intros [[Hf Hk] Hok] [Hn HE _] Hm Hh. destruct x as [path k]. apply (rel_change t p' E _ m path k None); try done.
  - by apply NoDup_filter_at.
  - by apply drop_ok.
  - rewrite find_drop, decide_True by done. constructor.
  - intros y Hy. by rewrite find_drop, decide_False.
Qed.
Lemma rel_insert t p p' E m e r : at_ok (en_at e) -> rel t p E -> matches r e ->
  (forall path k, Forall (fun n => 0 ∉ n) path -> option_Forall2 matches (m !! (store_ns base path, k)) (find (path, k) E)) ->
  Store.holds t p' (<[(store_ns base (en_path e), en_key e) := r]> m) -> rel t p' (drop_at (en_at e) E ++ [e]).
Proof.
  intros [[Hf Hk] Hok] [Hn HE _] Hr Hm Hh. apply (rel_change t p' E _ m (en_path e) (en_key e) (Some r)); try done.
  - rewrite map_app. apply NoDup_app. split_and!; [by apply NoDup_filter_at| |apply NoDup_singleton].
    intros y Hy ->%list_elem_of_singleton. by eapply drop_fresh.
  - apply Forall_app. split; [by apply drop_ok|]. by constructor.
  - change (en_path e, en_key e) with (en_at e). rewrite find_app, find_drop, decide_True by done. cbn. rewrite decide_True by done. by constructor.
  - intros y Hy. rewrite find_app, find_drop, decide_False by done. cbn. rewrite (decide_False (P := en_at e = y)) by (intros <-; done). by destruct (find y E).
Qed.
Lemma rel_later t t' p E : rel t p E -> Store.leb t t' = true -> rel t' p E.
Proof. intros [Hn Ho (m & Hh & Hm)] Ht. split; [done|done|]. exists m. split; [by eapply Store.holds_later|done]. Qed.
Lemma drop_absent x E : x ∉ map en_at E -> drop_at x E = E.
Proof.
  induction E as [|e E IH]; [done|]. cbn [map]. rewrite not_elem_of_cons. intros [Hx Hn]. unfold drop_at. rewrite filter_cons_True by congruence.
  f_equal. by apply IH.
Qed.
Lemma drop_head e E : NoDup (map en_at (e :: E)) -> drop_at (en_at e) (e :: E) = E.
Proof. cbn [map]. intros [Hn _]%NoDup_cons. unfold drop_at. rewrite filter_cons_False by tauto. by apply drop_absent. Qed.

Definition rec_entry (e : entry) : jsstring * (jsstring * jsstring) := (rid (en_at e), (store_ns base (en_path e), en_key e)).
Definition related (t : number) (st : state) (E : list entry) : Prop := rel t (backing st) E /\ recency st = map rec_entry E.
Lemma recency_delete x E : free x -> Forall (fun e => at_ok (en_at e)) E -> JMap.delete (rid x) (map rec_entry E) = map rec_entry (drop_at x E).
Proof.
  intros Hx. induction 1 as [|e E He _ IH]; [done|]. cbn [map]. unfold JMap.delete, drop_at in *. rewrite !filter_cons. cbn [fst rec_entry].
  destruct (decide (en_at e = x)) as [Hex|Hex].
  - rewrite !decide_False by (rewrite Hex; tauto). done.
  - rewrite !decide_True; [cbn [map]; by rewrite IH|done|]. intros H. apply Hex. apply rid_inj; [apply He|done|done].
Qed.
Lemma recency_set e E : at_ok (en_at e) -> Forall (fun e => at_ok (en_at e)) E -> NoDup (map en_at E) ->
  JMap.set (rid (en_at e)) (store_ns base (en_path e), en_key e) (JMap.delete (rid (en_at e)) (map rec_entry E)) = map rec_entry (drop_at (en_at e) E ++ [e]).
Proof.
  intros He HE Hn. rewrite recency_delete by (done || apply He). rewrite JMap.set_fresh, map_app; [done|].
  intros (y & Hy & Hin)%list_elem_of_fmap. apply list_elem_of_fmap in Hin as (e' & -> & Hin). cbn [fst rec_entry] in Hy.
  assert (Hf : free (en_at e')) by (rewrite Forall_forall in HE; apply HE; by apply list_elem_of_filter in Hin as [_ ?]).
  apply rid_inj in Hy; [|apply He|done].
  apply (drop_fresh (en_at e) E Hn). apply list_elem_of_fmap. by exists e'.
Qed.
Lemma evict_spec c t E : call_ok c -> Store.leb t (Store.now c) = true -> forall p, rel t p E ->
  exists p', evict maxEntries c (map rec_entry E) p = Ok (map rec_entry (trim maxEntries E), p') /\ rel (Store.now c) p' (trim maxEntries E).
Proof.
  intros Hu Ht. revert t Ht. induction E as [|e E IH]; intros t Ht p Hr; [exists p; split; [done|by eapply rel_later]|].
  cbn [map evict trim rec_entry]. rewrite length_cons, length_map. change (Datatypes.S (length E)) with (length (e :: E)).
  destruct (exceeds (length (e :: E)) maxEntries); [|exists p; split; [done|by eapply rel_later]].
  pose proof Hr as [Hn Ho (m & Hh & Hm)]. apply Forall_cons in Ho as [He Ho].
  destruct (Store.delete_law t p m c (store_ns base (en_path e)) (en_key e) Hh Ht) as (b & p1 & E1 & H1); [split; [done|]; split; apply He|].
  rewrite (ST_bind_ok _ _ _ _ _ E1). apply (IH (Store.now c)); [by eapply Store.leb_self|].
  pose proof (rel_delete (Store.now c) p p1 (e :: E) m (en_at e) He) as Hd. rewrite drop_head in Hd by done. apply Hd; [by eapply rel_later|done|done].
Qed.
Lemma touch_spec c e E st : at_ok (en_at e) -> call_ok c -> Store.leb (Store.now c) (Store.now c) = true ->
  NoDup (map en_at E) -> Forall (fun e => at_ok (en_at e)) E -> recency st = map rec_entry E ->
  rel (Store.now c) (backing st) (drop_at (en_at e) E ++ [e]) ->
  exists st', touch maxEntries c {| v_store := store_ns base (en_path e); v_scope := scope_of (en_path e) |} (en_key e) st = Ok (tt, st') /\
    related (Store.now c) st' (trim maxEntries (drop_at (en_at e) E ++ [e])).
Proof.
  intros He Hu Hnow Hn HE Hst Hr. destruct (evict_spec c (Store.now c) _ Hu Hnow _ Hr) as (p' & E1 & H1). exists {| backing := p'; recency := map rec_entry (trim maxEntries (drop_at (en_at e) E ++ [e])) |}. split; [|by split].
  unfold touch. rewrite !(ST_bind_ok (on_recency _) _ _ tt _ eq_refl). unfold evict_all. cbn [backing recency]. rewrite Hst. unfold recencyKey. cbn [v_scope v_store].
  change (scope_of (en_path e) ++ 0 :: en_key e) with (rid (en_at e)). rewrite recency_set by done. by rewrite E1.
Qed.

(** ** The operations *)
Definition view_at (path : list jsstring) : view := {| v_store := store_ns base path; v_scope := scope_of path |}.
Lemma forget_spec t x E st : at_ok x -> NoDup (map en_at E) -> Forall (fun e => at_ok (en_at e)) E -> recency st = map rec_entry E ->
  rel t (backing st) (drop_at x E) -> exists st', forget (view_at x.1) x.2 st = Ok (tt, st') /\ related t st' (drop_at x E).
Proof.
  intros Hx Hn HE Hst Hr. eexists. split; [done|]. split; [done|]. cbn [recency]. rewrite Hst. by apply recency_delete; [apply Hx|].
Qed.
Lemma expired_match t r e : matches r e -> Store.expired t r = native && over_at t e.
Proof. intros [_ Hr]. unfold Store.expired, over_at. rewrite Hr. by destruct native, (en_until e). Qed.
(** An expired entry is gone from the store that expires it. *)
Lemma rel_expired t p E e m : native = true -> over_at t e = true -> at_ok (en_at e) -> rel t p E -> Store.holds t p m ->
  (forall path k, Forall (fun n => 0 ∉ n) path -> option_Forall2 matches (m !! (store_ns base path, k)) (find (path, k) E)) ->
  find (en_at e) E = Some e -> rel t p (drop_at (en_at e) E).
Proof.
  intros Hn Ho He Hr Hh Hm Hf. apply (rel_delete t p p E m); [done|done|done|]. eapply Store.holds_same; [|exact Hh]. intros y t' Ht'.
  destruct (decide ((store_ns base (en_path e), en_key e) = y)) as [<-|Hne]; [|by rewrite lookup_delete_ne]. rewrite lookup_delete_eq.
  specialize (Hm (en_path e) (en_key e) ltac:(apply He)). change (en_path e, en_key e) with (en_at e) in Hm. rewrite Hf in Hm. inversion Hm as [r e' Hre E1|]; subst. cbn.
  rewrite (Store.expired_later t t'); [done|done|]. by rewrite (expired_match t r e Hre), Hn, Ho.
Qed.
Definition holds_entries (m : Store.contents CacheRecord) (E : list entry) : Prop :=
  forall path k, Forall (fun n => 0 ∉ n) path -> option_Forall2 matches (m !! (store_ns base path, k)) (find (path, k) E).
(** An entry that is used moves to the end. *)
Lemma hit_spec c e E p m (rec : list (jsstring * (jsstring * jsstring))) : at_ok (en_at e) -> call_ok c -> Store.leb (Store.now c) (Store.now c) = true ->
  rel (Store.now c) p E -> Store.holds (Store.now c) p m -> holds_entries m E -> find (en_at e) E = Some e -> rec = map rec_entry E ->
  exists st', touch maxEntries c (view_at (en_path e)) (en_key e) {| backing := p; recency := rec |} = Ok (tt, st') /\
    related (Store.now c) st' (trim maxEntries (drop_at (en_at e) E ++ [e])).
Proof.
  intros He Hu Hnow Hr Hh Hm Hf Hrec. pose proof Hr as [Hn HE _]. apply touch_spec; try done. cbn [backing].
  pose proof (Hm (en_path e) (en_key e) ltac:(apply He)) as Hmk. change (en_path e, en_key e) with (en_at e) in Hmk. rewrite Hf in Hmk. inversion Hmk as [r e' Hre E1|]; subst.
  apply (rel_insert (Store.now c) p p E m e r); try done. by rewrite insert_id.
Qed.
Lemma find_at x E e : find x E = Some e -> x = (en_path e, en_key e).
Proof. by intros [_ <-]%find_Some. Qed.
Lemma get_spec c t path k st E : at_ok (path, k) -> call_ok c -> Store.leb t (Store.now c) = true -> related t st E ->
  let q := {| r_call := c; r_path := path; r_op := CGet k |} in
  exists out st', get maxEntries c (view_at path) k st = Ok (out, st') /\
    (lru_step maxEntries native q E).1 = Ok out /\ related (Store.now c) st' (lru_step maxEntries native q E).2.
Proof.
  intros Hx Hu Ht [Hr Hst]. pose proof (Store.leb_self _ _ Ht) as Hnow. apply (rel_later _ (Store.now c)) in Hr; [|done].
  pose proof Hr as [Hn HE (m & Hh & Hm)]. cbn [lru_step r_op r_path r_call]. unfold get.
  destruct (Store.get_law _ _ m c (store_ns base path) k Hh Hnow) as (p1 & E1 & H1); [split; [done|]; split; apply Hx|].
  assert (Ho : on_store (Store.get c (v_store (view_at path)) k) st =
    Ok (Store.live (Store.now c) (m !! (store_ns base path, k)) ≫= Store.r_value, {| backing := p1; recency := recency st |})).
  { unfold on_store. cbn [v_store view_at]. by rewrite E1. }
  rewrite (ST_bind_ok _ _ _ _ _ Ho). clear Ho. pose proof (Hm path k (proj1 (proj1 Hx))) as Hmk.
  assert (Hr1 : rel (Store.now c) p1 E) by (split; [done|done|by exists m]).
  destruct (find (path, k) E) as [e|] eqn:Ef; inversion Hmk as [r e' Hre Em|Em]; subst; cbn [Store.live mbind option_bind].
  - pose proof (find_at _ _ _ Ef) as [= -> ->]. change (en_path e, en_key e) with (en_at e) in *. rewrite (expired_match (Store.now c) r e Hre).
    pose proof Hre as [Hrv _]. destruct (over_at (Store.now c) e) eqn:Eo.
    + destruct native eqn:Ena; cbn [andb Store.live mbind option_bind].
      * destruct (forget_spec (Store.now c) (en_at e) E {| backing := p1; recency := recency st |} Hx Hn HE Hst) as (st' & Ef' & Hf');
          [by apply (rel_expired _ _ _ _ m)|]. rewrite (ST_bind_ok _ _ _ _ _ Ef'). by do 2 eexists.
      * rewrite Hrv. unfold cr_of. rewrite Ena. cbn [cr_expiresAt]. unfold over_at in Eo. rewrite Eo.
        destruct (Store.delete_law _ p1 m c (store_ns base (en_path e)) (en_key e) H1 Hnow) as (b & p2 & E2 & H2); [split; [done|]; split; apply Hx|].
        rewrite (ST_bind_ok _ _ _ b {| backing := p2; recency := recency st |}) by (unfold on_store; cbn [v_store view_at backing]; by rewrite E2).
        destruct (forget_spec (Store.now c) (en_at e) E {| backing := p2; recency := recency st |} Hx Hn HE Hst) as (st' & Ef' & Hf');
          [by apply (rel_delete _ p1 p2 E m)|]. rewrite (ST_bind_ok _ _ _ _ _ Ef'). by do 2 eexists.
    + rewrite andb_false_r. cbn [Store.live mbind option_bind]. rewrite Hrv. unfold over_at in Eo.
      assert (Hc : match cr_expiresAt (cr_of e) with Some x => Store.leb x (Store.now c) | None => false end = false) by (cbn; by destruct native).
      rewrite Hc. destruct (hit_spec c e E p1 m (recency st) Hx Hu Hnow Hr1 H1 Hm Ef Hst) as (st' & Et & Hr').
      rewrite (ST_bind_ok _ _ _ _ _ Et). by do 2 eexists.
  - destruct (forget_spec (Store.now c) (path, k) E {| backing := p1; recency := recency st |} Hx Hn HE Hst) as (st' & Ef' & Hf').
    { rewrite drop_absent; [done|by apply find_None]. }
    rewrite (ST_bind_ok _ _ _ _ _ Ef'). rewrite drop_absent in Hf' by (by apply find_None). by do 2 eexists.
Qed.
Lemma ttl_normal ms n : ttl ms = Ok n -> Store.normalizedTtl n = Ok n.
Proof.
  unfold ttl, Store.normalizedTtl. destruct ms as [q| |]; [|done|done]. intros [= <-]. destruct (QArith_base.Qle_bool q _) eqn:E; [done|by rewrite E].
Qed.
Lemma ttl_expiry t ms n : ttl ms = Ok n -> Store.expiry t (Some ms) = Store.expiry t (Some n).
Proof.
  intros H. unfold Store.expiry. rewrite (ttl_normal _ _ H). unfold ttl in H. by destruct (Store.normalizedTtl ms); [injection H as ->|].
Qed.
(** After the store has been written, the entry is the last one. *)
Lemma written_spec c e E p p' m r (rec : list (jsstring * (jsstring * jsstring))) : at_ok (en_at e) -> call_ok c -> Store.leb (Store.now c) (Store.now c) = true ->
  rel (Store.now c) p E -> holds_entries m E -> rec = map rec_entry E -> matches r e ->
  Store.holds (Store.now c) p' (<[(store_ns base (en_path e), en_key e) := r]> m) ->
  exists st', touch maxEntries c (view_at (en_path e)) (en_key e) {| backing := p'; recency := rec |} = Ok (tt, st') /\
    related (Store.now c) st' (trim maxEntries (drop_at (en_at e) E ++ [e])).
Proof.
  intros He Hu Hnow Hr Hm Hrec Hre Hh. pose proof Hr as [Hn HE _]. apply touch_spec; try done. cbn [backing].
  by apply (rel_insert (Store.now c) p p' E m e r).
Qed.
Lemma set_spec c t path k v o st E : at_ok (path, k) -> call_ok c -> Store.leb t (Store.now c) = true -> related t st E ->
  (forall cr, cr_value cr = v -> cr_tags cr = tags o -> Store.value_ok (Some cr)) -> Store.ttl_ok Store.time_ok c (ttlMs o) ->
  let q := {| r_call := c; r_path := path; r_op := CSet k v o |} in
  match lru_step maxEntries native q E with
  | (Ok _, E') => exists st', set maxEntries c (view_at path) k v o st = Ok (tt, st') /\ related (Store.now c) st' E'
  | (Throw e, E') => set maxEntries c (view_at path) k v o st = Throw e /\ E' = E
  end.
Proof.
  intros Hx Hu Ht [Hr Hst] Hv Httl. pose proof (Store.leb_self _ _ Ht) as Hnow. apply (rel_later _ (Store.now c)) in Hr; [|done].
  pose proof Hr as [Hn HE (m & Hh & Hm)]. cbn [lru_step r_op r_path r_call]. unfold set.
  assert (Hok : forall x, Store.op_ok Store.name_ok Store.key_ok Store.time_ok Store.value_ok c (Store.Set_ (store_ns base path) k (Some {| cr_value := v; cr_tags := tags o; cr_expiresAt := x |}))).
  { intros x. split; [done|]. split; [apply Hx|]. split; [apply Hx|]. by apply Hv. }
  assert (Hset : forall x until, x = (if native then None else until) -> (native = true -> until = None) -> exists st',
    (on_store (Store.set c (v_store (view_at path)) k (Some {| cr_value := v; cr_tags := tags o; cr_expiresAt := x |}));; touch maxEntries c (view_at path) k) st = Ok (tt, st') /\
    related (Store.now c) st' (trim maxEntries (drop_at (path, k) E ++ [{| en_path := path; en_key := k; en_value := v; en_tags := tags o; en_until := until |}]))).
  { intros x until Hxu Hnu. destruct (Store.set_law _ _ m c (store_ns base path) k _ Hh Hnow (Hok x)) as (p1 & E1 & H1).
    rewrite (ST_bind_ok _ _ _ tt {| backing := p1; recency := recency st |}) by (unfold on_store; cbn [v_store view_at]; by rewrite E1).
    eapply (written_spec c {| en_path := path; en_key := k; en_value := v; en_tags := tags o; en_until := until |} E _ p1 m);
      [exact Hx|exact Hu|exact Hnow|exact Hr|exact Hm|exact Hst| |exact H1]. split; cbn; [by rewrite Hxu|]. destruct native; [by rewrite Hnu|done]. }
  destruct (ttlMs o) as [ms|]; cbn [mbind res_bind].
  - destruct (ttl ms) as [n|e] eqn:En; cbn [mbind res_bind]; [|by split].
    rewrite (ST_bind_ok (liftR (Ok (Some n))) _ st (Some n) st eq_refl). destruct Store.expiration as [f|] eqn:Ef.
    + assert (Hna : native = true) by (unfold native; by rewrite Ef).
      assert (Hokt : Store.op_ok Store.name_ok Store.key_ok Store.time_ok Store.value_ok c
        (Store.SetTtl (store_ns base path) k (Some {| cr_value := v; cr_tags := tags o; cr_expiresAt := None |}) n)).
      { destruct (Hok None) as (Hc & Hk1 & Hk2 & Hk3). split_and!; try done; try apply Hc. intros e. rewrite <- (ttl_expiry _ ms n En). by apply Httl. }
      destruct (Store.expire_law _ _ m c (store_ns base path) k _ n n f Hh Hnow Hokt Ef (ttl_normal _ _ En)) as (p1 & E1 & H1).
      rewrite (ST_bind_ok _ _ _ tt {| backing := p1; recency := recency st |}) by (unfold on_store; cbn [v_store view_at]; by rewrite E1).
      eapply (written_spec c {| en_path := path; en_key := k; en_value := v; en_tags := tags o; en_until := Some (JsArith.add (Store.now c) n) |} E _ p1 m);
        [exact Hx|exact Hu|exact Hnow|exact Hr|exact Hm|exact Hst| |exact H1]. unfold matches, cr_of. by rewrite Hna.
    + assert (Hna : native = false) by (unfold native; by rewrite Ef). apply Hset; rewrite Hna; [done|done].
  - rewrite (ST_bind_ok (liftR (Ok None)) _ st None st eq_refl). apply Hset; by destruct native.
Qed.
Lemma drop_spec c path k E st : at_ok (path, k) -> call_ok c -> Store.leb (Store.now c) (Store.now c) = true -> related (Store.now c) st E ->
  exists b st1 st2, on_store (Store.delete c (store_ns base path) k) st = Ok (b, st1) /\ forget (view_at path) k st1 = Ok (tt, st2) /\
    related (Store.now c) st2 (drop_at (path, k) E).
Proof.
  intros Hx Hu Hnow [Hr Hst]. pose proof Hr as [Hn HE (m & Hh & Hm)].
  destruct (Store.delete_law _ _ m c (store_ns base path) k Hh Hnow) as (b & p1 & E1 & H1); [split; [done|]; split; apply Hx|].
  destruct (forget_spec (Store.now c) (path, k) E {| backing := p1; recency := recency st |} Hx Hn HE Hst) as (st' & Ef & Hf).
  { by apply (rel_delete _ (backing st) p1 E m). }
  exists b, {| backing := p1; recency := recency st |}, st'. split; [unfold on_store; by rewrite E1|done].
Qed.
Lemma cache_delete_spec c t path k st E : at_ok (path, k) -> call_ok c -> Store.leb t (Store.now c) = true -> related t st E ->
  exists st', delete c (view_at path) k st = Ok (tt, st') /\ related (Store.now c) st' (drop_at (path, k) E).
Proof.
  intros Hx Hu Ht [Hr Hst]. pose proof (Store.leb_self _ _ Ht) as Hnow. apply (rel_later _ (Store.now c)) in Hr; [|done].
  destruct (drop_spec c path k E st Hx Hu Hnow (conj Hr Hst)) as (b & st1 & st2 & E1 & E2 & H2). exists st2. split; [|done].
  unfold delete. revert E1 E2. unfold forget, on_recency, on_store, mbind, ST_bind. cbn [v_store view_at backing recency].
  destruct (Store.delete c (store_ns base path) k (backing st)) as [[b' p1]|]; [|done]. intros [= <- <-] [= <-]. done.
Qed.

(** The keys that a listing gives for the tags. *)
Definition doomed (wanted : list jsstring) (l : list (jsstring * option CacheRecord)) : list jsstring :=
  omap (fun kr => match kr.2 with Some r => if carries wanted (cr_tags r) then Some kr.1 else None | None => None end) l.
Lemma filter_ext_in {A} (P Q : A -> Prop) `{!forall x, Decision (P x)} `{!forall x, Decision (Q x)} (l : list A) :
  (forall x, x ∈ l -> P x <-> Q x) -> base.filter P l = base.filter Q l.
Proof.
  induction l as [|x l IH]; [done|]. intros Hpq. rewrite !filter_cons, IH by (intros y Hy; apply Hpq; by right).
  specialize (Hpq x (list_elem_of_here _ _)). destruct (decide (P x)), (decide (Q x)); tauto || done.
Qed.
Lemma drop_keys path ks : forall E, foldl (fun E k => drop_at (path, k) E) E ks = base.filter (fun e => ~ (en_path e = path /\ en_key e ∈ ks)) E.
Proof.
  induction ks as [|k ks IH]; intros E; cbn [foldl].
  - symmetry. induction E as [|e E IH]; [done|]. rewrite filter_cons_True by (by intros [_ ?%elem_of_nil]). by f_equal.
  - rewrite IH. unfold drop_at. rewrite list_filter_filter. apply filter_ext_in. intros e _. rewrite elem_of_cons. unfold en_at. split.
    + intros [H1 H2] [H3 [H4|H4]]; [|tauto]. apply H2. congruence.
    + intros H. split; [tauto|]. intros [= H1 H2]. tauto.
Qed.
Lemma invalidate_spec c path wanted l : call_ok c -> Store.leb (Store.now c) (Store.now c) = true ->
  Forall (fun kr => at_ok (path, kr.1) /\ is_Some kr.2) l -> forall st E, related (Store.now c) st E ->
  exists st', invalidate c (view_at path) wanted l st = Ok (tt, st') /\
    related (Store.now c) st' (foldl (fun E k => drop_at (path, k) E) E (doomed wanted l)).
Proof.
  intros Hu Hnow. induction 1 as [|[k r] l [Hx [cr Hcr]] _ IH]; intros st E Hr; [by exists st|]. cbn [fst snd] in *. subst r. cbn [invalidate].
  change (doomed wanted ((k, Some cr) :: l)) with (match (if carries wanted (cr_tags cr) then Some k else None) with Some y => y :: doomed wanted l | None => doomed wanted l end).
  destruct (carries wanted (cr_tags cr)); [|by apply IH]. destruct (drop_spec c path k E st Hx Hu Hnow Hr) as (b & st1 & st2 & E1 & E2 & H2).
  cbn [v_store view_at]. rewrite (ST_bind_ok _ _ _ _ _ E1). fold (view_at path). rewrite (ST_bind_ok _ _ _ _ _ E2). by apply IH.
Qed.
Lemma invalidateTags_spec c t path wanted st E : Forall (fun n => 0 ∉ n) path -> Store.name_ok (store_ns base path) -> Store.key_ok [] ->
  call_ok c -> Store.leb t (Store.now c) = true -> related t st E ->
  let q := {| r_call := c; r_path := path; r_op := CInvalidate wanted |} in
  exists st', invalidateTags c (view_at path) wanted st = Ok (tt, st') /\ related (Store.now c) st' (lru_step maxEntries native q E).2.
Proof.
  intros Hp Hns Hk0 Hu Ht [Hr Hst]. pose proof (Store.leb_self _ _ Ht) as Hnow. apply (rel_later _ (Store.now c)) in Hr; [|done].
  pose proof Hr as [Hn HE (m & Hh & Hm)]. cbn [lru_step r_op r_path r_call snd]. unfold invalidateTags. destruct wanted as [|w wanted'] eqn:Ew.
  - exists st. split; [done|]. replace (base.filter _ E) with E; [done|]. symmetry. clear. induction E as [|e E IH]; [done|].
    rewrite filter_cons_True; [by f_equal|]. intros (_ & H & _). unfold carries in H. induction (en_tags e) as [|x l IHl]; [done|]. cbn in H. by apply IHl.
  - rewrite <- Ew. replace (length wanted =? 0)%nat with false by (by subst). clear w wanted' Ew.
    destruct (Store.list_law _ _ m c (store_ns base path) [] Hh Hnow) as (l & p1 & E1 & Hl & H1); [by split|].
    rewrite (ST_bind_ok _ _ _ l {| backing := p1; recency := recency st |}) by (unfold on_store; cbn [v_store view_at]; by rewrite E1).
    assert (Hin : forall k r, (k, r) ∈ l <-> exists e, find (path, k) E = Some e /\ (native && over_at (Store.now c) e) = false /\ r = Some (cr_of e)).
    { intros k r. rewrite Hl, Store.listed_elem, Store.list_entry_Some. cbn [fst snd]. specialize (Hm path k Hp). split.
      - intros (_ & _ & rc & [Hrc Hx]%Store.live_Some & ->). rewrite Hrc in Hm. inversion Hm as [? e He Ee|]; subst. exists e. rewrite (expired_match _ _ _ He) in Hx. by destruct He.
      - intros (e & He & Ho & ->). rewrite He in Hm. inversion Hm as [rc ? Hre Ee|]; subst. split_and!; [done|unfold Store.starts_with; apply bool_decide_eq_true_2; apply prefix_nil|].
        exists rc. destruct Hre as [Hv Hx]. rewrite Store.live_Some. split; [split; [done|]|done]. by rewrite (expired_match _ _ e (conj Hv Hx)). }
    destruct (invalidate_spec c path wanted l Hu Hnow) with (st := {| backing := p1; recency := recency st |}) (E := E) as (st' & Ei & Hi).
    + apply Forall_forall. intros [k r] (e & He & _ & ->)%Hin. cbn. split; [|eauto]. apply find_Some in He as [He Hat]. rewrite Forall_forall in HE.
      specialize (HE _ He). by rewrite Hat in HE.
    + split; [|done]. split; [done|done|by exists m].
    + exists st'. split; [done|]. rewrite drop_keys in Hi. replace (base.filter _ E) with (base.filter (fun e => ~ (en_path e = path /\ en_key e ∈ doomed wanted l)) E); [done|].
      apply filter_ext_in. intros e He. pose proof (find_elem E e Hn He) as Hf.
      assert (Hd : en_path e = path -> en_key e ∈ doomed wanted l <-> carries wanted (en_tags e) = true /\ (native && over_at (Store.now c) e) = false).
      { intros <-. unfold doomed. rewrite list_elem_of_omap. split.
        - intros ([k r] & (e' & He' & Ho & ->)%Hin & Hk). cbn [fst snd cr_tags cr_of] in Hk. destruct (carries wanted (en_tags e')) eqn:Ec; [|done]. injection Hk as ->.
          change (en_path e, en_key e) with (en_at e) in He'. rewrite Hf in He'. injection He' as <-. done.
        - intros [Hc Ho]. exists (en_key e, Some (cr_of e)). split; [apply Hin; by exists e|]. cbn [fst snd cr_tags cr_of]. by rewrite Hc. }
      tauto.
Qed.

(** ** Histories *)
Definition req_ok (q : request) : Prop :=
  call_ok (r_call q) /\ Forall (fun n => n <> [] /\ 0 ∉ n) (r_path q) /\ Store.name_ok (store_ns base (r_path q)) /\
  match r_op q with
  | CGet k | CDelete k => 0 ∉ k /\ Store.key_ok k
  | CSet k v o => 0 ∉ k /\ Store.key_ok k /\ (forall cr, cr_value cr = v -> cr_tags cr = tags o -> Store.value_ok (Some cr)) /\
      Store.ttl_ok Store.time_ok (r_call q) (ttlMs o)
  | CInvalidate _ => Store.key_ok []
  end.
Lemma step_spec t st E q : related t st E -> req_ok q -> Store.leb t (Store.now (r_call q)) = true ->
  exists st', step maxEntries base q st = ((lru_step maxEntries native q E).1, st') /\ related (Store.now (r_call q)) st' (lru_step maxEntries native q E).2.
Proof.
  intros Hr (Hu & Hp & Hns & Hop) Ht. unfold step. rewrite root_ok by (eapply Forall_impl; [exact Hp|]; by intros n [? _]). fold (view_at (r_path q)).
  assert (Hpf : Forall (fun n => 0 ∉ n) (r_path q)) by (eapply Forall_impl; [exact Hp|]; by intros n [_ ?]).
  assert (Hx : forall k, 0 ∉ k -> Store.key_ok k -> at_ok (r_path q, k)) by (intros k H1 H2; by split; [|split]).
  destruct q as [c path [k|k v o|k|ts]]; cbn [r_call r_path r_op call_op] in *.
  - destruct (get_spec c t path k st E (Hx k (proj1 Hop) (proj2 Hop)) Hu Ht Hr) as (out & st' & E1 & E2 & H'). exists st'. by rewrite E1, E2.
  - destruct Hop as (H1 & H2 & H3 & H4). pose proof (set_spec c t path k v o st E (Hx k H1 H2) Hu Ht Hr H3 H4) as H. cbv zeta in H.
    destruct (lru_step _ _ _ E) as [[out|e] E'] eqn:El.
    + assert (out = None) as ->.
      { revert El. cbn [lru_step r_op]. by destruct (ttlMs o) as [ms|]; [destruct (ttl ms)|]; intros [=]. }
      destruct H as (st' & Es & H'). rewrite (ST_bind_ok _ _ _ _ _ Es). by exists st'.
    + destruct H as [Es ->]. unfold mbind, ST_bind. rewrite Es. exists st. split; [done|]. destruct Hr as [Hr Hst]. split; [by eapply rel_later|done].
  - destruct (cache_delete_spec c t path k st E (Hx k (proj1 Hop) (proj2 Hop)) Hu Ht Hr) as (st' & Es & H'). rewrite (ST_bind_ok _ _ _ _ _ Es). by exists st'.
  - destruct (invalidateTags_spec c t path ts st E Hpf Hns Hop Hu Ht Hr) as (st' & Es & H'). rewrite (ST_bind_ok _ _ _ _ _ Es). by exists st'.
Qed.
Fixpoint clock_runs (t : number) (h : list request) : Prop :=
  match h with [] => True | q :: h => Store.leb t (Store.now (r_call q)) = true /\ clock_runs (Store.now (r_call q)) h end.
Definition end_time (t : number) (h : list request) : number := foldl (fun _ q => Store.now (r_call q)) t h.
Lemma exec_spec h : forall t st E, related t st E -> Forall req_ok h -> clock_runs t h ->
  (exec maxEntries base h st).1 = (lru_exec maxEntries native h E).1 /\ related (end_time t h) (exec maxEntries base h st).2 (lru_exec maxEntries native h E).2.
Proof.
  induction h as [|q h IH]; intros t st E Hr Hok Hc; [done|]. apply Forall_cons in Hok as [Hq Hok]. destruct Hc as [Ht Hc].
  destruct (step_spec t st E q Hr Hq Ht) as (st' & Es & Hr'). cbn [exec lru_exec]. rewrite Es. destruct (lru_step maxEntries native q E) as [out E']. cbn [fst snd] in *.
  destruct (IH _ _ _ Hr' Hok Hc) as [E1 H1]. destruct (exec maxEntries base h st'), (lru_exec maxEntries native h E'). cbn in *. by subst.
Qed.
Lemma empty_related t p : Store.holds t p ∅ -> related t {| backing := p; recency := [] |} [].
Proof.
  intros Hh. split; [|done]. split; [constructor|constructor|]. exists ∅. split; [done|]. intros path k _. rewrite lookup_empty. constructor.
Qed.

(** ** Capacity *)
Definition within (E : list entry) : Prop := E = [] \/ exceeds (length E) maxEntries = false.
Lemma exceeds_mono n n' : (n <= n')%nat -> exceeds n' maxEntries = false -> exceeds n maxEntries = false.
Proof.
  unfold exceeds. intros Hn. assert (Hle : Store.leb (JsArith.of_int (Z.of_nat n)) (JsArith.of_int (Z.of_nat n')) = true).
  { cbn. apply QArith_base.Qle_bool_iff. unfold QArith_base.Qle. cbn. lia. }
  destruct maxEntries; try done; rewrite !negb_false_iff; intros H; (eapply Store.leb_trans; [exact Hle|exact H]).
Qed.
Lemma within_shorter E E' : (length E <= length E')%nat -> within E' -> within E.
Proof. intros Hl [->|H]; [left; destruct E; [done|cbn in Hl; lia]|right; by eapply exceeds_mono]. Qed.
Lemma trim_within E : within (trim maxEntries E).
Proof. induction E as [|e E IH]; [by left|]. cbn [trim]. destruct (exceeds (length (e :: E)) maxEntries) eqn:Ex; [done|by right]. Qed.
Lemma filter_shorter (P : entry -> Prop) `{!forall e, Decision (P e)} E : within E -> within (base.filter P E).
Proof. apply within_shorter, length_filter. Qed.
Lemma step_within n q E : within E -> within (lru_step maxEntries n q E).2.
Proof.
  intros HE. destruct q as [c path [k|k v o|k|ts]]; cbn [lru_step r_op r_path r_call].
  - destruct (find (path, k) E) as [e|]; [|done]. destruct (over_at _ e); cbn [snd]; [by apply filter_shorter|apply trim_within].
  - destruct (ttlMs o) as [ms|]; [destruct (ttl ms)|]; cbn [mbind res_bind snd]; (done || apply trim_within).
  - by apply filter_shorter.
  - by apply filter_shorter.
Qed.
Lemma exec_within n h : forall E, within E -> within (lru_exec maxEntries n h E).2.
Proof.
  induction h as [|q h IH]; intros E HE; [done|]. cbn [lru_exec]. pose proof (step_within n q E HE) as Hs. destruct (lru_step maxEntries n q E) as [out E'].
  specialize (IH E' Hs). by destruct (lru_exec maxEntries n h E').
Qed.
End refinement.
End cache.
Arguments CacheRecord : clear implicits.
Arguments entry : clear implicits.
Arguments op : clear implicits.
Arguments request : clear implicits.

(** C19: over every store that keeps the laws of stores and is empty at first a
    cache is a list of entries in the order of their last use: a read returns the
    value that was last set unless it has expired, was deleted, invalidated by a tag
    or evicted; what is evicted are the entries unused for longest; and views of
    different namespaces do not mix. The clock does not go back, names and keys have
    no NUL, names are not empty, and the strings, times and values are such as the
    store keeps ([req_ok]). Names with NUL can share their place in the order
    ([nul_names_share_recency]). *)
Theorem cache_lru {W} `{S : Store.Store (CacheRecord W)} `{L : !Store.StoreLaws S} (maxEntries : number) (base : jsstring)
  (t : number) (p : Store.provider) (h : list (request W)) :
  Store.holds t p ∅ -> Forall (req_ok base) h -> clock_runs t h ->
  (exec maxEntries base h {| backing := p; recency := [] |}).1 = (lru_exec maxEntries native h []).1.
Proof. intros Hh Hok Hc. by apply (exec_spec maxEntries base h t _ [] (empty_related base t p Hh)). Qed.

(** C20: after any history as in [cache_lru], over a store that was empty and with
    names and keys without NUL, the store holds at most [maxEntries] entries that
    can be read, over all namespaces of the cache together. *)
Theorem cache_bound {W} `{S : Store.Store (CacheRecord W)} `{L : !Store.StoreLaws S} (maxEntries : number) (base : jsstring)
  (t : number) (p : Store.provider) (h : list (request W)) (c : Store.call) (X : list (list jsstring * jsstring)) :
  Store.holds t p ∅ -> Forall (req_ok base) h -> clock_runs t h ->
  call_ok c -> Store.leb (end_time t h) (Store.now c) = true ->
  let st := (exec maxEntries base h {| backing := p; recency := [] |}).2 in
  NoDup X -> Forall (at_ok base) X ->
  (forall x, x ∈ X -> exists v p', Store.get c (store_ns base x.1) x.2 (backing st) = Ok (Some v, p')) ->
  X = [] \/ exceeds (length X) maxEntries = false.
Proof.
  intros Hh Hok Hc Hu Ht st HX HXok Hget. destruct (exec_spec maxEntries base h t _ [] (empty_related base t p Hh) Hok Hc) as [_ [[Hn HE (m & Hm & Hf)] _]].
  fold st in Hm. set (E := (lru_exec maxEntries native h []).2) in *.
  assert (Hsub : X ⊆ map en_at E).
  { intros [path k] Hx. destruct (decide ((path, k) ∈ map en_at E)) as [|Hno]; [done|exfalso]. apply find_None in Hno.
    rewrite Forall_forall in HXok. pose proof (HXok _ Hx) as [[Hp _] [Hns Hk]]. cbn [fst snd] in *. specialize (Hf path k Hp). rewrite Hno in Hf. inversion Hf as [|Hnone].
    destruct (Store.get_law _ _ m c (store_ns base path) k Hm Ht) as (p1 & E1 & _); [by split|]. destruct (Hget _ Hx) as (v & p2 & E2). cbn [fst snd] in E2. rewrite E1, <- Hnone in E2. done. }
  apply (NoDup_submseteq _ _ HX), submseteq_length in Hsub. rewrite length_map in Hsub.
  destruct (exec_within maxEntries native h [] (or_introl eq_refl)) as [H|H]; fold E in H.
  - left. rewrite H in Hsub. destruct X; [done|cbn in Hsub; lia].
  - right. by eapply exceeds_mono.
Qed.

(** ** Examples *)
Definition at_time (n : Z) : Store.call := {| Store.now := JsArith.of_int n; Store.uuid i := [] |}.
Definition forever : CacheSetOptions := {| ttlMs := None; tags := [] |}.
Definition short : CacheSetOptions := {| ttlMs := Some (JsArith.of_int 5); tags := [js "t"] |}.
Definition sample : list (request Z) :=
  [ {| r_call := at_time 0; r_path := []; r_op := CSet (js "a") (Some 1) forever |};
    {| r_call := at_time 1; r_path := [js "n"]; r_op := CSet (js "a") (Some 2) short |};
    {| r_call := at_time 2; r_path := []; r_op := CGet (js "a") |};
    {| r_call := at_time 3; r_path := []; r_op := CSet (js "b") (Some 3) short |};
    {| r_call := at_time 4; r_path := [js "n"]; r_op := CGet (js "a") |};
    {| r_call := at_time 5; r_path := []; r_op := CGet (js "a") |};
    {| r_call := at_time 9; r_path := []; r_op := CGet (js "b") |} ].
#[local] Instance memory : Store.Store (CacheRecord Z) := MemoryStore.MemoryStore (fun _ _ => 0).
Lemma sample_ok : Forall (req_ok (js "default")) sample.
Proof.
  repeat (apply Forall_cons_2 || apply Forall_nil_2); (split; [done|]);
    (split; [repeat (apply Forall_cons_2 || apply Forall_nil_2); by apply (bool_decide_unpack _); vm_compute|]); (split; [done|]);
    (split; [by apply (bool_decide_unpack _); vm_compute|]); done.
Qed.
Lemma cache_lru_witness : (exec (JsArith.of_int 2) (js "default") sample {| backing := ∅; recency := [] |}).1 =
  [Ok None; Ok None; Ok (Some 1); Ok None; Ok None; Ok (Some 1); Ok None].
Proof.
  rewrite (cache_lru (JsArith.of_int 2) (js "default") (JsArith.of_int 0) ∅ sample); [by vm_compute|apply MemoryStore.memory_empty_holds|apply sample_ok|repeat split].
Defined.
Definition readable (c : Store.call) (base : jsstring) (p : Store.provider) (x : list jsstring * jsstring) : bool :=
  match Store.get c (store_ns base x.1) x.2 p with Ok (Some _, _) => true | _ => false end.
Lemma readable_ok c base p x : readable c base p x = true -> exists v p', Store.get c (store_ns base x.1) x.2 p = Ok (Some v, p').
Proof. unfold readable. destruct (Store.get c (store_ns base x.1) x.2 p) as [[[v|] p']|]; [eauto|done|done]. Qed.
Lemma cache_bound_witness : let X := [([], js "a"); ([], js "b")] in
  Forall (at_ok (js "default")) X /\ (X = [] \/ exceeds (length X) (JsArith.of_int 2) = false).
Proof.
  assert (HX : Forall (at_ok (js "default")) [([], js "a"); ([], js "b")]).
  { repeat (apply Forall_cons_2 || apply Forall_nil_2); (split; [split; [constructor|by apply (bool_decide_unpack _); vm_compute]|done]). }
  split; [exact HX|].
  apply (cache_bound (JsArith.of_int 2) (js "default") (JsArith.of_int 0) ∅ (take 4 sample) (at_time 4) [([], js "a"); ([], js "b")]);
    [apply MemoryStore.memory_empty_holds|apply (Forall_take _ 4 sample), sample_ok|repeat split|done|done| |done|].
  - by apply (bool_decide_unpack _); vm_compute.
  - intros x Hx. apply elem_of_cons in Hx as [->|Hx]; [|apply list_elem_of_singleton in Hx as ->]; apply readable_ok; by vm_compute.
Defined.
(** Names with NUL share their place in the map of recency, so two entries stay
    although only one is allowed. *)
Lemma nul_names_share_recency :
  (exec (JsArith.of_int 1) (js "default")
     [ {| r_call := at_time 0; r_path := []; r_op := CSet [97; 0; 98] (Some 1) forever |};
       {| r_call := at_time 1; r_path := [js "a"]; r_op := CSet (js "b") (Some 2) forever |};
       {| r_call := at_time 2; r_path := []; r_op := CGet [97; 0; 98] |};
       {| r_call := at_time 3; r_path := [js "a"]; r_op := CGet (js "b") |} ] {| backing := ∅; recency := [] |}).1 =
  [Ok None; Ok None; Ok (Some 1); Ok (Some 2)].
Proof. by vm_compute. Qed.
End Cache.
