(* ===== verification/Semver.v ===== *)
(** Semantic versions (src/js/semver.ts): parsing, precedence, ranges.

    A number that the code reads with [Number(digits)] is the integer the
    digits denote; the code rejects it unless it is a safe integer, so the
    rounding of larger literals is never observable. *)

From S2P Require Import Prelude JsString Utf8 Scanner.

Module Semver.
Import JsString Utf8 Scanner.

(** [toLowerCase] on the ASCII letters; no other character lowers to them. *)
Definition lower (s : jsstring) : jsstring :=
  map (fun u => if (65 <=? u) && (u <=? 90) then u + 32 else u) s.

Inductive Identifier :=
| INum (n : Z)
| IStr (s : jsstring).

Record SemVer := {
  major : Z;
  minor : Z;
  patch : Z;
  prerelease : list Identifier;
  build : list jsstring;
  version : jsstring;
}.

Inductive Op := OpEq | OpGt | OpGe | OpLt | OpLe.
Record Comparator := { op : Op; target : SemVer }.
Record ComparatorSet := { comparators : list Comparator; prereleaseBases : list jsstring }.

(** [undefined] is [None]. *)
Definition isWildcard (part : option jsstring) : bool :=
  match part with
  | None => true
  | Some p => bool_decide (p = [] \/ p = js "x" \/ p = js "X" \/ p = js "*")
  end.
Definition isDigit (code : Z) : bool := (48 <=? code) && (code <=? 57).
Definition isAlphaNumHyphen (code : Z) : bool :=
  isDigit code || ((65 <=? code) && (code <=? 90)) || ((97 <=? code) && (code <=? 122)) || (code =? 45).
Definition all_digits (value : jsstring) : bool := forallb isDigit value.

Definition invalid {A} : ST Scanner.t A := throw (JsError "Invalid semver").
Definition leading_zero (value : jsstring) : bool :=
  (1 <? zlen value) && starts_with (Z.eqb 48) value.

Definition readNumericIdentifier : ST Scanner.t jsstring :=
  value ← eatWhile isDigit;
  if bool_decide (value = []) then invalid
  else if leading_zero value then invalid
  else if negb (isSafeInteger (dec_val value)) then invalid
  else mret value.
Definition readXRangePart : ST Scanner.t jsstring := fun sc =>
  let code := peekCode sc in
  if (code =? 120) || (code =? 88) || (code =? 42) then eat sc else readNumericIdentifier sc.
Definition readIdentifier (strictNumeric : bool) : ST Scanner.t jsstring :=
  value ← eatWhile isAlphaNumHyphen;
  if bool_decide (value = []) then invalid
  else if strictNumeric && leading_zero value && all_digits value then invalid
  else if strictNumeric && all_digits value && negb (isSafeInteger (dec_val value)) then invalid
  else mret value.
(** [while (sc.eatChar('.'))]; every round reads a byte. *)
Fixpoint read_more (fuel : nat) (strictNumeric : bool) : ST Scanner.t (list jsstring) :=
  dot ← eatChar (js ".");
  if dot : bool then
    match fuel with
    | O => throw Diverges
    | S fuel =>
        id ← readIdentifier strictNumeric;
        ids ← read_more fuel strictNumeric;
        mret (id :: ids)
    end
  else mret [].
Definition readIdentifierList (strictNumeric : bool) : ST Scanner.t (list jsstring) := fun sc =>
  (id ← readIdentifier strictNumeric;
   ids ← read_more (length (remaining_text sc)) strictNumeric;
   mret (id :: ids)) sc.
Definition parseIdentifier (id : jsstring) : Identifier :=
  if all_digits id then INum (dec_val id) else IStr id.

(** ** Formatting *)

Definition identifier_str (id : Identifier) : jsstring :=
  match id with INum n => dec_str n | IStr s => s end.
Definition baseKey (v : SemVer) : jsstring :=
  dec_str (major v) ++ js "." ++ dec_str (minor v) ++ js "." ++ dec_str (patch v).
Definition formatSemVer (v : SemVer) : jsstring :=
  baseKey v
  ++ (if 0 <? zlen (prerelease v)
      then js "-" ++ join (js ".") (map identifier_str (prerelease v)) else [])
  ++ (if 0 <? zlen (build v) then js "+" ++ join (js ".") (build v) else []).

(** ** Precedence *)

(** [a < b ? -1 : a > b ? 1 : 0] on strings: by code units. *)
Fixpoint compare_strings (a b : jsstring) : Z :=
  match a, b with
  | [], [] => 0
  | [], _ => -1
  | _, [] => 1
  | x :: a, y :: b => if x <? y then -1 else if y <? x then 1 else compare_strings a b
  end.
Definition compareIdentifier (a b : Identifier) : Z :=
  match a, b with
  | INum a, INum b => a - b
  | INum _, IStr _ => -1
  | IStr _, INum _ => 1
  | IStr a, IStr b => compare_strings a b
  end.
Fixpoint compare_prerelease (a b : list Identifier) : Z :=
  match a, b with
  | [], [] => 0
  | [], _ => -1
  | _, [] => 1
  | x :: a, y :: b =>
      let result := compareIdentifier x y in
      if negb (result =? 0) then result else compare_prerelease a b
  end.
Definition compareParsed (a b : SemVer) : Z :=
  if negb (major a =? major b) then major a - major b
  else if negb (minor a =? minor b) then minor a - minor b
  else if negb (patch a =? patch b) then patch a - patch b
  else
    match prerelease a, prerelease b with
    | [], [] => 0
    | [], _ => 1
    | _, [] => -1
    | pa, pb => compare_prerelease pa pb
    end.

(** ** Partial versions *)

Record Parts := {
  p_major : jsstring;
  p_minor : option jsstring;
  p_patch : option jsstring;
  p_prerelease : list jsstring;
}.

(** [if (!sc.done) throw new Error()], then the result. *)
Definition at_end {A} (a : A) : ST Scanner.t A := fun sc =>
  if negb (is_done sc) then Throw (JsError "") else Ok (a, sc).
Definition read_partial : ST Scanner.t Parts :=
  major ← readXRangePart;
  dot ← eatChar (js ".");
  mp ← (if dot : bool then
      minor ← readXRangePart;
      dot ← eatChar (js ".");
      if dot : bool then patch ← readXRangePart; mret (Some minor, Some patch)
      else mret (Some minor, None)
    else mret (None, None));
  dash ← eatChar (js "-");
  prerelease ← (if dash : bool then readIdentifierList true else mret []);
  at_end {| p_major := major; p_minor := mp.1; p_patch := mp.2; p_prerelease := prerelease |}.
(** [catch]: every error becomes the same one. *)
Definition rethrow {A} (msg : string) (m : res A) : res A :=
  match m with
  | Ok a => Ok a
  | Throw Diverges => Throw Diverges
  | Throw _ => Throw (JsError msg)
  end.
Definition parsePartialVersion (input : jsstring) : res Parts :=
  '(parts, _) ← rethrow "Invalid semver range version" (read_partial (Scanner.make (trim input)));
  Ok parts.

Definition part_number (part : option jsstring) : Z :=
  if isWildcard part then 0 else dec_val (default [] part).
Definition with_version (v : SemVer) : SemVer :=
  {| major := major v; minor := minor v; patch := patch v; prerelease := prerelease v;
     build := build v; version := formatSemVer v |}.
Definition toSemVer (parts : Parts) : SemVer :=
  with_version {|
    major := part_number (Some (p_major parts)); minor := part_number (p_minor parts);
    patch := part_number (p_patch parts); prerelease := map parseIdentifier (p_prerelease parts);
    build := []; version := [] |}.

Inductive Part := PMajor | PMinor | PPatch.
Definition increment (v : SemVer) (part : Part) : SemVer :=
  with_version
    match part with
    | PMajor => {| major := major v + 1; minor := 0; patch := 0; prerelease := []; build := []; version := [] |}
    | PMinor => {| major := major v; minor := minor v + 1; patch := 0; prerelease := []; build := []; version := [] |}
    | PPatch => {| major := major v; minor := minor v; patch := patch v + 1; prerelease := []; build := []; version := [] |}
    end.
Definition hasWildcard (parts : Parts) : bool :=
  isWildcard (Some (p_major parts)) || isWildcard (p_minor parts) || isWildcard (p_patch parts).

Definition between (lower upper : SemVer) : list Comparator :=
  [{| op := OpGe; target := lower |}; {| op := OpLt; target := upper |}].
Definition xRangeToComparators (input : jsstring) : res (list Comparator) :=
  parts ← parsePartialVersion input;
  if isWildcard (Some (p_major parts)) then Ok []
  else
    let lower := toSemVer parts in
    if isWildcard (p_minor parts) then Ok (between lower (increment lower PMajor))
    else if isWildcard (p_patch parts) then Ok (between lower (increment lower PMinor))
    else Ok [{| op := OpEq; target := lower |}].
Definition tildeComparators (input : jsstring) : res (list Comparator) :=
  parts ← parsePartialVersion input;
  let lower := toSemVer parts in
  Ok (between lower (increment lower (if isWildcard (p_minor parts) then PMajor else PMinor))).
Definition caretComparators (input : jsstring) : res (list Comparator) :=
  parts ← parsePartialVersion input;
  let lower := toSemVer parts in
  let upper :=
    if 0 <? major lower then increment lower PMajor
    else if 0 <? minor lower then increment lower PMinor
    else increment lower PPatch in
  Ok (between lower upper).
Definition comparatorFromParts (o : Op) (input : jsstring) : res (list Comparator) :=
  parts ← parsePartialVersion input;
  if hasWildcard parts then
    comparators ← xRangeToComparators input;
    match o, comparators with
    | _, [] => Ok []
    | OpEq, _ => Ok comparators
    | OpGe, lower :: _ :: _ => Ok [lower]
    | OpGt, _ :: upper :: _ => Ok [{| op := OpGe; target := target upper |}]
    | OpLt, lower :: _ :: _ => Ok [{| op := OpLt; target := target lower |}]
    | OpLe, _ :: upper :: _ => Ok [upper]
    | _, _ => Ok []
    end
  else Ok [{| op := o; target := toSemVer parts |}].

(** ** Ranges *)

Definition not_blank (code : Z) : bool := negb (is_blank code).
Definition read_op : ST Scanner.t Op :=
  le ← matchAndAdvance (js "<=");
  if le : bool then mret OpLe else
  ge ← matchAndAdvance (js ">=");
  if ge : bool then mret OpGe else
  lt ← matchAndAdvance (js "<");
  if lt : bool then mret OpLt else
  gt ← matchAndAdvance (js ">");
  if gt : bool then mret OpGt else mret OpEq.
Definition read_comparator : ST Scanner.t (Op * jsstring) :=
  o ← read_op;
  value ← eatWhile not_blank;
  if bool_decide (value = []) then throw (JsError "Invalid semver comparator")
  else at_end (o, value).
Definition expandToken (token : jsstring) : res (list Comparator) :=
  if bool_decide (token = [] \/ token = js "*" \/ lower token = js "x") then Ok []
  else if starts_with (Z.eqb 94) token then caretComparators (tail token)
  else if starts_with (Z.eqb 126) token then tildeComparators (tail token)
  else
    '((o, value), _) ← read_comparator (Scanner.make token);
    comparatorFromParts o value.

Fixpoint tokenize (fuel : nat) (sc : Scanner.t) : res (list jsstring) :=
  match fuel with
  | O => Throw Diverges
  | S fuel =>
      if is_done sc then Ok []
      else
        '(_, sc) ← skipWhitespace sc;
        if is_done sc then Ok []
        else
          let start := offset sc in
          '(_, sc) ← eatWhile not_blank sc;
          tokens ← tokenize fuel sc;
          Ok (Scanner.text start sc :: tokens)
  end.
(** Every round but the last consumes a byte. *)
Definition tokenizeRangeSet (text : jsstring) : res (list jsstring) :=
  let sc := Scanner.make text in tokenize (S (length (buf sc))) sc.

Fixpoint expand_tokens (tokens : list jsstring) : res (list Comparator) :=
  match tokens with
  | [] => Ok []
  | token :: tokens => cs ← expandToken token; rest ← expand_tokens tokens; Ok (cs ++ rest)
  end.
(** [prereleaseBases] is a set; only membership is used. *)
Definition parseRangeSet (text : jsstring) : res ComparatorSet :=
  tokens ← tokenizeRangeSet (trim text);
  cs ← expand_tokens tokens;
  Ok {| comparators := cs;
        prereleaseBases := map (fun c => baseKey (target c))
          (base.filter (fun c => prerelease (target c) <> []) cs) |}.

Fixpoint join_hyphens (fuel : nat) (tokens : list jsstring) : list jsstring :=
  match fuel, tokens with
  | S fuel, a :: dash :: b :: tokens' =>
      if bool_decide (dash = js "-")
      then (js ">=" ++ a) :: (js "<=" ++ b) :: join_hyphens fuel tokens'
      else a :: join_hyphens fuel (dash :: b :: tokens')
  | _, _ => tokens
  end.
Definition normalizeHyphenRanges (input : jsstring) : res jsstring :=
  tokens ← tokenizeRangeSet input;
  Ok (join (js " ") (join_hyphens (length tokens) tokens)).

Definition partIsWildcard (input : jsstring) : bool :=
  let text := trim input in
  bool_decide (text = [] \/ text = js "*" \/ lower text = js "latest").

Definition parse_branch (branch : jsstring) : res ComparatorSet :=
  let branch := trim branch in
  if bool_decide (branch = []) then Throw (JsError "Invalid semver range")
  else normalized ← normalizeHyphenRanges branch; parseRangeSet normalized.
(** The scan for [||]; every round moves the cursor. *)
Fixpoint split_branches (fuel : nat) (branchStart : nat) (sc : Scanner.t) : res (list ComparatorSet) :=
  if is_done sc then set ← parse_branch (Scanner.text branchStart sc); Ok [set]
  else
    match fuel with
    | O => Throw Diverges
    | S fuel =>
        if bool_decide (peek 2 sc = js "||") then
          set ← parse_branch (Scanner.text branchStart sc);
          '(_, sc) ← expect (js "||") sc;
          sets ← split_branches fuel (offset sc) sc;
          Ok (set :: sets)
        else '(_, sc) ← eat sc; split_branches fuel branchStart sc
    end.
Definition parseRange (input : jsstring) : res (list ComparatorSet) :=
  let text := trim input in
  if bool_decide (text = [] \/ text = js "*" \/ lower text = js "latest")
  then Ok [{| comparators := []; prereleaseBases := [] |}]
  else
    let sc := Scanner.make text in
    sets ← split_branches (length (buf sc)) 0 sc;
    Ok (base.filter (fun set => comparators set <> [] \/ partIsWildcard input = true) sets).

Definition testComparator (v : SemVer) (c : Comparator) : bool :=
  let result := compareParsed v (target c) in
  match op c with
  | OpEq => result =? 0
  | OpGt => 0 <? result
  | OpGe => 0 <=? result
  | OpLt => result <? 0
  | OpLe => result <=? 0
  end.

(** ** The exported functions *)

Definition read_version : ST Scanner.t SemVer :=
  major ← readNumericIdentifier; expect (js ".");;
  minor ← readNumericIdentifier; expect (js ".");;
  patch ← readNumericIdentifier;
  dash ← eatChar (js "-");
  prerelease ← (if dash : bool then readIdentifierList true else mret []);
  plus ← eatChar (js "+");
  build ← (if plus : bool then readIdentifierList false else mret []);
  at_end (with_version {|
    major := dec_val major; minor := dec_val minor; patch := dec_val patch;
    prerelease := map parseIdentifier prerelease; build := build; version := [] |}).
Definition parse (v : jsstring) : res SemVer :=
  '(parsed, _) ← rethrow "Invalid semver version" (read_version (Scanner.make (trim v)));
  Ok parsed.
Definition valid (v : jsstring) : option jsstring :=
  match parse v with Ok p => Some (version p) | Throw _ => None end.
Definition compare (a b : jsstring) : res Z :=
  va ← parse a; vb ← parse b; Ok (compareParsed va vb).

Definition admits (v : SemVer) (set : ComparatorSet) : bool :=
  forallb (testComparator v) (comparators set) &&
  negb ((0 <? zlen (prerelease v)) && negb (bool_decide (baseKey v ∈ prereleaseBases set)) &&
        (0 <? zlen (comparators set))).
Definition satisfies (v range : jsstring) : res bool :=
  parsed ← parse v;
  sets ← parseRange range;
  Ok (existsb (admits parsed) sets).

Fixpoint max_loop (best : option jsstring) (versions : list jsstring) (range : jsstring)
  : res (option jsstring) :=
  match versions with
  | [] => Ok best
  | v :: versions =>
      ok ← satisfies v range;
      if negb ok then max_loop best versions range
      else
        match best with
        | None => max_loop (Some v) versions range
        | Some b =>
            c ← compare v b;
            max_loop (if 0 <? c then Some v else best) versions range
        end
  end.
Definition maxSatisfying (versions : list jsstring) (range : jsstring) : res (option jsstring) :=
  max_loop None versions range.
Definition validRange (range : jsstring) : option jsstring :=
  match parseRange range with
  | Ok _ => Some (if bool_decide (trim range = []) then js "*" else trim range)
  | Throw _ => None
  end.

(** ** Well-formed versions *)

Definition safe (n : Z) : Prop := 0 <= n <= 2 ^ 53 - 1.
Definition ident_ok (s : jsstring) : Prop :=
  s <> [] /\ Forall (fun c => isAlphaNumHyphen c = true) s.
Definition identifier_ok (id : Identifier) : Prop :=
  match id with
  | INum n => safe n
  | IStr s => ident_ok s /\ all_digits s = false
  end.
Definition semver_ok (v : SemVer) : Prop :=
  safe (major v) /\ safe (minor v) /\ safe (patch v) /\
  Forall identifier_ok (prerelease v) /\ Forall ident_ok (build v) /\
  version v = formatSemVer v.

(** ** Decimal numerals *)

Definition digits_ok (ds : jsstring) : Prop :=
  ds <> [] /\ Forall (fun c => isDigit c = true) ds.

Lemma dec_str_spec n : 0 <= n ->
  digits_ok (dec_str n) /\ dec_val (dec_str n) = n /\ leading_zero (dec_str n) = false.
Proof.
  intros Hn. destruct (dec_str_facts n Hn) as (Hd & Hv & Hh & H0). split; [exact Hd|]. split; [done|]. unfold leading_zero.
  destruct (Z.eq_dec n 0) as [->|E]; [done|]. specialize (Hh ltac:(lia)). destruct (dec_str n) as [|u s]; [apply andb_false_r|].
  cbn [head starts_with] in *. replace (48 =? u) with false by (symmetry; apply Z.eqb_neq; congruence). apply andb_false_r.
Qed.

Lemma dec_val_nonneg ds : Forall (fun c => isDigit c = true) ds -> 0 <= dec_val ds.
Proof.
  unfold dec_val. assert (forall x, 0 <= x -> Forall (fun c => isDigit c = true) ds ->
    0 <= foldl (fun n c => n * 10 + (c - 48)) x ds) as H; [|by apply H].
  induction ds as [|c ds IH]; intros x Hx Hds; [done|]. apply Forall_cons in Hds as [Hc Hds].
  cbn [foldl]. apply IH; [|done]. unfold isDigit in Hc. lia.
Qed.

Lemma safe_dec n : safe n -> isSafeInteger n = true.
Proof. unfold safe, isSafeInteger. lia. Qed.

(** ** Reading back formatted text *)

Lemma scans_numeric n : safe n ->
  scans (fun tl => starts_with isDigit tl = false) readNumericIdentifier (dec_str n) (dec_str n).
Proof.
  intros Hn. destruct (dec_str_spec n) as ([Hne Hd] & Hv & Hz); [unfold safe in Hn; lia|].
  eapply scans_map; [by apply scans_eatWhile|]. cbv beta.
  rewrite bool_decide_eq_false_2 by done. rewrite Hz, Hv, safe_dec by done. done.
Qed.

Lemma digit_alnum c : isDigit c = true -> isAlphaNumHyphen c = true.
Proof. unfold isAlphaNumHyphen. by intros ->. Qed.

Lemma digits_alnum ds : Forall (fun c => isDigit c = true) ds -> Forall (fun c => isAlphaNumHyphen c = true) ds.
Proof. intros H. eapply Forall_impl; [exact H|]. apply digit_alnum. Qed.

(** Identifiers that [readIdentifier] accepts. *)
Definition accepted (strict : bool) (s : jsstring) : Prop :=
  ident_ok s /\ (strict = true -> all_digits s = true ->
                 leading_zero s = false /\ isSafeInteger (dec_val s) = true).

Lemma scans_identifier strict s : accepted strict s ->
  scans (fun tl => starts_with isAlphaNumHyphen tl = false) (readIdentifier strict) s s.
Proof.
  intros [[Hne Hs] Hstrict]. eapply scans_map; [by apply scans_eatWhile|]. cbv beta.
  rewrite bool_decide_eq_false_2 by done.
  destruct strict; [|done]. destruct (all_digits s).
  - destruct Hstrict as [-> ->]; done.
  - by rewrite !andb_false_r.
Qed.

Definition list_end (tl : list Z) : Prop :=
  starts_with isAlphaNumHyphen tl = false /\ starts_with (Z.eqb 46) tl = false.
Definition dotted (ids : list jsstring) : list Z := ids ≫= (fun id => js "." ++ id).

Lemma dotted_starts ids tl : list_end tl -> starts_with isAlphaNumHyphen (dotted ids ++ tl) = false.
Proof. intros [H _]. by destruct ids. Qed.

Lemma scans_more strict ids fuel :
  Forall (accepted strict) ids -> (length ids <= fuel)%nat ->
  scans list_end (read_more fuel strict) (dotted ids) ids.
Proof.
  intros Hids. revert fuel. induction Hids as [|id ids Hid Hids IH]; intros fuel Hf.
  - intros sc tl E [_ Hdot]. destruct fuel; cbn [read_more];
      rewrite (ST_bind_ok _ _ _ _ _ (scans_no_char 46 eq_refl sc tl E Hdot)); reflexivity.
  - destruct fuel as [|fuel]; [simpl in Hf; lia|]. unfold dotted. rewrite bind_cons, <- app_assoc.
    fold (dotted ids). cbn [read_more].
    apply (scans_bind (fun _ => True) list_end _ _ _ _ true); [by apply (scans_char 46)|done|].
    eapply scans_bind; [by apply scans_identifier|intros; by apply dotted_starts|].
    eapply scans_map; [apply IH; simpl in Hf; lia|done].
Qed.

Lemma join_dotted id ids : join (js ".") (id :: ids) = id ++ dotted ids.
Proof.
  revert id. induction ids as [|id' ids IH]; intros id; [by rewrite app_nil_r|].
  change (join (js ".") (id :: id' :: ids)) with (id ++ js "." ++ join (js ".") (id' :: ids)).
  rewrite IH. unfold dotted. rewrite bind_cons. by rewrite <- app_assoc.
Qed.

Lemma dotted_length ids : (length ids <= length (dotted ids))%nat.
Proof.
  induction ids as [|id ids IH]; [done|]. unfold dotted in *.
  rewrite bind_cons, !length_app. change (length (js ".")) with 1%nat. cbn [length]. lia.
Qed.

Lemma scans_list strict ids : ids <> [] -> Forall (accepted strict) ids ->
  scans list_end (readIdentifierList strict) (join (js ".") ids) ids.
Proof.
  intros Hne Hids. destruct Hids as [|id ids Hid Hids]; [done|]. rewrite join_dotted.
  intros sc tl E Htl. unfold readIdentifierList.
  pose proof (dotted_length ids) as Hl.
  assert (scans list_end (id0 ← readIdentifier strict;
    ids0 ← read_more (length (remaining_text sc)) strict; mret (id0 :: ids0)) (id ++ dotted ids) (id :: ids)) as H.
  { eapply scans_bind; [by apply scans_identifier|intros; by apply dotted_starts|].
    eapply scans_map; [apply scans_more; [done|]|done]. rewrite E, !length_app. lia. }
  by apply H with tl.
Qed.

(** The characters of formatted versions: ASCII and not white space. *)
Definition plain (c : Z) : bool := isAlphaNumHyphen c || (c =? 46) || (c =? 43).

Lemma plain_ascii s : Forall (fun c => plain c = true) s -> ascii s = true.
Proof.
  intros H. unfold ascii. apply forallb_forall. intros c Hc.
  apply list_elem_of_In in Hc. eapply Forall_forall in H; [|exact Hc]. simpl in H.
  unfold plain, isAlphaNumHyphen, isDigit in H. lia.
Qed.

Lemma trimStart_plain s : Forall (fun c => plain c = true) s -> trimStart s = s.
Proof.
  intros [|c s' Hc _]; [done|]. cbn [trimStart].
  replace (is_space c) with false; [done|].
  unfold plain, isAlphaNumHyphen, isDigit in Hc. unfold is_space. lia.
Qed.

Lemma trim_plain s : Forall (fun c => plain c = true) s -> trim s = s.
Proof.
  intros H. unfold trim. rewrite (trimStart_plain s) by done.
  rewrite trimStart_plain by (by apply Forall_reverse). apply reverse_involutive.
Qed.

Lemma alnum_plain s : Forall (fun c => isAlphaNumHyphen c = true) s -> Forall (fun c => plain c = true) s.
Proof. intros H. eapply Forall_impl; [exact H|]. intros c Hc. unfold plain. by rewrite Hc. Qed.

Lemma join_plain ids : Forall ident_ok ids -> Forall (fun c => plain c = true) (join (js ".") ids).
Proof.
  induction 1 as [|id ids [_ Hid] Hids IH]; [constructor|]. destruct ids as [|id' ids].
  - by apply alnum_plain.
  - change (join (js ".") (id :: id' :: ids)) with (id ++ js "." ++ join (js ".") (id' :: ids)).
    apply Forall_app. split; [by apply alnum_plain|]. apply Forall_app. split; [|done].
    by constructor.
Qed.

Lemma dec_plain n : 0 <= n -> Forall (fun c => plain c = true) (dec_str n).
Proof. intros Hn. destruct (dec_str_spec n Hn) as ([_ Hd] & _). by apply alnum_plain, digits_alnum. Qed.

Lemma identifier_text id : identifier_ok id ->
  accepted true (identifier_str id) /\ parseIdentifier (identifier_str id) = id.
Proof.
  destruct id as [n|s]; simpl.
  - intros Hn. destruct (dec_str_spec n) as ([Hne Hd] & Hv & Hz); [unfold safe in Hn; lia|].
    split.
    + split; [split; [done|by apply digits_alnum]|]. intros _ _. by rewrite Hv, Hz, safe_dec.
    + unfold parseIdentifier. assert (all_digits (dec_str n) = true) as ->; [|by rewrite Hv].
      apply forallb_forall. intros c Hc. apply list_elem_of_In in Hc. by eapply Forall_forall in Hd.
  - intros [Hid Hd]. split; [split; [done|by rewrite Hd]|]. unfold parseIdentifier. by rewrite Hd.
Qed.

Lemma identifiers_text ids : Forall identifier_ok ids ->
  Forall (accepted true) (map identifier_str ids) /\
  map parseIdentifier (map identifier_str ids) = ids.
Proof.
  induction 1 as [|id ids Hid Hids [IH1 IH2]]; [split; [constructor|done]|].
  destruct (identifier_text id Hid) as [H1 H2]. cbn [map]. split; [by constructor|]. by rewrite H2, IH2.
Qed.

Lemma accepted_ident strict ids : Forall (accepted strict) ids -> Forall ident_ok ids.
Proof. intros H. eapply Forall_impl; [exact H|]. by intros id [? _]. Qed.

Lemma format_plain v : semver_ok v -> Forall (fun c => plain c = true) (formatSemVer v).
Proof.
  intros (H1 & H2 & H3 & Hp & Hb & _). unfold formatSemVer, baseKey, safe in *.
  destruct (identifiers_text _ Hp) as [Ha%accepted_ident _].
  assert (forall c, c = 46 \/ c = 43 \/ c = 45 -> Forall (fun c => plain c = true) [c]) as Hc
    by (intros c [->|[->| ->]]; by constructor).
  repeat (apply Forall_app; split); try (apply dec_plain; lia); try (apply Hc; tauto).
  - destruct (0 <? _); [|constructor]. apply Forall_app. split; [apply Hc; tauto|by apply join_plain].
  - destruct (0 <? _); [|constructor]. apply Forall_app. split; [apply Hc; tauto|by apply join_plain].
Qed.

(** An optional identifier list after its mark [c]. *)
Lemma scans_optional strict c ids (f : list Z -> Prop) :
  ascii [c] = true -> Forall (accepted strict) ids ->
  (forall tl, f tl -> list_end tl) -> (forall tl, f tl -> starts_with (Z.eqb c) tl = false) ->
  scans f (b ← eatChar [c]; if b : bool then readIdentifierList strict else mret [])
    (if 0 <? zlen ids then [c] ++ join (js ".") ids else []) ids.
Proof.
  intros Hc Hids Hend Hno. destruct ids as [|id ids].
  - intros sc tl E Hf. change (0 <? zlen []) with false in E |- *. cbv iota in *.
    rewrite (ST_bind_ok _ _ _ _ _ (scans_no_char c Hc sc tl E (Hno tl Hf))). done.
  - rewrite zlen_cons. pose proof (zlen_nonneg ids). replace (0 <? 1 + zlen ids) with true by lia.
    eapply (scans_bind (fun _ => True)); [by apply scans_char|done|].
    intros sc tl E Hf. apply (scans_list strict (id :: ids)) with tl; auto.
Qed.

(** The same, followed by more. *)
Lemma scans_optional_then {A} strict c ids (f g : list Z -> Prop) (k : list jsstring -> ST Scanner.t A) s a :
  ascii [c] = true -> Forall (accepted strict) ids ->
  (forall tl, f tl -> list_end tl) -> (forall tl, f tl -> starts_with (Z.eqb c) tl = false) ->
  (forall tl, g tl -> f (s ++ tl)) -> scans g (k ids) s a ->
  scans g (b ← eatChar [c]; l ← (if b : bool then readIdentifierList strict else mret []); k l)
    ((if 0 <? zlen ids then [c] ++ join (js ".") ids else []) ++ s) a.
Proof.
  intros Hc Hids Hend Hno Hfg Hk.
  pose proof (scans_bind f g _ k _ s ids a (scans_optional strict c ids f Hc Hids Hend Hno) Hfg Hk) as H.
  intros sc tl E Hg. rewrite <- (H sc tl E Hg). symmetry. apply ST_bind_assoc.
Qed.

Definition at_eof (tl : list Z) : Prop := tl = [].

Lemma scans_at_end {A} (a : A) : scans at_eof (at_end a) [] a.
Proof.
  intros sc tl E ->. unfold at_end. rewrite done_at_end by done. by rewrite move_0.
Qed.

Lemma scans_number {A} n (f : list Z -> Prop) (k : jsstring -> ST Scanner.t A) s a :
  safe n -> (forall tl, f tl -> starts_with isDigit (s ++ tl) = false) ->
  scans f (k (dec_str n)) s a -> scans f (m ← readNumericIdentifier; k m) (dec_str n ++ s) a.
Proof. intros Hn Hf Hk. eapply scans_bind; [by apply scans_numeric|done|done]. Qed.

Lemma scans_dot {A} (f : list Z -> Prop) (k : ST Scanner.t A) s a :
  scans f k s a -> scans f (expect (js ".");; k) (js "." ++ s) a.
Proof. intros Hk. eapply (scans_bind (fun _ => True)); [by apply (scans_expect 46)|done|done]. Qed.

Lemma scans_version v : semver_ok v -> scans at_eof read_version (formatSemVer v) v.
Proof.
  intros (H1 & H2 & H3 & Hp & Hb & Hv). destruct (identifiers_text _ Hp) as [Hacc Hids].
  unfold formatSemVer, baseKey. rewrite <- !app_assoc. unfold read_version.
  set (pre := if 0 <? zlen (prerelease v) then _ else []).
  set (bld := if 0 <? zlen (build v) then _ else []).
  assert (forall tl, at_eof tl -> starts_with isDigit ((pre ++ bld) ++ tl) = false) as Hend.
  { intros tl ->. rewrite app_nil_r. unfold pre, bld.
    destruct (0 <? zlen (prerelease v)); [done|]. by destruct (0 <? zlen (build v)). }
  do 2 (apply scans_number; [done|done|]; apply scans_dot). apply scans_number; [done|done|].
  assert (Forall (accepted false) (build v)) as Hbacc.
  { eapply Forall_impl; [exact Hb|]. intros id Hid. split; [done|done]. }
  assert (pre = if 0 <? zlen (map identifier_str (prerelease v))
    then [45] ++ join (js ".") (map identifier_str (prerelease v)) else []) as ->.
  { unfold pre, zlen. by rewrite length_map. }
  apply (scans_optional_then true 45 (map identifier_str (prerelease v))
    (fun tl => list_end tl /\ starts_with (Z.eqb 45) tl = false)); [done|done|tauto|tauto| |].
  { intros tl ->. rewrite app_nil_r. unfold bld. by destruct (0 <? zlen (build v)). }
  rewrite <- (app_nil_r bld).
  apply (scans_optional_then false 43 (build v) at_eof); [done|done|by intros tl ->|by intros tl ->|done|].
  destruct (dec_str_spec (major v)) as (_ & -> & _); [unfold safe in H1; lia|].
  destruct (dec_str_spec (minor v)) as (_ & -> & _); [unfold safe in H2; lia|].
  destruct (dec_str_spec (patch v)) as (_ & -> & _); [unfold safe in H3; lia|].
  rewrite Hids. replace (with_version _) with v; [apply scans_at_end|].
  unfold with_version. cbn [major minor patch prerelease build].
  destruct v as [ma mi pa pr bu ve]. cbn [major minor patch prerelease build version] in *. by rewrite Hv.
Qed.

Lemma remaining_make s : ascii s = true -> remaining_text (Scanner.make s) = s.
Proof. intros H. unfold remaining_text, Scanner.make. simpl. by rewrite encode_ascii. Qed.

Lemma parse_format v : semver_ok v -> parse (formatSemVer v) = Ok v.
Proof.
  intros Hv. pose proof (format_plain v Hv) as Hp. unfold parse. rewrite trim_plain by done.
  rewrite (scans_version v Hv _ []); [done| |done].
  rewrite app_nil_r. by apply remaining_make, plain_ascii.
Qed.

(** ** What the parser accepts is well formed *)

Lemma eatWhile_inv pred sc value sc' :
  eatWhile pred sc = Ok (value, sc') -> Forall (fun c => pred c = true) value.
Proof.
  intros [= <- <-]. induction (remaining_text sc) as [|c l IH]; [constructor|].
  cbn [span]. destruct (pred c) eqn:E; [by constructor|constructor].
Qed.

Lemma numeric_inv sc value sc' :
  readNumericIdentifier sc = Ok (value, sc') -> safe (dec_val value).
Proof.
  intros (ds & sc1 & E & H)%ST_bind_inv. apply eatWhile_inv in E. apply dec_val_nonneg in E as Hn.
  destruct (bool_decide (ds = [])); [done|]. destruct (leading_zero ds); [done|].
  destruct (isSafeInteger (dec_val ds)) eqn:Es; [|done]. injection H as <- <-.
  unfold isSafeInteger in Es. unfold safe. lia.
Qed.

Lemma identifier_inv strict sc value sc' :
  readIdentifier strict sc = Ok (value, sc') -> accepted strict value.
Proof.
  intros (ds & sc1 & E & H)%ST_bind_inv. apply eatWhile_inv in E.
  destruct (bool_decide (ds = [])) eqn:En; [done|]. apply bool_decide_eq_false in En.
  destruct (strict && leading_zero ds && all_digits ds) eqn:E1; [done|].
  destruct (strict && all_digits ds && negb (isSafeInteger (dec_val ds))) eqn:E2; [done|].
  injection H as <- <-. split; [done|]. intros -> Hd. rewrite Hd in E1, E2.
  rewrite andb_true_r in E1. simpl in E1, E2. split; [done|]. by apply negb_false_iff.
Qed.

Lemma more_inv fuel strict sc ids sc' :
  read_more fuel strict sc = Ok (ids, sc') -> Forall (accepted strict) ids.
Proof.
  revert sc ids. induction fuel as [|fuel IH]; intros sc ids; cbn [read_more];
    intros (dot & sc1 & _ & H)%ST_bind_inv; (destruct dot; [|injection H as <- <-; constructor]); [done|].
  apply ST_bind_inv in H as (id & sc2 & Eid & H). apply ST_bind_inv in H as (ids' & sc3 & Eids & H).
  injection H as <- <-. constructor; [by eapply identifier_inv|by eapply IH].
Qed.

Lemma list_inv strict sc ids sc' :
  readIdentifierList strict sc = Ok (ids, sc') -> Forall (accepted strict) ids.
Proof.
  unfold readIdentifierList. intros (id & sc2 & Eid & H)%ST_bind_inv.
  apply ST_bind_inv in H as (ids' & sc3 & Eids & H). injection H as <- <-.
  constructor; [by eapply identifier_inv|by eapply more_inv].
Qed.

Lemma optional_inv strict (b : bool) sc ids sc' :
  (if b then readIdentifierList strict else mret []) sc = Ok (ids, sc') -> Forall (accepted strict) ids.
Proof. destruct b; [apply list_inv|by intros [= <- <-]]. Qed.

Lemma parsed_identifier id : accepted true id -> identifier_ok (parseIdentifier id).
Proof.
  intros [[Hne Hid] Hs]. unfold parseIdentifier. destruct (all_digits id) eqn:E; [|done].
  destruct (Hs eq_refl eq_refl) as [_ Hsafe]. simpl. unfold isSafeInteger in Hsafe.
  assert (0 <= dec_val id); [|unfold safe; lia]. apply dec_val_nonneg.
  apply Forall_forall. intros c Hc. unfold all_digits in E. rewrite forallb_forall in E.
  by apply E, list_elem_of_In.
Qed.

Lemma read_version_ok sc v sc' : read_version sc = Ok (v, sc') -> semver_ok v.
Proof.
  intros (ma & s1 & Ema%numeric_inv & H)%ST_bind_inv. apply ST_bind_inv in H as ([] & s2 & _ & H).
  apply ST_bind_inv in H as (mi & s3 & Emi%numeric_inv & H). apply ST_bind_inv in H as ([] & s4 & _ & H).
  apply ST_bind_inv in H as (pa & s5 & Epa%numeric_inv & H). apply ST_bind_inv in H as (d & s6 & _ & H).
  apply ST_bind_inv in H as (pre & s7 & Epre%optional_inv & H). apply ST_bind_inv in H as (pl & s8 & _ & H).
  apply ST_bind_inv in H as (bld & s9 & Ebld%optional_inv & H).
  unfold at_end in H. destruct (is_done s9); [|done]. injection H as <- <-.
  split; [done|]. split; [done|]. split; [done|]. cbn [with_version prerelease build version].
  split; [|split; [by eapply accepted_ident|done]].
  apply Forall_fmap. eapply Forall_impl; [exact Epre|]. apply parsed_identifier.
Qed.

Lemma parse_ok s v : parse s = Ok v -> semver_ok v.
Proof.
  unfold parse. intros ([v' sc] & E & [= <-])%res_bind_inv.
  destruct (read_version (Scanner.make (trim s))) as [[v'' sc']|e] eqn:Er.
  - injection E as <- <-. by eapply read_version_ok.
  - by destruct e.
Qed.

(** Every well-formed version is printed and parsed back unchanged,
    prerelease identifiers and build metadata included. *)
Theorem semver_roundtrip (v : SemVer) : semver_ok v -> parse (formatSemVer v) = Ok v.
Proof. apply parse_format. Qed.

Definition sample_version : SemVer :=
  with_version {| major := 1; minor := 0; patch := 42;
    prerelease := [IStr (js "beta"); INum 7]; build := [js "001"; js "x-y"]; version := [] |}.

Lemma semver_roundtrip_witness : parse (formatSemVer sample_version) = Ok sample_version.
Proof.
  apply (semver_roundtrip sample_version).
  apply (parse_ok (js "1.0.42-beta.7+001.x-y")). vm_compute. reflexivity.
Defined.

(** Parsing normalises: whatever string is accepted, the result is well
    formed (numbers in the safe range, no empty or ambiguous identifier), its
    [version] text parses to the same value, and [valid] returns that text. *)
Theorem semver_parse_sound (s : jsstring) (v : SemVer) :
  parse s = Ok v ->
  semver_ok v /\ parse (version v) = Ok v /\ valid s = Some (version v)
  /\ valid (version v) = Some (version v).
Proof.
  intros E. pose proof (parse_ok s v E) as Hv. split; [done|].
  assert (parse (version v) = Ok v) as Hp.
  { pose proof Hv as (_ & _ & _ & _ & _ & Hf). rewrite Hf. by apply parse_format. }
  split; [done|]. unfold valid. by rewrite E, Hp.
Qed.

Lemma semver_parse_sound_witness :
  let v := sample_version in
  semver_ok v /\ parse (version v) = Ok v /\ valid (js "  1.0.42-beta.7+001.x-y") = Some (version v)
  /\ valid (version v) = Some (version v).
Proof.
  apply (semver_parse_sound (js "  1.0.42-beta.7+001.x-y") sample_version). vm_compute. reflexivity.
Defined.

(** ** Precedence is a total order *)

(** What a three-way comparison owes to its users. *)
Class Comparison {A} (c : A -> A -> Z) := {
  cmp_eq a b : c a b = 0 <-> a = b;
  cmp_anti a b : c a b < 0 <-> 0 < c b a;
  cmp_trans a b d : c a b < 0 -> c b d < 0 -> c a d < 0;
}.

Lemma cmp_refl `{Comparison A c} a : c a a = 0.
Proof. by apply cmp_eq. Qed.

(** Lexicographic comparison of lists. *)
Fixpoint lex {A} (c : A -> A -> Z) (a b : list A) : Z :=
  match a, b with
  | [], [] => 0
  | [], _ => -1
  | _, [] => 1
  | x :: a, y :: b =>
      let result := c x y in if negb (result =? 0) then result else lex c a b
  end.

Lemma lex_cons {A} (c : A -> A -> Z) x y a b :
  lex c (x :: a) (y :: b) = if c x y =? 0 then lex c a b else c x y.
Proof. cbn [lex]. cbv zeta. by destruct (c x y =? 0). Qed.

#[export] Instance lex_comparison `{Comparison A c} : Comparison (lex c).
Proof.
  constructor.
  - induction a as [|x a IH]; intros [|y b]; try done. rewrite lex_cons.
    destruct (Z.eqb_spec (c x y) 0) as [E|E].
    + apply cmp_eq in E as ->. rewrite IH. split; [by intros ->|by intros [= ->]].
    + split; [done|]. intros [= -> ->]. by rewrite cmp_refl in E.
  - induction a as [|x a IH]; intros [|y b]; try (simpl; lia). rewrite !lex_cons.
    destruct (Z.eqb_spec (c x y) 0) as [E|E].
    + apply cmp_eq in E as ->. rewrite cmp_refl. apply IH.
    + destruct (Z.eqb_spec (c y x) 0) as [E'|E']; [apply cmp_eq in E' as ->; by rewrite cmp_refl in E|].
      apply cmp_anti.
  - induction a as [|x a IH]; intros [|y b] [|z d]; try (simpl; lia). rewrite !lex_cons.
    destruct (Z.eqb_spec (c x y) 0) as [E|E]; [apply cmp_eq in E as ->|];
      (destruct (Z.eqb_spec (c y z) 0) as [E'|E']; [apply cmp_eq in E' as ->|]); rewrite ?cmp_refl.
    + apply IH.
    + destruct (Z.eqb_spec (c y z) 0); [done|]. done.
    + destruct (Z.eqb_spec (c x z) 0); [done|]. done.
    + intros H1 H2. pose proof (cmp_trans x y z H1 H2). destruct (Z.eqb_spec (c x z) 0); lia.
Qed.

Definition compare_units (x y : Z) : Z := if x <? y then -1 else if y <? x then 1 else 0.
#[export] Instance compare_units_comparison : Comparison compare_units.
Proof.
  unfold compare_units. constructor; [intros a b|intros a b|intros a b d]; zcases; lia.
Qed.

Lemma compare_strings_lex a b : compare_strings a b = lex compare_units a b.
Proof.
  revert b. induction a as [|x a IH]; intros [|y b]; try done. rewrite lex_cons.
  cbn [compare_strings]. rewrite IH. unfold compare_units. by zcases.
Qed.

#[export] Instance compareIdentifier_comparison : Comparison compareIdentifier.
Proof.
  constructor.
  - intros [a|a] [b|b]; simpl; rewrite ?compare_strings_lex.
    + split; [intros; f_equal; lia|by intros [= ->]; lia].
    + done.
    + done.
    + rewrite cmp_eq. split; [by intros ->|by intros [= ->]].
  - intros [a|a] [b|b]; simpl; rewrite ?compare_strings_lex; try lia. apply cmp_anti.
  - intros [a|a] [b|b] [d|d]; simpl; rewrite ?compare_strings_lex; try lia. apply cmp_trans.
Qed.

Lemma compare_prerelease_lex a b : compare_prerelease a b = lex compareIdentifier a b.
Proof. revert b. induction a as [|x a IH]; intros [|y b]; try done. simpl. by rewrite IH. Qed.

(** A release comes after its prereleases. *)
Definition compare_tails (a b : list Identifier) : Z :=
  match a, b with
  | [], [] => 0
  | [], _ => 1
  | _, [] => -1
  | a, b => compare_prerelease a b
  end.
#[export] Instance compare_tails_comparison : Comparison compare_tails.
Proof.
  constructor; unfold compare_tails.
  - intros [|x a] [|y b]; try done. rewrite compare_prerelease_lex. apply cmp_eq.
  - intros [|x a] [|y b]; try lia. rewrite !compare_prerelease_lex. apply cmp_anti.
  - intros [|x a] [|y b] [|z d]; try lia. rewrite !compare_prerelease_lex. apply cmp_trans.
Qed.

(** The fields that take part in precedence. *)
Definition precedence (v : SemVer) : Z * Z * Z * list Identifier :=
  (major v, minor v, patch v, prerelease v).

Lemma compareParsed_steps a b :
  compareParsed a b =
  if negb (major a =? major b) then major a - major b
  else if negb (minor a =? minor b) then minor a - minor b
  else if negb (patch a =? patch b) then patch a - patch b
  else compare_tails (prerelease a) (prerelease b).
Proof. unfold compareParsed. by destruct (prerelease a), (prerelease b). Qed.

Lemma precedence_eq a b : compareParsed a b = 0 <-> precedence a = precedence b.
Proof.
  unfold precedence. rewrite compareParsed_steps.
  pose proof (cmp_eq (prerelease a) (prerelease b)) as Heq.
  destruct (Z.eqb_spec (major a) (major b)), (Z.eqb_spec (minor a) (minor b)),
    (Z.eqb_spec (patch a) (patch b)); cbn [negb]; split;
    try (intros H; exfalso; lia); try (intros [= ? ? ? ?]; exfalso; lia).
  - intros H%Heq. congruence.
  - intros [= _ _ _ H]. by apply Heq.
Qed.

Lemma precedence_anti a b : compareParsed a b < 0 <-> 0 < compareParsed b a.
Proof.
  rewrite !compareParsed_steps, (Z.eqb_sym (major b)), (Z.eqb_sym (minor b)), (Z.eqb_sym (patch b)).
  pose proof (cmp_anti (prerelease a) (prerelease b)) as Hanti.
  destruct (Z.eqb_spec (major a) (major b)), (Z.eqb_spec (minor a) (minor b)),
    (Z.eqb_spec (patch a) (patch b)); cbn [negb]; lia || done.
Qed.

Lemma precedence_trans a b c :
  compareParsed a b < 0 -> compareParsed b c < 0 -> compareParsed a c < 0.
Proof.
  rewrite !compareParsed_steps.
  pose proof (cmp_trans (prerelease a) (prerelease b) (prerelease c)) as Htrans.
  destruct (Z.eqb_spec (major a) (major b)), (Z.eqb_spec (major b) (major c)),
    (Z.eqb_spec (major a) (major c)); cbn [negb]; try lia;
  destruct (Z.eqb_spec (minor a) (minor b)), (Z.eqb_spec (minor b) (minor c)),
    (Z.eqb_spec (minor a) (minor c)); cbn [negb]; try lia;
  destruct (Z.eqb_spec (patch a) (patch b)), (Z.eqb_spec (patch b) (patch c)),
    (Z.eqb_spec (patch a) (patch c)); cbn [negb]; lia || done.
Qed.

Lemma precedence_cong a a' b : precedence a = precedence a' -> compareParsed a b = compareParsed a' b.
Proof. intros [= E1 E2 E3 E4]. rewrite !compareParsed_steps. by rewrite E1, E2, E3, E4. Qed.

(** Version precedence is a strict total order on (major, minor, patch,
    prerelease): [compare] is 0 exactly when these agree, swapping the
    arguments reverses the sign, and it is transitive; build metadata plays
    no part. *)
Theorem semver_order (a b c : SemVer) :
  (compareParsed a b = 0 <-> precedence a = precedence b) /\
  (compareParsed a b < 0 <-> 0 < compareParsed b a) /\
  (compareParsed a b < 0 -> compareParsed b c < 0 -> compareParsed a c < 0).
Proof.
  split; [apply precedence_eq|]. split; [apply precedence_anti|apply precedence_trans].
Qed.

(** ** Ranges of a single token *)

Definition visible (c : Z) : bool := (33 <=? c) && (c <=? 126).
(** Text without white space, [|] or non-ASCII characters. *)
Definition token_text (s : jsstring) : Prop :=
  Forall (fun c => visible c = true /\ c <> 124) s.

Lemma token_ascii s : token_text s -> ascii s = true.
Proof.
  intros H. apply forallb_forall. intros c Hc%list_elem_of_In.
  eapply Forall_forall in H as [H _]; [|exact Hc]. unfold visible in H. lia.
Qed.

Lemma trim_token s : token_text s -> trim s = s.
Proof.
  assert (forall l, token_text l -> trimStart l = l) as Hstart.
  { intros l [|c l' [Hc _] _]; [done|]. cbn [trimStart]. replace (is_space c) with false; [done|].
    unfold visible in Hc. unfold is_space. lia. }
  intros H. unfold trim. rewrite (Hstart s H), Hstart by (by apply Forall_reverse).
  apply reverse_involutive.
Qed.

Lemma token_not_blank s : token_text s -> Forall (fun c => not_blank c = true) s.
Proof.
  intros H. eapply Forall_impl; [exact H|]. intros c [Hc _]. unfold not_blank, is_blank, visible in *. lia.
Qed.

Lemma make_token s : token_text s -> Scanner.make s = {| buf := s; offset := 0 |}.
Proof. intros H. unfold Scanner.make. by rewrite encode_ascii by by apply token_ascii. Qed.

Lemma tokenize_done fuel sc : (0 < fuel)%nat -> is_done sc = true -> tokenize fuel sc = Ok [].
Proof. destruct fuel; [lia|]. cbn [tokenize]. by intros _ ->. Qed.

Lemma tokenize_token s : token_text s -> s <> [] -> tokenizeRangeSet s = Ok [s].
Proof.
  intros H Hne. unfold tokenizeRangeSet. rewrite make_token by done. cbn [buf].
  destruct s as [|c s']; [done|]. set (s := c :: s') in *. cbn [tokenize length].
  assert (forall o, (o < length s)%nat -> is_done {| buf := s; offset := o |} = false) as Hnd.
  { intros o Ho. by apply Nat.leb_gt. }
  rewrite Hnd by (unfold s; simpl; lia).
  assert (is_blank c = false) as Hb.
  { apply token_not_blank in H. apply Forall_cons in H as [Hc _]. by apply negb_true_iff in Hc. }
  assert (skipWhitespace {| buf := s; offset := 0 |} = Ok (tt, {| buf := s; offset := 0 |})) as ->.
  { assert (span is_blank s = []) as Hs by (unfold s; cbn [span]; by rewrite Hb).
    unfold skipWhitespace, mbind, ST_bind, eatWhile.
    change (remaining_text {| buf := s; offset := 0 |}) with s. by rewrite Hs. }
  cbn [mbind res_bind]. rewrite Hnd by (unfold s; simpl; lia).
  assert (eatWhile not_blank {| buf := s; offset := 0 |} = Ok (s, {| buf := s; offset := length s |})) as ->.
  { unfold eatWhile. change (remaining_text {| buf := s; offset := 0 |}) with s.
    assert (span not_blank s = s) as Hs.
    { rewrite <- (app_nil_r s) at 1. by apply span_app; [apply token_not_blank|]. }
    by rewrite Hs. }
  cbn [mbind res_bind]. rewrite tokenize_done; [|unfold s; simpl; lia|apply Nat.leb_refl].
  unfold Scanner.text. cbn [buf offset mbind res_bind]. by rewrite Nat.sub_0_r, drop_0, take_ge.
Qed.

Lemma split_token fuel s o :
  token_text s -> (length s - o <= fuel)%nat -> (o <= length s)%nat ->
  split_branches fuel 0 {| buf := s; offset := o |} = (set ← parse_branch s; Ok [set]).
Proof.
  intros H. revert o. induction fuel as [|fuel IH]; intros o Hf Ho; cbn [split_branches];
    (destruct (decide (o = length s)) as [->|Hne];
     [unfold is_done, Scanner.text; cbn [buf offset];
      by rewrite Nat.leb_refl, Nat.sub_0_r, drop_0, take_ge|]); [lia|].
  unfold is_done at 1. cbn [buf offset]. replace (length s <=? o)%nat with false by (symmetry; apply Nat.leb_gt; lia).
  destruct (lookup_lt_is_Some_2 s o) as [c Ec]; [lia|].
  assert (drop o s = c :: drop (S o) s) as Ed by (by apply drop_S).
  assert (c <> 124) as Hc by (by eapply Forall_lookup_1 in H as [_ ?]; [|exact Ec]).
  unfold peek, eat, remaining_text. cbn [buf offset]. rewrite Ed.
  rewrite bool_decide_eq_false_2 by (simpl; intros [= ? _]; lia).
  cbn [take length mbind res_bind move buf offset]. unfold move. cbn [buf offset].
  rewrite Nat.add_1_r. apply IH; lia.
Qed.

Lemma parseRange_token tok cs :
  token_text tok -> partIsWildcard tok = false -> tok <> [] -> expandToken tok = Ok cs ->
  exists bases, parseRange tok =
    Ok (if bool_decide (cs = []) then [] else [{| comparators := cs; prereleaseBases := bases |}]).
Proof.
  intros H Hw Hne He. unfold parseRange. rewrite (trim_token tok H). unfold partIsWildcard in Hw.
  rewrite (trim_token tok H) in Hw. cbv zeta in Hw. rewrite Hw, make_token by done. cbv zeta. cbn [buf].
  rewrite split_token by (done || lia). unfold parse_branch. rewrite (trim_token tok H). cbv zeta.
  rewrite bool_decide_eq_false_2 by done. unfold normalizeHyphenRanges.
  rewrite tokenize_token by done. cbn [mbind res_bind length join_hyphens join].
  unfold parseRangeSet. rewrite trim_token, tokenize_token by done. cbn [mbind res_bind expand_tokens].
  rewrite He. cbn [mbind res_bind]. rewrite app_nil_r. eexists. f_equal.
  unfold partIsWildcard. rewrite (trim_token tok H). cbv zeta. rewrite Hw.
  rewrite filter_cons, filter_nil. cbn [comparators]. destruct (decide (cs = [])) as [->|Hcs].
  - rewrite decide_False by (by intros [?|?]). by rewrite bool_decide_eq_true_2.
  - rewrite decide_True by (by left). by rewrite bool_decide_eq_false_2.
Qed.

(** ** Partial versions that are complete *)

Definition version_parts (v : SemVer) : Parts :=
  {| p_major := dec_str (major v); p_minor := Some (dec_str (minor v));
     p_patch := Some (dec_str (patch v)); p_prerelease := map identifier_str (prerelease v) |}.

Lemma dec_not_wild n : 0 <= n -> isWildcard (Some (dec_str n)) = false.
Proof.
  intros Hn. destruct (dec_str_spec n Hn) as ([Hne Hd] & _ & _). simpl.
  apply bool_decide_eq_false. intros [E|[E|[E|E]]]; [done|..]; rewrite E in Hd;
    apply Forall_cons in Hd as [Hd _]; done.
Qed.

Lemma scans_xpart n : safe n ->
  scans (fun tl => starts_with isDigit tl = false) readXRangePart (dec_str n) (dec_str n).
Proof.
  intros Hn sc tl E Htl. destruct (dec_str_spec n) as ([Hne Hd] & _ & _); [unfold safe in Hn; lia|].
  unfold readXRangePart, peekCode. rewrite E. destruct (dec_str n) as [|c ds] eqn:Eds; [done|].
  apply Forall_cons in Hd as [Hc _]. unfold isDigit in Hc. cbn [app].
  replace (c =? 120) with false by lia. replace (c =? 88) with false by lia.
  replace (c =? 42) with false by lia. cbv beta iota zeta. cbn [orb]. rewrite <- Eds in *.
  by apply (scans_numeric n Hn sc tl).
Qed.

Lemma scans_partial v : semver_ok v -> build v = [] ->
  scans at_eof read_partial (formatSemVer v) (version_parts v).
Proof.
  intros (H1 & H2 & H3 & Hp & _ & _) Hb. destruct (identifiers_text _ Hp) as [Hacc _].
  unfold formatSemVer, baseKey. rewrite Hb. change (0 <? zlen []) with false. cbv iota.
  rewrite app_nil_r, <- !app_assoc. unfold read_partial.
  assert (zlen (prerelease v) = zlen (map identifier_str (prerelease v))) as ->
    by (unfold zlen; by rewrite length_map).
  set (pre := if 0 <? zlen (map identifier_str (prerelease v)) then _ else []).
  assert (forall tl, at_eof tl -> starts_with isDigit (pre ++ tl) = false) as Hend.
  { intros tl ->. rewrite app_nil_r. unfold pre. by destruct (0 <? _). }
  eapply scans_bind; [by apply scans_xpart|done|].
  apply (scans_bind (fun _ => True) at_eof _ _ _ _ true); [by apply (scans_char 46)|done|]. cbv iota.
  rewrite app_assoc, app_assoc.
  apply (scans_bind (fun tl => starts_with isDigit tl = false) at_eof _ _ _ _ (Some (dec_str (minor v)), Some (dec_str (patch v))));
    [|done|].
  - rewrite <- app_assoc. eapply scans_bind; [by apply scans_xpart|done|].
    apply (scans_bind (fun _ => True) _ _ _ _ _ true); [by apply (scans_char 46)|done|]. cbv iota.
    eapply scans_map; [by apply scans_xpart|done].
  - rewrite <- (app_nil_r pre).
    apply (scans_optional_then true 45 _ at_eof); [done|done|by intros tl ->|by intros tl ->|done|].
    apply scans_at_end.
Qed.

Lemma parsePartial_format v : semver_ok v -> build v = [] ->
  parsePartialVersion (formatSemVer v) = Ok (version_parts v).
Proof.
  intros Hv Hb. pose proof (format_plain v Hv) as Hp. unfold parsePartialVersion.
  rewrite trim_plain by done. rewrite (scans_partial v Hv Hb _ []); [done| |done].
  rewrite app_nil_r. by apply remaining_make, plain_ascii.
Qed.

Lemma toSemVer_parts v : semver_ok v -> build v = [] -> toSemVer (version_parts v) = v.
Proof.
  intros (H1 & H2 & H3 & Hp & _ & Hver) Hb. destruct (identifiers_text _ Hp) as [_ Hids].
  unfold toSemVer, version_parts, part_number. cbn [p_major p_minor p_patch p_prerelease].
  unfold safe in *. rewrite !dec_not_wild by lia. change (default [] (Some ?x)) with x.
  rewrite Hids. destruct (dec_str_spec (major v)) as (_ & -> & _); [lia|].
  destruct (dec_str_spec (minor v)) as (_ & -> & _); [lia|].
  destruct (dec_str_spec (patch v)) as (_ & -> & _); [lia|].
  unfold with_version. cbn [major minor patch prerelease build].
  destruct v as [ma mi pa pr bu ve]. cbn [major minor patch prerelease build version] in *.
  subst bu. by rewrite Hver.
Qed.

Lemma plain_token s : Forall (fun c => plain c = true) s -> token_text s.
Proof.
  intros H. eapply Forall_impl; [exact H|]. intros c Hc.
  unfold plain, isAlphaNumHyphen, isDigit in Hc. unfold visible. lia.
Qed.

(** A mark before a formatted version makes one token. *)
Lemma marked_range mark v l cs :
  (mark = 94 /\ caretComparators (formatSemVer l) = Ok cs \/
   mark = 126 /\ tildeComparators (formatSemVer l) = Ok cs) ->
  cs <> [] -> semver_ok v -> prerelease v = [] -> semver_ok l ->
  satisfies (formatSemVer v) (mark :: formatSemVer l) = Ok (forallb (testComparator v) cs).
Proof.
  intros Hm Hcs Hv Hpre Hl. set (tok := mark :: formatSemVer l).
  assert (mark = 94 \/ mark = 126) as Hmark by tauto.
  assert (token_text tok) as Ht.
  { constructor; [destruct Hmark as [->| ->]; by split|]. by apply plain_token, format_plain. }
  assert (partIsWildcard tok = false) as Hw.
  { unfold partIsWildcard. rewrite trim_token by done. apply bool_decide_eq_false.
    destruct Hmark as [->| ->]; intros [E|[E|E]]; discriminate. }
  assert (expandToken tok = Ok cs) as He.
  { unfold expandToken. rewrite bool_decide_eq_false_2.
    - destruct Hm as [[-> E]|[-> E]]; simpl; exact E.
    - destruct Hmark as [->| ->]; intros [E|[E|E]]; discriminate. }
  destruct (parseRange_token tok cs Ht Hw ltac:(done) He) as (bases & Hr).
  unfold satisfies. rewrite parse_format by done. cbn [mbind res_bind]. rewrite Hr. cbn [mbind res_bind].
  rewrite bool_decide_eq_false_2 by done. cbn [existsb]. unfold admits. cbn [comparators].
  rewrite Hpre. change (0 <? zlen []) with false. simpl. by rewrite andb_true_r, orb_false_r.
Qed.

(** Same as [lower] in every component up to the first that is not zero. *)
Definition caret_compatible (lower v : SemVer) : Prop :=
  if 0 <? major lower then major v = major lower
  else if 0 <? minor lower then major v = 0 /\ minor v = minor lower
  else major v = 0 /\ minor v = 0 /\ patch v = patch lower.

Lemma compare_stable v a b c :
  prerelease v = [] ->
  compareParsed v (with_version {| major := a; minor := b; patch := c; prerelease := []; build := [];
                                   version := [] |}) < 0 <->
  major v < a \/ (major v = a /\ (minor v < b \/ (minor v = b /\ patch v < c))).
Proof.
  intros Hv. rewrite compareParsed_steps. unfold with_version. cbn [major minor patch prerelease].
  rewrite Hv. simpl compare_tails.
  destruct (Z.eqb_spec (major v) a), (Z.eqb_spec (minor v) b), (Z.eqb_spec (patch v) c); cbn [negb]; lia.
Qed.

Lemma compare_major_le v l : 0 <= compareParsed v l ->
  major l < major v \/ (major v = major l /\ (minor l < minor v \/ (minor v = minor l /\ patch l <= patch v))).
Proof.
  rewrite compareParsed_steps.
  destruct (Z.eqb_spec (major v) (major l)), (Z.eqb_spec (minor v) (minor l)), (Z.eqb_spec (patch v) (patch l));
    cbn [negb]; lia.
Qed.

(** [^x.y.z] and [~x.y.z] select what they promise.  For a complete lower
    bound, possibly a prerelease, a release satisfies the caret range exactly
    when it is at least the bound and agrees with it up to the leftmost
    non-zero component, and the tilde range exactly when it is at least the
    bound and has the same major and minor numbers. *)
Theorem caret_tilde_ranges (v l : SemVer) :
  semver_ok v -> prerelease v = [] -> semver_ok l -> build l = [] ->
  (exists b, satisfies (formatSemVer v) (94 :: formatSemVer l) = Ok b /\
     (b = true <-> 0 <= compareParsed v l /\ caret_compatible l v)) /\
  (exists b, satisfies (formatSemVer v) (126 :: formatSemVer l) = Ok b /\
     (b = true <-> 0 <= compareParsed v l /\ major v = major l /\ minor v = minor l)).
Proof.
  intros Hv Hpre Hl Hb. pose proof Hl as (Hma & Hmi & Hpa & _). pose proof Hv as (Vma & Vmi & Vpa & _).
  unfold safe in *. split; eexists.
  - split; [eapply (marked_range 94); [left; split; [done|]; unfold caretComparators;
      rewrite parsePartial_format by done; cbn [mbind res_bind]; rewrite toSemVer_parts by done; reflexivity
      |done|done|done|done]|].
    unfold between. cbn [forallb]. unfold testComparator. cbn [op target]. rewrite andb_true_r.
    rewrite andb_true_iff, Z.leb_le, Z.ltb_lt. unfold caret_compatible.
    destruct (Z.ltb_spec 0 (major l)); [|destruct (Z.ltb_spec 0 (minor l))]; unfold increment;
      rewrite compare_stable by done;
      (split; intros [H1 H2]; (split; [done|]); apply compare_major_le in H1; lia).
  - split; [eapply (marked_range 126); [right; split; [done|]; unfold tildeComparators;
      rewrite parsePartial_format by done; cbn [mbind res_bind]; rewrite toSemVer_parts by done; reflexivity
      |done|done|done|done]|].
    unfold between. cbn [forallb]. unfold testComparator. cbn [op target]. rewrite andb_true_r.
    rewrite andb_true_iff, Z.leb_le, Z.ltb_lt. unfold version_parts. cbn [p_minor].
    rewrite dec_not_wild by lia. unfold increment. rewrite compare_stable by done.
    split; intros [H1 H2]; (split; [done|]); apply compare_major_le in H1; lia.
Qed.

Definition release (a b c : Z) : SemVer :=
  with_version {| major := a; minor := b; patch := c; prerelease := []; build := []; version := [] |}.

Lemma release_ok a b c : safe a -> safe b -> safe c -> semver_ok (release a b c).
Proof.
  intros Ha Hb Hc. unfold semver_ok, release, with_version. simpl.
  by repeat split; try apply Forall_nil; try apply Ha; try apply Hb; try apply Hc.
Qed.

Lemma caret_tilde_ranges_witness :
  let v := release 0 2 9 in let l := release 0 2 3 in
  (exists b, satisfies (formatSemVer v) (94 :: formatSemVer l) = Ok b /\
     (b = true <-> 0 <= compareParsed v l /\ caret_compatible l v)) /\
  (exists b, satisfies (formatSemVer v) (126 :: formatSemVer l) = Ok b /\
     (b = true <-> 0 <= compareParsed v l /\ major v = major l /\ minor v = minor l)).
Proof.
  apply (caret_tilde_ranges (release 0 2 9) (release 0 2 3)).
  - apply release_ok; unfold safe; lia.
  - reflexivity.
  - apply release_ok; unfold safe; lia.
  - reflexivity.
Defined.

(** ** The best match *)

Lemma satisfies_parse v range b : satisfies v range = Ok b -> exists p, parse v = Ok p.
Proof. unfold satisfies. intros (p & E & _)%res_bind_inv. by exists p. Qed.

(** Every version of [seen] that satisfies the range is at most [best]. *)
Definition best_of (seen : list jsstring) (range : jsstring) (best : option jsstring) : Prop :=
  match best with
  | None => forall v, v ∈ seen -> satisfies v range = Ok false
  | Some b => b ∈ seen /\ satisfies b range = Ok true /\
      forall v, v ∈ seen -> satisfies v range = Ok true -> exists c, compare v b = Ok c /\ c <= 0
  end.

Lemma compare_trans_le a b d x y :
  compare a b = Ok x -> compare b d = Ok y -> x <= 0 -> y < 0 -> exists z, compare a d = Ok z /\ z <= 0.
Proof.
  unfold compare. destruct (parse a) as [pa|]; [|done]. destruct (parse b) as [pb|]; [|done].
  destruct (parse d) as [pd|]; [|done]. intros [= <-] [= <-] Hx Hy. eexists. split; [reflexivity|].
  destruct (Z.eq_dec (compareParsed pa pb) 0) as [E|E].
  - apply precedence_eq in E. rewrite (precedence_cong _ _ pd E). lia.
  - pose proof (precedence_trans pa pb pd). lia.
Qed.

Lemma compare_self v range b : satisfies v range = Ok b -> compare v v = Ok 0.
Proof.
  intros (p & Hp)%satisfies_parse. unfold compare. rewrite Hp. cbn [mbind res_bind]. f_equal.
  by apply precedence_eq.
Qed.

Lemma compare_total v w range b c :
  satisfies v range = Ok b -> satisfies w range = Ok c -> exists x, compare v w = Ok x.
Proof.
  intros (p & Hp)%satisfies_parse (q & Hq)%satisfies_parse. exists (compareParsed p q).
  unfold compare. by rewrite Hp, Hq.
Qed.

Lemma best_of_skip seen range best v :
  best_of seen range best -> satisfies v range = Ok false -> best_of (seen ++ [v]) range best.
Proof.
  unfold best_of. intros H Hv. destruct best as [b|].
  - destruct H as (Hb & Hs & Hm). split; [set_solver|]. split; [done|].
    intros w [Hw| ->%list_elem_of_singleton]%elem_of_app Hws; [by apply Hm|congruence].
  - intros w [Hw| ->%list_elem_of_singleton]%elem_of_app; [by apply H|done].
Qed.

Lemma best_of_first seen range v :
  best_of seen range None -> satisfies v range = Ok true -> best_of (seen ++ [v]) range (Some v).
Proof.
  unfold best_of. intros H Hv. split; [set_solver|]. split; [done|].
  intros w [Hw| ->%list_elem_of_singleton]%elem_of_app Hws.
  - specialize (H w Hw). congruence.
  - exists 0. split; [by eapply compare_self|lia].
Qed.

Lemma best_of_step seen range b v c :
  best_of seen range (Some b) -> satisfies v range = Ok true -> compare v b = Ok c ->
  best_of (seen ++ [v]) range (if 0 <? c then Some v else Some b).
Proof.
  intros (Hb & Hs & Hm) Hv Hc. destruct (Z.ltb_spec 0 c) as [Hpos|Hneg].
  - split; [set_solver|]. split; [done|].
    intros w [Hw| ->%list_elem_of_singleton]%elem_of_app Hws.
    + destruct (Hm w Hw Hws) as (x & Hx & Hx0). destruct (compare_total b v range _ _ Hs Hv) as (y & Hy).
      eapply compare_trans_le; [exact Hx|exact Hy|done|].
      enough (0 < c -> y < 0) by lia. clear -Hc Hy. unfold compare in *.
      destruct (parse v) as [pv|]; [|done]. destruct (parse b) as [pb|]; [|done]. simplify_eq/=.
      pose proof (precedence_anti pb pv). lia.
    + exists 0. split; [by eapply compare_self|lia].
  - split; [set_solver|]. split; [done|].
    intros w [Hw| ->%list_elem_of_singleton]%elem_of_app Hws; [by apply Hm|by exists c].
Qed.

Lemma max_loop_spec versions range : forall seen best,
  best_of seen range best ->
  (forall v, v ∈ versions -> exists b, satisfies v range = Ok b) ->
  exists r, max_loop best versions range = Ok r /\ best_of (seen ++ versions) range r.
Proof.
  induction versions as [|v versions IH]; intros seen best Hbest Hall.
  - exists best. by rewrite app_nil_r.
  - destruct (Hall v) as [ok Hok]; [set_solver|].
    assert (forall u, u ∈ versions -> exists b, satisfies u range = Ok b) as Hrest by set_solver.
    cbn [max_loop]. rewrite Hok. cbn [mbind res_bind]. rewrite cons_middle, app_assoc.
    destruct ok; cbn [negb].
    + destruct best as [b|]; [|by apply IH; [apply best_of_first|]].
      destruct (compare_total v b range _ _ Hok (proj1 (proj2 Hbest))) as (c & Hc).
      rewrite Hc. cbn [mbind res_bind]. apply IH; [|done]. by eapply best_of_step.
    + apply IH; [|done]. by apply best_of_skip.
Qed.

(** [maxSatisfying] returns a maximum.  When every version and the range
    parse, the call returns; the result is [null] exactly when no listed
    version satisfies the range, and otherwise a listed version that satisfies
    it and that no other satisfying version exceeds. *)
Theorem maxSatisfying_maximum versions range :
  (forall v, v ∈ versions -> exists b, satisfies v range = Ok b) ->
  exists r, maxSatisfying versions range = Ok r /\ best_of versions range r.
Proof.
  intros H. apply (max_loop_spec versions range [] None); [|done]. by intros v Hv%not_elem_of_nil.
Qed.

Lemma maxSatisfying_maximum_witness :
  let versions := [js "1.0.0"; js "1.5.0"; js "2.0.0"] in
  exists r, maxSatisfying versions (js "^1.0.0") = Ok r /\ best_of versions (js "^1.0.0") r.
Proof.
  apply (maxSatisfying_maximum [js "1.0.0"; js "1.5.0"; js "2.0.0"] (js "^1.0.0")).
  apply Forall_forall. repeat apply Forall_cons_2; [..|by apply Forall_nil_2];
    first [exists true; vm_compute; reflexivity | exists false; vm_compute; reflexivity].
Defined.

(** A wildcard written [x] admits no version: [parseRange] drops every
    branch that expands to no comparator unless the whole range is empty, [*]
    or [latest], so the branch that should accept everything is lost, alone or
    beside another branch. *)
Theorem x_range_rejects_all v :
  satisfies (js "7.0.0") (js "1.x || *") = Ok false /\
  (semver_ok v -> satisfies (formatSemVer v) (js "x") = Ok false).
Proof.
  split; [vm_compute; reflexivity|]. intros Hv.
  unfold satisfies. rewrite parse_format by done. cbn [mbind res_bind].
  replace (parseRange (js "x")) with (Ok [] : res (list ComparatorSet)) by (vm_compute; reflexivity). done.
Qed.

(** A caret range whose minor or patch number is left out is read as if
    it were zero, so [^0] admits only [0.0.0] and [^0.0] too; [^1] and
    [^1.2.x] still span their major version. *)
Theorem caret_partial_ranges :
  caretComparators (js "0") = Ok (between (release 0 0 0) (release 0 0 1)) /\
  caretComparators (js "0.0") = Ok (between (release 0 0 0) (release 0 0 1)) /\
  caretComparators (js "0.0.x") = Ok (between (release 0 0 0) (release 0 0 1)) /\
  caretComparators (js "1.2.x") = Ok (between (release 1 2 0) (release 2 0 0)) /\
  satisfies (js "0.5.0") (js "^0") = Ok false.
Proof. vm_compute. done. Qed.
End Semver.
