(* ===== verification/Path.v ===== *)
(** Path strings (src/js/file/path.ts): normalisation, joining, resolution,
    relative paths, directory and base names.

    The constants depend on the operating system that the host reports;
    [windows] says whether it is Windows.  [walk] is the specification: the
    directory reached by following a path from a directory, both lists of
    names below the root.  The theorems are about POSIX paths. *)

From S2P Require Import Prelude.

Module Path.
Section path.
Context (windows : bool).

Definition SEP : jsstring := if windows then js "\" else js "/".
(** A character of [SEP_RE]. *)
Definition is_sep (c : Z) : bool := (c =? 47) || (windows && (c =? 92)).
Definition is_letter (c : Z) : bool := ((65 <=? c) && (c <=? 90)) || ((97 <=? c) && (c <=? 122)).
(** [IS_ABS_RE.test(p)] *)
Definition is_abs (p : jsstring) : bool :=
  match p with
  | [] => false
  | c :: p' =>
      is_sep c ||
      (windows && is_letter c &&
       match p' with d :: c' :: _ => (d =? 58) && is_sep c' | _ => false end)
  end.

(** [p.split(SEP_RE)]: a run of separators is one; [in_run] says that the last
    character was one. *)
Fixpoint split_seps (in_run : bool) (cur p : jsstring) : list jsstring :=
  match p with
  | [] => [cur]
  | c :: p =>
      if is_sep c then if in_run then split_seps true cur p else cur :: split_seps true [] p
      else split_seps false (cur ++ [c]) p
  end.
Definition split (p : jsstring) : list jsstring := split_seps false [] p.

Definition endsWith (p s : jsstring) : bool := bool_decide (suffix s p).

Definition push_segment (isAbsolute : bool) (out : list jsstring) (seg : jsstring) : list jsstring :=
  if bool_decide (seg = [] \/ seg = js ".") then out
  else if bool_decide (seg = js "..") then
    match last out with
    | Some l => if bool_decide (l <> js "..") then removelast out
                else if negb isAbsolute then out ++ [js ".."] else out
    | None => if negb isAbsolute then out ++ [js ".."] else out
    end
  else out ++ [seg].
Definition trailing_slash (p : jsstring) : bool := endsWith p (js "/") || (windows && endsWith p (js "\")).
(** The lines of [_normalize] after its loop. *)
Definition render (isAbsolute trailingSlash : bool) (out : list jsstring) : jsstring :=
  let result := join SEP out in
  let result := if isAbsolute then SEP ++ result else result in
  let result := if trailingSlash && bool_decide (result <> SEP) then result ++ SEP else result in
  if bool_decide (result = []) then js "." else result.
Definition normalize (p : jsstring) : jsstring :=
  if zlen p =? 0 then js "."
  else
    let isAbsolute := is_abs p in
    let trailingSlash := trailing_slash p in
    render isAbsolute trailingSlash (foldl (push_segment isAbsolute) [] (split p)).

Definition add_part (joined part : jsstring) : jsstring :=
  if zlen part =? 0 then joined
  else if zlen joined =? 0 then part
  else joined ++ SEP ++ part.
Definition join_paths (parts : list jsstring) : jsstring :=
  if zlen parts =? 0 then js "."
  else
    let joined := foldl add_part [] parts in
    if zlen joined =? 0 then js "." else normalize joined.

(** The loop from the last part to the first, given in that order. *)
Fixpoint resolve_parts (resolved : jsstring) (parts : list jsstring) : jsstring :=
  match parts with
  | [] => resolved
  | part :: parts =>
      if zlen part =? 0 then resolve_parts resolved parts
      else
        let resolved := if zlen resolved =? 0 then part else part ++ SEP ++ resolved in
        if is_abs part then resolved else resolve_parts resolved parts
  end.
Definition resolve (parts : list jsstring) : jsstring := normalize (resolve_parts [] (reverse parts)).

(** [.split(SEP_RE).filter(Boolean)] *)
Definition names (p : jsstring) : list jsstring := base.filter (fun s => s <> []) (split p).

Fixpoint common_length (a b : list jsstring) : nat :=
  match a, b with
  | x :: a, y :: b => if bool_decide (x = y) then S (common_length a b) else 0
  | _, _ => 0
  end.
(** The method of [to]: [to.relative(from)]. *)
Definition relative (from to : jsstring) : jsstring :=
  let fromParts := names (normalize from) in
  let toParts := names (normalize to) in
  let common := common_length fromParts toParts in
  let ups := (length fromParts - common)%nat in
  let parts := replicate ups (js "..") ++ drop common toParts in
  if zlen parts =? 0 then js "." else join SEP parts.

(** [p.lastIndexOf(c, from)], with -1 for none. *)
Fixpoint last_index (c : Z) (p : jsstring) (from : nat) : Z :=
  match p !! from with
  | Some c' =>
      if c' =? c then Z.of_nat from
      else match from with O => -1 | S from => last_index c p from end
  | None => match from with O => -1 | S from => last_index c p from end
  end.
Definition last_sep (p : jsstring) (from : nat) : Z :=
  Z.max (last_index 47 p from) (if windows then last_index 92 p from else -1).
(** [while (end > 1 && p[end - 1] is a separator) end--] *)
Fixpoint strip_seps (p : jsstring) (end_ : nat) : nat :=
  match end_ with
  | S (S _ as e) => match p !! e with Some c => if is_sep c then strip_seps p e else end_ | None => end_ end
  | _ => end_
  end.
Definition dirname (p : jsstring) : jsstring :=
  let end_ := strip_seps p (length p) in
  let idx := last_sep p (end_ - 1) in
  if idx <? 0 then js "." else if idx =? 0 then SEP else take (Z.to_nat idx) p.
Definition basename (p : jsstring) (suffix : option jsstring) : jsstring :=
  let p := take (strip_seps p (length p)) p in
  let idx := last_sep p (length p) in
  let base := if 0 <=? idx then drop (Z.to_nat (idx + 1)) p else p in
  match suffix with
  | Some s => if negb (zlen s =? 0) && endsWith base s
              then take (length base - length s) base else base
  | None => base
  end.
Definition extname (p : jsstring) : jsstring :=
  let base := basename p None in
  let dot := last_index 46 base (length base) in
  if dot <=? 0 then [] else drop (Z.to_nat dot) base.

(** The specification.  A directory is the list of the names from the root
    down to it; a segment leads from one to the next. *)
Definition walk_seg (at_ : list jsstring) (seg : jsstring) : list jsstring :=
  if bool_decide (seg = [] \/ seg = js ".") then at_
  else if bool_decide (seg = js "..") then removelast at_
  else at_ ++ [seg].
Definition walk (at_ : list jsstring) (p : jsstring) : list jsstring :=
  foldl walk_seg (if is_abs p then [] else at_) (names p).

(** ** Splitting *)
Definition emit (cur : jsstring) : list jsstring := if bool_decide (cur = []) then [] else [cur].
Fixpoint words (cur p : jsstring) : list jsstring :=
  match p with
  | [] => emit cur
  | c :: p => if is_sep c then emit cur ++ words [] p else words (cur ++ [c]) p
  end.

Lemma filter_emit cur l : base.filter (fun s => s <> []) (cur :: l) = emit cur ++ base.filter (fun s => s <> []) l.
Proof. unfold emit. rewrite filter_cons. case_bool_decide; case_decide; naive_solver. Qed.

Lemma split_words p in_run cur :
  (in_run = true -> cur = []) -> base.filter (fun s => s <> []) (split_seps in_run cur p) = words cur p.
Proof.
  revert in_run cur. induction p as [|c p IH]; intros in_run cur H; cbn [split_seps words].
  - rewrite filter_emit. rewrite filter_nil. apply app_nil_r.
  - destruct (is_sep c); [|apply IH; discriminate].
    destruct in_run; [rewrite (H eq_refl); apply IH; done|].
    rewrite filter_emit. f_equal. apply IH. done.
Qed.

Lemma names_words p : names p = words [] p.
Proof. apply split_words. done. Qed.

Lemma words_sep cur a c b : is_sep c = true -> words cur (a ++ c :: b) = words cur a ++ words [] b.
Proof.
  intros Hc. revert cur. induction a as [|x a IH]; intros cur; cbn [words app].
  - by rewrite Hc.
  - destruct (is_sep x); rewrite IH; [by rewrite <- app_assoc|done].
Qed.

Definition sep_free (s : jsstring) : Prop := Forall (fun c => is_sep c = false) s.

Lemma words_sep_free s cur : sep_free s -> words cur s = emit (cur ++ s).
Proof.
  intros H. revert cur. induction H as [|c s Hc _ IH]; intros cur; cbn [words].
  - by rewrite app_nil_r.
  - rewrite Hc, IH. by rewrite <- app_assoc.
Qed.

Lemma words_segments p cur : sep_free cur -> Forall (fun s => s <> [] /\ sep_free s) (words cur p).
Proof.
  assert (E : forall s, sep_free s -> Forall (fun s => s <> [] /\ sep_free s) (emit s)).
  { intros s Hs. unfold emit. case_bool_decide; constructor; auto. }
  revert cur. induction p as [|c p IH]; intros cur H; cbn [words]; [auto|].
  destruct (is_sep c) eqn:Hc.
  - apply Forall_app. split; [auto|]. apply IH. constructor.
  - apply IH. apply Forall_app. repeat constructor; auto.
Qed.

Lemma names_segments p : Forall (fun s => s <> [] /\ sep_free s) (names p).
Proof. rewrite names_words. apply words_segments. constructor. Qed.

Lemma is_sep_SEP : exists c, SEP = [c] /\ is_sep c = true.
Proof. unfold SEP, is_sep. destruct windows; eexists; split; reflexivity. Qed.

Lemma names_sep a b : names (a ++ SEP ++ b) = names a ++ names b.
Proof. destruct is_sep_SEP as (c & -> & Hc). rewrite !names_words. by apply words_sep. Qed.

Lemma names_nil : names [] = [].
Proof. reflexivity. Qed.

Lemma names_lead b : names (SEP ++ b) = names b.
Proof. apply (names_sep []). Qed.

Lemma names_trail a : names (a ++ SEP) = names a.
Proof. rewrite <- (app_nil_r SEP), names_sep, names_nil. apply app_nil_r. Qed.

Lemma names_segment s : s <> [] -> sep_free s -> names s = [s].
Proof.
  intros Hs H. rewrite names_words, words_sep_free by done. unfold emit. cbn [app].
  by rewrite bool_decide_false.
Qed.

Lemma names_join out : Forall (fun s => s <> [] /\ sep_free s) out -> names (join SEP out) = out.
Proof.
  induction 1 as [|s out [Hs Hf] _ IH]; [done|]. cbn [join].
  destruct out as [|s' out]; [by apply names_segment|].
  by rewrite names_sep, IH, names_segment.
Qed.

(** The empty segments that [names] drops change neither fold. *)
Lemma foldl_names {A} (f : A -> jsstring -> A) a l :
  (forall x, f x [] = x) -> foldl f a (base.filter (fun s => s <> []) l) = foldl f a l.
Proof.
  intros H. revert a. induction l as [|s l IH]; intros a; [done|].
  rewrite filter_cons. case_decide as E; cbn [foldl]; [apply IH|].
  destruct s; [|naive_solver]. rewrite H. apply IH.
Qed.

Lemma push_names abs p : foldl (push_segment abs) [] (split p) = foldl (push_segment abs) [] (names p).
Proof. symmetry. by apply foldl_names. Qed.
End path.

(** ** Normal forms *)
Definition segment (s : jsstring) : Prop := s <> [] /\ s <> js "." /\ sep_free false s.
(** The loop leaves its own result alone. *)
Definition normal (abs : bool) (out : list jsstring) : Prop :=
  Forall segment out /\ foldl (push_segment abs) [] out = out.

Lemma push_cases abs out seg :
  (seg = [] \/ seg = js ".") /\ push_segment abs out seg = out \/
  seg = js ".." /\ (exists o l, out = o ++ [l] /\ l <> js ".." /\ push_segment abs out seg = o) \/
  seg = js ".." /\ abs = true /\ (out = [] \/ exists o, out = o ++ [js ".."]) /\ push_segment abs out seg = out \/
  ~ (seg = [] \/ seg = js ".") /\ (seg = js ".." -> abs = false) /\ push_segment abs out seg = out ++ [seg].
Proof.
  unfold push_segment. case_bool_decide as H0; [by left|]. right.
  case_bool_decide as H1; [|right; right; naive_solver]. subst seg.
  destruct out as [|l o _] using rev_ind.
  - right. destruct abs; [left|right]; naive_solver.
  - rewrite last_snoc. case_bool_decide as H2.
    + left. split; [done|]. exists o, l. by rewrite removelast_last.
    + subst l. right. destruct abs; [left|right]; naive_solver.
Qed.

Lemma push_snoc abs out seg : segment seg -> seg <> js ".." -> push_segment abs out seg = out ++ [seg].
Proof. intros (? & ? & _) ?. unfold push_segment. by rewrite !bool_decide_false by tauto. Qed.

Lemma push_normal abs out seg :
  normal abs out -> (seg = [] \/ sep_free false seg) -> normal abs (push_segment abs out seg).
Proof.
  intros [Hs Hf] Hseg.
  destruct (push_cases abs out seg) as [[_ ->]|[(-> & o & l & -> & Hl & ->)|[(_ & _ & _ & ->)|(Hn & _ & E)]]];
    [done| |done|].
  - apply Forall_app in Hs as [Ho Hl']. rewrite Forall_singleton in Hl'. split; [done|].
    rewrite foldl_app in Hf. cbn [foldl] in Hf. rewrite push_snoc in Hf by assumption.
    by apply app_inj_tail in Hf as [-> _].
  - rewrite E. split.
    + apply Forall_app. split; [done|]. apply Forall_singleton. split; [naive_solver|]. split; [naive_solver|].
      destruct Hseg as [->|]; [naive_solver|done].
    + rewrite foldl_app, Hf. exact E.
Qed.

Lemma fold_normal abs segs out :
  normal abs out -> Forall (fun s => s <> [] /\ sep_free false s) segs ->
  normal abs (foldl (push_segment abs) out segs).
Proof.
  intros H Hs. revert out H. induction Hs as [|s segs [_ Hs] _ IH]; intros out H; [done|].
  apply IH, push_normal; auto.
Qed.

Definition segments_of (p : jsstring) : list jsstring :=
  foldl (push_segment (is_abs false p)) [] (names false p).

Lemma segments_normal p : normal (is_abs false p) (segments_of p).
Proof. apply fold_normal; [split; [constructor|done]|apply names_segments]. Qed.

Lemma normalize_render p :
  p <> [] -> normalize false p = render false (is_abs false p) (trailing_slash false p) (segments_of p).
Proof. intros Hp. unfold normalize. rewrite push_names. destruct p; [done|reflexivity]. Qed.

Lemma segment_names out : Forall segment out -> Forall (fun s => s <> [] /\ sep_free false s) out.
Proof. intros H. eapply Forall_impl; [exact H|]. unfold segment. naive_solver. Qed.

Lemma join_first out :
  out <> [] -> Forall segment out -> exists c j, join (SEP false) out = c :: j /\ is_sep false c = false.
Proof.
  intros H Hs. destruct Hs as [|s out (Hs & _ & Hf) _]; [done|].
  destruct Hf as [|c s Hc _]; [done|]. destruct out; eexists _, _; split; done.
Qed.

Lemma join_last out :
  out <> [] -> Forall segment out -> exists j c, join (SEP false) out = j ++ [c] /\ is_sep false c = false.
Proof.
  intros H Hs. induction Hs as [|s out (Hs & _ & Hf) _ IH]; [done|].
  destruct out as [|s' out].
  - destruct s as [|c s _] using rev_ind; [done|]. apply Forall_app in Hf as [_ Hf].
    rewrite Forall_singleton in Hf. by exists s, c.
  - destruct IH as (j & c & E & Hc); [done|]. exists (s ++ SEP false ++ j), c. split; [|done].
    cbn [join] in *. by rewrite E, <- !app_assoc.
Qed.

Lemma endsWith_snoc p c d : endsWith (p ++ [c]) [d] = (c =? d).
Proof.
  unfold endsWith. destruct (c =? d) eqn:E.
  - apply bool_decide_true. exists p. f_equal. f_equal. lia.
  - apply bool_decide_false. intros [q Hq]. apply app_inj_tail in Hq as [_ ->]. lia.
Qed.

Lemma trailing_snoc p c : trailing_slash false (p ++ [c]) = is_sep false c.
Proof. unfold trailing_slash, is_sep. cbn [andb]. rewrite !orb_false_r. apply endsWith_snoc. Qed.

Lemma join_nil_inv out : Forall segment out -> join (SEP false) out = [] -> out = [].
Proof.
  intros Hs E. destruct out as [|s out]; [done|].
  destruct (join_first (s :: out)) as (c & j & E' & _); [done..|]. congruence.
Qed.

(** What [render] gives, for segments that do not cancel. *)
Lemma render_eq abs t out :
  out <> [] -> Forall segment out ->
  render false abs t out =
  (if abs then SEP false else []) ++ join (SEP false) out ++ (if t then SEP false else []).
Proof.
  intros H Hs. unfold render. destruct (join_first out) as (c & j & E & Hc); [done..|]. rewrite E.
  assert (Hc' : c <> 47) by (intros ->; done).
  destruct abs, t; cbn; rewrite ?app_nil_r; repeat case_bool_decide; try done.
  exfalso. change (SEP false) with [47] in *. naive_solver.
Qed.

Lemma render_abs abs t out : out <> [] -> Forall segment out -> is_abs false (render false abs t out) = abs.
Proof.
  intros H Hs. rewrite render_eq by done. destruct (join_first out) as (c & j & E & Hc); [done..|].
  rewrite E. destruct abs; [done|]. cbn [app is_abs]. by rewrite Hc.
Qed.

Lemma render_trailing abs t out :
  out <> [] -> Forall segment out -> trailing_slash false (render false abs t out) = t.
Proof.
  intros H Hs. rewrite render_eq by done. destruct t.
  - rewrite app_assoc. apply trailing_snoc.
  - destruct (join_last out) as (j & c & E & Hc); [done..|].
    by rewrite app_nil_r, E, app_assoc, trailing_snoc.
Qed.

Lemma render_names abs t out :
  out <> [] -> Forall segment out -> names false (render false abs t out) = out.
Proof.
  intros H Hs. rewrite render_eq by done.
  assert (E : names false (join (SEP false) out) = out) by (apply names_join, segment_names, Hs).
  destruct abs, t; rewrite ?app_nil_r, ?app_nil_l, ?names_lead, ?names_trail; done.
Qed.

Lemma render_segments abs t out :
  out <> [] -> Forall segment out ->
  segments_of (render false abs t out) = foldl (push_segment abs) [] out.
Proof. intros. unfold segments_of. by rewrite render_abs, render_names. Qed.

(** ** Walking *)
Lemma walk_seg_name at_ s : segment s -> s <> js ".." -> walk_seg at_ s = at_ ++ [s].
Proof. intros (? & ? & _) ?. unfold walk_seg. by rewrite !bool_decide_false by tauto. Qed.

Definition no_ups (out : list jsstring) : Prop := Forall (fun s => s <> js "..") out.

Lemma push_no_ups out seg : no_ups out -> no_ups (push_segment true out seg).
Proof.
  unfold no_ups. intros H.
  destruct (push_cases true out seg) as [[_ ->]|[(_ & o & l & -> & _ & ->)|[(_ & _ & _ & ->)|(_ & Hu & ->)]]];
    [done| |done|].
  - by apply Forall_app in H as [? _].
  - apply Forall_app. split; [done|]. apply Forall_singleton. naive_solver.
Qed.

Lemma push_walk abs base out seg :
  Forall segment out -> (abs = true -> base = [] /\ no_ups out) ->
  foldl walk_seg base (push_segment abs out seg) = walk_seg (foldl walk_seg base out) seg.
Proof.
  intros Hs Ha.
  destruct (push_cases abs out seg) as [[Hn ->]|[(-> & o & l & -> & Hl & ->)|[(-> & E & Ho & ->)|(_ & _ & ->)]]].
  - unfold walk_seg at 2. by rewrite bool_decide_true.
  - apply Forall_app in Hs as [_ Hs]. rewrite Forall_singleton in Hs.
    rewrite foldl_app. cbn [foldl]. rewrite (walk_seg_name _ l) by done.
    unfold walk_seg at 2. cbn. by rewrite removelast_last.
  - destruct (Ha E) as [-> Hu]. destruct Ho as [->|[o ->]]; [done|].
    apply Forall_app in Hu as [_ Hu]. rewrite Forall_singleton in Hu. done.
  - by rewrite foldl_app.
Qed.

Lemma fold_push_walk abs base segs out :
  normal abs out -> (abs = true -> base = [] /\ no_ups out) ->
  Forall (fun s => s <> [] /\ sep_free false s) segs ->
  foldl walk_seg base (foldl (push_segment abs) out segs) = foldl walk_seg (foldl walk_seg base out) segs.
Proof.
  intros H Ha Hs. revert out H Ha. induction Hs as [|s segs [_ Hs] _ IH]; intros out H Ha; [done|].
  cbn [foldl]. rewrite IH.
  - by rewrite push_walk by (apply H || done).
  - apply push_normal; auto.
  - intros ->. destruct Ha as [-> Ha]; [done|]. auto using push_no_ups.
Qed.

(** The segments that the loop leaves lead where the path leads. *)
Lemma walk_segments base p :
  foldl walk_seg (if is_abs false p then [] else base) (segments_of p) = walk false base p.
Proof.
  unfold segments_of, walk. rewrite fold_push_walk; [done|split; [constructor|done]| |apply names_segments].
  intros ->. split; [done|constructor].
Qed.

Lemma segments_no_ups p : is_abs false p = true -> no_ups (segments_of p).
Proof.
  unfold segments_of. intros ->.
  assert (G : forall l out, no_ups out -> no_ups (foldl (push_segment true) out l)).
  { induction l; cbn; auto using push_no_ups. }
  apply G. constructor.
Qed.

Lemma walk_names at_ l : Forall segment l -> no_ups l -> foldl walk_seg at_ l = at_ ++ l.
Proof.
  intros Hs Hu. revert at_. induction Hs as [|s l Hs _ IH]; intros at_; cbn [foldl]; [by rewrite app_nil_r|].
  apply Forall_cons_1 in Hu as [Hu Hl]. rewrite walk_seg_name, IH by done. by rewrite <- app_assoc.
Qed.

(** The path cancels to nothing. *)
Lemma segments_nil p :
  p <> [] -> segments_of p = [] ->
  normalize false p = if is_abs false p || trailing_slash false p then js "/" else js ".".
Proof.
  intros Hp E. rewrite normalize_render, E by done.
  by destruct (is_abs false p), (trailing_slash false p).
Qed.

Lemma normalize_walk base p :
  is_abs false (normalize false p) = is_abs false p -> walk false base (normalize false p) = walk false base p.
Proof.
  intros Ha. destruct (decide (p = [])) as [->|Hp]; [done|].
  pose proof (walk_segments base p) as Hw. pose proof (segments_normal p) as [Hs _].
  destruct (decide (segments_of p = [])) as [E|E].
  - rewrite segments_nil in * by done. rewrite E in Hw. rewrite <- Hw.
    destruct (is_abs false p), (trailing_slash false p); done.
  - unfold walk at 1. rewrite Ha. rewrite normalize_render, render_names by done. exact Hw.
Qed.

Lemma normalize_is_abs p : is_abs false p = true -> is_abs false (normalize false p) = true.
Proof.
  intros Ha. assert (Hp : p <> []) by (intros ->; done).
  destruct (decide (segments_of p = [])) as [E|E].
  - by rewrite segments_nil, Ha by done.
  - rewrite normalize_render, render_abs by (done || apply segments_normal). done.
Qed.

(** ** Theorems *)
(** [normalize] is idempotent: a normalised path has no further redundant
    separators and no [.] or [..] left to resolve, and its trailing separator
    and its leading [..] segments are kept. *)
Theorem normalize_idempotent p : normalize false (normalize false p) = normalize false p.
Proof.
  destruct (decide (p = [])) as [->|Hp]; [done|].
  pose proof (segments_normal p) as [Hs Hf].
  destruct (decide (segments_of p = [])) as [E|E].
  - rewrite (segments_nil p) by done. by destruct (is_abs false p || trailing_slash false p).
  - rewrite (normalize_render p) by done.
    rewrite normalize_render.
    + by rewrite render_segments, render_abs, render_trailing, Hf by done.
    + intros E'. pose proof (render_names (is_abs false p) (trailing_slash false p) _ E Hs) as En.
      apply E. by rewrite <- En, E'.
Qed.

(** Normalising does not change where a path leads, from any directory,
    as long as it does not change whether the path is absolute. *)
Theorem normalize_meaning at_ p :
  is_abs false (normalize false p) = is_abs false p ->
  walk false at_ (normalize false p) = walk false at_ p.
Proof. apply normalize_walk. Qed.

Lemma normalize_meaning_witness :
  let p := js "../a//b/./../c/" in
  normalize false p = js "../a/c/" /\
  walk false [js "x"; js "y"] (normalize false p) = walk false [js "x"; js "y"] p.
Proof. split; [vm_compute; reflexivity|]. apply normalize_meaning. vm_compute. reflexivity. Defined.

(** Exactly one kind of path changes its meaning: a relative path that
    ends in a separator and whose segments cancel, such as [./] or [a/../],
    becomes the root directory. *)
Theorem normalize_escapes p :
  is_abs false (normalize false p) <> is_abs false p <->
  is_abs false p = false /\ trailing_slash false p = true /\ segments_of p = [] /\ normalize false p = js "/".
Proof.
  destruct (decide (p = [])) as [->|Hp]; [vm_compute; naive_solver|].
  destruct (decide (segments_of p = [])) as [E|E].
  - rewrite segments_nil by done.
    destruct (is_abs false p), (trailing_slash false p); vm_compute; naive_solver.
  - rewrite normalize_render, render_abs by (done || apply segments_normal). naive_solver.
Qed.

(** ** Resolution *)
Lemma is_abs_app a b : a <> [] -> is_abs false (a ++ b) = is_abs false a.
Proof. by destruct a. Qed.

Lemma walk_app at_ a b :
  a <> [] -> is_abs false b = false -> walk false at_ (a ++ SEP false ++ b) = walk false (walk false at_ a) b.
Proof. intros Ha Hb. unfold walk. by rewrite names_sep, foldl_app, Hb, is_abs_app. Qed.

Lemma walk_absolute at_ at' p : is_abs false p = true -> walk false at_ p = walk false at' p.
Proof. intros H. unfold walk. by rewrite H. Qed.

Lemma zlen_nil {A} (l : list A) : zlen l =? 0 = bool_decide (l = []).
Proof. destruct l; reflexivity. Qed.

Lemma resolve_parts_walk parts resolved at_ :
  is_abs false resolved = false ->
  walk false at_ (resolve_parts false resolved parts) =
  walk false (foldl (walk false) at_ (reverse parts)) resolved.
Proof.
  revert resolved. induction parts as [|part parts IH]; intros resolved H; [done|].
  cbn [resolve_parts]. rewrite reverse_cons, foldl_app. cbn [foldl]. rewrite !zlen_nil.
  case_bool_decide as Hp; [subst; by apply IH|].
  set (at' := foldl _ at_ _).
  assert (E : walk false at' (if bool_decide (resolved = []) then part else part ++ SEP false ++ resolved)
              = walk false (walk false at' part) resolved).
  { case_bool_decide; [subst; done|]. by apply walk_app. }
  assert (A : is_abs false (if bool_decide (resolved = []) then part else part ++ SEP false ++ resolved)
              = is_abs false part) by (case_bool_decide; auto using is_abs_app).
  destruct (is_abs false part) eqn:Ha.
  - rewrite <- E. apply walk_absolute, A.
  - rewrite IH by done. exact E.
Qed.

Lemma resolve_parts_abs parts resolved :
  is_abs false resolved = false ->
  is_abs false (resolve_parts false resolved parts) = existsb (is_abs false) parts.
Proof.
  revert resolved. induction parts as [|part parts IH]; intros resolved H; [done|].
  cbn [resolve_parts existsb]. rewrite !zlen_nil.
  case_bool_decide as Hp; [subst; by apply IH|].
  assert (A : is_abs false (if bool_decide (resolved = []) then part else part ++ SEP false ++ resolved)
              = is_abs false part) by (case_bool_decide; auto using is_abs_app).
  destruct (is_abs false part) eqn:Ha; [done|]. by apply IH.
Qed.

(** C40: resolving paths, one of which is absolute, gives an absolute path to
    the directory reached by following them one after the other, whatever the
    directory one starts from. *)
Theorem resolve_walks at_ parts :
  existsb (is_abs false) parts = true ->
  is_abs false (resolve false parts) = true /\
  walk false at_ (resolve false parts) = foldl (walk false) at_ parts.
Proof.
  intros H. unfold resolve.
  assert (A : is_abs false (resolve_parts false [] (reverse parts)) = true).
  { rewrite resolve_parts_abs by done. apply existsb_exists in H as (p & Hp & Ha).
    apply existsb_exists. exists p. split; [|done]. apply list_elem_of_In. apply list_elem_of_In in Hp. by apply elem_of_reverse. }
  split; [by apply normalize_is_abs|].
  rewrite normalize_walk by (rewrite A; by apply normalize_is_abs).
  by rewrite resolve_parts_walk, reverse_involutive.
Qed.

Lemma resolve_walks_witness :
  is_abs false (resolve false [js "x"; js "/srv/www/"; []; js "../assets"; js "app.js"]) = true /\
  walk false [js "home"] (resolve false [js "x"; js "/srv/www/"; []; js "../assets"; js "app.js"]) =
  [js "srv"; js "assets"; js "app.js"].
Proof.
  destruct (resolve_walks [js "home"] [js "x"; js "/srv/www/"; []; js "../assets"; js "app.js"]) as [H1 H2];
    [vm_compute; reflexivity|].
  split; [exact H1|]. rewrite H2. vm_compute. reflexivity.
Defined.

(** ** Joining *)
Lemma add_parts_names parts joined :
  names false (foldl (add_part false) joined parts) = names false joined ++ concat (map (names false) parts).
Proof.
  revert joined. induction parts as [|p parts IH]; intros joined; [by rewrite app_nil_r|].
  cbn [foldl concat map]. rewrite IH, app_assoc. f_equal. unfold add_part. rewrite !zlen_nil.
  repeat case_bool_decide; subst; [by rewrite app_nil_r|done|apply names_sep].
Qed.

Lemma add_parts_abs parts joined :
  is_abs false joined = true -> is_abs false (foldl (add_part false) joined parts) = true.
Proof.
  revert joined. induction parts as [|p parts IH]; intros joined H; [done|].
  apply IH. unfold add_part. rewrite !zlen_nil. repeat case_bool_decide; subst; [done|done|].
  by rewrite is_abs_app.
Qed.

(** Joining onto an absolute path follows every segment of every part in
    turn; an absolute later part is not a reset. *)
Theorem join_walks at_ p parts :
  is_abs false p = true ->
  is_abs false (join_paths false (p :: parts)) = true /\
  walk false at_ (join_paths false (p :: parts)) =
  foldl walk_seg [] (concat (map (names false) (p :: parts))).
Proof.
  intros H. assert (Hp : p <> []) by (intros ->; done).
  assert (E : foldl (add_part false) [] (p :: parts) = foldl (add_part false) p parts).
  { cbn [foldl]. f_equal. unfold add_part. rewrite zlen_nil. by rewrite bool_decide_false. }
  pose proof (add_parts_abs parts p H) as A.
  unfold join_paths. cbv zeta. rewrite E, !zlen_nil. rewrite !bool_decide_false; [| |done].
  2: { intros E'. rewrite E' in A. done. }
  split; [by apply normalize_is_abs|].
  rewrite normalize_walk by (rewrite A; by apply normalize_is_abs).
  unfold walk. by rewrite A, add_parts_names.
Qed.

Lemma join_walks_witness :
  walk false [] (join_paths false [js "/tmp"; js "build"; []; js ".."; js "/dist/app.js"]) =
  [js "tmp"; js "dist"; js "app.js"].
Proof.
  destruct (join_walks [] (js "/tmp") [js "build"; []; js ".."; js "/dist/app.js"]) as [_ H];
    [vm_compute; reflexivity|].
  rewrite H. vm_compute. reflexivity.
Defined.

(** ** Relative paths *)
Lemma common_take a b : take (common_length a b) a = take (common_length a b) b.
Proof.
  revert b. induction a as [|x a IH]; intros [|y b]; cbn; try done.
  case_bool_decide; subst; cbn; [by rewrite IH|done].
Qed.

Lemma walk_ups n at_ : foldl walk_seg at_ (replicate n (js "..")) = take (length at_ - n) at_.
Proof.
  revert at_. induction n as [|n IH]; intros at_; cbn [replicate foldl].
  - by rewrite Nat.sub_0_r, firstn_all.
  - rewrite IH. change (walk_seg at_ (js "..")) with (removelast at_).
    destruct at_ as [|x at_ _] using rev_ind; [by rewrite !take_nil|].
    rewrite removelast_last, length_app. cbn [length].
    rewrite take_app_le by lia. f_equal. lia.
Qed.

Lemma normalize_names p : is_abs false p = true -> names false (normalize false p) = walk false [] p.
Proof.
  intros Ha. assert (Hp : p <> []) by (intros ->; done).
  pose proof (walk_segments [] p) as Hw. rewrite Ha in Hw.
  destruct (segments_normal p) as [Hs _].
  rewrite walk_names in Hw by (done || by apply segments_no_ups).
  rewrite <- Hw. destruct (decide (segments_of p = [])) as [E|E].
  - rewrite segments_nil, Ha, E by done. done.
  - by rewrite normalize_render, render_names.
Qed.

Lemma walk_proper p : is_abs false p = true -> Forall segment (walk false [] p) /\ no_ups (walk false [] p).
Proof.
  intros Ha. destruct (segments_normal p) as [Hs _]. pose proof (segments_no_ups p Ha) as Hu.
  pose proof (walk_segments [] p) as Hw. rewrite Ha, walk_names in Hw by done. by rewrite <- Hw.
Qed.

Lemma walk_joined at_ parts : parts <> [] -> Forall segment parts -> walk false at_ (join (SEP false) parts) = foldl walk_seg at_ parts.
Proof.
  intros Hn Hs. pose proof (render_abs false false parts Hn Hs) as A.
  rewrite render_eq in A by done. cbn [app] in A. rewrite app_nil_r in A.
  unfold walk. rewrite A. by rewrite names_join by (by apply segment_names).
Qed.

(** The relative path between two absolute paths leads from the first to
    the second. *)
Theorem relative_walks from to :
  is_abs false from = true -> is_abs false to = true ->
  walk false (walk false [] from) (relative false from to) = walk false [] to.
Proof.
  intros Hf Ht. unfold relative. cbv zeta. rewrite !normalize_names by done.
  destruct (walk_proper to Ht) as [Hs Hu].
  set (F := walk false [] from). set (T := walk false [] to) in *. set (n := common_length F T).
  assert (Hn : (n <= length F)%nat).
  { subst n. clear. generalize T. induction F as [|x F IH]; intros [|y T']; cbn; try lia.
    case_bool_decide; [|lia]. specialize (IH T'). lia. }
  set (parts := replicate _ _ ++ _).
  assert (E : foldl walk_seg F parts = T).
  { unfold parts. rewrite foldl_app, walk_ups. replace (length F - (length F - n))%nat with n by lia.
    rewrite walk_names by (apply Forall_drop; done). unfold n. rewrite common_take. apply take_drop. }
  assert (P : Forall segment parts).
  { apply Forall_app. split; [|by apply Forall_drop]. apply Forall_replicate.
    split; [done|]. split; [done|]. repeat constructor. }
  rewrite zlen_nil. case_bool_decide as Hp.
  - rewrite Hp in E. exact E.
  - by rewrite walk_joined.
Qed.

Lemma relative_walks_witness :
  relative false (js "/repo/tests") (js "/repo/./src/app.ts") = js "../src/app.ts" /\
  walk false (walk false [] (js "/repo/tests")) (relative false (js "/repo/tests") (js "/repo/./src/app.ts"))
  = walk false [] (js "/repo/./src/app.ts").
Proof.
  split; [vm_compute; reflexivity|].
  apply (relative_walks (js "/repo/tests") (js "/repo/./src/app.ts")); vm_compute; reflexivity.
Defined.

(** ** Directory and base names *)
Definition last_at (c : Z) (p : jsstring) (from : nat) (r : Z) : Prop :=
  r = -1 /\ (forall j, (j <= from)%nat -> p !! j <> Some c) \/
  exists i, r = Z.of_nat i /\ (i <= from)%nat /\ p !! i = Some c /\
    forall j, (i < j <= from)%nat -> p !! j <> Some c.

Lemma last_at_here c p from : p !! from = Some c -> last_at c p from (Z.of_nat from).
Proof. intros H. right. exists from. split_and!; [done|lia|done|lia]. Qed.

Lemma last_at_before c p from r : last_at c p from r -> p !! S from <> Some c -> last_at c p (S from) r.
Proof.
  intros [[-> H]|(i & -> & Hi & Hc & H)] Hn; [left; split; [done|]|right; exists i; split_and!; [done|lia|done|]];
    intros j Hj; (destruct (decide (j = S from)) as [->|]; [done|apply H; lia]).
Qed.

Lemma last_index_spec c p from : last_at c p from (last_index c p from).
Proof.
  induction from as [|k IH]; cbn [last_index].
  - destruct (p !! 0%nat) as [c'|] eqn:E; [destruct (c' =? c) eqn:Ec|].
    + apply Z.eqb_eq in Ec as ->. by apply (last_at_here c p 0).
    + left. split; [done|]. intros j Hj. replace j with O by lia. rewrite E. intros [= ->]. lia.
    + left. split; [done|]. intros j Hj. replace j with O by lia. by rewrite E.
  - destruct (p !! S k) as [c'|] eqn:E; [destruct (c' =? c) eqn:Ec|].
    + apply Z.eqb_eq in Ec as ->. by apply last_at_here.
    + apply last_at_before; [done|]. rewrite E. intros [= ->]. lia.
    + apply last_at_before; [done|]. by rewrite E.
Qed.

(** The last separator of [q], found in any text that starts with [q]. *)
Lemma last_sep_split p q from :
  (forall j, (j <= from)%nat -> p !! j = q !! j) -> (length q <= S from)%nat ->
  last_sep false p from = -1 /\ sep_free false q \/
  exists a b, q = a ++ 47 :: b /\ sep_free false b /\ last_sep false p from = Z.of_nat (length a).
Proof.
  intros Hq Hl. unfold last_sep.
  assert (F : forall (l : jsstring), (forall j, l !! j <> Some 47) -> sep_free false l).
  { intros l H. apply Forall_lookup. intros j c Hc. unfold is_sep. cbn. rewrite orb_false_r.
    apply Z.eqb_neq. intros ->. by apply (H j). }
  destruct (last_index_spec 47 p from) as [[-> H]|(i & -> & Hi & Hc & H)]; [left|right].
  - split; [done|]. apply F. intros j. destruct (decide (j <= from)%nat).
    + rewrite <- Hq by done. auto.
    + by rewrite lookup_ge_None_2 by lia.
  - rewrite Hq in Hc by done. exists (take i q), (drop (S i) q).
    split; [by rewrite take_drop_middle|]. split.
    + apply F. intros j. rewrite lookup_drop. destruct (decide (S i + j <= from)%nat).
      * rewrite <- Hq by done. apply H. lia.
      * by rewrite lookup_ge_None_2 by lia.
    + apply lookup_lt_Some in Hc. rewrite length_take. lia.
Qed.

Lemma strip_seps_spec p e :
  (e <= length p)%nat -> (strip_seps false p e <= e)%nat /\ (e <> O -> strip_seps false p e <> O) /\
  exists s, take e p = take (strip_seps false p e) p ++ s /\ Forall (fun c => is_sep false c = true) s.
Proof.
  induction e as [|[|e] IH]; intros He; cbn [strip_seps]; [split; [lia|]; split; [done|]; exists []; by rewrite app_nil_r..|].
  assert (D : forall n, n = S (S e) -> (n <= S (S e))%nat /\ (S (S e) <> O -> n <> O) /\
    exists s, take (S (S e)) p = take n p ++ s /\ Forall (fun c => is_sep false c = true) s).
  { intros n ->. split; [lia|]. split; [lia|]. exists []. by rewrite app_nil_r. }
  destruct (p !! S e) as [c|] eqn:E; [|auto]. destruct (is_sep false c) eqn:Hc; [|auto].
  destruct IH as (H1 & H2 & s & H3 & H4); [lia|]. cbn [strip_seps] in *.
  split; [lia|]. split; [intros _; apply H2; lia|].
  exists (s ++ [c]). split; [|apply Forall_app; auto].
  rewrite (take_S_r _ _ _ E), H3. by rewrite <- app_assoc.
Qed.

Lemma walk_strip at_ q s : q <> [] -> Forall (fun c => is_sep false c = true) s -> walk false at_ (q ++ s) = walk false at_ q.
Proof.
  intros Hq. induction s as [|c s IH] using rev_ind; intros H; [by rewrite app_nil_r|].
  apply Forall_app in H as [H Hc]. rewrite Forall_singleton in Hc. rewrite <- IH by done.
  rewrite app_assoc. assert (c = 47) as -> by (unfold is_sep in Hc; cbn in Hc; lia).
  assert (Hn : q ++ s <> []) by (destruct q; done).
  unfold walk. rewrite (is_abs_app _ [47]) by done. change [47] with (SEP false). by rewrite names_trail.
Qed.

Lemma walk_sep_free at_ b : sep_free false b -> walk false at_ b = walk_seg at_ b.
Proof.
  intros H. unfold walk. assert (is_abs false b = false) as -> by (destruct H as [|c b Hc _]; [done|]; cbn [is_abs]; by rewrite Hc).
  rewrite names_words, words_sep_free by done. cbn [app]. unfold emit.
  case_bool_decide; [by subst|done].
Qed.

Lemma last_sep_unique a b a' b' :
  sep_free false b -> sep_free false b' -> a ++ 47 :: b = a' ++ 47 :: b' -> a = a' /\ b = b'.
Proof.
  assert (G : forall x k y, sep_free false x -> 47 :: x = k ++ 47 :: y -> k = []).
  { intros x [|z k] y H E; [done|]. injection E as _ ->. apply Forall_app in H as [_ H].
    by apply Forall_cons_1 in H as [H _]. }
  intros Hb Hb' E. apply app_eq_app in E as [k [[-> E]|[-> E]]].
  - pose proof (G _ _ _ Hb' E) as ->. rewrite app_nil_r. split; [done|]. by injection E.
  - pose proof (G _ _ _ Hb E) as ->. rewrite app_nil_r. split; [done|]. by injection E.
Qed.

Lemma walk_split at_ a b :
  sep_free false b ->
  walk_seg (walk false at_ (if bool_decide (a = []) then SEP false else a)) b = walk false at_ (a ++ 47 :: b).
Proof.
  intros F. rewrite <- walk_sep_free by done.
  assert (Hb : is_abs false b = false) by (by destruct F as [|c b Hc _]; [|cbn [is_abs]; rewrite Hc]).
  case_bool_decide as Ha; [subst a|symmetry; by apply (walk_app at_ a b)].
  change ([] ++ 47 :: b) with (SEP false ++ b). unfold walk at 1 3. by rewrite Hb, names_lead.
Qed.

(** The directory name and then the base name lead where the path leads,
    for every path: absolute or relative, with repeated or trailing separators,
    empty or the root. *)
Theorem dirname_basename at_ p :
  walk_seg (walk false at_ (dirname false p)) (basename false p None) = walk false at_ p.
Proof.
  destruct (decide (p = [])) as [->|Hp]; [done|].
  destruct (strip_seps_spec p (length p)) as (H1 & H2 & s & H3 & H4); [done|].
  unfold dirname, basename. cbv zeta. rewrite firstn_all in H3.
  set (e := strip_seps false p (length p)) in *. set (q := take e p) in *.
  assert (He : e <> O) by (apply H2; by destruct p).
  assert (Lq : length q = e) by (apply length_take_le; lia).
  assert (Hq : q <> []) by (intros E; rewrite E in Lq; done).
  assert (Q : forall j, (j <= e - 1)%nat -> p !! j = q !! j) by (intros; unfold q; by rewrite lookup_take_lt by lia).
  assert (W : walk false at_ p = walk false at_ q).
  { transitivity (walk false at_ (q ++ s)); [by f_equal|by apply walk_strip]. }
  rewrite W. clear W H1 H2. clearbody q e.
  destruct (last_sep_split p q (e - 1)) as [[-> F]|(a & b & E & F & ->)]; [done|lia| |];
    (destruct (last_sep_split q q (length q)) as [[-> F']|(a' & b' & E' & F' & ->)]; [done|lia| |]).
  - cbn. by rewrite walk_sep_free.
  - exfalso. unfold sep_free in F. rewrite E' in F. apply Forall_app in F as [_ F]. by apply Forall_cons_1 in F as [F _].
  - exfalso. unfold sep_free in F'. rewrite E in F'. apply Forall_app in F' as [_ F']. by apply Forall_cons_1 in F' as [F' _].
  - assert (a' = a /\ b' = b) as [-> ->].
    { apply last_sep_unique; [done..|]. by rewrite <- E. }
    rewrite (proj2 (Z.leb_le 0 (Z.of_nat (length a)))) by apply Nat2Z.is_nonneg.
    rewrite (proj2 (Z.ltb_ge (Z.of_nat (length a)) 0)) by apply Nat2Z.is_nonneg.
    replace (Z.to_nat (Z.of_nat (length a) + 1)) with (S (length a)) by lia.
    assert (drop (S (length a)) q = b) as -> by (rewrite E, cons_middle, app_assoc; apply drop_app_length'; rewrite length_app; cbn; lia).
    rewrite E, <- (walk_split at_ a b F). f_equal. f_equal.
    destruct a as [|x a]; [done|]. rewrite bool_decide_false by done.
    replace (Z.of_nat (length (x :: a)) =? 0) with false by reflexivity.
    rewrite Nat2Z.id, H3, E, <- app_assoc. apply (take_app_length (x :: a)).
Qed.

(** The cases of the repository's own tests. *)
Example path_tests :
  normalize false (js "/a//b") = js "/a/b" /\ normalize false (js "/a/./b") = js "/a/b" /\
  normalize false (js "a/b/../../c") = js "c" /\ normalize false (js "../a") = js "../a" /\
  normalize false [] = js "." /\ basename false (js "/usr/local/") None = js "local" /\
  basename false (js "/") None = [] /\ dirname false (js "/usr/local/") = js "/usr" /\
  relative false (js "/a/b") (js "/a/b/c/d") = js "c/d" /\
  resolve false [js "/a"; js "b"; js "/c"; js "d"] = js "/c/d" /\
  extname false (js "lib/index.mjs") = js ".mjs".
Proof. vm_compute. done. Qed.

(** On Windows a drive is taken for a segment below the root. *)
Example windows_drive_rooted : normalize true (js "C:\foo") = js "\C:\foo".
Proof. reflexivity. Qed.
End Path.
