(* ===== verification/Glob.v ===== *)
(** Glob patterns and the directory walker: src/js/internal/file/glob.ts.

    A pattern is compiled to the text of a regular expression, as the source does; a
    position [i] of the pattern is the part that is left together with the character
    before it. *)

From S2P Require Import Prelude JsString JsRegExp.
Import JsString.

Module Glob.

(** ** Compilation *)

(** [ch.replace(/[.*+?^${}()|[\]\\]/g, '\\$&')] and
    [ch.replace(/[\\^\]]/g, '\\$&')] of one character. *)
Definition escRe (ch : Z) : jsstring := if bool_decide (ch ∈ js ".*+?^${}()|[]\") then [92; ch] else [ch].
Definition escClass (ch : Z) : jsstring := if bool_decide (ch ∈ js "\^]") then [92; ch] else [ch].

Fixpoint split_loop (sep : Z) (depth : Z) (part s : jsstring) : list jsstring :=
  match s with
  | [] => [part]
  | c :: s =>
      if c =? 123 then split_loop sep (depth + 1) (part ++ [c]) s
      else if c =? 125 then split_loop sep (depth - 1) (part ++ [c]) s
      else if (c =? sep) && (depth =? 0) then part :: split_loop sep depth [] s
      else split_loop sep depth (part ++ [c]) s
  end.
Definition splitTop (s : jsstring) (sep : Z) : list jsstring := split_loop sep 0 [] s.

(** The loop to the bracket that ends a class: its text, and what is left. *)
Fixpoint class_loop (s : jsstring) : jsstring * jsstring :=
  match s with
  | [] => ([], [])
  | 93 :: s => ([], s)
  | 92 :: c :: s => let '(cls, rest) := class_loop s in (escClass c ++ cls, rest)
  | c :: s => let '(cls, rest) := class_loop s in (escClass c ++ cls, rest)
  end.
Definition compile_class (s : jsstring) : jsstring * jsstring :=
  let '(neg, s) := match s with c :: s' => if (c =? 33) || (c =? 94) then ([94], s') else ([], s) | [] => ([], s) end in
  let '(first, s) := match s with 93 :: s' => ([92; 93], s') | _ => ([], s) end in
  let '(cls, rest) := class_loop s in ([91] ++ neg ++ first ++ cls ++ [93], rest).
(** The loop to the brace that closes a group: what it passes, and what is left. *)
Fixpoint brace_loop (depth : Z) (s : jsstring) : jsstring * jsstring :=
  if depth <=? 0 then ([], s)
  else match s with
  | [] => ([], [])
  | c :: s =>
      let '(passed, rest) := brace_loop (if c =? 123 then depth + 1 else if c =? 125 then depth - 1 else depth) s in
      (c :: passed, rest)
  end.
Definition last_or (c : Z) (s : jsstring) : Z := List.last s c.

Fixpoint map_ok {A B} (f : A -> res B) (l : list A) : res (list B) :=
  match l with [] => Ok [] | x :: l => y ← f x; ys ← map_ok f l; Ok (y :: ys) end.
(** [pre] is the character before the position. *)
Fixpoint compile_from (fuel : nat) (pre : option Z) (s : jsstring) : res jsstring :=
  match fuel with
  | O => Throw Diverges
  | S fuel =>
      let go text pre s := re ← compile_from fuel (Some pre) s; Ok (text ++ re) in
      let prevSlash := bool_decide (pre = None) || bool_decide (pre = Some 47) in
      match s with
      | [] => Ok []
      | 92 :: c :: s => go (escRe c) c s
      | 42 :: 42 :: s =>
          match s with
          | 47 :: s' => if prevSlash then go (js "(?:[^/]+/)*") 47 s' else go (js ".*") 42 s
          | [] => if prevSlash then go (js "(?:[^/]+/)*[^/]*") 42 s else go (js ".*") 42 s
          | _ => go (js ".*") 42 s
          end
      | 42 :: s => go (js "[^/]*") 42 s
      | 63 :: s => go (js "[^/]") 63 s
      | 91 :: s => let '(cls, rest) := compile_class s in go cls 93 rest
      | 123 :: s =>
          let '(passed, rest) := brace_loop 1 s in
          let content := removelast passed in
          alts ← map_ok (compile_from fuel None) (splitTop content 44);
          go (js "(?:" ++ join [124] alts ++ [41]) (last_or 123 passed) rest
      | ch :: s => go (escRe ch) ch s
      end
  end.
Definition compileSegment (pat : jsstring) : res jsstring := compile_from (S (length pat)) None pat.

(** ** The class *)

Record t := { pattern : jsstring; re : JsRegExp.regex; dot : bool; segPatterns : option (list JsRegExp.regex) }.
(** [new RegExp('^' + compileSegment(s) + '$')] *)
Definition compiled (s : jsstring) : res JsRegExp.regex :=
  text ← compileSegment s;
  match JsRegExp.pattern text with Some r => Ok r | None => Throw (JsError "Invalid regular expression") end.
Definition constructor (pattern : jsstring) (dot : bool) : res t :=
  re ← compiled pattern;
  let segs := split_on 47 pattern in
  if bool_decide (js "**" ∈ segs) then Ok {| pattern := pattern; re := re; dot := dot; segPatterns := None |}
  else
    ps ← map_ok compiled segs;
    Ok {| pattern := pattern; re := re; dot := dot; segPatterns := Some ps |}.
Fixpoint dots_ok (pathSegs patSegs : list jsstring) : bool :=
  match pathSegs with
  | [] => true
  | seg :: pathSegs =>
      (negb (startsWith seg [46]) || startsWith (default [] (head patSegs)) [46]) && dots_ok pathSegs (tl patSegs)
  end.
Definition test (g : t) (path : jsstring) : bool :=
  (dot g || dots_ok (split_on 47 path) (split_on 47 (pattern g))) && JsRegExp.test_whole (re g) path.
Fixpoint each_matches (ps : list JsRegExp.regex) (segs : list jsstring) : bool :=
  match segs, ps with
  | [], _ => true
  | s :: segs, p :: ps => JsRegExp.test_whole p s && each_matches ps segs
  | _ :: _, [] => false
  end.
Definition couldMatch (g : t) (dirRel : jsstring) : bool :=
  match segPatterns g with
  | None => true
  | Some ps =>
      let patSegs := split_on 47 (pattern g) in
      let dirSegs := split_on 47 dirRel in
      if (length patSegs <=? length dirSegs)%nat then false else each_matches ps dirSegs
  end.

(** ** The walker *)

(** [path] is the provider's object for the entry. *)
Record GlobEntry {P} := { name : jsstring; path : P; isDirectory : bool }.
Arguments GlobEntry : clear implicits.
Record GlobOptions := { cwd : jsstring; opt_dot : bool; onlyFiles : bool; onlyDirectories : bool }.

Section walk.
Context {P : Type} (listDir : jsstring -> res (list (GlobEntry P))).
(** [aborted n]: what the signal says when it is asked for the [n]-th time. *)
Context (aborted : nat -> bool).
Context (g : t) (o : GlobOptions).
(** The loop over the entries of a directory; [walk] is [walkDir].  It returns the
    entries emitted, and how often the signal was asked. *)
Fixpoint walk_entries (walk : jsstring -> jsstring -> nat -> res (list (GlobEntry P) * nat)) (dirPath relDir : jsstring)
    (entries : list (GlobEntry P)) (n : nat) : res (list (GlobEntry P) * nat) :=
  match entries with
  | [] => Ok ([], n)
  | entry :: entries =>
      if aborted n then Ok ([], S n)
      else if negb (opt_dot o) && startsWith (name entry) [46] then walk_entries walk dirPath relDir entries (S n)
      else
        let entryRel := if bool_decide (relDir = []) then name entry else relDir ++ 47 :: name entry in
        if isDirectory entry then
          let here := if test g entryRel && negb (onlyFiles o) then [entry] else [] in
          if couldMatch g entryRel then
            let childPath := if bool_decide (dirPath = [46]) then name entry else dirPath ++ 47 :: name entry in
            '(below, n) ← walk childPath entryRel (S n);
            '(more, n) ← walk_entries walk dirPath relDir entries n;
            Ok (here ++ below ++ more, n)
          else '(more, n) ← walk_entries walk dirPath relDir entries (S n); Ok (here ++ more, n)
        else
          let here := if test g entryRel && negb (onlyDirectories o) then [entry] else [] in
          '(more, n) ← walk_entries walk dirPath relDir entries (S n); Ok (here ++ more, n)
  end.
Fixpoint walkDir (fuel : nat) (dirPath relDir : jsstring) (n : nat) : res (list (GlobEntry P) * nat) :=
  match fuel with
  | O => Throw Diverges
  | S fuel =>
      if aborted n then Ok ([], S n)
      else match listDir dirPath with
      | Throw _ => Ok ([], S n)
      | Ok entries => walk_entries (walkDir fuel) dirPath relDir entries (S n)
      end
  end.
End walk.
(** [/[*?{[]/.test(seg)] *)
Definition is_wild (seg : jsstring) : bool := existsb (fun c => bool_decide (c ∈ js "*?{[")) seg.
Fixpoint fixed_prefix (segs : list jsstring) : list jsstring :=
  match segs with [] => [] | s :: segs => if is_wild s then [] else s :: fixed_prefix segs end.
Definition relPrefix (pattern : jsstring) : jsstring := join [47] (fixed_prefix (split_on 47 pattern)).
Definition startDir (pattern : jsstring) (o : GlobOptions) : jsstring :=
  if bool_decide (relPrefix pattern = []) then cwd o
  else if bool_decide (cwd o = [46]) then relPrefix pattern else cwd o ++ 47 :: relPrefix pattern.
Definition glob {P} (listDir : jsstring -> res (list (GlobEntry P))) (aborted : nat -> bool) (fuel : nat) (pattern : jsstring) (o : GlobOptions) :
  res (list (GlobEntry P)) :=
  g ← constructor pattern (opt_dot o);
  '(entries, _) ← walkDir listDir aborted g o fuel (startDir pattern o) (relPrefix pattern) 0;
  Ok entries.

(** ** The iterator

    Entries that nobody waits for are queued; the calls of [next] that found none wait.
    [answers] are what the calls were answered with, the first call first. *)
Section iterator.
Context {E : Type}.
Record iterator := { queue : list E; waiters : nat; isDone : bool; answers : list (option E) }.
Definition started : iterator := {| queue := []; waiters := 0; isDone := false; answers := [] |}.
Definition emit (entry : E) (i : iterator) : iterator :=
  match waiters i with
  | S w => {| queue := queue i; waiters := w; isDone := isDone i; answers := answers i ++ [Some entry] |}
  | O => {| queue := queue i ++ [entry]; waiters := 0; isDone := isDone i; answers := answers i |}
  end.
Definition finish (i : iterator) : iterator :=
  {| queue := queue i; waiters := 0; isDone := true; answers := answers i ++ replicate (waiters i) None |}.
Definition next (i : iterator) : iterator :=
  match queue i with
  | x :: q => {| queue := q; waiters := waiters i; isDone := isDone i; answers := answers i ++ [Some x] |}
  | [] =>
      if isDone i then {| queue := []; waiters := waiters i; isDone := true; answers := answers i ++ [None] |}
      else {| queue := []; waiters := S (waiters i); isDone := false; answers := answers i |}
  end.
End iterator.
Arguments iterator : clear implicits.
End Glob.
