(* ===== verification/GlobPattern.v ===== *)
(** What a glob pattern denotes, and that the regular expression to which [Glob]
    compiles it decides that. *)

From S2P Require Import Prelude JsString JsRegExp Glob.
Import JsString JsRegExp.

Module GlobPattern.

(** ** Patterns

    [quoted]: the character is written after a backslash. *)

Inductive entry := One (quoted : bool) (c : Z) | To (q : bool) (a : Z) (r : bool) (b : Z).
Inductive item :=
| Lit (quoted : bool) (c : Z)
| Question
| Asterisk
| Asterisks
| Bracket (neg : option Z) (es : list entry)
| Braces (first : items) (more : alts)
with items := Nil | Cons (i : item) (ps : items)
with alts := End | Alt (ps : items) (more : alts).

Scheme item_mut := Induction for item Sort Prop
with items_mut := Induction for items Sort Prop
with alts_mut := Induction for alts Sort Prop.
Combined Scheme pattern_ind from item_mut, items_mut, alts_mut.

Definition show_char (quoted : bool) (c : Z) : jsstring := if quoted then [92; c] else [c].
Definition show_entry (e : entry) : jsstring :=
  match e with One q c => show_char q c | To q a r b => show_char q a ++ [45] ++ show_char r b end.
Fixpoint show_item (i : item) : jsstring :=
  match i with
  | Lit q c => show_char q c
  | Question => [63]
  | Asterisk => [42]
  | Asterisks => [42; 42]
  | Bracket neg es => [91] ++ from_option (fun c => [c]) [] neg ++ concat (map show_entry es) ++ [93]
  | Braces a l => [123] ++ show a ++ show_alts l ++ [125]
  end
with show (ps : items) : jsstring := match ps with Nil => [] | Cons i ps => show_item i ++ show ps end
with show_alts (l : alts) : jsstring := match l with End => [] | Alt a l => [44] ++ show a ++ show_alts l end.

(** Which trees are written as patterns: characters with a meaning are quoted, also
    within braces, where the characters of braces cannot be written; a hyphen does
    not stand for itself in a class. *)
Definition plain (inner : bool) (c : Z) : bool := negb (inner && bool_decide (c ∈ js "{},")).
Definition wf_char (inner quoted : bool) (c : Z) : bool := (quoted || bool_decide (c ∉ js "\]")) && negb (c =? 45) && plain inner c.
Definition wf_entry (inner : bool) (e : entry) : bool :=
  match e with One q c => wf_char inner q c | To q a r b => wf_char inner q a && wf_char inner r b && (a <=? b) end.
Definition starts_neg (es : list entry) : bool :=
  match es with One false c :: _ | To false c _ _ :: _ => (c =? 33) || (c =? 94) | _ => false end.
Fixpoint wf_item (inner : bool) (i : item) : bool :=
  match i with
  | Lit q c => (q || bool_decide (c ∉ js "\*?[{")) && plain inner c
  | Question | Asterisk | Asterisks => true
  | Bracket neg es =>
      negb (bool_decide (es = [])) && forallb (wf_entry inner) es &&
      match neg with Some c => (c =? 33) || (c =? 94) | None => negb (starts_neg es) end
  | Braces a l => wf true a && wf_alts l
  end
with wf (inner : bool) (ps : items) : bool :=
  match ps with
  | Nil => true
  | Cons i ps => wf_item inner i && match i, ps with Asterisk, Cons (Asterisk | Asterisks) _ => false | _, _ => true end && wf inner ps
  end
with wf_alts (l : alts) : bool := match l with End => true | Alt a l => wf true a && wf_alts l end.

(** ** What they denote *)

Definition segments (s : jsstring) : Prop := exists ps, Forall (fun p => p <> [] /\ 47 ∉ p) ps /\ s = concat (map (fun p => p ++ [47]) ps).
Definition in_line (s : jsstring) : Prop := Forall (fun u => is_line_terminator u = false) s.
Definition range_of (e : entry) : Z * Z := match e with One _ c => (c, c) | To _ a _ b => (a, b) end.
Definition in_bracket (neg : option Z) (es : list entry) (u : Z) : Prop :=
  let listed := exists e, e ∈ es /\ (range_of e).1 <= u <= (range_of e).2 in if neg then ~ listed else listed.
Definition cat (l m : jsstring -> Prop) (s : jsstring) : Prop := exists p q, s = p ++ q /\ l p /\ m q.
Definition is_slash (i : item) : bool := match i with Lit _ c => c =? 47 | _ => false end.

(** The paths that a pattern matches; [start] says that a segment starts here.  Two
    asterisks are any whole segments with the slash after them, or, at the end, what
    is below; where they are not a segment, they are any text of one line. *)
Fixpoint denotes_item (i : item) (s : jsstring) : Prop :=
  match i with
  | Lit _ c => s = [c]
  | Question => exists u, s = [u] /\ u <> 47
  | Asterisk => 47 ∉ s
  | Asterisks => in_line s
  | Bracket neg es => exists u, s = [u] /\ in_bracket neg es u
  | Braces a l => denotes true a s \/ denotes_alts l s
  end
with denotes (start : bool) (ps : items) (s : jsstring) : Prop :=
  match ps with
  | Nil => s = []
  | Cons i ps =>
      match i, start, ps with
      | Asterisks, true, Nil => cat segments (fun q => 47 ∉ q) s
      | Asterisks, true, Cons (Lit false 47) ps => cat segments (denotes true ps) s
      | _, _, _ => cat (denotes_item i) (denotes (is_slash i) ps) s
      end
  end
with denotes_alts (l : alts) (s : jsstring) : Prop := match l with End => False | Alt a l => denotes true a s \/ denotes_alts l s end.

(** ** The text that compilation gives, and its expression *)

Definition entry_text (e : entry) : jsstring := match e with One _ c => Glob.escClass c | To _ a _ b => Glob.escClass a ++ [45] ++ Glob.escClass b end.
Fixpoint item_text (i : item) : jsstring :=
  match i with
  | Lit _ c => Glob.escRe c
  | Question => js "[^/]"
  | Asterisk => js "[^/]*"
  | Asterisks => js ".*"
  | Bracket neg es => [91] ++ (if neg then [94] else []) ++ concat (map entry_text es) ++ [93]
  | Braces a l => js "(?:" ++ text true a ++ alts_text l ++ [41]
  end
with text (start : bool) (ps : items) : jsstring :=
  match ps with
  | Nil => []
  | Cons i ps =>
      match i, start, ps with
      | Asterisks, true, Nil => js "(?:[^/]+/)*[^/]*"
      | Asterisks, true, Cons (Lit false 47) ps => js "(?:[^/]+/)*" ++ text true ps
      | _, _, _ => item_text i ++ text (is_slash i) ps
      end
  end
with alts_text (l : alts) : jsstring := match l with End => [] | Alt a l => [124] ++ text true a ++ alts_text l end.
Definition no_slash : regex := Class true [(47, 47)].
Definition segments_re : regex := Star (Seq (Plus no_slash) (Seq (Char 47) Empty)).
Fixpoint item_re (i : item) : regex :=
  match i with
  | Lit _ c => Char c
  | Question => no_slash
  | Asterisk => Star no_slash
  | Asterisks => Star Dot
  | Bracket neg es => Class (if neg then true else false) (map range_of es)
  | Braces a l => alts_re (expr true a) l
  end
with expr (start : bool) (ps : items) : regex :=
  match ps with
  | Nil => Empty
  | Cons i ps =>
      match i, start, ps with
      | Asterisks, true, Nil => Seq segments_re (Seq (Star no_slash) Empty)
      | Asterisks, true, Cons (Lit false 47) ps => Seq segments_re (expr true ps)
      | _, _, _ => Seq (item_re i) (expr (is_slash i) ps)
      end
  end
with alts_re (r : regex) (l : alts) : regex := match l with End => r | Alt a l => Or r (alts_re (expr true a) l) end.

(** ** The expression decides what the pattern denotes *)

Lemma cat_iff (l l' m m' : jsstring -> Prop) s : (forall t, l t <-> l' t) -> (forall t, m t <-> m' t) -> cat l m s <-> cat l' m' s.
Proof. intros Hl Hm. unfold cat. by setoid_rewrite Hl; setoid_rewrite Hm. Qed.
Lemma lang_no_slash s : lang no_slash s <-> exists u, s = [u] /\ u <> 47.
Proof.
  unfold no_slash. rewrite lang_class_iff. unfold in_class. simpl.
  split; intros (u & -> & Hu); exists u; (split; [done|]); [intros ->; done|].
  destruct (Z.leb_spec 47 u); destruct (Z.leb_spec u 47); simpl; try done. lia.
Qed.
Lemma lang_star_no_slash s : lang (Star no_slash) s <-> 47 ∉ s.
Proof.
  rewrite (lang_star_chars _ (fun u => u <> 47)) by apply lang_no_slash. rewrite Forall_forall. set_solver.
Qed.
Lemma lang_plus_no_slash s : lang (Plus no_slash) s <-> s <> [] /\ 47 ∉ s.
Proof.
  split.
  - inversion 1 as [| | | | | | | | |r p q Hp Hq]; subst. apply lang_no_slash in Hp as (u & -> & Hu). apply lang_star_no_slash in Hq.
    set_solver.
  - intros [Hne Hs]. destruct s as [|u s]; [done|]. apply (lang_plus no_slash [u] s); [apply lang_no_slash|apply lang_star_no_slash]; set_solver.
Qed.
Lemma lang_segment s : lang (Seq (Plus no_slash) (Seq (Char 47) Empty)) s <-> exists p, s = p ++ [47] /\ p <> [] /\ 47 ∉ p.
Proof.
  rewrite lang_seq_iff. setoid_rewrite lang_plus_no_slash. setoid_rewrite lang_seq_iff. setoid_rewrite lang_char_iff. setoid_rewrite lang_empty_iff.
  split.
  - intros (p & q & -> & Hp & ? & ? & -> & -> & ->). by exists p.
  - intros (p & -> & Hp). exists p, [47]. split_and!; [done|apply Hp|apply Hp|by exists [47], []].
Qed.
Lemma lang_segments s : lang segments_re s <-> segments s.
Proof.
  unfold segments_re, segments. split.
  - intros H. remember (Star _) as r eqn:E. induction H as [| | | | | | |r|r p q Hp _ Hq IH|]; simplify_eq.
    + by exists [].
    + apply lang_segment in Hp as (p' & -> & Hp'). destruct (IH eq_refl) as (ps & Hps & ->). exists (p' :: ps).
      split; [by constructor|done].
  - intros (ps & Hps & ->). induction Hps as [|p ps Hp _ IH]; simpl; [constructor|]. apply lang_star_app; [|done].
    apply lang_segment. by exists p.
Qed.
Lemma lang_star_dot s : lang (Star Dot) s <-> in_line s.
Proof.
  apply lang_star_chars. intros t. split; [inversion 1; eauto|]. intros (u & -> & ?). by constructor.
Qed.
Lemma in_class_bracket (neg : option Z) es u :
  in_class (if neg then true else false) (map range_of es) u = true <-> in_bracket neg es u.
Proof.
  unfold in_class, in_bracket.
  assert (E : existsb (fun r : Z * Z => (r.1 <=? u) && (u <=? r.2)) (map range_of es) = true <-> exists e, e ∈ es /\ (range_of e).1 <= u <= (range_of e).2).
  { rewrite existsb_exists. setoid_rewrite in_map_iff. split.
    - intros (r & (e & <- & He) & Hr). exists e. split; [by apply list_elem_of_In|lia].
    - intros (e & He & Hr). exists (range_of e). split; [exists e; split; [done|by apply list_elem_of_In]|lia]. }
  destruct neg; rewrite <-E; destruct (existsb _ _); cbn; naive_solver.
Qed.
(** Induction over the parts of a pattern, for which a sequence also has what is
    shown of its tail. *)
Lemma pattern_tail_ind (P : item -> Prop) (Q : items -> Prop) (R : alts -> Prop) :
  (forall q c, P (Lit q c)) -> P Question -> P Asterisk -> P Asterisks -> (forall neg es, P (Bracket neg es)) ->
  (forall a l, Q a -> R l -> P (Braces a l)) -> Q Nil ->
  (forall i ps, P i -> Q ps -> (forall j qs, ps = Cons j qs -> Q qs) -> Q (Cons i ps)) ->
  R End -> (forall a l, Q a -> R l -> R (Alt a l)) ->
  (forall i, P i) /\ (forall ps, Q ps) /\ (forall l, R l).
Proof.
  intros HL HQ HA HS HB HBr HN HC HE HAl.
  destruct (pattern_ind P (fun ps => Q ps /\ forall j qs, ps = Cons j qs -> Q qs) R) as (H1 & H2 & H3); try done.
  - intros a Ha l Hl. apply HBr; [apply Ha|done].
  - intros i Hi ps [Hps Htl]. split; [by apply HC|]. by intros j qs [= -> ->].
  - intros a Ha l Hl. apply HAl; [apply Ha|done].
  - split_and!; [done|apply H2|done].
Qed.
(** A sequence of a pattern is what [denotes], [text] and [expr] tell apart. *)
Inductive shape_of (start : bool) : item -> items -> Prop :=
| shape_end : start = true -> shape_of start Asterisks Nil
| shape_segments ps : start = true -> shape_of start Asterisks (Cons (Lit false 47) ps)
| shape_other i ps :
    (forall s, denotes start (Cons i ps) s = cat (denotes_item i) (denotes (is_slash i) ps) s) ->
    text start (Cons i ps) = item_text i ++ text (is_slash i) ps ->
    expr start (Cons i ps) = Seq (item_re i) (expr (is_slash i) ps) ->
    (i = Asterisks -> start = true -> ps <> Nil /\ forall qs, ps <> Cons (Lit false 47) qs) -> shape_of start i ps.
Lemma shape_cases start i ps : shape_of start i ps.
Proof.
  destruct i; try by apply shape_other. destruct start; [|by apply shape_other].
  destruct ps as [|j ps]; [by apply shape_end|]. destruct j as [q c| | | | |]; try by apply shape_other.
  destruct q; [by apply shape_other|]. destruct (decide (c = 47)) as [->|Hc]; [by apply shape_segments|].
  apply shape_other; [intros ?|..|by intros _ _; split; [|intros qs [= ->]]].
  all: by repeat (destruct c as [|c|c]; try done; try (destruct c; try done)).
Qed.
Lemma lang_cat r r' (l l' : jsstring -> Prop) s : (forall t, lang r t <-> l t) -> (forall t, lang r' t <-> l' t) -> lang (Seq r r') s <-> cat l l' s.
Proof. intros Hr Hr'. rewrite lang_seq_iff. unfold cat. by setoid_rewrite Hr; setoid_rewrite Hr'. Qed.
Lemma expr_denotes :
  (forall i s, lang (item_re i) s <-> denotes_item i s) /\
  (forall ps start s, lang (expr start ps) s <-> denotes start ps s) /\
  (forall l r s, lang (alts_re r l) s <-> lang r s \/ denotes_alts l s).
Proof.
  apply pattern_tail_ind.
  - intros q c s. apply lang_char_iff.
  - apply lang_no_slash.
  - apply lang_star_no_slash.
  - apply lang_star_dot.
  - intros neg es s. simpl. rewrite lang_class_iff. by setoid_rewrite in_class_bracket.
  - intros a l IHa IHl s. simpl. by rewrite IHl, IHa.
  - intros start s. apply lang_empty_iff.
  - intros i ps IHi IHps IHtl start s. destruct (shape_cases start i ps) as [->|ps ->|i ps Hd _ He _].
    + apply lang_cat; [apply lang_segments|]. intros t. rewrite lang_seq_iff. setoid_rewrite lang_star_no_slash. setoid_rewrite lang_empty_iff.
      split; [intros (p & q & -> & ? & ->); by rewrite app_nil_r|]. intros ?. exists t, []. by rewrite app_nil_r.
    + apply lang_cat; [apply lang_segments|]. intros t. by apply (IHtl (Lit false 47) ps).
    + rewrite Hd, He. apply lang_cat; [apply IHi|apply IHps].
  - intros r s. simpl. tauto.
  - intros a l IHa IHl r s. simpl. rewrite lang_or_iff, IHl, IHa. tauto.
Qed.

(** ** Compilation gives the text *)

(** Text that the loops over braces and alternatives pass, at depth [m] and more. *)
Definition balanced (m : Z) (w : jsstring) : Prop :=
  (forall d s, 0 < d -> Glob.brace_loop d (w ++ s) = let '(p, r) := Glob.brace_loop d s in (w ++ p, r)) /\
  (forall d part s, m <= d -> Glob.split_loop 44 d part (w ++ s) = Glob.split_loop 44 d (part ++ w) s).
Lemma balanced_nil m : balanced m [].
Proof. split; intros; simpl; [by destruct (Glob.brace_loop d s)|by rewrite app_nil_r]. Qed.
Lemma balanced_app m v w : balanced m v -> balanced m w -> balanced m (v ++ w).
Proof.
  intros [H1 H2] [H3 H4]. split; intros.
  - rewrite <-app_assoc, H1, H3 by done. destruct (Glob.brace_loop d s). by rewrite app_assoc.
  - by rewrite <-app_assoc, H2, H4, app_assoc by done.
Qed.
Lemma balanced_le m n w : m <= n -> balanced m w -> balanced n w.
Proof. intros ? [H1 H2]. split; [done|]. intros. apply H2. lia. Qed.
Lemma balanced_char m c : 0 <= m -> c <> 123 -> c <> 125 -> c <> 44 \/ 0 < m -> balanced m [c].
Proof.
  intros Hm H1 H2 H3. split.
  - intros d s Hd. simpl. destruct (Z.leb_spec d 0); [lia|]. rewrite (proj2 (Z.eqb_neq c 123)), (proj2 (Z.eqb_neq c 125)) by done.
    by destruct (Glob.brace_loop d s).
  - intros d part s Hd. simpl. rewrite (proj2 (Z.eqb_neq c 123)), (proj2 (Z.eqb_neq c 125)) by done.
    destruct (Z.eqb_spec c 44); [|done]. destruct (Z.eqb_spec d 0); [lia|done].
Qed.
Lemma balanced_braces w : balanced 1 w -> balanced 0 (123 :: w ++ [125]).
Proof.
  intros [H1 H2]. split.
  - intros d s Hd. simpl. destruct (Z.leb_spec d 0); [lia|]. rewrite <-app_assoc, H1 by lia. simpl.
    destruct (Z.leb_spec (d + 1) 0); [lia|]. rewrite Z.add_simpl_r. destruct (Glob.brace_loop d s). by rewrite <-app_assoc.
  - intros d part s Hd. simpl. rewrite <-app_assoc, H2 by lia. simpl. by rewrite Z.add_simpl_r, <-!app_assoc.
Qed.
Lemma plain_char m c : 0 <= m -> plain true c = true -> balanced m [c].
Proof. intros Hm Hc%negb_true_iff%bool_decide_eq_false. simpl in Hc. apply balanced_char; [done|set_solver..|left; set_solver]. Qed.
Lemma balanced_chars m w : 0 <= m -> Forall (fun c => plain true c = true) w -> balanced m w.
Proof.
  intros Hm. induction 1 as [|c w Hc _ IH]; [apply balanced_nil|]. apply (balanced_app m [c] w); [|done]. by apply plain_char.
Qed.
Lemma plain_show_char q c : plain true c = true -> Forall (fun c => plain true c = true) (show_char q c).
Proof. destruct q; by repeat constructor. Qed.
Lemma plain_show_entry e : wf_entry true e = true -> Forall (fun c => plain true c = true) (show_entry e).
Proof.
  destruct e as [q c|q a r b]; simpl; unfold wf_char; rewrite !andb_true_iff; intros Hw.
  - apply plain_show_char; tauto.
  - apply Forall_app_2; [apply plain_show_char; tauto|]. apply Forall_cons_2; [done|]. apply plain_show_char; tauto.
Qed.
Lemma show_balanced :
  (forall i, wf_item true i = true -> balanced 0 (show_item i)) /\
  (forall ps, wf true ps = true -> balanced 0 (show ps)) /\
  (forall l, wf_alts l = true -> balanced 1 (show_alts l)).
Proof.
  apply pattern_ind; simpl; try (intros; apply balanced_chars; [done|]; by repeat constructor).
  - intros q c [_ Hc]%andb_true_iff. apply balanced_chars; [done|by apply plain_show_char].
  - intros neg es [[_ Hes]%andb_true_iff Hneg]%andb_true_iff. apply balanced_chars; [done|]. apply Forall_cons_2; [done|].
    apply Forall_app_2; [|apply Forall_app_2; [|by repeat constructor]].
    + destruct neg as [c|]; simpl; [|constructor]. apply orb_true_iff in Hneg as [Hc%Z.eqb_eq|Hc%Z.eqb_eq]; subst c; by repeat constructor.
    + apply Forall_concat, Forall_map, Forall_forall. intros e He. apply plain_show_entry. rewrite forallb_forall in Hes. by apply Hes, list_elem_of_In.
  - intros a IHa l IHl [Ha Hl]%andb_true_iff. rewrite app_assoc. apply balanced_braces, balanced_app; [|by apply IHl].
    apply (balanced_le 0); [lia|by apply IHa].
  - intros i IHi ps IHps [[Hi _]%andb_true_iff Hps]%andb_true_iff. apply balanced_app; auto.
  - intros a IHa l IHl [Ha Hl]%andb_true_iff. apply (balanced_app 1 [44]); [apply balanced_char; lia|].
    apply balanced_app; [|by apply IHl]. apply (balanced_le 0); [lia|by apply IHa].
Qed.

Lemma class_loop_char inner q c s :
  wf_char inner q c = true -> Glob.class_loop (show_char q c ++ s) = let '(cls, rest) := Glob.class_loop s in (Glob.escClass c ++ cls, rest).
Proof.
  unfold wf_char. rewrite !andb_true_iff. intros [[Hc _] _]. destruct q; simpl; [done|]. simpl in Hc. apply bool_decide_eq_true in Hc.
  assert (c <> 92 /\ c <> 93) as [H1 H2] by (simpl in Hc; set_solver).
  by repeat (destruct c as [|c|c]; try done; try (destruct c; try done)).
Qed.
Lemma class_loop_entries inner es rest :
  forallb (wf_entry inner) es = true -> Glob.class_loop (concat (map show_entry es) ++ 93 :: rest) = (concat (map entry_text es), rest).
Proof.
  induction es as [|e es IH]; simpl; [done|]. intros [He Hes]%andb_true_iff. rewrite <-app_assoc. destruct e as [q c|q a r b]; simpl in *.
  - by rewrite (class_loop_char inner), IH.
  - apply andb_true_iff in He as [[Ha Hb]%andb_true_iff _]. rewrite <-app_assoc, (class_loop_char inner) by done. simpl.
    rewrite (class_loop_char inner), IH by done. by rewrite <-app_assoc.
Qed.
Lemma show_entry_head inner e s :
  wf_entry inner e = true -> exists c s', show_entry e ++ s = c :: s' /\ c <> 93 /\ (starts_neg [e] = false -> c <> 33 /\ c <> 94).
Proof.
  intros He. assert (exists q c s', show_entry e ++ s = show_char q c ++ s' /\ wf_char inner q c = true /\ starts_neg [e] = (negb q && ((c =? 33) || (c =? 94))))
    as (q & c & s' & -> & Hw & ->).
  { destruct e as [q c|q a r b]; simpl in *; [exists q, c, s; by destruct q|].
    apply andb_true_iff in He as [[Ha Hb]%andb_true_iff _]. exists q, a, ([45] ++ show_char r b ++ s). rewrite <-!app_assoc. by destruct q. }
  destruct q; simpl; [exists 92, (c :: s'); done|]. exists c, s'. unfold wf_char in Hw. apply andb_true_iff in Hw as [[Hw _]%andb_true_iff _].
  apply bool_decide_eq_true in Hw. simpl in Hw. split_and!; [done|set_solver|]. intros ?%orb_false_iff. lia.
Qed.
Lemma compile_class_ok inner neg es rest :
  wf_item inner (Bracket neg es) = true ->
  Glob.compile_class (from_option (fun c => [c]) [] neg ++ concat (map show_entry es) ++ 93 :: rest) = (item_text (Bracket neg es), rest).
Proof.
  cbn [wf_item]. intros [[Hne Hes]%andb_true_iff Hneg]%andb_true_iff. apply negb_true_iff, bool_decide_eq_false in Hne.
  pose proof (class_loop_entries inner es rest Hes) as E. destruct es as [|e es]; [done|].
  assert (starts_neg (e :: es) = starts_neg [e]) as Hsn by (by destruct e as [[] ?|[] ? ? ?]).
  simpl in Hes. apply andb_true_iff in Hes as [He _]. simpl in E |- *. rewrite <-app_assoc in E |- *.
  destruct (show_entry_head inner e (concat (map show_entry es) ++ 93 :: rest) He) as (c & s' & Hs & H93 & Hn). rewrite Hs in E |- *.
  assert (E1 : forall neg, (let '(first, s) := match c :: s' with 93 :: s' => ([92; 93], s') | _ => ([], c :: s') end in
    let '(cls, rest) := Glob.class_loop s in ([91] ++ neg ++ first ++ cls ++ [93], rest)) = (91 :: neg ++ (entry_text e ++ concat (map entry_text es)) ++ [93], rest)).
  { intros m. assert ((match c :: s' with 93 :: s' => ([92; 93], s') | _ => ([], c :: s') end) = ([] : jsstring, c :: s')) as ->
      by (by repeat (destruct c as [|c|c]; try done; try (destruct c; try done))). by rewrite E. }
  unfold Glob.compile_class. destruct neg as [n|]; simpl from_option.
  - cbn [app]. rewrite Hneg. exact (E1 [94]).
  - cbn [app]. apply negb_true_iff in Hneg. rewrite Hsn in Hneg. destruct (Hn Hneg) as [H1 H2].
    rewrite (proj2 (Z.eqb_neq c 33)), (proj2 (Z.eqb_neq c 94)) by done. exact (E1 []).
Qed.

Definition at_start (pre : option Z) : bool := bool_decide (pre = None) || bool_decide (pre = Some 47).
(** What may follow an item for its text to be read as that item. *)
Definition follows (i : item) (start : bool) (s : jsstring) : Prop :=
  match i with
  | Asterisk => head s <> Some 42
  | Asterisks => start = true -> s <> [] /\ head s <> Some 47
  | _ => True
  end.
Fixpoint alts_shown (l : alts) : list jsstring := match l with End => [] | Alt a l => show a :: alts_shown l end.
Fixpoint alts_texts (l : alts) : list jsstring := match l with End => [] | Alt a l => text true a :: alts_texts l end.
Lemma split_alts l part : wf_alts l = true -> Glob.split_loop 44 0 part (show_alts l) = part :: alts_shown l.
Proof.
  revert part. induction l as [|a l IH]; intros part; simpl; [done|]. intros [Ha Hl]%andb_true_iff.
  destruct (proj1 (proj2 show_balanced) a Ha) as [_ Hs]. by rewrite Hs, IH by done.
Qed.
Lemma splitTop_alts a l : wf true a = true -> wf_alts l = true -> Glob.splitTop (show a ++ show_alts l) 44 = show a :: alts_shown l.
Proof.
  intros Ha Hl. destruct (proj1 (proj2 show_balanced) a Ha) as [_ Hs]. unfold Glob.splitTop. by rewrite Hs, split_alts by done.
Qed.
Lemma join_alts a l : join [124] (text true a :: alts_texts l) = text true a ++ alts_text l.
Proof.
  revert a. induction l as [|b l IH]; intros a; [simpl; by rewrite app_nil_r|].
  cbn [alts_texts alts_text]. rewrite <-IH. done.
Qed.
Lemma brace_loop_alts a l s :
  wf true a = true -> wf_alts l = true -> Glob.brace_loop 1 (show a ++ show_alts l ++ 125 :: s) = ((show a ++ show_alts l) ++ [125], s).
Proof.
  intros Ha Hl. destruct (proj1 (proj2 show_balanced) a Ha) as [Hs _], (proj2 (proj2 show_balanced) l Hl) as [Hs' _].
  rewrite Hs, Hs' by done. simpl. destruct s; by rewrite <-app_assoc.
Qed.
(** [compile_from] reads the pattern of [ps] at the start of a segment. *)
Definition compiles (ps : items) : Prop := forall inner pre fuel,
  wf inner ps = true -> (length (show ps) < fuel)%nat -> Glob.compile_from fuel pre (show ps) = Ok (text (at_start pre) ps).
Definition compiles_alts (l : alts) : Prop := forall fuel,
  wf_alts l = true -> (length (show_alts l) <= fuel)%nat -> Glob.map_ok (Glob.compile_from fuel None) (alts_shown l) = Ok (alts_texts l).
(** It reads one item, and goes on after it. *)
Definition compiles_item (i : item) : Prop := forall inner pre fuel s,
  wf_item inner i = true -> follows i (at_start pre) s -> (length (show_item i) <= fuel)%nat ->
  exists c, (c =? 47) = is_slash i /\
    Glob.compile_from (S fuel) pre (show_item i ++ s) = (re ← Glob.compile_from fuel (Some c) s; Ok (item_text i ++ re)).
Lemma compiles_lit q c : compiles_item (Lit q c).
Proof.
  intros inner pre fuel s Hw _ _. exists c. split; [done|]. simpl in Hw. apply andb_true_iff in Hw as [Hc _].
  destruct q; [done|]. apply bool_decide_eq_true in Hc. simpl in Hc.
  assert (c <> 92 /\ c <> 42 /\ c <> 63 /\ c <> 91 /\ c <> 123) as (?&?&?&?&?) by set_solver.
  by repeat (destruct c as [|c|c]; try done; try (destruct c; try done)).
Qed.
Lemma compiles_asterisk : compiles_item Asterisk.
Proof.
  intros inner pre fuel s _ Hs _. exists 42. split; [done|]. destruct s as [|c s]; [done|]. simpl in Hs.
  assert (c <> 42) by congruence. by repeat (destruct c as [|c|c]; try done; try (destruct c; try done)).
Qed.
Lemma compiles_asterisks : compiles_item Asterisks.
Proof.
  intros inner pre fuel s _ Hs _. exists 42. split; [done|]. unfold at_start in Hs. cbn [show_item app Glob.compile_from]. cbv zeta.
  destruct (bool_decide (pre = None) || bool_decide (pre = Some 47)) eqn:Hp.
  - destruct (Hs eq_refl) as [Hne Hh]. destruct s as [|c s]; [done|]. simpl in Hh. assert (c <> 47) by congruence.
    by repeat (destruct c as [|c|c]; try done; try (destruct c; try done)).
  - destruct s as [|c s]; [done|]. by repeat (destruct c as [|c|c]; try done; try (destruct c; try done)).
Qed.
Lemma compiles_braces a l : compiles a -> compiles_alts l -> compiles_item (Braces a l).
Proof.
  intros IHa IHl inner pre fuel s Hw _ Hf. simpl in Hw, Hf. apply andb_true_iff in Hw as [Ha Hl]. exists 125. split; [done|].
  rewrite !length_app in Hf. simpl in Hf.
  cbn [show_item app]. rewrite <-!app_assoc. cbn [app Glob.compile_from]. cbv zeta. rewrite brace_loop_alts by done.
  rewrite removelast_last, splitTop_alts by done. cbn [Glob.map_ok].
  rewrite (IHa true None) by (done || lia). cbn [mbind res_bind]. rewrite IHl by (done || lia). cbn [mbind res_bind].
  change (at_start None) with true. rewrite join_alts. unfold Glob.last_or. rewrite last_last. cbn [item_text].
  rewrite <-!app_assoc. done.
Qed.
Lemma show_head ps c :
  head (show ps) = Some c -> exists i qs, ps = Cons i qs /\ head (show_item i) = Some c.
Proof.
  destruct ps as [|i ps]; [done|]. simpl. intros H. exists i, ps. split; [done|].
  destruct i as [[] ?| | | |? ?|? ?]; done.
Qed.
Lemma follows_show inner i ps start :
  wf inner (Cons i ps) = true -> (i = Asterisks -> start = true -> ps <> Nil /\ forall qs, ps <> Cons (Lit false 47) qs) -> follows i start (show ps).
Proof.
  cbn [wf]. intros [[_ Hi]%andb_true_iff Hps]%andb_true_iff Ha. destruct i; simpl; try done.
  - intros (j & qs & -> & Hj)%show_head. simpl in Hps. apply andb_true_iff in Hps as [[Hj' _]%andb_true_iff _].
    destruct j as [[] c| | | |? ?|? ?]; simpl in *; simplify_eq; try done.
  - intros Hst. destruct (Ha eq_refl Hst) as [Hne Hsl]. split.
    + destruct ps as [|j qs]; [done|]. simpl. by destruct j as [[] c| | | |? ?|? ?].
    + intros (j & qs & -> & Hj)%show_head. destruct j as [[] c| | | |? ?|? ?]; simpl in *; simplify_eq; try done. by destruct (Hsl qs).
Qed.
Lemma at_start_some c : at_start (Some c) = (c =? 47).
Proof. unfold at_start. simpl. destruct (Z.eqb_spec c 47) as [->|Hc]; [done|]. apply bool_decide_eq_false. congruence. Qed.
Lemma compile_from_nil fuel pre : (0 < fuel)%nat -> Glob.compile_from fuel pre [] = Ok [].
Proof. by destruct fuel; [lia|]. Qed.
Lemma show_item_length i : (1 <= length (show_item i))%nat.
Proof. destruct i as [[] ?| | | |? ?|? ?]; simpl; lia. Qed.
Lemma compile_ok : (forall i, compiles_item i) /\ (forall ps, compiles ps) /\ (forall l, compiles_alts l).
Proof.
  apply pattern_tail_ind.
  - apply compiles_lit.
  - intros inner pre fuel s _ _ _. by exists 63.
  - apply compiles_asterisk.
  - apply compiles_asterisks.
  - intros neg es inner pre fuel s Hw _ _. exists 93. split; [done|]. cbn [show_item app]. rewrite <-!app_assoc.
    cbn [app Glob.compile_from]. cbv zeta. by rewrite (compile_class_ok inner).
  - apply compiles_braces.
  - intros inner pre fuel _ Hf. apply compile_from_nil. simpl in Hf. lia.
  - intros i ps IHi IHps IHtl inner pre fuel Hw Hf. destruct fuel as [|fuel]; [lia|].
    pose proof (follows_show inner i ps (at_start pre) Hw) as Hfol. unfold at_start in Hfol |- *.
    destruct (shape_cases (bool_decide (pre = None) || bool_decide (pre = Some 47)) i ps) as [Hs|ps Hs|i ps _ Ht _ Ha].
    + cbn [show show_item app Glob.compile_from]. cbv zeta. rewrite Hs. simpl in Hf. by rewrite compile_from_nil by lia.
    + cbn [show show_item show_char app Glob.compile_from]. cbv zeta. rewrite Hs. cbn [wf] in Hw. rewrite !andb_true_iff in Hw.
      rewrite (IHtl (Lit false 47) ps eq_refl inner (Some 47)); [done|tauto|simpl in Hf; lia].
    + cbn [show] in Hf |- *. rewrite length_app in Hf. pose proof (show_item_length i). pose proof Hw as Hw'. cbn [wf] in Hw'. rewrite !andb_true_iff in Hw'.
      destruct (IHi inner pre fuel (show ps)) as (c & Hc & ->); [tauto|by apply Hfol|lia|].
      rewrite (IHps inner (Some c)) by (tauto || lia). cbn [mbind res_bind]. by rewrite Ht, at_start_some, Hc.
  - intros fuel _ _. done.
  - intros a l IHa IHl fuel Hw Hf. simpl in Hw, Hf. apply andb_true_iff in Hw as [Ha Hl]. rewrite length_app in Hf. cbn [alts_shown Glob.map_ok].
    rewrite (IHa true None) by (done || lia). cbn [mbind res_bind]. rewrite IHl by (done || lia). done.
Qed.
Lemma compileSegment_ok inner ps : wf inner ps = true -> Glob.compileSegment (show ps) = Ok (text true ps).
Proof. intros Hw. apply (proj1 (proj2 compile_ok) ps inner None); [done|lia]. Qed.

(** ** The text is read as the expression *)

(** No quantifier follows, and no end of an alternative, unless [stop]. *)
Definition head_ok (s : jsstring) : Prop := match s with [] => False | c :: _ => c <> 42 /\ c <> 43 /\ c <> 124 /\ c <> 41 end.
Definition stop (s : jsstring) : Prop := match s with [] => True | c :: _ => c = 124 \/ c = 41 end.
Lemma escRe_cases c : (Glob.escRe c = [92; c] /\ is_alnum c = false) \/ (Glob.escRe c = [c] /\ is_syntax c = false /\ c <> 46 /\ c <> 92 /\ c <> 91 /\ c <> 40).
Proof.
  unfold Glob.escRe, is_syntax. case_bool_decide as Hc; [left|right]; (split; [done|]).
  - simpl in Hc. repeat (apply elem_of_cons in Hc as [->|Hc]; [done|]). by apply not_elem_of_nil in Hc.
  - assert (c ∉ js "^$\.*+?()[]{}|") as Hs by (simpl in *; set_solver). split; [by apply bool_decide_eq_false|]. simpl in Hc. set_solver.
Qed.
Lemma class_atom_esc c s : class_atom (Glob.escClass c ++ s) = Some (c, s).
Proof.
  unfold Glob.escClass. case_bool_decide as Hc; simpl in Hc.
  - repeat (apply elem_of_cons in Hc as [->|Hc]; [done|]). by apply not_elem_of_nil in Hc.
  - assert (c <> 92) by set_solver. by repeat (destruct c as [|c|c]; try done; try (destruct c; try done)).
Qed.
Lemma escClass_head c : exists d w, Glob.escClass c = d :: w /\ d <> 93 /\ d <> 94 /\ (d = c \/ d = 92).
Proof.
  unfold Glob.escClass. case_bool_decide as Hc; simpl in Hc; [by exists 92, [c]; auto|].
  exists c, []. set_solver.
Qed.
Lemma class_body_step fuel d w :
  d <> 93 -> class_body (S fuel) (d :: w) =
    ('(a, s) ← class_atom (d :: w);
     match hyphen s with
     | Some s => '(b, s) ← class_atom s; if a <=? b then '(l, s) ← class_body fuel s; Some ((a, b) :: l, s) else None
     | None => '(l, s) ← class_body fuel s; Some ((a, a) :: l, s)
     end).
Proof. intros Hd. by repeat (destruct d as [|d|d]; try done; try (destruct d; try done)). Qed.
Lemma no_hyphen c w : c <> 45 -> hyphen (c :: w) = None.
Proof. intros Hc. by repeat (destruct c as [|c|c]; try done; try (destruct c; try done)). Qed.
Lemma entry_text_head inner e s : wf_entry inner e = true -> exists d w, entry_text e ++ s = d :: w /\ d <> 93 /\ d <> 94 /\ d <> 45.
Proof.
  intros He. assert (exists c w, entry_text e ++ s = Glob.escClass c ++ w /\ c <> 45) as (c & w & -> & Hc).
  { destruct e as [q c|q a r b]; simpl in *; [exists c, s|exists a, (45 :: Glob.escClass b ++ s); rewrite <-app_assoc]; (split; [done|]).
    - unfold wf_char in He. rewrite !andb_true_iff, negb_true_iff, Z.eqb_neq in He. tauto.
    - unfold wf_char in He. rewrite !andb_true_iff, !negb_true_iff, !Z.eqb_neq in He. tauto. }
  destruct (escClass_head c) as (d & v & -> & ? & ? & ?). exists d, (v ++ w). split_and!; [done|done|done|lia].
Qed.
Lemma class_body_entries inner es fuel s :
  forallb (wf_entry inner) es = true -> (length es < fuel)%nat ->
  class_body fuel (concat (map entry_text es) ++ 93 :: s) = Some (map range_of es, s).
Proof.
  revert fuel. induction es as [|e es IH]; intros fuel Hw Hf; (destruct fuel as [|fuel]; [simpl in Hf; lia|]); [done|].
  simpl in Hw, Hf. apply andb_true_iff in Hw as [He Hes]. simpl concat. rewrite <-app_assoc.
  pose proof (IH fuel Hes ltac:(lia)) as IH'. set (rest := concat (map entry_text es) ++ 93 :: s) in *.
  destruct (entry_text_head inner e rest He) as (d & w & E & Hd & _). rewrite E, class_body_step, <-E by done. clear E Hd d w.
  destruct e as [q c|q a r b]; simpl entry_text.
  - rewrite class_atom_esc. cbn [mbind option_bind].
    assert (exists d w, rest = d :: w /\ d <> 45) as (d & w & Hr & Hd).
    { unfold rest. destruct es as [|e es]; [by exists 93, s|]. simpl in Hes |- *. apply andb_true_iff in Hes as [He' _].
      rewrite <-app_assoc. destruct (entry_text_head inner e (concat (map entry_text es) ++ 93 :: s) He') as (d & w & ? & _ & _ & ?). by exists d, w. }
    rewrite Hr, no_hyphen, <-Hr, IH' by done. done.
  - rewrite <-app_assoc, class_atom_esc. cbn [mbind option_bind app].
    destruct (escClass_head b) as (d & w & Hb & Hd & _). rewrite Hb. cbn [app hyphen]. rewrite (proj2 (Z.eqb_neq d 93)) by done.
    change (d :: w ++ rest) with ((d :: w) ++ rest). rewrite <-Hb, class_atom_esc. cbn [mbind option_bind].
    simpl in He. apply andb_true_iff in He as [_ ->]. by rewrite IH'.
Qed.

(** [ps], as a sequence, is read up to what ends an alternative. *)
Definition parses (ps : items) : Prop := forall inner start f fuel s,
  wf inner ps = true -> stop s -> (length (text start ps) <= f)%nat -> (length (text start ps) < fuel)%nat ->
  alternative (disjunction f) fuel (text start ps ++ s) = Some (expr start ps, s).
Definition parses_item (i : item) : Prop := forall inner f fuel s,
  wf_item inner i = true -> head_ok s \/ stop s -> (length (item_text i) <= f)%nat -> (length (item_text i) <= fuel)%nat ->
  ('(r, s) ← atom (disjunction f) fuel (item_text i ++ s); Some (quantifier r s)) = Some (item_re i, s).
Definition parses_alts (l : alts) : Prop := forall a f s,
  parses a -> wf true a = true -> wf_alts l = true -> (length (text true a ++ alts_text l) + 2 <= f)%nat ->
  disjunction f (text true a ++ alts_text l ++ 41 :: s) = Some (alts_re (expr true a) l, 41 :: s).
Lemma no_quantifier r s : head_ok s \/ stop s -> quantifier r s = (r, s).
Proof.
  intros Hs. destruct s as [|c s]; [done|]. simpl in Hs. assert (c <> 42 /\ c <> 43) as [? ?] by lia.
  by repeat (destruct c as [|c|c]; try done; try (destruct c; try done)).
Qed.
Lemma atom_escRe f fuel c s : atom f fuel (Glob.escRe c ++ s) = Some (Char c, s).
Proof.
  destruct (escRe_cases c) as [[-> Hc]|(-> & Hc & ? & ? & ? & ?)]; simpl; [by rewrite Hc|].
  unfold is_syntax in Hc. cbn in Hc. unfold is_syntax.
  repeat (destruct c as [|c|c]; try done; try (destruct c; try done); cbn; try (rewrite Hc); try done).
Qed.
Lemma item_text_head inner i s : wf_item inner i = true -> head_ok (item_text i ++ s).
Proof.
  destruct i as [q c| | | |neg es|a l]; intros Hw; try (simpl; lia).
  simpl. destruct (escRe_cases c) as [[-> _]|(-> & Hc & _)]; simpl; [lia|]. unfold is_syntax in Hc. apply bool_decide_eq_false in Hc.
  simpl in Hc. set_solver.
Qed.
Lemma text_head inner start ps s : wf inner ps = true -> stop s -> head_ok (text start ps ++ s) \/ stop (text start ps ++ s).
Proof.
  intros Hw Hs. destruct ps as [|i ps]; [by right|left]. destruct (shape_cases start i ps) as [->|ps ->|i ps _ -> _ _].
  - simpl. lia.
  - simpl. lia.
  - cbn [wf] in Hw. rewrite !andb_true_iff in Hw. rewrite <-app_assoc. apply (item_text_head inner). tauto.
Qed.
Lemma head_not_end s : head_ok s -> exists c w, s = c :: w /\ (c =? 124) || (c =? 41) = false.
Proof. destruct s as [|c w]; [done|]. intros (? & ? & ? & ?). exists c, w. split; [done|]. lia. Qed.
(** One term and what follows. *)
Lemma alternative_step f fuel s t r u :
  head_ok s -> ('(r, s) ← atom f fuel s; Some (quantifier r s)) = Some (r, t) -> alternative f fuel t = Some u ->
  alternative f (S fuel) s = Some (Seq r u.1, u.2).
Proof.
  intros Hs Ha Ht. destruct (head_not_end s Hs) as (c & w & -> & Hc). cbn [alternative]. rewrite Hc.
  destruct (atom f fuel (c :: w)) as [[r' s']|]; [|done]. cbn [mbind option_bind] in Ha |- *. injection Ha as Hq. rewrite Hq, Ht.
  by destruct u.
Qed.
Lemma alternative_end f fuel s : (0 < fuel)%nat -> stop s -> alternative f fuel s = Some (Empty, s).
Proof.
  intros Hf Hs. destruct fuel as [|fuel]; [lia|]. destruct s as [|c s]; [done|]. simpl in Hs |- *.
  destruct (Z.eqb_spec c 124), (Z.eqb_spec c 41); simpl; try done. lia.
Qed.
Lemma parses_segments f fuel s :
  (11 <= f)%nat -> (11 <= fuel)%nat ->
  ('(r, s) ← atom (disjunction f) fuel (js "(?:[^/]+/)*" ++ s); Some (quantifier r s)) = Some (segments_re, s).
Proof. intros Hf Hn. do 11 (destruct f as [|f]; [lia|]). done. Qed.
Lemma parses_bracket neg es : parses_item (Bracket neg es).
Proof.
  intros inner f fuel s Hw Hs _ Hf. cbn [wf_item] in Hw. rewrite !andb_true_iff in Hw. destruct Hw as [[Hne Hes] _].
  cbn [item_text app] in Hf |- *. rewrite <-!app_assoc. cbn [app atom]. simpl in Hf. rewrite !length_app in Hf. simpl in Hf.
  assert (Hlen : (length es <= length (concat (map entry_text es)))%nat).
  { clear - Hes. induction es as [|e es IH]; simpl in *; [lia|]. apply andb_true_iff in Hes as [He Hes]. rewrite length_app.
    destruct (entry_text_head inner e [] He) as (d & w & E & _). rewrite app_nil_r in E. rewrite E. simpl. specialize (IH Hes). lia. }
  pose proof (class_body_entries inner es fuel s Hes ltac:(lia)) as Hb. destruct neg as [n|]; cbn [app item_re].
  - unfold class. rewrite Hb. cbn [mbind option_bind]. by rewrite no_quantifier.
  - assert (Hc : class fuel (concat (map entry_text es) ++ 93 :: s) = '(l, s) ← class_body fuel (concat (map entry_text es) ++ 93 :: s); Some (Class false l, s)).
    { destruct es as [|e es]; [done|]. simpl in Hes |- *. apply andb_true_iff in Hes as [He _]. rewrite <-app_assoc.
      destruct (entry_text_head inner e (concat (map entry_text es) ++ 93 :: s) He) as (d & w & -> & _ & Hd & _). unfold class.
      by repeat (destruct d as [|d|d]; try done; try (destruct d; try done)). }
    rewrite Hc, Hb. cbn [mbind option_bind]. by rewrite no_quantifier.
Qed.
Lemma parses_braces a l : parses a -> parses_alts l -> parses_item (Braces a l).
Proof.
  intros IHa IHl inner f fuel s Hw Hs Hf _. simpl in Hw. apply andb_true_iff in Hw as [Ha Hl].
  cbn [item_text] in Hf |- *. rewrite !length_app in Hf. simpl in Hf. rewrite <-!app_assoc.
  change (js "(?:" ++ ?w) with (40 :: 63 :: 58 :: w). cbn [atom].
  change ([41] ++ s) with (41 :: s). rewrite IHl by (try done; rewrite length_app; lia). cbn [mbind option_bind item_re]. by rewrite no_quantifier.
Qed.
Lemma parses_cons i ps : parses_item i -> parses ps -> (forall j qs, ps = Cons j qs -> parses qs) -> parses (Cons i ps).
Proof.
  intros IHi IHps IHtl inner start f fuel s Hw Hs Hf Hn. pose proof Hw as Hw'. cbn [wf] in Hw'. rewrite !andb_true_iff in Hw'.
  destruct fuel as [|fuel]; [lia|]. pose proof (text_head inner start (Cons i ps) s Hw Hs) as Hh.
  destruct (shape_cases start i ps) as [->|ps ->|i ps _ Ht -> _].
  - cbn [text] in Hf, Hn |- *. simpl length in Hf, Hn. change (js "(?:[^/]+/)*[^/]*" ++ s) with (js "(?:[^/]+/)*" ++ (js "[^/]*" ++ s)).
    erewrite (alternative_step (disjunction f) fuel (js "(?:[^/]+/)*" ++ (js "[^/]*" ++ s)) (js "[^/]*" ++ s) segments_re (Seq (Star no_slash) Empty, s));
      [done|simpl; lia|apply parses_segments; lia|].
    do 6 (destruct fuel as [|fuel]; [lia|]).
    erewrite (alternative_step (disjunction f) _ (js "[^/]*" ++ s) s (Star no_slash) (Empty, s)); [done|simpl; lia|done|apply alternative_end; [lia|done]].
  - cbn [text] in Hf, Hn |- *. rewrite length_app in Hf, Hn. change (length (js "(?:[^/]+/)*")) with 11%nat in Hf, Hn. rewrite <-app_assoc.
    destruct Hw' as [_ Hw']. cbn [wf] in Hw'. rewrite !andb_true_iff in Hw'.
    erewrite (alternative_step (disjunction f) fuel _ (text true ps ++ s) segments_re (expr true ps, s)); [done|simpl; lia|apply parses_segments; lia|].
    apply (IHtl (Lit false 47) ps eq_refl inner); [tauto|done|lia|lia].
  - rewrite Ht in Hf, Hn |- *. rewrite length_app in Hf, Hn. rewrite <-app_assoc.
    assert (1 <= length (item_text i))%nat as Hl.
    { pose proof (item_text_head inner i [] (proj1 (proj1 Hw'))) as Hi. rewrite app_nil_r in Hi. destruct (item_text i); [done|simpl; lia]. }
    erewrite (alternative_step (disjunction f) fuel _ (text (is_slash i) ps ++ s) (item_re i) (expr (is_slash i) ps, s)); [done| | |].
    + apply (item_text_head inner). tauto.
    + apply (IHi inner); [tauto|apply (text_head inner); tauto|lia|lia].
    + apply (IHps inner); [tauto|done|lia|lia].
Qed.
Lemma expression_parse_ok : (forall i, parses_item i) /\ (forall ps, parses ps) /\ (forall l, parses_alts l).
Proof.
  apply pattern_tail_ind.
  - intros q c inner f fuel s _ Hs _ _. cbn [item_text]. rewrite atom_escRe. cbn [mbind option_bind item_re]. by rewrite no_quantifier.
  - intros inner f fuel s _ Hs _ Hf. simpl in Hf. do 4 (destruct fuel as [|fuel]; [lia|]). simpl. by rewrite no_quantifier.
  - intros inner f fuel s _ Hs _ Hf. simpl in Hf. do 5 (destruct fuel as [|fuel]; [lia|]). done.
  - intros inner f fuel s _ Hs _ _. done.
  - apply parses_bracket.
  - apply parses_braces.
  - intros inner start f fuel s _ Hs _ Hf. apply alternative_end; [simpl in Hf; lia|done].
  - apply parses_cons.
  - intros a f s IHa Ha _ Hf. cbn [alts_text] in *. rewrite app_nil_r in Hf. destruct f as [|f]; [lia|]. cbn [disjunction app].
    rewrite (IHa true) by (done || (simpl; lia)). done.
  - intros b l IHb IHl a f s IHa Ha Hl Hf. cbn [alts_text wf_alts] in *. apply andb_true_iff in Hl as [Hb Hl]. rewrite !length_app in Hf. simpl in Hf.
    destruct f as [|f]; [lia|]. rewrite <-!app_assoc. cbn [disjunction app].
    rewrite (IHa true) by (done || (simpl; lia)). cbn [mbind option_bind]. rewrite IHl by (try done; rewrite length_app; lia). done.
Qed.
Lemma compiled_ok inner ps : wf inner ps = true -> Glob.compiled (show ps) = Ok (expr true ps).
Proof.
  intros Hw. unfold Glob.compiled. rewrite (compileSegment_ok inner) by done. cbn [mbind res_bind]. unfold pattern.
  pose proof (proj1 (proj2 expression_parse_ok) ps inner true (length (text true ps)) (S (length (text true ps))) []) as Hp.
  rewrite app_nil_r in Hp. by rewrite Hp by (done || lia).
Qed.
End GlobPattern.
