(* ===== verification/GlobWalk.v ===== *)
(** The [Glob] class over patterns whose slashes separate segments, and the walker:
    what is matched, that pruning loses nothing, and what is emitted. *)

From S2P Require Import Prelude JsString JsRegExp Glob GlobPattern.
Import JsString GlobPattern.

Module GlobWalk.

(** ** Segments *)

Definition is_separator (i : item) : bool := match i with Lit false c => c =? 47 | _ => false end.
(** No slash is part of a class, a group or a quoted character. *)
Fixpoint flat (ps : items) : bool :=
  match ps with Nil => true | Cons i ps => (is_separator i || bool_decide (47 ∉ show_item i)) && flat ps end.
Fixpoint segs (ps : items) : list items :=
  match ps with
  | Nil => [Nil]
  | Cons i ps =>
      if is_separator i then Nil :: segs ps
      else match segs ps with p :: r => Cons i p :: r | [] => [Cons i Nil] end
  end.
Lemma is_separator_true i : is_separator i = true -> i = Lit false 47.
Proof. destruct i as [[] c| | | | |]; simpl; try done. by intros ->%Z.eqb_eq. Qed.
Lemma segs_ne ps : segs ps <> [].
Proof. destruct ps as [|i ps]; simpl; [done|]. destruct (is_separator i); [done|]. by destruct (segs ps). Qed.
Lemma split_on_prefix c w s : c ∉ w -> split_on c (w ++ s) = match split_on c s with p :: r => (w ++ p) :: r | [] => [w] end.
Proof.
  pose proof (split_on_ne c s) as Hne. destruct (split_on c s) as [|p r] eqn:E; [done|]. clear Hne.
  induction w as [|u w IH]; intros Hw; simpl; [done|]. apply not_elem_of_cons in Hw as [Hu Hw].
  rewrite (proj2 (Z.eqb_neq u c)) by congruence. by rewrite IH.
Qed.
Lemma split_show ps : flat ps = true -> split_on 47 (show ps) = map show (segs ps).
Proof.
  induction ps as [|i ps IH]; [done|]. cbn [flat segs show]. intros [Hi Hps]%andb_true_iff. destruct (is_separator i) eqn:Hsep.
  - apply is_separator_true in Hsep as ->. simpl. by rewrite IH.
  - apply bool_decide_eq_true in Hi. rewrite split_on_prefix, IH by done. pose proof (segs_ne ps). by destruct (segs ps).
Qed.
Lemma wf_segs inner ps : wf inner ps = true -> Forall (fun q => wf inner q = true) (segs ps).
Proof.
  induction ps as [|i ps IH]; [by repeat constructor|]. cbn [wf segs]. rewrite !andb_true_iff. intros [[Hi Ha] Hps].
  destruct (is_separator i); [constructor; [done|by apply IH]|]. specialize (IH Hps). pose proof (segs_ne ps) as Hne.
  destruct (segs ps) as [|q r] eqn:E; [done|]. apply Forall_cons in IH as [Hq Hr]. constructor; [|done].
  cbn [wf]. rewrite Hi, Hq. simpl. rewrite andb_true_r. destruct i; try done.
  destruct ps as [|j ps]; [by simpl in E; simplify_eq|]. cbn [segs] in E.
  destruct (is_separator j); [by simplify_eq|]. destruct (segs ps); by simplify_eq.
Qed.
(** The object that the constructor makes. *)
Definition globstar (ps : items) : bool := bool_decide (js "**" ∈ map show (segs ps)).
Definition glob_of (ps : items) (dot : bool) : Glob.t :=
  {| Glob.pattern := show ps; Glob.re := expr true ps; Glob.dot := dot;
     Glob.segPatterns := if globstar ps then None else Some (map (expr true) (segs ps)) |}.
Lemma map_ok_compiled l : Forall (fun q => wf false q = true) l -> Glob.map_ok Glob.compiled (map show l) = Ok (map (expr true) l).
Proof. induction 1 as [|q l Hq _ IH]; [done|]. simpl. rewrite (compiled_ok false), IH by done. done. Qed.
Lemma constructor_ok ps dot : wf false ps = true -> flat ps = true -> Glob.constructor (show ps) dot = Ok (glob_of ps dot).
Proof.
  intros Hw Hf. unfold Glob.constructor, glob_of, globstar. rewrite (compiled_ok false), split_show by done. cbn [mbind res_bind].
  case_bool_decide; [done|]. rewrite map_ok_compiled by (by apply wf_segs). done.
Qed.

(** ** What is matched *)

(** A hidden segment of the path is written with its dot at the same place of the
    pattern. *)
Definition hidden_ok (ps : items) (path : jsstring) : Prop :=
  forall n seg, split_on 47 path !! n = Some seg -> head seg = Some 46 -> exists p, split_on 47 (show ps) !! n = Some p /\ head p = Some 46.
Lemma startsWith_dot s : startsWith s [46] = true <-> head s = Some 46.
Proof.
  unfold startsWith. rewrite bool_decide_eq_true. split.
  - intros [t ->]. done.
  - destruct s as [|c s]; [done|]. simpl. intros [= ->]. by exists s.
Qed.
Lemma dots_ok_spec pathSegs patSegs :
  Glob.dots_ok pathSegs patSegs = true <->
  forall n seg, pathSegs !! n = Some seg -> head seg = Some 46 -> exists p, patSegs !! n = Some p /\ head p = Some 46.
Proof.
  revert patSegs. induction pathSegs as [|seg pathSegs IH]; intros patSegs; [done|]. cbn [Glob.dots_ok].
  rewrite andb_true_iff, orb_true_iff, negb_true_iff, IH, <-not_true_iff_false, !startsWith_dot. split.
  - intros [H1 H2] [|n] s; simpl.
    + intros [= <-] Hs. destruct H1 as [H1|H1]; [done|]. destruct patSegs as [|p patSegs]; [done|]. by exists p.
    + intros Hn Hs. destruct (H2 n s Hn Hs) as (p & Hp & ?). exists p. split; [|done]. by destruct patSegs.
  - intros Hs. split.
    + destruct (decide (head seg = Some 46)) as [Hd|Hd]; [right|by left]. destruct (Hs 0%nat seg eq_refl Hd) as (p & Hp & ?).
      destruct patSegs; simplify_eq/=. done.
    + intros n s Hn Hh. destruct (Hs (S n) s Hn Hh) as (p & Hp & ?). exists p. split; [|done]. by destruct patSegs.
Qed.
(** C25: a well-formed pattern matches exactly the paths that it denotes, whose
    hidden segments it writes out, segment by segment from the start, unless [dot]
    is set: a star and a question mark stay within a segment, two stars are any
    number of whole segments, classes and nested alternatives are the sets that they
    list. The text of every well-formed pattern is a regular expression; when its
    slashes separate segments, the constructor returns. Well-formed ([wf]) are
    patterns whose brackets and braces are closed, whose special characters are
    quoted where they stand for themselves, and whose classes do not hold a hyphen
    ([quoted_hyphen_range]); segments are compared by their position, so two stars
    before a written dot do not match deeper ([written_dot_ignored]). *)
Theorem glob_matches (ps : items) :
  wf false ps = true ->
  (forall dot g, Glob.constructor (show ps) dot = Ok g ->
    forall path, Glob.test g path = true <-> (dot = true \/ hidden_ok ps path) /\ denotes true ps path) /\
  (exists r, Glob.compiled (show ps) = Ok r) /\
  (flat ps = true -> forall dot, Glob.constructor (show ps) dot = Ok (glob_of ps dot)).
Proof.
  intros Hw. pose proof (compiled_ok false ps Hw) as Hc. split_and!; [|by eexists|intros; by apply constructor_ok].
  intros dot g Hg path. unfold Glob.constructor in Hg. rewrite Hc in Hg. cbn [mbind res_bind] in Hg.
  assert (Glob.pattern g = show ps /\ Glob.re g = expr true ps /\ Glob.dot g = dot) as (E1 & E2 & E3).
  { case_bool_decide; [by simplify_eq|]. destruct (Glob.map_ok _ _); by simplify_eq/=. }
  unfold Glob.test. rewrite E1, E2, E3, andb_true_iff, orb_true_iff, dots_ok_spec, JsRegExp.test_whole_lang.
  by rewrite (proj1 (proj2 expr_denotes)).
Qed.

(** ** Pruning *)

(** Items that match no slash. *)
Definition no_slash_range (r : Z * Z) : bool := negb ((r.1 <=? 47) && (47 <=? r.2)).
Fixpoint narrow_item (i : item) : bool :=
  match i with
  | Lit _ c => negb (c =? 47)
  | Question | Asterisk => true
  | Asterisks => false
  | Bracket neg es => (if neg then negb else id) (forallb (fun e => no_slash_range (range_of e)) es)
  | Braces a l => narrow a && narrow_alts l
  end
with narrow (ps : items) : bool := match ps with Nil => true | Cons i ps => narrow_item i && narrow ps end
with narrow_alts (l : alts) : bool := match l with End => true | Alt a l => narrow a && narrow_alts l end.
(** Whole patterns of them. *)
Fixpoint segmental (ps : items) : bool := match ps with Nil => true | Cons i ps => (is_separator i || narrow_item i) && segmental ps end.
Lemma denotes_narrow_cons start i ps s : narrow_item i = true -> denotes start (Cons i ps) s = cat (denotes_item i) (denotes (is_slash i) ps) s.
Proof. by destruct i. Qed.
Lemma no_slash_entries es :
  forallb (fun e => no_slash_range (range_of e)) es = true <-> ~ exists e, e ∈ es /\ (range_of e).1 <= 47 <= (range_of e).2.
Proof.
  rewrite forallb_forall. unfold no_slash_range. split.
  - intros H (e & He%list_elem_of_In & Hr). specialize (H e He). lia.
  - intros H e He%list_elem_of_In. destruct (_ && _) eqn:E; [|done]. destruct H. exists e. split; [done|lia].
Qed.
Lemma narrow_slash :
  (forall i s, narrow_item i = true -> denotes_item i s -> 47 ∉ s) /\
  (forall ps start s, narrow ps = true -> denotes start ps s -> 47 ∉ s) /\
  (forall l s, narrow_alts l = true -> denotes_alts l s -> 47 ∉ s).
Proof.
  apply pattern_ind; try done.
  - intros q c s Hc%negb_true_iff%Z.eqb_neq ->. set_solver.
  - intros s _ (u & -> & Hu). set_solver.
  - intros neg es s Hn (u & -> & Hu). cbn [narrow_item] in Hn. intros Hs. assert (u = 47) as -> by set_solver.
    unfold in_bracket in Hu. destruct neg; cbn in Hn.
    + apply negb_true_iff, not_true_iff_false in Hn. rewrite no_slash_entries in Hn. done.
    + by apply no_slash_entries in Hn.
  - intros a IHa l IHl s [Ha Hl]%andb_true_iff [Hs|Hs]; [by eapply IHa|by eapply IHl].
  - intros start s _ Hs. simpl in Hs. subst. set_solver.
  - intros i IHi ps IHps start s [Hi Hps]%andb_true_iff Hs. rewrite denotes_narrow_cons in Hs by done.
    destruct Hs as (p & q & -> & Hp & Hq). rewrite elem_of_app. intros [?|?]; [by eapply IHi|by eapply IHps].
  - intros a IHa l IHl s [Ha Hl]%andb_true_iff [Hs|Hs]; [by eapply IHa|by eapply IHl].
Qed.
Lemma segmental_start ps start s : segmental ps = true -> denotes start ps s <-> denotes true ps s.
Proof. destruct ps as [|i ps]; [done|]. cbn [segmental]. intros [Hi _]%andb_true_iff. by destruct i. Qed.
Lemma segs_segmental ps : segmental ps = true -> Forall (fun q => narrow q = true) (segs ps).
Proof.
  induction ps as [|i ps IH]; [by repeat constructor|]. cbn [segmental segs]. intros [Hi Hps]%andb_true_iff. specialize (IH Hps).
  destruct (is_separator i); [by constructor|]. simpl in Hi. destruct (segs ps) as [|q r]; [by repeat constructor; simpl; rewrite Hi|].
  apply Forall_cons in IH as [Hq Hr]. constructor; [simpl; by rewrite Hi|done].
Qed.
Lemma denotes_parts ps s :
  segmental ps = true -> denotes true ps s -> exists parts, s = join [47] parts /\ Forall2 (denotes true) (segs ps) parts /\ Forall (fun p => 47 ∉ p) parts.
Proof.
  revert s. induction ps as [|i ps IH]; intros s Hps Hs.
  { simpl in Hs. subst. exists [[]]. split_and!; [done|by repeat constructor|repeat constructor; set_solver]. }
  cbn [segmental segs] in *. apply andb_true_iff in Hps as [Hi Hps].
  assert (Hc : cat (denotes_item i) (denotes true ps) s).
  { destruct (is_separator i) eqn:Hsep; [apply is_separator_true in Hsep as ->; exact Hs|]. simpl in Hi. rewrite denotes_narrow_cons in Hs by done.
    eapply cat_iff, Hs; [done|]. intros t. symmetry. by apply segmental_start. }
  destruct Hc as (p & q & -> & Hp & Hq). destruct (IH q Hps Hq) as (parts & -> & Hparts & Hfree).
  destruct (is_separator i) eqn:Hsep.
  - apply is_separator_true in Hsep as ->. simpl in Hp. subst p. exists ([] :: parts). split_and!; [|by constructor|constructor; [set_solver|done]].
    destruct parts; [|done]. apply Forall2_nil_inv_r in Hparts. by destruct (segs_ne ps).
  - simpl in Hi. destruct (segs ps) as [|q0 r] eqn:E; [by destruct (segs_ne ps)|]. apply Forall2_cons_inv_l in Hparts as (q' & parts' & Hq' & Hr & ->).
    apply Forall_cons in Hfree as [Hf1 Hf2]. exists ((p ++ q') :: parts'). split_and!.
    + destruct parts'; simpl; [done|by rewrite app_assoc].
    + constructor; [|done]. rewrite denotes_narrow_cons by done. exists p, q'. split_and!; [done|done|].
      pose proof (segs_segmental ps Hps) as Hn. rewrite E in Hn. apply Forall_cons in Hn as [Hn _].
      apply segmental_start; [|done]. clear -Hn. induction q0 as [|j q0 IH]; [done|]. simpl in *. apply andb_true_iff in Hn as [-> ?]. rewrite orb_true_r. by apply IH.
    + constructor; [|done]. rewrite elem_of_app. intros [?|?]; [|done]. by apply (proj1 narrow_slash i p).
Qed.
Lemma each_matches_prefix dirs qs parts :
  Forall2 (denotes true) qs (dirs ++ parts) -> Glob.each_matches (map (expr true) qs) dirs = true.
Proof.
  revert qs. induction dirs as [|d dirs IH]; intros qs H; [by destruct qs|]. simpl in H.
  apply Forall2_cons_inv_r in H as (q & qs' & Hq & Hr & ->). simpl. rewrite (IH qs') by done. rewrite andb_true_r.
  by apply JsRegExp.test_whole_lang, (proj1 (proj2 expr_denotes)).
Qed.
Lemma split_slash_app d s : split_on 47 (d ++ 47 :: s) = split_on 47 d ++ split_on 47 s.
Proof.
  rewrite <-(join_split_on 47 d) at 1. pose proof (split_on_free 47 d) as Hf. pose proof (split_on_ne 47 d) as Hne.
  induction Hf as [|p ps Hp _ IH]; [done|]. destruct ps as [|q ps]; [simpl; by rewrite split_on_app|].
  change (join [47] (p :: q :: ps)) with (p ++ 47 :: join [47] (q :: ps)). rewrite <-app_assoc, <-app_comm_cons.
  rewrite split_on_app, <-app_comm_cons by done. f_equal. by apply IH.
Qed.
(** Pruning is right for patterns with a segment of two stars, which is never pruned,
    and for those whose items stay within a segment. *)
Lemma couldMatch_sound ps dot d s :
  flat ps = true -> globstar ps = true \/ segmental ps = true ->
  Glob.test (glob_of ps dot) (d ++ 47 :: s) = true -> Glob.couldMatch (glob_of ps dot) d = true.
Proof.
  intros Hf Hp [_ Ht]%andb_true_iff. unfold Glob.couldMatch. simpl in Ht |- *. destruct (globstar ps) eqn:Hg; [done|].
  destruct Hp as [?|Hseg]; [done|]. apply JsRegExp.test_whole_lang, (proj1 (proj2 expr_denotes)) in Ht.
  destruct (denotes_parts ps _ Hseg Ht) as (parts & Hj & Hparts & Hfree).
  assert (parts = split_on 47 d ++ split_on 47 s) as ->.
  { rewrite <-split_slash_app, Hj, split_join; [done| |done]. intros ->. apply Forall2_nil_inv_r in Hparts. by destruct (segs_ne ps). }
  rewrite split_show, length_map by done. pose proof (Forall2_length _ _ _ Hparts) as Hl. rewrite length_app in Hl.
  pose proof (split_on_ne 47 s). destruct (split_on 47 s) as [|p r]; [done|]. simpl in Hl.
  destruct (Nat.leb_spec (length (segs ps)) (length (split_on 47 d))); [lia|]. by eapply each_matches_prefix.
Qed.

(** ** The walk *)

Section walk.
Context {P : Type} (listDir : jsstring -> res (list (Glob.GlobEntry P))).
Notation entry := (Glob.GlobEntry P).
Implicit Types (e : entry).

(** A directory tree; [Locked] is a directory that cannot be read. *)
Inductive tree := Leaf (e : entry) | Locked (e : entry) | Dir (e : entry) (f : forest)
with forest := NoMore | More (t : tree) (f : forest).
Scheme tree_mut := Induction for tree Sort Prop
with forest_mut := Induction for forest Sort Prop.
Combined Scheme forest_ind' from tree_mut, forest_mut.
Definition tree_entry (t : tree) : entry := match t with Leaf e | Locked e | Dir e _ => e end.
Fixpoint roots (f : forest) : list entry := match f with NoMore => [] | More t f => tree_entry t :: roots f end.
Definition child (dir : jsstring) e : jsstring := if bool_decide (dir = [46]) then Glob.name e else dir ++ 47 :: Glob.name e.
Definition under (rel : jsstring) e : jsstring := if bool_decide (rel = []) then Glob.name e else rel ++ 47 :: Glob.name e.
(** The tree is what [listDir] lists at [dir] and below. *)
Fixpoint tree_listed (dir : jsstring) (t : tree) : Prop :=
  Glob.name (tree_entry t) <> [] /\
  match t with
  | Leaf e => Glob.isDirectory e = false
  | Locked e => Glob.isDirectory e = true /\ exists err, listDir (child dir e) = Throw err
  | Dir e f => Glob.isDirectory e = true /\ listDir (child dir e) = Ok (roots f) /\ forest_listed (child dir e) f
  end
with forest_listed (dir : jsstring) (f : forest) : Prop :=
  match f with NoMore => True | More t f => tree_listed dir t /\ forest_listed dir f end.
Fixpoint tree_depth (t : tree) : nat := match t with Dir _ f => S (forest_depth f) | _ => 1 end
with forest_depth (f : forest) : nat := match f with NoMore => 0 | More t f => Nat.max (tree_depth t) (forest_depth f) end.
(** What can be seen below [rel], in the order of the listings, a directory before
    what it holds; a hidden directory is not entered. *)
Fixpoint tree_seen (dot : bool) (rel : jsstring) (t : tree) : list (jsstring * entry) :=
  if negb dot && startsWith (Glob.name (tree_entry t)) [46] then []
  else (under rel (tree_entry t), tree_entry t) :: match t with Dir e f => seen dot (under rel e) f | _ => [] end
with seen (dot : bool) (rel : jsstring) (f : forest) : list (jsstring * entry) :=
  match f with NoMore => [] | More t f => tree_seen dot rel t ++ seen dot rel f end.

Context (g : Glob.t) (o : Glob.GlobOptions).
Definition wanted (x : jsstring * entry) : bool :=
  Glob.test g x.1 && negb (if Glob.isDirectory x.2 then Glob.onlyFiles o else Glob.onlyDirectories o).
Definition emitted (l : list (jsstring * entry)) : list entry := map snd (List.filter wanted l).
Lemma emitted_app l l' : emitted (l ++ l') = emitted l ++ emitted l'.
Proof. unfold emitted. by rewrite List.filter_app, map_app. Qed.
Definition prunes_soundly : Prop := forall d s, Glob.test g (d ++ 47 :: s) = true -> Glob.couldMatch g d = true.
Lemma under_ne rel e : Glob.name e <> [] -> under rel e <> [].
Proof. intros He. unfold under. case_bool_decide; [done|]. by destruct rel. Qed.
Lemma seen_below :
  (forall t dot dir rel x, tree_listed dir t -> rel <> [] -> x ∈ tree_seen dot rel t -> exists s, x.1 = rel ++ 47 :: s) /\
  (forall f dot dir rel x, forest_listed dir f -> rel <> [] -> x ∈ seen dot rel f -> exists s, x.1 = rel ++ 47 :: s).
Proof.
  assert (Hu : forall rel e, rel <> [] -> under rel e = rel ++ 47 :: Glob.name e) by (intros rel e Hr; unfold under; by rewrite bool_decide_eq_false_2).
  apply forest_ind'; [intros e|intros e|intros e f IH| |intros t IHt f IHf]; intros dot dir rel x.
  1-3: intros [Hne Ht] Hr; cbn [tree_seen tree_entry]; destruct (negb dot && _); [by intros ?%not_elem_of_nil|];
    rewrite elem_of_cons; intros [->|Hx]; [exists (Glob.name e); by apply Hu|].
  1-2: by apply not_elem_of_nil in Hx.
  - destruct Ht as (_ & _ & Hf). apply (IH dot (child dir e)) in Hx as [s Hs]; [|done|by apply under_ne].
    rewrite Hs, Hu by done. exists (Glob.name e ++ 47 :: s). by rewrite <-app_assoc.
  - intros _ _ ?%not_elem_of_nil. done.
  - intros [Ht Hf] Hr. cbn [seen]. rewrite elem_of_app. intros [?|?]; [by eapply IHt|by eapply IHf].
Qed.
Lemma pruned_nothing dot dir rel f :
  prunes_soundly -> forest_listed dir f -> rel <> [] -> Glob.couldMatch g rel = false -> emitted (seen dot rel f) = [].
Proof.
  intros Hp Hf Hr Hc. unfold emitted. assert (H : forall x, x ∈ seen dot rel f -> wanted x = false).
  { intros x Hx. destruct (proj2 seen_below f dot dir rel x Hf Hr Hx) as [s Hs]. unfold wanted. rewrite Hs.
    destruct (Glob.test g (rel ++ 47 :: s)) eqn:Ht; [|done]. apply Hp in Ht. congruence. }
  induction (seen dot rel f) as [|x l IH]; [done|]. simpl. rewrite H by (by left). apply IH. intros y Hy. apply H. by right.
Qed.

Context (aborted : nat -> bool) (Hmono : forall n m, aborted n = true -> (n <= m)%nat -> aborted m = true).
(** A walk emits [l] of [l0]: all of it, or what came before the signal. *)
Definition good (l l0 : list entry) (n : nat) : Prop := l `prefix_of` l0 /\ (l = l0 \/ aborted n = true).
Lemma good_app l1 l1' l2 l2' n1 n2 :
  good l1 l1' n1 -> (n1 <= n2)%nat -> (aborted n1 = true -> l2 = []) -> good l2 l2' n2 -> good (l1 ++ l2) (l1' ++ l2') n2.
Proof.
  intros [Hp1 [->|Ha]] Hn Hl [Hp2 Hor]; unfold good.
  - split; [by apply prefix_app|]. destruct Hor as [->|?]; auto.
  - rewrite Hl, app_nil_r by done. split; [by apply prefix_app_r|]. right. by eapply Hmono.
Qed.
Lemma good_all l n : good l l n.
Proof. split; [done|by left]. Qed.
Lemma good_none l0 n : aborted n = true -> good [] l0 (S n).
Proof. intros Ha. split; [apply prefix_nil|]. right. eapply Hmono; [exact Ha|lia]. Qed.
Notation entries_of fuel := (Glob.walk_entries aborted g o (Glob.walkDir listDir aborted g o fuel)).
Lemma walk_entries_aborted walk dir rel (es : list entry) n : aborted n = true -> exists n', Glob.walk_entries aborted g o walk dir rel es n = Ok ([], n').
Proof. intros Ha. destruct es as [|e es]; simpl; [by exists n|]. rewrite Ha. by exists (S n). Qed.
Definition walks (f : forest) : Prop := forall fuel dir rel n,
  forest_listed dir f -> (forest_depth f <= fuel)%nat ->
  exists l n', entries_of fuel dir rel (roots f) n = Ok (l, n') /\ (n <= n')%nat /\ good l (emitted (seen (Glob.opt_dot o) rel f)) n'.
Lemma walkDir_listed f fuel dir rel n :
  walks f -> listDir dir = Ok (roots f) -> forest_listed dir f -> (forest_depth f < fuel)%nat ->
  exists l n', Glob.walkDir listDir aborted g o fuel dir rel n = Ok (l, n') /\ (n <= n')%nat /\ good l (emitted (seen (Glob.opt_dot o) rel f)) n'.
Proof.
  intros Hf Hl Hlisted Hd. destruct fuel as [|fuel]; [lia|]. cbn [Glob.walkDir]. rewrite Hl. destruct (aborted n) eqn:Ha.
  - exists [], (S n). split_and!; [done|lia|by apply good_none].
  - destruct (Hf fuel dir rel (S n)) as (l & n' & E & ? & ?); [done|lia|]. exists l, n'. split_and!; [done|lia|done].
Qed.
(** A directory that cannot be read is emitted, if it matches, and holds nothing. *)
Lemma walkDir_locked fuel dir rel n err :
  listDir dir = Throw err -> (0 < fuel)%nat -> Glob.walkDir listDir aborted g o fuel dir rel n = Ok ([], S n).
Proof. intros Hl Hf. destruct fuel; [lia|]. cbn [Glob.walkDir]. rewrite Hl. by destruct (aborted n). Qed.
(** What one entry adds, before what is below it. *)
Lemma emitted_here p e :
  emitted [(p, e)] = if Glob.test g p && negb (if Glob.isDirectory e then Glob.onlyFiles o else Glob.onlyDirectories o) then [e] else [].
Proof. unfold emitted, wanted. simpl. by destruct (Glob.test g p && _). Qed.
Definition below_of (t : tree) : forest := match t with Dir _ f => f | _ => NoMore end.
Lemma tree_seen_visible dot rel t :
  negb dot && startsWith (Glob.name (tree_entry t)) [46] = false ->
  tree_seen dot rel t = (under rel (tree_entry t), tree_entry t) :: seen dot (under rel (tree_entry t)) (below_of t).
Proof. intros Hh. destruct t; cbn [tree_seen tree_entry below_of] in *; by rewrite Hh. Qed.
(** One turn of the loop over a directory: the entry is emitted if it is wanted, and
    so is what is below it. *)
Lemma walk_turn t f fuel dir rel n :
  prunes_soundly -> walks (below_of t) -> tree_listed dir t -> (tree_depth t <= fuel)%nat -> aborted n = false ->
  negb (Glob.opt_dot o) && startsWith (Glob.name (tree_entry t)) [46] = false ->
  exists l n1, entries_of fuel dir rel (roots (More t f)) n = ('(more, n') ← entries_of fuel dir rel (roots f) n1; Ok (l ++ more, n')) /\
    (n <= n1)%nat /\ good l (emitted (tree_seen (Glob.opt_dot o) rel t)) n1.
Proof.
  intros Hp Hw Ht Hd Ha Hh. set (e := tree_entry t). set (p := under rel e).
  set (here := if Glob.test g p && negb (if Glob.isDirectory e then Glob.onlyFiles o else Glob.onlyDirectories o) then [e] else []).
  assert (Hseen : emitted (tree_seen (Glob.opt_dot o) rel t) = here ++ emitted (seen (Glob.opt_dot o) p (below_of t))).
  { unfold here. rewrite <-emitted_here, <-emitted_app, tree_seen_visible by done. done. }
  assert (Hstep : entries_of fuel dir rel (roots (More t f)) n =
    if Glob.isDirectory e && Glob.couldMatch g p then
      '(below, n1) ← Glob.walkDir listDir aborted g o fuel (child dir e) p (S n);
      '(more, n') ← entries_of fuel dir rel (roots f) n1; Ok ((here ++ below) ++ more, n')
    else '(more, n') ← entries_of fuel dir rel (roots f) (S n); Ok (here ++ more, n')).
  { cbn [roots Glob.walk_entries]. fold e. rewrite Ha. fold e in Hh. rewrite Hh. unfold here, p, under, child.
    destruct (Glob.isDirectory e); [|done]. simpl. destruct (Glob.couldMatch g _); [|done].
    destruct (Glob.walkDir _ _ _ _ _ _ _ _) as [[below n1]|]; [|done]. cbn [mbind res_bind].
    destruct (entries_of fuel dir rel (roots f) n1) as [[more n2]|]; [|done]. cbn [mbind res_bind]. by rewrite <-app_assoc. }
  rewrite Hstep, Hseen. destruct (Glob.isDirectory e && Glob.couldMatch g p) eqn:Hc.
  - apply andb_true_iff in Hc as [Hdir Hc].
    assert (exists l n1, Glob.walkDir listDir aborted g o fuel (child dir e) p (S n) = Ok (l, n1) /\ (S n <= n1)%nat /\
      good l (emitted (seen (Glob.opt_dot o) p (below_of t))) n1) as (l & n1 & E & Hn & Hg).
    { destruct t as [e'|e'|e' f']; destruct Ht as [Hne Ht]; cbn [tree_entry below_of tree_depth] in *.
      - change e with e' in Hdir. congruence.
      - destruct Ht as (_ & err & Ht). exists [], (S (S n)). split_and!; [by eapply walkDir_locked|lia|apply good_all].
      - destruct Ht as (_ & Hl & Hf). by apply walkDir_listed. }
    exists (here ++ l), n1. rewrite E. split_and!; [done|lia|]. destruct Hg as [Hg1 Hg2]. split; [by apply prefix_app|]. destruct Hg2 as [->|?]; auto.
  - exists here, (S n). split_and!; [done|lia|]. assert (emitted (seen (Glob.opt_dot o) p (below_of t)) = []) as ->.
    { destruct t as [e'|e'|e' f']; destruct Ht as [Hne Ht]; cbn [tree_entry below_of] in *; [done..|]. destruct Ht as (Hdir & _ & Hf).
      change e with e' in Hc. rewrite Hdir in Hc. eapply pruned_nothing; [done|exact Hf|by apply under_ne|done]. }
    rewrite app_nil_r. apply good_all.
Qed.
Lemma walk_ok : prunes_soundly -> forall f, walks f.
Proof.
  intros Hp. cut ((forall t, walks (below_of t)) /\ forall f, walks f); [tauto|]. 
  assert (Hnil : walks NoMore).
  { intros fuel dir rel n _ _. exists [], n. split_and!; [done|lia|apply good_all]. }
  apply forest_ind'; [done|done|by intros e f IH|done|].
  intros t IHt f IHf fuel dir rel n [Ht Hf] Hd. cbn [forest_depth] in Hd. cbn [seen]. rewrite emitted_app.
  destruct (aborted n) eqn:Ha.
  { exists [], (S n). cbn [roots Glob.walk_entries]. rewrite Ha. split_and!; [done|lia|by apply good_none]. }
  destruct (negb (Glob.opt_dot o) && startsWith (Glob.name (tree_entry t)) [46]) eqn:Hh.
  - destruct (IHf fuel dir rel (S n)) as (l & n' & E & Hn & Hg); [done|lia|]. exists l, n'. cbn [roots Glob.walk_entries]. rewrite Ha, Hh.
    split_and!; [done|lia|]. assert (tree_seen (Glob.opt_dot o) rel t = []) as -> by (destruct t; simpl in Hh |- *; by rewrite Hh). done.
  - destruct (walk_turn t f fuel dir rel n) as (l & n1 & E & Hn & Hg); [done..|lia|done|done|].
    destruct (IHf fuel dir rel n1) as (more & n' & E' & Hn' & Hg'); [done|lia|].
    exists (l ++ more), n'. rewrite E, E'. split_and!; [done|lia|]. eapply good_app; [exact Hg|done| |done].
    intros Ha1. destruct (walk_entries_aborted (Glob.walkDir listDir aborted g o fuel) dir rel (roots f) n1 Ha1) as (m & Em). rewrite Em in E'. congruence.
Qed.
End walk.
Arguments tree : clear implicits.
Arguments forest : clear implicits.

(** ** The iterator *)

Section iterator.
Context {E : Type}.
(** What happens between the walk and its consumer; the walk ends once. *)
Inductive happens : list E -> nat -> bool -> Glob.iterator E -> Prop :=
| happens_start : happens [] 0 false Glob.started
| happens_emit l n i e : happens l n false i -> happens (l ++ [e]) n false (Glob.emit e i)
| happens_next l n b i : happens l n b i -> happens l (S n) b (Glob.next i)
| happens_finish l n i : happens l n false i -> happens l n true (Glob.finish i).
(** The calls of [next] are answered with the entries in the order of the walk and
    then, once the walk has ended, with the end; those that can be answered are. *)
Lemma iterator_delivers l n b i :
  happens l n b i -> Glob.answers i = map Some (take n l) ++ (if b then replicate (n - length l) None else []).
Proof.
  intros H. enough (Glob.isDone i = b /\ Glob.queue i = drop n l /\ Glob.waiters i = (if b then 0%nat else (n - length l)%nat) /\
    Glob.answers i = map Some (take n l) ++ (if b then replicate (n - length l) None else [])) by tauto.
  induction H as [|l n i e _ (Hd & Hq & Hw & Ha)|l n b i _ (Hd & Hq & Hw & Ha)|l n i _ (Hd & Hq & Hw & Ha)]; [done|..].
  - unfold Glob.emit. rewrite Hw, length_app. cbn [length]. destruct (decide (n <= length l)%nat) as [Hn|Hn].
    + replace (n - length l)%nat with 0%nat by lia. cbn. rewrite Hd, Hq, Ha, take_app_le, drop_app_le by lia.
      split_and!; [done|done|lia|done].
    + replace (n - length l)%nat with (S (n - length l - 1)) by lia. cbn. rewrite Hd, Hq, Ha, !drop_ge, !take_ge by (rewrite ?length_app; simpl; lia).
      rewrite map_app, !app_nil_r. split_and!; [done|done|lia|done].
  - unfold Glob.next. rewrite Hq. destruct (drop n l) as [|x q] eqn:Hx.
    + assert (length l <= n)%nat as Hn by (apply (f_equal length) in Hx; rewrite length_drop in Hx; simpl in Hx; lia).
      rewrite Hd. destruct b; cbn; rewrite ?Hd, ?Hw, ?Ha, !take_ge, drop_ge by lia; (split_and!; [done|done|lia|]); [|done].
      rewrite <-app_assoc. f_equal. replace (S n - length l)%nat with ((n - length l) + 1)%nat by lia. by rewrite replicate_add.
    + assert (n < length l)%nat as Hn by (apply (f_equal length) in Hx; rewrite length_drop in Hx; simpl in Hx; lia).
      cbn. rewrite Hd, Hw, Ha. assert (l !! n = Some x) as Hl by (rewrite <-(Nat.add_0_r n), <-lookup_drop, Hx; done).
      rewrite (take_S_r _ _ x Hl), map_app. replace (n - length l)%nat with 0%nat by lia. replace (S n - length l)%nat with 0%nat by lia.
      split_and!; [done|by rewrite <-Nat.add_1_r, <-drop_drop, Hx|done|]. destruct b; simpl; by rewrite !app_nil_r.
  - unfold Glob.finish. rewrite Hw, Ha. cbn. by rewrite app_nil_r.
Qed.
End iterator.

(** C26: the walker emits, in the order of the listings, exactly the entries below
    the start directory that can be seen, match the pattern and are of the wanted
    kind, each once; pruning loses none. When the signal aborts it, what was emitted
    is a beginning of that. It ends on every finite tree, unreadable directories
    included. The pattern is well-formed, its slashes separate segments ([flat]:
    with one in braces matches are pruned, [braces_slash_pruned]), two stars are a
    whole segment of it or none of its items matches a slash, and the start
    directory can be listed (it cannot when the whole pattern names a file,
    [literal_finds_nothing]). *)
Theorem glob_walks {P} (listDir : jsstring -> res (list (Glob.GlobEntry P))) (ps : items) (o : Glob.GlobOptions) (f : forest P) (fuel : nat) (aborted : nat -> bool) :
  wf false ps = true -> flat ps = true -> globstar ps = true \/ segmental ps = true ->
  listDir (Glob.startDir (show ps) o) = Ok (roots f) -> forest_listed listDir (Glob.startDir (show ps) o) f -> (forest_depth f < fuel)%nat ->
  (forall n m, aborted n = true -> (n <= m)%nat -> aborted m = true) ->
  exists l, Glob.glob listDir aborted fuel (show ps) o = Ok l /\
    let all := emitted (glob_of ps (Glob.opt_dot o)) o (seen (Glob.opt_dot o) (Glob.relPrefix (show ps)) f) in
    l `prefix_of` all /\ ((forall n, aborted n = false) -> l = all).
Proof.
  intros Hw Hf Hp Hl Hlisted Hd Hmono. set (g := glob_of ps (Glob.opt_dot o)).
  assert (prunes_soundly g) as Hs by (intros d s; by apply couldMatch_sound).
  destruct (walkDir_listed listDir g o aborted Hmono f fuel (Glob.startDir (show ps) o) (Glob.relPrefix (show ps)) 0) as (l & n & E & _ & Hpre & Hor);
    [by apply walk_ok|done..|].
  exists l. split; [unfold Glob.glob; rewrite constructor_ok by done; cbn [mbind res_bind]; fold g; by rewrite E|].
  split; [exact Hpre|]. intros Hno. destruct Hor as [->|Ha]; [done|]. by rewrite Hno in Ha.
Qed.

(** ** At concrete patterns and directories *)

Fixpoint word (s : jsstring) (ps : items) : items := match s with [] => ps | c :: s => Cons (Lit false c) (word s ps) end.
(** src/**/*.{ts,js} *)
Definition sources : items :=
  word (js "src/") (Cons Asterisks (word (js "/") (Cons Asterisk (word (js ".") (Cons (Braces (word (js "ts") Nil) (Alt (word (js "js") Nil) End)) Nil))))).
Definition file (n : string) : Glob.GlobEntry nat := {| Glob.name := js n; Glob.path := 0%nat; Glob.isDirectory := false |}.
Definition folder (n : string) : Glob.GlobEntry nat := {| Glob.name := js n; Glob.path := 0%nat; Glob.isDirectory := true |}.
Definition project : forest nat :=
  More (Leaf (file "a.ts")) (More (Dir (folder "lib") (More (Leaf (file "b.js")) (More (Leaf (file "c.md")) NoMore))) (More (Locked (folder "old")) NoMore)).
Definition disk (p : jsstring) : res (list (Glob.GlobEntry nat)) :=
  if bool_decide (p = js "src") then Ok (roots project)
  else if bool_decide (p = js "src/lib") then Ok [file "b.js"; file "c.md"]
  else if bool_decide (p = js ".") then Ok [folder "src"; file "x.ts"; folder ".git"]
  else if bool_decide (p = js ".git") then Ok [file "config"]
  else Throw (JsError "ENOENT").
Definition options (dot : bool) : Glob.GlobOptions := {| Glob.cwd := js "."; Glob.opt_dot := dot; Glob.onlyFiles := true; Glob.onlyDirectories := false |}.
Definition matches (pattern path : string) : option bool :=
  match Glob.constructor (js pattern) false with Ok g => Some (Glob.test g (js path)) | Throw _ => None end.
Definition found (pattern : string) (dot : bool) : option (list jsstring) :=
  match Glob.glob disk (fun _ => false) 5 (js pattern) (options dot) with Ok l => Some (map Glob.name l) | Throw _ => None end.

Lemma glob_matches_witness :
  show sources = js "src/**/*.{ts,js}" /\
  (forall dot g, Glob.constructor (show sources) dot = Ok g ->
    forall path, Glob.test g path = true <-> (dot = true \/ hidden_ok sources path) /\ denotes true sources path) /\
  (exists r, Glob.compiled (show sources) = Ok r) /\
  (flat sources = true -> forall dot, Glob.constructor (show sources) dot = Ok (glob_of sources dot)).
Proof. split; [by vm_compute|]. apply (glob_matches sources). by vm_compute. Defined.
Lemma glob_walks_witness :
  exists l, Glob.glob disk (fun n => (20 <=? n)%nat) 3 (show sources) (options false) = Ok l /\
    let all := emitted (glob_of sources false) (options false) (seen false (Glob.relPrefix (show sources)) project) in
    l `prefix_of` all /\ ((forall n, (20 <=? n)%nat = false) -> l = all).
Proof.
  apply (glob_walks disk sources (options false) project 3); try (by vm_compute).
  - by left.
  - repeat split; try done. by exists (JsError "ENOENT").
  - intros n m ?%Nat.leb_le ?. apply Nat.leb_le. lia.
Defined.
Lemma sources_found : found "src/**/*.{ts,js}" false = Some [js "a.ts"; js "b.js"].
Proof. by vm_compute. Qed.

(** A pattern without wild characters is taken for its own start directory, and
    nothing is found. *)
Lemma literal_finds_nothing : matches "x.ts" "x.ts" = Some true /\ found "x.ts" false = Some [] /\ found "[x].ts" false = Some [js "x.ts"].
Proof. by vm_compute. Qed.
(** Slashes within braces, and two stars within a segment, match but are pruned. *)
Lemma braces_slash_pruned :
  matches "{x,src/lib}/*.js" "src/lib/b.js" = Some true /\ found "{x,src/lib}/*.js" false = Some [] /\
  matches "s**" "src/a.ts" = Some true /\ found "s**" false = Some [].
Proof. by vm_compute. Qed.
(** A dot that the pattern writes counts only at the same place of the path, and
    hidden entries that it names are not walked. *)
Lemma written_dot_ignored :
  matches "**/.env" "a/.env" = Some true /\ matches "**/.env" "a/b/.env" = Some false /\
  matches "{.git,src}/*" ".git/config" = Some false /\ matches "*/.env" "a/.env" = Some true /\
  matches ".[g]it/*" ".git/config" = Some true /\ found ".[g]it/*" false = Some [] /\ found ".[g]it/*" true = Some [js "config"].
Proof. by vm_compute. Qed.
(** A quoted hyphen in a class makes a range; the text of a group that is not closed
    loses its last character. *)
Lemma quoted_hyphen_range : matches "[a\-z]" "m" = Some true /\ matches "[a\-z]" "-" = Some false /\ matches "{ab" "ab" = Some false /\ matches "{ab" "a" = Some true.
Proof. by vm_compute. Qed.
End GlobWalk.
