(* ===== verification/Cron.v ===== *)
(** Cron schedules (src/js/internal/jobs/cron.ts): parsing of expressions and
    the next occurrence of a schedule.

    Field values and times are integers; the length of an interval, which may
    come from a fraction, is a number of [JsArith].  Interpolated parts of
    error messages are left out. *)

From stdpp Require Import sorting.
From S2P Require Import Prelude JsNumber JsArith JsString JsDate.

Module Cron.
Import JsString JsDate.

Record CronSpec := {
  minutes : list Z;
  hours : list Z;
  daysOfMonth : list Z;
  months : list Z;
  daysOfWeek : list Z;
  domRestricted : bool;
  dowRestricted : bool;
}.
Inductive ScheduleSpec :=
| Cron (spec : CronSpec)
| Every (intervalMs : JsArith.number).

Definition ALIASES : list (jsstring * jsstring) :=
  [(js "@hourly", js "0 * * * *"); (js "@daily", js "0 0 * * *"); (js "@weekly", js "0 0 * * 0");
   (js "@monthly", js "0 0 1 * *"); (js "@yearly", js "0 0 1 1 *"); (js "@annually", js "0 0 1 1 *")].
Definition DURATION_SCALE : list (jsstring * Z) :=
  [(js "ms", 1); (js "s", 1000); (js "m", 60000); (js "h", 3600000); (js "d", 86400000)].

(** [DURATION_RE.exec(duration)]: the digits before and after the point, and
    the scale of the unit. *)
Fixpoint digits (s : jsstring) : jsstring * jsstring :=
  match s with
  | c :: s' => if is_dec c then let '(ds, r) := digits s' in (c :: ds, r) else ([], s)
  | [] => ([], [])
  end.
Definition fraction (s : jsstring) : jsstring * jsstring :=
  match s with
  | 46 :: s' => let '(ds, r) := digits s' in if bool_decide (ds = []) then ([], s) else (ds, r)
  | _ => ([], s)
  end.
Definition DURATION_RE (s : jsstring) : option (jsstring * jsstring * Z) :=
  let '(ds, r) := digits s in
  if bool_decide (ds = []) then None
  else let '(fs, unit_) := fraction r in scale ← JMap.get unit_ DURATION_SCALE; Some (ds, fs, scale).

Record FieldRange := { fr_min : Z; fr_max : Z }.
Definition minute_range : FieldRange := {| fr_min := 0; fr_max := 59 |}.
Definition hour_range : FieldRange := {| fr_min := 0; fr_max := 23 |}.
Definition dom_range : FieldRange := {| fr_min := 1; fr_max := 31 |}.
Definition month_range : FieldRange := {| fr_min := 1; fr_max := 12 |}.
Definition dow_range : FieldRange := {| fr_min := 0; fr_max := 7 |}.

(** [Number(ds)] of digits, as it takes part in comparisons and sums: rounded
    to 53 bits, and 2^1024, above every finite number, for infinity. *)
Definition Number (ds : jsstring) : Z :=
  let n := dec_val ds in
  if n <? 2 ^ 53 then n
  else let u := 2 ^ (Z.log2 n - 52) in Z.min (2 ^ 1024) (JsNumber.round_div n u * u).

(** [allowed.add(v)]: a [Set] is the list of its elements in insertion order. *)
Definition add_value (v : Z) (allowed : list Z) : list Z :=
  if bool_decide (v ∈ allowed) then allowed else allowed ++ [v].
Fixpoint add_range (fuel : nat) (v hi step : Z) (allowed : list Z) : res (list Z) :=
  if v <=? hi then
    match fuel with
    | O => Throw Diverges
    | S fuel => add_range fuel (v + step) hi step (add_value v allowed)
    end
  else Ok allowed.

(** The step of one entry of a list: [body] and [step]. *)
Definition parse_step (part : jsstring) : res (jsstring * Z * bool) :=
  match indexOf 47 part with
  | None => Ok (part, 1, false)
  | Some slash =>
      let stepText := drop (S slash) part in
      if negb (numeral stepText) || (Number stepText =? 0) then
        Throw (JsError "cron step must be a positive integer")
      else Ok (take slash part, Number stepText, true)
  end.
(** The bounds of a body, and whether it is a star. *)
Definition parse_body (range : FieldRange) (body : jsstring) : res (Z * Z * bool) :=
  if bool_decide (body = js "*") then Ok (fr_min range, fr_max range, true)
  else
    '(lo, hi) ← match indexOf 45 body with
                | Some dash =>
                    let loText := take dash body in
                    let hiText := drop (S dash) body in
                    if negb (numeral loText) || negb (numeral hiText) then
                      Throw (JsError "cron range must be numeric (names and L/W/# are not supported)")
                    else if Number hiText <? Number loText then Throw (JsError "cron range is inverted")
                    else Ok (Number loText, Number hiText)
                | None =>
                    if negb (numeral body) then
                      Throw (JsError "cron value must be numeric (names and L/W/# are not supported)")
                    else Ok (Number body, Number body)
                end;
    if (lo <? fr_min range) || (fr_max range <? hi) then Throw (JsError "cron value is out of range")
    else Ok (lo, hi, false).
(** One round of the loop of [parseField]. *)
Definition parse_part (range : FieldRange) (acc : list Z * bool) (part : jsstring) : res (list Z * bool) :=
  let '(allowed, restricted) := acc in
  if bool_decide (part = []) then Throw (JsError "cron field has an empty list entry")
  else
    '(body, step, slash) ← parse_step part;
    '(lo, hi, star) ← parse_body range body;
    let restricted := restricted || negb star || slash in
    allowed ← add_range (Z.to_nat (hi - lo + 1)) lo hi step allowed;
    Ok (allowed, restricted).
Fixpoint parse_parts (range : FieldRange) (acc : list Z * bool) (parts : list jsstring) : res (list Z * bool) :=
  match parts with
  | [] => Ok acc
  | part :: parts => acc ← parse_part range acc part; parse_parts range acc parts
  end.
Definition sort_values (l : list Z) : list Z := merge_sort Z.le l.
Definition parseField (text : jsstring) (range : FieldRange) : res (list Z * bool) :=
  '(allowed, restricted) ← parse_parts range ([], false) (split_on 44 text);
  Ok (sort_values allowed, restricted).

(** [new Set(values)] *)
Definition new_Set (l : list Z) : list Z := foldl (fun s v => add_value v s) [] l.

(** The branch of [parseCron] for intervals. *)
Definition parse_every (text : jsstring) : res ScheduleSpec :=
  match DURATION_RE (trim (drop 6 text)) with
  | None => Throw (JsError "every: duration must match <n><ms|s|m|h|d>")
  | Some (ds, fs, scale) =>
      let intervalMs := JsArith.mul (JsArith.decimal (dec_val (ds ++ fs)) (length fs)) (JsArith.of_int scale) in
      if negb (JsArith.is_pos intervalMs) then Throw (JsError "every: interval must be positive")
      else Ok (Every intervalMs)
  end.
Definition parseCron (spec : jsstring) : res ScheduleSpec :=
  let text := trim spec in
  if bool_decide (text = []) then Throw (JsError "cron expression is empty")
  else if startsWith text (js "every:") then parse_every text
  else
    match (if startsWith text (js "@") then JMap.get text ALIASES else Some text) with
    | None => Throw (JsError "unknown cron alias")
    | Some expanded =>
        match split_runs is_space false [] expanded with
        | [f0; f1; f2; f3; f4] =>
            minute ← parseField f0 minute_range;
            hour ← parseField f1 hour_range;
            dom ← parseField f2 dom_range;
            month ← parseField f3 month_range;
            dow ← parseField f4 dow_range;
            let dowValues := sort_values (new_Set (map (fun v => if v =? 7 then 0 else v) dow.1)) in
            Ok (Cron {| minutes := minute.1; hours := hour.1; daysOfMonth := dom.1; months := month.1;
                        daysOfWeek := dowValues; domRestricted := dom.2; dowRestricted := dow.2 |})
        | _ => Throw (JsError "cron expression must have 5 fields (minute hour dom month dow)")
        end
    end.

(** ** Occurrences *)

(** An argument or a result that may be NaN; [null] too is [None]. *)
Definition nextAllowed (values : list Z) (from : option Z) : option Z :=
  from ← from; List.find (fun v => from <=? v) values.
Definition includes (values : list Z) (x : option Z) : bool :=
  match x with Some x => bool_decide (x ∈ values) | None => false end.

Definition getUTCFullYear (t : option Z) : option Z := YearFromTime <$> t.
Definition getUTCMonth (t : option Z) : option Z := MonthFromTime <$> t.
Definition getUTCDate (t : option Z) : option Z := DateFromTime <$> t.
Definition getUTCDay (t : option Z) : option Z := WeekDay <$> t.
Definition getUTCHours (t : option Z) : option Z := HourFromTime <$> t.
Definition getUTCMinutes (t : option Z) : option Z := MinFromTime <$> t.
Definition plus (k : Z) (x : option Z) : option Z := (fun x => x + k) <$> x.
Definition Date_UTC (year month date hour minute : option Z) : option Z :=
  year ← year; month ← month; date ← date; hour ← hour; minute ← minute; UTC year month date hour minute.

Definition dayMatches (spec : CronSpec) (date : option Z) : bool :=
  let domOk := includes (daysOfMonth spec) (getUTCDate date) in
  let dowOk := includes (daysOfWeek spec) (getUTCDay date) in
  if domRestricted spec && dowRestricted spec then domOk || dowOk
  else if domRestricted spec then domOk
  else if dowRestricted spec then dowOk
  else true.

Definition FIVE_YEARS_MS : Z := 5 * 366 * 86400000.

Inductive round_result := Continue (t : option Z) | Return (time : option Z).

(** The body of the loop of [nextOccurrence]. *)
Definition search_round (spec : CronSpec) (t : option Z) : round_result :=
  let zero := Some 0 in
  if negb (includes (months spec) (plus 1 (getUTCMonth t))) then
    Continue match nextAllowed (months spec) (plus 2 (getUTCMonth t)) with
             | None => Date_UTC (plus 1 (getUTCFullYear t)) (plus (-1) (months spec !! O)) (Some 1) zero zero
             | Some nextMonth => Date_UTC (getUTCFullYear t) (Some (nextMonth - 1)) (Some 1) zero zero
             end
  else
    let nextDay := Date_UTC (getUTCFullYear t) (getUTCMonth t) (plus 1 (getUTCDate t)) zero zero in
    if negb (dayMatches spec t) then Continue nextDay
    else
      match nextAllowed (hours spec) (getUTCHours t) with
      | None => Continue nextDay
      | Some hour =>
          let t := if bool_decide (Some hour <> getUTCHours t)
                   then Date_UTC (getUTCFullYear t) (getUTCMonth t) (getUTCDate t) (Some hour) zero else t in
          match nextAllowed (minutes spec) (getUTCMinutes t) with
          | None =>
              Continue (Date_UTC (getUTCFullYear t) (getUTCMonth t) (getUTCDate t) (plus 1 (getUTCHours t)) zero)
          | Some minute =>
              Return (if bool_decide (Some minute <> getUTCMinutes t)
                      then Date_UTC (getUTCFullYear t) (getUTCMonth t) (getUTCDate t) (getUTCHours t) (Some minute)
                      else t)
          end
      end.
Fixpoint search (fuel : nat) (spec : CronSpec) (bail : Z) (t : option Z) : res (option Z) :=
  match t with
  | Some ms =>
      if ms <=? bail then
        match fuel with
        | O => Throw Diverges
        | S fuel =>
            match search_round spec t with
            | Continue t => search fuel spec bail t
            | Return time => Ok time
            end
        end
      else Throw (JsError "cron expression has no occurrence within five years")
  | None => Throw (JsError "cron expression has no occurrence within five years")
  end.
(** Every round but the last moves to a later hour. *)
Definition search_fuel : nat := Z.to_nat (5 * 366 * 24 + 2).

(** [new Date(n)]: the integer part of a number, clipped. *)
Definition new_Date (n : JsArith.number) : option Z :=
  match n with JsArith.Finite q => TimeClip (Z.quot (QArith_base.Qnum q) (Zpos (QArith_base.Qden q))) | _ => None end.
Definition next_minute (afterMs : Z) : JsArith.number :=
  JsArith.add
    (JsArith.mul (JsArith.floor (JsArith.div_pos (JsArith.of_int afterMs) (JsArith.of_int 60000))) (JsArith.of_int 60000))
    (JsArith.of_int 60000).
Definition nextOccurrence (spec : ScheduleSpec) (afterMs anchorMs : Z) : res JsArith.number :=
  match spec with
  | Every intervalMs =>
      let elapsed := JsArith.sub (JsArith.of_int afterMs) (JsArith.of_int anchorMs) in
      let periods := JsArith.add (JsArith.floor (JsArith.div_pos elapsed intervalMs)) (JsArith.of_int 1) in
      Ok (JsArith.add (JsArith.of_int anchorMs) (JsArith.mul periods intervalMs))
  | Cron spec =>
      t ← search search_fuel spec (afterMs + FIVE_YEARS_MS) (new_Date (next_minute afterMs));
      Ok match t with Some t => JsArith.of_int t | None => JsArith.NaN end
  end.

Example weekday_0230 :
  (s ← parseCron (js "30 2 * * 1-5"); nextOccurrence s 1704067200000 0) = Ok (JsArith.of_int 1704076200000).
Proof. vm_compute. reflexivity. Qed.
Example every_90s : (s ← parseCron (js " every:1.5m "); nextOccurrence s 100000 0) = Ok (JsArith.of_int 180000).
Proof. vm_compute. reflexivity. Qed.
Example february_30 :
  (s ← parseCron (js "0 0 30 2 *"); nextOccurrence s 0 0) =
  Throw (JsError "cron expression has no occurrence within five years").
Proof. vm_compute. reflexivity. Qed.
(** ** Specifications *)

(** A schedule as [parseCron] builds it. *)
Definition values_ok (lo hi : Z) (l : list Z) : Prop :=
  StronglySorted Z.lt l /\ l <> [] /\ Forall (fun v => lo <= v <= hi) l.
Definition spec_ok (spec : CronSpec) : Prop :=
  values_ok 0 59 (minutes spec) /\ values_ok 0 23 (hours spec) /\ values_ok 1 31 (daysOfMonth spec) /\
  values_ok 1 12 (months spec) /\ values_ok 0 6 (daysOfWeek spec).

(** The times at which a schedule fires: whole minutes whose fields are
    allowed, with the rule for the two day fields. *)
Definition day_allowed (spec : CronSpec) (u : Z) : Prop :=
  match domRestricted spec, dowRestricted spec with
  | true, true => DateFromTime u ∈ daysOfMonth spec \/ WeekDay u ∈ daysOfWeek spec
  | true, false => DateFromTime u ∈ daysOfMonth spec
  | false, true => WeekDay u ∈ daysOfWeek spec
  | false, false => True
  end.
Definition fires (spec : CronSpec) (u : Z) : Prop :=
  u mod 60000 = 0 /\ MinFromTime u ∈ minutes spec /\ HourFromTime u ∈ hours spec /\
  MonthFromTime u + 1 ∈ months spec /\ day_allowed spec u.

(** ** The search *)
Lemma dayMatches_spec spec t : dayMatches spec (Some t) = true <-> day_allowed spec t.
Proof.
  unfold dayMatches, day_allowed. cbn. destruct (domRestricted spec), (dowRestricted spec); cbn;
    rewrite ?orb_true_iff, ?bool_decide_eq_true; done.
Qed.

Lemma nextAllowed_Some l from v :
  StronglySorted Z.lt l -> nextAllowed l (Some from) = Some v ->
  v ∈ l /\ from <= v /\ forall w, w ∈ l -> from <= w -> v <= w.
Proof.
  cbn. induction 1 as [|x l Hl IH Hx]; [done|]. cbn [List.find]. destruct (Z.leb_spec from x) as [L|L].
  - intros [= <-]. split; [left|]. split; [done|]. intros w Hw Hf. apply elem_of_cons in Hw as [->|Hw]; [lia|].
    rewrite Forall_forall in Hx. specialize (Hx w Hw). lia.
  - intros E. destruct (IH E) as (H1 & H2 & H3). split; [by right|]. split; [done|].
    intros w Hw Hf. apply elem_of_cons in Hw as [->|Hw]; [lia|auto].
Qed.

Lemma nextAllowed_None l from v : nextAllowed l (Some from) = None -> v ∈ l -> v < from.
Proof.
  cbn. induction l as [|x l IH]; intros E Hv; [by apply not_elem_of_nil in Hv|]. cbn [List.find] in E.
  destruct (Z.leb_spec from x); [done|]. apply elem_of_cons in Hv as [->|Hv]; [done|auto].
Qed.

Lemma head_least lo hi l : values_ok lo hi l -> exists m, l !! O = Some m /\ lo <= m <= hi /\ forall w, w ∈ l -> m <= w.
Proof.
  intros (Hs & Hne & Hf). destruct l as [|m l]; [done|]. exists m. split; [done|].
  apply Forall_cons in Hf as [Hm _]. split; [done|]. apply StronglySorted_inv in Hs as [_ Hs].
  intros w Hw. apply elem_of_cons in Hw as [->|Hw]; [lia|]. rewrite Forall_forall in Hs. specialize (Hs w Hw). lia.
Qed.

(** What one round does from the time [x]: it moves on past times that do not
    fire, to a later hour, or it returns the first time that does. *)
Definition skips (spec : CronSpec) (x x' : Z) : Prop := forall u, x <= u < x' -> ~ fires spec u.
Inductive round_ok (spec : CronSpec) (x : Z) : round_result -> Prop :=
| RO_continue x' :
    x / 3600000 < x' / 3600000 -> x' mod 60000 = 0 -> skips spec x x' -> round_ok spec x (Continue (TimeClip x'))
| RO_return r : x <= r -> fires spec r -> skips spec x r -> Day r = Day x -> round_ok spec x (Return (TimeClip r)).

Lemma RO_day spec x d :
  Day x < d -> skips spec x (d * msPerDay) -> round_ok spec x (Continue (TimeClip (d * msPerDay))).
Proof. intros H Hs. apply RO_continue; [| |done]; revert H; unfold Day, msPerDay; zdm. Qed.

Section round.
Context (spec : CronSpec) (Hspec : spec_ok spec) (x : Z) (Hx : x mod 60000 = 0) (Hy : 100 <= YearFromTime x).
Let y := YearFromTime x.
Let m := MonthFromTime x.

Lemma month_round :
  m + 1 ∉ months spec -> round_ok spec x (Continue
    match nextAllowed (months spec) (Some (m + 2)) with
    | None => Date_UTC (Some (y + 1)) (plus (-1) (months spec !! O)) (Some 1) (Some 0) (Some 0)
    | Some nextMonth => Date_UTC (Some y) (Some (nextMonth - 1)) (Some 1) (Some 0) (Some 0)
    end).
Proof.
  intros Hm. destruct Hspec as (_ & _ & _ & Hmo & _). pose proof (MonthFromTime_range x) as Rm. fold m in Rm.
  destruct (nextAllowed _ _) as [n|] eqn:E.
  - apply nextAllowed_Some in E as (H1 & H2 & H3); [|by destruct Hmo].
    assert (n <= 12) by (destruct Hmo as (_ & _ & F); rewrite Forall_forall in F; specialize (F n H1); lia).
    cbn. rewrite UTC_month by lia.
    assert (L : Day x < MakeDay y (n - 1) 1) by (apply month_before; [lia|]; fold m; lia).
    apply RO_day; [done|]. intros u [Hu1 Hu2] (_ & _ & _ & F & _).
    apply DayFromTime_lt in Hu2. apply Day_mono in Hu1. pose proof (MakeDay_next_year y (n - 1) ltac:(lia)).
    assert (Eu : YearFromTime u = y).
    { pose proof (year_mono _ _ Hu1). assert (YearFromTime u < y + 1) by (apply year_before; lia). fold y in H4. lia. }
    pose proof (month_mono _ _ Hu1 Eu) as Lm. fold m in Lm.
    rewrite <- Eu in Hu2. apply month_before in Hu2; [|lia].
    destruct (decide (MonthFromTime u = m)) as [Em|]; [congruence|]. specialize (H3 _ F ltac:(lia)). lia.
  - pose proof (fun v => nextAllowed_None _ _ v E) as H. destruct (head_least _ _ _ Hmo) as (h & -> & Hh & Hl).
    cbn. change (h + -1) with (h - 1). rewrite UTC_month by lia. pose proof (MakeDay_next_year (y + 1) (h - 1) ltac:(lia)).
    assert (L : Day x < DayFromYear (y + 1)) by (apply year_before; fold y; lia).
    apply RO_day; [lia|]. intros u [Hu1 Hu2] (_ & _ & _ & F & _).
    apply DayFromTime_lt in Hu2. apply Day_mono in Hu1. pose proof (year_mono _ _ Hu1) as Ly. fold y in Ly.
    assert (YearFromTime u < y + 2) by (apply year_before; replace (y + 2) with (y + 1 + 1) by lia; lia).
    destruct (decide (YearFromTime u = y)) as [Eu|Nu].
    + pose proof (month_mono _ _ Hu1 Eu) as Lm. fold m in Lm. specialize (H _ F).
      destruct (decide (MonthFromTime u = m)) as [Em|]; [congruence|lia].
    + assert (Eu : YearFromTime u = y + 1) by lia. rewrite <- Eu in Hu2. apply month_before in Hu2; [|lia].
      specialize (Hl _ F). lia.
Qed.
(** The times of the day from [x] on, hour by hour and minute by minute. *)
Lemma day_time u : u = Day u * msPerDay + HourFromTime u * 3600000 + MinFromTime u * 60000 + u mod 60000.
Proof. unfold Day, msPerDay, HourFromTime, MinFromTime. zdm. Qed.
Lemma day_time_ranges u : 0 <= HourFromTime u < 24 /\ 0 <= MinFromTime u < 60 /\ 0 <= u mod 60000 < 60000.
Proof. unfold HourFromTime, MinFromTime. zdm. Qed.
Lemma fields_of d h mi (u := d * msPerDay + h * 3600000 + mi * 60000) :
  0 <= h < 24 -> 0 <= mi < 60 -> Day u = d /\ HourFromTime u = h /\ MinFromTime u = mi /\ u mod 60000 = 0.
Proof. subst u. unfold Day, msPerDay, HourFromTime, MinFromTime. zdm. Qed.

Lemma nextDay_round :
  (forall u, x <= u -> Day u = Day x -> ~ fires spec u) ->
  round_ok spec x (Continue (Date_UTC (Some y) (Some m) (Some (DateFromTime x + 1)) (Some 0) (Some 0))).
Proof.
  intros H. cbn. unfold y, m. rewrite UTC_fields by done. rewrite !Z.mul_0_l, !Z.add_0_r.
  apply RO_day; [lia|]. intros u [Hu1 Hu2]. apply H; [done|]. apply DayFromTime_lt in Hu2.
  apply Day_mono in Hu1. lia.
Qed.

Lemma utc_time h mi :
  Date_UTC (Some y) (Some m) (Some (DateFromTime x)) (Some h) (Some mi) =
  TimeClip (Day x * msPerDay + h * 3600000 + mi * 60000).
Proof.
  cbn. unfold y, m. pose proof (UTC_fields x 0 h mi Hy) as E. by rewrite !Z.add_0_r in E.
Qed.

(** From the hour [h] on, the hours before it and after [x] not allowed. *)
Lemma minute_round h mi0 :
  day_allowed spec x -> m + 1 ∈ months spec -> h ∈ hours spec -> 0 <= h < 24 -> 0 <= mi0 < 60 ->
  x <= Day x * msPerDay + h * 3600000 + mi0 * 60000 ->
  skips spec x (Day x * msPerDay + h * 3600000 + mi0 * 60000) ->
  round_ok spec x
    match nextAllowed (minutes spec) (Some mi0) with
    | None => Continue (TimeClip (Day x * msPerDay + (h + 1) * 3600000))
    | Some mi => Return (TimeClip (Day x * msPerDay + h * 3600000 + mi * 60000))
    end.
Proof.
  intros Hd Hm Hh Rh Rm0 Hle Hs. destruct Hspec as (Hmi & _). destruct (nextAllowed _ _) as [mi|] eqn:E.
  - apply nextAllowed_Some in E as (H1 & H2 & H3); [|by destruct Hmi].
    assert (mi < 60) by (destruct Hmi as (_ & _ & F); rewrite Forall_forall in F; specialize (F mi H1); lia).
    destruct (fields_of (Day x) h mi) as (E1 & E2 & E3 & E4); [lia..|].
    apply RO_return; [lia| | |done].
    + destruct (same_day _ _ E1) as (_ & Em & Edt & Ew). unfold fires. rewrite E2, E3, Em.
      split_and!; try done. unfold day_allowed in *. by rewrite Edt, Ew.
    + intros u Hu F. destruct (decide (u < Day x * msPerDay + h * 3600000 + mi0 * 60000)); [apply (Hs u); [lia|done]|].
      destruct F as (F0 & F1 & _). pose proof (day_time u). pose proof (day_time_ranges u).
      assert (Day u = Day x) by (unfold Day, msPerDay in *; zdm).
      specialize (H3 _ F1). unfold msPerDay in *. lia.
  - pose proof (fun v => nextAllowed_None _ _ v E) as H. apply RO_continue.
    + unfold msPerDay in *. zdm.
    + unfold msPerDay in *. zdm.
    + intros u Hu F. destruct (decide (u < Day x * msPerDay + h * 3600000 + mi0 * 60000)); [apply (Hs u); [lia|done]|].
      destruct F as (F0 & F1 & _). specialize (H _ F1). pose proof (day_time u). pose proof (day_time_ranges u).
      assert (Day u = Day x) by (unfold Day, msPerDay in *; zdm). unfold msPerDay in *. lia.
Qed.
Context (Hlo : -8640000000000000 <= x) (Hhi : (Day x + 1) * msPerDay <= 8640000000000000).

Lemma clip_day h mi :
  0 <= h < 24 -> 0 <= mi < 60 -> x <= Day x * msPerDay + h * 3600000 + mi * 60000 ->
  TimeClip (Day x * msPerDay + h * 3600000 + mi * 60000) = Some (Day x * msPerDay + h * 3600000 + mi * 60000).
Proof. intros. apply TimeClip_valid. unfold msPerDay in *. lia. Qed.

(** The lines of the round after [t] has been moved to an allowed hour. *)
Lemma minute_lines h mi0 (t := Some (Day x * msPerDay + h * 3600000 + mi0 * 60000)) :
  day_allowed spec x -> m + 1 ∈ months spec -> h ∈ hours spec -> 0 <= h < 24 -> 0 <= mi0 < 60 ->
  x <= Day x * msPerDay + h * 3600000 + mi0 * 60000 ->
  skips spec x (Day x * msPerDay + h * 3600000 + mi0 * 60000) ->
  round_ok spec x
    match nextAllowed (minutes spec) (getUTCMinutes t) with
    | None =>
        Continue (Date_UTC (getUTCFullYear t) (getUTCMonth t) (getUTCDate t) (plus 1 (getUTCHours t)) (Some 0))
    | Some minute =>
        Return (if bool_decide (Some minute <> getUTCMinutes t)
                then Date_UTC (getUTCFullYear t) (getUTCMonth t) (getUTCDate t) (getUTCHours t) (Some minute)
                else t)
    end.
Proof.
  intros Hd Hm Hh Rh Rm Hle Hs. pose proof (minute_round h mi0 Hd Hm Hh Rh Rm Hle Hs) as R.
  destruct (fields_of (Day x) h mi0) as (E1 & E2 & E3 & E4); [lia..|].
  destruct (same_day _ _ E1) as (Ey & Em & Ed & _). subst t.
  unfold getUTCMinutes, getUTCFullYear, getUTCMonth, getUTCDate, getUTCHours, plus. cbn [fmap option_fmap option_map].
  rewrite E2, E3, Ey, Em, Ed. fold y m. destruct (nextAllowed _ _) as [mi|] eqn:En.
  - case_bool_decide as B; [by rewrite utc_time|]. injection B as ->.
    rewrite clip_day in R by done. exact R.
  - rewrite utc_time, Z.mul_0_l, Z.add_0_r. exact R.
Qed.

Lemma search_round_ok : round_ok spec x (search_round spec (Some x)).
Proof.
  unfold search_round. cbn [fmap option_fmap option_map getUTCMonth getUTCFullYear getUTCDate getUTCHours plus includes].
  fold y m. cbv zeta. case_bool_decide as Bm; cbn [negb]; [|by apply month_round].
  destruct (dayMatches spec (Some x)) eqn:Bd; cbn [negb].
  2: { apply nextDay_round. intros u Hu Eu (_ & _ & _ & _ & F). destruct (same_day _ _ Eu) as (_ & _ & E1 & E2).
       assert (day_allowed spec x) as A by (unfold day_allowed in *; by rewrite <- E1, <- E2).
       apply dayMatches_spec in A. congruence. }
  apply dayMatches_spec in Bd. destruct (nextAllowed (hours spec) _) as [h|] eqn:Eh.
  2: { apply nextDay_round. intros u Hu Eu (_ & _ & F & _). apply (nextAllowed_None _ _ _ Eh) in F.
       pose proof (day_time u). pose proof (day_time x). pose proof (day_time_ranges u). pose proof (day_time_ranges x).
       rewrite Eu in *. unfold msPerDay in *. lia. }
  destruct Hspec as (_ & Hho & _). apply nextAllowed_Some in Eh as (H1 & H2 & H3); [|by destruct Hho].
  assert (Rh : 0 <= h < 24) by (destruct Hho as (_ & _ & F); rewrite Forall_forall in F; specialize (F h H1); lia).
  pose proof (day_time x) as Dx. pose proof (day_time_ranges x) as Rx.
  case_bool_decide as Bh.
  - assert (HourFromTime x + 1 <= h) by (destruct (decide (h = HourFromTime x)); [congruence|lia]).
    rewrite utc_time, clip_day by (unfold msPerDay in *; lia).
    apply minute_lines; try done; [unfold msPerDay in *; lia|]. intros u Hu (_ & _ & F & _).
    pose proof (day_time u). pose proof (day_time_ranges u).
    assert (Day u = Day x) by (unfold Day, msPerDay in *; zdm).
    specialize (H3 _ F). unfold msPerDay in *. lia.
  - injection Bh as ->. rewrite Hx, Z.add_0_r in Dx. 
    pose proof (minute_lines (HourFromTime x) (MinFromTime x)) as L. cbv zeta in L. rewrite <- Dx in L.
    apply L; try done; try tauto. intros u Hu. lia.
Qed.
End round.

Definition no_occurrence : string := "cron expression has no occurrence within five years".

(** The search from a whole minute [x]: it ends, with the first time that
    fires, no later than on the day of [bail], or with the error when nothing
    fires up to [bail]. *)
Definition found (spec : CronSpec) (x bail : Z) (r : res (option Z)) : Prop :=
  match r with
  | Ok (Some t) => x <= t /\ Day t <= Day bail /\ fires spec t /\ skips spec x t
  | Throw (JsError msg) => msg = no_occurrence /\ skips spec x (bail + 1)
  | _ => False
  end.

Lemma found_skip spec x x' bail r : x <= x' -> skips spec x x' -> found spec x' bail r -> found spec x bail r.
Proof.
  intros Hx Hs. assert (forall z, skips spec x' z -> skips spec x z) as H.
  { intros z Hz u Hu. destruct (decide (u < x')); [apply Hs|apply Hz]; lia. }
  destruct r as [[t|]|[]]; cbn; try done; [|intros [? ?]; auto]. intros (H1 & H2 & H3 & H4). split_and!; [lia|done|done|by apply H].
Qed.

(** Year 100, the first that [Date.UTC] takes as it is. *)
Definition year_100 : Z := -59011459200000.

Lemma search_found spec bail fuel x :
  spec_ok spec -> bail + msPerDay <= 8640000000000000 -> year_100 <= x -> x mod 60000 = 0 ->
  bail / 3600000 - x / 3600000 < Z.of_nat fuel -> found spec x bail (search fuel spec bail (TimeClip x)).
Proof.
  intros Hspec Hb. revert x. induction fuel as [|fuel IH]; intros x Hx Hm Hf; unfold TimeClip, search; fold search.
  - destruct (_ <=? 8640000000000000); [destruct (Z.leb_spec x bail)|]; cbn; [zdm|split; [done|intros u Hu; lia]|split; [done|intros u Hu; zdm]].
  - destruct (Z.leb_spec (Z.abs x) 8640000000000000).
    2: { cbn. split; [done|]. unfold year_100 in *. intros u Hu. unfold msPerDay in *. lia. }
    destruct (Z.leb_spec x bail); [|cbn; split; [done|intros u Hu; lia]].
    assert (R : round_ok spec x (search_round spec (Some x))).
    { apply search_round_ok; [done|done| |lia|unfold Day, msPerDay in *; zdm].
      unfold YearFromTime. apply year_of_day_ge. unfold Day, msPerDay, year_100 in *.
      change (DayFromYear 100) with (-683003). zdm. }
    destruct R as [x' H1 H2 H3|r H1 H2 H3 H4].
    + apply (found_skip _ _ x'); [zdm|done|]. apply IH; [zdm|done|zdm].
    + rewrite TimeClip_valid; [|unfold Day, msPerDay, year_100 in *; zdm]. split_and!; try done. rewrite H4. by apply Day_mono.
Qed.
Lemma next_minute_int after :
  Z.abs after <= 8640000000000000 -> next_minute after = JsArith.of_int (after / 60000 * 60000 + 60000).
Proof.
  intros H. unfold next_minute. rewrite JsArith.floor_div_int, JsArith.mul_int, JsArith.add_int by zdm. done.
Qed.

Lemma new_Date_int z : new_Date (JsArith.of_int z) = TimeClip z.
Proof. cbn. by rewrite Z.quot_1_r. Qed.

(** C32: for every schedule of the shape that the parser builds ([spec_ok]), the
    next occurrence after a time is the earliest later time at which the schedule
    fires, and the search ends.  It throws only when nothing fires within five
    years of 366 days; what it returns is no later than the day on which they end.
    On that last day the code may return a time after their end, as
    [late_occurrence] shows.  The times are those from the year 100 on whose
    search window is within the range of dates. *)
Theorem nextOccurrence_least spec after anchor :
  spec_ok spec -> year_100 <= after -> after + FIVE_YEARS_MS + msPerDay <= 8640000000000000 ->
  (exists t, nextOccurrence (Cron spec) after anchor = Ok (JsArith.of_int t) /\
     after < t /\ Day t <= Day (after + FIVE_YEARS_MS) /\ fires spec t /\ forall u, after < u < t -> ~ fires spec u) \/
  (nextOccurrence (Cron spec) after anchor = Throw (JsError no_occurrence) /\
     forall u, after < u <= after + FIVE_YEARS_MS -> ~ fires spec u).
Proof.
  intros Hspec Hlo Hhi. cbn [nextOccurrence].
  rewrite next_minute_int, new_Date_int by (unfold year_100, FIVE_YEARS_MS, msPerDay in *; lia).
  set (x := after / 60000 * 60000 + 60000). set (bail := after + FIVE_YEARS_MS).
  assert (F : found spec x bail (search search_fuel spec bail (TimeClip x))).
  { apply search_found; subst x bail; [done|lia|zdm|zdm|]. unfold search_fuel. rewrite Z2Nat.id by lia.
    unfold FIVE_YEARS_MS. zdm. }
  assert (G : forall u, after < u < x -> ~ fires spec u) by (intros u Hu (E & _); subst x; zdm).
  assert (after < x) by (subst x; zdm).
  destruct (search _ _ _ _) as [[t|]|[]]; try done; cbn in F |- *; [left|right].
  - destruct F as (F1 & F2 & F3 & F4). exists t. split_and!; [done|lia|done|done|]. intros u Hu.
    destruct (decide (u < x)); [apply G|apply F4]; lia.
  - destruct F as [-> F]. split; [done|]. intros u Hu. destruct (decide (u < x)); [apply G|apply F]; lia.
Qed.

(** "30 2 * * 1-5" *)
Definition weekdays_0230 : CronSpec :=
  {| minutes := [30]; hours := [2]; daysOfMonth := seqZ 1 31; months := seqZ 1 12; daysOfWeek := [1; 2; 3; 4; 5];
     domRestricted := false; dowRestricted := true |}.
Lemma seqZ_ok lo hi : lo <= hi -> values_ok lo hi (seqZ lo (hi - lo + 1)).
Proof.
  intros H. split_and!.
  - generalize (hi - lo + 1) as n. intros n. unfold seqZ. generalize (Z.to_nat n) as k. intros k.
    generalize 0%nat. induction k as [|k IH]; intros i; cbn; constructor; [apply IH|].
    rewrite Forall_fmap. apply Forall_forall. intros j Hj. apply elem_of_seq in Hj. cbn. lia.
  - intros E. apply (f_equal length) in E. rewrite length_seqZ in E. cbn in E. lia.
  - apply Forall_seqZ. intros; lia.
Qed.

Lemma nextOccurrence_least_witness :
  fires weekdays_0230 1704076200000 /\
  forall u, 1704067200000 < u < 1704076200000 -> ~ fires weekdays_0230 u.
Proof.
  destruct (nextOccurrence_least weekdays_0230 1704067200000 0) as [(t & E & _ & _ & F & G)|[E _]].
  - assert (S : forall v, StronglySorted Z.lt [v]) by (repeat constructor).
    split; [|split; [|split; [apply (seqZ_ok 1 31); lia|split; [apply (seqZ_ok 1 12); lia|]]]];
      (split; [|split; [discriminate|]]); repeat constructor; cbn; lia.
  - unfold year_100. lia.
  - unfold FIVE_YEARS_MS, msPerDay. lia.
  - vm_compute in E. injection E as <-. split; [exact F|exact G].
  - vm_compute in E. discriminate E.
Defined.

(** An interval fires at the first whole multiple of its length, counted
    from the anchor, that is after the given time. *)
Theorem interval_next after anchor i :
  Z.abs after < 2 ^ 51 -> Z.abs anchor < 2 ^ 51 -> 0 < i < 2 ^ 51 ->
  exists k, nextOccurrence (Every (JsArith.of_int i)) after anchor = Ok (JsArith.of_int (anchor + k * i)) /\
    after < anchor + k * i <= after + i.
Proof.
  intros Ha Hn Hi. exists ((after - anchor) / i + 1).
  pose proof (Z.div_mod (after - anchor) i ltac:(lia)). pose proof (Z.mod_pos_bound (after - anchor) i ltac:(lia)).
  set (q := (after - anchor) / i) in *. cbn [nextOccurrence]. cbv zeta.
  assert (Z.abs q < 2 ^ 52 + 1) by nia.
  rewrite JsArith.sub_int, JsArith.floor_div_int by lia. fold q.
  rewrite (JsArith.add_int q 1) by lia. rewrite JsArith.mul_int by lia. rewrite JsArith.add_int by lia.
  split; [done|lia].
Qed.
Lemma interval_next_witness :
  exists k, nextOccurrence (Every (JsArith.of_int 90000)) 100000 0 = Ok (JsArith.of_int (0 + k * 90000)) /\
    100000 < 0 + k * 90000 <= 190000.
Proof. apply (interval_next 100000 0 90000); lia. Defined.

(** The window of five years does not reach over the missing leap day of the
    year 2100. *)
Example leap_day_gap :
  (s ← parseCron (js "0 0 29 2 *"); nextOccurrence s 3981312000000 0) = Throw (JsError no_occurrence).
Proof. vm_compute. reflexivity. Qed.
(** The window ends at 2104-02-29T12:00Z; what is returned is later that day. *)
Lemma late_occurrence :
  (s ← parseCron (js "59 23 29 2 *"); nextOccurrence s 4075617600000 0) = Ok (JsArith.of_int 4233772740000) /\
  4075617600000 + FIVE_YEARS_MS = 4233729600000.
Proof. split; by vm_compute. Qed.
End Cron.
