(* ===== verification/CronSyntax.v ===== *)
(** The syntax of cron expressions: what [parseField] and [parseCron] of [Cron]
    accept, and the values they return.

    A field is a list of entries, each a star, a value or a range with an
    optional step; [print_field] writes it, [denotes] says which values an
    entry stands for. *)

From stdpp Require Import sorting.
From S2P Require Import Prelude JsNumber JsArith JsString JsDate Cron.

Module CronSyntax.
Import JsString Cron.

Inductive body := Star | Value (ds : jsstring) | Range (lo hi : jsstring).
Record entry := { e_body : body; e_step : option jsstring }.

Definition print_body (b : body) : jsstring :=
  match b with Star => js "*" | Value ds => ds | Range lo hi => lo ++ 45 :: hi end.
Definition print_entry (e : entry) : jsstring :=
  print_body (e_body e) ++ match e_step e with Some s => 47 :: s | None => [] end.
Definition print_field (es : list entry) : jsstring := join [44] (map print_entry es).

Definition bounds (r : FieldRange) (b : body) : Z * Z :=
  match b with
  | Star => (fr_min r, fr_max r)
  | Value ds => (dec_val ds, dec_val ds)
  | Range lo hi => (dec_val lo, dec_val hi)
  end.
Definition step_of (e : entry) : Z := match e_step e with Some s => dec_val s | None => 1 end.
Definition body_ok (r : FieldRange) (b : body) : Prop :=
  match b with
  | Star => True
  | Value ds => numeral ds = true
  | Range lo hi => numeral lo = true /\ numeral hi = true /\ dec_val lo <= dec_val hi
  end /\ fr_min r <= (bounds r b).1 /\ (bounds r b).2 <= fr_max r.
Definition entry_ok (r : FieldRange) (e : entry) : Prop :=
  body_ok r (e_body e) /\ match e_step e with Some s => numeral s = true /\ dec_val s <> 0 | None => True end.
(** The values of an entry: from the lower bound in steps up to the upper. *)
Definition denotes (r : FieldRange) (e : entry) (v : Z) : Prop :=
  (bounds r (e_body e)).1 <= v <= (bounds r (e_body e)).2 /\ (v - (bounds r (e_body e)).1) mod step_of e = 0.
(** A lone star is the only entry that does not narrow its field. *)
Definition narrows (e : entry) : bool :=
  match e_body e, e_step e with Star, None => false | _, _ => true end.

(** ** Numbers *)
Lemma numeral_digits ds : numeral ds = true -> ds <> [] /\ forallb is_dec ds = true.
Proof. unfold numeral. rewrite andb_true_iff, negb_true_iff, bool_decide_eq_false. done. Qed.

Lemma numeral_free c ds : is_dec c = false -> numeral ds = true -> c ∉ ds.
Proof.
  intros Hc H Hin. apply numeral_digits in H as [_ H]. rewrite forallb_forall in H.
  apply list_elem_of_In, H in Hin. congruence.
Qed.

Lemma numeral_val ds : numeral ds = true -> 0 <= dec_val ds.
Proof. intros H. apply digits_nonneg. by apply numeral_digits. Qed.

Lemma Number_small ds : dec_val ds < 2 ^ 53 -> Number ds = dec_val ds.
Proof. intros H. unfold Number. by rewrite (proj2 (Z.ltb_lt _ _) H). Qed.

Lemma Number_large ds : 2 ^ 53 <= dec_val ds -> 2 ^ 53 <= Number ds.
Proof.
  intros H. unfold Number. rewrite (proj2 (Z.ltb_ge _ _) H). cbv zeta. apply Z.min_glb; [done|].
  set (n := dec_val ds) in *. pose proof (Z.log2_spec n ltac:(lia)) as [L1 L2].
  assert (53 <= Z.log2 n) by (apply Z.log2_le_pow2; lia).
  set (u := 2 ^ (Z.log2 n - 52)). assert (E : 2 ^ Z.log2 n = 2 ^ 52 * u) by (unfold u; rewrite <- Z.pow_add_r by lia; f_equal; lia).
  assert (2 <= u) by (unfold u; change 2 with (2 ^ 1) at 1; apply Z.pow_le_mono_r; lia).
  pose proof (JsArith.round_div_bounds n u ltac:(lia)). assert (2 ^ 52 <= JsNumber.round_div n u) by nia. nia.
Qed.

(** A number and the digits it was read from agree as values of a field ... *)
Lemma Number_field ds k : k < 2 ^ 53 -> Number ds <= k <-> dec_val ds <= k.
Proof.
  intros Hk. destruct (decide (dec_val ds < 2 ^ 53)) as [H|H]; [by rewrite Number_small|].
  pose proof (Number_large ds ltac:(lia)). lia.
Qed.
(** ... and as steps. *)
Lemma Number_pos ds : numeral ds = true -> Number ds = 0 <-> dec_val ds = 0.
Proof.
  intros Hn. destruct (decide (dec_val ds < 2 ^ 53)) as [H|H]; [by rewrite Number_small|].
  pose proof (Number_large ds ltac:(lia)). lia.
Qed.
Lemma Number_step ds d :
  numeral ds = true -> dec_val ds <> 0 -> 0 <= d < 2 ^ 53 -> d mod Number ds = 0 <-> d mod dec_val ds = 0.
Proof.
  intros Hn H0 Hd. destruct (decide (dec_val ds < 2 ^ 53)) as [H|H]; [by rewrite Number_small|].
  pose proof (Number_large ds ltac:(lia)). by rewrite !Z.mod_small by lia.
Qed.

(** ** Sets *)
Lemma elem_add_value w v l : w ∈ add_value v l <-> w = v \/ w ∈ l.
Proof.
  unfold add_value. case_bool_decide; [naive_solver|]. rewrite elem_of_app, list_elem_of_singleton. tauto.
Qed.
Lemma NoDup_add_value v l : NoDup l -> NoDup (add_value v l).
Proof.
  intros H. unfold add_value. case_bool_decide as B; [done|]. apply NoDup_app. split; [done|].
  split; [|apply NoDup_singleton]. intros x Hx Hx'. apply list_elem_of_singleton in Hx'. by subst.
Qed.

Lemma add_range_spec hi step : 0 < step -> forall fuel v l,
  hi - v < Z.of_nat fuel -> NoDup l ->
  exists l', add_range fuel v hi step l = Ok l' /\ NoDup l' /\
    forall w, w ∈ l' <-> w ∈ l \/ v <= w <= hi /\ (w - v) mod step = 0.
Proof.
  intros Hs. induction fuel as [|fuel IH]; intros v l Hf Hl; cbn [add_range]; destruct (Z.leb_spec v hi).
  - lia.
  - exists l. split_and!; [done|done|]. intros w. split; [auto|]. intros [?|[? _]]; [done|lia].
  - destruct (IH (v + step) (add_value v l)) as (l' & E & Hd & Hw); [lia|by apply NoDup_add_value|].
    exists l'. split_and!; [done|done|]. intros w. rewrite Hw, elem_add_value.
    assert (M : (w - (v + step)) mod step = (w - v) mod step).
    { replace (w - v) with (w - (v + step) + 1 * step) by lia. by rewrite Z.mod_add by lia. }
    rewrite M. split.
    + intros [[->|?]|[? ?]]; [right|by left|right; split; [lia|done]].
      rewrite Z.sub_diag, Z.mod_0_l by lia. split; [lia|done].
    + intros [?|[[? ?] E0]]; [auto|]. destruct (decide (w = v)) as [->|]; [auto|]. right. split; [|done].
      apply Z.mod_divide in E0 as [q Hq]; [|lia].
      clear -Hq Hs H0 H1 n. assert (0 < q) by (apply (Z.mul_pos_cancel_r q step Hs); lia). nia.
  - exists l. split_and!; [done|done|]. intros w. split; [auto|]. intros [?|[? _]]; [done|lia].
Qed.

(** Sorting a set gives its elements in strictly ascending order. *)
Lemma sort_values_spec l : NoDup l -> StronglySorted Z.lt (sort_values l) /\ forall v, v ∈ sort_values l <-> v ∈ l.
Proof.
  intros Hd. unfold sort_values. pose proof (merge_sort_Permutation Z.le l) as P. split.
  - assert (S : StronglySorted Z.le (merge_sort Z.le l)) by (apply StronglySorted_merge_sort; apply _).
    rewrite <- P in Hd. clear P. revert Hd. induction S as [|x k S IH F]; intros Hd; [constructor|].
    apply NoDup_cons in Hd as [Hx Hd]. constructor; [auto|]. apply Forall_forall. intros w Hw.
    rewrite Forall_forall in F. specialize (F w Hw). assert (w <> x) by congruence. lia.
  - intros v. by rewrite P.
Qed.

Lemma sorted_unique l l' :
  StronglySorted Z.lt l -> StronglySorted Z.lt l' -> (forall v, v ∈ l <-> v ∈ l') -> l = l'.
Proof.
  intros S. revert l'. induction S as [|x l S IH F]; intros l' S' H; destruct S' as [|y l' S' F'].
  - done.
  - exfalso. specialize (H y). apply (not_elem_of_nil y). apply H. left.
  - exfalso. specialize (H x). apply (not_elem_of_nil x). apply H. left.
  - rewrite Forall_forall in F, F'.
    assert (E : forall v, v = x \/ v ∈ l <-> v = y \/ v ∈ l') by (intros v; rewrite <- !elem_of_cons; apply H).
    assert (x = y) as <-.
    { pose proof (F y). pose proof (F' x). pose proof (E x). pose proof (E y). destruct (decide (x = y)); [done|].
      assert (x < y) by naive_solver. assert (y < x) by naive_solver. lia. }
    f_equal. apply IH; [done|]. intros v. pose proof (F v). pose proof (F' v). pose proof (E v).
    destruct (decide (v = x)); [|tauto]. subst v. split; intros Hv; exfalso; [assert (x < x) by auto|assert (x < x) by auto]; lia.
Qed.
(** ** Entries *)
Section field.
Context (r : FieldRange) (Hr : 0 <= fr_min r /\ fr_min r <= fr_max r < 2 ^ 53).

Lemma Number_bound ds : dec_val ds <= fr_max r -> Number ds = dec_val ds.
Proof. intros H. apply Number_small. lia. Qed.

Lemma drop_length_cons (c : Z) p s : drop (S (length p)) (p ++ c :: s) = s.
Proof. rewrite cons_middle, app_assoc. rewrite <- (drop_app_length (p ++ [c]) s) at 2. f_equal. rewrite length_app. cbn. lia. Qed.

Lemma numeral_not_star ds s : numeral ds = true -> ds ++ s <> js "*".
Proof.
  intros H E. apply (numeral_free 42 ds) in H as H'; [|done]. apply numeral_digits in H as [Hne _].
  destruct ds as [|d ds]; [done|]. injection E as -> _. apply H'. left.
Qed.

Lemma parse_body_print b :
  body_ok r b ->
  parse_body r (print_body b) = Ok ((bounds r b).1, (bounds r b).2, match b with Star => true | _ => false end).
Proof.
  intros [Hb Hlh]. unfold parse_body. destruct b as [|ds|lo hi]; cbn [print_body bounds fst snd] in *; [done|..].
  - rewrite bool_decide_false by (rewrite <- (app_nil_r ds); by apply numeral_not_star).
    rewrite (proj2 (indexOf_None 45 ds)) by (by apply numeral_free). rewrite Hb. cbn [negb mbind res_bind].
    rewrite Number_bound by lia. rewrite (proj2 (Z.ltb_ge _ _)), (proj2 (Z.ltb_ge _ _)) by lia. done.
  - destruct Hb as (Hlo & Hhi & Hle). rewrite bool_decide_false by (by apply numeral_not_star).
    rewrite indexOf_app by (by apply numeral_free). cbv zeta. rewrite take_app_length, drop_length_cons, Hlo, Hhi.
    cbn [negb orb]. rewrite !Number_bound by lia. rewrite (proj2 (Z.ltb_ge _ _)) by lia. cbn [mbind res_bind].
    rewrite (proj2 (Z.ltb_ge _ _)), (proj2 (Z.ltb_ge _ _)) by lia. done.
Qed.

Lemma parse_body_inv text x : parse_body r text = Ok x -> exists b, body_ok r b /\ text = print_body b.
Proof.
  unfold parse_body. case_bool_decide as Bs; [intros _; exists Star; split; [split; cbn; lia || done|done]|].
  destruct (indexOf 45 text) as [i|] eqn:Ei.
  - apply indexOf_Some in Ei as [_ E]. cbv zeta.
    destruct (numeral (take i text)) eqn:Hlo; [|done]. destruct (numeral (drop (S i) text)) eqn:Hhi; [|done].
    cbn [negb orb]. destruct (Z.ltb_spec (Number (drop (S i) text)) (Number (take i text))); [done|].
    cbn [mbind res_bind]. destruct (Z.ltb_spec (Number (take i text)) (fr_min r)); [done|].
    destruct (Z.ltb_spec (fr_max r) (Number (drop (S i) text))); [done|]. intros _.
    exists (Range (take i text) (drop (S i) text)). split; [|done].
    assert (dec_val (drop (S i) text) <= fr_max r) by (apply Number_field; lia).
    assert (dec_val (take i text) <= fr_max r) by (apply Number_field; lia).
    rewrite !Number_bound in * by done. split; cbn; [done|lia].
  - destruct (numeral text) eqn:Hn; [|done]. cbn [negb mbind res_bind].
    destruct (Z.ltb_spec (Number text) (fr_min r)); [done|].
    destruct (Z.ltb_spec (fr_max r) (Number text)); [done|]. intros _. exists (Value text). split; [|done].
    assert (dec_val text <= fr_max r) by (apply Number_field; lia).
    rewrite !Number_bound in * by done. split; cbn; [done|lia].
Qed.

Lemma print_body_plain c b : body_ok r b -> is_dec c = false -> c <> 42 -> c <> 45 -> c ∉ print_body b.
Proof.
  intros [Hb _] Hd H1 H2. destruct b as [|ds|lo hi]; cbn.
  - by rewrite elem_of_cons, elem_of_nil; intros [|].
  - by apply numeral_free.
  - destruct Hb as (Hlo & Hhi & _). rewrite elem_of_app, elem_of_cons.
    pose proof (numeral_free c lo Hd Hlo). pose proof (numeral_free c hi Hd Hhi). tauto.
Qed.

Lemma print_body_ne b : body_ok r b -> print_body b <> [].
Proof.
  intros [Hb _]. destruct b as [|ds|lo hi]; cbn; [done|by apply numeral_digits in Hb as [? _]|by destruct lo].
Qed.

(** How an entry changes the set and the flag that the loop carries. *)
Definition applied (e : entry) (acc acc' : list Z * bool) : Prop :=
  NoDup acc'.1 /\ acc'.2 = acc.2 || narrows e /\ forall w, w ∈ acc'.1 <-> w ∈ acc.1 \/ denotes r e w.

Lemma bounds_order b : body_ok r b -> 0 <= (bounds r b).1 <= (bounds r b).2 /\ (bounds r b).2 < 2 ^ 53.
Proof. intros [Hb ?]. destruct b as [|ds|lo hi]; cbn in *; lia. Qed.

Lemma parse_part_print e acc :
  entry_ok r e -> NoDup acc.1 -> exists acc', parse_part r acc (print_entry e) = Ok acc' /\ applied e acc acc'.
Proof.
  intros [Hb Hs] Hd. destruct acc as [l f]. cbn in Hd. unfold parse_part, print_entry.
  pose proof (print_body_ne _ Hb). pose proof (bounds_order _ Hb) as Ho.
  rewrite bool_decide_false by (by destruct (print_body (e_body e))).
  assert (P : parse_step (print_body (e_body e) ++ match e_step e with Some s => 47 :: s | None => [] end) =
    Ok (print_body (e_body e), match e_step e with Some s => Number s | None => 1 end,
        match e_step e with Some _ => true | None => false end)).
  { unfold parse_step. destruct (e_step e) as [s|].
    - rewrite indexOf_app by (by apply print_body_plain). cbv zeta. rewrite take_app_length, drop_length_cons.
      destruct Hs as [Hn H0]. rewrite Hn. rewrite (proj2 (Z.eqb_neq _ _)); [done|]. by rewrite Number_pos.
    - rewrite app_nil_r. by rewrite (proj2 (indexOf_None 47 _)) by (by apply print_body_plain). }
  rewrite P. cbn [mbind res_bind]. rewrite parse_body_print by done. cbn [mbind res_bind].
  set (lo := (bounds r (e_body e)).1) in *. set (hi := (bounds r (e_body e)).2) in *.
  set (st := match e_step e with Some s => Number s | None => 1 end).
  assert (Hst : 0 < st).
  { subst st. destruct (e_step e) as [s|]; [|lia]. destruct Hs as [Hn H0].
    pose proof (numeral_val s Hn). pose proof (Number_pos s Hn).
    destruct (decide (dec_val s < 2 ^ 53)); [rewrite Number_small by done; lia|]. pose proof (Number_large s ltac:(lia)). lia. }
  destruct (add_range_spec hi st Hst (Z.to_nat (hi - lo + 1)) lo l) as (l' & -> & Hd' & Hw); [lia|done|].
  cbn [mbind res_bind]. eexists. split; [done|]. split_and!; cbn; [done| |].
  - rewrite <- orb_assoc. f_equal. unfold narrows. by destruct (e_body e), (e_step e).
  - intros w. rewrite Hw. unfold denotes. fold lo hi. apply or_iff_compat_l.
    assert (lo <= w <= hi -> (w - lo) mod st = 0 <-> (w - lo) mod step_of e = 0); [|tauto].
    intros Hl. subst st. unfold step_of. destruct (e_step e) as [s|]; [|done]. destruct Hs. apply Number_step; [done|done|lia].
Qed.
Lemma parse_step_cases part :
  (exists body st slash, parse_step part = Ok (body, st, slash) /\
     exists s, part = body ++ match s with Some s => 47 :: s | None => [] end /\
       match s with Some s => numeral s = true /\ dec_val s <> 0 | None => True end) \/
  exists msg, parse_step part = Throw (JsError msg).
Proof.
  unfold parse_step. destruct (indexOf 47 part) as [i|] eqn:Ei.
  - cbv zeta. destruct (numeral (drop (S i) part)) eqn:Hn; [|eauto]. cbn [negb orb].
    destruct (Z.eqb_spec (Number (drop (S i) part)) 0) as [|H0]; [eauto|]. left. do 3 eexists. split; [done|].
    exists (Some (drop (S i) part)). apply indexOf_Some in Ei as [_ E]. split; [done|].
    split; [done|]. by rewrite <- Number_pos.
  - left. do 3 eexists. split; [done|]. exists None. by rewrite app_nil_r.
Qed.

Lemma parse_body_error text e : parse_body r text = Throw e -> exists msg, e = JsError msg.
Proof.
  unfold parse_body. case_bool_decide; [done|]. unfold mbind, res_bind. cbv zeta. intros H'.
  repeat case_match; simplify_eq; eauto.
Qed.

Lemma parse_part_cases acc part :
  NoDup acc.1 ->
  (exists e acc', entry_ok r e /\ part = print_entry e /\ parse_part r acc part = Ok acc' /\ applied e acc acc') \/
  exists msg, parse_part r acc part = Throw (JsError msg).
Proof.
  intros Hd. destruct (decide (part = [])) as [->|Hne]; [right; destruct acc; eauto|].
  destruct (parse_step_cases part) as [(b & st & slash & Es & s & Ep & Hs)|[msg Es]].
  - destruct (parse_body r b) as [x|e] eqn:Eb.
    + left. apply parse_body_inv in Eb as (bd & Hb & ->). exists {| e_body := bd; e_step := s |}.
      assert (Hok : entry_ok r {| e_body := bd; e_step := s |}) by done.
      destruct (parse_part_print _ acc Hok Hd) as (acc' & E & A). exists acc'. by rewrite Ep.
    + right. apply parse_body_error in Eb as Em. destruct Em as [msg ->]. exists msg. unfold parse_part. destruct acc.
      rewrite bool_decide_false by done. rewrite Es. cbn [mbind res_bind]. by rewrite Eb.
  - right. exists msg. unfold parse_part. destruct acc. rewrite bool_decide_false by done. by rewrite Es.
Qed.

(** ** Fields *)
Definition field_values (es : list entry) (acc acc' : list Z * bool) : Prop :=
  NoDup acc'.1 /\ acc'.2 = acc.2 || existsb narrows es /\
  forall w, w ∈ acc'.1 <-> w ∈ acc.1 \/ exists e, e ∈ es /\ denotes r e w.

Lemma field_values_nil acc : NoDup acc.1 -> field_values [] acc acc.
Proof.
  intros H. split; [done|]. split; [by rewrite orb_false_r|]. intros w. split; [auto|].
  intros [?|(e & He & _)]; [done|by apply not_elem_of_nil in He].
Qed.
Lemma field_values_cons e es acc acc' acc'' :
  applied e acc acc' -> field_values es acc' acc'' -> field_values (e :: es) acc acc''.
Proof.
  intros (_ & A2 & A3) (B1 & B2 & B3). split; [done|]. split; [by rewrite B2, A2, <- orb_assoc|].
  intros w. rewrite B3, A3. setoid_rewrite elem_of_cons. naive_solver.
Qed.

Lemma parse_parts_print es acc :
  Forall (entry_ok r) es -> NoDup acc.1 ->
  exists acc', parse_parts r acc (map print_entry es) = Ok acc' /\ field_values es acc acc'.
Proof.
  intros H. revert acc. induction H as [|e es He Hes IH]; intros acc Hd; cbn [map parse_parts].
  - exists acc. split; [done|by apply field_values_nil].
  - destruct (parse_part_print e acc He Hd) as (a & -> & A). cbn [mbind res_bind].
    destruct (IH a) as (a' & E & F); [by destruct A|]. exists a'. split; [done|]. by eapply field_values_cons.
Qed.

Lemma parse_parts_cases parts acc :
  NoDup acc.1 ->
  (exists es, Forall (entry_ok r) es /\ parts = map print_entry es) \/
  exists msg, parse_parts r acc parts = Throw (JsError msg).
Proof.
  revert acc. induction parts as [|p parts IH]; intros acc Hd; [left; by exists []|]. cbn [parse_parts].
  destruct (parse_part_cases acc p Hd) as [(e & a & He & -> & -> & A)|[msg ->]]; [|right; eauto].
  cbn [mbind res_bind]. destruct (IH a) as [(es & Hes & ->)|?]; [by destruct A| |by right].
  left. exists (e :: es). split; [by constructor|done].
Qed.

Lemma print_entry_plain e : entry_ok r e -> 44 ∉ print_entry e.
Proof.
  intros [Hb Hs]. unfold print_entry. rewrite elem_of_app. intros [H|H]; [by apply print_body_plain in H|].
  destruct (e_step e) as [s|]; [|by apply not_elem_of_nil in H]. apply elem_of_cons in H as [|H]; [done|].
  destruct Hs as [Hn _]. by apply (numeral_free 44) in Hn.
Qed.

Lemma parseField_print es :
  es <> [] -> Forall (entry_ok r) es ->
  exists values, parseField (print_field es) r = Ok (values, existsb narrows es) /\
    StronglySorted Z.lt values /\ forall v, v ∈ values <-> exists e, e ∈ es /\ denotes r e v.
Proof.
  intros Hne Hes. unfold parseField, print_field. rewrite split_join.
  - destruct (parse_parts_print es ([], false) Hes) as ([l f] & -> & F1 & F2 & F3); [constructor|].
    cbn in *. subst f. exists (sort_values l). destruct (sort_values_spec l F1) as [S1 S2]. split_and!; [done|done|].
    intros v. rewrite S2, F3, elem_of_nil. naive_solver.
  - by destruct es.
  - rewrite Forall_map. eapply Forall_impl; [exact Hes|]. apply print_entry_plain.
Qed.

Lemma parseField_cases text :
  (exists es, es <> [] /\ Forall (entry_ok r) es /\ text = print_field es) \/
  exists msg, parseField text r = Throw (JsError msg).
Proof.
  unfold parseField. destruct (parse_parts_cases (split_on 44 text) ([], false)) as [(es & Hes & E)|[msg ->]];
    [constructor| |right; eauto].
  left. exists es. split_and!; [|done|].
  - intros ->. by apply (split_on_ne 44 text).
  - unfold print_field. by rewrite <- E, join_split_on.
Qed.
End field.

(** C33: [parseField] accepts exactly the lists of stars, values and ranges,
    with or without a step, that are within the range of the field, and
    returns the values that they denote in ascending order, each once,
    together with whether the field narrows its range.  Every other text is
    rejected with an error. *)
Theorem parseField_denotes r text :
  0 <= fr_min r /\ fr_min r <= fr_max r < 2 ^ 53 ->
  (forall values restricted, parseField text r = Ok (values, restricted) <->
     exists es, es <> [] /\ Forall (entry_ok r) es /\ text = print_field es /\ restricted = existsb narrows es /\
       StronglySorted Z.lt values /\ forall v, v ∈ values <-> exists e, e ∈ es /\ denotes r e v) /\
  ((exists v, parseField text r = Ok v) \/ exists msg, parseField text r = Throw (JsError msg)).
Proof.
  intros Hr. destruct (parseField_cases r Hr text) as [(es & Hne & Hes & ->)|[msg E]].
  - destruct (parseField_print r Hr es Hne Hes) as (vs & E & S & M). split; [|eauto].
    intros values restricted. split.
    + rewrite E. intros [= <- <-]. eauto 10.
    + intros (es' & Hne' & Hes' & Et & -> & S' & M'). rewrite Et.
      destruct (parseField_print r Hr es' Hne' Hes') as (vs' & -> & S'' & M'').
      do 2 f_equal. apply sorted_unique; [done|done|]. intros v. by rewrite M', M''.
  - split; [|eauto]. intros values restricted. split; [by rewrite E|].
    intros (es & Hne & Hes & -> & _). destruct (parseField_print r Hr es Hne Hes) as (vs & E' & _). congruence.
Qed.

Lemma parseField_denotes_witness :
  exists es, Forall (entry_ok minute_range) es /\ js "*/20,5,3-4" = print_field es /\
    forall v, v ∈ [0; 3; 4; 5; 20; 40] <-> exists e, e ∈ es /\ denotes minute_range e v.
Proof.
  destruct (parseField_denotes minute_range (js "*/20,5,3-4")) as [H _]; [cbn; lia|].
  destruct (proj1 (H [0; 3; 4; 5; 20; 40] true)) as (es & _ & H1 & H2 & _ & _ & H3); [vm_compute; reflexivity|].
  exists es. split; [exact H1|]. split; [exact H2|exact H3].
Defined.

(** ** Expressions *)
Lemma values_print r es values :
  0 <= fr_min r /\ fr_min r <= fr_max r < 2 ^ 53 ->
  es <> [] -> Forall (entry_ok r) es -> StronglySorted Z.lt values ->
  (forall v, v ∈ values <-> exists e, e ∈ es /\ denotes r e v) -> values_ok (fr_min r) (fr_max r) values.
Proof.
  intros Hr Hne Hes S M. rewrite Forall_forall in Hes. split_and!; [done| |].
  - destruct es as [|e es]; [done|]. intros ->. specialize (Hes e ltac:(left)). destruct Hes as [Hb Hs].
    pose proof (bounds_order r Hr _ Hb). specialize (M (bounds r (e_body e)).1).
    apply (not_elem_of_nil (bounds r (e_body e)).1), M. exists e. split; [left|]. split; [lia|].
    rewrite Z.sub_diag. apply Z.mod_0_l. unfold step_of. by destruct (e_step e); [destruct Hs|].
  - apply Forall_forall. intros v Hv. apply M in Hv as (e & He & [Hv _]). destruct (Hes e He) as [[_ Hb] _]. lia.
Qed.

Lemma parseField_ok text r x :
  0 <= fr_min r /\ fr_min r <= fr_max r < 2 ^ 53 ->
  parseField text r = Ok x -> values_ok (fr_min r) (fr_max r) x.1.
Proof.
  intros Hr E. destruct (parseField_cases r Hr text) as [(es & Hne & Hes & ->)|[msg E']]; [|congruence].
  destruct (parseField_print r Hr es Hne Hes) as (vs & E' & S & M). rewrite E in E'. injection E' as ->.
  by apply (values_print r es).
Qed.

Lemma new_Set_spec l : NoDup (new_Set l) /\ forall v, v ∈ new_Set l <-> v ∈ l.
Proof.
  unfold new_Set. cut (forall s, NoDup s -> NoDup (foldl (fun s v => add_value v s) s l) /\
    forall v, v ∈ foldl (fun s v => add_value v s) s l <-> v ∈ s \/ v ∈ l).
  - intros H. destruct (H [] (NoDup_nil_2)) as [H1 H2]. split; [done|]. intros v. rewrite H2, elem_of_nil. tauto.
  - induction l as [|x l IH]; intros s Hs; cbn; [split; [done|]; intros v; rewrite elem_of_nil; tauto|].
    destruct (IH (add_value x s)) as [H1 H2]; [by apply NoDup_add_value|]. split; [done|].
    intros v. rewrite H2, elem_add_value, elem_of_cons. tauto.
Qed.

(** Sunday written as 7 becomes 0. *)
Lemma dow_ok l :
  values_ok 0 7 l -> values_ok 0 6 (sort_values (new_Set (map (fun v => if v =? 7 then 0 else v) l))).
Proof.
  intros (_ & Hne & F). set (k := map _ l). destruct (new_Set_spec k) as [N1 N2].
  destruct (sort_values_spec _ N1) as [S1 S2]. split_and!; [done| |].
  - destruct l as [|x l]; [done|]. intros E. apply (not_elem_of_nil (if x =? 7 then 0 else x)).
    rewrite <- E. apply S2, N2. left.
  - apply Forall_forall. intros v Hv. apply S2, N2 in Hv. apply list_elem_of_In, in_map_iff in Hv as (w & <- & Hw).
    rewrite Forall_forall in F. specialize (F w ltac:(by apply list_elem_of_In)).
    destruct (Z.eqb_spec w 7); lia.
Qed.

(** A schedule as [parseCron] returns it. *)
Definition schedule_ok (s : ScheduleSpec) : Prop :=
  match s with
  | Cron spec => spec_ok spec
  | Every intervalMs => JsArith.is_pos intervalMs = true
  end.

(** Parsing a schedule ends for every text: in a cron schedule whose five
    value lists are non-empty, strictly ascending and within the ranges of
    their fields, in an interval of positive length, or in an error. *)
Theorem parseCron_type text :
  (exists schedule, parseCron text = Ok schedule /\ schedule_ok schedule) \/
  exists msg, parseCron text = Throw (JsError msg).
Proof.
  cut (match parseCron text with Ok schedule => schedule_ok schedule | Throw e => exists msg, e = JsError msg end).
  { destruct (parseCron text); [by eauto|]. intros [msg ->]. eauto. }
  unfold parseCron. cbv zeta. case_bool_decide; [eauto|]. destruct (startsWith _ (js "every:")).
  - unfold parse_every. destruct (DURATION_RE _) as [[[ds fs] sc]|]; [|eauto]. cbv zeta.
    destruct (JsArith.is_pos _) eqn:E; [done|]. cbn. eauto.
  - destruct (if startsWith _ _ then _ else _) as [ex|]; [|eauto].
    destruct (split_runs _ _ _ _) as [|f0 [|f1 [|f2 [|f3 [|f4 [|]]]]]]; try by eauto.
    assert (P : forall f r, 0 <= fr_min r /\ fr_min r <= fr_max r < 2 ^ 53 ->
      (exists x, parseField f r = Ok x /\ values_ok (fr_min r) (fr_max r) x.1) \/
      exists msg, parseField f r = Throw (JsError msg)).
    { intros f r Hr. destruct (parseField_cases r Hr f) as [(es & Hne & Hes & ->)|?]; [left|by right].
      destruct (parseField_print r Hr es Hne Hes) as (vs & E & _). eexists. split; [done|]. by eapply parseField_ok. }
    destruct (P f0 minute_range ltac:(cbn; lia)) as [(x0 & -> & V0)|[msg ->]]; [|cbn; eauto].
    destruct (P f1 hour_range ltac:(cbn; lia)) as [(x1 & -> & V1)|[msg ->]]; [|cbn; eauto].
    destruct (P f2 dom_range ltac:(cbn; lia)) as [(x2 & -> & V2)|[msg ->]]; [|cbn; eauto].
    destruct (P f3 month_range ltac:(cbn; lia)) as [(x3 & -> & V3)|[msg ->]]; [|cbn; eauto].
    destruct (P f4 dow_range ltac:(cbn; lia)) as [(x4 & -> & V4)|[msg ->]]; [|cbn; eauto].
    cbn [mbind res_bind]. split_and!; cbn; try done. by apply dow_ok.
Qed.
End CronSyntax.
