(* ===== verification/Dns.v ===== *)
(** DNS messages (src/js/internal/net/dns-wire.ts): names with compression,
    queries, responses with their resource records, and the helpers for
    resolver files and reverse lookups.

    Offsets into a message are [nat].  IPv6 addresses are printed by the host's
    inet_ntop(3), which is a parameter: the buffer it fills for the 16 bytes of
    an address.  Interpolated parts of error messages are left out. *)

From S2P Require Import Prelude JsString Utf8 Scanner.

Module Dns.
Import JsString Utf8.

Definition dns_error {A} (msg : string) : res A := Throw (JsError msg).

Definition QTYPE_A : Z := 1.
Definition QTYPE_NS : Z := 2.
Definition QTYPE_CNAME : Z := 5.
Definition QTYPE_SOA : Z := 6.
Definition QTYPE_PTR : Z := 12.
Definition QTYPE_MX : Z := 15.
Definition QTYPE_TXT : Z := 16.
Definition QTYPE_AAAA : Z := 28.
Definition QTYPE_SRV : Z := 33.
Definition QTYPE_OPT : Z := 41.
Definition QTYPE_DS : Z := 43.
Definition QTYPE_RRSIG : Z := 46.
Definition QTYPE_NSEC : Z := 47.
Definition QTYPE_DNSKEY : Z := 48.
Definition QTYPE_NSEC3 : Z := 50.
Definition QTYPE_NSEC3PARAM : Z := 51.

(** ** Resolver configuration *)

Record DnsServer := { ip : jsstring; ipv6 : bool; port : Z }.
Definition DEFAULT_SERVERS : list DnsServer :=
  [{| ip := js "8.8.8.8"; ipv6 := false; port := 53 |}; {| ip := js "8.8.4.4"; ipv6 := false; port := 53 |}].

(** The last test of the source compares a string with itself. *)
Definition is_octet (part : jsstring) : bool :=
  numeral part && (length part <=? 3)%nat && (dec_val part <=? 255).
Definition isIpv4Literal (value : jsstring) : bool :=
  let parts := split_on 46 value in (length parts =? 4)%nat && forallb is_octet parts.
Definition is_hex (c : Z) : bool :=
  is_dec c || ((97 <=? c) && (c <=? 102)) || ((65 <=? c) && (c <=? 70)).
Definition isIpv6Literal (value : jsstring) : bool :=
  bool_decide (58 ∈ value) && negb (bool_decide (46 ∈ value)) && forallb (fun c => is_hex c || (c =? 58)) value.

(** [line.replace(/#.*/, '')]: [.] stops at a line terminator. *)
Definition is_newline (c : Z) : bool := (c =? 10) || (c =? 13) || (c =? 8232) || (c =? 8233).
Fixpoint drop_line (s : jsstring) : jsstring :=
  match s with c :: s' => if is_newline c then s else drop_line s' | [] => [] end.
Fixpoint drop_comment (s : jsstring) : jsstring :=
  match s with c :: s' => if c =? 35 then drop_line s' else c :: drop_comment s' | [] => [] end.
Definition resolv_line (line : jsstring) : list DnsServer :=
  let trimmed := trim (drop_comment line) in
  if bool_decide (trimmed = []) then []
  else
    match split_runs is_space false [] trimmed with
    | p0 :: p1 :: _ =>
        if negb (bool_decide (p0 = js "nameserver")) || bool_decide (p1 = []) then []
        else if isIpv4Literal p1 then [{| ip := p1; ipv6 := false; port := 53 |}]
        else if isIpv6Literal p1 then [{| ip := p1; ipv6 := true; port := 53 |}]
        else []
    | _ => []
    end.
Definition _parseResolvConf (text : jsstring) : list DnsServer :=
  let servers := concat (map resolv_line (split_on 10 text)) in
  if (0 <? length servers)%nat then servers else DEFAULT_SERVERS.

(** ** Internationalised labels *)

(** [Array.from(label, (ch) => ch.codePointAt(0))]: lone surrogates stay. *)
Fixpoint points_of (s : jsstring) : list Z :=
  match s with
  | [] => []
  | u :: s' =>
      match s' with
      | lo :: s'' =>
          if is_hi u && is_lo lo then (65536 + (u - 55296) * 1024 + (lo - 56320)) :: points_of s''
          else u :: points_of s'
      | [] => [u]
      end
  end.

Fixpoint adapt_loop (fuel : nat) (delta k : Z) : res (Z * Z) :=
  if 455 <? delta then
    match fuel with O => Throw Diverges | S fuel => adapt_loop fuel (delta / 35) (k + 36) end
  else Ok (delta, k).
Definition _adaptPunycodeBias (delta numPoints : Z) (firstTime : bool) : res Z :=
  let delta := if firstTime then delta / 700 else delta >>₃₂ 1 in
  let delta := delta + delta / numPoints in
  '(delta, k) ← adapt_loop (S (Z.to_nat (Z.log2 delta))) delta 0;
  (* the quotient by zero is -Infinity, below every number *)
  Ok (k + (if delta + 38 =? 0 then - 2 ^ 1024 else 36 * delta / (delta + 38))).
Definition _encodePunycodeDigit (digit : Z) : Z := digit + 22 + 75 * (if digit <? 26 then 1 else 0).

(** The loop over [k]: the digits of [q]. *)
Fixpoint punycode_digits (fuel : nat) (bias k q : Z) (output : jsstring) : res jsstring :=
  let t := if k <=? bias then 1 else if bias + 26 <=? k then 26 else k - bias in
  if q <? t then Ok (output ++ [_encodePunycodeDigit q])
  else
    match fuel with
    | O => Throw Diverges
    | S fuel =>
        punycode_digits fuel bias (k + 36) ((q - t) / (36 - t))
          (output ++ [_encodePunycodeDigit (t + (q - t) mod (36 - t))])
    end.

Record punycode := { pc_output : jsstring; pc_handled : Z; pc_delta : Z; pc_bias : Z }.
(** One round of the loop over the points for the code point [n]. *)
Definition punycode_point (basic n : Z) (st : punycode) (cp : Z) : res punycode :=
  let delta := if cp <? n then pc_delta st + 1 else pc_delta st in
  if negb (cp =? n) then
    Ok {| pc_output := pc_output st; pc_handled := pc_handled st; pc_delta := delta; pc_bias := pc_bias st |}
  else
    output ← punycode_digits (S (Z.to_nat (Z.log2 delta))) (pc_bias st) 36 delta (pc_output st);
    bias ← _adaptPunycodeBias delta (pc_handled st + 1) (pc_handled st =? basic);
    Ok {| pc_output := output; pc_handled := pc_handled st + 1; pc_delta := 0; pc_bias := bias |}.
Fixpoint punycode_points (basic n : Z) (st : punycode) (points : list Z) : res punycode :=
  match points with
  | [] => Ok st
  | cp :: points => st ← punycode_point basic n st cp; punycode_points basic n st points
  end.
(** The smallest code point from [n] on; [None] is infinity. *)
Definition next_point (n : Z) (points : list Z) : option Z :=
  foldl (fun m cp => if (n <=? cp) && match m with Some m => cp <? m | None => true end then Some cp else m)
    None points.
Definition add_delta (d : Z) (st : punycode) : punycode :=
  {| pc_output := pc_output st; pc_handled := pc_handled st; pc_delta := pc_delta st + d; pc_bias := pc_bias st |}.
Fixpoint punycode_loop (fuel : nat) (points : list Z) (basic n : Z) (st : punycode) : res punycode :=
  if pc_handled st <? zlen points then
    match fuel, next_point n points with
    | S fuel, Some m =>
        st ← punycode_points basic m (add_delta ((m - n) * (pc_handled st + 1)) st) points;
        punycode_loop fuel points basic (m + 1) (add_delta 1 st)
    | _, _ => Throw Diverges
    end
  else Ok st.
Definition ascii_lower (c : Z) : Z := if (65 <=? c) && (c <=? 90) then c + 32 else c.
Definition _normalizeDnsLabel (label : jsstring) : res jsstring :=
  let points := points_of label in
  if forallb (fun cp => cp <? 128) points then Ok label
  else
    let ascii := List.filter (fun cp => cp <? 128) points in
    let basic := zlen ascii in
    let output := map ascii_lower ascii ++ (if 0 <? basic then js "-" else []) in
    st ← punycode_loop (length points) points basic 128
           {| pc_output := output; pc_handled := basic; pc_delta := 0; pc_bias := 72 |};
    Ok (js "xn--" ++ pc_output st).

(** ** Names *)

Definition endsWith (s p : jsstring) : bool := bool_decide (p `suffix_of` s).
Fixpoint encode_labels (labels : list jsstring) : res (list Z) :=
  match labels with
  | [] => Ok []
  | label :: labels =>
      if bool_decide (label = []) then encode_labels labels
      else
        normalizedLabel ← _normalizeDnsLabel label;
        let bytes := encodeUtf8 normalizedLabel in
        if 63 <? zlen bytes then dns_error "DNS label too long"
        else rest ← encode_labels labels; Ok (zlen bytes :: bytes ++ rest)
  end.
Definition _encodeName (name : jsstring) : res (list Z) :=
  let name := if endsWith name (js ".") then removelast name else name in
  parts ← encode_labels (split_on 46 name);
  Ok (parts ++ [0]).

Definition set16 (v : Z) : list Z := be_bytes 2 v.
Definition _buildQuery (id : Z) (name : jsstring) (qtype : Z) (dnssec : bool) (udpPayloadSize : option Z) : res (list Z) :=
  encodedName ← _encodeName name;
  Ok (set16 id ++ set16 256 ++ set16 1 ++ set16 0 ++ set16 0 ++ set16 (if dnssec then 1 else 0) ++
      encodedName ++ set16 qtype ++ set16 1 ++
      if dnssec then
        [0] ++ set16 QTYPE_OPT ++ set16 (match udpPayloadSize with Some n => n | None => 1232 end) ++
        [0; 0] ++ set16 32768 ++ set16 0
      else []).

(** The loop of [_decodeName].  Its rounds visit different offsets. *)
Fixpoint decode_labels (fuel : nat) (seen : list nat) (hops : Z) (endOffset : option nat) (parts : list jsstring)
  (scanner : Scanner.t) : res (jsstring * nat) :=
  match fuel with
  | O => Throw Diverges
  | S fuel =>
      if (Scanner.remainingBytes scanner <? 1)%nat then dns_error "DNS: truncated name"
      else
        let labelOffset := Scanner.offset scanner in
        if bool_decide (labelOffset ∈ seen) then dns_error "DNS: compression pointer loop detected"
        else
          let seen := labelOffset :: seen in
          '(len, scanner) ← Scanner.readU8 scanner;
          if len &₃₂ 192 =? 192 then
            if (Scanner.remainingBytes scanner <? 1)%nat then dns_error "DNS: truncated compression pointer"
            else
              '(lo, scanner) ← Scanner.readU8 scanner;
              let endOffset := match endOffset with Some e => Some e | None => Some (Scanner.offset scanner) end in
              if 128 <? hops then dns_error "DNS: compression pointer loop detected"
              else
                let pointer := Z.to_nat (((len &₃₂ 63) <<₃₂ 8) |₃₂ lo) in
                if (length (Scanner.buf scanner) <=? pointer)%nat then
                  dns_error "DNS: compression pointer out of range"
                else
                  '(_, scanner) ← Scanner.jump pointer scanner;
                  decode_labels fuel seen (hops + 1) endOffset parts scanner
          else if negb (len &₃₂ 192 =? 0) then dns_error "DNS: invalid label length"
          else if len =? 0 then
            Ok (join (js ".") parts, match endOffset with Some e => e | None => Scanner.offset scanner end)
          else if (Scanner.remainingBytes scanner <? Z.to_nat len)%nat then dns_error "DNS: truncated label"
          else
            '(label, scanner) ← Scanner.eatText (Z.to_nat len) scanner;
            decode_labels fuel seen hops endOffset (parts ++ [label]) scanner
  end.
Definition _decodeName (msg : list Z) (startOffset : nat) : res (jsstring * nat) :=
  '(_, scanner) ← Scanner.jump startOffset (Scanner.of_bytes msg);
  decode_labels (S (length msg)) [] 0 None [] scanner.

(** ** Resource records *)

(** The types of the set bits of one byte of a window. *)
Definition bitmap_byte (window i value : Z) : list Z :=
  concat (map (fun bit => if negb (value &₃₂ (1 <<₃₂ (7 - bit)) =? 0) then [window * 256 + i * 8 + bit] else [])
    [0; 1; 2; 3; 4; 5; 6; 7]).
Fixpoint decode_bitmap (fuel : nat) (bytes : list Z) : res (list Z) :=
  match bytes with
  | [] => Ok []
  | [_] => dns_error "DNS: truncated DNSSEC type bitmap"
  | window :: len :: rest =>
      if (len =? 0) || (32 <? len) then dns_error "DNS: invalid DNSSEC type bitmap length"
      else if zlen rest <? len then dns_error "DNS: truncated DNSSEC type bitmap window"
      else
        match fuel with
        | O => Throw Diverges
        | S fuel =>
            let n := Z.to_nat len in
            let types := concat (imap (fun i v => bitmap_byte window (Z.of_nat i) v) (take n rest)) in
            more ← decode_bitmap fuel (drop n rest);
            Ok (types ++ more)
        end
  end.
Definition decodeTypeBitmap (bytes : list Z) : res (list Z) := decode_bitmap (length bytes) bytes.

Inductive DnsRecordData :=
| DText (s : jsstring)
| DMx (priority : Z) (exchange : jsstring)
| DTxt (strings : list jsstring)
| DSoa (nsname hostmaster : jsstring) (serial refresh retry expire minttl : Z)
| DSrv (priority weight port : Z) (name : jsstring)
| DDs (keyTag algorithm digestType : Z) (digest : list Z)
| DDnskey (flags protocol algorithm : Z) (publicKey : list Z)
| DRrsig (typeCovered algorithm labels originalTtl expiration inception keyTag : Z) (signerName : jsstring)
    (signature : list Z)
| DNsec (nextDomainName : jsstring) (types : list Z)
| DNsec3 (hashAlgorithm flags iterations : Z) (salt nextHashedOwnerName : list Z) (types : list Z)
| DNsec3param (hashAlgorithm flags iterations : Z) (salt : list Z)
| DRaw (bytes : list Z).
Record DnsResourceRecord := {
  rr_name : jsstring;
  rr_type : Z;
  rr_classCode : Z;
  rr_cacheFlush : bool;
  rr_ttl : Z;
  rr_rawData : list Z;
  rr_data : DnsRecordData;
}.

(** Running a reader on a scanner of its own. *)
Definition scan {A} (m : ST Scanner.t A) (bytes : list Z) : res A :=
  '(a, _) ← m (Scanner.of_bytes bytes); Ok a.
(** [msg.subarray(a, b)] *)
Definition sub (msg : list Z) (a b : nat) : list Z := take (b - a) (drop a msg).

Section records.
Context (inet_ntop : list Z -> list Z).

(** The address goes to inet_ntop through the socket address that [decodeAddr]
    takes apart again; the text ends at the first NUL. *)
Definition formatIPv6 (bytes16 : list Z) : res jsstring :=
  decodeUtf8 (Scanner.span (fun b => negb (b =? 0)) (inet_ntop bytes16)) false true.

(** The strings of a TXT record: those of [bytes], its data. *)
Fixpoint txt_strings (fuel : nat) (bytes : list Z) : res (list jsstring) :=
  match bytes with
  | [] => Ok []
  | slen :: rest =>
      if zlen rest <? slen then dns_error "DNS: truncated TXT record data"
      else
        match fuel with
        | O => Throw Diverges
        | S fuel =>
            s ← decodeUtf8 (take (Z.to_nat slen) rest) false true;
            more ← txt_strings fuel (drop (Z.to_nat slen) rest);
            Ok (s :: more)
        end
  end.

Definition parse_soa (msg : list Z) (rdataStart rdataEnd : nat) : res DnsRecordData :=
  '(mname, afterMname) ← _decodeName msg rdataStart;
  '(rname, afterRname) ← _decodeName msg afterMname;
  if (rdataEnd <? afterRname + 20)%nat then dns_error "DNS: truncated SOA record data"
  else
    scan (serial ← Scanner.readU32BEField; refresh ← Scanner.readU32BEField; retry ← Scanner.readU32BEField;
          expire ← Scanner.readU32BEField; minttl ← Scanner.readU32BEField;
          mret (DSoa mname rname serial refresh retry expire minttl)) (sub msg afterRname rdataEnd).
Definition parse_rrsig (msg : list Z) (rdataStart rdataEnd : nat) : res DnsRecordData :=
  mk ← scan (typeCovered ← Scanner.readU16BEField; algorithm ← Scanner.readU8; labels ← Scanner.readU8;
             originalTtl ← Scanner.readU32BEField; expiration ← Scanner.readU32BEField;
             inception ← Scanner.readU32BEField; keyTag ← Scanner.readU16BEField;
             mret (DRrsig typeCovered algorithm labels originalTtl expiration inception keyTag))
         (sub msg rdataStart rdataEnd);
  '(signerName, afterSigner) ← _decodeName msg (rdataStart + 18)%nat;
  if (rdataEnd <? afterSigner)%nat then dns_error "DNS: truncated RRSIG signer name"
  else Ok (mk signerName (sub msg afterSigner rdataEnd)).
(** The fields that NSEC3 and NSEC3PARAM share. *)
Definition nsec3_header {A} (k : Z -> Z -> Z -> nat -> ST Scanner.t A) : ST Scanner.t A :=
  hashAlgorithm ← Scanner.readU8; flags ← Scanner.readU8; iterations ← Scanner.readU16BEField;
  saltLength ← Scanner.readU8; k hashAlgorithm flags iterations (Z.to_nat saltLength).
Definition parse_nsec3 : ST Scanner.t DnsRecordData :=
  nsec3_header (fun hashAlgorithm flags iterations saltLength sc =>
    if (Scanner.remainingBytes sc <? saltLength + 1)%nat then dns_error "DNS: truncated NSEC3 salt"
    else
      '(salt, sc) ← Scanner.eatBytes saltLength sc;
      '(hashLength, sc) ← Scanner.readU8 sc;
      if (Scanner.remainingBytes sc <? Z.to_nat hashLength)%nat then
        dns_error "DNS: truncated NSEC3 next hashed owner"
      else
        '(next, sc) ← Scanner.eatBytes (Z.to_nat hashLength) sc;
        types ← decodeTypeBitmap (Scanner.remaining_text sc);
        Ok (DNsec3 hashAlgorithm flags iterations salt next types, sc)).
Definition parse_nsec3param : ST Scanner.t DnsRecordData :=
  nsec3_header (fun hashAlgorithm flags iterations saltLength sc =>
    if negb (Scanner.remainingBytes sc =? saltLength)%nat then dns_error "DNS: invalid NSEC3PARAM salt length"
    else
      '(salt, sc) ← Scanner.eatBytes saltLength sc;
      Ok (DNsec3param hashAlgorithm flags iterations salt, sc)).

(** The switch of [parseResourceRecord]. *)
Definition parse_data (msg : list Z) (type : Z) (rdlength rdataStart rdataEnd : nat) : res DnsRecordData :=
  let rdata := sub msg rdataStart rdataEnd in
  if type =? QTYPE_A then
    if negb (rdlength =? 4)%nat then dns_error "DNS: invalid A record length"
    else Ok (DText (join (js ".") (map dec_str rdata)))
  else if type =? QTYPE_AAAA then
    if negb (rdlength =? 16)%nat then dns_error "DNS: invalid AAAA record length" else ip ← formatIPv6 rdata; Ok (DText ip)
  else if (type =? QTYPE_CNAME) || (type =? QTYPE_NS) || (type =? QTYPE_PTR) then
    '(name, _) ← _decodeName msg rdataStart; Ok (DText name)
  else if type =? QTYPE_MX then
    if (rdlength <? 3)%nat then dns_error "DNS: truncated MX record data"
    else
      priority ← scan Scanner.readU16BEField rdata;
      '(exchange, _) ← _decodeName msg (rdataStart + 2)%nat;
      Ok (DMx priority exchange)
  else if type =? QTYPE_TXT then strings ← txt_strings rdlength rdata; Ok (DTxt strings)
  else if type =? QTYPE_SOA then parse_soa msg rdataStart rdataEnd
  else if type =? QTYPE_SRV then
    if (rdlength <? 7)%nat then dns_error "DNS: truncated SRV record data"
    else
      mk ← scan (priority ← Scanner.readU16BEField; weight ← Scanner.readU16BEField; port ← Scanner.readU16BEField;
                 mret (DSrv priority weight port)) rdata;
      '(target, _) ← _decodeName msg (rdataStart + 6)%nat;
      Ok (mk target)
  else if type =? QTYPE_DS then
    if (rdlength <? 4)%nat then dns_error "DNS: truncated DS record data"
    else scan (keyTag ← Scanner.readU16BEField; algorithm ← Scanner.readU8; digestType ← Scanner.readU8;
               mret (DDs keyTag algorithm digestType (sub msg (rdataStart + 4)%nat rdataEnd))) rdata
  else if type =? QTYPE_DNSKEY then
    if (rdlength <? 4)%nat then dns_error "DNS: truncated DNSKEY record data"
    else scan (flags ← Scanner.readU16BEField; protocol ← Scanner.readU8; algorithm ← Scanner.readU8;
               mret (DDnskey flags protocol algorithm (sub msg (rdataStart + 4)%nat rdataEnd))) rdata
  else if type =? QTYPE_RRSIG then
    if (rdlength <? 19)%nat then dns_error "DNS: truncated RRSIG record data" else parse_rrsig msg rdataStart rdataEnd
  else if type =? QTYPE_NSEC then
    '(nextDomainName, afterNext) ← _decodeName msg rdataStart;
    if (rdataEnd <? afterNext)%nat then dns_error "DNS: truncated NSEC record data"
    else types ← decodeTypeBitmap (sub msg afterNext rdataEnd); Ok (DNsec nextDomainName types)
  else if type =? QTYPE_NSEC3 then
    if (rdlength <? 5)%nat then dns_error "DNS: truncated NSEC3 record data" else scan parse_nsec3 rdata
  else if type =? QTYPE_NSEC3PARAM then
    if (rdlength <? 5)%nat then dns_error "DNS: truncated NSEC3PARAM record data" else scan parse_nsec3param rdata
  else Ok (DRaw rdata).

Definition parseResourceRecord (msg : list Z) (offset : nat) : res (DnsResourceRecord * nat) :=
  '(name, afterName) ← _decodeName msg offset;
  '(_, sc) ← Scanner.jump afterName (Scanner.of_bytes msg);
  if (Scanner.remainingBytes sc <? 10)%nat then dns_error "DNS: truncated resource record header"
  else
    '(type, sc) ← Scanner.readU16BEField sc;
    '(rawClass, sc) ← Scanner.readU16BEField sc;
    let classCode := rawClass &₃₂ 32767 in
    let cacheFlush := negb (rawClass &₃₂ 32768 =? 0) in
    '(ttl, sc) ← Scanner.readU32BEField sc;
    '(rdlength, sc) ← Scanner.readU16BEField sc;
    let rdataStart := Scanner.offset sc in
    let rdataEnd := (rdataStart + Z.to_nat rdlength)%nat in
    if (length msg <? rdataEnd)%nat then dns_error "DNS: truncated resource record data"
    else
      data ← parse_data msg type (Z.to_nat rdlength) rdataStart rdataEnd;
      Ok ({| rr_name := name; rr_type := type; rr_classCode := classCode; rr_cacheFlush := cacheFlush; rr_ttl := ttl;
             rr_rawData := sub msg rdataStart rdataEnd; rr_data := data |}, rdataEnd).

(** ** Responses *)

Record Edns := { udpPayloadSize : Z; dnssecOk : bool; extendedRcode : Z; version : Z; ednsFlags : Z }.
Record DnsResponse := {
  id : Z;
  flags : Z;
  rcode : Z;
  truncated : bool;
  answers : list DnsResourceRecord;
  authorities : list DnsResourceRecord;
  additionals : list DnsResourceRecord;
  edns : option Edns;
}.

Fixpoint skip_questions (msg : list Z) (count : nat) (sc : Scanner.t) : res Scanner.t :=
  match count with
  | O => Ok sc
  | S count =>
      '(_, nextOffset) ← _decodeName msg (Scanner.offset sc);
      '(_, sc) ← Scanner.jump nextOffset sc;
      if (Scanner.remainingBytes sc <? 4)%nat then dns_error "DNS: truncated question"
      else '(_, sc) ← Scanner.eatBytes 4 sc; skip_questions msg count sc
  end.
Fixpoint readRRs (msg : list Z) (out : list DnsResourceRecord) (count : nat) (sc : Scanner.t)
  : res (list DnsResourceRecord * Scanner.t) :=
  match count with
  | O => Ok (out, sc)
  | S count =>
      '(record, nextOffset) ← parseResourceRecord msg (Scanner.offset sc);
      '(_, sc) ← Scanner.jump nextOffset sc;
      readRRs msg (out ++ [record]) count sc
  end.
Definition parse_opt (msg : list Z) (rrOffset : nat) : res Edns :=
  '(_, afterName) ← _decodeName msg rrOffset;
  '(_, sc) ← Scanner.jump (afterName + 2)%nat (Scanner.of_bytes msg);
  '(udpPayloadSize, sc) ← Scanner.readU16BEField sc;
  '(ttl, sc) ← Scanner.readU32BEField sc;
  let flags := ttl &₃₂ 65535 in
  Ok {| udpPayloadSize := udpPayloadSize; dnssecOk := negb (flags &₃₂ 32768 =? 0);
        extendedRcode := (ttl >>>₃₂ 24) &₃₂ 255; version := (ttl >>>₃₂ 16) &₃₂ 255; ednsFlags := flags |}.
Fixpoint readAdditionals (msg : list Z) (out : list DnsResourceRecord) (edns : option Edns) (count : nat)
  (sc : Scanner.t) : res (list DnsResourceRecord * option Edns) :=
  match count with
  | O => Ok (out, edns)
  | S count =>
      let rrOffset := Scanner.offset sc in
      '(record, nextOffset) ← parseResourceRecord msg rrOffset;
      '(_, sc) ← Scanner.jump nextOffset sc;
      if rr_type record =? QTYPE_OPT then
        e ← parse_opt msg rrOffset; readAdditionals msg out (Some e) count sc
      else readAdditionals msg (out ++ [record]) edns count sc
  end.
Definition _parseResponse (msg : list Z) : res DnsResponse :=
  if (length msg <? 12)%nat then dns_error "DNS: response too short"
  else
    '(id, sc) ← Scanner.readU16BEField (Scanner.of_bytes msg);
    '(flags, sc) ← Scanner.readU16BEField sc;
    '(qdcount, sc) ← Scanner.readU16BEField sc;
    '(ancount, sc) ← Scanner.readU16BEField sc;
    '(nscount, sc) ← Scanner.readU16BEField sc;
    '(arcount, sc) ← Scanner.readU16BEField sc;
    sc ← skip_questions msg (Z.to_nat qdcount) sc;
    '(answers, sc) ← readRRs msg [] (Z.to_nat ancount) sc;
    '(authorities, sc) ← readRRs msg [] (Z.to_nat nscount) sc;
    '(additionals, edns) ← readAdditionals msg [] None (Z.to_nat arcount) sc;
    Ok {| id := id; flags := flags; rcode := flags &₃₂ 15; truncated := negb ((flags >>₃₂ 9) &₃₂ 1 =? 0);
          answers := answers; authorities := authorities; additionals := additionals; edns := edns |}.
End records.

(** ** Reverse lookups *)

(** [ip.split('::')] *)
Fixpoint split_double (s : jsstring) : list jsstring :=
  match s with
  | [] => [[]]
  | 58 :: 58 :: s => [] :: split_double s
  | c :: s => match split_double s with p :: ps => (c :: p) :: ps | [] => [[c]] end
  end.
Definition padStart4 (g : jsstring) : jsstring := replicate (4 - length g) 48 ++ g.
Definition groups_of (half : jsstring) : list jsstring := if bool_decide (half = []) then [] else split_on 58 half.
Definition ipv6ToPtrName (ip : jsstring) : res jsstring :=
  groups ← match split_double ip with
           | [l; r] =>
               let left := groups_of l in
               let right := groups_of r in
               let fill := 8 - zlen left - zlen right in
               if fill <? 0 then Throw (RangeError "Invalid array length")
               else Ok (left ++ replicate (Z.to_nat fill) (js "0") ++ right)
           | _ => Ok (split_on 58 ip)
           end;
  let hex := concat (map padStart4 groups) in
  Ok (join (js ".") (map (fun c => [c]) (reverse hex)) ++ js ".ip6.arpa").
Definition _reverseIP (ip : jsstring) : res jsstring :=
  if bool_decide (58 ∈ ip) then ipv6ToPtrName ip
  else Ok (join (js ".") (reverse (split_on 46 ip)) ++ js ".in-addr.arpa").

Example munich : _encodeName (js "m" ++ [252] ++ js "nchen.de.") = Ok ([14] ++ js "xn--mnchen-3ya" ++ [2] ++ js "de" ++ [0]).
Proof. vm_compute. reflexivity. Qed.
Example pointer : _decodeName (js "xx" ++ [3] ++ js "foo" ++ [0; 1] ++ js "a" ++ [192; 2]) 7 = Ok (js "a.foo", 11%nat).
Proof. vm_compute. reflexivity. Qed.
Example pointer_loop : _decodeName [1; 97; 192; 0] 0 = dns_error "DNS: compression pointer loop detected".
Proof. vm_compute. reflexivity. Qed.
End Dns.
