(* ===== verification/DnsPunycode.v ===== *)
(** Labels in their normal form (src/js/internal/net/dns-wire.ts): normalising a
    label ends, with an ASCII label, and the decoder of RFC 3492 reads it as the
    label with its ASCII letters in lower case.

    [puny_decode] is that decoder, written down from section 6.2 of the RFC; nothing
    of it is taken from the code. *)

From S2P Require Import Prelude JsString Utf8 Dns.

Module DnsPunycode.
Import JsString Utf8 Dns.

Definition is_ascii (s : jsstring) : Prop := Forall (fun c => 0 <= c < 128) s.

(** ** Punycode ends, in ASCII *)
Lemma encode_digit_ascii d : 0 <= d < 36 -> 0 <= _encodePunycodeDigit d < 128.
Proof. intros H. unfold _encodePunycodeDigit. destruct (Z.ltb_spec d 26); lia. Qed.

Lemma punycode_digits_ok bias : forall fuel k q out,
  0 <= q < 2 ^ Z.of_nat fuel -> is_ascii out ->
  exists out', punycode_digits fuel bias k q out = Ok out' /\ is_ascii out' /\ (length out < length out')%nat.
Proof.
  induction fuel as [|fuel IH]; intros k q out Hq Ho; cbn [punycode_digits]; cbv zeta;
    set (t := if k <=? bias then 1 else if bias + 26 <=? k then 26 else k - bias);
    assert (Ht : 1 <= t <= 26) by (subst t; zcases; lia);
    assert (Hl : forall d, 0 <= d < 36 -> is_ascii (out ++ [_encodePunycodeDigit d]) /\
      (length out < length (out ++ [_encodePunycodeDigit d]))%nat)
      by (intros d Hd; rewrite length_app; cbn; split; [apply Forall_app; split; [done|]; repeat constructor; by apply encode_digit_ascii|lia]);
    destruct (Z.ltb_spec q t) as [Lq|Lq].
  1,3: eexists; split; [done|]; apply Hl; lia.
  - cbn in Hq. lia.
  - pose proof (Z.mod_pos_bound (q - t) (36 - t) ltac:(lia)) as Hm.
    destruct (Hl (t + (q - t) mod (36 - t)) ltac:(lia)) as [H1 H2].
    assert (Hr : 0 <= (q - t) / (36 - t) < 2 ^ Z.of_nat fuel).
    { split; [apply Z.div_pos; lia|]. rewrite Nat2Z.inj_succ, Z.pow_succ_r in Hq by lia.
      apply Z.div_lt_upper_bound; [lia|]. nia. }
    destruct (IH (k + 36) _ _ Hr H1) as (out' & E & Ha & Hlen). exists out'. split_and!; [done|done|lia].
Qed.

Lemma adapt_loop_ok : forall fuel delta k, delta < 2 ^ Z.of_nat fuel -> exists r, adapt_loop fuel delta k = Ok r.
Proof.
  induction fuel as [|fuel IH]; intros delta k Hd; cbn [adapt_loop]; destruct (Z.ltb_spec 455 delta); eauto.
  - cbn in Hd. lia.
  - apply IH. rewrite Nat2Z.inj_succ, Z.pow_succ_r in Hd by lia. apply Z.div_lt_upper_bound; lia.
Qed.

Lemma log2_fuel d : d < 2 ^ Z.of_nat (S (Z.to_nat (Z.log2 d))).
Proof.
  pose proof (Z.log2_nonneg d). rewrite Nat2Z.inj_succ, Z2Nat.id by done.
  destruct (decide (0 < d)); [by apply Z.log2_spec|]. pose proof (Z.pow_pos_nonneg 2 (Z.succ (Z.log2 d))). lia.
Qed.

Lemma adapt_ok delta numPoints first : exists bias, _adaptPunycodeBias delta numPoints first = Ok bias.
Proof.
  unfold _adaptPunycodeBias. cbv zeta. set (d := _ + _). destruct (adapt_loop_ok _ d 0 (log2_fuel d)) as [[d' k] ->].
  cbn. eauto.
Qed.

(** What the loops keep, and the number of points that are done. *)
Definition pc_ok (st : punycode) : Prop := is_ascii (pc_output st) /\ 0 <= pc_delta st.
(** Every point that is done took a character of the output. *)
Definition surplus (st : punycode) : Z := zlen (pc_output st) - pc_handled st.
Definition count (P : Z -> bool) (points : list Z) : Z := zlen (List.filter P points).

Lemma count_cons P x l : count P (x :: l) = (if P x then 1 else 0) + count P l.
Proof. unfold count. cbn. destruct (P x); [rewrite zlen_cons|]; lia. Qed.
Lemma count_nonneg P l : 0 <= count P l.
Proof. apply zlen_nonneg. Qed.

Lemma point_ok basic n st cp :
  pc_ok st -> exists st', punycode_point basic n st cp = Ok st' /\ pc_ok st' /\
    pc_handled st' = pc_handled st + (if cp =? n then 1 else 0) /\ surplus st <= surplus st'.
Proof.
  intros [Ha Hd]. unfold punycode_point. cbv zeta. set (delta := if cp <? n then _ else _).
  assert (0 <= delta) by (subst delta; destruct (cp <? n); lia).
  destruct (Z.eqb_spec cp n); cbn [negb].
  - destruct (punycode_digits_ok (pc_bias st) _ 36 delta (pc_output st) (conj H (log2_fuel delta)) Ha) as (out & -> & Ho & Hlen).
    cbn [mbind res_bind]. destruct (adapt_ok delta (pc_handled st + 1) (pc_handled st =? basic)) as [b ->].
    cbn [mbind res_bind]. eexists. split; [done|]. split; [by split|]. split; [done|]. unfold surplus, zlen. cbn. lia.
  - eexists. split; [done|]. split; [by split|]. split; [cbn; lia|done].
Qed.

Lemma points_ok basic n points : forall st,
  pc_ok st -> exists st', punycode_points basic n st points = Ok st' /\ pc_ok st' /\
    pc_handled st' = pc_handled st + count (fun cp => cp =? n) points /\ surplus st <= surplus st'.
Proof.
  induction points as [|cp points IH]; intros st Hst; cbn [punycode_points].
  - exists st. split_and!; [done|done| |done]. unfold count, zlen. cbn. lia.
  - destruct (point_ok basic n st cp Hst) as (st1 & -> & H1 & E1 & L1). cbn [mbind res_bind].
    destruct (IH st1 H1) as (st2 & E & H2 & E2 & L2). exists st2. split_and!; [done|done| |lia].
    rewrite E2, E1, count_cons. lia.
Qed.

Lemma next_point_spec n points :
  match next_point n points with
  | Some m => m ∈ points /\ n <= m /\ Forall (fun cp => cp < n \/ m <= cp) points
  | None => Forall (fun cp => cp < n) points
  end.
Proof.
  unfold next_point. cut (forall acc pre,
    match acc with Some m => m ∈ pre /\ n <= m /\ Forall (fun cp => cp < n \/ m <= cp) pre | None => Forall (fun cp => cp < n) pre end ->
    match foldl (fun m cp => if (n <=? cp) && match m with Some m => cp <? m | None => true end then Some cp else m) acc points with
    | Some m => m ∈ pre ++ points /\ n <= m /\ Forall (fun cp => cp < n \/ m <= cp) (pre ++ points)
    | None => Forall (fun cp => cp < n) (pre ++ points) end).
  { intros H. apply (H None []). constructor. }
  induction points as [|cp points IH]; intros acc pre H; cbn [foldl]; [by rewrite app_nil_r|].
  rewrite cons_middle, app_assoc. apply IH. clear IH.
  destruct (Z.leb_spec n cp); cbn [andb]; destruct acc as [m|].
  - destruct H as (H1 & H2 & H3).
    destruct (Z.ltb_spec cp m); rewrite ?elem_of_app, ?Forall_app, ?Forall_singleton; split_and!; auto; try lia.
    + right. by apply list_elem_of_singleton.
    + eapply Forall_impl; [exact H3|]. cbn. lia.
  - rewrite elem_of_app, Forall_app, Forall_singleton. split_and!; [right; by apply list_elem_of_singleton|done| |lia].
    eapply Forall_impl; [exact H|]. cbn. lia.
  - destruct H as (H1 & H2 & H3). rewrite elem_of_app, Forall_app, Forall_singleton. split_and!; auto.
  - rewrite Forall_app, Forall_singleton. auto.
Qed.
Lemma count_next n m points :
  n <= m -> Forall (fun cp => cp < n \/ m <= cp) points ->
  count (fun cp => cp <? m + 1) points = count (fun cp => cp <? n) points + count (fun cp => cp =? m) points.
Proof.
  intros Hnm. induction 1 as [|cp points Hcp _ IH]; [done|]. rewrite !count_cons, IH.
  destruct (Z.ltb_spec cp (m + 1)), (Z.ltb_spec cp n), (Z.eqb_spec cp m); lia.
Qed.
Lemma count_elem m points : m ∈ points -> 1 <= count (fun cp => cp =? m) points.
Proof.
  induction points as [|x l IH]; intros H; [by apply not_elem_of_nil in H|].
  pose proof (count_nonneg (fun cp => cp =? m) l). rewrite count_cons.
  apply elem_of_cons in H as [->|H]; [rewrite Z.eqb_refl; lia|]. specialize (IH H). destruct (x =? m); lia.
Qed.
Lemma count_all n points : Forall (fun cp => cp < n) points -> count (fun cp => cp <? n) points = zlen points.
Proof.
  induction 1 as [|cp points Hcp _ IH]; [done|]. rewrite count_cons, IH, zlen_cons, (proj2 (Z.ltb_lt _ _)) by done. done.
Qed.

Lemma punycode_loop_ok points basic : forall fuel n st,
  pc_ok st -> pc_handled st = count (fun cp => cp <? n) points -> zlen points - pc_handled st <= Z.of_nat fuel ->
  exists st', punycode_loop fuel points basic n st = Ok st' /\ pc_ok st' /\ zlen points <= pc_handled st' /\ surplus st <= surplus st'.
Proof.
  induction fuel as [|fuel IH]; intros n st Hst Hh Hf; cbn [punycode_loop];
    destruct (Z.ltb_spec (pc_handled st) (zlen points)) as [L|L]; try (exists st; by split_and!); [lia|].
  pose proof (next_point_spec n points) as N. destruct (next_point n points) as [m|].
  2: { apply count_all in N. lia. }
  destruct N as (Nm & Nn & Nf). destruct Hst as [Ha Hd]. pose proof (count_nonneg (fun cp => cp <? n) points).
  destruct (points_ok basic m points (add_delta ((m - n) * (pc_handled st + 1)) st)) as (st' & -> & [Ha' Hd'] & E & Hsu).
  { split; [done|]. cbn. nia. }
  cbn [mbind res_bind]. cbn [add_delta pc_handled] in E. pose proof (count_elem m points Nm).
  destruct (IH (m + 1) (add_delta 1 st')) as (st2 & ? & ? & ? & Hs2); [split; [done|]; cbn; lia| |cbn; lia|].
  { cbn. rewrite (count_next n m) by done. lia. }
  exists st2. split_and!; [done|done|done|]. unfold surplus in *. cbn in *. lia.
Qed.

(** ** Points of a label *)
Lemma points_of_cons u s :
  points_of (u :: s) =
  match s with
  | lo :: s' => if is_hi u && is_lo lo then (65536 + (u - 55296) * 1024 + (lo - 56320)) :: points_of s' else u :: points_of s
  | [] => [u]
  end.
Proof. by destruct s. Qed.

Lemma points_of_units s : Forall is_unit s ->
  Forall (fun cp => 0 <= cp) (points_of s) /\ (Forall (fun cp => cp < 128) (points_of s) -> is_ascii s).
Proof.
  remember (length s) as k eqn:Ek. revert s Ek. induction (lt_wf k) as [k _ IH]. intros s -> Hs.
  destruct Hs as [|u s Hu Hs]; [split; [constructor|intros; constructor]|]. unfold is_unit in Hu.
  rewrite points_of_cons. destruct Hs as [|lo s Hl Hs].
  - split; [repeat constructor; lia|]. intros H. apply Forall_cons in H as [H _]. repeat constructor; lia.
  - destruct (is_hi u && is_lo lo) eqn:E.
    + destruct (IH (length s) ltac:(cbn; lia) s eq_refl Hs) as [H1 _].
      assert (65536 <= 65536 + (u - 55296) * 1024 + (lo - 56320)) by (unfold is_hi, is_lo in E; lia).
      split; [constructor; [lia|done]|]. intros H'. apply Forall_cons in H' as [H' _]. lia.
    + destruct (IH (length (lo :: s)) ltac:(cbn; lia) (lo :: s) eq_refl) as [H1 H2]; [by constructor|].
      split; [constructor; [lia|done]|]. intros H'. apply Forall_cons in H' as [H' H'']. constructor; [lia|by apply H2].
Qed.

Lemma points_of_length s : zlen (points_of s) <= zlen s.
Proof.
  remember (length s) as k eqn:Ek. revert s Ek. induction (lt_wf k) as [k _ IH]. intros s ->.
  destruct s as [|u s]; [done|]. rewrite points_of_cons. destruct s as [|lo s]; [done|].
  destruct (is_hi u && is_lo lo); rewrite !zlen_cons.
  - pose proof (IH (length s) ltac:(cbn; lia) s eq_refl). lia.
  - pose proof (IH (length (lo :: s)) ltac:(cbn; lia) (lo :: s) eq_refl) as H. rewrite zlen_cons in H. lia.
Qed.

Lemma normalize_ok label :
  Forall is_unit label -> exists s, _normalizeDnsLabel label = Ok s /\ is_ascii s /\ (label <> [] -> s <> []) /\ zlen (points_of label) <= zlen s.
Proof.
  intros Hu. destruct (points_of_units label Hu) as [Hp Ha]. unfold _normalizeDnsLabel. cbv zeta.
  destruct (forallb _ (points_of label)) eqn:E.
  - exists label. split_and!; [done| |done|by apply points_of_length]. apply Ha. apply Forall_forall. intros x Hx.
    rewrite forallb_forall in E. apply list_elem_of_In, E in Hx. lia.
  - set (st := {| pc_output := _; pc_handled := _; pc_delta := _; pc_bias := _ |}).
    destruct (punycode_loop_ok (points_of label) (zlen (List.filter (fun cp => cp <? 128) (points_of label)))
      (length (points_of label)) 128 st) as (st' & -> & [Ha' _] & Hh & Hsu).
    + split; cbn; [|lia]. apply Forall_app. split; [|destruct (0 <? _); repeat constructor; lia].
      apply Forall_forall. intros x Hx. apply list_elem_of_In, in_map_iff in Hx as (c & <- & Hc).
      apply filter_In in Hc as [Hc Hl]. rewrite Forall_forall in Hp. apply list_elem_of_In, Hp in Hc.
      unfold ascii_lower. destruct ((65 <=? c) && (c <=? 90)) eqn:Ec; lia.
    + done.
    + cbn. pose proof (zlen_nonneg (List.filter (fun cp => cp <? 128) (points_of label))). unfold zlen at 1. lia.
    + cbn [mbind res_bind]. eexists. split; [done|]. split; [|split; [done|]].
      * apply Forall_app. split; [|done]. repeat constructor; lia.
      * unfold surplus in Hsu. cbn [st pc_output pc_handled] in Hsu. rewrite zlen_app in Hsu. change (zlen (points_of label) <= zlen (js "xn--" ++ pc_output st')). rewrite zlen_app.
        unfold zlen in *. rewrite length_map in Hsu. lia.
Qed.

(** ** The decoder of RFC 3492 *)
Definition digit_value (c : Z) : option Z :=
  if (97 <=? c) && (c <=? 122) then Some (c - 97)
  else if (65 <=? c) && (c <=? 90) then Some (c - 65)
  else if (48 <=? c) && (c <=? 57) then Some (c - 48 + 26)
  else None.
Definition threshold (bias k : Z) : Z := Z.max 1 (Z.min 26 (k - bias)).
(** A generalized variable-length integer, added to [i]. *)
Fixpoint read_integer (s : jsstring) (bias k w i : Z) : option (Z * jsstring) :=
  match s with
  | [] => None
  | c :: s =>
      match digit_value c with
      | None => None
      | Some digit =>
          let i := i + digit * w in
          let t := threshold bias k in
          if digit <? t then Some (i, s) else read_integer s bias (k + 36) (w * (36 - t)) i
      end
  end.
(** Bias adaptation with base 36, tmin 1, tmax 26, skew 38 and damp 700. *)
Fixpoint scale (fuel : nat) (delta k : Z) : Z :=
  match fuel with
  | S fuel => if (36 - 1) * 26 / 2 <? delta then scale fuel (delta / (36 - 1)) (k + 36) else k + (36 - 1 + 1) * delta / (delta + 38)
  | O => k + (36 - 1 + 1) * delta / (delta + 38)
  end.
Definition adapt (delta numpoints : Z) (firsttime : bool) : Z :=
  let delta := if firsttime then delta / 700 else delta / 2 in
  let delta := delta + delta / numpoints in
  scale (S (Z.to_nat (Z.log2 delta))) delta 0.
Record decoder := { d_n : Z; d_i : Z; d_bias : Z; d_output : list Z }.
Definition insert_at (i : Z) (x : Z) (l : list Z) : list Z := take (Z.to_nat i) l ++ x :: drop (Z.to_nat i) l.
Definition insertion (st : decoder) (i : Z) : decoder :=
  let len := zlen (d_output st) + 1 in
  let n := d_n st + i / len in
  {| d_n := n; d_i := i mod len + 1; d_bias := adapt (i - d_i st) len (d_i st =? 0);
     d_output := insert_at (i mod len) n (d_output st) |}.
Fixpoint insertions (fuel : nat) (st : decoder) (s : jsstring) : option (list Z) :=
  match s, fuel with
  | [], _ => Some (d_output st)
  | _, O => None
  | _, S fuel =>
      match read_integer s (d_bias st) 36 1 (d_i st) with
      | Some (i, s) => insertions fuel (insertion st i) s
      | None => None
      end
  end.
(** What is before the last delimiter, if there is one, and after it. *)
Fixpoint split_delimiter (s : jsstring) : option (jsstring * jsstring) :=
  match s with
  | [] => None
  | c :: s =>
      match split_delimiter s with
      | Some (a, b) => Some (c :: a, b)
      | None => if c =? 45 then Some ([], s) else None
      end
  end.
Definition puny_decode (s : jsstring) : option (list Z) :=
  let '(basic, rest) := match split_delimiter s with Some ((_ :: _) as a, b) => (a, b) | _ => ([], s) end in
  insertions (length rest) {| d_n := 128; d_i := 0; d_bias := 72; d_output := basic |} rest.
(** The A-label of a label: the label itself when it is ASCII. *)
Definition normal_form (label s : jsstring) : Prop :=
  if forallb (fun cp => cp <? 128) (points_of label) then s = label
  else exists p, s = js "xn--" ++ p /\ puny_decode p = Some (map ascii_lower (points_of label)).

(** ** Decoding what the code encodes *)
Definition steps (st : decoder) (ds : jsstring) (st' : decoder) : Prop :=
  forall rest fuel, (length (ds ++ rest) <= fuel)%nat -> exists fuel', (length rest <= fuel')%nat /\
    insertions fuel st (ds ++ rest) = insertions fuel' st' rest.
Lemma steps_nil st : steps st [] st.
Proof. intros rest fuel H. by exists fuel. Qed.
Lemma steps_app st1 st2 st3 a b : steps st1 a st2 -> steps st2 b st3 -> steps st1 (a ++ b) st3.
Proof.
  intros H1 H2 rest fuel Hf. rewrite <- app_assoc in *. destruct (H1 _ _ Hf) as (f2 & L2 & ->). destruct (H2 _ _ L2) as (f3 & L3 & ->). by exists f3.
Qed.

Lemma digit_value_encode d : 0 <= d < 36 -> digit_value (_encodePunycodeDigit d) = Some d /\ _encodePunycodeDigit d <> 45.
Proof. intros H. unfold digit_value, _encodePunycodeDigit. split; zcases; cbn; try (f_equal; lia); lia. Qed.
Lemma digits_decode bias : forall fuel k q out,
  0 <= q < 2 ^ Z.of_nat fuel ->
  exists ds, punycode_digits fuel bias k q out = Ok (out ++ ds) /\ ds <> [] /\ Forall (fun c => c <> 45) ds /\
    forall rest w i, read_integer (ds ++ rest) bias k w i = Some (i + q * w, rest).
Proof.
  induction fuel as [|fuel IH]; intros k q out Hq; cbn [punycode_digits]; cbv zeta;
    set (t := if k <=? bias then 1 else if bias + 26 <=? k then 26 else k - bias);
    assert (Ht : t = threshold bias k /\ 1 <= t <= 26) by (subst t; unfold threshold; zcases; lia); destruct Ht as [Et Ht].
  - cbn in Hq. assert (q = 0) as -> by lia. destruct (Z.ltb_spec 0 t); [|lia]. destruct (digit_value_encode 0 ltac:(lia)) as [Ed En].
    exists [_encodePunycodeDigit 0]. split_and!; [done|done|by constructor|]. intros rest w i. cbn [app read_integer]. rewrite Ed, <- Et.
    by rewrite (proj2 (Z.ltb_lt _ _)) by lia.
  - destruct (Z.ltb_spec q t) as [L|L].
    + destruct (digit_value_encode q ltac:(lia)) as [Ed En]. exists [_encodePunycodeDigit q]. split_and!; [done|done|by constructor|].
      intros rest w i. cbn [app read_integer]. rewrite Ed, <- Et. by rewrite (proj2 (Z.ltb_lt _ _)) by lia.
    + pose proof (Z.mod_pos_bound (q - t) (36 - t) ltac:(lia)) as Hm. set (d := t + (q - t) mod (36 - t)).
      destruct (digit_value_encode d ltac:(lia)) as [Ed En].
      destruct (IH (k + 36) ((q - t) / (36 - t)) (out ++ [_encodePunycodeDigit d])) as (ds & E & _ & Hn & Hr).
      { split; [apply Z.div_pos; lia|]. rewrite Nat2Z.inj_succ, Z.pow_succ_r in Hq by lia. apply Z.div_lt_upper_bound; [lia|]. nia. }
      exists (_encodePunycodeDigit d :: ds). rewrite E, <- app_assoc. split_and!; [done|done|by constructor|].
      intros rest w i. cbn [app read_integer]. rewrite Ed, <- Et, (proj2 (Z.ltb_ge _ _)) by lia. rewrite Hr. do 2 f_equal.
      pose proof (Z.div_mod (q - t) (36 - t) ltac:(lia)). subst d. nia.
Qed.
Lemma scale_loop : forall fuel d k, 0 <= d < 2 ^ Z.of_nat fuel ->
  exists d' k', adapt_loop fuel d k = Ok (d', k') /\ 0 <= d' /\ scale fuel d k = k' + 36 * d' / (d' + 38).
Proof.
  induction fuel as [|fuel IH]; intros d k Hd; cbn [adapt_loop scale]; change ((36 - 1) * 26 / 2) with 455; change (36 - 1 + 1) with 36; change (36 - 1) with 35;
    destruct (Z.ltb_spec 455 d) as [L|L]; try (by exists d, k; split_and!; [|lia|]).
  - cbn in Hd. lia.
  - apply IH. rewrite Nat2Z.inj_succ, Z.pow_succ_r in Hd by lia. split; [apply Z.div_pos; lia|]. apply Z.div_lt_upper_bound; lia.
Qed.
Lemma adapt_same delta n first : 0 <= delta < 2 ^ 31 -> 0 < n -> _adaptPunycodeBias delta n first = Ok (adapt delta n first).
Proof.
  intros Hd Hn. unfold _adaptPunycodeBias, adapt. cbv zeta.
  replace (delta >>₃₂ 1) with (delta / 2) by (unfold js_shr; rewrite toInt32_small by (apply is_int32_nonneg; lia); by rewrite Z.shiftr_div_pow2).
  set (d := (if first then delta / 700 else delta / 2)). assert (0 <= d) by (subst d; destruct first; apply Z.div_pos; lia).
  assert (0 <= d / n) by (by apply Z.div_pos). destruct (scale_loop _ _ 0 (conj (Z.add_nonneg_nonneg _ _ H H0) (log2_fuel (d + d / n)))) as (d' & k' & -> & Hd' & ->).
  cbn [mbind res_bind]. rewrite (proj2 (Z.eqb_neq _ _)) by lia. done.
Qed.

(** The encoder between two points: [pre] was scanned for [n], [post] was not. *)
Definition below (n : Z) (l : list Z) : list Z := List.filter (fun cp => cp <? n) l.
Definition done_points (n : Z) (pre post : list Z) : list Z := below (n + 1) pre ++ below n post.
Record synced (basic n : Z) (pre post : list Z) (st : punycode) (d : decoder) : Prop := {
  sy_n : d_n d <= n;
  sy_i : 0 <= d_i d;
  sy_delta : 0 <= pc_delta st;
  sy_bias : pc_bias st = d_bias d;
  sy_handled : pc_handled st = zlen (done_points n pre post);
  sy_output : d_output d = map ascii_lower (done_points n pre post);
  sy_first : d_i d = 0 <-> pc_handled st = basic;
  sy_basic : basic <= pc_handled st;
  sy_gap : d_i d + pc_delta st = (n - d_n d) * (pc_handled st + 1) + zlen (below (n + 1) pre);
}.
Lemma below_snoc n pre cp : below n (pre ++ [cp]) = below n pre ++ (if cp <? n then [cp] else []).
Proof. unfold below. rewrite List.filter_app. cbn. by destruct (cp <? n). Qed.
Lemma below_cons n cp post : below n (cp :: post) = (if cp <? n then [cp] else []) ++ below n post.
Proof. unfold below. cbn. by destruct (cp <? n). Qed.
Lemma insert_middle x a b : insert_at (zlen a) x (a ++ b) = a ++ x :: b.
Proof. unfold insert_at. rewrite zlen_to_nat, take_app_length, drop_app_length. done. Qed.

Lemma below_length n l : zlen (below n l) <= zlen l.
Proof. unfold below, zlen. pose proof (List.filter_length_le (fun cp => cp <? n) l). lia. Qed.
Lemma ascii_lower_big n : 128 <= n -> ascii_lower n = n.
Proof. intros H. unfold ascii_lower. by replace (n <=? 90) with false by lia; rewrite andb_false_r. Qed.

Lemma point_skipped basic n pre cp post st d :
  cp <> n -> synced basic n pre (cp :: post) st d ->
  exists st', punycode_point basic n st cp = Ok st' /\ pc_output st' = pc_output st /\ synced basic n (pre ++ [cp]) post st' d.
Proof.
  intros Hne [Hn Hi Hd Hb Hh Ho Hf Hba Hg]. unfold punycode_point. cbv zeta. unfold done_points in *. rewrite below_cons in *.
  rewrite (proj2 (Z.eqb_neq _ _) Hne). cbn [negb]. eexists. split; [done|]. split; [done|].
  assert (E : (cp <? n + 1) = (cp <? n)) by lia.
  split; cbn [pc_handled pc_delta pc_bias]; unfold done_points; rewrite ?below_snoc, ?E; try done.
  - destruct (cp <? n); lia.
  - by rewrite <- app_assoc.
  - by rewrite <- app_assoc.
  - rewrite zlen_app. destruct (cp <? n); [change (zlen [cp]) with 1|change (zlen (@nil Z)) with 0]; lia.
Qed.
Lemma point_inserted basic n pre post st d :
  synced basic n pre (n :: post) st d -> 128 <= n < 1114112 -> 0 <= d_n d -> zlen (pre ++ n :: post) < 1024 ->
  exists st' ds, punycode_point basic n st n = Ok st' /\ pc_output st' = pc_output st ++ ds /\ ds <> [] /\ Forall (fun c => c <> 45) ds /\ steps d ds (insertion d (d_i d + pc_delta st)) /\ d_n (insertion d (d_i d + pc_delta st)) = n /\
    synced basic n (pre ++ [n]) post st' (insertion d (d_i d + pc_delta st)).
Proof.
  intros [Hn Hi Hd Hb Hh Ho Hf Hba Hg] Hr Hdn Hl. unfold punycode_point. cbv zeta. unfold done_points in *. rewrite below_cons, Z.ltb_irrefl in *.
  cbn [app] in *. rewrite Z.eqb_refl. cbn [negb]. set (A := below (n + 1) pre) in *. set (B := below n post) in *.
  set (h := pc_handled st) in *. set (delta := pc_delta st) in *. rewrite zlen_app in Hh.
  pose proof (below_length (n + 1) pre) as HA. pose proof (below_length n post) as HB. fold A in HA. fold B in HB.
  pose proof (zlen_nonneg A). pose proof (zlen_nonneg B). rewrite zlen_app, zlen_cons in Hl.
  assert (Hq : (d_i d + delta) / (h + 1) = n - d_n d /\ (d_i d + delta) mod (h + 1) = zlen A).
  { rewrite Hg. rewrite Z.add_comm, Z.div_add, Z.mod_add, Z.div_small, Z.mod_small by lia. lia. }
  destruct Hq as [Hq Hm]. assert (Hdelta : 0 <= delta < 2 ^ 31) by nia.
  destruct (digits_decode (pc_bias st) _ 36 delta (pc_output st) (conj Hd (log2_fuel delta))) as (ds & -> & Hds & H45 & Hread).
  rewrite adapt_same by lia. cbn [mbind res_bind]. eexists _, ds. split; [done|]. split; [done|]. split; [done|]. split; [done|].
  assert (Hlen : zlen (d_output d) + 1 = h + 1) by (rewrite Ho; unfold zlen in *; rewrite length_map, length_app; lia).
  split; [|split].
  - intros rest fuel Hfu. specialize (Hread rest 1 (d_i d)). destruct ds as [|c ds]; [done|]. destruct fuel as [|fuel]; [cbn in Hfu; lia|].
    exists fuel. split; [cbn in Hfu; rewrite length_app in Hfu; lia|]. cbn [app insertions]. rewrite <- Hb. cbn [app] in Hread. rewrite Hread. by rewrite Z.mul_1_r.
  - cbn. rewrite Hlen, Hq. lia.
  - split; cbn [insertion d_n d_i d_bias d_output pc_handled pc_delta pc_bias]; unfold done_points; rewrite ?Hlen, ?Hq, ?Hm, ?below_snoc; fold A B;
      replace (n <? n + 1) with true by lia; rewrite ?zlen_app, ?zlen_cons; change (zlen (@nil Z)) with 0; try lia.
    + replace (d_i d + delta - d_i d) with delta by lia. f_equal. apply Bool.eq_true_iff_eq. rewrite !Z.eqb_eq. tauto.
    + rewrite Ho, !map_app. replace (d_n d + (n - d_n d)) with n by lia. cbn [map]. rewrite (ascii_lower_big n) by lia.
      rewrite <- app_assoc. replace (zlen A) with (zlen (map ascii_lower A)) by (unfold zlen; by rewrite length_map). by rewrite insert_middle.
Qed.

Lemma points_decode basic n post : forall pre st d,
  synced basic n pre post st d -> 128 <= n < 1114112 -> 0 <= d_n d -> zlen (pre ++ post) < 1024 ->
  exists st' ds d', punycode_points basic n st post = Ok st' /\ pc_output st' = pc_output st ++ ds /\ Forall (fun c => c <> 45) ds /\
    count (fun cp => cp =? n) post <= zlen ds /\ steps d ds d' /\ 0 <= d_n d' /\ synced basic n (pre ++ post) [] st' d'.
Proof.
  induction post as [|cp post IH]; intros pre st d Hs Hn Hd Hl; cbn [punycode_points].
  { exists st, [], d. rewrite !app_nil_r. split_and!; [done|done|constructor|done|apply steps_nil|done|done]. }
  replace (pre ++ cp :: post) with ((pre ++ [cp]) ++ post) in * by (by rewrite <- app_assoc).
  rewrite count_cons. destruct (Z.eqb_spec cp n) as [->|Hne].
  - destruct (point_inserted basic n pre post st d Hs Hn Hd) as (st1 & ds1 & -> & E1 & Hne & F1 & S1 & N1 & Hs1); [by rewrite <- app_assoc in Hl|].
    cbn [mbind res_bind]. destruct (IH _ _ _ Hs1 Hn) as (st2 & ds2 & d2 & -> & E2 & F2 & C2 & S2 & N2 & Hs2); [lia|done|].
    exists st2, (ds1 ++ ds2), d2. split; [done|]. split; [by rewrite E2, E1, app_assoc|]. split; [by apply Forall_app|].
    split; [rewrite zlen_app; destruct ds1; [done|]; rewrite zlen_cons; pose proof (zlen_nonneg ds1); lia|]. split; [by eapply steps_app|done].
  - destruct (point_skipped basic n pre cp post st d Hne Hs) as (st1 & -> & E1 & Hs1). cbn [mbind res_bind].
    destruct (IH _ _ _ Hs1 Hn Hd Hl) as (st2 & ds2 & d2 & -> & E2 & F2 & C2 & S2 & N2 & Hs2).
    exists st2, ds2, d2. rewrite E2, E1. by split_and!.
Qed.
(** On from [n], and on to the next code point [m]. *)
Lemma synced_next basic n points st d : synced basic n points [] st d -> synced basic (n + 1) [] points (add_delta 1 st) d.
Proof.
  intros [Hn Hi Hd Hb Hh Ho Hf Hba Hg]. unfold done_points in *. cbn [below List.filter app] in *. rewrite app_nil_r in *.
  split; cbn [add_delta pc_handled pc_delta pc_bias]; unfold done_points; cbn [app below List.filter]; fold (below (n + 1) points); try done; try lia.
  change (zlen (@nil Z)) with 0. lia.
Qed.
Lemma synced_jump basic n m points st d :
  synced basic n [] points st d -> n <= m -> Forall (fun cp => cp < n \/ m <= cp) points ->
  synced basic m [] points (add_delta ((m - n) * (pc_handled st + 1)) st) d.
Proof.
  intros [Hn Hi Hd Hb Hh Ho Hf Hba Hg] Hm Hp. unfold done_points in *. cbn [below List.filter app] in *. fold (below n points) in *.
  assert (E : below m points = below n points).
  { clear -Hp Hm. induction Hp as [|cp l Hcp _ IH]; [done|]. rewrite !below_cons, IH. f_equal.
    destruct (Z.ltb_spec cp m), (Z.ltb_spec cp n); done || lia. }
  pose proof (zlen_nonneg (below n points)). change (zlen (@nil Z)) with 0 in *.
  split; cbn [add_delta pc_handled pc_delta pc_bias]; unfold done_points; cbn [app below List.filter]; fold (below m points); rewrite ?E; try done; try lia; try nia.
  change (zlen (@nil Z)) with 0. nia.
Qed.
Lemma below_all n l : zlen l <= zlen (below n l) -> below n l = l.
Proof.
  induction l as [|x l IH]; [done|]. rewrite below_cons, zlen_app, zlen_cons. pose proof (below_length n l).
  destruct (x <? n); cbn [app]; [change (zlen [x]) with 1; intros; f_equal; apply IH; lia|]. change (zlen (@nil Z)) with 0. lia.
Qed.
Lemma synced_head basic n points st d : synced basic n [] points st d ->
  pc_handled st = count (fun cp => cp <? n) points /\ d_output d = map ascii_lower (below n points).
Proof. intros Hs. split; [apply (sy_handled _ _ _ _ _ _ Hs)|apply (sy_output _ _ _ _ _ _ Hs)]. Qed.
Lemma loop_decodes points basic : zlen points < 1024 -> Forall (fun cp => cp < 1114112) points -> forall fuel n st d,
  synced basic n [] points st d -> 128 <= n -> 0 <= d_n d -> zlen points - pc_handled st <= Z.of_nat fuel ->
  exists st' ds d', punycode_loop fuel points basic n st = Ok st' /\ pc_output st' = pc_output st ++ ds /\
    Forall (fun c => c <> 45) ds /\ zlen points - pc_handled st <= zlen ds /\ steps d ds d' /\ d_output d' = map ascii_lower points.
Proof.
  intros Hl Hmax. induction fuel as [|fuel IH]; intros n st d Hs Hn Hd Hf; cbn [punycode_loop]; destruct (synced_head _ _ _ _ _ Hs) as [Hh Ho].
  1,2: destruct (Z.ltb_spec (pc_handled st) (zlen points)) as [L|L].
  1: lia.
  1,3: eexists _, [], d; rewrite app_nil_r; split; [done|]; split; [done|]; split; [constructor|]; split; [change (zlen (@nil Z)) with 0; lia|];
    split; [apply steps_nil|]; rewrite Ho; f_equal; apply below_all; unfold count, below in *; lia.
  pose proof (next_point_spec n points) as N. destruct (next_point n points) as [m|].
  2: { apply count_all in N. lia. }
  destruct N as (Nm & Nn & Nf). pose proof (synced_jump basic n m points st d Hs Nn Nf) as Hs1. rewrite Forall_forall in Hmax.
  pose proof (count_elem m points Nm) as Hc. pose proof (count_next n m points Nn Nf) as Hcn.
  destruct (points_decode basic m points [] _ d Hs1) as (st1 & ds1 & d1 & E0 & E1 & F1 & C1 & S1 & N1 & Hs2); [specialize (Hmax m Nm); lia|done|done|].
  change (pc_output st1 = pc_output st ++ ds1) in E1. rewrite E0. cbn [mbind res_bind app] in *. apply synced_next in Hs2. destruct (synced_head _ _ _ _ _ Hs2) as [Hh2 _].
  destruct (IH (m + 1) (add_delta 1 st1) d1 Hs2) as (st2 & ds2 & d2 & E2 & E3 & F2 & C2 & S2 & O2); [lia|done|lia|]. rewrite E2.
  change (pc_output st2 = pc_output st1 ++ ds2) in E3.
  exists st2, (ds1 ++ ds2), d2. split; [done|]. split; [by rewrite E3, E1, app_assoc|]. split; [by apply Forall_app|].
  split; [rewrite zlen_app; lia|]. split; [by eapply steps_app|done].
Qed.

(** ** Labels *)
Lemma split_delimiter_none s : Forall (fun c => c <> 45) s -> split_delimiter s = None.
Proof. induction 1 as [|c s Hc Hs IH]; [done|]. cbn. rewrite IH. by rewrite (proj2 (Z.eqb_neq _ _)). Qed.
Lemma split_delimiter_last a s : Forall (fun c => c <> 45) s -> split_delimiter (a ++ 45 :: s) = Some (a, s).
Proof. intros Hs. induction a as [|x a IH]; cbn [app split_delimiter]; [by rewrite split_delimiter_none|by rewrite IH]. Qed.
Lemma points_of_max s : Forall is_unit s -> Forall (fun cp => cp < 1114112) (points_of s).
Proof.
  remember (length s) as k eqn:Ek. revert s Ek. induction (lt_wf k) as [k _ IH]. intros s -> Hs.
  destruct Hs as [|u s Hu Hs]; [constructor|]. unfold is_unit in Hu. rewrite points_of_cons. destruct Hs as [|lo s Hl Hs]; [repeat constructor; lia|].
  destruct (is_hi u && is_lo lo) eqn:E; constructor.
  - unfold is_hi, is_lo in E. lia.
  - apply (IH (length s)); [cbn; lia|done|done].
  - lia.
  - apply (IH (length (lo :: s))); [cbn; lia|done|by constructor].
Qed.
(** The normal form of a label of fewer than 1024 characters; the sums of longer
    ones do not fit in 32 bits. *)
Lemma normalize_decodes label s :
  Forall is_unit label -> _normalizeDnsLabel label = Ok s -> zlen (points_of label) < 1024 ->
  normal_form label s.
Proof.
  intros Hu E Hl. pose proof (points_of_max label Hu) as Hmax. revert E. unfold _normalizeDnsLabel, normal_form. cbv zeta.
  destruct (forallb _ (points_of label)) eqn:Ea; [by intros [= <-]|].
  set (points := points_of label) in *. fold (below 128 points). set (basic := zlen (below 128 points)).
  set (out := map ascii_lower (below 128 points) ++ (if 0 <? basic then js "-" else [])).
  set (d0 := {| d_n := 128; d_i := 0; d_bias := 72; d_output := map ascii_lower (below 128 points) |}).
  destruct (loop_decodes points basic Hl Hmax (length points) 128 {| pc_output := out; pc_handled := basic; pc_delta := 0; pc_bias := 72 |} d0)
    as (st' & ds & d' & -> & Eo & H45 & Hlen & Hst & Hout); [by split|lia|done|cbn [pc_handled]; pose proof (zlen_nonneg (below 128 points)); unfold basic; unfold zlen at 1; lia|].
  cbn [mbind res_bind pc_output pc_handled] in *. intros [= <-]. rewrite Eo. exists (out ++ ds). split; [done|]. unfold puny_decode.
  assert (H : insertions (length ds) d0 ds = Some (map ascii_lower points)).
  { destruct (Hst [] (length ds)) as (f & _ & H); [by rewrite app_nil_r|]. rewrite app_nil_r in H. rewrite H, <- Hout. by destruct f. }
  unfold out. destruct (Z.ltb_spec 0 basic) as [Hb|Hb].
  - rewrite <- app_assoc. cbn [app]. change (js "-" ++ ds) with (45 :: ds). rewrite split_delimiter_last by done.
    unfold d0, basic in *. destruct (below 128 points) as [|x l]; [by cbn in Hb|]. cbn [map]. exact H.
  - unfold d0, basic in *. destruct (below 128 points) as [|x l]; [|rewrite zlen_cons in Hb; pose proof (zlen_nonneg l); lia].
    cbn [map app] in *. rewrite split_delimiter_none by done. exact H.
Qed.
End DnsPunycode.
