(* ===== verification/DnsLabels.v ===== *)
(** Encoded names: [_decodeName] inverts [_encodeName]. *)

From S2P Require Import Prelude JsString Utf8 Scanner Dns DnsNames DnsPunycode.

Module DnsLabels.
Import JsString Utf8 Dns DnsNames DnsPunycode.

(** ** ASCII text on the wire *)
Lemma ascii_encode s : is_ascii s -> encodeUtf8 s = s.
Proof.
  intros H. rewrite encodeUtf8_spec. destruct (code_points_ascii s) as [-> E]; [|exact E].
  apply forallb_forall. intros x Hx. apply list_elem_of_In in Hx. unfold is_ascii in H. rewrite Forall_forall in H.
  specialize (H x Hx). lia.
Qed.

Lemma ascii_well_formed s : is_ascii s -> toWellFormed s = s.
Proof.
  induction 1 as [|c s Hc Hs IH]; [done|]. cbv beta in Hc. cbn [toWellFormed].
  assert (is_hi c = false) as -> by (unfold is_hi; lia). assert (is_lo c = false) as -> by (unfold is_lo; lia).
  by rewrite IH.
Qed.

Lemma ascii_decode s : is_ascii s -> decodeUtf8 s false false = Ok s.
Proof.
  intros H. rewrite <- (ascii_encode s H) at 1. rewrite decodeUtf8_encode, ascii_well_formed; [done|done| |done].
  eapply Forall_impl; [exact H|]. intros c Hc. cbv beta in Hc. unfold is_unit. lia.
Qed.
(** ** Names on the wire *)
Definition label_ok (s : jsstring) : Prop := is_ascii s /\ s <> [] /\ zlen s <= 63.
Definition wire (labels : list jsstring) : list Z := concat (map (fun s => zlen s :: s) labels).
Definition nonempty (l : jsstring) : bool := negb (bool_decide (l = [])).
(** The labels of a name: the parts between the dots that are not empty. *)
Definition labels_of (name : jsstring) : list jsstring :=
  List.filter nonempty (split_on 46 (if endsWith name (js ".") then removelast name else name)).

(** A label whose normal form does not fit in the six bits of its length. *)
Definition too_long (l : jsstring) : Prop :=
  exists s, _normalizeDnsLabel l = Ok s /\ 63 < zlen s /\ (zlen (points_of l) < 1024 -> normal_form l s).
Lemma encode_labels_cases labels :
  Forall (Forall is_unit) labels ->
  (exists norm, encode_labels labels = Ok (wire norm) /\ Forall label_ok norm /\ Forall2 normal_form (List.filter nonempty labels) norm) \/
  encode_labels labels = Throw (JsError "DNS label too long") /\ exists l, l ∈ List.filter nonempty labels /\ too_long l.
Proof.
  induction 1 as [|l labels Hl Hls IH]; [left; exists []; split_and!; [done|constructor|constructor]|].
  cbn [encode_labels List.filter]. destruct (nonempty l) eqn:En; unfold nonempty in En; case_bool_decide as B; try done. clear En.
  destruct (normalize_ok l Hl) as (s & Es & Ha & Hs & Hp). rewrite Es. cbn [mbind res_bind]. cbv zeta.
  rewrite ascii_encode by done. destruct (Z.ltb_spec 63 (zlen s)) as [L|Lz].
  { right. split; [done|]. exists l. split; [by left|]. exists s. split; [done|]. split; [done|]. by apply normalize_decodes. }
  destruct IH as [(norm & -> & Hn & H2)|[-> (l' & Hl' & Ht)]]; [left|right; split; [done|]; exists l'; split; [by right|done]]. cbn [mbind res_bind].
  exists (s :: norm). split_and!; [done| |constructor; [apply normalize_decodes; [done|done|lia]|done]]. constructor; [|done]. split_and!; [done|by apply Hs|done].
Qed.

Lemma lookup_length (pre : list Z) x l : (pre ++ x :: l) !! length pre = Some x.
Proof. by rewrite lookup_app_r, Nat.sub_diag by lia. Qed.

Lemma wire_reads norm post : Forall label_ok norm -> forall pre,
  reads (pre ++ wire norm ++ 0 :: post) (S (length norm)) (length pre) norm 0 (length pre + length (wire norm ++ [0])).
Proof.
  induction 1 as [|s norm [Ha [Hne Hz]] Hn IH]; intros pre.
  - apply R_root. apply lookup_length.
  - cbn [length]. pose proof (zlen_nonneg s). assert (0 < zlen s) by (destruct s; [done|]; rewrite zlen_cons in *; pose proof (zlen_nonneg s); lia).
    assert (E : pre ++ wire (s :: norm) ++ 0 :: post = (pre ++ zlen s :: s) ++ wire norm ++ 0 :: post).
    { unfold wire. cbn. by rewrite <- !app_assoc. }
    assert (L : length (pre ++ zlen s :: s) = (length pre + 1 + Z.to_nat (zlen s))%nat).
    { rewrite length_app, zlen_to_nat. cbn. lia. }
    specialize (IH (pre ++ zlen s :: s)). rewrite <- E in IH. rewrite L in IH.
    apply (R_label _ _ _ (zlen s)).
    + unfold wire. cbn. apply lookup_length.
    + lia.
    + rewrite E, length_app, L. lia.
    + unfold sub. replace (length pre + 1 + Z.to_nat (zlen s) - (length pre + 1))%nat with (length s) by (rewrite zlen_to_nat; lia).
      rewrite E, <- app_assoc. cbn [app]. rewrite drop_app_ge by lia. replace (length pre + 1 - length pre)%nat with 1%nat by lia.
      rewrite skipn_cons, drop_0, take_app_length. by apply ascii_decode.
    + replace (Nat.add (length pre) (length (wire (s :: norm) ++ [0]))) with
        (length pre + 1 + Z.to_nat (zlen s) + length (wire norm ++ [0%Z]))%nat; [done|].
      unfold wire. cbn. rewrite !length_app, zlen_to_nat. cbn. lia.
Qed.

Lemma wire_bytes norm : Forall label_ok norm -> Forall is_byte (wire norm).
Proof.
  induction 1 as [|s norm [Ha [Hne Hz]] Hn IH]; [constructor|]. pose proof (zlen_nonneg s).
  constructor; [unfold is_byte; lia|]. apply Forall_app. split; [|done]. eapply Forall_impl; [exact Ha|]. intros c Hc. cbv beta in Hc. unfold is_byte. lia.
Qed.

Lemma units_split name : Forall is_unit name -> Forall (Forall is_unit) (split_on 46 name).
Proof.
  induction 1 as [|u s Hu Hs IH]; cbn [split_on]; [repeat constructor|]. destruct (u =? 46); [constructor; [constructor|done]|].
  destruct (split_on 46 s) as [|p ps]; [constructor; [constructor; [done|constructor]|constructor]|].
  apply Forall_cons in IH as [H1 H2]. constructor; [by constructor|done].
Qed.

Lemma Forall_removelast {A} (P : A -> Prop) l : Forall P l -> Forall P (removelast l).
Proof. induction 1 as [|x l Hx Hl IH]; [constructor|]. destruct l; cbn; [constructor|]. by constructor. Qed.

Lemma encodeName_cases name :
  Forall is_unit name ->
  (exists norm, Forall2 normal_form (labels_of name) norm /\ _encodeName name = Ok (wire norm ++ [0]) /\ Forall label_ok norm) \/
  _encodeName name = Throw (JsError "DNS label too long") /\ exists l, l ∈ labels_of name /\ too_long l.
Proof.
  intros Hu. unfold _encodeName, labels_of. set (nm := if endsWith _ _ then _ else _).
  assert (Hn : Forall is_unit nm) by (subst nm; destruct (endsWith _ _); [by apply Forall_removelast|done]).
  destruct (encode_labels_cases _ (units_split nm Hn)) as [(norm & -> & H1 & H2)|[-> H]]; [left|by right].
  exists norm. by split_and!.
Qed.

(** C35: a name is written as the lengths and texts of its labels in their normal
    form, ended by a zero, unless the normal form of a label has more than 63
    characters, which is an error.  The normal form of an ASCII label is the label;
    that of another one is "xn--" and a text which the decoder of RFC 3492 reads as
    the label with its ASCII letters in lower case.  [_decodeName] reads the name
    anywhere in a message as its labels in normal form, joined by dots, and finds
    where it ends. *)
Theorem name_roundtrip name pre post :
  Forall is_unit name -> Forall is_byte pre -> Forall is_byte post ->
  (exists norm bytes, Forall2 normal_form (labels_of name) norm /\ Forall (fun s => zlen s <= 63) norm /\
     _encodeName name = Ok bytes /\ bytes = concat (map (fun s => zlen s :: s) norm) ++ [0] /\
     _decodeName (pre ++ bytes ++ post) (length pre) = Ok (join (js ".") norm, (length pre + length bytes)%nat)) \/
  _encodeName name = Throw (JsError "DNS label too long") /\
  (exists l s, l ∈ labels_of name /\ _normalizeDnsLabel l = Ok s /\ 63 < zlen s /\ (zlen (points_of l) < 1024 -> normal_form l s)).
Proof.
  intros Hu Hpre Hpost. destruct (encodeName_cases name Hu) as [(norm & H1 & H2 & H3)|[E (l & Hl & s & Hs)]]; [left|right; split; [done|by exists l, s]].
  exists norm, (wire norm ++ [0]). split_and!; [done| |done|done|]. { eapply Forall_impl; [exact H3|]. by intros s (_ & _ & ?). }
  rewrite <- app_assoc. cbn [app].
  eapply decodeName_reads; [|by apply wire_reads|lia].
  rewrite !Forall_app, Forall_cons. split_and!; [done|by apply wire_bytes|unfold is_byte; lia|done].
Qed.

Definition munich_mail : jsstring := js "mail.m" ++ [252] ++ js "nchen.".
Example munich_normal : _normalizeDnsLabel (js "m" ++ [252] ++ js "nchen") = Ok (js "xn--mnchen-3ya") /\ puny_decode (js "mnchen-3ya") = Some (js "m" ++ [252] ++ js "nchen").
Proof. split; vm_compute; reflexivity. Qed.
Lemma name_roundtrip_witness :
  exists norm bytes, Forall2 normal_form (labels_of munich_mail) norm /\ Forall (fun s => zlen s <= 63) norm /\
    _encodeName munich_mail = Ok bytes /\ bytes = concat (map (fun s => zlen s :: s) norm) ++ [0] /\
    _decodeName ([7] ++ bytes ++ [1; 2]) 1 = Ok (join (js ".") norm, (1 + length bytes)%nat).
Proof.
  destruct (name_roundtrip munich_mail [7] [1; 2]) as [H|[H _]].
  - repeat constructor; vm_compute; discriminate || reflexivity.
  - repeat constructor; vm_compute; discriminate || reflexivity.
  - repeat constructor; vm_compute; discriminate || reflexivity.
  - exact H.
  - vm_compute in H. discriminate H.
Defined.
End DnsLabels.
