(* ===== verification/DnsMessages.v ===== *)
(** DNS messages: parsing a response ends for every message, and a query that
    [_buildQuery] builds is read back by [_parseResponse]. *)

From S2P Require Import Prelude JsString Utf8 Scanner Dns DnsNames DnsLabels.

Module DnsMessages.
Import Utf8 Dns DnsNames DnsLabels.

(** ** Outcomes: a result or an error, never an endless loop *)
Definition ends {A} (r : res A) : Prop := match r with Ok _ | Throw (JsError _) => True | _ => False end.

Create HintDb dns_ends.

Lemma ends_ok {A} (a : A) : ends (Ok a).
Proof. exact I. Qed.
Lemma ends_error {A} msg : ends (@dns_error A msg).
Proof. exact I. Qed.
Lemma ends_bind {A B} (m : res A) (f : A -> res B) : ends m -> (forall a, m = Ok a -> ends (f a)) -> ends (m ≫= f).
Proof. unfold mbind, res_bind. destruct m as [a|[]]; cbn; auto. Qed.
Lemma ends_bind_ST {A B} (m : ST Scanner.t A) (f : A -> ST Scanner.t B) :
  (forall sc, ends (m sc)) -> (forall a sc, ends (f a sc)) -> forall sc, ends ((m ≫= f) sc).
Proof. intros Hm Hf sc. unfold mbind, ST_bind. specialize (Hm sc). destruct (m sc) as [[a sc']|[]]; cbn; auto. Qed.
Lemma ends_ret {A} (a : A) (sc : Scanner.t) : ends ((mret a : ST Scanner.t A) sc).
Proof. exact I. Qed.
Lemma ends_readNum n le sc : ends (Scanner.readNum n le sc).
Proof. unfold Scanner.readNum. by destruct (_ <? _)%nat. Qed.
Lemma ends_eatBytes n sc : ends (Scanner.eatBytes n sc).
Proof. unfold Scanner.eatBytes. by destruct (_ <? _)%nat. Qed.
Lemma ends_jump n sc : ends (Scanner.jump n sc).
Proof. unfold Scanner.jump. by destruct (_ <? _)%nat. Qed.
Lemma ends_decodeName msg o : Forall is_byte msg -> ends (_decodeName msg o).
Proof. intros H. pose proof (decodeName_ends msg o H) as E. by destruct (_decodeName msg o) as [|[]]. Qed.
Lemma ends_scan {A} (m : ST Scanner.t A) bytes : (forall sc, ends (m sc)) -> ends (scan m bytes).
Proof. intros H. unfold scan. apply ends_bind; [apply H|]. by intros []. Qed.
Lemma ends_utf8 bytes bom : ends (decodeUtf8 bytes false bom).
Proof. destruct (decodeUtf8_outcome bytes false bom) as [[s ->]|[? _]]; done. Qed.

#[export] Hint Resolve ends_ok ends_error ends_ret ends_readNum ends_eatBytes ends_jump ends_decodeName ends_utf8 : dns_ends.

(** Follows the structure of a parser. *)
Ltac ends_step :=
  match goal with
  | |- ends (scan _ _) => apply ends_scan; intros ?
  | |- ends (if ?b then _ else _) => destruct b
  | |- ends (let '(_, _) := ?p in _) => destruct p
  | |- ends ((@mbind (ST _) _ _ _ _ _) _) => apply ends_bind_ST; intros
  | |- ends (@mbind res _ _ _ _ _) => apply ends_bind; intros
  | |- _ => solve [eauto with dns_ends]
  end.
Ltac solve_ends := repeat (cbv beta zeta; ends_step).

Section total.
Context (inet_ntop : list Z -> list Z) (msg : list Z) (Hmsg : Forall is_byte msg).

Lemma ends_bitmap fuel : forall bytes, (length bytes <= fuel)%nat -> ends (decode_bitmap fuel bytes).
Proof.
  induction fuel as [|fuel IH]; intros [|w [|len rest]] Hl; cbn [length] in Hl; try (exact I); try lia.
  cbn [decode_bitmap]. solve_ends. apply IH. rewrite length_drop. lia.
Qed.

Lemma ends_txt fuel : forall bytes, Forall is_byte bytes -> (length bytes <= fuel)%nat -> ends (txt_strings fuel bytes).
Proof.
  induction fuel as [|fuel IH]; intros [|slen rest] Hb Hl; cbn [length] in Hl; try (exact I); try lia.
  cbn [txt_strings]. apply Forall_cons in Hb as [_ Hb]. solve_ends. apply IH; [by apply Forall_drop|rewrite length_drop; lia].
Qed.

Lemma ends_typeBitmap bytes : ends (decodeTypeBitmap bytes).
Proof. by apply ends_bitmap. Qed.

Lemma sub_bytes a b : Forall is_byte (sub msg a b).
Proof. by apply Forall_take, Forall_drop. Qed.
Lemma length_sub a b : (length (sub msg a b) <= b - a)%nat.
Proof. unfold sub. rewrite length_take. lia. Qed.

Hint Resolve ends_typeBitmap : dns_ends.

Lemma ends_nsec3 sc : ends (parse_nsec3 sc).
Proof. unfold parse_nsec3, nsec3_header, Scanner.readU8, Scanner.readU16BEField, Scanner.readU16BE. solve_ends. Qed.
Lemma ends_nsec3param sc : ends (parse_nsec3param sc).
Proof. unfold parse_nsec3param, nsec3_header, Scanner.readU8, Scanner.readU16BEField, Scanner.readU16BE. solve_ends. Qed.
Hint Resolve ends_nsec3 ends_nsec3param : dns_ends.
Ltac unfold_readers :=
  unfold Scanner.readU8, Scanner.readU16BEField, Scanner.readU32BEField, Scanner.readU16BE, Scanner.readU32BE.

Lemma ends_soa a b : ends (parse_soa msg a b).
Proof. unfold parse_soa. unfold_readers. solve_ends. Qed.
Lemma ends_rrsig a b : ends (parse_rrsig msg a b).
Proof. unfold parse_rrsig. unfold_readers. solve_ends. Qed.
Hint Resolve ends_soa ends_rrsig : dns_ends.

Lemma ends_data type n a b : (b = a + n)%nat -> ends (parse_data inet_ntop msg type n a b).
Proof.
  intros ->. assert (T : ends (txt_strings n (sub msg a (a + n)))).
  { apply ends_txt; [apply sub_bytes|]. pose proof (length_sub a (a + n)). lia. }
  unfold parse_data, formatIPv6. unfold_readers. solve_ends.
Qed.

Lemma ends_record o : ends (parseResourceRecord inet_ntop msg o).
Proof. pose proof ends_data. unfold parseResourceRecord. unfold_readers. solve_ends. Qed.
Hint Resolve ends_record : dns_ends.

Lemma ends_questions n : forall sc, ends (skip_questions msg n sc).
Proof. induction n as [|n IH]; intros sc; cbn [skip_questions]; solve_ends. Qed.
Lemma ends_RRs n : forall out sc, ends (readRRs inet_ntop msg out n sc).
Proof. induction n as [|n IH]; intros out sc; cbn [readRRs]; solve_ends. Qed.
Lemma ends_opt o : ends (parse_opt msg o).
Proof. unfold parse_opt. unfold_readers. solve_ends. Qed.
Hint Resolve ends_opt ends_questions ends_RRs : dns_ends.
Lemma ends_additionals n : forall out e sc, ends (readAdditionals inet_ntop msg out e n sc).
Proof. induction n as [|n IH]; intros out e sc; cbn [readAdditionals]; solve_ends. Qed.
Hint Resolve ends_additionals : dns_ends.

Lemma ends_response : ends (_parseResponse inet_ntop msg).
Proof. unfold _parseResponse. unfold_readers. solve_ends. Qed.
End total.

(** C36: parsing ends on every message, however its names, pointers, records
    and bitmaps are cut short or entangled: it returns a response or throws an
    error. *)
Theorem parseResponse_total inet_ntop msg :
  Forall is_byte msg ->
  ends (_parseResponse inet_ntop msg).
Proof. apply ends_response. Qed.

Lemma parseResponse_total_witness :
  let msg := [0; 7; 129; 128; 0; 1; 255; 255; 0; 0; 0; 0; 192; 12; 0; 1; 0; 1] in
  ends (_parseResponse (fun _ => []) msg) /\
  _parseResponse (fun _ => []) msg = Throw (JsError "DNS: compression pointer loop detected").
Proof.
  intros msg. split; [|vm_compute; reflexivity]. apply parseResponse_total.
  repeat constructor; vm_compute; discriminate || reflexivity.
Defined.

(** ** Reading at an offset *)
Lemma drop_skip (msg : list Z) o p rest : drop o msg = p ++ rest -> drop (o + length p) msg = rest.
Proof. intros H. rewrite <- drop_drop, H. apply drop_app_length. Qed.

Lemma drop_length_le (msg : list Z) o p rest : drop o msg = p ++ rest -> p <> [] -> (o + length p <= length msg)%nat.
Proof.
  intros H Hp. apply (f_equal length) in H. rewrite length_drop, length_app in H. destruct p; [done|]. cbn in *. lia.
Qed.

Lemma read_at n msg o v rest :
  drop o msg = be_bytes (S n) v ++ rest ->
  Scanner.readNum (S n) false (at_ msg o) = Ok (v mod 2 ^ (8 * Z.of_nat (S n)), at_ msg (o + S n)) /\ drop (o + S n) msg = rest.
Proof.
  intros H. assert (L : length (be_bytes (S n) v) = S n) by apply length_be_bytes.
  pose proof (drop_length_le _ _ _ _ H ltac:(intros E; by rewrite E in L)) as Hl.
  pose proof (drop_skip _ _ _ _ H) as Hr. rewrite L in Hl, Hr. split; [|done].
  unfold Scanner.readNum, Scanner.remaining_text, Scanner.move. cbn [Scanner.buf Scanner.offset].
  rewrite (proj2 (Nat.ltb_ge _ _)) by lia. rewrite H. cbv zeta. rewrite <- L at 1. rewrite take_app_length.
  by rewrite be_val_bytes.
Qed.

Lemma read16_at msg o v rest :
  drop o msg = set16 v ++ rest ->
  Scanner.readU16BEField (at_ msg o) = Ok (v mod 65536, at_ msg (o + 2)) /\ drop (o + 2) msg = rest.
Proof. apply (read_at 1). Qed.
Lemma read32_at msg o v rest :
  drop o msg = be_bytes 4 v ++ rest ->
  Scanner.readU32BEField (at_ msg o) = Ok (v mod 4294967296, at_ msg (o + 4)) /\ drop (o + 4) msg = rest.
Proof. apply (read_at 3). Qed.

Lemma name_at msg o norm rest :
  Forall is_byte msg -> Forall label_ok norm -> drop o msg = (wire norm ++ [0]) ++ rest ->
  _decodeName msg o = Ok (join (js ".") norm, (o + length (wire norm ++ [0%Z]))%nat) /\
  drop (o + length (wire norm ++ [0%Z])) msg = rest.
Proof.
  intros Hm Hn H. split; [|by apply drop_skip].
  pose proof (wire_reads norm rest Hn (take o msg)) as R. rewrite <- app_assoc in H. cbn [app] in H. rewrite <- H, take_drop in R.
  assert (L : length (take o msg) = o).
  { rewrite length_take. apply (f_equal length) in H. rewrite length_drop, length_app in H. cbn in H. lia. }
  rewrite L in R. by eapply decodeName_reads; [done|exact R|lia].
Qed.
Lemma jump_at msg o o' : (o' <= length msg)%nat -> Scanner.jump o' (at_ msg o) = Ok (tt, at_ msg o').
Proof. intros H. unfold Scanner.jump. cbn [Scanner.buf]. by rewrite (proj2 (Nat.ltb_ge _ _)) by lia. Qed.
Lemma eat_at msg o p rest :
  drop o msg = p ++ rest -> p <> [] -> Scanner.eatBytes (length p) (at_ msg o) = Ok (p, at_ msg (o + length p)).
Proof.
  intros H Hp. pose proof (drop_length_le _ _ _ _ H Hp). unfold Scanner.eatBytes, Scanner.remaining_text, Scanner.move.
  cbn [Scanner.buf Scanner.offset]. rewrite (proj2 (Nat.ltb_ge _ _)) by lia. by rewrite H, take_app_length.
Qed.
Lemma enough_at msg o p rest n :
  drop o msg = p ++ rest -> p <> [] -> (n <= length p)%nat -> (Scanner.remainingBytes (at_ msg o) <? n)%nat = false.
Proof. intros H Hp Hn. pose proof (drop_length_le _ _ _ _ H Hp). rewrite remaining_at. apply Nat.ltb_ge. lia. Qed.

(** The OPT record that asks for DNSSEC. *)
Definition opt_record (size : Z) : list Z := [0] ++ set16 QTYPE_OPT ++ set16 size ++ be_bytes 4 32768 ++ set16 0.
Definition opt_edns (size : Z) : Edns :=
  {| udpPayloadSize := size mod 65536; dnssecOk := true; extendedRcode := 0; version := 0; ednsFlags := 32768 |}.

Section opt.
Context (inet_ntop : list Z -> list Z) (msg : list Z) (Hmsg : Forall is_byte msg) (o : nat) (size : Z)
  (Ho : drop o msg = opt_record size).

Lemma opt_name : _decodeName msg o = Ok ([], (o + 1)%nat) /\
  drop (o + 1) msg = set16 QTYPE_OPT ++ set16 size ++ be_bytes 4 32768 ++ set16 0.
Proof. apply (name_at msg o []); [done|constructor|exact Ho]. Qed.

Lemma opt_data n a b : parse_data inet_ntop msg QTYPE_OPT n a b = Ok (DRaw (sub msg a b)).
Proof. reflexivity. Qed.

Lemma opt_parsed : exists r, parseResourceRecord inet_ntop msg o = Ok (r, length msg) /\ rr_type r = QTYPE_OPT.
Proof.
  destruct opt_name as [E D1]. unfold parseResourceRecord. rewrite E. cbn [mbind res_bind].
  assert (L : (o + 11 = length msg)%nat).
  { apply (f_equal length) in Ho. rewrite length_drop in Ho. vm_compute (length (opt_record _)) in Ho.
    destruct (decide (length msg <= o)%nat); lia. }
  change (Scanner.of_bytes msg) with (at_ msg 0). rewrite jump_at by lia. cbn [mbind res_bind]. rewrite remaining_at, (proj2 (Nat.ltb_ge _ _)) by lia.
  destruct (read16_at _ _ _ _ D1) as [-> D2]. cbn [mbind res_bind].
  destruct (read16_at _ _ _ _ D2) as [-> D3]. cbn [mbind res_bind]. cbv zeta.
  destruct (read32_at _ _ _ _ D3) as [-> D4]. cbn [mbind res_bind].
  destruct (read16_at _ (o + 1 + 2 + 2 + 4)%nat 0 [] D4) as [-> _]. cbn [mbind res_bind Scanner.offset].
  change (Z.to_nat (0 mod 65536)) with 0%nat. rewrite Nat.add_0_r, (proj2 (Nat.ltb_ge _ _)) by lia.
  change (QTYPE_OPT mod 65536) with QTYPE_OPT. rewrite opt_data. cbn [mbind res_bind].
  match goal with |- exists r, Ok (?x, _) = _ /\ _ => exists x end. split; [|reflexivity]. do 2 f_equal. lia.
Qed.

Lemma opt_read : parse_opt msg o = Ok (opt_edns size).
Proof.
  destruct opt_name as [E D1]. unfold parse_opt. rewrite E. cbn [mbind res_bind].
  pose proof (drop_length_le msg (o + 1) (set16 QTYPE_OPT) _ D1 ltac:(done)) as L. change (length (set16 QTYPE_OPT)) with 2%nat in L.
  change (Scanner.of_bytes msg) with (at_ msg 0). rewrite jump_at by lia. cbn [mbind res_bind].
  destruct (read16_at _ _ _ _ D1) as [_ D2]. destruct (read16_at _ _ _ _ D2) as [-> D3]. cbn [mbind res_bind].
  destruct (read32_at _ _ _ _ D3) as [-> _]. reflexivity.
Qed.
End opt.
(** What [_buildQuery] builds for a name that can be encoded is a message
    that [_parseResponse] reads as a standard recursive query with the same
    identifier and no records, and with the payload size and the DNSSEC flag in
    its EDNS part when DNSSEC is asked for. *)
Theorem query_parses inet_ntop qid name qtype dnssec size :
  Forall is_unit name ->
  (exists bytes, _buildQuery qid name qtype dnssec size = Ok bytes /\
     _parseResponse inet_ntop bytes =
       Ok {| id := qid mod 65536; flags := 256; rcode := 0; truncated := false; answers := []; authorities := [];
             additionals := []; edns := if dnssec then Some (opt_edns (default 1232 size)) else None |}) \/
  _buildQuery qid name qtype dnssec size = Throw (JsError "DNS label too long").
Proof.
  intros Hu. unfold _buildQuery. destruct (encodeName_cases name Hu) as [(norm & _ & -> & Hn)|[-> _]]; [left|by right].
  cbn [mbind res_bind]. eexists. split; [done|]. set (sz := match size with Some n => n | None => 1232 end).
  change ([0] ++ set16 QTYPE_OPT ++ set16 sz ++ [0; 0] ++ set16 32768 ++ set16 0) with (opt_record sz).
  match goal with |- _parseResponse _ ?m = _ => set (msg := m) end.
  assert (Hb : Forall is_byte msg).
  { subst msg. rewrite !Forall_app. split_and!; try apply be_bytes_byte; [by apply wire_bytes|repeat constructor; unfold is_byte; lia|].
    destruct dnssec; [|constructor]. unfold opt_record. rewrite !Forall_app.
    split_and!; try apply be_bytes_byte. repeat constructor; unfold is_byte; lia. }
  assert (L : (12 <= length msg)%nat) by (subst msg; rewrite !length_app; cbn; lia).
  assert (D0 : drop 0 msg = msg) by done. unfold msg at 2 in D0. clearbody msg.
  unfold _parseResponse. change (Scanner.of_bytes msg) with (at_ msg 0). rewrite (proj2 (Nat.ltb_ge _ _)) by lia.
  destruct (read16_at _ _ _ _ D0) as [-> D1]. cbn [mbind res_bind].
  destruct (read16_at _ _ _ _ D1) as [-> D2]. cbn [mbind res_bind].
  destruct (read16_at _ _ _ _ D2) as [-> D3]. cbn [mbind res_bind].
  destruct (read16_at _ _ _ _ D3) as [-> D4]. cbn [mbind res_bind].
  destruct (read16_at _ _ _ _ D4) as [-> D5]. cbn [mbind res_bind].
  destruct (read16_at _ _ _ _ D5) as [-> D6]. cbn [mbind res_bind].
  change (Z.to_nat (1 mod 65536)) with 1%nat. change (Z.to_nat (0 mod 65536)) with 0%nat.
  cbn [skip_questions readRRs Scanner.offset].
  destruct (name_at msg _ norm _ Hb Hn D6) as [-> D7]. cbn [mbind res_bind].
  set (o := Nat.add _ (length (wire norm ++ [0]))) in *. rewrite app_assoc in D7.
  pose proof (drop_length_le _ _ _ _ D7 ltac:(done)) as L7. change (length (set16 qtype ++ set16 1)) with 4%nat in L7.
  rewrite jump_at by lia. cbn [mbind res_bind]. rewrite (enough_at _ _ _ _ _ D7) by (done || cbn; lia).
  change 4%nat with (length (set16 qtype ++ set16 1)). rewrite (eat_at _ _ _ _ D7) by done. cbn [mbind res_bind].
  apply drop_skip in D7. change (length (set16 qtype ++ set16 1)) with 4%nat in *.
  destruct dnssec; [|reflexivity]. change (Z.to_nat (1 mod 65536)) with 1%nat. cbn [readAdditionals Scanner.offset].
  destruct (opt_parsed inet_ntop msg Hb _ sz D7) as (r & -> & Er). cbn [mbind res_bind].
  rewrite jump_at by lia. cbn [mbind res_bind]. rewrite Er, Z.eqb_refl, (opt_read msg Hb _ sz D7). reflexivity.
Qed.

Lemma query_parses_witness :
  exists bytes, _buildQuery 258 (js "example.com") 28 true None = Ok bytes /\
    _parseResponse (fun _ => []) bytes =
      Ok {| id := 258; flags := 256; rcode := 0; truncated := false; answers := []; authorities := [];
            additionals := []; edns := Some (opt_edns 1232) |}.
Proof.
  destruct (query_parses (fun _ => []) 258 (js "example.com") 28 true None) as [H|H].
  - repeat constructor; vm_compute; discriminate || reflexivity.
  - exact H.
  - vm_compute in H. discriminate H.
Defined.
End DnsMessages.
