(* ===== verification/ClusterFraming.v ===== *)
(** Length-prefixed frames on cluster streams
    (src/js/internal/cluster/webtransport-framing.ts): the frame codec, the
    incremental [ClusterStreamFrameReader], the metadata message that opens a
    stream, and the key of a port pair.

    The reader's state is its buffer.  [splits] is the specification: the only
    way to read a byte stream as whole frames followed by an incomplete one. *)

From S2P Require Import Prelude JsNumber Utf8 ThriftIO Protobuf ProtobufWire ProtobufMessage.

Module ClusterFraming.

(** [a < b] on strings: by code units. *)
Fixpoint string_lt (a b : jsstring) : bool :=
  match a, b with
  | _, [] => false
  | [], _ => true
  | x :: a, y :: b => if x <? y then true else if y <? x then false else string_lt a b
  end.
Definition canonicalPortPair (a b : jsstring) : jsstring :=
  if string_lt a b then a ++ js "|" ++ b else b ++ js "|" ++ a.

(** ** Stream metadata *)

Inductive ClusterStreamMetadata :=
| MControl
| MPort (key a b : jsstring).
Definition metadata_schema : list (jsstring * Protobuf.FieldSchema) :=
  let plain n t := Protobuf.Build_FieldSchema (JsNumber.number_of n) (Protobuf.Scalar t) false None in
  [(js "version", plain 1 Protobuf.uint32 false); (js "kind", plain 2 Protobuf.enum false);
   (js "pair", plain 3 Protobuf.string_ true); (js "a", plain 4 Protobuf.string_ true);
   (js "b", plain 5 Protobuf.string_ true)].
Definition MetadataMessage : Protobuf.FieldType :=
  Eval vm_compute in
    match Protobuf.defineMessage metadata_schema with Ok c => c | Throw _ => Protobuf.Scalar Protobuf.bool_ end.

Definition encodeClusterStreamMetadata (metadata : ClusterStreamMetadata) : res (list Z) :=
  Protobuf.encode MetadataMessage (Protobuf.VObject (
    [(js "version", Protobuf.VNumber (JsNumber.number_of 1));
     (js "kind", Protobuf.VNumber (JsNumber.number_of match metadata with MControl => 1 | MPort _ _ _ => 2 end))] ++
    match metadata with
    | MControl => []
    | MPort p a b => [(js "pair", Protobuf.VString p); (js "a", Protobuf.VString a); (js "b", Protobuf.VString b)]
    end)).

(** [value[k] === n] *)
Definition is_number_prop (m : list (jsstring * Protobuf.value)) (k : jsstring) (n : Z) : bool :=
  match Protobuf.prop m k with Protobuf.VNumber b => b =? JsNumber.number_of n | _ => false end.
Definition decodeClusterStreamMetadata (bytes : list Z) : res ClusterStreamMetadata :=
  value ← Protobuf.decode MetadataMessage bytes;
  match value with
  | Protobuf.VObject m =>
      if negb (is_number_prop m (js "version") 1)
      then Throw (JsError "unsupported cluster WebTransport metadata version")
      else if is_number_prop m (js "kind") 1 then Ok MControl
      else if is_number_prop m (js "kind") 2 then
        match Protobuf.prop m (js "pair"), Protobuf.prop m (js "a"), Protobuf.prop m (js "b") with
        | Protobuf.VString p, Protobuf.VString a, Protobuf.VString b => Ok (MPort p a b)
        | _, _, _ => Throw (JsError "invalid cluster WebTransport metadata")
        end
      else Throw (JsError "invalid cluster WebTransport metadata")
  | _ => Throw (TypeError "not an object")
  end.

(** [view.setUint32(0, payload.byteLength)] stores the low 32 bits. *)
Definition encodeClusterStreamFrame (payload : list Z) : list Z :=
  be_bytes 4 (zlen payload) ++ payload.

(** [view.getUint32(0)] *)
Definition getUint32 (bytes : list Z) : Z := be_val (take 4 bytes).

Definition decodeClusterStreamFrame (bytes : list Z) : res (list Z * Z) :=
  if zlen bytes <? 4 then Throw (JsError "truncated cluster WebTransport frame length")
  else
    let length := getUint32 bytes in
    let end_ := 4 + length in
    if zlen bytes <? end_ then Throw (JsError "truncated cluster WebTransport frame payload")
    else Ok (slice 4 end_ bytes, end_).

(** The loop of [push]; every round drops at least the four prefix bytes. *)
Fixpoint push_loop (fuel : nat) (buffer : list Z) : res (list (list Z) * list Z) :=
  if 4 <=? zlen buffer then
    let length := getUint32 buffer in
    let end_ := 4 + length in
    if zlen buffer <? end_ then Ok ([], buffer)
    else
      match fuel with
      | O => Throw Diverges
      | S fuel =>
          '(value, bytesRead) ← decodeClusterStreamFrame (slice 0 end_ buffer);
          '(frames, rest) ← push_loop fuel (drop (Z.to_nat bytesRead) buffer);
          Ok (value :: frames, rest)
      end
  else Ok ([], buffer).

Definition push (chunk : list Z) : ST (list Z) (list (list Z)) := fun buffer =>
  if zlen chunk =? 0 then Ok ([], buffer)
  else let merged := buffer ++ chunk in push_loop (length merged) merged.

Definition assertComplete (buffer : list Z) : res unit :=
  if negb (zlen buffer =? 0) then Throw (JsError "truncated cluster WebTransport frame at stream end")
  else Ok tt.

(** A client that feeds every chunk as it arrives. *)
Fixpoint push_all (chunks : list (list Z)) : ST (list Z) (list (list Z)) :=
  match chunks with
  | [] => mret []
  | chunk :: chunks => frames ← push chunk; more ← push_all chunks; mret (frames ++ more)
  end.

(** ** Specification *)

Definition frame_fits (payload : list Z) : Prop := zlen payload < 2 ^ 32.
Definition incomplete (b : list Z) : Prop := zlen b < 4 \/ zlen b < 4 + getUint32 b.

Inductive splits : list Z -> list (list Z) -> list Z -> Prop :=
| splits_rest b : incomplete b -> splits b [] b
| splits_frame p b fs r :
    frame_fits p -> splits b fs r -> splits (encodeClusterStreamFrame p ++ b) (p :: fs) r.

Lemma frame_length p : zlen (encodeClusterStreamFrame p) = 4 + zlen p.
Proof. unfold encodeClusterStreamFrame. autorewrite with js. unfold zlen at 1. by autorewrite with js. Qed.

Lemma frame_prefix p b : frame_fits p -> getUint32 (encodeClusterStreamFrame p ++ b) = zlen p.
Proof.
  intros H. unfold getUint32, encodeClusterStreamFrame, frame_fits in *. pose proof (zlen_nonneg p).
  rewrite <- app_assoc, take_app_le by (rewrite length_be_bytes; lia).
  rewrite take_ge by (rewrite length_be_bytes; lia). rewrite be_val_bytes, Z.mod_small; lia.
Qed.

Lemma decode_frame p b : frame_fits p ->
  decodeClusterStreamFrame (encodeClusterStreamFrame p ++ b) = Ok (p, 4 + zlen p).
Proof.
  intros H. unfold decodeClusterStreamFrame. rewrite zlen_app, frame_length, (frame_prefix p b H).
  pose proof (zlen_nonneg p). pose proof (zlen_nonneg b).
  destruct (Z.ltb_spec (4 + zlen p + zlen b) 4); [lia|].
  destruct (Z.ltb_spec (4 + zlen p + zlen b) (4 + zlen p)); [lia|]. do 2 f_equal.
  unfold slice, encodeClusterStreamFrame. replace (4 + zlen p - 4) with (zlen p) by lia.
  rewrite zlen_to_nat, <- app_assoc, drop_app_length' by (by rewrite length_be_bytes).
  by rewrite take_app_length.
Qed.

Lemma push_loop_splits b fs r : splits b fs r -> forall fuel,
  (length b <= fuel)%nat -> push_loop fuel b = Ok (fs, r).
Proof.
  induction 1 as [b Hb|p b fs r Hp Hs IH]; intros fuel Hf.
  - destruct fuel; simpl; (destruct (Z.leb_spec 4 (zlen b)); [|done]);
      (destruct (Z.ltb_spec (zlen b) (4 + getUint32 b)); [done|]); destruct Hb; lia.
  - pose proof (zlen_nonneg p). pose proof (zlen_nonneg b). pose proof (frame_length p) as Hl.
    destruct fuel as [|fuel]; [rewrite length_app in Hf; unfold zlen in *; lia|].
    cbn [push_loop]. rewrite (frame_prefix p b Hp), zlen_app, Hl.
    destruct (Z.leb_spec 4 (4 + zlen p + zlen b)); [|lia].
    destruct (Z.ltb_spec (4 + zlen p + zlen b) (4 + zlen p)); [lia|].
    assert (Z.to_nat (4 + zlen p) = length (encodeClusterStreamFrame p)) as Hn by (unfold zlen in *; lia).
    unfold slice. rewrite drop_0, Z.sub_0_r, Hn, take_app_length.
    rewrite <- (app_nil_r (encodeClusterStreamFrame p)) at 1. rewrite (decode_frame p [] Hp).
    cbn [mbind res_bind]. rewrite Hn, drop_app_length, IH; [done|].
    rewrite length_app in Hf. unfold zlen in *. lia.
Qed.

(** Reading on from the rest is reading the whole. *)
Lemma splits_app b fs r c fs' r' :
  splits b fs r -> splits (r ++ c) fs' r' -> splits (b ++ c) (fs ++ fs') r'.
Proof.
  induction 1 as [b Hb|p b fs r Hp Hs IH]; intros Hc; [done|].
  rewrite <- app_assoc. simpl. constructor; [done|]. by apply IH.
Qed.

(** Any bytes can be split. *)
Lemma splits_total n : forall b, (length b <= n)%nat -> Forall is_byte b -> exists fs r, splits b fs r.
Proof.
  induction n as [|n IH]; intros b Hn Hb.
  - destruct b; [|simpl in Hn; lia]. exists [], []. constructor. left. cbv. done.
  - destruct (decide (incomplete b)) as [Hi|Hi]; [exists [], b; by constructor|].
    unfold incomplete in Hi. assert (4 <= zlen b /\ 4 + getUint32 b <= zlen b) as [H4 Hl] by lia.
    assert (length (take 4 b) = 4%nat) as Ht by (rewrite length_take; unfold zlen in H4; lia).
    assert (Forall is_byte (reverse (take 4 b))) as Htb by (by apply Forall_reverse, Forall_take).
    assert (0 <= getUint32 b < 2 ^ 32) as Hg.
    { unfold getUint32, be_val. pose proof (le_val_range _ Htb) as H. rewrite length_reverse, Ht in H. lia. }
    set (p := take (Z.to_nat (getUint32 b)) (drop 4 b)).
    assert (zlen p = getUint32 b) as Hp.
    { unfold p, zlen in *. rewrite length_take, length_drop. lia. }
    assert (b = encodeClusterStreamFrame p ++ drop (Z.to_nat (getUint32 b)) (drop 4 b)) as E.
    { unfold encodeClusterStreamFrame. rewrite Hp, <- app_assoc. unfold p. rewrite take_drop.
      rewrite <- (take_drop 4 b) at 1. f_equal. unfold getUint32, be_val, be_bytes.
      pose proof (le_bytes_val _ Htb) as H. rewrite length_reverse, Ht in H. by rewrite H, reverse_involutive. }
    destruct (IH (drop (Z.to_nat (getUint32 b)) (drop 4 b))) as (fs & r & Hs).
    + rewrite !length_drop. unfold zlen in H4. lia.
    + by apply Forall_drop, Forall_drop.
    + exists (p :: fs), r. rewrite E at 1. constructor; [|done]. unfold frame_fits. lia.
Qed.

Lemma splits_encoded payloads partial :
  Forall frame_fits payloads -> incomplete partial ->
  splits (concat (map encodeClusterStreamFrame payloads) ++ partial) payloads partial.
Proof.
  intros Hf Hp. induction Hf as [|p payloads Hfp Hf IH]; simpl; [by constructor|].
  rewrite <- app_assoc. by constructor.
Qed.

Lemma incomplete_prefix b c : incomplete (b ++ c) -> incomplete b.
Proof.
  unfold incomplete, getUint32. rewrite zlen_app. pose proof (zlen_nonneg c).
  destruct (decide (zlen b < 4)) as [|H4]; [by left|].
  rewrite take_app_le by (unfold zlen in H4; lia). lia.
Qed.

Lemma incomplete_frame b k p : frame_fits p -> encodeClusterStreamFrame p = b ++ k -> k <> [] -> incomplete b.
Proof.
  intros Hp E Hk. pose proof (frame_length p) as Hl. pose proof (frame_prefix p [] Hp) as Hg.
  rewrite app_nil_r in Hg. rewrite E in Hl, Hg. rewrite zlen_app in Hl. unfold incomplete, getUint32 in *.
  destruct (decide (zlen b < 4)) as [|H4]; [by left|].
  rewrite take_app_le in Hg by (unfold zlen in H4; lia).
  destruct k as [|x k]; [done|]. rewrite zlen_cons in Hl. pose proof (zlen_nonneg k). lia.
Qed.

(** What was read before a chunk boundary is a prefix of what is read. *)
Lemma splits_prefix bc fs r : splits bc fs r -> forall b c, bc = b ++ c ->
  exists fs1 r1 fs2, splits b fs1 r1 /\ incomplete r1 /\ splits (r1 ++ c) fs2 r /\ fs = fs1 ++ fs2.
Proof.
  induction 1 as [bc Hi|p bc fs r Hp Hs IH]; intros b c E.
  - subst bc. pose proof (incomplete_prefix _ _ Hi). exists [], b, []. by repeat split; try apply splits_rest.
  - assert (splits (encodeClusterStreamFrame p ++ bc) (p :: fs) r) as Hall by (by constructor).
    pose proof E as E0. apply app_eq_inv in E as [(k & Ek & ->)|(k & -> & ->)].
    + destruct (decide (k = [])) as [->|Hk].
      * rewrite app_nil_r in Ek. subst b. exists [p], [], fs. repeat split; [|by left|done].
        rewrite <- (app_nil_r (encodeClusterStreamFrame p)). apply splits_frame, splits_rest; [done|by left].
      * exists [], b, (p :: fs). pose proof (incomplete_frame b k p Hp Ek Hk).
        rewrite E0 in Hall. by repeat split; try apply splits_rest.
    + destruct (IH k c eq_refl) as (fs1 & r1 & fs2 & H1 & Hr & H2 & ->).
      exists (p :: fs1), r1, fs2. repeat split; try done. by constructor.
Qed.

Lemma push_splits c r fs r' :
  incomplete r -> splits (r ++ c) fs r' -> push c r = Ok (fs, r').
Proof.
  intros Hr Hs. unfold push. destruct (Z.eqb_spec (zlen c) 0) as [E|E].
  - destruct c; [|rewrite zlen_cons in E; pose proof (zlen_nonneg c); lia].
    rewrite app_nil_r in Hs. destruct Hs as [b Hi|p b fs r Hp Hs]; [done|].
    pose proof (frame_length p). pose proof (frame_prefix p b Hp). unfold incomplete in Hr.
    rewrite zlen_app in Hr. pose proof (zlen_nonneg b). pose proof (zlen_nonneg p). lia.
  - by apply push_loop_splits.
Qed.

Lemma push_all_splits chunks : forall r fs r', incomplete r ->
  splits (r ++ concat chunks) fs r' -> push_all chunks r = Ok (fs, r').
Proof.
  induction chunks as [|c chunks IH]; intros r fs r' Hr Hs; simpl in Hs.
  - apply (push_splits [] r) in Hs; [|done]. simpl in Hs. unfold push in Hs. simpl in Hs. by simplify_eq/=.
  - rewrite app_assoc in Hs. destruct (splits_prefix _ _ _ Hs _ _ eq_refl) as (fs1 & r1 & fs2 & H1 & Hr1 & H2 & ->).
    cbn [push_all]. rewrite (ST_bind_ok _ _ _ _ _ (push_splits c r fs1 r1 Hr H1)).
    by rewrite (ST_bind_ok _ _ _ _ _ (IH r1 fs2 r' Hr1 H2)).
Qed.

(** C39: frames are reassembled whatever the chunking.  If the bytes of all
    chunks together are some encoded frames followed by a part of one, pushing
    the chunks one by one, empty ones included, yields exactly the payloads in
    order and leaves the part in the buffer; the end-of-stream check passes
    exactly when nothing is left. *)
Theorem frames_reassembled (payloads : list (list Z)) (partial : list Z) (chunks : list (list Z)) :
  Forall frame_fits payloads -> incomplete partial ->
  concat chunks = concat (map encodeClusterStreamFrame payloads) ++ partial ->
  push_all chunks [] = Ok (payloads, partial) /\
  (assertComplete partial = Ok tt <-> partial = []).
Proof.
  intros Hf Hp E. split.
  - apply push_all_splits; [by left|]. simpl. rewrite E. by apply splits_encoded.
  - unfold assertComplete. destruct partial; [done|]. by rewrite zlen_cons, (proj2 (Z.eqb_neq _ _))
      by (pose proof (zlen_nonneg partial); lia).
Qed.

Lemma frames_reassembled_witness :
  push_all [[0; 0]; [0; 2; 7]; []; [8; 0; 0; 0; 0; 0; 0; 0; 1]] [] = Ok ([[7; 8]; []], [0; 0; 0; 1]) /\
  (assertComplete [0; 0; 0; 1] = Ok tt <-> [0; 0; 0; 1] = []).
Proof.
  apply (frames_reassembled [[7; 8]; []] [0; 0; 0; 1]).
  - repeat apply Forall_cons_2; [reflexivity|reflexivity|apply Forall_nil_2].
  - right. reflexivity.
  - reflexivity.
Defined.

(** The frame reader accepts every byte stream: no chunk sequence makes
    [push] throw or loop, and the frames it returns, re-encoded, followed by
    what is still buffered are the bytes that were pushed. *)
Theorem frame_reader_total (chunks : list (list Z)) :
  Forall is_byte (concat chunks) ->
  exists frames rest, push_all chunks [] = Ok (frames, rest) /\ incomplete rest /\
    concat chunks = concat (map encodeClusterStreamFrame frames) ++ rest.
Proof.
  intros Hb. destruct (splits_total _ _ (le_n _) Hb) as (fs & r & Hs). exists fs, r.
  split; [by apply push_all_splits; [left|]|].
  clear Hb. induction Hs as [b Hi|p b fs r Hp Hs [Hi IH]]; [done|]. split; [done|].
  simpl. by rewrite <- app_assoc, <- IH.
Qed.

Lemma frame_reader_total_witness :
  let chunks := [[0; 0; 0]; [1; 9; 0]] in
  exists frames rest, push_all chunks [] = Ok (frames, rest) /\ incomplete rest /\
    concat chunks = concat (map encodeClusterStreamFrame frames) ++ rest.
Proof.
  apply (frame_reader_total [[0; 0; 0]; [1; 9; 0]]).
  repeat apply Forall_cons_2; [split; lia ..|apply Forall_nil_2].
Defined.

(** ** Port pair keys *)

Lemma string_lt_irrefl a : string_lt a a = false.
Proof. induction a as [|x a IH]; [done|]. simpl. by rewrite Z.ltb_irrefl. Qed.

Lemma string_lt_total a b : a <> b -> string_lt a b = negb (string_lt b a).
Proof.
  revert b. induction a as [|x a IH]; intros [|y b] H; simpl; try done.
  destruct (Z.ltb_spec x y), (Z.ltb_spec y x); try done; try lia.
  assert (x = y) as -> by lia. apply IH. congruence.
Qed.

Lemma canonical_sym a b : canonicalPortPair a b = canonicalPortPair b a.
Proof.
  unfold canonicalPortPair. destruct (decide (a = b)) as [->|H]; [done|].
  rewrite (string_lt_total a b H). by destruct (string_lt b a).
Qed.

Lemma split_bar a b c d :
  124 ∉ a -> 124 ∉ c -> a ++ js "|" ++ b = c ++ js "|" ++ d -> a = c /\ b = d.
Proof.
  revert c. induction a as [|x a IH]; intros [|y c] Ha Hc E; simpl in E; simplify_eq/=; try done.
  - set_solver.
  - set_solver.
  - destruct (IH c) as [-> ->]; [set_solver|set_solver|done|done].
Qed.

(** The key of a port pair ignores the order of its ends and, for
    addresses without a bar character, no two different pairs share a key. *)
Theorem port_pair_key (a b c d : jsstring) :
  canonicalPortPair a b = canonicalPortPair b a /\
  (124 ∉ a -> 124 ∉ b -> 124 ∉ c -> 124 ∉ d ->
   (canonicalPortPair a b = canonicalPortPair c d <-> (a = c /\ b = d) \/ (a = d /\ b = c))).
Proof.
  split; [apply canonical_sym|]. intros Ha Hb Hc Hd. split.
  - unfold canonicalPortPair. destruct (string_lt a b), (string_lt c d); intros E;
      apply split_bar in E as [-> ->]; auto.
  - intros [[-> ->]|[-> ->]]; [done|apply canonical_sym].
Qed.

(** ** Metadata *)
Lemma metadata_wf : ProtobufMessage.wf MetadataMessage.
Proof.
  destruct (ProtobufMessage.define_wf metadata_schema MetadataMessage) as [H _];
    [vm_compute; reflexivity|apply (bool_decide_unpack _); vm_compute; exact I|repeat constructor|exact H].
Qed.

(** The strings of a port stream: well-formed text, not too long together. *)
Definition metadata_ok (md : ClusterStreamMetadata) : Prop :=
  match md with
  | MControl => True
  | MPort p a b => ThriftIO.plain_string p /\ ThriftIO.plain_string a /\ ThriftIO.plain_string b /\
      zlen (Utf8.encodeUtf8 p) + zlen (Utf8.encodeUtf8 a) + zlen (Utf8.encodeUtf8 b) < 2 ^ 52
  end.

Lemma zlen_varint n v : zlen (ThriftIO.varint_bytes n v) <= Z.of_nat n.
Proof.
  revert v. induction n as [|n IH]; intros v; cbn [ThriftIO.varint_bytes]; [unfold zlen; cbn; lia|].
  destruct (128 <=? v); rewrite zlen_cons; [specialize (IH (v / 128)); lia|unfold zlen; cbn; lia].
Qed.

Lemma zlen_delimited_le bs : zlen (ProtobufWire.delimited bs) <= 10 + zlen bs.
Proof. unfold ProtobufWire.delimited. rewrite zlen_app. pose proof (zlen_varint 10 (zlen bs)). lia. Qed.

Definition metadata_object (md : ClusterStreamMetadata) : list (jsstring * Protobuf.value) :=
  [(js "version", Protobuf.VNumber (JsNumber.number_of 1));
   (js "kind", Protobuf.VNumber (JsNumber.number_of match md with MControl => 1 | MPort _ _ _ => 2 end))] ++
  match md with
  | MControl => []
  | MPort p a b => [(js "pair", Protobuf.VString p); (js "a", Protobuf.VString a); (js "b", Protobuf.VString b)]
  end.
Abbreviation metadata_fields := (ProtobufMessage.fields_of MetadataMessage).
Abbreviation metadata_numbers := (ProtobufMessage.byNumber_of MetadataMessage).

Lemma metadata_bytes p a b :
  ProtobufMessage.message_bytes metadata_fields (metadata_object (MPort p a b)) =
  [8; 1] ++ [16; 2] ++ ([26] ++ ProtobufWire.delimited (Utf8.encodeUtf8 p)) ++
  ([34] ++ ProtobufWire.delimited (Utf8.encodeUtf8 a)) ++ ([42] ++ ProtobufWire.delimited (Utf8.encodeUtf8 b)) ++ [].
Proof.
  unfold ProtobufMessage.message_bytes. cbn [ProtobufMessage.fields_of MetadataMessage map concat Protobuf.name].
  reflexivity.
Qed.

Lemma metadata_exact md : metadata_ok md -> ProtobufMessage.exact true MetadataMessage (Protobuf.VObject (metadata_object md)).
Proof. destruct md; [intros _|intros (? & ? & ? & _)]; ProtobufMessage.conformance. Qed.

Lemma metadata_size md :
  metadata_ok md -> zlen (ProtobufMessage.message_bytes metadata_fields (metadata_object md)) <= ProtobufMessage.max_safe.
Proof.
  destruct md as [|p a b]; [vm_compute; discriminate|]. intros (_ & _ & _ & Hl). rewrite metadata_bytes.
  autorewrite with js. change (zlen []) with 0. unfold ProtobufMessage.max_safe.
  pose proof (zlen_delimited_le (Utf8.encodeUtf8 p)). pose proof (zlen_delimited_le (Utf8.encodeUtf8 a)).
  pose proof (zlen_delimited_le (Utf8.encodeUtf8 b)). lia.
Qed.

(** The metadata that opens a stream is read back as it was written. *)
Theorem stream_metadata_roundtrip md :
  metadata_ok md -> exists bytes, encodeClusterStreamMetadata md = Ok bytes /\ decodeClusterStreamMetadata bytes = Ok md.
Proof.
  intros Hok.
  destruct (ProtobufMessage.roundtrip_norm metadata_fields metadata_numbers (metadata_object md))
    as [H1 H2]; [exact metadata_wf|by apply metadata_exact|by apply metadata_size|].
  eexists. split; [exact H1|]. unfold decodeClusterStreamMetadata.
  change (Protobuf.Codec metadata_fields metadata_numbers) with MetadataMessage in H2.
  rewrite H2. destruct md; reflexivity.
Qed.

Lemma stream_metadata_roundtrip_witness :
  exists bytes, encodeClusterStreamMetadata (MPort (js "p|q") (js "p") (js "q")) = Ok bytes /\
    decodeClusterStreamMetadata bytes = Ok (MPort (js "p|q") (js "p") (js "q")).
Proof.
  apply stream_metadata_roundtrip. unfold metadata_ok, ThriftIO.plain_string, Utf8.is_unit.
  split_and!; first [reflexivity|apply (bool_decide_unpack _); vm_compute; exact I].
Defined.
End ClusterFraming.
