(* ===== verification/ClusterRegistry.v ===== *)
(** The ownership tree of clustered realm ports
    (src/js/internal/cluster/registry.ts).

    Port and node ids are strings.  A JavaScript [Set] of ids is a list without
    repetitions in insertion order.  [prune] is the specification of removal:
    the registry without a set of ports. *)

From S2P Require Import Prelude.

Module ClusterRegistry.

Record PortEntry := {
  portId : jsstring;
  parentPortId : option jsstring;
  nodeId : jsstring;
  children : list jsstring;
}.
Record t := {
  ports : gmap jsstring PortEntry;
  byNode : gmap jsstring (list jsstring);
}.
Definition empty : t := {| ports := ∅; byNode := ∅ |}.

Definition set_add (x : jsstring) (l : list jsstring) : list jsstring :=
  if decide (x ∈ l) then l else l ++ [x].
Definition set_del (x : jsstring) (l : list jsstring) : list jsstring := base.filter (fun y => y <> x) l.
Definition with_children (f : list jsstring -> list jsstring) (e : PortEntry) : PortEntry :=
  {| portId := portId e; parentPortId := parentPortId e; nodeId := nodeId e; children := f (children e) |}.

(** [if (parentPortId)]: neither [null] nor the empty string. *)
Definition truthy (p : option jsstring) : option jsstring :=
  match p with Some [] => None | _ => p end.

Definition register (port : jsstring) (parent : option jsstring) (node : jsstring) (st : t) : t :=
  let ps := <[port := {| portId := port; parentPortId := parent; nodeId := node; children := [] |}]> (ports st) in
  let ps := match truthy parent with
            | Some q => alter (with_children (set_add port)) q ps
            | None => ps
            end in
  {| ports := ps; byNode := <[node := set_add port (default [] (byNode st !! node))]> (byNode st) |}.

(** What a removal does after the children: three deletions. *)
Definition unlink (port : jsstring) (e : PortEntry) (st : t) : t :=
  let ps := match truthy (parentPortId e) with
            | Some q => alter (with_children (set_del port)) q (ports st)
            | None => ports st
            end in
  {| ports := delete port ps; byNode := alter (set_del port) (nodeId e) (byNode st) |}.

Section removal.
Context {A : Type} (out : jsstring -> option jsstring -> A).

Fixpoint removeAll (remove : jsstring -> t -> res (t * list A)) (ps : list jsstring) (st : t)
  : res (t * list A) :=
  match ps with
  | [] => Ok (st, [])
  | p :: ps =>
      '(st, a) ← remove p st;
      '(st, b) ← removeAll remove ps st;
      Ok (st, a ++ b)
  end.
(** The recursion follows the children; a cycle of edges would not end. *)
Fixpoint removeWith (fuel : nat) (port : jsstring) (st : t) : res (t * list A) :=
  match ports st !! port with
  | None => Ok (st, [])
  | Some e =>
      match fuel with
      | O => Throw Diverges
      | S fuel =>
          '(st, acc) ← removeAll (removeWith fuel) (children e) st;
          Ok (unlink port e st, acc ++ [out port (parentPortId e)])
      end
  end.
End removal.

(** The two recursions of the source differ in what they collect. *)
Definition removeRecursive : nat -> jsstring -> t -> res (t * list jsstring) :=
  removeWith (fun port _ => port).
Definition removeRecursiveWithParent
  : nat -> jsstring -> t -> res (t * list (jsstring * option jsstring)) :=
  removeWith (fun port parent => (port, parent)).

(** A path of distinct ports is no longer than the registry. *)
Definition enough (st : t) : nat := S (size (ports st)).
Definition exit (port : jsstring) (st : t) : res (t * list jsstring) :=
  removeRecursive (enough st) port st.
Definition nodeDown (node : jsstring) (st : t) : res (t * list (jsstring * option jsstring)) :=
  match byNode st !! node with
  | None => Ok (st, [])
  | Some hosted => removeAll (removeRecursiveWithParent (enough st)) hosted st
  end.

Definition getNodeId (port : jsstring) (st : t) : option jsstring := nodeId <$> ports st !! port.
(** [undefined] for an unknown port, [null] or an id for a known one. *)
Definition getParentPortId (port : jsstring) (st : t) : option (option jsstring) :=
  parentPortId <$> ports st !! port.
Definition getChildren (port : jsstring) (st : t) : list jsstring :=
  match ports st !! port with Some e => children e | None => [] end.

(** ** Well-formed registries *)

Definition parent_edge (st : t) (q r : jsstring) : Prop :=
  exists e, ports st !! q = Some e /\ truthy (parentPortId e) = Some r.

Record wf (rank : jsstring -> nat) (st : t) : Prop := {
  wf_id : forall p e, ports st !! p = Some e -> portId e = p;
  wf_up : forall q r, parent_edge st q r -> exists e, ports st !! r = Some e /\ q ∈ children e;
  wf_down : forall r e q, ports st !! r = Some e -> q ∈ children e -> parent_edge st q r;
  wf_children : forall r e, ports st !! r = Some e -> NoDup (children e);
  wf_nodes : forall n p, p ∈ default [] (byNode st !! n) <-> exists e, ports st !! p = Some e /\ nodeId e = n;
  wf_rank : forall q r, parent_edge st q r -> (rank r < rank q)%nat;
}.

(** The subtree of [p]. *)
Inductive below (st : t) (p : jsstring) : jsstring -> Prop :=
| below_refl : is_Some (ports st !! p) -> below st p p
| below_step q r : parent_edge st q r -> below st p r -> below st p q.

Definition prune (D : list jsstring) (st : t) : t :=
  {| ports := with_children (base.filter (fun c => c ∉ D)) <$>
                base.filter (fun kv : jsstring * PortEntry => kv.1 ∉ D) (ports st);
     byNode := base.filter (fun p => p ∉ D) <$> byNode st |}.

(** Closed under children. *)
Definition closed_under (st : t) (D : list jsstring) : Prop :=
  forall q r, parent_edge st q r -> r ∈ D -> q ∈ D.

Lemma prune_lookup D st p :
  ports (prune D st) !! p =
  if decide (p ∈ D) then None else with_children (base.filter (fun c => c ∉ D)) <$> ports st !! p.
Proof.
  simpl. rewrite lookup_fmap. destruct (decide (p ∈ D)) as [Hp|Hp].
  - rewrite map_lookup_filter_None_2; [done|]. right. intros e _ H. by apply H.
  - f_equal. destruct (ports st !! p) as [e|] eqn:E.
    + by apply map_lookup_filter_Some_2.
    + apply map_lookup_filter_None_2. by left.
Qed.

Lemma prune_edge D st q r : parent_edge (prune D st) q r <-> parent_edge st q r /\ q ∉ D.
Proof.
  unfold parent_edge. rewrite prune_lookup. destruct (decide (q ∈ D)) as [Hq|Hq].
  - split; [by intros (e & E & _)|by intros [_ H]].
  - split.
    + intros (e' & E & Ht). destruct (ports st !! q) as [e|]; [|done]. injection E as <-. simpl in Ht. eauto.
    + intros [(e & E & Ht) _]. rewrite E. simpl. eexists. split; [reflexivity|done].
Qed.

Lemma filter_filter_app (D D' l : list jsstring) :
  base.filter (fun c => c ∉ D') (base.filter (fun c => c ∉ D) l) = base.filter (fun c => c ∉ D ++ D') l.
Proof.
  rewrite list_filter_filter. apply list_filter_iff. intros c. rewrite elem_of_app. tauto.
Qed.

Lemma t_eq st st' : ports st = ports st' -> byNode st = byNode st' -> st = st'.
Proof. destruct st, st'. simpl. by intros -> ->. Qed.

Lemma prune_prune D D' st : prune D' (prune D st) = prune (D ++ D') st.
Proof.
  apply t_eq.
  - apply map_eq. intros p. rewrite !prune_lookup. repeat case_decide; try done; try set_solver.
    destruct (ports st !! p) as [e|]; [|done]. simpl. f_equal. unfold with_children. simpl.
    by rewrite filter_filter_app.
  - simpl. rewrite <- map_fmap_compose. apply map_fmap_ext. intros n l _. simpl. apply filter_filter_app.
Qed.

Lemma filter_none (l : list jsstring) : base.filter (fun c => c ∉ ([] : list jsstring)) l = l.
Proof.
  induction l as [|c l IH]; [done|]. rewrite filter_cons, decide_True by apply not_elem_of_nil. by f_equal.
Qed.
Lemma filter_notin (p : jsstring) (D l : list jsstring) : p ∉ l ->
  base.filter (fun c => c ∉ D ++ [p]) l = base.filter (fun c => c ∉ D) l.
Proof.
  intros Hp. induction l as [|c l IH]; [done|]. rewrite !filter_cons, IH by set_solver.
  destruct (decide (c ∉ D)), (decide (c ∉ D ++ [p])); set_solver.
Qed.
Lemma set_del_filter (p : jsstring) (D l : list jsstring) :
  set_del p (base.filter (fun c => c ∉ D) l) = base.filter (fun c => c ∉ D ++ [p]) l.
Proof. unfold set_del. rewrite list_filter_filter. apply list_filter_iff. intros c. set_solver. Qed.

Lemma prune_nil st : prune [] st = st.
Proof.
  apply t_eq; apply map_eq; intros x.
  - rewrite prune_lookup, decide_False by apply not_elem_of_nil. destruct (ports st !! x) as [[]|]; [|done]. simpl. unfold with_children. simpl. by rewrite filter_none.
  - simpl. rewrite lookup_fmap. destruct (byNode st !! x); [|done]. simpl. by rewrite filter_none.
Qed.

Lemma prune_wf rank st D : wf rank st -> closed_under st D -> wf rank (prune D st).
Proof.
  intros [H1 H2 H3 H4 H5 H6] HD. constructor.
  - intros p e. rewrite prune_lookup. case_decide; [done|]. destruct (ports st !! p) eqn:E; [|done].
    intros [= <-]. simpl. by apply H1.
  - intros q r [Hq Hn]%prune_edge. destruct (H2 q r Hq) as (e & E & Hc).
    rewrite prune_lookup, decide_False, E by (intros Hr; by eapply Hn, HD). eexists. split; [reflexivity|].
    simpl. by apply list_elem_of_filter.
  - intros r e q. rewrite prune_lookup. case_decide; [done|]. destruct (ports st !! r) as [e0|] eqn:E; [|done].
    intros [= <-]. simpl. intros [Hq Hc]%list_elem_of_filter. apply prune_edge. split; [by eapply H3|done].
  - intros r e. rewrite prune_lookup. case_decide; [done|]. destruct (ports st !! r) eqn:E; [|done].
    intros [= <-]. simpl. by apply NoDup_filter, (H4 r).
  - intros n p. rewrite prune_lookup. simpl. rewrite lookup_fmap.
    assert (p ∈ default [] (base.filter (fun p => p ∉ D) <$> byNode st !! n) <->
            p ∉ D /\ p ∈ default [] (byNode st !! n)) as ->.
    { destruct (byNode st !! n); simpl; [by rewrite list_elem_of_filter|set_solver]. }
    rewrite H5. case_decide as Hp; [split; [by intros [? _]|by intros (e & E & _)]|].
    split.
    + intros [_ (e & -> & Hn)]. eexists. split; [reflexivity|done].
    + intros (e' & E & Hn). split; [done|]. destruct (ports st !! p) as [e|]; [|done].
      injection E as <-. by exists e.
  - intros q r [Hq _]%prune_edge. by apply H6.
Qed.

(** ** Subtrees *)

Lemma below_known st p q : below st p q -> is_Some (ports st !! p) /\ is_Some (ports st !! q).
Proof. induction 1 as [H|q r (e & E & _) _ [IH1 _]]; [done|]. split; [done|by rewrite E]. Qed.
Lemma below_rank rank st p q : wf rank st -> below st p q -> (rank p <= rank q)%nat.
Proof. intros Hw. induction 1 as [H|q r He _ IH]; [done|]. pose proof (wf_rank _ _ Hw _ _ He). lia. Qed.
Lemma below_trans st p q r : below st p q -> below st q r -> below st p r.
Proof. intros H1. induction 1 as [|r r' He _ IH]; [done|]. by eapply below_step. Qed.
Lemma below_closed st p D : (forall q, q ∈ D <-> below st p q) -> closed_under st D.
Proof. intros H q r He Hr%H. apply H. by eapply below_step. Qed.

(** The subtree of a port is the port and the subtrees of its children. *)
Lemma below_split rank st p e q : wf rank st -> ports st !! p = Some e ->
  below st p q <-> (exists c, c ∈ children e /\ below st c q) \/ q = p.
Proof.
  intros Hw E. split.
  - induction 1 as [_|q r He _ [(c & Hc & IH)| ->]]; [by right|left|left].
    + exists c. split; [done|]. by eapply below_step.
    + destruct (wf_up _ _ Hw _ _ He) as (e' & E' & Hc). exists q. split; [congruence|].
      apply below_refl. destruct He as (e0 & -> & _). done.
  - intros [(c & Hc & Hb)| ->]; [|by apply below_refl].
    eapply below_trans; [|done]. eapply below_step; [by eapply (wf_down _ _ Hw)|]. by apply below_refl.
Qed.

Lemma below_prune st D p q : closed_under st D -> below (prune D st) p q <-> below st p q /\ q ∉ D.
Proof.
  intros HD. split.
  - induction 1 as [[e H]|q r [He Hq]%prune_edge _ [IH _]].
    + rewrite prune_lookup in H. case_decide; [done|]. split; [|done]. apply below_refl.
      by destruct (ports st !! p).
    + split; [by eapply below_step|done].
  - intros [H Hq]. induction H as [[e H]|q r He _ IH].
    + apply below_refl. rewrite prune_lookup, decide_False, H by done. done.
    + eapply below_step; [by apply prune_edge|]. apply IH. intros Hr. by eapply Hq, HD.
Qed.

(** ** Removing one port whose children are gone *)

Lemma alter_default {A} (f : A -> A) (i j : jsstring) (m : gmap jsstring A) :
  alter f i m !! j = if decide (i = j) then f <$> m !! j else m !! j.
Proof. case_decide as Hd; [subst; by rewrite lookup_alter, decide_True|by rewrite lookup_alter_ne]. Qed.

Lemma unlink_prune rank st p e D :
  wf rank st -> ports st !! p = Some e -> unlink p e (prune D st) = prune (D ++ [p]) st.
Proof.
  intros Hw E. apply t_eq; apply map_eq; intros x.
  - rewrite prune_lookup. cbn [unlink ports]. rewrite lookup_delete.
    case_decide as Hx; [subst; by rewrite decide_True by set_solver|].
    rewrite (decide_ext (x ∈ D ++ [p]) (x ∈ D)) by set_solver.
    assert (forall q, truthy (parentPortId e) = Some q -> parent_edge st p q) as Hedge by (intros q Hq; by exists e).
    assert (forall e', ports st !! x = Some e' -> truthy (parentPortId e) <> Some x -> p ∉ children e') as Hno.
    { intros e' E' Hne Hp. destruct (wf_down _ _ Hw _ _ _ E' Hp) as (e0 & E0 & Ht). congruence. }
    assert (truthy (parentPortId e) <> Some x -> ports (prune D st) !! x =
      (if decide (x ∈ D) then None
       else with_children (base.filter (fun c => c ∉ D ++ [p])) <$> ports st !! x)) as Hother.
    { intros Hne. rewrite prune_lookup. case_decide; [done|].
      destruct (ports st !! x) as [e'|] eqn:E'; [|done]. simpl. f_equal. unfold with_children. f_equal.
      symmetry. by apply filter_notin, Hno. }
    destruct (truthy (parentPortId e)) as [q|] eqn:Hq; [|by apply Hother].
    rewrite alter_default. destruct (decide (q = x)) as [->|Hne]; [|apply Hother; congruence].
    rewrite prune_lookup. case_decide; [done|].
    destruct (ports st !! x) as [e'|]; [|done]. simpl. f_equal. unfold with_children. simpl. f_equal.
    apply set_del_filter.
  - simpl. rewrite alter_default, !lookup_fmap. case_decide as Hn.
    + destruct (byNode st !! x) as [l|]; [|done]. simpl. f_equal. apply set_del_filter.
    + destruct (byNode st !! x) as [l|] eqn:El; [|done]. simpl. f_equal. symmetry. apply filter_notin.
      intros Hp. assert (p ∈ default [] (byNode st !! x)) as Hp' by (by rewrite El).
      apply (wf_nodes _ _ Hw) in Hp' as (e0 & E0 & Hn'). congruence.
Qed.

(** ** The recursion *)

(** Ports deeper than [p]: what bounds the depth of the recursion. *)
Definition deeper (rank : jsstring -> nat) (st : t) (p : jsstring) : gset jsstring :=
  base.filter (fun q => (rank p < rank q)%nat) (dom (ports st)).

Lemma deeper_child rank st p c : wf rank st -> parent_edge st c p ->
  (size (deeper rank st c) < size (deeper rank st p))%nat.
Proof.
  intros Hw He. pose proof (wf_rank _ _ Hw _ _ He). apply subset_size. split.
  - intros q [Hq Hd]%elem_of_filter. apply elem_of_filter. split; [lia|done].
  - intros H'. assert (c ∈ deeper rank st c) as [Hc _]%elem_of_filter; [|lia].
    apply H', elem_of_filter. split; [done|]. destruct He as (e & E & _). by eapply elem_of_dom_2.
Qed.
Lemma deeper_prune rank st D p : (size (deeper rank (prune D st) p) <= size (deeper rank st p))%nat.
Proof.
  apply subseteq_size. intros q [Hq [e Hd]%elem_of_dom]%elem_of_filter. apply elem_of_filter. split; [done|].
  rewrite prune_lookup in Hd. case_decide; [done|]. apply elem_of_dom. by destruct (ports st !! q).
Qed.
Lemma deeper_all rank st p : (size (deeper rank st p) < enough st)%nat.
Proof.
  unfold enough. rewrite <- (size_dom (D := gset jsstring)).
  pose proof (subseteq_size (deeper rank st p) (dom (ports st))) as H. unfold deeper in *. set_solver by lia.
Qed.

Definition parent_of (st : t) (p : jsstring) : option jsstring :=
  match ports st !! p with Some e => parentPortId e | None => None end.
Lemma parent_of_prune D st p : p ∉ D -> parent_of (prune D st) p = parent_of st p.
Proof.
  intros Hp. unfold parent_of. rewrite prune_lookup, decide_False by done. by destruct (ports st !! p).
Qed.

(** Children come before their parents. *)
Definition postorder (st : t) (D : list jsstring) : Prop :=
  forall D1 r D2 q, D = D1 ++ r :: D2 -> parent_edge st q r -> q ∈ D1.

Lemma postorder_app st D E : postorder st D -> postorder (prune D st) E -> postorder st (D ++ E).
Proof.
  intros HD HE D1 r D2 q Eq He. apply app_eq_inv in Eq as [(k & -> & Ek)|(k & -> & Ek)].
  - destruct k as [|x k]; simpl in Ek.
    + destruct (decide (q ∈ D1)) as [|Hq]; [done|].
      rewrite app_nil_r in *. exfalso. eapply not_elem_of_nil, (HE [] r D2 q); [done|]. by apply prune_edge.
    + injection Ek as <- _. by eapply HD.
  - destruct (decide (q ∈ D)) as [|Hq]; [set_solver|]. apply elem_of_app. right.
    eapply (HE k r D2 q); [done|]. by apply prune_edge.
Qed.

(** What a removal of the subtrees of [ps] must do. *)
Definition removes {A} (out : jsstring -> option jsstring -> A) (ps : list jsstring) (st : t)
  (r : res (t * list A)) : Prop :=
  exists D, r = Ok (prune D st, map (fun q => out q (parent_of st q)) D) /\ NoDup D /\
    (forall q, q ∈ D <-> exists p, p ∈ ps /\ below st p q) /\ postorder st D.

Section removal_proof.
Context {A : Type} (out : jsstring -> option jsstring -> A) (rank : jsstring -> nat).

Lemma removes_closed (ps : list jsstring) st D :
  (forall q, q ∈ D <-> exists p, p ∈ ps /\ below st p q) -> closed_under st D.
Proof.
  intros H q r He (p & Hp & Hr)%H. apply H. exists p. split; [done|]. by eapply below_step.
Qed.

Lemma removeAll_removes fuel :
  (forall st p, wf rank st -> (size (deeper rank st p) < fuel)%nat -> removes out [p] st (removeWith out fuel p st)) ->
  forall ps st, wf rank st -> (forall p, p ∈ ps -> (size (deeper rank st p) < fuel)%nat) ->
  removes out ps st (removeAll (removeWith out fuel) ps st).
Proof.
  intros IH. induction ps as [|p ps IHps]; intros st Hw Hf.
  - exists []. simpl. rewrite prune_nil. split; [done|]. split; [constructor|]. split; [set_solver|].
    by intros [|? ?] r D2 q.
  - cbn [removeAll]. destruct (IH st p Hw (Hf p ltac:(left))) as (D & -> & Hnd & HD & Hpo).
    assert (closed_under st D) as Hcl by (by eapply removes_closed).
    pose proof (prune_wf _ _ _ Hw Hcl) as Hw'.
    destruct (IHps (prune D st) Hw') as (E & HE & HndE & HEb & HpoE).
    { intros p' Hp'. pose proof (deeper_prune rank st D p'). specialize (Hf p' ltac:(by right)). lia. }
    unfold mbind, res_bind. rewrite HE. exists (D ++ E).
    assert (forall q, q ∈ E -> q ∉ D) as Hdis.
    { intros q (p' & _ & Hb)%HEb. by apply below_prune in Hb as [_ ?]. }
    split; [|split; [|split]].
    + rewrite prune_prune, map_app. do 2 f_equal. f_equal. apply map_ext_in. intros q Hq.
      by rewrite parent_of_prune by (by apply Hdis, list_elem_of_In).
    + apply NoDup_app. split; [done|]. split; [|done]. intros q Hq Hq'. by eapply Hdis.
    + intros q. rewrite elem_of_app, HD, HEb. split.
      * intros [(p' & ->%list_elem_of_singleton & Hb)|(p' & Hp' & [Hb _]%below_prune)];
          [exists p|exists p'|done]; split; (done || by left || by right).
      * intros (p' & [->|Hp']%elem_of_cons & Hb); [left; exists p; split; [by left|done]|].
        destruct (decide (q ∈ D)) as [Hq|Hq]; [left; by apply HD|right].
        exists p'. split; [done|]. by apply below_prune.
    + by apply postorder_app.
Qed.

Lemma removeWith_removes fuel : forall st p, wf rank st ->
  (size (deeper rank st p) < fuel)%nat -> removes out [p] st (removeWith out fuel p st).
Proof.
  induction fuel as [|fuel IH]; intros st p Hw Hf; [lia|]. cbn [removeWith].
  destruct (ports st !! p) as [e|] eqn:E.
  - destruct (removeAll_removes fuel IH (children e) st Hw) as (D & -> & Hnd & HD & Hpo).
    { intros c Hc. pose proof (deeper_child _ _ _ _ Hw (wf_down _ _ Hw _ _ _ E Hc)). lia. }
    unfold mbind, res_bind. exists (D ++ [p]). rewrite (unlink_prune rank st p e D Hw E).
    assert (p ∉ D) as Hp.
    { intros (c & Hc & Hb)%HD. pose proof (below_rank _ _ _ _ Hw Hb).
      pose proof (wf_rank _ _ Hw _ _ (wf_down _ _ Hw _ _ _ E Hc)). lia. }
    split; [|split; [|split]].
    + rewrite map_app. simpl. assert (parent_of st p = parentPortId e) as -> by (unfold parent_of; by rewrite E). done.
    + apply NoDup_app. split; [done|]. split; [set_solver|apply NoDup_singleton].
    + intros q. rewrite elem_of_app, HD, list_elem_of_singleton.
      rewrite <- (below_split rank st p e q Hw E). set_solver.
    + intros D1 r D2 q Eq He. apply app_eq_inv in Eq as [(k & -> & Ek)|(k & -> & Ek)].
      * destruct k as [|x k]; simpl in Ek; injection Ek as <- Ek.
        -- rewrite app_nil_r in HD. apply HD. destruct (wf_up _ _ Hw _ _ He) as (e' & E' & Hc).
           exists q. split; [congruence|]. apply below_refl. destruct He as (e0 & -> & _). done.
        -- by eapply Hpo.
      * destruct k as [|x k]; [|by destruct k]. simpl in Ek. injection Ek as <- <-. apply elem_of_app. left.
        apply HD. destruct (wf_up _ _ Hw _ _ He) as (e' & E' & Hc).
        exists q. split; [congruence|]. apply below_refl. destruct He as (e0 & -> & _). done.
  - exists []. rewrite prune_nil. split; [done|]. split; [constructor|]. split.
    + intros q. split; [set_solver|]. intros (p' & ->%list_elem_of_singleton & Hb%below_known).
      destruct Hb as [[e He] _]. congruence.
    + by intros [|? ?] r D2 q.
Qed.
End removal_proof.

(** ** Registration *)

(** What the documentation asks of callers: a new id, and parents first. *)
Definition may_register (port : jsstring) (parent : option jsstring) (st : t) : Prop :=
  ports st !! port = None /\ forall q, truthy parent = Some q -> is_Some (ports st !! q).

Lemma set_add_elem x y l : x ∈ set_add y l <-> x ∈ l \/ x = y.
Proof. unfold set_add. case_decide; set_solver. Qed.
Lemma set_add_NoDup x l : NoDup l -> NoDup (set_add x l).
Proof.
  intros H. unfold set_add. case_decide; [done|]. apply NoDup_app. split; [done|].
  split; [set_solver|apply NoDup_singleton].
Qed.

Section registration.
Context (port : jsstring) (parent : option jsstring) (node : jsstring) (st : t).
Hypothesis Hmay : may_register port parent st.
Let new := {| portId := port; parentPortId := parent; nodeId := node; children := [] |}.
Let st' := register port parent node st.

Lemma register_lookup x :
  ports st' !! x =
  if decide (x = port) then Some new
  else if decide (truthy parent = Some x) then with_children (set_add port) <$> ports st !! x
  else ports st !! x.
Proof.
  destruct Hmay as [Hnew Hpar]. unfold st', register. simpl. fold new. destruct (truthy parent) as [q|] eqn:Hq.
  - rewrite alter_default. specialize (Hpar q eq_refl) as [e He].
    assert (q <> port) as Hne by congruence.
    destruct (decide (q = x)) as [->|Hqx]; rewrite lookup_insert; repeat case_decide; congruence || done.
  - rewrite lookup_insert. repeat case_decide; congruence || done.
Qed.

Lemma register_edge q r :
  parent_edge st' q r <-> (q = port /\ truthy parent = Some r) \/ (q <> port /\ parent_edge st q r).
Proof.
  unfold parent_edge. rewrite register_lookup. case_decide as Hq.
  - split; [intros (e & [= <-] & Ht); by left|]. intros [[_ Ht]|[? _]]; [|done]. by exists new.
  - case_decide as Ht; (split; [intros (e & He & Hr); right; split; [done|]|intros [[? _]|[_ (e & He & Hr)]]; [done|]]).
    + destruct (ports st !! q) as [e0|]; [|done]. injection He as <-. by exists e0.
    + rewrite He. simpl. eexists. split; [reflexivity|done].
    + by exists e.
    + by exists e.
Qed.

Definition rank_with (rank : jsstring -> nat) (x : jsstring) : nat :=
  if decide (x = port) then match truthy parent with Some q => S (rank q) | None => 0 end else rank x.

Lemma register_rank rank q r : wf rank st -> parent_edge st' q r -> (rank_with rank r < rank_with rank q)%nat.
Proof.
  intros Hw [[-> Ht]|[Hq He]]%register_edge; destruct Hmay as [Hnew Hpar]; unfold rank_with.
  - destruct (Hpar r Ht) as [e E]. rewrite decide_False by congruence. rewrite decide_True, Ht by done. lia.
  - destruct (wf_up _ _ Hw _ _ He) as (e & E & _). rewrite !decide_False by congruence. by apply (wf_rank _ _ Hw).
Qed.

Lemma register_up rank q r : wf rank st -> parent_edge st' q r -> exists e, ports st' !! r = Some e /\ q ∈ children e.
Proof.
  intros Hw [[-> Ht]|[Hq He]]%register_edge; rewrite register_lookup; destruct Hmay as [Hnew Hpar].
  - destruct (Hpar r Ht) as [e E]. rewrite decide_False by congruence. rewrite decide_True, E by done.
    eexists. split; [reflexivity|]. simpl. apply set_add_elem. by right.
  - destruct (wf_up _ _ Hw _ _ He) as (e & E & Hc). rewrite decide_False by congruence. rewrite E.
    case_decide; eexists; (split; [reflexivity|]); simpl; rewrite ?set_add_elem; auto.
Qed.

Lemma register_down rank r e q : wf rank st -> ports st' !! r = Some e -> q ∈ children e -> parent_edge st' q r.
Proof.
  intros Hw. rewrite register_lookup, register_edge. destruct Hmay as [Hnew _].
  assert (forall e0, ports st !! r = Some e0 -> q ∈ children e0 -> q <> port /\ parent_edge st q r) as Hold.
  { intros e0 E0 Hq. pose proof (wf_down _ _ Hw _ _ _ E0 Hq) as He. split; [|done].
    destruct He as (e1 & E1 & _). congruence. }
  case_decide as Hr; [intros [= <-]; simpl; set_solver|]. case_decide as Ht.
  - destruct (ports st !! r) as [e0|] eqn:E0; [|done]. intros [= <-]. simpl.
    intros [Hq| ->]%set_add_elem; [right; by apply (Hold e0)|by left].
  - intros E Hq. right. by apply (Hold e).
Qed.

Lemma register_nodes rank n p : wf rank st ->
  p ∈ default [] (byNode st' !! n) <-> exists e, ports st' !! p = Some e /\ nodeId e = n.
Proof.
  intros Hw. rewrite register_lookup. unfold st', register. simpl. rewrite lookup_insert.
  assert (p ∈ default [] (if decide (node = n) then Some (set_add port (default [] (byNode st !! node)))
            else byNode st !! n) <-> p ∈ default [] (byNode st !! n) \/ (p = port /\ node = n)) as ->.
  { case_decide as Hn; [subst; simpl; rewrite set_add_elem; tauto|]. tauto. }
  rewrite (wf_nodes _ _ Hw). destruct Hmay as [Hnew _]. case_decide as Hp.
  - subst p. rewrite Hnew. split; [intros [(e & ? & _)|[_ <-]]; [done|by exists new]|].
    intros (e & [= <-] & <-). by right.
  - case_decide as Ht.
    + split; [intros [(e & -> & <-)|[? _]]; [by eexists|done]|].
      intros (e & E & <-). destruct (ports st !! p) as [e0|]; [|done]. injection E as <-. left. by exists e0.
    + split; [intros [?|[? _]]; done|by left].
Qed.

Lemma register_wf rank : wf rank st -> wf (rank_with rank) st'.
Proof.
  intros Hw. constructor.
  - intros p e. rewrite register_lookup. case_decide; [by intros [= <-]|].
    case_decide; [|by apply (wf_id _ _ Hw)]. destruct (ports st !! p) as [e0|] eqn:E0; [|done].
    intros [= <-]. simpl. by apply (wf_id _ _ Hw).
  - intros q r. by apply (register_up rank).
  - intros r e q. by apply (register_down rank).
  - intros r e. rewrite register_lookup. case_decide; [intros [= <-]; constructor|].
    case_decide; [|by apply (wf_children _ _ Hw)]. destruct (ports st !! r) as [e0|] eqn:E0; [|done].
    intros [= <-]. simpl. by apply set_add_NoDup, (wf_children _ _ Hw r).
  - intros n p. by apply (register_nodes rank).
  - intros q r. by apply register_rank.
Qed.
End registration.

(** ** Registrations in any order *)

(** The edges to children lead to higher ranks, so a walk down them ends. *)
Definition ranked (rank : jsstring -> nat) (st : t) : Prop :=
  forall q e c, ports st !! q = Some e -> c ∈ children e -> (rank q < rank c)%nat.
(** What remains true when ids are registered again, and children before their
    parents: every port is in the set of its node, though a set may name ports that
    have moved or that are gone. *)
Record sound (rank : jsstring -> nat) (st : t) : Prop := {
  s_id : forall p e, ports st !! p = Some e -> portId e = p;
  s_children : forall r e, ports st !! r = Some e -> NoDup (children e);
  s_nodes : forall p e, ports st !! p = Some e -> p ∈ default [] (byNode st !! nodeId e);
  s_rank : ranked rank st;
}.
Lemma register_entry port parent node st q e :
  truthy parent <> Some port -> ports (register port parent node st) !! q = Some e ->
  (q = port /\ e = {| portId := port; parentPortId := parent; nodeId := node; children := [] |}) \/
  q <> port /\ exists e0, ports st !! q = Some e0 /\ portId e = portId e0 /\ nodeId e = nodeId e0 /\
    (children e = children e0 \/ children e = set_add port (children e0)).
Proof.
  intros Hne. unfold register. cbn [ports]. destruct (decide (q = port)) as [->|Hq].
  - destruct (truthy parent) as [p|]; [rewrite lookup_alter_ne by congruence|]; rewrite lookup_insert_eq; intros [= <-]; by left.
  - intros H. right. split; [done|]. destruct (truthy parent) as [p|]; [|rewrite lookup_insert_ne in H by done; eauto 8].
    rewrite alter_default, lookup_insert_ne in H by done. case_decide; [|eauto 8].
    destruct (ports st !! q) as [e0|]; [|done]. injection H as <-. exists e0. by repeat split; [..|right].
Qed.
Lemma register_ranked rank port parent node st : ranked rank st -> truthy parent <> Some port ->
  exists rank', ranked rank' (register port parent node st).
Proof.
  intros Hr Hne. set (top := max_list (rank <$> elements (dom (ports st)))).
  assert (forall q e, ports st !! q = Some e -> (rank q <= top)%nat) as Htop.
  { intros q e He. apply max_list_elem_of_le, list_elem_of_fmap. exists q. split; [done|]. by eapply elem_of_elements, elem_of_dom_2. }
  exists (fun q => if decide (q = port) then S top else rank q). intros q e c He Hc.
  destruct (register_entry _ _ _ _ _ _ Hne He) as [[-> ->]|(Hq & e0 & He0 & _ & _ & Hch)]; [by apply not_elem_of_nil in Hc|].
  rewrite decide_False by done. pose proof (Htop _ _ He0). case_decide as Hd; [lia|].
  destruct Hch as [E|E]; rewrite E in Hc; [by eapply Hr|]. apply set_add_elem in Hc as [Hc|Hc]; [by eapply Hr|done].
Qed.
Lemma register_sound rank port parent node st : sound rank st -> truthy parent <> Some port ->
  exists rank', sound rank' (register port parent node st).
Proof.
  intros [H1 H2 H3 H4] Hne. destruct (register_ranked rank port parent node st H4 Hne) as [rank' Hr]. exists rank'.
  split; [| | |done]; intros q e He; destruct (register_entry _ _ _ _ _ _ Hne He) as [[-> ->]|(Hq & e0 & He0 & Eid & En & Hch)]; try done.
  - rewrite Eid. by apply H1.
  - constructor.
  - destruct Hch as [->| ->]; [by eapply H2|]. by eapply set_add_NoDup, H2.
  - cbn. rewrite lookup_insert_eq. apply set_add_elem. by right.
  - rewrite En. specialize (H3 _ _ He0). cbn. destruct (decide (node = nodeId e0)) as [->|Hn].
    + rewrite lookup_insert_eq. apply set_add_elem. by left.
    + by rewrite lookup_insert_ne.
Qed.
Lemma unlink_sound rank port e st : sound rank st -> sound rank (unlink port e st).
Proof.
  intros [H1 H2 H3 H4].
  assert (He : forall q e', ports (unlink port e st) !! q = Some e' -> q <> port /\ exists e0, ports st !! q = Some e0 /\
    portId e' = portId e0 /\ nodeId e' = nodeId e0 /\ (children e' = children e0 \/ children e' = set_del port (children e0))).
  { intros q e'. unfold unlink. cbn [ports]. rewrite lookup_delete. case_decide; [done|]. intros Hl. split; [congruence|].
    destruct (truthy (parentPortId e)) as [p|]; [|eauto 8]. rewrite alter_default in Hl. case_decide; [|eauto 8].
    destruct (ports st !! q) as [e0|]; [|done]. injection Hl as <-. exists e0. by repeat split; [..|right]. }
  split; [| | |intros q e' c Hq]; [intros q e' Hq..|]; destruct (He _ _ Hq) as (Hne & e0 & E0 & Eid & En & Hch).
  - rewrite Eid. by apply H1.
  - destruct Hch as [->| ->]; [by eapply H2|]. by eapply NoDup_filter, H2.
  - rewrite En. specialize (H3 _ _ E0). cbn. rewrite alter_default. case_decide; [|done].
    destruct (byNode st !! nodeId e0); cbn in *; [by apply list_elem_of_filter|done].
  - intros Hc. eapply H4; [exact E0|]. destruct Hch as [E|E]; rewrite E in Hc; [done|]. by apply list_elem_of_filter in Hc as [_ ?].
Qed.
(** Removals consist of unlinking. *)
Lemma removeAll_keeps {A} (P : t -> Prop) (remove : jsstring -> t -> res (t * list A)) ps :
  (forall p st st' acc, P st -> remove p st = Ok (st', acc) -> P st') ->
  forall st st' acc, P st -> removeAll remove ps st = Ok (st', acc) -> P st'.
Proof.
  intros Hrem. induction ps as [|p ps IH]; intros st st' acc Hst E; [by injection E as <- _|].
  apply res_bind_inv in E as ([st1 a] & E1 & E). apply res_bind_inv in E as ([st2 b] & E2 & E). injection E as <- _.
  eapply IH; [|exact E2]. by eapply Hrem.
Qed.
Lemma removeWith_keeps {A} (P : t -> Prop) (out : jsstring -> option jsstring -> A) fuel :
  (forall p e st, P st -> P (unlink p e st)) ->
  forall p st st' acc, P st -> removeWith out fuel p st = Ok (st', acc) -> P st'.
Proof.
  intros HP. induction fuel as [|fuel IH]; intros p st st' acc Hst; cbn [removeWith]; destruct (ports st !! p) as [e|];
    try (by intros [= <- _]).
  intros ([st1 a] & E1 & [= <- _])%res_bind_inv. apply HP. by eapply (removeAll_keeps P _ _ IH).
Qed.

(** ** Histories *)

Inductive reachable : t -> Prop :=
| reach_empty : reachable empty
| reach_register st port parent node :
    reachable st -> may_register port parent st -> reachable (register port parent node st)
| reach_exit st port st' removed :
    reachable st -> exit port st = Ok (st', removed) -> reachable st'
| reach_nodeDown st node st' removed :
    reachable st -> nodeDown node st = Ok (st', removed) -> reachable st'.

Lemma exit_removes rank st port : wf rank st -> removes (fun p _ => p) [port] st (exit port st).
Proof. intros Hw. apply (removeWith_removes _ rank); [done|apply deeper_all]. Qed.

Lemma nodeDown_removes rank st node : wf rank st ->
  removes (fun p parent => (p, parent)) (default [] (byNode st !! node)) st (nodeDown node st).
Proof.
  intros Hw. unfold nodeDown. destruct (byNode st !! node) as [hosted|].
  - apply (removeAll_removes _ rank); [by apply removeWith_removes|done|].
    intros p _. apply deeper_all.
  - exists []. rewrite prune_nil. split; [done|]. split; [constructor|]. split; [set_solver|].
    by intros [|? ?] r D2 q.
Qed.

Lemma removes_wf {A} (out : jsstring -> option jsstring -> A) rank ps st st' acc :
  wf rank st -> removes out ps st (Ok (st', acc)) -> wf rank st'.
Proof. intros Hw (D & [= -> _] & _ & HD & _). apply prune_wf; [done|]. by eapply removes_closed. Qed.

Lemma empty_wf : wf (fun _ => 0%nat) empty.
Proof.
  assert (forall q r, ~ parent_edge empty q r) as Hno by (by intros q r (e & E & _)).
  constructor; try done.
  - by intros q r H%Hno.
  - intros n p. simpl. split; [intros H; by apply not_elem_of_nil in H|by intros (e & E & _)].
  - by intros q r H%Hno.
Qed.

Lemma reachable_wf st : reachable st -> exists rank, wf rank st.
Proof.
  induction 1 as [|st port parent node _ [rank Hw] Hm|st port st' removed _ [rank Hw] E|
                  st node st' removed _ [rank Hw] E].
  - eexists. apply empty_wf.
  - eexists. by apply (register_wf port parent node st Hm rank).
  - exists rank. pose proof (exit_removes rank st port Hw) as H. rewrite E in H. by eapply removes_wf.
  - exists rank. pose proof (nodeDown_removes rank st node Hw) as H. rewrite E in H. by eapply removes_wf.
Qed.

(** Any registrations but that of a port below itself. *)
Inductive registered : t -> Prop :=
| any_empty : registered empty
| any_register st port parent node :
    registered st -> truthy parent <> Some port -> registered (register port parent node st)
| any_exit st port st' removed :
    registered st -> exit port st = Ok (st', removed) -> registered st'
| any_nodeDown st node st' removed :
    registered st -> nodeDown node st = Ok (st', removed) -> registered st'.

(** C38: the registry after any history of registrations, exits and node losses.
    When every id was new and every parent was there first, it is a forest with an
    exact node index: parent and child edges mirror each other, children are
    distinct, the per-node sets hold exactly the ports registered on the node, and
    the edges have no cycle.  When ids were registered again or before their
    parents, each port is still in the set of its node, and the edges to children
    still have no cycle, as long as no port was registered below itself; the sets
    may then name ports that have moved ([overwritten_port_stays_indexed]). *)
Theorem registry_invariant (st : t) :
  (reachable st -> exists rank, wf rank st) /\ (registered st -> exists rank, sound rank st).
Proof.
  split; [apply reachable_wf|]. induction 1 as [|st port parent node _ [rank Hs] Hne|st port st' removed _ [rank Hs] E|st node st' removed _ [rank Hs] E].
  - exists (fun _ => 0%nat). by split.
  - by apply (register_sound rank).
  - exists rank. eapply (removeWith_keeps (sound rank)); [|exact Hs|exact E]. intros p e s. apply unlink_sound.
  - exists rank. unfold nodeDown in E. destruct (byNode st !! node) as [hosted|]; [|by injection E as <- _].
    eapply (removeAll_keeps (sound rank)); [|exact Hs|exact E]. apply removeWith_keeps. intros p e s. apply unlink_sound.
Qed.

Definition sample_registry : t :=
  register (js "c") (Some (js "b")) (js "n1")
    (register (js "b") (Some (js "a")) (js "n2") (register (js "a") None (js "n1") empty)).
Lemma sample_reachable : reachable sample_registry.
Proof.
  unfold sample_registry.
  repeat apply reach_register; try apply reach_empty; (split; [reflexivity|]);
    intros q [= <-]; vm_compute; eexists; reflexivity.
Qed.

(** "b" is registered again, below "c". *)
Definition sample_again : t := register (js "b") (Some (js "c")) (js "n1") sample_registry.
Lemma registry_invariant_witness : (exists rank, wf rank sample_registry) /\ exists rank, sound rank sample_again.
Proof.
  split; [apply (registry_invariant sample_registry), sample_reachable|apply (registry_invariant sample_again)].
  unfold sample_again, sample_registry. repeat apply any_register; try apply any_empty; by vm_compute.
Defined.

(** [exit] removes a subtree.  It ends, returns exactly the port and its
    descendants, each once and children before parents, and leaves every other
    port with its entry, its remaining children and its place in the node
    index. *)
Theorem registry_exit (st : t) (port : jsstring) :
  reachable st ->
  exists removed, exit port st = Ok (prune removed st, removed) /\ NoDup removed /\
    (forall q, q ∈ removed <-> below st port q) /\ postorder st removed.
Proof.
  intros [rank Hw]%reachable_wf. destruct (exit_removes rank st port Hw) as (D & E & Hnd & HD & Hpo).
  exists D. rewrite map_id in E. split; [done|]. split; [done|]. split; [|done].
  intros q. rewrite HD. split; [by intros (p & ->%list_elem_of_singleton & Hb)|].
  intros Hb. exists port. split; [by left|done].
Qed.

Lemma registry_exit_witness :
  exit (js "b") sample_registry = Ok (prune [js "c"; js "b"] sample_registry, [js "c"; js "b"]) /\
  exists removed, exit (js "b") sample_registry = Ok (prune removed sample_registry, removed) /\ NoDup removed /\
    (forall q, q ∈ removed <-> below sample_registry (js "b") q) /\ postorder sample_registry removed.
Proof.
  split; [vm_compute; reflexivity|]. apply (registry_exit sample_registry (js "b")). apply sample_reachable.
Defined.

(** [nodeDown] removes the subtrees of every port the node hosts, and
    reports each removed port once with its parent, children first. *)
Theorem registry_nodeDown (st : t) (node : jsstring) :
  reachable st ->
  exists removed, nodeDown node st = Ok (prune removed st, map (fun q => (q, parent_of st q)) removed) /\
    NoDup removed /\ postorder st removed /\
    (forall q, q ∈ removed <-> exists p, getNodeId p st = Some node /\ below st p q).
Proof.
  intros [rank Hw]%reachable_wf. destruct (nodeDown_removes rank st node Hw) as (D & E & Hnd & HD & Hpo).
  exists D. split; [done|]. split; [done|]. split; [done|]. intros q. rewrite HD. unfold getNodeId.
  split; intros (p & Hp & Hb); exists p; (split; [|done]).
  - apply (wf_nodes _ _ Hw) in Hp as (e & -> & <-). done.
  - apply (wf_nodes _ _ Hw). destruct (ports st !! p) as [e|]; [|done]. injection Hp as <-. by exists e.
Qed.

Lemma registry_nodeDown_witness :
  exists removed, nodeDown (js "n2") sample_registry
      = Ok (prune removed sample_registry, map (fun q => (q, parent_of sample_registry q)) removed) /\
    NoDup removed /\ postorder sample_registry removed /\
    (forall q, q ∈ removed <-> exists p, getNodeId p sample_registry = Some (js "n2") /\ below sample_registry p q).
Proof. apply (registry_nodeDown sample_registry (js "n2")). apply sample_reachable. Defined.

(** Registering a known id on another node leaves it in the index of the first
    node, whose loss then removes a port that it does not host. *)
Example overwritten_port_stays_indexed :
  let st := register (js "p") None (js "n2") (register (js "p") None (js "n1") empty) in
  getNodeId (js "p") st = Some (js "n2") /\
  match nodeDown (js "n1") st with Ok (_, removed) => removed = [(js "p", None)] | Throw _ => False end.
Proof. vm_compute. done. Qed.

(** A port registered as its own parent makes a removal run forever. *)
Example self_parent_diverges :
  exit (js "p") (register (js "p") (Some (js "p")) (js "n") empty) = Throw Diverges.
Proof. vm_compute. reflexivity. Qed.
End ClusterRegistry.
