(* ===== verification/ClusterSeed.v ===== *)
(** The seed of a cluster: src/js/internal/cluster/seed.ts, over the registry of
    [ClusterRegistry].

    A handler takes the state and returns the next one with what it sends.  Loads are
    rationals.  The part of a SPAWN that is only passed on, its configuration, is of
    any type [C].  Timers and the transport are the host's: a history is a sequence of
    messages, of heartbeat checks and of stops. *)

From Stdlib Require Import QArith.
From S2P Require Import Prelude ClusterRegistry.
#[local] Open Scope Z_scope.

Module ClusterSeed.

Section seed.
Context {C : Type}.
(** The id of the transport. *)
Context (nodeId : jsstring).

Record NodeLoad := { cpu : Q; memory : Q }.
Record PeerInfo := { peer_nodeId : jsstring; peer_load : NodeLoad }.
Record PortMessage := { fromPort : jsstring; toPort : jsstring; payload : list (list Z); seq : Z; payloadFormat : option Z }.
Record RealmExitMessage := { realmId : jsstring; lastPortSeq : Z; exit_error : option jsstring }.
Inductive ClusterMessage :=
| HELLO (node : jsstring) (load : NodeLoad)
| WELCOME (node : jsstring) (peers : list PeerInfo)
| PEER_UP (peer : PeerInfo)
| PEER_DOWN (node : jsstring)
| HEARTBEAT (ts : Q)
| SPAWN (spawnReqId parentPortId : jsstring) (config : C)
| SPAWN_ACK (spawnReqId childPortId : jsstring) (ok : bool) (error : option jsstring)
| REALM_EXIT (msg : RealmExitMessage)
| TERMINATE (realmId : jsstring)
| PORT_MSG (msg : PortMessage).
(** What goes to the transport. *)
Inductive output := Send (to : jsstring) (msg : ClusterMessage) | BroadcastExcept (except : jsstring) (msg : ClusterMessage).

Record PortSequenceState := { next : Z; pending : gmap Z PortMessage }.
Record Spawn := { requesterNodeId : jsstring; parentPortId : jsstring; targetNodeId : jsstring }.
Record t := {
  registry : ClusterRegistry.t;
  peers : list (jsstring * NodeLoad);
  lastSeen : list (jsstring * Z);
  pendingSpawns : list (jsstring * Spawn);
  portNodes : gmap jsstring jsstring;
  portSequences : gmap jsstring PortSequenceState;
  pendingRealmExits : gmap jsstring RealmExitMessage;
}.
Definition start : t :=
  {| registry := ClusterRegistry.empty; peers := []; lastSeen := []; pendingSpawns := []; portNodes := ∅; portSequences := ∅; pendingRealmExits := ∅ |}.
Definition with_peers (p : list (jsstring * NodeLoad)) (l : list (jsstring * Z)) (st : t) : t :=
  {| registry := registry st; peers := p; lastSeen := l; pendingSpawns := pendingSpawns st; portNodes := portNodes st;
     portSequences := portSequences st; pendingRealmExits := pendingRealmExits st |}.
Definition with_spawns (s : list (jsstring * Spawn)) (st : t) : t :=
  {| registry := registry st; peers := peers st; lastSeen := lastSeen st; pendingSpawns := s; portNodes := portNodes st;
     portSequences := portSequences st; pendingRealmExits := pendingRealmExits st |}.
Definition with_registry (r : ClusterRegistry.t) (st : t) : t :=
  {| registry := r; peers := peers st; lastSeen := lastSeen st; pendingSpawns := pendingSpawns st; portNodes := portNodes st;
     portSequences := portSequences st; pendingRealmExits := pendingRealmExits st |}.
Definition with_sequences (s : gmap jsstring PortSequenceState) (e : gmap jsstring RealmExitMessage) (st : t) : t :=
  {| registry := registry st; peers := peers st; lastSeen := lastSeen st; pendingSpawns := pendingSpawns st; portNodes := portNodes st;
     portSequences := s; pendingRealmExits := e |}.

(** A port gets a host: in the routing table and in the registry. *)
Definition host (port : jsstring) (parent : option jsstring) (node : jsstring) (st : t) : t :=
  {| registry := ClusterRegistry.register port parent node (registry st); peers := peers st; lastSeen := lastSeen st;
     pendingSpawns := pendingSpawns st; portNodes := <[port := node]> (portNodes st);
     portSequences := portSequences st; pendingRealmExits := pendingRealmExits st |}.
(** A port that the registry removed is forgotten. *)
Definition forget (port : jsstring) (st : t) : t :=
  {| registry := registry st; peers := peers st; lastSeen := lastSeen st; pendingSpawns := pendingSpawns st;
     portNodes := delete port (portNodes st); portSequences := delete port (portSequences st);
     pendingRealmExits := delete port (pendingRealmExits st) |}.

(** [if (targetNodeId)]: a string that is there and not empty. *)
Definition hostOf (port : jsstring) (st : t) : option jsstring := ClusterRegistry.truthy (portNodes st !! port).

(** ** Ordered routing *)

Fixpoint take_ready (fuel : nat) (n : Z) (p : gmap Z PortMessage) : list PortMessage * PortSequenceState :=
  match fuel, p !! n with
  | S fuel, Some m => let '(ready, s) := take_ready fuel (n + 1) (delete n p) in (m :: ready, s)
  | _, _ => ([], {| next := n; pending := p |})
  end.
Definition sequence (port : jsstring) (st : t) : PortSequenceState := default {| next := 1; pending := ∅ |} (portSequences st !! port).
Definition takeOrderedPortMessages (m : PortMessage) (st : t) : list PortMessage * t :=
  let s := sequence (fromPort m) st in
  let '(ready, s) :=
    if (seq m <? next s) || bool_decide (is_Some (pending s !! seq m)) then ([], s)
    else let p := <[seq m := m]> (pending s) in take_ready (size p) (next s) p in
  (ready, with_sequences (<[fromPort m := s]> (portSequences st)) (pendingRealmExits st) st).
Definition routedPortSequence (port : jsstring) (st : t) : Z := default 1 (next <$> portSequences st !! port) - 1.

(** ** Exits and losses *)

Definition terminations (root : jsstring) (removed : list jsstring) (st : t) : list output * t :=
  fold_left (fun '(out, st) p =>
    (out ++ match hostOf p st with Some node => if bool_decide (p = root) then [] else [Send node (TERMINATE p)] | None => [] end, forget p st))
    removed ([], st).
Definition handleRealmExit (msg : RealmExitMessage) (st : t) : res (t * list output) :=
  let port := realmId msg in
  let parent := ClusterRegistry.truthy (ClusterRegistry.getParentPortId port (registry st) ≫= id) in
  '(r, removed) ← ClusterRegistry.exit port (registry st);
  let st := with_registry r st in
  let notice := match parent ≫= fun q => hostOf q st with Some node => [Send node (REALM_EXIT msg)] | None => [] end in
  let '(out, st) := terminations port removed st in
  Ok (st, notice ++ out).
Definition failed_spawn (node : jsstring) (s : jsstring * Spawn) : list output :=
  if bool_decide (requesterNodeId s.2 = node) then []
  else if bool_decide (targetNodeId s.2 = node)
  then [Send (requesterNodeId s.2) (SPAWN_ACK s.1 [] false (Some (js "target node " ++ node ++ js " went down before spawn completed")))]
  else [].
Definition spawn_kept (node : jsstring) (s : jsstring * Spawn) : bool :=
  negb (bool_decide (requesterNodeId s.2 = node)) && negb (bool_decide (targetNodeId s.2 = node)).
Definition losses (node : jsstring) (affected : list (jsstring * option jsstring)) (st : t) : list output * t :=
  fold_left (fun '(out, st) '(p, parent) =>
    let st := forget p st in
    (out ++ match ClusterRegistry.truthy parent ≫= fun q => hostOf q st with
            | Some h => if bool_decide (h = node) then [] else [Send h (TERMINATE p)]
            | None => []
            end, st))
    affected ([], st).
Definition handleNodeDown (node : jsstring) (st : t) : res (t * list output) :=
  let acks := concat (map (failed_spawn node) (pendingSpawns st)) in
  let st := with_spawns (List.filter (spawn_kept node) (pendingSpawns st)) st in
  '(r, affected) ← ClusterRegistry.nodeDown node (registry st);
  let '(out, st) := losses node affected (with_registry r st) in
  Ok (st, acks ++ out).

(** ** Messages *)

(** The peer with the lowest CPU load, the first of them. *)
Definition selectTarget (exclude : jsstring) (st : t) : option jsstring :=
  fst <$> fold_left (fun best '(n, l) =>
    if bool_decide (n = exclude) then best
    else match best with Some (_, b) => if Qle_bool b (cpu l) then best else Some (n, cpu l) | None => Some (n, cpu l) end)
    (peers st) None.
Definition handle (now : Z) (from : jsstring) (msg : ClusterMessage) (st : t) : res (t * list output) :=
  match msg with
  | HELLO _ load =>
      let st := with_peers (JMap.set from load (peers st)) (JMap.set from now (lastSeen st)) st in
      Ok (st, [Send from (WELCOME nodeId (map (fun '(n, l) => {| peer_nodeId := n; peer_load := l |}) (peers st)));
               BroadcastExcept from (PEER_UP {| peer_nodeId := from; peer_load := load |})])
  | PEER_DOWN _ =>
      let st := with_peers (JMap.delete from (peers st)) (JMap.delete from (lastSeen st)) st in
      '(st, out) ← handleNodeDown from st;
      Ok (st, BroadcastExcept from (PEER_DOWN from) :: out)
  | HEARTBEAT _ => Ok (with_peers (peers st) (JMap.set from now (lastSeen st)) st, [])
  | SPAWN req parent _ =>
      match selectTarget from st with
      | None => Ok (st, [Send from (SPAWN_ACK req [] false (Some (js "no available worker node")))])
      | Some target =>
          let st := with_spawns (JMap.set req {| requesterNodeId := from; parentPortId := parent; targetNodeId := target |} (pendingSpawns st)) st in
          Ok (host parent None from st, [Send target msg])
      end
  | SPAWN_ACK req child ok _ =>
      let spawnInfo := JMap.get req (pendingSpawns st) in
      let st := with_spawns (JMap.delete req (pendingSpawns st)) st in
      match spawnInfo with
      | None => Ok (st, [])
      | Some s => Ok (if ok then host child (Some (parentPortId s)) from st else st, [Send (requesterNodeId s) msg])
      end
  | REALM_EXIT m =>
      if routedPortSequence (realmId m) st <? lastPortSeq m
      then Ok (with_sequences (portSequences st) (<[realmId m := m]> (pendingRealmExits st)) st, [])
      else handleRealmExit m st
  | PORT_MSG m =>
      let '(ready, st) := takeOrderedPortMessages m st in
      let out := omap (fun r => (fun node => Send node (PORT_MSG r)) <$> hostOf (toPort r) st) ready in
      match pendingRealmExits st !! fromPort m with
      | Some e =>
          if lastPortSeq e <=? routedPortSequence (fromPort m) st then
            '(st, more) ← handleRealmExit e (with_sequences (portSequences st) (delete (fromPort m) (pendingRealmExits st)) st);
            Ok (st, out ++ more)
          else Ok (st, out)
      | None => Ok (st, out)
      end
  | WELCOME _ _ | PEER_UP _ | TERMINATE _ => Ok (st, [])
  end.

Fixpoint check_each (now timeout : Z) (seen : list (jsstring * Z)) (st : t) : res (t * list output) :=
  match seen with
  | [] => Ok (st, [])
  | (node, ts) :: seen =>
      if timeout <? now - ts then
        '(st, out) ← handleNodeDown node (with_peers (JMap.delete node (peers st)) (JMap.delete node (lastSeen st)) st);
        '(st, more) ← check_each now timeout seen st;
        Ok (st, BroadcastExcept node (PEER_DOWN node) :: out ++ more)
      else check_each now timeout seen st
  end.
Definition checkHeartbeats (now timeout : Z) (st : t) : res (t * list output) := check_each now timeout (lastSeen st) st.
Definition stop (st : t) : t := with_sequences ∅ ∅ st.
End seed.

(** ** Removals from any registry

    The seed registers ids again and children of ports that are gone, so that its
    registry need not be the forest of [ClusterRegistry]; a removal still ends as long
    as no port is its own child. *)

Section removals.
Implicit Types (r : ClusterRegistry.t).

(** [r'] is [r] without [A]. *)
Definition shrunk (A : list jsstring) r r' : Prop := forall q,
  if decide (q ∈ A) then ClusterRegistry.ports r' !! q = None
  else ClusterRegistry.getNodeId q r' = ClusterRegistry.getNodeId q r /\
    forall e', ClusterRegistry.ports r' !! q = Some e' ->
      exists e, ClusterRegistry.ports r !! q = Some e /\ ClusterRegistry.children e' ⊆ ClusterRegistry.children e.
Lemma shrunk_refl r : shrunk [] r r.
Proof. intros q. rewrite decide_False by apply not_elem_of_nil. split; [done|]. intros e He. by exists e. Qed.
Lemma shrunk_app A B r1 r2 r3 : shrunk A r1 r2 -> shrunk B r2 r3 -> shrunk (A ++ B) r1 r3.
Proof.
  intros H1 H2 q. specialize (H1 q). specialize (H2 q). destruct (decide (q ∈ B)) as [Hb|Hb]; [by rewrite decide_True by set_solver|].
  destruct H2 as [Hn He]. destruct (decide (q ∈ A)) as [Ha|Ha].
  - rewrite decide_True by set_solver. unfold ClusterRegistry.getNodeId in Hn. rewrite H1 in Hn. by destruct (ClusterRegistry.ports r3 !! q).
  - rewrite decide_False by set_solver. destruct H1 as [Hn' He']. split; [congruence|]. intros e3 H3.
    destruct (He e3 H3) as (e2 & H2 & ?). destruct (He' e2 H2) as (e1 & ? & ?). exists e1. set_solver.
Qed.
Lemma shrunk_some A r r' q e' : shrunk A r r' -> ClusterRegistry.ports r' !! q = Some e' ->
  exists e, ClusterRegistry.ports r !! q = Some e /\ ClusterRegistry.children e' ⊆ ClusterRegistry.children e.
Proof. intros H He. specialize (H q). case_decide; [congruence|]. by apply H. Qed.
Lemma shrunk_ranked A rank r r' : ClusterRegistry.ranked rank r -> shrunk A r r' -> ClusterRegistry.ranked rank r'.
Proof. intros Hr Hs q e' c He Hc. destruct (shrunk_some _ _ _ _ _ Hs He) as (e & ? & ?). apply (Hr q e c); [done|set_solver]. Qed.
Lemma shrunk_unlink r port e : shrunk [port] r (ClusterRegistry.unlink port e r).
Proof.
  intros q. unfold ClusterRegistry.unlink, ClusterRegistry.getNodeId. cbn [ClusterRegistry.ports]. rewrite lookup_delete.
  case_decide as Hq; [apply list_elem_of_singleton in Hq as ->; by rewrite decide_True|].
  rewrite decide_False by (intros ->; set_solver). destruct (ClusterRegistry.truthy _) as [p|]; [|split; [done|intros e' ?; by exists e']].
  rewrite ClusterRegistry.alter_default. case_decide; [|split; [done|intros e' ?; by exists e']].
  destruct (ClusterRegistry.ports r !! q) as [e0|]; [|done]. split; [done|]. intros e' [= <-]. exists e0. split; [done|].
  simpl. unfold ClusterRegistry.set_del. intros x [_ Hx]%list_elem_of_filter. done.
Qed.
Lemma deeper_shrunk A rank r r' q : shrunk A r r' -> (size (ClusterRegistry.deeper rank r' q) <= size (ClusterRegistry.deeper rank r q))%nat.
Proof.
  intros Hs. apply subseteq_size. intros p [Hp [e' He]%elem_of_dom]%elem_of_filter. apply elem_of_filter. split; [done|].
  destruct (shrunk_some _ _ _ _ _ Hs He) as (e & He' & _). by eapply elem_of_dom_2.
Qed.
Lemma deeper_below rank r q c :
  (rank q < rank c)%nat -> is_Some (ClusterRegistry.ports r !! c) -> (size (ClusterRegistry.deeper rank r c) < size (ClusterRegistry.deeper rank r q))%nat.
Proof.
  intros Hlt Hc. apply subset_size. split.
  - intros p [Hp Hd]%elem_of_filter. apply elem_of_filter. split; [lia|done].
  - intros H. assert (c ∈ ClusterRegistry.deeper rank r c) as [? _]%elem_of_filter; [|lia].
    apply H, elem_of_filter. split; [done|]. by apply elem_of_dom.
Qed.
Lemma register_host q port parent node r :
  ClusterRegistry.getNodeId q (ClusterRegistry.register port parent node r) = if decide (port = q) then Some node else ClusterRegistry.getNodeId q r.
Proof.
  unfold ClusterRegistry.getNodeId, ClusterRegistry.register. cbn [ClusterRegistry.ports].
  destruct (ClusterRegistry.truthy parent) as [p|]; [rewrite ClusterRegistry.alter_default|]; rewrite lookup_insert;
    repeat case_decide; subst; try done; by destruct (ClusterRegistry.ports r !! q).
Qed.
Context {A : Type} (out : jsstring -> option jsstring -> A) (ids : A -> jsstring) (Hids : forall p (q : option jsstring), ids (out p q) = p).
Definition removed_ok (rank : jsstring -> nat) r (m : res (ClusterRegistry.t * list A)) : Prop :=
  exists r' acc, m = Ok (r', acc) /\ shrunk (map ids acc) r r'.
Lemma removeAll_ok rank fuel ps r :
  (forall r p, ClusterRegistry.ranked rank r -> is_Some (ClusterRegistry.ports r !! p) -> (size (ClusterRegistry.deeper rank r p) < fuel)%nat ->
     removed_ok rank r (ClusterRegistry.removeWith out fuel p r)) ->
  ClusterRegistry.ranked rank r -> (forall p, p ∈ ps -> is_Some (ClusterRegistry.ports r !! p) -> (size (ClusterRegistry.deeper rank r p) < fuel)%nat) ->
  removed_ok rank r (ClusterRegistry.removeAll (ClusterRegistry.removeWith out fuel) ps r).
Proof.
  intros Hrem. revert r. induction ps as [|p ps IH]; intros r Hr Hps; [exists r, []; by split; [|apply shrunk_refl]|].
  assert (removed_ok rank r (ClusterRegistry.removeWith out fuel p r)) as (r1 & acc1 & E1 & Hs1).
  { destruct (ClusterRegistry.ports r !! p) as [e|] eqn:E; [apply Hrem; [done|done|apply Hps; [by left|done]]|].
    exists r, []. split; [|apply shrunk_refl]. destruct fuel; simpl; by rewrite E. }
  destruct (IH r1) as (r2 & acc2 & E2 & Hs2).
  - by eapply shrunk_ranked.
  - intros q Hq Hsome. eapply Nat.le_lt_trans; [by eapply deeper_shrunk|]. apply Hps; [by right|].
    destruct Hsome as [e' He']. by destruct (shrunk_some _ _ _ _ _ Hs1 He') as (e & -> & _).
  - exists r2, (acc1 ++ acc2). cbn [ClusterRegistry.removeAll]. rewrite E1. cbn [mbind res_bind]. rewrite E2. split; [done|].
    rewrite map_app. by eapply shrunk_app.
Qed.
Lemma removeWith_ok rank fuel r p :
  ClusterRegistry.ranked rank r -> is_Some (ClusterRegistry.ports r !! p) -> (size (ClusterRegistry.deeper rank r p) < fuel)%nat ->
  removed_ok rank r (ClusterRegistry.removeWith out fuel p r).
Proof.
  revert r p. induction fuel as [|fuel IH]; intros r p Hr [e He] Hf; [lia|]. cbn [ClusterRegistry.removeWith]. rewrite He.
  destruct (removeAll_ok rank fuel (ClusterRegistry.children e) r IH Hr) as (r1 & acc & E & Hs).
  { intros c Hc Hsome. pose proof (deeper_below rank r p c (Hr p e c He Hc) Hsome). lia. }
  rewrite E. cbn [mbind res_bind]. eexists _, _. split; [done|]. rewrite map_app. simpl. rewrite Hids. eapply shrunk_app; [exact Hs|].
  apply shrunk_unlink.
Qed.
End removals.
Lemma exit_shrunk rank r port : ClusterRegistry.ranked rank r -> exists r' D, ClusterRegistry.exit port r = Ok (r', D) /\ shrunk D r r'.
Proof.
  intros Hr. unfold ClusterRegistry.exit, ClusterRegistry.removeRecursive. destruct (ClusterRegistry.ports r !! port) as [e|] eqn:E.
  - destruct (removeWith_ok (fun p _ => p) id ltac:(done) rank (ClusterRegistry.enough r) r port) as (r' & D & H & Hs);
      [done|by rewrite E|apply ClusterRegistry.deeper_all|]. exists r', D. split; [done|]. by rewrite map_id in Hs.
  - exists r, []. unfold ClusterRegistry.enough. simpl. rewrite E. split; [done|]. apply shrunk_refl.
Qed.
Lemma nodeDown_shrunk rank r node : ClusterRegistry.ranked rank r -> exists r' D, ClusterRegistry.nodeDown node r = Ok (r', D) /\ shrunk D.*1 r r'.
Proof.
  intros Hr. unfold ClusterRegistry.nodeDown. destruct (ClusterRegistry.byNode r !! node) as [hosted|]; [|exists r, []; by split; [|apply shrunk_refl]].
  apply (removeAll_ok (fun p q => (p, q)) fst rank (ClusterRegistry.enough r) hosted r); [|done|intros; apply ClusterRegistry.deeper_all].
  intros r0 p Hr0 Hp Hf. by apply removeWith_ok.
Qed.

(** ** Ordered messages *)

(** The first of the messages [l] with the number [k]. *)
Definition numbered (k : Z) (l : list PortMessage) : option PortMessage := List.find (fun m => seq m =? k) l.
(** What a buffer is after the messages [got]: everything before [next] is there, the
    rest of what came waits. *)
Record buffered (got : list PortMessage) (s : PortSequenceState) : Prop := {
  buffered_pos : 1 <= next s;
  buffered_done : forall k, 1 <= k < next s -> is_Some (numbered k got);
  buffered_pending : forall k, pending s !! k = if decide (next s <= k) then numbered k got else None;
  buffered_gap : numbered (next s) got = None;
}.
(** [ready] is the run of messages from the number [n] on. *)
Definition in_order (got : list PortMessage) (n : Z) (ready : list PortMessage) : Prop :=
  Forall2 (fun k m => numbered k got = Some m) (seqZ n (Z.of_nat (length ready))) ready /\ numbered (n + Z.of_nat (length ready)) got = None.

Lemma numbered_snoc k l m :
  numbered k (l ++ [m]) = match numbered k l with Some x => Some x | None => if seq m =? k then Some m else None end.
Proof. induction l as [|x l IH]; simpl; [by destruct (_ =? _)|]. by destruct (seq x =? k). Qed.
Lemma seqZ_S n k : seqZ n (Z.of_nat (S k)) = n :: seqZ (n + 1) (Z.of_nat k).
Proof. rewrite seqZ_cons by lia. f_equal. f_equal; lia. Qed.
Lemma run_nil (P : Z -> PortMessage -> Prop) n : Forall2 P (seqZ n (Z.of_nat (length (@nil PortMessage)))) [].
Proof. cbn [length]. rewrite seqZ_nil by lia. constructor. Qed.
Lemma take_ready_spec fuel n p : (size p <= fuel)%nat ->
  let '(ready, s) := take_ready fuel n p in
  next s = n + Z.of_nat (length ready) /\ Forall2 (fun k m => p !! k = Some m) (seqZ n (Z.of_nat (length ready))) ready /\
  p !! next s = None /\ forall k, pending s !! k = if decide (n <= k < next s) then None else p !! k.
Proof.
  revert n p. induction fuel as [|fuel IH]; intros n p Hf; simpl.
  { assert (p = ∅) as -> by (apply map_size_empty_iff; lia). split; [simpl; lia|]. split; [apply run_nil|].
    split; [done|]. intros k. by case_decide. }
  destruct (p !! n) as [m|] eqn:E.
  2:{ split; [simpl; lia|]. split; [apply run_nil|]. split; [done|]. intros k. by rewrite decide_False by (simpl; lia). }
  specialize (IH (n + 1) (delete n p)). rewrite map_size_delete_Some in IH by done.
  destruct (take_ready fuel (n + 1) (delete n p)) as [ready s]. destruct IH as (Hn & Hall & Hnone & Hp); [lia|].
  split; [simpl; lia|]. split; [|split].
  - cbn [length]. rewrite seqZ_S. constructor; [done|]. eapply Forall2_impl; [exact Hall|]. intros k m'.
    rewrite lookup_delete_Some. tauto.
  - rewrite lookup_delete_ne in Hnone by lia. done.
  - intros k. rewrite Hp, lookup_delete. repeat case_decide; try done; lia.
Qed.
Lemma takeOrdered_spec m got st : buffered got (sequence (fromPort m) st) ->
  let '(ready, st') := takeOrderedPortMessages m st in
  exists s', st' = with_sequences (<[fromPort m := s']> (portSequences st)) (pendingRealmExits st) st /\
    buffered (got ++ [m]) s' /\ in_order (got ++ [m]) (next (sequence (fromPort m) st)) ready /\
    next s' = next (sequence (fromPort m) st) + Z.of_nat (length ready).
Proof.
  unfold takeOrderedPortMessages. set (s := sequence (fromPort m) st). intros [Hpos Hdone Hpend Hgap].
  destruct ((seq m <? next s) || bool_decide (is_Some (pending s !! seq m))) eqn:Hskip.
  - assert (forall k, 1 <= k -> numbered k (got ++ [m]) = numbered k got) as Hsame.
    { intros k Hk. rewrite numbered_snoc. destruct (numbered k got) eqn:Ek; [done|]. destruct (Z.eqb_spec (seq m) k) as [<-|]; [|done].
      apply orb_true_iff in Hskip as [Hlt%Z.ltb_lt|[x Hx]%bool_decide_eq_true].
      - destruct (Hdone (seq m)) as [? ?]; [lia|congruence].
      - rewrite Hpend in Hx. case_decide; congruence. }
    exists s. split; [done|]. split; [|split; [split; [apply run_nil|]|simpl; lia]].
    + split; [done| | |by rewrite Hsame by lia].
      * intros k Hk. rewrite Hsame by lia. by apply Hdone.
      * intros k. rewrite Hpend. case_decide; [|done]. by rewrite Hsame by lia.
    + simpl. rewrite Z.add_0_r. by rewrite Hsame by lia.
  - apply orb_false_iff in Hskip as [Hge%Z.ltb_ge Hno%bool_decide_eq_false]. apply eq_None_not_Some in Hno.
    pose proof Hno as Hnone. rewrite Hpend, decide_True in Hnone by done. set (p := <[seq m:=m]> (pending s)).
    assert (forall k, p !! k = if decide (next s <= k) then numbered k (got ++ [m]) else None) as Hp.
    { intros k. unfold p. rewrite lookup_insert, numbered_snoc, Hpend. case_decide as Hk; [subst; rewrite decide_True, Hnone, Z.eqb_refl by done; done|].
      case_decide; [|done]. destruct (numbered k got); [done|]. by rewrite (proj2 (Z.eqb_neq _ _)) by done. }
    pose proof (take_ready_spec (size p) (next s) p ltac:(done)) as Hd. destruct (take_ready (size p) (next s) p) as [ready s'].
    destruct Hd as (Hn & Hall & Hend & Hrest). exists s'. split; [done|].
    assert (forall k r, p !! k = Some r -> numbered k (got ++ [m]) = Some r) as Hp' by (intros k r; rewrite Hp; by case_decide).
    rewrite Hp, decide_True in Hend by lia. split; [|split; [split|done]].
    + split; [lia| |intros k; rewrite Hrest, Hp; repeat case_decide; try done; lia|done].
      intros k Hk. destruct (decide (k < next s)) as [Hlt|Hlt].
      * rewrite numbered_snoc. destruct (Hdone k) as [x ->]; [lia|done].
      * destruct (Forall2_lookup_l _ _ _ (Z.to_nat (k - next s)) k Hall) as (r & _ & Hr); [|by eexists; apply Hp'].
        apply lookup_seqZ. lia.
    + eapply Forall2_impl; [exact Hall|]. exact Hp'.
    + by rewrite <- Hn.
Qed.

(** ** The seed over time *)

Section history.
Context {C : Type} (nodeId : jsstring).
Implicit Types (st : t) (got : jsstring -> list PortMessage) (out : list (@output C)).

Inductive event := Message (now : Z) (from : jsstring) (msg : @ClusterMessage C) | Check (now timeout : Z) | Stop.
Definition perform (e : event) st : res (t * list (@output C)) :=
  match e with
  | Message now from msg => handle nodeId now from msg st
  | Check now timeout => checkHeartbeats now timeout st
  | Stop => Ok (stop st, [])
  end.
(** No realm is spawned below its own port. *)
Definition fair (e : event) st : bool :=
  match e with
  | Message _ _ (SPAWN_ACK req child true _) =>
      match JMap.get req (pendingSpawns st) with Some s => negb (bool_decide (parentPortId s = child)) | None => true end
  | _ => true
  end.
(** The messages of a port since the seed last forgot it. *)
Definition since st got (port : jsstring) : list PortMessage :=
  match portSequences st !! port with Some _ => got port | None => [] end.
Definition received (e : event) st got : jsstring -> list PortMessage :=
  match e with
  | Message _ _ (PORT_MSG m) => fun p => if decide (fromPort m = p) then since st got p ++ [m] else got p
  | _ => got
  end.
Inductive history : t -> (jsstring -> list PortMessage) -> Prop :=
| history_start : history start (fun _ => [])
| history_step st got e st' out :
    history st got -> fair e st = true -> perform e st = Ok (st', out) -> history st' (received e st got).

Record consistent st got : Prop := {
  consistent_ranked : exists rank, ClusterRegistry.ranked rank (registry st);
  consistent_hosts : forall p, portNodes st !! p = ClusterRegistry.getNodeId p (registry st);
  consistent_buffers : forall p s, portSequences st !! p = Some s -> buffered (got p) s;
  consistent_waiting : forall p e, pendingRealmExits st !! p = Some e -> routedPortSequence p st < lastPortSeq e;
}.
(** A realm's end, told to the host of its parent or of a descendant. *)
Definition notice (o : @output C) : Prop :=
  match o with Send _ (REALM_EXIT _ | TERMINATE _) => True | _ => False end.

(** [st'] is [st] without the ports [D]. *)
Definition forgot (D : list jsstring) st st' : Prop :=
  forall p, portNodes st' !! p = (if decide (p ∈ D) then None else portNodes st !! p) /\
    portSequences st' !! p = (if decide (p ∈ D) then None else portSequences st !! p) /\
    pendingRealmExits st' !! p = (if decide (p ∈ D) then None else pendingRealmExits st !! p).
Lemma forgot_nil st : forgot [] st st.
Proof. intros p. by rewrite decide_False by apply not_elem_of_nil. Qed.
Lemma forgot_cons p D st st' : forgot D (forget p st) st' -> forgot (p :: D) st st'.
Proof.
  intros H q. destruct (H q) as (-> & -> & ->). simpl. rewrite !lookup_delete.
  destruct (decide (q ∈ D)), (decide (q ∈ p :: D)), (decide (p = q)); set_solver.
Qed.
Lemma forget_fold {A} (f : list (@output C) * t -> A -> list (@output C) * t) (port : A -> jsstring) l out st :
  (forall out st x, exists more, f (out, st) x = (out ++ more, forget (port x) st) /\ Forall notice more) ->
  exists more st', fold_left f l (out, st) = (out ++ more, st') /\ registry st' = registry st /\ forgot (map port l) st st' /\ Forall notice more.
Proof.
  intros Hf. revert out st. induction l as [|x l IH]; intros out st; simpl.
  { exists [], st. rewrite app_nil_r. split; [done|]. split; [done|]. split; [apply forgot_nil|constructor]. }
  destruct (Hf out st x) as (more & -> & Hmore). destruct (IH (out ++ more) (forget (port x) st)) as (more' & st' & -> & Hr & Hg & Hmore').
  exists (more ++ more'), st'. rewrite <- app_assoc. split; [done|]. split; [done|]. split; [by apply forgot_cons|by apply Forall_app].
Qed.
Lemma terminations_spec root D st :
  exists out st', terminations root D st = (out, st') /\ registry st' = registry st /\ forgot D st st' /\ Forall notice out.
Proof.
  destruct (forget_fold (fun '(out, st) p => (out ++ match hostOf p st with Some node => if bool_decide (p = root) then [] else [Send node (TERMINATE p)] | None => [] end, forget p st)) id D [] st) as (out & st' & E & Hr & Hg & Hn).
  - intros out' st0 x. eexists. split; [reflexivity|]. destruct (hostOf x st0); [case_bool_decide|]; by repeat constructor.
  - exists out, st'. rewrite map_id in Hg. done.
Qed.
Lemma losses_spec node D st :
  exists out st', losses node D st = (out, st') /\ registry st' = registry st /\ forgot D.*1 st st' /\ Forall notice out.
Proof.
  unfold losses. match goal with |- context [fold_left ?f _ _] => destruct (forget_fold f fst D [] st) as (out & st' & E & H) end;
    [|by exists out, st'].
  intros out' st0 [p parent]. eexists. split; [reflexivity|]. simpl.
  destruct (ClusterRegistry.truthy parent ≫= _); [case_bool_decide|]; by repeat constructor.
Qed.

Lemma consistent_frame st st' got :
  registry st' = registry st -> portNodes st' = portNodes st -> portSequences st' = portSequences st ->
  pendingRealmExits st' = pendingRealmExits st -> consistent st got -> consistent st' got.
Proof.
  intros E1 E2 E3 E4 [H1 H2 H3 H4]. split; [by rewrite E1|intros p; by rewrite E2, E1|by rewrite E3|].
  unfold routedPortSequence in *. by rewrite E3, E4.
Qed.
Lemma consistent_forgot D st st' got :
  consistent st got -> shrunk D (registry st) (registry st') -> forgot D st st' -> consistent st' got.
Proof.
  intros [[rank Hr] H2 H3 H4] Hs Hf. split.
  - exists rank. by eapply shrunk_ranked.
  - intros p. destruct (Hf p) as (-> & _ & _). specialize (Hs p). case_decide; [|by destruct Hs as [-> _]].
    unfold ClusterRegistry.getNodeId. by rewrite Hs.
  - intros p s. destruct (Hf p) as (_ & -> & _). case_decide; [done|]. apply H3.
  - intros p e. unfold routedPortSequence. destruct (Hf p) as (_ & -> & ->). case_decide; [done|]. apply H4.
Qed.
Lemma consistent_host port parent node st got :
  consistent st got -> ClusterRegistry.truthy parent <> Some port -> consistent (host port parent node st) got.
Proof.
  intros [[rank Hr] H2 H3 H4] Hne. split; [by eapply ClusterRegistry.register_ranked| |done|done].
  intros p. simpl. rewrite register_host, lookup_insert. by case_decide.
Qed.
Lemma handleRealmExit_ok m st got : consistent st got ->
  exists st' out, handleRealmExit m st = Ok (st', out) /\ consistent st' got /\ Forall notice out.
Proof.
  intros Hc. destruct (consistent_ranked _ _ Hc) as [rank Hr]. destruct (exit_shrunk rank (registry st) (realmId m) Hr) as (r & D & E & Hs).
  unfold handleRealmExit. rewrite E. cbn [mbind res_bind].
  destruct (terminations_spec (realmId m) D (with_registry r st)) as (out & st' & Et & Hreg & Hf & Hn). rewrite Et.
  eexists _, _. split; [done|]. split.
  - apply (consistent_forgot D st); [done|by rewrite Hreg|done].
  - apply Forall_app. split; [|done]. destruct (_ ≫= _); by repeat constructor.
Qed.
Lemma handleNodeDown_ok node st got : consistent st got ->
  exists st' out, @handleNodeDown C node st = Ok (st', out) /\ consistent st' got.
Proof.
  intros Hc. destruct (consistent_ranked _ _ Hc) as [rank Hr].
  destruct (nodeDown_shrunk rank (registry st) node Hr) as (r & D & E & Hs).
  unfold handleNodeDown. cbn [registry with_spawns]. rewrite E. cbn [mbind res_bind].
  match goal with |- context [losses node D ?s] => destruct (losses_spec node D s) as (out & st' & Et & Hreg & Hf & _) end.
  rewrite Et. eexists _, _. split; [done|]. apply (consistent_forgot D.*1 st); [done|by rewrite Hreg|done].
Qed.
Lemma checkHeartbeats_ok now timeout st got : consistent st got ->
  exists st' out, @checkHeartbeats C now timeout st = Ok (st', out) /\ consistent st' got.
Proof.
  unfold checkHeartbeats. generalize (lastSeen st) as seen. intros seen. revert st.
  induction seen as [|[node ts] seen IH]; intros st Hc; simpl; [by eexists _, _|].
  case_match; [|by apply IH].
  match goal with |- context [handleNodeDown node ?s] => destruct (handleNodeDown_ok node s got) as (st1 & out1 & -> & Hc1) end.
  { by apply (consistent_frame st). }
  cbn [mbind res_bind]. destruct (IH st1 Hc1) as (st2 & out2 & -> & Hc2). by eexists _, _.
Qed.
Lemma sequence_buffered st got p : consistent st got -> buffered (since st got p) (sequence p st).
Proof.
  intros Hc. unfold since, sequence. destruct (portSequences st !! p) as [s|] eqn:E; [by eapply consistent_buffers|].
  split; simpl; [done|lia| |done]. intros k. rewrite lookup_empty. by case_decide.
Qed.
(** Taking a message leaves only the exit of its own port to be looked at. *)
Lemma take_consistent m st got s' ex :
  consistent st got -> buffered (since st got (fromPort m) ++ [m]) s' ->
  let st1 := with_sequences (<[fromPort m := s']> (portSequences st)) ex st in
  (forall p e, ex !! p = Some e -> pendingRealmExits st !! p = Some e /\ (p = fromPort m -> next s' - 1 < lastPortSeq e)) ->
  consistent st1 (fun p => if decide (fromPort m = p) then since st got p ++ [m] else got p).
Proof.
  intros [H1 H2 H3 H4] Hb st1 Hex. split; [done|done| |].
  - intros p s. simpl. rewrite lookup_insert. case_decide; [intros [= <-]; by subst|by apply H3].
  - intros p e He. destruct (Hex p e He) as [He' Hp]. unfold routedPortSequence. simpl. rewrite lookup_insert.
    case_decide as Hd; [by apply Hp|]. by apply H4.
Qed.
Lemma portMsg_ok now from m st got : consistent st got ->
  exists ready more st', handle nodeId now from (PORT_MSG m) st =
      Ok (st', omap (fun r => (fun node => Send node (PORT_MSG r)) <$> hostOf (toPort r) st) ready ++ more) /\
    consistent st' (received (Message now from (PORT_MSG m)) st got) /\
    in_order (since st got (fromPort m) ++ [m]) (next (sequence (fromPort m) st)) ready /\ Forall notice more /\
    (more <> [] -> exists e, pendingRealmExits st !! fromPort m = Some e /\
      lastPortSeq e <= routedPortSequence (fromPort m) st + Z.of_nat (length ready)).
Proof.
  intros Hc. pose proof (takeOrdered_spec m _ st (sequence_buffered st got (fromPort m) Hc)) as Ht. simpl.
  destruct (takeOrderedPortMessages m st) as [ready st1]. destruct Ht as (s' & -> & Hb & Hord & Hnext).
  pose proof (fun ex => take_consistent m st got s' ex Hc Hb) as Hcons.
  assert (routedPortSequence (fromPort m) st + Z.of_nat (length ready) = next s' - 1) as Hsum.
  { rewrite Hnext. unfold routedPortSequence, sequence. destruct (portSequences st !! _); simpl; lia. }
  assert (routedPortSequence (fromPort m) (with_sequences (<[fromPort m := s']> (portSequences st)) (pendingRealmExits st) st) = next s' - 1) as Hrouted.
  { unfold routedPortSequence. simpl. by rewrite lookup_insert_eq. }
  cbn [pendingRealmExits with_sequences]. destruct (pendingRealmExits st !! fromPort m) as [e|] eqn:Ee; [rewrite Hrouted|].
  - destruct (Z.leb_spec (lastPortSeq e) (next s' - 1)) as [Hle|Hgt].
    + edestruct handleRealmExit_ok as (st2 & more & -> & Hc2 & Hn).
      { apply (Hcons (delete (fromPort m) (pendingRealmExits st))). intros p e' [Hp He]%lookup_delete_Some. split; [done|]. intros ->. done. }
      exists ready, more, st2. split; [done|]. split; [done|]. split; [done|]. split; [done|]. intros _. exists e. split; [done|lia].
    + eexists ready, [], _. rewrite app_nil_r. split; [done|]. split; [|by repeat split; try apply Hord].
      apply Hcons. intros p e' He. split; [done|]. intros ->. assert (e' = e) as -> by congruence. lia.
  - eexists ready, [], _. rewrite app_nil_r. split; [done|]. split; [|by repeat split; try apply Hord].
    apply Hcons. intros p e' He. split; [done|]. intros ->. congruence.
Qed.
Lemma seed_perform_ok e st got : consistent st got -> fair e st = true ->
  exists st' out, perform e st = Ok (st', out) /\ consistent st' (received e st got).
Proof.
  intros Hc Hfair. destruct e as [now from msg|now timeout|]; [|by apply checkHeartbeats_ok|].
  2:{ eexists _, _. split; [done|]. destruct Hc as [H1 H2 _ _]. by split. }
  destruct msg as [node load|node ps|peer|node|ts|req parent config|req child ok err|m|realm|m];
    try (eexists _, _; split; [done|]; by apply (consistent_frame st)).
  - simpl. destruct (handleNodeDown_ok from (with_peers (JMap.delete from (peers st)) (JMap.delete from (lastSeen st)) st) got) as (st' & out & -> & Hc').
    { by apply (consistent_frame st). }
    by eexists _, _.
  - simpl. destruct (selectTarget from st) as [target|]; [|by eexists _, _]. eexists _, _. split; [done|].
    apply consistent_host; [|done]. by apply (consistent_frame st).
  - simpl in *. destruct (JMap.get req (pendingSpawns st)) as [s|] eqn:Es; (eexists _, _; split; [done|]); [|by apply (consistent_frame st)].
    destruct ok; [|by apply (consistent_frame st)]. apply consistent_host; [by apply (consistent_frame st)|].
    apply negb_true_iff, bool_decide_eq_false in Hfair. simpl. by destruct (parentPortId s); intros [=].
  - simpl. destruct (Z.ltb_spec (routedPortSequence (realmId m) st) (lastPortSeq m)) as [Hlt|Hge].
    + eexists _, _. split; [done|]. destruct Hc as [H1 H2 H3 H4]. split; [done|done|done|].
      intros p e. simpl. rewrite lookup_insert. case_decide; [intros [= <-]; by subst|apply H4].
    + destruct (handleRealmExit_ok m st got Hc) as (st' & out & -> & Hc' & _). by eexists _, _.
  - destruct (portMsg_ok now from m st got Hc) as (ready & more & st' & E & Hc' & _). by eexists _, _.
Qed.
Lemma history_consistent st got : history st got -> consistent st got.
Proof.
  induction 1 as [|st got e st' out _ IH Hf E].
  - split; [by exists (fun _ => O)|done|done|done].
  - destruct (seed_perform_ok e st got IH Hf) as (st2 & out2 & E2 & Hc). congruence.
Qed.
End history.

(** C37: Routing through the seed.  After any sequence of messages, heartbeat checks
    and stops in which no realm is acknowledged with the port of its own parent
    ([fair]; [seed_self_parent_diverges] shows one):
    - every further one of this kind is handled, the removal of subtrees ends;
    - the routing table has the host that the registry has for every port;
    - of each port, counting from when the seed last forgot it, the messages numbered
      below [next] have all come, those that came
      with higher numbers wait, and [next] itself has not come;
    - a message of a port lets out the run of messages from [next] on, in the order of
      their numbers, each the first copy that came, to the hosts of the ports they
      name, and after them at most the notices of an exit whose last message is among
      those let out so far;
    - an exit waits exactly as long as its last message was not let out. *)
Theorem seed_routes {C : Type} (nodeId : jsstring) (st : t) (got : jsstring -> list PortMessage) :
  @history C nodeId st got ->
  (forall e : @event C, fair e st = true -> exists st' out, perform nodeId e st = Ok (st', out)) /\
  (forall p, portNodes st !! p = ClusterRegistry.getNodeId p (registry st)) /\
  (forall p, buffered (since st got p) (sequence p st)) /\
  (forall now from m, exists ready more st', handle nodeId now from (@PORT_MSG C m) st =
      Ok (st', omap (fun r => (fun node => Send node (PORT_MSG r)) <$> hostOf (toPort r) st) ready ++ more) /\
    in_order (since st got (fromPort m) ++ [m]) (next (sequence (fromPort m) st)) ready /\ Forall notice more /\
    (more <> [] -> exists e, pendingRealmExits st !! fromPort m = Some e /\
      lastPortSeq e <= routedPortSequence (fromPort m) st + Z.of_nat (length ready))) /\
  (forall p e, pendingRealmExits st !! p = Some e -> routedPortSequence p st < lastPortSeq e) /\
  (forall now from m st' out, handle nodeId now from (@REALM_EXIT C m) st = Ok (st', out) ->
    routedPortSequence (realmId m) st < lastPortSeq m -> out = [] /\ pendingRealmExits st' !! realmId m = Some m).
Proof.
  intros Hc%history_consistent. split; [|split; [|split; [|split; [|split]]]].
  - intros e Hf. destruct (seed_perform_ok nodeId e st got Hc Hf) as (st' & out & E & _). by exists st', out.
  - apply (consistent_hosts _ _ Hc).
  - intros p. by apply sequence_buffered.
  - intros now from m. destruct (portMsg_ok (C := C) nodeId now from m st got Hc) as (ready & more & st' & E & _ & H). by exists ready, more, st'.
  - apply (consistent_waiting _ _ Hc).
  - intros now from m st' out. simpl. intros E Hlt. rewrite (proj2 (Z.ltb_lt _ _) Hlt) in E. injection E as <- <-.
    split; [done|]. simpl. by rewrite lookup_insert_eq.
Qed.

(** A child on [b] of a port on [a]; its second message comes before the first, and so does its exit. *)
Definition sample_message (n : Z) : PortMessage :=
  {| fromPort := js "child"; toPort := js "root"; payload := []; seq := n; payloadFormat := None |}.
Definition sample_exit : RealmExitMessage := {| realmId := js "child"; lastPortSeq := 2; exit_error := None |}.
Definition sample_load : NodeLoad := {| cpu := 1#2; memory := 1#4 |}.
Definition sample_events : list (@event unit) := [
  Message 0 (js "a") (HELLO (js "a") sample_load); Message 1 (js "b") (HELLO (js "b") sample_load);
  Message 2 (js "a") (SPAWN (js "r") (js "root") tt); Message 3 (js "b") (SPAWN_ACK (js "r") (js "child") true None);
  Message 4 (js "b") (PORT_MSG (sample_message 2)); Message 5 (js "b") (REALM_EXIT sample_exit); Check 6 7500].
Fixpoint perform_all (es : list (@event unit)) (st : t) : option t :=
  match es with
  | [] => Some st
  | e :: es =>
      match fair e st, perform (js "seed") e st with
      | true, Ok (st, _) => perform_all es st
      | _, _ => None
      end
  end.
Lemma perform_all_history es st st' got : @history unit (js "seed") st got -> perform_all es st = Some st' -> exists got', @history unit (js "seed") st' got'.
Proof.
  revert st got. induction es as [|e es IH]; intros st got Hh; cbn [perform_all]; [intros [= <-]; by exists got|].
  destruct (fair e st) eqn:Ef; [|done]. destruct (perform (js "seed") e st) as [[st1 out]|] eqn:Ep; [|done].
  eapply IH. by eapply history_step.
Qed.
Definition sample_seed : t := default start (perform_all sample_events start).
Definition outputs (r : res (t * list (@output unit))) : option (list (@output unit)) :=
  match r with Ok (_, out) => Some out | Throw _ => None end.
Example sample_delivery :
  outputs (handle (js "seed") 7 (js "b") (PORT_MSG (sample_message 1)) sample_seed) =
    Some [Send (js "a") (PORT_MSG (sample_message 1)); Send (js "a") (PORT_MSG (sample_message 2)); Send (js "a") (REALM_EXIT sample_exit)].
Proof. vm_compute. reflexivity. Qed.
Example sample_waits : map_to_list (pendingRealmExits sample_seed) = [(js "child", sample_exit)].
Proof. vm_compute. reflexivity. Qed.

Lemma seed_routes_witness : exists got, @history unit (js "seed") sample_seed got /\
  (forall p, portNodes sample_seed !! p = ClusterRegistry.getNodeId p (registry sample_seed)).
Proof.
  destruct (perform_all_history sample_events start sample_seed (fun _ => [])) as [got H]; [apply history_start|vm_compute; reflexivity|].
  exists got. split; [exact H|]. apply (seed_routes (js "seed") sample_seed got H).
Defined.

(** ** Limits *)

(** A worker that answers with the parent's own port makes the next removal run
    through the cycle without end. *)
Definition self_parent_events : list (@event unit) := [
  Message 0 (js "b") (HELLO (js "b") sample_load); Message 2 (js "a") (SPAWN (js "r") (js "root") tt)].
Example seed_self_parent_diverges :
  match perform_all self_parent_events start with
  | Some st => ('(st, _) ← perform (js "seed") (Message 3 (js "b") (@SPAWN_ACK unit (js "r") (js "root") true None)) st;
      handle (js "seed") 4 (js "b") (@REALM_EXIT unit {| realmId := js "root"; lastPortSeq := 0; exit_error := None |}) st) = Throw Diverges
  | None => False
  end.
Proof. vm_compute. reflexivity. Qed.

(** A second SPAWN under a port registers the port anew: its first child is no longer
    below it, and its exit does not end that child. *)
Definition two_children_events : list (@event unit) := [
  Message 0 (js "b") (HELLO (js "b") sample_load); Message 2 (js "a") (SPAWN (js "r") (js "root") tt);
  Message 3 (js "b") (SPAWN_ACK (js "r") (js "first") true None); Message 5 (js "a") (SPAWN (js "r2") (js "root") tt);
  Message 6 (js "b") (SPAWN_ACK (js "r2") (js "second") true None)].
Example second_spawn_loses_child :
  match perform_all two_children_events start with
  | Some st => outputs (handle (js "seed") 7 (js "a") (REALM_EXIT {| realmId := js "root"; lastPortSeq := 0; exit_error := None |}) st)
      = Some [Send (js "b") (TERMINATE (js "second"))]
  | None => False
  end.
Proof. vm_compute. reflexivity. Qed.

(** The loss of [b], which hosts "child", with "grandchild" below it on [c]: the host of
    "root" hears of "child"; nobody tells [c]. *)
Definition grandchild_events : list (@event unit) := [
  Message 0 (js "b") (HELLO (js "b") sample_load); Message 2 (js "a") (SPAWN (js "r") (js "root") tt);
  Message 3 (js "c") (HELLO (js "c") {| cpu := 0; memory := 0 |}); Message 4 (js "b") (SPAWN (js "r2") (js "child") tt);
  Message 5 (js "b") (SPAWN_ACK (js "r") (js "child") true None); Message 6 (js "c") (SPAWN_ACK (js "r2") (js "grandchild") true None)].
Example orphan_not_terminated :
  match perform_all grandchild_events start with
  | Some st => outputs (handle (js "seed") 7 (js "b") (PEER_DOWN (js "b")) st)
      = Some [BroadcastExcept (js "b") (PEER_DOWN (js "b")); Send (js "a") (TERMINATE (js "child"))]
        /\ ClusterRegistry.getParentPortId (js "grandchild") (registry st) = Some (Some (js "child"))
  | None => False
  end.
Proof. vm_compute. split; reflexivity. Qed.
End ClusterSeed.
