(* ===== verification/SerialExecutor.v ===== *)
(** FIFO execution gates (src/js/internal/serial-executor.ts).

    [SerialExecutor] keeps its queue as a doubly linked list of entries.  The
    model has the list in a heap of entries, and beside the object's own
    fields what the event loop holds for it: the queued [#pump] microtasks,
    the operations that were dispatched and have not called [#finish] yet, the
    entries whose abort listener is attached.  A step is one synchronous call
    of a handler.  [Section refinement] shows that the linked list implements
    a plain queue, [KeyedSerialExecutor] is a map from keys to executors. *)

From stdpp Require Import sorting.
From S2P Require Import Prelude.

Module Serial.

Record Entry := { previous : option nat; next : option nat }.

Record t := {
  maxPending : option Z; (* [None] is [Infinity] *)
  pending : Z;
  closed : bool;
  active : bool;
  head : option nat;
  tail : option nat;
  idle : list nat;
  heap : gmap nat Entry;
  fresh : nat; (* the next entry to be allocated *)
  listeners : gset nat;
  pumps : nat;
  running : list nat;
}.

(** What the callers observe. *)
Inductive refusal := Closed | Aborted | CapacityExceeded.
Inductive output :=
| Accepted (e : nat)
| Refused (why : refusal)
| Dispatched (e : nat)
| Settled (e : nat) (success : bool)
| Cancelled (e : nat)
| Drained (waiter : nat).

Inductive event :=
| ERun (signal : option bool) (* the signal's [aborted] flag *)
| EAbort (e : nat)
| EPump
| EFinish (e : nat) (success : bool)
| EDrain (waiter : nat)
| EClose (waiter : nat).

(** ** Assignments *)

Definition set_queue (h l : option nat) (m : gmap nat Entry) (s : t) : t :=
  {| maxPending := maxPending s; pending := pending s; closed := closed s; active := active s;
     head := h; tail := l; idle := idle s; heap := m; fresh := fresh s;
     listeners := listeners s; pumps := pumps s; running := running s |}.
Definition set_head (h : option nat) (s : t) : t := set_queue h (tail s) (heap s) s.
Definition set_tail (l : option nat) (s : t) : t := set_queue (head s) l (heap s) s.
Definition set_heap (m : gmap nat Entry) (s : t) : t := set_queue (head s) (tail s) m s.
Definition set_counts (n : Z) (c a : bool) (i : list nat) (s : t) : t :=
  {| maxPending := maxPending s; pending := n; closed := c; active := a;
     head := head s; tail := tail s; idle := i; heap := heap s; fresh := fresh s;
     listeners := listeners s; pumps := pumps s; running := running s |}.
Definition set_pending (n : Z) (s : t) : t := set_counts n (closed s) (active s) (idle s) s.
Definition set_active (a : bool) (s : t) : t := set_counts (pending s) (closed s) a (idle s) s.
Definition set_closed (c : bool) (s : t) : t := set_counts (pending s) c (active s) (idle s) s.
Definition set_idle (i : list nat) (s : t) : t := set_counts (pending s) (closed s) (active s) i s.
Definition set_loop (f : nat) (ls : gset nat) (p : nat) (r : list nat) (s : t) : t :=
  {| maxPending := maxPending s; pending := pending s; closed := closed s; active := active s;
     head := head s; tail := tail s; idle := idle s; heap := heap s; fresh := f;
     listeners := ls; pumps := p; running := r |}.
Definition set_fresh (f : nat) (s : t) : t := set_loop f (listeners s) (pumps s) (running s) s.
Definition set_listeners (ls : gset nat) (s : t) : t := set_loop (fresh s) ls (pumps s) (running s) s.
Definition set_pumps (p : nat) (s : t) : t := set_loop (fresh s) (listeners s) p (running s) s.
Definition set_running (r : list nat) (s : t) : t := set_loop (fresh s) (listeners s) (pumps s) r s.

Definition null_entry : Entry := {| previous := None; next := None |}.
Definition entry (s : t) (e : nat) : Entry := default null_entry (heap s !! e).
Definition set_next (n : option nat) (x : Entry) : Entry := {| previous := previous x; next := n |}.
Definition set_previous (p : option nat) (x : Entry) : Entry := {| previous := p; next := next x |}.

(** ** The methods *)

Definition make (max : option Z) : res t :=
  let ok := match max with None => true | Some n => isSafeInteger n && negb (n <? 1) end in
  if negb ok then Throw (RangeError "maxPending must be a positive safe integer or Infinity")
  else Ok {| maxPending := max; pending := 0; closed := false; active := false; head := None;
             tail := None; idle := []; heap := ∅; fresh := 0; listeners := ∅; pumps := 0;
             running := [] |}.

Definition remove (e : nat) (s : t) : t :=
  let s :=
    match previous (entry s e) with
    | Some p => set_heap (alter (set_next (next (entry s e))) p (heap s)) s
    | None => set_head (next (entry s e)) s
    end in
  let s :=
    match next (entry s e) with
    | Some n => set_heap (alter (set_previous (previous (entry s e))) n (heap s)) s
    | None => set_tail (previous (entry s e)) s
    end in
  set_heap (alter (fun _ => null_entry) e (heap s)) s.

Definition detach (e : nat) (s : t) : t := set_listeners (listeners s ∖ {[e]}) s.

Definition pump (s : t) : t * list output :=
  match active s, head s with
  | false, Some e =>
      let s := remove e s in
      let s := detach e s in
      let s := set_active true s in
      (set_running (running s ++ [e]) s, [Dispatched e])
  | _, _ => (s, [])
  end.

Definition notifyIdle (s : t) : t * list output :=
  if negb (pending s =? 0) then (s, []) else (set_idle [] s, map Drained (idle s)).

Definition finish (e : nat) (success : bool) (s : t) : t * list output :=
  let s := set_active false s in
  let s := set_pending (pending s - 1) s in
  let '(s, o1) := pump s in
  let '(s, o2) := notifyIdle s in
  (s, o1 ++ [Settled e success] ++ o2).

(** The abort listener that [run] attaches. *)
Definition abort (e : nat) (s : t) : t * list output :=
  let s := remove e s in
  let s := detach e s in
  let s := set_pending (pending s - 1) s in
  let '(s, o) := notifyIdle s in
  (s, Cancelled e :: o).

Definition full (s : t) : bool :=
  match maxPending s with None => false | Some m => m <=? pending s end.
Definition run (signal : option bool) (s : t) : t * list output :=
  if closed s then (s, [Refused Closed])
  else if default false signal then (s, [Refused Aborted])
  else if full s then (s, [Refused CapacityExceeded])
  else
    let e := fresh s in
    let s := set_fresh (S e) s in
    let s := set_heap (<[e := {| previous := tail s; next := None |}]> (heap s)) s in
    let s :=
      match tail s with
      | Some l => set_heap (alter (set_next (Some e)) l (heap s)) s
      | None => set_head (Some e) s
      end in
    let s := set_tail (Some e) s in
    let s := set_pending (pending s + 1) s in
    let s := match signal with Some _ => set_listeners (listeners s ∪ {[e]}) s | None => s end in
    (set_pumps (S (pumps s)) s, [Accepted e]).

Definition drain (waiter : nat) (s : t) : t * list output :=
  if pending s =? 0 then (s, [Drained waiter]) else (set_idle (idle s ++ [waiter]) s, []).
Definition close (waiter : nat) (s : t) : t * list output := drain waiter (set_closed true s).

(** ** Steps *)

(** The event loop calls a handler only while it holds it: an attached abort
    listener, a queued microtask, the continuation of a dispatched operation. *)
Definition step (ev : event) (s : t) : option (t * list output) :=
  match ev with
  | ERun signal => Some (run signal s)
  | EAbort e => if bool_decide (e ∈ listeners s) then Some (abort e s) else None
  | EPump => match pumps s with O => None | S p => Some (pump (set_pumps p s)) end
  | EFinish e success =>
      if bool_decide (e ∈ running s)
      then Some (finish e success (set_running (base.filter (fun x => x <> e) (running s)) s))
      else None
  | EDrain w => Some (drain w s)
  | EClose w => Some (close w s)
  end.

Fixpoint exec (evs : list event) (s : t) : option (t * list output) :=
  match evs with
  | [] => Some (s, [])
  | ev :: evs =>
      '(s, o) ← step ev s;
      '(s, os) ← exec evs s;
      Some (s, o ++ os)
  end.

(** ** The specification: a queue *)

Record queue := {
  q_max : option Z;
  q_closed : bool;
  q_waiting : list nat;
  q_running : option nat;
  q_idle : list nat;
  q_fresh : nat;
  q_listeners : gset nat;
  q_pumps : nat;
}.

Definition q_pending (q : queue) : Z :=
  zlen (q_waiting q) + match q_running q with Some _ => 1 | None => 0 end.
Definition q_with (w : list nat) (r : option nat) (i : list nat) (ls : gset nat) (q : queue) : queue :=
  {| q_max := q_max q; q_closed := q_closed q; q_waiting := w; q_running := r; q_idle := i;
     q_fresh := q_fresh q; q_listeners := ls; q_pumps := q_pumps q |}.
Definition q_dispatch (q : queue) : queue * list output :=
  match q_running q, q_waiting q with
  | None, e :: w => (q_with w (Some e) (q_idle q) (q_listeners q ∖ {[e]}) q, [Dispatched e])
  | _, _ => (q, [])
  end.
Definition q_notify (q : queue) : queue * list output :=
  if q_pending q =? 0
  then (q_with (q_waiting q) (q_running q) [] (q_listeners q) q, map Drained (q_idle q)) else (q, []).
Definition q_full (q : queue) : bool :=
  match q_max q with None => false | Some m => m <=? q_pending q end.
Definition q_drain (w : nat) (q : queue) : queue * list output :=
  if q_pending q =? 0 then (q, [Drained w])
  else (q_with (q_waiting q) (q_running q) (q_idle q ++ [w]) (q_listeners q) q, []).
Definition q_set_pumps (p : nat) (q : queue) : queue :=
  {| q_max := q_max q; q_closed := q_closed q; q_waiting := q_waiting q; q_running := q_running q;
     q_idle := q_idle q; q_fresh := q_fresh q; q_listeners := q_listeners q; q_pumps := p |}.
Definition q_set_closed (q : queue) : queue :=
  {| q_max := q_max q; q_closed := true; q_waiting := q_waiting q; q_running := q_running q;
     q_idle := q_idle q; q_fresh := q_fresh q; q_listeners := q_listeners q; q_pumps := q_pumps q |}.
Definition q_run (signal : option bool) (q : queue) : queue * list output :=
  if q_closed q then (q, [Refused Closed])
  else if default false signal then (q, [Refused Aborted])
  else if q_full q then (q, [Refused CapacityExceeded])
  else
    let e := q_fresh q in
    ({| q_max := q_max q; q_closed := false; q_waiting := q_waiting q ++ [e]; q_running := q_running q;
        q_idle := q_idle q; q_fresh := S e;
        q_listeners := match signal with Some _ => q_listeners q ∪ {[e]} | None => q_listeners q end;
        q_pumps := S (q_pumps q) |}, [Accepted e]).

Definition q_step (ev : event) (q : queue) : option (queue * list output) :=
  match ev with
  | ERun signal => Some (q_run signal q)
  | EAbort e =>
      if bool_decide (e ∈ q_listeners q) then
        let q := q_with (base.filter (fun x => x <> e) (q_waiting q)) (q_running q) (q_idle q)
                   (q_listeners q ∖ {[e]}) q in
        let '(q, o) := q_notify q in Some (q, Cancelled e :: o)
      else None
  | EPump => match q_pumps q with O => None | S p => Some (q_dispatch (q_set_pumps p q)) end
  | EFinish e success =>
      if bool_decide (q_running q = Some e) then
        let q := q_with (q_waiting q) None (q_idle q) (q_listeners q) q in
        let '(q, o1) := q_dispatch q in
        let '(q, o2) := q_notify q in Some (q, o1 ++ [Settled e success] ++ o2)
      else None
  | EDrain w => Some (q_drain w q)
  | EClose w => Some (q_drain w (q_set_closed q))
  end.

Fixpoint q_exec (evs : list event) (q : queue) : option (queue * list output) :=
  match evs with
  | [] => Some (q, [])
  | ev :: evs =>
      '(q, o) ← q_step ev q;
      '(q, os) ← q_exec evs q;
      Some (q, o ++ os)
  end.
Definition q_make (max : option Z) : queue :=
  {| q_max := max; q_closed := false; q_waiting := []; q_running := None; q_idle := []; q_fresh := 0;
     q_listeners := ∅; q_pumps := 0 |}.

(** A quick run: two operations, the second cancelled. *)
Example exec_sample :
  (s ← (match make (Some 2) with Ok s => Some s | Throw _ => None end);
   '(_, os) ← exec [ERun None; ERun (Some false); ERun None; EPump; EAbort 1; EDrain 7; EFinish 0 true] s;
   Some os)
  = Some [Accepted 0; Accepted 1; Refused CapacityExceeded; Dispatched 0; Cancelled 1;
          Settled 0 true; Drained 7].
Proof. vm_compute. reflexivity. Qed.

(** ** Linked segments

    [seg m p q n]: the entries [q] are linked in this order, after [p] and
    before [n]. *)

Definition first (q : list nat) (n : option nat) : option nat :=
  match q with [] => n | x :: _ => Some x end.
Definition final (p : option nat) (q : list nat) : option nat :=
  match last q with Some x => Some x | None => p end.
Fixpoint seg (m : gmap nat Entry) (p : option nat) (q : list nat) (n : option nat) : Prop :=
  match q with
  | [] => True
  | x :: q => m !! x = Some {| previous := p; next := first q n |} /\ seg m (Some x) q n
  end.
Definition repr (s : t) (q : list nat) : Prop :=
  seg (heap s) None q None /\ head s = first q None /\ tail s = final None q.

Lemma final_cons p x q : final p (x :: q) = final (Some x) q.
Proof. unfold final. rewrite last_cons. by destruct (last q). Qed.
Lemma final_snoc p q x : final p (q ++ [x]) = Some x.
Proof. unfold final. by rewrite last_snoc. Qed.
Lemma first_app q k n : first (q ++ k) n = first q (first k n).
Proof. by destruct q. Qed.
Lemma final_app p q k : final p (q ++ k) = final (final p q) k.
Proof.
  revert p. induction q as [|x q IH]; intros p; [done|]. simpl app. by rewrite !final_cons, IH.
Qed.

Lemma seg_app m p q1 q2 n :
  seg m p (q1 ++ q2) n <-> seg m p q1 (first q2 n) /\ seg m (final p q1) q2 n.
Proof.
  revert p. induction q1 as [|x q1 IH]; intros p; simpl.
  - unfold final. simpl. tauto.
  - rewrite IH, first_app, <- (final_cons p). tauto.
Qed.

Lemma seg_frame m m' p q n : (forall x, x ∈ q -> m' !! x = m !! x) -> seg m p q n -> seg m' p q n.
Proof.
  revert p. induction q as [|x q IH]; intros p Hm; [done|]. simpl. intros [Hx Hq]. split.
  - rewrite Hm by set_solver. done.
  - apply IH; [|done]. intros y Hy. apply Hm. set_solver.
Qed.
Lemma seg_alter f x m p q n : x ∉ q -> seg m p q n -> seg (alter f x m) p q n.
Proof. intros Hx. apply seg_frame. intros y Hy. apply lookup_alter_ne. by intros ->. Qed.
Lemma seg_insert e x m p q n : x ∉ q -> seg m p q n -> seg (<[x := e]> m) p q n.
Proof. intros Hx. apply seg_frame. intros y Hy. apply lookup_insert_ne. by intros ->. Qed.

Lemma seg_set_next m p q x n n' :
  x ∉ q -> seg m p (q ++ [x]) n -> seg (alter (set_next n') x m) p (q ++ [x]) n'.
Proof.
  intros Hx. rewrite !seg_app. simpl. intros (Hq & Hl & _). repeat split.
  - by apply seg_alter.
  - by rewrite lookup_alter, decide_True, Hl.
Qed.
Lemma seg_set_previous m p p' x q n :
  x ∉ q -> seg m p (x :: q) n -> seg (alter (set_previous p') x m) p' (x :: q) n.
Proof.
  intros Hx. simpl. intros [Hl Hq]. split.
  - by rewrite lookup_alter, decide_True, Hl.
  - by apply seg_alter.
Qed.

(** ** Unlinking and linking *)

Lemma entry_middle s q1 e q2 : repr s (q1 ++ e :: q2) ->
  entry s e = {| previous := final None q1; next := first q2 None |}.
Proof.
  intros (Hs & _). apply seg_app in Hs as [_ [He _]]. unfold entry. by rewrite He.
Qed.

(** The first assignment of [remove]: the entries before [e] now end in
    what follows it, and [e] itself is unchanged. *)
Lemma unlink_next s q1 e q2 n :
  e ∉ q1 -> NoDup q1 -> (forall x, x ∈ q1 -> x ∉ q2) -> repr s (q1 ++ e :: q2) -> n = first q2 None ->
  let s' := match final None q1 with
            | Some p => set_heap (alter (set_next n) p (heap s)) s
            | None => set_head n s
            end in
  exists h m, s' = set_queue h (tail s) m s /\ m !! e = heap s !! e /\
    h = first (q1 ++ q2) None /\ seg m None q1 n /\ seg m (Some e) q2 None.
Proof.
  intros He Hnd Hd (Hs & Hh & _) -> s'. apply seg_app in Hs as [H1 [Hm H2]].
  destruct q1 as [|p q1 _] using rev_ind.
  - unfold s'. simpl. by exists (first q2 None), (heap s).
  - unfold s'. rewrite final_snoc. eexists _, _. split; [reflexivity|].
    apply NoDup_app in Hnd as (_ & Hp & _).
    split; [apply lookup_alter_ne; intros ->; set_solver|].
    split; [by rewrite Hh, <- !app_assoc, !first_app; destruct q1|].
    split; [eapply seg_set_next; [|done]; intros H; by eapply (Hp _ H), list_elem_of_here|].
    apply seg_alter; [|done]. apply Hd. set_solver.
Qed.

(** The second: the entries after [e] now start after what precedes it. *)
Lemma unlink_previous m l q1 e q2 p :
  NoDup q2 -> (forall x, x ∈ q1 -> x ∉ q2) -> e ∉ q2 ->
  seg m None q1 (first q2 None) -> seg m (Some e) q2 None -> p = final None q1 ->
  l = final None (q1 ++ e :: q2) ->
  exists l' m', (match first q2 None with
                 | Some n => (l, alter (set_previous p) n m)
                 | None => (p, m)
                 end) = (l', m') /\
    l' = final None (q1 ++ q2) /\ seg m' None (q1 ++ q2) None.
Proof.
  intros Hnd Hd He H1 H2 -> ->. destruct q2 as [|n q2]; simpl.
  - eexists _, _. split; [reflexivity|]. rewrite app_nil_r. by split.
  - eexists _, _. split; [reflexivity|]. apply NoDup_cons in Hnd as [Hn Hnd].
    split; [by rewrite !final_app, !final_cons|]. apply seg_app. split.
    + apply seg_alter; [|done]. intros H. by eapply (Hd _ H), list_elem_of_here.
    + by eapply seg_set_previous.
Qed.

Lemma remove_repr s q1 e q2 :
  NoDup (q1 ++ e :: q2) -> repr s (q1 ++ e :: q2) ->
  exists h l m, remove e s = set_queue h l m s /\ repr (set_queue h l m s) (q1 ++ q2).
Proof.
  intros Hnd Hr. pose proof (entry_middle _ _ _ _ Hr) as He.
  apply NoDup_app in Hnd as (Hn1 & Hd & [Hn2 Hn3]%NoDup_cons).
  assert (e ∉ q1) as Hn0 by (intros H; by eapply (Hd _ H), list_elem_of_here).
  assert (forall x, x ∈ q1 -> x ∉ q2) as Hd' by set_solver.
  destruct (unlink_next s q1 e q2 _ Hn0 Hn1 Hd' Hr eq_refl) as (h & m & Es & Em & -> & H1 & H2).
  destruct (unlink_previous m (tail s) q1 e q2 _ Hn3 Hd' Hn2 H1 H2 eq_refl (proj2 (proj2 Hr)))
    as (l & m' & Em' & -> & H3).
  unfold remove. rewrite He. cbn [previous next]. rewrite Es. clear Es.
  assert (entry (set_queue (first (q1 ++ q2) None) (tail s) m s) e = entry s e) as ->
    by (unfold entry; simpl; by rewrite Em).
  rewrite He. cbn [previous next]. exists (first (q1 ++ q2) None), (final None (q1 ++ q2)),
    (alter (fun _ => null_entry) e m'). split.
  - destruct (first q2 None); injection Em' as <- <-; reflexivity.
  - split; [|done]. simpl. apply seg_alter; [set_solver|done].
Qed.

(** ** The invariant of the queue *)

Abbreviation increasing := (StronglySorted lt).

Lemma increasing_NoDup l : increasing l -> NoDup l.
Proof.
  induction 1 as [|x l Hs IH Hx]; constructor; [|done].
  intros H. pose proof (proj1 (Forall_forall _ _) Hx x H). lia.
Qed.
Lemma increasing_app l k :
  increasing (l ++ k) <-> increasing l /\ increasing k /\ forall x y, x ∈ l -> y ∈ k -> (x < y)%nat.
Proof.
  induction l as [|a l IH]; simpl; [split; [intros H; split; [constructor|set_solver]|tauto]|].
  rewrite !StronglySorted_cons, IH, Forall_app, !Forall_forall. set_solver.
Qed.
Lemma increasing_filter (P : nat -> Prop) `{forall x, Decision (P x)} l :
  increasing l -> increasing (base.filter P l).
Proof.
  induction 1 as [|x l Hs IH Hx]; [constructor|]. rewrite filter_cons.
  destruct (decide (P x)); [|done]. constructor; [done|].
  apply Forall_forall. intros y [_ Hy]%list_elem_of_filter. by apply (proj1 (Forall_forall _ _) Hx).
Qed.

(** The operations that were accepted and not settled, in order. *)
Definition in_flight (q : queue) : list nat := option_list (q_running q) ++ q_waiting q.

Record q_inv (q : queue) : Prop := {
  inv_order : increasing (in_flight q);
  inv_fresh : forall e, e ∈ in_flight q -> (e < q_fresh q)%nat;
  inv_listeners : forall e, e ∈ q_listeners q -> e ∈ q_waiting q;
}.

Record represents (s : t) (q : queue) : Prop := {
  r_max : maxPending s = q_max q;
  r_closed : closed s = q_closed q;
  r_pending : pending s = q_pending q;
  r_active : active s = match q_running q with Some _ => true | None => false end;
  r_queue : repr s (q_waiting q);
  r_idle : idle s = q_idle q;
  r_fresh : fresh s = q_fresh q;
  r_listeners : listeners s = q_listeners q;
  r_pumps : pumps s = q_pumps q;
  r_running : running s = option_list (q_running q);
  r_inv : q_inv q;
}.

Lemma waiting_NoDup q : q_inv q -> NoDup (q_waiting q).
Proof. intros [H _ _]. apply increasing_NoDup. by apply increasing_app in H as (_ & H & _). Qed.

(** Two results agree. *)
Definition agree (x : t * list output) (y : queue * list output) : Prop :=
  x.2 = y.2 /\ represents x.1 y.1.

Lemma pump_sim s q : represents s q -> agree (pump s) (q_dispatch q).
Proof.
  intros [Hm Hc Hp Ha Hq Hi Hf Hl Hn Hr Hv]. unfold pump, q_dispatch. rewrite Ha.
  destruct (q_running q) as [r|] eqn:Er; [by split; [done|constructor; simpl; rewrite ?Er]|].
  pose proof Hq as (_ & Hh & _). rewrite Hh.
  destruct (q_waiting q) as [|e w] eqn:Ew; simpl first; [by split; [done|constructor; simpl; rewrite ?Er, ?Ew]|].
  pose proof (waiting_NoDup q Hv) as Hnd. rewrite Ew in Hnd.
  destruct (remove_repr s [] e w Hnd Hq) as (h & l & m & -> & Hw).
  split; [done|]. constructor; simpl; try done.
  - rewrite Hp. unfold q_pending. simpl. rewrite Er, Ew, zlen_cons. lia.
  - by rewrite Hl.
  - by rewrite Hr.
  - destruct Hv as [H1 H2 H3]. unfold in_flight in *. rewrite Er, Ew in *. constructor; simpl; try done.
    intros x [Hx Hne]%elem_of_difference. apply H3 in Hx. set_solver.
Qed.

Lemma notify_sim s q : represents s q -> agree (notifyIdle s) (q_notify q).
Proof.
  intros H. pose proof H as [Hm Hc Hp Ha Hq Hi Hf Hl Hn Hr Hv]. unfold notifyIdle, q_notify. rewrite Hp.
  destruct (q_pending q =? 0); simpl; [|by split].
  split; simpl; [by rewrite Hi|]. constructor; simpl; try done. by destruct Hv.
Qed.

Lemma drain_sim w s q : represents s q -> agree (drain w s) (q_drain w q).
Proof.
  intros H. pose proof H as [Hm Hc Hp Ha Hq Hi Hf Hl Hn Hr Hv]. unfold drain, q_drain. rewrite Hp.
  destruct (q_pending q =? 0); simpl; [by split|].
  split; simpl; [done|]. constructor; simpl; try done; [by rewrite Hi|by destruct Hv].
Qed.

Lemma link_repr s q e m :
  e ∉ q -> repr s q ->
  m = match tail s with
      | Some l => alter (set_next (Some e)) l (<[e := {| previous := tail s; next := None |}]> (heap s))
      | None => <[e := {| previous := tail s; next := None |}]> (heap s)
      end ->
  NoDup q -> seg m None (q ++ [e]) None.
Proof.
  intros He (Hs & _ & Hl) -> Hnd. rewrite Hl. apply seg_app.
  destruct q as [|x q _] using rev_ind; simpl.
  - by rewrite lookup_insert, decide_True.
  - rewrite final_snoc. apply NoDup_app in Hnd as (_ & Hx & _). split; [|split; [|done]].
    + eapply (seg_set_next _ _ _ _ None); [|by apply seg_insert]. intros H. by eapply (Hx _ H), list_elem_of_here.
    + rewrite lookup_alter_ne by (intros ->; set_solver). by rewrite lookup_insert, decide_True.
Qed.

Lemma in_flight_fresh q : q_inv q -> q_fresh q ∉ in_flight q.
Proof. intros [_ H _] Hin%H. lia. Qed.

Lemma inv_accept q e : q_inv q -> e = q_fresh q ->
  increasing (in_flight q ++ [e]) /\ forall x, x ∈ in_flight q ++ [e] -> (x < S e)%nat.
Proof.
  intros [H1 H2 _] ->. split.
  - apply increasing_app. split; [done|]. split; [repeat constructor|].
    intros x y Hx ->%list_elem_of_singleton. by apply H2.
  - intros x [Hx%H2| ->%list_elem_of_singleton]%elem_of_app; lia.
Qed.

Lemma run_sim signal s q : represents s q -> agree (run signal s) (q_run signal q).
Proof.
  intros H. pose proof H as [Hm Hc Hp Ha Hq Hi Hf Hl Hn Hr Hv]. unfold run, q_run, full, q_full.
  rewrite Hc, Hm, Hp. destruct (q_closed q) eqn:Ec; [by split|].
  destruct (default false signal); [by split|].
  destruct (match q_max q with Some m => m <=? q_pending q | None => false end); [by split|].
  pose proof (in_flight_fresh q Hv) as Hfr.
  assert (q_fresh q ∉ q_waiting q) as Hw by (unfold in_flight in Hfr; set_solver).
  pose proof (link_repr s _ _ _ Hw Hq eq_refl (waiting_NoDup q Hv)) as Hlink.
  destruct (inv_accept q _ Hv eq_refl) as [Hv1 Hv2]. destruct Hq as (_ & Hh & Ht).
  cbn [set_fresh set_loop set_heap set_queue tail heap fresh] in *. rewrite Hf, Ht in *.
  split; [destruct signal; by destruct (final None (q_waiting q))|].
  assert (head (match final None (q_waiting q) with Some _ => s | None => set_head (Some (q_fresh q)) s end)
          = first (q_waiting q ++ [q_fresh q]) None) as Hhead.
  { destruct (q_waiting q) as [|x w]; [done|]. rewrite final_cons. unfold final. by destruct (last w). }
  constructor.
  all: try (destruct signal, (final None (q_waiting q)); simpl in *; by rewrite ?Hm, ?Hc, ?Ha, ?Hi, ?Hl, ?Hn, ?Hr).
  - destruct signal, (final None (q_waiting q)); simpl; rewrite Hp; unfold q_pending; simpl;
      rewrite zlen_app; unfold zlen; simpl; lia.
  - unfold repr. destruct signal, (final None (q_waiting q)); simpl in *; by rewrite final_snoc.
  - constructor; simpl.
    + unfold in_flight in *. by rewrite <- app_assoc in Hv1.
    + unfold in_flight in *. by rewrite <- app_assoc in Hv2.
    + pose proof (inv_listeners q Hv). destruct signal; set_solver.
Qed.

Lemma filter_absent (e : nat) (q : list nat) : e ∉ q -> base.filter (fun x => x <> e) q = q.
Proof.
  induction q as [|x q IH]; intros He; [done|]. rewrite filter_cons, decide_True by set_solver.
  f_equal. apply IH. set_solver.
Qed.
Lemma filter_ne (e : nat) (q1 q2 : list nat) : e ∉ q1 -> e ∉ q2 -> base.filter (fun x => x <> e) (q1 ++ e :: q2) = q1 ++ q2.
Proof.
  intros H1 H2. rewrite filter_app, filter_cons, decide_False by (by intros []).
  by rewrite !filter_absent.
Qed.

Lemma abort_sim e s q : represents s q -> e ∈ q_listeners q ->
  agree (abort e s)
    (let q := q_with (base.filter (fun x => x <> e) (q_waiting q)) (q_running q) (q_idle q)
                (q_listeners q ∖ {[e]}) q in
     let '(q, o) := q_notify q in (q, Cancelled e :: o)).
Proof.
  intros [Hm Hc Hp Ha Hq Hi Hf Hl Hn Hr Hv] He. pose proof (inv_listeners q Hv e He) as Hw.
  apply list_elem_of_split in Hw as (q1 & q2 & Ew). pose proof (waiting_NoDup q Hv) as Hnd. rewrite Ew in Hq, Hnd.
  pose proof Hnd as (_ & Hd & [H2 _]%NoDup_cons)%NoDup_app.
  assert (e ∉ q1) as H1 by (intros H; by eapply (Hd _ H), list_elem_of_here).
  destruct (remove_repr s q1 e q2 Hnd Hq) as (h & l & m & E & Hw).
  unfold abort. rewrite E. cbv zeta. set (q' := q_with _ _ _ _ _).
  assert (represents (set_pending (pending (detach e (set_queue h l m s)) - 1)
            (detach e (set_queue h l m s))) q') as Hq'.
  { constructor; simpl; try done.
    - rewrite Hp. unfold q_pending. simpl. rewrite Ew, (filter_ne e q1 q2 H1 H2), !zlen_app, zlen_cons. lia.
    - by rewrite Ew, (filter_ne e q1 q2 H1 H2).
    - by rewrite Hl.
    - destruct Hv as [V1 V2 V3]. unfold in_flight in *. constructor; simpl.
      + apply increasing_app in V1 as (V1 & V1' & V1''). apply increasing_app. split; [done|].
        split; [by apply increasing_filter|]. intros x y Hx [_ Hy]%list_elem_of_filter. by apply V1''.
      + intros x [Hx|[_ Hx]%list_elem_of_filter]%elem_of_app; apply V2, elem_of_app; auto.
      + intros x [Hx Hne]%elem_of_difference. apply list_elem_of_filter. split; [set_solver|by apply V3]. }
  destruct (notify_sim _ _ Hq') as [Ho Hs].
  destruct (notifyIdle _) as [s1 o1], (q_notify q') as [q1' o1']. simpl in *. by subst.
Qed.

Lemma inv_settle q e : q_inv q -> q_running q = Some e ->
  q_inv (q_with (q_waiting q) None (q_idle q) (q_listeners q) q).
Proof.
  intros [V1 V2 V3] He. unfold in_flight in *. rewrite He in V1, V2. simpl in *.
  apply StronglySorted_cons in V1 as [_ V1]. constructor; simpl; [done| |done].
  intros x Hx. apply V2. set_solver.
Qed.

Lemma finish_sim e success s q : represents s q -> q_running q = Some e ->
  agree (finish e success (set_running (base.filter (fun x => x <> e) (running s)) s))
    (let q := q_with (q_waiting q) None (q_idle q) (q_listeners q) q in
     let '(q, o1) := q_dispatch q in
     let '(q, o2) := q_notify q in (q, o1 ++ [Settled e success] ++ o2)).
Proof.
  intros [Hm Hc Hp Ha Hq Hi Hf Hl Hn Hr Hv] He. unfold finish. cbv zeta. set (q0 := q_with _ _ _ _ _).
  set (s0 := set_pending _ _).
  assert (represents s0 q0) as H0.
  { constructor; simpl; try done.
    - rewrite Hp. unfold q_pending. simpl. rewrite He. lia.
    - rewrite Hr, He. simpl. rewrite filter_cons, decide_False by (by intros []). done.
    - by apply (inv_settle q e). }
  destruct (pump_sim _ _ H0) as [Ho H1].
  destruct (pump s0) as [s1 o1], (q_dispatch q0) as [q1 o1']. simpl in *. subst o1'.
  destruct (notify_sim _ _ H1) as [Ho' H2].
  destruct (notifyIdle s1) as [s2 o2], (q_notify q1) as [q2 o2']. simpl in *. by subst.
Qed.

Definition agree_opt (x : option (t * list output)) (y : option (queue * list output)) : Prop :=
  match x, y with
  | Some x, Some y => agree x y
  | None, None => True
  | _, _ => False
  end.

Lemma step_sim ev s q : represents s q -> agree_opt (step ev s) (q_step ev q).
Proof.
  intros H. pose proof H as [Hm Hc Hp Ha Hq Hi Hf Hl Hn Hr Hv]. destruct ev as [signal|e| |e ok|w|w]; simpl.
  - by apply run_sim.
  - rewrite Hl. case_bool_decide as He; [|done].
    pose proof (abort_sim e s q H He) as Hs. cbv zeta in *. by destruct (q_notify _).
  - rewrite Hn. destruct (q_pumps q) as [|p] eqn:E; [done|]. apply pump_sim.
    constructor; simpl; try done. by destruct Hv.
  - rewrite Hr. destruct (decide (q_running q = Some e)) as [He|He].
    + rewrite (bool_decide_eq_true_2 (e ∈ _)) by (rewrite He; simpl; set_solver).
      rewrite bool_decide_eq_true_2 by done. pose proof (finish_sim e ok s q H He) as Hs.
      rewrite Hr in Hs. cbv zeta in *. destruct (q_dispatch _) as [q1 o1]. by destruct (q_notify q1).
    + rewrite (bool_decide_eq_false_2 (q_running q = Some e)) by done.
      rewrite bool_decide_eq_false_2; [done|]. destruct (q_running q); set_solver.
  - by apply drain_sim.
  - apply drain_sim. constructor; simpl; try done. by destruct Hv.
Qed.

Lemma exec_sim evs : forall s q, represents s q -> agree_opt (exec evs s) (q_exec evs q).
Proof.
  induction evs as [|ev evs IH]; intros s q H; [by split|]. simpl.
  pose proof (step_sim ev s q H) as Hs.
  destruct (step ev s) as [[s1 o1]|], (q_step ev q) as [[q1 o1']|]; try done.
  destruct Hs as [Ho Hs]. simpl in *. subst o1'. specialize (IH s1 q1 Hs).
  destruct (exec evs s1) as [[s2 o2]|], (q_exec evs q1) as [[q2 o2']|]; try done.
  destruct IH as [Ho IH]. simpl in *. by subst.
Qed.

Lemma make_sim max s : make max = Ok s -> represents s (q_make max).
Proof.
  unfold make. destruct (negb _); [done|]. intros [= <-]. constructor; try done.
  constructor; unfold in_flight; simpl; [constructor|set_solver|set_solver].
Qed.

(** C30: the linked list with its counters implements a plain FIFO queue: for
    every sequence of calls and event-loop callbacks the executor and the
    queue allow the same steps and produce the same acceptances, refusals,
    dispatches, settlements and drain notifications in the same order, and
    the final states correspond. *)
Theorem serial_refines (max : option Z) (evs : list event) (s0 : t) :
  make max = Ok s0 -> agree_opt (exec evs s0) (q_exec evs (q_make max)).
Proof. intros H. by apply exec_sim, make_sim. Qed.

Lemma serial_refines_witness :
  match make (Some 3) with
  | Ok s0 => agree_opt (exec [ERun None; ERun (Some false); ERun None; EAbort 1; EPump; EFinish 0 true] s0)
               (q_exec [ERun None; ERun (Some false); ERun None; EAbort 1; EPump; EFinish 0 true]
                  (q_make (Some 3)))
  | Throw _ => False
  end.
Proof. apply (serial_refines (Some 3)). reflexivity. Defined.

(** ** What a history of outputs says *)

Definition accepted : list output -> list nat :=
  omap (fun o => match o with Accepted e => Some e | _ => None end).
Definition dispatched : list output -> list nat :=
  omap (fun o => match o with Dispatched e => Some e | _ => None end).
Definition settled : list output -> list nat :=
  omap (fun o => match o with Settled e _ => Some e | _ => None end).
Definition cancelled : list output -> list nat :=
  omap (fun o => match o with Cancelled e => Some e | _ => None end).

(** Entries that can still be dispatched from [q] on. *)
Definition later (q : queue) (e : nat) : Prop := e ∈ q_waiting q \/ (q_fresh q <= e)%nat.

(** The bookkeeping between two states: the entries accepted are the next
    ones, each entry in flight before or accepted meanwhile is settled,
    cancelled or in flight after, each dispatched one is settled or running,
    and dispatches go in order. *)
Record ledger (q : queue) (acc dis set can : list nat) (q' : queue) : Prop := {
  l_fresh : (q_fresh q <= q_fresh q')%nat;
  l_accepted : acc = seq (q_fresh q) (q_fresh q' - q_fresh q);
  l_flight : in_flight q ++ acc ≡ₚ set ++ can ++ in_flight q';
  l_running : option_list (q_running q) ++ dis ≡ₚ set ++ option_list (q_running q');
  l_later : forall e, later q' e -> later q e;
  l_dispatched : forall e, e ∈ dis -> later q e /\ forall e', later q' e' -> (e < e')%nat;
  l_order : increasing dis;
}.
Definition ledger_of (q : queue) (os : list output) (q' : queue) : Prop :=
  ledger q (accepted os) (dispatched os) (settled os) (cancelled os) q'.

Lemma ledger_trans q1 q2 q3 a1 d1 s1 c1 a2 d2 s2 c2 :
  ledger q1 a1 d1 s1 c1 q2 -> ledger q2 a2 d2 s2 c2 q3 ->
  ledger q1 (a1 ++ a2) (d1 ++ d2) (s1 ++ s2) (c1 ++ c2) q3.
Proof.
  intros [F1 A1 P1 R1 L1 D1 O1] [F2 A2 P2 R2 L2 D2 O2]. constructor.
  - lia.
  - rewrite A1, A2. replace (q_fresh q2) with (q_fresh q1 + (q_fresh q2 - q_fresh q1))%nat at 2 by lia.
    rewrite <- seq_app. f_equal. lia.
  - rewrite app_assoc, P1, <- !app_assoc, P2. solve_Permutation.
  - rewrite app_assoc, R1, <- !app_assoc, R2. solve_Permutation.
  - auto.
  - intros e [He|He]%elem_of_app.
    + destruct (D1 e He) as [Hl Hb]. split; [done|]. auto.
    + destruct (D2 e He) as [Hl Hb]. auto.
  - apply increasing_app. repeat split; try done. intros x y Hx Hy.
    apply (D1 x Hx). by apply (D2 y Hy).
Qed.

Lemma ledger_refl q : ledger q [] [] [] [] q.
Proof.
  constructor; try done.
  - by rewrite Nat.sub_diag.
  - by rewrite app_nil_r.
  - by rewrite app_nil_r.
  - by intros e He%not_elem_of_nil.
  - constructor.
Qed.

Lemma ledger_app q1 q2 q3 o1 o2 :
  ledger_of q1 o1 q2 -> ledger_of q2 o2 q3 -> ledger_of q1 (o1 ++ o2) q3.
Proof.
  unfold ledger_of, accepted, dispatched, settled, cancelled. rewrite !omap_app. apply ledger_trans.
Qed.

Lemma ledger_same q q' :
  q_fresh q' = q_fresh q -> q_waiting q' = q_waiting q -> q_running q' = q_running q ->
  ledger q [] [] [] [] q'.
Proof.
  intros E1 E2 E3. destruct (ledger_refl q). constructor; unfold later, in_flight in *; by rewrite ?E1, ?E2, ?E3.
Qed.

Lemma ledger_cancel q e i ls : e ∈ q_waiting q -> q_inv q ->
  ledger q [] [] [] [e] (q_with (base.filter (fun x => x <> e) (q_waiting q)) (q_running q) i ls q).
Proof.
  intros He Hv. pose proof (waiting_NoDup q Hv) as Hnd.
  apply list_elem_of_split in He as (q1 & q2 & Ew). rewrite Ew in Hnd.
  pose proof Hnd as (_ & Hd & [H2 _]%NoDup_cons)%NoDup_app.
  assert (e ∉ q1) as H1 by (intros H; by eapply (Hd _ H), list_elem_of_here).
  constructor; simpl; try done.
  - by rewrite Nat.sub_diag.
  - unfold in_flight. simpl. rewrite Ew, (filter_ne e q1 q2 H1 H2). solve_Permutation.
  - by rewrite app_nil_r.
  - unfold later. simpl. intros x [[_ Hx]%list_elem_of_filter|Hx]; auto.
  - by intros x Hx%not_elem_of_nil.
  - constructor.
Qed.

Lemma ledger_settle q e i ls : q_running q = Some e ->
  ledger q [] [] [e] [] (q_with (q_waiting q) None i ls q).
Proof.
  intros He. constructor; simpl; try done.
  - by rewrite Nat.sub_diag.
  - unfold in_flight. rewrite He. simpl. by rewrite app_nil_r.
  - by rewrite He.
  - by intros x Hx%not_elem_of_nil.
  - constructor.
Qed.

Lemma ledger_dispatch q : q_inv q -> ledger_of q (q_dispatch q).2 (q_dispatch q).1.
Proof.
  intros Hv. unfold q_dispatch, ledger_of. destruct (q_running q) as [r|] eqn:Er; [apply ledger_refl|].
  destruct (q_waiting q) as [|e w] eqn:Ew; [apply ledger_refl|]. cbn.
  destruct Hv as [V1 V2 _]. unfold in_flight in *. rewrite Er, Ew in *. simpl in *.
  constructor; unfold in_flight, later; simpl; rewrite ?Er, ?Ew; try done.
  - by rewrite Nat.sub_diag.
  - by rewrite app_nil_r.
  - intros x [Hx|Hx]; [left; set_solver|auto].
  - intros x ->%list_elem_of_singleton. split; [set_solver|].
    apply StronglySorted_cons in V1 as [V1 _]. intros y [Hy|Hy].
    + exact (proj1 (Forall_forall _ _) V1 y Hy).
    + pose proof (V2 e (list_elem_of_here _ _)). lia.
  - repeat constructor.
Qed.

Lemma omap_drained {B} (f : output -> option B) ws : (forall w, f (Drained w) = None) -> omap f (map Drained ws) = [].
Proof. intros Hf. induction ws as [|w ws IH]; [done|]. simpl. by rewrite Hf. Qed.

Lemma ledger_drained q q' ws :
  q_fresh q' = q_fresh q -> q_waiting q' = q_waiting q -> q_running q' = q_running q ->
  ledger_of q (map Drained ws) q'.
Proof.
  intros. unfold ledger_of, accepted, dispatched, settled, cancelled.
  rewrite !omap_drained by done. by apply ledger_same.
Qed.

Lemma ledger_notify q : ledger_of q (q_notify q).2 (q_notify q).1.
Proof. unfold q_notify. destruct (q_pending q =? 0); simpl; [by apply ledger_drained|apply ledger_refl]. Qed.

Lemma ledger_drain w q : ledger_of q (q_drain w q).2 (q_drain w q).1.
Proof.
  unfold q_drain. destruct (q_pending q =? 0); simpl; [by apply (ledger_drained q q [w])|by apply ledger_same].
Qed.

Lemma ledger_accept signal q : q_inv q -> ledger_of q (q_run signal q).2 (q_run signal q).1.
Proof.
  intros Hv. unfold q_run. destruct (q_closed q); [apply ledger_refl|].
  destruct (default false signal); [apply ledger_refl|]. destruct (q_full q); [apply ledger_refl|].
  unfold ledger_of. cbn. constructor; unfold in_flight, later; simpl; try (lia || done).
  - by replace (S (q_fresh q) - q_fresh q)%nat with 1%nat by lia.
  - solve_Permutation.
  - by rewrite app_nil_r.
  - intros x [[Hx| ->%list_elem_of_singleton]%elem_of_app|Hx]; [auto|by right|right; lia].
  - by intros x Hx%not_elem_of_nil.
  - constructor.
Qed.

Lemma q_step_ledger ev q q' o : q_inv q -> q_step ev q = Some (q', o) -> ledger_of q o q'.
Proof.
  intros Hv. destruct ev as [signal|e| |e ok|w|w]; simpl.
  - pose proof (ledger_accept signal q Hv). intros [= E]. by rewrite E in *.
  - case_bool_decide as He; [|done]. apply (inv_listeners q Hv) in He.
    pose proof (ledger_cancel q e (q_idle q) (q_listeners q ∖ {[e]}) He Hv) as H1.
    pose proof (ledger_notify (q_with (base.filter (fun x => x <> e) (q_waiting q)) (q_running q) (q_idle q)
      (q_listeners q ∖ {[e]}) q)) as H2.
    destruct (q_notify _) as [q1 o1]. intros [= <- <-]. by apply (ledger_app _ _ _ [Cancelled e] o1 H1).
  - destruct (q_pumps q) as [|p]; [done|].
    assert (q_inv (q_set_pumps p q)) as Hv' by (by destruct Hv).
    pose proof (ledger_dispatch _ Hv') as H. intros [= E]. rewrite E in H.
    by apply (ledger_app q (q_set_pumps p q) _ [] o); [apply ledger_same|].
  - case_bool_decide as He; [|done].
    pose proof (ledger_settle q e (q_idle q) (q_listeners q) He) as H1.
    pose proof (ledger_dispatch _ (inv_settle q e Hv He)) as H2. unfold ledger_of in *.
    destruct (q_dispatch (q_with (q_waiting q) None (q_idle q) (q_listeners q) q)) as [q1 o1] eqn:Ed.
    pose proof (ledger_notify q1) as H3. destruct (q_notify q1) as [q2 o2]. intros [= <- <-].
    pose proof (ledger_app _ _ _ [Settled e ok] (o1 ++ o2) H1 (ledger_app _ _ _ _ _ H2 H3)) as H.
    assert (exists l, o1 = map Dispatched l) as [l ->].
    { unfold q_dispatch in Ed. destruct (q_running _), (q_waiting _); injection Ed as _ <-;
        first [by exists [] | by eexists [_]]. }
    clear -H. revert H. unfold ledger_of, accepted, dispatched, settled, cancelled.
    rewrite !omap_app. simpl.
    assert (omap (fun o => match o with Settled e _ => Some e | _ => None end) (map Dispatched l) = []) as ->
      by (induction l; done). by rewrite !app_nil_l.
  - pose proof (ledger_drain w q). intros [= E]. by rewrite E in *.
  - pose proof (ledger_drain w (q_set_closed q)) as H. intros [= E]. rewrite E in H.
    by apply (ledger_app q (q_set_closed q) _ [] o); [apply ledger_same|].
Qed.

(** Steps of the executor follow the queue. *)
Lemma step_follow ev s q s' o : represents s q -> step ev s = Some (s', o) ->
  exists q', q_step ev q = Some (q', o) /\ represents s' q'.
Proof.
  intros H E. pose proof (step_sim ev s q H) as Hs. rewrite E in Hs.
  destruct (q_step ev q) as [[q' o']|]; [|done]. destruct Hs as [Ho Hs]. simpl in *. subst. by exists q'.
Qed.

Lemma exec_cons ev evs s s' os : exec (ev :: evs) s = Some (s', os) ->
  exists s1 o1 o2, step ev s = Some (s1, o1) /\ exec evs s1 = Some (s', o2) /\ os = o1 ++ o2.
Proof.
  simpl. destruct (step ev s) as [[s1 o1]|]; [|done]. simpl.
  destruct (exec evs s1) as [[s2 o2]|] eqn:E; [|done]. simpl. intros [= <- <-]. eauto 10.
Qed.

Lemma step_max ev s s' o : step ev s = Some (s', o) -> maxPending s' = maxPending s.
Proof.
  assert (forall e s, maxPending (remove e s) = maxPending s) as Hrm.
  { intros e s1. unfold remove. by repeat case_match. }
  assert (forall s, maxPending (pump s).1 = maxPending s) as Hpump.
  { intros s1. unfold pump. destruct (active s1), (head s1); try done. apply Hrm. }
  assert (forall s, maxPending (notifyIdle s).1 = maxPending s) as Hni by (intros s1; unfold notifyIdle; by case_match).
  destruct ev as [signal|e| |e ok|w|w]; simpl.
  - intros [= E]. unfold run in E. by repeat case_match; simplify_eq/=.
  - case_bool_decide; [|done]. unfold abort. set (s1 := set_pending _ _). pose proof (Hni s1) as H1.
    destruct (notifyIdle s1). intros [= <- <-]. simpl in *. rewrite H1. apply Hrm.
  - case_match; [done|]. intros [= E]. pose proof (Hpump (set_pumps n s)) as H1. by rewrite E in H1.
  - case_bool_decide; [|done]. unfold finish. set (s1 := set_pending _ _). pose proof (Hpump s1) as H1.
    destruct (pump s1) as [s2 o2]. pose proof (Hni s2) as H2. destruct (notifyIdle s2).
    intros [= <- <-]. simpl in *. by rewrite H2.
  - intros [= E]. unfold drain in E. by repeat case_match; simplify_eq/=.
  - intros [= E]. unfold close, drain in E. by repeat case_match; simplify_eq/=.
Qed.

Lemma exec_max evs : forall s0 s os, exec evs s0 = Some (s, os) -> maxPending s = maxPending s0.
Proof.
  induction evs as [|ev evs IH]; intros s0 s os E; [by injection E as <- <-|].
  apply exec_cons in E as (s1 & o1 & o2 & E1 & E2 & ->). by rewrite (IH _ _ _ E2), (step_max _ _ _ _ E1).
Qed.

Lemma exec_ledger evs : forall s q s' os, represents s q -> exec evs s = Some (s', os) ->
  exists q', represents s' q' /\ ledger_of q os q'.
Proof.
  induction evs as [|ev evs IH]; intros s q s' os H E.
  - injection E as <- <-. exists q. split; [done|apply ledger_refl].
  - apply exec_cons in E as (s1 & o1 & o2 & E1 & E2 & ->).
    destruct (step_follow ev s q s1 o1 H E1) as (q1 & Eq & H1).
    destruct (IH s1 q1 s' o2 H1 E2) as (q' & H2 & L2). exists q'. split; [done|].
    eapply ledger_app; [|done]. eapply q_step_ledger; [|done]. by destruct H.
Qed.

(** Operations run one at a time, in the order they were accepted, and
    each settles once.  After any history at most one operation is running;
    the accepted ones are numbered in order; they are dispatched in that
    order; every accepted one is settled, cancelled while still queued,
    running or queued, exactly one of these; only dispatched ones settle. *)
Theorem serial_order (max : option Z) (evs : list event) (s0 s : t) (os : list output) :
  make max = Ok s0 -> exec evs s0 = Some (s, os) ->
  (length (running s) <= 1)%nat /\
  accepted os = seq 0 (fresh s) /\
  increasing (dispatched os) /\
  dispatched os ≡ₚ settled os ++ running s /\
  exists waiting, repr s waiting /\ increasing waiting /\
    accepted os ≡ₚ settled os ++ cancelled os ++ running s ++ waiting.
Proof.
  intros Hm E. destruct (exec_ledger evs s0 _ s os (make_sim _ _ Hm) E) as (q & [] & []). simpl in *.
  rewrite r_running0, r_fresh0. split; [by destruct (q_running q); simpl; lia|].
  rewrite l_accepted0 at 1. rewrite Nat.sub_0_r. do 3 (split; [done|]). exists (q_waiting q).
  split; [done|]. split; [|done]. destruct r_inv0 as [H _ _]. by apply increasing_app in H as (_ & H & _).
Qed.

Definition sample_events : list event :=
  [ERun None; ERun (Some false); ERun None; EAbort 1; EPump; EFinish 0 false; EDrain 9].

Lemma serial_order_witness :
  exists s0 s os, make (Some 3) = Ok s0 /\ exec sample_events s0 = Some (s, os) /\
    (length (running s) <= 1)%nat /\ accepted os = seq 0 (fresh s) /\ increasing (dispatched os) /\
    dispatched os ≡ₚ settled os ++ running s /\
    exists waiting, repr s waiting /\ increasing waiting /\
      accepted os ≡ₚ settled os ++ cancelled os ++ running s ++ waiting.
Proof.
  do 3 eexists. split; [reflexivity|]. split; [vm_compute; reflexivity|].
  apply (serial_order (Some 3) sample_events _ _ _ eq_refl). vm_compute. reflexivity.
Defined.

(** ** Progress *)

Record q_live (q : queue) : Prop := {
  live_pump : q_waiting q <> [] -> q_running q = None -> (0 < q_pumps q)%nat;
  live_idle : q_pending q = 0 -> q_idle q = [];
  live_max : forall m, q_max q = Some m -> 1 <= m /\ q_pending q <= m;
}.

Lemma dispatch_live q :
  (q_pending q = 0 -> q_idle q = []) -> (forall m, q_max q = Some m -> 1 <= m /\ q_pending q <= m) ->
  q_live (q_dispatch q).1.
Proof.
  intros H1 H2. unfold q_dispatch.
  destruct (q_running q) as [r|] eqn:Er; [constructor; simpl; [congruence|done|done]|].
  destruct (q_waiting q) as [|e w] eqn:Ew; [by constructor; simpl; rewrite ?Ew|].
  unfold q_pending in *. rewrite Er, Ew, zlen_cons in *. pose proof (zlen_nonneg w).
  constructor; unfold q_pending; simpl; [done|lia|]. intros m Hm%H2. lia.
Qed.

Lemma notify_live q :
  (q_waiting q <> [] -> q_running q = None -> (0 < q_pumps q)%nat) ->
  (forall m, q_max q = Some m -> 1 <= m /\ q_pending q <= m) -> q_live (q_notify q).1.
Proof.
  intros H1 H2. unfold q_notify. destruct (Z.eqb_spec (q_pending q) 0); simpl; by constructor.
Qed.

Lemma q_step_live ev q q' o : q_inv q -> q_live q -> q_step ev q = Some (q', o) -> q_live q'.
Proof.
  intros Hv Hl. pose proof Hl as [H1 H2 H3]. destruct ev as [signal|e| |e ok|w|w]; simpl.
  - intros [= E]. unfold q_run in E. destruct (q_closed q); [by injection E as <-|].
    destruct (default false signal); [by injection E as <-|].
    destruct (q_full q) eqn:Ef; injection E as <- <-; [done|].
    unfold q_full in Ef. constructor; simpl; [lia| |].
    + unfold q_pending. simpl. rewrite zlen_app, zlen_cons. pose proof (zlen_nonneg (q_waiting q)).
      destruct (q_running q); unfold zlen; simpl; lia.
    + intros m Hm. destruct (H3 m Hm). rewrite Hm in Ef. apply Z.leb_gt in Ef. split; [done|].
      unfold q_pending in *. simpl. rewrite zlen_app. unfold zlen in *. simpl. lia.
  - case_bool_decide as He; [|done]. set (q0 := q_with _ _ _ _ _).
    assert (q_pending q0 <= q_pending q) as Hp.
    { unfold q_pending, q0, zlen. simpl. pose proof (length_filter (fun x => x <> e) (q_waiting q)). lia. }
    pose proof (notify_live q0) as Hn. destruct (q_notify q0) as [q1 o1]. intros [= <- _]. apply Hn.
    + unfold q0. simpl. intros Hw. apply H1. intros Ew. by rewrite Ew in Hw.
    + intros m Hm. destruct (H3 m Hm). lia.
  - destruct (q_pumps q) as [|p]; [done|]. intros [= E].
    pose proof (dispatch_live (q_set_pumps p q) H2 H3) as H. by rewrite E in H.
  - case_bool_decide as He; [|done]. set (q0 := q_with _ _ _ _ _).
    assert (q_pending q0 < q_pending q) as Hp by (unfold q_pending, q0; simpl; rewrite He; lia).
    assert (forall m, q_max q0 = Some m -> 1 <= m /\ q_pending q0 <= m) as Hm.
    { intros m Hm. destruct (H3 m Hm). lia. }
    assert (q_live (q_notify (q_dispatch q0).1).1) as Hd; [|
      destruct (q_dispatch q0) as [q1 o1]; simpl in Hd; destruct (q_notify q1) as [q2 o2];
      by intros [= <- _]].
    apply notify_live.
    + intros Hw Hr. exfalso. unfold q_dispatch in *. simpl in *. destruct (q_waiting q); done.
    + intros m. unfold q_dispatch. simpl. intros Hq. pose proof (Hm m) as Hm'. unfold q_pending in *.
      destruct (q_waiting q) as [|x w]; simpl in *; [by apply Hm'|]. rewrite zlen_cons in Hm'.
      destruct (Hm' Hq). lia.
  - intros [= E]. unfold q_drain in E. destruct (Z.eqb_spec (q_pending q) 0); injection E as <- <-; [done|].
    by constructor.
  - intros [= E]. unfold q_drain in E. destruct (Z.eqb_spec (q_pending (q_set_closed q)) 0); injection E as <- <-;
      by constructor.
Qed.

(** The callbacks the event loop makes on its own. *)
Definition loop_event (ev : event) : bool :=
  match ev with EPump => true | EFinish _ _ => true | _ => false end.

Lemma q_exec_cons ev evs q q1 o1 q2 o2 :
  q_step ev q = Some (q1, o1) -> q_exec evs q1 = Some (q2, o2) -> q_exec (ev :: evs) q = Some (q2, o1 ++ o2).
Proof. intros E1 E2. cbn [q_exec]. rewrite E1. simpl. by rewrite E2. Qed.

Lemma notify_waiting q :
  q_waiting (q_notify q).1 = q_waiting q /\ q_running (q_notify q).1 = q_running q.
Proof. unfold q_notify. by destruct (q_pending q =? 0). Qed.

Lemma finish_waiting q e : q_running q = Some e ->
  exists q1 o1, q_step (EFinish e true) q = Some (q1, o1) /\ q_waiting q1 = drop 1 (q_waiting q) /\
    q_running q1 = hd_error (q_waiting q).
Proof.
  intros He. cbn [q_step]. rewrite bool_decide_eq_true_2 by done. cbv zeta.
  unfold q_dispatch. cbn [q_running q_waiting q_with].
  destruct (q_waiting q) as [|x w].
  all: match goal with |- context [q_notify ?q0] => destruct (notify_waiting q0) as [Hw Hr];
         destruct (q_notify q0) as [q1 o1] end; simpl in *; eauto 10.
Qed.

(** With an operation running, finishing the operations one after the other
    empties the queue. *)
Lemma q_finish_all n : forall q, (length (q_waiting q) <= n)%nat -> q_running q <> None ->
  exists evs q' os, forallb loop_event evs = true /\ q_exec evs q = Some (q', os) /\ q_pending q' = 0.
Proof.
  induction n as [|n IH]; intros q Hn Hr; (destruct (q_running q) as [e|] eqn:He; [|done]);
    destruct (finish_waiting q e He) as (q1 & o1 & E & Hw & Hr1);
    (destruct (q_waiting q) as [|x w]; simpl in *; [|try lia]).
  1, 2: exists [EFinish e true], q1, (o1 ++ []); split; [done|]; split;
    [by eapply q_exec_cons|]; unfold q_pending; by rewrite Hw, Hr1.
  destruct (IH q1) as (evs & q' & os & H1 & H2 & H3); [rewrite Hw, drop_0; lia|by rewrite Hr1|].
  exists (EFinish e true :: evs), q', (o1 ++ os). split; [done|]. split; [by eapply q_exec_cons|done].
Qed.

Lemma q_drains q : q_live q ->
  exists evs q' os, forallb loop_event evs = true /\ q_exec evs q = Some (q', os) /\ q_pending q' = 0.
Proof.
  intros [Hp _ _]. destruct (q_running q) as [e|] eqn:Hr.
  - apply (q_finish_all (length (q_waiting q))); [lia|by rewrite Hr].
  - destruct (q_waiting q) as [|x w] eqn:Hw.
    + exists [], q, []. unfold q_pending. by rewrite Hw, Hr.
    + specialize (Hp ltac:(done) ltac:(done)). destruct (q_pumps q) as [|p] eqn:Hpump; [lia|].
      set (q1 := (q_dispatch (q_set_pumps p q)).1).
      destruct (q_finish_all (length w) q1) as (evs & q' & os & H1 & H2 & H3).
      * unfold q1, q_dispatch. simpl. by rewrite Hr, Hw.
      * unfold q1, q_dispatch. simpl. by rewrite Hr, Hw.
      * exists (EPump :: evs), q', ((q_dispatch (q_set_pumps p q)).2 ++ os). split; [done|].
        split; [|done]. eapply q_exec_cons; [|done]. simpl. rewrite Hpump. unfold q1. by destruct (q_dispatch _).
Qed.

Lemma exec_live evs : forall s q s' os, represents s q -> q_live q -> exec evs s = Some (s', os) ->
  exists q', represents s' q' /\ q_live q'.
Proof.
  induction evs as [|ev evs IH]; intros s q s' os H Hl E.
  - injection E as <- <-. by exists q.
  - apply exec_cons in E as (s1 & o1 & o2 & E1 & E2 & ->).
    destruct (step_follow ev s q s1 o1 H E1) as (q1 & Eq & H1).
    eapply IH; [done| |done]. eapply q_step_live; [by destruct H|done|done].
Qed.

Lemma make_live max s : make max = Ok s -> q_live (q_make max).
Proof.
  unfold make. intros H. constructor; try done. simpl. intros m ->. cbn zeta in H.
  destruct (Z.ltb_spec m 1); [by rewrite andb_false_r in H|]. unfold q_pending. simpl. unfold zlen. simpl. lia.
Qed.

(** No operation is lost.  After any history the number pending is within
    the capacity and counts the running and the queued operations; no drain
    waiter is left behind on an idle executor; and the callbacks already
    queued suffice to finish all the work: some sequence of pumps and
    completions leads to an idle executor whose drain waiters were told. *)
Theorem serial_progress (max : option Z) (evs : list event) (s0 s : t) (os : list output) :
  make max = Ok s0 -> exec evs s0 = Some (s, os) ->
  (forall m, max = Some m -> pending s <= m) /\
  (exists waiting, repr s waiting /\ pending s = zlen (running s) + zlen waiting) /\
  (pending s = 0 -> idle s = []) /\
  exists evs' s' os', forallb loop_event evs' = true /\ exec evs' s = Some (s', os') /\
    pending s' = 0 /\ idle s' = [].
Proof.
  intros Hm E.
  assert (exists q, represents s q /\ q_live q /\ q_max q = max) as (q & Hr & Hl & Hq).
  { destruct (exec_live evs s0 _ s os (make_sim _ _ Hm) (make_live _ _ Hm) E) as (q & Hr & Hl).
    exists q. split; [done|]. split; [done|]. rewrite <- (r_max _ _ Hr), (exec_max _ _ _ _ E).
    apply (r_max _ _ (make_sim _ _ Hm)). }
  pose proof Hr as [Hmax Hc Hp Ha Hqr Hi Hf Hls Hn Hrun Hv]. pose proof Hl as [L1 L2 L3].
  rewrite Hp, Hi. split; [intros m Em; apply L3; by rewrite Hq|].
  split; [exists (q_waiting q); split; [done|]; rewrite Hrun; unfold q_pending; destruct (q_running q);
    unfold zlen; simpl; lia|]. split; [done|].
  destruct (q_drains q Hl) as (evs' & q' & os' & H1 & H2 & H3).
  pose proof (exec_sim evs' s q Hr) as Hs. rewrite H2 in Hs.
  destruct (exec evs' s) as [[s' os'']|] eqn:E'; [|done]. destruct Hs as [_ Hs]. simpl in Hs.
  destruct (exec_live evs' s q s' os'' Hr Hl E') as (q'' & Hr'' & [_ L2' _]).
  exists evs', s', os''. split; [done|]. split; [done|].
  pose proof (r_pending _ _ Hs) as Hp'. rewrite H3 in Hp'. split; [done|].
  rewrite (r_idle _ _ Hr''). apply L2'. by rewrite <- (r_pending _ _ Hr'').
Qed.

Lemma serial_progress_witness :
  exists s0 s os, make (Some 3) = Ok s0 /\ exec sample_events s0 = Some (s, os) /\
  (forall m, Some 3 = Some m -> pending s <= m) /\
  (exists waiting, repr s waiting /\ pending s = zlen (running s) + zlen waiting) /\
  (pending s = 0 -> idle s = []) /\
  exists evs' s' os', forallb loop_event evs' = true /\ exec evs' s = Some (s', os') /\
    pending s' = 0 /\ idle s' = [].
Proof.
  do 3 eexists. split; [reflexivity|]. split; [vm_compute; reflexivity|].
  eapply (serial_progress (Some 3) sample_events); [reflexivity|vm_compute; reflexivity].
Defined.
End Serial.

(** * Executors selected by key *)

Module Keyed.
Import Serial.
Section keyed.
Context {K : Type} `{EqDecision K}.

(** [instances] are all the executors ever created, with the key they were
    created for; [executors] is the map from keys to them; [cleanups] are the
    queued [finally] callbacks of settled runs. *)
Record kt := {
  options : option Z;
  kclosed : bool;
  executors : list (K * nat);
  instances : list (K * Serial.t);
  cleanups : list (K * nat);
}.

Inductive kevent :=
| KRun (key : K) (signal : option bool)
| KLoop (i : nat) (ev : Serial.event)
| KCleanup (key : K) (i : nat)
| KDrain (waiter : nat)
| KClose (waiter : nat).

Definition kmake (max : option Z) : res kt :=
  _ ← Serial.make max;
  Ok {| options := max; kclosed := false; executors := []; instances := []; cleanups := [] |}.

Definition set_maps (es : list (K * nat)) (insts : list (K * Serial.t)) (st : kt) : kt :=
  {| options := options st; kclosed := kclosed st; executors := es; instances := insts; cleanups := cleanups st |}.
Definition set_cleanups (cs : list (K * nat)) (st : kt) : kt :=
  {| options := options st; kclosed := kclosed st; executors := executors st; instances := instances st;
     cleanups := cs |}.

(** The outputs that settle the promise of a run. *)
Definition settles (o : output) : bool :=
  match o with Settled _ _ | Cancelled _ | Refused _ => true | _ => false end.

(** An executor made a step: its settled runs queue their callbacks. *)
Definition after_step (key : K) (i : nat) (r : Serial.t * list output) (st : kt) : kt * list output :=
  (set_cleanups (cleanups st ++ map (fun _ => (key, i)) (List.filter settles r.2))
     (set_maps (executors st) (<[i := (key, r.1)]> (instances st)) st), r.2).

Definition krun (key : K) (signal : option bool) (st : kt) : res (kt * list output) :=
  if kclosed st then Ok (st, [Refused Closed])
  else
    '(st, i) ← (match JMap.get key (executors st) with
                | Some i => Ok (st, i)
                | None =>
                    executor ← Serial.make (options st);
                    let i := length (instances st) in
                    Ok (set_maps (JMap.set key i (executors st)) (instances st ++ [(key, executor)]) st, i)
                end);
    match instances st !! i with
    | Some (_, current) => Ok (after_step key i (Serial.run signal current) st)
    | None => Throw (TypeError "")
    end.

(** The callback that runs leaves the queue. *)
Fixpoint remove_first (c : K * nat) (cs : list (K * nat)) : list (K * nat) :=
  match cs with
  | [] => []
  | c' :: cs => if decide (c = c') then cs else c' :: remove_first c cs
  end.

(** The [finally] callback. *)
Definition cleanup (key : K) (i : nat) (st : kt) : kt :=
  match instances st !! i with
  | Some (_, current) =>
      if (pending current =? 0) && bool_decide (JMap.get key (executors st) = Some i)
      then set_maps (JMap.delete key (executors st)) (instances st) st else st
  | None => st
  end.

(** [[...this.#executors.values()].map(f)] *)
Definition alter_each (f : Serial.t -> Serial.t * list output) (es : list (K * nat))
  (insts : list (K * Serial.t)) : list (K * Serial.t) :=
  foldl (fun insts ki => alter (fun ks => (ks.1, (f ks.2).1)) ki.2 insts) insts es.
Definition each (f : Serial.t -> Serial.t * list output) (st : kt) : kt :=
  set_maps (executors st) (alter_each f (executors st) (instances st)) st.
Definition kdrain (waiter : nat) (st : kt) : kt := each (Serial.drain waiter) st.
Definition kclose (waiter : nat) (st : kt) : kt :=
  each (Serial.close waiter)
    {| options := options st; kclosed := true; executors := executors st; instances := instances st;
       cleanups := cleanups st |}.

Definition from_loop (ev : Serial.event) : bool :=
  match ev with EAbort _ | EPump | EFinish _ _ => true | _ => false end.

Definition kstep (ev : kevent) (st : kt) : option (kt * list output) :=
  match ev with
  | KRun key signal => match krun key signal st with Ok r => Some r | Throw _ => None end
  | KLoop i ev =>
      if from_loop ev then
        '(key, s) ← instances st !! i;
        r ← Serial.step ev s;
        Some (after_step key i r st)
      else None
  | KCleanup key i =>
      if bool_decide ((key, i) ∈ cleanups st)
      then Some (cleanup key i (set_cleanups (remove_first (key, i) (cleanups st)) st), [])
      else None
  | KDrain w => Some (kdrain w st, [])
  | KClose w => Some (kclose w st, [])
  end.

Inductive reachable (max : option Z) : kt -> Prop :=
| reach_new st : kmake max = Ok st -> reachable max st
| reach_step st ev st' o : reachable max st -> kstep ev st = Some (st', o) -> reachable max st'.

(** ** Facts of one executor *)

Lemma idle_queue s q : represents s q -> pending s = 0 -> q_waiting q = [] /\ q_running q = None.
Proof.
  intros H Hp. rewrite (r_pending _ _ H) in Hp. unfold q_pending, zlen in Hp.
  destruct (q_waiting q); [|simpl in Hp; destruct (q_running q); lia].
  destruct (q_running q); [simpl in Hp; lia|done].
Qed.

Lemma idle_step ev s q s' o : represents s q -> pending s = 0 -> from_loop ev = true ->
  step ev s = Some (s', o) -> pending s' = 0.
Proof.
  intros H Hp Hev E. destruct (idle_queue s q H Hp) as [Hw Hr].
  destruct (step_follow _ _ _ _ _ H E) as (q' & Eq & H'). rewrite (r_pending _ _ H').
  destruct ev as [sg|e| |e ok|w|w]; try done; simpl in Eq.
  - case_bool_decide as He; [|done]. apply (inv_listeners q (r_inv _ _ H)) in He.
    rewrite Hw in He. by apply not_elem_of_nil in He.
  - destruct (q_pumps q); [done|]. unfold q_dispatch in Eq. simpl in Eq. rewrite Hr, Hw in Eq.
    injection Eq as <- <-. unfold q_pending. simpl. by rewrite Hr, Hw.
  - by rewrite bool_decide_eq_false_2 in Eq by (by rewrite Hr).
Qed.

Lemma dispatch_pending q : q_pending (q_dispatch q).1 = q_pending q.
Proof.
  unfold q_dispatch. destruct (q_running q) eqn:Hr; [done|]. destruct (q_waiting q) eqn:Hw; [done|].
  unfold q_pending. simpl. rewrite Hr, Hw, zlen_cons. lia.
Qed.

(** An executor that becomes idle settles a run in the same step. *)
Lemma loop_settles ev s q s' o : represents s q -> from_loop ev = true -> step ev s = Some (s', o) ->
  pending s' = pending s \/ existsb settles o = true.
Proof.
  intros H Hev E. destruct (step_follow _ _ _ _ _ H E) as (q' & Eq & H').
  rewrite (r_pending _ _ H'), (r_pending _ _ H). destruct ev as [sg|e| |e ok|w|w]; try done; simpl in Eq.
  - case_bool_decide; [|done]. destruct (q_notify _). injection Eq as <- <-. by right.
  - destruct (q_pumps q) as [|p]; [done|]. left. injection Eq as Eq.
    pose proof (dispatch_pending (q_set_pumps p q)) as Hd. by rewrite Eq in Hd.
  - case_bool_decide; [|done]. destruct (q_dispatch _) as [q1 o1]. destruct (q_notify q1) as [q2 o2].
    injection Eq as <- <-. right. rewrite existsb_app. apply orb_true_r.
Qed.

Lemma run_settles signal s q : represents s q ->
  pending (run signal s).1 = 0 -> existsb settles (run signal s).2 = true.
Proof.
  intros H. destruct (run_sim signal s q H) as [Ho H']. rewrite Ho, (r_pending _ _ H').
  unfold q_run. destruct (q_closed q); [done|]. destruct (default false signal); [done|].
  destruct (q_full q); [done|]. unfold q_pending. simpl. rewrite zlen_app, zlen_cons.
  pose proof (zlen_nonneg (q_waiting q)). pose proof (zlen_nonneg (@nil nat)). destruct (q_running q); lia.
Qed.

(** ** The invariant *)

(** Executor [x], if any, may be idle without a queued callback. *)
Record kinv_except (x : option nat) (st : kt) : Prop := {
  k_queues : forall i k s, instances st !! i = Some (k, s) -> exists q, represents s q;
  k_orphans : forall i k s, instances st !! i = Some (k, s) ->
    JMap.get k (executors st) = Some i \/ pending s = 0;
  k_mapped : forall k i, JMap.get k (executors st) = Some i ->
    exists s, instances st !! i = Some (k, s) /\ (x <> Some i -> pending s = 0 -> (k, i) ∈ cleanups st);
  k_options : exists s, Serial.make (options st) = Ok s;
}.
Definition kinv := kinv_except None.

Lemma settles_queued (key : K) (i : nat) o : existsb settles o = true -> (key, i) ∈ map (fun _ => (key, i)) (List.filter settles o).
Proof.
  induction o as [|x o IH]; simpl; [done|]. destruct (settles x); simpl; [by left|].
  intros H. by apply IH.
Qed.

Lemma after_step_inv st key i s r :
  kinv_except (Some i) st -> instances st !! i = Some (key, s) -> (exists q, represents r.1 q) ->
  JMap.get key (executors st) = Some i \/ pending r.1 = 0 ->
  (JMap.get key (executors st) = Some i -> pending r.1 = 0 ->
   (key, i) ∈ cleanups st \/ existsb settles r.2 = true) ->
  kinv (after_step key i r st).1.
Proof.
  intros [Hq Ho Hm Hopt] Hi Hr Hor Hcl. assert (i < length (instances st))%nat as Hlt by (by eapply lookup_lt_Some).
  constructor; simpl; [| | |done].
  - intros j k s'. rewrite list_lookup_insert. case_decide as Hd; [|apply Hq].
    by intros [= <- <-].
  - intros j k s'. rewrite list_lookup_insert. case_decide as Hd; [|apply Ho].
    destruct Hd as [<- _]. by intros [= <- <-].
  - intros k j Hj. destruct (Hm k j Hj) as (s' & Hs' & Hc). rewrite list_lookup_insert.
    case_decide as Hd.
    + destruct Hd as [<- _]. rewrite Hi in Hs'. injection Hs' as <- <-. exists r.1. split; [done|].
      intros _ Hp. apply elem_of_app. destruct (Hcl Hj Hp) as [|Hs]; [by left|right]. by apply settles_queued.
    + exists s'. split; [done|]. intros _ Hp. apply elem_of_app. left. apply Hc; [|done].
      intros [= ->]. by apply Hd.
Qed.

Lemma kinv_weaken x st : kinv st -> kinv_except x st.
Proof.
  intros [H1 H2 H3 H4]. constructor; try done. intros k i Hi.
  destruct (H3 k i Hi) as (s & Hs & Hc). exists s. split; [done|]. intros _. by apply Hc.
Qed.

Lemma create_inv st key executor :
  kinv st -> JMap.get key (executors st) = None -> Serial.make (options st) = Ok executor ->
  let i := length (instances st) in
  kinv_except (Some i)
    (set_maps (JMap.set key i (executors st)) (instances st ++ [(key, executor)]) st).
Proof.
  intros [Hq Ho Hm Hopt] Hn Hmk i. constructor; simpl; [| | |done].
  - intros j k s [Hj|[_ Hj]]%lookup_app_Some; [by eapply Hq|].
    apply list_lookup_singleton_Some in Hj as [_ [= <- <-]]. eexists. by apply make_sim.
  - intros j k s [Hj|[Hle Hj]]%lookup_app_Some.
    + destruct (Ho j k s Hj) as [Hg|]; [|by right]. left. rewrite JMap.get_set_ne; [done|]. congruence.
    + apply list_lookup_singleton_Some in Hj as [Hj [= <- <-]]. left. rewrite JMap.get_set_eq. f_equal. lia.
  - intros k j. destruct (decide (k = key)) as [->|Hk].
    + rewrite JMap.get_set_eq. intros [= <-]. exists executor. split; [|done].
      by rewrite lookup_app_r, Nat.sub_diag by done.
    + rewrite JMap.get_set_ne by done. intros Hj. destruct (Hm k j Hj) as (s & Hs & Hc). exists s.
      split; [by apply lookup_app_l_Some|]. intros _ Hp. by apply Hc.
Qed.

(** A run on the executor that the map holds for the key. *)
Lemma run_current_inv st key signal i s :
  kinv_except (Some i) st -> JMap.get key (executors st) = Some i -> instances st !! i = Some (key, s) ->
  kinv (after_step key i (run signal s) st).1.
Proof.
  intros Hv Hg Hi. destruct (k_queues _ _ Hv _ _ _ Hi) as [q Hq].
  eapply after_step_inv; [done|done| |by left|].
  - exists (q_run signal q).1. by apply run_sim.
  - intros _ Hp. right. by eapply run_settles.
Qed.

Lemma krun_inv st key signal : kinv st -> exists r, krun key signal st = Ok r /\ kinv r.1.
Proof.
  intros Hv. unfold krun. destruct (kclosed st); [by eexists|].
  destruct (JMap.get key (executors st)) as [i|] eqn:Hg; cbn [mbind res_bind].
  - destruct (k_mapped _ _ Hv _ _ Hg) as (s & Hs & _). rewrite Hs. eexists. split; [reflexivity|].
    apply run_current_inv; [by apply kinv_weaken|done|done].
  - destruct (k_options _ _ Hv) as [executor Hmk]. rewrite Hmk. cbn [mbind res_bind instances set_maps].
    rewrite lookup_app_r, Nat.sub_diag by done. simpl. eexists. split; [reflexivity|].
    apply run_current_inv; simpl.
    + by apply create_inv.
    + apply JMap.get_set_eq.
    + by rewrite lookup_app_r, Nat.sub_diag by done.
Qed.

Lemma remove_first_other c c' cs : c' ∈ cs -> c' <> c -> c' ∈ remove_first c cs.
Proof.
  induction cs as [|x cs IH]; intros Hin Hne; [done|]. simpl. apply elem_of_cons in Hin as [->|Hin].
  - rewrite decide_False by congruence. by left.
  - destruct (decide (c = x)); [done|]. right. by apply IH.
Qed.

Lemma cleanup_inv st key i : kinv st -> (key, i) ∈ cleanups st ->
  kinv (cleanup key i (set_cleanups (remove_first (key, i) (cleanups st)) st)).
Proof.
  intros [Hq Ho Hm Hopt] Hin. unfold cleanup. simpl.
  assert (forall k j, JMap.get k (executors st) = Some j -> (k, j) <> (key, i) ->
    exists s, instances st !! j = Some (k, s) /\
      (pending s = 0 -> (k, j) ∈ remove_first (key, i) (cleanups st))) as Hother.
  { intros k j Hj Hne. destruct (Hm k j Hj) as (s & Hs & Hc). exists s. split; [done|].
    intros Hp. apply remove_first_other; [by apply Hc|done]. }
  destruct (instances st !! i) as [[k0 s0]|] eqn:Hi.
  - destruct (Z.eqb_spec (pending s0) 0) as [Hp|Hp]; simpl;
      [case_bool_decide as Hg; simpl|].
    + constructor; simpl; [done| | |done].
      * intros j k s Hj. destruct (decide (k = key)) as [->|Hk].
        -- destruct (Ho j key s Hj) as [Hg'|]; [|by right]. right.
           rewrite Hg in Hg'. injection Hg' as ->. rewrite Hi in Hj. by injection Hj as -> ->.
        -- rewrite JMap.get_delete_ne by done. by apply Ho.
      * intros k j. destruct (decide (k = key)) as [->|Hk]; [by rewrite JMap.get_delete_eq|].
        rewrite JMap.get_delete_ne by done. intros Hj.
        destruct (Hother k j Hj) as (s & Hs & Hc); [congruence|]. by exists s.
    + constructor; simpl; [done|done| |done]. intros k j Hj.
      destruct (Hother k j Hj) as (s & Hs & Hc); [congruence|]. by exists s.
    + constructor; simpl; [done|done| |done]. intros k j Hj.
      destruct (decide ((k, j) = (key, i))) as [[= -> ->]|Hne].
      * destruct (Hm key i Hj) as (s & Hs & _). exists s. split; [done|]. intros _ Hp'.
        rewrite Hi in Hs. injection Hs as -> ->. done.
      * destruct (Hother k j Hj Hne) as (s & Hs & Hc). by exists s.
  - constructor; simpl; [done|done| |done]. intros k j Hj.
    destruct (Hother k j Hj) as (s & Hs & Hc); [|by exists s]. intros [= -> ->].
    destruct (Hm key i Hj) as (s & Hs & _). congruence.
Qed.

(** Calls that leave the queue of an executor alone. *)
Definition quiet (s s' : Serial.t) : Prop :=
  pending s' = pending s /\ forall q, represents s q -> exists q', represents s' q'.

#[local] Instance quiet_preorder : PreOrder quiet.
Proof.
  split.
  - intros s. split; [done|]. intros q Hq. by exists q.
  - intros s1 s2 s3 [E1 H1] [E2 H2]. split; [congruence|]. intros q Hq. destruct (H1 q Hq) as [q2 Hq2].
    by apply (H2 q2).
Qed.

Lemma each_lookup (f : Serial.t -> Serial.t * list output) es : (forall s, quiet s (f s).1) ->
  forall insts j k s', alter_each f es insts !! j = Some (k, s') ->
  exists s, insts !! j = Some (k, s) /\ quiet s s'.
Proof.
  intros Hf. induction es as [|[k0 i] es IH]; intros insts j k s' E; [by exists s'|].
  simpl in E. destruct (IH _ _ _ _ E) as (s1 & E1 & Hq). destruct (decide (i = j)) as [->|Hne].
  - rewrite list_lookup_alter_eq in E1. destruct (insts !! j) as [[k1 s]|]; [|done].
    injection E1 as <- <-. exists s. split; [done|]. by etrans; [apply Hf|].
  - rewrite list_lookup_alter_ne in E1 by done. by exists s1.
Qed.

Lemma each_length f es : forall insts, length (alter_each f es insts) = length insts.
Proof. induction es as [|[k0 i] es IH]; intros insts; [done|]. cbn. unfold alter_each in IH. by rewrite IH, length_alter. Qed.

Lemma each_inv f st : kinv st -> (forall s, quiet s (f s).1) -> kinv (each f st).
Proof.
  intros [Hq Ho Hm Hopt] Hf. constructor; simpl; [| | |done].
  - intros i k s' Hi. destruct (each_lookup f _ Hf _ _ _ _ Hi) as (s & Hs & _ & H).
    destruct (Hq _ _ _ Hs) as [q Hqs]. by apply (H q).
  - intros i k s' Hi. destruct (each_lookup f _ Hf _ _ _ _ Hi) as (s & Hs & -> & _). by eapply Ho.
  - intros k i Hg. destruct (Hm k i Hg) as (s & Hs & Hc).
    assert (is_Some (instances (each f st) !! i)) as [[k' s'] Hi].
    { apply lookup_lt_is_Some. simpl. rewrite each_length. by eapply lookup_lt_Some. }
    destruct (each_lookup f _ Hf _ _ _ _ Hi) as (s2 & Hs2 & Hp & _).
    rewrite Hs in Hs2. injection Hs2 as <- <-. exists s'. split; [done|]. by rewrite Hp.
Qed.

Lemma drain_quiet w s : quiet s (drain w s).1.
Proof.
  split; [unfold drain; by destruct (pending s =? 0)|]. intros q Hq. eexists. by apply drain_sim.
Qed.
Lemma close_quiet w s : quiet s (close w s).1.
Proof.
  split; [unfold close, drain; by destruct (pending _ =? 0)|]. intros q Hq.
  destruct (step_sim (EClose w) s q Hq) as [_ H]. by eexists.
Qed.

Lemma kstep_inv ev st st' o : kinv st -> kstep ev st = Some (st', o) -> kinv st'.
Proof.
  intros Hv. destruct ev as [key signal|i ev|key i|w|w]; simpl.
  - destruct (krun_inv st key signal Hv) as (r & -> & Hr). by intros [= ->].
  - destruct (from_loop ev) eqn:Hev; [|done]. destruct (instances st !! i) as [[key s]|] eqn:Hi; [|done]. simpl.
    destruct (step ev s) as [[s' o']|] eqn:E; [|done]. intros [= <- <-].
    destruct (k_queues _ _ Hv _ _ _ Hi) as [q Hq]. destruct (step_follow _ _ _ _ _ Hq E) as (q' & _ & Hq').
    eapply (after_step_inv st key i s (s', o')); [by apply kinv_weaken|done|by exists q'| |]; simpl.
    + destruct (k_orphans _ _ Hv _ _ _ Hi) as [|Hp]; [by left|right].
      by apply (idle_step ev s q s' o').
    + intros Hg Hp. destruct (loop_settles _ _ _ _ _ Hq Hev E) as [Hs|]; [left|by right].
      destruct (k_mapped _ _ Hv _ _ Hg) as (s1 & Hs1 & Hc). rewrite Hi in Hs1. injection Hs1 as <-.
      apply Hc; [done|congruence].
  - case_bool_decide as Hin; [|done]. intros [= <- <-]. by apply cleanup_inv.
  - intros [= <- <-]. apply each_inv; [done|apply drain_quiet].
  - intros [= <- <-]. apply each_inv; [by destruct Hv|apply close_quiet].
Qed.

Lemma reachable_inv max st : reachable max st -> kinv st.
Proof.
  induction 1 as [st H|st ev st' o Hr IH E]; [|by eapply kstep_inv].
  unfold kmake in H. destruct (Serial.make max) as [s|] eqn:Hm; [|done]. injection H as <-.
  constructor; simpl; try done. by exists s.
Qed.

(** The operations running for a key, on whatever executor. *)
Definition running_for (key : K) (st : kt) : list nat :=
  concat (map (fun ks => if bool_decide (ks.1 = key) then running ks.2 else []) (instances st)).

Lemma concat_nil {A B} (f : A -> list B) (l : list A) :
  (forall j x, l !! j = Some x -> f x = []) -> concat (map f l) = [].
Proof.
  induction l as [|y l IH]; intros H; [done|]. simpl. rewrite (H 0%nat y eq_refl).
  apply IH. intros j z Hj. by apply (H (S j)).
Qed.

(** Only the [i]-th list may be non-empty. *)
Lemma short_concat {A B} (f : A -> list B) (l : list A) : forall i,
  (forall j x, l !! j = Some x -> (length (f x) <= 1)%nat /\ (j <> i -> f x = [])) ->
  (length (concat (map f l)) <= 1)%nat.
Proof.
  induction l as [|x l IH]; intros i Hl; simpl; [lia|].
  rewrite length_app. destruct (Hl 0%nat x eq_refl) as [H1 H2]. destruct i as [|i].
  - rewrite concat_nil; [simpl; lia|]. intros j y Hj. by apply (Hl (S j) y Hj).
  - rewrite (H2 ltac:(done)). simpl. apply (IH i). intros j y Hj.
    destruct (Hl (S j) y Hj) as [H3 H4]. split; [done|]. intros Hne. apply H4. congruence.
Qed.

Lemma running_idle s q : represents s q ->
  (length (running s) <= 1)%nat /\ (pending s = 0 -> running s = []).
Proof.
  intros H. rewrite (r_running _ _ H). split; [by destruct (q_running q); simpl; lia|].
  intros Hp. by destruct (idle_queue s q H Hp) as [_ ->].
Qed.

Lemma running_for_short key st : kinv st -> (length (running_for key st) <= 1)%nat.
Proof.
  intros Hv. apply (short_concat _ _ (default 0%nat (JMap.get key (executors st)))).
  intros j [k s] Hj. simpl. case_bool_decide as Hk; [|simpl; split; [lia|done]]. subst k.
  destruct (k_queues _ _ Hv _ _ _ Hj) as [q Hq]. destruct (running_idle s q Hq) as [H1 H2].
  split; [done|]. intros Hne. apply H2. destruct (k_orphans _ _ Hv _ _ _ Hj) as [Hg|]; [|done].
  by rewrite Hg in Hne.
Qed.

(** C31: per key, operations run one at a time.  Whatever keys come and go, at
    most one operation of a key is running, over all the executors ever
    created for the key: an executor is only dropped when idle, and a dropped
    one is never used again.  [run] never throws, and an idle key stays in the
    map only while a clean-up callback for it is queued. *)
Theorem keyed_exclusion (max : option Z) (st : kt) (key : K) :
  reachable max st ->
  (length (running_for key st) <= 1)%nat /\
  (forall signal, exists r, krun key signal st = Ok r) /\
  (forall i, JMap.get key (executors st) = Some i ->
     exists s, instances st !! i = Some (key, s) /\ (pending s = 0 -> (key, i) ∈ cleanups st)).
Proof.
  intros Hr%reachable_inv. split; [|split].
  - by apply running_for_short.
  - intros signal. destruct (krun_inv st key signal Hr) as (r & E & _). by exists r.
  - intros i Hi. destruct (k_mapped _ _ Hr _ _ Hi) as (s & Hs & Hc). exists s. split; [done|]. by apply Hc.
Qed.

Fixpoint kexec (evs : list kevent) (st : kt) : option kt :=
  match evs with
  | [] => Some st
  | ev :: evs => '(st, _) ← kstep ev st; kexec evs st
  end.
Lemma kexec_reachable max evs : forall st st', reachable max st -> kexec evs st = Some st' -> reachable max st'.
Proof.
  induction evs as [|ev evs IH]; intros st st' Hr E; simpl in E; [by injection E as <-|].
  destruct (kstep ev st) as [[st1 o]|] eqn:E1; [|done]. eapply IH; [|exact E]. by eapply reach_step.
Qed.
End keyed.

(** Two operations of one key and one of another, after both keys started. *)
Definition sample_kevents : list (kevent (K := nat)) :=
  [KRun 5%nat None; KRun 5%nat (Some false); KRun 6%nat None; KLoop 0 EPump; KLoop 1 EPump].

Lemma keyed_exclusion_witness :
  exists st0 st, kmake (K := nat) (Some 4) = Ok st0 /\ kexec sample_kevents st0 = Some st /\
  length (running_for 5%nat st) = 1%nat /\
  (length (running_for 5%nat st) <= 1)%nat /\
  (forall signal, exists r, krun 5%nat signal st = Ok r) /\
  (forall i, JMap.get 5%nat (executors st) = Some i ->
     exists s, instances st !! i = Some (5%nat, s) /\ (pending s = 0 -> (5%nat, i) ∈ cleanups st)).
Proof.
  do 2 eexists. split; [reflexivity|]. split; [vm_compute; reflexivity|]. split; [reflexivity|].
  apply (keyed_exclusion (Some 4)).
  apply (kexec_reachable (Some 4) sample_kevents _ _ (reach_new (Some 4) _ eq_refl)).
  vm_compute. reflexivity.
Defined.
End Keyed.
