(* ===== verification/TaskChannel.v ===== *)
(** Bounded task admission with ordered output
    (src/js/internal/concurrent-task-channel.ts).

    A step is one synchronous call: of a method of the channel, of a resolver
    that [claim] returned, or of the continuation of a [ready] promise.  The
    closure variables of a resolver ([schedulePromise], [settled]) are the
    sets [requested] and [finished]; the promises a step resolves are its
    outputs.  [Finished] records a settlement in the history, to compare it
    with what the readers receive. *)

From S2P Require Import Prelude.

Module TaskChannel.
Section channel.
Context {T : Type}.

Record ScheduleWaiter := { w_index : nat; w_weight : Z; w_ready : bool }.

(** A settled task: a value or a rejection. *)
Inductive outcome := Fulfilled (value : T) | Rejected (reason : T).
Inductive Entry := EClaimed | EScheduled (weight : Z) | ESettled (o : outcome).
Inductive OutputOrder := Completion | ClaimOrder.

Record t := {
  capacity : Z;
  outputOrder : OutputOrder;
  active : Z;
  claimed : nat;
  nextOutput : nat;
  consumed : nat;
  closed : bool;
  entries : gmap nat Entry;
  settledOrder : list nat;
  scheduleWaiters : list ScheduleWaiter;
  readWaiters : list nat;
  requested : gset nat;
  finished : gset nat;
}.

Inductive output :=
| Claimed (index : nat)
| Granted (index : nat)
| Finished (index : nat) (o : outcome)
| Read (reader : nat) (o : outcome)
| ReadDone (reader : nat)
| Threw (e : exn).

Inductive event :=
| EvClaim
| EvSchedule (index : nat) (exclusive waits : bool)
| EvReady (index : nat)
| EvSettle (index : nat) (o : outcome)
| EvClose
| EvNext (reader : nat).

(** ** Assignments *)

Definition set_admission (a : Z) (m : gmap nat Entry) (ws : list ScheduleWaiter) (s : t) : t :=
  {| capacity := capacity s; outputOrder := outputOrder s; active := a; claimed := claimed s;
     nextOutput := nextOutput s; consumed := consumed s; closed := closed s; entries := m;
     settledOrder := settledOrder s; scheduleWaiters := ws; readWaiters := readWaiters s;
     requested := requested s; finished := finished s |}.
Definition set_reads (n c : nat) (m : gmap nat Entry) (so rs : list nat) (s : t) : t :=
  {| capacity := capacity s; outputOrder := outputOrder s; active := active s; claimed := claimed s;
     nextOutput := n; consumed := c; closed := closed s; entries := m;
     settledOrder := so; scheduleWaiters := scheduleWaiters s; readWaiters := rs;
     requested := requested s; finished := finished s |}.
Definition set_resolvers (n : nat) (c : bool) (rq fn : gset nat) (s : t) : t :=
  {| capacity := capacity s; outputOrder := outputOrder s; active := active s; claimed := n;
     nextOutput := nextOutput s; consumed := consumed s; closed := c; entries := entries s;
     settledOrder := settledOrder s; scheduleWaiters := scheduleWaiters s; readWaiters := readWaiters s;
     requested := rq; finished := fn |}.

(** ** Operations *)

Definition make (cap : Z) (order : OutputOrder) : res t :=
  if negb (isSafeInteger cap) || (cap <? 1)
  then Throw (RangeError "ConcurrentTaskChannel capacity must be a positive integer")
  else Ok {| capacity := cap; outputOrder := order; active := 0; claimed := 0; nextOutput := 0;
             consumed := 0; closed := false; entries := ∅; settledOrder := []; scheduleWaiters := [];
             readWaiters := []; requested := ∅; finished := ∅ |}.

(** The scan of [#drainSchedules]: the first ready waiter, unless a waiter
    with the weight of the whole channel comes before it. *)
Fixpoint select (cap : Z) (ws : list ScheduleWaiter) : option nat :=
  match ws with
  | [] => None
  | w :: ws =>
      if w_ready w then Some 0%nat
      else if w_weight w =? cap then None
      else S <$> select cap ws
  end.

(** Every round that does not return removes a waiter. *)
Fixpoint drain_schedules (fuel : nat) (s : t) : t * list output :=
  match fuel with
  | O => (s, [])
  | S fuel =>
      if negb (active s <? capacity s) then (s, [])
      else
        match select (capacity s) (scheduleWaiters s) with
        | None => (s, [])
        | Some i =>
            match scheduleWaiters s !! i with
            | None => (s, [])
            | Some w =>
                if capacity s <? active s + w_weight w then (s, [])
                else
                  let ws := take i (scheduleWaiters s) ++ drop (S i) (scheduleWaiters s) in
                  match entries s !! w_index w with
                  | Some EClaimed =>
                      let s := set_admission (active s + w_weight w)
                                 (<[w_index w := EScheduled (w_weight w)]> (entries s)) ws s in
                      let '(s, o) := drain_schedules fuel s in (s, Granted (w_index w) :: o)
                  | _ => drain_schedules fuel (set_admission (active s) (entries s) ws s)
                  end
            end
        end
  end.
Definition drainSchedules (s : t) : t * list output :=
  drain_schedules (length (scheduleWaiters s)) s.

(** The position that the next read takes its result from. *)
Definition output_index (s : t) : option nat :=
  match outputOrder s with ClaimOrder => Some (nextOutput s) | Completion => head (settledOrder s) end.
Definition ready_output (s : t) : option (nat * outcome) :=
  match output_index s with
  | None => None
  | Some i => match entries s !! i with Some (ESettled o) => Some (i, o) | _ => None end
  end.

(** Every round that does not return removes a reader. *)
Fixpoint drain_reads (fuel : nat) (s : t) : t * list output :=
  match fuel, readWaiters s with
  | S fuel, reader :: readers =>
      match ready_output s with
      | Some (i, o) =>
          let s := set_reads
            (match outputOrder s with ClaimOrder => S (nextOutput s) | Completion => nextOutput s end)
            (S (consumed s)) (delete i (entries s))
            (match outputOrder s with ClaimOrder => settledOrder s | Completion => tail (settledOrder s) end)
            readers s in
          let '(s, os) := drain_reads fuel s in (s, Read reader o :: os)
      | None =>
          if closed s && bool_decide (consumed s = claimed s) then
            let s := set_reads (nextOutput s) (consumed s) (entries s) (settledOrder s) readers s in
            let '(s, os) := drain_reads fuel s in (s, ReadDone reader :: os)
          else (s, [])
      end
  | _, _ => (s, [])
  end.
Definition drainReads (s : t) : t * list output := drain_reads (length (readWaiters s)) s.

Definition claim (s : t) : t * list output :=
  if closed s then (s, [Threw (JsError "ConcurrentTaskChannel is closed")])
  else
    let index := claimed s in
    let s := set_resolvers (S index) (closed s) (requested s) (finished s) s in
    (set_admission (active s) (<[index := EClaimed]> (entries s)) (scheduleWaiters s) s, [Claimed index]).

Definition schedule (index : nat) (exclusive waits : bool) (s : t) : t * list output :=
  if bool_decide (index ∈ requested s) then (s, [])
  else if bool_decide (index ∈ finished s)
  then (s, [Threw (JsError "ConcurrentTaskChannel resolver is already settled")])
  else
    let w := {| w_index := index; w_weight := if exclusive then capacity s else 1; w_ready := negb waits |} in
    let s := set_resolvers (claimed s) (closed s) (requested s ∪ {[index]}) (finished s) s in
    drainSchedules (set_admission (active s) (entries s) (scheduleWaiters s ++ [w]) s).

(** The continuation of a [ready] promise, fulfilled or not. *)
Definition mark_ready (index : nat) (w : ScheduleWaiter) : ScheduleWaiter :=
  if bool_decide (w_index w = index)
  then {| w_index := w_index w; w_weight := w_weight w; w_ready := true |} else w.
Definition on_ready (index : nat) (s : t) : t * list output :=
  drainSchedules (set_admission (active s) (entries s) (map (mark_ready index) (scheduleWaiters s)) s).

Definition settle (index : nat) (o : outcome) (s : t) : t * list output :=
  if bool_decide (index ∈ finished s) then (s, [])
  else
    match entries s !! index with
    | Some (EScheduled weight) =>
        let s := set_resolvers (claimed s) (closed s) (requested s) (finished s ∪ {[index]}) s in
        let s := set_reads (nextOutput s) (consumed s) (<[index := ESettled o]> (entries s))
          (match outputOrder s with Completion => settledOrder s ++ [index] | ClaimOrder => settledOrder s end)
          (readWaiters s) s in
        let s := set_admission (active s - weight) (entries s) (scheduleWaiters s) s in
        let '(s, o1) := drainSchedules s in
        let '(s, o2) := drainReads s in
        (s, Finished index o :: o1 ++ o2)
    | _ => (s, [Threw (JsError "ConcurrentTaskChannel resolver must be scheduled before settlement")])
    end.

Definition close (s : t) : t * list output :=
  if closed s then (s, [])
  else drainReads (set_resolvers (claimed s) true (requested s) (finished s) s).

Definition next (reader : nat) (s : t) : t * list output :=
  drainReads (set_reads (nextOutput s) (consumed s) (entries s) (settledOrder s)
                (readWaiters s ++ [reader]) s).

(** A resolver exists once its index was claimed. *)
Definition step (ev : event) (s : t) : option (t * list output) :=
  match ev with
  | EvClaim => Some (claim s)
  | EvSchedule i exclusive waits => if (i <? claimed s)%nat then Some (schedule i exclusive waits s) else None
  | EvReady i => if bool_decide (i ∈ requested s) then Some (on_ready i s) else None
  | EvSettle i o => if (i <? claimed s)%nat then Some (settle i o s) else None
  | EvClose => Some (close s)
  | EvNext reader => Some (next reader s)
  end.
Fixpoint exec (evs : list event) (s : t) : option (t * list output) :=
  match evs with
  | [] => Some (s, [])
  | ev :: evs =>
      '(s, o) ← step ev s;
      '(s, os) ← exec evs s;
      Some (s, o ++ os)
  end.

(** ** The rounds of the two loops *)

Definition remove_waiter (i : nat) (s : t) : list ScheduleWaiter :=
  take i (scheduleWaiters s) ++ drop (S i) (scheduleWaiters s).
Definition grant (i : nat) (w : ScheduleWaiter) (s : t) : t :=
  set_admission (active s + w_weight w) (<[w_index w := EScheduled (w_weight w)]> (entries s))
    (remove_waiter i s) s.
Definition skip (i : nat) (s : t) : t := set_admission (active s) (entries s) (remove_waiter i s) s.
Definition deliver (i : nat) (readers : list nat) (s : t) : t :=
  set_reads
    (match outputOrder s with ClaimOrder => S (nextOutput s) | Completion => nextOutput s end)
    (S (consumed s)) (delete i (entries s))
    (match outputOrder s with ClaimOrder => settledOrder s | Completion => tail (settledOrder s) end)
    readers s.
Definition dismiss (readers : list nat) (s : t) : t :=
  set_reads (nextOutput s) (consumed s) (entries s) (settledOrder s) readers s.

Definition admissible (s : t) (i : nat) (w : ScheduleWaiter) : Prop :=
  active s < capacity s /\ select (capacity s) (scheduleWaiters s) = Some i /\
  scheduleWaiters s !! i = Some w /\ active s + w_weight w <= capacity s.

(** What holds of the history and the state and survives every round holds
    after the loop. *)
Lemma drain_schedules_preserves (P : list output -> t -> Prop) :
  (forall h s i w, P h s -> admissible s i w -> entries s !! w_index w = Some EClaimed ->
     P (h ++ [Granted (w_index w)]) (grant i w s)) ->
  (forall h s i w, P h s -> admissible s i w -> entries s !! w_index w <> Some EClaimed -> P h (skip i s)) ->
  forall fuel h s, P h s -> P (h ++ (drain_schedules fuel s).2) (drain_schedules fuel s).1.
Proof.
  intros Hg Hs. induction fuel as [|fuel IH]; intros h s HP; [by rewrite app_nil_r|]. cbn [drain_schedules].
  destruct (Z.ltb_spec (active s) (capacity s)) as [Hlt|]; cbn [negb]; [|by rewrite app_nil_r].
  destruct (select _ _) as [i|] eqn:Hi; [|by rewrite app_nil_r].
  destruct (scheduleWaiters s !! i) as [w|] eqn:Hw; [|by rewrite app_nil_r].
  destruct (Z.ltb_spec (capacity s) (active s + w_weight w)) as [|Hfit]; [by rewrite app_nil_r|].
  assert (admissible s i w) as Ha by done. cbv zeta.
  destruct (entries s !! w_index w) as [[| |]|] eqn:He.
  - specialize (IH _ _ (Hg h s i w HP Ha He)). unfold grant, remove_waiter in IH.
    destruct (drain_schedules fuel _) as [s' o]. simpl in *. by rewrite <- app_assoc in IH.
  - apply IH. by apply (Hs h s i w); [| |rewrite He].
  - apply IH. by apply (Hs h s i w); [| |rewrite He].
  - apply IH. by apply (Hs h s i w); [| |rewrite He].
Qed.

Lemma drain_reads_preserves (P : list output -> t -> Prop) :
  (forall h s i o r rs, P h s -> readWaiters s = r :: rs -> ready_output s = Some (i, o) ->
     P (h ++ [Read r o]) (deliver i rs s)) ->
  (forall h s r rs, P h s -> readWaiters s = r :: rs -> ready_output s = None ->
     closed s = true -> consumed s = claimed s -> P (h ++ [ReadDone r]) (dismiss rs s)) ->
  forall fuel h s, P h s -> P (h ++ (drain_reads fuel s).2) (drain_reads fuel s).1.
Proof.
  intros Hd Hn. induction fuel as [|fuel IH]; intros h s HP; [by rewrite app_nil_r|]. cbn [drain_reads].
  destruct (readWaiters s) as [|r rs] eqn:Hr; [by rewrite app_nil_r|].
  destruct (ready_output s) as [[i o]|] eqn:Ho.
  - specialize (IH _ _ (Hd h s i o r rs HP Hr Ho)). unfold deliver in IH.
    destruct (drain_reads fuel _) as [s' os]. simpl in *. by rewrite <- app_assoc in IH.
  - destruct (closed s) eqn:Hc; simpl; [|by rewrite app_nil_r].
    case_bool_decide as He; [|by rewrite app_nil_r].
    specialize (IH _ _ (Hn h s r rs HP Hr Ho Hc He)). unfold dismiss in IH.
    destruct (drain_reads fuel _) as [s' os]. simpl in *. by rewrite <- app_assoc in IH.
Qed.

(** ** The load of the channel *)

Definition entry_weight (e : option Entry) : Z :=
  match e with Some (EScheduled w) => w | _ => 0 end.
Fixpoint load (m : gmap nat Entry) (n : nat) : Z :=
  match n with O => 0 | S k => load m k + entry_weight (m !! k) end.

Lemma load_ext m m' n : (forall i, (i < n)%nat -> entry_weight (m' !! i) = entry_weight (m !! i)) ->
  load m' n = load m n.
Proof.
  induction n as [|n IH]; intros H; [done|]. simpl. rewrite H, IH by lia || (intros; apply H; lia). done.
Qed.
Lemma load_update m m' i n : (i < n)%nat -> (forall j, j <> i -> m' !! j = m !! j) ->
  load m' n = load m n - entry_weight (m !! i) + entry_weight (m' !! i).
Proof.
  intros Hi Hm. induction n as [|n IH]; [lia|]. simpl. destruct (decide (i = n)) as [->|Hne].
  - rewrite (load_ext m m'); [lia|]. intros j Hj. rewrite Hm by lia. done.
  - rewrite IH, (Hm n) by lia. lia.
Qed.
Lemma load_insert m i e n : (i < n)%nat ->
  load (<[i := e]> m) n = load m n - entry_weight (m !! i) + entry_weight (Some e).
Proof.
  intros Hi. rewrite (load_update m _ i n Hi).
  - by rewrite lookup_insert, decide_True.
  - intros j Hj. by rewrite lookup_insert_ne.
Qed.
Lemma load_delete m i n : (i < n)%nat ->
  load (delete i m) n = load m n - entry_weight (m !! i).
Proof.
  intros Hi. rewrite (load_update m _ i n Hi).
  - rewrite lookup_delete, decide_True by done. simpl. lia.
  - intros j Hj. by rewrite lookup_delete_ne.
Qed.
Lemma load_nonneg m n : (forall i w, m !! i = Some (EScheduled w) -> 0 <= w) -> 0 <= load m n.
Proof.
  intros H. induction n as [|n IH]; [done|]. simpl. unfold entry_weight.
  destruct (m !! n) as [[| |]|] eqn:E; try lia. pose proof (H _ _ E). lia.
Qed.
(** A task that runs is part of the load. *)
Lemma load_ge m n i w : (forall i w, m !! i = Some (EScheduled w) -> 0 <= w) ->
  (i < n)%nat -> m !! i = Some (EScheduled w) -> w <= load m n.
Proof.
  intros H Hi E. pose proof (load_delete m i n Hi) as Hd. rewrite E in Hd. simpl in Hd.
  enough (0 <= load (delete i m) n) by lia. apply load_nonneg. intros j w' Hj.
  apply lookup_delete_Some in Hj as [_ Hj]. by eapply H.
Qed.

(** ** Admission: the invariant *)

Record adm (s : t) : Prop := {
  a_cap : 1 <= capacity s;
  a_active : active s = load (entries s) (claimed s);
  a_bound : active s <= capacity s;
  a_weights : forall i w, entries s !! i = Some (EScheduled w) -> w = 1 \/ w = capacity s;
  a_dom : forall i e, entries s !! i = Some e -> (i < claimed s)%nat;
  a_waiters : forall w, w ∈ scheduleWaiters s -> w_weight w = 1 \/ w_weight w = capacity s;
}.

Lemma remove_waiter_elem i w s : w ∈ remove_waiter i s -> w ∈ scheduleWaiters s.
Proof.
  unfold remove_waiter. intros [H|H]%elem_of_app; [by eapply elem_of_take in H as (? & ? & _); eapply list_elem_of_lookup_2|].
  rewrite <- (take_drop (S i) (scheduleWaiters s)). apply elem_of_app. by right.
Qed.

Lemma adm_grant s i w : adm s -> admissible s i w -> entries s !! w_index w = Some EClaimed -> adm (grant i w s).
Proof.
  intros [H1 H2 H3 H4 H5 H6] (Hlt & _ & Hw & Hfit) He. pose proof (H5 _ _ He) as Hdom.
  apply list_elem_of_lookup_2 in Hw. constructor; simpl; try done.
  - rewrite load_insert, He by done. simpl. lia.
  - intros j w'. rewrite lookup_insert. case_decide; [|apply H4]. intros [= <-]. by apply H6.
  - intros j e. rewrite lookup_insert. case_decide as Hd; [by subst|apply H5].
  - intros w' Hw'%remove_waiter_elem. by apply H6.
Qed.

Lemma adm_skip s i : adm s -> adm (skip i s).
Proof.
  intros [H1 H2 H3 H4 H5 H6]. constructor; simpl; try done. intros w Hw%remove_waiter_elem. by apply H6.
Qed.

Lemma adm_delete s i o n c so rs : adm s -> entries s !! i = Some (ESettled o) ->
  adm (set_reads n c (delete i (entries s)) so rs s).
Proof.
  intros [H1 H2 H3 H4 H5 H6] He. pose proof (H5 _ _ He). constructor; simpl; try done.
  - rewrite load_delete, He by done. simpl. lia.
  - intros j w [_ Hj]%lookup_delete_Some. by eapply H4.
  - intros j e [_ Hj]%lookup_delete_Some. by eapply H5.
Qed.

(** ** Output: the invariant *)

Definition hist : list output -> list (nat * outcome) :=
  omap (fun x => match x with Finished i o => Some (i, o) | _ => None end).
Definition reads : list output -> list outcome :=
  omap (fun x => match x with Read _ o => Some o | _ => None end).
Definition dones : list output -> list nat :=
  omap (fun x => match x with ReadDone r => Some r | _ => None end).

(** In completion order the results are read as they settle; in claim order
    the [k]-th result read is that of position [k]. *)
Definition in_order (h : list output) (s : t) : Prop :=
  match outputOrder s with
  | Completion =>
      exists rd pend, hist h = rd ++ pend /\ reads h = rd.*2 /\ pend.*1 = settledOrder s /\
        forall i o, (i, o) ∈ pend -> entries s !! i = Some (ESettled o)
  | ClaimOrder =>
      nextOutput s = length (reads h) /\
      (forall k o, reads h !! k = Some o -> (k, o) ∈ hist h) /\
      (forall i o, entries s !! i = Some (ESettled o) -> (i, o) ∈ hist h) /\
      (forall i o, (i, o) ∈ hist h -> reads h !! i = Some o \/ entries s !! i = Some (ESettled o))
  end.

Record out (h : list output) (s : t) : Prop := {
  o_consumed : consumed s = length (reads h);
  o_size : (consumed s + size (entries s) = claimed s)%nat;
  o_finished : forall i, i ∈ finished s <-> i ∈ (hist h).*1;
  o_once : NoDup (hist h).*1;
  o_order : in_order h s;
  o_done : dones h <> [] -> closed s = true /\ consumed s = claimed s;
}.

Definition inv (h : list output) (s : t) : Prop := adm s /\ out h s.

Lemma in_order_keep h h' s s' :
  in_order h s -> hist h' = hist h -> reads h' = reads h ->
  outputOrder s' = outputOrder s -> nextOutput s' = nextOutput s -> settledOrder s' = settledOrder s ->
  (forall i o, entries s' !! i = Some (ESettled o) <-> entries s !! i = Some (ESettled o)) ->
  in_order h' s'.
Proof.
  intros H5 Eh Er Eo En Es He. unfold in_order in *. rewrite Eo, Eh, Er, En, Es. destruct (outputOrder s).
  - destruct H5 as (rd & pend & E1 & E2 & E3 & E4). exists rd, pend. repeat split; try done.
    intros i o Hio. by apply He, E4.
  - destruct H5 as (E1 & E2 & E3 & E4). repeat split; try done.
    + intros i o Hio. by apply E3, He.
    + intros i o Hio. rewrite He. by apply E4.
Qed.

(** Steps that keep the settled entries and the counters. *)
Lemma out_keep h h' s s' :
  out h s -> hist h' = hist h -> reads h' = reads h -> dones h' = dones h ->
  outputOrder s' = outputOrder s -> consumed s' = consumed s -> claimed s' = claimed s ->
  nextOutput s' = nextOutput s -> (closed s = true -> closed s' = true) -> finished s' = finished s ->
  settledOrder s' = settledOrder s -> size (entries s') = size (entries s) ->
  (forall i o, entries s' !! i = Some (ESettled o) <-> entries s !! i = Some (ESettled o)) ->
  out h' s'.
Proof.
  intros [H1 H2 H3 H4 H5 H6] Eh Er Ed Eo Ec El En Ecl Ef Es Esz He. constructor.
  - by rewrite Ec, Er.
  - by rewrite Ec, Esz, El.
  - by rewrite Ef, Eh.
  - by rewrite Eh.
  - by apply (in_order_keep h h' s s').
  - rewrite Ed, Ec, El. intros H. destruct (H6 H). auto.
Qed.

Lemma hist_app h k : hist (h ++ k) = hist h ++ hist k.
Proof. apply omap_app. Qed.
Lemma reads_app h k : reads (h ++ k) = reads h ++ reads k.
Proof. apply omap_app. Qed.
Lemma dones_app h k : dones (h ++ k) = dones h ++ dones k.
Proof. apply omap_app. Qed.

(** An output that is neither a settlement nor a read changes no list. *)
Ltac quiet_output := rewrite ?hist_app, ?reads_app, ?dones_app; simpl; by rewrite ?app_nil_r.

Lemma settled_insert (m : gmap nat Entry) j e i o :
  (forall o, m !! j <> Some (ESettled o)) -> (forall o, e <> ESettled o) ->
  <[j := e]> m !! i = Some (ESettled o) <-> m !! i = Some (ESettled o).
Proof.
  intros Hj He. rewrite lookup_insert. case_decide as Hd; [|done]. subst i.
  split; [intros [= E]; by destruct (He o)|intros E; by destruct (Hj o)].
Qed.

Lemma out_grant h s i w : out h s -> entries s !! w_index w = Some EClaimed ->
  out (h ++ [Granted (w_index w)]) (grant i w s).
Proof.
  intros Ho He. eapply (out_keep h); try done; try quiet_output; simpl.
  - rewrite map_size_insert_Some; [done|by rewrite He].
  - intros j o. apply settled_insert; [|done]. intros o'. by rewrite He.
Qed.

Lemma ready_output_spec s i o : ready_output s = Some (i, o) ->
  entries s !! i = Some (ESettled o) /\
  match outputOrder s with
  | ClaimOrder => i = nextOutput s
  | Completion => settledOrder s = i :: tail (settledOrder s)
  end.
Proof.
  unfold ready_output, output_index. destruct (outputOrder s).
  - destruct (settledOrder s) as [|j so]; [done|]. simpl.
    destruct (entries s !! j) as [[| |o']|] eqn:E; try done. by intros [= <- <-].
  - destruct (entries s !! nextOutput s) as [[| |o']|] eqn:E; try done. by intros [= <- <-].
Qed.

Lemma in_order_deliver h s i o r rs : out h s -> ready_output s = Some (i, o) ->
  in_order (h ++ [Read r o]) (deliver i rs s).
Proof.
  intros [_ _ _ H4 H5 _] Ho. apply ready_output_spec in Ho as [He Hi].
  unfold in_order in *. simpl. rewrite hist_app, reads_app. simpl. rewrite app_nil_r.
  destruct (outputOrder s).
  - destruct H5 as (rd & pend & E1 & E2 & E3 & E4). rewrite Hi in E3.
    destruct pend as [|[j o'] pend]; [done|]. simpl in E3. injection E3 as -> E3.
    assert (o' = o) as -> by (pose proof (E4 i o' ltac:(left)); congruence).
    exists (rd ++ [(i, o)]), pend. rewrite E1, E2, fmap_app, <- app_assoc. repeat split; [done|].
    intros j o' Hj. rewrite lookup_delete_ne; [apply E4; by right|]. intros ->.
    rewrite E1, fmap_app in H4. apply NoDup_app in H4 as (_ & _ & [H4 _]%NoDup_cons).
    apply H4. apply list_elem_of_fmap. by exists (j, o').
  - destruct H5 as (E1 & E2 & E3 & E4). subst i. split; [rewrite length_app; simpl; lia|].
    split; [|split].
    + intros k o' [Hk|[Hk Hk']]%lookup_app_Some; [by apply E2|].
      apply list_lookup_singleton_Some in Hk' as [Hk' <-]. replace k with (nextOutput s) by lia. by apply E3.
    + intros j o' [_ Hj]%lookup_delete_Some. by apply E3.
    + intros j o' Hj. destruct (decide (j = nextOutput s)) as [->|Hne].
      * left. apply E4 in Hj as [Hj|Hj]; [by apply lookup_app_l_Some|].
        rewrite E1, lookup_app_r, Nat.sub_diag by done. simpl. congruence.
      * rewrite lookup_delete_ne by done. apply E4 in Hj as [Hj|Hj]; [left; by apply lookup_app_l_Some|by right].
Qed.

Lemma out_deliver h s i o r rs : out h s -> ready_output s = Some (i, o) ->
  out (h ++ [Read r o]) (deliver i rs s).
Proof.
  intros Ho Hr. pose proof (in_order_deliver h s i o r rs Ho Hr) as Hord.
  destruct Ho as [H1 H2 H3 H4 H5 H6]. apply ready_output_spec in Hr as [He _].
  assert (size (entries s) = S (size (delete i (entries s)))) as Hsz.
  { rewrite <- (map_size_insert_None i (ESettled o)) by (by rewrite lookup_delete, decide_True).
    by rewrite insert_delete_eq, insert_id. }
  constructor; simpl; rewrite ?hist_app, ?reads_app, ?dones_app; simpl; rewrite ?app_nil_r; try done.
  - rewrite length_app. simpl. lia.
  - lia.
  - intros Hd. destruct (H6 Hd). lia.
Qed.

Lemma out_dismiss h s r rs : out h s -> closed s = true -> consumed s = claimed s ->
  out (h ++ [ReadDone r]) (dismiss rs s).
Proof.
  intros [H1 H2 H3 H4 H5 H6] Hc He.
  constructor; simpl; rewrite ?hist_app, ?reads_app, ?dones_app; simpl; rewrite ?app_nil_r; try done.
  apply (in_order_keep h _ s); try done; quiet_output.
Qed.

(** The settlement itself, before the loops run. *)
Definition record_settlement (index : nat) (o : outcome) (weight : Z) (s : t) : t :=
  let s := set_resolvers (claimed s) (closed s) (requested s) (finished s ∪ {[index]}) s in
  let s := set_reads (nextOutput s) (consumed s) (<[index := ESettled o]> (entries s))
    (match outputOrder s with Completion => settledOrder s ++ [index] | ClaimOrder => settledOrder s end)
    (readWaiters s) s in
  set_admission (active s - weight) (entries s) (scheduleWaiters s) s.

Lemma adm_record s i o w : adm s -> entries s !! i = Some (EScheduled w) -> adm (record_settlement i o w s).
Proof.
  intros [H1 H2 H3 H4 H5 H6] He. pose proof (H5 _ _ He). constructor; simpl; try done.
  - rewrite load_insert, He by done. simpl. lia.
  - destruct (H4 _ _ He); lia.
  - intros j w'. rewrite lookup_insert. case_decide; [done|apply H4].
  - intros j e. rewrite lookup_insert. case_decide as Hd; [by subst|apply H5].
Qed.

Lemma out_record h s i o w : out h s -> i ∉ finished s -> entries s !! i = Some (EScheduled w) ->
  out (h ++ [Finished i o]) (record_settlement i o w s).
Proof.
  intros [H1 H2 H3 H4 H5 H6] Hi He. assert (i ∉ (hist h).*1) as Hh by (by rewrite <- H3).
  constructor; simpl; rewrite ?hist_app, ?reads_app, ?dones_app; simpl; rewrite ?app_nil_r; try done.
  - rewrite map_size_insert_Some; [done|by rewrite He].
  - intros j. rewrite fmap_app. simpl. set_solver.
  - rewrite fmap_app. simpl. apply NoDup_app. split; [done|]. split; [set_solver|apply NoDup_singleton].
  - unfold in_order in *. simpl. rewrite hist_app, reads_app. simpl. rewrite app_nil_r.
    destruct (outputOrder s).
    + destruct H5 as (rd & pend & E1 & E2 & E3 & E4). exists rd, (pend ++ [(i, o)]).
      rewrite E1, fmap_app, <- app_assoc, E3. repeat split; try done.
      intros j o' [Hj|[= -> ->]%list_elem_of_singleton]%elem_of_app; rewrite lookup_insert; [|by rewrite decide_True].
      rewrite decide_False; [by apply E4|]. intros ->. pose proof (E4 _ _ Hj). congruence.
    + destruct H5 as (E1 & E2 & E3 & E4). split; [done|]. split; [|split].
      * intros k o' Hk. apply elem_of_app. left. by apply E2.
      * intros j o'. rewrite lookup_insert. case_decide as Hd; intros E; apply elem_of_app.
        -- right. injection E as <-. subst. by left.
        -- left. by apply E3.
      * intros j o' [Hj|[= -> ->]%list_elem_of_singleton]%elem_of_app; rewrite lookup_insert.
        -- rewrite decide_False; [by apply E4|]. intros ->. apply Hh, list_elem_of_fmap. by exists (j, o').
        -- right. by rewrite decide_True.
Qed.

(** ** Every step preserves the invariant *)

Lemma drainSchedules_inv h s : inv h s -> inv (h ++ (drainSchedules s).2) (drainSchedules s).1.
Proof.
  apply (drain_schedules_preserves inv).
  - intros h' s' i w [Ha Ho] Hw He. split; [by apply adm_grant|by apply out_grant].
  - intros h' s' i w [Ha Ho] Hw He. split; [by apply adm_skip|by eapply (out_keep h')].
Qed.

Lemma drainReads_inv h s : inv h s -> inv (h ++ (drainReads s).2) (drainReads s).1.
Proof.
  apply (drain_reads_preserves inv).
  - intros h' s' i o r rs [Ha Ho] Hr Hi. split; [|by apply out_deliver].
    apply ready_output_spec in Hi as [Hi _]. by eapply adm_delete.
  - intros h' s' r rs [Ha Ho] Hr Hi Hc He. split; [by destruct Ha|by apply out_dismiss].
Qed.

Lemma fresh_entry s : adm s -> entries s !! claimed s = None.
Proof.
  intros H. destruct (entries s !! claimed s) as [e|] eqn:E; [|done]. apply (a_dom s H) in E. lia.
Qed.

Lemma claim_inv h s : inv h s -> inv (h ++ (claim s).2) (claim s).1.
Proof.
  intros [Ha Ho]. unfold claim. destruct (closed s) eqn:Hc; simpl.
  - split; [done|]. eapply (out_keep h); try done; quiet_output.
  - pose proof (fresh_entry s Ha) as Hf. destruct Ha as [H1 H2 H3 H4 H5 H6]. split.
    + constructor; simpl; try done.
      * rewrite lookup_insert, decide_True by done. simpl. rewrite H2, (load_ext (entries s) (<[claimed s := EClaimed]> (entries s))); [lia|].
        intros i Hi. by rewrite lookup_insert_ne by lia.
      * intros i w. rewrite lookup_insert. case_decide; [done|apply H4].
      * intros i e. rewrite lookup_insert. case_decide as Hd; [subst; lia|]. intros E%H5. lia.
    + destruct Ho as [O1 O2 O3 O4 O5 O6].
      constructor; simpl; rewrite ?hist_app, ?reads_app, ?dones_app; simpl; rewrite ?app_nil_r; try done.
      * rewrite map_size_insert_None by done. lia.
      * apply (in_order_keep h _ s); try done; try quiet_output.
        intros i o. apply settled_insert; [|done]. intros o'. by rewrite Hf.
      * intros Hd. destruct (O6 Hd). congruence.
Qed.

Lemma schedule_inv h s i exclusive waits : inv h s ->
  inv (h ++ (schedule i exclusive waits s).2) (schedule i exclusive waits s).1.
Proof.
  intros [Ha Ho]. unfold schedule. case_bool_decide; [by rewrite app_nil_r|].
  case_bool_decide; [split; [done|]; eapply (out_keep h); try done; quiet_output|].
  apply drainSchedules_inv. split; [|by eapply (out_keep h)].
  destruct Ha as [H1 H2 H3 H4 H5 H6]. constructor; simpl; try done.
  intros w [Hw| ->%list_elem_of_singleton]%elem_of_app; [by apply H6|]. simpl. destruct exclusive; auto.
Qed.

Lemma ready_inv h s i : inv h s -> inv (h ++ (on_ready i s).2) (on_ready i s).1.
Proof.
  intros [Ha Ho]. apply drainSchedules_inv. split; [|by eapply (out_keep h)].
  destruct Ha as [H1 H2 H3 H4 H5 H6]. constructor; simpl; try done.
  intros w (w0 & -> & Hw)%list_elem_of_fmap. unfold mark_ready. case_bool_decide; simpl; by apply H6.
Qed.

Lemma settle_inv h s i o : inv h s -> inv (h ++ (settle i o s).2) (settle i o s).1.
Proof.
  intros [Ha Ho]. unfold settle. case_bool_decide as Hf; [by rewrite app_nil_r|].
  assert (inv (h ++ [Threw (JsError "ConcurrentTaskChannel resolver must be scheduled before settlement")]) s)
    as Hthrow by (split; [done|]; eapply (out_keep h); try done; quiet_output).
  destruct (entries s !! i) as [[|w|]|] eqn:He; try done. cbv zeta.
  change (set_admission _ _ _ _) with (record_settlement i o w s).
  assert (inv (h ++ [Finished i o]) (record_settlement i o w s)) as Hv
    by (split; [by apply adm_record|by apply out_record]).
  apply drainSchedules_inv in Hv. destruct (drainSchedules _) as [s1 o1].
  apply drainReads_inv in Hv. destruct (drainReads _) as [s2 o2]. simpl in *.
  by rewrite <- !app_assoc in Hv.
Qed.

Lemma step_inv ev h s s' o : inv h s -> step ev s = Some (s', o) -> inv (h ++ o) s'.
Proof.
  intros Hv. destruct ev as [|i exclusive waits|i|i out| |r]; simpl.
  - pose proof (claim_inv h s Hv) as H. by intros [= E]; rewrite E in H.
  - case_match; [|done]. pose proof (schedule_inv h s i exclusive waits Hv) as H1. by intros [= E]; rewrite E in H1.
  - case_bool_decide; [|done]. pose proof (ready_inv h s i Hv) as H1. by intros [= E]; rewrite E in H1.
  - case_match; [|done]. pose proof (settle_inv h s i out Hv) as H1. by intros [= E]; rewrite E in H1.
  - intros [= E]. unfold close in E. destruct (closed s) eqn:Hc; [injection E as <- <-; by rewrite app_nil_r|].
    assert (inv h (set_resolvers (claimed s) true (requested s) (finished s) s)) as Hv'.
    { destruct Hv as [Ha Ho]. split; [by destruct Ha|by eapply (out_keep h)]. }
    apply drainReads_inv in Hv'. by rewrite E in Hv'.
  - intros [= E]. unfold next in E.
    assert (inv h (set_reads (nextOutput s) (consumed s) (entries s) (settledOrder s) (readWaiters s ++ [r]) s)) as Hv'.
    { destruct Hv as [Ha Ho]. split; [by destruct Ha|by eapply (out_keep h)]. }
    apply drainReads_inv in Hv'. by rewrite E in Hv'.
Qed.

Lemma exec_inv evs : forall h s s' os, inv h s -> exec evs s = Some (s', os) -> inv (h ++ os) s'.
Proof.
  induction evs as [|ev evs IH]; intros h s s' os Hv E; simpl in E.
  - injection E as <- <-. by rewrite app_nil_r.
  - destruct (step ev s) as [[s1 o1]|] eqn:E1; [|done]. simpl in E.
    destruct (exec evs s1) as [[s2 o2]|] eqn:E2; [|done]. injection E as <- <-. rewrite app_assoc.
    eapply IH; [|done]. by eapply step_inv.
Qed.

Lemma make_inv cap order s : make cap order = Ok s -> inv [] s.
Proof.
  unfold make. destruct (Z.ltb_spec cap 1) as [|Hc]; [by rewrite orb_true_r|].
  destruct (negb _); simpl; [done|]. intros [= <-]. split.
  - constructor; simpl; [done|done|lia|done|done|]. by intros w Hw%not_elem_of_nil.
  - constructor; simpl; [done|done|set_solver|constructor| |done]. unfold in_order. simpl. destruct order.
    + exists [], []. repeat split. by intros i o Hi%not_elem_of_nil.
    + repeat split; try done. by intros i o Hi%not_elem_of_nil.
Qed.

(** Capacity and order never change. *)
Lemma drainSchedules_config s :
  capacity (drainSchedules s).1 = capacity s /\ outputOrder (drainSchedules s).1 = outputOrder s.
Proof.
  by apply (drain_schedules_preserves (fun _ s' => capacity s' = capacity s /\ outputOrder s' = outputOrder s))
    with (h := []).
Qed.
Lemma drainReads_config s :
  capacity (drainReads s).1 = capacity s /\ outputOrder (drainReads s).1 = outputOrder s.
Proof.
  by apply (drain_reads_preserves (fun _ s' => capacity s' = capacity s /\ outputOrder s' = outputOrder s))
    with (h := []).
Qed.

Ltac first_of E :=
  apply (f_equal fst) in E; cbn [fst] in E; subst;
  match goal with
  | |- context [drainSchedules ?s0] => destruct (drainSchedules_config s0) as [-> ->]
  | |- context [drainReads ?s0] => destruct (drainReads_config s0) as [-> ->]
  end; done.

Lemma step_config ev s s' o : step ev s = Some (s', o) ->
  capacity s' = capacity s /\ outputOrder s' = outputOrder s.
Proof.
  destruct ev as [|i exclusive waits|i|i out| |r]; simpl.
  - intros [= E]. unfold claim in E. by destruct (closed s); injection E as <- <-.
  - case_match; [|done]. intros [= E]. unfold schedule in E. repeat case_bool_decide; try by injection E as <- <-.
    first_of E.
  - case_bool_decide; [|done]. intros [= E]. unfold on_ready in E. first_of E.
  - case_match; [|done]. intros [= E]. unfold settle in E. case_bool_decide; [by injection E as <- <-|].
    destruct (entries s !! i) as [[|w|]|]; try by injection E as <- <-. cbv zeta in E.
    pose proof (drainSchedules_config (record_settlement i out w s)) as [H1 H2].
    unfold record_settlement in *. destruct (drainSchedules _) as [s1 o1]. simpl in H1, H2.
    pose proof (drainReads_config s1) as [H3 H4]. destruct (drainReads s1) as [s2 o2].
    injection E as <- <-. simpl in *. split; congruence.
  - intros [= E]. unfold close in E. destruct (closed s); [by injection E as <- <-|].
    first_of E.
  - intros [= E]. unfold next in E. first_of E.
Qed.

Lemma channel_exec_cons ev evs s s' os : exec (ev :: evs) s = Some (s', os) ->
  exists s1 o1 o2, step ev s = Some (s1, o1) /\ exec evs s1 = Some (s', o2) /\ os = o1 ++ o2.
Proof.
  simpl. destruct (step ev s) as [[s1 o1]|]; [|done]. simpl.
  destruct (exec evs s1) as [[s2 o2]|] eqn:E; [|done]. simpl. intros [= <- <-]. eauto 10.
Qed.

Lemma exec_config evs : forall s s' os, exec evs s = Some (s', os) ->
  capacity s' = capacity s /\ outputOrder s' = outputOrder s.
Proof.
  induction evs as [|ev evs IH]; intros s s' os E; [by injection E as <- <-|].
  apply channel_exec_cons in E as (s1 & o1 & o2 & E1 & E2 & ->).
  destruct (IH _ _ _ E2) as [-> ->]. by eapply step_config.
Qed.

Lemma make_config cap order s : make cap order = Ok s -> capacity s = cap /\ outputOrder s = order.
Proof. unfold make. destruct (_ || _); [done|]. by intros [= <-]. Qed.

Lemma load_count l : forall m n, NoDup l -> (forall i w, m !! i = Some (EScheduled w) -> 1 <= w) ->
  (forall i, i ∈ l -> (i < n)%nat /\ exists w, m !! i = Some (EScheduled w)) -> zlen l <= load m n.
Proof.
  induction l as [|i l IH]; intros m n Hnd Hw Hl.
  - apply load_nonneg. intros i w Hi%Hw. lia.
  - apply NoDup_cons in Hnd as [Hi Hnd]. destruct (Hl i ltac:(left)) as (Hlt & w & E).
    pose proof (load_delete m i n Hlt) as Hd. rewrite E in Hd. simpl in Hd. pose proof (Hw _ _ E).
    assert (zlen l <= load (delete i m) n); [|rewrite zlen_cons; lia].
    apply IH; [done| |].
    + intros j w' [_ Hj]%lookup_delete_Some. by eapply Hw.
    + intros j Hj. rewrite lookup_delete_ne by (by intros ->). apply Hl. by right.
Qed.

(** C27: the channel never runs more than its capacity.  After any history of
    calls the slots in use are the weights of the tasks that were admitted and
    have not settled; at most [capacity] tasks are admitted at once; and an
    exclusive task is admitted alone. *)
Theorem channel_capacity (cap : Z) (order : OutputOrder) (evs : list event) (s0 s : t) (os : list output) :
  make cap order = Ok s0 -> exec evs s0 = Some (s, os) ->
  active s = load (entries s) (claimed s) /\ 0 <= active s <= cap /\
  (forall l, NoDup l -> (forall i, i ∈ l -> exists w, entries s !! i = Some (EScheduled w)) -> zlen l <= cap) /\
  (forall i j w, entries s !! i = Some (EScheduled cap) -> entries s !! j = Some (EScheduled w) -> j = i).
Proof.
  intros Hm E. destruct (exec_inv evs [] s0 s os (make_inv _ _ _ Hm) E) as [[H1 H2 H3 H4 H5 H6] _].
  destruct (exec_config _ _ _ _ E) as [Hc _]. destruct (make_config _ _ _ Hm) as [Hc' _]. rewrite Hc' in Hc.
  rewrite Hc in *. assert (forall i w, entries s !! i = Some (EScheduled w) -> 1 <= w) as Hw.
  { intros i w Hi. destruct (H4 i w Hi); lia. }
  split; [done|]. split; [|split].
  - split; [|done]. rewrite H2. apply load_nonneg. intros i w Hi%Hw. lia.
  - intros l Hnd Hl. etrans; [|exact H3]. rewrite H2. apply load_count; [done|done|].
    intros i Hi. destruct (Hl i Hi) as [w Hi']. split; [by eapply H5|by exists w].
  - intros i j w Hi Hj. destruct (decide (j = i)) as [|Hne]; [done|]. exfalso.
    pose proof (load_delete (entries s) i (claimed s) (H5 _ _ Hi)) as Hd. rewrite Hi in Hd. simpl in Hd.
    assert (w <= load (delete i (entries s)) (claimed s)).
    { eapply (load_ge _ _ j); [|by eapply H5|by rewrite lookup_delete_ne].
      intros k w' [_ Hk%Hw]%lookup_delete_Some. lia. }
    pose proof (Hw _ _ Hj). lia.
Qed.

(** C28: results come out once each, in the promised order.  No task settles
    twice; in completion order the results read are the settlements in the
    order they happened, the rest still buffered; in claim order the [k]-th
    result read is that of position [k], and a settled position is read or
    still buffered.  A reader is told the sequence is done only when the
    channel is closed and every claimed position has been read. *)
Theorem channel_output (cap : Z) (order : OutputOrder) (evs : list event) (s0 s : t) (os : list output) :
  make cap order = Ok s0 -> exec evs s0 = Some (s, os) ->
  outputOrder s = order /\ NoDup (hist os).*1 /\ in_order os s /\
  (dones os <> [] -> closed s = true /\ length (reads os) = claimed s).
Proof.
  intros Hm E. destruct (exec_inv evs [] s0 s os (make_inv _ _ _ Hm) E) as [_ [O1 O2 O3 O4 O5 O6]].
  destruct (exec_config _ _ _ _ E) as [_ ->]. destruct (make_config _ _ _ Hm) as [_ ->].
  simpl in *. repeat split; try done; by destruct (O6 H); congruence.
Qed.

(** ** No lost wake-ups *)

Definition schedules_quiet (s : t) : Prop := forall i w, ~ admissible s i w.
Definition reads_quiet (s : t) : Prop :=
  readWaiters s <> [] -> ready_output s = None /\ ~ (closed s = true /\ consumed s = claimed s).

Lemma remove_waiter_length i s w : scheduleWaiters s !! i = Some w ->
  S (length (remove_waiter i s)) = length (scheduleWaiters s).
Proof.
  intros H%lookup_lt_Some. unfold remove_waiter. rewrite length_app, length_take, length_drop. lia.
Qed.

(** The fuel is enough: the loop stops only when nothing can be admitted. *)
Lemma drain_schedules_quiet fuel : forall s, (length (scheduleWaiters s) <= fuel)%nat ->
  schedules_quiet (drain_schedules fuel s).1.
Proof.
  induction fuel as [|fuel IH]; intros s Hf.
  - intros i w (_ & _ & Hw%lookup_lt_Some & _). simpl in *. lia.
  - cbn [drain_schedules]. destruct (Z.ltb_spec (active s) (capacity s)) as [Hlt|Hge]; cbn [negb].
    + destruct (select _ _) as [i|] eqn:Hi; [|by intros j w (_ & E & _); simpl in E; congruence].
      destruct (scheduleWaiters s !! i) as [w|] eqn:Hw;
        [|by intros j w (_ & E & E' & _); simpl in E, E'; congruence].
      destruct (Z.ltb_spec (capacity s) (active s + w_weight w)) as [Hbig|Hfit].
      * intros j w' (_ & E & E' & E''). simpl in *. assert (j = i) as -> by congruence.
        assert (w' = w) as -> by congruence. lia.
      * pose proof (remove_waiter_length i s w Hw). cbv zeta.
        destruct (entries s !! w_index w) as [[| |]|]; try (apply IH; simpl; unfold remove_waiter in *; lia).
        specialize (IH (grant i w s)). unfold grant in IH. fold (remove_waiter i s).
        destruct (drain_schedules fuel _) as [s1 o1]. simpl in *. apply IH. lia.
    + intros i w (E & _). simpl in E. lia.
Qed.

Lemma drain_reads_quiet fuel : forall s, (length (readWaiters s) <= fuel)%nat ->
  reads_quiet (drain_reads fuel s).1.
Proof.
  induction fuel as [|fuel IH]; intros s Hf.
  - simpl. intros Hr. destruct (readWaiters s); simpl in *; [done|lia].
  - cbn [drain_reads]. destruct (readWaiters s) as [|r rs] eqn:Hr; [by intros H; simpl in H|].
    destruct (ready_output s) as [[i o]|] eqn:Ho.
    + specialize (IH (deliver i rs s)). unfold deliver in IH. destruct (drain_reads fuel _) as [s1 o1].
      apply IH. simpl in *. lia.
    + destruct (closed s) eqn:Hc; simpl; [|intros _; split; [done|]; by intros [Hc' _]; rewrite Hc in Hc'].
      case_bool_decide as He; [|intros _; split; [done|]; by intros [_ He']].
      specialize (IH (dismiss rs s)). unfold dismiss in IH. destruct (drain_reads fuel _) as [s1 o1].
      apply IH. simpl in *. lia.
Qed.

(** Admissions do not make an output available, reads do not free a slot. *)
Lemma ready_output_insert s s' j e :
  entries s' = <[j := e]> (entries s) -> (forall o, entries s !! j <> Some (ESettled o)) ->
  (forall o, e <> ESettled o) -> outputOrder s' = outputOrder s -> nextOutput s' = nextOutput s ->
  settledOrder s' = settledOrder s -> ready_output s' = ready_output s.
Proof.
  intros Ee Hj He Eo En Es. unfold ready_output, output_index. rewrite Eo, En, Es.
  destruct (match outputOrder s with Completion => _ | ClaimOrder => _ end) as [i|]; [|done].
  rewrite Ee, lookup_insert. case_decide as Hd; [|done]. subst i.
  destruct e as [| |o]; [| |by destruct (He o)]; destruct (entries s !! j) as [[| |o']|] eqn:E; try done;
    by destruct (Hj o').
Qed.

Lemma drainSchedules_reads s : reads_quiet s -> reads_quiet (drainSchedules s).1.
Proof.
  intros H. apply (drain_schedules_preserves (fun _ s => reads_quiet s)) with (h := []); [| |done].
  - intros h s1 i w Hq _ He Hr. rewrite (ready_output_insert s1 _ (w_index w) (EScheduled (w_weight w)));
      try done; [by apply Hq|]. intros o. by rewrite He.
  - done.
Qed.

Lemma drainReads_schedules s : schedules_quiet s -> schedules_quiet (drainReads s).1.
Proof. intros H. by apply (drain_reads_preserves (fun _ s => schedules_quiet s)) with (h := []). Qed.

Lemma drains_quiet s : schedules_quiet (drainReads (drainSchedules s).1).1 /\
  reads_quiet (drainReads (drainSchedules s).1).1.
Proof. split; [by apply drainReads_schedules, drain_schedules_quiet|by apply drain_reads_quiet]. Qed.

Lemma step_quiet ev h s s' o : inv h s -> schedules_quiet s /\ reads_quiet s ->
  step ev s = Some (s', o) -> schedules_quiet s' /\ reads_quiet s'.
Proof.
  intros [Ha _] [Hs Hr]. destruct ev as [|i exclusive waits|i|i out| |r]; simpl.
  - intros [= E]. unfold claim in E. destruct (closed s) eqn:Hc; injection E as <- <-; [done|]. split; [done|].
    intros Hw. rewrite (ready_output_insert s _ (claimed s) EClaimed); try done.
    + split; [by apply Hr|]. simpl. intros [Hc' _]. congruence.
    + intros o'. by rewrite (fresh_entry s Ha).
  - case_match; [|done]. intros [= E]. unfold schedule in E. repeat case_bool_decide; try by injection E as <- <-.
    apply (f_equal fst) in E. cbn [fst] in E. subst. split; [by apply drain_schedules_quiet|].
    by apply drainSchedules_reads.
  - case_bool_decide; [|done]. intros [= E]. apply (f_equal fst) in E. cbn [fst] in E. subst.
    split; [by apply drain_schedules_quiet|by apply drainSchedules_reads].
  - case_match; [|done]. intros [= E]. unfold settle in E. case_bool_decide; [by injection E as <- <-|].
    destruct (entries s !! i) as [[|w|]|]; try by injection E as <- <-. cbv zeta in E.
    pose proof (drains_quiet (record_settlement i out w s)) as Hq. unfold record_settlement in *. cbv zeta in Hq.
    destruct (drainSchedules _) as [s1 o1]. simpl in Hq. destruct (drainReads s1) as [s2 o2].
    by injection E as <- <-.
  - intros [= E]. unfold close in E. destruct (closed s); [by injection E as <- <-|].
    apply (f_equal fst) in E. cbn [fst] in E. subst.
    split; [by apply drainReads_schedules|by apply drain_reads_quiet].
  - intros [= E]. apply (f_equal fst) in E. cbn [fst] in E. subst.
    split; [by apply drainReads_schedules|by apply drain_reads_quiet].
Qed.

Lemma exec_quiet evs : forall h s s' os, inv h s -> schedules_quiet s /\ reads_quiet s ->
  exec evs s = Some (s', os) -> adm s' /\ schedules_quiet s' /\ reads_quiet s'.
Proof.
  induction evs as [|ev evs IH]; intros h s s' os Hv Hq E; [by injection E as <- <-; destruct Hv|].
  apply channel_exec_cons in E as (s1 & o1 & o2 & E1 & E2 & ->).
  eapply (IH (h ++ o1) s1); [by eapply step_inv|by eapply step_quiet|done].
Qed.

(** No result to read, in terms of what settled and what was read. *)
Lemma nothing_to_read h s : in_order h s -> ready_output s = None ->
  match outputOrder s with Completion => length (reads h) = length (hist h) | ClaimOrder => length (reads h) ∉ (hist h).*1 end.
Proof.
  unfold in_order, ready_output, output_index. destruct (outputOrder s).
  - intros (rd & pend & -> & -> & Ep & He) Hn. destruct pend as [|[i o] pend]; [by rewrite app_nil_r, length_map|].
    rewrite <- Ep in Hn. cbn in Hn. rewrite (He i o) in Hn by left. done.
  - intros (En & _ & _ & He) Hn ([k o] & Ek & Hin)%list_elem_of_fmap. cbn in Ek. subst k. rewrite En in Hn.
    destruct (He _ _ Hin) as [H%lookup_lt_Some|H]; [lia|]. by rewrite H in Hn.
Qed.
(** What keeps a request waiting: a request for the whole channel up to it, which
    waits for its dependency or for the tasks that run. *)
Definition held_up (s : t) (i : nat) : Prop :=
  exists j b, (j <= i)%nat /\ scheduleWaiters s !! j = Some b /\ w_weight b = capacity s /\
    ((j < i)%nat /\ w_ready b = false \/ w_ready b = true /\ 0 < active s).
Lemma select_found cap ws i w : ws !! i = Some w -> w_ready w = true ->
  (exists k v, (k <= i)%nat /\ select cap ws = Some k /\ ws !! k = Some v /\ w_ready v = true) \/
  (exists j b, (j < i)%nat /\ ws !! j = Some b /\ w_ready b = false /\ w_weight b = cap).
Proof.
  revert i. induction ws as [|v ws IH]; intros i Hi Hw; [done|]. cbn [select]. destruct (w_ready v) eqn:Ev.
  { left. exists 0%nat, v. split_and!; [lia|done|done|done]. }
  destruct i as [|i]; [injection Hi as ->; congruence|].
  destruct (Z.eqb_spec (w_weight v) cap) as [Ec|Ec]; [right; exists 0%nat, v; split_and!; [lia|done|done|done]|].
  destruct (IH i Hi Hw) as [(k & u & Hk & Es & Eu & Hu)|(j & b & Hj & Eb & Hb)].
  - left. exists (S k), u. rewrite Es. split_and!; [lia|done|done|done].
  - right. exists (S j), b. split_and!; [lia|done|apply Hb|apply Hb].
Qed.
Lemma ready_waits s i w : adm s -> schedules_quiet s -> scheduleWaiters s !! i = Some w -> w_ready w = true ->
  active s = capacity s \/ held_up s i.
Proof.
  intros Ha Hq Hi Hw. destruct (decide (active s = capacity s)) as [|Hne]; [by left|right]. pose proof (a_bound _ Ha) as Hb.
  destruct (select_found (capacity s) (scheduleWaiters s) i w Hi Hw) as [(k & v & Hk & Es & Ev & Hv)|(j & b & Hj & Eb & Hb1 & Hb2)].
  - exists k, v. destruct (Z.le_gt_cases (active s + w_weight v) (capacity s)) as [Hle|Hgt].
    { destruct (Hq k v). split_and!; [lia|done|done|done]. }
    destruct (a_waiters _ Ha v) as [E|E]; [by eapply list_elem_of_lookup_2|lia|]. split_and!; [done|done|done|]. right. split; [done|lia].
  - exists j, b. split_and!; [lia|done|done|by left].
Qed.

(** C29: no wake-up is lost.  After any history:
    - a reader that waits has nothing to read: in completion order everything that
      settled was read, in claim order the next position has not settled, and the
      sequence is not over;
    - a request that is ready and waits does so because all slots are taken, or because
      it or an earlier request is for the whole channel and waits for its dependency
      or for the tasks that run.  Requests for the whole channel are the exclusive
      ones, and all requests when the capacity is one ([capacity_one_barrier]);
    - so a channel without tasks has admitted the first request if it was ready. *)
Theorem channel_progress (cap : Z) (order : OutputOrder) (evs : list event) (s0 s : t) (os : list output) :
  make cap order = Ok s0 -> exec evs s0 = Some (s, os) ->
  (readWaiters s <> [] ->
     match order with Completion => length (reads os) = length (hist os) | ClaimOrder => length (reads os) ∉ (hist os).*1 end /\
     ~ (closed s = true /\ length (reads os) = claimed s)) /\
  (forall i w, scheduleWaiters s !! i = Some w -> w_ready w = true -> active s = cap \/ held_up s i) /\
  (forall w, active s = 0 -> head (scheduleWaiters s) = Some w -> w_ready w = false).
Proof.
  intros Hm E. destruct (exec_quiet evs [] s0 s os (make_inv _ _ _ Hm)) as (Ha & Hs & Hr); [|done|].
  { unfold make in Hm. destruct (_ || _); [done|]. injection Hm as <-. split; [|done].
    by intros i w (_ & E' & _). }
  destruct (exec_inv evs [] s0 s os (make_inv _ _ _ Hm) E) as [_ Ho]. change (out os s) in Ho.
  destruct (exec_config _ _ _ _ E) as [Ecap Eord]. destruct (make_config _ _ _ Hm) as [Ec0 Eo0].
  split; [|split].
  - intros Hw. destruct (Hr Hw) as [Hn Hcl]. pose proof (o_consumed _ _ Ho) as Hcons. pose proof (o_order _ _ Ho) as Hord.
    split; [|by rewrite <- Hcons]. rewrite <- Eo0, <- Eord. by apply (nothing_to_read os).
  - intros i w Hi Hw. rewrite <- Ec0, <- Ecap. by eapply ready_waits.
  - intros w Ha0 Hw. destruct (w_ready w) eqn:Hrd; [|done]. exfalso.
    destruct (scheduleWaiters s) as [|w' ws] eqn:Ews; [done|]. injection Hw as ->. pose proof (a_cap _ Ha) as Hcap.
    destruct (ready_waits s 0 w Ha Hs) as [?|(j & b & Hj & _ & _ & [[? _]|[_ ?]])]; [by rewrite Ews|done|lia..].
Qed.
End channel.

Definition sample_channel : list (event (T := nat)) :=
  [EvClaim; EvClaim; EvClaim; EvNext 7%nat; EvSchedule 0 false true; EvSchedule 1 false false; EvSchedule 2 true false;
   EvSettle 1 (Fulfilled 11%nat); EvReady 0; EvClose].

Lemma channel_capacity_witness :
  exists s0 s os, make (T := nat) 2 Completion = Ok s0 /\ exec sample_channel s0 = Some (s, os) /\
  active s = load (entries s) (claimed s) /\ 0 <= active s <= 2 /\
  (forall l, NoDup l -> (forall i, i ∈ l -> exists w, entries s !! i = Some (EScheduled w)) -> zlen l <= 2) /\
  (forall i j w, entries s !! i = Some (EScheduled 2) -> entries s !! j = Some (EScheduled w) -> j = i).
Proof.
  do 3 eexists. split; [reflexivity|]. split; [vm_compute; reflexivity|].
  eapply (channel_capacity 2 Completion sample_channel); [reflexivity|vm_compute; reflexivity].
Defined.

Lemma channel_output_witness :
  exists s0 s os, make (T := nat) 2 Completion = Ok s0 /\ exec sample_channel s0 = Some (s, os) /\
  outputOrder s = Completion /\ NoDup (hist os).*1 /\ in_order os s /\
  (dones os <> [] -> closed s = true /\ length (reads os) = claimed s).
Proof.
  do 3 eexists. split; [reflexivity|]. split; [vm_compute; reflexivity|].
  eapply (channel_output 2 Completion sample_channel); [reflexivity|vm_compute; reflexivity].
Defined.

Lemma channel_progress_witness :
  exists s0 s os, make (T := nat) 2 Completion = Ok s0 /\ exec sample_channel s0 = Some (s, os) /\
  (readWaiters s <> [] -> length (reads os) = length (hist os) /\ ~ (closed s = true /\ length (reads os) = claimed s)) /\
  (forall i w, scheduleWaiters s !! i = Some w -> w_ready w = true -> active s = 2 \/ held_up s i) /\
  (forall w, active s = 0 -> head (scheduleWaiters s) = Some w -> w_ready w = false).
Proof.
  do 3 eexists. split; [reflexivity|]. split; [vm_compute; reflexivity|].
  eapply (channel_progress 2 Completion sample_channel); [reflexivity|vm_compute; reflexivity].
Defined.

(** With capacity 1 every request has the weight of the whole channel, so one
    that waits for its dependency is a barrier although it is not exclusive;
    with more slots it is skipped. *)
Example capacity_one_barrier :
  let evs := [EvClaim; EvClaim; EvSchedule 0 false true; EvSchedule 1 false false] in
  let outputs cap := match make (T := nat) cap Completion with
                     | Ok s0 => snd <$> exec evs s0
                     | Throw _ => None
                     end in
  outputs 1 = Some [Claimed 0; Claimed 1] /\ outputs 2 = Some [Claimed 0; Claimed 1; Granted 1].
Proof. vm_compute. done. Qed.
End TaskChannel.
