(* ===== verification/Signals.v ===== *)
(** Reactive values: src/js/signals.ts.

    Signals and the nodes made by [computed] and [effect] live in one state with the
    module's own variables.  A callback of the user is a program of reads and writes
    of signals, batches and guarded parts ([prog]); a subscriber is the [rerun] of a
    node or a callback whose calls are recorded in the log.  An operation keeps its
    changes when it throws.  [V] has [Object.is] for its equality; [updater] is what a
    value does when [set] finds that it is a function.

    [fromIterable] is not modelled: it is [lazy] over a source of the host. *)

From stdpp Require Import sets.
From S2P Require Import Prelude.

Module Signals.

Section signals.
Context {V : Type} `{!EqDecision V} (undefined : V) (updater : V -> option (V -> V)).

(** ** State *)

(** A callback: what it returns or throws, after what it does with the module.  The
    argument of [set] is the function from the old value to the new one. *)
Inductive prog :=
| Done (v : V)
| Fail (e : exn)
| Read (s : nat) (k : V -> prog)
| Write (s : nat) (f : V -> V) (k : prog)
| Batch (p : prog) (k : V -> prog)
| Guard (g : nat -> option exn) (p : prog) (k : V -> prog).

Inductive subscriber := Rerun (n : nat) | Call (l : nat).
#[global] Instance subscriber_eq_dec : EqDecision subscriber.
Proof. solve_decision. Defined.

Record Signal := { value : V; previous : V; dirty : bool; subscribers : list subscriber }.
(** The variables of [computed] ([out] is its signal) and [effect]; [deps] are the
    subscriptions that [disposeDeps] ends. *)
Record node := { fn : prog; out : option nat; deps : list nat; running : bool; disposed : bool }.
Record LazySignal := { inner : nat; count : Z; started : bool }.
(** The function that [subscribe] returns. *)
Record disposer := { on : nat + nat; callback : nat; active : bool }.
Inductive output :=
| Notified (l : nat) (v previous : V)
| Ran (n : nat) (v : V)
| Started (z : nat)
| Stopped (z : nat).
Record state := {
  signals : list Signal;
  nodes : list node;
  lazies : list LazySignal;
  disposers : list disposer;
  batchDepth : Z;
  pendingSignals : list nat;
  readObservers : list (list nat);
  writeGuards : list (nat -> option exn);
  log : list output;
}.
Definition empty : state :=
  {| signals := []; nodes := []; lazies := []; disposers := []; batchDepth := 0; pendingSignals := []; readObservers := []; writeGuards := []; log := [] |}.

Definition with_signals (f : list Signal -> list Signal) (st : state) : state :=
  {| signals := f (signals st); nodes := nodes st; lazies := lazies st; disposers := disposers st; batchDepth := batchDepth st; pendingSignals := pendingSignals st;
     readObservers := readObservers st; writeGuards := writeGuards st; log := log st |}.
Definition with_nodes (f : list node -> list node) (st : state) : state :=
  {| signals := signals st; nodes := f (nodes st); lazies := lazies st; disposers := disposers st; batchDepth := batchDepth st; pendingSignals := pendingSignals st;
     readObservers := readObservers st; writeGuards := writeGuards st; log := log st |}.
Definition with_lazies (f : list LazySignal -> list LazySignal) (st : state) : state :=
  {| signals := signals st; nodes := nodes st; lazies := f (lazies st); disposers := disposers st; batchDepth := batchDepth st; pendingSignals := pendingSignals st;
     readObservers := readObservers st; writeGuards := writeGuards st; log := log st |}.
Definition with_disposers (f : list disposer -> list disposer) (st : state) : state :=
  {| signals := signals st; nodes := nodes st; lazies := lazies st; disposers := f (disposers st); batchDepth := batchDepth st;
     pendingSignals := pendingSignals st; readObservers := readObservers st; writeGuards := writeGuards st; log := log st |}.
Definition with_batch (d : Z) (p : list nat) (st : state) : state :=
  {| signals := signals st; nodes := nodes st; lazies := lazies st; disposers := disposers st; batchDepth := d; pendingSignals := p;
     readObservers := readObservers st; writeGuards := writeGuards st; log := log st |}.
Definition with_observers (o : list (list nat)) (st : state) : state :=
  {| signals := signals st; nodes := nodes st; lazies := lazies st; disposers := disposers st; batchDepth := batchDepth st; pendingSignals := pendingSignals st;
     readObservers := o; writeGuards := writeGuards st; log := log st |}.
Definition with_guards (g : list (nat -> option exn)) (st : state) : state :=
  {| signals := signals st; nodes := nodes st; lazies := lazies st; disposers := disposers st; batchDepth := batchDepth st; pendingSignals := pendingSignals st;
     readObservers := readObservers st; writeGuards := g; log := log st |}.
Definition emit (o : output) (st : state) : state :=
  {| signals := signals st; nodes := nodes st; lazies := lazies st; disposers := disposers st; batchDepth := batchDepth st; pendingSignals := pendingSignals st;
     readObservers := readObservers st; writeGuards := writeGuards st; log := log st ++ [o] |}.
Definition set_value (v previous : V) (x : Signal) : Signal :=
  {| value := v; previous := previous; dirty := true; subscribers := subscribers x |}.
Definition clean (x : Signal) : Signal := {| value := value x; previous := previous x; dirty := false; subscribers := subscribers x |}.
Definition with_subscribers (f : list subscriber -> list subscriber) (x : Signal) : Signal :=
  {| value := value x; previous := previous x; dirty := dirty x; subscribers := f (subscribers x) |}.
Definition with_deps (d : list nat) (x : node) : node :=
  {| fn := fn x; out := out x; deps := d; running := running x; disposed := disposed x |}.
Definition with_running (r : bool) (x : node) : node :=
  {| fn := fn x; out := out x; deps := deps x; running := r; disposed := disposed x |}.
Definition with_disposed (x : node) : node :=
  {| fn := fn x; out := out x; deps := deps x; running := running x; disposed := true |}.

(** ** Code that throws and keeps its changes *)

Definition M (A : Type) : Type := state -> res A * state.
#[global] Instance M_ret : MRet M := fun A a st => (Ok a, st).
#[global] Instance M_bind : MBind M := fun A B f m st => match m st with (Ok a, st) => f a st | (Throw e, st) => (Throw e, st) end.
Definition modify (f : state -> state) : M unit := fun st => (Ok tt, f st).
Definition raise {A} (e : exn) : M A := fun st => (Throw e, st).
(** [try { body } finally { last }] *)
Definition finally {A} (body : M A) (last : M unit) : M A := fun st =>
  let '(r, st) := body st in
  match last st with (Ok _, st) => (r, st) | (Throw e, st) => (Throw e, st) end.
Definition each {A} (f : A -> M unit) : list A -> M unit := fix go l := match l with [] => mret tt | x :: l => f x;; go l end.

(** [Set.add] and [Set.delete], in the order of insertion. *)
Definition add_once {A} `{!EqDecision A} (x : A) (l : list A) : list A := if bool_decide (x ∈ l) then l else l ++ [x].
Definition remove_from {A} `{!EqDecision A} (x : A) (l : list A) : list A := base.filter (fun y => y <> x) l.

(** ** Signals *)

(** [typeof next === 'function'] *)
Definition setter (next : V) : V -> V := default (fun _ => next) (updater next).

(** [get()]: the innermost observer sees each signal once. *)
Definition get (s : nat) : M V := fun st =>
  match signals st !! s with
  | None => (Throw (TypeError "undefined is not an object"), st)
  | Some x =>
      (Ok (value x), match readObservers st with
      | seen :: o => with_observers (add_once s seen :: o) st
      | [] => st
      end)
  end.
Definition subscribe (s : nat) (f : subscriber) : M unit := modify (with_signals (alter (with_subscribers (add_once f)) s)).
Definition unsubscribe (s : nat) (f : subscriber) : M unit := modify (with_signals (alter (with_subscribers (remove_from f)) s)).

Section notify.
(** Calling a subscriber. *)
Context (notify : subscriber -> V -> V -> M unit).
Definition flush (s : nat) : M unit := fun st =>
  match signals st !! s with
  | None => (Throw (TypeError "undefined is not an object"), st)
  | Some x =>
      if dirty x then each (fun f => notify f (value x) (previous x)) (subscribers x) (with_signals (alter clean s) st)
      else (Ok tt, st)
  end.
Definition set (s : nat) (next : V -> V) : M unit := fun st =>
  match signals st !! s with
  | None => (Throw (TypeError "undefined is not an object"), st)
  | Some x =>
      let v := next (value x) in
      if decide (value x = v) then (Ok tt, st)
      else match (match writeGuards st with g :: _ => g s | [] => None end) with
      | Some e => (Throw e, st)
      | None =>
          let st := with_signals (alter (set_value v (if dirty x then previous x else value x)) s) st in
          if 0 <? batchDepth st then (Ok tt, with_batch (batchDepth st) (add_once s (pendingSignals st)) st)
          else flush s st
      end
  end.
Definition flushSignals : M unit := fun st => each flush (pendingSignals st) (with_batch (batchDepth st) [] st).
Definition batch {A} (fn : M A) : M A := fun st =>
  finally fn (fun st =>
    let st := with_batch (batchDepth st - 1) (pendingSignals st) st in
    if batchDepth st =? 0 then flushSignals st else (Ok tt, st))
    (with_batch (batchDepth st + 1) (pendingSignals st) st).
Definition withWriteGuard {A} (g : nat -> option exn) (fn : M A) : M A := fun st =>
  finally fn (modify (fun st => with_guards (tl (writeGuards st)) st)) (with_guards (g :: writeGuards st) st).
Fixpoint execute (p : prog) : M V :=
  match p with
  | Done v => mret v
  | Fail e => raise e
  | Read s k => v ← get s; execute (k v)
  | Write s f k => set s f;; execute k
  | Batch p k => v ← batch (execute p); execute (k v)
  | Guard g p k => v ← withWriteGuard g (execute p); execute (k v)
  end.
Definition observeReads (p : prog) : M (V * list nat) := fun st =>
  let '(r, st) := execute p (with_observers ([] :: readObservers st) st) in
  let seen := hd [] (readObservers st) in
  let st := with_observers (tl (readObservers st)) st in
  match r with Ok v => (Ok (v, seen), st) | Throw e => (Throw e, st) end.
Definition disposeDeps (n : nat) : M unit := fun st =>
  match nodes st !! n with
  | None => (Ok tt, st)
  | Some x => (each (fun s => unsubscribe s (Rerun n)) (deps x);; modify (with_nodes (alter (with_deps []) n))) st
  end.
Definition subscribeAll (n : nat) (ss : list nat) : M unit :=
  each (fun s => subscribe s (Rerun n)) ss;; modify (with_nodes (alter (with_deps ss) n)).
(** The [rerun] of [computed] and of [effect]. *)
Definition rerun (n : nat) : M unit := fun st =>
  match nodes st !! n with
  | None => (Ok tt, st)
  | Some x =>
      if disposed x || running x then (Ok tt, st)
      else
        (modify (with_nodes (alter (with_running true) n));;
         finally (
           disposeDeps n;;
           observed ← observeReads (fn x);
           match out x with Some o => set o (setter observed.1) | None => modify (emit (Ran n observed.1)) end;;
           subscribeAll n observed.2)
         (modify (with_nodes (alter (with_running false) n)))) st
  end.
End notify.

(** Subscribers, with fuel for how deep notifications nest. *)
Fixpoint notify (fuel : nat) (f : subscriber) (v previous : V) : M unit :=
  match fuel with
  | O => raise Diverges
  | S fuel =>
      match f with
      | Call l => modify (emit (Notified l v previous))
      | Rerun n => rerun (notify fuel) n
      end
  end.
Definition fuel_of (st : state) : nat := S (S (length (signals st))).

(** ** Operations *)

Definition createSignal (initial : V) : M nat := fun st =>
  (Ok (length (signals st)), with_signals (fun l => l ++ [{| value := initial; previous := initial; dirty := false; subscribers := [] |}]) st).
(** A node and its first run. *)
Definition start (p : prog) (out : option nat) : M nat := fun st =>
  let n := length (nodes st) in
  let st := with_nodes (fun l => l ++ [{| fn := p; out := out; deps := []; running := false; disposed := false |}]) st in
  (rerun (notify (fuel_of st)) n;; mret n) st.
Definition computed (p : prog) : M nat := o ← createSignal undefined; start p (Some o);; mret o.
Definition effect (p : prog) : M nat := start p None.
(** The function that [effect] returns. *)
Definition dispose (n : nat) : M unit := fun st =>
  match nodes st !! n with
  | Some x => if disposed x then (Ok tt, st) else (modify (with_nodes (alter with_disposed n));; disposeDeps n) st
  | None => (Ok tt, st)
  end.
(** Code of the user outside of any callback. *)
Definition perform (p : prog) : M V := fun st => execute (notify (fuel_of st)) p st.

(** [signal.subscribe(l)] and the function that it returns. *)
Definition add_disposer (d : disposer) : M nat := fun st => (Ok (length (disposers st)), with_disposers (fun l => l ++ [d]) st).
Definition signal_subscribe (s l : nat) : M nat := subscribe s (Call l);; add_disposer {| on := inl s; callback := l; active := true |}.

(** [lazy], whose producer is started by its first subscriber. *)
Definition lazy (initial : V) : M nat :=
  s ← createSignal initial;
  (fun st => (Ok (length (lazies st)), with_lazies (fun l => l ++ [{| inner := s; count := 0; started := false |}]) st)) : M nat.
Definition lazy_get (z : nat) : M V := fun st =>
  match lazies st !! z with Some x => get (inner x) st | None => (Throw (TypeError "undefined is not an object"), st) end.
(** What the producer calls. *)
Definition lazy_set (z : nat) (v : V) : M unit := fun st =>
  match lazies st !! z with Some x => set (notify (fuel_of st)) (inner x) (setter v) st | None => (Ok tt, st) end.
Definition lazy_subscribe (z l : nat) : M nat := fun st =>
  match lazies st !! z with
  | None => (Throw (TypeError "undefined is not an object"), st)
  | Some x =>
      let count := count x + 1 in
      (subscribe (inner x) (Call l);;
       modify (with_lazies (alter (fun x => {| inner := inner x; count := count; started := started x || (count =? 1) |}) z));;
       (if count =? 1 then modify (emit (Started z)) else mret tt);;
       add_disposer {| on := inr z; callback := l; active := true |}) st
  end.
Definition lazy_unsubscribe (z l : nat) : M unit := fun st =>
  match lazies st !! z with
  | None => (Ok tt, st)
  | Some x =>
      let count := count x - 1 in
      (unsubscribe (inner x) (Call l);;
       modify (with_lazies (alter (fun x => {| inner := inner x; count := count; started := started x && negb (count =? 0) |}) z));;
       if (count =? 0) && started x then modify (emit (Stopped z)) else mret tt) st
  end.
Definition unsubscribe_with (i : nat) : M unit := fun st =>
  match disposers st !! i with
  | Some d =>
      if active d then
        (modify (with_disposers (alter (fun d => {| on := on d; callback := callback d; active := false |}) i));;
         match on d with inl s => unsubscribe s (Call (callback d)) | inr z => lazy_unsubscribe z (callback d) end) st
      else (Ok tt, st)
  | None => (Ok tt, st)
  end.
End signals.
End Signals.
