(* ===== verification/SignalsConsistent.v ===== *)
(** Derived values and effects follow the signals that they read: the theorem about
    the operations of [Signals]. *)

From stdpp Require Import sets.
From S2P Require Import Prelude Signals.
Import Signals.

Module SignalsConsistent.

Section consistent.
Context {V : Type} `{!EqDecision V} (undefined : V) (updater : V -> option (V -> V)).
Notation prog := (prog (V := V)).
Notation state := (state (V := V)).
Notation node := (node (V := V)).
Notation output := (output (V := V)).
Implicit Types (st : state) (x y : node) (p : prog).

(** ** What the state says *)

Definition val st (s : nat) : V := from_option value undefined (signals st !! s).
Definition subs st (s : nat) : list subscriber := from_option subscribers [] (signals st !! s).
Definition is_dirty st (s : nat) : bool := from_option dirty false (signals st !! s).

(** A callback that only computes: its value and the signals that it reads. *)
Fixpoint eval (σ : nat -> V) (p : prog) (seen : list nat) : V * list nat :=
  match p with
  | Done v => (v, seen)
  | Read s k => eval σ (k (σ s)) (add_once s seen)
  | _ => (undefined, seen)
  end.
(** Such a callback, which reads signals below [b]; what it returns is not a function. *)
Fixpoint derivation (b : nat) (p : prog) : Prop :=
  match p with
  | Done v => updater v = None
  | Read s k => (s < b)%nat /\ forall v, derivation b (k v)
  | _ => False
  end.
(** The value with which an effect was last run. *)
Definition ran (n : nat) (o : output) : option V := match o with Ran m v => if decide (m = n) then Some v else None | _ => None end.
Definition last_run (n : nat) (l : list output) : option V := last (omap (ran n) l).

(** A node whose last run saw what the signals hold now. *)
Definition settled st (n : nat) x : Prop :=
  let '(v, read) := eval (val st) (fn x) [] in
  deps x = read /\ match out x with Some o => val st o = v | None => last_run n (log st) = Some v end.
Definition rank st x : nat := default (length (signals st)) (out x).

Record node_ok st x : Prop := {
  node_out : (rank st x <= length (signals st))%nat /\ out x <> Some (length (signals st));
  node_fn : derivation (rank st x) (fn x);
  node_deps : Forall (fun s => s < rank st x)%nat (deps x);
  node_idle : running x || disposed x = true -> deps x = [];
}.
(** Between two steps, a node that is not settled is running, is still to be called
    ([P]), or reads a signal whose change has not been notified. *)
Record Inv (P : list nat) st : Prop := {
  inv_node n x : nodes st !! n = Some x -> node_ok st x;
  inv_out n m x y o : nodes st !! n = Some x -> nodes st !! m = Some y -> out x = Some o -> out y = Some o -> n = m;
  inv_subs s n : Rerun n ∈ subs st s <-> exists x, nodes st !! n = Some x /\ s ∈ deps x;
  inv_settled n x : nodes st !! n = Some x -> disposed x = false ->
    running x = true \/ n ∈ P \/ (exists s, s ∈ deps x /\ is_dirty st s = true) \/ settled st n x;
}.

(** What a notification leaves as it was, [b] being the lowest signal that it changes. *)
Definition shape x : prog * option nat * bool * bool := (fn x, out x, running x, disposed x).
Record frame (b : nat) st st' : Prop := {
  frame_length : length (signals st') = length (signals st);
  frame_val s : (s < b)%nat -> val st' s = val st s;
  frame_dirty s : is_dirty st' s = true -> is_dirty st s = true;
  frame_nodes n : shape <$> nodes st' !! n = shape <$> nodes st !! n;
  frame_batch : batchDepth st' = batchDepth st;
  frame_pending : pendingSignals st' = pendingSignals st;
  frame_observers : readObservers st' = readObservers st;
  frame_guards : writeGuards st' = writeGuards st;
  frame_lazies : lazies st' = lazies st;
}.
#[local] Instance frame_refl b : Reflexive (frame b).
Proof. intros st. by split. Qed.
Lemma signals_frame_trans b st1 st2 st3 : frame b st1 st2 -> frame b st2 st3 -> frame b st1 st3.
Proof.
  intros [L1 Hv1 Hd1 Hn1 ?????] [L2 Hv2 Hd2 Hn2 ?????]. split; [congruence| |auto| |congruence..].
  - intros s Hs. by rewrite Hv2, Hv1.
  - intros n. by rewrite Hn2, Hn1.
Qed.
Lemma frame_le b b' st st' : (b <= b')%nat -> frame b' st st' -> frame b st st'.
Proof. intros ? []. split; [done| |done..]. intros s ?. eauto with lia. Qed.

(** ** Callbacks that only compute *)

Lemma add_once_elem (s t : nat) l : t ∈ add_once s l <-> t = s \/ t ∈ l.
Proof. unfold add_once. case_bool_decide; [|rewrite elem_of_app]; set_solver. Qed.
Lemma eval_seen σ p seen : seen ⊆ (eval σ p seen).2.
Proof.
  revert seen. induction p as [| |s k IH| | |]; intros seen; simpl; try done.
  etrans; [|apply IH]. intros t. rewrite add_once_elem. auto.
Qed.
Lemma eval_frame σ σ' p seen :
  (forall s, s ∈ (eval σ p seen).2 -> σ' s = σ s) -> eval σ' p seen = eval σ p seen.
Proof.
  revert seen. induction p as [| |s k IH| | |]; intros seen Hσ; simpl in *; try done.
  rewrite (Hσ s); [by apply IH|]. apply eval_seen, add_once_elem. by left.
Qed.
Lemma eval_bound b σ p seen :
  derivation b p -> Forall (fun s => s < b)%nat seen -> Forall (fun s => s < b)%nat (eval σ p seen).2.
Proof.
  revert seen. induction p as [| |s k IH| | |]; intros seen Hp Hs; simpl in *; try done.
  destruct Hp as [? Hk]. apply IH; [done|]. rewrite Forall_forall in *. intros t. rewrite add_once_elem. naive_solver.
Qed.
Lemma derivation_le b b' p : (b <= b')%nat -> derivation b p -> derivation b' p.
Proof. induction p; simpl; naive_solver lia. Qed.
Lemma derivation_value b σ p seen : derivation b p -> updater (eval σ p seen).1 = None.
Proof. revert seen. induction p; intros; simpl in *; naive_solver. Qed.

Lemma val_lookup st s (a : Signal) : signals st !! s = Some a -> value a = val st s.
Proof. unfold val. by intros ->. Qed.
Lemma run_derivation notify p st seen obs :
  derivation (length (signals st)) p -> readObservers st = seen :: obs ->
  execute notify p st = (Ok (eval (val st) p seen).1, with_observers ((eval (val st) p seen).2 :: obs) st).
Proof.
  revert st seen. induction p as [| |s k IH| | |]; intros st seen Hp Hobs; simpl in *; try done.
  { destruct st; simpl in *. by rewrite <-Hobs. }
  destruct Hp as [Hs Hk]. apply lookup_lt_is_Some in Hs as [x Hx].
  unfold mbind, M_bind, get. rewrite Hx, Hobs, (val_lookup _ _ _ Hx).
  rewrite (IH _ _ (add_once s seen)); [done|apply Hk|done].
Qed.

(** ** Subscriptions *)

(** Two states that differ only in who is subscribed and in their nodes. *)
Record kept st st' : Prop := {
  kept_length : length (signals st') = length (signals st);
  kept_val s : val st' s = val st s;
  kept_dirty s : is_dirty st' s = is_dirty st s;
  kept_batch : batchDepth st' = batchDepth st;
  kept_pending : pendingSignals st' = pendingSignals st;
  kept_observers : readObservers st' = readObservers st;
  kept_guards : writeGuards st' = writeGuards st;
  kept_lazies : lazies st' = lazies st;
  kept_log : log st' = log st;
}.
#[local] Instance kept_refl : Reflexive kept.
Proof. intros st. by split. Qed.
#[local] Instance kept_trans : Transitive kept.
Proof.
  intros st1 st2 st3 [L1 Hv1 Hd1 ??????] [L2 Hv2 Hd2 ??????]. split; [congruence| | |congruence..].
  all: intros ?; first [by rewrite Hv2|by rewrite Hd2].
Qed.
Lemma kept_frame b st st' : kept st st' -> (forall n, shape <$> nodes st' !! n = shape <$> nodes st !! n) -> frame b st st'.
Proof. intros []. split; try done. intros s. by rewrite kept_dirty0. Qed.

Lemma lookup_signal f s t st :
  signals (with_signals (alter f s) st) !! t = if decide (s = t) then f <$> signals st !! t else signals st !! t.
Proof. simpl. case_decide; [subst; apply list_lookup_alter_eq|by apply list_lookup_alter_ne]. Qed.
Lemma with_subs_kept g s st : kept st (with_signals (alter (with_subscribers g) s) st).
Proof.
  split; try done; [by simpl; rewrite length_alter|intros t..]; unfold val, is_dirty; rewrite lookup_signal.
  all: case_decide; [by destruct (signals st !! t)|done].
Qed.
Lemma with_subs_subs g s st t :
  subs (with_signals (alter (with_subscribers g) s) st) t = if decide (s = t /\ is_Some (signals st !! s)) then g (subs st t) else subs st t.
Proof.
  unfold subs. rewrite lookup_signal. destruct (decide (s = t)) as [->|]; [|by rewrite decide_False by tauto].
  destruct (signals st !! t) eqn:E; simpl; [by rewrite decide_True|].
  rewrite decide_False; [done|]. intros [_ [? ?]]. congruence.
Qed.
Lemma bind_ok {A B} (m : M (V := V) A) (f : A -> M B) a st st' : m st = (Ok a, st') -> (m ≫= f) st = f a st'.
Proof. unfold mbind, M_bind. by intros ->. Qed.
Lemma unsubscribe_all f l st :
  exists st', each (fun s => unsubscribe s f) l st = (Ok tt, st') /\ kept st st' /\ nodes st' = nodes st /\
    forall g t, g ∈ subs st' t <-> g ∈ subs st t /\ ~ (g = f /\ t ∈ l).
Proof.
  revert st. induction l as [|s l IH]; intros st.
  { exists st. split_and!; [done..|]. set_solver. }
  destruct (IH (with_signals (alter (with_subscribers (remove_from f)) s) st)) as (st' & E & Hk & Hn & Hs).
  exists st'. split_and!; [done|by etrans; [apply with_subs_kept|]|done|].
  intros g t. rewrite Hs, with_subs_subs. case_decide as Hd.
  - unfold remove_from. rewrite list_elem_of_filter. set_solver.
  - split; [intros [? Hl]|set_solver]. split; [done|]. intros [-> [->|?]%elem_of_cons]; [|by apply Hl].
    apply Hd. split; [done|]. unfold subs in *. by destruct (signals st !! s); [|set_solver].
Qed.
Lemma subscribe_all f l st :
  Forall (fun s => s < length (signals st))%nat l ->
  exists st', each (fun s => subscribe s f) l st = (Ok tt, st') /\ kept st st' /\ nodes st' = nodes st /\
    forall g t, g ∈ subs st' t <-> g ∈ subs st t \/ (g = f /\ t ∈ l).
Proof.
  revert st. induction l as [|s l IH]; intros st Hl.
  { exists st. split_and!; [done..|]. set_solver. }
  apply Forall_cons in Hl as [Hs Hl].
  destruct (IH (with_signals (alter (with_subscribers (add_once f)) s) st)) as (st' & E & Hk & Hn & Hsub).
  { simpl. by rewrite length_alter. }
  exists st'. split_and!; [done|by etrans; [apply with_subs_kept|]|done|].
  intros g t. rewrite Hsub, with_subs_subs. case_decide as Hd.
  - destruct Hd as [-> _]. unfold add_once. case_bool_decide; set_solver.
  - assert (s <> t) by (intros ->; apply Hd; split; [done|by apply lookup_lt_is_Some]). set_solver.
Qed.

(** ** Steps that keep the invariant *)

Lemma Inv_mono P P' st : P ⊆ P' -> Inv P st -> Inv P' st.
Proof. intros ? []. split; [done..|]. intros n x Hx Hd. destruct (inv_settled0 n x Hx Hd) as [?|[?|?]]; auto. Qed.
Lemma frame_rank b st st' n x :
  frame b st st' -> nodes st !! n = Some x -> exists x', nodes st' !! n = Some x' /\ shape x' = shape x /\ rank st' x' = rank st x.
Proof.
  intros Hf Hx. pose proof (frame_nodes _ _ _ Hf n) as E. rewrite Hx in E.
  apply fmap_Some in E as (x' & Hx' & E). exists x'. split_and!; [done..|].
  unfold rank. rewrite (frame_length _ _ _ Hf). unfold shape in E. injection E as _ Eo _ _. by rewrite Eo.
Qed.
Lemma settled_frame st st' n x x' :
  fn x' = fn x -> out x' = out x -> deps x' = deps x ->
  (forall s, s ∈ deps x -> val st' s = val st s) -> (forall o, out x = Some o -> val st' o = val st o) ->
  (out x = None -> last_run n (log st') = last_run n (log st)) -> settled st n x -> settled st' n x'.
Proof.
  unfold settled. intros -> -> -> Hv Ho Hl. destruct (eval (val st) (fn x) []) as [v read] eqn:E. intros [Hd H].
  rewrite (eval_frame (val st)), E by (rewrite E; simpl; by rewrite <-Hd).
  split; [done|]. destruct (out x); [by rewrite Ho|by rewrite Hl].
Qed.
(** One node changes: it runs, or it has settled. *)
Lemma Inv_node P n x x' st st' :
  Inv (n :: P) st -> kept st st' -> nodes st !! n = Some x -> (forall m, nodes st' !! m = if decide (n = m) then Some x' else nodes st !! m) ->
  fn x' = fn x -> out x' = out x -> Forall (fun s => s < rank st x)%nat (deps x') -> (running x' || disposed x' = true -> deps x' = []) ->
  (disposed x' = false -> running x' = true \/ settled st' n x') ->
  (forall t m, Rerun m ∈ subs st' t <-> if decide (n = m) then t ∈ deps x' else Rerun m ∈ subs st t) -> Inv P st'.
Proof.
  intros [Hok Hout Hsub Hset] Hk Hx Hn Ef Eo Hd Hdis Hnew Hs.
  assert (Hr : forall y, rank st' y = rank st y) by (intros y; unfold rank; by rewrite (kept_length _ _ Hk)).
  assert (Hold : forall m y, nodes st' !! m = Some y -> exists z, nodes st !! m = Some z /\ fn y = fn z /\ out y = out z).
  { intros m y. rewrite Hn. case_decide; [subst|]; naive_solver. }
  split.
  - intros m y Hy. rewrite Hn in Hy. case_decide; [simplify_eq|].
    + destruct (Hok _ _ Hx) as [? Hf _ _]. split; rewrite ?Hr, ?(kept_length _ _ Hk); unfold rank in *; by rewrite ?Ef, ?Eo.
    + destruct (Hok _ _ Hy). split; by rewrite ?Hr, ?(kept_length _ _ Hk).
  - intros i j y z o (y' & ? & ? & ?)%Hold (z' & ? & ? & ?)%Hold ??. apply (Hout i j y' z' o); congruence.
  - intros s m. rewrite Hs. setoid_rewrite Hn. case_decide; [naive_solver|apply Hsub].
  - intros m y Hy Hdy. rewrite Hn in Hy. case_decide; [simplify_eq; naive_solver|].
    destruct (Hset _ _ Hy Hdy) as [?|[[|]%elem_of_cons|[(s & ? & ?)|Hset']]]; [by left|done|by right; left| |].
    + right; right; left. exists s. by rewrite (kept_dirty _ _ Hk).
    + right; right; right. eapply settled_frame; [..|exact Hset']; try done; [intros; apply Hk..|].
      intros _. by rewrite (kept_log _ _ Hk).
Qed.
Lemma Inv_log P o st :
  (forall m x, nodes st !! m = Some x -> running x = false -> ran m o = None) -> Inv P st -> Inv P (emit o st).
Proof.
  intros Ho [Hok Hout Hsub Hset]. split; [|exact Hout|exact Hsub|].
  { intros n x Hx. by destruct (Hok n x Hx). }
  intros n x Hx Hd. destruct (running x) eqn:R; [by left|].
  destruct (Hset _ _ Hx Hd) as [?|[?|[?|Hs]]]; [congruence|tauto..|right; right; right].
  eapply settled_frame; [..|exact Hs]; try done. intros _. simpl. unfold last_run.
  rewrite omap_app. simpl. by rewrite (Ho _ _ Hx R), app_nil_r.
Qed.

(** ** Notification *)

(** [N] calls the subscribers of the last [k] signals. *)
Definition follows (N : subscriber -> V -> V -> M (V := V) unit) (k : nat) : Prop :=
  (forall n x v pr P st, Inv (n :: P) st -> nodes st !! n = Some x -> batchDepth st = 0 -> writeGuards st = [] ->
     (length (signals st) < k + rank st x)%nat ->
     exists st', N (Rerun n) v pr st = (Ok tt, st') /\ Inv P st' /\ frame (rank st x) st st') /\
  ((0 < k)%nat -> forall l v pr st, N (Call l) v pr st = (Ok tt, emit (Notified l v pr) st)).
Definition node_of (f : subscriber) : option nat := match f with Rerun n => Some n | Call _ => None end.

Lemma each_notify N k l v pr P st b :
  follows N k -> Inv (omap node_of l ++ P) st ->
  (forall n, Rerun n ∈ l -> exists x, nodes st !! n = Some x /\ (b <= rank st x)%nat) ->
  (length (signals st) < k + b)%nat -> (0 < k)%nat -> batchDepth st = 0 -> writeGuards st = [] ->
  exists st', each (fun f => N f v pr) l st = (Ok tt, st') /\ Inv P st' /\ frame b st st'.
Proof.
  intros HN. revert st. induction l as [|[n|c] l IH]; intros st HI Hl Hk Hk0 Hb Hg.
  - by exists st.
  - destruct (Hl n) as (x & Hx & Hr); [by left|].
    destruct (proj1 HN n x v pr (omap node_of l ++ P) st) as (st1 & E1 & HI1 & Hf1); [done..|lia|].
    destruct (IH st1 HI1) as (st2 & E2 & HI2 & Hf2).
    + intros m Hm. destruct (Hl m) as (y & Hy & Hry); [by right|].
      destruct (frame_rank _ _ _ _ _ Hf1 Hy) as (y' & ? & _ & E). exists y'. by rewrite E.
    + by rewrite (frame_length _ _ _ Hf1).
    + done.
    + by rewrite (frame_batch _ _ _ Hf1).
    + by rewrite (frame_guards _ _ _ Hf1).
    + exists st2. split_and!; [|done|eapply signals_frame_trans; [by eapply frame_le|done]].
      simpl. by rewrite (bind_ok _ _ _ _ _ E1).
  - destruct (IH (emit (Notified c v pr) st)) as (st2 & E2 & HI2 & Hf2); [by apply Inv_log|set_solver|done..|].
    exists st2. split_and!; [|done|eapply signals_frame_trans; [|done]; by split].
    simpl. by rewrite (bind_ok _ _ _ _ _ (proj2 HN Hk0 c v pr st)).
Qed.

Lemma clean_views st s t :
  val (with_signals (alter clean s) st) t = val st t /\ subs (with_signals (alter clean s) st) t = subs st t /\
  is_dirty (with_signals (alter clean s) st) t = if decide (s = t) then false else is_dirty st t.
Proof.
  unfold val, subs, is_dirty. rewrite lookup_signal. case_decide; [|done]. by destruct (signals st !! t).
Qed.
Lemma clean_frame b s st : frame b st (with_signals (alter clean s) st).
Proof.
  split; try done; [by simpl; rewrite length_alter| |]; intros t; destruct (clean_views st s t) as (? & ? & Hd); [done|].
  rewrite Hd. by case_decide.
Qed.
Lemma Inv_clean P s st : Inv P st -> Inv (omap node_of (subs st s) ++ P) (with_signals (alter clean s) st).
Proof.
  intros [Hok Hout Hsub Hset]. split; [|exact Hout| |].
  - intros n x Hx. destruct (Hok n x Hx). split; unfold rank in *; simpl; by rewrite ?length_alter.
  - intros t n. destruct (clean_views st s t) as (_ & -> & _). apply Hsub.
  - intros n x Hx Hd. destruct (Hset _ _ Hx Hd) as [?|[?|[(t & Ht & Hdt)|Hs]]]; [by left|right; left; set_solver| |].
    + destruct (decide (s = t)) as [->|Ne].
      * right; left. apply elem_of_app. left. apply list_elem_of_omap. exists (Rerun n). split; [|done]. apply Hsub. by exists x.
      * right; right; left. exists t. split; [done|]. destruct (clean_views st s t) as (_ & _ & ->). by case_decide.
    + right; right; right. eapply settled_frame; [..|exact Hs]; try done; intros; apply clean_views.
Qed.
Lemma flush_ok N k s st P :
  follows N k -> Inv P st -> (s < length (signals st))%nat -> (length (signals st) <= k + s)%nat ->
  batchDepth st = 0 -> writeGuards st = [] ->
  exists st', flush N s st = (Ok tt, st') /\ Inv P st' /\ frame (S s) st st' /\ is_dirty st' s = false.
Proof.
  intros HN HI Hs Hk Hb Hg. destruct (lookup_lt_is_Some_2 _ _ Hs) as [a Ha].
  unfold flush. rewrite Ha. destruct (dirty a) eqn:Hd.
  - destruct (each_notify N k (subscribers a) (value a) (previous a) P (with_signals (alter clean s) st) (S s))
      as (st' & E & HI' & Hf); [done| | |simpl; rewrite length_alter; lia|lia|done..|].
    + replace (subscribers a) with (subs st s) by (unfold subs; by rewrite Ha). by apply Inv_clean.
    + intros n Hn. destruct HI as [Hok _ Hsub _]. destruct (proj1 (Hsub s n)) as (x & Hx & Hdx); [unfold subs; by rewrite Ha|].
      exists x. split; [done|]. destruct (Hok n x Hx) as [_ _ Hdeps _].
      unfold rank in *. simpl. rewrite length_alter. rewrite Forall_forall in Hdeps. by apply Hdeps.
    + exists st'. split_and!; [done..|eapply signals_frame_trans; [apply clean_frame|done]|].
      apply not_true_is_false. intros Ht%(frame_dirty _ _ _ Hf).
      destruct (clean_views st s s) as (_ & _ & Hc). rewrite Hc in Ht. by case_decide.
  - exists st. split_and!; [done..|]. unfold is_dirty. by rewrite Ha.
Qed.

Lemma write_views v pr s st t :
  (s < length (signals st))%nat -> let st' := with_signals (alter (set_value v pr) s) st in
  val st' t = (if decide (s = t) then v else val st t) /\ subs st' t = subs st t /\
  is_dirty st' t = (if decide (s = t) then true else is_dirty st t).
Proof.
  intros [a Ha]%lookup_lt_is_Some_2. unfold val, subs, is_dirty. rewrite lookup_signal. case_decide; [|done]. subst. by rewrite Ha.
Qed.
(** A write to a signal that no settled node holds. *)
Lemma Inv_write P v pr s st :
  (s < length (signals st))%nat -> (forall n x, nodes st !! n = Some x -> out x = Some s -> running x = true) ->
  Inv P st -> Inv P (with_signals (alter (set_value v pr) s) st).
Proof.
  intros Hs Ho [Hok Hout Hsub Hset]. pose proof (fun t => write_views v pr s st t Hs) as Hw. simpl in Hw.
  split; [|exact Hout| |].
  - intros n x Hx. destruct (Hok n x Hx). split; unfold rank in *; simpl; by rewrite ?length_alter.
  - intros t n. destruct (Hw t) as (_ & -> & _). apply Hsub.
  - intros n x Hx Hd. destruct (running x) eqn:R; [by left|].
    destruct (Hset _ _ Hx Hd) as [?|[?|[(t & Ht & Hdt)|Hst]]]; [congruence|tauto| |].
    + right; right; left. exists t. split; [done|]. destruct (Hw t) as (_ & _ & ->). by case_decide.
    + destruct (decide (s ∈ deps x)) as [Hin|Hin].
      * right; right; left. exists s. split; [done|]. destruct (Hw s) as (_ & _ & ->). by rewrite decide_True.
      * right; right; right. eapply settled_frame; [..|exact Hst]; try done.
        -- intros t Ht. destruct (Hw t) as (-> & _). rewrite decide_False; [done|]. by intros ->.
        -- intros o Hox. destruct (Hw o) as (-> & _). rewrite decide_False; [done|].
           intros ->. by rewrite (Ho n x Hx Hox) in R.
Qed.
Lemma set_ok N k s f st P :
  follows N k -> Inv P st -> (s < length (signals st))%nat -> (length (signals st) <= k + s)%nat ->
  batchDepth st = 0 -> writeGuards st = [] -> (forall n x, nodes st !! n = Some x -> out x = Some s -> running x = true) ->
  exists st', set N s f st = (Ok tt, st') /\ Inv P st' /\ frame s st st' /\ val st' s = f (val st s).
Proof.
  intros HN HI Hs Hk Hb Hg Ho. destruct (lookup_lt_is_Some_2 _ _ Hs) as [a Ha].
  unfold set. rewrite Ha, Hg. rewrite (val_lookup _ _ _ Ha). case_decide as Hv; [by exists st|].
  change (batchDepth (with_signals ?f st)) with (batchDepth st). rewrite Hb. simpl.
  set (pr := if dirty a then _ else _). set (st1 := with_signals _ st).
  pose proof (fun t => write_views (f (val st s)) pr s st t Hs) as Hw. simpl in Hw. fold st1 in Hw.
  assert (L1 : length (signals st1) = length (signals st)) by (simpl; by rewrite length_alter).
  destruct (flush_ok N k s st1 P) as (st2 & E & HI2 & Hf & Hd); [done|by apply Inv_write|by rewrite ?L1..|done|done|].
  exists st2. split_and!; [done|done| |].
  - destruct Hf. split; [congruence| | |done..].
    + intros t Ht. rewrite frame_val0 by lia. destruct (Hw t) as (-> & _). rewrite decide_False; [done|lia].
    + intros t Ht. destruct (decide (s = t)) as [->|Ne]; [congruence|].
      apply frame_dirty0 in Ht. destruct (Hw t) as (_ & _ & E'). rewrite E' in Ht. by rewrite decide_False in Ht.
  - rewrite (frame_val _ _ _ Hf) by lia. destruct (Hw s) as (-> & _). by rewrite decide_True.
Qed.
Lemma observe_ok N p st : derivation (length (signals st)) p -> observeReads N p st = (Ok (eval (val st) p []), st).
Proof.
  intros Hp. unfold observeReads. rewrite (run_derivation N p _ [] (readObservers st)); [|done..].
  simpl. change (val (with_observers ?o st)) with (val st). destruct (eval (val st) p []), st; done.
Qed.
Lemma node_alter f n x st m : nodes st !! n = Some x -> nodes (with_nodes (alter f n) st) !! m = if decide (n = m) then Some (f x) else nodes st !! m.
Proof. intros Hx. simpl. rewrite list_lookup_alter, Hx. by case_decide. Qed.
Lemma node_alter_shape f n st m : (forall x, shape (f x) = shape x) -> shape <$> nodes (with_nodes (alter f n) st) !! m = shape <$> nodes st !! m.
Proof. intros Hf. simpl. rewrite list_lookup_alter. case_decide; [|done]. subst. destruct (nodes st !! m); [|done]. simpl. by rewrite Hf. Qed.

(** ** Running a node *)

(** What a part of [rerun] leaves: [n] has the subscriptions [d]. *)
Definition with_node_deps n x d st st' : Prop :=
  kept st st' /\ (forall m, nodes st' !! m = if decide (n = m) then Some (with_deps d x) else nodes st !! m) /\
  (forall t m, Rerun m ∈ subs st' t <-> if decide (n = m) then t ∈ d else Rerun m ∈ subs st t).
Lemma disposeDeps_ok n x st :
  (forall t, Rerun n ∈ subs st t <-> t ∈ deps x) -> nodes st !! n = Some x ->
  exists st', disposeDeps n st = (Ok tt, st') /\ with_node_deps n x [] st st'.
Proof.
  intros Hsub Hx. unfold disposeDeps. rewrite Hx.
  destruct (unsubscribe_all (Rerun n) (deps x) st) as (st1 & E & Hk & Hn & Hs).
  rewrite (bind_ok _ _ _ _ _ E). eexists. split; [reflexivity|]. split_and!.
  - etrans; [exact Hk|]. by split.
  - intros m. rewrite (node_alter _ _ x) by (by rewrite Hn). by rewrite Hn.
  - intros t m. change (subs (with_nodes ?f st1) t) with (subs st1 t). rewrite Hs. case_decide as Hnm.
    + subst. rewrite Hsub. set_solver.
    + split; [tauto|]. intros ?. split; [done|]. intros [[= ->] _]. done.
Qed.
Lemma subscribeAll_ok n x d st :
  Forall (fun s => s < length (signals st))%nat d -> nodes st !! n = Some x -> (forall t, Rerun n ∉ subs st t) ->
  exists st', subscribeAll n d st = (Ok tt, st') /\ with_node_deps n x d st st'.
Proof.
  intros Hd Hx Hno. unfold subscribeAll. destruct (subscribe_all (Rerun n) d st Hd) as (st1 & E & Hk & Hn & Hs).
  rewrite (bind_ok _ _ _ _ _ E). eexists. split; [reflexivity|]. split_and!.
  - etrans; [exact Hk|]. by split.
  - intros m. rewrite (node_alter _ _ x) by (by rewrite Hn). by rewrite Hn.
  - intros t m. change (subs (with_nodes ?f st1) t) with (subs st1 t). rewrite Hs. case_decide as Hnm.
    + subst. set_solver.
    + split; [|tauto]. intros [?|[[= ->] _]]; done.
Qed.
(** The derived value is stored, or the run is recorded. *)
Definition publish N n x (v : V) : M (V := V) unit :=
  match out x with Some o => set N o (setter updater v) | None => modify (emit (Ran n v)) end.
Lemma publish_ok N k P n x v st :
  follows N k -> Inv P st -> nodes st !! n = Some x -> running x = true -> updater v = None ->
  (length (signals st) <= k + rank st x)%nat -> batchDepth st = 0 -> writeGuards st = [] ->
  exists st', publish N n x v st = (Ok tt, st') /\ Inv P st' /\ frame (rank st x) st st' /\
    match out x with Some o => val st' o = v | None => last_run n (log st') = Some v end.
Proof.
  intros HN HI Hx Hr Hv Hk Hb Hg. destruct (inv_node _ _ HI n x Hx) as [[Ho1 Ho2] _ _ _].
  unfold publish, rank in *. destruct (out x) as [o|] eqn:Ho; simpl in *.
  - destruct (set_ok N k o (setter updater v) st P) as (st' & E & HI' & Hf & Hval); [done..| |done|done|done| |].
    + destruct (decide (o = length (signals st))); [congruence|lia].
    + intros m y Hy Hoy. assert (n = m) as <- by (eapply (inv_out _ _ HI); eauto). congruence.
    + exists st'. split_and!; [done..|]. rewrite Hval. unfold setter. by rewrite Hv.
  - exists (emit (Ran n v) st). split_and!; [done| |by split|].
    + apply Inv_log; [|done]. intros m y Hy Hry. simpl. case_decide; [congruence|done].
    + simpl. unfold last_run. rewrite omap_app, last_app. simpl. by rewrite decide_True.
Qed.
Lemma Inv_subs_node P n x st t : Inv P st -> nodes st !! n = Some x -> Rerun n ∈ subs st t <-> t ∈ deps x.
Proof. intros HI Hx. rewrite (inv_subs _ _ HI). naive_solver. Qed.
Lemma prepare_ok P n x st :
  Inv (n :: P) st -> nodes st !! n = Some x -> disposed x = false ->
  exists st', disposeDeps n (with_nodes (alter (with_running true) n) st) = (Ok tt, st') /\ Inv P st' /\ kept st st' /\
    (forall m, nodes st' !! m = if decide (n = m) then Some (with_deps [] (with_running true x)) else nodes st !! m).
Proof.
  intros HI Hx Hd. destruct (disposeDeps_ok n (with_running true x) (with_nodes (alter (with_running true) n) st)) as (st' & E & Hk & Hn & Hs).
  { intros t. by apply (Inv_subs_node (n :: P) n x st). }
  { rewrite (node_alter _ _ x) by done. by rewrite decide_True. }
  assert (Hk' : kept st st') by (etrans; [|exact Hk]; by split).
  assert (Hn' : forall m, nodes st' !! m = if decide (n = m) then Some (with_deps [] (with_running true x)) else nodes st !! m).
  { intros m. rewrite Hn. case_decide; [done|]. rewrite (node_alter _ _ x) by done. by rewrite decide_False. }
  exists st'. split_and!; [done| |done|done].
  eapply (Inv_node P n x _ st st'); try done; by left.
Qed.
Lemma finish_ok P n x d st :
  Inv P st -> nodes st !! n = Some x -> running x = true -> disposed x = false -> Forall (fun s => s < rank st x)%nat d ->
  settled st n (with_deps d x) ->
  exists st', subscribeAll n d st = (Ok tt, st') /\
    let st'' := with_nodes (alter (with_running false) n) st' in
    Inv P st'' /\ kept st st'' /\ (forall m, nodes st'' !! m = if decide (n = m) then Some (with_running false (with_deps d x)) else nodes st !! m).
Proof.
  intros HI Hx Hr Hdis Hd Hset. destruct (inv_node _ _ HI n x Hx) as [[Ho _] _ _ Hidle].
  destruct (subscribeAll_ok n x d st) as (st' & E & Hk & Hn & Hs); [|done| |].
  { eapply Forall_impl; [exact Hd|]. simpl. unfold rank in *. lia. }
  { intros t. rewrite (Inv_subs_node P n x) by done. rewrite Hidle by (by rewrite Hr). set_solver. }
  exists st'. split; [done|]. simpl. set (st'' := with_nodes _ st').
  assert (Hk' : kept st st'') by (etrans; [exact Hk|]; by split).
  assert (Hn' : forall m, nodes st'' !! m = if decide (n = m) then Some (with_running false (with_deps d x)) else nodes st !! m).
  { intros m. unfold st''. rewrite (node_alter _ _ (with_deps d x)) by (rewrite Hn; by rewrite decide_True).
    case_decide; [done|]. rewrite Hn. by rewrite decide_False. }
  split_and!; [|done|done]. eapply (Inv_node P n x _ st st''); try done.
  - eapply Inv_mono, HI. set_solver.
  - simpl. by rewrite Hdis.
  - intros _. right. eapply settled_frame; [..|exact Hset]; try done; [intros; apply Hk'..|]. intros _. by rewrite (kept_log _ _ Hk').
Qed.
Lemma Inv_skip P n x st : Inv (n :: P) st -> nodes st !! n = Some x -> disposed x || running x = true -> Inv P st.
Proof.
  intros [Hok Hout Hsub Hset] Hx Hr. split; [done..|]. intros m y Hy Hd.
  destruct (Hset m y Hy Hd) as [?|[[->|]%elem_of_cons|?]]; [tauto| |tauto..].
  simplify_eq. rewrite Hd in Hr. by left.
Qed.
Lemma rerun_body N n x st st1 v d st2 st3 :
  nodes st !! n = Some x -> disposed x || running x = false ->
  disposeDeps n (with_nodes (alter (with_running true) n) st) = (Ok tt, st1) -> observeReads N (fn x) st1 = (Ok (v, d), st1) ->
  publish N n x v st1 = (Ok tt, st2) -> subscribeAll n d st2 = (Ok tt, st3) ->
  rerun updater N n st = (Ok tt, with_nodes (alter (with_running false) n) st3).
Proof.
  intros Hx Hr E1 E2 E3 E4. unfold rerun. rewrite Hx, Hr. unfold finally.
  rewrite (bind_ok (modify _) _ tt st (with_nodes (alter (with_running true) n) st)) by done.
  rewrite (bind_ok _ _ _ _ _ E1), (bind_ok _ _ _ _ _ E2). unfold publish in E3. simpl. rewrite (bind_ok _ _ _ _ _ E3). by rewrite E4.
Qed.
(** What [rerun] does to the state, from what its parts do. *)
Lemma rerun_frame n x x' st st1 st2 st3 b :
  nodes st !! n = Some x -> shape x' = shape x -> kept st st1 -> frame b st1 st2 -> kept st2 st3 ->
  (forall m, m <> n -> nodes st1 !! m = nodes st !! m) -> (forall m, nodes st3 !! m = if decide (n = m) then Some x' else nodes st2 !! m) ->
  frame b st st3.
Proof.
  intros Hx Hs Hk1 Hf2 Hk3 Hn1 Hn3. split.
  - by rewrite (kept_length _ _ Hk3), (frame_length _ _ _ Hf2), (kept_length _ _ Hk1).
  - intros s ?. by rewrite (kept_val _ _ Hk3), (frame_val _ _ _ Hf2), (kept_val _ _ Hk1).
  - intros s. rewrite (kept_dirty _ _ Hk3), <-(kept_dirty _ _ Hk1). apply Hf2.
  - intros m. rewrite Hn3. case_decide as Hm; [subst m; rewrite Hx; simpl; by rewrite Hs|].
    by rewrite (frame_nodes _ _ _ Hf2), Hn1.
  - by rewrite (kept_batch _ _ Hk3), (frame_batch _ _ _ Hf2), (kept_batch _ _ Hk1).
  - by rewrite (kept_pending _ _ Hk3), (frame_pending _ _ _ Hf2), (kept_pending _ _ Hk1).
  - by rewrite (kept_observers _ _ Hk3), (frame_observers _ _ _ Hf2), (kept_observers _ _ Hk1).
  - by rewrite (kept_guards _ _ Hk3), (frame_guards _ _ _ Hf2), (kept_guards _ _ Hk1).
  - by rewrite (kept_lazies _ _ Hk3), (frame_lazies _ _ _ Hf2), (kept_lazies _ _ Hk1).
Qed.
Lemma rerun_ok N k P n x st :
  follows N k -> Inv (n :: P) st -> nodes st !! n = Some x -> (length (signals st) <= k + rank st x)%nat ->
  batchDepth st = 0 -> writeGuards st = [] ->
  exists st', rerun updater N n st = (Ok tt, st') /\ Inv P st' /\ frame (rank st x) st st'.
Proof.
  intros HN HI Hx Hk Hb Hg. destruct (disposed x || running x) eqn:Hr.
  { exists st. split_and!; [|by eapply Inv_skip|done]. unfold rerun. by rewrite Hx, Hr. }
  pose proof Hr as [Hdis Hrun]%orb_false_iff. destruct (inv_node _ _ HI n x Hx) as [[Ho _] Hfn _ _].
  destruct (prepare_ok P n x st HI Hx Hdis) as (st1 & E1 & HI1 & Hk1 & Hn1).
  assert (R : forall y, rank st1 y = rank st y) by (intros y; unfold rank; by rewrite (kept_length _ _ Hk1)).
  set (x1 := with_deps [] (with_running true x)) in *.
  assert (Hx1 : nodes st1 !! n = Some x1) by (rewrite Hn1; by rewrite decide_True).
  destruct (eval (val st1) (fn x) []) as [v d] eqn:Ev.
  assert (Hv : updater v = None) by (change v with (v, d).1; rewrite <-Ev; by eapply derivation_value).
  assert (Hd : Forall (fun s => s < rank st x)%nat d) by (change d with (v, d).2; rewrite <-Ev; by apply eval_bound).
  destruct (publish_ok N k P n x1 v st1) as (st2 & E3 & HI2 & Hf2 & Hval); try done.
  { rewrite R. unfold x1, rank in *. simpl. by rewrite (kept_length _ _ Hk1). }
  { by rewrite (kept_batch _ _ Hk1). }
  { by rewrite (kept_guards _ _ Hk1). }
  change (rank st1 x1) with (rank st1 x) in Hf2. rewrite R in Hf2.
  destruct (frame_rank _ _ _ _ _ Hf2 Hx1) as (x2 & Hx2 & Hs2 & _). injection Hs2 as Ef Eo Er Ed. unfold x1 in Ef, Eo, Er, Ed. simpl in Ef, Eo, Er, Ed.
  destruct (finish_ok P n x2 d st2) as (st3 & E4 & HI3 & Hk3 & Hn3); [done|done|done|congruence| | |].
  { unfold rank in *. by rewrite (frame_length _ _ _ Hf2), (kept_length _ _ Hk1), Eo. }
  { unfold settled. simpl. rewrite Ef, Eo, (eval_frame (val st1)); rewrite Ev; [done|]. simpl. intros s Hs.
    apply (frame_val _ _ _ Hf2). rewrite Forall_forall in Hd. by apply Hd. }
  eexists. split_and!; [eapply rerun_body; try done|done|].
  { rewrite <-Ev. apply observe_ok. eapply derivation_le, Hfn. by rewrite (kept_length _ _ Hk1). }
  eapply rerun_frame; [exact Hx| |exact Hk1|exact Hf2|exact Hk3| |exact Hn3]; [unfold shape; simpl; congruence|].
  intros m ?. rewrite Hn1. by rewrite decide_False.
Qed.
Lemma notify_follows k : follows (notify updater k) k.
Proof.
  induction k as [|k IH]; split; [|lia| |done].
  - intros n x v pr P st HI Hx _ _ Hr. destruct (inv_node _ _ HI n x Hx) as [[? _] _ _ _]. lia.
  - intros n x v pr P st HI Hx Hb Hg Hr. apply (rerun_ok _ k); [done..|lia|done|done].
Qed.

(** ** Code of the user *)

(** A signal that no node writes. *)
Definition own st (s : nat) : Prop := (s < length (signals st))%nat /\ forall n x, nodes st !! n = Some x -> out x <> Some s.
(** Code that writes signals of its own, in batches or not, and may throw. *)
Fixpoint user (ok : nat -> Prop) (p : prog) : Prop :=
  match p with
  | Done _ => True
  | Fail e => e <> Diverges
  | Read s k => forall v, user ok (k v)
  | Write s f k => ok s /\ user ok k
  | Batch p k => user ok p /\ forall v, user ok (k v)
  | Guard _ _ _ => False
  end.

(** The state between two operations, or inside a batch. *)
Record Rest (P : list nat) st : Prop := {
  rest_inv : Inv P st;
  rest_batch : 0 <= batchDepth st;
  rest_observers : readObservers st = [];
  rest_guards : writeGuards st = [];
  rest_running n x : nodes st !! n = Some x -> running x = false;
  rest_dirty s : is_dirty st s = true -> s ∈ pendingSignals st;
  rest_bound : Forall (fun s => s < length (signals st))%nat (pendingSignals st);
  rest_pending : batchDepth st = 0 -> pendingSignals st = [];
  rest_lazies z l : lazies st !! z = Some l -> own st (inner l);
}.
Lemma Inv_ext P st st' : signals st' = signals st -> nodes st' = nodes st -> log st' = log st -> Inv P st -> Inv P st'.
Proof.
  destruct st, st'; simpl. intros -> -> -> [Hok Hout Hsub Hset]. split; [|exact Hout|exact Hsub|exact Hset].
  intros n x Hx. by destruct (Hok n x Hx).
Qed.
(** What code leaves as it was. *)
Record moved st st' : Prop := {
  moved_length : length (signals st') = length (signals st);
  moved_nodes n : shape <$> nodes st' !! n = shape <$> nodes st !! n;
  moved_batch : batchDepth st' = batchDepth st;
}.
#[local] Instance moved_refl : Reflexive moved.
Proof. by split. Qed.
#[local] Instance moved_trans : Transitive moved.
Proof. intros st1 st2 st3 [? H1 ?] [? H2 ?]. split; [congruence| |congruence]. intros n. by rewrite H2, H1. Qed.
Lemma frame_moved b st st' : frame b st st' -> moved st st'.
Proof. by intros []. Qed.
Lemma own_moved st st' s : moved st st' -> own st s -> own st' s.
Proof.
  intros [Hl Hn _] [Hs Ho]. split; [by rewrite Hl|]. intros n x' Hx' Hox.
  pose proof (Hn n) as E. rewrite Hx' in E. symmetry in E. apply fmap_Some in E as (x & Hx & [= _ Eo _ _]).
  apply (Ho n x Hx). congruence.
Qed.
Lemma frame_running st st' b n x :
  frame b st st' -> (forall m y, nodes st !! m = Some y -> running y = false) -> nodes st' !! n = Some x -> running x = false.
Proof.
  intros Hf Hr Hx. pose proof (frame_nodes _ _ _ Hf n) as E. rewrite Hx in E. symmetry in E.
  apply fmap_Some in E as (y & Hy & [= _ _ Er _]). rewrite Er. by eapply Hr.
Qed.
Lemma Rest_frame P Q st st' : Rest P st -> frame 0 st st' -> Inv Q st' -> Rest Q st'.
Proof.
  intros [] Hf ?. split; [done|by rewrite (frame_batch _ _ _ Hf)|by rewrite (frame_observers _ _ _ Hf)|by rewrite (frame_guards _ _ _ Hf)| | | | |].
  - intros n x. by eapply frame_running.
  - intros s Hs. rewrite (frame_pending _ _ _ Hf). apply rest_dirty0, (frame_dirty _ _ _ Hf), Hs.
  - by rewrite (frame_pending _ _ _ Hf), (frame_length _ _ _ Hf).
  - by rewrite (frame_pending _ _ _ Hf), (frame_batch _ _ _ Hf).
  - intros z l. rewrite (frame_lazies _ _ _ Hf). intros Hl. eapply own_moved, rest_lazies0, Hl. by eapply frame_moved.
Qed.
Lemma user_weaken (ok ok' : nat -> Prop) p : (forall s, ok s -> ok' s) -> user ok p -> user ok' p.
Proof. intros Hs. induction p; simpl; naive_solver. Qed.

Lemma write_ok N k s f st :
  follows N k -> Rest [] st -> own st s -> (length (signals st) <= k)%nat ->
  exists st', set N s f st = (Ok tt, st') /\ Rest [] st' /\ moved st st'.
Proof.
  intros HN HR [Hs Ho] Hk. destruct (decide (batchDepth st = 0)) as [Hb|Hb].
  - destruct (set_ok N k s f st []) as (st' & E & HI & Hf & _); [done|apply HR|done|lia|done|apply HR|by intros n x Hx Hox; destruct (Ho n x Hx)|].
    exists st'. pose proof (frame_le 0 s _ _ (Nat.le_0_l s) Hf). split_and!; [done|by eapply Rest_frame|by eapply frame_moved].
  - destruct HR. destruct (lookup_lt_is_Some_2 _ _ Hs) as [a Ha]. unfold set. rewrite Ha, rest_guards0.
    case_decide; [exists st; split_and!; done|]. set (pr := if dirty a then _ else _). simpl.
    destruct (Z.ltb_spec 0 (batchDepth st)); [|lia]. eexists. split; [reflexivity|].
    pose proof (fun t => write_views (f (value a)) pr s st t Hs) as Hw. simpl in Hw.
    assert (L : length (alter (set_value (f (value a)) pr) s (signals st)) = length (signals st)) by apply length_alter.
    split; [|by split]. split; try done.
    + eapply Inv_ext; [..|apply (Inv_write [] (f (value a)) pr s st)]; try done. by intros n x Hx Hox; destruct (Ho n x Hx).
    + intros t Ht. simpl. apply add_once_elem. destruct (Hw t) as (_ & _ & E). unfold is_dirty in E, Ht. simpl in E, Ht.
      rewrite E in Ht. case_decide; [by left|right; by apply rest_dirty0].
    + simpl. rewrite L, Forall_forall in *. intros t. rewrite add_once_elem. naive_solver.
    + intros z l Hl. unfold own. simpl. rewrite L. by apply (rest_lazies0 z).
Qed.
Lemma flush_all N k l st :
  follows N k -> Inv [] st -> batchDepth st = 0 -> writeGuards st = [] -> Forall (fun s => s < length (signals st))%nat l ->
  (length (signals st) <= k)%nat -> (forall s, is_dirty st s = true -> s ∈ l) ->
  exists st', each (flush N) l st = (Ok tt, st') /\ Inv [] st' /\ frame 0 st st' /\ forall s, is_dirty st' s = false.
Proof.
  intros HN. revert st. induction l as [|s l IH]; intros st HI Hb Hg Hl Hk Hd.
  { exists st. split_and!; [done..|]. intros s. apply not_true_is_false. intros H%Hd. set_solver. }
  apply Forall_cons in Hl as [Hs Hl].
  destruct (flush_ok N k s st []) as (st1 & E1 & HI1 & Hf1 & Hd1); [done..|lia|done|done|].
  destruct (IH st1) as (st2 & E2 & HI2 & Hf2 & Hd2).
  - done.
  - by rewrite (frame_batch _ _ _ Hf1).
  - by rewrite (frame_guards _ _ _ Hf1).
  - by rewrite (frame_length _ _ _ Hf1).
  - by rewrite (frame_length _ _ _ Hf1).
  - intros t Ht. destruct (decide (t = s)) as [->|]; [congruence|]. apply (frame_dirty _ _ _ Hf1), Hd in Ht. set_solver.
  - exists st2. split_and!; [|done|eapply signals_frame_trans; [eapply frame_le, Hf1; lia|done]|done].
    simpl. by rewrite (bind_ok _ _ _ _ _ E1).
Qed.
(** [batch]: code, and the flush at the end of the outermost one. *)
Definition runs {A} (m : M (V := V) A) st : Prop :=
  exists r st', m st = (r, st') /\ Rest [] st' /\ moved st st' /\ r <> Throw Diverges.
Lemma code_bind {A B} (m : M A) (f : A -> M B) st :
  runs m st -> (forall a st', m st = (Ok a, st') -> Rest [] st' -> moved st st' -> runs (f a) st') -> runs (m ≫= f) st.
Proof.
  intros ([a|e] & st1 & E & HR & Hm & Hr) Hf.
  - destruct (Hf a st1 E HR Hm) as (r & st2 & E2 & HR2 & Hm2 & Hr2). exists r, st2.
    split_and!; [by rewrite (bind_ok _ _ _ _ _ E)|done|by etrans|done].
  - exists (Throw e), st1. unfold mbind, M_bind. rewrite E. split_and!; try done. congruence.
Qed.
Lemma batch_ok {A} N k (m : M A) st :
  follows N k -> Rest [] st -> (length (signals st) <= k)%nat ->
  (forall st0, Rest [] st0 -> length (signals st0) = length (signals st) -> nodes st0 = nodes st -> runs m st0) -> runs (batch N m) st.
Proof.
  intros HN HR Hk Hm. unfold runs, batch, finally.
  destruct (Hm (with_batch (batchDepth st + 1) (pendingSignals st) st)) as (r & st1 & E & HR1 & Hmv & Hr); [|done..|].
  { destruct HR. split; try done; [by eapply Inv_ext, rest_inv0|simpl; lia|simpl; lia]. }
  rewrite E. destruct Hmv as [Hl1 Hn1 Hb1]. simpl in Hl1, Hn1, Hb1. rewrite Hb1.
  replace (batchDepth st + 1 - 1) with (batchDepth st) by lia.
  set (st2 := with_batch (batchDepth st) (pendingSignals st1) st1). change (batchDepth st2) with (batchDepth st).
  destruct (Z.eqb_spec (batchDepth st) 0) as [Hb|Hb].
  - destruct (flush_all N k (pendingSignals st1) (with_batch (batchDepth st) [] st1)) as (st3 & E3 & HI3 & Hf3 & Hd3); try done.
    { by eapply Inv_ext, HR1. } { apply HR1. } { apply HR1. } { simpl. by rewrite Hl1. } { apply HR1. }
    unfold flushSignals. change (pendingSignals st2) with (pendingSignals st1).
    change (with_batch (batchDepth st2) [] st2) with (with_batch (batchDepth st) [] st1). rewrite E3.
    exists r, st3. pose proof (frame_moved _ _ _ Hf3) as Hm3. split_and!; [done| |etrans; [|exact Hm3]; by split|done].
    destruct HR1. split; [done|by rewrite (frame_batch _ _ _ Hf3), Hb|by rewrite (frame_observers _ _ _ Hf3)|by rewrite (frame_guards _ _ _ Hf3)| | | | |].
    + intros n x. by eapply frame_running.
    + intros s. by rewrite Hd3.
    + by rewrite (frame_pending _ _ _ Hf3).
    + by rewrite (frame_pending _ _ _ Hf3).
    + intros z l. rewrite (frame_lazies _ _ _ Hf3). intros Hl. eapply own_moved; [exact Hm3|]. by apply (rest_lazies0 z).
  - exists r, st2. split_and!; [done| |by split|done]. destruct HR1, HR.
    split; try done; by eapply Inv_ext, rest_inv0.
Qed.
Lemma run_ok N k p st :
  follows N k -> Rest [] st -> user (own st) p -> (length (signals st) <= k)%nat -> runs (execute N p) st.
Proof.
  intros HN. revert st. induction p as [v|e|s p IH|s f p IH|p IHp q IHq|]; intros st HR Hu Hk; simpl in Hu |- *.
  - by exists (Ok v), st.
  - exists (Throw e), st. split_and!; try done. congruence.
  - eapply (code_bind (get s)); [|intros v st' E HR' Hm; apply IH; [done| |by rewrite (moved_length _ _ Hm)]].
    + unfold runs, get. rewrite (rest_observers _ _ HR). destruct (signals st !! s) as [a|]; [by exists (Ok (value a)), st|].
      by exists (Throw (TypeError "undefined is not an object")), st.
    + eapply user_weaken, Hu. intros t. by apply own_moved.
  - destruct Hu as [Hs Hu]. destruct (write_ok N k s f st HN HR Hs Hk) as (st1 & E & HR1 & Hm).
    eapply (code_bind (set N s f)); [by exists (Ok tt), st1|]. intros [] st' E' _ _. rewrite E in E'. injection E' as <-.
    apply IH; [done| |by rewrite (moved_length _ _ Hm)]. eapply user_weaken, Hu. intros t. by apply own_moved.
  - destruct Hu as [Hp Hq]. eapply (code_bind (batch N (execute N p))).
    + eapply batch_ok; [done..|]. intros st0 HR0 Hl Hn. apply IHp; [done| |by rewrite Hl].
      eapply user_weaken, Hp. unfold own. intros t. by rewrite Hl, Hn.
    + intros v st' E HR' Hm. apply IHq; [done| |by rewrite (moved_length _ _ Hm)].
      eapply user_weaken, Hq. intros t. by apply own_moved.
  - done.
Qed.

(** ** Operations *)

Inductive op :=
| NewSignal (v : V) | Computed (p : prog) | Effect (p : prog) | Dispose (n : nat) | Subscribe (s l : nat)
| NewLazy (v : V) | LazySet (z : nat) (v : V) | LazySubscribe (z l : nat) | Unsubscribe (i : nat) | Perform (p : prog).
Definition step (o : op) : M (V := V) unit :=
  match o with
  | NewSignal v => createSignal v;; mret tt
  | Computed p => computed undefined updater p;; mret tt
  | Effect p => effect updater p;; mret tt
  | Dispose n => dispose n
  | Subscribe s l => signal_subscribe s l;; mret tt
  | NewLazy v => lazy v;; mret tt
  | LazySet z v => lazy_set updater z v
  | LazySubscribe z l => lazy_subscribe z l;; mret tt
  | Unsubscribe i => unsubscribe_with i
  | Perform p => perform updater p;; mret tt
  end.
(** The callbacks of [computed] and [effect] only compute, and other code writes
    signals that are its own. *)
Definition valid_op st (o : op) : Prop :=
  match o with
  | Computed p | Effect p => derivation (length (signals st)) p
  | Perform p => user (own st) p
  | _ => True
  end.
Inductive history : state -> Prop :=
| history_start : history empty
| history_step st o : history st -> valid_op st o -> history (step o st).2.

(** Every node that is not disposed has seen what the signals hold now, and is called
    when one that it read changes. *)
Definition consistent st : Prop := forall n x, nodes st !! n = Some x ->
  if disposed x then forall s, Rerun n ∉ subs st s
  else let '(v, read) := eval (val st) (fn x) [] in
    (forall s, Rerun n ∈ subs st s <-> s ∈ read) /\ match out x with Some o => val st o = v | None => last_run n (log st) = Some v end.

Definition keeps {A} (m : M (V := V) A) st : Prop :=
  exists r st', m st = (r, st') /\ Rest [] st' /\ batchDepth st' = 0 /\ r <> Throw Diverges.
Lemma keeps_ret {A B} (m : M A) (b : B) st : keeps m st -> keeps (m;; mret b) st.
Proof.
  intros ([a|e] & st1 & E & HR & Hb & He).
  - exists (Ok b), st1. rewrite (bind_ok _ _ _ _ _ E). by split_and!.
  - exists (Throw e), st1. unfold mbind, M_bind. rewrite E. split_and!; try done. congruence.
Qed.
Lemma op_bind {A B} (m : M A) (f : A -> M B) a st st' : m st = (Ok a, st') -> keeps (f a) st' -> keeps (m ≫= f) st.
Proof. intros E. unfold keeps. by rewrite (bind_ok _ _ _ _ _ E). Qed.
Lemma Rest_same st st' :
  signals st' = signals st -> nodes st' = nodes st -> batchDepth st' = batchDepth st -> pendingSignals st' = pendingSignals st ->
  readObservers st' = readObservers st -> writeGuards st' = writeGuards st -> Inv [] st' ->
  (forall z l, lazies st' !! z = Some l -> own st' (inner l)) -> Rest [] st -> Rest [] st'.
Proof.
  destruct st, st'; simpl. intros -> -> -> -> -> -> ?? [? ? ? ? ? Hd ? ?]. split; try done.
Qed.
Lemma Rest_call g s st :
  (forall m l, Rerun m ∈ g l <-> Rerun m ∈ l) -> Rest [] st -> Rest [] (with_signals (alter (with_subscribers g) s) st).
Proof.
  intros Hg HR. pose proof (with_subs_kept g s st) as Hk. eapply Rest_frame; [exact HR|by apply kept_frame|].
  set (st' := with_signals _ st) in *.
  assert (Hs : forall t m, Rerun m ∈ subs st' t <-> Rerun m ∈ subs st t).
  { intros t m. unfold st'. rewrite with_subs_subs. case_decide; [apply Hg|done]. }
  destruct HR as [[Hok Hout Hsub Hset] _ _ _ _ _ _ _ _]. split; [|exact Hout|intros t m; rewrite Hs; apply Hsub|].
  - intros n x Hx. destruct (Hok n x Hx). split; unfold rank in *; simpl; by rewrite ?length_alter.
  - intros n x Hx Hd. destruct (Hset n x Hx Hd) as [?|[?|[(t & ? & ?)|Hst]]]; [by left|by right; left|right; right; left|right; right; right].
    + exists t. by rewrite (kept_dirty _ _ Hk).
    + eapply settled_frame; [..|exact Hst]; try done; intros; apply Hk.
Qed.
Lemma Rest_consistent st : Rest [] st -> batchDepth st = 0 -> consistent st.
Proof.
  intros [HI _ _ _ Hrun Hd _ Hp _] Hb n x Hx. destruct (disposed x) eqn:Hdis.
  - intros s. rewrite (Inv_subs_node [] n x) by done. destruct (inv_node _ _ HI n x Hx) as [_ _ _ ->]; [set_solver|].
    by rewrite Hdis, orb_true_r.
  - destruct (inv_settled _ _ HI n x Hx Hdis) as [Hr|[?|[(s & _ & Hs%Hd)|Hs]]].
    + by rewrite (Hrun n x Hx) in Hr.
    + set_solver.
    + rewrite (Hp Hb) in Hs. set_solver.
    + unfold settled in Hs. destruct (eval (val st) (fn x) []) as [v d]. destruct Hs as [<- ?]. split; [|done].
      intros s. by apply (Inv_subs_node []).
Qed.
Lemma add_once_call c m (l : list subscriber) : Rerun m ∈ add_once (Call c) l <-> Rerun m ∈ l.
Proof. unfold add_once. case_bool_decide; [done|]. set_solver. Qed.
Lemma remove_from_call c m (l : list subscriber) : Rerun m ∈ remove_from (Call c) l <-> Rerun m ∈ l.
Proof. unfold remove_from. rewrite list_elem_of_filter. set_solver. Qed.
Lemma fresh_views v st t :
  let st' := with_signals (fun l => l ++ [{| value := v; previous := v; dirty := false; subscribers := [] |}]) st in
  (t <> length (signals st) -> val st' t = val st t) /\ subs st' t = subs st t /\ is_dirty st' t = is_dirty st t.
Proof.
  unfold val, subs, is_dirty. simpl. destruct (Nat.lt_trichotomy t (length (signals st))) as [Hl|[->|Hl]].
  - by rewrite lookup_app_l.
  - by rewrite list_lookup_middle, (lookup_ge_None_2 (signals st)).
  - rewrite !(lookup_ge_None_2 _ t); [done|lia|rewrite length_app; simpl; lia].
Qed.
Lemma Rest_fresh v st :
  Rest [] st -> Rest [] (with_signals (fun l => l ++ [{| value := v; previous := v; dirty := false; subscribers := [] |}]) st).
Proof.
  intros [[Hok Hout Hsub Hset] ???? Hd Hb Hp Hl]. pose proof (fresh_views v st) as Hw. simpl in Hw. set (st' := with_signals _ st) in *.
  assert (L : length (signals st') = S (length (signals st))) by (simpl; rewrite length_app; simpl; lia).
  assert (R : forall n x, nodes st !! n = Some x -> (rank st x <= rank st' x)%nat).
  { intros n x _. unfold rank. rewrite L. destruct (out x); simpl; lia. }
  split; try done.
  - split; [|exact Hout|intros t m; destruct (Hw t) as (_ & -> & _); apply Hsub|].
    + intros n x Hx. pose proof (R n x Hx). destruct (Hok n x Hx) as [[H1 H2] Hf Hdeps Hi]. split; [|by eapply derivation_le| |done].
      * unfold rank in *. rewrite L. destruct (out x); simpl in *; split; try lia; [|done]. injection 1. lia.
      * eapply Forall_impl; [exact Hdeps|]. simpl. lia.
    + intros n x Hx Hdis. destruct (Hok n x Hx) as [[H1 H2] Hf Hdeps Hi]. rewrite Forall_forall in Hdeps.
      destruct (Hset n x Hx Hdis) as [?|[?|[(t & ? & ?)|Hst]]]; [by left|by right; left|right; right; left|right; right; right].
      * exists t. split; [done|]. destruct (Hw t) as (_ & _ & ->). done.
      * eapply settled_frame; [..|exact Hst]; try done.
        -- intros s Hs%Hdeps. apply Hw. lia.
        -- intros o Ho. apply Hw. rewrite Ho in H2. congruence.
  - intros s. destruct (Hw s) as (_ & _ & ->). apply Hd.
  - rewrite L. eapply Forall_impl; [exact Hb|]. simpl. lia.
  - intros z l Hz. destruct (Hl z l Hz) as [H1 H2]. split; [rewrite L; lia|done].
Qed.
(** The new node is to be called. *)
Lemma Rest_node x st :
  Rest [] st -> match out x with Some o => own st o | None => True end ->
  derivation (rank st x) (fn x) -> deps x = [] -> running x = false -> disposed x = false ->
  (forall z l o, lazies st !! z = Some l -> out x = Some o -> inner l <> o) ->
  Rest [length (nodes st)] (with_nodes (fun l => l ++ [x]) st).
Proof.
  intros [[Hok Hout Hsub Hset] ??? Hrun Hd Hb Hp Hl] Ho Hf Hdeps Hrx Hdx Hlz.
  assert (Hn : forall n y, nodes (with_nodes (fun l => l ++ [x]) st) !! n = Some y -> nodes st !! n = Some y \/ (n = length (nodes st) /\ y = x)).
  { intros n y Hy. apply lookup_app_Some in Hy as [?|[Hge Hy]]; [by left|right].
    apply list_lookup_singleton_Some in Hy as [? ->]. split; [lia|done]. }
  assert (Hn' : forall n y, nodes st !! n = Some y -> nodes (with_nodes (fun l => l ++ [x]) st) !! n = Some y).
  { intros n y Hy. simpl. by apply lookup_app_l_Some. }
  split; try done.
  - split.
    + intros n y [Hy|[-> ->]]%Hn; [by destruct (Hok n y Hy)|]. split; [|done|by rewrite Hdeps|done].
      unfold rank in *. simpl. destruct (out x) as [o|]; simpl; [|split; [lia|done]]. destruct Ho. split; [lia|]. injection 1. lia.
    + intros n m y z o [Hy|[-> ->]]%Hn [Hz|[-> ->]]%Hn Hoy Hoz; [by eapply Hout| | |done].
      * rewrite Hoz in Ho. by destruct (proj2 Ho n y Hy).
      * rewrite Hoy in Ho. by destruct (proj2 Ho m z Hz).
    + intros s n. etrans; [apply Hsub|]. split; [intros (y & ? & ?); exists y; auto|].
      intros (y & [?|[-> ->]]%Hn & Hs); [by exists y|]. rewrite Hdeps in Hs. set_solver.
    + intros n y [Hy|[-> ->]]%Hn Hdy; [|right; left; by left].
      destruct (Hset n y Hy Hdy) as [?|[?|[?|?]]]; [by left|set_solver|by right; right; left|by right; right; right].
  - intros n y [Hy|[-> ->]]%Hn; [by eapply Hrun|done].
  - intros z l Hz. destruct (Hl z l Hz) as [H1 H2]. split; [done|]. intros n y [Hy|[-> ->]]%Hn; [by eapply H2|].
    intros Hox. by destruct (Hlz z l _ Hz Hox).
Qed.
Lemma start_ok p o st :
  Rest [] st -> batchDepth st = 0 -> match o with Some s => own st s | None => True end ->
  derivation (default (length (signals st)) o) p -> (forall z l s, lazies st !! z = Some l -> o = Some s -> inner l <> s) ->
  keeps (start updater p o) st.
Proof.
  intros HR Hb Ho Hp Hl. unfold start. set (x := {| fn := p; out := o; deps := []; running := false; disposed := false |}).
  pose proof (Rest_node x st HR Ho Hp eq_refl eq_refl eq_refl Hl) as HR1.
  set (n := length (nodes st)) in *. set (st1 := with_nodes _ st) in *.
  assert (Hx : nodes st1 !! n = Some x) by (unfold st1; simpl; by rewrite list_lookup_middle).
  destruct (rerun_ok (notify updater (fuel_of st1)) (fuel_of st1) [] n x st1) as (st2 & E & HI & Hf);
    [apply notify_follows|apply HR1|done|unfold fuel_of; lia|done|apply HR1|].
  exists (Ok n), st2. rewrite (bind_ok _ _ _ _ _ E). split_and!; [done| |by rewrite (frame_batch _ _ _ Hf)|done].
  eapply Rest_frame; [exact HR1|eapply frame_le, Hf; lia|done].
Qed.
Lemma computed_ok p st :
  Rest [] st -> batchDepth st = 0 -> derivation (length (signals st)) p -> keeps (computed undefined updater p) st.
Proof.
  intros HR Hb Hp. unfold computed. eapply op_bind; [done|].
  apply keeps_ret, start_ok; [by apply Rest_fresh|done| |done|].
  - split; [simpl; rewrite length_app; simpl; lia|]. intros n x Hx. by apply (inv_node _ _ (rest_inv _ _ HR) n x Hx).
  - simpl. intros z l s Hz [= <-]. destruct (rest_lazies _ _ HR z l Hz). lia.
Qed.
Lemma lazy_ok v st : Rest [] st -> batchDepth st = 0 -> keeps (lazy v) st.
Proof.
  intros HR Hb. pose proof (Rest_fresh v st HR) as HR1. unfold lazy. eapply op_bind; [done|].
  do 2 eexists. split_and!; [reflexivity| |done|done].
  eapply Rest_same; [..|exact HR1]; try done; [by eapply Inv_ext, HR1|]. simpl.
  intros z l [Hz|[_ Hz]]%lookup_app_Some; [by apply (rest_lazies _ _ HR1 z l Hz)|].
  apply list_lookup_singleton_Some in Hz as [_ <-]. split; [simpl; rewrite length_app; simpl; lia|].
  intros n x Hx. by apply (inv_node _ _ (rest_inv _ _ HR) n x Hx).
Qed.
Lemma dispose_ok n st : Rest [] st -> batchDepth st = 0 -> keeps (dispose n) st.
Proof.
  intros HR Hb. unfold keeps, dispose. destruct (nodes st !! n) as [x|] eqn:Hx; [|by exists (Ok tt), st].
  destruct (disposed x); [by exists (Ok tt), st|]. rewrite (bind_ok (modify _) _ tt st (with_nodes (alter with_disposed n) st)) by done.
  assert (Hx1 : nodes (with_nodes (alter with_disposed n) st) !! n = Some (with_disposed x)) by (rewrite (node_alter _ _ x) by done; by rewrite decide_True).
  destruct (disposeDeps_ok n (with_disposed x) (with_nodes (alter with_disposed n) st) (fun t => Inv_subs_node [] n x st t (rest_inv _ _ HR) Hx) Hx1) as (st1 & E & Hk & Hn & Hs).
  exists (Ok tt), st1. assert (Hk' : kept st st1) by (etrans; [|exact Hk]; by split).
  assert (Hn' : forall m, nodes st1 !! m = if decide (n = m) then Some (with_deps [] (with_disposed x)) else nodes st !! m).
  { intros m. rewrite Hn. case_decide; [done|]. rewrite (node_alter _ _ x) by done. by rewrite decide_False. }
  split_and!; [done| |by rewrite (kept_batch _ _ Hk')|done]. destruct HR as [HI H1 H2 H3 Hrun Hd Hbd Hp Hl]. split.
  - eapply (Inv_node [] n x _ st st1); try done. eapply Inv_mono, HI. set_solver.
  - by rewrite (kept_batch _ _ Hk').
  - by rewrite (kept_observers _ _ Hk').
  - by rewrite (kept_guards _ _ Hk').
  - intros m y. rewrite Hn'. case_decide; [|apply Hrun]. intros [= <-]. simpl. by eapply Hrun.
  - intros s. rewrite (kept_dirty _ _ Hk'), (kept_pending _ _ Hk'). apply Hd.
  - by rewrite (kept_pending _ _ Hk'), (kept_length _ _ Hk').
  - by rewrite (kept_pending _ _ Hk'), (kept_batch _ _ Hk').
  - intros z l. rewrite (kept_lazies _ _ Hk'). intros Hz. destruct (Hl z l Hz) as [? Ho]. split; [by rewrite (kept_length _ _ Hk')|].
    intros m y. rewrite Hn'. case_decide; [|apply Ho]. intros [= <-]. simpl. by eapply Ho.
Qed.
Lemma lazy_set_ok z v st : Rest [] st -> batchDepth st = 0 -> keeps (lazy_set updater z v) st.
Proof.
  intros HR Hb. unfold lazy_set, keeps. destruct (lazies st !! z) as [l|] eqn:Hz; [|by exists (Ok tt), st].
  destruct (write_ok (notify updater (fuel_of st)) (fuel_of st) (inner l) (setter updater v) st) as (st' & E & HR' & Hm);
    [apply notify_follows|done|by eapply rest_lazies|unfold fuel_of; lia|].
  exists (Ok tt), st'. split_and!; [done|done|by rewrite (moved_batch _ _ Hm)|done].
Qed.
Lemma keeps_modify {A} f (m : M A) st : keeps m (f st) -> keeps (modify f;; m) st.
Proof. intros Hk. by apply (op_bind (modify f) (fun _ => m) tt st (f st)). Qed.
Lemma Rest_lazies f st : Rest [] st -> (forall z l, f (lazies st) !! z = Some l -> own st (inner l)) -> Rest [] (with_lazies f st).
Proof. intros HR Hf. eapply Rest_same; [..|exact HR]; try done. by eapply Inv_ext, HR. Qed.
Lemma Rest_alter_lazy f z st : (forall l, inner (f l) = inner l) -> Rest [] st -> Rest [] (with_lazies (alter f z) st).
Proof.
  intros Hf HR. apply Rest_lazies; [done|]. intros y l. rewrite list_lookup_alter. case_decide; [|apply (rest_lazies _ _ HR)].
  intros (a & Ha & ->)%fmap_Some. rewrite Hf. by eapply rest_lazies.
Qed.
Lemma Rest_emit o st : (forall n, ran n o = None) -> Rest [] st -> Rest [] (emit o st).
Proof. intros Ho HR. eapply Rest_same; [..|exact HR]; try done; [by apply Inv_log, HR|apply (rest_lazies _ _ HR)]. Qed.
Lemma Rest_disposers f st : Rest [] st -> Rest [] (with_disposers f st).
Proof. intros HR. eapply Rest_same; [..|exact HR]; try done; [by eapply Inv_ext, HR|apply (rest_lazies _ _ HR)]. Qed.
Lemma modify_ok f st : Rest [] (f st) -> batchDepth (f st) = 0 -> keeps (modify f) st.
Proof. intros. by exists (Ok tt), (f st). Qed.
Lemma add_disposer_ok d st : Rest [] st -> batchDepth st = 0 -> keeps (add_disposer d) st.
Proof. intros HR Hb. do 2 eexists. split_and!; [done|by apply Rest_disposers|done|done]. Qed.
Lemma signal_subscribe_ok s l st : Rest [] st -> batchDepth st = 0 -> keeps (signal_subscribe s l) st.
Proof. intros HR Hb. apply keeps_modify, add_disposer_ok; [|done]. apply Rest_call; [intros; apply add_once_call|done]. Qed.
Lemma lazy_subscribe_ok z l st : Rest [] st -> batchDepth st = 0 -> keeps (lazy_subscribe z l) st.
Proof.
  intros HR Hb. unfold keeps, lazy_subscribe. destruct (lazies st !! z) as [a|] eqn:Hz.
  2: by exists (Throw (TypeError "undefined is not an object")), st.
  apply keeps_modify, keeps_modify.
  match goal with |- keeps _ ?s => assert (Rest [] s) as HR2 end.
  { apply Rest_alter_lazy; [done|]. apply Rest_call; [intros; apply add_once_call|done]. }
  destruct (count a + 1 =? 1); [apply keeps_modify|eapply op_bind; [done|]]; apply add_disposer_ok; try done. by apply Rest_emit.
Qed.
Lemma lazy_unsubscribe_ok z l st : Rest [] st -> batchDepth st = 0 -> keeps (lazy_unsubscribe z l) st.
Proof.
  intros HR Hb. unfold keeps, lazy_unsubscribe. destruct (lazies st !! z) as [a|] eqn:Hz; [|by exists (Ok tt), st].
  apply keeps_modify, keeps_modify.
  match goal with |- keeps _ ?s => assert (Rest [] s) as HR2 end.
  { apply Rest_alter_lazy; [done|]. apply Rest_call; [intros; apply remove_from_call|done]. }
  destruct ((count a - 1 =? 0) && started a); [apply modify_ok; [by apply Rest_emit|done]|]. eexists _, _. by split_and!.
Qed.
Lemma unsubscribe_with_ok i st : Rest [] st -> batchDepth st = 0 -> keeps (unsubscribe_with i) st.
Proof.
  intros HR Hb. unfold keeps, unsubscribe_with. destruct (disposers st !! i) as [d|]; [|by exists (Ok tt), st].
  destruct (active d); [|by exists (Ok tt), st]. apply keeps_modify. destruct (on d) as [s|z].
  - apply modify_ok; [|done]. apply Rest_call; [intros; apply remove_from_call|by apply Rest_disposers].
  - apply lazy_unsubscribe_ok; [by apply Rest_disposers|done].
Qed.
Lemma perform_ok p st : Rest [] st -> batchDepth st = 0 -> user (own st) p -> keeps (perform updater p) st.
Proof.
  intros HR Hb Hu. assert (length (signals st) <= fuel_of st)%nat as Hl by (unfold fuel_of; lia).
  destruct (run_ok _ _ _ _ (notify_follows (fuel_of st)) HR Hu Hl) as (r & st' & E & HR' & Hm & Hr).
  exists r, st'. split_and!; [exact E|done|by rewrite (moved_batch _ _ Hm)|done].
Qed.
Lemma step_ok st o : Rest [] st -> batchDepth st = 0 -> valid_op st o -> keeps (step o) st.
Proof.
  intros HR Hb Hv. destruct o as [v|p|p|n|s l|v|z v|z l|i|p]; simpl in Hv |- *.
  - eapply op_bind; [done|]. eexists _, _. split_and!; [done|by apply Rest_fresh|done..].
  - by apply keeps_ret, computed_ok.
  - by apply keeps_ret, start_ok.
  - by apply dispose_ok.
  - by apply keeps_ret, signal_subscribe_ok.
  - by apply keeps_ret, lazy_ok.
  - by apply lazy_set_ok.
  - by apply keeps_ret, lazy_subscribe_ok.
  - by apply unsubscribe_with_ok.
  - by apply keeps_ret, perform_ok.
Qed.
Lemma history_ok st : history st -> Rest [] st /\ batchDepth st = 0.
Proof.
  induction 1 as [|st o _ [HR Hb] Hv].
  - split; [|done]. split; try done. split; try done. intros s n. split; [intros ?; set_solver|by intros (x & ? & ?)].
  - destruct (step_ok st o HR Hb Hv) as (r & st' & -> & HR' & Hb' & _). done.
Qed.

(** C24: after any history of creating and disposing signals, derived signals and
    effects, of subscriptions, lazy signals and code that writes in batches and may
    throw, one more operation comes to an end, and leaves no batch open and no
    change unnotified: every derived signal holds the value of its function on what
    the signals hold now, every effect was last run on it, each is subscribed to
    exactly the signals that this run reads, and a disposed one to none. The
    callbacks of derived signals and effects read signals that exist and return a
    value that is no function; they do not write or throw, plain subscribers only
    record their calls, and other code writes signals that no callback sets
    ([valid_op]). The examples below show what goes wrong otherwise. *)
Theorem signals_consistent st o :
  history st -> valid_op st o ->
  exists r st', step o st = (r, st') /\ r <> Throw Diverges /\ consistent st' /\ batchDepth st' = 0 /\ pendingSignals st' = [].
Proof.
  intros [HR Hb]%history_ok Hv. destruct (step_ok st o HR Hb Hv) as (r & st' & E & HR' & Hb' & Hr).
  exists r, st'. split_and!; [done|done|by apply Rest_consistent|done|by apply (rest_pending _ _ HR')].
Qed.
End consistent.

(** ** At concrete signals *)

Section examples.
Notation prog := (prog (V := Z)).
(** Numbers, of which 100 stands for a function that adds one. *)
Definition updater (v : Z) : option (Z -> Z) := if v =? 100 then Some Z.succ else None.
Definition play (ops : list op) : state := foldl (fun st o => (step 0 updater o st).2) empty ops.
Definition sum_of (s t : nat) : prog := Read s (fun x => Read t (fun y => Done (if x + y =? 100 then 0 else x + y))).
Definition copy_of (s : nat) : prog := Read s (fun x => Done (if x =? 100 then 0 else x)).
Definition both : prog := Batch (Write 0 (fun _ => 5) (Write 1 (fun x => x + 1) (Fail (TypeError "late")))) Done.

Lemma play_snoc ops o : history 0 updater (play ops) -> valid_op updater (play ops) o -> history 0 updater (play (ops ++ [o])).
Proof. intros. unfold play. rewrite foldl_app. by apply history_step. Qed.
Lemma own_bool st s :
  bool_decide (s < length (signals st))%nat && bool_decide (Forall (fun x : node (V := Z) => out x <> Some s) (nodes st)) = true -> own st s.
Proof. intros [?%bool_decide_eq_true Ho%bool_decide_eq_true]%andb_true_iff. split; [done|]. intros n x Hx. apply (Forall_lookup_1 _ _ _ _ Ho Hx). Qed.
(** A signal derived from two, an effect of it, and a batch that writes both and throws. *)
Lemma signals_consistent_witness :
  exists r st', step 0 updater (Perform both) (play [NewSignal 1; NewSignal 2; Computed (sum_of 0 1); Effect (copy_of 2)]) = (r, st') /\
    r <> Throw Diverges /\ consistent 0 st' /\ batchDepth st' = 0 /\ pendingSignals st' = [].
Proof.
  assert (Hd : forall v : Z, updater (if v =? 100 then 0 else v) = None) by (intros v; unfold updater; destruct (Z.eqb_spec v 100); [done|]; by destruct (Z.eqb_spec v 100)).
  apply (signals_consistent 0 updater).
  - apply (play_snoc [_; _; _]).
    + apply (play_snoc [_; _]); [apply (play_snoc [_]); [apply (play_snoc []); [apply history_start|done]|done]|].
      cbn [valid_op]. replace (length _) with 2%nat by (by vm_compute). split; [lia|]. intros x. split; [lia|]. intros y. apply Hd.
    + cbn [valid_op]. replace (length _) with 3%nat by (by vm_compute). split; [lia|]. intros x. apply Hd.
  - split; [|done]. split; [by apply own_bool; vm_compute|]. split; [by apply own_bool; vm_compute|done].
Defined.

(** A derived signal that throws once is not run again. *)
Lemma thrown_derivation_detached :
  let p : prog := Read 0 (fun x => if x =? 2 then Fail (TypeError "two") else Done x) in
  let st := play [NewSignal 1; Computed p; Perform (Write 0 (fun _ => 2) (Done 0)); Perform (Write 0 (fun _ => 3) (Done 0))] in
  val 0 st 0 = 3 /\ val 0 st 1 = 1 /\ subs st 0 = [].
Proof. done. Qed.
(** The signals after one whose subscriber throws are not notified of a batch. *)
Lemma thrown_flush_skips :
  let p : prog := Read 0 (fun x => if x =? 2 then Fail (TypeError "two") else Done x) in
  let st := play [NewSignal 1; NewSignal 1; Effect p; Effect (copy_of 1);
    Perform (Batch (Write 0 (fun _ => 2) (Write 1 (fun _ => 2) (Done 0))) Done)] in
  val 0 st 1 = 2 /\ last_run 1 (log st) = Some 1 /\ is_dirty st 1 = true /\ pendingSignals st = [].
Proof. done. Qed.
(** One batch notifies a derived signal twice, the first time with a value that mixes
    old and new. *)
Lemma batch_notifies_twice :
  let st := play [NewSignal 1; NewSignal 1; Computed (copy_of 0); Computed (copy_of 1); Computed (sum_of 2 3); Subscribe 4 0;
    Perform (Batch (Write 0 (fun _ => 10) (Write 1 (fun _ => 20) (Done 0))) Done)] in
  omap (fun o => match o with Notified l v pr => Some (v, pr) | _ => None end) (log st) = [(11, 2); (30, 11)].
Proof. done. Qed.
(** A derived signal does not hold a function. *)
Lemma function_not_held : val 0 (play [Computed (Done 100)]) 0 = 1.
Proof. done. Qed.
(** An effect that reads a lazy signal is subscribed to the signal inside, and does
    not start the producer; a subscriber does. *)
Lemma lazy_read_not_started :
  log (play [NewLazy 1; Effect (copy_of 0)]) = [Ran 0 1] /\ log (play [NewLazy 1; LazySubscribe 0 7]) = [Started 0].
Proof. done. Qed.
End examples.
End SignalsConsistent.
