(* ===== verification/WebSocketFrames.v ===== *)
(** WebSocket frames (src/js/net/http/websocket.ts): the byte buffer that a
    connection reads frames from, masking and the encoding of a frame.

    A reader is the list of chunks that it will still give before it is done.
    A mask key is random; it is an argument of the encoder. *)

From S2P Require Import Prelude.

Module WebSocketFrames.

Definition OP_CONTINUATION := 0.
Definition OP_TEXT := 1.
Definition OP_BINARY := 2.
Definition OP_CLOSE := 8.
Definition OP_PING := 9.
Definition OP_PONG := 10.

(** ** The buffer *)
Record Buf := { chunks : list (list Z); size : Z }.
Definition new_buf : Buf := {| chunks := []; size := 0 |}.
Definition push (chunk : list Z) (b : Buf) : Buf := {| chunks := chunks b ++ [chunk]; size := size b + zlen chunk |}.
Definition available (b : Buf) : Z := size b.
(** The loop takes whole chunks while they fit in what is still needed. *)
Fixpoint consume_loop (need : Z) (cs : list (list Z)) (sz : Z) : res (list Z * Buf) :=
  if need <=? 0 then Ok ([], {| chunks := cs; size := sz |})
  else
    match cs with
    | [] => Throw (TypeError "cannot read properties of undefined")
    | head :: rest =>
        if zlen head <=? need then
          '(out, b) ← consume_loop (need - zlen head) rest (sz - zlen head); Ok (head ++ out, b)
        else
          Ok (take (Z.to_nat need) head, {| chunks := drop (Z.to_nat need) head :: rest; size := sz - need |})
    end.
Definition consume (n : Z) (b : Buf) : res (list Z * Buf) := consume_loop n (chunks b) (size b).

Record source := { buf : Buf; reader : list (list Z) }.
Fixpoint fill (n : Z) (rd : list (list Z)) (b : Buf) : bool * source :=
  if available b <? n then
    match rd with
    | [] => (false, {| buf := b; reader := [] |})
    | chunk :: rd => fill n rd (push chunk b)
    end
  else (true, {| buf := b; reader := rd |}).
Definition _readExactly (n : Z) : ST source (option (list Z)) := fun s =>
  let '(enough, s) := fill n (reader s) (buf s) in
  if enough then '(out, b) ← consume n (buf s); Ok (Some out, {| buf := b; reader := reader s |})
  else Ok (None, s).

(** ** Masking *)
Definition _maskInPlace (data key : list Z) : list Z :=
  imap (fun i b => js_xor b (nth (Z.to_nat (js_and (Z.of_nat i) 3)) key 0) mod 256) data.

(** ** Encoding *)
Definition length_bytes (maskBit len : Z) : list Z :=
  if len <=? 125 then [js_or maskBit len]
  else if len <=? 65535 then [js_or maskBit 126; js_and (js_ushr len 8) 255; js_and len 255]
  else
    let hi := len / 4294967296 in
    let lo := js_ushr len 0 in
    [js_or maskBit 127; js_and (js_ushr hi 24) 255; js_and (js_ushr hi 16) 255; js_and (js_ushr hi 8) 255; js_and hi 255;
     js_and (js_ushr lo 24) 255; js_and (js_ushr lo 16) 255; js_and (js_ushr lo 8) 255; js_and lo 255].
Definition _encodeFrame (opcode : Z) (payload : list Z) (mask : option (list Z)) (fin : bool) (rsv : Z) : list Z :=
  let maskBit := match mask with Some _ => 128 | None => 0 end in
  [js_or (js_or (if fin then 128 else 0) (js_and rsv 112)) (js_and opcode 15)] ++ length_bytes maskBit (zlen payload)
  ++ match mask with Some key => key ++ _maskInPlace payload key | None => payload end.

(** ** The bytes of a source *)
Definition bytes (s : source) : list Z := concat (chunks (buf s)) ++ concat (reader s).
Definition source_ok (s : source) : Prop := size (buf s) = zlen (concat (chunks (buf s))).

Lemma concat_snoc {A} (l : list (list A)) x : concat (l ++ [x]) = concat l ++ x.
Proof. rewrite concat_app. cbn. by rewrite app_nil_r. Qed.

Lemma fill_spec n rd : forall b, source_ok {| buf := b; reader := rd |} ->
  let all := bytes {| buf := b; reader := rd |} in
  let '(enough, s) := fill n rd b in
  bytes s = all /\ source_ok s /\ enough = (n <=? zlen all) /\ (enough = true -> n <= size (buf s)).
Proof.
  induction rd as [|c rd IH]; intros b Hb; cbn [fill]; unfold available; destruct (Z.ltb_spec (size b) n) as [H|H].
  - split_and!; [done|done| |done]. unfold source_ok, bytes in *. cbn in *. rewrite app_nil_r. symmetry. apply Z.leb_gt. lia.
  - split_and!; [done|done| |done]. unfold source_ok, bytes in *. cbn in *. rewrite app_nil_r. symmetry. apply Z.leb_le. lia.
  - specialize (IH (push c b)). assert (Hp : source_ok {| buf := push c b; reader := rd |}).
    { unfold source_ok in *. cbn in *. rewrite concat_snoc, zlen_app. lia. }
    specialize (IH Hp). assert (E : bytes {| buf := push c b; reader := rd |} = bytes {| buf := b; reader := c :: rd |}).
    { unfold bytes. cbn. by rewrite concat_snoc, <- app_assoc. }
    by rewrite E in IH.
  - split_and!; [done|done| |done]. unfold source_ok, bytes in *. cbn in *. rewrite zlen_app. pose proof (zlen_nonneg (c ++ concat rd)).
    symmetry. apply Z.leb_le. lia.
Qed.
Lemma consume_spec cs : forall n sz, 0 <= n <= zlen (concat cs) -> sz = zlen (concat cs) -> exists b,
  consume_loop n cs sz = Ok (take (Z.to_nat n) (concat cs), b) /\ concat (chunks b) = drop (Z.to_nat n) (concat cs) /\
  size b = zlen (concat (chunks b)).
Proof.
  induction cs as [|c cs IH]; intros n sz Hn Hs; cbn [consume_loop]; destruct (Z.leb_spec n 0) as [H|H].
  - replace n with 0 by lia. by eexists.
  - exfalso. cbn [concat] in Hn. change (zlen (@nil Z)) with 0 in Hn. lia.
  - replace n with 0 by lia. by eexists.
  - cbn [concat] in *. rewrite zlen_app in Hn, Hs. destruct (Z.leb_spec (zlen c) n) as [Hc|Hc].
    + destruct (IH (n - zlen c) (sz - zlen c)) as (b & -> & E & Es); [lia|lia|]. eexists. split; [|split; [|exact Es]].
      * cbn. do 2 f_equal. rewrite take_app, (take_ge c) by (unfold zlen in Hc; lia). do 2 f_equal. unfold zlen. lia.
      * rewrite E, drop_app, (drop_ge c) by (unfold zlen in Hc; lia). cbn. f_equal. unfold zlen. lia.
    + eexists. split; [rewrite take_app_le by (unfold zlen in Hc; lia); reflexivity|cbn [size chunks concat]; split].
      * by rewrite drop_app_le by (unfold zlen in Hc; lia).
      * rewrite zlen_app. unfold zlen in *. rewrite length_drop. lia.
Qed.

(** Reading takes the next [n] bytes, however they are cut into chunks. *)
Lemma readExactly_spec n s : source_ok s -> 0 <= n -> exists s',
  _readExactly n s = Ok (if n <=? zlen (bytes s) then Some (take (Z.to_nat n) (bytes s)) else None, s') /\ source_ok s' /\
  bytes s' = (if n <=? zlen (bytes s) then drop (Z.to_nat n) (bytes s) else bytes s).
Proof.
  intros Hs Hn. unfold _readExactly. destruct s as [b rd]. pose proof (fill_spec n rd b Hs) as H. cbn [buf reader].
  destruct (fill n rd b) as [enough s1]. destruct H as (Hb & Hok & -> & Hsz). rewrite <- Hb in *.
  destruct (Z.leb_spec n (zlen (bytes s1))) as [H|H].
  - specialize (Hsz eq_refl). unfold source_ok in Hok.
    destruct (consume_spec (chunks (buf s1)) n (size (buf s1)) ltac:(lia) Hok) as (b' & E & Ec & Es).
    unfold consume. rewrite E. assert (Hl : (Z.to_nat n <= length (concat (chunks (buf s1))))%nat) by (unfold zlen in *; lia).
    exists {| buf := b'; reader := reader s1 |}. split_and!; [|exact Es|].
    + cbn [mbind res_bind]. unfold bytes. by rewrite take_app_le by done.
    + unfold bytes at 1. cbn [buf reader]. rewrite Ec. unfold bytes. by rewrite drop_app_le by done.
  - by eexists.
Qed.

(** [m] on a source of the bytes [bs], in whatever chunks they come, gives [a]
    and leaves [bs']. *)
Definition runs {A} (m : ST source A) (bs : list Z) (a : A) (bs' : list Z) : Prop :=
  forall s, source_ok s -> bytes s = bs -> exists s', m s = Ok (a, s') /\ source_ok s' /\ bytes s' = bs'.
Lemma runs_ret {A} (a : A) bs : runs (mret a) bs a bs.
Proof. intros s Hs E. by exists s. Qed.
Lemma runs_bind {A B} (m : ST source A) (f : A -> ST source B) bs a bs1 b bs2 :
  runs m bs a bs1 -> runs (f a) bs1 b bs2 -> runs (m ≫= f) bs b bs2.
Proof.
  intros H1 H2 s Hs E. destruct (H1 s Hs E) as (s1 & E1 & Hs1 & Eb). destruct (H2 s1 Hs1 Eb) as (s2 & E2 & Hs2 & Eb2).
  exists s2. by rewrite (ST_bind_ok _ _ _ _ _ E1).
Qed.
Lemma runs_read n bs : 0 <= n ->
  runs (_readExactly n) bs (if n <=? zlen bs then Some (take (Z.to_nat n) bs) else None)
    (if n <=? zlen bs then drop (Z.to_nat n) bs else bs).
Proof. intros Hn s Hs <-. by apply readExactly_spec. Qed.
Lemma runs_read_app n a bs : n = zlen a -> runs (_readExactly n) (a ++ bs) (Some a) bs.
Proof.
  intros ->. pose proof (runs_read (zlen a) (a ++ bs) (zlen_nonneg a)) as H. rewrite zlen_app in H.
  destruct (Z.leb_spec (zlen a) (zlen a + zlen bs)) as [Hl|Hl]; [|pose proof (zlen_nonneg bs); lia].
  unfold zlen in H. rewrite Nat2Z.id, take_app_length, drop_app_length in H. done.
Qed.
(** Every source of [bs] runs [m] alike, and the bytes left are no more. *)
Definition regular {A} (m : ST source A) : Prop := forall bs, exists a bs', runs m bs a bs' /\ (length bs' <= length bs)%nat.
Lemma regular_ret {A} (a : A) : regular (mret a).
Proof. intros bs. exists a, bs. split; [apply runs_ret|lia]. Qed.
Lemma regular_bind {A B} (m : ST source A) (f : A -> ST source B) : regular m -> (forall a, regular (f a)) -> regular (m ≫= f).
Proof.
  intros Hm Hf bs. destruct (Hm bs) as (a & bs1 & R1 & L1). destruct (Hf a bs1) as (b & bs2 & R2 & L2).
  exists b, bs2. split; [by eapply runs_bind|lia].
Qed.
Lemma regular_read n : 0 <= n -> regular (_readExactly n).
Proof.
  intros Hn bs. do 2 eexists. split; [by apply runs_read|]. destruct (n <=? zlen bs); [rewrite length_drop|]; lia.
Qed.

(** ** Masks *)
Lemma byte_xor a b : is_byte a -> is_byte b -> js_xor a b mod 256 = Z.lxor a b /\ is_byte (Z.lxor a b).
Proof.
  intros Ha Hb. unfold is_byte in *. unfold js_xor. rewrite !toInt32_small by (apply is_int32_nonneg; lia).
  assert (E : Z.lxor a b mod 256 = Z.lxor a b).
  { rewrite <- (Z.mod_small a (2 ^ 8)), <- (Z.mod_small b (2 ^ 8)) by lia. change 256 with (2 ^ 8). apply Z.bits_inj'. intros n Hn.
    destruct (Z.lt_ge_cases n 8).
    - by rewrite Z.mod_pow2_bits_low by lia.
    - by rewrite Z.lxor_spec, !Z.mod_pow2_bits_high by lia. }
  split; [done|]. rewrite <- E. apply Z.mod_pos_bound. lia.
Qed.

Lemma length_mask data key : length (_maskInPlace data key) = length data.
Proof. apply length_imap. Qed.
Lemma key_byte key k : Forall is_byte key -> is_byte (nth k key 0).
Proof.
  intros H. destruct (nth_in_or_default k key 0) as [Hin| ->]; [|unfold is_byte; lia].
  rewrite Forall_forall in H. by apply H, list_elem_of_In.
Qed.
Lemma mask_involutive data key :
  Forall is_byte data -> Forall is_byte key -> _maskInPlace (_maskInPlace data key) key = data.
Proof.
  intros Hd Hk. unfold _maskInPlace. apply list_eq. intros i. rewrite !list_lookup_imap.
  destruct (data !! i) as [x|] eqn:E; [|done]. cbn. f_equal.
  assert (Hx : is_byte x) by (by apply (Forall_lookup_1 _ _ _ _ Hd E)).
  set (k := nth _ key 0). assert (Hkb : is_byte k) by (by apply key_byte).
  destruct (byte_xor x k Hx Hkb) as [-> Hb]. rewrite (proj1 (byte_xor _ _ Hb Hkb)), Z.lxor_assoc, Z.lxor_nilpotent. apply Z.lxor_0_r.
Qed.

(** ** Lengths *)
Lemma flag_or b x : 0 <= x < 128 -> js_or (if b : bool then 128 else 0) x = Z.b2z b * 128 + x.
Proof.
  intros Hx. unfold js_or. rewrite !toInt32_small by (apply is_int32_nonneg; destruct b; lia). destruct b; [|by rewrite Z.lor_0_l].
  rewrite Z.lor_comm. change 128 with (Z.shiftl 1 7). rewrite (lor_disjoint_add x 1 7) by lia. change (Z.shiftl 1 7) with 128. cbn. lia.
Qed.
Lemma ushr_byte x k : 0 <= k < 32 -> 0 <= x < 2 ^ 32 -> js_and (js_ushr x k) 255 = x / 2 ^ k mod 256.
Proof.
  intros Hk Hx. rewrite js_ushr_div by lia. rewrite (js_and_ones _ 255 8) by lia. change (2 ^ 8) with 256. done.
Qed.
Lemma length_bytes_16 maskBit len : 125 < len <= 65535 ->
  length_bytes maskBit len = js_or maskBit 126 :: be_bytes 2 len.
Proof.
  intros H. unfold length_bytes. destruct (Z.leb_spec len 125); [lia|]. destruct (Z.leb_spec len 65535); [|lia].
  rewrite ushr_byte by lia. rewrite (js_and_ones _ 255 8) by lia. done.
Qed.
Lemma length_bytes_64 maskBit len : 65535 < len < 2 ^ 53 ->
  length_bytes maskBit len = js_or maskBit 127 :: be_bytes 8 len.
Proof.
  intros H. unfold length_bytes. destruct (Z.leb_spec len 125); [lia|]. destruct (Z.leb_spec len 65535); [lia|].
  rewrite js_ushr_0. unfold toUint32.
  assert (0 <= len / 4294967296 < 2 ^ 32) by zdm. pose proof (Z.mod_pos_bound len (2 ^ 32) ltac:(lia)).
  rewrite !ushr_byte by lia. rewrite !(js_and_ones _ 255 8) by lia. f_equal.
  change (be_bytes 8 len) with
    (let q n := Nat.iter n (fun x => x / 256) len mod 256 in [q 7; q 6; q 5; q 4; q 3; q 2; q 1; q 0]%nat).
  cbv beta zeta delta [Nat.iter nat_rect]. rewrite !Z.div_div by lia.
  repeat (apply (f_equal2 cons); [cbn; zdm|]). done.
Qed.
End WebSocketFrames.
