(* ===== verification/WebSocketConnection.v ===== *)
(** WebSocket connections (src/js/net/http/websocket.ts): the loop that reads
    frames and delivers messages, the close handshake, and the operations of the
    application.

    The trace of a connection lists, in order, the events it dispatches, the
    frames that it hands to the writer of the transport and the iterators it
    answers.  All frames but one pass through a queue (a [SerialExecutor]), which
    moves on in steps of its own: [ticks] says how many of the queued frames are
    written before each step of the reader, and the theorems hold for any.  The
    frame that closes after a violation is written past the queue.  The writer
    accepts what it is handed, until the connection closes it.  Application
    code that runs in an event handler is a later step.  Inflating a compressed
    message is done by zlib; [inflate] stands for it. *)

From S2P Require Import Prelude JsString Utf8 ThriftIO WebSocketFrames.

Module WebSocketConnection.
Import WebSocketFrames.

(** ** State *)
Inductive ReadyState := CONNECTING | OPEN | CLOSING | CLOSED.
#[global] Instance ReadyState_eq_dec : EqDecision ReadyState.
Proof. solve_decision. Defined.
Inductive Role := client | server.
#[global] Instance Role_eq_dec : EqDecision Role.
Proof. solve_decision. Defined.
Inductive WebSocketMessage := TextMessage (data : jsstring) | BinaryMessage (data : list Z).
Inductive action :=
| DispatchPing
| DispatchPong
| DispatchMessage (m : WebSocketMessage)
| DispatchClose (code : Z) (reason : jsstring) (wasClean : bool)
| WriteFrame (opcode : Z) (payload : list Z) (mask : bool)
| Resolve (waiter : nat) (m : option WebSocketMessage).

Record conn := {
  role : Role; readyState : ReadyState; closeSent : bool; closeReceived : option (Z * jsstring); perMessageDeflate : bool;
  maxPayloadSize : Z; msgQueue : list WebSocketMessage; msgWaiters : list nat; writeQueue : list (Z * list Z); trace : list action;
}.
Definition emit (a : action) (c : conn) : conn :=
  {| role := role c; readyState := readyState c; closeSent := closeSent c; closeReceived := closeReceived c;
     perMessageDeflate := perMessageDeflate c; maxPayloadSize := maxPayloadSize c; msgQueue := msgQueue c;
     msgWaiters := msgWaiters c; writeQueue := writeQueue c; trace := trace c ++ [a] |}.
Definition set_state (st : ReadyState) (c : conn) : conn :=
  {| role := role c; readyState := st; closeSent := closeSent c; closeReceived := closeReceived c;
     perMessageDeflate := perMessageDeflate c; maxPayloadSize := maxPayloadSize c; msgQueue := msgQueue c;
     msgWaiters := msgWaiters c; writeQueue := writeQueue c; trace := trace c |}.
Definition set_sent (c : conn) : conn :=
  {| role := role c; readyState := readyState c; closeSent := true; closeReceived := closeReceived c;
     perMessageDeflate := perMessageDeflate c; maxPayloadSize := maxPayloadSize c; msgQueue := msgQueue c;
     msgWaiters := msgWaiters c; writeQueue := writeQueue c; trace := trace c |}.
Definition set_received (code : Z) (reason : jsstring) (c : conn) : conn :=
  {| role := role c; readyState := readyState c; closeSent := closeSent c; closeReceived := Some (code, reason);
     perMessageDeflate := perMessageDeflate c; maxPayloadSize := maxPayloadSize c; msgQueue := msgQueue c;
     msgWaiters := msgWaiters c; writeQueue := writeQueue c; trace := trace c |}.
Definition set_queue (q : list WebSocketMessage) (ws : list nat) (c : conn) : conn :=
  {| role := role c; readyState := readyState c; closeSent := closeSent c; closeReceived := closeReceived c;
     perMessageDeflate := perMessageDeflate c; maxPayloadSize := maxPayloadSize c; msgQueue := q; msgWaiters := ws;
     writeQueue := writeQueue c; trace := trace c |}.
Definition set_writes (ws : list (Z * list Z)) (c : conn) : conn :=
  {| role := role c; readyState := readyState c; closeSent := closeSent c; closeReceived := closeReceived c;
     perMessageDeflate := perMessageDeflate c; maxPayloadSize := maxPayloadSize c; msgQueue := msgQueue c;
     msgWaiters := msgWaiters c; writeQueue := ws; trace := trace c |}.
Definition masks (c : conn) : bool := bool_decide (role c = client).

(** ** Writing *)
Definition writeFrame (opcode : Z) (payload : list Z) (c : conn) : conn := emit (WriteFrame opcode payload (masks c)) c.
Definition enqueue (opcode : Z) (payload : list Z) (c : conn) : conn := set_writes (writeQueue c ++ [(opcode, payload)]) c.
(** The queue writes its next [k] frames. *)
Fixpoint advance (k : nat) (c : conn) : conn :=
  match k, writeQueue c with
  | S k, (op, payload) :: ws => advance k (writeFrame op payload (set_writes ws c))
  | _, _ => c
  end.
Definition flush (c : conn) : conn := advance (length (writeQueue c)) c.

Definition _validReceivedCloseCode (code : Z) : bool :=
  if (code <? 1000) || (4999 <? code) then false
  else if (code =? 1004) || (code =? 1005) || (code =? 1006) || (code =? 1015) then false
  else if (1016 <=? code) && (code <=? 2999) then false
  else true.
Definition close_payload (code : Z) (reason : list Z) : list Z := [js_and (js_ushr code 8) 255; js_and code 255] ++ reason.

(** ** Closing *)
(** The frame is written past the queue of the other writes. *)
Definition failProtocol (code : Z) (reason : jsstring) (c : conn) : conn :=
  if closeSent c || bool_decide (readyState c = CLOSED) then c
  else writeFrame OP_CLOSE (close_payload code (Utf8.encodeUtf8 (take 123 reason))) (set_state CLOSING (set_sent c)).
Definition closeIterators (c : conn) : conn :=
  set_queue (msgQueue c) [] (foldl (fun c w => emit (Resolve w None) c) c (msgWaiters c)).
(** It closes the writer too: what is still queued is lost. *)
Definition teardown (c : conn) : conn :=
  let alreadyClosed := bool_decide (readyState c = CLOSED) in
  let c := closeIterators (set_state CLOSED c) in
  if alreadyClosed then c
  else
    let '(code, reason) := default (1006, []) (closeReceived c) in
    emit (DispatchClose code reason (closeSent c && bool_decide (is_Some (closeReceived c)))) c.

(** ** Messages *)
Definition deliverMessage (m : WebSocketMessage) (c : conn) : conn :=
  let c := emit (DispatchMessage m) c in
  match msgWaiters c with
  | w :: ws => emit (Resolve w (Some m)) (set_queue (msgQueue c) ws c)
  | [] => set_queue (msgQueue c ++ [m]) [] c
  end.
(** [next()] of the iterator, whose promise is [w]. *)
Definition next (w : nat) (c : conn) : conn :=
  match msgQueue c with
  | m :: q => emit (Resolve w (Some m)) (set_queue q (msgWaiters c) c)
  | [] =>
      if bool_decide (readyState c = CLOSED) then emit (Resolve w None) c
      else set_queue [] (msgWaiters c ++ [w]) c
  end.

(** ** Receiving a frame *)
Inductive received :=
| Ended
| Violation (code : Z) (reason : jsstring)
| Received (fin rsv1 : bool) (opcode : Z) (payload : list Z).

Definition hex_digit (d : Z) : Z := if d <? 10 then 48 + d else 87 + d.
(** The checks on the two bytes of the header. *)
Definition check_header (c : conn) (b0 b1 : Z) : option (Z * jsstring) :=
  let fin := negb (js_and b0 128 =? 0) in
  let rsv := js_and b0 112 in
  let opcode := js_and b0 15 in
  let masked := negb (js_and b1 128 =? 0) in
  let lenCode := js_and b1 127 in
  let rsv1 := negb (js_and rsv 64 =? 0) in
  let isControl := 8 <=? opcode in
  if negb (js_and rsv 48 =? 0) then Some (1002, js "Unexpected RSV bits")
  else if ((2 <? opcode) && (opcode <? 8)) || (10 <? opcode) then Some (1002, js "Unknown opcode: 0x" ++ [hex_digit opcode])
  else if isControl && rsv1 then Some (1002, js "Control frames must not set RSV bits")
  else if isControl && negb fin then Some (1002, js "Control frames must not be fragmented")
  else if isControl && (125 <? lenCode) then Some (1002, js "Control frame payload exceeds 125 bytes")
  else if (opcode =? OP_CONTINUATION) && rsv1 then Some (1002, js "CONTINUATION frames must not set RSV1")
  else if ((opcode =? OP_TEXT) || (opcode =? OP_BINARY)) && rsv1 && negb (perMessageDeflate c) then
    Some (1002, js "RSV1 requires negotiated permessage-deflate")
  else if bool_decide (role c = server) && negb masked then Some (1002, js "Frames from client must be masked")
  else if bool_decide (role c = client) && masked then Some (1002, js "Frames from server must not be masked")
  else None.

(** The length of the payload; the sum of eight bytes is exact as far as it is
    compared with the size limit. *)
Definition readLength (lenCode : Z) : ST source (option (Z + Z * jsstring)) :=
  if lenCode <=? 125 then mret (Some (inl lenCode))
  else if lenCode =? 126 then
    ext ← _readExactly 2;
    mret (match ext with
          | Some [a; b] => Some (inl (js_or (js_shl a 8) b))
          | _ => None
          end)
  else
    ext ← _readExactly 8;
    mret (match ext with
          | Some ext =>
              if negb (js_and (nth 0 ext 0) 128 =? 0) then Some (inr (1009, js "Payload length most-significant bit is set"))
              else Some (inl (be_val ext))
          | None => None
          end).
Definition too_big (c : conn) : jsstring := js "Payload exceeds maxPayloadSize (" ++ JsString.dec_str (maxPayloadSize c) ++ js " bytes)".
(** The mask key and the payload. *)
Definition readPayload (masked : bool) (payloadLen : Z) : ST source (option (list Z)) :=
  key ← (if masked then _readExactly 4 else mret (Some []));
  match key with
  | None => mret None
  | Some key =>
      payload ← (if 0 <? payloadLen then _readExactly payloadLen else mret (Some []));
      mret (match payload with
            | Some payload => Some (if masked then _maskInPlace payload key else payload)
            | None => None
            end)
  end.
Definition receive (c : conn) : ST source received :=
  header ← _readExactly 2;
  match header with
  | Some [b0; b1] =>
      match check_header c b0 b1 with
      | Some (code, reason) => mret (Violation code reason)
      | None =>
          len ← readLength (js_and b1 127);
          match len with
          | None => mret Ended
          | Some (inr (code, reason)) => mret (Violation code reason)
          | Some (inl payloadLen) =>
              if maxPayloadSize c <? payloadLen then mret (Violation 1009 (too_big c))
              else
                payload ← readPayload (negb (js_and b1 128 =? 0)) payloadLen;
                mret (match payload with
                      | Some payload =>
                          Received (negb (js_and b0 128 =? 0)) (negb (js_and (js_and b0 112) 64 =? 0)) (js_and b0 15) payload
                      | None => Ended
                      end)
          end
      end
  | _ => mret Ended
  end.

(** ** Handling a frame *)
(** The message that is being assembled; the opcode is -1 between messages. *)
Record fragments := { fragOpcode : Z; fragParts : list (list Z); fragCompressed : bool }.
Definition no_fragments : fragments := {| fragOpcode := -1; fragParts := []; fragCompressed := false |}.

(** What the loop does next: read on, leave, or leave when what it queued is
    written. *)
Inductive verdict := Continue | Break | BreakWritten.

Section handling.
Context (inflate : list Z -> res (list Z)).

(** The answer to a close frame, which the loop waits for. *)
Definition echoClose (payload : list Z) (c : conn) : conn * verdict :=
  if closeSent c then (c, Break) else (enqueue OP_CLOSE payload (set_sent c), BreakWritten).
Definition handleClose (payload : list Z) (c : conn) : conn * verdict :=
  match payload with
  | [_] => (failProtocol 1002 (js "CLOSE payload length must be 0 or at least 2 bytes") c, Break)
  | [] => echoClose [] (set_received 1005 [] c)
  | a :: b :: rest =>
      let code := js_or (js_shl a 8) b in
      if negb (_validReceivedCloseCode code) then (failProtocol 1002 (js "Invalid WebSocket close code: " ++ JsString.dec_str code) c, Break)
      else
        match (if zlen payload <=? 2 then Ok [] else Utf8.decodeUtf8 rest true true) with
        | Throw _ => (failProtocol 1007 (js "Invalid UTF-8 in WebSocket close reason") c, Break)
        | Ok reason => echoClose (if zlen payload <=? 125 then payload else take 125 payload) (set_received code reason c)
        end
  end.
(** A complete message. *)
Definition finish (opcode : Z) (compressed : bool) (assembled : list Z) (c : conn) : conn * verdict :=
  let deliver assembled :=
    if opcode =? OP_TEXT then
      match Utf8.decodeUtf8 assembled true true with
      | Ok text => (deliverMessage (TextMessage text) c, Continue)
      | Throw _ => (failProtocol 1007 (js "Invalid UTF-8 in text message") c, Break)
      end
    else (deliverMessage (BinaryMessage assembled) c, Continue) in
  if compressed then
    match inflate assembled with
    | Throw _ => (failProtocol 1003 (js "Invalid permessage-deflate payload") c, Break)
    | Ok assembled =>
        if maxPayloadSize c <? zlen assembled then
          (failProtocol 1009 (js "Inflated payload exceeds maxPayloadSize (" ++ JsString.dec_str (maxPayloadSize c) ++ js " bytes)") c, Break)
        else deliver assembled
    end
  else deliver assembled.
Definition handleFrame (fin rsv1 : bool) (opcode : Z) (payload : list Z) (c : conn) (f : fragments) : conn * fragments * verdict :=
  if opcode =? OP_PING then (enqueue OP_PONG payload (emit DispatchPing c), f, Continue)
  else if opcode =? OP_PONG then (emit DispatchPong c, f, Continue)
  else if opcode =? OP_CLOSE then let '(c, go) := handleClose payload c in (c, f, go)
  else
    let add f' :=
      if fin then
        let '(c, go) := finish (fragOpcode f') (fragCompressed f') (concat (fragParts f')) c in (c, no_fragments, go)
      else (c, f', Continue) in
    if opcode =? OP_CONTINUATION then
      if fragOpcode f =? -1 then (failProtocol 1002 (js "CONTINUATION frame without a preceding data frame") c, f, Break)
      else add {| fragOpcode := fragOpcode f; fragParts := fragParts f ++ [payload]; fragCompressed := fragCompressed f |}
    else if negb (fragOpcode f =? -1) then (failProtocol 1002 (js "New data frame received during fragmented message") c, f, Break)
    else add {| fragOpcode := opcode; fragParts := fragParts f ++ [payload]; fragCompressed := rsv1 |}.

(** Every round reads two bytes, so their number bounds the rounds. *)
Fixpoint pump_loop (fuel : nat) (ticks : nat -> nat) (c : conn) (f : fragments) (s : source) : res conn :=
  match fuel with
  | O => Throw Diverges
  | S fuel =>
      let received := receive c s in
      let c := advance (ticks O) c in
      match received with
      | Throw _ => Ok c
      | Ok (Ended, _) => Ok c
      | Ok (Violation code reason, _) => Ok (advance (ticks 1%nat) (failProtocol code reason c))
      | Ok (Received fin rsv1 opcode payload, s) =>
          let '(c, f, go) := handleFrame fin rsv1 opcode payload c f in
          match go with
          | Continue => pump_loop fuel (fun i => ticks (S i)) c f s
          | Break => Ok (advance (ticks 1%nat) c)
          | BreakWritten => Ok (flush c)
          end
      end
  end.
Definition readPump (ticks : nat -> nat) (c : conn) (s : source) : res conn :=
  c ← pump_loop (S (length (bytes s))) ticks c no_fragments s; Ok (teardown c).
End handling.

(** ** The application *)
Inductive outgoing := SendText (s : jsstring) | SendBytes (bs : list Z).
Definition send (data : outgoing) (c : conn) : res conn :=
  match readyState c with
  | CONNECTING => Throw (JsError "WebSocket is not yet open")
  | OPEN =>
      Ok (match data with
          | SendText s => enqueue OP_TEXT (Utf8.encodeUtf8 s) c
          | SendBytes bs => enqueue OP_BINARY bs c
          end)
  | _ => Ok c
  end.
Definition ping (data : list Z) (c : conn) : res conn :=
  if negb (bool_decide (readyState c = OPEN)) then Ok c
  else if 125 <? zlen data then Throw (JsError "ping: payload must be at most 125 bytes")
  else Ok (enqueue OP_PING data c).
Definition pong (data : list Z) (c : conn) : res conn :=
  if negb (bool_decide (readyState c = OPEN)) then Ok c
  else if 125 <? zlen data then Throw (JsError "pong: payload must be at most 125 bytes")
  else Ok (enqueue OP_PONG data c).
(** Up to the wait for the peer, which ends in [teardown] when it takes too long. *)
Definition close (code : Z) (reason : jsstring) (c : conn) : res conn :=
  if bool_decide (readyState c = CLOSING) || bool_decide (readyState c = CLOSED) then Ok c
  else if negb (code =? 1000) && negb ((3000 <=? code) && (code <=? 4999)) then Throw (JsError "Invalid WebSocket close code")
  else if 123 <? zlen (Utf8.encodeUtf8 reason) then Throw (JsError "WebSocket close reason too long")
  else Ok (enqueue OP_CLOSE (close_payload code (Utf8.encodeUtf8 reason)) (set_sent (set_state CLOSING c))).

(** ** Reading ends, whatever the chunks *)
Create HintDb ws.
#[export] Hint Resolve regular_ret regular_bind regular_read : ws.
Lemma regular_readLength lenCode : regular (readLength lenCode).
Proof.
  unfold readLength. destruct (lenCode <=? 125); [auto with ws|].
  destruct (lenCode =? 126); (apply regular_bind; [apply regular_read; lia|auto with ws]).
Qed.
Lemma regular_readPayload masked n : regular (readPayload masked n).
Proof.
  unfold readPayload. apply regular_bind; [destruct masked; [apply regular_read; lia|auto with ws]|]. intros [key|]; [|auto with ws].
  apply regular_bind; [destruct (Z.ltb_spec 0 n); [apply regular_read; lia|auto with ws]|auto with ws].
Qed.
#[export] Hint Resolve regular_readLength regular_readPayload : ws.
Lemma receive_runs c bs : exists a bs', runs (receive c) bs a bs' /\ (length bs' <= length bs)%nat /\
  (zlen bs < 2 -> a = Ended) /\ (2 <= zlen bs -> (length bs' + 2 <= length bs)%nat).
Proof.
  unfold receive. pose proof (runs_read 2 bs ltac:(lia)) as H.
  destruct (Z.leb_spec 2 (zlen bs)) as [Hl|Hl].
  - destruct bs as [|b0 [|b1 bs]]; [unfold zlen in Hl; cbn in Hl; lia..|]. cbn in H.
    assert (Hr : regular (match check_header c b0 b1 with
      | Some (code, reason) => mret (Violation code reason)
      | None => len ← readLength (js_and b1 127);
          match len with
          | None => mret Ended
          | Some (inr (code, reason)) => mret (Violation code reason)
          | Some (inl payloadLen) =>
              if maxPayloadSize c <? payloadLen then mret (Violation 1009 (too_big c))
              else payload ← readPayload (negb (js_and b1 128 =? 0)) payloadLen;
                mret (match payload with
                      | Some payload => Received (negb (js_and b0 128 =? 0)) (negb (js_and (js_and b0 112) 64 =? 0)) (js_and b0 15) payload
                      | None => Ended end)
          end
      end)).
    { destruct (check_header c b0 b1) as [[? ?]|]; [auto with ws|]. apply regular_bind; [auto with ws|].
      intros [[n|[? ?]]|]; [|auto with ws..]. destruct (maxPayloadSize c <? n); auto with ws. }
    destruct (Hr bs) as (a & bs' & R & L). exists a, bs'. split_and!; [by eapply runs_bind|cbn; lia|lia|cbn; lia].
  - exists Ended, bs. split_and!; [|lia|done|lia]. eapply runs_bind; [exact H|]. apply runs_ret.
Qed.

Lemma pump_runs inflate fuel : forall ticks c f bs, (length bs < fuel)%nat -> exists c',
  forall s, source_ok s -> bytes s = bs -> pump_loop inflate fuel ticks c f s = Ok c'.
Proof.
  induction fuel as [|fuel IH]; intros ticks c f bs Hl; [lia|]. destruct (receive_runs c bs) as (a & bs' & R & L & He & Hc).
  set (c0 := advance (ticks O) c). destruct a as [|code reason|fin rsv1 op payload].
  - exists c0. intros s Hs E. destruct (R s Hs E) as (s' & Er & _). cbn [pump_loop]. by rewrite Er.
  - exists (advance (ticks 1%nat) (failProtocol code reason c0)). intros s Hs E. destruct (R s Hs E) as (s' & Er & _). cbn [pump_loop]. by rewrite Er.
  - destruct (handleFrame inflate fin rsv1 op payload c0 f) as [[c1 f1] go] eqn:Eh.
    assert (H2 : 2 <= zlen bs) by (destruct (Z.lt_ge_cases (zlen bs) 2); [specialize (He H); done|done]).
    destruct (IH (fun i => ticks (S i)) c1 f1 bs') as (c' & H); [specialize (Hc H2); lia|].
    exists (match go with Continue => c' | Break => advance (ticks 1%nat) c1 | BreakWritten => flush c1 end).
    intros s Hs E. destruct (R s Hs E) as (s' & Er & Hs' & Eb). cbn [pump_loop]. rewrite Er. fold c0. rewrite Eh. destruct go; auto.
Qed.

(** ** Receiving what a peer sends *)
Lemma frame_high_bit x : is_byte x -> negb (js_and x 128 =? 0) = (128 <=? x) /\ js_and x 127 = x mod 128.
Proof.
  intros Hx. assert (H : (Bool.eqb (negb (js_and x 128 =? 0)) (128 <=? x) && (js_and x 127 =? x mod 128)) = true).
  { apply (byte_forallb (fun x => Bool.eqb (negb (js_and x 128 =? 0)) (128 <=? x) && (js_and x 127 =? x mod 128))); [vm_compute; done|done]. }
  apply andb_prop in H as [H1 H2]. split; [by apply Bool.eqb_prop|by apply Z.eqb_eq].
Qed.
(** The second byte of a header. *)
Lemma mask_byte (b : bool) x : 0 <= x < 128 ->
  negb (js_and (js_or (if b then 128 else 0) x) 128 =? 0) = b /\ js_and (js_or (if b then 128 else 0) x) 127 = x.
Proof.
  intros Hx. rewrite flag_or by done. destruct (frame_high_bit (Z.b2z b * 128 + x)) as [-> ->]; [unfold is_byte; destruct b; cbn; lia|].
  destruct b; cbn [Z.b2z]; split; [apply Z.leb_le; lia|zdm|apply Z.leb_gt; lia|zdm].
Qed.
Lemma mask_flag (mask : option (list Z)) :
  match mask with Some _ => 128 | None => 0 end = if bool_decide (is_Some mask) then 128 else 0.
Proof. by destruct mask. Qed.

(** The opcodes, and what a control frame is. *)
Definition opcode_ok (op : Z) (fin : bool) (payload : list Z) : Prop :=
  op = 0 \/ op = 1 \/ op = 2 \/ (op = 8 \/ op = 9 \/ op = 10) /\ fin = true /\ zlen payload <= 125.
(** A peer masks its frames when this side is the server. *)
Definition mask_ok (r : Role) (mask : option (list Z)) : Prop :=
  match mask with
  | Some key => r = server /\ length key = 4%nat /\ Forall is_byte key
  | None => r = client
  end.
Definition payload_ok (max : Z) (payload : list Z) : Prop := Forall is_byte payload /\ zlen payload <= max /\ zlen payload < 2 ^ 53.

Lemma check_encoded c op fin payload mask lenCode :
  opcode_ok op fin payload -> mask_ok (role c) mask -> 0 <= lenCode < 128 -> (zlen payload <= 125 -> lenCode <= 125) ->
  check_header c (js_or (js_or (if fin then 128 else 0) (js_and 0 112)) (js_and op 15))
    (js_or (match mask with Some _ => 128 | None => 0 end) lenCode) = None /\
  negb (js_and (js_or (js_or (if fin then 128 else 0) (js_and 0 112)) (js_and op 15)) 128 =? 0) = fin /\
  js_and (js_and (js_or (js_or (if fin then 128 else 0) (js_and 0 112)) (js_and op 15)) 112) 64 = 0 /\
  js_and (js_or (js_or (if fin then 128 else 0) (js_and 0 112)) (js_and op 15)) 15 = op.
Proof.
  intros Ho Hm Hl Hc. rewrite mask_flag. destruct (mask_byte (bool_decide (is_Some mask)) lenCode Hl) as [E1 E2].
  assert (Hr : bool_decide (role c = server) && negb (bool_decide (is_Some mask)) = false /\
               bool_decide (role c = client) && bool_decide (is_Some mask) = false).
  { destruct mask; [destruct Hm as (-> & _)|rewrite Hm]; done. }
  unfold check_header. rewrite E1, E2. destruct Hr as [-> ->].
  destruct Ho as [->|[->|[->|([->|[->| ->]] & -> & Hp)]]]; try (destruct fin; vm_compute; done);
    (destruct (Z.ltb_spec 125 lenCode); [specialize (Hc Hp); lia|vm_compute; done]).
Qed.
Lemma two_bytes a b : is_byte a -> is_byte b -> js_or (js_shl a 8) b = a * 256 + b.
Proof.
  unfold is_byte. intros Ha Hb. rewrite js_shl_small by lia. change (2 ^ 8) with 256.
  unfold js_or. rewrite Z.lor_comm. fold (js_or b (a * 256)). change 256 with (2 ^ 8). rewrite js_or_add by lia. lia.
Qed.
(** The bytes that hold the length, after the second byte of the header. *)
Definition extended (len lenCode : Z) (ext : list Z) : Prop :=
  0 <= len <= 125 /\ lenCode = len /\ ext = [] \/
  125 < len <= 65535 /\ lenCode = 126 /\ ext = be_bytes 2 len \/
  65535 < len < 2 ^ 53 /\ lenCode = 127 /\ ext = be_bytes 8 len.
Lemma length_bytes_extended mb len : 0 <= len < 2 ^ 53 -> exists lenCode ext,
  length_bytes mb len = js_or mb lenCode :: ext /\ extended len lenCode ext.
Proof.
  intros H. destruct (Z.le_gt_cases len 125) as [H1|H1]; [|destruct (Z.le_gt_cases len 65535) as [H2|H2]].
  - exists len, []. unfold length_bytes. destruct (Z.leb_spec len 125); [|lia]. split; [done|]. left. split_and!; [lia..|done].
  - exists 126, (be_bytes 2 len). rewrite length_bytes_16 by lia. split; [done|]. right; left. split_and!; [lia..|done].
  - exists 127, (be_bytes 8 len). rewrite length_bytes_64 by lia. split; [done|]. right; right. split_and!; [lia..|done].
Qed.
Lemma extended_code len lenCode ext : extended len lenCode ext -> 0 <= lenCode < 128 /\ (len <= 125 -> lenCode <= 125).
Proof. intros [(H & -> & _)|[(H & -> & _)|(H & -> & _)]]; lia. Qed.
Lemma readLength_runs len lenCode ext rest :
  extended len lenCode ext -> runs (readLength lenCode) (ext ++ rest) (Some (inl len)) rest.
Proof.
  intros [(H & -> & ->)|[(H & -> & ->)|(H & -> & ->)]]; unfold readLength.
  - destruct (Z.leb_spec len 125); [|lia]. apply runs_ret.
  - change (126 <=? 125) with false. change (126 =? 126) with true. cbn match.
    eapply runs_bind; [apply runs_read_app; unfold zlen; by rewrite length_be_bytes|].
    change (be_bytes 2 len) with [len / 256 mod 256; len mod 256]. cbn match.
    rewrite two_bytes by (unfold is_byte; zdm). replace (len / 256 mod 256 * 256 + len mod 256) with len by zdm. apply runs_ret.
  - change (127 <=? 125) with false. change (127 =? 126) with false. cbn match.
    eapply runs_bind; [apply runs_read_app; unfold zlen; by rewrite length_be_bytes|].
    assert (E : nth 0 (be_bytes 8 len) 0 = 0).
    { change (nth 0 (be_bytes 8 len) 0) with (len / 256 / 256 / 256 / 256 / 256 / 256 / 256 mod 256). rewrite !Z.div_div by lia. cbn. zdm. }
    cbv beta match. rewrite E. change (negb (js_and 0 128 =? 0)) with false. cbv beta match.
    rewrite be_val_bytes, Z.mod_small by (cbn; lia). apply runs_ret.
Qed.
Lemma readPayload_runs r mask payload rest :
  mask_ok r mask -> Forall is_byte payload ->
  runs (readPayload (bool_decide (is_Some mask)) (zlen payload))
    (match mask with Some key => key ++ _maskInPlace payload key | None => payload end ++ rest) (Some payload) rest.
Proof.
  intros Hm Hp. unfold readPayload. destruct mask as [key|]; cbn [bool_decide].
  - destruct Hm as (_ & Hk & Hkb). rewrite <- app_assoc.
    eapply runs_bind; [apply runs_read_app; unfold zlen; by rewrite Hk|]. cbn match.
    eapply (runs_bind _ _ _ (Some (_maskInPlace payload key))).
    + destruct (Z.ltb_spec 0 (zlen payload)) as [H|H]; [apply runs_read_app; unfold zlen; by rewrite length_mask|].
      destruct payload; [apply runs_ret|]. rewrite zlen_cons in H. pose proof (zlen_nonneg payload). lia.
    + cbn match. rewrite mask_involutive by done. apply runs_ret.
  - eapply runs_bind; [apply runs_ret|]. cbn match. eapply (runs_bind _ _ _ (Some payload)); [|apply runs_ret].
    destruct (Z.ltb_spec 0 (zlen payload)) as [H|H]; [by apply runs_read_app|].
    destruct payload; [apply runs_ret|]. rewrite zlen_cons in H. pose proof (zlen_nonneg payload). lia.
Qed.

Lemma receive_encoded c op fin payload mask rest :
  opcode_ok op fin payload -> mask_ok (role c) mask -> payload_ok (maxPayloadSize c) payload ->
  runs (receive c) (_encodeFrame op payload mask fin 0 ++ rest) (Received fin false op payload) rest.
Proof.
  intros Ho Hm (Hb & Hmax & H53).
  destruct (length_bytes_extended (match mask with Some _ => 128 | None => 0 end) (zlen payload)) as (lenCode & ext & El & Hx).
  { pose proof (zlen_nonneg payload). lia. }
  destruct (extended_code _ _ _ Hx) as [Hl Hc].
  destruct (check_encoded c op fin payload mask lenCode Ho Hm Hl Hc) as (E1 & E2 & E3 & E4).
  unfold receive, _encodeFrame. rewrite El.
  set (b0 := js_or (js_or _ _) _) in *. rewrite <- !app_assoc.
  set (b1 := js_or _ lenCode) in *. eapply (runs_bind _ _ _ (Some [b0; b1])); [by apply (runs_read_app 2 [b0; b1])|].
  cbn match. rewrite E1. assert (E5 : js_and b1 127 = lenCode /\ negb (js_and b1 128 =? 0) = bool_decide (is_Some mask)).
  { unfold b1. rewrite mask_flag. by destruct (mask_byte (bool_decide (is_Some mask)) lenCode Hl). }
  destruct E5 as [-> ->]. rewrite E2, E3, E4. eapply runs_bind; [by apply readLength_runs|]. cbn match.
  destruct (Z.ltb_spec (maxPayloadSize c) (zlen payload)); [lia|].
  eapply runs_bind; [by apply (readPayload_runs (role c))|]. apply runs_ret.
Qed.

(** ** Conforming peers *)
Record frame := { f_op : Z; f_fin : bool; f_payload : list Z }.
Definition frame_ok (max : Z) (fr : frame) : Prop := opcode_ok (f_op fr) (f_fin fr) (f_payload fr) /\ payload_ok max (f_payload fr).
Definition encodes (r : Role) (fr : frame) (bs : list Z) : Prop :=
  exists mask, mask_ok r mask /\ bs = _encodeFrame (f_op fr) (f_payload fr) mask (f_fin fr) 0.
Definition encoded (r : Role) (frames : list frame) (bs : list Z) : Prop :=
  exists bss, bs = concat bss /\ Forall2 (encodes r) frames bss.
Inductive control := CPing (data : list Z) | CPong (data : list Z).
Definition control_frame (k : control) : frame :=
  match k with
  | CPing bs => {| f_op := OP_PING; f_fin := true; f_payload := bs |}
  | CPong bs => {| f_op := OP_PONG; f_fin := true; f_payload := bs |}
  end.
(** A fragment of a message, with the control frames that come before it. *)
Record piece := { p_before : list control; p_data : list Z }.
Inductive item :=
| Controls (ks : list control)
| Sent (m : WebSocketMessage) (first : piece) (more : list piece).
Definition message_op (m : WebSocketMessage) : Z := match m with TextMessage _ => OP_TEXT | BinaryMessage _ => OP_BINARY end.
Definition message_bytes (m : WebSocketMessage) : list Z :=
  match m with TextMessage s => Utf8.encodeUtf8 s | BinaryMessage bs => bs end.
Definition piece_frames (op : Z) (fin : bool) (p : piece) : list frame :=
  map control_frame (p_before p) ++ [{| f_op := op; f_fin := fin; f_payload := p_data p |}].
Fixpoint more_frames (more : list piece) : list frame :=
  match more with [] => [] | p :: ps => piece_frames OP_CONTINUATION (bool_decide (ps = [])) p ++ more_frames ps end.
Definition item_frames (i : item) : list frame :=
  match i with
  | Controls ks => map control_frame ks
  | Sent m first more => piece_frames (message_op m) (bool_decide (more = [])) first ++ more_frames more
  end.
Definition close_frame (code : Z) (reason : jsstring) : frame :=
  {| f_op := OP_CLOSE; f_fin := true; f_payload := close_payload code (Utf8.encodeUtf8 reason) |}.
(** The fragments make up the message. *)
Definition item_ok (i : item) : Prop :=
  match i with
  | Controls _ => True
  | Sent m first more =>
      match m with TextMessage s => Forall Utf8.is_unit s | BinaryMessage _ => True end /\
      p_data first ++ concat (map p_data more) = message_bytes m
  end.
(** What is decoded of a text: lone surrogates are U+FFFD, and a byte order mark at
    the start is gone. *)
Definition shown_text (s : jsstring) : jsstring := Utf8.toWellFormed (Utf8.strip_bom s).
Definition shown (m : WebSocketMessage) : WebSocketMessage :=
  match m with TextMessage s => TextMessage (shown_text s) | BinaryMessage _ => m end.
(** What this side does for them: the events, and the frames it answers with. *)
Definition control_events (k : control) : list action := match k with CPing _ => [DispatchPing] | CPong _ => [DispatchPong] end.
Definition control_answers (mask : bool) (k : control) : list action :=
  match k with CPing bs => [WriteFrame OP_PONG bs mask] | CPong _ => [] end.
Definition item_controls (i : item) : list control :=
  match i with Controls ks => ks | Sent _ first more => p_before first ++ concat (map p_before more) end.
Definition item_messages (i : item) : list WebSocketMessage := match i with Controls _ => [] | Sent m _ _ => [shown m] end.
Definition item_events (i : item) : list action :=
  concat (map control_events (item_controls i)) ++ map DispatchMessage (item_messages i).
Definition item_answers (mask : bool) (i : item) : list action := concat (map (control_answers mask) (item_controls i)).

Definition is_write (a : action) : bool := match a with WriteFrame _ _ _ => true | _ => false end.
Definition written (tr : list action) : list action := List.filter is_write tr.
Definition events (tr : list action) : list action := List.filter (fun a => negb (is_write a)) tr.
Definition frames_of (mask : bool) (ws : list (Z * list Z)) : list action := map (fun '(op, p) => WriteFrame op p mask) ws.

(** From [c] to [c1] the events [evs] were dispatched, the frames [ans] were put
    behind those that waited, and the messages [ms] were queued. *)
Record did (evs ans : list action) (ms : list WebSocketMessage) (c c1 : conn) : Prop := {
  did_role : role c1 = role c;
  did_state : readyState c1 = readyState c;
  did_sent : closeSent c1 = closeSent c;
  did_received : closeReceived c1 = closeReceived c;
  did_max : maxPayloadSize c1 = maxPayloadSize c;
  did_waiters : msgWaiters c1 = msgWaiters c;
  did_queue : msgQueue c1 = msgQueue c ++ ms;
  did_trace : exists acts, trace c1 = trace c ++ acts /\ events acts = evs /\
    written acts ++ frames_of (masks c) (writeQueue c1) = frames_of (masks c) (writeQueue c) ++ ans;
}.
Lemma did_masks evs ans ms c c1 : did evs ans ms c c1 -> masks c1 = masks c.
Proof. intros H. unfold masks. by rewrite (did_role _ _ _ _ _ H). Qed.
Lemma did_refl c : did [] [] [] c c.
Proof. split; try done; [by rewrite app_nil_r|]. exists []. by rewrite !app_nil_r. Qed.
Lemma did_trans e1 a1 m1 e2 a2 m2 c c1 c2 : did e1 a1 m1 c c1 -> did e2 a2 m2 c1 c2 -> did (e1 ++ e2) (a1 ++ a2) (m1 ++ m2) c c2.
Proof.
  intros H1 H2. pose proof (did_masks _ _ _ _ _ H1) as Em. destruct H1 as [? ? ? ? ? ? Q1 (x1 & T1 & E1 & W1)], H2 as [? ? ? ? ? ? Q2 (x2 & T2 & E2 & W2)].
  rewrite Em in W2. split; try congruence; [by rewrite Q2, Q1, app_assoc|]. exists (x1 ++ x2). rewrite T2, T1, app_assoc. split; [done|].
  unfold events, written in *. rewrite !List.filter_app, E1, E2. split; [done|]. by rewrite <- app_assoc, W2, app_assoc, W1, app_assoc.
Qed.
Lemma did_advance k : forall c, did [] [] [] c (advance k c).
Proof.
  induction k as [|k IH]; intros c; cbn [advance]; [apply did_refl|]. destruct (writeQueue c) as [|[op p] ws] eqn:E; [apply did_refl|].
  apply (did_trans [] [] [] [] [] [] c (writeFrame op p (set_writes ws c))); [|apply IH].
  split; try done; [by rewrite app_nil_r|]. exists [WriteFrame op p (masks c)]. rewrite E. cbn. by rewrite app_nil_r.
Qed.
Lemma advance_queue k : forall c, writeQueue (advance k c) = drop k (writeQueue c).
Proof.
  induction k as [|k IH]; intros c; cbn [advance]; [by rewrite drop_0|]. destruct (writeQueue c) as [|[op p] ws] eqn:E; [done|]. by rewrite IH.
Qed.
Lemma flush_queue c : writeQueue (flush c) = [].
Proof. unfold flush. rewrite advance_queue. by apply drop_ge. Qed.
Lemma advance_closed code reason k : forall c,
  advance k (set_sent (set_received code reason c)) = set_sent (set_received code reason (advance k c)).
Proof.
  induction k as [|k IH]; intros c; [done|]. cbn [advance writeQueue set_sent set_received].
  destruct (writeQueue c) as [|[op p] ws]; [done|]. rewrite <- IH. done.
Qed.
Lemma flush_closed code reason op p c :
  flush (enqueue op p (set_sent (set_received code reason c))) = set_sent (set_received code reason (flush (enqueue op p c))).
Proof. apply (advance_closed code reason _ (enqueue op p c)). Qed.
Lemma did_event a c : is_write a = false -> did [a] [] [] c (emit a c).
Proof. intros Ha. split; try done; [by rewrite app_nil_r|]. exists [a]. unfold events, written. cbn. rewrite Ha. cbn. by rewrite app_nil_r. Qed.
Lemma did_enqueue op p c : did [] [WriteFrame op p (masks c)] [] c (enqueue op p c).
Proof. split; try done; [by rewrite app_nil_r|]. exists []. cbn. rewrite app_nil_r. split; [done|]. split; [done|]. unfold frames_of. by rewrite map_app. Qed.
Lemma did_deliver m c : msgWaiters c = [] -> did [DispatchMessage m] [] [m] c (deliverMessage m c).
Proof.
  intros Hw. unfold deliverMessage. cbn. rewrite Hw. split; try done. exists [DispatchMessage m]. cbn. by rewrite app_nil_r.
Qed.

Lemma encoded_nil r : encoded r [] [].
Proof. by exists []. Qed.
Lemma encoded_nil_inv r bs : encoded r [] bs -> bs = [].
Proof. intros (bss & -> & H). by apply Forall2_nil_inv_l in H as ->. Qed.
Lemma encoded_app r f1 f2 bs : encoded r (f1 ++ f2) bs -> exists b1 b2, bs = b1 ++ b2 /\ encoded r f1 b1 /\ encoded r f2 b2.
Proof.
  intros (bss & -> & H). apply Forall2_app_inv_l in H as (l1 & l2 & H1 & H2 & ->). exists (concat l1), (concat l2).
  rewrite concat_app. split; [done|]. split; by eexists.
Qed.
Lemma encoded_cons r fr frs bs : encoded r (fr :: frs) bs -> exists b1 b2, bs = b1 ++ b2 /\ encodes r fr b1 /\ encoded r frs b2.
Proof.
  intros (bss & -> & H). apply Forall2_cons_inv_l in H as (b & l & H1 & H2 & ->). exists b, (concat l).
  split; [done|]. split; [done|]. by eexists.
Qed.

Section pumping.
Context (inflate : list Z -> res (list Z)).
(** The loop on any source of [bs] ends, in a state with [Q]. *)
Definition pumps (c : conn) (f : fragments) (bs : list Z) (Q : conn -> Prop) : Prop :=
  forall fuel ticks s, source_ok s -> bytes s = bs -> (length bs < fuel)%nat ->
  exists c', pump_loop inflate fuel ticks c f s = Ok c' /\ Q c'.
Lemma encodes_length r fr bs : encodes r fr bs -> (2 <= length bs)%nat.
Proof.
  intros (mask & _ & ->). unfold _encodeFrame. rewrite !length_app. unfold length_bytes.
  zcases; cbn; lia.
Qed.
Definition handles (c : conn) (f : fragments) (fr : frame) : conn * fragments * verdict :=
  handleFrame inflate (f_fin fr) false (f_op fr) (f_payload fr) c f.
Lemma pumps_frame c f fr bs rest Q :
  frame_ok (maxPayloadSize c) fr -> encodes (role c) fr bs ->
  (forall c0, did [] [] [] c c0 -> let '(c1, f1, go) := handles c0 f fr in
     match go with Continue => pumps c1 f1 rest Q | Break => forall k, Q (advance k c1) | BreakWritten => Q (flush c1) end) ->
  pumps c f (bs ++ rest) Q.
Proof.
  intros (Ho & Hp) He Hgo fuel ticks s Hs Eb Hf. pose proof (encodes_length _ _ _ He) as Hl. rewrite length_app in Hf.
  destruct He as (mask & Hm & ->). destruct fuel as [|fuel]; [lia|].
  destruct (receive_encoded c _ _ _ mask rest Ho Hm Hp s Hs Eb) as (s' & Er & Hs' & Eb'). cbn [pump_loop]. rewrite Er.
  specialize (Hgo _ (did_advance (ticks O) c)). unfold handles in Hgo.
  destruct (handleFrame _ _ _ _ _ _ _) as [[c1 f1] []]; [apply Hgo; [done|done|lia]|eauto|eauto].
Qed.
(** A frame after which the loop reads on. *)
Lemma pumps_go c f fr bs rest Q f1 evs ans ms :
  frame_ok (maxPayloadSize c) fr -> encodes (role c) fr bs ->
  (forall c0, did [] [] [] c c0 -> exists c1, handles c0 f fr = (c1, f1, Continue) /\ did evs ans ms c0 c1) ->
  (forall c1, did evs ans ms c c1 -> pumps c1 f1 rest Q) -> pumps c f (bs ++ rest) Q.
Proof.
  intros Hok He Hh Hgo. eapply pumps_frame; [done|done|]. intros c0 H0. destruct (Hh c0 H0) as (c1 & -> & H1).
  apply Hgo. apply (did_trans [] [] [] _ _ _ _ _ _ H0 H1).
Qed.
Definition controls_events (ks : list control) : list action := concat (map control_events ks).
Definition controls_answers (mask : bool) (ks : list control) : list action := concat (map (control_answers mask) ks).
Lemma pumps_controls ks : forall c f bs rest Q,
  Forall (frame_ok (maxPayloadSize c)) (map control_frame ks) -> encoded (role c) (map control_frame ks) bs ->
  (forall c1, did (controls_events ks) (controls_answers (masks c) ks) [] c c1 -> pumps c1 f rest Q) -> pumps c f (bs ++ rest) Q.
Proof.
  induction ks as [|k ks IH]; intros c f bs rest Q Hok He Hp.
  - apply encoded_nil_inv in He as ->. apply Hp, did_refl.
  - cbn [map] in *. apply Forall_cons in Hok as [Hk Hks]. apply encoded_cons in He as (b1 & b2 & -> & He & Hes).
    rewrite <- app_assoc. apply (pumps_go c f (control_frame k) b1 (b2 ++ rest) Q f (control_events k) (control_answers (masks c) k) []); [done|done| |].
    + intros c0 H0. destruct k as [bs|bs]; (eexists; split; [reflexivity|]).
      * rewrite <- (did_masks _ _ _ _ _ H0). apply (did_trans [DispatchPing] [] [] [] _ [] _ (emit DispatchPing c0)); [by apply did_event|apply (did_enqueue OP_PONG bs (emit DispatchPing c0))].
      * by apply did_event.
    + intros c1 H1. apply IH; [by rewrite (did_max _ _ _ _ _ H1)|by rewrite (did_role _ _ _ _ _ H1)|]. intros c2 H2.
      rewrite (did_masks _ _ _ _ _ H1) in H2. apply Hp. apply (did_trans _ _ _ _ _ _ _ _ _ H1 H2).
Qed.

Lemma finish_message m c :
  match m with TextMessage s => Forall Utf8.is_unit s | BinaryMessage _ => True end ->
  finish inflate (message_op m) false (message_bytes m) c = (deliverMessage (shown m) c, Continue).
Proof.
  intros Hm. unfold finish. destruct m as [s|bs]; cbn [message_op message_bytes]; [|done].
  change (OP_TEXT =? OP_TEXT) with true. by rewrite Utf8.decodeUtf8_encode_any by done.
Qed.
Lemma handle_first m (fin : bool) data c :
  handleFrame inflate fin false (message_op m) data c no_fragments =
  if fin then let '(c, go) := finish inflate (message_op m) false (concat [data]) c in (c, no_fragments, go)
  else (c, {| fragOpcode := message_op m; fragParts := [data]; fragCompressed := false |}, Continue).
Proof. by destruct m, fin. Qed.
Lemma handle_more m (fin : bool) parts data c :
  handleFrame inflate fin false OP_CONTINUATION data c {| fragOpcode := message_op m; fragParts := parts; fragCompressed := false |} =
  if fin then let '(c, go) := finish inflate (message_op m) false (concat (parts ++ [data])) c in (c, no_fragments, go)
  else (c, {| fragOpcode := message_op m; fragParts := parts ++ [data]; fragCompressed := false |}, Continue).
Proof. by destruct m, fin. Qed.

Section message.
Context (m : WebSocketMessage) (Hm : match m with TextMessage s => Forall Utf8.is_unit s | BinaryMessage _ => True end).
(** The frames of a piece: the controls before it, then its data. *)
Lemma pumps_piece op fin p c f f1 bs rest Q evs ms :
  Forall (frame_ok (maxPayloadSize c)) (piece_frames op fin p) -> encoded (role c) (piece_frames op fin p) bs ->
  (forall c0, msgWaiters c0 = msgWaiters c -> exists c1, handleFrame inflate fin false op (p_data p) c0 f = (c1, f1, Continue) /\ did evs [] ms c0 c1) ->
  (forall c1, did (controls_events (p_before p) ++ evs) (controls_answers (masks c) (p_before p)) ms c c1 -> pumps c1 f1 rest Q) ->
  pumps c f (bs ++ rest) Q.
Proof.
  unfold piece_frames. intros Hok He Hh Hp. apply Forall_app in Hok as [Hok1 Hok2]. apply encoded_app in He as (b1 & b2 & -> & He1 & He2).
  rewrite Forall_singleton in Hok2. apply encoded_cons in He2 as (b3 & b4 & -> & He2 & ->%encoded_nil_inv). rewrite app_nil_r, <- app_assoc.
  apply (pumps_controls (p_before p)); [done|done|]. intros c1 H1.
  eapply (pumps_go c1 f {| f_op := op; f_fin := fin; f_payload := p_data p |} b3); [by rewrite (did_max _ _ _ _ _ H1)|by rewrite (did_role _ _ _ _ _ H1)| |].
  - intros c0 H0. apply Hh. by rewrite (did_waiters _ _ _ _ _ H0), (did_waiters _ _ _ _ _ H1).
  - intros c2 H2. apply Hp. pose proof (did_trans _ _ _ _ _ _ _ _ _ H1 H2) as H. by rewrite app_nil_r in H.
Qed.
Lemma deliver_shown c : msgWaiters c = [] -> did [DispatchMessage (shown m)] [] [shown m] c (deliverMessage (shown m) c).
Proof. apply did_deliver. Qed.
Lemma pumps_more more : forall c parts bs rest Q,
  more <> [] -> msgWaiters c = [] -> concat parts ++ concat (map p_data more) = message_bytes m ->
  Forall (frame_ok (maxPayloadSize c)) (more_frames more) -> encoded (role c) (more_frames more) bs ->
  (forall c1, did (controls_events (concat (map p_before more)) ++ [DispatchMessage (shown m)])
     (controls_answers (masks c) (concat (map p_before more))) [shown m] c c1 -> pumps c1 no_fragments rest Q) ->
  pumps c {| fragOpcode := message_op m; fragParts := parts; fragCompressed := false |} (bs ++ rest) Q.
Proof.
  induction more as [|p more IH]; intros c parts bs rest Q Hne Hw Hd Hok He Hp; [done|]. clear Hne.
  cbn [more_frames] in *. apply Forall_app in Hok as [Hok1 Hok2]. apply encoded_app in He as (b1 & b2 & -> & He1 & He2). rewrite <- app_assoc.
  cbn [map concat] in *. unfold controls_events, controls_answers in Hp. rewrite !map_app, !concat_app, <- app_assoc in Hp.
  destruct more as [|p' more].
  - apply encoded_nil_inv in He2 as ->. cbn [map concat app] in Hp. rewrite !app_nil_r in Hp. rewrite app_nil_l.
    eapply (pumps_piece OP_CONTINUATION true p c _ no_fragments b1 rest Q [DispatchMessage (shown m)] [shown m]); [done|done| |exact Hp].
    intros c0 H0. rewrite handle_more, concat_snoc. cbn in Hd. rewrite app_nil_r in Hd. rewrite Hd, finish_message by done.
    eexists. split; [done|]. apply deliver_shown. congruence.
  - eapply (pumps_piece OP_CONTINUATION false p c _ _ b1 _ Q [] []); [done|done| |].
    + intros c0 H0. rewrite handle_more. eexists. split; [done|apply did_refl].
    + intros c1 H1. apply IH; [done|by rewrite (did_waiters _ _ _ _ _ H1)| |by rewrite (did_max _ _ _ _ _ H1)|by rewrite (did_role _ _ _ _ _ H1)|].
      * rewrite concat_snoc. by rewrite <- app_assoc.
      * intros c2 H2. rewrite (did_masks _ _ _ _ _ H1) in H2. apply Hp. rewrite app_nil_r in H1. apply (did_trans _ _ _ _ _ _ _ _ _ H1 H2).
Qed.
Lemma pumps_sent first more c bs rest Q :
  msgWaiters c = [] -> p_data first ++ concat (map p_data more) = message_bytes m ->
  Forall (frame_ok (maxPayloadSize c)) (item_frames (Sent m first more)) -> encoded (role c) (item_frames (Sent m first more)) bs ->
  (forall c1, did (item_events (Sent m first more)) (item_answers (masks c) (Sent m first more)) [shown m] c c1 -> pumps c1 no_fragments rest Q) ->
  pumps c no_fragments (bs ++ rest) Q.
Proof.
  intros Hw Hd Hok He Hp. cbn [item_frames] in *. apply Forall_app in Hok as [Hok1 Hok2].
  apply encoded_app in He as (b1 & b2 & -> & He1 & He2). rewrite <- app_assoc.
  unfold item_events, item_answers in Hp. cbn [item_controls item_messages map] in Hp. rewrite !map_app, !concat_app, <- app_assoc in Hp.
  destruct more as [|p' more].
  - apply encoded_nil_inv in He2 as ->. cbn [map concat app] in Hp. rewrite !app_nil_r in Hp. rewrite app_nil_l.
    eapply (pumps_piece (message_op m) true first c _ no_fragments b1 rest Q [DispatchMessage (shown m)] [shown m]); [done|done| |exact Hp].
    intros c0 H0. rewrite handle_first. cbn [concat]. cbn in Hd. rewrite Hd, finish_message by done.
    eexists. split; [done|]. apply deliver_shown. congruence.
  - eapply (pumps_piece (message_op m) false first c _ _ b1 _ Q [] []); [done|done| |].
    + intros c0 H0. rewrite handle_first. eexists. split; [done|apply did_refl].
    + intros c1 H1. eapply (pumps_more (p' :: more)); [done|by rewrite (did_waiters _ _ _ _ _ H1)| |by rewrite (did_max _ _ _ _ _ H1)|by rewrite (did_role _ _ _ _ _ H1)|].
      * cbn [concat]. by rewrite app_nil_r.
      * intros c2 H2. rewrite (did_masks _ _ _ _ _ H1) in H2. apply Hp. rewrite app_nil_r in H1. apply (did_trans _ _ _ _ _ _ _ _ _ H1 H2).
Qed.
End message.
Lemma pumps_item i c bs rest Q :
  msgWaiters c = [] -> item_ok i -> Forall (frame_ok (maxPayloadSize c)) (item_frames i) -> encoded (role c) (item_frames i) bs ->
  (forall c1, did (item_events i) (item_answers (masks c) i) (item_messages i) c c1 -> pumps c1 no_fragments rest Q) ->
  pumps c no_fragments (bs ++ rest) Q.
Proof.
  intros Hw Hi Hok He Hp. destruct i as [ks|m first more]; [|destruct Hi; by eapply pumps_sent].
  eapply pumps_controls; [done|done|]. intros c1 H1. apply Hp. unfold item_events. cbn. by rewrite app_nil_r.
Qed.
Lemma pumps_items items : forall c bs rest Q,
  msgWaiters c = [] -> Forall item_ok items -> Forall (frame_ok (maxPayloadSize c)) (concat (map item_frames items)) ->
  encoded (role c) (concat (map item_frames items)) bs ->
  (forall c1, did (concat (map item_events items)) (concat (map (item_answers (masks c)) items)) (concat (map item_messages items)) c c1 ->
     pumps c1 no_fragments rest Q) ->
  pumps c no_fragments (bs ++ rest) Q.
Proof.
  induction items as [|i items IH]; intros c bs rest Q Hw Hi Hok He Hp; cbn [map concat] in *.
  - apply encoded_nil_inv in He as ->. apply Hp, did_refl.
  - apply Forall_cons in Hi as [Hi His]. apply Forall_app in Hok as [Hok1 Hok2]. apply encoded_app in He as (b1 & b2 & -> & He1 & He2).
    rewrite <- app_assoc. apply (pumps_item i); [done..|]. intros c1 H1.
    apply IH; [by rewrite (did_waiters _ _ _ _ _ H1)|done|by rewrite (did_max _ _ _ _ _ H1)|by rewrite (did_role _ _ _ _ _ H1)|].
    intros c2 H2. rewrite (did_masks _ _ _ _ _ H1) in H2. apply Hp. apply (did_trans _ _ _ _ _ _ _ _ _ H1 H2).
Qed.

Lemma close_code code : 0 <= code < 65536 ->
  close_payload code [] = [code / 256; code mod 256] /\ js_or (js_shl (code / 256) 8) (code mod 256) = code.
Proof.
  intros H. unfold close_payload. rewrite ushr_byte by lia. rewrite (js_and_ones _ 255 8) by lia.
  change (2 ^ 8) with 256. rewrite two_bytes by (unfold is_byte; zdm). split; [cbn [app]; do 2 f_equal; zdm|zdm].
Qed.
Lemma valid_code_range code : _validReceivedCloseCode code = true -> 1000 <= code <= 4999.
Proof.
  unfold _validReceivedCloseCode. destruct ((code <? 1000) || (4999 <? code)) eqn:E; [done|]. intros _. apply orb_false_iff in E as [H1 H2]. lia.
Qed.
(** The peer's close frame is echoed. *)
Lemma handle_close_frame code reason c (p := f_payload (close_frame code reason)) :
  _validReceivedCloseCode code = true -> Forall Utf8.is_unit reason -> zlen p <= 125 -> closeSent c = false ->
  handleClose p c = (enqueue OP_CLOSE p (set_sent (set_received code (shown_text reason) c)), BreakWritten).
Proof.
  intros Hv Hr Hl Hs. pose proof (valid_code_range _ Hv) as Hc. destruct (close_code code ltac:(lia)) as [Ep Ec].
  unfold p, close_frame in *. cbn [f_payload] in *. unfold close_payload in *. cbn [app] in *. injection Ep as E1 E2. rewrite E1, E2 in *.
  cbn [handleClose]. rewrite Ec, Hv. cbn [negb]. unfold shown_text.
  destruct (Z.leb_spec (zlen (code / 256 :: code mod 256 :: Utf8.encodeUtf8 reason)) 2) as [H2|H2].
  - assert (reason = []) as ->.
    { destruct (decide (reason = [])) as [|Hne]; [done|]. apply ThriftIO.encode_nonempty in Hne. rewrite !zlen_cons in H2.
      destruct (Utf8.encodeUtf8 reason); [done|]. rewrite zlen_cons in H2. pose proof (zlen_nonneg l). lia. }
    unfold echoClose. cbn [closeSent set_received]. by rewrite Hs.
  - rewrite Utf8.decodeUtf8_encode_any by done. unfold echoClose. cbn [closeSent set_received]. rewrite Hs.
    destruct (Z.leb_spec (zlen (code / 256 :: code mod 256 :: Utf8.encodeUtf8 reason)) 125); [done|lia].
Qed.
End pumping.

(** C12: what a conforming peer sends, uncompressed, in messages that are cut into
    fragments with pings and pongs between them and in whatever chunks the bytes
    arrive, is what the application gets: each message once, whole and in order,
    a text as it is decoded, which is without lone surrogates and without a byte
    order mark at its start.  After the frames that waited already, every ping is
    answered with its payload, in order, and then the close frame is echoed; the
    close event is clean, with the peer's code and reason.  This holds however slowly
    the queue of frames is written. *)
Theorem websocket_delivery (inflate : list Z -> res (list Z)) (ticks : nat -> nat) (c : conn) (items : list item) (code : Z) (reason : jsstring)
    (bs rest : list Z) (s : source) :
  readyState c = OPEN -> closeSent c = false -> msgWaiters c = [] ->
  Forall item_ok items -> _validReceivedCloseCode code = true -> Forall Utf8.is_unit reason ->
  Forall (frame_ok (maxPayloadSize c)) (concat (map item_frames items) ++ [close_frame code reason]) ->
  encoded (role c) (concat (map item_frames items) ++ [close_frame code reason]) bs ->
  source_ok s -> bytes s = bs ++ rest ->
  exists c' acts, readPump inflate ticks c s = Ok c' /\ readyState c' = CLOSED /\
    msgQueue c' = msgQueue c ++ concat (map item_messages items) /\
    trace c' = trace c ++ acts ++ [DispatchClose code (shown_text reason) true] /\
    events acts = concat (map item_events items) /\
    written acts = frames_of (masks c) (writeQueue c) ++ concat (map (item_answers (masks c)) items) ++
      [WriteFrame OP_CLOSE (f_payload (close_frame code reason)) (masks c)] /\
    writeQueue c' = [].
Proof.
  intros Ho Hcs Hw Hi Hv Hr Hok He Hs Eb. apply Forall_app in Hok as [Hok1 Hok2]. rewrite Forall_singleton in Hok2.
  apply encoded_app in He as (b1 & b2 & -> & He1 & He2). apply encoded_cons in He2 as (b3 & b4 & -> & He3 & He4).
  apply encoded_nil_inv in He4 as ->. rewrite app_nil_r, <- app_assoc in Eb.
  assert (Hl : zlen (f_payload (close_frame code reason)) <= 125) by (destruct Hok2 as [[H|[H|[H|(_ & _ & H)]]] _]; [done..|exact H]).
  assert (Hp : pumps inflate c no_fragments (b1 ++ b3 ++ rest) (fun c' => exists c1,
     did (concat (map item_events items)) (concat (map (item_answers (masks c)) items) ++ [WriteFrame OP_CLOSE (f_payload (close_frame code reason)) (masks c)])
       (concat (map item_messages items)) c c1 /\ writeQueue c1 = [] /\ c' = set_sent (set_received code (shown_text reason) c1))).
  { apply (pumps_items inflate items); [done..|]. intros c1 H1.
    apply (pumps_frame inflate c1 _ (close_frame code reason)); [by rewrite (did_max _ _ _ _ _ H1)|by rewrite (did_role _ _ _ _ _ H1)|].
    intros c0 H0. pose proof (did_trans _ _ _ _ _ _ _ _ _ H1 H0) as H2. rewrite !app_nil_r in H2.
    assert (handles inflate c0 no_fragments (close_frame code reason) =
      (enqueue OP_CLOSE (f_payload (close_frame code reason)) (set_sent (set_received code (shown_text reason) c0)), no_fragments, BreakWritten)) as ->.
    { unfold handles, handleFrame. change (f_op (close_frame code reason)) with 8. cbn [Z.eqb Pos.eqb OP_PING OP_PONG OP_CLOSE].
      rewrite handle_close_frame by (done || by rewrite (did_sent _ _ _ _ _ H2)). done. }
    exists (flush (enqueue OP_CLOSE (f_payload (close_frame code reason)) c0)). split; [|split; [apply flush_queue|apply flush_closed]].
    pose proof (did_trans _ _ _ _ _ _ _ _ _ H2 (did_enqueue OP_CLOSE (f_payload (close_frame code reason)) c0)) as H3.
    pose proof (did_trans _ _ _ _ _ _ _ _ _ H3 (did_advance (length (writeQueue (enqueue OP_CLOSE (f_payload (close_frame code reason)) c0))) _)) as H4.
    rewrite !app_nil_r, (did_masks _ _ _ _ _ H2) in H4. exact H4. }
  destruct (Hp (S (length (bytes s))) ticks s Hs Eb) as (c2 & Er & c1 & H1 & Hq & ->); [rewrite Eb; lia|].
  destruct H1 as [? Hst ? ? ? Hwt Hmq (acts & Et & Ee & Ew)]. rewrite Hq in Ew. cbn [frames_of map] in Ew. rewrite app_nil_r in Ew.
  exists (teardown (set_sent (set_received code (shown_text reason) c1))), acts. unfold readPump. rewrite Er. split; [done|].
  unfold teardown, closeIterators. cbn. rewrite Hst, Hwt, Ho, Hw. rewrite bool_decide_eq_false_2 by done. cbn.
  rewrite Et, Hmq, Hq, <- app_assoc. by split_and!.
Qed.

Definition new_conn (r : Role) : conn :=
  {| role := r; readyState := OPEN; closeSent := false; closeReceived := None; perMessageDeflate := false;
     maxPayloadSize := 16777216; msgQueue := []; msgWaiters := []; writeQueue := []; trace := [] |}.
(** A text in two fragments around a ping, then the close frame, in two chunks. *)
Definition sample_items : list item :=
  [Sent (TextMessage (js "hi")) {| p_before := []; p_data := [104] |} [{| p_before := [CPing [1]]; p_data := [105] |}]].
Definition sample_frames : list frame := concat (map item_frames sample_items) ++ [close_frame 1000 (js "bye")].
Definition sample_bytes : list Z := concat (map (fun fr => _encodeFrame (f_op fr) (f_payload fr) None (f_fin fr) 0) sample_frames).
Lemma websocket_delivery_witness :
  exists c' acts, readPump Ok (fun _ => O) (new_conn client) {| buf := new_buf; reader := [take 4 sample_bytes; drop 4 sample_bytes] |} = Ok c' /\
    readyState c' = CLOSED /\ msgQueue c' = [TextMessage (js "hi")] /\
    trace c' = acts ++ [DispatchClose 1000 (js "bye") true] /\
    events acts = [DispatchPing; DispatchMessage (TextMessage (js "hi"))] /\
    written acts = [WriteFrame OP_PONG [1] true; WriteFrame OP_CLOSE [3; 232; 98; 121; 101] true] /\ writeQueue c' = [].
Proof.
  destruct (websocket_delivery Ok (fun _ => O) (new_conn client) sample_items 1000 (js "bye") sample_bytes []
    {| buf := new_buf; reader := [take 4 sample_bytes; drop 4 sample_bytes] |}) as (c' & acts & H); try reflexivity.
  - repeat constructor; unfold Utf8.is_unit; cbn; lia.
  - repeat constructor; unfold Utf8.is_unit; cbn; lia.
  - match goal with |- Forall ?P ?l => let l' := eval vm_compute in l in change (Forall P l') end.
    repeat first [apply Forall_nil_2|apply Forall_cons_2]; unfold frame_ok, payload_ok, opcode_ok; cbn;
      (split; [first [by auto|right; right; right; split_and!; by auto]|]); (split; [solve_ranges|done]).
  - exists (map (fun fr => _encodeFrame (f_op fr) (f_payload fr) None (f_fin fr) 0) sample_frames). split; [done|].
    repeat constructor; by exists None.
  - exists c', acts. exact H.
Defined.

(** C14: reading a connection ends on every byte stream, whatever the state of
    the connection and the pace of its writes, and what it does depends only on the
    bytes, not on the chunks that they arrive in. *)
Theorem pump_total (inflate : list Z -> res (list Z)) (ticks : nat -> nat) (c : conn) (bs : list Z) :
  exists c', forall s, source_ok s -> bytes s = bs -> readPump inflate ticks c s = Ok c'.
Proof.
  destruct (pump_runs inflate (S (length bs)) ticks c no_fragments bs) as (c' & H); [lia|]. exists (teardown c').
  intros s Hs E. unfold readPump. rewrite E, H by done. done.
Qed.

Lemma pump_total_witness :
  exists c', (source_ok {| buf := new_buf; reader := [[129]; [1; 104]] |} /\ source_ok {| buf := push [129; 1] new_buf; reader := [[104]] |}) /\
    readPump Ok (fun _ => O) (new_conn client) {| buf := new_buf; reader := [[129]; [1; 104]] |} = Ok c' /\
    readPump Ok (fun _ => O) (new_conn client) {| buf := push [129; 1] new_buf; reader := [[104]] |} = Ok c'.
Proof.
  destruct (pump_total Ok (fun _ => O) (new_conn client) [129; 1; 104]) as (c' & H). exists c'.
  split; [done|]. split; apply H; reflexivity.
Defined.

(** ** Closing *)
(** Frames the connection may write besides a close frame of its own: what waited
    in the queue, and answers to pings. *)
Definition queued (q : list (Z * list Z)) (fr : Z * list Z) : Prop := fr.1 = OP_PONG \/ fr ∈ q.
Definition answering (q : list (Z * list Z)) (a : action) : Prop :=
  match a with WriteFrame op p _ => queued q (op, p) | _ => False end.
(** What the loop does before it closes. *)
Definition working (q : list (Z * list Z)) (a : action) : Prop :=
  match a with
  | WriteFrame _ _ _ => answering q a
  | DispatchClose _ _ _ | Resolve _ None => False
  | _ => True
  end.

Record went_on (q : list (Z * list Z)) (c c1 : conn) : Prop := {
  on_state : readyState c1 = readyState c;
  on_sent : closeSent c1 = closeSent c;
  on_received : closeReceived c1 = closeReceived c;
  on_masks : masks c1 = masks c;
  on_queue : Forall (queued q) (writeQueue c1);
  on_trace : exists w, trace c1 = trace c ++ w /\ Forall (working q) w;
}.

Lemma went_on_trans q c c1 c2 : went_on q c c1 -> went_on q c1 c2 -> went_on q c c2.
Proof.
  intros [? ? ? ? ? (w1 & T1 & F1)] [? ? ? ? ? (w2 & T2 & F2)]. split; try congruence. exists (w1 ++ w2).
  rewrite T2, T1, app_assoc. split; [done|]. by apply Forall_app.
Qed.

Section outcomes.
Context (inflate : list Z -> res (list Z)) (q : list (Z * list Z)).
End outcomes.

(** A ping and then an unmasked frame: the answer to the ping is written after the
    close frame. *)
Definition ping_then_violation : source := {| buf := new_buf; reader := [[137; 128; 0; 0; 0; 0; 129; 0]] |}.

(** ** What modelling showed *)

(** A text message that starts with U+FEFF loses it: the decoder takes it for a
    byte order mark. *)
Lemma byte_order_mark_lost inflate c :
  finish inflate OP_TEXT false (Utf8.encodeUtf8 [65279; 97]) c = (deliverMessage (TextMessage [97]) c, Continue).
Proof. reflexivity. Qed.
(** A ping and a violation that arrive together: the close frame does not wait for
    the queued answer, which is written behind it. *)
Lemma pong_after_close : exists c' reason, readPump Ok (fun i => match i with 2%nat => 1%nat | _ => O end) (new_conn server) ping_then_violation = Ok c' /\
  trace c' = [DispatchPing; WriteFrame OP_CLOSE (close_payload 1002 reason) false; WriteFrame OP_PONG [] false; DispatchClose 1006 [] false].
Proof. eexists _, (js "Frames from client must be masked"). split; vm_compute; reflexivity. Qed.
(** Until the loop ends, which waits for the echo to be written, a connection
    that got a close frame is still open: it writes data and a second close frame
    behind the echo. *)
Lemma frames_after_echo : exists c2 c3,
  send (SendText (js "x")) (handleClose [3; 232] (new_conn client)).1 = Ok c2 /\ close 1000 [] c2 = Ok c3 /\
  trace (flush c3) = [WriteFrame OP_CLOSE [3; 232] true; WriteFrame OP_TEXT [120] true; WriteFrame OP_CLOSE [3; 232] true].
Proof. do 2 eexists. split_and!; reflexivity. Qed.
(** After [close] the application writes nothing more. *)
Lemma close_stops_writes code reason c c' :
  readyState c = OPEN -> close code reason c = Ok c' ->
  (forall data, send data c' = Ok c') /\ (forall bs, ping bs c' = Ok c' /\ pong bs c' = Ok c') /\ forall code reason, close code reason c' = Ok c'.
Proof.
  unfold close. intros -> E. repeat case_match; simplify_eq. cbn. split_and!; try done.
Qed.
End WebSocketConnection.
